(* ===== verification/_CoqProject ===== *)
-Q . S2P
Prelude.v
Bits.v
U128.v
Types.v
Exprs.v
Registers.v
Func.v
Cfg.v
Dominators.v
DomProps.v
PostDominators.v
Scc.v
SccProps.v
SccRuns.v
Loops.v
Floats.v
Eval.v
VerifyExpr.v
Verify.v
ValueTypes.v
EvalProps.v
VerifyProps.v
EvalErrors.v
Ceval.v
Flags.v
Rewrite.v
Fold.v
FoldProps.v
FoldSound.v
Memory.v
Interp.v
RegisterViews.v
InterpSound.v
BlockSim.v
FoldRuns.v
EvalFrame.v
LocalPasses.v
DceSound.v
SubstSound.v
CopySound.v
CopyRuns.v
LoadSound.v
Denote.v
AlgebraIdioms.v
Algebra.v
AlgebraRules.v
AlgebraLocal.v
AlgebraShapes.v
AlgebraTests.v
AlgebraSound.v
AlgebraRuns.v
GuestMemory.v
GuestPages.v
GuestAccess.v
GuestProps.v
GuestPatches.v
GuestSafe.v
PltStub.v
Program.v
Sorting.v
Encoding.v
EncodingProps.v
Engine.v
DecodeProps.v
EngineProps.v
EngineTotal.v
Elaborate.v
Serialize.v
SerializeProps.v
LoadedSafe.v
Lift.v
LiftScan.v
LiftProps.v
LiftEnds.v
Sample.v
LocalSample.v
GuestSample.v
AlgebraSample.v
SpecSample.v
LiftSample.v
