(* ===== verification/Prelude.v ===== *)
(** * xdec: the decompiler's intermediate language, its interpreter, its
    verifier, its local passes, the engine of its specifications and the
    discovery of its functions

    xdec lifts machine code to an intermediate language (IL), runs passes over it
    and prints C. This library models the IL core the rest of the program stands
    on, as C++ has it under [src/il/], [src/support/], the graph analyses of
    [src/analysis/] and the block-local parts of [src/passes/], the guest address
    space of [src/exec/], and the back end of the architecture specifications under [src/spec/], which
    turns machine code into IL; and proves what each part relies on.

    ** The parts and their files

    - [Prelude]: machine integers as [Z] with their wrap-around written out
      ([u64], [u32], [toI64]), bit-level automation ([bitblast], the rewrite
      database [bitspec], the hint database [fits]), generic list lemmas.
    - [Bits] ([support/bits.h]): masks, rotations, fields, counts, byte order.
    - [U128] ([il/u128.h]): the two-word values of the interpreter and the
      constant evaluator, refined to integers modulo [2 ^ width].
    - [Types] ([il/type.cpp]), [Exprs] ([il/expr.cpp], [il/op.cpp],
      [support/handle.h]), [Registers] ([il/register_file.cpp]): the data. A
      handle is an [N], [kInvalidIndex] the invalid one; a [HandleVector] is a
      list; enums are inductive types with their tables of names.
    - [Func] ([il/function.cpp]): the [Function] record with its expression pool,
      tables, blocks and names; every builder and editor in the monad
      [M A = Function -> option (A * Function)], where [None] is a failed
      assertion or an access outside its container.
    - [Cfg]: [rebuildEdges] and [reversePostOrder].
    - [Dominators], [DomProps], [PostDominators] ([analysis/dominators.cpp]).
    - [Scc], [SccProps], [SccRuns] ([analysis/scc.cpp]): Tarjan's algorithm, the
      invariant of its stacks, and its run on the code's arrays. [Loops]
      ([analysis/loops.cpp], [analysis/reachability.cpp]): back edges, natural
      loops, reducibility and the reachable blocks, the sets grown by a worklist
      sharing one lemma.
    - [Floats], [Eval] ([il/interp.cpp], [Interpreter::eval]): the meaning of
      expressions, both as the recursive evaluator with its depth limit ([eval])
      and as a relation without one ([Eval]). Results are [Res]: a value, a
      diagnostic, or [Undefined] for what C++ leaves undefined.
    - [VerifyExpr], [Verify], [VerifyProps] ([il/verify.cpp]): [verifyOk level f]
      is the report being free of errors.
    - [ValueTypes], [EvalProps], [EvalErrors]: type soundness, correctness and
      error-freedom of evaluation.
    - [Ceval] ([il/ceval.cpp]): constant evaluation.
    - [Flags], [Rewrite], [Fold], [FoldProps], [FoldSound] ([passes/fold.cpp],
      [passes/transform.h]): the traversal, the two folds and their drivers.
    - [Memory] ([il/interp.cpp], [ExecMemory]): the two-layer memory; the class
      [ExecMemoryBackend] with [BackendLaws] is what the interpreter is promised.
    - [Interp], [RegisterViews], [InterpSound]: registers through views, and the
      execution of blocks, over any backend that keeps the laws.
    - [BlockSim]: operations with the same meaning, on machines that differ in
      values nothing reads and registers nothing looks at; [FoldRuns]: the folds
      and the interpreter together.
    - [LocalPasses] ([passes/transform.h], [copyprop.cpp], [load_forward.cpp],
      [dce.cpp]): the block-local transforms; [EvalFrame], [DceSound]: dead
      register accesses and the interpreter together; [SubstSound], [CopySound],
      [CopyRuns]: value substitution, copy propagation, and the latter with the
      interpreter; [LoadSound]: the forwarding of loads.
    - [AlgebraIdioms] ([passes/algebra_idioms.cpp]), [Algebra]
      ([passes/algebra.cpp]): the idiom matchers, the local rules, the rule loop,
      the memoising walk and its driver. [Denote] reads a pool as a partial
      function from handles to values; [AlgebraRules] says what a sound rule is
      and gives the logic the rules are proved in; [AlgebraLocal], [AlgebraShapes]
      and [AlgebraTests] prove the rules, [AlgebraSound] the loop
      and the walk, [AlgebraRuns] the driver together with the interpreter.
    - [GuestMemory] ([exec/memory.cpp], [exec/memory.h]): the guest address space,
      a store of pages with the cache's pointer into it, under a canonicalizer, a
      page provider and an image that are parameters, the first two of each call, so
      that a provider may change what it supplies between calls. [GuestPages] (pages
      and the cache), [GuestAccess] (byte ranges), [GuestProps] (reads and writes),
      [GuestPatches] (validation and patches, whose effect is folded over a view of
      the bytes and permissions), [GuestSafe] (every operation keeps the space well
      formed and ends).
    - [Program] ([spec/program.h]), [Sorting] ([std::sort] as a class with its
      laws), [Encoding] ([spec/encoding.cpp]): compiled specifications, the overlap
      report and the decision tree; [EncodingProps] proves what lookup finds, how
      large the tree can be and what the report says.
    - [Engine] ([spec/engine.cpp]): the bytecode interpreter in both its modes, in
      a monad whose runs end, meet something undefined, or go on past the fuel;
      [decode], [probe] and [elaborate]. [DecodeProps]: decoding against a linear
      scan; [EngineProps]: a probe and an elaboration take the same path;
      [EngineTotal]: runs end ([program_ends]), and meet nothing undefined where
      the program has no trap ([program_ok]); [Elaborate]: what an elaboration
      appends.
    - [Serialize] ([spec/serialize.cpp]): the blob's writer and reader;
      [SerializeProps]: round trip and truncation; [LoadedSafe]: what loading
      guarantees to the engine.
    - [PltStub] ([analysis/plt_stub.cpp], [analysis/noreturn.cpp]): which calls
      never return. [Lift] ([spec/lift.cpp]): [liftBasicBlock], [liftFunction] and
      [liftBlocksInto], with the discovery machine as explicit state and a monad
      over the function being built. [LiftScan]: what one turn of its worklist
      does, and the order in which the scan goes down; [LiftProps]: the walk over
      a block as a relation, and the blocks the scan finds; [LiftEnds]: lifting
      comes back.
    - [Sample], [LocalSample], [GuestSample], [AlgebraSample], [SpecSample],
      [LiftSample]: small
      instances on which the theorems are applied.

    ** How they interact

    Passes edit a [Function] through the builders of [Func]; [verifyOk] is what a
    pass manager checks between passes; [runBlock] gives the blocks their meaning.
    The chain of results follows it: a pool the verifier accepts evaluates to
    values of its types ([ValueTypes]), if its floats have the widths the
    interpreter has formats for ([floats_sized]), and without hitting undefined
    behaviour or an undefined value ([EvalErrors]), if it has no node that can
    ([definedNodes]); a block of such a function always comes to an outcome
    ([InterpSound]). Where the two evaluators agree on every node ([strictPool]; all
    of it together is [executable]), the folds replace operands by ones that take the
    same values ([FoldSound]) and so preserve every run of every block
    ([FoldRuns]), and so does algebraic simplification ([AlgebraRuns]); copies
    propagate ([CopyRuns]), loads are forwarded ([LoadSound]) and dead register
    accesses can go ([DceSound]). The guest address space stands beside
    the interpreter's own memory: execution sessions use the one, symbolic runs of
    blocks the other.

    IL comes from the specification engine: [deserialize] loads a compiled
    specification and checks it ([LoadedSafe]), the decision tree narrows the
    patterns a word may match ([EncodingProps]) so that [decode] finds the rule a
    scan would ([DecodeProps]), [probe] foretells the flow of an instruction and
    [elaborate] builds its operations with the builders of [Func] ([Elaborate]).
    The lifter drives it twice: the scan probes to find where blocks begin and end,
    splitting a block when a target falls inside of it ([LiftProps]), and the second
    phase elaborates each block and closes it. The bytes it reads, the names of the
    symbols the loader binds and the coverage of a trace are parameters.

    ** Groups of theorems

    Machine integers and 128-bit values against integer arithmetic; round trips of
    types, opcode tables, packed fields and memory; invariants of the register
    file, the hash-consed pool, the edges and the written ranges; termination of
    the order, the dominator passes, the folds and the walks over registers;
    dominators, the dominator tree, the frontier, strongly connected components,
    natural loops and reducibility against their path definitions; agreement of the
    two evaluators; type soundness and safety of execution; refinement by the folds; decoding, probing and elaboration; the
    blob's round trip and its checks; the blocks discovery finds, and that it ends.
    Theorems named after a failure
    ([logical_lower_same_wrong], [post_dominators_miss_loops],
    [frontier_misses_entry_loop], [nested_view_loses_root_bits],
    [dce_loses_partial_write], [copy_misreads_nested_view],
    [rem_by_zero_disagreement], [half_floats_exceed_width],
    [verified_nodes_undefined], [out_of_range_shifts], [parse_not_canonical],
    [algebra_changes_values], [truncated_blob_aborts], [last_error_dropped],
    [signed_division_traps], [observed_targets_overlap], [stub_entry_ignored],
    [narrow_width_traps], [reducible_misses_nested]) record where the code does
    not do what it means to.

    ** Bounds and fuel

    [eval] runs with the recursion C++ allows: depth 512, so 513 calls; below 257
    nodes of depth the limit is never met ([EvalProps]). [reversePostOrder],
    [collectValueUses], the dominator passes, Tarjan's search (one iteration for each
    block and each edge) and the worklists of the loops (one for each block) carry
    fuel that their theorems show to be enough ([reversePostOrder_correct],
    [collectValueUses_total], [dominators_correct], [sccs_correct],
    [natural_loops_correct]). Register walks use the number of registers
    ([rootOf_terminates]). The traversals of the folds recurse on the node's
    handle, which its operands precede ([folds_return]); so does the walk of
    [dceBlock] over the values in use ([dceUses_spec]). [simplify] counts down the
    levels that are left of [kMaxDepth], as the code counts up, and the rule loop
    the rounds left of [kMaxRounds]; both caps are the code's own. A run of a
    specification's body has fuel for [kMaxCallDepth] calls, each passing once over
    the longest body ([executeFuel]); where jumps go forward it never runs out
    ([engine_total]). The loop of [replicate] has 65 turns: its shift is undefined
    from 64 on, before its 32-bit counter can wrap. [buildNode] counts down the levels left of [kMaxDepth]. The
    readers of the blob recurse on counts the buffer has been checked to hold. A walk of
    the lifter needs a step for each readable address and one more, and for some
    number of turns of the worklist, which [lift_terminates] shows to exist by a
    lexicographic order on the pending blocks ([LiftScan]), the scan is done. The loops over
    pages and chunks of the guest address space carry fuel of one more than the
    number of pages of the range; those over the dirty words of a page one for each
    bit marked, for each word a run goes through (65), and for each byte of the page
    (4097), and without fuel they return nothing, so that [guest_always_consistent]
    shows it to be enough.

    Algebraic simplification preserves runs on functions that are [tame]: integer
    arithmetic stays at scalar types of at most 64 bits, immediates lie within
    their types, flag bundles are not cast, and no value is compared with its own
    sum in the order [matchCarryBound] mistakes;
    [algebra_changes_values] shows that the last two are needed.

    ** Not modelled

    Floating point is the Standard Library's [SpecFloat] with rounding to nearest
    even. Diagnostics keep their code and address, not their prose. The hooks an
    embedder gives the interpreter are parameters. Disassembly text, the front end of
    the specification language (lexer, parser, checker, compiler), the SSA passes,
    the remaining analyses, binary formats, C emission, the driver and the tools
    are not modelled. What C++ leaves undefined is an outcome of the model, [None],
    [Undefined] or [Fault] by component: shifts by 64 or more where the source does
    not guard them ([replicate], [decodeField], [assembleWord], [insertBits],
    [reachableBits], [matchShiftedCompare]), signed overflow, reads outside of
    containers. A byte of a blob that names no register class is the class
    [RegClass.Other]. The NaN an operation makes is the canonical one; C++ leaves
    its sign and payload to the hardware. The distribution of flag conditions
    through phis is a definition without a theorem. *)
From stdpp Require Export prelude gmap list numbers strings.
From Stdlib Require Export ZArith Lia.

#[export] Set Default Proof Using "Type".
Open Scope Z_scope.

(** ** Machine integers

    [uint64_t] and [unsigned] values are integers; [u64] and [u32] are the
    conversions the C++ types perform on every arithmetic result. *)
Definition u64 (z : Z) : Z := z mod 2 ^ 64.
Definition u32 (z : Z) : Z := z mod 2 ^ 32.
Definition u16 (z : Z) : Z := z mod 2 ^ 16.
Definition u8 (z : Z) : Z := z mod 2 ^ 8.

(** A value that fits an unsigned integer of [n] bits. *)
Definition fits (n a : Z) : Prop := 0 <= a < 2 ^ n.

(** The [uint64_t] operators that do not already stay in range. *)
Definition add64 (a b : Z) : Z := u64 (a + b).
Definition sub64 (a b : Z) : Z := u64 (a - b).
Definition mul64 (a b : Z) : Z := u64 (a * b).
Definition shl64 (a n : Z) : Z := u64 (Z.shiftl a n).
Definition shr64 (a n : Z) : Z := Z.shiftr a n.
Definition not64 (a : Z) : Z := u64 (Z.lnot a).

(** [static_cast<int64_t>] of a [uint64_t]. *)
Definition toI64 (a : Z) : Z := if a <? 2 ^ 63 then a else a - 2 ^ 64.

(** Linear arithmetic with division and remainder by constants. *)
Ltac dlia := Z.to_euclidean_division_equations; lia.

(** Resolve the first conditional of the goal, by arithmetic. *)
Ltac if_true :=
  match goal with |- context [if ?b then _ else _] => replace b with true by (symmetry; lia) end;
  cbv iota.
Ltac if_false :=
  match goal with |- context [if ?b then _ else _] => replace b with false by (symmetry; lia) end;
  cbv iota.

(** ** Bit-level reasoning *)

Lemma testbit_shiftl a n i :
  Z.testbit (Z.shiftl a n) i = (0 <=? i) && Z.testbit a (i - n).
Proof.
  destruct (Z.leb_spec 0 i); simpl.
  - apply Z.shiftl_spec; lia.
  - apply Z.testbit_neg_r; lia.
Qed.

Lemma testbit_shiftr a n i :
  Z.testbit (Z.shiftr a n) i = (0 <=? i) && Z.testbit a (i + n).
Proof.
  destruct (Z.leb_spec 0 i); simpl.
  - apply Z.shiftr_spec; lia.
  - apply Z.testbit_neg_r; lia.
Qed.

Lemma testbit_lnot a i :
  Z.testbit (Z.lnot a) i = (0 <=? i) && negb (Z.testbit a i).
Proof.
  destruct (Z.leb_spec 0 i); simpl.
  - apply Z.lnot_spec; lia.
  - apply Z.testbit_neg_r; lia.
Qed.

Lemma testbit_1 i : Z.testbit 1 i = (i =? 0).
Proof. destruct i as [|[]|]; reflexivity. Qed.

Lemma testbit_m1 i : Z.testbit (-1) i = (0 <=? i).
Proof. destruct (Z.leb_spec 0 i); [by apply Z.bits_m1|by apply Z.testbit_neg_r]. Qed.

Lemma testbit_high n a i : fits n a -> n <= i -> Z.testbit a i = false.
Proof.
  unfold fits. intros Ha Hi. destruct (Z.ltb_spec n 0) as [Hn|Hn].
  { rewrite Z.pow_neg_r in Ha; lia. }
  apply (Z.bounded_iff_bits_nonneg' n); lia.
Qed.

Lemma testbit_pow2 n i : 0 <= n -> Z.testbit (2 ^ n) i = (i =? n).
Proof.
  intros Hn. destruct (Z.eqb_spec i n) as [->|Hne].
  - apply Z.pow2_bits_true; lia.
  - destruct (Z.ltb_spec i 0).
    + apply Z.testbit_neg_r; lia.
    + apply Z.pow2_bits_false; lia.
Qed.

Lemma testbit_if (b : bool) x y i :
  Z.testbit (if b then x else y) i = if b then Z.testbit x i else Z.testbit y i.
Proof. by destruct b. Qed.

Create Rewrite HintDb bitspec.
#[export] Hint Rewrite testbit_shiftl testbit_shiftr testbit_lnot testbit_1 testbit_m1 testbit_if
  Z.land_spec Z.lor_spec Z.lxor_spec Z.ldiff_spec Z.testbit_0_l : bitspec.
#[export] Hint Rewrite Z.testbit_mod_pow2 Z.testbit_ones testbit_pow2 using lia : bitspec.

Ltac bit_split :=
  match goal with
  | |- context [?a <? ?b] => destruct (Z.ltb_spec a b)
  | |- context [?a <=? ?b] => destruct (Z.leb_spec a b)
  | |- context [?a =? ?b] => destruct (Z.eqb_spec a b)
  end.

(** [by_lia P] succeeds, without effect, when [lia] proves [P]. *)
Ltac by_lia P := let H := fresh in assert P as H by lia; clear H.

(** Bits above the width of a bounded variable, and bits at negative indices,
    are false; the cases the context leaves open are split. *)
Ltac bit_bounds_step :=
  match goal with
  | H : fits ?n ?a |- context [Z.testbit ?a ?i] =>
      tryif by_lia (i < n) then fail else
      tryif by_lia (n <= i) then rewrite (testbit_high n a i H) by lia
      else destruct (Z.lt_ge_cases i n)
  | |- context [Z.testbit ?a ?i] =>
      tryif by_lia (0 <= i) then fail else
      tryif by_lia (i < 0) then rewrite (Z.testbit_neg_r a i) by lia
      else destruct (Z.lt_ge_cases i 0)
  end; cbn [andb orb negb xorb]; try lia.

Ltac bit_bounds := repeat bit_bounds_step.

Ltac bit_same_index :=
  repeat match goal with
  | |- context [Z.testbit ?a ?i] =>
      match goal with
      | |- context [Z.testbit a ?j] =>
          tryif constr_eq i j then fail
          else replace (Z.testbit a j) with (Z.testbit a i) by (f_equal; lia)
      end
  end.

Ltac bit_simpl := autorewrite with bitspec; cbn [andb orb negb xorb].

Ltac bit_finish :=
  bit_bounds; bit_same_index; try reflexivity;
  repeat match goal with |- context [Z.testbit ?a ?i] => destruct (Z.testbit a i) end;
  try reflexivity.

Ltac bit_cases := bit_simpl; repeat (bit_split; try lia; bit_simpl).

(** Proves an equality of integers bit by bit. *)
Ltac bitblast :=
  apply Z.bits_inj';
  let i := fresh "i" in let Hi := fresh "Hi" in intros i Hi;
  bit_cases; bit_finish.

(** ** Bounds *)

Lemma pow2_pos n : 0 <= n -> 0 < 2 ^ n.
Proof. intros. lia. Qed.

Lemma fits_mod n z : 0 <= n -> fits n (z mod 2 ^ n).
Proof. intros. apply Z.mod_pos_bound. lia. Qed.

Lemma fits_u64 z : fits 64 (u64 z).
Proof. by apply fits_mod. Qed.

Lemma fits_weaken n m a : fits n a -> n <= m -> fits m a.
Proof.
  unfold fits. intros Ha Hnm. pose proof (Z.pow_le_mono_r 2 n m). lia.
Qed.

Lemma fits_bits n a : 0 <= n -> 0 <= a -> (forall i, n <= i -> Z.testbit a i = false) -> fits n a.
Proof. intros. by apply Z.bounded_iff_bits_nonneg'. Qed.

Lemma fits_land_l n a b : 0 <= n -> fits n a -> fits n (Z.land a b).
Proof.
  intros Hn Ha. unfold fits in *. apply fits_bits; [done|apply Z.land_nonneg; lia|].
  intros i Hi. rewrite Z.land_spec. by rewrite (testbit_high n a i).
Qed.

Lemma fits_land_r n a b : 0 <= n -> fits n b -> fits n (Z.land a b).
Proof. rewrite Z.land_comm. apply fits_land_l. Qed.

Lemma fits_lor n a b : 0 <= n -> fits n a -> fits n b -> fits n (Z.lor a b).
Proof.
  intros Hn Ha Hb. unfold fits in *. apply fits_bits; [done|apply Z.lor_nonneg; lia|].
  intros i Hi. rewrite Z.lor_spec. by rewrite (testbit_high n a i), (testbit_high n b i).
Qed.

Lemma fits_lxor n a b : 0 <= n -> fits n a -> fits n b -> fits n (Z.lxor a b).
Proof.
  intros Hn Ha Hb. unfold fits in *. apply fits_bits; [done|apply Z.lxor_nonneg; lia|].
  intros i Hi. rewrite Z.lxor_spec. by rewrite (testbit_high n a i), (testbit_high n b i).
Qed.

Lemma fits_shiftr n a k : 0 <= n -> 0 <= k -> fits n a -> fits n (Z.shiftr a k).
Proof.
  intros Hn Hk Ha. unfold fits in *. apply fits_bits; [done|apply Z.shiftr_nonneg; lia|].
  intros i Hi. rewrite Z.shiftr_spec by lia. apply (testbit_high n); [done|lia].
Qed.

Lemma fits_0 n : 0 <= n -> fits n 0.
Proof. unfold fits. lia. Qed.

Create HintDb fits.
#[export] Hint Resolve fits_u64 fits_mod fits_land_l fits_lor fits_lxor fits_shiftr fits_0 : fits.

(** A disjoint bitwise union is a sum. *)
Lemma lor_add_shiftl a b n :
  0 <= n -> fits n a -> Z.lor a (Z.shiftl b n) = a + b * 2 ^ n.
Proof.
  intros Hn Ha. rewrite <-Z.shiftl_mul_pow2 by done.
  rewrite <-Z.lxor_lor, Z.add_nocarry_lxor; [done| |]; bitblast.
Qed.

Lemma mod_small_fits n a : fits n a -> a mod 2 ^ n = a.
Proof. apply Z.mod_small. Qed.

Lemma u64_small a : fits 64 a -> u64 a = a.
Proof. apply Z.mod_small. Qed.

(** Reduction modulo a power of two commutes with the ring operations. *)
Lemma mod_pow2_mod_pow2 a n m : 0 <= n <= m -> (a mod 2 ^ m) mod 2 ^ n = a mod 2 ^ n.
Proof. intros. bitblast. Qed.

(** ** Two's complement *)

(** The signed reading of a [w]-bit pattern. *)
Definition signed (w a : Z) : Z := if a <? 2 ^ (w - 1) then a else a - 2 ^ w.

Lemma pow2_half w : 1 <= w -> 2 ^ w = 2 * 2 ^ (w - 1).
Proof. intros. rewrite <-Z.pow_succ_r by lia. f_equal. lia. Qed.

Lemma signed_range w a : 1 <= w -> fits w a -> - 2 ^ (w - 1) <= signed w a < 2 ^ (w - 1).
Proof.
  unfold fits, signed. intros Hw Ha. pose proof (pow2_half w Hw).
  destruct (Z.ltb_spec a (2 ^ (w - 1))); lia.
Qed.

Lemma testbit_top w a : 1 <= w -> fits w a -> Z.testbit a (w - 1) = negb (a <? 2 ^ (w - 1)).
Proof.
  unfold fits. intros Hw Ha. pose proof (pow2_half w Hw) as Hp.
  destruct (Z.ltb_spec a (2 ^ (w - 1))) as [Hlt|Hge]; simpl.
  - apply (testbit_high (w - 1)); [unfold fits|]; lia.
  - rewrite Z.testbit_true by lia.
    replace (a / 2 ^ (w - 1)) with 1; [done|].
    apply Z.div_unique with (r := a - 2 ^ (w - 1)); lia.
Qed.

Lemma signed_top w a :
  1 <= w -> fits w a -> signed w a = if Z.testbit a (w - 1) then a - 2 ^ w else a.
Proof. intros. unfold signed. rewrite testbit_top by done. by destruct (_ <? _). Qed.

Lemma toI64_signed a : toI64 a = signed 64 a.
Proof. reflexivity. Qed.

Lemma signed_mod w a : 0 <= w -> fits w a -> signed w a mod 2 ^ w = a.
Proof.
  unfold fits, signed. intros Hw Ha. destruct (_ <? _).
  - by apply Z.mod_small.
  - replace (a - 2 ^ w) with (a + (-1) * 2 ^ w) by lia. rewrite Z.mod_add by lia.
    by apply Z.mod_small.
Qed.

Lemma signed_inj w a b : 0 <= w -> fits w a -> fits w b -> signed w a = signed w b -> a = b.
Proof. intros Hw Ha Hb Heq. rewrite <-(signed_mod w a), <-(signed_mod w b) by done. by rewrite Heq. Qed.

(** The unique representative in the signed range determines [signed]. *)
Lemma signed_unique w z :
  1 <= w -> - 2 ^ (w - 1) <= z < 2 ^ (w - 1) -> signed w (z mod 2 ^ w) = z.
Proof.
  intros Hw Hz. pose proof (pow2_half w Hw). unfold signed.
  destruct (Z.ltb_spec z 0).
  - rewrite (Z.mod_eq z) by lia. replace (z / 2 ^ w) with (-1).
    + destruct (Z.ltb_spec (z - 2 ^ w * -1) (2 ^ (w - 1))); lia.
    + apply Z.div_unique with (r := z + 2 ^ w); lia.
  - rewrite Z.mod_small by lia. destruct (Z.ltb_spec z (2 ^ (w - 1))); lia.
Qed.

(** Flipping the top bit of a [w]-bit pattern. *)
Lemma lxor_top w a :
  1 <= w -> fits w a ->
  Z.lxor a (2 ^ (w - 1)) = if a <? 2 ^ (w - 1) then a + 2 ^ (w - 1) else a - 2 ^ (w - 1).
Proof.
  intros Hw Ha. pose proof (pow2_half w Hw) as Hp. unfold fits in Ha.
  destruct (Z.ltb_spec a (2 ^ (w - 1))) as [Hlt|Hge].
  - assert (fits (w - 1) a) by (unfold fits; lia).
    symmetry. apply Z.add_nocarry_lxor. bitblast.
  - replace (a - 2 ^ (w - 1)) with (a mod 2 ^ (w - 1)).
    + assert (fits w a) by done. pose proof (testbit_top w a Hw ltac:(done)) as Ht.
      assert ((a <? 2 ^ (w - 1)) = false) as Hf by lia. rewrite Hf in Ht. simpl in Ht.
      apply Z.bits_inj'. intros i Hi. bit_cases; bit_bounds; subst; rewrite ?Ht; try done.
      by rewrite xorb_false_r.
    + symmetry. apply Z.mod_unique with (q := 1); lia.
Qed.

(** ** Lists *)

Lemma insert_snoc {A} (l : list A) x y : <[length l := y]> (l ++ [x]) = l ++ [y].
Proof. rewrite insert_app_r_alt by done. by rewrite Nat.sub_diag. Qed.

Lemma forallb_iff {A} (q : A -> bool) l : forallb q l = true <-> forall x, x ∈ l -> q x = true.
Proof. rewrite forallb_forall. by setoid_rewrite list_elem_of_In. Qed.

Lemma forallb_elem {A} (q : A -> bool) l x : forallb q l = true -> x ∈ l -> q x = true.
Proof. rewrite forallb_iff. eauto. Qed.

Lemma forallb_lookup {A} (q : A -> bool) l k x : forallb q l = true -> l !! k = Some x -> q x = true.
Proof. intros H Hk. by eapply forallb_elem, list_elem_of_lookup_2. Qed.

(** ** Loops *)

(** A loop over [0 .. n-1] that establishes an invariant step by step. *)
Lemma foldl_seqZ_ind {A} (P : Z -> A -> Prop) (f : A -> Z -> A) a n :
  0 <= n -> P 0 a -> (forall k x, 0 <= k < n -> P k x -> P (k + 1) (f x k)) ->
  P n (foldl f a (seqZ 0 n)).
Proof.
  intros Hn H0 Hstep.
  assert (forall m : nat, Z.of_nat m <= n -> P (Z.of_nat m) (foldl f a (seqZ 0 (Z.of_nat m)))) as Hm.
  { induction m as [|m IH]; intros Hle; [done|].
    rewrite seqZ_S, foldl_app. cbn [foldl]. rewrite Z.add_0_l.
    replace (Z.of_nat (S m)) with (Z.of_nat m + 1) by lia.
    apply Hstep; [lia|]. apply IH. lia. }
  specialize (Hm (Z.to_nat n)). rewrite Z2Nat.id in Hm by done. by apply Hm.
Qed.
