(* ===== verification/Bits.v ===== *)
(** * Bits: the bit-manipulation primitives of [include/xdec/support/bits.h]

    Every function works on a [uint64_t] value and an explicit bit width.  The
    first part transcribes the header; the second shows what each primitive
    computes on integers, which is what the 128-bit arithmetic of [U128] and
    the evaluators build on. *)
From S2P Require Import Prelude.

(** ** The operations *)

Definition kMaxIntWidth : Z := 64.

Definition lowMask (width : Z) : Z :=
  if 64 <=? width then not64 0 else sub64 (shl64 1 width) 1.

Definition zeroExtend (value width : Z) : Z := Z.land value (lowMask width).

(** The result is an [int64_t]. *)
Definition signExtend (value width : Z) : Z :=
  if (width =? 0) || (64 <=? width) then toI64 value
  else
    let masked := Z.land value (lowMask width) in
    let signBit := shl64 1 (width - 1) in
    toI64 (sub64 (Z.lxor masked signBit) signBit).

Definition signExtendTo (value fromWidth toWidth : Z) : Z :=
  zeroExtend (u64 (signExtend value fromWidth)) toWidth.

Definition extractBits (value lo width : Z) : Z :=
  if 64 <=? lo then 0 else zeroExtend (shr64 value lo) width.

Definition testBit (value bit : Z) : bool :=
  (bit <? 64) && negb (Z.land (shr64 value bit) 1 =? 0).

(** The shifts by [lo] are undefined at 64 and above. *)
Definition insertBits (dest field lo width : Z) : option Z :=
  if 64 <=? lo then None
  else
    let mask := shl64 (lowMask width) lo in
    Some (Z.lor (Z.land dest (not64 mask)) (Z.land (shl64 field lo) mask)).

(** The rotations are for widths up to 64, which the callers guard
    (engine.cpp's [RotR] leaves wider values alone): both shifts are then
    below 64. *)

Definition rotateRight (value width amount : Z) : Z :=
  if width =? 0 then 0
  else
    let v := zeroExtend value width in
    let amt := amount mod width in
    if amt =? 0 then v
    else zeroExtend (Z.lor (shr64 v amt) (shl64 v (width - amt))) width.

Definition rotateLeft (value width amount : Z) : Z :=
  if width =? 0 then 0 else rotateRight value width (width - amount mod width).

(** The loop [for (shift = 0; shift < totalWidth; shift += elementWidth)]. The
    counter is an [unsigned], and a shift of 64 or more is undefined: it is met
    before the counter could wrap, so 65 turns are enough. *)
Fixpoint replicate_loop (fuel : nat) (element elementWidth totalWidth shift result : Z) : option Z :=
  match fuel with
  | O => None
  | S fuel =>
      if shift <? totalWidth then
        if 64 <=? shift then None
        else replicate_loop fuel element elementWidth totalWidth (u32 (shift + elementWidth))
               (Z.lor result (shl64 element shift))
      else Some result
  end.

Definition replicate (value elementWidth totalWidth : Z) : option Z :=
  if (elementWidth =? 0) || (64 <? elementWidth) then Some 0
  else
    let element := zeroExtend value elementWidth in
    (fun result => zeroExtend result totalWidth) <$> replicate_loop 65 element elementWidth totalWidth 0 0.

Definition isPowerOfTwo (value : Z) : bool :=
  negb (value =? 0) && (Z.land value (sub64 value 1) =? 0).

(** The [XDEC_DASSERT] on the alignment is the failing case. *)
Definition alignUp (value alignment : Z) : option Z :=
  if isPowerOfTwo alignment
  then Some (Z.land (sub64 (add64 value alignment) 1) (not64 (sub64 alignment 1)))
  else None.

Definition alignDown (value alignment : Z) : option Z :=
  if isPowerOfTwo alignment
  then Some (Z.land value (not64 (sub64 alignment 1)))
  else None.

(** The [<bit>] functions of the C++ library on [uint64_t]. *)
Fixpoint pos_popcount (p : positive) : Z :=
  match p with
  | xH => 1
  | xO p => pos_popcount p
  | xI p => 1 + pos_popcount p
  end.

Definition popcount (value : Z) : Z :=
  match value with Zpos p => pos_popcount p | _ => 0 end.

Fixpoint pos_ctz (p : positive) : Z :=
  match p with xO p => 1 + pos_ctz p | _ => 0 end.

Definition countr_zero (value : Z) : Z :=
  match value with Zpos p => pos_ctz p | _ => 64 end.

Definition countl_zero (value : Z) : Z :=
  match value with Zpos p => 63 - Z.log2 (Zpos p) | _ => 64 end.

Definition countOnes (value : Z) : Z := popcount value.

Definition countTrailingZeros (value : Z) : Z :=
  if value =? 0 then 64 else countr_zero value.

Definition countLeadingZeros (value width : Z) : Z :=
  if (width =? 0) || (64 <? width) then 0
  else
    let v := zeroExtend value width in
    if v =? 0 then width else countl_zero v - (64 - width).

Definition significantBits (value : Z) : Z :=
  if value =? 0 then 0 else 64 - countl_zero value.

(** ** Byte order *)

Definition byteSwap8 (value : Z) : Z := value.

Definition byteSwap16 (value : Z) : Z :=
  u16 (Z.lor (Z.shiftr value 8) (Z.shiftl value 8)).

Definition byteSwap32 (value : Z) : Z :=
  Z.lor
    (Z.lor
       (Z.lor (u32 (Z.shiftl (Z.land value 0x000000FF) 24))
              (u32 (Z.shiftl (Z.land value 0x0000FF00) 8)))
       (Z.shiftr (Z.land value 0x00FF0000) 8))
    (Z.shiftr (Z.land value 0xFF000000) 24).

Definition byteSwap64 (value : Z) : Z :=
  Z.lor (shl64 (byteSwap32 (u32 value)) 32) (byteSwap32 (u32 (shr64 value 32))).

(** The [XDEC_DASSERT] fails, or the width is zero and the shift is by 64. *)
Definition byteSwapWidth (value width : Z) : option Z :=
  if (width mod 8 =? 0) && (width <=? 64) && negb (width =? 0)
  then Some (shr64 (byteSwap64 value) (64 - width))
  else None.

(** [loadUnaligned<uint64_t>] copies the object representation, so it depends on
    the host's byte order; [loadLittle] and [loadBig] do not. *)
Inductive endian : Set := little | big.

Definition le_combine (bytes : list Z) : Z := little_endian_to_Z 8 bytes.

Definition loadUnaligned64 (native : endian) (source : list Z) : Z :=
  match native with
  | little => le_combine (take 8 source)
  | big => le_combine (reverse (take 8 source))
  end.

Definition loadLittle64 (native : endian) (source : list Z) : Z :=
  let value := loadUnaligned64 native source in
  match native with big => byteSwap64 value | little => value end.

Definition loadBig64 (native : endian) (source : list Z) : Z :=
  let value := loadUnaligned64 native source in
  match native with little => byteSwap64 value | big => value end.

(** ** What they compute *)

Lemma lowMask_ones width : 0 <= width -> lowMask width = Z.ones (Z.min width 64).
Proof.
  intros Hw. unfold lowMask. destruct (Z.leb_spec 64 width).
  - rewrite Z.min_r by lia. reflexivity.
  - rewrite Z.min_l by lia. unfold sub64, shl64, u64.
    rewrite Z.shiftl_mul_pow2, Z.mul_1_l, Z.ones_equiv by lia.
    pose proof (Z.pow_lt_mono_r 2 width 64 ltac:(lia) ltac:(lia) ltac:(lia)).
    rewrite (Z.mod_small (2 ^ width)) by lia. rewrite Z.mod_small by lia. lia.
Qed.

Lemma zeroExtend_mod value width :
  0 <= width -> zeroExtend value width = value mod 2 ^ Z.min width 64.
Proof. intros. unfold zeroExtend. rewrite lowMask_ones, Z.land_ones by lia. done. Qed.

Lemma zeroExtend_mod_le value width :
  0 <= width <= 64 -> zeroExtend value width = value mod 2 ^ width.
Proof. intros. rewrite zeroExtend_mod by lia. by rewrite Z.min_l by lia. Qed.

Lemma fits_lowMask width : 0 <= width -> fits (Z.min width 64) (lowMask width).
Proof. intros. rewrite lowMask_ones by done. unfold fits. rewrite Z.ones_equiv. lia. Qed.

Lemma testbit_lowMask width i :
  0 <= width -> Z.testbit (lowMask width) i = (0 <=? i) && (i <? Z.min width 64).
Proof. intros. by rewrite lowMask_ones, Z.testbit_ones by lia. Qed.

Lemma testbit_shl64 a n i :
  Z.testbit (shl64 a n) i = (i <? 64) && ((0 <=? i) && Z.testbit a (i - n)).
Proof. unfold shl64, u64. by rewrite Z.testbit_mod_pow2, testbit_shiftl by lia. Qed.

Lemma testbit_shr64 a n i : Z.testbit (shr64 a n) i = (0 <=? i) && Z.testbit a (i + n).
Proof. apply testbit_shiftr. Qed.

Lemma testbit_not64 a i :
  Z.testbit (not64 a) i = (i <? 64) && ((0 <=? i) && negb (Z.testbit a i)).
Proof. unfold not64, u64. by rewrite Z.testbit_mod_pow2, testbit_lnot by lia. Qed.

Lemma testbit_u64 a i : Z.testbit (u64 a) i = (i <? 64) && Z.testbit a i.
Proof. unfold u64. by rewrite Z.testbit_mod_pow2 by lia. Qed.

#[export] Hint Rewrite testbit_shl64 testbit_shr64 testbit_not64 testbit_u64 : bitspec.
#[export] Hint Rewrite testbit_lowMask using lia : bitspec.

Lemma fits_zeroExtend value width :
  0 <= width -> fits (Z.min width 64) (zeroExtend value width).
Proof. intros. rewrite zeroExtend_mod by done. apply fits_mod; lia. Qed.

Lemma fits_shl64 a n : fits 64 (shl64 a n).
Proof. apply fits_u64. Qed.

Lemma fits_shr64 a n : 0 <= n -> fits 64 a -> fits 64 (shr64 a n).
Proof. apply fits_shiftr; lia. Qed.

Lemma fits_not64 a : fits 64 (not64 a).
Proof. apply fits_u64. Qed.

#[export] Hint Resolve fits_shl64 fits_shr64 fits_not64 : fits.

Lemma signExtend_signed value width :
  1 <= width <= 64 -> fits 64 value -> signExtend value width = signed width (value mod 2 ^ width).
Proof.
  intros Hw Hv. unfold signExtend.
  destruct (Z.eqb_spec width 0), (Z.leb_spec 64 width); simpl; try lia.
  { assert (width = 64) as -> by lia. by rewrite toI64_signed, mod_small_fits. }
  change (Z.land value (lowMask width)) with (zeroExtend value width).
  rewrite zeroExtend_mod_le by lia.
  assert (shl64 1 (width - 1) = 2 ^ (width - 1)) as ->.
  { unfold shl64. rewrite Z.shiftl_mul_pow2, Z.mul_1_l by lia. apply u64_small.
    unfold fits. pose proof (Z.pow_lt_mono_r 2 (width - 1) 64). lia. }
  assert (fits width (value mod 2 ^ width)) as Hm by (apply fits_mod; lia).
  rewrite lxor_top by (done || lia).
  pose proof (signed_range width _ (proj1 Hw) Hm) as Hr.
  pose proof (pow2_half width (proj1 Hw)) as Hp.
  pose proof (Z.pow_le_mono_r 2 (width - 1) (64 - 1) ltac:(lia) ltac:(lia)) as Hle.
  rewrite toI64_signed. unfold sub64, u64.
  rewrite <-(signed_unique 64 (signed width (value mod 2 ^ width))) by lia.
  do 2 f_equal. unfold signed. destruct (_ <? _); lia.
Qed.

Lemma signExtendTo_mod value fromWidth toWidth :
  1 <= fromWidth <= 64 -> 0 <= toWidth <= 64 -> fits 64 value ->
  signExtendTo value fromWidth toWidth =
    signed fromWidth (value mod 2 ^ fromWidth) mod 2 ^ toWidth.
Proof.
  intros. unfold signExtendTo. rewrite zeroExtend_mod_le, signExtend_signed by done.
  unfold u64. apply mod_pow2_mod_pow2. lia.
Qed.

Lemma testBit_spec value bit : 0 <= bit -> fits 64 value -> testBit value bit = Z.testbit value bit.
Proof.
  intros Hb Hv. unfold testBit. change 1 with (Z.ones 1). rewrite Z.land_ones by lia.
  unfold shr64. rewrite <-Z.bit0_mod, Z.shiftr_spec, Z.add_0_l by lia.
  destruct (Z.ltb_spec bit 64); simpl.
  - by destruct (Z.testbit value bit).
  - by rewrite (testbit_high 64 value bit).
Qed.

Lemma extractBits_mod value lo width :
  0 <= lo -> 0 <= width <= 64 -> fits 64 value ->
  extractBits value lo width = (value / 2 ^ lo) mod 2 ^ width.
Proof.
  intros. rewrite <-Z.shiftr_div_pow2 by done. unfold extractBits.
  destruct (Z.leb_spec 64 lo).
  - symmetry. bitblast.
  - by rewrite zeroExtend_mod_le.
Qed.

Lemma insertBits_bits dest field lo width :
  0 <= lo < 64 -> 0 <= width -> lo + width <= 64 -> fits 64 dest ->
  exists v, insertBits dest field lo width = Some v /\
    forall i, 0 <= i -> Z.testbit v i =
      if (lo <=? i) && (i <? lo + width) then Z.testbit field (i - lo) else Z.testbit dest i.
Proof.
  intros. unfold insertBits. if_false. eexists. split; [done|]. intros i Hi. bit_cases; bit_finish.
Qed.

(** ** Rotations *)

Lemma testbit_rotateRight value width amount i :
  0 < width <= 64 -> 0 <= amount -> 0 <= i ->
  Z.testbit (rotateRight value width amount) i =
    (i <? width) && Z.testbit value ((i + amount) mod width).
Proof.
  intros Hw Ha Hi. unfold rotateRight. destruct (Z.eqb_spec width 0); [lia|].
  assert ((i + amount) mod width = (i + amount mod width) mod width) as ->.
  { by rewrite Zplus_mod_idemp_r. }
  pose proof (Z.mod_pos_bound amount width ltac:(lia)) as Hb.
  set (r := amount mod width) in *.
  rewrite !zeroExtend_mod_le by lia.
  destruct (Z.ltb_spec i width) as [Hlt|Hge].
  2: { destruct (r =? 0); rewrite ?zeroExtend_mod_le, Z.testbit_mod_pow2 by lia; bit_cases. }
  destruct (Z.ltb_spec (i + r) width).
  - rewrite (Z.mod_small (i + r)) by lia.
    destruct (Z.eqb_spec r 0) as [->|]; rewrite ?zeroExtend_mod_le by lia; bit_cases; bit_finish.
  - rewrite <-(Z.mod_unique (i + r) width 1 (i + r - width)) by lia.
    destruct (Z.eqb_spec r 0) as [->|]; [lia|].
    bit_cases; bit_finish.
Qed.

Lemma testbit_rotateLeft value width amount i :
  0 < width <= 64 -> 0 <= amount -> 0 <= i ->
  Z.testbit (rotateLeft value width amount) i =
    (i <? width) && Z.testbit value ((i - amount) mod width).
Proof.
  intros Hw Ha Hi. unfold rotateLeft. destruct (Z.eqb_spec width 0); [lia|].
  pose proof (Z.mod_pos_bound amount width ltac:(lia)).
  rewrite testbit_rotateRight by lia. do 2 f_equal.
  rewrite Z.add_sub_assoc, Zminus_mod_idemp_r.
  replace (i + width - amount) with (i - amount + 1 * width) by lia. by rewrite Z.mod_add.
Qed.

Lemma rotateLeft_rotateRight value width amount :
  0 < width <= 64 -> 0 <= amount ->
  rotateLeft (rotateRight value width amount) width amount = value mod 2 ^ width.
Proof.
  intros. apply Z.bits_inj'. intros i Hi.
  rewrite testbit_rotateLeft, Z.testbit_mod_pow2 by lia.
  destruct (Z.ltb_spec i width); [|done]. simpl.
  pose proof (Z.mod_pos_bound (i - amount) width ltac:(lia)) as Hb.
  rewrite testbit_rotateRight by lia.
  destruct (Z.ltb_spec ((i - amount) mod width) width); [|lia]. simpl.
  f_equal. rewrite Zplus_mod_idemp_l. rewrite Z.sub_add. apply Z.mod_small. lia.
Qed.

(** ** Replication *)

(** The loop ends in a value, or at the first multiple of the element's width
    that is 64 or more when it is below the total. *)
Lemma replicate_loop_spec fuel element ew total shift result k m :
  0 < ew <= 64 -> fits ew element -> 64 <= m * ew < 64 + ew -> shift = k * ew -> 0 <= k <= m ->
  (0 < fuel)%nat -> 64 < shift + Z.of_nat fuel ->
  (forall j, 0 <= j < 64 -> Z.testbit result j = (j <? shift) && Z.testbit element (j mod ew)) ->
  match replicate_loop fuel element ew total shift result with
  | Some r => total <= m * ew /\ forall i, 0 <= i < 64 -> i < total -> Z.testbit r i = Z.testbit element (i mod ew)
  | None => m * ew < total
  end.
Proof.
  intros Hew Hel Hm. revert k shift result.
  induction fuel as [|fuel IH]; intros k shift result -> Hk H0 Hf Hres; [lia|]. cbn [replicate_loop].
  destruct (Z.ltb_spec (k * ew) total).
  2: { split; [pose proof (Z.mul_le_mono_nonneg_r k m ew); lia|]. intros i Hi Hit. rewrite Hres by done. destruct (Z.ltb_spec i (k * ew)); [done|lia]. }
  destruct (Z.leb_spec 64 (k * ew)).
  { destruct (Z.eq_dec k m) as [->|]; [done|]. pose proof (Z.mul_le_mono_nonneg_r (k + 1) m ew). lia. }
  assert (k < m) by (apply (Z.mul_lt_mono_pos_r ew); lia). assert (0 <= k * ew) by nia. unfold u32. rewrite Z.mod_small by lia. apply (IH (k + 1)); try lia.
  intros j Hj. rewrite Z.lor_spec, testbit_shl64, Hres by done.
  destruct (Z.ltb_spec j 64), (Z.leb_spec 0 j); try lia. simpl.
  destruct (Z.ltb_spec j (k * ew)).
  { rewrite (Z.testbit_neg_r element (j - k * ew)) by lia. rewrite orb_false_r. simpl.
    destruct (Z.ltb_spec j (k * ew + ew)); [done|lia]. }
  simpl. destruct (Z.ltb_spec j (k * ew + ew)); simpl.
  - f_equal. apply Z.mod_unique with (q := k); lia.
  - apply (testbit_high ew); [done|lia].
Qed.

(** Where [replicate] is defined, and its bits there. *)
Lemma testbit_replicate value ew total :
  0 < ew <= 64 -> 0 <= total ->
  match replicate value ew total with
  | Some r => total <= (64 + ew - 1) / ew * ew /\
      forall i, 0 <= i < 64 -> Z.testbit r i = (i <? total) && Z.testbit value (i mod ew)
  | None => (64 + ew - 1) / ew * ew < total
  end.
Proof.
  intros Hew Ht. unfold replicate. destruct (Z.eqb_spec ew 0), (Z.ltb_spec 64 ew); cbn [orb]; try lia.
  set (m := (64 + ew - 1) / ew).
  assert (64 <= m * ew < 64 + ew) as Hm.
  { unfold m. pose proof (Z.div_mod (64 + ew - 1) ew ltac:(lia)). pose proof (Z.mod_pos_bound (64 + ew - 1) ew). lia. }
  assert (0 <= 0 <= m) as H0 by (split; [done|]; apply Z.div_pos; lia).
  assert (fits ew (zeroExtend value ew)) as Hel by (rewrite zeroExtend_mod_le by lia; apply fits_mod; lia).
  pose proof (replicate_loop_spec 65 (zeroExtend value ew) ew total 0 0 0 m Hew Hel Hm eq_refl H0 ltac:(lia) ltac:(lia)) as Hloop.
  destruct (replicate_loop _ _ _ _ _ _) as [r|]; cbn [fmap option_fmap option_map].
  2: { apply Hloop. intros j Hj. rewrite Z.testbit_0_l. by destruct (Z.ltb_spec j 0); [lia|]. }
  destruct Hloop as [H1 H2]. { intros j Hj. rewrite Z.testbit_0_l. by destruct (Z.ltb_spec j 0); [lia|]. }
  split; [done|]. intros i Hi. rewrite zeroExtend_mod, Z.testbit_mod_pow2 by lia.
  destruct (Z.ltb_spec i total), (Z.ltb_spec i (total `min` 64)); try lia; try done. cbn [andb]. rewrite H2 by done.
  rewrite zeroExtend_mod_le, Z.testbit_mod_pow2 by lia.
  pose proof (Z.mod_pos_bound i ew ltac:(lia)). by destruct (Z.ltb_spec (i mod ew) ew); [|lia].
Qed.

(** ** Powers of two and alignment *)

Lemma isPowerOfTwo_spec value :
  fits 64 value -> isPowerOfTwo value = true <-> exists k, 0 <= k < 64 /\ value = 2 ^ k.
Proof.
  unfold isPowerOfTwo, fits. intros Hv.
  destruct (Z.eqb_spec value 0) as [->|Hne]; simpl.
  { split; [done|]. intros (k & Hk & H0). pose proof (Z.pow_pos_nonneg 2 k). lia. }
  unfold sub64. rewrite u64_small by (unfold fits; lia). rewrite Z.eqb_eq.
  assert (0 <= Z.log2 value < 64) as Hl.
  { split; [apply Z.log2_nonneg|apply Z.log2_lt_pow2; lia]. }
  pose proof (Z.log2_spec value ltac:(lia)) as [Hlo Hhi]. rewrite Z.pow_succ_r in Hhi by lia.
  split.
  - intros Hland. exists (Z.log2 value). split; [done|].
    destruct (Z.eq_dec value (2 ^ Z.log2 value)) as [|Hneq]; [done|exfalso].
    assert (Z.testbit (Z.land value (value - 1)) (Z.log2 value) = true) as Ht.
    { rewrite Z.land_spec, Z.bit_log2 by lia. simpl.
      replace (Z.log2 value) with (Z.log2 (value - 1)); [apply Z.bit_log2; lia|].
      apply Z.log2_unique; rewrite ?Z.pow_succ_r by lia; lia. }
    by rewrite Hland, Z.testbit_0_l in Ht.
  - intros (k & Hk & ->). replace (2 ^ k - 1) with (Z.ones k) by (rewrite Z.ones_equiv; lia).
    bitblast.
Qed.

(** Clearing the bits below a power of two rounds down. *)
Lemma land_not64_mask x k :
  0 <= k < 64 -> fits 64 x -> Z.land x (not64 (sub64 (2 ^ k) 1)) = x - x mod 2 ^ k.
Proof.
  intros Hk Hx. unfold sub64.
  pose proof (Z.pow_lt_mono_r 2 k 64 ltac:(lia) ltac:(lia) ltac:(lia)).
  rewrite u64_small by (unfold fits; lia).
  replace (2 ^ k - 1) with (Z.ones k) by (rewrite Z.ones_equiv; lia).
  rewrite (Z.mod_eq x) by lia.
  replace (x - (x - 2 ^ k * (x / 2 ^ k))) with (x / 2 ^ k * 2 ^ k) by lia.
  rewrite <-Z.shiftl_mul_pow2, <-Z.shiftr_div_pow2 by lia. bitblast.
Qed.

(** [alignUp] returns the least multiple of the alignment not below [value],
    whenever that sum does not wrap. *)
Lemma alignUp_spec value k :
  0 <= k < 64 -> fits 64 value -> value + 2 ^ k - 1 < 2 ^ 64 ->
  exists r, alignUp value (2 ^ k) = Some r /\ r mod 2 ^ k = 0 /\ value <= r < value + 2 ^ k.
Proof.
  intros Hk Hv Hsum. unfold fits in Hv.
  pose proof (Z.pow_lt_mono_r 2 k 64 ltac:(lia) ltac:(lia) ltac:(lia)).
  pose proof (Z.pow_pos_nonneg 2 k). unfold alignUp.
  rewrite (proj2 (isPowerOfTwo_spec (2 ^ k) ltac:(unfold fits; lia))) by eauto.
  eexists. split; [done|].
  assert (sub64 (add64 value (2 ^ k)) 1 = value + 2 ^ k - 1) as ->.
  { unfold sub64, add64, u64. rewrite Zminus_mod_idemp_l. apply Z.mod_small. lia. }
  rewrite land_not64_mask by (done || unfold fits; lia).
  pose proof (Z.mod_pos_bound (value + 2 ^ k - 1) (2 ^ k) ltac:(lia)).
  split; [|lia].
  rewrite Z.mod_eq at 1 by lia.
  rewrite (Z.mod_eq (_ - 1)) by lia.
  set (q := (value + 2 ^ k - 1) / 2 ^ k).
  replace (value + 2 ^ k - 1 - (value + 2 ^ k - 1 - 2 ^ k * q)) with (q * 2 ^ k) by lia.
  rewrite Z.div_mul by lia. lia.
Qed.

Lemma alignDown_spec value k :
  0 <= k < 64 -> fits 64 value -> alignDown value (2 ^ k) = Some (value - value mod 2 ^ k).
Proof.
  intros Hk Hv. pose proof (Z.pow_lt_mono_r 2 k 64 ltac:(lia) ltac:(lia) ltac:(lia)).
  unfold alignDown.
  rewrite (proj2 (isPowerOfTwo_spec (2 ^ k) ltac:(unfold fits; lia))) by eauto.
  by rewrite land_not64_mask.
Qed.

(** ** Counting bits *)

Lemma pos_ctz_spec p :
  0 <= pos_ctz p /\ Z.testbit (Zpos p) (pos_ctz p) = true /\
  forall i, 0 <= i < pos_ctz p -> Z.testbit (Zpos p) i = false.
Proof.
  induction p as [p IH|p IH|]; simpl; try (repeat split; [lia|]; intros; lia).
  destruct IH as (H0 & H1 & H2). rewrite Pos2Z.inj_xO. repeat split; [lia| |].
  - replace (1 + pos_ctz p) with (Z.succ (pos_ctz p)) by lia. by rewrite Z.double_bits_succ.
  - intros i Hi. destruct (Z.eq_dec i 0) as [->|]; [done|].
    replace i with (Z.succ (i - 1)) by lia. rewrite Z.double_bits_succ. apply H2. lia.
Qed.

(** [countTrailingZeros] finds the lowest set bit. *)
Lemma countTrailingZeros_spec value :
  fits 64 value -> value <> 0 ->
  0 <= countTrailingZeros value < 64 /\
  Z.testbit value (countTrailingZeros value) = true /\
  forall i, 0 <= i < countTrailingZeros value -> Z.testbit value i = false.
Proof.
  intros Hv Hne. unfold countTrailingZeros. destruct (Z.eqb_spec value 0); [done|].
  destruct value as [|p|p]; [done| |unfold fits in Hv; lia]. simpl.
  pose proof (pos_ctz_spec p) as (H0 & H1 & H2). repeat split; try done.
  apply Z.nle_gt. intros Hge. by rewrite (testbit_high 64) in H1.
Qed.

Lemma countl_zero_log2 v : 0 < v -> countl_zero v = 63 - Z.log2 v.
Proof. by destruct v. Qed.

Lemma countLeadingZeros_spec value width :
  0 < width <= 64 -> countLeadingZeros value width =
    (if value mod 2 ^ width =? 0 then width else width - 1 - Z.log2 (value mod 2 ^ width)).
Proof.
  intros Hw. unfold countLeadingZeros.
  destruct (Z.eqb_spec width 0), (Z.ltb_spec 64 width); simpl; try lia.
  rewrite zeroExtend_mod_le by lia.
  pose proof (Z.mod_pos_bound value (2 ^ width) ltac:(lia)).
  destruct (Z.eqb_spec (value mod 2 ^ width) 0); [done|].
  rewrite countl_zero_log2 by lia. lia.
Qed.

Lemma significantBits_spec value :
  fits 64 value -> forall n, 0 <= n -> significantBits value <= n <-> value < 2 ^ n.
Proof.
  intros Hv n Hn. unfold significantBits, fits in *. destruct (Z.eqb_spec value 0) as [->|]; [lia|].
  rewrite countl_zero_log2 by lia. rewrite (Z.log2_lt_pow2 value n) by lia. lia.
Qed.

(** The number of set bits among the lowest [n]. *)
Fixpoint bit_sum (value : Z) (n : nat) : Z :=
  match n with
  | O => 0
  | S n => bit_sum value n + Z.b2z (Z.testbit value (Z.of_nat n))
  end.

Lemma bit_sum_succ value n :
  bit_sum value (S n) = Z.b2z (Z.testbit value 0) + bit_sum (Z.div2 value) n.
Proof.
  induction n as [|n IH]; [simpl; lia|].
  change (bit_sum value (S (S n))) with
    (bit_sum value (S n) + Z.b2z (Z.testbit value (Z.of_nat (S n)))).
  rewrite IH. cbn [bit_sum]. rewrite Z.div2_spec, testbit_shiftr.
  destruct (Z.leb_spec 0 (Z.of_nat n)); [|lia]. cbn [andb].
  replace (Z.of_nat (S n)) with (Z.of_nat n + 1) by lia. lia.
Qed.

Lemma popcount_bit_sum value n : 0 <= value < 2 ^ Z.of_nat n -> popcount value = bit_sum value n.
Proof.
  revert value. induction n as [|n IH]; intros value Hv.
  { simpl in *. assert (value = 0) as -> by lia. done. }
  rewrite bit_sum_succ. rewrite Nat2Z.inj_succ, Z.pow_succ_r in Hv by lia.
  rewrite <-IH by (rewrite Z.div2_div; split; [apply Z.div_pos|apply Z.div_lt_upper_bound]; lia).
  destruct value as [|[p|p|]|p]; simpl; lia.
Qed.

Lemma countOnes_bit_sum value : fits 64 value -> countOnes value = bit_sum value 64.
Proof. intros Hv. by apply popcount_bit_sum. Qed.

(** ** Byte order *)

Lemma testbit_byteSwap32 v i :
  0 <= i < 32 -> Z.testbit (byteSwap32 v) i = Z.testbit v (24 - 8 * (i / 8) + i mod 8).
Proof.
  intros Hi. unfold byteSwap32, u32.
  change 0x000000FF with (Z.ones 8). change 0x0000FF00 with (Z.shiftl (Z.ones 8) 8).
  change 0x00FF0000 with (Z.shiftl (Z.ones 8) 16). change 0xFF000000 with (Z.shiftl (Z.ones 8) 24).
  bit_cases; rewrite ?andb_false_r, ?andb_true_r, ?orb_false_r; cbn [andb orb]; f_equal; dlia.
Qed.

Lemma fits_byteSwap32 v : fits 32 (byteSwap32 v).
Proof.
  unfold byteSwap32, u32.
  repeat apply fits_lor; try lia; try (apply fits_mod; lia);
    apply fits_shiftr, fits_land_r; unfold fits; lia.
Qed.

Lemma testbit_byteSwap64 v i :
  0 <= i < 64 -> Z.testbit (byteSwap64 v) i = Z.testbit v (56 - 8 * (i / 8) + i mod 8).
Proof.
  intros Hi. unfold byteSwap64.
  rewrite Z.lor_spec, testbit_shl64.
  destruct (Z.ltb_spec i 64), (Z.leb_spec 0 i); try lia. cbn [andb].
  destruct (Z.ltb_spec i 32).
  - rewrite Z.testbit_neg_r by lia. rewrite testbit_byteSwap32 by lia. cbn [orb].
    unfold u32. rewrite Z.testbit_mod_pow2, testbit_shr64 by lia.
    bit_cases; first [exfalso; dlia | f_equal; dlia].
  - rewrite testbit_byteSwap32 by lia.
    rewrite (testbit_high 32 (byteSwap32 (u32 (shr64 v 32))) i (fits_byteSwap32 _)) by lia.
    rewrite orb_false_r. unfold u32. rewrite Z.testbit_mod_pow2 by lia.
    bit_cases; first [exfalso; dlia | f_equal; dlia].
Qed.

Lemma fits_byteSwap64 v : fits 64 (byteSwap64 v).
Proof.
  unfold byteSwap64. apply fits_lor; [lia|apply fits_shl64|].
  apply (fits_weaken 32); [apply fits_byteSwap32|lia].
Qed.

Lemma byteSwap64_involutive v : fits 64 v -> byteSwap64 (byteSwap64 v) = v.
Proof.
  intros Hv. apply Z.bits_inj'. intros i Hi. destruct (Z.ltb_spec i 64).
  - rewrite !testbit_byteSwap64 by dlia. f_equal. dlia.
  - by rewrite !(testbit_high 64) by (done || apply fits_byteSwap64).
Qed.

Lemma testbit_le_combine bs b i :
  0 <= i -> Forall (fits 8) bs -> bs !! Z.to_nat (i / 8) = Some b ->
  Z.testbit (le_combine bs) i = Z.testbit b (i mod 8).
Proof. intros. by apply little_endian_to_Z_spec. Qed.

Lemma fits_le_combine bs : Forall (fits 8) bs -> fits (8 * Z.of_nat (length bs)) (le_combine bs).
Proof.
  intros Hbs. pose proof (little_endian_to_Z_bound 8 bs ltac:(lia) Hbs). unfold fits. 
  by rewrite Z.mul_comm.
Qed.

(** Reversing eight bytes swaps the value they encode. *)
Lemma byteSwap64_le_combine bs :
  length bs = 8%nat -> Forall (fits 8) bs -> byteSwap64 (le_combine bs) = le_combine (reverse bs).
Proof.
  intros Hlen Hbs. apply Z.bits_inj'. intros i Hi.
  assert (Forall (fits 8) (reverse bs)) as Hrev by (by apply Forall_reverse).
  destruct (Z.ltb_spec i 64).
  - assert (exists b, bs !! Z.to_nat (7 - i / 8) = Some b) as [b Hb].
    { apply lookup_lt_is_Some_2. dlia. }
    rewrite testbit_byteSwap64 by lia.
    rewrite (testbit_le_combine bs b); [|dlia|done|].
    2: { rewrite <-Hb. f_equal. dlia. }
    rewrite (testbit_le_combine (reverse bs) b); [|dlia|done|].
    { f_equal. dlia. }
    rewrite reverse_lookup by dlia. rewrite <-Hb. f_equal. dlia.
  - rewrite !(testbit_high 64); [done| |lia|apply fits_byteSwap64|lia].
    pose proof (fits_le_combine _ Hrev) as Hf. by rewrite length_reverse, Hlen in Hf.
Qed.

(** [loadLittle] and [loadBig] read the same value whatever the host's byte order. *)
Lemma loadLittle64_le native source :
  (8 <= length source)%nat -> Forall (fits 8) source ->
  loadLittle64 native source = le_combine (take 8 source).
Proof.
  intros Hlen Hs. assert (length (take 8 source) = 8%nat) by (rewrite length_take; lia).
  assert (Forall (fits 8) (take 8 source)) by by apply Forall_take.
  destruct native; [done|]. unfold loadLittle64, loadUnaligned64.
  by rewrite <-byteSwap64_le_combine, byteSwap64_involutive
    by (try done; pose proof (fits_le_combine (take 8 source)) as Hf; rewrite H in Hf; auto).
Qed.

(** ** Properties *)

(** Fields and rotations of a word are inverse to each other: [insertBits]
    succeeds, the field read back is the inserted one and every bit outside it
    is kept, [rotateLeft] undoes [rotateRight], and [signExtend] is the two's
    complement reading at every width. *)
Theorem bit_fields_inverse value field lo width amount :
  fits 64 value -> 0 <= lo < 64 -> 0 < width -> lo + width <= 64 -> 0 <= amount ->
  (exists v, insertBits value field lo width = Some v /\
     extractBits v lo width = field mod 2 ^ width /\
     forall i, 0 <= i -> i < lo \/ lo + width <= i -> Z.testbit v i = Z.testbit value i) /\
  rotateLeft (rotateRight value width amount) width amount = value mod 2 ^ width /\
  signExtend value width = signed width (value mod 2 ^ width).
Proof.
  intros Hv Hlo Hw Hlw Ha. split_and!.
  - destruct (insertBits_bits value field lo width Hlo ltac:(lia) Hlw Hv) as (v & Hins & Hbits).
    exists v. split_and!; [done| |intros i Hi Hout; rewrite Hbits by done; by if_false].
    unfold extractBits. if_false. rewrite zeroExtend_mod_le by lia. apply Z.bits_inj'. intros i Hi.
    rewrite !Z.testbit_mod_pow2, testbit_shr64 by lia.
    destruct (Z.ltb_spec i width); [|done]. rewrite Hbits by lia. bit_cases; bit_finish.
  - apply rotateLeft_rotateRight; lia.
  - apply signExtend_signed; done || lia.
Qed.

Lemma bit_fields_inverse_witness :
  fits 64 0xFF00FF /\ exists v, insertBits 0xFF00FF 0xAB 8 8 = Some v /\ extractBits v 8 8 = 0xAB mod 2 ^ 8 /\
    forall i, 0 <= i -> i < 8 \/ 8 + 8 <= i -> Z.testbit v i = Z.testbit 0xFF00FF i.
Proof.
  assert (fits 64 0xFF00FF) as H by (unfold fits; lia). split; [exact H|].
  refine (proj1 (bit_fields_inverse 0xFF00FF 0xAB 8 8 3 H _ _ _ _)); lia.
Defined.

(** The bit counts and the byte order helpers compute what their names say:
    counts locate the highest and the lowest set bit, [byteSwap] is an
    involution that reverses the bytes of the encoding, and [loadLittle] reads
    the little-endian value on a host of either byte order. *)
Theorem counts_and_byte_order value native source :
  fits 64 value -> value <> 0 -> (8 <= length source)%nat -> Forall (fits 8) source ->
  countLeadingZeros value 64 = 63 - Z.log2 value /\
  significantBits value = Z.log2 value + 1 /\
  Z.testbit value (countTrailingZeros value) = true /\
  (forall i, 0 <= i < countTrailingZeros value -> Z.testbit value i = false) /\
  byteSwap64 (byteSwap64 value) = value /\
  byteSwap64 (le_combine (take 8 source)) = le_combine (reverse (take 8 source)) /\
  loadLittle64 native source = le_combine (take 8 source).
Proof.
  intros Hv Hne Hlen Hs.
  destruct (countTrailingZeros_spec value Hv Hne) as (_ & Ht & Hlow).
  assert (length (take 8 source) = 8%nat) by (rewrite length_take; lia).
  split_and!; try done.
  - rewrite countLeadingZeros_spec, mod_small_fits by (done || lia).
    destruct (Z.eqb_spec value 0); [done|lia].
  - unfold significantBits. destruct (Z.eqb_spec value 0); [done|].
    unfold fits in Hv. rewrite countl_zero_log2 by lia. lia.
  - by apply byteSwap64_involutive.
  - apply byteSwap64_le_combine; [done|by apply Forall_take].
  - by apply loadLittle64_le.
Qed.

Lemma counts_and_byte_order_witness :
  fits 64 40 /\ countLeadingZeros 40 64 = 63 - Z.log2 40.
Proof.
  assert (fits 64 40) as H by (unfold fits; lia). split; [exact H|].
  refine (proj1 (counts_and_byte_order 40 big [1; 2; 3; 4; 5; 6; 7; 8] H _ _ _));
    [lia|apply Nat.leb_le; reflexivity|repeat constructor; unfold fits; lia].
Defined.
