(* ===== verification/U128.v ===== *)
(** * U128: 128-bit arithmetic on pairs of words, [src/il/u128.h]

    The interpreter and the constant evaluator share these functions.  Each one
    takes a width and masks on the way out.  [uval] reads a pair of words as an
    integer; the second half of the file shows, for every width up to 128, which
    operation modulo [2 ^ width] each function computes. *)
From S2P Require Import Prelude Bits.

Record U128 : Set := MkU128 { lo : Z; hi : Z }.

(** [struct ConcreteValue] of [interp.h] has the same two words; [pack] and
    [fromU] copy one into the other. *)
Abbreviation ConcreteValue := U128.

#[export] Instance U128_eq_dec : EqDecision U128.
Proof. solve_decision. Defined.

(** ** The operations *)

Definition maskOf (width : Z) : U128 :=
  {| lo := if 64 <=? width then not64 0 else lowMask width;
     hi := if width <=? 64 then 0 else lowMask (width - 64) |}.

Definition mask (v : U128) (width : Z) : U128 :=
  let m := maskOf width in
  {| lo := Z.land (lo v) (lo m); hi := Z.land (hi v) (hi m) |}.

Definition signBit (v : U128) (width : Z) : bool :=
  if 64 <? width then negb (Z.land (shr64 (hi v) (width - 65)) 1 =? 0)
  else negb (Z.land (shr64 (lo v) (width - 1)) 1 =? 0).

(** Returns the masked sum and [carryOut]. *)
Definition add (a b : U128) (width : Z) : U128 * bool :=
  let rlo := add64 (lo a) (lo b) in
  let carryLo := rlo <? lo a in
  let hiSum := add64 (hi a) (hi b) in
  let c1 := hiSum <? hi a in
  let rhi := add64 hiSum (if carryLo then 1 else 0) in
  let c2 := rhi <? hiSum in
  (mask {| lo := rlo; hi := rhi |} width, c1 || c2).

Definition sub (a b : U128) (width : Z) : U128 :=
  mask {| lo := sub64 (lo a) (lo b);
          hi := sub64 (sub64 (hi a) (hi b)) (if lo a <? lo b then 1 else 0) |} width.

Definition zero128 : U128 := {| lo := 0; hi := 0 |}.

Definition shl (v : U128) (width amount : Z) : U128 :=
  if amount =? 0 then mask v width
  else if width <=? amount then zero128
  else if 64 <=? amount then mask {| lo := 0; hi := shl64 (lo v) (amount - 64) |} width
  else mask {| lo := shl64 (lo v) amount;
               hi := Z.lor (shl64 (hi v) amount) (shr64 (lo v) (64 - amount)) |} width.

Definition shrU (v : U128) (width amount : Z) : U128 :=
  if amount =? 0 then mask v width
  else if width <=? amount then zero128
  else if 64 <=? amount then {| lo := shr64 (hi v) (amount - 64); hi := 0 |}
  else {| lo := Z.lor (shr64 (lo v) amount) (shl64 (hi v) (64 - amount));
          hi := shr64 (hi v) amount |}.

Definition or128 (a b : U128) : U128 := {| lo := Z.lor (lo a) (lo b); hi := Z.lor (hi a) (hi b) |}.
Definition and128 (a b : U128) : U128 := {| lo := Z.land (lo a) (lo b); hi := Z.land (hi a) (hi b) |}.
Definition xor128 (a b : U128) : U128 := {| lo := Z.lxor (lo a) (lo b); hi := Z.lxor (hi a) (hi b) |}.

Definition shrS (v : U128) (width amount : Z) : U128 :=
  let sign := signBit v width in
  if width <=? amount then (if sign then maskOf width else zero128)
  else
    let r := shrU v width amount in
    let r := if sign && (0 <? amount)
             then or128 r (shl (maskOf width) width (width - amount)) else r in
    mask r width.

(** [amount % width] traps on width zero, which no caller passes. *)
Definition rotR (v : U128) (width amount : Z) : U128 :=
  let n := amount mod width in
  if n =? 0 then mask v width
  else mask (or128 (shrU v width n) (shl v width (width - n))) width.

Definition rotL (v : U128) (width amount : Z) : U128 :=
  rotR v width (width - amount mod width).

Definition cmpU (a b : U128) : Z :=
  if negb (hi a =? hi b) then (if hi a <? hi b then -1 else 1)
  else if negb (lo a =? lo b) then (if lo a <? lo b then -1 else 1)
  else 0.

Definition cmpS (a b : U128) (width : Z) : Z :=
  let flip := shl {| lo := 1; hi := 0 |} width (u32 (width - 1)) in
  cmpU (xor128 a flip) (xor128 b flip).

(** Returns the high and the low word of the product. *)
Definition mul64x64 (a b : Z) : Z * Z :=
  let a0 := u32 a in
  let a1 := shr64 a 32 in
  let b0 := u32 b in
  let b1 := shr64 b 32 in
  let p0 := mul64 a0 b0 in
  let p1 := mul64 a0 b1 in
  let p2 := mul64 a1 b0 in
  let p3 := mul64 a1 b1 in
  let mid := add64 p1 p2 in
  let midCarry := if mid <? p1 then 1 else 0 in
  let lo := add64 p0 (shl64 mid 32) in
  let loCarry := if lo <? p0 then 1 else 0 in
  let hi := add64 (add64 (add64 p3 (shr64 mid 32)) (shl64 midCarry 32)) loCarry in
  (hi, lo).

Definition mulLow (a b : U128) (width : Z) : U128 :=
  let '(h, l) := mul64x64 (lo a) (lo b) in
  mask {| lo := l;
          hi := add64 (add64 h (mul64 (lo a) (hi b))) (mul64 (hi a) (lo b)) |} width.

Definition extract (source : U128) (sourceWidth offset width : Z) : U128 :=
  mask (shrU source sourceWidth offset) width.

Definition insert (dest field : U128) (offset width destWidth : Z) : U128 :=
  let shifted := shl field destWidth offset in
  let cleared := mask (shl (maskOf width) destWidth offset) destWidth in
  let kept := {| lo := Z.land (lo dest) (not64 (lo cleared));
                 hi := Z.land (hi dest) (not64 (hi cleared)) |} in
  mask (or128 kept shifted) destWidth.

Definition zext (v : U128) (fromWidth toWidth : Z) : U128 := mask v fromWidth.

Definition sext (v : U128) (fromWidth toWidth : Z) : U128 :=
  let v := mask v fromWidth in
  if negb (signBit v fromWidth) then v
  else mask (or128 v (xor128 (maskOf fromWidth) (maskOf toWidth))) toWidth.

Definition clzOf (v : U128) (width : Z) : Z :=
  let v := mask v width in
  if 64 <? width then
    if negb (hi v =? 0) then countl_zero (hi v) - (128 - width)
    else width - 64 + countl_zero (lo v)
  else countLeadingZeros (lo v) width.

Definition ctzOf (v : U128) (width : Z) : Z :=
  let v := mask v width in
  if negb (lo v =? 0) then countr_zero (lo v)
  else if negb (hi v =? 0) && (64 <? width) then 64 + countr_zero (hi v)
  else width.

(** The loop body of [bswapOf] for byte [index] of [bytes]. *)
Definition bswap_step (v : U128) (bytes : Z) (result : U128) (index : Z) : U128 :=
  let shift := (bytes - 1 - index) * 8 in
  let byte := if index <? 8 then Z.land (shr64 (lo v) (index * 8)) 0xFF
              else Z.land (shr64 (hi v) ((index - 8) * 8)) 0xFF in
  if shift <? 64 then {| lo := Z.lor (lo result) (shl64 byte shift); hi := hi result |}
  else {| lo := lo result; hi := Z.lor (hi result) (shl64 byte (shift - 64)) |}.

Definition bswapOf (v : U128) (width : Z) : U128 :=
  let bytes := width / 8 in
  mask (foldl (bswap_step v bytes) zero128 (seqZ 0 bytes)) width.

(** The loop body of [brevOf] for one bit. *)
Definition brev_step (v : U128) (width : Z) (result : U128) (bit : Z) : U128 :=
  let set := if bit <? 64 then negb (Z.land (shr64 (lo v) bit) 1 =? 0)
             else negb (Z.land (shr64 (hi v) (bit - 64)) 1 =? 0) in
  if negb set then result
  else
    let target := width - 1 - bit in
    if target <? 64 then {| lo := Z.lor (lo result) (shl64 1 target); hi := hi result |}
    else {| lo := lo result; hi := Z.lor (hi result) (shl64 1 (target - 64)) |}.

Definition brevOf (v : U128) (width : Z) : U128 :=
  foldl (brev_step v width) zero128 (seqZ 0 width).

(** ** Their meaning on integers *)

Definition uval (v : U128) : Z := lo v + hi v * 2 ^ 64.

Definition wf128 (v : U128) : Prop := fits 64 (lo v) /\ fits 64 (hi v).

(** A value that carries no garbage above its width. *)
Definition canon (width : Z) (v : U128) : Prop := wf128 v /\ fits width (uval v).

(** The pair of words of an integer. *)
Definition of_Z (z : Z) : U128 := {| lo := u64 z; hi := u64 (z / 2 ^ 64) |}.

Lemma testbit_uval v i :
  wf128 v -> Z.testbit (uval v) i = if i <? 64 then Z.testbit (lo v) i else Z.testbit (hi v) (i - 64).
Proof.
  intros [Hlo Hhi]. unfold uval. rewrite <-lor_add_shiftl by (done || lia).
  bit_cases; bit_finish.
Qed.

Lemma fits_uval v : wf128 v -> fits 128 (uval v).
Proof. unfold wf128, fits, uval. lia. Qed.

Lemma uval_inj a b : wf128 a -> wf128 b -> uval a = uval b -> a = b.
Proof.
  destruct a as [al ah], b as [bl bh]. unfold wf128, fits, uval. simpl. intros Ha Hb Heq.
  f_equal; lia.
Qed.

Lemma uval_of_Z z : uval (of_Z z) = z mod 2 ^ 128.
Proof.
  unfold uval, of_Z, u64. simpl. rewrite Z.add_comm, Z.mul_comm, Z.add_comm.
  change (2 ^ 128) with (2 ^ 64 * 2 ^ 64). by rewrite Z.rem_mul_r by lia.
Qed.

Lemma wf_of_Z z : wf128 (of_Z z).
Proof. split; apply fits_u64. Qed.

Lemma wf_zero : wf128 zero128.
Proof. by vm_compute. Qed.

Lemma wf_maskOf width : 0 <= width -> wf128 (maskOf width).
Proof.
  intros Hw. unfold maskOf. split; simpl.
  - destruct (64 <=? width); [apply fits_not64|].
    apply (fits_weaken (Z.min width 64)); [apply fits_lowMask; lia|lia].
  - destruct (Z.leb_spec width 64); [by vm_compute|].
    apply (fits_weaken (Z.min (width - 64) 64)); [apply fits_lowMask; lia|lia].
Qed.

Lemma testbit_maskOf width i :
  0 <= width -> Z.testbit (uval (maskOf width)) i = (0 <=? i) && (i <? Z.min width 128).
Proof.
  intros Hw. rewrite testbit_uval by (by apply wf_maskOf).
  unfold maskOf. cbn [lo hi]. bit_cases; bit_finish.
Qed.
#[export] Hint Rewrite testbit_maskOf using lia : bitspec.

Lemma uval_maskOf width : 0 <= width <= 128 -> uval (maskOf width) = 2 ^ width - 1.
Proof.
  intros Hw. replace (2 ^ width - 1) with (Z.ones width) by (rewrite Z.ones_equiv; lia).
  apply Z.bits_inj'. intros i Hi. rewrite testbit_maskOf by lia. bit_cases; bit_finish.
Qed.

Lemma wf_mask v width : 0 <= width -> wf128 v -> wf128 (mask v width).
Proof. intros Hw [? ?]. split; simpl; by apply fits_land_l. Qed.

Lemma uval_mask v width : 0 <= width -> wf128 v -> uval (mask v width) = uval v mod 2 ^ width.
Proof.
  intros Hw Hv. apply Z.bits_inj'. intros i Hi.
  pose proof (wf_mask v width Hw Hv). pose proof (wf_maskOf width Hw) as Hm.
  rewrite Z.testbit_mod_pow2, !testbit_uval by done. cbn [mask lo hi].
  pose proof (testbit_maskOf width i Hw) as Ht. rewrite testbit_uval in Ht by done.
  destruct Hv as [Hl Hh].
  destruct (Z.ltb_spec i 64); rewrite Z.land_spec, Ht.
  - bit_cases; by rewrite ?andb_true_r, ?andb_false_r.
  - bit_cases; bit_bounds; by rewrite ?andb_true_r, ?andb_false_r.
Qed.

Lemma canon_mask v width : 0 <= width -> wf128 v -> canon width (mask v width).
Proof. intros. split; [by apply wf_mask|]. rewrite uval_mask by done. by apply fits_mod. Qed.

Lemma mask_canon v width : 0 <= width -> canon width v -> mask v width = v.
Proof.
  intros Hw [Hv Hc]. apply uval_inj; [by apply wf_mask|done|].
  rewrite uval_mask by done. by apply mod_small_fits.
Qed.

Lemma canon_weaken n m v : canon n v -> n <= m -> canon m v.
Proof. intros [? ?] ?. split; [done|]. by apply (fits_weaken n). Qed.

Lemma canon_zero width : 0 <= width -> canon width zero128.
Proof. intros. split; [apply wf_zero|]. apply fits_0. done. Qed.

(** A narrow canonical value lives in its low word. *)
Lemma canon_narrow v width : 0 <= width <= 64 -> canon width v -> hi v = 0 /\ uval v = lo v.
Proof.
  intros Hw [[Hl Hh] Hc]. apply (fits_weaken _ 64) in Hc; [|lia].
  unfold fits, uval in *. lia.
Qed.

Lemma wf_or128 a b : wf128 a -> wf128 b -> wf128 (or128 a b).
Proof. intros [] []. split; simpl; by apply fits_lor. Qed.
Lemma wf_and128 a b : wf128 a -> wf128 b -> wf128 (and128 a b).
Proof. intros [] []. split; simpl; by apply fits_land_l. Qed.
Lemma wf_xor128 a b : wf128 a -> wf128 b -> wf128 (xor128 a b).
Proof. intros [] []. split; simpl; by apply fits_lxor. Qed.

#[export] Hint Resolve wf_zero wf_maskOf wf_mask wf_or128 wf_and128 wf_xor128 : fits.

Lemma uval_or128 a b : wf128 a -> wf128 b -> uval (or128 a b) = Z.lor (uval a) (uval b).
Proof.
  intros Ha Hb. apply Z.bits_inj'. intros i Hi.
  rewrite Z.lor_spec, !testbit_uval by auto with fits. simpl.
  by destruct (i <? 64); rewrite Z.lor_spec.
Qed.
Lemma uval_and128 a b : wf128 a -> wf128 b -> uval (and128 a b) = Z.land (uval a) (uval b).
Proof.
  intros Ha Hb. apply Z.bits_inj'. intros i Hi.
  rewrite Z.land_spec, !testbit_uval by auto with fits. simpl.
  by destruct (i <? 64); rewrite Z.land_spec.
Qed.
Lemma uval_xor128 a b : wf128 a -> wf128 b -> uval (xor128 a b) = Z.lxor (uval a) (uval b).
Proof.
  intros Ha Hb. apply Z.bits_inj'. intros i Hi.
  rewrite Z.lxor_spec, !testbit_uval by auto with fits. simpl.
  by destruct (i <? 64); rewrite Z.lxor_spec.
Qed.

(** ** Shifts *)

(** Proves an equality between the readings of two computed pairs of words, bit
    by bit; [uval] of a variable is opened into its words. *)
Ltac wf_words := first [done | split; cbn [lo hi]; auto with fits lia].
Ltac word_bits :=
  apply Z.bits_inj'; let i := fresh "i" in let Hi := fresh "Hi" in intros i Hi;
  bit_simpl; rewrite ?testbit_uval by wf_words; cbn [lo hi]; bit_cases; bit_finish.

Lemma wf_shl v width amount : 0 <= width -> wf128 v -> wf128 (shl v width amount).
Proof.
  intros Hw [Hl Hh]. unfold shl. repeat case_match; apply wf_mask || apply wf_zero; try done.
  - split; simpl; [by vm_compute|apply fits_shl64].
  - split; simpl; [apply fits_shl64|].
    apply fits_lor; [lia|apply fits_shl64|]. apply fits_shr64; [lia|done].
Qed.

Lemma uval_shl v width amount :
  0 <= width <= 128 -> 0 <= amount -> wf128 v ->
  uval (shl v width amount) = Z.shiftl (uval v) amount mod 2 ^ width.
Proof.
  intros Hw Ha Hv. pose proof Hv as [Hl Hh]. unfold shl.
  destruct (Z.eqb_spec amount 0) as [->|Hne].
  { by rewrite uval_mask, Z.shiftl_0_r by (done || lia). }
  destruct (Z.leb_spec width amount).
  { change (uval zero128) with 0. apply Z.bits_inj'. intros i Hi. bit_cases; bit_finish. }
  destruct (Z.leb_spec 64 amount); (rewrite uval_mask; [|lia|wf_words]); word_bits.
Qed.

Lemma canon_shl v width amount :
  0 <= width <= 128 -> 0 <= amount -> wf128 v -> canon width (shl v width amount).
Proof.
  intros. split; [apply wf_shl; done || lia|]. rewrite uval_shl by done. apply fits_mod. lia.
Qed.

Lemma wf_shrU v width amount : 0 <= width -> 0 <= amount -> wf128 v -> wf128 (shrU v width amount).
Proof.
  intros Hw Ha [Hl Hh]. unfold shrU. repeat case_match; auto with fits lia.
  - by apply wf_mask.
  - split; simpl; [apply fits_shr64; [lia|done]|by apply fits_0].
  - split; simpl; [|by apply fits_shr64].
    apply fits_lor; [lia| |apply fits_shl64]. by apply fits_shr64.
Qed.

Lemma uval_shrU v width amount :
  0 <= width <= 128 -> 0 <= amount -> canon width v ->
  uval (shrU v width amount) = Z.shiftr (uval v) amount.
Proof.
  intros Hw Ha [Hv Hc]. pose proof (wf_shrU v width amount ltac:(lia) Ha Hv) as Hwf.
  pose proof Hv as [Hl Hh]. unfold shrU in *.
  destruct (Z.eqb_spec amount 0) as [->|Hne].
  { rewrite uval_mask, Z.shiftr_0_r by (done || lia). by apply mod_small_fits. }
  destruct (Z.leb_spec width amount).
  { change (uval zero128) with 0. symmetry. apply Z.shiftr_eq_0_iff.
    unfold fits in Hc. destruct (Z.eq_dec (uval v) 0); [by left|right]. split; [lia|].
    apply Z.log2_lt_pow2; [lia|]. pose proof (Z.pow_le_mono_r 2 width amount). lia. }
  destruct (Z.leb_spec 64 amount); word_bits.
Qed.

Lemma fits_shiftr_sub n a k : 0 <= k <= n -> fits n a -> fits (n - k) (Z.shiftr a k).
Proof.
  intros Hk Ha. unfold fits in *. rewrite Z.shiftr_div_pow2 by lia.
  split; [apply Z.div_pos; lia|]. apply Z.div_lt_upper_bound; [lia|].
  rewrite <-Z.pow_add_r by lia. replace (k + (n - k)) with n by lia. lia.
Qed.

Lemma canon_shrU v width amount :
  0 <= width <= 128 -> 0 <= amount -> canon width v -> canon width (shrU v width amount).
Proof.
  intros Hw Ha Hv. split; [apply wf_shrU; try lia; apply Hv|].
  rewrite uval_shrU by done. apply fits_shiftr; try lia. apply Hv.
Qed.

Lemma signBit_testbit v width :
  1 <= width <= 128 -> wf128 v -> signBit v width = Z.testbit (uval v) (width - 1).
Proof.
  intros Hw Hv. pose proof Hv as [Hl Hh]. rewrite testbit_uval by done. unfold signBit.
  destruct (Z.ltb_spec 64 width), (Z.ltb_spec (width - 1) 64); try lia.
  - pose proof (testBit_spec (hi v) (width - 65) ltac:(lia) Hh) as Ht. unfold testBit in Ht.
    destruct (Z.ltb_spec (width - 65) 64); [|lia]. simpl in Ht. rewrite Ht. f_equal. lia.
  - pose proof (testBit_spec (lo v) (width - 1) ltac:(lia) Hl) as Ht. unfold testBit in Ht.
    destruct (Z.ltb_spec (width - 1) 64); [|lia]. done.
Qed.

(** Arithmetic shift right: the sign bit fills the vacated positions. *)
Lemma testbit_signed_shiftr w a n i :
  1 <= w -> 0 <= n -> 0 <= i < w -> fits w a ->
  Z.testbit (Z.shiftr (signed w a) n) i =
    if i + n <? w then Z.testbit a (i + n) else Z.testbit a (w - 1).
Proof.
  intros Hw Hn Hi Ha. rewrite Z.shiftr_spec by lia. rewrite signed_top by done.
  destruct (Z.testbit a (w - 1)) eqn:Htop.
  - assert (a - 2 ^ w = Z.lor a (Z.shiftl (-1) w)) as ->.
    { rewrite lor_add_shiftl by (done || lia). lia. }
    rewrite Z.lor_spec, testbit_shiftl.
    destruct (Z.leb_spec 0 (i + n)); [|lia]. simpl.
    destruct (Z.ltb_spec (i + n) w).
    + by rewrite (Z.testbit_neg_r (-1)), orb_false_r by lia.
    + by rewrite Z.bits_m1, orb_true_r by lia.
  - destruct (Z.ltb_spec (i + n) w); [done|]. by apply (testbit_high w).
Qed.

Lemma canon_maskOf width : 0 <= width <= 128 -> canon width (maskOf width).
Proof. intros. split; [apply wf_maskOf; lia|]. rewrite uval_maskOf by done. unfold fits. lia. Qed.

Lemma canon_shrS v width amount :
  1 <= width <= 128 -> 0 <= amount -> wf128 v -> canon width (shrS v width amount).
Proof.
  intros Hw Ha Hv. unfold shrS. destruct (Z.leb_spec width amount).
  - destruct (signBit v width); [apply canon_maskOf; lia|apply canon_zero; lia].
  - apply canon_mask; [lia|]. destruct (_ && _); [apply wf_or128|]; auto using wf_shrU with lia.
    apply wf_shl; [lia|]. apply wf_maskOf. lia.
Qed.

Lemma uval_shrS v width amount :
  1 <= width <= 128 -> 0 <= amount -> canon width v ->
  uval (shrS v width amount) = Z.shiftr (signed width (uval v)) amount mod 2 ^ width.
Proof.
  intros Hw Ha Hv. pose proof Hv as [Hwf Hc].
  pose proof (canon_shrS v width amount Hw Ha Hwf) as [_ Hr].
  apply Z.bits_inj'. intros i Hi. rewrite Z.testbit_mod_pow2 by lia.
  destruct (Z.ltb_spec i width) as [Hlt|Hge]; [|by apply (testbit_high width)].
  rewrite testbit_signed_shiftr by (done || lia). cbn [andb]. clear Hr. unfold shrS.
  rewrite signBit_testbit by (done || lia).
  destruct (Z.leb_spec width amount).
  { destruct (Z.ltb_spec (i + amount) width); [lia|].
    destruct (Z.testbit (uval v) (width - 1)); [|apply Z.testbit_0_l].
    rewrite testbit_maskOf by lia. bit_cases; bit_finish. }
  assert (wf128 (shrU v width amount)) by (apply wf_shrU; done || lia).
  assert (wf128 (shl (maskOf width) width (width - amount))).
  { apply wf_shl; [lia|]. apply wf_maskOf; lia. }
  rewrite uval_mask, Z.testbit_mod_pow2 by (lia || (case_match; auto with fits)).
  destruct (Z.ltb_spec i width); [|lia]. cbn [andb].
  destruct (Z.testbit (uval v) (width - 1)) eqn:Htop; cbn [andb].
  - destruct (Z.ltb_spec 0 amount).
    + rewrite uval_or128, Z.lor_spec, uval_shrU, Z.shiftr_spec by (done || lia).
      rewrite uval_shl, Z.testbit_mod_pow2, testbit_shiftl by (lia || apply wf_maskOf; lia).
      bit_cases; rewrite ?testbit_maskOf by lia; bit_cases; bit_finish.
      all: by rewrite ?orb_true_r.
    + assert (amount = 0) as -> by lia. rewrite uval_shrU, Z.shiftr_0_r by (done || lia).
      destruct (Z.ltb_spec (i + 0) width); [|lia]. f_equal; lia.
  - rewrite uval_shrU, Z.shiftr_spec by (done || lia).
    destruct (Z.ltb_spec (i + amount) width); [done|]. by apply (testbit_high width).
Qed.

(** ** Rotations *)

Lemma canon_rotR v width amount :
  1 <= width <= 128 -> 0 <= amount -> wf128 v -> canon width (rotR v width amount).
Proof.
  intros Hw Ha Hv. unfold rotR. pose proof (Z.mod_pos_bound amount width ltac:(lia)).
  destruct (_ =? 0); apply canon_mask; try lia; [done|].
  apply wf_or128; [apply wf_shrU|apply wf_shl]; done || lia.
Qed.

Lemma testbit_rotR v width amount i :
  1 <= width <= 128 -> 0 <= amount -> canon width v -> 0 <= i ->
  Z.testbit (uval (rotR v width amount)) i =
    (i <? width) && Z.testbit (uval v) ((i + amount) mod width).
Proof.
  intros Hw Ha Hv Hi. pose proof Hv as [Hwf Hc].
  pose proof (canon_rotR v width amount Hw Ha Hwf) as [_ Hr].
  destruct (Z.ltb_spec i width) as [Hlt|]; [|by apply (testbit_high width)]. clear Hr. cbn [andb].
  unfold rotR. rewrite <-(Zplus_mod_idemp_r amount).
  pose proof (Z.mod_pos_bound amount width ltac:(lia)) as Hb.
  set (n := amount mod width) in *.
  destruct (Z.eqb_spec n 0) as [->|].
  { rewrite mask_canon, Z.add_0_r, Z.mod_small by (done || lia). done. }
  assert (wf128 (shrU v width n)) by (apply wf_shrU; done || lia).
  assert (wf128 (shl v width (width - n))) by (apply wf_shl; done || lia).
  rewrite uval_mask, uval_or128, Z.testbit_mod_pow2, Z.lor_spec by auto with fits lia.
  rewrite uval_shrU, uval_shl, Z.testbit_mod_pow2, Z.shiftr_spec, testbit_shiftl by (done || lia).
  destruct (Z.ltb_spec i width), (Z.leb_spec 0 i); try lia. cbn [andb].
  destruct (Z.ltb_spec (i + n) width).
  - rewrite (Z.mod_small (i + n)) by lia. rewrite (Z.testbit_neg_r _ (i - _)) by lia.
    apply orb_false_r.
  - rewrite <-(Z.mod_unique (i + n) width 1 (i + n - width)) by lia.
    rewrite (testbit_high width (uval v) (i + n)) by (done || lia). cbn [orb]. f_equal. lia.
Qed.

Lemma canon_rotL v width amount :
  1 <= width <= 128 -> 0 <= amount -> wf128 v -> canon width (rotL v width amount).
Proof.
  intros. pose proof (Z.mod_pos_bound amount width ltac:(lia)). apply canon_rotR; done || lia.
Qed.

Lemma testbit_rotL v width amount i :
  1 <= width <= 128 -> 0 <= amount -> canon width v -> 0 <= i ->
  Z.testbit (uval (rotL v width amount)) i =
    (i <? width) && Z.testbit (uval v) ((i - amount) mod width).
Proof.
  intros Hw Ha Hv Hi. unfold rotL. pose proof (Z.mod_pos_bound amount width ltac:(lia)).
  rewrite testbit_rotR by (done || lia). do 2 f_equal.
  rewrite Z.add_sub_assoc, Zminus_mod_idemp_r.
  replace (i + width - amount) with (i - amount + 1 * width) by lia. by rewrite Z.mod_add by lia.
Qed.

Lemma rotL_rotR v width amount :
  1 <= width <= 128 -> 0 <= amount -> canon width v -> rotL (rotR v width amount) width amount = v.
Proof.
  intros Hw Ha Hv. pose proof (canon_rotR v width amount Hw Ha (proj1 Hv)) as Hr.
  pose proof (canon_rotL _ width amount Hw Ha (proj1 Hr)) as Hl.
  apply uval_inj; [apply Hl|apply Hv|]. apply Z.bits_inj'. intros i Hi.
  rewrite testbit_rotL by done. destruct (Z.ltb_spec i width); cbn [andb].
  - pose proof (Z.mod_pos_bound (i - amount) width ltac:(lia)).
    rewrite testbit_rotR by (done || lia). destruct (Z.ltb_spec ((i - amount) mod width) width); [|lia].
    cbn [andb]. f_equal. rewrite Zplus_mod_idemp_l, Z.sub_add. apply Z.mod_small; lia.
  - symmetry. apply (testbit_high width); [apply Hv|done].
Qed.

(** ** Addition, subtraction and comparison *)

Lemma wf_words_sum rlo rhi : wf128 {| lo := u64 rlo; hi := u64 rhi |}.
Proof. split; apply fits_u64. Qed.

(** Carry detection: [r < a] after [r = a + b] on words. *)
Lemma carry_word a b :
  fits 64 a -> fits 64 b -> a + b = add64 a b + (if add64 a b <? a then 1 else 0) * 2 ^ 64.
Proof.
  unfold fits, add64, u64. intros Ha Hb. destruct (Z.ltb_spec ((a + b) mod 2 ^ 64) a); dlia.
Qed.

Lemma uval_add a b width :
  0 <= width <= 128 -> wf128 a -> wf128 b ->
  uval (add a b width).1 = (uval a + uval b) mod 2 ^ width.
Proof.
  intros Hw [Hal Hah] [Hbl Hbh]. unfold add. cbn [fst].
  rewrite uval_mask by (lia || split; apply fits_u64).
  rewrite <-(mod_pow2_mod_pow2 (uval a + _) width 128) by lia.
  f_equal. unfold uval. cbn [lo hi]. pose proof (carry_word (lo a) (lo b) Hal Hbl) as Hc.
  unfold add64, u64 in *. set (rl := (lo a + lo b) mod 2 ^ 64) in *.
  set (c := if rl <? lo a then 1 else 0) in *.
  rewrite Zplus_mod_idemp_l. symmetry.
  replace (lo a + hi a * 2 ^ 64 + (lo b + hi b * 2 ^ 64))
    with (rl + 2 ^ 64 * (hi a + hi b + c)) by lia.
  change (2 ^ 128) with (2 ^ 64 * 2 ^ 64). rewrite Z.rem_mul_r by lia.
  rewrite (Z.mul_comm (2 ^ 64)), Z.mod_add by lia.
  rewrite (Z.mod_small rl) by (apply Z.mod_pos_bound; lia).
  rewrite Z.mul_comm at 1. f_equal. f_equal.
  rewrite (Z.add_comm rl), Z.div_add_l by lia.
  rewrite (Z.div_small rl) by (apply Z.mod_pos_bound; lia). by rewrite Z.add_0_r.
Qed.

Lemma canon_add a b width :
  0 <= width <= 128 -> canon width (add a b width).1.
Proof. intros. unfold add. cbn [fst]. apply canon_mask; [lia|]. split; apply fits_u64. Qed.

(** The reported carry is the one out of bit 127. *)
Lemma add_carry a b width :
  wf128 a -> wf128 b -> (add a b width).2 = (2 ^ 128 <=? uval a + uval b).
Proof.
  intros [Hal Hah] [Hbl Hbh]. unfold add. cbn [snd]. unfold uval.
  pose proof (carry_word (lo a) (lo b) Hal Hbl) as Hl.
  pose proof (carry_word (hi a) (hi b) Hah Hbh) as Hh.
  set (c := if add64 (lo a) (lo b) <? lo a then 1 else 0) in *.
  assert (fits 64 c) as Hcf by (unfold fits, c; destruct (_ <? _); lia).
  pose proof (carry_word (add64 (hi a) (hi b)) c (fits_u64 _) Hcf) as Hr.
  pose proof (fits_u64 (lo a + lo b)) as Hrl. fold (add64 (lo a) (lo b)) in Hrl.
  pose proof (fits_u64 (add64 (hi a) (hi b) + c)) as Hrh.
  fold (add64 (add64 (hi a) (hi b)) c) in Hrh.
  set (rl := add64 (lo a) (lo b)) in *. set (hs := add64 (hi a) (hi b)) in *.
  set (rh := add64 hs c) in *. unfold fits in *.
  destruct (hs <? hi a), (rh <? hs); cbn [orb]; symmetry; rewrite ?Z.leb_le, ?Z.leb_gt; lia.
Qed.

Lemma uval_sub a b width :
  0 <= width <= 128 -> wf128 a -> wf128 b ->
  uval (sub a b width) = (uval a - uval b) mod 2 ^ width.
Proof.
  intros Hw [Hal Hah] [Hbl Hbh]. unfold sub.
  rewrite uval_mask by (lia || split; apply fits_u64).
  rewrite <-(mod_pow2_mod_pow2 (uval a - _) width 128) by lia.
  f_equal. unfold uval. cbn [lo hi].
  assert (exists rl, sub64 (lo a) (lo b) = rl /\ fits 64 rl /\
    lo a - lo b = rl - (if lo a <? lo b then 1 else 0) * 2 ^ 64) as (rl & -> & Hrl & Hc).
  { eexists. split; [done|]. split; [apply fits_u64|]. unfold sub64, u64, fits in *.
    destruct (Z.ltb_spec (lo a) (lo b)); dlia. }
  set (c := if lo a <? lo b then 1 else 0) in *.
  unfold sub64, u64 in *. rewrite Zminus_mod_idemp_l. symmetry.
  replace (lo a + hi a * 2 ^ 64 - (lo b + hi b * 2 ^ 64))
    with (rl + 2 ^ 64 * (hi a - hi b - c)) by lia.
  change (2 ^ 128) with (2 ^ 64 * 2 ^ 64). rewrite Z.rem_mul_r by lia.
  rewrite (Z.mul_comm (2 ^ 64)), Z.mod_add by lia.
  rewrite (Z.mod_small rl) by done.
  rewrite Z.mul_comm at 1. f_equal. f_equal.
  rewrite (Z.add_comm rl), Z.div_add_l by lia.
  rewrite (Z.div_small rl) by done. by rewrite Z.add_0_r.
Qed.

Lemma canon_sub a b width : 0 <= width <= 128 -> canon width (sub a b width).
Proof. intros. apply canon_mask; [lia|]. split; apply fits_u64. Qed.

Lemma cmpU_spec a b :
  wf128 a -> wf128 b ->
  (cmpU a b <? 0) = (uval a <? uval b) /\
  (cmpU a b <=? 0) = (uval a <=? uval b) /\
  (cmpU a b =? 0) = (uval a =? uval b).
Proof.
  unfold wf128, fits, cmpU, uval. intros [? ?] [? ?].
  destruct (Z.eqb_spec (hi a) (hi b)) as [->|]; cbn [negb];
    [destruct (Z.eqb_spec (lo a) (lo b)) as [->|]; cbn [negb];
      [|destruct (Z.ltb_spec (lo a) (lo b))]
    |destruct (Z.ltb_spec (hi a) (hi b))];
  repeat split; symmetry; rewrite ?Z.ltb_lt, ?Z.ltb_ge, ?Z.leb_le, ?Z.leb_gt, ?Z.eqb_eq, ?Z.eqb_neq; lia.
Qed.

Lemma canon_xor_top v width :
  1 <= width <= 128 -> canon width v ->
  let flip := shl {| lo := 1; hi := 0 |} width (width - 1) in
  wf128 (xor128 v flip) /\
  uval (xor128 v flip) = (if uval v <? 2 ^ (width - 1) then uval v + 2 ^ (width - 1)
                          else uval v - 2 ^ (width - 1)).
Proof.
  intros Hw [Hv Hc] flip. assert (wf128 {| lo := 1; hi := 0 |}) as H1 by by vm_compute.
  assert (wf128 flip) as Hf by (apply wf_shl; done || lia). split; [by apply wf_xor128|].
  rewrite uval_xor128 by done. unfold flip. rewrite uval_shl by (done || lia).
  change (uval {| lo := 1; hi := 0 |}) with 1. rewrite Z.shiftl_mul_pow2, Z.mul_1_l by lia.
  rewrite (Z.mod_small (2 ^ (width - 1))); [apply lxor_top; [lia|done]|].
  pose proof (Z.pow_lt_mono_r 2 (width - 1) width). lia.
Qed.

Lemma cmpS_spec a b width :
  1 <= width <= 128 -> canon width a -> canon width b ->
  (cmpS a b width <? 0) = (signed width (uval a) <? signed width (uval b)) /\
  (cmpS a b width <=? 0) = (signed width (uval a) <=? signed width (uval b)).
Proof.
  intros Hw Ha Hb. unfold cmpS, u32. rewrite (Z.mod_small (width - 1)) by lia.
  destruct (canon_xor_top a width Hw Ha) as [Hwa Hua].
  destruct (canon_xor_top b width Hw Hb) as [Hwb Hub].
  destruct (cmpU_spec _ _ Hwa Hwb) as (-> & -> & _). rewrite Hua, Hub.
  destruct Ha as [_ Ha], Hb as [_ Hb]. unfold fits in Ha, Hb.
  pose proof (pow2_half width (proj1 Hw)). unfold signed.
  destruct (Z.ltb_spec (uval a) (2 ^ (width - 1))), (Z.ltb_spec (uval b) (2 ^ (width - 1)));
    split; lia.
Qed.

(** ** Multiplication *)

Lemma bit_bound (b : bool) : 0 <= (if b then 1 else 0) <= 1.
Proof. destruct b; lia. Qed.

(** The four partial products, with the carry out of the middle column, make up
    the full 128-bit product. *)
Lemma mul64x64_spec a b :
  fits 64 a -> fits 64 b ->
  let '(h, l) := mul64x64 a b in fits 64 h /\ fits 64 l /\ h * 2 ^ 64 + l = a * b.
Proof.
  intros Ha Hb. unfold mul64x64. cbv zeta.
  set (a0 := u32 a). set (a1 := shr64 a 32). set (b0 := u32 b). set (b1 := shr64 b 32).
  assert (a = a1 * 2 ^ 32 + a0 /\ fits 32 a1 /\ fits 32 a0) as (Hae & Ha1 & Ha0).
  { unfold a0, a1, u32, shr64, fits in *. rewrite Z.shiftr_div_pow2 by lia. dlia. }
  assert (b = b1 * 2 ^ 32 + b0 /\ fits 32 b1 /\ fits 32 b0) as (Hbe & Hb1 & Hb0).
  { unfold b0, b1, u32, shr64, fits in *. rewrite Z.shiftr_div_pow2 by lia. dlia. }
  assert (forall x y, fits 32 x -> fits 32 y -> mul64 x y = x * y /\ 0 <= x * y <= (2 ^ 32 - 1) * (2 ^ 32 - 1)) as Hm.
  { unfold fits, mul64, u64. intros x y Hx Hy. assert (0 <= x * y <= (2 ^ 32 - 1) * (2 ^ 32 - 1)) by nia.
    split; [apply Z.mod_small; lia|done]. }
  destruct (Hm a0 b0 Ha0 Hb0) as [-> H00], (Hm a0 b1 Ha0 Hb1) as [-> H01],
    (Hm a1 b0 Ha1 Hb0) as [-> H10], (Hm a1 b1 Ha1 Hb1) as [-> H11]. clear Hm.
  set (mid := add64 (a0 * b1) (a1 * b0)).
  assert (fits 64 (a0 * b1)) as F01 by (unfold fits; lia).
  assert (fits 64 (a1 * b0)) as F10 by (unfold fits; lia).
  pose proof (carry_word _ _ F01 F10) as Hmid. fold mid in Hmid.
  pose proof (fits_u64 (a0 * b1 + a1 * b0)) as Fmid. fold (add64 (a0 * b1) (a1 * b0)) in Fmid.
  fold mid in Fmid.
  set (mc := if mid <? a0 * b1 then 1 else 0) in *.
  pose proof (bit_bound (mid <? a0 * b1)) as Hmc. fold mc in Hmc.
  assert (mid = shr64 mid 32 * 2 ^ 32 + mid mod 2 ^ 32 /\ 0 <= mid mod 2 ^ 32 < 2 ^ 32 /\ 0 <= shr64 mid 32)
    as (Hme & Hml & Hmh).
  { unfold shr64, fits in *. rewrite Z.shiftr_div_pow2 by lia. dlia. }
  assert (shl64 mid 32 = mid mod 2 ^ 32 * 2 ^ 32) as ->.
  { unfold shl64, u64. rewrite Z.shiftl_mul_pow2 by lia. dlia. }
  assert (shl64 mc 32 = mc * 2 ^ 32) as ->.
  { unfold shl64, u64. rewrite Z.shiftl_mul_pow2 by lia. apply Z.mod_small. lia. }
  set (l := add64 (a0 * b0) (mid mod 2 ^ 32 * 2 ^ 32)).
  assert (fits 64 (a0 * b0)) as F00 by (unfold fits; lia).
  assert (fits 64 (mid mod 2 ^ 32 * 2 ^ 32)) as Fml by (unfold fits; lia).
  pose proof (carry_word _ _ F00 Fml) as Hl. fold l in Hl.
  pose proof (fits_u64 (a0 * b0 + mid mod 2 ^ 32 * 2 ^ 32)) as Fl.
  fold (add64 (a0 * b0) (mid mod 2 ^ 32 * 2 ^ 32)) in Fl. fold l in Fl.
  set (lc := if l <? a0 * b0 then 1 else 0) in *.
  pose proof (bit_bound (l <? a0 * b0)) as Hlc. fold lc in Hlc.
  set (h := a1 * b1 + shr64 mid 32 + mc * 2 ^ 32 + lc).
  assert (h * 2 ^ 64 + l = a * b) as Hprod.
  { rewrite Hae, Hbe. unfold h.
    replace ((a1 * 2 ^ 32 + a0) * (b1 * 2 ^ 32 + b0)) with
      (a1 * b1 * 2 ^ 64 + (a0 * b1 + a1 * b0) * 2 ^ 32 + a0 * b0) by ring.
    rewrite Hmid. lia. }
  assert (0 <= h < 2 ^ 64) as Hh.
  { split; [unfold h; lia|]. unfold fits in Ha, Hb, Fl.
    assert (a * b <= (2 ^ 64 - 1) * (2 ^ 64 - 1)) by nia. lia. }
  assert (add64 (add64 (add64 (a1 * b1) (shr64 mid 32)) (mc * 2 ^ 32)) lc = h) as ->.
  { unfold add64, u64. rewrite Zplus_mod_idemp_l, <-(Z.add_assoc (_ mod _)), Zplus_mod_idemp_l.
    rewrite Z.add_assoc. by apply Z.mod_small. }
  done.
Qed.

Lemma uval_mulLow a b width :
  0 <= width <= 128 -> wf128 a -> wf128 b ->
  uval (mulLow a b width) = (uval a * uval b) mod 2 ^ width.
Proof.
  intros Hw [Hal Hah] [Hbl Hbh]. unfold mulLow.
  pose proof (mul64x64_spec (lo a) (lo b) Hal Hbl) as Hp.
  destruct (mul64x64 (lo a) (lo b)) as [h l]. destruct Hp as (Fh & Fl & Hp).
  rewrite uval_mask by (lia || (split; [done|apply fits_u64])).
  rewrite <-(mod_pow2_mod_pow2 (uval a * _) width 128) by lia.
  f_equal. unfold uval. cbn [lo hi]. unfold add64, mul64, u64.
  rewrite Zplus_mod_idemp_l. rewrite (Zplus_mod_idemp_r (hi a * lo b)).
  rewrite <-(Zplus_assoc h), (Zplus_mod h), (Zplus_mod_idemp_l (lo a * hi b)), <-Zplus_mod.
  symmetry.
  replace ((lo a + hi a * 2 ^ 64) * (lo b + hi b * 2 ^ 64))
    with (l + 2 ^ 64 * (h + (lo a * hi b + hi a * lo b)) + (hi a * hi b) * 2 ^ 128)
    by lia.
  rewrite Z.mod_add by lia. change (2 ^ 128) with (2 ^ 64 * 2 ^ 64).
  rewrite Z.rem_mul_r by lia. rewrite (Z.mul_comm (2 ^ 64)), Z.mod_add by lia.
  rewrite (Z.mod_small l) by done. rewrite Z.mul_comm at 1. f_equal. f_equal.
  rewrite (Z.add_comm l), Z.div_add_l by lia. rewrite (Z.div_small l) by done.
  by rewrite Z.add_0_r.
Qed.

(** ** Fields and extensions *)

Lemma canon_extract v sw offset width :
  0 <= sw -> 0 <= offset -> 0 <= width -> wf128 v -> canon width (extract v sw offset width).
Proof. intros. apply canon_mask; [done|]. by apply wf_shrU. Qed.

Lemma uval_extract v sw offset width :
  0 <= sw <= 128 -> 0 <= offset -> 0 <= width -> canon sw v ->
  uval (extract v sw offset width) = Z.shiftr (uval v) offset mod 2 ^ width.
Proof.
  intros. unfold extract. rewrite uval_mask by (try apply wf_shrU; try lia; apply H2).
  by rewrite uval_shrU.
Qed.

Lemma wf_insert_kept dest cleared :
  wf128 dest ->
  wf128 {| lo := Z.land (lo dest) (not64 (lo cleared)); hi := Z.land (hi dest) (not64 (hi cleared)) |}.
Proof. intros []. split; simpl; by apply fits_land_l. Qed.

Lemma canon_insert dest field offset width dw :
  0 <= dw <= 128 -> 0 <= offset -> wf128 dest -> wf128 field ->
  canon dw (insert dest field offset width dw).
Proof.
  intros. apply canon_mask; [lia|]. apply wf_or128; [by apply wf_insert_kept|].
  apply wf_shl; [lia|done].
Qed.

Lemma uval_insert_kept dest cleared :
  wf128 dest -> wf128 cleared ->
  uval {| lo := Z.land (lo dest) (not64 (lo cleared)); hi := Z.land (hi dest) (not64 (hi cleared)) |}
    = Z.ldiff (uval dest) (uval cleared).
Proof.
  intros Hd Hc. pose proof (wf_insert_kept dest cleared Hd). destruct (Hd), (Hc). word_bits.
Qed.

Lemma testbit_insert dest field offset width dw i :
  0 <= dw <= 128 -> 0 <= offset -> 0 <= width -> offset + width <= dw ->
  canon dw dest -> canon width field -> 0 <= i ->
  Z.testbit (uval (insert dest field offset width dw)) i =
    if (offset <=? i) && (i <? offset + width) then Z.testbit (uval field) (i - offset)
    else Z.testbit (uval dest) i.
Proof.
  intros Hdw Ho Hw Hfit [Hd Hdc] [Hf Hfc] Hi. unfold insert.
  assert (wf128 (shl (maskOf width) dw offset)) as Hms by (apply wf_shl; [|apply wf_maskOf]; lia).
  assert (wf128 (mask (shl (maskOf width) dw offset) dw)) as Hmw by (apply wf_mask; lia || done).
  assert (wf128 (shl field dw offset)) by (apply wf_shl; lia || done).
  rewrite uval_mask by (lia || apply wf_or128; auto using wf_insert_kept).
  rewrite uval_or128, uval_insert_kept by auto using wf_insert_kept.
  rewrite uval_mask, !uval_shl by (auto using wf_maskOf with lia).
  bit_cases; bit_finish.
Qed.

Lemma zext_canon v fromWidth toWidth : 0 <= fromWidth -> canon fromWidth v -> zext v fromWidth toWidth = v.
Proof. intros. by apply mask_canon. Qed.

Lemma canon_sext v fromWidth toWidth :
  0 <= fromWidth <= toWidth -> toWidth <= 128 -> wf128 v -> canon toWidth (sext v fromWidth toWidth).
Proof.
  intros Hf Ht Hv. unfold sext. destruct (signBit _ _); cbn [negb].
  - apply canon_mask; [lia|]. auto using wf_or128, wf_xor128, wf_maskOf, wf_mask with lia.
  - apply (canon_weaken fromWidth); [|lia]. apply canon_mask; [lia|done].
Qed.

Lemma uval_sext v fromWidth toWidth :
  1 <= fromWidth <= toWidth -> toWidth <= 128 -> canon fromWidth v ->
  uval (sext v fromWidth toWidth) = signed fromWidth (uval v) mod 2 ^ toWidth.
Proof.
  intros Hf Ht Hv. pose proof Hv as [Hw Hc]. unfold sext. rewrite mask_canon by (done || lia).
  rewrite signBit_testbit, signed_top by (done || lia).
  destruct (Z.testbit (uval v) (fromWidth - 1)); cbn [negb].
  - rewrite uval_mask, uval_or128, uval_xor128 by auto using wf_or128, wf_xor128, wf_maskOf with lia.
    replace (uval v - 2 ^ fromWidth) with (Z.lor (uval v) (Z.shiftl (-1) fromWidth))
      by (rewrite lor_add_shiftl by (done || lia); lia).
    bitblast.
  - rewrite Z.mod_small; [done|]. apply (fits_weaken _ toWidth) in Hc; [done|lia].
Qed.

(** ** Counting and reversing *)

(** [clzOf] counts the zeros above the highest set bit. *)
Lemma clzOf_spec v width :
  1 <= width <= 128 -> canon width v ->
  clzOf v width = if uval v =? 0 then width else width - 1 - Z.log2 (uval v).
Proof.
  intros Hw Hv. pose proof Hv as [[Hl Hh] Hc]. unfold clzOf. rewrite mask_canon by (done || lia).
  destruct (Z.ltb_spec 64 width).
  - unfold uval in *. destruct (Z.eqb_spec (hi v) 0) as [Hz|Hnz]; cbn [negb].
    + rewrite Hz, Z.mul_0_l, Z.add_0_r. destruct (Z.eqb_spec (lo v) 0) as [->|].
      * simpl. lia.
      * unfold fits in Hl. rewrite countl_zero_log2 by lia. lia.
    + unfold fits in *. destruct (Z.eqb_spec (lo v + hi v * 2 ^ 64) 0); [lia|].
      rewrite countl_zero_log2 by lia.
      replace (Z.log2 (lo v + hi v * 2 ^ 64)) with (Z.log2 (hi v) + 64); [lia|].
      symmetry. pose proof (Z.log2_nonneg (hi v)). apply Z.log2_unique; [lia|].
      pose proof (Z.log2_spec (hi v) ltac:(lia)) as [Hlo Hup].
      rewrite <-Z.add_succ_l, !Z.pow_add_r by lia. nia.
  - destruct (canon_narrow v width ltac:(lia) Hv) as [_ Huv]. rewrite Huv in *.
    rewrite countLeadingZeros_spec, mod_small_fits by (done || lia). done.
Qed.

Lemma countr_zero_spec value :
  fits 64 value -> value <> 0 ->
  0 <= countr_zero value < 64 /\ Z.testbit value (countr_zero value) = true /\
  (forall i, 0 <= i < countr_zero value -> Z.testbit value i = false).
Proof.
  intros Hv Hne. pose proof (countTrailingZeros_spec value Hv Hne) as H.
  unfold countTrailingZeros in H. destruct (Z.eqb_spec value 0); done.
Qed.

(** [ctzOf] is the index of the lowest set bit, or the width. *)
Lemma ctzOf_spec v width :
  1 <= width <= 128 -> canon width v ->
  (uval v = 0 -> ctzOf v width = width) /\
  (uval v <> 0 -> 0 <= ctzOf v width < width /\ Z.testbit (uval v) (ctzOf v width) = true /\
     forall i, 0 <= i < ctzOf v width -> Z.testbit (uval v) i = false).
Proof.
  intros Hw Hv. pose proof Hv as [Hwf Hc]. pose proof Hwf as [Hl Hh].
  unfold ctzOf. rewrite mask_canon by (done || lia).
  assert (forall n, Z.testbit (uval v) n = true -> 0 <= n -> n < width) as Hlt.
  { intros n Ht Hn. apply Z.nle_gt. intros Hge. by rewrite (testbit_high width) in Ht. }
  split.
  - intros H0. unfold uval, fits in *. assert (lo v = 0 /\ hi v = 0) as [-> ->] by lia. done.
  - intros Hne. destruct (Z.eqb_spec (lo v) 0) as [Hz|Hnz]; cbn [negb].
    + assert (hi v <> 0) as Hhne by (unfold uval in Hne; lia).
      destruct (countr_zero_spec (hi v) Hh Hhne) as (Hb & Ht & Hlow).
      assert (Z.testbit (uval v) (64 + countr_zero (hi v)) = true) as Ht'.
      { rewrite testbit_uval by done. destruct (Z.ltb_spec (64 + countr_zero (hi v)) 64); [lia|].
        rewrite <-Ht. f_equal. lia. }
      specialize (Hlt _ Ht' ltac:(lia)).
      destruct (Z.eqb_spec (hi v) 0), (Z.ltb_spec 64 width); try lia. cbn [negb andb].
      split; [lia|]. split; [done|]. intros i Hi. rewrite testbit_uval by done.
      destruct (Z.ltb_spec i 64); [by rewrite Hz, Z.testbit_0_l|]. apply Hlow. lia.
    + destruct (countr_zero_spec (lo v) Hl Hnz) as (Hb & Ht & Hlow).
      assert (Z.testbit (uval v) (countr_zero (lo v)) = true) as Ht'.
      { rewrite testbit_uval by done. by destruct (Z.ltb_spec (countr_zero (lo v)) 64); [|lia]. }
      specialize (Hlt _ Ht' ltac:(lia)). split; [lia|]. split; [done|].
      intros i Hi. rewrite testbit_uval by done. destruct (Z.ltb_spec i 64); [|lia]. by apply Hlow.
Qed.

(** [brevOf] reverses the order of the bits. *)
Lemma brev_step_wf v width result bit :
  wf128 result -> wf128 (brev_step v width result bit).
Proof.
  intros [Hl Hh]. unfold brev_step. repeat case_match; split; simpl; try done;
    (apply fits_lor; [lia|done|apply fits_shl64]).
Qed.

Lemma testbit_brev_step v width result bit i :
  wf128 v -> wf128 result -> 0 <= bit < width -> width <= 128 -> 0 <= i ->
  Z.testbit (uval (brev_step v width result bit)) i =
    Z.testbit (uval result) i || (Z.testbit (uval v) bit && (i =? width - 1 - bit)).
Proof.
  intros Hv Hr Hb Hw Hi.
  assert ((if bit <? 64 then negb (Z.land (shr64 (lo v) bit) 1 =? 0)
           else negb (Z.land (shr64 (hi v) (bit - 64)) 1 =? 0)) = Z.testbit (uval v) bit) as Hset.
  { rewrite testbit_uval by done. destruct Hv as [Hl Hh].
    destruct (Z.ltb_spec bit 64).
    - pose proof (testBit_spec (lo v) bit ltac:(lia) Hl) as Ht. unfold testBit in Ht.
      destruct (Z.ltb_spec bit 64); [done|lia].
    - pose proof (testBit_spec (hi v) (bit - 64) ltac:(lia) Hh) as Ht. unfold testBit in Ht.
      destruct (Z.ltb_spec (bit - 64) 64); [done|lia]. }
  pose proof (brev_step_wf v width result bit Hr) as Hwf.
  unfold brev_step in *. rewrite Hset in *.
  destruct (Z.testbit (uval v) bit); cbn [negb] in *; [|by rewrite andb_false_l, orb_false_r].
  destruct Hr as [Hl Hh].
  destruct (Z.ltb_spec (width - 1 - bit) 64);
    rewrite !testbit_uval by wf_words; cbn [lo hi]; bit_cases; bit_finish; by rewrite ?orb_true_r, ?orb_false_r.
Qed.

Lemma brevOf_inv v width :
  wf128 v -> 0 <= width <= 128 ->
  wf128 (brevOf v width) /\
  forall i, 0 <= i -> Z.testbit (uval (brevOf v width)) i =
    (i <? width) && Z.testbit (uval v) (width - 1 - i).
Proof.
  intros Hv Hw. unfold brevOf.
  cut (wf128 (foldl (brev_step v width) zero128 (seqZ 0 width)) /\
    forall i, 0 <= i -> Z.testbit (uval (foldl (brev_step v width) zero128 (seqZ 0 width))) i =
      (width - width <=? i) && (i <? width) && Z.testbit (uval v) (width - 1 - i)).
  { intros [Hwf Hb]. split; [done|]. intros i Hi. rewrite Hb by done. bit_cases; done. }
  apply (foldl_seqZ_ind (fun k r => wf128 r /\ forall i, 0 <= i -> Z.testbit (uval r) i =
      (width - k <=? i) && (i <? width) && Z.testbit (uval v) (width - 1 - i))); [lia| |].
  - split; [apply wf_zero|]. intros i Hi. change (uval zero128) with 0. bit_cases; done.
  - intros k r Hk [Hr IH]. split; [by apply brev_step_wf|]. intros i Hi.
    rewrite testbit_brev_step, IH by (done || lia).
    destruct (Z.eqb_spec i (width - 1 - k)) as [->|Hne].
    + replace (width - 1 - (width - 1 - k)) with k by lia. bit_cases; by rewrite ?andb_true_r.
    + rewrite andb_false_r, orb_false_r. bit_cases; done.
Qed.

(** [bswapOf] reverses the order of the bytes. *)
Lemma bswap_step_wf v bytes result index :
  wf128 result -> wf128 (bswap_step v bytes result index).
Proof.
  intros [Hl Hh]. unfold bswap_step. repeat case_match; split; simpl; try done;
    (apply fits_lor; [lia|done|apply fits_shl64]).
Qed.

Lemma testbit_bswap_step v bytes result k i :
  wf128 v -> wf128 result -> 0 <= k < bytes -> bytes <= 16 -> 0 <= i ->
  Z.testbit (uval (bswap_step v bytes result k)) i =
    Z.testbit (uval result) i ||
    ((bytes - 1 - k) * 8 <=? i) && (i <? (bytes - k) * 8) &&
      Z.testbit (uval v) (i - (bytes - 1 - k) * 8 + k * 8).
Proof.
  intros Hv Hr Hk Hb Hi. pose proof (bswap_step_wf v bytes result k Hr) as Hwf.
  unfold bswap_step in *. change 0xFF with (Z.ones 8) in *. destruct Hv as [Hvl Hvh], Hr as [Hl Hh].
  destruct (Z.ltb_spec ((bytes - 1 - k) * 8) 64), (Z.ltb_spec k 8);
    rewrite !testbit_uval by wf_words; cbn [lo hi]; bit_cases; bit_finish;
    by rewrite ?orb_true_r, ?orb_false_r.
Qed.

Lemma bswapOf_inv v width :
  wf128 v -> 0 <= width <= 128 -> width mod 8 = 0 ->
  wf128 (bswapOf v width) /\
  forall i, 0 <= i -> Z.testbit (uval (bswapOf v width)) i =
    (i <? width) && Z.testbit (uval v) (width - 8 - 8 * (i / 8) + i mod 8).
Proof.
  intros Hv Hw Hm. unfold bswapOf. set (bytes := width / 8).
  assert (width = 8 * bytes) as Hwb by (unfold bytes; dlia).
  cut (wf128 (foldl (bswap_step v bytes) zero128 (seqZ 0 bytes)) /\
    forall i, 0 <= i -> Z.testbit (uval (foldl (bswap_step v bytes) zero128 (seqZ 0 bytes))) i =
      ((bytes - bytes) * 8 <=? i) && (i <? width) && Z.testbit (uval v) (width - 8 - 8 * (i / 8) + i mod 8)).
  { intros [Hwf Hb]. split; [by apply wf_mask; [lia|]|]. intros i Hi.
    rewrite uval_mask, Z.testbit_mod_pow2, Hb by (done || lia). bit_cases; done. }
  apply (foldl_seqZ_ind (fun k r => wf128 r /\ forall i, 0 <= i -> Z.testbit (uval r) i =
      ((bytes - k) * 8 <=? i) && (i <? width) && Z.testbit (uval v) (width - 8 - 8 * (i / 8) + i mod 8)));
    [lia| |].
  - split; [apply wf_zero|]. intros i Hi. change (uval zero128) with 0. bit_cases; done.
  - intros k r Hk [Hr IH]. split; [by apply bswap_step_wf|]. intros i Hi.
    rewrite testbit_bswap_step, IH by (done || lia).
    destruct (Z.leb_spec ((bytes - k) * 8) i), (Z.leb_spec ((bytes - (k + 1)) * 8) i),
      (Z.leb_spec ((bytes - 1 - k) * 8) i), (Z.ltb_spec i ((bytes - k) * 8)), (Z.ltb_spec i width);
      try lia; cbn [andb orb]; rewrite ?orb_false_r; try done.
    f_equal. dlia.
Qed.

(** ** Properties *)

(** C37 On values of any width up to 128 bits held as two words, addition,
    subtraction, multiplication and negation are arithmetic modulo the width,
    shifts are the integer shifts of the unsigned and of the signed reading, and
    the comparisons decide the unsigned and the signed order. *)
Theorem u128_arithmetic a b width amount :
  1 <= width <= 128 -> 0 <= amount -> canon width a -> canon width b ->
  uval (add a b width).1 = (uval a + uval b) mod 2 ^ width /\
  uval (sub a b width) = (uval a - uval b) mod 2 ^ width /\
  uval (mulLow a b width) = (uval a * uval b) mod 2 ^ width /\
  uval (shl a width amount) = Z.shiftl (uval a) amount mod 2 ^ width /\
  uval (shrU a width amount) = Z.shiftr (uval a) amount /\
  uval (shrS a width amount) = Z.shiftr (signed width (uval a)) amount mod 2 ^ width /\
  (cmpU a b <? 0) = (uval a <? uval b) /\
  (cmpS a b width <? 0) = (signed width (uval a) <? signed width (uval b)).
Proof.
  intros Hw Ha Hca Hcb. pose proof Hca as [Hwa _]. pose proof Hcb as [Hwb _]. split_and!.
  - apply uval_add; done || lia.
  - apply uval_sub; done || lia.
  - apply uval_mulLow; done || lia.
  - apply uval_shl; done || lia.
  - apply uval_shrU; done || lia.
  - by apply uval_shrS.
  - by apply cmpU_spec.
  - by apply cmpS_spec.
Qed.

Lemma u128_arithmetic_witness :
  canon 100 (MkU128 5 7) /\ canon 100 (MkU128 0 9) /\
  uval (sub (MkU128 5 7) (MkU128 0 9) 100) = (uval (MkU128 5 7) - uval (MkU128 0 9)) mod 2 ^ 100.
Proof.
  assert (canon 100 (MkU128 5 7)) as H1 by (repeat split; vm_compute; congruence).
  assert (canon 100 (MkU128 0 9)) as H2 by (repeat split; vm_compute; congruence).
  split; [exact H1|]. split; [exact H2|].
  refine (proj1 (proj2 (u128_arithmetic _ _ 100 0 _ _ H1 H2))); lia.
Defined.

(** Field extraction and insertion, zero and sign extension, rotation and bit
    reversal on 128-bit values: inserting a field replaces exactly its bits,
    extraction reads them back, sign extension keeps the signed value, rotation
    left undoes rotation right, and reversing the bits twice is the identity. *)
Theorem u128_fields v field offset width fullWidth amount :
  1 <= width -> 0 <= offset -> offset + width <= fullWidth -> fullWidth <= 128 -> 0 <= amount ->
  canon fullWidth v -> canon width field ->
  extract (insert v field offset width fullWidth) fullWidth offset width = field /\
  (forall i, 0 <= i -> i < offset \/ offset + width <= i ->
     Z.testbit (uval (insert v field offset width fullWidth)) i = Z.testbit (uval v) i) /\
  signed fullWidth (uval (sext field width fullWidth)) = signed width (uval field) /\
  zext field width fullWidth = field /\
  rotL (rotR v fullWidth amount) fullWidth amount = v /\
  brevOf (brevOf v fullWidth) fullWidth = v.
Proof.
  intros Hw Ho How Hf Ha Hv Hfd.
  pose proof (canon_insert v field offset width fullWidth ltac:(lia) Ho (proj1 Hv) (proj1 Hfd)) as Hi.
  split_and!.
  - apply uval_inj; [apply wf_mask; [lia|apply wf_shrU; try lia; apply Hi]|apply Hfd|].
    rewrite uval_extract by (done || lia). apply Z.bits_inj'. intros i Hii.
    rewrite Z.testbit_mod_pow2, Z.shiftr_spec, testbit_insert by (done || lia).
    destruct (Z.ltb_spec i width); cbn [andb].
    + if_true. f_equal. lia.
    + symmetry. apply (testbit_high width); [apply Hfd|lia].
  - intros i Hii Hout. rewrite testbit_insert by (done || lia). by if_false.
  - rewrite uval_sext by (done || lia). apply signed_unique; [lia|].
    pose proof (signed_range width (uval field) ltac:(lia) (proj2 Hfd)).
    pose proof (Z.pow_le_mono_r 2 (width - 1) (fullWidth - 1)). lia.
  - apply zext_canon; done || lia.
  - apply rotL_rotR; done || lia.
  - destruct (brevOf_inv v fullWidth (proj1 Hv) ltac:(lia)) as [Hwb Hb].
    destruct (brevOf_inv _ fullWidth Hwb ltac:(lia)) as [Hwb' Hb'].
    apply uval_inj; [done|apply Hv|]. apply Z.bits_inj'. intros i Hii. rewrite Hb' by done.
    destruct (Z.ltb_spec i fullWidth); cbn [andb].
    + rewrite Hb by lia. destruct (Z.ltb_spec (fullWidth - 1 - i) fullWidth); [|lia].
      cbn [andb]. f_equal. lia.
    + symmetry. apply (testbit_high fullWidth); [apply Hv|lia].
Qed.

Lemma u128_fields_witness :
  canon 128 (MkU128 1 2) /\ canon 16 (MkU128 0xBEEF 0) /\
  extract (insert (MkU128 1 2) (MkU128 0xBEEF 0) 56 16 128) 128 56 16 = MkU128 0xBEEF 0.
Proof.
  assert (canon 128 (MkU128 1 2)) as H1 by (repeat split; vm_compute; congruence).
  assert (canon 16 (MkU128 0xBEEF 0)) as H2 by (repeat split; vm_compute; congruence).
  split; [exact H1|]. split; [exact H2|].
  refine (proj1 (u128_fields (MkU128 1 2) (MkU128 0xBEEF 0) 56 16 128 3 _ _ _ _ _ H1 H2)); lia.
Defined.
