(* ===== verification/Types.v ===== *)
(** * IL value types (il/type.h, il/type.cpp)

    [Type] as the packed record the IL stores in every expression, its
    predicates, its textual spelling [typeToString] and the parser [Type.parse],
    with the round trip between the two. *)
From Stdlib Require Export Ascii.
From S2P Require Import Prelude.

(** ** The type record *)

Module TypeKind.
Inductive TypeKind : Set := Void | Int | Float | Flags | IntVector | FloatVector.
End TypeKind.
Abbreviation TypeKind := TypeKind.TypeKind.

#[export] Instance TypeKind_eq_dec : EqDecision TypeKind.
Proof. solve_decision. Defined.

Definition typeKindToString (kind : TypeKind) : string :=
  match kind with
  | TypeKind.Void => "void"
  | TypeKind.Int => "int"
  | TypeKind.Float => "float"
  | TypeKind.Flags => "flags"
  | TypeKind.IntVector => "int-vector"
  | TypeKind.FloatVector => "float-vector"
  end.

Definition kMaxBits : Z := 2048.
Definition kMaxLanes : Z := 255.

(** The class [Type]; the fields are in range of the C++ fields' types when
    [type_repr] holds, and every constructor below casts to them. *)
Record Ty : Set := MkTy { elementBits : Z; kind : TypeKind; lanes : Z }.

#[export] Instance Ty_eq_dec : EqDecision Ty.
Proof. solve_decision. Defined.

Definition voidType : Ty := MkTy 0 TypeKind.Void 1.
Definition integer (bits : Z) : Ty := MkTy (u16 bits) TypeKind.Int 1.
Definition booleanType : Ty := integer 1.
Definition floating (bits : Z) : Ty := MkTy (u16 bits) TypeKind.Float 1.
Definition flagsType : Ty := MkTy 0 TypeKind.Flags 1.
Definition intVector (elementBits lanes : Z) : Ty :=
  MkTy (u16 elementBits) TypeKind.IntVector (u8 lanes).
Definition floatVector (elementBits lanes : Z) : Ty :=
  MkTy (u16 elementBits) TypeKind.FloatVector (u8 lanes).

Definition bits (t : Ty) : Z := elementBits t * lanes t.
Definition isVoid (t : Ty) : bool := bool_decide (kind t = TypeKind.Void).
Definition isInteger (t : Ty) : bool := bool_decide (kind t = TypeKind.Int).
Definition isFloat (t : Ty) : bool := bool_decide (kind t = TypeKind.Float).
Definition isFlags (t : Ty) : bool := bool_decide (kind t = TypeKind.Flags).
Definition isVector (t : Ty) : bool :=
  bool_decide (kind t = TypeKind.IntVector) || bool_decide (kind t = TypeKind.FloatVector).
Definition isBoolean (t : Ty) : bool :=
  bool_decide (kind t = TypeKind.Int) && (elementBits t =? 1).
Definition isScalarInteger (t : Ty) : bool :=
  bool_decide (kind t = TypeKind.Int) && (0 <? elementBits t) && (elementBits t <=? 64).

Definition valid (t : Ty) : bool :=
  match kind t with
  | TypeKind.Void | TypeKind.Flags => (elementBits t =? 0) && (lanes t =? 1)
  | TypeKind.Int | TypeKind.Float =>
      (0 <? elementBits t) && (elementBits t <=? kMaxBits) && (lanes t =? 1)
  | TypeKind.IntVector | TypeKind.FloatVector =>
      (0 <? elementBits t) && (1 <? lanes t) && (bits t <=? kMaxBits)
  end.

(** [operator==] compares the three fields, so it is Leibniz equality. *)
Definition typeEq (lhs rhs : Ty) : bool :=
  bool_decide (kind lhs = kind rhs) && (elementBits lhs =? elementBits rhs)
  && (lanes lhs =? lanes rhs).

Definition typeKindCode (k : TypeKind) : Z :=
  match k with
  | TypeKind.Void => 0 | TypeKind.Int => 1 | TypeKind.Float => 2
  | TypeKind.Flags => 3 | TypeKind.IntVector => 4 | TypeKind.FloatVector => 5
  end.

Definition packed (t : Ty) : Z :=
  Z.lor (Z.lor (Z.shiftl (typeKindCode (kind t)) 24) (Z.shiftl (elementBits t) 8)) (lanes t).

(** The fields fit their C++ types, [uint16_t] and [uint8_t]. *)
Definition type_repr (t : Ty) : Prop := fits 16 (elementBits t) /\ fits 8 (lanes t).

(** ** Spelling *)

Definition digitChar (d : Z) : ascii := ascii_of_nat (48 + Z.to_nat d).

(** [std::format] of an unsigned integer: the digits of [n] in front of [acc].
    [fuel] bounds the number of digits; ten are enough for any [uint32_t]. *)
Fixpoint decimalDigits (fuel : nat) (n : Z) (acc : string) : string :=
  let acc := String (digitChar (n mod 10)) acc in
  match fuel with
  | O => acc
  | S fuel => if n / 10 =? 0 then acc else decimalDigits fuel (n / 10) acc
  end.

Definition decimal (n : Z) (rest : string) : string := decimalDigits 9 n rest.

Definition typeToString (t : Ty) : string :=
  match kind t with
  | TypeKind.Void => "void"
  | TypeKind.Flags => "flags"
  | TypeKind.Int => String "i" (decimal (elementBits t) "")
  | TypeKind.Float => String "f" (decimal (elementBits t) "")
  | TypeKind.IntVector => String "i" (decimal (elementBits t) (String "x" (decimal (lanes t) "")))
  | TypeKind.FloatVector => String "f" (decimal (elementBits t) (String "x" (decimal (lanes t) "")))
  end%string.

(** ** Parsing *)

Definition digitValue (c : ascii) : option Z :=
  let n := Z.of_nat (nat_of_ascii c) in
  if (48 <=? n) && (n <=? 57) then Some (n - 48) else None.

(** [std::from_chars] in base ten over the whole text: [None] on a character
    that is not a digit and on a value that does not fit [unsigned]. *)
Fixpoint fromChars (text : string) (value : Z) : option Z :=
  match text with
  | EmptyString => Some value
  | String c rest =>
      d ← digitValue c;
      let value := value * 10 + d in
      if value <? 2 ^ 32 then fromChars rest value else None
  end.

Definition parseUnsigned (text : string) : option Z :=
  match text with
  | EmptyString => None
  | _ => fromChars text 0
  end.

(** [rest.find('x')] with the two substrings around the match. *)
Fixpoint splitAtChar (c : ascii) (text : string) : option (string * string) :=
  match text with
  | EmptyString => None
  | String d rest =>
      if Ascii.eqb d c then Some (EmptyString, rest)
      else '(before, after) ← splitAtChar c rest; Some (String d before, after)
  end.

(** The element and lane text, after the prefix character. *)
Definition parseLanes (rest : string) : option (string * Z) :=
  match splitAtChar "x" rest with
  | Some (before, after) =>
      n ← parseUnsigned after;
      if n =? 1 then None else Some (before, n)
  | None => Some (rest, 1)
  end.

Definition parseSized (prefix : ascii) (rest : string) : option Ty :=
  '(rest, n) ← parseLanes rest;
  eb ← parseUnsigned rest;
  if (eb =? 0) || (kMaxBits <? eb) || (n =? 0) || (kMaxLanes <? n) then None
  else
    let parsed :=
      if n =? 1 then (if Ascii.eqb prefix "i" then integer eb else floating eb)
      else (if Ascii.eqb prefix "i" then intVector eb n else floatVector eb n) in
    if valid parsed then Some parsed else None.

Definition parseType (text : string) : option Ty :=
  if String.eqb text "void" then Some voidType
  else if String.eqb text "flags" then Some flagsType
  else match text with
       | String prefix (String c rest) =>
           if Ascii.eqb prefix "i" || Ascii.eqb prefix "f"
           then parseSized prefix (String c rest) else None
       | _ => None
       end.

(** ** Lemmas *)

Lemma u16_small z : fits 16 z -> u16 z = z.
Proof. apply Z.mod_small. Qed.
Lemma u8_small z : fits 8 z -> u8 z = z.
Proof. apply Z.mod_small. Qed.

Lemma typeEq_spec a b : typeEq a b = bool_decide (a = b).
Proof.
  destruct a as [ea ka la], b as [eb kb lb]. unfold typeEq. cbn.
  apply eq_true_iff_eq. rewrite !andb_true_iff, !bool_decide_eq_true, !Z.eqb_eq.
  split; [by intros [[-> ->] ->]|by intros [= -> -> ->]].
Qed.

Lemma bits_integer w : 0 <= w < 2 ^ 16 -> bits (integer w) = w.
Proof. intros Hw. unfold bits. simpl. rewrite u16_small by done. lia. Qed.

Lemma valid_repr_bounds t :
  valid t = true -> type_repr t -> 0 <= bits t <= kMaxBits /\ 0 <= elementBits t <= kMaxBits.
Proof.
  unfold valid, type_repr, fits, bits, kMaxBits. destruct (kind t); intros Hv [He Hl];
    repeat (apply andb_true_iff in Hv as [Hv ?]); nia.
Qed.

Lemma nat_of_digitChar d : 0 <= d < 10 -> nat_of_ascii (digitChar d) = (48 + Z.to_nat d)%nat.
Proof. intros. unfold digitChar. apply nat_ascii_embedding. lia. Qed.

Lemma digitValue_digitChar d : 0 <= d < 10 -> digitValue (digitChar d) = Some d.
Proof.
  intros Hd. unfold digitValue. rewrite nat_of_digitChar by done.
  replace (Z.of_nat (48 + Z.to_nat d)) with (48 + d) by lia.
  assert ((48 <=? 48 + d) && (48 + d <=? 57) = true) as -> by lia. f_equal. lia.
Qed.

(** Printing then scanning is scanning from the printed number. *)
Lemma fromChars_decimalDigits fuel n acc :
  0 <= n < 2 ^ 32 -> n < 10 ^ Z.of_nat (S fuel) ->
  fromChars (decimalDigits fuel n acc) 0 = fromChars acc n.
Proof.
  revert n acc. induction fuel as [|fuel IH]; intros n acc Hn Hf; cbn [decimalDigits].
  - assert (n mod 10 = n) as -> by (apply Z.mod_small; lia).
    cbn [fromChars]. rewrite digitValue_digitChar by lia. cbn [mbind option_bind].
    rewrite Z.mul_0_l, Z.add_0_l. by assert ((n <? 2 ^ 32) = true) as -> by lia.
  - assert (0 <= n mod 10 < 10) by dlia.
    destruct (Z.eqb_spec (n / 10) 0) as [Hz|Hz].
    + assert (n mod 10 = n) as -> by dlia.
      cbn [fromChars]. rewrite digitValue_digitChar by dlia. cbn [mbind option_bind].
      assert ((0 * 10 + n <? 2 ^ 32) = true) as -> by lia. by rewrite Z.mul_0_l, Z.add_0_l.
    + rewrite IH; [|dlia|rewrite Nat2Z.inj_succ, Z.pow_succ_r in Hf by lia; dlia].
      cbn [fromChars]. rewrite digitValue_digitChar by lia. cbn [mbind option_bind].
      replace (n / 10 * 10 + n mod 10) with n by dlia.
      by assert ((n <? 2 ^ 32) = true) as -> by lia.
Qed.

Lemma decimalDigits_cons fuel n acc :
  0 <= n -> exists d rest, decimalDigits fuel n acc = String (digitChar d) rest /\ 0 <= d < 10.
Proof.
  revert n acc. induction fuel as [|fuel IH]; intros n acc Hn; cbn [decimalDigits].
  - eexists _, _. split; [done|dlia].
  - destruct (_ =? 0); [eexists _, _; split; [done|dlia]|apply IH; dlia].
Qed.

Lemma splitAtChar_decimalDigits fuel n acc :
  0 <= n ->
  splitAtChar "x" (decimalDigits fuel n acc) =
  ('(before, after) ← splitAtChar "x" acc; Some (decimalDigits fuel n before, after)).
Proof.
  revert n acc.
  assert (forall d acc, 0 <= d < 10 ->
    splitAtChar "x" (String (digitChar d) acc) =
    ('(before, after) ← splitAtChar "x" acc; Some (String (digitChar d) before, after))) as Hd.
  { intros d acc Hd. cbn [splitAtChar].
    destruct (Ascii.eqb_spec (digitChar d) "x") as [Heq|]; [|done].
    apply (f_equal nat_of_ascii) in Heq. rewrite nat_of_digitChar in Heq by done.
    change (nat_of_ascii "x") with 120%nat in Heq. lia. }
  induction fuel as [|fuel IH]; intros n acc Hn; cbn [decimalDigits].
  - apply Hd. dlia.
  - destruct (_ =? 0); [apply Hd; dlia|].
    rewrite IH by dlia. rewrite Hd by dlia. by destruct (splitAtChar "x" acc) as [[]|].
Qed.

Lemma splitAtChar_decimal n rest :
  0 <= n ->
  splitAtChar "x" (decimal n rest) =
  ('(before, after) ← splitAtChar "x" rest; Some (decimal n before, after)).
Proof. apply splitAtChar_decimalDigits. Qed.

Lemma parseUnsigned_decimal n : 0 <= n < 2 ^ 32 -> parseUnsigned (decimal n "") = Some n.
Proof.
  intros Hn. unfold parseUnsigned, decimal.
  pose proof (fromChars_decimalDigits 9 n "" Hn ltac:(lia)) as Hf.
  destruct (decimalDigits_cons 9 n "" ltac:(lia)) as (d & rest & Heq & _).
  by rewrite Heq in *.
Qed.

Lemma parseSized_scalar prefix eb :
  0 < eb <= kMaxBits ->
  parseSized prefix (decimal eb "") =
  Some (if Ascii.eqb prefix "i" then integer eb else floating eb).
Proof.
  unfold kMaxBits. intros Hb. unfold parseSized, parseLanes.
  rewrite splitAtChar_decimal by lia. simpl. rewrite parseUnsigned_decimal by lia. simpl.
  unfold kMaxBits, kMaxLanes. if_false.
  destruct (Ascii.eqb prefix "i"); unfold valid; simpl;
    unfold kMaxBits; rewrite u16_small by (unfold fits; lia); by if_true.
Qed.

Lemma parseSized_vector prefix eb n :
  0 < eb <= kMaxBits -> 1 < n <= kMaxLanes -> eb * n <= kMaxBits ->
  parseSized prefix (decimal eb (String "x" (decimal n ""))) =
  Some (if Ascii.eqb prefix "i" then intVector eb n else floatVector eb n).
Proof.
  unfold kMaxBits, kMaxLanes. intros Hb Hn Hbits. unfold parseSized, parseLanes.
  rewrite splitAtChar_decimal by lia. simpl.
  rewrite parseUnsigned_decimal by lia. simpl.
  if_false. simpl.
  rewrite parseUnsigned_decimal by lia. simpl. unfold kMaxBits, kMaxLanes.
  if_false. if_false.
  destruct (Ascii.eqb prefix "i"); unfold valid, bits; simpl;
    rewrite u16_small, u8_small by (unfold fits; lia); unfold kMaxBits; by if_true.
Qed.

(** A decimal spelling does not collide with the two keyword types. *)
Lemma parseType_sized prefix n rest :
  0 <= n -> Ascii.eqb prefix "i" || Ascii.eqb prefix "f" = true ->
  parseType (String prefix (decimal n rest)) = parseSized prefix (decimal n rest).
Proof.
  intros Hn Hp. unfold parseType, decimal.
  destruct (decimalDigits_cons 9 n rest Hn) as (d & r & -> & Hd).
  destruct (String.eqb_spec (String prefix (String (digitChar d) r)) "void") as [Heq|].
  { injection Heq as -> _ _. done. }
  destruct (String.eqb_spec (String prefix (String (digitChar d) r)) "flags") as [Heq|].
  { injection Heq as _ Heq _. apply (f_equal nat_of_ascii) in Heq.
    rewrite nat_of_digitChar in Heq by done. change (nat_of_ascii "l") with 108%nat in Heq. lia. }
  by rewrite Hp.
Qed.

Lemma parseSized_valid prefix rest t :
  parseSized prefix rest = Some t -> valid t = true /\ type_repr t.
Proof.
  unfold parseSized. intros H.
  destruct (parseLanes rest) as [[r n]|]; [|done]. simpl in H.
  destruct (parseUnsigned r) as [eb|]; [|done]. simpl in H.
  destruct (_ || _); [done|].
  destruct (valid _) eqn:Hv in H; [|done]. injection H as <-.
  split; [done|].
  destruct (_ =? _), (Ascii.eqb _ _); split; simpl;
    try (by apply fits_mod); unfold fits; lia.
Qed.

Lemma parseType_valid text t : parseType text = Some t -> valid t = true /\ type_repr t.
Proof.
  unfold parseType. intros H.
  destruct (String.eqb text "void"); [injection H as <-; split; [done|split; unfold fits; simpl; lia]|].
  destruct (String.eqb text "flags"); [injection H as <-; split; [done|split; unfold fits; simpl; lia]|].
  destruct text as [|p [|c rest]]; [done|done|].
  destruct (_ || _); [|done]. by apply parseSized_valid in H.
Qed.

Lemma parseType_typeToString t :
  valid t = true -> type_repr t -> parseType (typeToString t) = Some t.
Proof.
  intros Hv Hr. destruct (valid_repr_bounds t Hv Hr) as [_ He].
  destruct t as [eb k n], Hr as [Hre Hrn]. cbn [elementBits lanes kind] in *.
  unfold valid, typeToString, bits, kMaxBits in *. cbn [elementBits lanes kind] in *.
  destruct k; repeat (apply andb_true_iff in Hv as [Hv ?]).
  - assert (eb = 0) as -> by lia. by assert (n = 1) as -> by lia.
  - rewrite parseType_sized, parseSized_scalar by (done || (unfold kMaxBits; lia)). simpl.
    unfold integer. rewrite u16_small by done. by assert (n = 1) as -> by lia.
  - rewrite parseType_sized, parseSized_scalar by (done || (unfold kMaxBits; lia)). simpl.
    unfold floating. rewrite u16_small by done. by assert (n = 1) as -> by lia.
  - assert (eb = 0) as -> by lia. by assert (n = 1) as -> by lia.
  - rewrite parseType_sized, parseSized_vector
      by (done || (unfold kMaxBits, kMaxLanes, fits in *; lia)). simpl.
    unfold intVector. by rewrite u16_small, u8_small by done.
  - rewrite parseType_sized, parseSized_vector
      by (done || (unfold kMaxBits, kMaxLanes, fits in *; lia)). simpl.
    unfold floatVector. by rewrite u16_small, u8_small by done.
Qed.

(** ** Properties *)

(** Printing a well-formed type and parsing the text gives the type back, and
    everything the parser accepts is a well-formed type whose own spelling
    parses to it: the text form is a faithful encoding of the types. *)
Theorem type_roundtrip :
  (forall t, valid t = true -> type_repr t -> parseType (typeToString t) = Some t)
  /\ (forall text t, parseType text = Some t ->
        valid t = true /\ parseType (typeToString t) = Some t).
Proof.
  split; [apply parseType_typeToString|].
  intros text t H. apply parseType_valid in H as [Hv Hr].
  split; [done|by apply parseType_typeToString].
Qed.

(** Packing a type for hashing and serialisation loses nothing. *)
Theorem packed_injective a b :
  type_repr a -> type_repr b -> packed a = packed b -> a = b.
Proof.
  assert (forall t, type_repr t -> packed t = lanes t + (elementBits t + typeKindCode (kind t) * 2 ^ 16) * 2 ^ 8) as Hp.
  { intros [eb k n] [He Hn]. unfold packed. cbn [elementBits lanes kind] in *.
    replace (typeKindCode k * 2 ^ 16) with (Z.shiftl (typeKindCode k) 16)
      by (rewrite Z.shiftl_mul_pow2 by lia; lia).
    rewrite <-(lor_add_shiftl n) by done.
    replace (eb + Z.shiftl (typeKindCode k) 16) with (Z.lor eb (Z.shiftl (typeKindCode k) 16))
      by (rewrite lor_add_shiftl, Z.shiftl_mul_pow2 by done; lia).
    rewrite Z.shiftl_lor, Z.shiftl_shiftl by lia.
    rewrite (Z.lor_comm (Z.shiftl eb 8)), (Z.lor_comm n). done. }
  intros Ha Hb. rewrite !Hp by done. destruct a as [ea ka la], b as [eb kb lb].
  destruct Ha as [Hea Hla], Hb as [Heb Hlb]. cbn [elementBits lanes kind] in *.
  unfold fits in *. intros Heq.
  assert (typeKindCode ka = typeKindCode kb /\ ea = eb /\ la = lb) as (Hk & -> & ->) by lia.
  by destruct ka, kb.
Qed.

Lemma packed_injective_witness :
  type_repr (intVector 32 4) /\ packed (intVector 32 4) = 67117060
  /\ intVector 32 4 = intVector 32 4.
Proof.
  assert (type_repr (intVector 32 4)) as H by (split; unfold fits; vm_compute; split; congruence).
  split; [exact H|]. split; [reflexivity|].
  exact (packed_injective _ _ H H eq_refl).
Defined.

(** The comment in [Type::parse] promises one spelling per type; a leading
    zero is a second one. *)
Theorem parse_not_canonical :
  exists text t, parseType text = Some t /\ typeToString t <> text.
Proof. exists "i032"%string, (integer 32). split; [reflexivity|discriminate]. Qed.
