(* ===== verification/Exprs.v ===== *)
(** * Expression nodes and operations (il/expr.h, il/expr.cpp, il/op.h, il/op.cpp)

    The opcode tables with their arity, category and result rule, flag
    producers, condition codes, the [Expr] and [Op] records, and the name
    tables the printer and parser share. *)
From S2P Require Import Prelude Types.

(** ** Handles

    [ExprId], [OpId], [BlockId], [ValueId] and [RegId] are 32-bit indices; the
    largest one is the invalid handle. *)
Definition kInvalidIndex : N := 4294967295.

Definition handleValid (h : N) : bool := negb (N.eqb h kInvalidIndex).

(** [HandleVector::contains] and the checked access built on it. *)
Definition contains {A} (storage : list A) (h : N) : bool :=
  handleValid h && (h <? N.of_nat (length storage))%N.

Definition vget {A} (storage : list A) (h : N) : option A :=
  if contains storage h then storage !! N.to_nat h else None.

(** [HandleVector::emplace]: aborts when the handle space is exhausted. *)
Definition emplace {A} (storage : list A) (x : A) : option (list A * N) :=
  let index := N.of_nat (length storage) in
  if (index =? kInvalidIndex)%N then None else Some (storage ++ [x], index).

(** ** Expression opcodes *)

Module ExprOp.
Inductive ExprOp : Set :=
  | Const | Value | Undef | EntryReg | Add | Sub | Mul | MulHiU | MulHiS | DivU | DivS | RemU
  | RemS | Neg | And | Or | Xor | Not | Shl | ShrU | ShrS | RotR | RotL | CmpEq | CmpNe
  | CmpLtU | CmpLeU | CmpLtS | CmpLeS | ZExt | SExt | Trunc | Bitcast | Extract | Concat | Clz
  | Ctz | PopCount | ByteSwap | BitReverse | Select | FlagDef | FlagCond | FlagBit | FAdd
  | FSub | FMul | FDiv | FNeg | FAbs | FSqrt | FCeil | FCmpEq | FCmpLt | FCmpLe | FCmpUnordered
  | FpConvert | FpToIntS | FpToIntU | IntToFpS | IntToFpU.
End ExprOp.
Abbreviation ExprOp := ExprOp.ExprOp.

Module ResultRule.
Inductive ResultRule : Set := SameAsOperands | Boolean | Explicit | FlagsResult | SameAsLastTwo.
End ResultRule.
Abbreviation ResultRule := ResultRule.ResultRule.

Module ExprCategory.
Inductive ExprCategory : Set :=
  | Leaf | IntArithmetic | IntBitwise | IntShift | IntCompare | Cast | BitCount | Select
  | FlagProducer | FlagConsumer | FloatArithmetic | FloatCompare | FloatCast.
End ExprCategory.
Abbreviation ExprCategory := ExprCategory.ExprCategory.

Record ExprOpInfo : Set := MkExprOpInfo {
  infoText : string; minArity : nat; maxArity : nat; infoCategory : ExprCategory;
  infoResult : ResultRule }.

(** [kExprOpInfo], one row of [XDEC_EXPR_OPS] per opcode. *)
Definition info (op : ExprOp) : ExprOpInfo :=
  match op with
  | ExprOp.Const => MkExprOpInfo "const" 0 0 ExprCategory.Leaf ResultRule.Explicit
  | ExprOp.Value => MkExprOpInfo "val" 0 0 ExprCategory.Leaf ResultRule.Explicit
  | ExprOp.Undef => MkExprOpInfo "undef" 0 0 ExprCategory.Leaf ResultRule.Explicit
  | ExprOp.EntryReg => MkExprOpInfo "entry" 0 0 ExprCategory.Leaf ResultRule.Explicit
  | ExprOp.Add => MkExprOpInfo "add" 2 2 ExprCategory.IntArithmetic ResultRule.SameAsOperands
  | ExprOp.Sub => MkExprOpInfo "sub" 2 2 ExprCategory.IntArithmetic ResultRule.SameAsOperands
  | ExprOp.Mul => MkExprOpInfo "mul" 2 2 ExprCategory.IntArithmetic ResultRule.SameAsOperands
  | ExprOp.MulHiU => MkExprOpInfo "mulhi.u" 2 2 ExprCategory.IntArithmetic ResultRule.SameAsOperands
  | ExprOp.MulHiS => MkExprOpInfo "mulhi.s" 2 2 ExprCategory.IntArithmetic ResultRule.SameAsOperands
  | ExprOp.DivU => MkExprOpInfo "div.u" 2 2 ExprCategory.IntArithmetic ResultRule.SameAsOperands
  | ExprOp.DivS => MkExprOpInfo "div.s" 2 2 ExprCategory.IntArithmetic ResultRule.SameAsOperands
  | ExprOp.RemU => MkExprOpInfo "rem.u" 2 2 ExprCategory.IntArithmetic ResultRule.SameAsOperands
  | ExprOp.RemS => MkExprOpInfo "rem.s" 2 2 ExprCategory.IntArithmetic ResultRule.SameAsOperands
  | ExprOp.Neg => MkExprOpInfo "neg" 1 1 ExprCategory.IntArithmetic ResultRule.SameAsOperands
  | ExprOp.And => MkExprOpInfo "and" 2 2 ExprCategory.IntBitwise ResultRule.SameAsOperands
  | ExprOp.Or => MkExprOpInfo "or" 2 2 ExprCategory.IntBitwise ResultRule.SameAsOperands
  | ExprOp.Xor => MkExprOpInfo "xor" 2 2 ExprCategory.IntBitwise ResultRule.SameAsOperands
  | ExprOp.Not => MkExprOpInfo "not" 1 1 ExprCategory.IntBitwise ResultRule.SameAsOperands
  | ExprOp.Shl => MkExprOpInfo "shl" 2 2 ExprCategory.IntShift ResultRule.SameAsOperands
  | ExprOp.ShrU => MkExprOpInfo "shr.u" 2 2 ExprCategory.IntShift ResultRule.SameAsOperands
  | ExprOp.ShrS => MkExprOpInfo "shr.s" 2 2 ExprCategory.IntShift ResultRule.SameAsOperands
  | ExprOp.RotR => MkExprOpInfo "rotr" 2 2 ExprCategory.IntShift ResultRule.SameAsOperands
  | ExprOp.RotL => MkExprOpInfo "rotl" 2 2 ExprCategory.IntShift ResultRule.SameAsOperands
  | ExprOp.CmpEq => MkExprOpInfo "cmp.eq" 2 2 ExprCategory.IntCompare ResultRule.Boolean
  | ExprOp.CmpNe => MkExprOpInfo "cmp.ne" 2 2 ExprCategory.IntCompare ResultRule.Boolean
  | ExprOp.CmpLtU => MkExprOpInfo "cmp.ltu" 2 2 ExprCategory.IntCompare ResultRule.Boolean
  | ExprOp.CmpLeU => MkExprOpInfo "cmp.leu" 2 2 ExprCategory.IntCompare ResultRule.Boolean
  | ExprOp.CmpLtS => MkExprOpInfo "cmp.lts" 2 2 ExprCategory.IntCompare ResultRule.Boolean
  | ExprOp.CmpLeS => MkExprOpInfo "cmp.les" 2 2 ExprCategory.IntCompare ResultRule.Boolean
  | ExprOp.ZExt => MkExprOpInfo "zext" 1 1 ExprCategory.Cast ResultRule.Explicit
  | ExprOp.SExt => MkExprOpInfo "sext" 1 1 ExprCategory.Cast ResultRule.Explicit
  | ExprOp.Trunc => MkExprOpInfo "trunc" 1 1 ExprCategory.Cast ResultRule.Explicit
  | ExprOp.Bitcast => MkExprOpInfo "bitcast" 1 1 ExprCategory.Cast ResultRule.Explicit
  | ExprOp.Extract => MkExprOpInfo "extract" 1 1 ExprCategory.Cast ResultRule.Explicit
  | ExprOp.Concat => MkExprOpInfo "concat" 2 2 ExprCategory.Cast ResultRule.Explicit
  | ExprOp.Clz => MkExprOpInfo "clz" 1 1 ExprCategory.BitCount ResultRule.SameAsOperands
  | ExprOp.Ctz => MkExprOpInfo "ctz" 1 1 ExprCategory.BitCount ResultRule.SameAsOperands
  | ExprOp.PopCount => MkExprOpInfo "popcount" 1 1 ExprCategory.BitCount ResultRule.SameAsOperands
  | ExprOp.ByteSwap => MkExprOpInfo "bswap" 1 1 ExprCategory.BitCount ResultRule.SameAsOperands
  | ExprOp.BitReverse => MkExprOpInfo "brev" 1 1 ExprCategory.BitCount ResultRule.SameAsOperands
  | ExprOp.Select => MkExprOpInfo "select" 3 3 ExprCategory.Select ResultRule.SameAsLastTwo
  | ExprOp.FlagDef => MkExprOpInfo "flagdef" 1 3 ExprCategory.FlagProducer ResultRule.FlagsResult
  | ExprOp.FlagCond => MkExprOpInfo "flagcond" 1 1 ExprCategory.FlagConsumer ResultRule.Boolean
  | ExprOp.FlagBit => MkExprOpInfo "flagbit" 1 1 ExprCategory.FlagConsumer ResultRule.Boolean
  | ExprOp.FAdd => MkExprOpInfo "fadd" 2 2 ExprCategory.FloatArithmetic ResultRule.SameAsOperands
  | ExprOp.FSub => MkExprOpInfo "fsub" 2 2 ExprCategory.FloatArithmetic ResultRule.SameAsOperands
  | ExprOp.FMul => MkExprOpInfo "fmul" 2 2 ExprCategory.FloatArithmetic ResultRule.SameAsOperands
  | ExprOp.FDiv => MkExprOpInfo "fdiv" 2 2 ExprCategory.FloatArithmetic ResultRule.SameAsOperands
  | ExprOp.FNeg => MkExprOpInfo "fneg" 1 1 ExprCategory.FloatArithmetic ResultRule.SameAsOperands
  | ExprOp.FAbs => MkExprOpInfo "fabs" 1 1 ExprCategory.FloatArithmetic ResultRule.SameAsOperands
  | ExprOp.FSqrt => MkExprOpInfo "fsqrt" 1 1 ExprCategory.FloatArithmetic ResultRule.SameAsOperands
  | ExprOp.FCeil => MkExprOpInfo "fceil" 1 1 ExprCategory.FloatArithmetic ResultRule.SameAsOperands
  | ExprOp.FCmpEq => MkExprOpInfo "fcmp.eq" 2 2 ExprCategory.FloatCompare ResultRule.Boolean
  | ExprOp.FCmpLt => MkExprOpInfo "fcmp.lt" 2 2 ExprCategory.FloatCompare ResultRule.Boolean
  | ExprOp.FCmpLe => MkExprOpInfo "fcmp.le" 2 2 ExprCategory.FloatCompare ResultRule.Boolean
  | ExprOp.FCmpUnordered => MkExprOpInfo "fcmp.uno" 2 2 ExprCategory.FloatCompare ResultRule.Boolean
  | ExprOp.FpConvert => MkExprOpInfo "fpconvert" 1 1 ExprCategory.FloatCast ResultRule.Explicit
  | ExprOp.FpToIntS => MkExprOpInfo "fptoint.s" 1 1 ExprCategory.FloatCast ResultRule.Explicit
  | ExprOp.FpToIntU => MkExprOpInfo "fptoint.u" 1 1 ExprCategory.FloatCast ResultRule.Explicit
  | ExprOp.IntToFpS => MkExprOpInfo "inttofp.s" 1 1 ExprCategory.FloatCast ResultRule.Explicit
  | ExprOp.IntToFpU => MkExprOpInfo "inttofp.u" 1 1 ExprCategory.FloatCast ResultRule.Explicit
  end%string.

(** The enumerators in declaration order. *)
Definition exprOps : list ExprOp :=
  [ ExprOp.Const; ExprOp.Value; ExprOp.Undef; ExprOp.EntryReg; ExprOp.Add; ExprOp.Sub;
  ExprOp.Mul; ExprOp.MulHiU; ExprOp.MulHiS; ExprOp.DivU; ExprOp.DivS; ExprOp.RemU; ExprOp.RemS;
  ExprOp.Neg; ExprOp.And; ExprOp.Or; ExprOp.Xor; ExprOp.Not; ExprOp.Shl; ExprOp.ShrU;
  ExprOp.ShrS; ExprOp.RotR; ExprOp.RotL; ExprOp.CmpEq; ExprOp.CmpNe; ExprOp.CmpLtU;
  ExprOp.CmpLeU; ExprOp.CmpLtS; ExprOp.CmpLeS; ExprOp.ZExt; ExprOp.SExt; ExprOp.Trunc;
  ExprOp.Bitcast; ExprOp.Extract; ExprOp.Concat; ExprOp.Clz; ExprOp.Ctz; ExprOp.PopCount;
  ExprOp.ByteSwap; ExprOp.BitReverse; ExprOp.Select; ExprOp.FlagDef; ExprOp.FlagCond;
  ExprOp.FlagBit; ExprOp.FAdd; ExprOp.FSub; ExprOp.FMul; ExprOp.FDiv; ExprOp.FNeg; ExprOp.FAbs;
  ExprOp.FSqrt; ExprOp.FCeil; ExprOp.FCmpEq; ExprOp.FCmpLt; ExprOp.FCmpLe;
  ExprOp.FCmpUnordered; ExprOp.FpConvert; ExprOp.FpToIntS; ExprOp.FpToIntU; ExprOp.IntToFpS;
  ExprOp.IntToFpU ].

#[export] Instance ExprOp_eq_dec : EqDecision ExprOp.
Proof. intros x y. unfold Decision. decide equality. Defined.
#[export] Instance ResultRule_eq_dec : EqDecision ResultRule.
Proof. solve_decision. Defined.

(** A table built by inserting [name x] for every [x] of [keys] in order, the
    first insertion of a name winning, and looked up by name. *)
Definition lookupByName {A} (name : A -> string) (keys : list A) (key : string) : option A :=
  find (fun x => String.eqb (name x) key) keys.

Definition exprOpToString (op : ExprOp) : string := infoText (info op).
Definition parseExprOp (key : string) : option ExprOp := lookupByName exprOpToString exprOps key.

(** ** Flag producers, flag bits and condition codes *)

Module FlagOp.
Inductive FlagOp : Set := Add | Sub | AddCarry | SubCarry | Logical | Const.
End FlagOp.
Abbreviation FlagOp := FlagOp.FlagOp.

Module FlagBitIndex.
Inductive FlagBitIndex : Set := Negative | Zero | Carry | Overflow.
End FlagBitIndex.
Abbreviation FlagBitIndex := FlagBitIndex.FlagBitIndex.

Module ConditionCode.
Inductive ConditionCode : Set :=
  | Equal | NotEqual | CarrySet | CarryClear | Negative | NonNegative | Overflow | NoOverflow
  | UnsignedGreater | UnsignedLessEqual | SignedGreaterEqual | SignedLess | SignedGreater
  | SignedLessEqual | Always | Never.
End ConditionCode.
Abbreviation ConditionCode := ConditionCode.ConditionCode.

#[export] Instance FlagOp_eq_dec : EqDecision FlagOp.
Proof. solve_decision. Defined.
#[export] Instance FlagBitIndex_eq_dec : EqDecision FlagBitIndex.
Proof. solve_decision. Defined.
#[export] Instance ConditionCode_eq_dec : EqDecision ConditionCode.
Proof. solve_decision. Defined.

(** Enumerators in order: the [static_cast]s between an enumerator and its
    number index these lists. *)
Definition flagOps : list FlagOp :=
  [FlagOp.Add; FlagOp.Sub; FlagOp.AddCarry; FlagOp.SubCarry; FlagOp.Logical; FlagOp.Const].
Definition flagBits : list FlagBitIndex :=
  [FlagBitIndex.Negative; FlagBitIndex.Zero; FlagBitIndex.Carry; FlagBitIndex.Overflow].
Definition conditionCodes : list ConditionCode :=
  [ConditionCode.Equal; ConditionCode.NotEqual; ConditionCode.CarrySet; ConditionCode.CarryClear;
   ConditionCode.Negative; ConditionCode.NonNegative; ConditionCode.Overflow;
   ConditionCode.NoOverflow; ConditionCode.UnsignedGreater; ConditionCode.UnsignedLessEqual;
   ConditionCode.SignedGreaterEqual; ConditionCode.SignedLess; ConditionCode.SignedGreater;
   ConditionCode.SignedLessEqual; ConditionCode.Always; ConditionCode.Never].

Definition flagOpCode (op : FlagOp) : Z :=
  match op with
  | FlagOp.Add => 0 | FlagOp.Sub => 1 | FlagOp.AddCarry => 2 | FlagOp.SubCarry => 3
  | FlagOp.Logical => 4 | FlagOp.Const => 5
  end.
Definition flagBitCode (bit : FlagBitIndex) : Z :=
  match bit with
  | FlagBitIndex.Negative => 0 | FlagBitIndex.Zero => 1 | FlagBitIndex.Carry => 2
  | FlagBitIndex.Overflow => 3
  end.
Definition conditionCode (code : ConditionCode) : Z :=
  match code with
  | ConditionCode.Equal => 0 | ConditionCode.NotEqual => 1 | ConditionCode.CarrySet => 2
  | ConditionCode.CarryClear => 3 | ConditionCode.Negative => 4 | ConditionCode.NonNegative => 5
  | ConditionCode.Overflow => 6 | ConditionCode.NoOverflow => 7
  | ConditionCode.UnsignedGreater => 8 | ConditionCode.UnsignedLessEqual => 9
  | ConditionCode.SignedGreaterEqual => 10 | ConditionCode.SignedLess => 11
  | ConditionCode.SignedGreater => 12 | ConditionCode.SignedLessEqual => 13
  | ConditionCode.Always => 14 | ConditionCode.Never => 15
  end.

(** [static_cast] from the stored number; [None] is a number that is no
    enumerator other than the [Count] sentinel. The casts to the [uint8_t]
    enumerations keep the low eight bits. *)
Definition enumAt {A} (enumerators : list A) (n : Z) : option A := enumerators !! Z.to_nat (u8 n).

Definition flagOpToString (op : FlagOp) : string :=
  match op with
  | FlagOp.Add => "add" | FlagOp.Sub => "sub" | FlagOp.AddCarry => "adc"
  | FlagOp.SubCarry => "sbc" | FlagOp.Logical => "logic" | FlagOp.Const => "const"
  end%string.

Definition parseFlagOp (key : string) : option FlagOp :=
  if String.eqb key "add" then Some FlagOp.Add
  else if String.eqb key "sub" then Some FlagOp.Sub
  else if String.eqb key "adc" then Some FlagOp.AddCarry
  else if String.eqb key "sbc" then Some FlagOp.SubCarry
  else if String.eqb key "logic" then Some FlagOp.Logical
  else if String.eqb key "const" then Some FlagOp.Const
  else None.

Definition flagBitToString (bit : FlagBitIndex) : string :=
  match bit with
  | FlagBitIndex.Negative => "n" | FlagBitIndex.Zero => "z" | FlagBitIndex.Carry => "c"
  | FlagBitIndex.Overflow => "v"
  end%string.

Definition parseFlagBit (key : string) : option FlagBitIndex :=
  if String.eqb key "n" then Some FlagBitIndex.Negative
  else if String.eqb key "z" then Some FlagBitIndex.Zero
  else if String.eqb key "c" then Some FlagBitIndex.Carry
  else if String.eqb key "v" then Some FlagBitIndex.Overflow
  else None.

Definition conditionToString (code : ConditionCode) : string :=
  match code with
  | ConditionCode.Equal => "eq" | ConditionCode.NotEqual => "ne"
  | ConditionCode.CarrySet => "cs" | ConditionCode.CarryClear => "cc"
  | ConditionCode.Negative => "mi" | ConditionCode.NonNegative => "pl"
  | ConditionCode.Overflow => "vs" | ConditionCode.NoOverflow => "vc"
  | ConditionCode.UnsignedGreater => "hi" | ConditionCode.UnsignedLessEqual => "ls"
  | ConditionCode.SignedGreaterEqual => "ge" | ConditionCode.SignedLess => "lt"
  | ConditionCode.SignedGreater => "gt" | ConditionCode.SignedLessEqual => "le"
  | ConditionCode.Always => "al" | ConditionCode.Never => "nv"
  end%string.

(** The literal table of [parseConditionCode]. *)
Definition conditionTable : list (string * ConditionCode) :=
  [("eq", ConditionCode.Equal); ("ne", ConditionCode.NotEqual); ("cs", ConditionCode.CarrySet);
   ("cc", ConditionCode.CarryClear); ("mi", ConditionCode.Negative);
   ("pl", ConditionCode.NonNegative); ("vs", ConditionCode.Overflow);
   ("vc", ConditionCode.NoOverflow); ("hi", ConditionCode.UnsignedGreater);
   ("ls", ConditionCode.UnsignedLessEqual); ("ge", ConditionCode.SignedGreaterEqual);
   ("lt", ConditionCode.SignedLess); ("gt", ConditionCode.SignedGreater);
   ("le", ConditionCode.SignedLessEqual); ("al", ConditionCode.Always);
   ("nv", ConditionCode.Never)]%string.

Definition parseConditionCode (key : string) : option ConditionCode :=
  snd <$> lookupByName fst conditionTable key.

Definition invert (code : ConditionCode) : ConditionCode :=
  match code with
  | ConditionCode.Equal => ConditionCode.NotEqual
  | ConditionCode.NotEqual => ConditionCode.Equal
  | ConditionCode.CarrySet => ConditionCode.CarryClear
  | ConditionCode.CarryClear => ConditionCode.CarrySet
  | ConditionCode.Negative => ConditionCode.NonNegative
  | ConditionCode.NonNegative => ConditionCode.Negative
  | ConditionCode.Overflow => ConditionCode.NoOverflow
  | ConditionCode.NoOverflow => ConditionCode.Overflow
  | ConditionCode.UnsignedGreater => ConditionCode.UnsignedLessEqual
  | ConditionCode.UnsignedLessEqual => ConditionCode.UnsignedGreater
  | ConditionCode.SignedGreaterEqual => ConditionCode.SignedLess
  | ConditionCode.SignedLess => ConditionCode.SignedGreaterEqual
  | ConditionCode.SignedGreater => ConditionCode.SignedLessEqual
  | ConditionCode.SignedLessEqual => ConditionCode.SignedGreater
  | ConditionCode.Always => ConditionCode.Never
  | ConditionCode.Never => ConditionCode.Always
  end.

(** ** Expression nodes

    The operand array and its count are one list of at most
    [kMaxExprOperands] handles; equality of nodes is the C++ [operator==]. *)
Definition kMaxExprOperands : nat := 3.

Record Expr : Set := MkExpr { op : ExprOp; type : Ty; operands : list N; immediate : Z }.

Definition operandCount (e : Expr) : nat := length (operands e).

(** The reads of [operands[i]] in the source; an operand past the count is the
    default handle, which is invalid. *)
Definition operand (e : Expr) (index : nat) : N := default kInvalidIndex (operands e !! index).

#[export] Instance Expr_eq_dec : EqDecision Expr.
Proof. solve_decision. Defined.

Definition packFlagDef (op : FlagOp) (width : Z) : Z := Z.lor (flagOpCode op) (shl64 width 8).
Definition flagDefOp (immediate : Z) : option FlagOp := enumAt flagOps (Z.land immediate 255).
Definition flagDefWidth (immediate : Z) : Z := Z.land (shr64 immediate 8) 65535.

(** [std::hash<Expr>]: FNV-1a over the fields of structural identity. *)
Definition mixByte (digest value byte : Z) : Z :=
  mul64 (Z.lxor digest (Z.land (shr64 value (byte * 8)) 255)) 0x100000001b3.

Definition mixHash (digest value : Z) : Z := foldl (fun d byte => mixByte d value byte) digest (seqZ 0 8).

(** [static_cast<uint64_t>(expr.op)]. *)
Definition exprOpCode (o : ExprOp) : Z :=
  match o with
  | ExprOp.Const => 0 | ExprOp.Value => 1 | ExprOp.Undef => 2 | ExprOp.EntryReg => 3
  | ExprOp.Add => 4 | ExprOp.Sub => 5 | ExprOp.Mul => 6 | ExprOp.MulHiU => 7
  | ExprOp.MulHiS => 8 | ExprOp.DivU => 9 | ExprOp.DivS => 10 | ExprOp.RemU => 11
  | ExprOp.RemS => 12 | ExprOp.Neg => 13 | ExprOp.And => 14 | ExprOp.Or => 15
  | ExprOp.Xor => 16 | ExprOp.Not => 17 | ExprOp.Shl => 18 | ExprOp.ShrU => 19
  | ExprOp.ShrS => 20 | ExprOp.RotR => 21 | ExprOp.RotL => 22 | ExprOp.CmpEq => 23
  | ExprOp.CmpNe => 24 | ExprOp.CmpLtU => 25 | ExprOp.CmpLeU => 26 | ExprOp.CmpLtS => 27
  | ExprOp.CmpLeS => 28 | ExprOp.ZExt => 29 | ExprOp.SExt => 30 | ExprOp.Trunc => 31
  | ExprOp.Bitcast => 32 | ExprOp.Extract => 33 | ExprOp.Concat => 34 | ExprOp.Clz => 35
  | ExprOp.Ctz => 36 | ExprOp.PopCount => 37 | ExprOp.ByteSwap => 38 | ExprOp.BitReverse => 39
  | ExprOp.Select => 40 | ExprOp.FlagDef => 41 | ExprOp.FlagCond => 42 | ExprOp.FlagBit => 43
  | ExprOp.FAdd => 44 | ExprOp.FSub => 45 | ExprOp.FMul => 46 | ExprOp.FDiv => 47
  | ExprOp.FNeg => 48 | ExprOp.FAbs => 49 | ExprOp.FSqrt => 50 | ExprOp.FCeil => 51
  | ExprOp.FCmpEq => 52 | ExprOp.FCmpLt => 53 | ExprOp.FCmpLe => 54
  | ExprOp.FCmpUnordered => 55 | ExprOp.FpConvert => 56 | ExprOp.FpToIntS => 57
  | ExprOp.FpToIntU => 58 | ExprOp.IntToFpS => 59 | ExprOp.IntToFpU => 60
  end.

Definition hashExpr (e : Expr) : Z :=
  let digest := mixHash 0xcbf29ce484222325 (exprOpCode (op e)) in
  let digest := mixHash digest (packed (type e)) in
  let digest := mixHash digest (immediate e) in
  foldl (fun d id => mixHash d (Z.of_N id)) digest (operands e).

(** Nodes as keys of the structural index. *)
#[export] Instance ExprOp_countable : Countable ExprOp.
Proof.
  refine (inj_countable (fun o => Z.to_nat (exprOpCode o)) (fun n => exprOps !! n) _).
  by intros [].
Defined.

#[export] Instance TypeKind_countable : Countable TypeKind.
Proof.
  refine (inj_countable (fun k => Z.to_nat (typeKindCode k))
    (fun n => [TypeKind.Void; TypeKind.Int; TypeKind.Float; TypeKind.Flags; TypeKind.IntVector;
               TypeKind.FloatVector] !! n) _).
  by intros [].
Defined.

#[export] Instance Ty_countable : Countable Ty.
Proof.
  refine (inj_countable' (fun t => (elementBits t, kind t, lanes t))
    (fun '(e, k, l) => MkTy e k l) _).
  by intros [].
Defined.

#[export] Instance Expr_countable : Countable Expr.
Proof.
  refine (inj_countable' (fun e => (op e, type e, operands e, immediate e))
    (fun '(o, t, xs, i) => MkExpr o t xs i) _).
  by intros [].
Defined.

(** ** Operations *)

Definition kNoOpAddress : Z := not64 0.

Definition OpFlagNone : Z := 0.
Definition OpFlagTerminator : Z := Z.shiftl 1 0.
Definition OpFlagDefinesValue : Z := Z.shiftl 1 1.
Definition OpFlagSideEffects : Z := Z.shiftl 1 2.
Definition OpFlagReadsMemory : Z := Z.shiftl 1 3.
Definition OpFlagWritesMemory : Z := Z.shiftl 1 4.
Definition OpFlagTouchesRegister : Z := Z.shiftl 1 5.
Definition OpFlagVariadic : Z := Z.shiftl 1 6.

Module OpCode.
Inductive OpCode : Set :=
  | ReadReg | WriteReg | Load | Store | Branch | CondBranch | IndirectBranch | Call | Return
  | Intrinsic | Nop | Unreachable | Unimplemented | Phi.
End OpCode.
Abbreviation OpCode := OpCode.OpCode.

#[export] Instance OpCode_eq_dec : EqDecision OpCode.
Proof. solve_decision. Defined.

Definition opCodes : list OpCode :=
  [OpCode.ReadReg; OpCode.WriteReg; OpCode.Load; OpCode.Store; OpCode.Branch; OpCode.CondBranch;
   OpCode.IndirectBranch; OpCode.Call; OpCode.Return; OpCode.Intrinsic; OpCode.Nop;
   OpCode.Unreachable; OpCode.Unimplemented; OpCode.Phi].

(** [kOpCodeInfo]: the text and the flags of each opcode. *)
Definition opCodeInfo (code : OpCode) : string * Z :=
  match code with
  | OpCode.ReadReg => ("read", Z.lor OpFlagDefinesValue OpFlagTouchesRegister)
  | OpCode.WriteReg => ("write", Z.lor OpFlagSideEffects OpFlagTouchesRegister)
  | OpCode.Load => ("load", Z.lor OpFlagDefinesValue OpFlagReadsMemory)
  | OpCode.Store => ("store", Z.lor OpFlagSideEffects OpFlagWritesMemory)
  | OpCode.Branch => ("br", OpFlagTerminator)
  | OpCode.CondBranch => ("brc", OpFlagTerminator)
  | OpCode.IndirectBranch => ("brind", OpFlagTerminator)
  | OpCode.Call =>
      ("call", Z.lor (Z.lor OpFlagSideEffects OpFlagReadsMemory) OpFlagWritesMemory)
  | OpCode.Return => ("ret", OpFlagTerminator)
  | OpCode.Intrinsic => ("intrinsic", Z.lor OpFlagSideEffects OpFlagVariadic)
  | OpCode.Nop => ("nop", OpFlagNone)
  | OpCode.Unreachable => ("unreachable", OpFlagTerminator)
  | OpCode.Unimplemented => ("unimplemented", OpFlagTerminator)
  | OpCode.Phi => ("phi", Z.lor OpFlagDefinesValue OpFlagVariadic)
  end%string.

Definition opCodeToString (code : OpCode) : string := fst (opCodeInfo code).
Definition parseOpCode (key : string) : option OpCode := lookupByName opCodeToString opCodes key.

Definition hasFlag (code : OpCode) (flag : Z) : bool := negb (Z.land (snd (opCodeInfo code)) flag =? 0).
Definition isTerminator (code : OpCode) : bool := hasFlag code OpFlagTerminator.
Definition definesValue (code : OpCode) : bool := hasFlag code OpFlagDefinesValue.
Definition hasSideEffects (code : OpCode) : bool := hasFlag code OpFlagSideEffects.
Definition touchesRegister (code : OpCode) : bool := hasFlag code OpFlagTouchesRegister.
Definition isVariadic (code : OpCode) : bool := hasFlag code OpFlagVariadic.

Definition kPassLifter : Z := 0.

(** [struct Op]. The operand and target ranges index the function's pools. *)
Record Op : Set := MkOp {
  code : OpCode; opType : Ty; va : Z; origin : Z; result : N; payload : N;
  operandStart : Z; opOperandCount : Z; targetStart : Z; targetCount : Z }.

(** The default member initialisers, with the code and the address set. *)
Definition newOp (code : OpCode) (opType : Ty) (va : Z) (payload : N) : Op :=
  MkOp code opType va kPassLifter kInvalidIndex payload 0 0 0 0.

Record ValueInfo : Set := MkValueInfo { valueType : Ty; definition : N; valueBlock : N }.

(** ** Lemmas *)

Lemma contains_spec {A} (l : list A) h :
  contains l h = true <-> (h < N.of_nat (length l))%N /\ h <> kInvalidIndex.
Proof.
  unfold contains, handleValid. rewrite andb_true_iff, negb_true_iff, N.eqb_neq, N.ltb_lt. tauto.
Qed.

Lemma vget_Some {A} (l : list A) h x :
  vget l h = Some x <-> l !! N.to_nat h = Some x /\ h <> kInvalidIndex.
Proof.
  unfold vget. destruct (contains l h) eqn:Hc.
  - apply contains_spec in Hc as []. tauto.
  - split; [done|]. intros [Hl Hne]. apply lookup_lt_Some in Hl.
    assert (contains l h = true) by (apply contains_spec; split; [lia|done]). congruence.
Qed.

Lemma vget_lt {A} (l : list A) h x : vget l h = Some x -> (h < N.of_nat (length l))%N.
Proof. intros [H _]%vget_Some. apply lookup_lt_Some in H. lia. Qed.

Lemma vget_app {A} (l k : list A) h x : vget l h = Some x -> vget (l ++ k) h = Some x.
Proof. rewrite !vget_Some. intros [H ?]. split; [|done]. by apply lookup_app_l_Some. Qed.

Lemma emplace_Some {A} (l l' : list A) x h :
  emplace l x = Some (l', h) ->
  l' = l ++ [x] /\ h = N.of_nat (length l) /\ h <> kInvalidIndex /\ vget l' h = Some x.
Proof.
  unfold emplace. destruct (N.eqb_spec (N.of_nat (length l)) kInvalidIndex) as [|Hne]; [done|].
  intros [= <- <-]. split_and!; [done..|]. apply vget_Some. split; [|done].
  rewrite Nat2N.id. by apply list_lookup_middle.
Qed.

Lemma lookupByName_sound {A} (name : A -> string) keys key x :
  lookupByName name keys key = Some x -> name x = key.
Proof. intros [_ H]%find_some. by apply String.eqb_eq in H. Qed.

(** With pairwise distinct names the first match is the only one. *)
Lemma lookupByName_complete {A} (name : A -> string) keys x :
  NoDup (name <$> keys) -> x ∈ keys -> lookupByName name keys (name x) = Some x.
Proof.
  induction keys as [|y keys IH]; [by rewrite elem_of_nil|].
  rewrite fmap_cons, NoDup_cons, elem_of_cons. intros [Hy Hnd] Hx. unfold lookupByName. simpl.
  destruct (String.eqb_spec (name y) (name x)) as [Heq|Hne].
  - destruct Hx as [->|Hx]; [done|]. exfalso. apply Hy. rewrite Heq.
    by apply list_elem_of_fmap_2.
  - destruct Hx as [->|Hx]; [done|]. by apply IH.
Qed.

Lemma elem_of_exprOps o : o ∈ exprOps.
Proof. apply list_elem_of_lookup. exists (Z.to_nat (exprOpCode o)). by destruct o. Qed.

Lemma elem_of_opCodes o : o ∈ opCodes.
Proof. destruct o; unfold opCodes; repeat first [by left|right]. Qed.

Lemma flagDefOp_pack o width : 0 <= width -> flagDefOp (packFlagDef o width) = Some o.
Proof.
  intros Hw. unfold flagDefOp, packFlagDef.
  assert (Z.land (Z.lor (flagOpCode o) (shl64 width 8)) 255 = flagOpCode o) as ->.
  { assert (fits 8 (flagOpCode o)) by (by destruct o).
    change 255 with (Z.ones 8). unfold shl64, u64. bitblast. }
  by destruct o.
Qed.

Lemma flagDefWidth_pack o width : fits 16 width -> flagDefWidth (packFlagDef o width) = width.
Proof.
  intros Hw. unfold flagDefWidth, packFlagDef, shl64, shr64, u64.
  assert (fits 8 (flagOpCode o)) by (by destruct o).
  change 65535 with (Z.ones 16). bitblast.
Qed.

(** ** Properties *)

(** The name tables are faithful: for every opcode, flag producer, flag bit
    and condition code, parsing the printed name gives it back, and a name the
    parser accepts is the printed name of its result. *)
Theorem name_tables_roundtrip :
  (forall key o, parseExprOp key = Some o <-> exprOpToString o = key)
  /\ (forall key o, parseOpCode key = Some o <-> opCodeToString o = key)
  /\ (forall key o, parseFlagOp key = Some o <-> flagOpToString o = key)
  /\ (forall key b, parseFlagBit key = Some b <-> flagBitToString b = key)
  /\ (forall key c, parseConditionCode key = Some c <-> conditionToString c = key).
Proof.
  split_and!; intros key o; split.
  - apply lookupByName_sound.
  - intros <-. apply lookupByName_complete, elem_of_exprOps.
    apply (bool_decide_unpack _). by vm_compute.
  - apply lookupByName_sound.
  - intros <-. apply lookupByName_complete, elem_of_opCodes.
    apply (bool_decide_unpack _). by vm_compute.
  - unfold parseFlagOp. repeat case_match; intros [= <-]; by apply symmetry, String.eqb_eq.
  - intros <-. by destruct o.
  - unfold parseFlagBit. repeat case_match; intros [= <-]; by apply symmetry, String.eqb_eq.
  - intros <-. by destruct o.
  - unfold parseConditionCode. intros Hs.
    destruct (lookupByName fst conditionTable key) as [[n c]|] eqn:Hl; [|done].
    injection Hs as ->. unfold lookupByName in Hl. apply find_some in Hl as [Hin Heq].
    apply String.eqb_eq in Heq as <-. simpl in Hin.
    repeat (destruct Hin as [[= <- <-]|Hin]; [done|]). done.
  - intros <-. by destruct o.
Qed.

(** [invert] is an involution without fixed points on the condition codes. *)
Theorem invert_involutive c : invert (invert c) = c /\ invert c <> c.
Proof. by destruct c. Qed.

(** A packed flag definition unpacks to the producer and the operand width
    it was packed from, for every width that fits sixteen bits. *)
Theorem flagDef_pack_roundtrip o width :
  fits 16 width ->
  flagDefOp (packFlagDef o width) = Some o /\ flagDefWidth (packFlagDef o width) = width.
Proof.
  intros Hw. split; [apply flagDefOp_pack; apply Hw|by apply flagDefWidth_pack].
Qed.

Lemma flagDef_pack_roundtrip_witness :
  fits 16 64 /\ flagDefOp (packFlagDef FlagOp.SubCarry 64) = Some FlagOp.SubCarry
  /\ flagDefWidth (packFlagDef FlagOp.SubCarry 64) = 64.
Proof.
  assert (fits 16 64) as H by (unfold fits; lia).
  split; [exact H|]. exact (flagDef_pack_roundtrip FlagOp.SubCarry 64 H).
Defined.
