(* ===== verification/Registers.v ===== *)
(** * The register file (il/register_file.h, il/register_file.cpp)

    Registers and sub-register views, name lookup and the walk to the backing
    register. Adding a register keeps the file well-formed: names are unique,
    views point backwards and fit their parent, so [rootOf] terminates. *)
From S2P Require Import Prelude Types Exprs.

(** An [enum class : uint8_t] holds any byte: [Other] is one with no name. *)
Module RegClass.
Inductive RegClass : Set :=
  | General | Float | Vector | Flags | StackPointer | ProgramCounter | Zero | Special
  | Other (byte : Z).
End RegClass.
Abbreviation RegClass := RegClass.RegClass.

#[export] Instance RegClass_eq_dec : EqDecision RegClass.
Proof. solve_decision. Defined.

Definition regClassToString (c : RegClass) : string :=
  match c with
  | RegClass.General => "general"
  | RegClass.Float => "float"
  | RegClass.Vector => "vector"
  | RegClass.Flags => "flags"
  | RegClass.StackPointer => "stack-pointer"
  | RegClass.ProgramCounter => "program-counter"
  | RegClass.Zero => "zero"
  | RegClass.Special => "special"
  | RegClass.Other _ => "unknown"
  end%string.

Record RegisterInfo : Set := MkRegisterInfo {
  name : string;
  regBits : Z;
  regClass : RegClass;
  parent : N;
  offsetInParent : Z;
  zeroExtendsParent : bool }.

Definition isSubRegister (i : RegisterInfo) : bool := handleValid (parent i).

Definition registerType (i : RegisterInfo) : Ty :=
  if decide (regClass i = RegClass.Flags) then flagsType else integer (regBits i).

Record RegisterFile : Set := MkRegisterFile {
  registers_ : list RegisterInfo;
  byName_ : gmap string N }.

Definition emptyRegisterFile : RegisterFile := MkRegisterFile [] ∅.

(** [RegisterFile::contains] and the asserting [operator[]]. *)
Definition rfContains (f : RegisterFile) (reg : N) : bool := contains (registers_ f) reg.
Definition rfAt (f : RegisterFile) (reg : N) : option RegisterInfo := vget (registers_ f) reg.

(** [RegisterFile::add]; [None] is a failed assertion. *)
Definition addRegister (f : RegisterFile) (nm : string) (bits : Z) (c : RegClass)
  : option (RegisterFile * N) :=
  if String.eqb nm "" then None
  else match byName_ f !! nm with
       | Some _ => None
       | None =>
           let index := N.of_nat (length (registers_ f)) in
           let i := MkRegisterInfo nm bits c kInvalidIndex 0 false in
           Some (MkRegisterFile (registers_ f ++ [i]) (<[nm := index]> (byName_ f)), index)
       end.

Definition addSubRegister (f : RegisterFile) (nm : string) (par : N) (offset bits : Z)
    (zeroExtends : bool) : option (RegisterFile * N) :=
  parentInfo ← rfAt f par;
  if regBits parentInfo <? u32 (offset + bits) then None
  else
    '(f, id) ← addRegister f nm bits (regClass parentInfo);
    let i := MkRegisterInfo nm bits (regClass parentInfo) par offset zeroExtends in
    Some (MkRegisterFile (<[N.to_nat id := i]> (registers_ f)) (byName_ f), id).

Definition findRegister (f : RegisterFile) (nm : string) : N :=
  default kInvalidIndex (byName_ f !! nm).

(** The [while] loop of [rootOf]; [fuel] bounds the length of the view chain. *)
Fixpoint rootLoop (fuel : nat) (f : RegisterFile) (current : N) : option N :=
  match fuel with
  | O => None
  | S fuel =>
      i ← rfAt f current;
      if isSubRegister i then rootLoop fuel f (parent i) else Some current
  end.

Definition rootOf (f : RegisterFile) (reg : N) : option N :=
  if rfContains f reg then rootLoop (length (registers_ f)) f reg else None.

Definition registerName (f : RegisterFile) (reg : N) : string :=
  match rfAt f reg with Some i => name i | None => "?" end.

(** ** Well-formedness *)

(** The view chain strictly descends and every view lies inside its parent,
    which has the same class. *)
Definition view_ok (regs : list RegisterInfo) (id : nat) (i : RegisterInfo) : Prop :=
  0 <= regBits i < 2 ^ 32 /\
  (parent i = kInvalidIndex \/
   exists p, (N.to_nat (parent i) < id)%nat /\ parent i <> kInvalidIndex /\
     regs !! N.to_nat (parent i) = Some p /\ regClass i = regClass p /\
     0 <= offsetInParent i /\ offsetInParent i + regBits i <= regBits p).

Record rf_wf (f : RegisterFile) : Prop := {
  rf_small : (N.of_nat (length (registers_ f)) <= kInvalidIndex)%N;
  rf_views : forall id i, registers_ f !! id = Some i -> view_ok (registers_ f) id i;
  rf_names : forall nm h, byName_ f !! nm = Some h <->
    exists i, registers_ f !! N.to_nat h = Some i /\ name i = nm }.

Lemma rf_wf_empty : rf_wf emptyRegisterFile.
Proof.
  split; cbn.
  - unfold kInvalidIndex. lia.
  - intros id i. by rewrite lookup_nil.
  - intros nm h. rewrite lookup_empty, lookup_nil. split; [done|by intros (? & ? & ?)].
Qed.

Lemma view_ok_extend regs x id i : view_ok regs id i -> view_ok (regs ++ [x]) id i.
Proof.
  intros [Hb [Hp|(p & Hlt & Hne & Hl & Hrest)]]; split; [done|by left|done|right].
  exists p. split_and!; try done; [by apply lookup_app_l_Some|apply Hrest..].
Qed.

(** Appending one well-formed register under a fresh name. *)
Lemma rf_wf_append f nm i :
  rf_wf f -> (N.of_nat (length (registers_ f)) < kInvalidIndex)%N ->
  byName_ f !! nm = None -> name i = nm ->
  view_ok (registers_ f ++ [i]) (length (registers_ f)) i ->
  rf_wf (MkRegisterFile (registers_ f ++ [i])
           (<[nm := N.of_nat (length (registers_ f))]> (byName_ f))).
Proof.
  intros [Hs Hv Hn] Hlen Hfresh Hname Hi. split; cbn.
  - rewrite length_app. simpl. lia.
  - intros id j [Hj|[Hle Hj]]%lookup_app_Some.
    + by apply view_ok_extend, Hv.
    + apply list_lookup_singleton_Some in Hj as [? <-].
      by replace id with (length (registers_ f)) by lia.
  - intros nm' h. destruct (decide (nm' = nm)) as [->|Hne].
    + rewrite lookup_insert_eq. split.
      * intros [= <-]. exists i. split; [|done]. rewrite Nat2N.id. by apply list_lookup_middle.
      * intros (j & [Hj|[Hle Hj]]%lookup_app_Some & Hjn).
        { assert (byName_ f !! nm = Some h) by (apply Hn; eauto). congruence. }
        apply list_lookup_singleton_Some in Hj as [? _]. f_equal. lia.
    + rewrite lookup_insert_ne by done. rewrite Hn. split.
      * intros (j & Hj & Hjn). exists j. split; [by apply lookup_app_l_Some|done].
      * intros (j & [Hj|[Hle Hj]]%lookup_app_Some & Hjn); [by exists j|].
        apply list_lookup_singleton_Some in Hj as [_ <-]. congruence.
Qed.

Lemma addRegister_Some f nm bits c f' id :
  addRegister f nm bits c = Some (f', id) ->
  nm <> ""%string /\ byName_ f !! nm = None /\ id = N.of_nat (length (registers_ f)) /\
  f' = MkRegisterFile (registers_ f ++ [MkRegisterInfo nm bits c kInvalidIndex 0 false])
         (<[nm := id]> (byName_ f)).
Proof.
  unfold addRegister. destruct (String.eqb_spec nm ""); [done|].
  destruct (byName_ f !! nm) eqn:Hl; [done|]. by intros [= <- <-].
Qed.

Lemma addRegister_wf f nm bits c f' id :
  rf_wf f -> (N.of_nat (length (registers_ f)) < kInvalidIndex)%N -> 0 <= bits < 2 ^ 32 ->
  addRegister f nm bits c = Some (f', id) -> rf_wf f'.
Proof.
  intros Hf Hlen Hb (Hne & Hfresh & -> & ->)%addRegister_Some.
  apply rf_wf_append; try done. split; [done|by left].
Qed.

Lemma addSubRegister_wf f nm par offset bits ze f' id :
  rf_wf f -> (N.of_nat (length (registers_ f)) < kInvalidIndex)%N ->
  0 <= bits -> 0 <= offset -> offset + bits < 2 ^ 32 ->
  addSubRegister f nm par offset bits ze = Some (f', id) -> rf_wf f'.
Proof.
  intros Hf Hlen Hb Ho Hsum H. unfold addSubRegister in H.
  destruct (rfAt f par) as [p|] eqn:Hp; [|done]. cbn [mbind option_bind] in H.
  destruct (_ <? _) eqn:Hfit; [done|].
  destruct (addRegister f nm bits (regClass p)) as [[f1 i1]|] eqn:Ha; [|done].
  apply addRegister_Some in Ha as (Hne & Hfresh & -> & ->). cbn in H.
  injection H as <- <-. cbn [registers_ byName_]. rewrite Nat2N.id, insert_snoc.
  apply vget_Some in Hp as [Hp Hpne]. pose proof (lookup_lt_Some _ _ _ Hp).
  apply rf_wf_append; try done. split; [cbn; lia|right].
  exists p. cbn. split_and!; try done; [by apply lookup_app_l_Some|].
  unfold u32 in Hfit. rewrite Z.mod_small in Hfit by lia. lia.
Qed.

Lemma addSubRegister_Some f nm par offset bits ze f' id :
  addSubRegister f nm par offset bits ze = Some (f', id) ->
  exists p, rfAt f par = Some p /\ id = N.of_nat (length (registers_ f)) /\
    f' = MkRegisterFile
           (registers_ f ++ [MkRegisterInfo nm bits (regClass p) par offset ze])
           (<[nm := id]> (byName_ f)).
Proof.
  unfold addSubRegister. destruct (rfAt f par) as [p|]; [|done]. cbn [mbind option_bind].
  destruct (_ <? _); [done|]. destruct (addRegister _ _ _ _) as [[f1 i1]|] eqn:Ha; [|done].
  apply addRegister_Some in Ha as (_ & _ & -> & ->). cbn. intros [= <- <-].
  exists p. by rewrite Nat2N.id, insert_snoc.
Qed.

(** The register just appended is found under its index. *)
Lemma rfAt_snoc f i names :
  (N.of_nat (length (registers_ f)) < kInvalidIndex)%N ->
  rfAt (MkRegisterFile (registers_ f ++ [i]) names) (N.of_nat (length (registers_ f))) = Some i.
Proof.
  intros Hlen. apply vget_Some. cbn. rewrite Nat2N.id, list_lookup_middle by done.
  split; [done|lia].
Qed.

Lemma findRegister_spec f nm h :
  rf_wf f -> (N.of_nat (length (registers_ f)) < kInvalidIndex)%N ->
  (handleValid (findRegister f nm) = true /\ findRegister f nm = h <->
   exists i, rfAt f h = Some i /\ name i = nm).
Proof.
  intros [Hs Hv Hn] Hlen. unfold findRegister, rfAt. split.
  - intros [Hval <-]. destruct (byName_ f !! nm) as [k|] eqn:Hl; [|done].
    simpl in *. apply Hn in Hl as (i & Hi & Hname). exists i. split; [|done].
    apply vget_Some. split; [done|]. unfold handleValid in Hval.
    by apply negb_true_iff, N.eqb_neq in Hval.
  - intros (i & [Hi Hne]%vget_Some & Hname).
    assert (byName_ f !! nm = Some h) as -> by (apply Hn; eauto). simpl. split; [|done].
    unfold handleValid. by apply negb_true_iff, N.eqb_neq.
Qed.

(** The chain from any register reaches a full register, whose index is not
    above the start, within as many steps as the file has registers. *)
Lemma rootLoop_total f fuel reg i :
  rf_wf f -> rfAt f reg = Some i -> (N.to_nat reg < fuel)%nat ->
  exists root ri, rootLoop fuel f reg = Some root /\ (root <= reg)%N /\
    rfAt f root = Some ri /\ isSubRegister ri = false /\ regClass ri = regClass i.
Proof.
  intros Hf. revert reg i. induction fuel as [|fuel IH]; intros reg i Hi Hlt; [lia|].
  simpl. rewrite Hi. cbn [mbind option_bind].
  destruct (isSubRegister i) eqn:Hsub.
  - pose proof Hi as [Hl _]%vget_Some. apply (rf_views f Hf) in Hl as [_ [Hp|Hp]].
    { unfold isSubRegister, handleValid in Hsub. by rewrite Hp in Hsub. }
    destruct Hp as (p & Hplt & Hpne & Hp & Hcls & _).
    destruct (IH (parent i) p) as (root & ri & Hr & Hle & Hri & Hns & Hrc);
      [by apply vget_Some|lia|].
    exists root, ri. split_and!; [done|lia|done|done|congruence].
  - exists reg, i. split_and!; done.
Qed.

Lemma rootOf_total f reg i :
  rf_wf f -> rfAt f reg = Some i ->
  exists root ri, rootOf f reg = Some root /\ (root <= reg)%N /\
    rfAt f root = Some ri /\ isSubRegister ri = false /\ regClass ri = regClass i.
Proof.
  intros Hf Hi. unfold rootOf, rfContains.
  assert (contains (registers_ f) reg = true) as ->.
  { apply contains_spec. apply vget_Some in Hi as [Hl ?]. split; [|done].
    apply lookup_lt_Some in Hl. lia. }
  apply (rootLoop_total _ _ _ i); [done..|]. apply vget_lt in Hi. lia.
Qed.

(** ** Properties *)

(** Adding a register or a view that the assertions accept keeps the file
    well-formed: names stay unique and resolve to their register, and every
    view lies inside an earlier register of the same class. *)
Theorem register_file_invariant f nm par offset bits ze c f' id :
  rf_wf f -> (N.of_nat (length (registers_ f)) < kInvalidIndex)%N ->
  0 <= bits -> 0 <= offset -> offset + bits < 2 ^ 32 ->
  addRegister f nm bits c = Some (f', id) \/
  addSubRegister f nm par offset bits ze = Some (f', id) ->
  rf_wf f' /\ findRegister f' nm = id /\ registerName f' id = nm.
Proof.
  intros Hf Hlen Hb Ho Hsum Hadd.
  assert (rf_wf f') as Hf'.
  { destruct Hadd; [eapply (addRegister_wf f nm bits c _ id); eauto; lia|eapply (addSubRegister_wf f nm par offset bits ze _ id); eauto]. }
  assert (exists i, rfAt f' id = Some i /\ name i = nm) as Hi.
  { destruct Hadd as [H|H].
    - apply addRegister_Some in H as (_ & _ & -> & ->). eexists. by rewrite rfAt_snoc.
    - apply addSubRegister_Some in H as (p & _ & -> & ->). eexists. by rewrite rfAt_snoc. }
  split_and!; [done| |].
  - destruct Hi as (i & [Hi _]%vget_Some & Hname). unfold findRegister.
    assert (byName_ f' !! nm = Some id) as -> by (apply (rf_names f' Hf'); eauto). done.
  - destruct Hi as (i & Hi & <-). unfold registerName. by rewrite Hi.
Qed.

(** The walk of [rootOf] terminates on every register of a well-formed file
    and ends at a full register of the same class. *)
Theorem rootOf_terminates f reg i :
  rf_wf f -> rfAt f reg = Some i ->
  exists root ri, rootOf f reg = Some root /\ rfAt f root = Some ri /\
    isSubRegister ri = false /\ regClass ri = regClass i.
Proof.
  intros Hf Hi. destruct (rootOf_total f reg i Hf Hi) as (root & ri & ? & _ & ?).
  by exists root, ri.
Qed.

(** The witnesses' register file: [x0] with its view [w0], which zero-extends,
    and [h0], a view of [w0] that inserts; the zero register and the flags. *)
Definition addOr (f : RegisterFile) (r : option (RegisterFile * N)) : RegisterFile :=
  default f (fst <$> r).

Definition sampleRegisters : RegisterFile :=
  let f := emptyRegisterFile in
  let f := addOr f (addRegister f "x0" 64 RegClass.General) in
  let f := addOr f (addSubRegister f "w0" 0 0 32 true) in
  let f := addOr f (addSubRegister f "h0" 1 8 16 false) in
  let f := addOr f (addRegister f "xzr" 64 RegClass.Zero) in
  addOr f (addRegister f "nzcv" 0 RegClass.Flags).

Lemma addOr_register_wf f nm bits c :
  rf_wf f -> (N.of_nat (length (registers_ f)) < kInvalidIndex)%N -> 0 <= bits < 2 ^ 32 ->
  rf_wf (addOr f (addRegister f nm bits c)).
Proof.
  intros Hf Hl Hb. unfold addOr. destruct (addRegister _ _ _ _) as [[f' id]|] eqn:H; [|done].
  eapply (addRegister_wf f nm bits c f'); eauto.
Qed.

Lemma addOr_sub_wf f nm par offset bits ze :
  rf_wf f -> (N.of_nat (length (registers_ f)) < kInvalidIndex)%N ->
  0 <= bits -> 0 <= offset -> offset + bits < 2 ^ 32 ->
  rf_wf (addOr f (addSubRegister f nm par offset bits ze)).
Proof.
  intros. unfold addOr. destruct (addSubRegister _ _ _ _ _) as [[f' id]|] eqn:H'; [|done].
  eapply (addSubRegister_wf f nm par offset bits ze f'); eauto.
Qed.

Lemma rf_wf_sample : rf_wf sampleRegisters.
Proof.
  unfold sampleRegisters.
  repeat first [apply addOr_register_wf | apply addOr_sub_wf | apply rf_wf_empty | lia
               | vm_compute; reflexivity].
Qed.

Lemma register_file_invariant_witness :
  rf_wf sampleRegisters /\
  exists f' id, addSubRegister sampleRegisters "b0" 1 0 8 false = Some (f', id) /\
    rf_wf f' /\ findRegister f' "b0" = id /\ registerName f' id = "b0"%string.
Proof.
  split; [exact rf_wf_sample|].
  eexists _, _. split; [reflexivity|].
  apply (register_file_invariant sampleRegisters "b0" 1 0 8 false RegClass.General);
    [exact rf_wf_sample|reflexivity|lia|lia|lia|right; reflexivity].
Defined.

Lemma rootOf_terminates_witness :
  rf_wf sampleRegisters /\
  exists root ri, rootOf sampleRegisters 2 = Some root /\ rfAt sampleRegisters root = Some ri /\
    isSubRegister ri = false /\ regClass ri = RegClass.General.
Proof.
  split; [exact rf_wf_sample|].
  exact (rootOf_terminates sampleRegisters 2 (MkRegisterInfo "h0" 16 RegClass.General 1 8 false)
           rf_wf_sample eq_refl).
Defined.
