(* ===== verification/Func.v ===== *)
(** * il::Function (il/function.h, il/function.cpp, il/maturity.cpp)

    A function's IL: the hash-consed expression pool, the operation and value
    tables with their operand and target pools, blocks, names and notes, and
    every builder and editor of the class. The control-flow members
    [rebuildEdges] and [reversePostOrder] are in [Cfg]. *)
From S2P Require Import Prelude Bits Types Exprs Registers.

(** ** Maturity levels *)

Module Maturity.
Inductive Maturity : Set :=
  | Lifted | Local | Cfg | Ssa | Resolved | Optimized | Vars | Structured | Typed.
End Maturity.
Abbreviation Maturity := Maturity.Maturity.

#[export] Instance Maturity_eq_dec : EqDecision Maturity.
Proof. solve_decision. Defined.

Definition maturityCode (m : Maturity) : Z :=
  match m with
  | Maturity.Lifted => 0 | Maturity.Local => 1 | Maturity.Cfg => 2 | Maturity.Ssa => 3
  | Maturity.Resolved => 4 | Maturity.Optimized => 5 | Maturity.Vars => 6
  | Maturity.Structured => 7 | Maturity.Typed => 8
  end.

Definition maturityToString (m : Maturity) : string :=
  match m with
  | Maturity.Lifted => "lifted" | Maturity.Local => "local" | Maturity.Cfg => "cfg"
  | Maturity.Ssa => "ssa" | Maturity.Resolved => "resolved" | Maturity.Optimized => "optimized"
  | Maturity.Vars => "vars" | Maturity.Structured => "structured" | Maturity.Typed => "typed"
  end%string.

Definition parseMaturity (key : string) : option Maturity :=
  if String.eqb key "lifted" then Some Maturity.Lifted
  else if String.eqb key "local" then Some Maturity.Local
  else if String.eqb key "cfg" then Some Maturity.Cfg
  else if String.eqb key "ssa" then Some Maturity.Ssa
  else if String.eqb key "resolved" then Some Maturity.Resolved
  else if String.eqb key "optimized" then Some Maturity.Optimized
  else if String.eqb key "vars" then Some Maturity.Vars
  else if String.eqb key "structured" then Some Maturity.Structured
  else if String.eqb key "typed" then Some Maturity.Typed
  else None.

(** ** State *)

Record Block : Set := MkBlock {
  blockVa : Z; endVa : Z; blockOps : list N; successors : list N; predecessors : list N;
  external : bool }.

Definition blockEmpty (b : Block) : bool := bool_decide (blockOps b = []).
Definition terminator (b : Block) : N := default kInvalidIndex (last (blockOps b)).

(** The expression pool with its structural index. *)
Record Pool : Set := MkPool { exprs : list Expr; exprIndex : gmap Expr N }.

(** The tables of operations and values, with the pools the operations' operand
    and target ranges index. *)
Record Tables : Set := MkTables {
  ops : list Op; values : list ValueInfo; operandPool : list N; targetPool : list N }.

(** Interned strings and notes. *)
Record Names : Set := MkNames {
  names : list string; nameIndex : gmap string N;
  passNames : list string; passIndex : gmap string Z;
  notes : gmap N string }.

Record Function := MkFunction {
  registers : RegisterFile;
  entryVa : Z;
  functionName : string;
  maturity : Maturity;
  entryBlock : N;
  currentPass : Z;
  pool : Pool;
  tables : Tables;
  blocks : list Block;
  blocksByAddress : gmap Z N;
  strings : Names }.

(** Updates of one component. *)
Definition withPool (f : Function) (p : Pool) : Function :=
  MkFunction (registers f) (entryVa f) (functionName f) (maturity f) (entryBlock f)
    (currentPass f) p (tables f) (blocks f) (blocksByAddress f) (strings f).
Definition withTables (f : Function) (t : Tables) : Function :=
  MkFunction (registers f) (entryVa f) (functionName f) (maturity f) (entryBlock f)
    (currentPass f) (pool f) t (blocks f) (blocksByAddress f) (strings f).
Definition withBlocks (f : Function) (b : list Block) : Function :=
  MkFunction (registers f) (entryVa f) (functionName f) (maturity f) (entryBlock f)
    (currentPass f) (pool f) (tables f) b (blocksByAddress f) (strings f).
Definition withStrings (f : Function) (s : Names) : Function :=
  MkFunction (registers f) (entryVa f) (functionName f) (maturity f) (entryBlock f)
    (currentPass f) (pool f) (tables f) (blocks f) (blocksByAddress f) s.

Definition withBlockOps (b : Block) (os : list N) : Block :=
  MkBlock (blockVa b) (endVa b) os (successors b) (predecessors b) (external b).
Definition withOps (t : Tables) (os : list Op) : Tables :=
  MkTables os (values t) (operandPool t) (targetPool t).
Definition withResult (o : Op) (r : N) : Op :=
  MkOp (code o) (opType o) (va o) (origin o) r (payload o) (operandStart o) (opOperandCount o)
    (targetStart o) (targetCount o).
Definition withDefinition (i : ValueInfo) (d : N) : ValueInfo :=
  MkValueInfo (valueType i) d (valueBlock i).

(** The constructor [Function(arch, registers, entryVa)]: pass zero is the lifter. *)
Definition newFunction (rf : RegisterFile) (entry : Z) : Function :=
  MkFunction rf entry "" Maturity.Lifted kInvalidIndex kPassLifter (MkPool [] ∅)
    (MkTables [] [] [] []) [] ∅
    (MkNames [] ∅ ["lift"%string] {[ "lift"%string := kPassLifter ]} ∅).

(** ** The builder monad

    A builder reads and updates the function; [None] is a failed assertion or an
    out-of-range access. *)
Definition M (A : Type) : Type := Function -> option (A * Function).

#[export] Instance M_ret : MRet M := fun A x f => Some (x, f).
#[export] Instance M_bind : MBind M := fun A B k m f =>
  match m f with Some (x, f') => k x f' | None => None end.

Definition gets {A} (q : Function -> option A) : M A := fun f => x ← q f; Some (x, f).
Definition update (q : Function -> option Function) : M unit := fun f => f' ← q f; Some (tt, f').
Definition assertion (b : bool) : M unit := fun f => if b then Some (tt, f) else None.

(** ** Expressions *)

Definition exprAt (f : Function) (id : N) : option Expr := vget (exprs (pool f)) id.
Definition typeAt (f : Function) (id : N) : option Ty := type <$> exprAt f id.
Definition valueAt (f : Function) (id : N) : option ValueInfo := vget (values (tables f)) id.
Definition hasExpr (f : Function) (id : N) : bool := contains (exprs (pool f)) id.
Definition hasValue (f : Function) (id : N) : bool := contains (values (tables f)) id.
Definition hasOp (f : Function) (id : N) : bool := contains (ops (tables f)) id.
Definition hasBlock (f : Function) (id : N) : bool := contains (blocks f) id.
Definition opAt (f : Function) (id : N) : option Op := vget (ops (tables f)) id.
Definition blockAtId (f : Function) (id : N) : option Block := vget (blocks f) id.
Definition blockHandles (f : Function) : list N := N.of_nat <$> seq 0 (length (blocks f)).

Definition internPool (p : Pool) (e : Expr) : option (N * Pool) :=
  if (kMaxExprOperands <? operandCount e)%nat then None
  else match exprIndex p !! e with
       | Some id => Some (id, p)
       | None =>
           '(es, id) ← emplace (exprs p) e;
           Some (id, MkPool es (<[e := id]> (exprIndex p)))
       end.

Definition intern (e : Expr) : M N := fun f =>
  '(id, p) ← internPool (pool f) e; Some (id, withPool f p).

Definition constant (t : Ty) (value : Z) : M N :=
  if (isInteger t && (bits t <=? 128)) || isFloat t then
    intern (MkExpr ExprOp.Const t []
      (if 64 <=? bits t then value else zeroExtend value (bits t)))
  else fun _ => None.

Definition boolean (value : bool) : M N := constant booleanType (if value then 1 else 0).

Definition valueRef (value : N) : M N :=
  i ← gets (fun f => valueAt f value);
  intern (MkExpr ExprOp.Value (valueType i) [] (Z.of_N value)).

Definition undefined (t : Ty) : M N := intern (MkExpr ExprOp.Undef t [] 0).

Definition entryReg (reg : N) : M N :=
  i ← gets (fun f => rfAt (registers f) reg);
  intern (MkExpr ExprOp.EntryReg (registerType i) [] (Z.of_N reg)).

Definition unary (o : ExprOp) (x : N) : M N :=
  assertion ((minArity (info o) <=? 1)%nat && (1 <=? maxArity (info o))%nat);;
  t ← gets (fun f => typeAt f x);
  intern (MkExpr o
    (if decide (infoResult (info o) = ResultRule.Boolean) then booleanType else t) [x] 0).

Definition binary (o : ExprOp) (lhs rhs : N) : M N :=
  assertion ((minArity (info o) <=? 2)%nat && (2 <=? maxArity (info o))%nat);;
  t ← (if decide (infoResult (info o) = ResultRule.Boolean) then mret booleanType
       else gets (fun f => typeAt f lhs));
  intern (MkExpr o t [lhs; rhs] 0).

Definition cast (o : ExprOp) (t : Ty) (x : N) : M N :=
  assertion (bool_decide (infoResult (info o) = ResultRule.Explicit));;
  intern (MkExpr o t [x] 0).

Definition extractExpr (t : Ty) (x : N) (lowBit : Z) : M N :=
  intern (MkExpr ExprOp.Extract t [x] lowBit).

Definition concat (t : Ty) (high low : N) : M N :=
  intern (MkExpr ExprOp.Concat t [high; low] 0).

Definition select (condition ifTrue ifFalse : N) : M N :=
  t ← gets (fun f => typeAt f ifTrue);
  intern (MkExpr ExprOp.Select t [condition; ifTrue; ifFalse] 0).

Definition flagDef (o : FlagOp) (width : Z) (xs : list N) : M N :=
  assertion ((1 <=? length xs)%nat && (length xs <=? kMaxExprOperands)%nat);;
  intern (MkExpr ExprOp.FlagDef flagsType xs (packFlagDef o width)).

Definition flagCondition (flags : N) (c : ConditionCode) : M N :=
  intern (MkExpr ExprOp.FlagCond booleanType [flags] (conditionCode c)).

Definition flagBitOf (flags : N) (b : FlagBitIndex) : M N :=
  intern (MkExpr ExprOp.FlagBit booleanType [flags] (flagBitCode b)).

Definition asConstant (f : Function) (id : N) : option Z :=
  e ← exprAt f id;
  if decide (op e = ExprOp.Const) then Some (immediate e) else None.

Definition isWidthCast (o : ExprOp) : bool :=
  match o with
  | ExprOp.ZExt | ExprOp.SExt | ExprOp.Trunc | ExprOp.Bitcast => true
  | _ => false
  end.

(** The loop of [asConstantThroughCasts], with the iterations left. *)
Fixpoint constantThroughCasts (depth : nat) (f : Function) (id : N) : option Z :=
  match depth with
  | O => None
  | S depth =>
      match asConstant f id with
      | Some c => Some c
      | None =>
          e ← exprAt f id;
          if isWidthCast (op e) then constantThroughCasts depth f (operand e 0) else None
      end
  end.

Definition asConstantThroughCasts (f : Function) (id : N) : option Z :=
  constantThroughCasts 8 f id.

(** ** Blocks *)

Definition createBlock (bva : Z) : M N := fun f =>
  '(bs, id) ← emplace (blocks f) (MkBlock bva bva [] [] [] false);
  let byAddress :=
    match blocksByAddress f !! bva with
    | Some _ => blocksByAddress f
    | None => <[bva := id]> (blocksByAddress f)
    end in
  Some (id, MkFunction (registers f) (entryVa f) (functionName f) (maturity f)
              (if handleValid (entryBlock f) then entryBlock f else id)
              (currentPass f) (pool f) (tables f) bs byAddress (strings f)).

Definition blockAt (f : Function) (bva : Z) : N := default kInvalidIndex (blocksByAddress f !! bva).

(** ** Operations *)

(** The views of an operation's operands and targets: a slice of the shared
    pool; [None] when the range is not inside it. *)
Definition slice {A} (l : list A) (start count : Z) : option (list A) :=
  if (0 <=? start) && (0 <=? count) && (start + count <=? Z.of_nat (length l))
  then Some (take (Z.to_nat count) (drop (Z.to_nat start) l)) else None.

Definition operandsOf (t : Tables) (o : Op) : option (list N) :=
  slice (operandPool t) (operandStart o) (opOperandCount o).
Definition targetsOf (t : Tables) (o : Op) : option (list N) :=
  slice (targetPool t) (targetStart o) (targetCount o).

(** [ops_[target.ops.back()].isTerminator()]; false of an empty block. *)
Definition endsInTerminator (t : Tables) (b : Block) : option bool :=
  match last (blockOps b) with
  | None => Some false
  | Some id => o ← vget (ops t) id; Some (isTerminator (code o))
  end.

Definition appendRange (t : Tables) (o : Op) (pass : Z) (xs targets : list N) : Tables * Op :=
  (MkTables (ops t) (values t) (operandPool t ++ xs) (targetPool t ++ targets),
   MkOp (code o) (opType o) (va o) pass (result o) (payload o)
     (u32 (Z.of_nat (length (operandPool t)))) (u32 (Z.of_nat (length xs)))
     (u32 (Z.of_nat (length (targetPool t)))) (u32 (Z.of_nat (length targets)))).

Definition setBlock (f : Function) (id : N) (b : Block) : Function :=
  withBlocks f (<[N.to_nat id := b]> (blocks f)).

Definition appendOp (blockId : N) (o : Op) (xs targets : list N) : M N := fun f =>
  b ← blockAtId f blockId;
  ends ← endsInTerminator (tables f) b;
  if (ends : bool) then None
  else
    let '(t, o) := appendRange (tables f) o (currentPass f) xs targets in
    '(os, id) ← emplace (ops t) o;
    Some (id, setBlock (withTables f (withOps t os)) blockId (withBlockOps b (blockOps b ++ [id]))).

Definition defineValue (t : Ty) (def block : N) : M N := fun f =>
  '(vs, id) ← emplace (values (tables f)) (MkValueInfo t def block);
  Some (id, withTables f (MkTables (ops (tables f)) vs (operandPool (tables f))
                            (targetPool (tables f)))).

(** [ops_[id].result = value]. *)
Definition setResult (id value : N) : M unit := update (fun f =>
  o ← opAt f id;
  Some (withTables f (withOps (tables f) (<[N.to_nat id := withResult o value]> (ops (tables f)))))).

(** Append an operation and define its value. *)
Definition appendDefining (block : N) (o : Op) (xs : list N) : M (N * N) :=
  id ← appendOp block o xs [];
  value ← defineValue (opType o) id block;
  setResult id value;;
  mret (id, value).

Definition appendReadReg (block : N) (ova : Z) (reg : N) : M N :=
  i ← gets (fun f => rfAt (registers f) reg);
  '(_, value) ← appendDefining block (newOp OpCode.ReadReg (registerType i) ova reg) [];
  mret value.

Definition appendWriteReg (block : N) (ova : Z) (reg x : N) : M N :=
  gets (fun f => rfAt (registers f) reg);;
  appendOp block (newOp OpCode.WriteReg voidType ova reg) [x] [].

Definition appendLoad (block : N) (ova : Z) (t : Ty) (address : N) : M N :=
  '(_, value) ← appendDefining block (newOp OpCode.Load t ova 0) [address];
  mret value.

Definition appendStore (block : N) (ova : Z) (t : Ty) (address x : N) : M N :=
  appendOp block (newOp OpCode.Store t ova 0) [address; x] [].

Definition appendBranch (block : N) (ova : Z) (target : N) : M N :=
  appendOp block (newOp OpCode.Branch voidType ova 0) [] [target].

Definition appendCondBranch (block : N) (ova : Z) (condition ifTrue ifFalse : N) : M N :=
  appendOp block (newOp OpCode.CondBranch voidType ova 0) [condition] [ifTrue; ifFalse].

Definition appendIndirectBranch (block : N) (ova : Z) (target : N) : M N :=
  appendOp block (newOp OpCode.IndirectBranch voidType ova 0) [target] [].

(** The tail of the operations whose value depends on their type. *)
Definition appendMaybeDefining (block : N) (o : Op) (xs : list N) : M N :=
  if isVoid (opType o) then appendOp block o xs []
  else '(id, _) ← appendDefining block o xs; mret id.

Definition appendCall (block : N) (ova : Z) (target : N) (resultType : Ty) : M N :=
  appendMaybeDefining block (newOp OpCode.Call resultType ova 0) [target].

Definition appendReturn (block : N) (ova : Z) : M N :=
  appendOp block (newOp OpCode.Return voidType ova 0) [] [].
Definition appendNop (block : N) (ova : Z) : M N :=
  appendOp block (newOp OpCode.Nop voidType ova 0) [] [].
Definition appendUnreachable (block : N) (ova : Z) : M N :=
  appendOp block (newOp OpCode.Unreachable voidType ova 0) [] [].

(** *** Names *)

Definition internName (key : string) : M N := fun f =>
  let s := strings f in
  match nameIndex s !! key with
  | Some id => Some (id, f)
  | None =>
      let id := Z.to_N (u32 (Z.of_nat (length (names s)))) in
      Some (id, withStrings f (MkNames (names s ++ [key]) (<[key := id]> (nameIndex s))
                                 (passNames s) (passIndex s) (notes s)))
  end.

Definition nameOf (f : Function) (id : N) : string := default ""%string (names (strings f) !! N.to_nat id).

Definition internPass (key : string) : M Z := fun f =>
  let s := strings f in
  match passIndex s !! key with
  | Some id => Some (id, f)
  | None =>
      let id := u16 (Z.of_nat (length (passNames s))) in
      Some (id, withStrings f (MkNames (names s) (nameIndex s) (passNames s ++ [key])
                                 (<[key := id]> (passIndex s)) (notes s)))
  end.

Definition passName (f : Function) (id : Z) : string :=
  default "?"%string (passNames (strings f) !! Z.to_nat id).

Definition setCurrentPass (pass : Z) : M unit := update (fun f =>
  Some (MkFunction (registers f) (entryVa f) (functionName f) (maturity f) (entryBlock f)
          pass (pool f) (tables f) (blocks f) (blocksByAddress f) (strings f))).

(** *** Operations with names, phis *)

Definition appendUnimplemented (block : N) (ova : Z) (mnemonic : string) : M N :=
  id ← internName mnemonic;
  appendOp block (newOp OpCode.Unimplemented voidType ova id) [] [].

Definition appendIntrinsic (block : N) (ova : Z) (nm : string) (resultType : Ty) (xs : list N)
  : M N :=
  id ← internName nm;
  appendMaybeDefining block (newOp OpCode.Intrinsic resultType ova id) xs.

Definition appendPhi (block : N) (ova : Z) (t : Ty) (incoming : list N) : M N :=
  '(id, _) ← appendDefining block (newOp OpCode.Phi t ova 0) incoming;
  mret id.

(** The position of the first operation that is not a phi. *)
Fixpoint phiPrefix (t : Tables) (os : list N) : option nat :=
  match os with
  | [] => Some 0%nat
  | id :: os =>
      o ← vget (ops t) id;
      if decide (code o = OpCode.Phi) then S <$> phiPrefix t os else Some 0%nat
  end.

Definition prependPhi (blockId : N) (ova : Z) (ty : Ty) : M N :=
  id ← (fun f =>
    b ← blockAtId f blockId;
    let '(t, o) := appendRange (tables f) (newOp OpCode.Phi ty ova 0) (currentPass f) [] [] in
    '(os, id) ← emplace (ops t) o;
    let t := withOps t os in
    position ← phiPrefix t (blockOps b);
    Some (id, setBlock (withTables f t) blockId
                (withBlockOps b (take position (blockOps b) ++ id :: drop position (blockOps b)))));
  value ← defineValue ty id blockId;
  setResult id value;;
  mret value.

(** *** Edits *)

Definition setTargets (id : N) (targets : list N) : M unit := update (fun f =>
  o ← opAt f id;
  if isTerminator (code o) then
    let t := tables f in
    let o := MkOp (code o) (opType o) (va o) (origin o) (result o) (payload o)
               (operandStart o) (opOperandCount o)
               (u32 (Z.of_nat (length (targetPool t)))) (u32 (Z.of_nat (length targets))) in
    Some (withTables f (MkTables (<[N.to_nat id := o]> (ops t)) (values t) (operandPool t)
                          (targetPool t ++ targets)))
  else None).

Definition setOperands (id : N) (xs : list N) : M unit := update (fun f =>
  o ← opAt f id;
  let t := tables f in
  let o := MkOp (code o) (opType o) (va o) (origin o) (result o) (payload o)
             (u32 (Z.of_nat (length (operandPool t)))) (u32 (Z.of_nat (length xs)))
             (targetStart o) (targetCount o) in
  Some (withTables f (MkTables (<[N.to_nat id := o]> (ops t)) (values t) (operandPool t ++ xs)
                        (targetPool t)))).

Definition resultOf (f : Function) (id : N) : N :=
  match opAt f id with Some o => result o | None => kInvalidIndex end.

(** Clear an operation's result and mark the value as removed. *)
Definition tombstone (t : Tables) (id : N) (o : Op) : option Tables :=
  if handleValid (result o) then
    i ← vget (values t) (result o);
    Some (MkTables (<[N.to_nat id := withResult o kInvalidIndex]> (ops t))
            (<[N.to_nat (result o) := withDefinition i kInvalidIndex]> (values t))
            (operandPool t) (targetPool t))
  else Some t.

Definition eraseNote (f : Function) (id : N) : Function :=
  let s := strings f in
  withStrings f (MkNames (names s) (nameIndex s) (passNames s) (passIndex s) (delete id (notes s))).

Definition removeOp (blockId opId : N) : M unit := update (fun f =>
  b ← blockAtId f blockId;
  o ← opAt f opId;
  '(position, _) ← list_find (opId =.) (blockOps b);
  if isTerminator (code o) then None
  else
    t ← tombstone (tables f) opId o;
    Some (eraseNote (setBlock (withTables f t) blockId
            (withBlockOps b (delete position (blockOps b)))) opId)).

Definition dropTerminator (blockId : N) : M unit := update (fun f =>
  b ← blockAtId f blockId;
  opId ← last (blockOps b);
  o ← opAt f opId;
  if isTerminator (code o) then
    t ← tombstone (tables f) opId o;
    o ← vget (ops t) opId;
    let o := MkOp (code o) (opType o) (va o) (origin o) (result o) (payload o)
               (operandStart o) (opOperandCount o) (targetStart o) 0 in
    Some (eraseNote (setBlock (withTables f (withOps t (<[N.to_nat opId := o]> (ops t)))) blockId
            (withBlockOps b (removelast (blockOps b)))) opId)
  else None).

(** *** Annotations *)

Definition setNote (f : Function) (id : N) (note : string) : Function :=
  let s := strings f in
  withStrings f (MkNames (names s) (nameIndex s) (passNames s) (passIndex s) (<[id := note]> (notes s))).

Definition annotate (id : N) (note : string) : M unit := update (fun f =>
  if hasOp f id then Some (if String.eqb note "" then eraseNote f id else setNote f id note)
  else None).

Definition appendNote (id : N) (note : string) : M unit := update (fun f =>
  if hasOp f id then
    if String.eqb note "" then Some f
    else
      let existing := default ""%string (notes (strings f) !! id) in
      Some (setNote f id
        ((if String.eqb existing "" then existing else String.append existing "; ") +:+ note))
  else None).

Definition noteOn (f : Function) (id : N) : string := default ""%string (notes (strings f) !! id).
