(* ===== verification/Cfg.v ===== *)
(** * Control flow of a function (il/function.cpp, "CFG")

    [rebuildEdges] derives successor and predecessor lists from the blocks'
    terminators; [reversePostOrder] is an iterative depth-first search with an
    explicit stack. The edges agree with the terminators and with each other;
    the search returns, lists exactly the reachable blocks, and orders them so
    that an edge going backwards closes a cycle. *)
From S2P Require Import Prelude Bits Types Exprs Registers Func.
From stdpp Require Import relations.
Local Open Scope Z_scope.

(** ** rebuildEdges *)

Definition withEdges (b : Block) (succs preds : list N) : Block :=
  MkBlock (blockVa b) (endVa b) (blockOps b) succs preds (external b).

(** What the second loop gives a block: the targets its terminator names that
    exist; [None] is an out-of-range access. *)
Definition derivedSuccessors (f : Function) (b : Block) : option (list N) :=
  match last (blockOps b) with
  | None => Some []
  | Some opId =>
      o ← opAt f opId;
      if isTerminator (code o) then
        ts ← targetsOf (tables f) o;
        Some (filter (fun s => hasBlock f s = true) ts)
      else Some []
  end.

Definition pushPredecessor (from : N) (b : Block) : Block :=
  withEdges b (successors b) (predecessors b ++ [from]).

(** [for (successor : ...) blocks_[successor].predecessors.push_back(from)]. *)
Fixpoint pushPredecessors (from : N) (succs : list N) (bs : list Block) : list Block :=
  match succs with
  | [] => bs
  | s :: succs => pushPredecessors from succs (alter (pushPredecessor from) (N.to_nat s) bs)
  end.

Fixpoint linkPredecessors (handles : list N) (bs : list Block) : list Block :=
  match handles with
  | [] => bs
  | b :: handles =>
      let succs := default [] (successors <$> vget bs b) in
      linkPredecessors handles (pushPredecessors b succs bs)
  end.

Definition rebuildEdges (f : Function) : option Function :=
  bs ← mapM (fun b => succs ← derivedSuccessors f b; Some (withEdges b succs [])) (blocks f);
  Some (withBlocks f (linkPredecessors (blockHandles f) bs)).

(** ** reversePostOrder *)

Inductive DfsState : Set := Unvisited | Open | Done.

#[export] Instance DfsState_eq_dec : EqDecision DfsState.
Proof. solve_decision. Defined.

(** The loop's variables: the stack (top first) of blocks with the next child to
    look at, the state of each block, and the blocks finished so far. *)
Record Search : Set := MkSearch {
  searchStack : list (N * nat); searchState : list DfsState; finished : list N }.

(** One iteration of [while (!stack.empty())]. *)
Definition searchStep (f : Function) (s : Search) : option Search :=
  match searchStack s with
  | [] => Some s
  | (blockId, childIndex) :: rest =>
      block ← blockAtId f blockId;
      match successors block !! childIndex with
      | Some successor =>
          st ← searchState s !! N.to_nat successor;
          if decide (st = Unvisited)
          then Some (MkSearch ((successor, 0%nat) :: (blockId, S childIndex) :: rest)
                       (<[N.to_nat successor := Open]> (searchState s)) (finished s))
          else Some (MkSearch ((blockId, S childIndex) :: rest) (searchState s) (finished s))
      | None =>
          Some (MkSearch rest (<[N.to_nat blockId := Done]> (searchState s)) (finished s ++ [blockId]))
      end
  end.

Fixpoint search (fuel : nat) (f : Function) (s : Search) : option (list N) :=
  match searchStack s with
  | [] => Some (finished s)
  | _ => match fuel with
         | O => None
         | S fuel => s ← searchStep f s; search fuel f s
         end
  end.

(** One iteration per edge and one per block. *)
Definition visits (f : Function) (b : N) : nat := S (length (default [] (successors <$> blockAtId f b))).
Definition searchFuel (f : Function) : nat := sum_list_with (visits f) (blockHandles f).

Definition reversePostOrder (f : Function) : option (list N) :=
  if hasBlock f (entryBlock f) then
    let state := <[N.to_nat (entryBlock f) := Open]> (repeat Unvisited (length (blocks f))) in
    order ← search (searchFuel f) f (MkSearch [(entryBlock f, 0%nat)] state []);
    Some (reverse order)
  else Some [].

(** ** The graph *)

(** The stored successors and predecessors of a block; none when it does not exist. *)
Definition succsOf (f : Function) (b : N) : list N := default [] (successors <$> blockAtId f b).
Definition predsOf (f : Function) (b : N) : list N := default [] (predecessors <$> blockAtId f b).

Definition edge (f : Function) (a b : N) : Prop := b ∈ succsOf f a.

(** Reachability from the entry. *)
Definition reachable (f : Function) (b : N) : Prop := rtc (edge f) (entryBlock f) b.

(** Edges lead to blocks and both lists agree: what [rebuildEdges] establishes. *)
Record cfg_ok (f : Function) : Prop := {
  cfg_small : (N.of_nat (length (blocks f)) <= kInvalidIndex)%N;
  cfg_target : forall a b, edge f a b -> hasBlock f b = true;
  cfg_source : forall a b, a ∈ predsOf f b -> hasBlock f a = true;
  cfg_dual : forall a b, a ∈ predsOf f b <-> b ∈ succsOf f a }.

(** ** rebuildEdges: both lists hold the terminators' edges *)

Lemma pushPredecessors_lookup from succs bs i :
  pushPredecessors from succs bs !! i =
    (fun b => withEdges b (successors b)
       (predecessors b ++ repeat from (count_occ N.eq_dec succs (N.of_nat i)))) <$> bs !! i.
Proof.
  revert bs. induction succs as [|s succs IH]; intros bs; cbn [pushPredecessors count_occ].
  - destruct (bs !! i) as [[]|]; cbn; [|done]. by rewrite app_nil_r.
  - rewrite IH. destruct (N.eq_dec s (N.of_nat i)) as [->|Hne].
    + rewrite Nat2N.id, list_lookup_alter_eq. destruct (bs !! i) as [[]|]; cbn; [|done].
      by rewrite <-app_assoc.
    + rewrite list_lookup_alter_ne; [done|lia].
Qed.

Lemma pushPredecessors_successors from succs bs h :
  default [] (successors <$> vget (pushPredecessors from succs bs) h) = default [] (successors <$> vget bs h).
Proof.
  assert (length (pushPredecessors from succs bs) = length bs) as Hl.
  { revert bs. induction succs as [|s succs IH]; intros bs; cbn; [done|]. by rewrite IH, length_alter. }
  unfold vget, contains. rewrite Hl, pushPredecessors_lookup.
  destruct (_ && _); [|done]. by destruct (bs !! N.to_nat h).
Qed.

(** The predecessors a block gains: each block of [handles], as often as it names it. *)
Definition incoming (bs : list Block) (handles : list N) (i : N) : list N :=
  flat_map (fun h => repeat h (count_occ N.eq_dec (default [] (successors <$> vget bs h)) i)) handles.

Lemma linkPredecessors_lookup handles bs i :
  linkPredecessors handles bs !! i =
    (fun b => withEdges b (successors b) (predecessors b ++ incoming bs handles (N.of_nat i))) <$> bs !! i.
Proof.
  revert bs. induction handles as [|h handles IH]; intros bs; cbn [linkPredecessors incoming flat_map].
  - destruct (bs !! i) as [[]|]; cbn; [|done]. by rewrite app_nil_r.
  - rewrite IH, pushPredecessors_lookup. destruct (bs !! i) as [[]|]; cbn; [|done].
    rewrite <-app_assoc. do 4 f_equal. apply flat_map_ext. intros h'. by rewrite pushPredecessors_successors.
Qed.

Lemma count_occ_repeat_ne (x y : N) n : x <> y -> count_occ N.eq_dec (repeat x n) y = 0%nat.
Proof. intros Hne. induction n as [|n IH]; cbn; [done|]. by destruct (N.eq_dec x y). Qed.

Lemma count_occ_incoming bs handles i a :
  NoDup handles ->
  count_occ N.eq_dec (incoming bs handles i) a =
    if decide (a ∈ handles) then count_occ N.eq_dec (default [] (successors <$> vget bs a)) i else 0%nat.
Proof.
  induction handles as [|h handles IH]; intros Hnd; cbn [incoming flat_map].
  { by rewrite decide_False by (by apply not_elem_of_nil). }
  apply NoDup_cons in Hnd as [Hh Hnd]. rewrite count_occ_app. fold (incoming bs handles i). rewrite (IH Hnd).
  destruct (decide (h = a)) as [->|Hne].
  - rewrite count_occ_repeat_eq by done. rewrite (decide_True (P := a ∈ a :: handles)) by set_solver.
    rewrite decide_False by done. lia.
  - rewrite count_occ_repeat_ne by done. cbn [Nat.add].
    destruct (decide (a ∈ handles)) as [Hin|Hin].
    + rewrite decide_True; [done|by apply list_elem_of_further].
    + rewrite decide_False; [done|]. intros [?|?]%elem_of_cons; [by subst|done].
Qed.

Lemma elem_of_blockHandles f b :
  (N.of_nat (length (blocks f)) <= kInvalidIndex)%N -> b ∈ blockHandles f <-> hasBlock f b = true.
Proof.
  intros Hs. unfold blockHandles, hasBlock. rewrite contains_spec, list_elem_of_fmap. split.
  - intros (i & -> & [_ Hi]%elem_of_seq). unfold kInvalidIndex in *. lia.
  - intros [Hb _]. exists (N.to_nat b). split; [lia|]. apply elem_of_seq. lia.
Qed.

Lemma NoDup_blockHandles f : NoDup (blockHandles f).
Proof. apply NoDup_fmap_2; [intros ???; lia|apply NoDup_seq]. Qed.

Lemma elem_of_count (l : list N) x : x ∈ l <-> (0 < count_occ N.eq_dec l x)%nat.
Proof. rewrite list_elem_of_In. apply count_occ_In. Qed.

Lemma hasBlock_lookup f b : hasBlock f b = true -> exists blk, blockAtId f b = Some blk.
Proof.
  unfold hasBlock, blockAtId. intros H. pose proof H as [Hl Hne]%contains_spec.
  destruct (lookup_lt_is_Some_2 (blocks f) (N.to_nat b)) as [blk Hb]; [lia|].
  exists blk. by apply vget_Some.
Qed.

Lemma blockAtId_hasBlock f b blk : blockAtId f b = Some blk -> hasBlock f b = true.
Proof. intros [Hl Hne]%vget_Some. apply contains_spec. apply lookup_lt_Some in Hl. split; [lia|done]. Qed.

Lemma edge_hasBlock f a b : edge f a b -> hasBlock f a = true.
Proof.
  unfold edge, succsOf. destruct (blockAtId f a) as [blk|] eqn:H; [|by intros ?%not_elem_of_nil].
  intros _. by eapply blockAtId_hasBlock.
Qed.

(** The blocks after the second loop, and the function with their predecessors
    linked. *)
Section Rebuilt.
Context (f : Function) (bs : list Block).
Hypothesis Hsmall : (N.of_nat (length (blocks f)) <= kInvalidIndex)%N.
Hypothesis Hbs :
  Forall2 (fun b b' => exists ss, derivedSuccessors f b = Some ss /\ b' = withEdges b ss []) (blocks f) bs.

Abbreviation linked := (withBlocks f (linkPredecessors (blockHandles f) bs)).

Lemma rebuilt_length : length (linkPredecessors (blockHandles f) bs) = length (blocks f).
Proof using Hbs Hsmall.
  rewrite (Forall2_length _ _ _ Hbs). apply Nat.le_antisymm; apply Nat.nlt_ge; intros Hlt.
  - apply lookup_lt_is_Some_2 in Hlt as [x Hx]. rewrite linkPredecessors_lookup, fmap_Some in Hx.
    destruct Hx as (y & Hy%lookup_lt_Some & _). lia.
  - pose proof (linkPredecessors_lookup (blockHandles f) bs (length (linkPredecessors (blockHandles f) bs))) as Hl.
    apply lookup_lt_is_Some_2 in Hlt as [x Hx]. by rewrite Hx, lookup_ge_None_2 in Hl by lia.
Qed.

Lemma rebuilt_has b : hasBlock linked b = hasBlock f b.
Proof using Hbs Hsmall. unfold hasBlock, contains. cbn. by rewrite rebuilt_length. Qed.

Lemma rebuilt_at id b :
  blockAtId f id = Some b -> exists ss, derivedSuccessors f b = Some ss /\
    blockAtId linked id = Some (withEdges b ss (incoming bs (blockHandles f) id)).
Proof using Hbs Hsmall.
  intros [Hb Hne]%vget_Some. destruct (Forall2_lookup_l _ _ _ _ _ Hbs Hb) as (b1 & Hb1 & ss & Hss & ->).
  exists ss. split; [done|]. apply vget_Some. split; [|done]. cbn.
  rewrite linkPredecessors_lookup, Hb1. cbn. by rewrite N2Nat.id.
Qed.

Lemma rebuilt_succs a : succsOf linked a = default [] (successors <$> vget bs a).
Proof using Hbs Hsmall.
  unfold succsOf, blockAtId. cbn. unfold vget, contains.
  rewrite rebuilt_length, (Forall2_length _ _ _ Hbs), linkPredecessors_lookup.
  destruct (_ && _); [|done]. by destruct (bs !! N.to_nat a).
Qed.

Lemma rebuilt_count a b :
  hasBlock f b = true ->
  count_occ N.eq_dec (predsOf linked b) a = count_occ N.eq_dec (succsOf linked a) b.
Proof using Hbs Hsmall.
  intros Hb. destruct (hasBlock_lookup f b Hb) as (blk & Hblk). destruct (rebuilt_at b blk Hblk) as (ss & _ & Hb').
  unfold predsOf. rewrite Hb', rebuilt_succs. cbn [predecessors withEdges fmap option_fmap option_map default id].
  unfold id. rewrite count_occ_incoming by apply NoDup_blockHandles.
  destruct (decide (a ∈ blockHandles f)) as [Ha|Ha]; [done|].
  rewrite elem_of_blockHandles, not_true_iff_false in Ha by done. unfold vget.
  replace (contains bs a) with (hasBlock f a)
    by (unfold hasBlock, contains; by rewrite (Forall2_length _ _ _ Hbs)). by rewrite Ha.
Qed.

Lemma rebuilt_edge a b : edge linked a b -> hasBlock f a = true /\ hasBlock f b = true.
Proof using Hbs Hsmall.
  intros He. assert (hasBlock f a = true) as Ha by (rewrite <-rebuilt_has; by eapply edge_hasBlock).
  split; [done|]. destruct (hasBlock_lookup f a Ha) as (blk & Hblk).
  destruct (rebuilt_at a blk Hblk) as (ss & Hss & Ha'). unfold edge, succsOf in He. rewrite Ha' in He. cbn in He.
  unfold id, derivedSuccessors in *.
  destruct (last (blockOps blk)) as [o|]; [|injection Hss as <-; by apply not_elem_of_nil in He].
  destruct (opAt f o) as [opn|]; [|done]. cbn [mbind option_bind] in Hss. destruct (isTerminator (code opn)).
  - destruct (targetsOf (tables f) opn) as [ts|]; [|done]. injection Hss as <-.
    by apply list_elem_of_filter in He as [? _].
  - injection Hss as <-. by apply not_elem_of_nil in He.
Qed.

Lemma rebuilt_ok : cfg_ok linked.
Proof using Hbs Hsmall.
  assert (forall a b, hasBlock f b = true -> a ∈ predsOf linked b <-> b ∈ succsOf linked a) as Hd.
  { intros a b Hb. by rewrite !elem_of_count, rebuilt_count. }
  assert (forall a b, a ∈ predsOf linked b -> hasBlock f b = true) as Hp.
  { intros a b Hin. rewrite <-rebuilt_has. unfold predsOf in Hin.
    destruct (blockAtId linked b) eqn:Hb; [|by apply not_elem_of_nil in Hin]. by eapply blockAtId_hasBlock. }
  split.
  - cbn. by rewrite rebuilt_length.
  - intros a b He. rewrite rebuilt_has. by apply (rebuilt_edge a b).
  - intros a b Hin. rewrite rebuilt_has. apply (rebuilt_edge a b), Hd; [by eapply Hp|done].
  - intros a b. split; intros Hin; (apply Hd; [|done]); [by eapply Hp|by apply (rebuilt_edge a b)].
Qed.
End Rebuilt.

(** C24 Rebuilding the edges succeeds when every terminator's operation and
    targets are in their tables; afterwards a block's successors are the
    existing targets of its terminator in order, the predecessor lists hold the
    same edges with the same multiplicities, and nothing but the edges changed. *)
Theorem rebuildEdges_edges f :
  (N.of_nat (length (blocks f)) <= kInvalidIndex)%N ->
  Forall (fun b => is_Some (derivedSuccessors f b)) (blocks f) ->
  exists f', rebuildEdges f = Some f' /\ cfg_ok f' /\ f' = withBlocks f (blocks f') /\
    (forall id b, blockAtId f id = Some b -> exists b', blockAtId f' id = Some b' /\
       b' = withEdges b (successors b') (predecessors b') /\ derivedSuccessors f b = Some (successors b')) /\
    (forall a b, hasBlock f b = true ->
       count_occ N.eq_dec (predsOf f' b) a = count_occ N.eq_dec (succsOf f' a) b).
Proof.
  intros Hs Hd. unfold rebuildEdges.
  destruct (mapM_is_Some_2 (fun b => succs ← derivedSuccessors f b; Some (withEdges b succs [])) (blocks f))
    as [bs Hbs].
  { eapply Forall_impl; [exact Hd|]. cbn. intros b [ss ->]. by eexists. }
  rewrite Hbs. cbn [mbind option_bind]. eexists. split; [done|].
  assert (Forall2 (fun b b' => exists ss, derivedSuccessors f b = Some ss /\ b' = withEdges b ss []) (blocks f) bs) as Hb.
  { eapply Forall2_impl; [by apply mapM_Some in Hbs|]. cbn. intros b b' H.
    destruct (derivedSuccessors f b) as [ss|]; [|done]. injection H as <-. by exists ss. }
  split_and!; [by apply rebuilt_ok|done| |by intros; apply rebuilt_count].
  intros id b Hid. destruct (rebuilt_at f bs Hs Hb id b Hid) as (ss & Hss & Hb'). by eexists.
Qed.

(** ** reversePostOrder: termination and the order *)

Lemma sum_list_NoDup_le {A} (g : A -> nat) (l k : list A) :
  NoDup l -> (forall x, x ∈ l -> x ∈ k) -> (sum_list_with g l <= sum_list_with g k)%nat.
Proof.
  intros Hl Hlk. destruct (submseteq_Permutation l k) as [r Hr]; [by apply NoDup_submseteq|].
  rewrite Hr, sum_list_with_app. lia.
Qed.

Section Search.
Context (f : Function).
Hypothesis Hok : cfg_ok f.

Definition onStack (s : Search) : list N := (searchStack s).*1.
Definition visited (s : Search) : list N := onStack s ++ finished s.

(** Each block on the stack was pushed from the one below it, and the children
    it has looked at are finished, lead back to it, or are being searched. *)
Fixpoint stack_ok (above : option N) (stack : list (N * nat)) (order : list N) : Prop :=
  match stack with
  | [] => True
  | (b, i) :: rest =>
      (i <= length (succsOf f b))%nat /\
      (forall s, s ∈ take i (succsOf f b) -> s ∈ order \/ rtc (edge f) s b \/ above = Some s) /\
      match rest with [] => b = entryBlock f | (p, _) :: _ => edge f p b end /\
      stack_ok (Some b) rest order
  end.

Record search_ok (s : Search) : Prop := {
  so_length : length (searchState s) = length (blocks f);
  so_nodup : NoDup (visited s);
  so_state : forall b st, searchState s !! N.to_nat b = Some st -> st = Unvisited <-> b ∉ visited s;
  so_reach : forall b, b ∈ visited s -> hasBlock f b = true /\ reachable f b;
  so_stack : stack_ok None (searchStack s) (finished s);
  so_looked : forall b i, (b, i) ∈ searchStack s -> forall t, t ∈ take i (succsOf f b) -> t ∈ visited s;
  so_closed : forall b, b ∈ finished s -> forall t, edge f b t -> t ∈ visited s;
  so_back : forall i b, finished s !! i = Some b -> forall t, edge f b t ->
    (exists j, (j < i)%nat /\ finished s !! j = Some t) \/ rtc (edge f) t b;
  so_parent : forall i b, finished s !! i = Some b -> b = entryBlock f \/
    exists p, edge f p b /\ ((exists j, (i < j)%nat /\ finished s !! j = Some p) \/ p ∈ onStack s);
  so_entry : searchStack s = [] -> last (finished s) = Some (entryBlock f) }.

(** The iterations made so far. *)
Definition work (s : Search) : nat :=
  sum_list_with (visits f) (finished s) + sum_list_with snd (searchStack s).

Lemma stack_ok_mono above stack order order' :
  (forall x, x ∈ order -> x ∈ order') -> stack_ok above stack order -> stack_ok above stack order'.
Proof.
  intros Hsub. revert above. induction stack as [|[b i] rest IH]; intros above; cbn; [done|].
  intros (Hi & Hl & Hp & Hr). split_and!; [done| |done|by apply IH].
  intros s Hs. destruct (Hl s Hs) as [?|?]; auto.
Qed.

Lemma stack_ok_reach above b i rest order x :
  stack_ok above ((b, i) :: rest) order -> x ∈ ((b, i) :: rest).*1 -> rtc (edge f) x b.
Proof.
  revert above b i. induction rest as [|[p j] rest IH]; intros above b i (_ & _ & Hp & Hr) Hx.
  - apply list_elem_of_singleton in Hx as ->. done.
  - cbn in Hx. apply elem_of_cons in Hx as [->|Hx]; [done|].
    eapply rtc_r; [by eapply IH|done].
Qed.

Lemma stack_ok_top above b i rest order :
  stack_ok above ((b, i) :: rest) order -> (i <= length (succsOf f b))%nat /\ stack_ok (Some b) rest order.
Proof. cbn. tauto. Qed.

Lemma succsOf_at b blk : blockAtId f b = Some blk -> succsOf f b = successors blk.
Proof. unfold succsOf. by intros ->. Qed.

Lemma elem_of_take_S {A} (l : list A) i x y :
  l !! i = Some x -> y ∈ take (S i) l -> y ∈ take i l \/ y = x.
Proof. intros Hx. rewrite (take_S_r _ _ _ Hx), elem_of_app, list_elem_of_singleton. done. Qed.

(** A child that was already visited: the next one is looked at. *)
Lemma search_ok_skip b i rest st order t :
  search_ok (MkSearch ((b, i) :: rest) st order) -> succsOf f b !! i = Some t ->
  t ∈ visited (MkSearch ((b, i) :: rest) st order) ->
  search_ok (MkSearch ((b, S i) :: rest) st order).
Proof.
  intros [Hl Hnd Hst Hre Hsk Hlo Hcl Hba Hpa Hen] Ht Hv. split; try done.
  - cbn [searchStack finished] in *. pose proof Hsk as (Hi & Hlk & Hp & Hr).
    split_and!; [by apply lookup_lt_Some in Ht|  |done|done].
    intros s [Hs| ->]%(elem_of_take_S _ _ _ _ Ht); [by apply Hlk|].
    unfold visited in Hv. apply elem_of_app in Hv as [Hv|Hv]; [|by left].
    right; left. eapply stack_ok_reach; [exact Hsk|exact Hv].
  - intros b' i' [[= -> ->]|Hin]%elem_of_cons s.
    + intros [Hs| ->]%(elem_of_take_S _ _ _ _ Ht); [|done].
      apply (Hlo b i); [by apply elem_of_cons; left|done].
    + apply (Hlo b' i'). by apply elem_of_cons; right.
Qed.

(** An unvisited child is pushed. *)
Lemma search_ok_push b i rest st order t :
  search_ok (MkSearch ((b, i) :: rest) st order) -> succsOf f b !! i = Some t ->
  t ∉ visited (MkSearch ((b, i) :: rest) st order) -> (N.to_nat t < length (blocks f))%nat ->
  search_ok (MkSearch ((t, 0%nat) :: (b, S i) :: rest) (<[N.to_nat t := Open]> st) order).
Proof using Hok.
  intros [Hl Hnd Hst Hre Hsk Hlo Hcl Hba Hpa Hen] Ht Hv Hlt.
  assert (edge f b t) as Hbt by (unfold edge; by eapply list_elem_of_lookup_2).
  assert (forall x, x ∈ visited (MkSearch ((t, 0%nat) :: (b, S i) :: rest) (<[N.to_nat t := Open]> st) order) <->
    x = t \/ x ∈ visited (MkSearch ((b, i) :: rest) st order)) as Hvis.
  { intros x. unfold visited, onStack. cbn. by rewrite elem_of_cons. }
  split; try done.
  - cbn. by rewrite length_insert.
  - unfold visited, onStack in *. cbn in *. by apply NoDup_cons.
  - intros x s'. rewrite Hvis. cbn [searchState]. destruct (decide (x = t)) as [->|Hne].
    + rewrite list_lookup_insert_eq by (cbn in Hl; lia). intros [= <-]. split; [done|]. intros []; by left.
    + rewrite list_lookup_insert_ne by lia. intros Hx. rewrite (Hst x s' Hx). tauto.
  - intros x [-> |Hx]%Hvis; [|by apply Hre]. split.
    + by eapply cfg_target.
    + eapply rtc_r; [|exact Hbt]. apply Hre. unfold visited, onStack. cbn. by apply elem_of_cons; left.
  - cbn [searchStack finished]. pose proof Hsk as (Hi & Hlk & Hp & Hr). cbn [stack_ok].
    split_and!; [lia|by intros s ?%not_elem_of_nil|done|by apply lookup_lt_Some in Ht| |done|done].
    intros s [Hs| ->]%(elem_of_take_S _ _ _ _ Ht); [|by right; right].
    destruct (Hlk s Hs) as [|[|]]; [by left|by right; left|done].
  - intros b' i' Hin s Hs. apply Hvis. cbn [searchStack] in Hin.
    apply elem_of_cons in Hin as [[= -> ->]|[[= -> ->]|Hin]%elem_of_cons].
    + by apply not_elem_of_nil in Hs.
    + apply (elem_of_take_S _ _ _ _ Ht) in Hs as [Hs| ->]; [right|by left].
      apply (Hlo b i); [by apply elem_of_cons; left|done].
    + right. apply (Hlo b' i'); [by apply elem_of_cons; right|done].
  - intros x Hx s Hs. apply Hvis. right. by apply (Hcl x).
  - intros j x Hx. destruct (Hpa j x Hx) as [|(p & Hp & [Hj|Hin])]; [by left| |];
      right; exists p; (split; [done|]); [by left|right]. unfold onStack in *. cbn in *.
    by apply elem_of_cons; right.
Qed.

(** A block whose children were all looked at is finished. *)
Lemma search_ok_pop b i rest st order :
  search_ok (MkSearch ((b, i) :: rest) st order) -> succsOf f b !! i = None ->
  search_ok (MkSearch rest (<[N.to_nat b := Done]> st) (order ++ [b])).
Proof.
  intros [Hl Hnd Hst Hre Hsk Hlo Hcl Hba Hpa Hen] Ht%lookup_ge_None.
  pose proof Hsk as (Hi & Hlk & Hp & Hr). cbn [searchStack finished searchState] in *.
  assert (take i (succsOf f b) = succsOf f b) as Htake by (apply take_ge; lia).
  assert (forall x, x ∈ visited (MkSearch rest (<[N.to_nat b := Done]> st) (order ++ [b])) <->
    x ∈ visited (MkSearch ((b, i) :: rest) st order)) as Hvis.
  { intros x. unfold visited, onStack. cbn. rewrite elem_of_cons, !elem_of_app, list_elem_of_singleton. tauto. }
  assert (NoDup ((rest.*1 ++ order) ++ [b])) as Hnd'.
  { unfold visited, onStack in Hnd. cbn in Hnd. by rewrite Permutation_app_comm. }
  split; cbn [searchStack finished searchState].
  - by rewrite length_insert.
  - unfold visited, onStack. cbn. by rewrite app_assoc.
  - intros x s'. rewrite Hvis. destruct (decide (x = b)) as [->|Hne].
    + intros Hx. pose proof (lookup_lt_Some _ _ _ Hx) as Hlt. rewrite length_insert in Hlt.
      rewrite list_lookup_insert_eq in Hx by done. injection Hx as <-. split; [done|].
      intros []. unfold visited, onStack. cbn. by apply elem_of_cons; left.
    + rewrite list_lookup_insert_ne by lia. apply Hst.
  - intros x Hx%Hvis. by apply Hre.
  - destruct rest as [|[p j] rest]; [done|]. destruct Hr as (Hj & Hlp & Hpp & Hrr).
    cbn [stack_ok]. split_and!; [done| |done|].
    + intros s Hs. destruct (Hlp s Hs) as [?|[?|[= ->]]]; [left|by right; left|left]; apply elem_of_app; [by left|].
      right. by apply list_elem_of_singleton.
    + eapply stack_ok_mono; [|exact Hrr]. intros x Hx. apply elem_of_app. by left.
  - intros b' i' Hin s Hs. apply Hvis. apply (Hlo b' i'); [by apply elem_of_cons; right|done].
  - intros x [Hx|Hx]%elem_of_app s Hs; apply Hvis; [by apply (Hcl x)|].
    apply list_elem_of_singleton in Hx as ->. apply (Hlo b i); [by apply elem_of_cons; left|]. by rewrite Htake.
  - intros k x Hk s Hs. apply lookup_app_Some in Hk as [Hk|[Hge Hk]].
    + destruct (Hba k x Hk s Hs) as [(j & Hj & Hjs)|]; [left|by right]. exists j. split; [done|].
      by apply lookup_app_l_Some.
    + apply list_lookup_singleton_Some in Hk as [Hk <-]. unfold edge in Hs. rewrite <-Htake in Hs.
      destruct (Hlk s Hs) as [Hin|[|]]; [left|by right|done].
      apply list_elem_of_lookup in Hin as [j Hj]. exists j. split; [apply lookup_lt_Some in Hj; lia|].
      by apply lookup_app_l_Some.
  - intros k x Hk. apply lookup_app_Some in Hk as [Hk|[Hge Hk]].
    + destruct (Hpa k x Hk) as [|(p & Hpx & Hpos)]; [by left|right]. exists p. split; [done|].
      destruct Hpos as [(j & Hj & Hjp)|Hin]; [left; exists j; split; [done|by apply lookup_app_l_Some]|].
      unfold onStack in *. cbn in *. apply elem_of_cons in Hin as [->|Hin]; [left|by right].
      exists (length order). split; [by apply lookup_lt_Some in Hk|]. by apply list_lookup_middle.
    + apply list_lookup_singleton_Some in Hk as [Hk <-]. destruct rest as [|[p j] rest]; [by left|right].
      exists p. split; [done|]. right. unfold onStack. cbn. by apply elem_of_cons; left.
  - intros ->. cbn in Hp. rewrite last_snoc. by f_equal.
Qed.

Lemma succ_state_lookup s b t :
  search_ok s -> edge f b t -> exists st, searchState s !! N.to_nat t = Some st.
Proof using Hok.
  intros Hs He. apply lookup_lt_is_Some. rewrite (so_length s Hs).
  pose proof (cfg_target f Hok _ _ He) as [? _]%contains_spec. lia.
Qed.

Lemma visits_eq b : visits f b = S (length (succsOf f b)).
Proof. done. Qed.

(** An iteration keeps the invariant and does one unit of work. *)
Lemma searchStep_ok s b i rest :
  search_ok s -> searchStack s = (b, i) :: rest ->
  exists s', searchStep f s = Some s' /\ search_ok s' /\ work s' = S (work s).
Proof using Hok.
  intros Hs Hstk. destruct s as [stk st order]. cbn in Hstk. subst stk.
  assert (hasBlock f b = true) as Hb.
  { apply (so_reach _ Hs). unfold visited, onStack. cbn. by apply elem_of_cons; left. }
  destruct (hasBlock_lookup f b Hb) as (blk & Hblk). unfold searchStep. cbn [searchStack searchState].
  rewrite Hblk. cbn [mbind option_bind]. rewrite <-(succsOf_at b blk Hblk).
  destruct (succsOf f b !! i) as [t|] eqn:Ht.
  - assert (edge f b t) as He by (unfold edge; by eapply list_elem_of_lookup_2).
    destruct (succ_state_lookup _ b t Hs He) as [x Hx]. cbn [searchState] in Hx. rewrite Hx.
    cbn [mbind option_bind]. pose proof (so_state _ Hs t x Hx) as Hst.
    destruct (decide (x = Unvisited)) as [Hu|Hu]; eexists; (split; [reflexivity|split]).
    + eapply search_ok_push; [done|done|by apply Hst|]. apply lookup_lt_Some in Hx.
      pose proof (so_length _ Hs) as Hl. cbn in Hl. lia.
    + unfold work. cbn. lia.
    + eapply search_ok_skip; [done|done|]. destruct (decide (t ∈ visited (MkSearch ((b, i) :: rest) st order))); [done|].
      exfalso. by apply Hu, Hst.
    + unfold work. cbn. lia.
  - eexists. split; [reflexivity|split].
    + by eapply search_ok_pop.
    + pose proof (so_stack _ Hs) as (Hi & _). apply lookup_ge_None in Ht. unfold work. cbn [searchStack finished sum_list_with snd].
      rewrite sum_list_with_app. cbn [sum_list_with]. rewrite visits_eq. lia.
Qed.

Lemma stack_work above stack order :
  stack_ok above stack order -> stack <> [] ->
  (sum_list_with snd stack < sum_list_with (visits f) stack.*1)%nat.
Proof.
  revert above. induction stack as [|[b i] rest IH]; intros above Hs Hne; [done|].
  destruct Hs as (Hi & _ & _ & Hr). cbn [sum_list_with snd fmap list_fmap fst]. rewrite visits_eq.
  destruct rest as [|x rest]; [cbn; lia|]. specialize (IH _ Hr). assert (x :: rest <> []) as Hx by done.
  specialize (IH Hx). lia.
Qed.

Lemma work_bound s : search_ok s -> searchStack s <> [] -> (work s < searchFuel f)%nat.
Proof using Hok.
  intros Hs Hne. pose proof (stack_work _ _ _ (so_stack s Hs) Hne) as Hw.
  assert (sum_list_with (visits f) (visited s) <= searchFuel f)%nat as Hle.
  { apply sum_list_NoDup_le; [by apply so_nodup|]. intros x Hx. apply elem_of_blockHandles; [by apply cfg_small|].
    by apply (so_reach s Hs). }
  unfold visited, onStack in Hle. rewrite sum_list_with_app in Hle. unfold work. lia.
Qed.

Lemma search_total fuel s :
  search_ok s -> (searchFuel f <= fuel + work s)%nat ->
  exists s', search fuel f s = Some (finished s') /\ search_ok s' /\ searchStack s' = [].
Proof using Hok.
  revert s. induction fuel as [|fuel IH]; intros s Hs Hf.
  - destruct (searchStack s) as [|[b i] rest] eqn:Hstk.
    + exists s. split_and!; [|done|done]. cbn. by rewrite Hstk.
    + assert (work s < searchFuel f)%nat by (apply work_bound; [done|by rewrite Hstk]). lia.
  - destruct (searchStack s) as [|[b i] rest] eqn:Hstk.
    + exists s. split_and!; [|done|done]. cbn. by rewrite Hstk.
    + destruct (searchStep_ok s b i rest Hs Hstk) as (s1 & Hstep & Hs1 & Hw).
      destruct (IH s1 Hs1) as (s' & Hrun & Hs' & Hend); [lia|]. exists s'. split_and!; [|done|done].
      cbn [search]. rewrite Hstk, Hstep. cbn [mbind option_bind]. done.
Qed.

Lemma search_ok_init :
  hasBlock f (entryBlock f) = true ->
  search_ok (MkSearch [(entryBlock f, 0%nat)]
    (<[N.to_nat (entryBlock f) := Open]> (repeat Unvisited (length (blocks f)))) []).
Proof.
  intros He. pose proof He as [Hlt _]%contains_spec.
  split; cbn [searchStack searchState finished]; try done.
  - by rewrite length_insert, repeat_length.
  - unfold visited, onStack. cbn. apply NoDup_singleton.
  - intros b st Hb. unfold visited, onStack. cbn. rewrite list_elem_of_singleton.
    destruct (decide (b = entryBlock f)) as [->|Hne].
    + rewrite list_lookup_insert_eq in Hb by (rewrite repeat_length; lia). injection Hb as <-. done.
    + rewrite list_lookup_insert_ne in Hb by lia.
      apply list_elem_of_lookup_2, list_elem_of_In, repeat_spec in Hb as ->. done.
  - intros b. unfold visited, onStack. cbn. rewrite list_elem_of_singleton. intros ->. split; [done|apply rtc_refl].
  - cbn. split_and!; [lia|by intros s ?%not_elem_of_nil|done|done].
  - intros b i [= -> ->]%list_elem_of_singleton t Ht. by apply not_elem_of_nil in Ht.
  - by intros b Hb%not_elem_of_nil.
Qed.
End Search.

(** What the order gives its users. *)
Record rpo_ok (f : Function) (order : list N) : Prop := {
  rpo_nodup : NoDup order;
  rpo_reachable : forall b, b ∈ order <-> reachable f b;
  rpo_entry : order !! 0%nat = Some (entryBlock f);
  rpo_parent : forall i b, order !! S i = Some b ->
    exists j p, (j <= i)%nat /\ order !! j = Some p /\ edge f p b;
  rpo_back : forall i j a b, order !! i = Some a -> order !! j = Some b -> edge f a b ->
    (j <= i)%nat -> rtc (edge f) b a }.

Lemma lookup_reverse {A} (l : list A) i x :
  reverse l !! i = Some x <-> l !! (length l - S i)%nat = Some x /\ (i < length l)%nat.
Proof.
  split.
  - intros H. pose proof (lookup_lt_Some _ _ _ H) as Hlt. rewrite length_reverse in Hlt.
    by rewrite reverse_lookup in H by done.
  - intros [H Hlt]. by rewrite reverse_lookup by done.
Qed.

Lemma search_ok_rpo f s : cfg_ok f -> search_ok f s -> searchStack s = [] -> rpo_ok f (reverse (finished s)).
Proof.
  intros Hok Hs Hend. assert (visited s = finished s) as Hv by (unfold visited, onStack; by rewrite Hend).
  pose proof (so_nodup f s Hs) as Hnd. pose proof (so_reach f s Hs) as Hre. pose proof (so_closed f s Hs) as Hcl.
  rewrite Hv in *. pose proof (so_entry f s Hs Hend) as He. rewrite last_lookup in He.
  assert (forall i b, reverse (finished s) !! i = Some b -> finished s !! (length (finished s) - S i)%nat = Some b /\ (i < length (finished s))%nat) as Hrev
    by (intros; by apply lookup_reverse).
  split.
  - by rewrite reverse_Permutation.
  - intros b. rewrite elem_of_reverse. split; [apply Hre|].
    revert b. apply (rtc_ind_r (fun b => b ∈ finished s)); [by eapply list_elem_of_lookup_2|].
    intros b c _ Hbc Hb. by apply (Hcl b).
  - apply lookup_reverse. pose proof (lookup_lt_Some _ _ _ He). split; [|lia].
    rewrite <-He. f_equal. lia.
  - intros i b [Hb Hlt]%Hrev. destruct (so_parent f s Hs _ _ Hb) as [->|(p & Hp & [(j & Hj & Hjp)|Hin])].
    + assert (length (finished s) - S (S i) = pred (length (finished s)))%nat by (by eapply NoDup_lookup). lia.
    + exists (length (finished s) - S j)%nat, p. pose proof (lookup_lt_Some _ _ _ Hjp).
      split_and!; [lia| |done]. apply lookup_reverse. split; [|lia]. rewrite <-Hjp. f_equal. lia.
    + unfold onStack in Hin. rewrite Hend in Hin. by apply not_elem_of_nil in Hin.
  - intros i j a b [Ha Hi]%Hrev [Hb Hj]%Hrev Hab Hji.
    destruct (so_back f s Hs _ _ Ha b Hab) as [(k & Hk & Hkb)|]; [|done].
    assert (k = length (finished s) - S j)%nat as -> by (by eapply NoDup_lookup). lia.
Qed.

Lemma reversePostOrder_ok f :
  cfg_ok f -> hasBlock f (entryBlock f) = true -> exists order, reversePostOrder f = Some order /\ rpo_ok f order.
Proof.
  intros Hok He. unfold reversePostOrder. rewrite He.
  destruct (search_total f Hok (searchFuel f) _ (search_ok_init f He)) as (s & Hrun & Hs & Hend); [lia|].
  exists (reverse (finished s)). rewrite Hrun. split; [done|]. by apply search_ok_rpo.
Qed.

(** C23 On a control-flow graph whose edges lead to blocks the search returns,
    and its result lists every block reachable from the entry exactly once, the
    entry first; each other block comes after one of its predecessors, and an
    edge to a block that is not later in the order lies on a cycle. *)
Theorem reversePostOrder_correct f :
  cfg_ok f ->
  if hasBlock f (entryBlock f) then exists order, reversePostOrder f = Some order /\ rpo_ok f order
  else reversePostOrder f = Some [].
Proof.
  intros Hok. destruct (hasBlock f (entryBlock f)) eqn:He; [by apply reversePostOrder_ok|]. unfold reversePostOrder. by rewrite He.
Qed.

(** ** A function with a while loop

    Block 0 enters the loop's header, block 1, which runs the body, block 2, or
    leaves to block 3; block 4 is not reachable. *)
Definition loopBuilder : M unit :=
  b0 ← createBlock 0; b1 ← createBlock 16; b2 ← createBlock 32; b3 ← createBlock 48; b4 ← createBlock 64;
  c ← undefined booleanType;
  appendBranch b0 0 b1;; appendCondBranch b1 16 c b2 b3;; appendBranch b2 32 b1;;
  appendReturn b3 48;; appendBranch b4 64 b3;;
  mret tt.

Definition runBuilder {A} (m : M A) (f : Function) : Function :=
  match m f with Some (_, f') => f' | None => f end.

Definition loopUnlinked : Function := runBuilder loopBuilder (newFunction emptyRegisterFile 0).
Definition loopFunction : Function := default loopUnlinked (rebuildEdges loopUnlinked).

(** [cfg_ok] on a concrete function. *)
Definition cfgOk (f : Function) : bool :=
  let hs := blockHandles f in
  (N.of_nat (length (blocks f)) <=? kInvalidIndex)%N &&
  forallb (fun b => forallb (hasBlock f) (succsOf f b ++ predsOf f b)) hs &&
  forallb (fun a => forallb (fun b => bool_decide (a ∈ predsOf f b <-> b ∈ succsOf f a)) hs) hs.

Lemma succsOf_absent f b : hasBlock f b = false -> succsOf f b = [] /\ predsOf f b = [].
Proof.
  intros Hb. unfold succsOf, predsOf, blockAtId. destruct (vget (blocks f) b) eqn:H; [|done].
  apply not_true_iff_false in Hb. by apply blockAtId_hasBlock in H.
Qed.

Lemma cfg_ok_check f : cfgOk f = true -> cfg_ok f.
Proof.
  unfold cfgOk. rewrite !andb_true_iff, N.leb_le. intros [[Hs He] Hd]. rewrite forallb_forall in He, Hd.
  assert (forall b, hasBlock f b = true -> In b (blockHandles f)) as Hin.
  { intros b Hb. by apply list_elem_of_In, elem_of_blockHandles. }
  assert (forall a b, b ∈ succsOf f a ++ predsOf f a -> hasBlock f b = true) as Ht.
  { intros a b Hb. destruct (hasBlock f a) eqn:Ha.
    - specialize (He a (Hin a Ha)). rewrite forallb_forall in He. by apply He, list_elem_of_In.
    - destruct (succsOf_absent f a Ha) as [E1 E2]. rewrite E1, E2 in Hb. by apply not_elem_of_nil in Hb. }
  split; [done|intros a b Hab; apply (Ht a), elem_of_app; by left|intros a b Hab; apply (Ht b), elem_of_app; by right|].
  intros a b. destruct (hasBlock f a) eqn:Ha, (hasBlock f b) eqn:Hb.
  - specialize (Hd a (Hin a Ha)). rewrite forallb_forall in Hd. specialize (Hd b (Hin b Hb)).
    by apply bool_decide_eq_true in Hd.
  - destruct (succsOf_absent f b Hb) as [_ ->]. split; [by intros ?%not_elem_of_nil|].
    intros H. exfalso. assert (hasBlock f b = true) by (apply (Ht a), elem_of_app; by left). congruence.
  - destruct (succsOf_absent f a Ha) as [-> _]. split; [|by intros ?%not_elem_of_nil].
    intros H. exfalso. assert (hasBlock f a = true) by (apply (Ht b), elem_of_app; by right). congruence.
  - destruct (succsOf_absent f a Ha) as [-> _], (succsOf_absent f b Hb) as [_ ->].
    split; by intros ?%not_elem_of_nil.
Qed.

Lemma terminators_check f :
  forallb (fun b => match derivedSuccessors f b with Some _ => true | None => false end) (blocks f) = true ->
  Forall (fun b => is_Some (derivedSuccessors f b)) (blocks f).
Proof.
  rewrite forallb_forall, Forall_forall. intros H b Hb%list_elem_of_In%H.
  destruct (derivedSuccessors f b); [by eexists|done].
Qed.

Lemma rebuildEdges_edges_witness :
  length (blocks loopUnlinked) = 5%nat /\
  exists f', rebuildEdges loopUnlinked = Some f' /\ cfg_ok f' /\ succsOf f' 1 = [2; 3]%N /\ predsOf f' 1 = [0; 2]%N.
Proof.
  split; [vm_compute; reflexivity|].
  destruct (rebuildEdges_edges loopUnlinked) as (f' & H1 & H2 & _).
  - vm_compute. discriminate.
  - apply terminators_check. vm_compute. reflexivity.
  - exists f'. split; [exact H1|]. split; [exact H2|].
    assert (rebuildEdges loopUnlinked = Some loopFunction) as H3 by (vm_compute; reflexivity).
    rewrite H1 in H3. apply (inj Some) in H3. rewrite H3. split; vm_compute; reflexivity.
Defined.

Lemma reversePostOrder_correct_witness :
  cfg_ok loopFunction /\ reversePostOrder loopFunction = Some [0; 1; 3; 2]%N /\ rpo_ok loopFunction [0; 1; 3; 2]%N.
Proof.
  assert (cfg_ok loopFunction) as Hok by (apply cfg_ok_check; vm_compute; reflexivity).
  assert (reversePostOrder loopFunction = Some [0; 1; 3; 2]%N) as Hr by (vm_compute; reflexivity).
  split; [exact Hok|]. split; [exact Hr|].
  pose proof (reversePostOrder_correct loopFunction Hok) as H.
  replace (hasBlock loopFunction (entryBlock loopFunction)) with true in H by (vm_compute; reflexivity).
  destruct H as (order & Ho & H). rewrite Hr in Ho. injection Ho as ->. exact H.
Defined.
