(* ===== verification/Dominators.v ===== *)
(** * Dominator and post-dominator trees (analysis/dominators.h, dominators.cpp)

    The iterative Cooper-Harvey-Kennedy algorithm over the reverse post-order,
    the tree's depths and children, Cytron's dominance frontier, and the
    post-dominator mirror. The theorems are in [DomProps]. *)
From S2P Require Import Prelude Bits Types Exprs Registers Func Cfg.

(** [kUnreachable], the order index of a block the search did not reach. *)
Definition kUnreachable : N := kInvalidIndex.

(** [Dominators]'s members. *)
Record Dominators : Type := MkDominators {
  rpo_ : list N; rpoIndex_ : list N; idom_ : list N; depth_ : list Z;
  children_ : list (list N); frontier_ : list (gset N) }.

(** Reading and writing a per-block array; [None] is an access out of range. *)
Definition arrayAt {A} (l : list A) (b : N) : option A := l !! N.to_nat b.
Definition arraySet {A} (l : list A) (b : N) (x : A) : list A := <[N.to_nat b := x]> l.

(** [rpoIndex_[rpo_[i]] = i] for each position. *)
Fixpoint indexOrder (i : N) (order : list N) (index : list N) : list N :=
  match order with
  | [] => index
  | b :: order => indexOrder (i + 1) order (arraySet index b i)
  end.

(** One inner loop of [intersect]: [while (order(x) > limit) x = parent(x)]. *)
Fixpoint climb (fuel : nat) (index idom : list N) (x limit : N) : option N :=
  ix ← arrayAt index x;
  if (limit <? ix)%N
  then match fuel with
       | O => None
       | S fuel => p ← arrayAt idom x; climb fuel index idom p limit
       end
  else Some x.

(** The meet: both fingers climb until they agree. *)
Fixpoint intersect (fuel : nat) (index idom : list N) (a b : N) : option N :=
  if (a =? b)%N then Some a
  else match fuel with
       | O => None
       | S fuel =>
           ib ← arrayAt index b;
           a ← climb (length index) index idom a ib;
           ia ← arrayAt index a;
           b ← climb (length index) index idom b ia;
           intersect fuel index idom a b
       end.

(** The loop over a block's predecessors. *)
Fixpoint meetPredecessors (index idom : list N) (preds : list N) (newIdom : N) : option N :=
  match preds with
  | [] => Some newIdom
  | pred :: preds =>
      ip ← arrayAt idom pred;
      if negb (handleValid ip) then meetPredecessors index idom preds newIdom
      else
        newIdom ← (if handleValid newIdom then intersect (length index) index idom pred newIdom
                   else Some pred);
        meetPredecessors index idom preds newIdom
  end.

(** The body of [for (i = 1; ...)], and the loop, with the flag [changed]. *)
Definition updateIdom (f : Function) (index : list N) (block : N) (s : list N * bool)
  : option (list N * bool) :=
  let '(idom, changed) := s in
  b ← blockAtId f block;
  newIdom ← meetPredecessors index idom (predecessors b) kInvalidIndex;
  old ← arrayAt idom block;
  if handleValid newIdom && negb (old =? newIdom)%N
  then Some (arraySet idom block newIdom, true)
  else Some (idom, changed).

Fixpoint idomPass (f : Function) (index : list N) (order : list N) (s : list N * bool)
  : option (list N * bool) :=
  match order with
  | [] => Some s
  | block :: order => s ← updateIdom f index block s; idomPass f index order s
  end.

(** [while (changed)]. *)
Fixpoint idomLoop (fuel : nat) (f : Function) (index : list N) (order : list N) (idom : list N)
  : option (list N) :=
  match fuel with
  | O => None
  | S fuel =>
      '(idom, changed) ← idomPass f index order (idom, false);
      if (changed : bool) then idomLoop fuel f index order idom else Some idom
  end.

(** Depths and child lists, in one pass over the order. *)
Fixpoint fillTree (idom order : list N) (s : list Z * list (list N)) : option (list Z * list (list N)) :=
  match order with
  | [] => Some s
  | block :: order =>
      let '(depth, children) := s in
      parent ← arrayAt idom block;
      d ← arrayAt depth parent;
      siblings ← arrayAt children parent;
      fillTree idom order (arraySet depth block (d + 1), arraySet children parent (siblings ++ [block]))
  end.

(** [while (runner != idom_[join]) { frontier_[runner].insert(join); ... }]. *)
Fixpoint runFrontier (fuel : nat) (idom : list N) (join runner stop : N) (frontier : list (gset N))
  : option (list (gset N)) :=
  if (runner =? stop)%N then Some frontier
  else match fuel with
       | O => None
       | S fuel =>
           set ← arrayAt frontier runner;
           next ← arrayAt idom runner;
           runFrontier fuel idom join next stop (arraySet frontier runner ({[join]} ∪ set))
       end.

(** [reachable]: the block has a position in the order. *)
Definition indexed (index : list N) (block : N) : bool :=
  match arrayAt index block with Some i => negb (i =? kUnreachable)%N | None => false end.

Fixpoint joinFrontier (index idom : list N) (join : N) (preds : list N) (frontier : list (gset N))
  : option (list (gset N)) :=
  match preds with
  | [] => Some frontier
  | pred :: preds =>
      if indexed index pred then
        stop ← arrayAt idom join;
        frontier ← runFrontier (length index) idom join pred stop frontier;
        joinFrontier index idom join preds frontier
      else joinFrontier index idom join preds frontier
  end.

Fixpoint fillFrontier (f : Function) (index idom : list N) (joins : list N) (frontier : list (gset N))
  : option (list (gset N)) :=
  match joins with
  | [] => Some frontier
  | join :: joins =>
      b ← blockAtId f join;
      frontier ← (if (length (predecessors b) <? 2)%nat then Some frontier
                  else joinFrontier index idom join (predecessors b) frontier);
      fillFrontier f index idom joins frontier
  end.

(** [Dominators::compute]; [length order + 2] passes are enough. *)
Definition computeDominators (f : Function) : option Dominators :=
  order ← reversePostOrder f;
  let n := length (blocks f) in
  let index := indexOrder 0 order (repeat kUnreachable n) in
  match order with
  | [] => Some (MkDominators [] index (repeat kInvalidIndex n) (repeat (-1) n) (repeat [] n) (repeat ∅ n))
  | entry :: rest =>
      idom ← idomLoop (length order + 2) f index rest (arraySet (repeat kInvalidIndex n) entry entry);
      '(depth, children) ← fillTree idom rest (arraySet (repeat (-1) n) entry 0, repeat [] n);
      frontier ← fillFrontier f index idom order (repeat ∅ n);
      Some (MkDominators order index idom depth children frontier)
  end.

(** ** Queries *)

Definition domReachable (t : Dominators) (block : N) : bool := indexed (rpoIndex_ t) block.

Definition idomOf (t : Dominators) (block : N) : option N :=
  if negb (domReachable t block) || bool_decide (rpo_ t !! 0%nat = Some block) then Some kInvalidIndex
  else arrayAt (idom_ t) block.

Definition domDepth (t : Dominators) (block : N) : Z := default (-1) (arrayAt (depth_ t) block).

(** [while (finger != a && finger != entry) finger = idom_[finger]]. *)
Fixpoint fingerTo (fuel : nat) (idom : list N) (a entry finger : N) : option N :=
  if (finger =? a)%N || (finger =? entry)%N then Some finger
  else match fuel with
       | O => None
       | S fuel => p ← arrayAt idom finger; fingerTo fuel idom a entry p
       end.

Definition dominates (t : Dominators) (a b : N) : option bool :=
  if negb (domReachable t a) || negb (domReachable t b) then Some (a =? b)%N
  else
    entry ← rpo_ t !! 0%nat;
    finger ← fingerTo (length (rpo_ t)) (idom_ t) a entry b;
    Some (finger =? a)%N.

Definition strictlyDominates (t : Dominators) (a b : N) : option bool :=
  d ← dominates t a b; Some (negb (a =? b)%N && d).

Definition childrenOf (t : Dominators) (block : N) : option (list N) := arrayAt (children_ t) block.
Definition frontierOf (t : Dominators) (block : N) : option (gset N) := arrayAt (frontier_ t) block.
