(* ===== verification/DomProps.v ===== *)
(** * Correctness of the dominator computation

    The computed tree is the dominator tree: the loop ends within two passes
    more than there are reachable blocks, [dominates] answers whether every
    path from the entry passes through a block, depths and children describe
    the tree, and the frontier is Cytron's. The proof follows the passes: after
    [k] of them a block's parent lies on every path to it that makes fewer than
    [k] steps backwards in the order ([lvl]), and all along the block's other
    dominators dominate its parent. *)
From S2P Require Import Prelude Bits Types Exprs Registers Func Cfg Dominators.
From stdpp Require Import relations.
Local Open Scope Z_scope.

(** ** Paths from the entry, latest block first *)

Section Paths.
Context (f : Function).

Inductive path : N -> list N -> Prop :=
  | path_entry : path (entryBlock f) [entryBlock f]
  | path_edge p l b : path p l -> edge f p b -> path b (b :: l).

(** Every path to [b] passes through [a]. *)
Definition Dom (a b : N) : Prop := forall l, path b l -> a ∈ l.

Lemma path_head b l : path b l -> exists l', l = b :: l'.
Proof. intros []; by eexists. Qed.

Lemma path_self b l : path b l -> b ∈ l.
Proof. intros Hp. destruct (path_head b l Hp) as [l' ->]. by apply elem_of_cons; left. Qed.

Lemma path_reachable b l : path b l -> reachable f b.
Proof. induction 1 as [|p l b Hp IH He]; [apply rtc_refl|by eapply rtc_r]. Qed.

Lemma reachable_path b : reachable f b -> exists l, path b l.
Proof.
  revert b. apply (rtc_ind_r (fun b => exists l, path b l)); [by eexists; constructor|].
  intros b c _ Hbc [l Hl]. eexists. by econstructor.
Qed.

(** The part of a path up to a block on it. *)
Lemma path_upto b l x : path b l -> x ∈ l -> exists l1 l2, l = l1 ++ x :: l2 /\ path x (x :: l2).
Proof.
  intros Hp. revert x. induction Hp as [|p l b Hp IH He]; intros x Hx.
  - apply list_elem_of_singleton in Hx as ->. exists [], []. split; [done|constructor].
  - apply elem_of_cons in Hx as [->|Hx]; [by exists [], l; split; [|econstructor]|].
    destruct (IH x Hx) as (l1 & l2 & -> & Hp'). by exists (b :: l1), l2.
Qed.

(** A path can be shortened to one without repetitions. *)
Lemma path_simple b l : path b l -> exists l', path b l' /\ NoDup l' /\ forall x, x ∈ l' -> x ∈ l.
Proof.
  induction 1 as [|p l b Hp (l' & Hp' & Hnd & Hsub) He].
  - eexists. split; [constructor|]. split; [apply NoDup_singleton|done].
  - destruct (decide (b ∈ l')) as [Hin|Hin].
    + destruct (path_upto p l' b Hp' Hin) as (l1 & l2 & -> & Hb). exists (b :: l2).
      split; [done|]. split; [by apply NoDup_app in Hnd as (_ & _ & ?)|].
      intros x Hx. apply elem_of_cons; right. apply Hsub, elem_of_app. by right.
    + exists (b :: l'). split; [by econstructor|]. split; [by apply NoDup_cons|].
      intros x [->|Hx]%elem_of_cons; apply elem_of_cons; [by left|right]. by apply Hsub.
Qed.

Lemma Dom_refl b : Dom b b.
Proof. intros l Hl. by apply path_self. Qed.

Lemma Dom_trans a b c : Dom a b -> Dom b c -> Dom a c.
Proof.
  intros Hab Hbc l Hl. destruct (path_upto c l b Hl (Hbc l Hl)) as (l1 & l2 & -> & Hb).
  apply elem_of_app. right. by apply Hab.
Qed.

Lemma Dom_entry b : Dom (entryBlock f) b.
Proof.
  intros l Hl. induction Hl as [|p l b Hp IH He]; [by apply elem_of_cons; left|].
  by apply elem_of_cons; right.
Qed.

(** A strict dominator dominates every predecessor. *)
Lemma Dom_pred d p b : d <> b -> edge f p b -> Dom d b -> Dom d p.
Proof.
  intros Hne He Hd l Hl. assert (d ∈ b :: l) as Hin by (apply Hd; by econstructor).
  by apply elem_of_cons in Hin as [?|].
Qed.
End Paths.

(** ** The order's positions *)

Lemma arrayAt_set {A} (l : list A) b c x :
  arrayAt (arraySet l b x) c = if decide (c = b) then (if (b <? N.of_nat (length l))%N then Some x else None)
                               else arrayAt l c.
Proof.
  unfold arrayAt, arraySet. destruct (decide (c = b)) as [->|Hne].
  - destruct (N.ltb_spec b (N.of_nat (length l))).
    + apply list_lookup_insert_eq. lia.
    + apply lookup_ge_None_2. rewrite length_insert. lia.
  - apply list_lookup_insert_ne. lia.
Qed.

Lemma length_arraySet {A} (l : list A) b x : length (arraySet l b x) = length l.
Proof. apply length_insert. Qed.

Lemma arrayAt_lt {A} (l : list A) b : (b < N.of_nat (length l))%N -> exists x, arrayAt l b = Some x.
Proof. intros H. apply lookup_lt_is_Some. lia. Qed.

Lemma arrayAt_repeat {A} (x : A) n b : (b < N.of_nat n)%N -> arrayAt (repeat x n) b = Some x.
Proof.
  intros H. destruct (arrayAt_lt (repeat x n) b) as [y Hy]; [by rewrite repeat_length|].
  rewrite Hy. f_equal. by apply list_elem_of_lookup_2, list_elem_of_In, repeat_spec in Hy.
Qed.

Lemma length_indexOrder k order index : length (indexOrder k order index) = length index.
Proof. revert k index. induction order as [|b order IH]; intros; cbn; [done|]. by rewrite IH, length_arraySet. Qed.

Lemma indexOrder_absent k order index b :
  b ∉ order -> arrayAt (indexOrder k order index) b = arrayAt index b.
Proof.
  revert k index. induction order as [|c order IH]; intros k index Hb; cbn; [done|].
  apply not_elem_of_cons in Hb as [Hne Hb]. by rewrite IH, arrayAt_set, decide_False.
Qed.

Lemma indexOrder_present k order index i b :
  NoDup order -> order !! i = Some b -> (b < N.of_nat (length index))%N ->
  arrayAt (indexOrder k order index) b = Some (k + N.of_nat i)%N.
Proof.
  revert k index i. induction order as [|c order IH]; intros k index i Hnd Hi Hb; [by destruct i|].
  apply NoDup_cons in Hnd as [Hc Hnd]. destruct i as [|i]; cbn in Hi |- *.
  - injection Hi as ->. rewrite indexOrder_absent, arrayAt_set, decide_True by done.
    replace (b <? _)%N with true by (symmetry; by apply N.ltb_lt). f_equal. lia.
  - rewrite (IH _ _ i) by (done || by rewrite length_arraySet). f_equal. lia.
Qed.

Section Order.
Context (f : Function) (order : list N).
Hypothesis Hok : cfg_ok f.
Hypothesis Hrpo : rpo_ok f order.

Abbreviation n := (length (blocks f)).
Abbreviation entry := (entryBlock f).
Definition orderIndex : list N := indexOrder 0 order (repeat kUnreachable n).
Definition pos (b : N) : N := default kUnreachable (arrayAt orderIndex b).

Lemma reachable_block b : reachable f b -> hasBlock f entry = true -> hasBlock f b = true.
Proof using Hok.
  intros Hr He. revert b Hr. apply (rtc_ind_r (fun b => hasBlock f b = true)); [done|].
  intros b c _ Hbc _. by eapply cfg_target.
Qed.

Lemma hasBlock_lt b : hasBlock f b = true -> (b < N.of_nat n)%N /\ handleValid b = true.
Proof.
  intros [Hl Hne]%contains_spec. split; [done|]. unfold handleValid.
  by apply negb_true_iff, N.eqb_neq.
Qed.

Lemma order_length : hasBlock f entry = true -> (length order <= n)%nat.
Proof using Hok Hrpo.
  intros He. transitivity (length (blockHandles f)); [|unfold blockHandles; by rewrite length_fmap, length_seq].
  apply submseteq_length, NoDup_submseteq; [apply (rpo_nodup _ _ Hrpo)|].
  intros b Hb. apply elem_of_blockHandles; [by apply cfg_small|].
  apply reachable_block; [|done]. by apply (rpo_reachable _ _ Hrpo).
Qed.

Hypothesis Hentry : hasBlock f entry = true.

Lemma reachable_lt b : reachable f b -> (b < N.of_nat n)%N /\ handleValid b = true.
Proof using Hok Hentry. intros Hr. by apply hasBlock_lt, reachable_block. Qed.

Lemma pos_lookup i b : order !! i = Some b -> arrayAt orderIndex b = Some (N.of_nat i) /\ pos b = N.of_nat i.
Proof using Hok Hrpo Hentry.
  intros Hi. assert (reachable f b) as Hr by (apply (rpo_reachable _ _ Hrpo); by eapply list_elem_of_lookup_2).
  unfold pos, orderIndex. rewrite (indexOrder_present 0 order _ i) by
    (first [done | apply (rpo_nodup _ _ Hrpo) | rewrite repeat_length; by apply reachable_lt]). done.
Qed.

Lemma reachable_pos b : reachable f b ->
  exists i, order !! i = Some b /\ arrayAt orderIndex b = Some (N.of_nat i) /\ pos b = N.of_nat i /\
    (i < length order)%nat.
Proof using Hok Hrpo Hentry.
  intros [i Hi]%(rpo_reachable _ _ Hrpo)%list_elem_of_lookup. exists i. pose proof (pos_lookup i b Hi) as [? ?].
  split_and!; try done. by eapply lookup_lt_Some.
Qed.

Lemma pos_at b : reachable f b -> arrayAt orderIndex b = Some (pos b).
Proof using Hok Hrpo Hentry. intros (i & _ & -> & -> & _)%reachable_pos. done. Qed.

Lemma pos_lt b : reachable f b -> (pos b < N.of_nat (length order))%N.
Proof using Hok Hrpo Hentry. intros (i & _ & _ & -> & Hi)%reachable_pos. lia. Qed.

Lemma pos_inj a b : reachable f a -> reachable f b -> pos a = pos b -> a = b.
Proof using Hok Hrpo Hentry.
  intros (i & Hi & _ & Ha & _)%reachable_pos (j & Hj & _ & Hb & _)%reachable_pos He.
  assert (i = j) as -> by lia. congruence.
Qed.

Lemma pos_entry : pos entry = 0%N.
Proof using Hok Hrpo Hentry. by apply (pos_lookup 0), (rpo_entry _ _ Hrpo). Qed.

Lemma reachable_entry : reachable f entry.
Proof. apply rtc_refl. Qed.

(** Every other block has a predecessor earlier in the order. *)
Lemma early_pred b : reachable f b -> b <> entry -> exists p, reachable f p /\ edge f p b /\ (pos p < pos b)%N.
Proof using Hok Hrpo Hentry.
  intros (i & Hi & _ & Hb & _)%reachable_pos Hne. destruct i as [|i].
  { rewrite (rpo_entry _ _ Hrpo) in Hi. congruence. }
  destruct (rpo_parent _ _ Hrpo i b Hi) as (j & p & Hj & Hp & He). exists p.
  destruct (pos_lookup j p Hp) as [_ ->]. rewrite Hb. split_and!; [|done|lia].
  apply (rpo_reachable _ _ Hrpo). by eapply list_elem_of_lookup_2.
Qed.

(** A path along the order: nothing on it is later than its end. *)
Lemma forward_path b : reachable f b -> exists l, path f b l /\ forall x, x ∈ l -> (pos x <= pos b)%N.
Proof using Hok Hrpo Hentry.
  remember (pos b) as k eqn:Hk. revert b Hk. induction (N.lt_wf_0 k) as [k _ IH]. intros b -> Hr.
  destruct (decide (b = entry)) as [->|Hne].
  { exists [entry]. split; [constructor|]. intros x ->%list_elem_of_singleton. done. }
  destruct (early_pred b Hr Hne) as (p & Hpr & He & Hlt).
  destruct (IH (pos p) Hlt p eq_refl Hpr) as (l & Hl & Hle). exists (b :: l).
  split; [by econstructor|]. intros x [->|Hx]%elem_of_cons; [done|]. specialize (Hle x Hx). lia.
Qed.

Lemma Dom_pos d b : reachable f b -> Dom f d b -> (pos d <= pos b)%N.
Proof using Hok Hrpo Hentry. intros Hr Hd. destruct (forward_path b Hr) as (l & Hl & Hle). by apply Hle, Hd. Qed.

Lemma Dom_reachable d b : reachable f b -> Dom f d b -> reachable f d.
Proof.
  intros (l & Hl)%reachable_path Hd. destruct (path_upto f b l d Hl (Hd l Hl)) as (l1 & l2 & _ & Hp).
  by eapply path_reachable.
Qed.

Lemma Dom_antisym a b : reachable f a -> reachable f b -> Dom f a b -> Dom f b a -> a = b.
Proof using Hok Hrpo Hentry.
  intros Ha Hb Hab Hba. apply pos_inj; [done..|]. pose proof (Dom_pos a b Hb Hab). pose proof (Dom_pos b a Ha Hba). lia.
Qed.

(** ** Steps backwards in the order *)

Fixpoint retreats (l : list N) : nat :=
  match l with
  | b :: ((p :: _) as l') => (if (pos b <=? pos p)%N then 1 else 0) + retreats l'
  | _ => 0
  end%nat.

Lemma retreats_cons b p l : retreats (b :: p :: l) = ((if (pos b <=? pos p)%N then 1 else 0) + retreats (p :: l))%nat.
Proof. done. Qed.

Lemma retreats_suffix l1 l2 : (retreats l2 <= retreats (l1 ++ l2))%nat.
Proof.
  induction l1 as [|b l1 IH]; [done|]. change ((b :: l1) ++ l2) with (b :: (l1 ++ l2)).
  destruct (l1 ++ l2) as [|p l] eqn:H; [destruct l2; [done|by destruct l1]|]. rewrite retreats_cons. lia.
Qed.

Lemma retreats_length l : (retreats l <= pred (length l))%nat.
Proof.
  induction l as [|b l IH]; [done|]. destruct l as [|p l]; [done|]. rewrite retreats_cons. cbn [length pred] in *.
  destruct (_ <=? _)%N; lia.
Qed.

Lemma path_in_order b l x : path f b l -> x ∈ l -> x ∈ order.
Proof using Hrpo.
  intros Hl Hx. destruct (path_upto f b l x Hl Hx) as (l1 & l2 & _ & Hp).
  apply (rpo_reachable _ _ Hrpo). by eapply path_reachable.
Qed.

(** What lies on every path with few steps backwards lies on every path. *)
Lemma few_retreats q b :
  (forall l, path f b l -> (retreats l < length order)%nat -> q ∈ l) -> Dom f q b.
Proof using Hrpo.
  intros H l Hl. destruct (path_simple f b l Hl) as (l' & Hl' & Hnd & Hsub). apply Hsub, H; [done|].
  assert (length l' <= length order)%nat.
  { apply submseteq_length, NoDup_submseteq; [done|]. intros x Hx. by eapply path_in_order. }
  pose proof (retreats_length l'). destruct (path_head f b l' Hl') as [l'' ->]. cbn [length] in *. lia.
Qed.

(** ** The tree while it is computed *)

Definition parentIs (idom : list N) (b q : N) : Prop := arrayAt idom b = Some q /\ handleValid q = true.
Definition linked (idom : list N) (b : N) : Prop := exists q, parentIs idom b q.

(** A parent: earlier, linked, dominated by the block's other dominators, and on
    every path to the block with fewer than [lvl] steps backwards. *)
Record parent_ok (idom : list N) (lvl : nat) (b q : N) : Prop := {
  po_reachable : reachable f q;
  po_before : (pos q < pos b)%N;
  po_linked : linked idom q;
  po_doms : forall d, d <> b -> Dom f d b -> Dom f d q;
  po_on : forall l, path f b l -> (retreats l < lvl)%nat -> q ∈ l }.

Record tree_ok (lvl : N -> nat) (idom : list N) : Prop := {
  to_length : length idom = n;
  to_entry : arrayAt idom entry = Some entry;
  to_parent : forall b q, reachable f b -> b <> entry -> parentIs idom b q -> parent_ok idom (lvl (pos b)) b q;
  to_unreachable : forall b q, arrayAt idom b = Some q -> handleValid q = true -> reachable f b }.

Lemma linked_entry lvl idom : tree_ok lvl idom -> linked idom entry.
Proof using Hentry. intros Ht. exists entry. split; [by apply to_entry in Ht|]. by apply hasBlock_lt. Qed.

Lemma linked_reachable lvl idom b : tree_ok lvl idom -> linked idom b -> reachable f b.
Proof. intros Ht (q & Hq & Hv). by eapply to_unreachable. Qed.

(** [m] is reached from [b] by taking parents. *)
Definition above (idom : list N) : N -> N -> Prop := rtc (fun b q => b <> entry /\ parentIs idom b q).

Lemma above_pos lvl idom b m :
  tree_ok lvl idom -> reachable f b -> above idom b m -> reachable f m /\ (pos m <= pos b)%N.
Proof.
  intros Ht Hr Ha. induction Ha as [b|b q m [Hne Hq] Ha IH]; [done|].
  destruct (to_parent _ _ Ht b q Hr Hne Hq) as [Hqr Hlt _ _ _]. destruct (IH Hqr). split; [done|lia].
Qed.

(** Parents further up lie on the paths too, when levels do not grow along the order. *)
Lemma above_on lvl idom b m l :
  tree_ok lvl idom -> (forall i j, (i <= j)%N -> (lvl j <= lvl i)%nat) -> above idom b m ->
  reachable f b -> path f b l -> (retreats l < lvl (pos b))%nat -> m ∈ l.
Proof.
  intros Ht Hmono Ha. revert l. induction Ha as [b|b q m [Hne Hq] Ha IH]; intros l Hr Hl Hlt; [by eapply path_self|].
  destruct (to_parent _ _ Ht b q Hr Hne Hq) as [Hqr Hbefore _ _ Hon].
  destruct (path_upto f b l q Hl (Hon l Hl Hlt)) as (l1 & l2 & -> & Hq').
  apply elem_of_app. right. apply IH; [done|done|]. pose proof (retreats_suffix l1 (q :: l2)).
  specialize (Hmono (pos q) (pos b)). lia.
Qed.

(** *** The meet *)

(** One finger: it stops at the first block that is not after [limit], and what
    dominates it and is not after [limit] still does. *)
Lemma climb_ok lvl idom fuel x limit :
  tree_ok lvl idom -> reachable f x -> linked idom x -> (pos x <= N.of_nat fuel)%N ->
  exists y, climb fuel orderIndex idom x limit = Some y /\ above idom x y /\ linked idom y /\
    (pos y <= limit)%N /\ (forall d, Dom f d x -> (pos d <= limit)%N -> Dom f d y).
Proof using Hok Hrpo Hentry.
  intros Ht. revert x. induction fuel as [|fuel IH]; intros x Hr Hl Hf; cbn [climb]; rewrite pos_at by done;
    cbn [mbind option_bind]; destruct (N.ltb_spec limit (pos x)) as [Hlt|Hge].
  - lia.
  - exists x. split_and!; [done|apply rtc_refl|done|done|done].
  - destruct Hl as (q & Hq & Hv). rewrite Hq. cbn [mbind option_bind].
    assert (x <> entry) as Hne by (intros ->; rewrite pos_entry in Hlt; lia).
    destruct (to_parent _ _ Ht x q Hr Hne (conj Hq Hv)) as [Hqr Hbefore Hql Hdoms _].
    destruct (IH q Hqr Hql) as (y & Hy & Ha & Hyl & Hle & Hd); [lia|].
    exists y. split_and!; [done|by eapply rtc_l|done|done|].
    intros d Hdx Hdl. apply Hd; [|done]. apply Hdoms; [|done]. intros ->. lia.
  - exists x. split_and!; [done|apply rtc_refl|done|done|done].
Qed.

Lemma length_orderIndex : length orderIndex = n.
Proof. unfold orderIndex. by rewrite length_indexOrder, repeat_length. Qed.

Lemma pos_bound b : reachable f b -> (pos b < N.of_nat n)%N.
Proof using Hok Hrpo Hentry. intros Hr%pos_lt. pose proof (order_length Hentry). lia. Qed.

Lemma intersect_ok lvl idom fuel a b :
  tree_ok lvl idom -> linked idom a -> linked idom b ->
  (pos a <= N.of_nat fuel)%N -> (pos b <= N.of_nat fuel)%N ->
  exists m, intersect fuel orderIndex idom a b = Some m /\ above idom a m /\ above idom b m /\ linked idom m /\
    (forall d, Dom f d a -> Dom f d b -> Dom f d m).
Proof using Hok Hrpo Hentry.
  intros Ht. revert a b. induction fuel as [|fuel IH]; intros a b Hal Hbl Hfa Hfb; cbn [intersect];
    pose proof (linked_reachable lvl idom a Ht Hal) as Har; pose proof (linked_reachable lvl idom b Ht Hbl) as Hbr;
    (destruct (N.eqb_spec a b) as [->|Hne]; [exists b; split_and!; [done|apply rtc_refl..|done|done]|]).
  { exfalso. apply Hne, pos_inj; [done..|lia]. }
  assert (pos a <> pos b) as Hpos by (intros He; apply Hne; by apply pos_inj).
  rewrite (pos_at b), length_orderIndex by done. cbn [mbind option_bind].
  pose proof (pos_bound a Har). pose proof (pos_bound b Hbr).
  destruct (climb_ok lvl idom n a (pos b) Ht Har Hal) as (a' & -> & Haa & Hal' & Hle & Hda); [lia|].
  destruct (above_pos lvl idom a a' Ht Har Haa) as [Har' ?].
  cbn [mbind option_bind]. rewrite (pos_at a') by done. cbn [mbind option_bind].
  destruct (climb_ok lvl idom n b (pos a') Ht Hbr Hbl) as (b' & -> & Hbb & Hbl' & Hle' & Hdb); [lia|].
  cbn [mbind option_bind].
  destruct (IH a' b') as (m & Hm & Ham & Hbm & Hml & Hdom); [done..|lia|lia|].
  exists m. split_and!; [done|by etrans|by etrans|done|]. intros d Hd1 Hd2.
  pose proof (Dom_pos d b Hbr Hd2). assert (Dom f d a') as Hd by auto.
  pose proof (Dom_pos d a' Har' Hd). by apply Hdom; [|apply Hdb].
Qed.

(** The loop over the predecessors of a block meets the linked ones. *)
Lemma meetPredecessors_ok lvl idom preds m0 :
  tree_ok lvl idom -> (forall p, p ∈ preds -> hasBlock f p = true) ->
  (handleValid m0 = true -> linked idom m0) ->
  exists m, meetPredecessors orderIndex idom preds m0 = Some m /\
    (handleValid m = true <-> handleValid m0 = true \/ exists p, p ∈ preds /\ linked idom p) /\
    (handleValid m = true -> linked idom m) /\
    (handleValid m0 = true -> above idom m0 m) /\ (forall p, p ∈ preds -> linked idom p -> above idom p m) /\
    (forall d, (handleValid m0 = true -> Dom f d m0) -> (forall p, p ∈ preds -> linked idom p -> Dom f d p) ->
       handleValid m = true -> Dom f d m).
Proof using Hok Hrpo Hentry.
  intros Ht. revert m0. induction preds as [|p preds IH]; intros m0 Hp Hm0; cbn [meetPredecessors].
  { exists m0. split_and!; [done| |done|intros; apply rtc_refl|by intros p ?%not_elem_of_nil|auto].
    split; [by left|]. intros [?|(p & ?%not_elem_of_nil & _)]; done. }
  assert (forall q, q ∈ preds -> hasBlock f q = true) as Hps by (intros q Hq; apply Hp, elem_of_cons; by right).
  destruct (arrayAt_lt idom p) as [ip Hip].
  { rewrite (to_length _ _ Ht). apply hasBlock_lt, Hp, elem_of_cons; by left. }
  rewrite Hip. cbn [mbind option_bind]. destruct (handleValid ip) eqn:Hv; cbn [negb].
  - assert (linked idom p) as Hlp by (by exists ip). pose proof (linked_reachable lvl idom p Ht Hlp) as Hpr.
    assert (exists m1, (if handleValid m0 then intersect (length orderIndex) orderIndex idom p m0 else Some p) = Some m1 /\
      linked idom m1 /\ above idom p m1 /\ (handleValid m0 = true -> above idom m0 m1) /\
      (forall d, (handleValid m0 = true -> Dom f d m0) -> Dom f d p -> Dom f d m1)) as (m1 & Hm1 & Hl1 & Hp1 & Hm01 & Hd1).
    { destruct (handleValid m0) eqn:Hv0; [|by exists p; split_and!; [|done|apply rtc_refl| |]].
      pose proof (linked_reachable lvl idom m0 Ht (Hm0 eq_refl)) as Hmr. rewrite length_orderIndex.
      destruct (intersect_ok lvl idom n p m0 Ht Hlp (Hm0 eq_refl)) as (m1 & ? & ? & ? & ? & ?);
        [pose proof (pos_bound p Hpr); lia|pose proof (pos_bound m0 Hmr); lia|].
      exists m1. split_and!; auto. }
    rewrite Hm1. cbn [mbind option_bind].
    assert (handleValid m1 = true) as Hv1 by (apply reachable_lt; by eapply linked_reachable).
    destruct (IH m1 Hps (fun _ => Hl1)) as (m & Hm & Hval & Hlm & Hab & Habs & Hdom).
    exists m. split_and!; [done| |done| | |].
    + split; [|intros _; apply Hval; by left]. intros _. right. exists p. split; [apply elem_of_cons; by left|done].
    + intros Hv0. etrans; [by apply Hm01|by apply Hab].
    + intros q [->|Hq]%elem_of_cons Hlq; [|by apply Habs]. etrans; [exact Hp1|by apply Hab].
    + intros d Hd0 Hdp. apply Hdom; [|intros q Hq; apply Hdp, elem_of_cons; by right].
      intros _. apply Hd1; [done|]. apply Hdp; [apply elem_of_cons; by left|done].
  - assert (~ linked idom p) as Hnl by (intros (q & Hq & Hvq); congruence).
    destruct (IH m0 Hps Hm0) as (m & Hm & Hval & Hlm & Hab & Habs & Hdom).
    exists m. split_and!; [done| |done|done| |].
    + rewrite Hval. split; intros [?|(q & Hq & Hlq)]; [by left|right|by left|right]; exists q.
      * split; [apply elem_of_cons; by right|done].
      * by apply elem_of_cons in Hq as [->|Hq].
    + intros q [->|Hq]%elem_of_cons Hlq; [done|by apply Habs].
    + intros d Hd0 Hdp. apply Hdom; [done|]. intros q Hq. apply Hdp, elem_of_cons; by right.
Qed.

(** *** A pass *)

(** Before the block at position [i] of pass [k]: blocks already seen in this
    pass have the pass's level, the others the previous one's. *)
Definition lvl (k : nat) (i : N) (j : N) : nat := if (j <? i)%N then k else pred k.

Record pass_ok (k : nat) (i : N) (idom : list N) : Prop := {
  pa_tree : tree_ok (lvl k i) idom;
  pa_seen : forall b, reachable f b -> (pos b < i)%N -> linked idom b;
  pa_all : (2 <= k)%nat -> forall b, reachable f b -> linked idom b }.

Lemma lvl_mono k i j j' : (j <= j')%N -> (lvl k i j' <= lvl k i j)%nat.
Proof. intros H. unfold lvl. destruct (N.ltb_spec j' i), (N.ltb_spec j i); lia. Qed.

Lemma parent_ok_level idom l l' b q : (l' <= l)%nat -> parent_ok idom l b q -> parent_ok idom l' b q.
Proof. intros Hle [Hr Hb Hl Hd Ho]. split; [done..|]. intros p Hp Hlt. apply Ho; [done|lia]. Qed.

Lemma linked_set idom b m c :
  handleValid m = true -> (b < N.of_nat (length idom))%N -> linked idom c -> linked (arraySet idom b m) c.
Proof.
  intros Hm Hb (q & Hq & Hv). destruct (decide (c = b)) as [->|Hne]; [exists m|exists q]; (split; [|done]);
    rewrite arrayAt_set; [rewrite decide_True by done|by rewrite decide_False].
  by replace (b <? _)%N with true by (symmetry; by apply N.ltb_lt).
Qed.

(** The meet of a block's predecessors is a parent for it, at the pass's level. *)
Lemma meet_parent k i idom b m :
  pass_ok k i idom -> (1 <= k)%nat -> reachable f b -> b <> entry -> pos b = i ->
  meetPredecessors orderIndex idom (predsOf f b) kInvalidIndex = Some m ->
  handleValid m = true /\ parent_ok idom k b m.
Proof using Hok Hrpo Hentry.
  intros [Ht Hseen Hall] Hk Hr Hne Hi Hm.
  destruct (meetPredecessors_ok _ idom (predsOf f b) kInvalidIndex Ht) as (m' & Hm' & Hval & Hlm & _ & Habove & Hdom);
    [intros p; by apply cfg_source|done|]. rewrite Hm in Hm'. injection Hm' as <-.
  assert (forall p, edge f p b -> p ∈ predsOf f b) as Hpred by (intros p He; by apply cfg_dual).
  destruct (early_pred b Hr Hne) as (p0 & Hp0 & He0 & Hlt0).
  assert (linked idom p0) as Hl0 by (apply Hseen; [done|lia]).
  assert (handleValid m = true) as Hv by (apply Hval; right; exists p0; auto).
  split; [done|]. destruct (above_pos _ idom p0 m Ht Hp0) as [Hmr Hmle]; [by apply Habove; auto|].
  split; [done|lia|by apply Hlm| |].
  - intros d Hd Hdb. apply Hdom; [done| |done]. intros p Hp _. eapply Dom_pred; [done| |done]. by apply cfg_dual in Hp.
  - intros l Hl Hlt. destruct Hl as [|p l' b Hl He]; [done|]. apply elem_of_cons; right.
    assert (reachable f p) as Hpr by (by eapply path_reachable). pose proof (retreats_suffix [b] l') as Hsuf. cbn [app] in Hsuf.
    assert (linked idom p /\ (retreats l' < lvl k i (pos p))%nat) as [Hlp Hltp].
    { unfold lvl. destruct (N.ltb_spec (pos p) i) as [Hpi|Hpi]; [split; [by apply Hseen|lia]|].
      destruct (path_head f p l' Hl) as [l'' ->]. rewrite retreats_cons in Hlt.
      replace (pos b <=? pos p)%N with true in Hlt by (symmetry; apply N.leb_le; lia).
      split; [apply Hall; [lia|done]|lia]. }
    apply (above_on (lvl k i) idom p m l' Ht); [apply lvl_mono|by apply Habove; auto|done|done|done].
Qed.

(** Storing a parent at the pass's level moves the pass on. *)
Lemma pass_ok_set k i idom b m :
  pass_ok k i idom -> reachable f b -> b <> entry -> pos b = i -> handleValid m = true ->
  parent_ok idom k b m -> pass_ok k (i + 1) (arraySet idom b m).
Proof using Hok Hrpo Hentry.
  intros [Ht Hseen Hall] Hr Hne Hi Hv Hpo. pose proof (reachable_lt b Hr) as [Hbn _]. rewrite <-(to_length _ _ Ht) in Hbn.
  assert (arrayAt (arraySet idom b m) b = Some m) as Hset.
  { rewrite arrayAt_set, decide_True by done. by replace (b <? _)%N with true by (symmetry; by apply N.ltb_lt). }
  assert (forall c, c <> b -> arrayAt (arraySet idom b m) c = arrayAt idom c) as Hother.
  { intros c Hc. by rewrite arrayAt_set, decide_False. }
  split.
  - split.
    + rewrite length_arraySet. by apply to_length in Ht.
    + rewrite Hother by done. by apply to_entry in Ht.
    + intros c q Hcr Hce [Hq Hvq]. destruct (decide (c = b)) as [->|Hc].
      * rewrite Hset in Hq. injection Hq as <-. unfold lvl. replace (pos b <? i + 1)%N with true by (symmetry; apply N.ltb_lt; lia).
        destruct Hpo. split; try done. by apply linked_set.
      * rewrite Hother in Hq by done. assert (pos c <> i) as Hci by (intros He; apply Hc, pos_inj; [done..|congruence]).
        destruct (to_parent _ _ Ht c q Hcr Hce (conj Hq Hvq)) as [? ? ? ? Hon]. split; try done; [by apply linked_set|].
        intros l Hl Hlt. apply Hon; [done|]. unfold lvl in *.
        destruct (N.ltb_spec (pos c) (i + 1)), (N.ltb_spec (pos c) i); lia.
    + intros c q Hq Hvq. destruct (decide (c = b)) as [->|Hc]; [done|]. rewrite Hother in Hq by done.
      by eapply (to_unreachable _ _ Ht).
  - intros c Hcr Hlt. destruct (decide (c = b)) as [->|Hc]; [by exists m|].
    assert (pos c <> i) as Hci by (intros He; apply Hc, pos_inj; [done..|congruence]).
    apply linked_set; [done..|]. apply Hseen; [done|lia].
  - intros Hk c Hcr. apply linked_set; [done..|]. by apply Hall.
Qed.

Lemma arraySet_same (idom : list N) b m : arrayAt idom b = Some m -> arraySet idom b m = idom.
Proof. apply list_insert_id. Qed.

(** Two parents at a level beyond the longest simple path are the same block. *)
Lemma parent_unique idom idom' k k' b q m :
  reachable f b -> (length order <= k)%nat -> (length order <= k')%nat ->
  parent_ok idom k b q -> parent_ok idom' k' b m -> q = m.
Proof using Hok Hrpo Hentry.
  intros Hr Hk Hk' [Hqr Hqb _ Hqd Hqo] [Hmr Hmb _ Hmd Hmo].
  assert (Dom f q b) as Hq by (apply few_retreats; intros l Hl Hlt; apply Hqo; [done|lia]).
  assert (Dom f m b) as Hm by (apply few_retreats; intros l Hl Hlt; apply Hmo; [done|lia]).
  apply Dom_antisym; [done..|apply Hmd|apply Hqd]; try done; intros ->; lia.
Qed.

Lemma updateIdom_ok k i idom c b :
  pass_ok k i idom -> (1 <= k)%nat -> reachable f b -> b <> entry -> pos b = i ->
  exists idom' c', updateIdom f orderIndex b (idom, c) = Some (idom', c') /\ pass_ok k (i + 1) idom' /\
    (c' = false -> idom' = idom /\ c = false) /\ ((length order < k)%nat -> idom' = idom /\ c' = c).
Proof using Hok Hrpo Hentry.
  intros Hp Hk Hr Hne Hi. pose proof (pa_tree _ _ _ Hp) as Ht.
  destruct (hasBlock_lookup f b) as [blk Hblk]; [by apply reachable_block|].
  assert (predecessors blk = predsOf f b) as Hpreds by (unfold predsOf; by rewrite Hblk).
  destruct (meetPredecessors_ok _ idom (predsOf f b) kInvalidIndex Ht) as (m & Hm & _);
    [intros p; by apply cfg_source|done|].
  destruct (meet_parent k i idom b m Hp Hk Hr Hne Hi Hm) as [Hv Hpo].
  pose proof (pass_ok_set k i idom b m Hp Hr Hne Hi Hv Hpo) as Hset.
  destruct (arrayAt_lt idom b) as [old Hold]; [rewrite (to_length _ _ Ht); by apply reachable_lt|].
  unfold updateIdom. rewrite Hblk. cbn [mbind option_bind]. rewrite Hpreds, Hm. cbn [mbind option_bind].
  rewrite Hold, Hv. cbn [mbind option_bind andb]. destruct (N.eqb_spec old m) as [->|Hneq]; cbn [negb].
  - eexists _, _. split; [done|]. rewrite (arraySet_same idom b m Hold) in Hset. split_and!; auto.
  - eexists _, _. split; [done|]. split_and!; [done|done|]. intros Hlk. exfalso.
    assert (2 <= k)%nat as Hk2.
    { pose proof (rpo_entry _ _ Hrpo) as He. apply lookup_lt_Some in He. lia. }
    destruct (pa_all _ _ _ Hp Hk2 b Hr) as (q & Hq & Hvq). rewrite Hold in Hq. injection Hq as <-.
    pose proof (to_parent _ _ Ht b old Hr Hne (conj Hold Hvq)) as Hpq. apply Hneq.
    eapply (parent_unique _ _ _ k b old m Hr); [|lia|exact Hpq|exact Hpo]. unfold lvl. destruct (_ <? _)%N; lia.
Qed.

Lemma idomPass_ok k i idom c :
  pass_ok k (N.of_nat i) idom -> (1 <= k)%nat -> (1 <= i)%nat ->
  exists idom' c', idomPass f orderIndex (drop i order) (idom, c) = Some (idom', c') /\
    (exists j, (length order <= j)%nat /\ pass_ok k (N.of_nat j) idom') /\
    (c' = false -> idom' = idom /\ c = false) /\ ((length order < k)%nat -> idom' = idom /\ c' = c).
Proof using Hok Hrpo Hentry.
  remember (drop i order) as rest eqn:Hrest. revert i idom c Hrest.
  induction rest as [|b rest IH]; intros i idom c Hrest Hp Hk Hi.
  - exists idom, c. split; [done|]. split; [|auto]. exists i. split; [|done].
    apply (f_equal length) in Hrest. rewrite length_drop in Hrest. cbn in Hrest. lia.
  - assert (order !! i = Some b) as Hb.
    { apply (f_equal (lookup 0%nat)) in Hrest. rewrite lookup_drop in Hrest. cbn in Hrest. by rewrite Nat.add_0_r in Hrest. }
    assert (rest = drop (S i) order) as Hrest'.
    { rewrite <-Nat.add_1_r, <-drop_drop, <-Hrest. done. }
    destruct (pos_lookup i b Hb) as [_ Hpos].
    assert (reachable f b) as Hr by (apply (rpo_reachable _ _ Hrpo); by eapply list_elem_of_lookup_2).
    assert (b <> entry) as Hne by (intros ->; rewrite pos_entry in Hpos; lia).
    destruct (updateIdom_ok k (N.of_nat i) idom c b Hp Hk Hr Hne Hpos) as (idom1 & c1 & Hu & Hp1 & Hc1 & Hf1).
    replace (N.of_nat i + 1)%N with (N.of_nat (S i)) in Hp1 by lia.
    destruct (IH (S i) idom1 c1 Hrest' Hp1 Hk) as (idom2 & c2 & Hrun & Hend & Hc2 & Hf2); [lia|].
    exists idom2, c2. cbn [idomPass]. rewrite Hu. cbn [mbind option_bind]. split; [done|]. split; [done|].
    split; [intros ->; destruct (Hc2 eq_refl) as [-> ->]; by apply Hc1|].
    intros Hlk. destruct (Hf2 Hlk) as [-> ->]. by apply Hf1.
Qed.

(** The end of one pass is the start of the next. *)
Lemma pass_ok_next k j idom :
  pass_ok k (N.of_nat j) idom -> (length order <= j)%nat -> pass_ok (S k) 1 idom.
Proof using Hok Hrpo Hentry.
  intros [Ht Hseen Hall] Hj.
  assert (forall b, reachable f b -> linked idom b) as Hl by (intros b Hr; apply Hseen; [done|pose proof (pos_lt b Hr); lia]).
  split; [|by intros b Hr _; apply Hl|by intros _]. destruct Ht as [H1 H2 H3 H4]. split; [done|done| |done].
  intros b q Hr Hne Hq. eapply parent_ok_level; [|by apply H3]. pose proof (pos_lt b Hr). unfold lvl.
  replace (pos b <? N.of_nat j)%N with true by (symmetry; apply N.ltb_lt; lia).
  assert (pos b <> 0%N) by (intros H0; apply Hne, pos_inj; [done|apply reachable_entry|by rewrite pos_entry]).
  by replace (pos b <? 1)%N with false by (symmetry; apply N.ltb_ge; lia).
Qed.

Lemma idomLoop_ok fuel k idom :
  pass_ok k 1 idom -> (1 <= k <= length order + 1)%nat -> (length order + 2 <= k + fuel)%nat ->
  exists idom', idomLoop fuel f orderIndex (drop 1 order) idom = Some idom' /\
    forall K, (S k <= K)%nat -> exists K', (K <= K')%nat /\ pass_ok K' 1 idom'.
Proof using Hok Hrpo Hentry.
  revert k idom. induction fuel as [|fuel IH]; intros k idom Hp Hk Hf; [lia|]. cbn [idomLoop].
  destruct (idomPass_ok k 1 idom false Hp) as (idom1 & c & Hrun & (j & Hj & Hpj) & Hc & Hfix); [lia..|].
  rewrite Hrun. cbn [mbind option_bind]. pose proof (pass_ok_next k j idom1 Hpj Hj) as Hnext. destruct c.
  - assert (~ (length order < k)%nat) by (intros Hlk; destruct (Hfix Hlk); done).
    destruct (IH (S k) idom1 Hnext) as (idom' & Hl & Hall); [lia..|]. exists idom'. split; [done|].
    intros K HK. destruct (Hall (S K)) as (K' & ? & ?); [lia|]. exists K'. split; [lia|done].
  - exists idom1. split; [done|]. destruct (Hc eq_refl) as [-> _]. intros K HK.
    cut (exists K', (K <= K')%nat /\ (1 <= K')%nat /\ pass_ok K' 1 idom); [intros (K' & ? & _ & ?); by exists K'|].
    induction HK as [|K HK (K' & HK' & H1 & HpK')]; [exists (S k); split_and!; [lia|lia|done]|].
    destruct (idomPass_ok K' 1 idom false HpK') as (idom2 & c2 & Hrun2 & (j2 & Hj2 & Hpj2) & _ & _); [lia..|].
    rewrite Hrun in Hrun2. injection Hrun2 as <- <-. exists (S K'). split_and!; [lia|lia|by eapply pass_ok_next].
Qed.

(** *** The finished tree *)

(** Every block but the entry has its immediate dominator as its parent. *)
Record dom_tree (idom : list N) : Prop := {
  dt_length : length idom = n;
  dt_entry : arrayAt idom entry = Some entry;
  dt_unreachable : forall b q, arrayAt idom b = Some q -> handleValid q = true -> reachable f b;
  dt_parent : forall b, reachable f b -> b <> entry -> exists q,
    arrayAt idom b = Some q /\ handleValid q = true /\ reachable f q /\ (pos q < pos b)%N /\ Dom f q b /\
    forall d, d <> b -> Dom f d b -> Dom f d q }.

Lemma pass_ok_init : pass_ok 1 1 (arraySet (repeat kInvalidIndex n) entry entry).
Proof using Hok Hrpo Hentry.
  destruct (reachable_lt entry reachable_entry) as [Hlt Hv].
  assert (forall b q, arrayAt (arraySet (repeat kInvalidIndex n) entry entry) b = Some q -> handleValid q = true -> b = entry) as Honly.
  { intros b q. rewrite arrayAt_set. destruct (decide (b = entry)); [done|]. intros Hq Hvq. unfold arrayAt in Hq.
    apply list_elem_of_lookup_2, list_elem_of_In, repeat_spec in Hq as ->. done. }
  assert (arrayAt (arraySet (repeat kInvalidIndex n) entry entry) entry = Some entry) as He.
  { rewrite arrayAt_set, decide_True, repeat_length by done.
    by replace (entry <? _)%N with true by (symmetry; by apply N.ltb_lt). }
  split; [|intros b Hr Hb; exists entry|lia].
  - split; [by rewrite length_arraySet, repeat_length|done| |].
    + intros b q Hr Hne [Hq Hvq]. destruct Hne. by eapply Honly.
    + intros b q Hq Hvq. rewrite (Honly b q Hq Hvq). apply reachable_entry.
  - assert (b = entry) as -> by (apply pos_inj; [done|apply reachable_entry|rewrite pos_entry; lia]). done.
Qed.

Lemma idomLoop_tree :
  exists idom, idomLoop (length order + 2) f orderIndex (drop 1 order)
    (arraySet (repeat kInvalidIndex n) entry entry) = Some idom /\ dom_tree idom.
Proof using Hok Hrpo Hentry.
  destruct (idomLoop_ok (length order + 2) 1 _ pass_ok_init) as (idom & Hrun & Hall); [lia..|].
  exists idom. split; [done|]. destruct (Hall (S (S (length order)))) as (K & HK & [Ht _ Hlink]); [lia|].
  destruct Ht as [H1 H2 H3 H4]. split; [done|done|done|]. intros b Hr Hne.
  destruct (Hlink ltac:(lia) b Hr) as (q & Hq & Hv). exists q.
  destruct (H3 b q Hr Hne (conj Hq Hv)) as [Hqr Hqb _ Hqd Hqo]. split_and!; try done.
  apply few_retreats. intros l Hl Hlt. apply Hqo; [done|]. unfold lvl. destruct (_ <? _)%N; lia.
Qed.

Section Tree.
Context (idom : list N).
Hypothesis Htree : dom_tree idom.

Lemma Dom_of_entry a : Dom f a entry -> a = entry.
Proof. intros H. specialize (H [entry] (path_entry f)). by apply list_elem_of_singleton in H. Qed.

(** Dominating a block other than oneself is dominating its parent. *)
Lemma Dom_parent b q a :
  reachable f b -> b <> entry -> arrayAt idom b = Some q -> a <> b -> Dom f a b <-> Dom f a q.
Proof using Htree.
  intros Hr Hne Hq Ha. destruct (dt_parent _ Htree b Hr Hne) as (q' & Hq' & _ & _ & _ & Hd & Hall).
  rewrite Hq in Hq'. injection Hq' as <-. split; [by apply Hall|]. intros Haq. by eapply Dom_trans.
Qed.

Lemma fingerTo_ok fuel a b :
  reachable f b -> (pos b <= N.of_nat fuel)%N ->
  exists x, fingerTo fuel idom a entry b = Some x /\ (x = a <-> Dom f a b).
Proof using Hok Hrpo Hentry Htree.
  revert b. induction fuel as [|fuel IH]; intros b Hr Hf; cbn [fingerTo];
    (destruct (N.eqb_spec b a) as [->|Hba]; cbn [orb]; [exists a; split; [done|split; [intros _; apply Dom_refl|done]]|]);
    (destruct (N.eqb_spec b entry) as [->|Hbe];
      [exists entry; split; [done|split; [done|intros Hd; by rewrite (Dom_of_entry a Hd)]]|]).
  - exfalso. apply Hbe, pos_inj; [done|apply reachable_entry|rewrite pos_entry; lia].
  - destruct (dt_parent _ Htree b Hr Hbe) as (q & Hq & _ & Hqr & Hlt & _). rewrite Hq. cbn [mbind option_bind].
    destruct (IH q Hqr) as (x & Hx & Hiff); [lia|]. exists x. split; [done|].
    rewrite Hiff. symmetry. apply (Dom_parent b q a); done || congruence.
Qed.

Lemma indexed_reachable b : indexed orderIndex b = true <-> reachable f b.
Proof using Hok Hrpo Hentry.
  unfold indexed. split.
  - intros H. apply (rpo_reachable _ _ Hrpo). destruct (decide (b ∈ order)) as [|Hn]; [done|exfalso].
    unfold orderIndex in H. rewrite indexOrder_absent in H by done. unfold arrayAt in H.
    destruct (repeat kUnreachable n !! N.to_nat b) eqn:Hl; [|done].
    apply list_elem_of_lookup_2, list_elem_of_In, repeat_spec in Hl as ->. by rewrite N.eqb_refl in H.
  - intros Hr. rewrite (pos_at b) by done. pose proof (pos_bound b Hr). pose proof (cfg_small f Hok).
    apply negb_true_iff, N.eqb_neq. unfold kUnreachable. lia.
Qed.

(** *** Depths and children *)

Record tree_filled (seen : list N) (depth : list Z) (children : list (list N)) : Prop := {
  tf_depths : length depth = n;
  tf_lists : length children = n;
  tf_depth : forall b, b ∈ seen -> b <> entry -> forall q, arrayAt idom b = Some q ->
    q ∈ seen /\ exists d, arrayAt depth q = Some d /\ arrayAt depth b = Some (d + 1);
  tf_entry : arrayAt depth entry = Some 0;
  tf_unseen : forall b, hasBlock f b = true -> b ∉ seen -> arrayAt depth b = Some (-1);
  tf_children : forall q, hasBlock f q = true ->
    arrayAt children q = Some (filter (fun b => arrayAt idom b = Some q) (drop 1 seen)) }.

Lemma filter_snoc (P : N -> Prop) `{forall x, Decision (P x)} l x :
  filter P (l ++ [x]) = filter P l ++ (if decide (P x) then [x] else []).
Proof. rewrite filter_app, filter_cons, filter_nil. by destruct (decide (P x)). Qed.

Lemma drop_snoc (l : list N) x : l <> [] -> drop 1 (l ++ [x]) = drop 1 l ++ [x].
Proof. by destruct l. Qed.

Lemma tree_filled_step seen depth children b q d siblings :
  tree_filled seen depth children -> seen <> [] -> entry ∈ seen -> b ∉ seen -> b <> entry -> reachable f b ->
  q ∈ seen -> hasBlock f q = true ->
  arrayAt idom b = Some q -> arrayAt depth q = Some d -> arrayAt children q = Some siblings ->
  tree_filled (seen ++ [b]) (arraySet depth b (d + 1)) (arraySet children q (siblings ++ [b])).
Proof using Hok Hentry.
  intros [H1 H2 H3 H4 H5 H6] Hne Hes Hb Hbe Hbr Hq Hqb Hib Hd Hs.
  assert (forall c, c ∈ seen -> arrayAt (arraySet depth b (d + 1)) c = arrayAt depth c) as Hsame.
  { intros c Hc. rewrite arrayAt_set, decide_False; [done|]. by intros ->. }
  split.
  - by rewrite length_arraySet.
  - by rewrite length_arraySet.
  - intros c [Hc|Hc]%elem_of_app Hce p Hp.
    + destruct (H3 c Hc Hce p Hp) as (Hps & dp & Hdp & Hdc). split; [apply elem_of_app; by left|].
      exists dp. by rewrite !Hsame.
    + apply list_elem_of_singleton in Hc as ->. rewrite Hib in Hp. injection Hp as <-.
      split; [apply elem_of_app; by left|]. exists d. rewrite Hsame by done. split; [done|].
      rewrite arrayAt_set, decide_True by done.
      replace (b <? _)%N with true; [done|]. symmetry. apply N.ltb_lt. rewrite H1. by apply reachable_lt.
  - by rewrite Hsame.
  - intros c Hc Hcn. rewrite arrayAt_set, decide_False; [apply H5; [done|]|]; intros Hin; apply Hcn, elem_of_app;
      [by left|right; by apply list_elem_of_singleton].
  - intros p Hp. rewrite drop_snoc, filter_snoc, arrayAt_set by done. destruct (decide (p = q)) as [->|Hpq].
    + rewrite decide_True by done. rewrite H6 in Hs by done. injection Hs as <-.
      replace (q <? _)%N with true; [done|]. symmetry. apply N.ltb_lt. rewrite H2. by apply hasBlock_lt.
    + rewrite decide_False by congruence. rewrite app_nil_r. by apply H6.
Qed.

Lemma fillTree_ok rest seen depth children :
  order = seen ++ rest -> seen <> [] -> tree_filled seen depth children ->
  exists depth' children', fillTree idom rest (depth, children) = Some (depth', children') /\
    tree_filled order depth' children'.
Proof using Hok Hrpo Hentry Htree.
  revert seen depth children. induction rest as [|b rest IH]; intros seen depth children Ho Hne Hf.
  { rewrite app_nil_r in Ho. subst seen. by exists depth, children. }
  pose proof (rpo_nodup _ _ Hrpo) as Hnd. rewrite Ho in Hnd. apply NoDup_app in Hnd as (_ & Hdisj & _).
  assert (entry ∈ seen) as Hes.
  { pose proof (rpo_entry _ _ Hrpo) as He. rewrite Ho in He. destruct seen; [done|]. injection He as ->.
    apply elem_of_cons; by left. }
  assert (b ∉ seen) as Hb by (intros Hin; apply (Hdisj b Hin), elem_of_cons; by left).
  assert (b <> entry) as Hbe by congruence.
  assert (forall x, x ∈ seen -> reachable f x) as Hsr.
  { intros x Hx. apply (rpo_reachable _ _ Hrpo). rewrite Ho. apply elem_of_app. by left. }
  assert (reachable f b) as Hbr.
  { apply (rpo_reachable _ _ Hrpo). rewrite Ho. apply elem_of_app; right. apply elem_of_cons; by left. }
  destruct (dt_parent _ Htree b Hbr Hbe) as (q & Hq & _ & Hqr & Hlt & _).
  assert (q ∈ seen) as Hqs.
  { destruct (reachable_pos q Hqr) as (j & Hj & _ & Hpj & _).
    assert (order !! length seen = Some b) as Hbi by (rewrite Ho; by apply list_lookup_middle).
    destruct (pos_lookup _ _ Hbi) as [_ Hpb]. rewrite Ho, lookup_app_l in Hj by lia. by eapply list_elem_of_lookup_2. }
  assert (hasBlock f q = true) as Hqb by (by apply reachable_block).
  destruct (arrayAt_lt depth q) as [d Hd]; [rewrite (tf_depths _ _ _ Hf); by apply reachable_lt|].
  destruct (arrayAt_lt children q) as [ss Hs]; [rewrite (tf_lists _ _ _ Hf); by apply reachable_lt|].
  destruct (IH (seen ++ [b]) (arraySet depth b (d + 1)) (arraySet children q (ss ++ [b]))) as (d' & c' & Hrun & Hf').
  - by rewrite <-app_assoc.
  - by destruct seen.
  - by apply tree_filled_step.
  - exists d', c'. split; [|done]. cbn [fillTree]. rewrite Hq. cbn [mbind option_bind]. rewrite Hd. cbn [mbind option_bind].
    by rewrite Hs.
Qed.

(** *** The frontier *)

(** [frontier'] holds, beyond [frontier], the blocks [new] gives each index. *)
Definition frontier_adds (frontier frontier' : list (gset N)) (new : N -> N -> Prop) : Prop :=
  length frontier' = length frontier /\
  forall x s, arrayAt frontier x = Some s -> exists s', arrayAt frontier' x = Some s' /\
    forall j, j ∈ s' <-> j ∈ s \/ new x j.

Lemma frontier_adds_refl fr (new : N -> N -> Prop) : (forall x j, ~ new x j) -> frontier_adds fr fr new.
Proof. intros H. split; [done|]. intros x s Hs. exists s. split; [done|]. intros j. specialize (H x j). tauto. Qed.

Lemma frontier_adds_trans fr1 fr2 fr3 new1 new2 new :
  frontier_adds fr1 fr2 new1 -> frontier_adds fr2 fr3 new2 ->
  (forall x j, new x j <-> new1 x j \/ new2 x j) -> frontier_adds fr1 fr3 new.
Proof.
  intros [Hl1 H1] [Hl2 H2] Hnew. split; [congruence|]. intros x s Hs.
  destruct (H1 x s Hs) as (s1 & Hs1 & E1). destruct (H2 x s1 Hs1) as (s2 & Hs2 & E2). exists s2. split; [done|].
  intros j. rewrite E2, E1, Hnew. tauto.
Qed.

Lemma frontier_adds_set fr x j s :
  arrayAt fr x = Some s -> frontier_adds fr (arraySet fr x ({[j]} ∪ s)) (fun x' j' => x' = x /\ j' = j).
Proof.
  intros Hs. pose proof (lookup_lt_Some _ _ _ Hs). split; [apply length_arraySet|].
  intros x' s' Hs'. rewrite arrayAt_set. destruct (decide (x' = x)) as [->|Hne].
  - replace (x <? _)%N with true by (symmetry; apply N.ltb_lt; lia). rewrite Hs in Hs'. injection Hs' as <-.
    eexists. split; [done|]. intros j'. rewrite elem_of_union, elem_of_singleton. tauto.
  - exists s'. split; [done|]. intros j'. tauto.
Qed.

(** The climb from a predecessor to the join's parent. *)
Lemma runFrontier_ok fuel join runner stop fr :
  length fr = n -> reachable f runner -> (pos runner <= N.of_nat fuel)%N -> Dom f stop runner ->
  exists fr', runFrontier fuel idom join runner stop fr = Some fr' /\
    frontier_adds fr fr' (fun x j => j = join /\ Dom f x runner /\ ~ Dom f x stop).
Proof using Hok Hrpo Hentry Htree.
  revert runner fr. induction fuel as [|fuel IH]; intros runner fr Hl Hr Hf Hd; cbn [runFrontier];
    (destruct (N.eqb_spec runner stop) as [->|Hne];
      [exists fr; split; [done|apply frontier_adds_refl; tauto]|]);
    assert (runner <> entry) as Hre by (intros ->; by rewrite (Dom_of_entry stop Hd) in Hne).
  - exfalso. apply Hre, pos_inj; [done|apply reachable_entry|rewrite pos_entry; lia].
  - destruct (dt_parent _ Htree runner Hr Hre) as (q & Hq & _ & Hqr & Hlt & _ & Hall).
    destruct (arrayAt_lt fr runner) as [s Hs]; [rewrite Hl; by apply reachable_lt|].
    rewrite Hs. cbn [mbind option_bind]. rewrite Hq. cbn [mbind option_bind].
    destruct (IH q (arraySet fr runner ({[join]} ∪ s))) as (fr' & Hrun & Hadds);
      [by rewrite length_arraySet|done|lia|by apply Hall|].
    exists fr'. split; [done|]. eapply frontier_adds_trans; [by apply frontier_adds_set|exact Hadds|].
    intros x j. destruct (decide (x = runner)) as [->|Hx].
    + split; [intros (-> & _); by left|]. intros [[_ ->]|(-> & Hx & Hns)]; split_and!; try done; [apply Dom_refl| |apply Dom_refl].
      intros Hrs. apply Hne, Dom_antisym; [done|by apply (Dom_reachable stop runner)|done|done].
    + rewrite (Dom_parent runner q x Hr Hre Hq Hx). tauto.
Qed.

(** The frontier's defining condition, with the climb's end for a join. *)
Definition inFrontier (x join : N) : Prop :=
  (2 <= length (predsOf f join))%nat /\
  exists p, p ∈ predsOf f join /\ reachable f p /\ Dom f x p /\
    exists stop, arrayAt idom join = Some stop /\ ~ Dom f x stop.

(** A join's parent dominates its reachable predecessors. *)
Lemma parent_dominates_pred join p stop :
  reachable f join -> edge f p join -> reachable f p -> arrayAt idom join = Some stop -> Dom f stop p.
Proof using Hok Hrpo Hentry Htree.
  intros Hr He Hp Hs. destruct (decide (join = entry)) as [->|Hne].
  - rewrite (dt_entry _ Htree) in Hs. injection Hs as <-. apply Dom_entry.
  - destruct (dt_parent _ Htree join Hr Hne) as (q & Hq & _ & Hqr & Hlt & Hd & _). rewrite Hs in Hq. injection Hq as ->.
    eapply Dom_pred; [|done|done]. intros ->. lia.
Qed.

Lemma joinFrontier_ok join preds stop fr :
  length fr = n -> reachable f join -> (forall p, p ∈ preds -> edge f p join) -> arrayAt idom join = Some stop ->
  exists fr', joinFrontier orderIndex idom join preds fr = Some fr' /\
    frontier_adds fr fr' (fun x j => j = join /\ exists p, p ∈ preds /\ reachable f p /\ Dom f x p /\ ~ Dom f x stop).
Proof using Hok Hrpo Hentry Htree.
  intros Hl Hr He Hs. revert fr Hl. induction preds as [|p preds IH]; intros fr Hl; cbn [joinFrontier].
  { exists fr. split; [done|]. apply frontier_adds_refl. intros x j (_ & p & Hp & _). by apply not_elem_of_nil in Hp. }
  assert (edge f p join) as Hpj by (apply He, elem_of_cons; by left).
  assert (forall q, q ∈ preds -> edge f q join) as Hps by (intros q Hq; apply He, elem_of_cons; by right).
  destruct (indexed orderIndex p) eqn:Hi.
  - assert (reachable f p) as Hpr by (by apply indexed_reachable). rewrite Hs. cbn [mbind option_bind].
    destruct (runFrontier_ok (length orderIndex) join p stop fr) as (fr1 & Hrun & [Hl1 Ha1]); [done|done| |by apply (parent_dominates_pred join p stop)|].
    { rewrite length_orderIndex. pose proof (pos_bound p Hpr). lia. }
    rewrite Hrun. cbn [mbind option_bind]. destruct (IH Hps fr1) as (fr2 & Hrun2 & Ha2); [congruence|].
    exists fr2. split; [done|]. eapply frontier_adds_trans; [exact (conj Hl1 Ha1)|exact Ha2|]. intros x j. split.
    + intros (-> & q & [->|Hq]%elem_of_cons & Hqr & Hxq & Hxs); [by left|right]. split; [done|]. by exists q.
    + intros [(-> & Hxp & Hxs)|(-> & q & Hq & ? & ? & ?)]; (split; [done|]); [exists p|exists q]; split_and!; try done;
        apply elem_of_cons; [by left|by right].
  - destruct (IH Hps fr Hl) as (fr2 & Hrun2 & [Hl2 Ha2]). exists fr2. split; [done|]. split; [done|].
    intros x s Hx. destruct (Ha2 x s Hx) as (s' & Hs' & E). exists s'. split; [done|]. intros j. rewrite E.
    split; (intros [?|(-> & q & Hq & Hqr & ?)]; [by left|right]); (split; [done|]); exists q.
    + split; [apply elem_of_cons; by right|done].
    + apply elem_of_cons in Hq as [->|Hq]; [|done]. apply indexed_reachable in Hqr. congruence.
Qed.

Lemma fillFrontier_ok joins fr :
  length fr = n -> (forall j, j ∈ joins -> reachable f j) ->
  exists fr', fillFrontier f orderIndex idom joins fr = Some fr' /\
    frontier_adds fr fr' (fun x j => j ∈ joins /\ inFrontier x j).
Proof using Hok Hrpo Hentry Htree.
  revert fr. induction joins as [|join joins IH]; intros fr Hl Hj; cbn [fillFrontier].
  { exists fr. split; [done|]. apply frontier_adds_refl. by intros x j [?%not_elem_of_nil _]. }
  assert (reachable f join) as Hr by (apply Hj, elem_of_cons; by left).
  assert (forall j, j ∈ joins -> reachable f j) as Hjs by (intros j Hin; apply Hj, elem_of_cons; by right).
  destruct (hasBlock_lookup f join) as [blk Hblk]; [by apply reachable_block|].
  assert (predecessors blk = predsOf f join) as Hp by (unfold predsOf; by rewrite Hblk).
  rewrite Hblk. cbn [mbind option_bind]. rewrite Hp.
  destruct (arrayAt_lt idom join) as [stop Hstop]; [rewrite (dt_length _ Htree); by apply reachable_lt|].
  assert (exists fr1, (if (length (predsOf f join) <? 2)%nat then Some fr else
      joinFrontier orderIndex idom join (predsOf f join) fr) = Some fr1 /\
      frontier_adds fr fr1 (fun x j => j = join /\ inFrontier x join)) as (fr1 & Hrun1 & Ha1).
  { unfold inFrontier. destruct (Nat.ltb_spec (length (predsOf f join)) 2).
    - exists fr. split; [done|]. apply frontier_adds_refl. intros x j (_ & ? & _). lia.
    - destruct (joinFrontier_ok join (predsOf f join) stop fr Hl Hr) as (fr1 & Hrun1 & [Hl1 Ha1]);
        [by intros p ?%cfg_dual|done|]. exists fr1. split; [done|]. split; [done|].
      intros x s Hx. destruct (Ha1 x s Hx) as (s' & Hs' & E). exists s'. split; [done|]. intros j. rewrite E. split.
      + intros [?|(-> & p & ? & ? & ? & ?)]; [by left|right]. split; [done|]. split; [lia|]. exists p. eauto 10.
      + intros [?|(-> & _ & p & ? & ? & ? & stop' & Hs'' & ?)]; [by left|right]. split; [done|]. exists p.
        rewrite Hstop in Hs''. injection Hs'' as <-. done. }
  rewrite Hrun1. cbn [mbind option_bind]. destruct (IH fr1) as (fr2 & Hrun2 & Ha2); [by destruct Ha1 as [-> _]|done|].
  exists fr2. split; [done|]. eapply frontier_adds_trans; [exact Ha1|exact Ha2|]. intros x j. split.
  - intros [[->|Hin]%elem_of_cons Hfr]; [by left|by right].
  - intros [[-> Hfr]|[Hin Hfr]]; (split; [|done]); apply elem_of_cons; [by left|by right].
Qed.
End Tree.

(** ** The result *)

Record dominators_ok (t : Dominators) : Prop := {
  do_rpo : rpo_ t = order;
  do_index : rpoIndex_ t = orderIndex;
  do_tree : dom_tree (idom_ t);
  do_filled : tree_filled (idom_ t) order (depth_ t) (children_ t);
  do_frontier : frontier_adds (repeat ∅ n) (frontier_ t) (fun x j => j ∈ order /\ inFrontier (idom_ t) x j) }.

Lemma tree_filled_init idom :
  tree_filled idom [entry] (arraySet (repeat (-1) n) entry 0) (repeat [] n).
Proof using Hok Hentry.
  destruct (reachable_lt entry reachable_entry) as [Hlt _]. split.
  - by rewrite length_arraySet, repeat_length.
  - by rewrite repeat_length.
  - by intros b ->%list_elem_of_singleton.
  - rewrite arrayAt_set, decide_True, repeat_length by done. by replace (entry <? _)%N with true by (symmetry; by apply N.ltb_lt).
  - intros b [Hb _]%hasBlock_lt Hne. rewrite arrayAt_set, decide_False; [by apply arrayAt_repeat|].
    intros ->. apply Hne. by apply list_elem_of_singleton.
  - intros q [Hq _]%hasBlock_lt. rewrite arrayAt_repeat by done. done.
Qed.

Lemma computeDominators_ok : reversePostOrder f = Some order ->
  exists t, computeDominators f = Some t /\ dominators_ok t.
Proof using Hok Hrpo Hentry.
  intros Ho. unfold computeDominators. rewrite Ho. cbn [mbind option_bind]. fold orderIndex.
  assert (exists rest, order = entry :: rest) as [rest Hrest].
  { pose proof (rpo_entry _ _ Hrpo) as He. destruct order as [|x rest]; [done|]. injection He as ->. by exists rest. }
  destruct idomLoop_tree as (idom & Hrun & Htree).
  assert (drop 1 order = rest) as Hdrop by (by rewrite Hrest). rewrite Hdrop in Hrun.
  assert (forall A (x : A) (g : N -> list N -> A),
    match order with [] => x | e :: r => g e r end = g entry rest) as Hcase by (intros; by rewrite Hrest).
  rewrite Hcase, Hrun. cbn [mbind option_bind].
  destruct (fillTree_ok idom Htree rest [entry] (arraySet (repeat (-1) n) entry 0) (repeat [] n) Hrest) as (depth & children & Hfill & Hfilled);
    [done|apply tree_filled_init|]. rewrite Hfill. cbn [mbind option_bind].
  destruct (fillFrontier_ok idom Htree order (repeat ∅ n)) as (fr & Hfr & Hadds);
    [by rewrite repeat_length|intros j; apply (rpo_reachable _ _ Hrpo)|]. rewrite Hfr. cbn [mbind option_bind].
  eexists. split; [done|]. by split.
Qed.
End Order.

Section Results.
Context (f : Function).
Hypothesis Hok : cfg_ok f.
Hypothesis Hentry : hasBlock f (entryBlock f) = true.

Lemma dominators_computed :
  exists order t, rpo_ok f order /\ computeDominators f = Some t /\ dominators_ok f order t.
Proof using Hok Hentry.
  destruct (reversePostOrder_ok f Hok Hentry) as (order & Ho & Hrpo).
  destruct (computeDominators_ok f order Hok Hrpo Hentry Ho) as (t & Ht & Htok). by exists order, t.
Qed.

Lemma domReachable_ok order t b : rpo_ok f order -> dominators_ok f order t -> domReachable t b = true <-> reachable f b.
Proof using Hok Hentry.
  intros Hrpo [_ Hi _ _ _]. unfold domReachable. rewrite Hi. by apply indexed_reachable.
Qed.

Lemma dominates_ok order t a b : rpo_ok f order -> dominators_ok f order t ->
  exists d, dominates t a b = Some d /\
    (d = true <-> if decide (domReachable t a = true /\ domReachable t b = true) then Dom f a b else a = b).
Proof using Hok Hentry.
  intros Hrpo Ht. pose proof (domReachable_ok order t a Hrpo Ht) as Ha. pose proof (domReachable_ok order t b Hrpo Ht) as Hb.
  destruct Ht as [Hr Hi Htree _ _]. unfold dominates. rewrite Hr.
  destruct (domReachable t a); cbn [negb orb];
    [|exists (a =? b)%N; split; [done|rewrite decide_False by (by intros []); apply N.eqb_eq]].
  destruct (domReachable t b); cbn [negb orb];
    [|exists (a =? b)%N; split; [done|rewrite decide_False by (by intros []); apply N.eqb_eq]].
  rewrite (rpo_entry _ _ Hrpo). cbn [mbind option_bind]. assert (reachable f b) as Hbr by (by apply Hb).
  destruct (fingerTo_ok f order Hok Hrpo Hentry (idom_ t) Htree (length order) a b Hbr) as (x & -> & Hx).
  { pose proof (pos_lt f order Hok Hrpo Hentry b Hbr). lia. }
  exists (x =? a)%N. split; [done|]. rewrite decide_True by done. by rewrite N.eqb_eq.
Qed.
End Results.

(** C17 The computation of dominators ends, and [dominates] is dominance: for
    reachable blocks, whether every path from the entry to the second passes
    through the first; a block that is not reachable dominates only itself. *)
Theorem dominators_correct f :
  cfg_ok f -> hasBlock f (entryBlock f) = true ->
  exists t, computeDominators f = Some t /\
    forall a b, exists d, dominates t a b = Some d /\
      (d = true <-> if decide (domReachable t a = true /\ domReachable t b = true)
                    then Dom f a b else a = b) /\
      (domReachable t b = true <-> reachable f b).
Proof.
  intros Hok He. destruct (dominators_computed f Hok He) as (order & t & Hrpo & Ht & Hdom). exists t. split; [done|]. intros a b.
  destruct (dominates_ok f Hok He order t a b Hrpo Hdom) as (d & Hd & Hiff). exists d. split_and!; [done..|].
  by apply (domReachable_ok f Hok He order t b).
Qed.

Lemma filter_agree {A} (P Q : A -> Prop) `{forall x, Decision (P x)} `{forall x, Decision (Q x)} (l : list A) :
  (forall x, x ∈ l -> P x <-> Q x) -> filter P l = filter Q l.
Proof.
  induction l as [|x l IH]; intros Hl; [done|]. rewrite !filter_cons, IH by (intros y Hy; apply Hl; by right).
  apply decide_ext, Hl. by left.
Qed.

(** C18 Each reachable block but the entry has its immediate dominator as its
    parent: a strict dominator that every other strict dominator dominates. Its
    depth is one more than its parent's and the entry's is zero; a block that is
    not reachable has no parent, and depth -1. The children of a block are exactly
    the blocks whose parent it is, each once and in reverse post-order. *)
Theorem dominator_tree_correct f :
  cfg_ok f -> hasBlock f (entryBlock f) = true ->
  exists order t, reversePostOrder f = Some order /\ computeDominators f = Some t /\ domDepth t (entryBlock f) = 0 /\
    (forall b, reachable f b -> b <> entryBlock f -> exists q, idomOf t b = Some q /\ q <> b /\ Dom f q b /\
       (forall d, d <> b -> Dom f d b -> Dom f d q) /\ domDepth t b = domDepth t q + 1 /\
       exists cs, childrenOf t q = Some cs /\ b ∈ cs) /\
    (forall b, hasBlock f b = true -> ~ reachable f b -> idomOf t b = Some kInvalidIndex /\ domDepth t b = -1) /\
    (forall q, hasBlock f q = true -> exists cs, childrenOf t q = Some cs /\ NoDup cs /\
       cs = filter (fun b => idomOf t b = Some q) order).
Proof.
  intros Hok He. destruct (reversePostOrder_ok f Hok He) as (order & Ho & Hrpo).
  destruct (computeDominators_ok f order Hok Hrpo He Ho) as (t & Ht & Htok). exists order, t. split; [done|]. split; [done|].
  pose proof (domReachable_ok f Hok He order t) as Hreach. specialize (fun b => Hreach b Hrpo Htok) as Hreach'. clear Hreach.
  destruct Htok as [Hr Hi Htree Hfill _].
  assert (forall b, reachable f b -> b <> entryBlock f -> idomOf t b = arrayAt (idom_ t) b) as Hidom.
  { intros b Hb Hne. unfold idomOf. rewrite (proj2 (Hreach' b) Hb), Hr.
    rewrite bool_decide_eq_false_2; [done|]. rewrite (rpo_entry _ _ Hrpo). congruence. }
  assert (idomOf t (entryBlock f) = Some kInvalidIndex) as Hroot.
  { unfold idomOf. rewrite Hr. rewrite bool_decide_eq_true_2 by apply (rpo_entry _ _ Hrpo). by rewrite orb_true_r. }
  pose proof (rpo_nodup _ _ Hrpo) as Hnd. destruct order as [|x rest]; [by pose proof (rpo_entry _ _ Hrpo)|].
  pose proof (rpo_entry _ _ Hrpo) as [= ->]. pose proof (NoDup_cons_1_1 _ _ Hnd) as Hn.
  assert (forall b, b ∈ rest <-> reachable f b /\ b <> entryBlock f) as Hrest.
  { intros b. rewrite <-(rpo_reachable _ _ Hrpo), elem_of_cons. split; [intros Hb; split; [by right|by intros ->]|tauto]. }
  assert (forall q, hasBlock f q = true -> childrenOf t q = Some (filter (fun b => idomOf t b = Some q) (entryBlock f :: rest))) as Hchildren.
  { intros q Hq. unfold childrenOf. rewrite (tf_children _ _ _ _ _ Hfill) by done. cbn [drop]. f_equal.
    rewrite filter_cons, decide_False by (rewrite Hroot; intros [= <-]; by apply hasBlock_lt in Hq as [_ Hq']).
    apply filter_agree. intros b Hb%Hrest. by rewrite Hidom by apply Hb. }
  split; [unfold domDepth; by rewrite (tf_entry _ _ _ _ _ Hfill)|]. split_and!.
  - intros b Hb Hne. destruct (dt_parent _ _ _ Htree b Hb Hne) as (q & Hq & _ & Hqr & Hlt & Hd & Hall).
    exists q. rewrite Hidom by done. split_and!; try done; [by intros ->; lia| |].
    + destruct (tf_depth _ _ _ _ _ Hfill b) with (q := q) as (_ & d & Hdq & Hdb); [by apply (rpo_reachable _ _ Hrpo)|done|done|].
      unfold domDepth. by rewrite Hdq, Hdb.
    + eexists. rewrite Hchildren by (by eapply reachable_block). split; [done|].
      apply list_elem_of_filter. split; [by rewrite Hidom|]. by apply (rpo_reachable _ _ Hrpo).
  - intros b Hb Hnr. split.
    + unfold idomOf. destruct (domReachable t b) eqn:Hd; [|done]. by apply Hreach' in Hd.
    + unfold domDepth. rewrite (tf_unseen _ _ _ _ _ Hfill); [done|done|]. by rewrite (rpo_reachable _ _ Hrpo).
  - intros q Hq. eexists. split; [by apply Hchildren|]. split; [|done]. by apply NoDup_filter.
Qed.

(** C19 The frontier is Cytron's: away from the entry, a join is in a block's
    frontier exactly when the block dominates one of the join's reachable
    predecessors and does not strictly dominate the join. *)
Theorem frontier_correct f :
  cfg_ok f -> hasBlock f (entryBlock f) = true ->
  exists t, computeDominators f = Some t /\
    forall x join, hasBlock f x = true -> reachable f join -> join <> entryBlock f ->
      exists s, frontierOf t x = Some s /\
        (join ∈ s <-> exists p, p ∈ predsOf f join /\ reachable f p /\ Dom f x p /\ ~ (x <> join /\ Dom f x join)).
Proof.
  intros Hok He. destruct (dominators_computed f Hok He) as (order & t & Hrpo & Ht & [_ _ Htree _ Hfr]).
  exists t. split; [done|]. intros x join Hx Hj Hne. destruct Hfr as [_ Hfr].
  destruct (Hfr x ∅) as (s & Hs & Hiff); [by apply arrayAt_repeat, hasBlock_lt|]. exists s. split; [done|].
  destruct (dt_parent _ _ _ Htree join Hj Hne) as (q & Hq & _ & Hqr & Hlt & Hqd & Hall).
  assert (forall y, Dom f y q <-> y <> join /\ Dom f y join) as Hdq.
  { intros y. split; [intros Hy; split; [|by eapply Dom_trans]|by intros []; apply Hall].
    intros ->. pose proof (Dom_pos f order Hok Hrpo He _ _ Hqr Hy). lia. }
  rewrite Hiff, elem_of_empty, (rpo_reachable _ _ Hrpo). unfold inFrontier. split.
  - intros [[]|(_ & _ & p & Hp & Hpr & Hxp & stop & Hstop & Hns)]. rewrite Hq in Hstop. injection Hstop as <-.
    exists p. rewrite <-Hdq. done.
  - intros (p & Hp & Hpr & Hxp & Hns). right. split; [done|]. rewrite <-Hdq in Hns. split; [|exists p; eauto 10].
    destruct (predsOf f join) as [|p1 [|p2 ps]] eqn:Hps; [by apply not_elem_of_nil in Hp| |cbn; lia]. exfalso.
    apply list_elem_of_singleton in Hp as ->. apply Hns.
    destruct (early_pred f order Hok Hrpo He join Hj Hne) as (p0 & _ & He0 & Hlt0).
    assert (p0 = p1) as -> by (apply list_elem_of_singleton; rewrite <-Hps; by apply cfg_dual).
    (* the only predecessor is the parent: a path to it extends to the join *)
    apply Hdq. split.
    + intros ->. pose proof (Dom_pos f order Hok Hrpo He _ _ Hpr Hxp). lia.
    + intros l Hl. inversion Hl as [|p' l' b Hl' He' Hb]; subst; [done|]. apply elem_of_cons; right.
      apply Hxp. assert (p' = p1) as <- by (apply list_elem_of_singleton; rewrite <-Hps; by apply cfg_dual). done.
Qed.

(** ** The while loop of [Cfg] *)

Definition loopDominators : Dominators :=
  default (MkDominators [] [] [] [] [] []) (computeDominators loopFunction).

Lemma loopDominators_eq : computeDominators loopFunction = Some loopDominators.
Proof. vm_compute. reflexivity. Qed.

Lemma loop_cfg_ok : cfg_ok loopFunction.
Proof. apply cfg_ok_check. vm_compute. reflexivity. Qed.

Lemma loop_entry : hasBlock loopFunction (entryBlock loopFunction) = true.
Proof. vm_compute. reflexivity. Qed.

Lemma loop_dominates : domReachable loopDominators 1 = true /\ domReachable loopDominators 3 = true /\
  dominates loopDominators 1 3 = Some true /\ dominates loopDominators 2 3 = Some false.
Proof. split_and!; vm_compute; reflexivity. Qed.

Lemma dominators_correct_witness :
  cfg_ok loopFunction /\ dominates loopDominators 1 3 = Some true /\ Dom loopFunction 1 3.
Proof.
  destruct loop_dominates as (R1 & R3 & D & _). split; [exact loop_cfg_ok|]. split; [exact D|].
  destruct (dominators_correct loopFunction loop_cfg_ok loop_entry) as (t & Ht & H).
  rewrite loopDominators_eq in Ht. apply (inj Some) in Ht. subst t.
  destruct (H 1%N 3%N) as (d & Hd & Hiff & _). rewrite D in Hd. apply (inj Some) in Hd. subst d.
  rewrite decide_True in Hiff by (exact (conj R1 R3)). exact (proj1 Hiff eq_refl).
Defined.

Lemma loop_reachable b : domReachable loopDominators b = true -> reachable loopFunction b.
Proof.
  intros Hb. destruct (dominators_computed loopFunction loop_cfg_ok loop_entry) as (order & t & Hrpo & Ht & Hdom).
  rewrite loopDominators_eq in Ht. apply (inj Some) in Ht. subst t.
  by apply (domReachable_ok loopFunction loop_cfg_ok loop_entry order loopDominators b).
Qed.

Lemma loop_idom : idomOf loopDominators 3 = Some 1%N.
Proof. vm_compute. reflexivity. Qed.

Lemma dominator_tree_correct_witness :
  idomOf loopDominators 3 = Some 1%N /\ Dom loopFunction 1 3 /\
  domDepth loopDominators 3 = domDepth loopDominators 1 + 1.
Proof.
  split; [exact loop_idom|].
  destruct (dominator_tree_correct loopFunction loop_cfg_ok loop_entry) as (order & t & _ & Ht & _ & H & _).
  rewrite loopDominators_eq in Ht. apply (inj Some) in Ht. subst t.
  destruct (H 3%N) as (q & Hq & _ & Hd & _ & Hdepth & _).
  - apply loop_reachable. vm_compute. reflexivity.
  - vm_compute. discriminate.
  - rewrite loop_idom in Hq. apply (inj Some) in Hq. subst q. split; [exact Hd|exact Hdepth].
Defined.

Lemma loop_frontier : frontierOf loopDominators 2 = Some {[1%N]}.
Proof. vm_compute. reflexivity. Qed.

Lemma frontier_correct_witness :
  frontierOf loopDominators 2 = Some {[1%N]} /\
  exists p, p ∈ predsOf loopFunction 1 /\ reachable loopFunction p /\ Dom loopFunction 2 p /\
    ~ (2 <> 1 /\ Dom loopFunction 2 1)%N.
Proof.
  split; [exact loop_frontier|].
  destruct (frontier_correct loopFunction loop_cfg_ok loop_entry) as (t & Ht & H).
  rewrite loopDominators_eq in Ht. apply (inj Some) in Ht. subst t.
  destruct (H 2%N 1%N) as (s & Hs & Hiff).
  - vm_compute. reflexivity.
  - apply loop_reachable. vm_compute. reflexivity.
  - vm_compute. discriminate.
  - rewrite loop_frontier in Hs. apply (inj Some) in Hs. subst s. apply Hiff. apply elem_of_singleton. reflexivity.
Defined.
