(* ===== verification/PostDominators.v ===== *)
(** * The post-dominator tree (analysis/dominators.cpp, PostDominators)

    The mirror of [Dominators] over the reversed edges, rooted at a virtual
    exit above every block without successors. Its iteration starts from
    unknown parents and takes an unknown parent for the virtual exit, so a loop
    between a block and its post-dominator keeps the post-dominator unfound. *)
From S2P Require Import Prelude Bits Types Exprs Registers Func Cfg Dominators DomProps.
Local Open Scope Z_scope.

Record PostDominators : Type := MkPostDominators { ipdom_ : list N; pdepth_ : list Z }.

(** One exit's depth-first search over predecessors: the stack (top first), the
    visited flags and the post-order so far. *)
Record ExitSearch : Type := MkExitSearch {
  exitStack : list (N * nat); exitVisited : list bool; postorder : list N }.

Definition exitStep (f : Function) (s : ExitSearch) : option ExitSearch :=
  match exitStack s with
  | [] => Some s
  | (block, next) :: rest =>
      b ← blockAtId f block;
      match predecessors b !! next with
      | Some pred =>
          seen ← arrayAt (exitVisited s) pred;
          if (seen : bool) then Some (MkExitSearch ((block, S next) :: rest) (exitVisited s) (postorder s))
          else Some (MkExitSearch ((pred, 0%nat) :: (block, S next) :: rest)
                       (arraySet (exitVisited s) pred true) (postorder s))
      | None => Some (MkExitSearch rest (exitVisited s) (postorder s ++ [block]))
      end
  end.

Fixpoint exitLoop (fuel : nat) (f : Function) (s : ExitSearch) : option ExitSearch :=
  match exitStack s with
  | [] => Some s
  | _ => match fuel with O => None | S fuel => s ← exitStep f s; exitLoop fuel f s end
  end.

(** One iteration per edge and one per block. *)
Definition exitFuel (f : Function) : nat :=
  sum_list_with (fun b => S (length (predecessors b))) (blocks f).

Fixpoint searchExits (f : Function) (exits : list N) (visited : list bool) (order : list N)
  : option (list N) :=
  match exits with
  | [] => Some order
  | exit :: exits =>
      seen ← arrayAt visited exit;
      if (seen : bool) then searchExits f exits visited order
      else
        s ← exitLoop (exitFuel f) f (MkExitSearch [(exit, 0%nat)] (arraySet visited exit true) order);
        searchExits f exits (exitVisited s) (postorder s)
  end.

(** [intersectForest]: one parent step per turn, stopping at the virtual root. *)
Fixpoint intersectForest (fuel : nat) (order parents : list N) (a b : N) : option N :=
  if (a =? b)%N then Some a
  else if negb (handleValid a) || negb (handleValid b) then Some kInvalidIndex
  else match fuel with
  | O => None
  | S fuel =>
      oa ← arrayAt order a; ob ← arrayAt order b;
      if (ob <? oa)%N then a ← arrayAt parents a; intersectForest fuel order parents a b
      else b ← arrayAt parents b; intersectForest fuel order parents a b
  end.

(** The loop over successors; [first] is set until one that reaches an exit was
    met, and meeting at the virtual root breaks the loop. *)
Fixpoint meetSuccessors (order parents : list N) (succs : list N) (first : bool) (newIpdom : N)
  : option N :=
  match succs with
  | [] => Some newIpdom
  | succ :: succs =>
      os ← arrayAt order succ;
      if (os =? kUnreachable)%N then meetSuccessors order parents succs first newIpdom
      else if first then meetSuccessors order parents succs false succ
      else
        m ← intersectForest (2 * length order) order parents newIpdom succ;
        if handleValid m then meetSuccessors order parents succs false m else Some m
  end.

Fixpoint ipdomPass (f : Function) (order : list N) (isExit : list bool) (rpo : list N)
    (s : list N * bool) : option (list N * bool) :=
  match rpo with
  | [] => Some s
  | block :: rpo =>
      let '(ipdom, changed) := s in
      exit ← arrayAt isExit block;
      if (exit : bool) then ipdomPass f order isExit rpo s
      else
        b ← blockAtId f block;
        newIpdom ← meetSuccessors order ipdom (successors b) true kInvalidIndex;
        old ← arrayAt ipdom block;
        ipdomPass f order isExit rpo
          (if (newIpdom =? old)%N then (ipdom, changed) else (arraySet ipdom block newIpdom, true))
  end.

Fixpoint ipdomLoop (fuel : nat) (f : Function) (order : list N) (isExit : list bool) (rpo ipdom : list N)
  : option (list N) :=
  match fuel with
  | O => None
  | S fuel =>
      '(ipdom, changed) ← ipdomPass f order isExit rpo (ipdom, false);
      if (changed : bool) then ipdomLoop fuel f order isExit rpo ipdom else Some ipdom
  end.

Fixpoint fillDepths (ipdom rpo : list N) (depth : list Z) : option (list Z) :=
  match rpo with
  | [] => Some depth
  | block :: rpo =>
      parentBlock ← arrayAt ipdom block;
      own ← arrayAt depth block;
      if handleValid parentBlock then
        d ← arrayAt depth parentBlock; fillDepths ipdom rpo (arraySet depth block (d + 1))
      else fillDepths ipdom rpo (if own <? 0 then arraySet depth block 0 else depth)
  end.

(** Marking each exit: [isExit] and depth zero. *)
Fixpoint markExits {A} (x : A) (exits : list N) (l : list A) : list A :=
  match exits with [] => l | e :: exits => markExits x exits (arraySet l e x) end.

Definition computePostDominators (passes : nat) (f : Function) : option PostDominators :=
  forward ← reversePostOrder f;
  let n := length (blocks f) in
  let exits := filter (fun b => succsOf f b = []) forward in
  if decide (exits = []) then Some (MkPostDominators (repeat kInvalidIndex n) (repeat (-1) n))
  else
    post ← searchExits f exits (repeat false n) [];
    let rpo := reverse post in
    let order := indexOrder 0 rpo (repeat kUnreachable n) in
    ipdom ← ipdomLoop passes f order (markExits true exits (repeat false n)) rpo (repeat kInvalidIndex n);
    depth ← fillDepths ipdom rpo (markExits 0 exits (repeat (-1) n));
    Some (MkPostDominators ipdom depth).

Definition reachesExit (t : PostDominators) (block : N) : bool :=
  match arrayAt (pdepth_ t) block with Some d => 0 <=? d | None => false end.

Definition ipdomOf (t : PostDominators) (block : N) : option N :=
  if negb (reachesExit t block) then Some kInvalidIndex else arrayAt (ipdom_ t) block.

Fixpoint walkUp (fuel : nat) (ipdom : list N) (a finger : N) : option bool :=
  if (finger =? a)%N then Some true
  else match fuel with
  | O => None
  | S fuel =>
      next ← arrayAt ipdom finger;
      if negb (handleValid next) then Some false else walkUp fuel ipdom a next
  end.

Definition postDominates (t : PostDominators) (a b : N) : option bool :=
  if negb (reachesExit t a) || negb (reachesExit t b) then Some (a =? b)%N
  else walkUp (length (ipdom_ t)) (ipdom_ t) a b.

(** ** What the class promises *)

(** A path from a block to an exit, the block first. *)
Inductive exitPath (f : Function) : N -> list N -> Prop :=
  | exit_here b : hasBlock f b = true -> succsOf f b = [] -> exitPath f b [b]
  | exit_edge b s l : edge f b s -> exitPath f s l -> exitPath f b (b :: l).

(** "every path from [b] to an exit passes through [a]" *)
Definition PostDom (f : Function) (a b : N) : Prop := forall l, exitPath f b l -> a ∈ l.

(** ** Two gaps *)

Lemma while_exit f :
  succsOf f 1 = [2; 3]%N -> succsOf f 2 = [1]%N ->
  forall b l, exitPath f b l -> b = 1%N \/ b = 2%N \/ b = 3%N -> 3%N ∈ l.
Proof.
  intros H1 H2. induction 1 as [b Hb Hs|b s l He Hl IH]; intros Hcase.
  - destruct Hcase as [->|[->| ->]]; [congruence|congruence|by apply elem_of_cons; left].
  - apply elem_of_cons. destruct Hcase as [->|[->| ->]]; [right|right|by left]; apply IH; unfold edge in He.
    + rewrite H1 in He. apply elem_of_cons in He as [->|He]; [by right; left|].
      apply list_elem_of_singleton in He as ->. by right; right.
    + rewrite H2 in He. apply list_elem_of_singleton in He as ->. by left.
Qed.

Definition loopPostDominators : PostDominators :=
  default (MkPostDominators [] []) (computePostDominators 3 loopFunction).

(** The post-dominator tree misses post-dominators of loops: in a while loop
    every path from the header to an exit passes through the block after the
    loop, but the header's parent stays the virtual exit, because the body's
    parent is unknown when the header is first met and is taken for the root;
    [postDominates] then says no, for the header and for the body. *)
Theorem post_dominators_miss_loops :
  exists t, computePostDominators 3 loopFunction = Some t /\
    PostDom loopFunction 3 1 /\ PostDom loopFunction 3 2 /\
    ipdomOf t 1 = Some kInvalidIndex /\ postDominates t 3 1 = Some false /\ postDominates t 3 2 = Some false.
Proof.
  assert (succsOf loopFunction 1 = [2; 3]%N) as H1 by (vm_compute; reflexivity).
  assert (succsOf loopFunction 2 = [1]%N) as H2 by (vm_compute; reflexivity).
  pose proof (while_exit loopFunction H1 H2) as Hall. clear H1 H2.
  assert (exists t, computePostDominators 3 loopFunction = Some t /\ ipdomOf t 1 = Some kInvalidIndex /\
    postDominates t 3 1 = Some false /\ postDominates t 3 2 = Some false) as (t & Ht & Hrest).
  { exists loopPostDominators. split_and!; vm_compute; reflexivity. }
  exists t. split; [exact Ht|]. split; [intros l Hl; exact (Hall 1%N l Hl (or_introl eq_refl))|].
  split; [intros l Hl; exact (Hall 2%N l Hl (or_intror (or_introl eq_refl)))|exact Hrest].
Qed.

(** A countdown loop that starts at the function's first block: block 0 branches
    to itself or leaves to block 1. *)
Definition entryLoopBuilder : M unit :=
  b0 ← createBlock 0; b1 ← createBlock 16;
  c ← undefined booleanType;
  appendCondBranch b0 0 c b0 b1;; appendReturn b1 16;;
  mret tt.

Definition entryLoopUnlinked : Function := runBuilder entryLoopBuilder (newFunction emptyRegisterFile 0).
Definition entryLoopFunction : Function := default entryLoopUnlinked (rebuildEdges entryLoopUnlinked).

Definition entryLoopDominators : Dominators :=
  default (MkDominators [] [] [] [] [] []) (computeDominators entryLoopFunction).

(** The dominance frontier misses a loop back to the entry: when the first
    block is a loop's header, it dominates its own predecessor and does not
    strictly dominate itself, so it is a join by definition; but its frontier is
    empty, and a phi that the loop needs there is not placed. *)
Theorem frontier_misses_entry_loop :
  exists t, computeDominators entryLoopFunction = Some t /\
    entryBlock entryLoopFunction = 0%N /\ 0%N ∈ predsOf entryLoopFunction 0 /\
    Dom entryLoopFunction 0 0 /\ ~ (0 <> 0 /\ Dom entryLoopFunction 0 0)%N /\ frontierOf t 0 = Some ∅.
Proof.
  assert (exists t, computeDominators entryLoopFunction = Some t /\ frontierOf t 0 = Some ∅) as (t & Ht & Hf).
  { exists entryLoopDominators. split; vm_compute; reflexivity. }
  exists t. split; [exact Ht|]. split; [vm_compute; reflexivity|].
  split; [|split; [apply Dom_refl|split; [intros [H _]; exact (H eq_refl)|exact Hf]]].
  assert (predsOf entryLoopFunction 0 = [0%N]) as -> by (vm_compute; reflexivity). apply elem_of_cons. left. reflexivity.
Qed.
