(* ===== verification/Scc.v ===== *)
(** * Strongly connected components (analysis/scc.h, scc.cpp)

    Tarjan's algorithm with its two explicit stacks: the blocks not yet given to
    a component, and the search with the next successor to look at. Numbers and
    low links are per-block arrays, as in [Dominators]. *)
From S2P Require Import Prelude Bits Types Exprs Registers Func Cfg Dominators.
Local Open Scope N_scope.

(** [Sccs::Component] and [Sccs]'s members. *)
Record Component : Set := MkComponent { compBlocks : list N; cyclic : bool }.
Record Sccs : Set := MkSccs { components_ : list Component; membership_ : list N }.

Definition kUnvisited : N := kInvalidIndex.

(** [compute]'s variables; both stacks have their top first. *)
Record Tarjan : Set := MkTarjan {
  tjIndex : list N; tjLowlink : list N; tjOnStack : list bool; tjStack : list N; tjNext : N;
  tjDfs : list (N * nat); tjSccs : Sccs }.

(** The lambda [push]. *)
Definition pushBlock (block : N) (s : Tarjan) : Tarjan :=
  MkTarjan (arraySet (tjIndex s) block (tjNext s)) (arraySet (tjLowlink s) block (tjNext s))
    (arraySet (tjOnStack s) block true) (block :: tjStack s) ((tjNext s + 1) mod 2 ^ 32) ((block, 0%nat) :: tjDfs s) (tjSccs s).

Definition withDfs (s : Tarjan) (dfs : list (N * nat)) : Tarjan :=
  MkTarjan (tjIndex s) (tjLowlink s) (tjOnStack s) (tjStack s) (tjNext s) dfs (tjSccs s).

(** [lowlink[block] = std::min(lowlink[block], value)]. *)
Definition lowerLink (block value : N) (s : Tarjan) : option Tarjan :=
  low ← arrayAt (tjLowlink s) block;
  Some (MkTarjan (tjIndex s) (arraySet (tjLowlink s) block (N.min low value)) (tjOnStack s) (tjStack s) (tjNext s) (tjDfs s) (tjSccs s)).

(** The [do] loop: the members popped, the stack left and the flags. *)
Fixpoint popThrough (block : N) (stack : list N) (onStack : list bool) : option (list N * list N * list bool) :=
  match stack with
  | [] => None
  | member :: stack =>
      let onStack := arraySet onStack member false in
      if member =? block then Some ([member], stack, onStack)
      else '(members, stack, onStack) ← popThrough block stack onStack; Some (member :: members, stack, onStack)
  end.

Definition isCyclic (f : Function) (members : list N) : option bool :=
  match members with
  | [only] => b ← blockAtId f only; Some (bool_decide (only ∈ successors b))
  | _ => Some true
  end.

Fixpoint assignMembers (members : list N) (component : N) (membership : list N) : list N :=
  match members with
  | [] => membership
  | b :: members => assignMembers members component (arraySet membership b component)
  end.

(** The block is the root of a component. *)
Definition closeComponent (f : Function) (block : N) (s : Tarjan) : option Tarjan :=
  '(members, stack, onStack) ← popThrough block (tjStack s) (tjOnStack s);
  cyclic ← isCyclic f members;
  let sccs := tjSccs s in
  Some (MkTarjan (tjIndex s) (tjLowlink s) onStack stack (tjNext s) (tjDfs s)
    (MkSccs (components_ sccs ++ [MkComponent members cyclic])
      (assignMembers members (N.of_nat (length (components_ sccs))) (membership_ sccs)))).

(** One iteration of [while (!dfs.empty())]. *)
Definition tarjanStep (f : Function) (s : Tarjan) : option Tarjan :=
  match tjDfs s with
  | [] => Some s
  | (block, nextSucc) :: rest =>
      b ← blockAtId f block;
      match successors b !! nextSucc with
      | Some succ =>
          let s := withDfs s ((block, S nextSucc) :: rest) in
          number ← arrayAt (tjIndex s) succ;
          if number =? kUnvisited then Some (pushBlock succ s)
          else
            on ← arrayAt (tjOnStack s) succ;
            if (on : bool) then lowerLink block number s else Some s
      | None =>
          let s := withDfs s rest in
          low ← arrayAt (tjLowlink s) block;
          number ← arrayAt (tjIndex s) block;
          s ← (if low =? number then closeComponent f block s else Some s);
          match rest with
          | [] => Some s
          | (parent, _) :: _ => low ← arrayAt (tjLowlink s) block; lowerLink parent low s
          end
      end
  end.

Fixpoint tarjan (fuel : nat) (f : Function) (s : Tarjan) : option Sccs :=
  match tjDfs s with
  | [] => Some (tjSccs s)
  | _ => match fuel with O => None | S fuel => s ← tarjanStep f s; tarjan fuel f s end
  end.

Definition computeSccs (f : Function) : option Sccs :=
  let n := length (blocks f) in
  let result := MkSccs [] (repeat kInvalidIndex n) in
  let entry := entryBlock f in
  if negb (handleValid entry) || (N.of_nat n <=? entry) then Some result
  else
    let s := MkTarjan (repeat kUnvisited n) (repeat 0 n) (repeat false n) [] 0 [] result in
    tarjan (searchFuel f) f (pushBlock entry s).

Definition componentOf (t : Sccs) (block : N) : N :=
  if (block <? N.of_nat (length (membership_ t))) then default kInvalidIndex (arrayAt (membership_ t) block) else kInvalidIndex.

(** The header and the body of the loop are one component. *)
Example loop_sccs :
  (fun t => (fun c => (compBlocks c, cyclic c)) <$> components_ t) <$> computeSccs loopFunction =
  Some [([3], false); ([2; 1], true); ([0], false)].
Proof. vm_compute. reflexivity. Qed.
