(* ===== verification/SccProps.v ===== *)
(** * What Tarjan's algorithm computes

    An invariant of its two stacks over any numbering; the components are the
    classes of mutual reachability, in reverse topological order. *)
From S2P Require Import Prelude Bits Types Exprs Registers Func Cfg Dominators DomProps Scc.
From stdpp Require Import relations sorting.
Local Open Scope N_scope.

Section Tarjan.
Context (f : Function).
Abbreviation E := (edge f).

(** ** Components *)

Definition connected (x y : N) : Prop := rtc E x y /\ rtc E y x.
Definition closedBlocks (comps : list Component) : list N := List.concat (compBlocks <$> comps).

(** Each is a class of mutual reachability, its edges lead to itself and the ones
    before it, and its flag says whether it has a cycle. *)
Record comp_ok (comps : list Component) (k : nat) (c : Component) : Prop := {
  co_some : exists r, r ∈ compBlocks c;
  co_class : forall x y, x ∈ compBlocks c -> y ∈ compBlocks c <-> connected x y;
  co_before : forall x y, x ∈ compBlocks c -> E x y -> exists j c', (j <= k)%nat /\ comps !! j = Some c' /\ y ∈ compBlocks c';
  co_cyclic : cyclic c = true <-> exists x, x ∈ compBlocks c /\ tc E x x }.
Definition comps_ok (comps : list Component) : Prop := forall k c, comps !! k = Some c -> comp_ok comps k c.

Lemma elem_of_closed comps x : x ∈ closedBlocks comps <-> exists k c, comps !! k = Some c /\ x ∈ compBlocks c.
Proof.
  unfold closedBlocks. rewrite list_elem_of_In, in_concat. split.
  - intros (l & (c & -> & Hc)%list_elem_of_In%list_elem_of_fmap & Hx%list_elem_of_In). apply list_elem_of_lookup in Hc as [k Hk]. by exists k, c.
  - intros (k & c & Hk & Hx). exists (compBlocks c). split; [|by apply list_elem_of_In].
    apply list_elem_of_In, list_elem_of_fmap_2. by eapply list_elem_of_lookup_2.
Qed.

Lemma closedBlocks_app comps c : closedBlocks (comps ++ [c]) = closedBlocks comps ++ compBlocks c.
Proof. unfold closedBlocks. rewrite fmap_app, concat_app. cbn. by rewrite app_nil_r. Qed.

Lemma closed_edge comps x y : comps_ok comps -> x ∈ closedBlocks comps -> E x y -> y ∈ closedBlocks comps.
Proof.
  intros Hok (k & c & Hk & Hx)%elem_of_closed Hxy. destruct (co_before _ _ _ (Hok k c Hk) x y Hx Hxy) as (j & c' & _ & Hj & Hy).
  apply elem_of_closed. by exists j, c'.
Qed.

Lemma closed_rtc (P : N -> Prop) x y : (forall a b, P a -> E a b -> P b) -> P x -> rtc E x y -> P y.
Proof. intros HP Hx. induction 1; [done|eauto]. Qed.

(** A new component with nothing but itself and the earlier ones to go to. *)
Lemma comps_ok_snoc comps c :
  comps_ok comps -> (exists r, r ∈ compBlocks c) ->
  (forall x y, x ∈ compBlocks c -> y ∈ compBlocks c -> rtc E x y) ->
  (forall x y, x ∈ compBlocks c -> E x y -> y ∈ compBlocks c \/ y ∈ closedBlocks comps) ->
  (forall x, x ∈ compBlocks c -> x ∉ closedBlocks comps) ->
  (cyclic c = true <-> exists x, x ∈ compBlocks c /\ tc E x x) -> comps_ok (comps ++ [c]).
Proof.
  intros Hok Hsome Hconn Hedge Hnew Hcyc k d Hk. apply lookup_snoc_Some in Hk as [[Hlt Hk]|[-> <-]].
  - destruct (Hok k d Hk) as [H1 H2 H3 H4]. split; [done..| |done]. intros x y Hx Hxy. destruct (H3 x y Hx Hxy) as (j & c' & ? & Hj & ?).
    exists j, c'. split_and!; [done|by apply lookup_app_l_Some|done].
  - split; [done| | |done].
    + intros x y Hx. split; [intros Hy; split; auto|]. intros [Hxy Hyx].
      assert (y ∈ compBlocks c \/ y ∈ closedBlocks comps) as [|Hy]; [|done|].
      { eapply (closed_rtc (fun y => y ∈ compBlocks c \/ y ∈ closedBlocks comps)); [|by left|done].
        intros a b [Ha|Ha] Hab; [by apply (Hedge a)|right; by eapply closed_edge]. }
      exfalso. apply (Hnew x Hx). eapply (closed_rtc (fun y => y ∈ closedBlocks comps)); [|done|done]. intros a b. by apply closed_edge.
    + intros x y Hx Hxy. destruct (Hedge x y Hx Hxy) as [Hy|(j & c' & Hj & Hy)%elem_of_closed].
      * exists (length comps), c. split_and!; [done|by apply lookup_snoc_Some; right|done].
      * exists j, c'. pose proof (lookup_lt_Some _ _ _ Hj). split_and!; [lia|by apply lookup_app_l_Some|done].
Qed.

(** A set of connected blocks that leads to itself and to closed blocks only has
    a cycle if it has two members or one with an edge to itself. *)
Lemma cyclic_members members (closed : N -> Prop) b c :
  members = b :: c -> NoDup members ->
  (forall x y, x ∈ members -> y ∈ members -> rtc E x y) ->
  (forall x y, x ∈ members -> E x y -> y ∈ members \/ closed y) ->
  (forall x y, closed x -> E x y -> closed y) -> (forall x, x ∈ members -> ~ closed x) ->
  (exists x, x ∈ members /\ tc E x x) <-> c <> [] \/ E b b.
Proof.
  intros -> Hnd Hconn Hedge Hclosed Hnot. split.
  - intros (x & Hx & Hxx). destruct c as [|d c]; [right|by left]. apply list_elem_of_singleton in Hx as ->.
    assert (exists y, E b y /\ rtc E y b) as (y & Hby & Hyb) by (inversion Hxx; subst; [by exists b|eexists; split; [done|by apply tc_rtc]]).
    destruct (Hedge b y ltac:(by left) Hby) as [->%list_elem_of_singleton|Hy]; [done|]. exfalso. apply (Hnot b ltac:(by left)).
    by eapply (closed_rtc closed).
  - intros [Hc|Hbb]; [|exists b; split; [by left|by apply tc_once]]. destruct c as [|d c]; [done|]. exists b. split; [by left|].
    apply NoDup_cons in Hnd as [Hne _]. pose proof (Hconn b d ltac:(by left) ltac:(right; by left)) as H1. pose proof (Hconn d b ltac:(right; by left) ltac:(by left)) as H2.
    apply rtc_tc in H1 as [->|H1]; [by exfalso; apply Hne; left|]. by eapply tc_rtc_r.
Qed.

(** ** The invariant of the stacks *)

(** The edges the search has looked at. *)
Definition scanned (D : list (N * nat)) (x y : N) : Prop :=
  (x ∉ D.*1 /\ E x y) \/ exists i, (x, i) ∈ D /\ y ∈ take i (succsOf f x).

(** The block of the search that a block of the stack lies above. *)
Definition owner (idx : N -> N) (D : list (N * nat)) (b x : N) : Prop :=
  b ∈ D.*1 /\ idx b <= idx x /\ forall g, g ∈ D.*1 -> idx g <= idx x -> idx g <= idx b.

Definition descending (idx : N -> N) : list N -> Prop := StronglySorted (fun a b => idx b < idx a).

Record inv (idx low : N -> N) (T : list N) (D : list (N * nat)) (comps : list Component) (next : N) : Prop := {
  iv_sorted : descending idx T;
  iv_dfs : descending idx D.*1;
  iv_gray : forall b, b ∈ D.*1 -> b ∈ T;
  iv_nodup : NoDup (T ++ closedBlocks comps);
  iv_next : forall b, b ∈ T -> idx b < next;
  iv_unvisited : forall b, idx b = kUnvisited <-> b ∉ T ++ closedBlocks comps;
  iv_count : next = N.of_nat (length (T ++ closedBlocks comps));
  iv_reach : forall b, b ∈ T ++ closedBlocks comps -> reachable f b;
  iv_down : forall x y, x ∈ T -> y ∈ T -> idx x <= idx y -> rtc E x y;
  iv_up : forall x, x ∈ T -> exists g, g ∈ D.*1 /\ idx g <= idx x /\ rtc E x g;
  iv_low : forall b, b ∈ D.*1 -> low b <= idx b /\ exists l, l ∈ T /\ idx l = low b /\ rtc E b l;
  iv_scan : forall x y, x ∈ T -> scanned D x y -> y ∈ T ++ closedBlocks comps;
  iv_owner : forall b x y, x ∈ T -> owner idx D b x -> scanned D x y -> y ∈ T -> low b <= idx y;
  iv_comps : comps_ok comps }.

Lemma descending_inj idx l x y : descending idx l -> x ∈ l -> y ∈ l -> idx x = idx y -> x = y.
Proof.
  induction 1 as [|a l Hl IH Ha]; [by intros []%elem_of_nil|]. rewrite Forall_forall in Ha.
  intros [->|Hx]%elem_of_cons [->|Hy]%elem_of_cons He; [done| | |by apply IH].
  - specialize (Ha y Hy). lia.
  - specialize (Ha x Hx). lia.
Qed.

(** The top block of the search lies above all of the search and owns what lies
    above it. *)
Lemma top_greatest idx b (i : nat) D g : descending idx ((b, i) :: D).*1 -> g ∈ ((b, i) :: D).*1 -> idx g <= idx b.
Proof.
  cbn. intros [_ Hall]%StronglySorted_inv [->|Hg]%elem_of_cons; [done|]. rewrite Forall_forall in Hall. specialize (Hall g Hg). cbn in Hall. lia.
Qed.

Lemma top_owner idx b (i : nat) D x : descending idx ((b, i) :: D).*1 -> idx b <= idx x -> owner idx ((b, i) :: D) b x.
Proof. intros Hd Hx. split_and!; [by left|done|]. intros g Hg _. by eapply top_greatest. Qed.

(** Everything on the stack reaches the top block of the search. *)
Lemma reach_top idx low T b i D comps next x :
  inv idx low T ((b, i) :: D) comps next -> x ∈ T -> rtc E x b.
Proof.
  intros Hi Hx. destruct (iv_up _ _ _ _ _ _ Hi x Hx) as (g & Hg & _ & Hxg). etrans; [exact Hxg|].
  apply (iv_down _ _ _ _ _ _ Hi); [by apply (iv_gray _ _ _ _ _ _ Hi)|apply (iv_gray _ _ _ _ _ _ Hi); by left|].
  eapply top_greatest; [by eapply iv_dfs|done].
Qed.

(** The search only depends on its blocks and on how far each has been looked at. *)
Lemma scanned_top D b i x y : scanned ((b, S i) :: D) x y ->
  scanned ((b, i) :: D) x y \/ (x = b /\ succsOf f b !! i = Some y).
Proof.
  intros [[Hx Hxy]|(j & [[= -> ->]|Hj]%elem_of_cons & Hy)]; [by left; left| |left; right; exists j; split; [by right|done]].
  destruct (succsOf f b !! i) as [z|] eqn:Ez.
  - rewrite (take_S_r _ _ z) in Hy by done. apply elem_of_app in Hy as [Hy| ->%list_elem_of_singleton]; [left; right; exists i; split; [by left|done]|by right].
  - left. right. exists i. split; [by left|]. apply lookup_ge_None in Ez. rewrite take_ge in Hy |- * by lia. done.
Qed.

Lemma lookup_edge b i y : succsOf f b !! i = Some y -> E b y.
Proof. intros H. by eapply list_elem_of_lookup_2. Qed.

Definition setAt (g : N -> N) (b v : N) (c : N) : N := if decide (c = b) then v else g c.

(** *** A successor with a number *)

Lemma inv_seen idx low T b i D comps next y low' :
  inv idx low T ((b, i) :: D) comps next -> succsOf f b !! i = Some y -> idx y <> kUnvisited ->
  (forall c, low' c = if bool_decide (y ∈ T) then setAt low b (N.min (low b) (idx y)) c else low c) ->
  inv idx low' T ((b, S i) :: D) comps next.
Proof.
  intros Hi Hy Hidx Hlow. pose proof Hi as [Hs Hd Hg Hn Hnx Hu Hc Hr Hdo Hup Hl Hsc How Hco].
  assert (y ∈ T ++ closedBlocks comps) as Hvis by (destruct (decide (y ∈ T ++ closedBlocks comps)) as [|Hno]; [done|by apply Hu in Hno]).
  assert (forall c, low' c <= low c) as Hless.
  { intros c. rewrite Hlow. case_bool_decide; [|done]. unfold setAt. case_decide; [subst; lia|done]. }
  split; try done.
  - intros c Hcg. specialize (Hl c Hcg) as (Hle & l & Hlt & Hli & Hcl). split; [specialize (Hless c); lia|].
    rewrite Hlow. case_bool_decide as HyT; [|by exists l]. unfold setAt. case_decide as Hcb; [subst c|by exists l].
    destruct (N.min_spec (low b) (idx y)) as [[_ ->]|[_ ->]]; [by exists l|]. exists y. split_and!; [done..|]. by eapply rtc_once, lookup_edge.
  - intros x z Hx [Hsz|[-> Hz]]%scanned_top; [by apply (Hsc x)|]. congruence.
  - intros c x z Hx Ho [Hsz|[-> Hz]]%scanned_top HzT; [pose proof (How c x z Hx Ho Hsz HzT); specialize (Hless c); lia|].
    assert (z = y) as -> by congruence. rewrite Hlow, bool_decide_true by done.
    destruct Ho as (Hcg & Hcb & Hmax). assert (c = b) as ->.
    { apply (descending_inj idx T); [done|by apply Hg|apply Hg; by left|].
      apply N.le_antisymm; [done|]. apply Hmax; [by left|done]. }
    unfold setAt. rewrite decide_True by done. lia.
Qed.

(** *** A successor without one *)

Section Push.
Context (idx low : N -> N) (T : list N) (b : N) (i : nat) (D : list (N * nat)) (comps : list Component) (next y : N) (idx' low' : N -> N).
Context (Hi : inv idx low T ((b, i) :: D) comps next) (Hy : succsOf f b !! i = Some y) (Hidx : idx y = kUnvisited) (Hnext : next < kUnvisited).
Context (Hi' : forall c, idx' c = setAt idx y next c) (Hl' : forall c, low' c = setAt low y next c).

Lemma pushed_new : y ∉ T ++ closedBlocks comps.
Proof using Hi Hidx. by apply (iv_unvisited _ _ _ _ _ _ Hi). Qed.
Lemma pushed_off : y ∉ T.
Proof using Hi Hidx. intros ?. apply pushed_new, elem_of_app. by left. Qed.

Lemma pushed_old x : x ∈ T -> idx' x = idx x /\ low' x = low x /\ idx x < next.
Proof using Hi Hidx Hi' Hl'.
  intros Hx. rewrite Hi', Hl'. unfold setAt. pose proof pushed_off. rewrite !decide_False by congruence.
  split_and!; [done..|by apply (iv_next _ _ _ _ _ _ Hi)].
Qed.

Lemma pushed_number : idx' y = next /\ low' y = next.
Proof using Hi' Hl'. rewrite Hi', Hl'. unfold setAt. by rewrite !decide_True. Qed.

Lemma pushed_descending l : (forall x, x ∈ l -> x ∈ T) -> descending idx l -> descending idx' (y :: l).
Proof using All.
  intros Hl0 Hdl. constructor; [|apply Forall_forall; intros x Hx; destruct pushed_number, (pushed_old x (Hl0 x Hx)) as (? & _ & ?); lia].
  induction Hdl as [|a l Hdl IH Ha]; [constructor|]. constructor; [apply IH; intros x Hx; apply Hl0; by right|].
  rewrite Forall_forall in Ha |- *. intros x Hx.
  rewrite (proj1 (pushed_old x (Hl0 x ltac:(by right)))), (proj1 (pushed_old a (Hl0 a ltac:(by left)))). by apply Ha.
Qed.

(** The new block has not been looked at, and its parent a step further. *)
Lemma pushed_scanned x z : x ∈ y :: T -> scanned ((y, 0%nat) :: (b, S i) :: D) x z ->
  x ∈ T /\ (scanned ((b, i) :: D) x z \/ z = y).
Proof using Hi Hidx Hy.
  intros Hx Hsz. assert (x ∈ T) as HxT.
  { apply elem_of_cons in Hx as [->|]; [|done]. exfalso. destruct Hsz as [[Hxn _]|(j & [[= ->]|Hj]%elem_of_cons & Hz)].
    - apply Hxn. by left.
    - by apply elem_of_nil in Hz.
    - apply pushed_off, (iv_gray _ _ _ _ _ _ Hi). apply (list_elem_of_fmap_2 fst) in Hj. exact Hj. }
  split; [done|]. destruct (scanned_top D b i x z) as [|[-> Hz]]; [|by left|right; congruence].
  destruct Hsz as [[Hxn Hxz]|(j & [[= -> ->]|Hj]%elem_of_cons & Hz)]; [|by apply elem_of_nil in Hz|right; by exists j].
  left. split; [|done]. cbn in Hxn |- *. by apply not_elem_of_cons in Hxn as [_ ?].
Qed.

Lemma inv_push : inv idx' low' (y :: T) ((y, 0%nat) :: (b, S i) :: D) comps (next + 1).
Proof using All.
  pose proof Hi as [Hs Hd Hg Hn Hnx Hu Hc Hr Hdo Hup Hl Hsc How Hco]. pose proof pushed_new as Hnew. destruct pushed_number as [Hy1 Hy2].
  assert (b ∈ T) as HbT by (apply Hg; by left). assert (E b y) as Hby by by eapply lookup_edge.
  split.
  - by apply pushed_descending.
  - change (descending idx' (y :: b :: D.*1)). by apply pushed_descending.
  - intros c [->|Hc']%elem_of_cons; [by left|right; by apply Hg].
  - cbn. by constructor.
  - intros c [->|Hc']%elem_of_cons; [lia|]. destruct (pushed_old c Hc') as (? & _ & ?). lia.
  - intros c. rewrite Hi'. unfold setAt. cbn. rewrite not_elem_of_cons. case_decide as Hcy; [subst c|by rewrite Hu; tauto].
    split; [lia|by intros []].
  - cbn. lia.
  - intros c [->|Hc']%elem_of_cons; [|by apply Hr]. eapply rtc_r; [apply (Hr b), elem_of_app; by left|done].
  - intros x z [->|Hx]%elem_of_cons [->|Hz]%elem_of_cons Hle; [done| | |].
    + destruct (pushed_old z Hz) as (? & _ & ?). lia.
    + eapply rtc_r; [by eapply reach_top|done].
    + apply Hdo; [done..|]. by rewrite <- (proj1 (pushed_old x Hx)), <- (proj1 (pushed_old z Hz)).
  - intros x [->|Hx]%elem_of_cons; [exists y; split_and!; [by left|done|done]|].
    destruct (Hup x Hx) as (g & Hgg & Hle & Hxg). exists g. split_and!; [by right| |done].
    rewrite (proj1 (pushed_old g (Hg g Hgg))), (proj1 (pushed_old x Hx)). done.
  - intros c Hc'. cbn in Hc'. apply elem_of_cons in Hc' as [->|Hc']; [rewrite Hy1, Hy2; split; [done|exists y; by split_and!; [left| |]]|].
    destruct (Hl c Hc') as (Hle & l & HlT & Hli & Hcl). rewrite (proj1 (proj2 (pushed_old c (Hg c Hc')))), (proj1 (pushed_old c (Hg c Hc'))). split; [done|].
    exists l. split_and!; [by right|by rewrite (proj1 (pushed_old l HlT))|done].
  - intros x z Hx Hsz. destruct (pushed_scanned x z Hx Hsz) as [HxT [Hz| ->]]; [right; by apply (Hsc x)|by left].
  - intros c x z Hx Ho Hsz HzT. destruct (pushed_scanned x z Hx Hsz) as [HxT Hor].
    destruct (pushed_old x HxT) as (Hix & _ & Hxl). destruct Ho as (Hcg & Hcx & Hmax). cbn in Hcg. apply elem_of_cons in Hcg as [->|Hcg]; [lia|].
    pose proof (Hg c Hcg) as HcT. destruct (pushed_old c HcT) as (Hic & -> & Hcl).
    destruct Hor as [Hz| ->]; [|rewrite Hy1; pose proof (proj1 (Hl c Hcg)); lia].
    apply elem_of_cons in HzT as [->|HzT]; [by exfalso; apply Hnew, (Hsc x)|]. rewrite (proj1 (pushed_old z HzT)). apply (How c x z); try done.
    split_and!; [done|by rewrite <- Hic, <- Hix|]. intros g Hgg Hgx. rewrite <- Hic, <- (proj1 (pushed_old g (Hg g Hgg))). apply Hmax; [by right|].
    by rewrite (proj1 (pushed_old g (Hg g Hgg))), Hix.
  - done.
Qed.
End Push.

(** *** A block whose successors have all been looked at *)

Lemma scanned_pop D b i x y : succsOf f b !! i = None -> scanned D x y -> scanned ((b, i) :: D) x y.
Proof.
  intros Hi [[Hx Hxy]|(j & Hj & Hy)]; [|right; exists j; split; [by right|done]].
  destruct (decide (x = b)) as [->|Hne]; [right; exists i; split; [by left|]|left; split; [|done]].
  - rewrite take_ge; [done|]. by apply lookup_ge_None.
  - cbn. by apply not_elem_of_cons.
Qed.

(** The parent's low link takes in that of the block. *)
Definition lowered (low : N -> N) (b : N) (D : list (N * nat)) (c : N) : N :=
  match D with [] => low c | (p, _) :: _ => setAt low p (N.min (low p) (low b)) c end.

Lemma lowered_le low b D c : lowered low b D c <= low c.
Proof. unfold lowered, setAt. destruct D as [|[p j] D]; [done|]. case_decide; [subst; lia|done]. Qed.

Lemma dfs_below idx b (i : nat) D c : descending idx ((b, i) :: D).*1 -> c ∈ D.*1 -> idx c < idx b.
Proof. intros [_ Hall]%StronglySorted_inv Hc. rewrite Forall_forall in Hall. by apply Hall. Qed.

Lemma owner_pop idx D b (i : nat) c x : idx x < idx b -> owner idx D c x -> owner idx ((b, i) :: D) c x.
Proof.
  intros Hlt (Hc & Hcx & Hmax). split_and!; [by right|done|]. intros g Hg Hgx. cbn in Hg. apply elem_of_cons in Hg as [->|Hg]; [lia|by apply Hmax].
Qed.

(** Not the root of a component. *)
Lemma inv_keep idx low T b i D comps next low' :
  inv idx low T ((b, i) :: D) comps next -> succsOf f b !! i = None -> low b <> idx b ->
  (forall c, low' c = lowered low b D c) -> inv idx low' T D comps next.
Proof.
  intros Hi Hend Hroot Hlow. pose proof Hi as [Hs Hd Hg Hn Hnx Hu Hc Hr Hdo Hup Hl Hsc How Hco].
  destruct (Hl b ltac:(by left)) as (Hlb & l & HlT & Hli & Hbl). assert (b ∈ T) as HbT by (apply Hg; by left).
  assert (forall c, low' c <= low c) as Hle by (intros c; rewrite Hlow; apply lowered_le).
  destruct (Hup l HlT) as (g & Hgg & Hgl & Hlg). cbn in Hgg. apply elem_of_cons in Hgg as [->|Hgg]; [lia|].
  assert (exists p j D', D = (p, j) :: D' /\ p ∈ D.*1) as (p & j & D' & HD & Hp).
  { destruct D as [|[p j] D']; [by apply elem_of_nil in Hgg|]. exists p, j, D'. split; [done|by left]. }
  pose proof (dfs_below idx b i D p Hd Hp) as Hpb.
  assert (low' p = N.min (low p) (low b)) as Hlp by (rewrite Hlow, HD; unfold lowered, setAt; by rewrite decide_True).
  split; try done.
  - by apply StronglySorted_inv in Hd as [? _].
  - intros c Hc'. apply Hg. by right.
  - intros x Hx. destruct (Hup x Hx) as (h & Hh & Hhx & Hxh). cbn in Hh. apply elem_of_cons in Hh as [->|Hh]; [|by exists h].
    exists g. split_and!; [done|lia|]. etrans; [exact Hxh|]. by etrans.
  - intros c Hc'. destruct (Hl c ltac:(by right)) as (Hlc & lc & HlcT & Hlci & Hcl). split; [specialize (Hle c); lia|].
    destruct (decide (c = p)) as [->|Hne].
    + rewrite Hlp. destruct (N.min_spec (low p) (low b)) as [[_ ->]|[_ ->]]; [by exists lc|]. exists l. split_and!; [done..|].
      etrans; [apply (Hdo p b); [apply Hg; by right|done|lia]|done].
    + exists lc. split_and!; [done| |done]. rewrite Hlow, HD. unfold lowered, setAt. by rewrite decide_False.
  - intros x y Hx Hxy. apply (Hsc x); [done|by apply scanned_pop].
  - intros c x y Hx Ho Hxy Hy. apply (scanned_pop _ b i) in Hxy; [|done]. destruct (N.ltb_spec (idx x) (idx b)) as [Hlt|Hge].
    + pose proof (How c x y Hx (owner_pop _ _ _ _ _ _ Hlt Ho) Hxy Hy). specialize (Hle c). lia.
    + pose proof (How b x y Hx (top_owner _ _ _ _ _ Hd Hge) Hxy Hy). destruct Ho as (HcD & Hcx & Hmax).
      assert (c = p) as ->; [|lia]. apply (descending_inj idx T); [done|apply Hg; by right..|].
      apply N.le_antisymm; [|apply Hmax; [done|lia]]. apply StronglySorted_inv in Hd as [Hd _]. rewrite HD in Hd, HcD. by eapply top_greatest.
Qed.

(** The root of a component and what lies above it on the stack. *)
Section Root.
Context (idx low : N -> N) (b : N) (i : nat) (D : list (N * nat)) (comps : list Component) (next : N) (pre T' : list N).
Context (Hinv : inv idx low (pre ++ b :: T') ((b, i) :: D) comps next) (Hend : succsOf f b !! i = None) (Hroot : low b = idx b).
Abbreviation members := (pre ++ [b]).

Lemma members_stack : pre ++ b :: T' = members ++ T'.
Proof. by rewrite <- app_assoc. Qed.

Lemma below_root x : x ∈ T' -> idx x < idx b.
Proof using Hinv.
  intros Hx. pose proof (iv_sorted _ _ _ _ _ _ Hinv) as Hs. rewrite members_stack in Hs.
  eapply (StronglySorted_app_1_elem_of (fun a b => idx b < idx a)); [exact Hs|apply elem_of_app; right; by left|done].
Qed.

Lemma above_root x : x ∈ members -> idx b <= idx x.
Proof using Hinv.
  intros [Hx| ->%list_elem_of_singleton]%elem_of_app; [|done]. pose proof (iv_sorted _ _ _ _ _ _ Hinv) as Hs.
  apply N.lt_le_incl. eapply (StronglySorted_app_1_elem_of (fun a b => idx b < idx a)); [exact Hs|done|by left].
Qed.

Lemma members_on x : x ∈ members -> x ∈ pre ++ b :: T'.
Proof. rewrite members_stack. intros Hx. apply elem_of_app. by left. Qed.

Lemma members_connected x y : x ∈ members -> y ∈ members -> rtc E x y.
Proof using Hinv.
  intros Hx Hy. etrans; [by eapply reach_top, members_on|].
  apply (iv_down _ _ _ _ _ _ Hinv); [by apply members_on, elem_of_app; right; left|by apply members_on|by apply above_root].
Qed.

Lemma members_edge x y : x ∈ members -> E x y -> y ∈ members \/ y ∈ closedBlocks comps.
Proof using All.
  intros Hx Hxy. pose proof (members_on x Hx) as HxT. pose proof (above_root x Hx) as Hge. pose proof (iv_dfs _ _ _ _ _ _ Hinv) as Hd.
  assert (scanned ((b, i) :: D) x y) as Hsc.
  { apply scanned_pop; [done|]. left. split; [|done]. intros HxD. pose proof (dfs_below idx b i D x Hd HxD). lia. }
  pose proof (iv_scan _ _ _ _ _ _ Hinv x y HxT Hsc) as Hy. apply elem_of_app in Hy as [Hy|]; [left|by right].
  pose proof (iv_owner _ _ _ _ _ _ Hinv b x y HxT (top_owner _ _ _ _ _ Hd Hge) Hsc Hy) as Hlow.
  rewrite members_stack in Hy. apply elem_of_app in Hy as [|Hy]; [done|]. pose proof (below_root y Hy). lia.
Qed.

Lemma members_new x : x ∈ members -> x ∉ closedBlocks comps.
Proof using Hinv.
  intros Hx Hxc. pose proof (iv_nodup _ _ _ _ _ _ Hinv) as Hn. apply NoDup_app in Hn as (_ & Hn & _). by apply (Hn x); [apply members_on|].
Qed.

Lemma members_nodup : NoDup members.
Proof using Hinv.
  pose proof (iv_nodup _ _ _ _ _ _ Hinv) as Hn. rewrite members_stack in Hn. by apply NoDup_app in Hn as [[? _]%NoDup_app _].
Qed.

Lemma members_cyclic : (exists x, x ∈ members /\ tc E x x) <-> pre <> [] \/ E b b.
Proof using All.
  assert (Permutation members (b :: pre)) as Hp by (by rewrite Permutation_app_comm).
  setoid_rewrite Hp.
  apply (cyclic_members (b :: pre) (fun x => x ∈ closedBlocks comps)); [done|rewrite <- Hp; apply members_nodup|..].
  - intros x y Hx Hy. apply members_connected; by rewrite Hp.
  - intros x y Hx Hxy. rewrite <- Hp in Hx |- *. by apply (members_edge x).
  - intros x y. apply closed_edge, (iv_comps _ _ _ _ _ _ Hinv).
  - intros x Hx. rewrite <- Hp in Hx. by apply members_new.
Qed.

Lemma inv_close low' c :
  (forall x, low' x = lowered low b D x) -> compBlocks c = members -> (cyclic c = true <-> pre <> [] \/ E b b) ->
  inv idx low' T' D (comps ++ [c]) next.
Proof using All.
  intros Hlow Hblocks Hcyc. pose proof Hinv as [Hs Hd Hg Hn Hnx Hu Hc Hr Hdo Hup Hl Hsc How Hco].
  assert (Permutation ((pre ++ b :: T') ++ closedBlocks comps) (T' ++ closedBlocks (comps ++ [c]))) as Hp.
  { rewrite closedBlocks_app, Hblocks, members_stack. rewrite <- app_assoc, (Permutation_app_comm members), <- app_assoc. done. }
  assert (forall x, x ∈ T' -> x ∈ pre ++ b :: T') as Hsub by (intros x Hx; apply elem_of_app; right; by right).
  assert (forall x, x ∈ D.*1 -> x ∈ T' /\ idx x < idx b) as HD.
  { intros x Hx. pose proof (dfs_below idx b i D x Hd Hx) as Hlt. split; [|done]. specialize (Hg x ltac:(by right)).
    rewrite members_stack in Hg. apply elem_of_app in Hg as [Hg|]; [|done]. pose proof (above_root x Hg). lia. }
  assert (forall x, x ∈ D.*1 -> low' x = low x) as Hlsame.
  { intros x Hx. rewrite Hlow. unfold lowered, setAt. destruct D as [|[p j] D']; [done|]. case_decide; [subst x|done].
    destruct (HD p ltac:(by left)). pose proof (proj1 (Hl p ltac:(right; by left))). lia. }
  split; try done.
  - rewrite members_stack in Hs. by apply StronglySorted_app_1_r in Hs.
  - by apply StronglySorted_inv in Hd as [? _].
  - intros x Hx. by apply HD.
  - by rewrite <- Hp.
  - intros x Hx. by apply Hnx, Hsub.
  - intros x. rewrite Hu. by setoid_rewrite Hp.
  - by rewrite Hc, Hp.
  - intros x. rewrite <- Hp. apply Hr.
  - intros x y Hx Hy. apply Hdo; by apply Hsub.
  - intros x Hx. destruct (Hup x (Hsub x Hx)) as (g & Hgg & Hgx & Hxg). pose proof (below_root x Hx).
    cbn in Hgg. apply elem_of_cons in Hgg as [->|Hgg]; [lia|by exists g].
  - intros x Hx. rewrite Hlsame by done. destruct (Hl x ltac:(by right)) as (Hle & l & HlT & Hli & Hxl). split; [done|].
    exists l. split_and!; [|done..]. destruct (HD x Hx). rewrite members_stack in HlT. apply elem_of_app in HlT as [HlT|]; [|done].
    pose proof (above_root l HlT). lia.
  - intros x y Hx Hxy. rewrite <- Hp. apply (Hsc x); [by apply Hsub|by apply scanned_pop].
  - intros g x y Hx Ho Hxy Hy. rewrite Hlsame by apply Ho. pose proof (below_root x Hx) as Hlt.
    apply (How g x y); [by apply Hsub|by apply owner_pop|by apply scanned_pop|by apply Hsub].
  - apply comps_ok_snoc; [done| | | | |]; rewrite ?Hblocks.
    + exists b. apply elem_of_app. right. by left.
    + apply members_connected.
    + apply members_edge.
    + apply members_new.
    + by rewrite Hcyc, members_cyclic.
Qed.
End Root.
End Tarjan.
