(* ===== verification/SccRuns.v ===== *)
(** * Tarjan's algorithm on its arrays

    Every iteration keeps the invariant of [SccProps] on the arrays and stacks of
    the code and looks at one more successor or finishes one more block; the
    theorem says what [computeSccs] returns. *)
From S2P Require Import Prelude Bits Types Exprs Registers Func Cfg Dominators DomProps Scc SccProps.
From stdpp Require Import relations sorting.
Local Open Scope N_scope.

(** ** Loops over the stack and the members *)

Lemma popThrough_spec pre b T' on :
  b ∉ pre -> exists on', popThrough b (pre ++ b :: T') on = Some (pre ++ [b], T', on') /\ length on' = length on /\
    forall c, c < N.of_nat (length on) -> arrayAt on' c = if bool_decide (c ∈ pre ++ [b]) then Some false else arrayAt on c.
Proof.
  revert on. induction pre as [|a pre IH]; intros on Hb; cbn [popThrough app].
  - rewrite N.eqb_refl. eexists. split_and!; [done|apply length_arraySet|]. intros c Hc. rewrite arrayAt_set.
    destruct (decide (c = b)) as [->|Hne].
    + rewrite bool_decide_true by by left. apply N.ltb_lt in Hc as ->. done.
    + rewrite bool_decide_false; [done|]. by intros ?%list_elem_of_singleton.
  - apply not_elem_of_cons in Hb as [Hne Hb]. destruct (N.eqb_spec a b); [congruence|].
    destruct (IH (arraySet on a false) Hb) as (on' & -> & Hlen & Hat). cbn [mbind option_bind]. rewrite length_arraySet in Hlen, Hat.
    eexists. split_and!; [done|done|]. intros c Hc. rewrite Hat, arrayAt_set by done.
    destruct (decide (c = a)) as [->|Hca].
    + rewrite (bool_decide_true (a ∈ a :: pre ++ [b])) by by left. apply N.ltb_lt in Hc as ->. by case_bool_decide.
    + case_bool_decide as Hin; [rewrite bool_decide_true; [done|by right]|]. rewrite bool_decide_false; [done|].
      by intros [|]%elem_of_cons.
Qed.

Lemma assignMembers_spec ms k membership :
  length (assignMembers ms k membership) = length membership /\
  forall c, c < N.of_nat (length membership) ->
    arrayAt (assignMembers ms k membership) c = if bool_decide (c ∈ ms) then Some k else arrayAt membership c.
Proof.
  revert membership. induction ms as [|a ms IH]; intros membership; cbn [assignMembers].
  { split; [done|]. intros c _. rewrite bool_decide_false; [done|]. by intros ?%elem_of_nil. }
  destruct (IH (arraySet membership a k)) as [Hlen Hat]. rewrite length_arraySet in Hlen, Hat. split; [done|].
  intros c Hc. rewrite Hat, arrayAt_set by done. destruct (decide (c = a)) as [->|Hne].
  - rewrite (bool_decide_true (a ∈ a :: ms)) by by left. apply N.ltb_lt in Hc as ->. by case_bool_decide.
  - case_bool_decide as Hin; [rewrite bool_decide_true; [done|by right]|]. rewrite bool_decide_false; [done|].
    by intros [|]%elem_of_cons.
Qed.

Section Runs.
Context (f : Function) (Hok : cfg_ok f) (Hentry : hasBlock f (entryBlock f) = true).
Abbreviation n := (N.of_nat (length (blocks f))).

Lemma reached_block b : reachable f b -> b < n /\ exists blk, blockAtId f b = Some blk /\ succsOf f b = successors blk.
Proof using All.
  intros Hb. assert (hasBlock f b = true) as Hh.
  { unfold reachable in Hb. apply rtc_inv_r in Hb as [<-|(a & _ & Hab)]; [done|by eapply cfg_target]. }
  split; [by apply hasBlock_lt|]. destruct (hasBlock_lookup f b Hh) as [blk Hblk]. exists blk. unfold succsOf. by rewrite Hblk.
Qed.

Lemma isCyclic_spec pre b : reachable f b ->
  exists cy, isCyclic f (pre ++ [b]) = Some cy /\ (cy = true <-> pre <> [] \/ edge f b b).
Proof using All.
  intros Hb. destruct (reached_block b Hb) as (_ & blk & Hblk & Hs). destruct pre as [|a pre]; cbn.
  - rewrite Hblk. eexists. split; [done|]. rewrite bool_decide_eq_true. unfold edge. rewrite Hs. naive_solver.
  - exists true. destruct (pre ++ [b]) eqn:E; [by destruct pre|]. split; [done|]. naive_solver.
Qed.

(** ** The state *)

Definition numberOf (s : Tarjan) (b : N) : N := default kUnvisited (arrayAt (tjIndex s) b).
Definition linkOf (s : Tarjan) (b : N) : N := default 0 (arrayAt (tjLowlink s) b).

Record sccs_hold (t : Sccs) : Prop := {
  sh_length : length (membership_ t) = length (blocks f);
  sh_member : forall b k, arrayAt (membership_ t) b = Some k ->
    (k = kInvalidIndex /\ b ∉ closedBlocks (components_ t)) \/
    (k < n /\ exists c, components_ t !! N.to_nat k = Some c /\ b ∈ compBlocks c) }.

Record state_ok (s : Tarjan) : Prop := {
  st_inv : inv f (numberOf s) (linkOf s) (tjStack s) (tjDfs s) (components_ (tjSccs s)) (tjNext s);
  st_index : length (tjIndex s) = length (blocks f);
  st_link : length (tjLowlink s) = length (blocks f);
  st_flags : length (tjOnStack s) = length (blocks f);
  st_on : forall b, b < n -> arrayAt (tjOnStack s) b = Some (bool_decide (b ∈ tjStack s));
  st_steps : forall b i, (b, i) ∈ tjDfs s -> (i <= length (succsOf f b))%nat;
  st_sccs : sccs_hold (tjSccs s);
  st_entry : entryBlock f ∈ tjStack s ++ closedBlocks (components_ (tjSccs s)) }.

(** What is left to do: the blocks not numbered, and what the search has ahead. *)
Definition waiting (s : Tarjan) : list N := filter (fun b => b ∉ tjStack s ++ closedBlocks (components_ (tjSccs s))) (blockHandles f).
Definition ahead (D : list (N * nat)) : nat := sum_list_with (fun p => visits f p.1 - p.2)%nat D.
Definition todo (s : Tarjan) : nat := (sum_list_with (visits f) (waiting s) + ahead (tjDfs s))%nat.

Lemma sum_filter_split (g : N -> nat) (P Q : N -> Prop) `{forall x, Decision (P x)} `{forall x, Decision (Q x)} l y :
  NoDup l -> y ∈ l -> P y -> (forall x, Q x <-> P x /\ x <> y) ->
  sum_list_with g (filter P l) = (g y + sum_list_with g (filter Q l))%nat.
Proof.
  intros Hl Hy HP HQ. assert (Permutation (filter P l) (y :: filter Q l)) as ->; [|done].
  apply NoDup_Permutation; [by apply NoDup_filter|constructor; [|by apply NoDup_filter]|].
  - rewrite list_elem_of_filter, HQ. naive_solver.
  - intros x. rewrite elem_of_cons, !list_elem_of_filter, HQ. destruct (decide (x = y)); naive_solver.
Qed.

Lemma few_reached l : NoDup l -> (forall x, x ∈ l -> reachable f x) -> (length l <= length (blocks f))%nat.
Proof using All.
  intros Hn Hr. transitivity (length (blockHandles f)); [|unfold blockHandles; by rewrite length_fmap, length_seq].
  apply submseteq_length, NoDup_submseteq; [done|]. intros x Hx. apply elem_of_blockHandles; [by apply cfg_small|].
  apply (reachable_block f Hok); auto.
Qed.

Lemma few_components idx low T D comps next : inv f idx low T D comps next -> N.of_nat (length comps) <= n.
Proof using All.
  intros Hi. transitivity (N.of_nat (length (closedBlocks comps))).
  - pose proof (iv_comps _ _ _ _ _ _ _ Hi) as Hc.
    assert (forall c, c ∈ comps -> exists r, r ∈ compBlocks c) as Hsome.
    { intros c [k Hk]%list_elem_of_lookup. by apply (co_some _ _ _ _ (Hc k c Hk)). }
    clear - Hsome. unfold closedBlocks. induction comps as [|c comps IH]; [done|]. cbn [fmap list_fmap List.concat length]. rewrite length_app.
    destruct (Hsome c ltac:(by left)) as [r Hr]. assert (0 < length (compBlocks c))%nat by (destruct (compBlocks c); [by apply elem_of_nil in Hr|cbn; lia]).
    specialize (IH ltac:(intros c' Hc'; apply Hsome; by right)). cbn in IH |- *. lia.
  - pose proof (iv_nodup _ _ _ _ _ _ _ Hi) as Hn. apply NoDup_app in Hn as (_ & _ & Hn).
    pose proof (few_reached _ Hn ltac:(intros x Hx; apply (iv_reach _ _ _ _ _ _ _ Hi), elem_of_app; by right)). lia.
Qed.

(** The blocks of a new component are its own, and no others changed theirs. *)
Lemma sccs_hold_snoc t members cy :
  sccs_hold t -> N.of_nat (length (components_ t)) < n ->
  sccs_hold (MkSccs (components_ t ++ [MkComponent members cy]) (assignMembers members (N.of_nat (length (components_ t))) (membership_ t))).
Proof using Hok.
  intros [Hlen Hmem] Hfew. destruct (assignMembers_spec members (N.of_nat (length (components_ t))) (membership_ t)) as [Hl Hat].
  split; cbn [membership_ components_]; [congruence|]. intros x k Hx.
  assert (x < N.of_nat (length (membership_ t))) as Hlt by (rewrite <- Hl; apply lookup_lt_Some in Hx; lia).
  rewrite Hat in Hx by done. rewrite closedBlocks_app. cbn [compBlocks]. case_bool_decide as Hin.
  - injection Hx as <-. right. split; [done|]. exists (MkComponent members cy). split; [|done].
    rewrite Nat2N.id. apply lookup_snoc_Some. by right.
  - apply Hmem in Hx as [[-> Hx]|(Hk & c & Hc & Hx)].
    + left. split; [done|]. by rewrite not_elem_of_app.
    + right. split; [done|]. exists c. split; [|done]. by apply lookup_app_l_Some.
Qed.

Section State.
Context (s : Tarjan) (b : N) (i : nat) (rest : list (N * nat)) (Hs : state_ok s) (Hdfs : tjDfs s = (b, i) :: rest).

Lemma state_inv : inv f (numberOf s) (linkOf s) (tjStack s) ((b, i) :: rest) (components_ (tjSccs s)) (tjNext s).
Proof using Hs Hdfs. rewrite <- Hdfs. apply Hs. Qed.

Lemma stack_reached x : x ∈ tjStack s -> reachable f x.
Proof using Hs. intros Hx. apply (iv_reach _ _ _ _ _ _ _ (st_inv _ Hs)), elem_of_app. by left. Qed.

Lemma top_reached : b ∈ tjStack s /\ reachable f b.
Proof using Hs Hdfs.
  assert (b ∈ tjStack s) as Hb by (apply (iv_gray _ _ _ _ _ _ _ state_inv); by left). split; [done|by apply stack_reached].
Qed.

Lemma numberOf_at x : x < n -> arrayAt (tjIndex s) x = Some (numberOf s x).
Proof using Hs.
  intros Hx. unfold numberOf. destruct (arrayAt_lt (tjIndex s) x) as [k ->]; [rewrite (st_index _ Hs); done|done].
Qed.
Lemma linkOf_at x : x < n -> arrayAt (tjLowlink s) x = Some (linkOf s x).
Proof using Hs.
  intros Hx. unfold linkOf. destruct (arrayAt_lt (tjLowlink s) x) as [k ->]; [rewrite (st_link _ Hs); done|done].
Qed.
Lemma flag_at x : x < n -> arrayAt (tjOnStack s) x = Some (bool_decide (x ∈ tjStack s)).
Proof using Hs. apply (st_on _ Hs). Qed.

Lemma setAt_array (l : list N) x v d : length l = length (blocks f) -> x < n ->
  forall c, default d (arrayAt (arraySet l x v) c) = setAt (fun c => default d (arrayAt l c)) x v c.
Proof.
  intros Hl Hx c. rewrite arrayAt_set. unfold setAt. case_decide; [|done]. rewrite Hl. by apply N.ltb_lt in Hx as ->.
Qed.

(** There is a number left for a block that has none. *)
Lemma next_small y : reachable f y -> numberOf s y = kUnvisited -> tjNext s < kUnvisited /\ (tjNext s + 1) mod 2 ^ 32 = tjNext s + 1.
Proof using All.
  intros Hy Hn. pose proof state_inv as Hi. apply (iv_unvisited _ _ _ _ _ _ _ Hi) in Hn.
  pose proof (few_reached (y :: tjStack s ++ closedBlocks (components_ (tjSccs s)))) as Hle. cbn in Hle.
  specialize (Hle ltac:(constructor; [done|apply (iv_nodup _ _ _ _ _ _ _ Hi)])
    ltac:(intros x [->|Hx]%elem_of_cons; [done|by apply (iv_reach _ _ _ _ _ _ _ Hi)])).
  pose proof (cfg_small _ Hok) as Hsmall.
  rewrite (iv_count _ _ _ _ _ _ _ Hi). unfold kUnvisited, kInvalidIndex in *. split; [lia|]. apply N.mod_small. lia.
Qed.

Lemma step_seen y : succsOf f b !! i = Some y -> numberOf s y <> kUnvisited ->
  exists s', tarjanStep f s = Some s' /\ state_ok s' /\ (S (todo s') <= todo s)%nat.
Proof using All.
  intros Hy Hn. destruct top_reached as [HbT Hb]. destruct (reached_block b Hb) as (Hbn & blk & Hblk & Hsucc).
  assert (reachable f y) as Hyr by (eapply rtc_r; [exact Hb|by eapply lookup_edge]). destruct (reached_block y Hyr) as (Hyn & _).
  unfold tarjanStep. rewrite Hdfs, Hblk. cbn [mbind option_bind]. rewrite <- Hsucc, Hy. cbn [withDfs tjIndex tjOnStack].
  rewrite (numberOf_at y Hyn), (flag_at y Hyn). cbn [mbind option_bind]. rewrite (proj2 (N.eqb_neq _ _) Hn).
  pose proof (lookup_lt_Some _ _ _ Hy) as Hi. pose proof Hs as [Hinv H1 H2 H3 H4 H5 H6 H7].
  assert (S (ahead ((b, S i) :: rest)) = ahead ((b, i) :: rest)) as Hah.
  { unfold ahead. cbn [sum_list_with fst snd]. rewrite visits_eq. lia. }
  assert (forall c j, (c, j) ∈ (b, S i) :: rest -> (j <= length (succsOf f c))%nat) as Hst.
  { intros c j [[= -> ->]|Hc]%elem_of_cons; [lia|]. apply H5. rewrite Hdfs. by right. }
  case_bool_decide as HyT.
  - unfold lowerLink, withDfs. cbn [tjLowlink]. rewrite (linkOf_at b Hbn). cbn [mbind option_bind]. eexists. split; [done|]. split.
    + split; cbn; try done; [|by rewrite length_arraySet]. eapply inv_seen; [apply state_inv|exact Hy|exact Hn|].
      intros c. rewrite bool_decide_true by done. unfold linkOf. cbn. by apply setAt_array.
    + unfold todo, waiting. cbn [tjDfs tjStack tjSccs withDfs]. rewrite Hdfs. lia.
  - eexists. split; [done|]. split.
    + split; cbn; try done. eapply inv_seen; [apply state_inv|exact Hy|exact Hn|]. intros c. by rewrite bool_decide_false.
    + unfold todo, waiting. cbn [tjDfs tjStack tjSccs withDfs]. rewrite Hdfs. lia.
Qed.

Lemma step_push y : succsOf f b !! i = Some y -> numberOf s y = kUnvisited ->
  exists s', tarjanStep f s = Some s' /\ state_ok s' /\ (S (todo s') <= todo s)%nat.
Proof using All.
  intros Hy Hn. destruct top_reached as [HbT Hb]. destruct (reached_block b Hb) as (Hbn & blk & Hblk & Hsucc).
  assert (reachable f y) as Hyr by (eapply rtc_r; [exact Hb|by eapply lookup_edge]). destruct (reached_block y Hyr) as (Hyn & _).
  destruct (next_small y Hyr Hn) as [Hnext Hmod]. pose proof state_inv as Hinv.
  unfold tarjanStep. rewrite Hdfs, Hblk. cbn [mbind option_bind]. rewrite <- Hsucc, Hy. cbn [withDfs tjIndex tjOnStack].
  rewrite (numberOf_at y Hyn). cbn [mbind option_bind]. rewrite (proj2 (N.eqb_eq _ _) Hn). eexists. split; [done|].
  pose proof (lookup_lt_Some _ _ _ Hy) as Hi. destruct Hs as [_ H1 H2 H3 H4 H5 H6 H7]. split.
  - split; cbn; rewrite ?length_arraySet; try done.
    + rewrite Hmod. eapply inv_push; [exact Hinv|exact Hy|exact Hn|exact Hnext| |].
      * unfold numberOf. cbn. by apply setAt_array.
      * unfold linkOf. cbn. by apply setAt_array.
    + intros c Hc. rewrite arrayAt_set. case_decide as Hcy.
      * subst c. rewrite bool_decide_true by by left. rewrite H3. by apply N.ltb_lt in Hc as ->.
      * rewrite H4 by done. f_equal. apply bool_decide_ext. rewrite elem_of_cons. tauto.
    + intros c j [[= -> ->]|[[= -> ->]|Hc]%elem_of_cons]%elem_of_cons; [lia|lia|]. apply H5. rewrite Hdfs. by right.
    + by right.
  - unfold todo. cbn [tjDfs pushBlock withDfs]. rewrite Hdfs.
    assert (sum_list_with (visits f) (waiting s) =
      (visits f y + sum_list_with (visits f) (waiting (pushBlock y (withDfs s ((b, S i) :: rest)))))%nat) as ->.
    { unfold waiting. apply sum_filter_split; [apply NoDup_blockHandles| |by apply (iv_unvisited _ _ _ _ _ _ _ Hinv)|].
      - apply elem_of_blockHandles; [by apply cfg_small|]. by apply (reachable_block f Hok).
      - intros x. cbn. rewrite not_elem_of_cons. tauto. }
    unfold ahead. cbn [sum_list_with fst snd]. pose proof (visits_eq f b). lia.
Qed.

(** After a block is finished, with or without its component: the parent's link. *)
Lemma lower_parent s1 : tjLowlink s1 = tjLowlink s ->
  exists s2, match rest with [] => Some s1 | (parent, _) :: _ => low ← arrayAt (tjLowlink s1) b; lowerLink parent low s1 end = Some s2 /\
    tjIndex s2 = tjIndex s1 /\ length (tjLowlink s2) = length (blocks f) /\ tjOnStack s2 = tjOnStack s1 /\ tjStack s2 = tjStack s1 /\
    tjNext s2 = tjNext s1 /\ tjDfs s2 = tjDfs s1 /\ tjSccs s2 = tjSccs s1 /\ forall c, linkOf s2 c = lowered (linkOf s) b rest c.
Proof using All.
  intros Hlow. destruct top_reached as [HbT Hb]. destruct (reached_block b Hb) as (Hbn & _).
  assert (forall p, p ∈ rest.*1 -> p < n) as Hparent.
  { intros p Hp. apply reached_block, stack_reached. apply (iv_gray _ _ _ _ _ _ _ state_inv). by right. }
  pose proof (linkOf_at b Hbn) as Hlb. pose proof (fun p Hp => linkOf_at p (Hparent p Hp)) as Hlp. pose proof (st_link _ Hs) as Hlen.
  clear Hdfs HbT Hb. destruct rest as [|[p j] D].
  - exists s1. split_and!; try done; [by rewrite Hlow|]. intros c. unfold linkOf. by rewrite Hlow.
  - rewrite Hlow, Hlb. cbn [mbind option_bind]. unfold lowerLink. rewrite Hlow, (Hlp p) by by left. cbn [mbind option_bind].
    eexists. split; [done|]. cbn. rewrite length_arraySet. split_and!; try done.
    unfold linkOf at 1. cbn. apply setAt_array; [done|]. apply Hparent. by left.
Qed.

Lemma finished_measure s2 : succsOf f b !! i = None -> tjDfs s2 = rest ->
  (forall x, x ∈ tjStack s2 ++ closedBlocks (components_ (tjSccs s2)) <-> x ∈ tjStack s ++ closedBlocks (components_ (tjSccs s))) ->
  (S (todo s2) <= todo s)%nat.
Proof using All.
  intros Hend HD Hsame. apply lookup_ge_None in Hend. pose proof (st_steps _ Hs b i ltac:(rewrite Hdfs; by left)) as Hle.
  unfold todo. rewrite HD, Hdfs. unfold ahead. cbn [sum_list_with fst snd]. pose proof (visits_eq f b).
  assert (waiting s2 = waiting s) as ->; [|lia]. unfold waiting. apply list_filter_iff. intros x. by rewrite Hsame.
Qed.

Lemma step_keep : succsOf f b !! i = None -> linkOf s b <> numberOf s b ->
  exists s', tarjanStep f s = Some s' /\ state_ok s' /\ (S (todo s') <= todo s)%nat.
Proof using All.
  intros Hend Hroot. destruct top_reached as [HbT Hb]. destruct (reached_block b Hb) as (Hbn & blk & Hblk & Hsucc).
  unfold tarjanStep. rewrite Hdfs, Hblk. cbn [mbind option_bind]. rewrite <- Hsucc, Hend. cbn [withDfs tjIndex tjLowlink].
  rewrite (numberOf_at b Hbn), (linkOf_at b Hbn). cbn [mbind option_bind]. rewrite (proj2 (N.eqb_neq _ _) Hroot). cbn [mbind option_bind].
  destruct (lower_parent (withDfs s rest) eq_refl) as (s2 & Hrun & E1 & E2 & E3 & E4 & E5 & E6 & E7 & Hlink). cbn in *.
  exists s2. split; [exact Hrun|]. pose proof Hs as [Hinv H1 H2 H3 H4 H5 H6 H7]. split; [|by apply finished_measure; [..|intros; rewrite E4, E7]].
  split; rewrite ?E1, ?E3, ?E4, ?E5, ?E6, ?E7; try done.
  - assert (numberOf s2 = numberOf s) as -> by (unfold numberOf; by rewrite E1). by eapply inv_keep; [apply state_inv|..].
  - intros c j Hc. apply H5. rewrite Hdfs. by right.
Qed.

Lemma step_close : succsOf f b !! i = None -> linkOf s b = numberOf s b ->
  exists s', tarjanStep f s = Some s' /\ state_ok s' /\ (S (todo s') <= todo s)%nat.
Proof using All.
  intros Hend Hroot. destruct top_reached as [HbT Hb]. destruct (reached_block b Hb) as (Hbn & blk & Hblk & Hsucc).
  unfold tarjanStep. rewrite Hdfs, Hblk. cbn [mbind option_bind]. rewrite <- Hsucc, Hend. cbn [withDfs tjIndex tjLowlink].
  rewrite (numberOf_at b Hbn), (linkOf_at b Hbn). cbn [mbind option_bind]. rewrite (proj2 (N.eqb_eq _ _) Hroot).
  apply list_elem_of_split in HbT as (pre & T' & HT). pose proof state_inv as Hinv. rewrite HT in Hinv.
  assert (b ∉ pre) as Hpre.
  { pose proof (iv_sorted _ _ _ _ _ _ _ Hinv) as Hd. intros Hin.
    pose proof (StronglySorted_app_1_elem_of _ _ _ b b Hd Hin ltac:(by left)) as H. cbn in H. lia. }
  destruct (popThrough_spec pre b T' (tjOnStack s) Hpre) as (on & Hpop & Hon & Hflags).
  destruct (isCyclic_spec pre b Hb) as (cy & Hcy & Hcyc).
  unfold closeComponent. cbn [withDfs tjStack tjOnStack tjSccs]. rewrite HT, Hpop. cbn [mbind option_bind]. rewrite Hcy. cbn [mbind option_bind].
  set (s1 := MkTarjan _ _ _ _ _ _ _). destruct (lower_parent s1 eq_refl) as (s2 & Hrun & E1 & E2 & E3 & E4 & E5 & E6 & E7 & Hlink).
  exists s2. split; [exact Hrun|]. subst s1. cbn in E1, E3, E4, E5, E6, E7.
  assert (inv f (numberOf s2) (linkOf s2) T' rest (components_ (tjSccs s) ++ [MkComponent (pre ++ [b]) cy]) (tjNext s)) as Hinv2.
  { assert (numberOf s2 = numberOf s) as -> by (unfold numberOf; by rewrite E1). by eapply inv_close; [exact Hinv|..]. }
  pose proof (proj1 (NoDup_app _ _) (iv_nodup _ _ _ _ _ _ _ Hinv)) as (_ & Hdisj & _).
  split.
  - destruct Hs as [_ H1 H2 H3 H4 H5 H6 H7]. split; rewrite ?E1, ?E3, ?E4, ?E5, ?E6, ?E7; try done; [by rewrite Hon| | | |].
    + intros c Hc. rewrite Hflags by (by rewrite H3). rewrite H4 by done. rewrite HT. case_bool_decide as Hcm.
      * f_equal. symmetry. apply bool_decide_eq_false. intros HcT.
        pose proof (above_root f _ _ _ _ _ _ _ _ _ Hinv c Hcm). pose proof (below_root f _ _ _ _ _ _ _ _ _ Hinv c HcT). lia.
      * f_equal. apply bool_decide_ext. rewrite (members_stack b), elem_of_app. tauto.
    + intros c j Hc. apply H5. rewrite Hdfs. by right.
    + apply sccs_hold_snoc; [done|]. apply few_components in Hinv2. cbn in Hinv2. rewrite length_app in Hinv2. cbn in Hinv2. lia.
    + cbn [components_]. rewrite HT in H7. rewrite closedBlocks_app. revert H7. cbn [compBlocks].
      rewrite !elem_of_app, !elem_of_cons, elem_of_nil. tauto.
  - apply finished_measure; [done|done|]. intros x. rewrite E4, E7, HT. cbn [components_]. rewrite closedBlocks_app. cbn [compBlocks].
    rewrite !elem_of_app, !elem_of_cons, elem_of_nil. tauto.
Qed.

Lemma step_ok : exists s', tarjanStep f s = Some s' /\ state_ok s' /\ (S (todo s') <= todo s)%nat.
Proof using All.
  destruct (succsOf f b !! i) as [y|] eqn:Ey.
  - destruct (decide (numberOf s y = kUnvisited)); [by apply step_push with y|by apply step_seen with y].
  - destruct (decide (linkOf s b = numberOf s b)); [by apply step_close|by apply step_keep].
Qed.
End State.

(** ** The run *)

Lemma tarjan_runs fuel s : state_ok s -> (todo s <= fuel)%nat ->
  exists s', tarjan fuel f s = Some (tjSccs s') /\ state_ok s' /\ tjDfs s' = [].
Proof using All.
  revert s. induction fuel as [|fuel IH]; intros s Hs Hle; cbn [tarjan]; destruct (tjDfs s) as [|[b i] rest] eqn:Ed; try by exists s.
  - destruct (step_ok s b i rest Hs Ed) as (s' & _ & _ & Hlt). lia.
  - destruct (step_ok s b i rest Hs Ed) as (s' & -> & Hs' & Hlt). apply IH; [done|lia].
Qed.

Abbreviation n' := (length (blocks f)).
Abbreviation e := (entryBlock f).
Definition beginning : Tarjan :=
  pushBlock (entryBlock f) (MkTarjan (repeat kUnvisited n') (repeat 0 n') (repeat false n') [] 0 [] (MkSccs [] (repeat kInvalidIndex n'))).

Lemma beginning_ok : state_ok beginning /\ todo beginning = searchFuel f.
Proof using All.
  destruct (hasBlock_lt f _ Hentry) as [Hlt Hvalid].
  assert (forall c, numberOf beginning c = setAt (fun _ => kUnvisited) e 0 c) as Hnum.
  { intros c. unfold numberOf, beginning. cbn. rewrite setAt_array by (done || apply repeat_length). unfold setAt. case_decide; [done|].
    unfold arrayAt. destruct (_ !! _) as [k|] eqn:E; [|done]. by apply list_elem_of_lookup_2, list_elem_of_In, repeat_spec in E. }
  assert (numberOf beginning e = 0 /\ linkOf beginning e = 0) as [Hn0 Hl0].
  { split; [rewrite Hnum; unfold setAt; by rewrite decide_True|]. unfold linkOf, beginning. cbn. rewrite arrayAt_set, decide_True, repeat_length by done.
    by apply N.ltb_lt in Hlt as ->. }
  split.
  - split; unfold beginning; cbn; rewrite ?length_arraySet, ?repeat_length; try done.
    + fold beginning. split; cbn.
      * repeat constructor.
      * repeat constructor.
      * done.
      * repeat constructor. by intros ?%elem_of_nil.
      * intros b ->%list_elem_of_singleton. by rewrite Hn0.
      * intros b. rewrite Hnum. unfold setAt. rewrite list_elem_of_singleton. case_decide; [split; [done|by intros []]|done].
      * done.
      * intros b ->%list_elem_of_singleton. constructor.
      * intros x y ->%list_elem_of_singleton ->%list_elem_of_singleton _. constructor.
      * intros x ->%list_elem_of_singleton. exists e. split_and!; [by left|done|constructor].
      * intros b ->%list_elem_of_singleton. rewrite Hn0, Hl0. split; [done|]. exists e. split_and!; [by left|done|constructor].
      * intros x y ->%list_elem_of_singleton [[Hx _]|(j & [= ->]%list_elem_of_singleton & Hy)]; [exfalso; apply Hx; by left|by apply elem_of_nil in Hy].
      * intros b x y ->%list_elem_of_singleton _ [[Hx _]|(j & [= ->]%list_elem_of_singleton & Hy)]; [exfalso; apply Hx; by left|by apply elem_of_nil in Hy].
      * intros k c Hk. by rewrite lookup_nil in Hk.
    + intros b Hb. rewrite arrayAt_set. case_decide as Hbe.
      * subst b. rewrite repeat_length, bool_decide_true by by left. by apply N.ltb_lt in Hb as ->.
      * rewrite arrayAt_repeat by done. by rewrite bool_decide_false by by intros ?%list_elem_of_singleton.
    + intros b i [= -> ->]%list_elem_of_singleton. lia.
    + split; cbn; [apply repeat_length|]. intros b k Hk. left. split; [|by intros ?%elem_of_nil].
      by apply list_elem_of_lookup_2, list_elem_of_In, repeat_spec in Hk.
    + by left.
  - unfold todo, searchFuel. change (ahead (tjDfs beginning)) with (visits f e - 0 + 0)%nat.
    assert (sum_list_with (visits f) (blockHandles f) = (visits f e + sum_list_with (visits f) (waiting beginning))%nat) as ->; [|lia].
    transitivity (sum_list_with (visits f) (filter (fun _ => True) (blockHandles f))).
    + f_equal. clear. induction (blockHandles f) as [|b l IH]; [done|]. rewrite filter_cons_True by done. by rewrite <- IH.
    + apply sum_filter_split; [apply NoDup_blockHandles|apply elem_of_blockHandles; [by apply cfg_small|done]|done|].
      intros x. cbn. rewrite list_elem_of_singleton. tauto.
Qed.

(** What the search leaves: the components hold exactly the reachable blocks. *)
Record sccs_ok (t : Sccs) : Prop := {
  sk_comps : comps_ok f (components_ t);
  sk_nodup : NoDup (closedBlocks (components_ t));
  sk_reach : forall b, b ∈ closedBlocks (components_ t) <-> reachable f b;
  sk_hold : sccs_hold t }.

Lemma sccs_computed : exists t, computeSccs f = Some t /\ sccs_ok t.
Proof using All.
  destruct beginning_ok as [Hok0 Htodo]. destruct (tarjan_runs (searchFuel f) beginning Hok0) as (s & Hrun & [Hinv _ _ _ _ _ Hhold Hen] & HD); [by rewrite Htodo|].
  exists (tjSccs s). split.
  - unfold computeSccs. destruct (hasBlock_lt f _ Hentry) as [Hlt ->]. apply N.leb_gt in Hlt as ->. exact Hrun.
  - rewrite HD in Hinv. assert (tjStack s = []) as HT.
    { destruct (tjStack s) as [|x T] eqn:E; [done|]. destruct (iv_up _ _ _ _ _ _ _ Hinv x ltac:(by left)) as (g & []%elem_of_nil & _). }
    rewrite HT in Hinv, Hen. split; [apply (iv_comps _ _ _ _ _ _ _ Hinv)|apply (iv_nodup _ _ _ _ _ _ _ Hinv)| |done].
    intros b. split; [apply (iv_reach _ _ _ _ _ _ _ Hinv)|]. intros Hb. eapply (closed_rtc f (fun x => x ∈ closedBlocks (components_ (tjSccs s)))); [|exact Hen|exact Hb].
    intros x y. apply closed_edge, (iv_comps _ _ _ _ _ _ _ Hinv).
Qed.

Section Query.
Context (t : Sccs) (Ht : sccs_ok t).

Lemma component_unique k k' c c' b :
  components_ t !! k = Some c -> components_ t !! k' = Some c' -> b ∈ compBlocks c -> b ∈ compBlocks c' -> k = k'.
Proof using Ht.
  intros Hk Hk' Hb Hb'. pose proof (sk_nodup _ Ht) as Hn. revert k k' Hk Hk'. unfold closedBlocks in Hn.
  assert (forall comps k d, comps !! k = Some d -> b ∈ compBlocks d -> b ∈ List.concat (compBlocks <$> comps)) as Hin.
  { intros comps k d Hk Hbd. apply (elem_of_closed comps). by exists k, d. }
  induction (components_ t) as [|d comps IH]; intros k k' Hk Hk'; [by rewrite lookup_nil in Hk|].
  cbn [fmap list_fmap List.concat] in Hn. apply NoDup_app in Hn as (_ & Hd & Hn).
  destruct k as [|k], k' as [|k']; cbn in Hk, Hk'; [done| | |f_equal; by apply IH].
  - injection Hk as ->. exfalso. by apply (Hd b Hb), (Hin comps k' c').
  - injection Hk' as ->. exfalso. by apply (Hd b Hb'), (Hin comps k c).
Qed.

(** [componentOf] is the position of the component that has the block. *)
Lemma componentOf_spec b :
  match components_ t !! N.to_nat (componentOf t b) with
  | Some c => b ∈ compBlocks c /\ componentOf t b < n
  | None => componentOf t b = kInvalidIndex /\ ~ reachable f b
  end.
Proof using All.
  destruct (sk_hold _ Ht) as [Hlen Hmem].
  assert (components_ t !! N.to_nat kInvalidIndex = None) as Hinvalid.
  { destruct (components_ t !! N.to_nat kInvalidIndex) as [c|] eqn:E; [|done]. exfalso.
    pose proof (cfg_small _ Hok). destruct (co_some _ _ _ _ (sk_comps _ Ht _ _ E)) as [r Hr].
    assert (reachable f r) as Hrr by (apply (sk_reach _ Ht), elem_of_closed; by eexists _, c).
    assert (r < n) as Hrn by by apply reached_block. destruct (arrayAt_lt (membership_ t) r) as [k Hk]; [by rewrite Hlen|].
    destruct (Hmem r k Hk) as [[_ Hno]|(Hkn & c' & Hc' & Hr')]; [by apply Hno, (sk_reach _ Ht)|].
    pose proof (component_unique _ _ _ _ r E Hc' Hr Hr'). lia. }
  unfold componentOf. destruct (N.ltb_spec b (N.of_nat (length (membership_ t)))) as [Hb|Hb].
  - destruct (arrayAt_lt (membership_ t) b Hb) as [k Hk]. rewrite Hk. cbn [default from_option id].
    destruct (Hmem b k Hk) as [[-> Hno]|(Hkn & c & Hc & Hbc)]; [rewrite Hinvalid; split; [done|by rewrite <- (sk_reach _ Ht)]|].
    by rewrite Hc.
  - rewrite Hinvalid. split; [done|]. rewrite Hlen in Hb. intros Hr. destruct (reached_block b Hr). lia.
Qed.

Lemma componentOf_reachable b : reachable f b <-> componentOf t b <> kInvalidIndex.
Proof using All.
  pose proof (componentOf_spec b) as H. destruct (components_ t !! N.to_nat (componentOf t b)) as [c|] eqn:E; [|tauto].
  destruct H as [Hb Hk]. pose proof (cfg_small _ Hok). split; [lia|]. intros _. apply (sk_reach _ Ht), elem_of_closed. by eexists _, c.
Qed.

Lemma componentOf_at k c b : components_ t !! k = Some c -> b ∈ compBlocks c <-> componentOf t b = N.of_nat k.
Proof using All.
  intros Hk. pose proof (componentOf_spec b) as H. split.
  - intros Hb. destruct (components_ t !! N.to_nat (componentOf t b)) as [d|] eqn:E.
    + rewrite <- (component_unique _ _ _ _ b E Hk (proj1 H) Hb). lia.
    + exfalso. apply (proj2 H), (sk_reach _ Ht), elem_of_closed. by exists k, c.
  - intros He. rewrite He, Nat2N.id, Hk in H. apply H.
Qed.

Lemma componentOf_connected a b : reachable f a -> componentOf t a = componentOf t b <-> connected f a b.
Proof using All.
  intros Ha. pose proof (componentOf_spec a) as H. destruct (components_ t !! N.to_nat (componentOf t a)) as [c|] eqn:E; [|by destruct H].
  destruct H as [Hac _]. rewrite <- (co_class _ _ _ _ (sk_comps _ Ht _ _ E) a b Hac), (componentOf_at _ _ b E). lia.
Qed.
End Query.
End Runs.

(** C20 The components are the classes of mutual reachability: if the entry is a
    block the computation ends; exactly the reachable blocks have a component, and
    two of them the same one if and only if each reaches the other. An edge leads
    to the same component or to one listed earlier. A component lists its blocks
    once each, and is cyclic if and only if one of them lies on a cycle. *)
Theorem sccs_correct f :
  cfg_ok f ->
  if hasBlock f (entryBlock f) then
    exists t, computeSccs f = Some t /\
      (forall b, componentOf t b <> kInvalidIndex <-> reachable f b) /\
      (forall a b, reachable f a -> componentOf t a = componentOf t b <-> rtc (edge f) a b /\ rtc (edge f) b a) /\
      (forall a b, reachable f a -> edge f a b -> componentOf t b <= componentOf t a) /\
      (forall k c, components_ t !! k = Some c ->
         NoDup (compBlocks c) /\ (forall b, b ∈ compBlocks c <-> componentOf t b = N.of_nat k) /\
         (cyclic c = true <-> exists b, b ∈ compBlocks c /\ tc (edge f) b b))
  else computeSccs f = Some (MkSccs [] (repeat kInvalidIndex (length (blocks f)))).
Proof.
  intros Hok. destruct (hasBlock f (entryBlock f)) eqn:He.
  - destruct (sccs_computed f Hok He) as (t & Ht & Htok). exists t. split_and!; [done| | | |].
    + intros b. symmetry. by apply componentOf_reachable.
    + intros a b Ha. by apply componentOf_connected.
    + intros a b Ha Hab. pose proof (componentOf_spec f Hok He t Htok a) as Hc.
      destruct (components_ t !! N.to_nat (componentOf t a)) as [c|] eqn:E; [|by destruct Hc].
      destruct (co_before _ _ _ _ (sk_comps _ _ Htok _ _ E) a b (proj1 Hc) Hab) as (j & c' & Hj & Hc' & Hb).
      apply (componentOf_at f Hok He t Htok _ _ _ Hc') in Hb. lia.
    + intros k c Hk. split_and!; [|by intros b; apply (componentOf_at f Hok He t Htok)|apply (co_cyclic _ _ _ _ (sk_comps f t Htok k c Hk))].
      pose proof (sk_nodup _ _ Htok) as Hn. apply list_elem_of_lookup_2, list_elem_of_split in Hk as (l1 & l2 & Hl). rewrite Hl in Hn.
      unfold closedBlocks in Hn. rewrite fmap_app, fmap_cons, concat_app in Hn. cbn [List.concat] in Hn.
      apply NoDup_app in Hn as (_ & _ & Hn). by apply NoDup_app in Hn as [Hn _].
  - unfold computeSccs. unfold hasBlock, contains in He.
    assert (negb (handleValid (entryBlock f)) || (N.of_nat (length (blocks f)) <=? entryBlock f) = true) as ->; [|done].
    unfold handleValid. rewrite negb_involutive. apply orb_true_iff. destruct (N.eqb_spec (entryBlock f) kInvalidIndex) as [|Hne]; [by left|right].
    apply N.leb_le. apply N.nlt_ge. intros Hlt. apply N.ltb_lt in Hlt. unfold handleValid in He. by rewrite Hlt, (proj2 (N.eqb_neq _ _) Hne) in He.
Qed.

Lemma sccs_correct_witness :
  cfg_ok loopFunction /\ exists t, computeSccs loopFunction = Some t /\
    forall b, componentOf t b <> kInvalidIndex <-> reachable loopFunction b.
Proof.
  split; [exact loop_cfg_ok|]. pose proof (sccs_correct loopFunction loop_cfg_ok) as H. rewrite loop_entry in H.
  destruct H as (t & Ht & Hr & _). exists t. exact (conj Ht Hr).
Defined.
