(* ===== verification/Loops.v ===== *)
(** * Loops, reducibility and reachability (analysis/loops.cpp, reachability.cpp)

    Back edges and natural loops from the dominators, the test for reducibility
    from the strongly connected components, and the set of reachable blocks. *)
From stdpp Require Import relations sorting.
From S2P Require Import Prelude Bits Types Exprs Registers Func Cfg Dominators DomProps Scc SccProps SccRuns.
Local Open Scope N_scope.

(** ** Sets grown by a worklist *)

(** [for (next : neighbours) if (seen.insert(next).second) worklist.push_back(next);]
    the worklist has its back first. *)
Fixpoint insertNew (neighbours : list N) (seen : gset N) (work : list N) : gset N * list N :=
  match neighbours with
  | [] => (seen, work)
  | x :: neighbours =>
      if bool_decide (x ∈ seen) then insertNew neighbours seen work else insertNew neighbours ({[x]} ∪ seen) (x :: work)
  end.

(** [while (!worklist.empty())]. *)
Fixpoint flood (next : Block -> list N) (fuel : nat) (f : Function) (seen : gset N) (work : list N) : option (gset N) :=
  match work with
  | [] => Some seen
  | x :: work =>
      match fuel with
      | O => None
      | S fuel =>
          b ← blockAtId f x;
          let '(seen, work) := insertNew (next b) seen work in flood next fuel f seen work
      end
  end.

Definition floodFuel (f : Function) : nat := length (blocks f).

Definition reachableBlocks (f : Function) : option (gset N) :=
  if negb (hasBlock f (entryBlock f)) then Some ∅
  else flood successors (floodFuel f) f {[entryBlock f]} [entryBlock f].

(** ** Back edges and natural loops *)

Record BackEdge : Set := MkBackEdge { edgeFrom : N; edgeHeader : N }.

Fixpoint edgesFrom (t : Dominators) (from : N) (succs : list N) : option (list BackEdge) :=
  match succs with
  | [] => Some []
  | to :: succs =>
      d ← dominates t to from;
      edges ← edgesFrom t from succs;
      Some (if (d : bool) then MkBackEdge from to :: edges else edges)
  end.

Fixpoint edgesOver (f : Function) (t : Dominators) (order : list N) : option (list BackEdge) :=
  match order with
  | [] => Some []
  | from :: order =>
      b ← blockAtId f from;
      edges ← edgesFrom t from (successors b);
      rest ← edgesOver f t order;
      Some (edges ++ rest)
  end.

Definition backEdges (f : Function) (t : Dominators) : option (list BackEdge) := edgesOver f t (rpo_ t).

Record NaturalLoop : Set := MkNaturalLoop { loopHeader : N; loopLatches : list N; loopBlocks : gset N }.

Definition naturalLoop (f : Function) (header : N) (latches : list N) : option NaturalLoop :=
  let '(seen, work) := insertNew (filter (fun latch => latch <> header) latches) {[header]} [] in
  blocks ← flood predecessors (floodFuel f) f seen work;
  Some (MkNaturalLoop header latches blocks).

(** [byHeader]. *)
Fixpoint groupByHeader (edges : list BackEdge) (groups : gmap N (list N)) : gmap N (list N) :=
  match edges with
  | [] => groups
  | e :: edges => groupByHeader edges (<[edgeHeader e := default [] (groups !! edgeHeader e) ++ [edgeFrom e]]> groups)
  end.

Definition naturalLoops (f : Function) (t : Dominators) : option (list NaturalLoop) :=
  edges ← backEdges f t;
  let groups := groupByHeader edges ∅ in
  mapM (fun header => naturalLoop f header (default [] (groups !! header))) (merge_sort N.le (elements (dom groups))).

(** ** Reducibility *)

(** The loop over the predecessors of a member; [None] is [return false]. *)
Fixpoint enteringBlock (t : Sccs) (member : N) (preds : list N) (entry : N) : option N :=
  match preds with
  | [] => Some entry
  | pred :: preds =>
      if componentOf t pred =? kInvalidIndex then enteringBlock t member preds entry
      else if componentOf t pred =? componentOf t member then enteringBlock t member preds entry
      else if negb (handleValid entry) then enteringBlock t member preds member
      else if negb (entry =? member) then None
      else enteringBlock t member preds entry
  end.

(** The loop over the members of a component: whether its entries land on one block. *)
Fixpoint singleEntry (f : Function) (t : Sccs) (members : list N) (entry : N) : option bool :=
  match members with
  | [] => Some true
  | member :: members =>
      b ← blockAtId f member;
      match enteringBlock t member (predecessors b) entry with
      | None => Some false
      | Some entry => singleEntry f t members entry
      end
  end.

Fixpoint allSingleEntry (f : Function) (t : Sccs) (components : list Component) : option bool :=
  match components with
  | [] => Some true
  | c :: components =>
      if negb (cyclic c) then allSingleEntry f t components
      else
        ok ← singleEntry f t (compBlocks c) kInvalidIndex;
        if (ok : bool) then allSingleEntry f t components else Some false
  end.

Definition isReducible (f : Function) (t : Sccs) : option bool := allSingleEntry f t (components_ t).

(** ** What flooding reaches *)

Lemma insertNew_spec neighbours seen work seen' work' :
  insertNew neighbours seen work = (seen', work') ->
  (forall x, x ∈ seen' <-> x ∈ seen \/ x ∈ neighbours) /\
  exists new, work' = new ++ work /\ NoDup new /\ forall x, x ∈ new <-> x ∈ neighbours /\ x ∉ seen.
Proof.
  revert seen work. induction neighbours as [|y neighbours IH]; intros seen work H; cbn in H.
  - injection H as <- <-. split; [intros x; rewrite elem_of_nil; tauto|]. exists []. split_and!; [done|constructor|].
    intros x. rewrite !elem_of_nil. tauto.
  - case_bool_decide as Hy.
    + apply IH in H as (Hs & new & -> & Hn & Hnew). split.
      * intros x. rewrite Hs, elem_of_cons. naive_solver.
      * exists new. split_and!; [done..|]. intros x. rewrite Hnew, elem_of_cons. naive_solver.
    + apply IH in H as (Hs & new & -> & Hn & Hnew). split.
      * intros x. rewrite Hs, elem_of_union, elem_of_singleton, elem_of_cons. tauto.
      * exists (new ++ [y]). split_and!; [by rewrite <- app_assoc| |].
        -- apply NoDup_app. split_and!; [done| |apply NoDup_singleton]. intros x Hx ->%list_elem_of_singleton.
           apply Hnew in Hx as [_ Hx]. apply Hx, elem_of_union. left. by apply elem_of_singleton.
        -- intros x. rewrite elem_of_app, Hnew, elem_of_union, elem_of_singleton, list_elem_of_singleton, elem_of_cons.
           destruct (decide (x = y)) as [->|]; naive_solver.
Qed.

Lemma insertNew_size neighbours seen work seen' work' :
  insertNew neighbours seen work = (seen', work') -> (length work' + size seen = length work + size seen')%nat.
Proof.
  intros (Hs & new & -> & Hn & Hnew)%insertNew_spec. assert (seen' = list_to_set new ∪ seen) as ->.
  { apply set_eq. intros x. rewrite Hs, elem_of_union, elem_of_list_to_set, Hnew. destruct (decide (x ∈ seen)); tauto. }
  rewrite size_union by (intros x; rewrite elem_of_list_to_set, Hnew; tauto). rewrite size_list_to_set by done. rewrite length_app. lia.
Qed.

Section Flood.
Context (f : Function) (Hok : cfg_ok f) (next : Block -> list N).

(** The neighbours of a block, none if it does not exist. *)
Definition leads (a b : N) : Prop := exists blk, blockAtId f a = Some blk /\ b ∈ next blk.
Context (Hnext : forall a b, leads a b -> hasBlock f b = true).

(** Going on from where [stop] does not forbid it. *)
Abbreviation onward stop := (fun a b => leads a b /\ b ∉ stop).

Record flooded (starts : list N) (stop seen : gset N) (work : list N) : Prop := {
  fd_blocks : forall x, x ∈ seen -> hasBlock f x = true;
  fd_stop : stop ⊆ seen;
  fd_work : forall x, x ∈ work -> x ∈ seen /\ x ∉ stop;
  fd_found : forall x, x ∈ seen -> x ∈ stop \/ exists s, s ∈ starts /\ rtc (onward stop) s x;
  fd_closed : forall x, x ∈ seen -> x ∉ stop -> x ∈ work \/ forall y, leads x y -> y ∈ seen }.

Lemma flood_ok fuel starts stop seen work :
  flooded starts stop seen work -> (length work + length (blocks f) <= fuel + size seen)%nat ->
  exists seen', flood next fuel f seen work = Some seen' /\ seen ⊆ seen' /\ flooded starts stop seen' [].
Proof using All.
  revert seen work. induction fuel as [|fuel IH]; intros seen [|x work] Hf Hsize; cbn [flood]; try by exists seen.
  - exfalso. assert (size seen <= length (blocks f))%nat; [|cbn in Hsize; lia].
    transitivity (size (list_to_set (C := gset N) (blockHandles f))).
    + apply subseteq_size. intros y Hy. apply elem_of_list_to_set, elem_of_blockHandles; [by apply cfg_small|by apply (fd_blocks _ _ _ _ Hf)].
    + rewrite size_list_to_set by apply NoDup_blockHandles. unfold blockHandles. by rewrite length_fmap, length_seq.
  - destruct Hf as [Hb Hst Hw Hfo Hc]. destruct (Hw x ltac:(by left)) as [Hx Hxs]. destruct (hasBlock_lookup f x (Hb x Hx)) as [blk Hblk].
    rewrite Hblk. cbn [mbind option_bind]. destruct (insertNew (next blk) seen work) as [seen' work'] eqn:E.
    pose proof (insertNew_size _ _ _ _ _ E) as Hlen. apply insertNew_spec in E as (Hs & new & -> & Hn & Hnew).
    assert (forall y, leads x y <-> y ∈ next blk) as Hl.
    { intros y. unfold leads. rewrite Hblk. naive_solver. }
    destruct (IH seen' (new ++ work)) as (seen2 & Hrun & Hsub & Hf2); [|cbn in Hsize; lia|].
    + split.
      * intros y [Hy|Hy]%Hs; [by apply Hb|]. by apply (Hnext x), Hl.
      * intros y Hy. apply Hs. left. by apply Hst.
      * intros y [[Hy Hys]%Hnew|Hy]%elem_of_app; [split; [apply Hs; by right|by intros ?%Hst]|].
        destruct (Hw y ltac:(by right)). split; [apply Hs; by left|done].
      * intros y Hy. destruct (decide (y ∈ seen)) as [Hys|Hys]; [by apply Hfo|]. apply Hs in Hy as [|Hy]; [done|]. right.
        destruct (Hfo x Hx) as [|(s & Hss & Hsx)]; [done|]. exists s. split; [done|]. eapply rtc_r; [exact Hsx|].
        split; [by apply Hl|by intros ?%Hst].
      * intros y Hy Hys. destruct (decide (y = x)) as [->|Hne]; [right; intros z Hz; apply Hs; right; by apply Hl|].
        destruct (decide (y ∈ seen)) as [Hyseen|Hyseen]; [|apply Hs in Hy as [|Hy]; [done|left; apply elem_of_app; left; by apply Hnew]].
        destruct (Hc y Hyseen Hys) as [[|Hyw]%elem_of_cons|Hcl]; [done|left; apply elem_of_app; by right|right].
        intros z Hz. apply Hs. left. by apply Hcl.
    + exists seen2. split_and!; [done| |done]. intros y Hy. apply Hsub, Hs. by left.
Qed.

(** Everything that can be reached, and nothing else. *)
Lemma flooded_exact starts stop seen x :
  flooded starts stop seen [] -> (forall s, s ∈ starts -> s ∈ seen /\ s ∉ stop) ->
  x ∈ seen <-> x ∈ stop \/ exists s, s ∈ starts /\ rtc (onward stop) s x.
Proof.
  intros [_ Hst _ Hfo Hc] Hstarts. split; [apply Hfo|]. intros [Hx|(s & Hs & Hsx)]; [by apply Hst|].
  destruct (Hstarts s Hs) as [Hin Hnot]. assert (x ∈ seen /\ x ∉ stop) as [? _]; [|done]. clear Hstarts Hs Hfo.
  induction Hsx as [|a b c [Hab Hb] _ IH]; [done|]. destruct (Hc a Hin Hnot) as [[]%elem_of_nil|Hcl]. apply IH; [by apply Hcl|done].
Qed.
End Flood.

Section Analyses.
Context (f : Function) (Hok : cfg_ok f) (Hentry : hasBlock f (entryBlock f) = true).

Lemma leads_edge a b : leads f successors a b <-> edge f a b.
Proof.
  unfold leads, edge, succsOf. split; [intros (blk & -> & Hb); exact Hb|].
  destruct (blockAtId f a) as [blk|]; [intros Hb; by exists blk|by intros ?%elem_of_nil].
Qed.

Lemma leads_pred a b : leads f predecessors a b <-> edge f b a.
Proof using Hok.
  unfold edge. rewrite <- (cfg_dual _ Hok). unfold leads, predsOf. split; [intros (blk & -> & Hb); exact Hb|].
  destruct (blockAtId f a) as [blk|]; [intros Hb; by exists blk|by intros ?%elem_of_nil].
Qed.

Lemma reachableBlocks_exact : exists s, reachableBlocks f = Some s /\ forall b, b ∈ s <-> reachable f b.
Proof using All.
  unfold reachableBlocks. rewrite Hentry. cbn [negb].
  destruct (flood_ok f Hok successors) with (fuel := floodFuel f) (starts := [entryBlock f]) (stop := ∅ : gset N)
    (seen := {[entryBlock f]} : gset N) (work := [entryBlock f]) as (s & Hs & Hsub & Hf).
  - intros a b Hab%leads_edge. by eapply cfg_target.
  - split.
    + by intros x ->%elem_of_singleton.
    + set_solver.
    + intros x ->%list_elem_of_singleton. set_solver.
    + intros x ->%elem_of_singleton. right. exists (entryBlock f). split; [by left|constructor].
    + intros x ->%elem_of_singleton _. left. by left.
  - rewrite size_singleton. unfold floodFuel. cbn. lia.
  - exists s. split; [done|]. intros b. rewrite (flooded_exact f successors _ _ _ b Hf).
    + unfold reachable. split.
      * intros [[]%elem_of_empty|(x & ->%list_elem_of_singleton & Hr)]. eapply rtc_subrel; [|exact Hr]. by intros a c [Hac%leads_edge _].
      * intros Hr. right. exists (entryBlock f). split; [by left|]. eapply rtc_subrel; [|exact Hr]. intros a c Hac.
        split; [by apply leads_edge|apply not_elem_of_empty].
    + intros x ->%list_elem_of_singleton. split; [apply Hsub; set_solver|apply not_elem_of_empty].
Qed.

(** *** Natural loops *)

(** An edge that does not touch the header. *)
Definition avoiding (h a b : N) : Prop := edge f a b /\ a <> h /\ b <> h.

Lemma onward_avoiding h s x : s <> h ->
  rtc (fun a b => leads f predecessors a b /\ b ∉ ({[h]} : gset N)) s x <-> rtc (avoiding h) x s.
Proof using Hok.
  intros Hs. split.
  - intros H. assert (x <> h /\ rtc (avoiding h) x s) as [_ ?]; [|done].
    revert x H. apply rtc_ind_r; [split; [done|constructor]|]. intros a b _ [Hab%leads_pred Hb] [Ha IH].
    apply not_elem_of_singleton in Hb. split; [done|]. eapply rtc_l; [|exact IH]. by split_and!.
  - induction 1 as [|a b c (Hab & Ha & Hb) _ IH]; [constructor|]. eapply rtc_r; [by apply IH|]. split; [by apply leads_pred|by apply not_elem_of_singleton].
Qed.

Lemma naturalLoop_ok h latches : hasBlock f h = true -> (forall a, a ∈ latches -> hasBlock f a = true) ->
  exists l, naturalLoop f h latches = Some l /\ loopHeader l = h /\ loopLatches l = latches /\
    forall x, x ∈ loopBlocks l <-> x = h \/ exists a, a ∈ latches /\ a <> h /\ rtc (avoiding h) x a.
Proof using All.
  intros Hh Hl. unfold naturalLoop. set (starts := filter (fun latch => latch <> h) latches).
  assert (forall a, a ∈ starts <-> a ∈ latches /\ a <> h) as Hst by (intros a; unfold starts; rewrite list_elem_of_filter; tauto).
  destruct (insertNew starts {[h]} []) as [seen work] eqn:E. pose proof (insertNew_size _ _ _ _ _ E) as Hsize.
  apply insertNew_spec in E as (Hs & new & -> & Hn & Hnew). rewrite size_singleton in Hsize.
  destruct (flood_ok f Hok predecessors) with (fuel := floodFuel f) (starts := starts) (stop := {[h]} : gset N)
    (seen := seen) (work := new ++ []) as (blocks & Hrun & Hsub & Hf).
  - intros a b Hab%leads_pred. apply cfg_dual in Hab; [|done]. by eapply cfg_source.
  - split.
    + intros x [->%elem_of_singleton|Hx]%Hs; [done|]. apply Hst in Hx as [? _]. auto.
    + intros x Hx. apply Hs. by left.
    + intros x. rewrite app_nil_r. intros [Hx Hxn]%Hnew. split; [apply Hs; by right|done].
    + intros x [Hx|Hx]%Hs; [by left|]. right. exists x. split; [done|constructor].
    + intros x [Hx|Hx]%Hs Hxn; [done|]. left. rewrite app_nil_r. by apply Hnew.
  - unfold floodFuel. cbn in Hsize |- *. lia.
  - rewrite Hrun. cbn [mbind option_bind]. eexists. split_and!; [done..|]. intros x. cbn [loopBlocks].
    rewrite (flooded_exact f predecessors starts {[h]} blocks x Hf).
    + rewrite elem_of_singleton. split; (intros [|(a & Ha & Hax)]; [by left|right; exists a]).
      * apply Hst in Ha as [Ha Hne]. split_and!; [done..|]. by apply onward_avoiding.
      * destruct Hax as [Hne Hax]. split; [by apply Hst|by apply onward_avoiding].
    + intros a Ha. split; [apply Hsub, Hs; by right|]. apply Hst in Ha as [_ ?]. by apply not_elem_of_singleton.
Qed.

Section Dominated.
Context (order : list N) (t : Dominators) (Hrpo : rpo_ok f order) (Ht : dominators_ok f order t).

Lemma edgesFrom_ok from succs : reachable f from -> (forall b, b ∈ succs -> edge f from b) ->
  exists es, edgesFrom t from succs = Some es /\ forall e, e ∈ es <-> edgeFrom e = from /\ edgeHeader e ∈ succs /\ Dom f (edgeHeader e) from.
Proof using All.
  intros Hr. induction succs as [|to succs IH]; intros Hs; cbn [edgesFrom].
  { exists []. split; [done|]. intros e. split; [by intros []%elem_of_nil|by intros (_ & []%elem_of_nil & _)]. }
  destruct (dominates_ok f Hok Hentry order t to from Hrpo Ht) as (d & -> & Hd). cbn [mbind option_bind].
  assert (reachable f to) as Hto by (eapply rtc_r; [exact Hr|apply Hs; by left]).
  rewrite decide_True in Hd by (split; by apply (domReachable_ok f Hok Hentry order t _ Hrpo Ht)).
  destruct IH as (es & -> & Hes); [intros b Hb; apply Hs; by right|]. cbn [mbind option_bind]. eexists. split; [done|].
  intros e. destruct d.
  - rewrite elem_of_cons, Hes, elem_of_cons. destruct e as [a h]. cbn. split; [intros [[= -> ->]|]; naive_solver|].
    intros (-> & [->|Hh] & Hdom); [by left|by right].
  - rewrite Hes, elem_of_cons. destruct e as [a h]. cbn. split; [naive_solver|]. intros (-> & [->|Hh] & Hdom); [|done].
    apply Hd in Hdom. done.
Qed.

Lemma edgesOver_ok blocks : (forall b, b ∈ blocks -> reachable f b) ->
  exists es, edgesOver f t blocks = Some es /\
    forall e, e ∈ es <-> edgeFrom e ∈ blocks /\ edge f (edgeFrom e) (edgeHeader e) /\ Dom f (edgeHeader e) (edgeFrom e).
Proof using All.
  induction blocks as [|b blocks IH]; intros Hr; cbn [edgesOver].
  { exists []. split; [done|]. intros e. rewrite !elem_of_nil. tauto. }
  destruct (reached_block f Hok Hentry b (Hr b ltac:(by left))) as (_ & blk & -> & Hsucc). cbn [mbind option_bind].
  destruct (edgesFrom_ok b (successors blk)) as (es & -> & Hes); [apply Hr; by left|intros c Hc; unfold edge; by rewrite Hsucc|].
  destruct IH as (es' & -> & Hes'); [intros c Hc; apply Hr; by right|]. cbn [mbind option_bind]. eexists. split; [done|].
  intros e. rewrite elem_of_app, Hes, Hes', elem_of_cons, <- Hsucc. unfold edge. split.
  - intros [(-> & ? & ?)|(? & ? & ?)]; [split_and!; [by left|done..]|split_and!; [by right|done..]].
  - intros ([He|He] & ? & ?); [left; by rewrite He in *|by right].
Qed.

Lemma backEdges_ok : exists es, backEdges f t = Some es /\
  forall a h, MkBackEdge a h ∈ es <-> reachable f a /\ edge f a h /\ Dom f h a.
Proof using All.
  unfold backEdges. rewrite (do_rpo _ _ _ Ht). destruct (edgesOver_ok order) as (es & -> & Hes); [intros b; apply (rpo_reachable _ _ Hrpo)|].
  exists es. split; [done|]. intros a h. rewrite Hes. cbn. by rewrite (rpo_reachable _ _ Hrpo).
Qed.

(** The header of a loop dominates the blocks of it that can be reached. *)
Lemma loop_dominated h a x : Dom f h a -> rtc (avoiding h) x a -> a <> h -> Dom f h x.
Proof using Hok.
  intros Hd Hxa Hne l Hl. destruct (decide (h ∈ l)) as [|Hno]; [done|]. exfalso. revert l Hl Hno.
  induction Hxa as [|x y z (Hxy & Hx & Hy) _ IH]; intros l Hl Hno; [by apply Hno, Hd|].
  apply (IH Hd Hne (y :: l)); [by econstructor|]. apply not_elem_of_cons. done.
Qed.

Lemma groupByHeader_spec es groups h :
  (h ∈ dom (groupByHeader es groups) <-> h ∈ dom groups \/ exists a, MkBackEdge a h ∈ es) /\
  forall a, a ∈ default [] (groupByHeader es groups !! h) <-> a ∈ default [] (groups !! h) \/ MkBackEdge a h ∈ es.
Proof.
  revert groups. induction es as [|[b k] es IH]; intros groups; cbn [groupByHeader edgeHeader edgeFrom].
  { split; [|intros a]; setoid_rewrite elem_of_nil; naive_solver. }
  destruct (IH (<[k := default [] (groups !! k) ++ [b]]> groups)) as [IHd IHa]. split.
  - rewrite IHd, dom_insert, elem_of_union, elem_of_singleton. setoid_rewrite elem_of_cons. split.
    + intros [[->|]|[a Ha]]; [right; exists b; by left|by left|right; exists a; by right].
    + intros [|(a & [[= -> ->]|Ha])]; [left; by right|left; by left|right; by exists a].
  - intros a. rewrite IHa, elem_of_cons. destruct (decide (h = k)) as [->|Hne].
    + rewrite lookup_insert_eq. cbn [default from_option id]. rewrite elem_of_app, list_elem_of_singleton. split.
      * intros [[| ->]|]; [by left|right; by left|right; by right].
      * intros [|[[= ->]|]]; [left; by left|left; by right|by right].
    + rewrite lookup_insert_ne by done. split; [intros [|]; [by left|right; by right]|]. intros [|[[= -> ->]|]]; [by left|done|by right].
Qed.

Lemma naturalLoops_ok : exists loops, naturalLoops f t = Some loops /\ StronglySorted N.lt (loopHeader <$> loops) /\
  (forall h, h ∈ loopHeader <$> loops <-> exists a, reachable f a /\ edge f a h /\ Dom f h a) /\
  forall l, l ∈ loops ->
    (forall a, a ∈ loopLatches l <-> reachable f a /\ edge f a (loopHeader l) /\ Dom f (loopHeader l) a) /\
    forall x, x ∈ loopBlocks l <-> x = loopHeader l \/ exists a, a ∈ loopLatches l /\ a <> loopHeader l /\ rtc (avoiding (loopHeader l)) x a.
Proof using All.
  unfold naturalLoops. destruct backEdges_ok as (es & -> & Hes). cbn [mbind option_bind].
  set (groups := groupByHeader es ∅). set (headers := merge_sort N.le (elements (dom groups))).
  assert (forall h, h ∈ headers <-> exists a, MkBackEdge a h ∈ es) as Hheaders.
  { intros h. unfold headers. rewrite merge_sort_Permutation, elem_of_elements. unfold groups.
    rewrite (proj1 (groupByHeader_spec es ∅ h)), dom_empty. set_solver. }
  assert (forall h a, a ∈ default [] (groups !! h) <-> MkBackEdge a h ∈ es) as Hgroups.
  { intros h a. unfold groups. rewrite (proj2 (groupByHeader_spec es ∅ h)), lookup_empty. cbn. rewrite elem_of_nil. tauto. }
  assert (StronglySorted N.lt headers) as Hsorted.
  { assert (StronglySorted N.le headers) as Hs by (apply (StronglySorted_merge_sort _)).
    assert (NoDup headers) as Hn by (unfold headers; rewrite merge_sort_Permutation; apply NoDup_elements).
    clear - Hs Hn. induction Hs as [|h hs Hs IH Hh]; [constructor|]. apply NoDup_cons in Hn as [Hnot Hn]. constructor; [auto|].
    rewrite Forall_forall in Hh |- *. intros y Hy. specialize (Hh y Hy). destruct (decide (h = y)) as [->|]; [done|lia]. }
  assert (forall h, h ∈ headers -> exists l, naturalLoop f h (default [] (groups !! h)) = Some l /\ loopHeader l = h /\
    loopLatches l = default [] (groups !! h) /\
    forall x, x ∈ loopBlocks l <-> x = h \/ exists a, a ∈ default [] (groups !! h) /\ a <> h /\ rtc (avoiding h) x a) as Hloop.
  { intros h [a0 Ha0]%Hheaders. apply Hes in Ha0 as (Hr0 & He0 & _). apply naturalLoop_ok; [by eapply cfg_target|].
    intros a Ha%Hgroups%Hes. apply (reachable_block f Hok); [apply Ha|done]. }
  clearbody headers. destruct (mapM (fun h => naturalLoop f h (default [] (groups !! h))) headers) as [loops|] eqn:Em.
  2: { apply mapM_None, Exists_exists in Em as (h & Hh & Hn). destruct (Hloop h Hh) as (l & Hl & _). congruence. }
  apply mapM_Some in Em. exists loops. split; [done|].
  assert (loopHeader <$> loops = headers) as Hmap.
  { clear Hsorted Hheaders. induction Em as [|h l hs ls Hl Hls IH]; [done|]. cbn. destruct (Hloop h ltac:(by left)) as (l' & Hl' & Hh & _).
    f_equal; [congruence|]. apply IH. intros k Hk. apply Hloop. by right. }
  rewrite Hmap. split_and!; [done| |].
  - intros h. rewrite Hheaders. by setoid_rewrite Hes.
  - intros l [k Hk]%list_elem_of_lookup. destruct (Forall2_lookup_r _ _ _ _ _ Em Hk) as (h & Hh & Hl).
    destruct (Hloop h) as (l' & Hl' & Hlh & Hlat & Hblocks); [by eapply list_elem_of_lookup_2|]. assert (l' = l) as -> by congruence.
    split.
    + intros a. by rewrite Hlat, Hgroups, Hes, Hlh.
    + intros x. by rewrite Hblocks, Hlh, Hlat.
Qed.
End Dominated.
End Analyses.

(** C21 Natural loops are what their definition says: the computation ends, with
    one loop for each block that dominates one of its reachable predecessors, in
    the order of the headers. The latches of a loop are those predecessors; its
    blocks are the header and all that reach a latch without touching the header,
    and the header dominates them. *)
Theorem natural_loops_correct f :
  cfg_ok f -> hasBlock f (entryBlock f) = true ->
  exists t loops, computeDominators f = Some t /\ naturalLoops f t = Some loops /\
    StronglySorted N.lt (loopHeader <$> loops) /\
    (forall h, h ∈ loopHeader <$> loops <-> exists a, reachable f a /\ edge f a h /\ Dom f h a) /\
    forall l, l ∈ loops ->
      (forall a, a ∈ loopLatches l <-> reachable f a /\ edge f a (loopHeader l) /\ Dom f (loopHeader l) a) /\
      (forall x, x ∈ loopBlocks l <->
         x = loopHeader l \/ exists a, a ∈ loopLatches l /\ a <> loopHeader l /\ rtc (avoiding f (loopHeader l)) x a) /\
      (forall x, x ∈ loopBlocks l -> Dom f (loopHeader l) x).
Proof.
  intros Hok He. destruct (dominators_computed f Hok He) as (order & t & Hrpo & Ht & Hdom).
  destruct (naturalLoops_ok f Hok He order t Hrpo Hdom) as (loops & Hrun & Hs & Hh & Hl). exists t, loops.
  split_and!; [done..|]. intros l Hin. destruct (Hl l Hin) as [Hlat Hblocks]. split_and!; [done..|].
  intros x Hx. apply Hblocks in Hx as [->|(a & Ha & Hne & Hxa)]; [apply Dom_refl|].
  apply (loop_dominated f Hok _ a); [by apply Hlat|done|done].
Qed.

(** *** Reducibility *)

Section Entries.
Context (f : Function) (Hok : cfg_ok f) (Hentry : hasBlock f (entryBlock f) = true) (t : Sccs) (Ht : sccs_ok f t).

(** A member of a component has a reachable predecessor outside of it. *)
Definition enters (pred member : N) : Prop :=
  componentOf t pred <> kInvalidIndex /\ componentOf t pred <> componentOf t member.
Definition entered (member : N) : Prop := exists pred, edge f pred member /\ enters pred member.

Lemma enteringBlock_spec member preds entry : handleValid member = true ->
  match enteringBlock t member preds entry with
  | None => handleValid entry = true /\ entry <> member /\ exists p, p ∈ preds /\ enters p member
  | Some entry' => (entry' = entry /\ forall p, p ∈ preds -> ~ enters p member) \/
      (entry' = member /\ (handleValid entry = true -> entry = member) /\ exists p, p ∈ preds /\ enters p member)
  end.
Proof.
  intros Hm. revert entry. induction preds as [|p preds IH]; intros entry; cbn [enteringBlock].
  { left. split; [done|]. by intros p ?%elem_of_nil. }
  assert (forall e, ~ enters p member -> match enteringBlock t member preds e with
    | None => handleValid e = true /\ e <> member /\ exists q, q ∈ p :: preds /\ enters q member
    | Some e' => (e' = e /\ forall q, q ∈ p :: preds -> ~ enters q member) \/
        (e' = member /\ (handleValid e = true -> e = member) /\ exists q, q ∈ p :: preds /\ enters q member)
    end) as Hskip.
  { intros e Hp. specialize (IH e). destruct (enteringBlock t member preds e) as [e'|].
    - destruct IH as [[? Hno]|(? & ? & q & Hq & Hqm)]; [left; split; [done|by intros q [->|Hq]%elem_of_cons; [|apply Hno]]|].
      right. split_and!; [done..|]. exists q. split; [by right|done].
    - destruct IH as (? & ? & q & Hq & Hqm). split_and!; [done..|]. exists q. split; [by right|done]. }
  unfold enters in Hskip at 1. destruct (N.eqb_spec (componentOf t p) kInvalidIndex); [apply Hskip; tauto|].
  destruct (N.eqb_spec (componentOf t p) (componentOf t member)); [apply Hskip; tauto|]. clear Hskip.
  assert (enters p member) as Hp by by split. destruct (handleValid entry) eqn:Hv; cbn [negb].
  - destruct (N.eqb_spec entry member) as [->|Hne]; cbn [negb]; [|split_and!; [done..|exists p; split; [by left|done]]].
    specialize (IH member). destruct (enteringBlock t member preds member) as [e|]; [|naive_solver].
    right. split_and!; [naive_solver|done|exists p; split; [by left|done]].
  - specialize (IH member). destruct (enteringBlock t member preds member) as [e|]; [|naive_solver].
    right. split_and!; [naive_solver|done|exists p; split; [by left|done]].
Qed.

Lemma singleEntry_spec members entry : (forall m, m ∈ members -> reachable f m) ->
  exists b, singleEntry f t members entry = Some b /\
    (b = true <-> forall m, m ∈ members -> entered m ->
       (handleValid entry = true -> entry = m) /\ forall m', m' ∈ members -> entered m' -> m = m').
Proof using All.
  revert entry. induction members as [|m members IH]; intros entry Hr; cbn [singleEntry].
  { exists true. split; [done|]. split; [by intros _ m ?%elem_of_nil|done]. }
  assert (reachable f m) as Hm by (apply Hr; by left). destruct (reached_block f Hok Hentry m Hm) as (_ & blk & Hblk & _).
  assert (hasBlock f m = true) as Hmb by by eapply blockAtId_hasBlock. destruct (hasBlock_lt f m Hmb) as [_ Hmv].
  assert (forall p, p ∈ predecessors blk <-> edge f p m) as Hp.
  { intros p. unfold edge. rewrite <- (cfg_dual _ Hok). unfold predsOf. by rewrite Hblk. }
  rewrite Hblk. cbn [mbind option_bind]. pose proof (enteringBlock_spec m (predecessors blk) entry Hmv) as He.
  assert ((exists p, p ∈ predecessors blk /\ enters p m) <-> entered m) as Hent by (unfold entered; by setoid_rewrite Hp).
  assert ((forall p, p ∈ predecessors blk -> ~ enters p m) <-> ~ entered m) as Hnent by (rewrite <- Hent; naive_solver).
  destruct (enteringBlock t m (predecessors blk) entry) as [e|]; rewrite Hent, ?Hnent in He; clear Hp Hent Hnent Hblk.
  - destruct (IH e) as (b & Hb & Hiff); [intros x Hx; apply Hr; by right|]. exists b. split; [done|]. rewrite Hiff.
    destruct He as [[-> Hno]|(-> & Hsame & Hent)]; split.
    + intros H x [->|Hx]%elem_of_cons Hxe; [done|]. destruct (H x Hx Hxe) as [H1 H2]. split; [done|].
      intros y [->|Hy]%elem_of_cons Hye; [done|by apply H2].
    + intros H x Hx Hxe. destruct (H x ltac:(by right) Hxe) as [H1 H2]. split; [done|]. intros y Hy. apply H2. by right.
    + intros H. assert (forall x, x ∈ m :: members -> entered x -> m = x) as Heq.
      { intros x [->|Hx]%elem_of_cons Hxe; [done|]. by apply (H x Hx Hxe). }
      intros x Hx Hxe. rewrite <- (Heq x Hx Hxe). split; [done|]. intros y Hy. by apply Heq.
    + intros H x Hx Hxe. split; [|intros y Hy; apply (H x); [by right|done|by right]]. intros _. apply (H m); [by left|done|by right|done].
  - exists false. split; [done|]. split; [done|]. intros H. destruct He as (Hv & Hne & Hent). exfalso. apply Hne.
    apply (H m); [by left|done..].
Qed.

Lemma allSingleEntry_spec comps : (forall c, c ∈ comps -> forall m, m ∈ compBlocks c -> reachable f m) ->
  exists b, allSingleEntry f t comps = Some b /\
    (b = true <-> forall c, c ∈ comps -> cyclic c = true ->
       forall m m', m ∈ compBlocks c -> m' ∈ compBlocks c -> entered m -> entered m' -> m = m').
Proof using All.
  induction comps as [|c comps IH]; intros Hr; cbn [allSingleEntry].
  { exists true. split; [done|]. split; [by intros _ c ?%elem_of_nil|done]. }
  destruct IH as (b & Hb & Hiff); [intros d Hd; apply Hr; by right|].
  destruct (cyclic c) eqn:Ec; cbn [negb].
  2: { exists b. split; [done|]. rewrite Hiff. split; intros H d; [intros [->|Hd]%elem_of_cons Hc; [congruence|by apply H]|].
       intros Hd. apply H. by right. }
  destruct (singleEntry_spec (compBlocks c) kInvalidIndex) as (ok & -> & Hsingle); [apply Hr; by left|]. cbn [mbind option_bind].
  assert (ok = true <-> forall m m', m ∈ compBlocks c -> m' ∈ compBlocks c -> entered m -> entered m' -> m = m') as Hone.
  { rewrite Hsingle. split; [intros H m m' Hm Hm' He He'; by apply (H m Hm He)|]. intros H m Hm He. split; [done|]. intros m' Hm' He'. auto. }
  destruct ok.
  - exists b. split; [done|]. rewrite Hiff. split; [intros H d [->|Hd]%elem_of_cons Hc; [by apply Hone|by apply H]|]. intros H d Hd. apply H. by right.
  - exists false. split; [done|]. split; [done|]. intros H. apply Hone. apply H; [by left|done].
Qed.

(** A component is entered from outside: the reachable edge does not lead back. *)
Lemma entered_spec m : entered m <-> exists p, reachable f p /\ edge f p m /\ ~ rtc (edge f) m p.
Proof using All.
  unfold entered, enters. split; intros (p & H).
  - destruct H as (Hpm & Hc & Hne). apply (componentOf_reachable f Hok Hentry t Ht) in Hc. exists p. split_and!; [done..|]. intros Hmp. apply Hne.
    apply (componentOf_connected f Hok Hentry t Ht); [done|]. split; [by apply rtc_once|done].
  - destruct H as (Hr & Hpm & Hno). exists p. split_and!; [done|by apply (componentOf_reachable f Hok Hentry t Ht)|].
    intros He. apply Hno. by apply (componentOf_connected f Hok Hentry t Ht) in He as [_ ?].
Qed.
End Entries.

(** C22 The test for reducibility decides what its comment says: it returns, and
    answers true if and only if no strongly connected component is entered from
    outside, by edges from reachable blocks, at two different blocks. *)
Theorem reducible_exact f :
  cfg_ok f -> hasBlock f (entryBlock f) = true ->
  exists t b, computeSccs f = Some t /\ isReducible f t = Some b /\
    (b = true <-> forall p m p' m',
       reachable f p -> edge f p m -> ~ rtc (edge f) m p -> reachable f p' -> edge f p' m' -> ~ rtc (edge f) m' p' ->
       rtc (edge f) m m' -> rtc (edge f) m' m -> m = m').
Proof.
  intros Hok He. destruct (sccs_computed f Hok He) as (t & Ht & Htok).
  destruct (allSingleEntry_spec f Hok He t Htok (components_ t)) as (b & Hb & Hiff).
  { intros c Hc m Hm. apply (sk_reach _ _ Htok), elem_of_closed. apply list_elem_of_lookup in Hc as [k Hk]. by exists k, c. }
  exists t, b. split_and!; [done..|]. rewrite Hiff. pose proof (entered_spec f Hok He t Htok) as Hent. split.
  - intros H p m p' m' Hp Hpm Hno Hp' Hpm' Hno' Hmm' Hm'm. destruct (decide (m = m')) as [|Hne]; [done|].
    assert (reachable f m) as Hm by (eapply rtc_r; [exact Hp|done]).
    apply (sk_reach _ _ Htok), elem_of_closed in Hm as (k & c & Hk & Hmc).
    assert (m' ∈ compBlocks c) as Hmc' by (by apply (co_class _ _ _ _ (sk_comps _ _ Htok k c Hk) m m')).
    apply (H c); [by eapply list_elem_of_lookup_2| |done..|apply Hent; by exists p|apply Hent; by exists p'].
    apply (co_cyclic _ _ _ _ (sk_comps _ _ Htok k c Hk)). exists m. split; [done|]. apply rtc_tc in Hmm' as [|Hmm']; [done|]. by eapply tc_rtc_r.
  - intros H c Hc _ m m' Hm Hm' (p & Hp & Hpm & Hno)%Hent (p' & Hp' & Hpm' & Hno')%Hent. apply list_elem_of_lookup in Hc as [k Hk].
    apply (co_class _ _ _ _ (sk_comps _ _ Htok k c Hk) m m' Hm) in Hm' as [? ?]. by apply (H p m p' m').
Qed.

(** ** On small functions *)

Example loop_loops :
  option_map (fun ls => (fun l => (loopHeader l, loopLatches l, elements (loopBlocks l))) <$> ls)
    (t ← computeDominators loopFunction; naturalLoops loopFunction t) = Some [(1, [2], [2; 1])] /\
  (t ← computeSccs loopFunction; isReducible loopFunction t) = Some true /\
  option_map elements (reachableBlocks loopFunction) = Some [2; 3; 1; 0].
Proof. split_and!; vm_compute; reflexivity. Qed.

(** A loop entered at its header only, around two blocks that branch to each
    other and are both entered from the header: neither dominates the other, yet
    the test answers true, for it only looks at whole components. *)
Definition nestedBuilder : M unit :=
  b0 ← createBlock 0; b1 ← createBlock 16; b2 ← createBlock 32; b3 ← createBlock 48;
  c ← undefined booleanType;
  appendBranch b0 0 b1;; appendCondBranch b1 16 c b2 b3;; appendCondBranch b2 32 c b3 b1;; appendBranch b3 48 b2;;
  mret tt.
Definition nestedUnlinked : Function := runBuilder nestedBuilder (newFunction emptyRegisterFile 0).
Definition nestedFunction : Function := default nestedUnlinked (rebuildEdges nestedUnlinked).

Example reducible_misses_nested :
  cfgOk nestedFunction = true /\ (t ← computeSccs nestedFunction; isReducible nestedFunction t) = Some true /\
  option_map (fun t => (dominates t 2 3, dominates t 3 2)) (computeDominators nestedFunction) = Some (Some false, Some false) /\
  succsOf nestedFunction 2 = [3; 1] /\ succsOf nestedFunction 3 = [2].
Proof. split_and!; vm_compute; reflexivity. Qed.

Lemma natural_loops_correct_witness :
  cfg_ok loopFunction /\ exists t loops, computeDominators loopFunction = Some t /\ naturalLoops loopFunction t = Some loops /\
    StronglySorted N.lt (loopHeader <$> loops).
Proof.
  split; [exact loop_cfg_ok|]. destruct (natural_loops_correct loopFunction loop_cfg_ok loop_entry) as (t & loops & Ht & Hl & Hs & _).
  exists t, loops. exact (conj Ht (conj Hl Hs)).
Defined.

Lemma reducible_exact_witness :
  cfg_ok loopFunction /\ exists t b, computeSccs loopFunction = Some t /\ isReducible loopFunction t = Some b.
Proof.
  split; [exact loop_cfg_ok|]. destruct (reducible_exact loopFunction loop_cfg_ok loop_entry) as (t & b & Ht & Hb & _).
  exists t, b. exact (conj Ht Hb).
Defined.
