(* ===== verification/Floats.v ===== *)
(** * IEEE floating point on bit patterns

    The [float] and [double] arithmetic the interpreter performs on values it
    holds as bit patterns: [std::bit_cast] in both directions, the arithmetic
    of the standard library's [SpecFloat] (round to nearest even), and the
    library functions [std::ceil], [std::ldexp] and [std::isnan]. A NaN result
    is the canonical quiet NaN; C++ leaves its payload to the hardware. *)
From Stdlib Require Export SpecFloat.
From S2P Require Import Prelude.

(** A format: precision, maximal exponent and width in bits. *)
Record Format : Set := MkFormat { prec : Z; emax : Z; width : Z }.
Definition float32 : Format := MkFormat 24 128 32.
Definition float64 : Format := MkFormat 53 1024 64.

Definition mantissaBits (fmt : Format) : Z := prec fmt - 1.
Definition exponentBits (fmt : Format) : Z := width fmt - prec fmt.
Definition fmtEmin (fmt : Format) : Z := 3 - emax fmt - prec fmt.

(** [std::bit_cast<float>] and [std::bit_cast<double>]. *)
Definition toFloat (fmt : Format) (bits : Z) : spec_float :=
  let s := Z.testbit bits (width fmt - 1) in
  let e := Z.shiftr bits (mantissaBits fmt) mod 2 ^ exponentBits fmt in
  let m := bits mod 2 ^ mantissaBits fmt in
  if e =? 0 then
    match m with
    | Zpos p => S754_finite s p (fmtEmin fmt)
    | _ => S754_zero s
    end
  else if e =? 2 ^ exponentBits fmt - 1 then
    (if m =? 0 then S754_infinity s else S754_nan)
  else
    match m + 2 ^ mantissaBits fmt with
    | Zpos p => S754_finite s p (e + fmtEmin fmt - 1)
    | _ => S754_nan
    end.

Definition signField (fmt : Format) (s : bool) : Z := if s then 2 ^ (width fmt - 1) else 0.

Definition ofFloat (fmt : Format) (x : spec_float) : Z :=
  (match x with
   | S754_zero s => signField fmt s
   | S754_infinity s =>
       signField fmt s + Z.shiftl (2 ^ exponentBits fmt - 1) (mantissaBits fmt)
   | S754_nan =>
       Z.shiftl (2 ^ exponentBits fmt - 1) (mantissaBits fmt) + 2 ^ (mantissaBits fmt - 1)
   | S754_finite s m e =>
       if Zpos m <? 2 ^ mantissaBits fmt then signField fmt s + Zpos m
       else signField fmt s + Z.shiftl (e - fmtEmin fmt + 1) (mantissaBits fmt)
            + (Zpos m - 2 ^ mantissaBits fmt)
   end) mod 2 ^ width fmt.

Definition isNaN (x : spec_float) : bool := match x with S754_nan => true | _ => false end.

(** The nearest float to an integer times a power of two. *)
Definition roundTo (fmt : Format) (m e : Z) : spec_float :=
  binary_normalize (prec fmt) (emax fmt) m e false.

(** [static_cast] between the formats. *)
Definition convertTo (fmt : Format) (x : spec_float) : spec_float :=
  match x with
  | S754_finite s m e =>
      binary_normalize (prec fmt) (emax fmt) (if s then Zneg m else Zpos m) e s
  | _ => x
  end.

(** [std::ldexp(1.0, n)]. *)
Definition ldexp1 (n : Z) : spec_float := roundTo float64 1 n.

(** Rounding a finite float toward minus infinity, and toward zero. *)
Definition floorZ (s : bool) (m : positive) (e : Z) : Z :=
  let v := if s then Zneg m else Zpos m in
  if 0 <=? e then v * 2 ^ e else v / 2 ^ (- e).
Definition truncZ (s : bool) (m : positive) (e : Z) : Z :=
  let v := if 0 <=? e then Zpos m * 2 ^ e else Zpos m / 2 ^ (- e) in
  if s then - v else v.

(** [std::ceil]; a zero result keeps the sign of the operand. *)
Definition ceilF (fmt : Format) (x : spec_float) : spec_float :=
  match x with
  | S754_finite s m e => binary_normalize (prec fmt) (emax fmt) (- floorZ (negb s) m e) 0 s
  | _ => x
  end.

(** [static_cast] of a float to an integer with the given range: undefined when
    the truncated value does not fit. *)
Definition toInteger (lowest highest : Z) (x : spec_float) : option Z :=
  match x with
  | S754_zero _ => Some 0
  | S754_finite s m e =>
      let v := truncZ s m e in
      if (lowest <=? v) && (v <=? highest) then Some v else None
  | _ => None
  end.

Definition toInt64 (x : spec_float) : option Z := toInteger (- 2 ^ 63) (2 ^ 63 - 1) x.
Definition toUint64 (x : spec_float) : option Z := toInteger 0 (2 ^ 64 - 1) x.

Lemma ofFloat_fits fmt x : 0 <= width fmt -> fits (width fmt) (ofFloat fmt x).
Proof. intros. by apply fits_mod. Qed.

Lemma toUint64_fits x n : toUint64 x = Some n -> fits 64 n.
Proof.
  unfold toUint64, toInteger, fits. destruct x as [| | |s m e]; try done; [by intros [= <-]|].
  destruct (_ && _) eqn:Hb; [|done]. intros [= <-]. lia.
Qed.

(** The decoding inverts the encoding on the formats' notable values. *)
Example toFloat_one : ofFloat float64 (roundTo float64 1 0) = 0x3FF0000000000000.
Proof. reflexivity. Qed.
Example toFloat_roundtrip :
  map (fun b => ofFloat float64 (toFloat float64 b))
    [0; 1; 0x000FFFFFFFFFFFFF; 0x0010000000000000; 0x3FF8000000000000; 0xC05EDCCCCCCCCCCD;
     0x7FEFFFFFFFFFFFFF; 0x7FF0000000000000; 0xFFF0000000000000; 0x7FF8000000000000]
  = [0; 1; 0x000FFFFFFFFFFFFF; 0x0010000000000000; 0x3FF8000000000000; 0xC05EDCCCCCCCCCCD;
     0x7FEFFFFFFFFFFFFF; 0x7FF0000000000000; 0xFFF0000000000000; 0x7FF8000000000000].
Proof. vm_compute. reflexivity. Qed.
Example float_sum :
  ofFloat float32 (SFadd 24 128 (toFloat float32 0x3DCCCCCD) (toFloat float32 0x3E4CCCCD)) = 0x3E99999A.
Proof. vm_compute. reflexivity. Qed.
