(* ===== verification/Eval.v ===== *)
(** * Meaning of expressions (il/interp.cpp [Interpreter::eval], il/ceval.cpp flags)

    The flag formulas the interpreter and the constant evaluator share, the
    interpreter's evaluation of one node over its operand values, the recursive
    evaluator with its depth limit, and the relation [Eval] that gives an
    expression its meaning without a limit. *)
From S2P Require Import Prelude Bits U128 Types Exprs Registers Func Floats.

(** ** Results *)

Module DiagCode.
Inductive DiagCode : Set :=
  | Ok | Internal | NotImplemented | IoError | BadFormat | UnsupportedFormat | UnsupportedArch
  | OutOfRange | UnmappedAddress | DecodeFailure | LiftFailure | ParseError | VerifyFailure
  | AnalysisLimit | PluginError | Cancelled | Timeout.
End DiagCode.
Abbreviation DiagCode := DiagCode.DiagCode.

#[export] Instance DiagCode_eq_dec : EqDecision DiagCode.
Proof. solve_decision. Defined.

(** A [Diag] without its prose: the code and the address, [None] for
    [kNoAddress]. *)
Record Diag : Set := MkDiag { diagCode : DiagCode; diagAddress : option Z }.

(** [Result<T>], with a third outcome for behaviour C++ leaves undefined and
    for failed assertions. *)
Inductive Res (A : Type) : Type := Ok (a : A) | Err (d : Diag) | Undefined.
Arguments Ok {A}. Arguments Err {A}. Arguments Undefined {A}.

Definition err {A} (c : DiagCode) : Res A := Err (MkDiag c None).
Definition errAt {A} (c : DiagCode) (address : Z) : Res A := Err (MkDiag c (Some address)).

(** [XDEC_TRY]. *)
#[export] Instance Res_ret : MRet Res := fun A x => Ok x.
#[export] Instance Res_bind : MBind Res := fun A B k r =>
  match r with Ok x => k x | Err d => Err d | Undefined => Undefined end.

Definition ofOption {A} (x : option A) : Res A :=
  match x with Some a => Ok a | None => Undefined end.

Lemma Ok_inj {A} (x y : A) : Ok x = Ok y -> x = y.
Proof. by intros [=]. Qed.

(** Evaluate left to right and stop at the first failure. *)
Fixpoint mapRes {A B} (g : A -> Res B) (l : list A) : Res (list B) :=
  match l with
  | [] => Ok []
  | x :: l => y ← g x; ys ← mapRes g l; Ok (y :: ys)
  end.

(** A value, or a diagnostic other than a verifier failure. *)
Definition good {A} (r : Res A) : Prop :=
  match r with
  | Ok _ => True
  | Err d => diagCode d <> DiagCode.VerifyFailure
  | Undefined => False
  end.

(** ** Flags *)

(** Bits N, Z, C and V in positions 3 to 0. *)
Definition nzcvOf (n z c v : bool) : Z :=
  Z.lor (Z.lor (Z.lor (if n then 8 else 0) (if z then 4 else 0)) (if c then 2 else 0))
    (if v then 1 else 0).

Definition signAt (width value : Z) : bool := negb (Z.land (shr64 value (width - 1)) 1 =? 0).

(** The common part of the two arithmetic cases: the result and the carry of
    [a + b + carryIn]. *)
Definition carryAdd (width a b carryIn : Z) : Z * bool :=
  if width =? 64 then
    let r1 := add64 a b in
    let c1 := r1 <? a in
    let r := add64 r1 carryIn in
    let c2 := r <? r1 in
    (r, c1 || c2)
  else
    let sum := add64 (add64 a b) carryIn in
    (Z.land sum (lowMask width), negb (Z.land (shr64 sum width) 1 =? 0)).

Definition flagAdd (width a b carryIn : Z) : Z :=
  let '(r, c) := carryAdd width a b carryIn in
  nzcvOf (signAt width r) (r =? 0) c
    (Bool.eqb (signAt width a) (signAt width b) && negb (Bool.eqb (signAt width r) (signAt width a))).

(** [~b] is used whole at width 64 and masked below it. *)
Definition flagSub (width a b carryIn : Z) : Z :=
  let notB := not64 b in
  let '(r, c) := carryAdd width a (if width =? 64 then notB else Z.land notB (lowMask width)) carryIn in
  nzcvOf (signAt width r) (r =? 0) c
    (negb (Bool.eqb (signAt width a) (signAt width b))
     && negb (Bool.eqb (signAt width r) (signAt width a))).

Definition flagLogical (width r : Z) : Z :=
  nzcvOf (signAt width r) (r =? 0) false false.

(** [evalFlagDef]. [None] is a read past the operand span or a shift by
    [width - 1] outside the word; an out-of-range [FlagOp] gives no flags. *)
Definition evalFlagDef (o : option FlagOp) (width : Z) (args : list ConcreteValue) : option Z :=
  let m := lowMask width in
  let wide := (1 <=? width) && (width <=? 64) in
  let get (i : nat) := lo <$> args !! i in
  match o with
  | Some FlagOp.Const => a ← get 0%nat; Some (Z.land a 15)
  | Some FlagOp.Logical =>
      a ← get 0%nat;
      if wide then Some (flagLogical width (Z.land a m)) else None
  | Some FlagOp.Add =>
      a ← get 0%nat; b ← get 1%nat;
      if wide then Some (flagAdd width (Z.land a m) (Z.land b m) 0) else None
  | Some FlagOp.AddCarry =>
      a ← get 0%nat; b ← get 1%nat; c ← get 2%nat;
      if wide then Some (flagAdd width (Z.land a m) (Z.land b m) (Z.land c 1)) else None
  | Some FlagOp.Sub =>
      a ← get 0%nat; b ← get 1%nat;
      if wide then Some (flagSub width (Z.land a m) (Z.land b m) 1) else None
  | Some FlagOp.SubCarry =>
      a ← get 0%nat; b ← get 1%nat; c ← get 2%nat;
      if wide then Some (flagSub width (Z.land a m) (Z.land b m) (Z.land c 1)) else None
  | None => Some 0
  end.

Definition evalCondition (c : option ConditionCode) (nzcv : Z) : bool :=
  let n := negb (Z.land nzcv 8 =? 0) in
  let z := negb (Z.land nzcv 4 =? 0) in
  let cf := negb (Z.land nzcv 2 =? 0) in
  let v := negb (Z.land nzcv 1 =? 0) in
  match c with
  | Some ConditionCode.Equal => z
  | Some ConditionCode.NotEqual => negb z
  | Some ConditionCode.CarrySet => cf
  | Some ConditionCode.CarryClear => negb cf
  | Some ConditionCode.Negative => n
  | Some ConditionCode.NonNegative => negb n
  | Some ConditionCode.Overflow => v
  | Some ConditionCode.NoOverflow => negb v
  | Some ConditionCode.UnsignedGreater => cf && negb z
  | Some ConditionCode.UnsignedLessEqual => negb cf || z
  | Some ConditionCode.SignedGreaterEqual => Bool.eqb n v
  | Some ConditionCode.SignedLess => negb (Bool.eqb n v)
  | Some ConditionCode.SignedGreater => negb z && Bool.eqb n v
  | Some ConditionCode.SignedLessEqual => z || negb (Bool.eqb n v)
  | Some ConditionCode.Always => true
  | Some ConditionCode.Never => false
  | None => false
  end.

Definition flagPosition (b : option FlagBitIndex) : Z :=
  match b with
  | Some FlagBitIndex.Negative => 3
  | Some FlagBitIndex.Zero => 2
  | Some FlagBitIndex.Carry => 1
  | _ => 0
  end.

(** ** One node *)

Definition boolValue (b : bool) : ConcreteValue := MkU128 (if b then 1 else 0) 0.

Definition widenFloat (width x : Z) : spec_float :=
  if width =? 32 then convertTo float64 (toFloat float32 (u32 x)) else toFloat float64 x.

Definition narrowFloat (width : Z) (x : spec_float) : ConcreteValue :=
  if width =? 32 then MkU128 (ofFloat float32 (convertTo float32 x)) 0
  else MkU128 (ofFloat float64 x) 0.

Definition floatArith (o : ExprOp) (fmt : Format) (x y : spec_float) : spec_float :=
  match o with
  | ExprOp.FAdd => SFadd (prec fmt) (emax fmt) x y
  | ExprOp.FSub => SFsub (prec fmt) (emax fmt) x y
  | ExprOp.FMul => SFmul (prec fmt) (emax fmt) x y
  | ExprOp.FDiv => SFdiv (prec fmt) (emax fmt) x y
  | _ => SFsqrt (prec fmt) (emax fmt) x
  end.

(** The conversions to integers: saturation, then the C++ cast, which is
    undefined when the value it is given does not fit. *)
Definition floatToSigned (w : Z) (x : spec_float) : Res ConcreteValue :=
  if isNaN x then Ok zero128
  else
    let upper := ldexp1 (w - 1) in
    let source :=
      if SFleb upper x then SFsub 53 1024 upper (ldexp1 0)
      else if SFltb x (SFopp upper) then SFopp upper else x in
    n ← ofOption (toInt64 source);
    Ok (mask (MkU128 (u64 n) 0) w).

Definition floatToUnsigned (w : Z) (x : spec_float) : Res ConcreteValue :=
  if isNaN x then Ok zero128
  else if SFleb x (S754_zero false) then Ok zero128
  else if SFleb (ldexp1 w) x then Ok (maskOf w)
  else n ← ofOption (toUint64 x); Ok (mask (MkU128 n 0) w).

(** The floating-point cases of [Interpreter::eval]; [fromWidth] is the width of
    operand zero's type.  A conversion that reads and writes a [double] moves
    the bits, a NaN's included. *)
Definition evalFloat (o : ExprOp) (w fromWidth : Z) (a b : U128) : Res ConcreteValue :=
  match o with
  | ExprOp.FAdd | ExprOp.FSub | ExprOp.FMul | ExprOp.FDiv | ExprOp.FSqrt =>
      if w =? 32 then
        Ok (MkU128 (ofFloat float32
              (floatArith o float32 (toFloat float32 (u32 (lo a))) (toFloat float32 (u32 (lo b))))) 0)
      else
        Ok (MkU128 (ofFloat float64
              (floatArith o float64 (toFloat float64 (lo a)) (toFloat float64 (lo b)))) 0)
  | ExprOp.FNeg =>
      Ok (MkU128 (Z.lxor (lo a) (if w =? 32 then 0x80000000 else shl64 1 63)) 0)
  | ExprOp.FAbs =>
      Ok (MkU128 (Z.land (lo a) (if w =? 32 then 0x7FFFFFFF else not64 (shl64 1 63))) 0)
  | ExprOp.FCeil =>
      if w =? 32 then Ok (MkU128 (ofFloat float32 (ceilF float32 (toFloat float32 (u32 (lo a))))) 0)
      else Ok (MkU128 (ofFloat float64 (ceilF float64 (toFloat float64 (lo a)))) 0)
  | ExprOp.FCmpEq | ExprOp.FCmpLt | ExprOp.FCmpLe | ExprOp.FCmpUnordered =>
      let x := widenFloat w (lo a) in
      let y := widenFloat w (lo b) in
      if isNaN x || isNaN y then Ok (boolValue (bool_decide (o = ExprOp.FCmpUnordered)))
      else match o with
           | ExprOp.FCmpEq => Ok (boolValue (SFeqb x y))
           | ExprOp.FCmpLt => Ok (boolValue (SFltb x y))
           | ExprOp.FCmpLe => Ok (boolValue (SFleb x y))
           | _ => Ok (boolValue false)
           end
  | ExprOp.FpConvert =>
      if (w =? 32) || (fromWidth =? 32) then Ok (narrowFloat w (widenFloat fromWidth (lo a)))
      else Ok (MkU128 (lo a) 0)
  | ExprOp.FpToIntS => floatToSigned w (widenFloat fromWidth (lo a))
  | ExprOp.FpToIntU => floatToUnsigned w (widenFloat fromWidth (lo a))
  | ExprOp.IntToFpS =>
      if fromWidth =? 0 then Undefined
      else Ok (narrowFloat w (roundTo float64 (toI64 (lo (sext a fromWidth 64))) 0))
  | ExprOp.IntToFpU => Ok (narrowFloat w (roundTo float64 (lo (zext a fromWidth 64)) 0))
  | _ => err DiagCode.Internal
  end.

Definition argAt (args : list U128) (i : nat) : U128 := default zero128 (args !! i).

(** [cond ? Undefined : r]: the shift by [width - 1] or the remainder by the
    width that C++ leaves undefined at width zero. *)
Definition guardWidth {A} (w : Z) (r : Res A) : Res A := if w =? 0 then Undefined else r.

Definition evalDivRem (o : ExprOp) (w : Z) (a b : U128) : Res ConcreteValue :=
  if 64 <? w then err DiagCode.NotImplemented
  else match o with
  | ExprOp.DivU =>
      if lo b =? 0 then Ok zero128 else Ok (mask (MkU128 (lo a / lo b) 0) w)
  | ExprOp.RemU =>
      if lo b =? 0 then Ok (mask a w) else Ok (mask (MkU128 (lo a mod lo b) 0) w)
  | ExprOp.DivS =>
      guardWidth w (
        let dividend := toI64 (lo (sext a w 64)) in
        let divisor := toI64 (lo (sext b w 64)) in
        if divisor =? 0 then Ok zero128
        else if (divisor =? -1) && (dividend =? - 2 ^ 63) then Undefined
        else
          let quotient := if divisor =? -1 then - dividend else Z.quot dividend divisor in
          Ok (mask (MkU128 (u64 quotient) 0) w))
  | _ =>
      guardWidth w (
        let dividend := toI64 (lo (sext a w 64)) in
        let divisor := toI64 (lo (sext b w 64)) in
        if divisor =? 0 then Ok (mask a w)
        else
          let remainder := if divisor =? -1 then 0 else Z.rem dividend divisor in
          Ok (mask (MkU128 (u64 remainder) 0) w))
  end.

(** The switch of [Interpreter::eval] on a node that is not a leaf, given the
    operands' types and values. *)
Definition evalOp (e : Expr) (ts : list Ty) (args : list U128) : Res ConcreteValue :=
  let w := bits (type e) in
  let a := argAt args 0 in
  let b := argAt args 1 in
  let widthOf (i : nat) := ofOption (bits <$> ts !! i) in
  match op e with
  | ExprOp.Add => Ok (add a b w).1
  | ExprOp.Sub => Ok (sub a b w)
  | ExprOp.Mul => Ok (mulLow a b w)
  | ExprOp.MulHiU =>
      if negb (w =? 64) then err DiagCode.NotImplemented
      else Ok (MkU128 (mul64x64 (lo a) (lo b)).1 0)
  | ExprOp.MulHiS =>
      if negb (w =? 64) then err DiagCode.NotImplemented
      else
        let h := (mul64x64 (lo a) (lo b)).1 in
        let h := if negb (shr64 (lo a) 63 =? 0) then sub64 h (lo b) else h in
        let h := if negb (shr64 (lo b) 63 =? 0) then sub64 h (lo a) else h in
        Ok (MkU128 h 0)
  | ExprOp.DivU | ExprOp.DivS | ExprOp.RemU | ExprOp.RemS => evalDivRem (op e) w a b
  | ExprOp.Neg => Ok (sub zero128 a w)
  | ExprOp.And => Ok (mask (and128 a b) w)
  | ExprOp.Or => Ok (mask (or128 a b) w)
  | ExprOp.Xor => Ok (mask (xor128 a b) w)
  | ExprOp.Not => Ok (xor128 a (maskOf w))
  | ExprOp.Shl => Ok (shl a w (u32 (lo b)))
  | ExprOp.ShrU => Ok (shrU a w (u32 (lo b)))
  | ExprOp.ShrS => guardWidth w (Ok (shrS a w (u32 (lo b))))
  | ExprOp.RotR => guardWidth w (Ok (rotR a w (u32 (lo b))))
  | ExprOp.RotL => guardWidth w (Ok (rotL a w (u32 (lo b))))
  | ExprOp.CmpEq => Ok (boolValue ((lo a =? lo b) && (hi a =? hi b)))
  | ExprOp.CmpNe => Ok (boolValue (negb (lo a =? lo b) || negb (hi a =? hi b)))
  | ExprOp.CmpLtU => Ok (boolValue (cmpU a b <? 0))
  | ExprOp.CmpLeU => Ok (boolValue (cmpU a b <=? 0))
  | ExprOp.CmpLtS => ow ← widthOf 0%nat; Ok (boolValue (cmpS a b ow <? 0))
  | ExprOp.CmpLeS => ow ← widthOf 0%nat; Ok (boolValue (cmpS a b ow <=? 0))
  | ExprOp.ZExt => fw ← widthOf 0%nat; Ok (zext a fw w)
  | ExprOp.SExt => fw ← widthOf 0%nat; guardWidth fw (Ok (sext a fw w))
  | ExprOp.Trunc => Ok (mask a w)
  | ExprOp.Bitcast => Ok (mask a w)
  | ExprOp.Extract => sw ← widthOf 0%nat; Ok (extract a sw (u32 (immediate e)) w)
  | ExprOp.Concat =>
      lowWidth ← widthOf 1%nat;
      Ok (mask (or128 (shl a w lowWidth) (mask b lowWidth)) w)
  | ExprOp.Clz => Ok (MkU128 (clzOf a w) 0)
  | ExprOp.Ctz => Ok (MkU128 (ctzOf a w) 0)
  | ExprOp.PopCount =>
      let v := mask a w in Ok (MkU128 (popcount (lo v) + popcount (hi v)) 0)
  | ExprOp.ByteSwap => Ok (bswapOf a w)
  | ExprOp.BitReverse => Ok (brevOf a w)
  | ExprOp.Select => Ok (if negb (Z.land (lo a) 1 =? 0) then b else argAt args 2)
  | ExprOp.FlagDef =>
      r ← ofOption (evalFlagDef (flagDefOp (immediate e)) (flagDefWidth (immediate e)) args);
      Ok (MkU128 r 0)
  | ExprOp.FlagCond =>
      Ok (boolValue (evalCondition (enumAt conditionCodes (immediate e)) (Z.land (lo a) 15)))
  | ExprOp.FlagBit =>
      Ok (boolValue (negb (Z.land (shr64 (lo a) (flagPosition (enumAt flagBits (immediate e)))) 1 =? 0)))
  | ExprOp.FpConvert | ExprOp.FpToIntS | ExprOp.FpToIntU | ExprOp.IntToFpS | ExprOp.IntToFpU =>
      fw ← widthOf 0%nat; evalFloat (op e) w fw a b
  | o => evalFloat o w 0 a b
  end.

(** What a block execution supplies to its expressions: the values defined so
    far and the registers' contents. *)
Record Env : Type := MkEnv { envValue : N -> Res ConcreteValue; envReg : N -> Res ConcreteValue }.

(** Any node, the leaves included. *)
Definition evalNode (env : Env) (e : Expr) (ts : list Ty) (args : list U128) : Res ConcreteValue :=
  match op e with
  | ExprOp.Const => Ok (mask (MkU128 (immediate e) 0) (bits (type e)))
  | ExprOp.Value => envValue env (Z.to_N (u32 (immediate e)))
  | ExprOp.Undef => err DiagCode.LiftFailure
  | ExprOp.EntryReg => envReg env (Z.to_N (u32 (immediate e)))
  | _ => evalOp e ts args
  end.

(** ** The recursive evaluator *)

Definition isFlagConsumer (o : ExprOp) : bool :=
  match o with ExprOp.FlagCond | ExprOp.FlagBit => true | _ => false end.

Definition tooWide (t : Ty) : bool := (128 <? bits t) && negb (isFlags t).

(** [evalFlagsOperand] over the evaluator [rec] at the next depth. *)
Definition evalFlagsOperandWith (rec : N -> Res ConcreteValue) (f : Function) (id : N)
  : Res ConcreteValue :=
  e ← ofOption (exprAt f id);
  if decide (op e = ExprOp.FlagDef) then
    args ← mapRes rec (operands e);
    r ← ofOption (evalFlagDef (flagDefOp (immediate e)) (flagDefWidth (immediate e)) args);
    Ok (MkU128 r 0)
  else v ← rec id; Ok (MkU128 (Z.land (lo v) 15) 0).

(** [Interpreter::eval]: [fuel] is the recursion left, [depth] the C++ argument.
    The depth test fires first whenever [fuel + depth > 512]. *)
Fixpoint evalRec (fuel : nat) (f : Function) (env : Env) (id : N) (depth : Z) : Res ConcreteValue :=
  if 512 <? depth then err DiagCode.AnalysisLimit
  else match fuel with
  | O => Undefined
  | S fuel =>
      e ← ofOption (exprAt f id);
      if tooWide (type e) then err DiagCode.Internal
      else
        args ← mapRes (fun x =>
          if isFlagConsumer (op e)
          then evalFlagsOperandWith (fun y => evalRec fuel f env y (depth + 2)) f x
          else evalRec fuel f env x (depth + 1)) (operands e);
        ts ← ofOption (mapM (typeAt f) (operands e));
        evalNode env e ts args
  end.

Definition eval (f : Function) (env : Env) (id : N) : Res ConcreteValue := evalRec 513 f env id 0.

(** ** The relation *)

#[local] Set Warnings "-register-all".

Section Relation.
(** [defined] restricts which node evaluations count; see [strict] below. *)
Context (defined : Expr -> list U128 -> bool) (f : Function) (env : Env).

Inductive Eval : N -> ConcreteValue -> Prop :=
| Eval_node id e ts args v :
    exprAt f id = Some e ->
    tooWide (type e) = false ->
    mapM (typeAt f) (operands e) = Some ts ->
    Forall2 Eval (operands e) args ->
    defined e args = true ->
    evalNode env e ts args = Ok v ->
    Eval id v.

(** Induction with the hypothesis for every operand. *)
Lemma Eval_ind' (P : N -> ConcreteValue -> Prop) :
  (forall id e ts args v,
    exprAt f id = Some e -> tooWide (type e) = false ->
    mapM (typeAt f) (operands e) = Some ts ->
    Forall2 Eval (operands e) args -> Forall2 P (operands e) args ->
    defined e args = true -> evalNode env e ts args = Ok v -> P id v) ->
  forall id v, Eval id v -> P id v.
Proof.
  intros Hstep. fix IH 3. intros id v [id' e ts args v' He Hw Ht Hargs Hd Hv].
  apply (Hstep id' e ts args v' He Hw Ht Hargs); [|done..].
  clear -IH Hargs. induction Hargs as [|x a xs as_ Hx _ IHl]; constructor; [by apply IH|done].
Qed.

Lemma Eval_inv id v e :
  Eval id v -> exprAt f id = Some e ->
  exists ts args, tooWide (type e) = false /\ mapM (typeAt f) (operands e) = Some ts /\
    Forall2 Eval (operands e) args /\ defined e args = true /\ evalNode env e ts args = Ok v.
Proof. intros [id' e' ts args v' He **] He'. simplify_eq. by exists ts, args. Qed.

Lemma Eval_det id v1 v2 : Eval id v1 -> Eval id v2 -> v1 = v2.
Proof.
  intros H1. revert v2. induction H1 as [id e ts args v He Hw Ht Hargs IH Hd Hv] using Eval_ind'.
  intros v2 H2. destruct (Eval_inv _ _ _ H2 He) as (ts' & args' & _ & Ht' & Hargs' & _ & Hv').
  simplify_eq. assert (args = args') as <-; [|congruence].
  clear -IH Hargs'. revert args' Hargs'.
  induction IH as [|x a xs as_ Hx _ IHl]; intros args' Hargs'; inversion Hargs'; subst; [done|].
  f_equal; auto.
Qed.
End Relation.

(** Every evaluation counts. *)
Definition anyNode (e : Expr) (args : list U128) : bool := true.

(** The floating-point operations the interpreter implements at widths other
    than 32 and 64 leave bits of the 64-bit format above the width. *)
Definition floatSized (e : Expr) : bool :=
  match op e with
  | ExprOp.FAdd | ExprOp.FSub | ExprOp.FMul | ExprOp.FDiv | ExprOp.FNeg | ExprOp.FAbs
  | ExprOp.FSqrt | ExprOp.FCeil | ExprOp.FpConvert | ExprOp.IntToFpS | ExprOp.IntToFpU =>
      (bits (type e) =? 32) || (64 <=? bits (type e))
  | _ => true
  end.

(** Evaluations on which the interpreter and the constant evaluator are meant to
    agree: no remainder by zero, where they return different values; no bitcast
    that drops bits, which only the interpreter masks; floats of width 32 or of
    64 and more. *)
Definition strictNode (e : Expr) (args : list U128) : bool :=
  match op e with
  | ExprOp.RemU | ExprOp.RemS => negb (lo (argAt args 1) =? 0)
  | ExprOp.Bitcast => bool_decide (mask (argAt args 0) (bits (type e)) = argAt args 0)
  | _ => floatSized e
  end.

Abbreviation Evaluates := (Eval anyNode).
Abbreviation Strict := (Eval strictNode).

Lemma Strict_Evaluates f env id v : Strict f env id v -> Evaluates f env id v.
Proof.
  induction 1 as [id e ts args v He Hw Ht Hargs IH Hd Hv] using Eval_ind'. by econstructor.
Qed.

(** Opcodes on which every evaluation is strict. *)
Definition strictOp (e : Expr) : bool :=
  match op e with
  | ExprOp.RemU | ExprOp.RemS | ExprOp.Bitcast => false
  | _ => floatSized e
  end.

Lemma Evaluates_Strict f env id v :
  forallb strictOp (exprs (pool f)) = true -> Evaluates f env id v -> Strict f env id v.
Proof.
  rewrite forallb_forall. intros Hs.
  induction 1 as [id e ts args v He Hw Ht Hargs IH Hd Hv] using Eval_ind'. econstructor; try done.
  apply vget_Some in He as [He _]. apply list_elem_of_lookup_2, list_elem_of_In, Hs in He.
  unfold strictOp in He. unfold strictNode. by destruct (op e).
Qed.
