(* ===== verification/VerifyExpr.v ===== *)
(** * Expression checks of the verifier (il/verify.cpp)

    [checkExpressions] and [checkExpressionTypes]: a pool passes when no
    expression is reported. The checks are stable under growth of the pool, and
    each builder of [Func] adds an expression that passes when its operands have
    the types the builder expects. *)
From S2P Require Import Prelude Bits Types Exprs Registers Func.

(** ** The checks *)

Definition opType0 (ts : list Ty) : Ty := default voidType (ts !! 0%nat).
Definition opType1 (ts : list Ty) : Ty := default voidType (ts !! 1%nat).
Definition opType2 (ts : list Ty) : Ty := default voidType (ts !! 2%nat).

(** The first switch of [checkExpressionTypes], on the result rule. *)
Definition resultRuleOk (e : Expr) (ts : list Ty) : bool :=
  match infoResult (info (op e)) with
  | ResultRule.SameAsOperands => forallb (fun t => typeEq t (type e)) ts
  | ResultRule.Boolean =>
      isBoolean (type e) &&
      (if (operandCount e =? 2)%nat then typeEq (opType0 ts) (opType1 ts) else true)
  | ResultRule.FlagsResult => isFlags (type e)
  | ResultRule.SameAsLastTwo =>
      if (operandCount e =? 3)%nat then
        isBoolean (opType0 ts) && typeEq (opType1 ts) (opType2 ts) && typeEq (opType1 ts) (type e)
      else true
  | ResultRule.Explicit => true
  end.

Definition flagDefArity (o : option FlagOp) : nat :=
  match o with
  | Some FlagOp.Logical | Some FlagOp.Const => 1
  | Some FlagOp.AddCarry | Some FlagOp.SubCarry => 3
  | _ => 2
  end.

(** The second switch, on the opcode. *)
Definition opRuleOk (f : Function) (e : Expr) (ts : list Ty) : bool :=
  match op e with
  | ExprOp.Const =>
      negb (isScalarInteger (type e) && (bits (type e) <? 64)
            && negb (immediate e =? zeroExtend (immediate e) (bits (type e))))
  | ExprOp.Value =>
      match valueAt f (Z.to_N (u32 (immediate e))) with
      | Some i => typeEq (valueType i) (type e)
      | None => false
      end
  | ExprOp.EntryReg =>
      match rfAt (registers f) (Z.to_N (u32 (immediate e))) with
      | Some i => typeEq (registerType i) (type e)
      | None => false
      end
  | ExprOp.FlagCond | ExprOp.FlagBit => isFlags (opType0 ts)
  | ExprOp.Extract => u64 (immediate e + bits (type e)) <=? bits (opType0 ts)
  | ExprOp.Concat => u32 (bits (opType0 ts) + bits (opType1 ts)) =? bits (type e)
  | ExprOp.ZExt | ExprOp.SExt => bits (opType0 ts) <=? bits (type e)
  | ExprOp.Trunc => bits (type e) <=? bits (opType0 ts)
  | ExprOp.FlagDef =>
      (operandCount e =? flagDefArity (flagDefOp (immediate e)))%nat
      && negb (flagDefWidth (immediate e) =? 0)
  | _ => true
  end.

(** One iteration of [checkExpressions]: true when it reports nothing. *)
Definition exprVerifies (f : Function) (id : N) (e : Expr) : bool :=
  (minArity (info (op e)) <=? operandCount e)%nat
  && (operandCount e <=? maxArity (info (op e)))%nat
  && valid (type e)
  && forallb (fun x => hasExpr f x && (x <? id)%N) (operands e)
  && match mapM (typeAt f) (operands e) with
     | Some ts => resultRuleOk e ts && opRuleOk f e ts
     | None => false
     end.

Definition checkExpressions (f : Function) : bool :=
  forallb (fun '(i, e) => exprVerifies f (N.of_nat i) e) (imap pair (exprs (pool f))).

(** ** Pools and their growth *)

(** The structural index is exactly the inverse of the table. *)
Definition pool_wf (p : Pool) : Prop :=
  forall e id, exprIndex p !! e = Some id <-> vget (exprs p) id = Some e.

(** What every builder and editor of a function keeps: the registers, the
    expressions and the types of the values that exist. *)
Record grows (f f' : Function) : Prop := {
  grows_registers : registers f' = registers f;
  grows_exprs : exprs (pool f) `prefix_of` exprs (pool f');
  grows_values : (valueType <$> values (tables f)) `prefix_of` (valueType <$> values (tables f')) }.

#[export] Instance grows_po : PreOrder grows.
Proof.
  split.
  - intros f. by split.
  - intros f g h [] []. split; [congruence|by etrans|by etrans].
Qed.

(** Only the pool grew. *)
Definition pool_ext (f f' : Function) : Prop :=
  f' = withPool f (pool f') /\ exprs (pool f) `prefix_of` exprs (pool f').

#[export] Instance pool_ext_po : PreOrder pool_ext.
Proof.
  split.
  - intros f. split; [by destruct f|done].
  - intros f g h [Hg Hfg] [Hh Hgh]. split; [rewrite Hh, Hg; by destruct f|by etrans].
Qed.

Lemma pool_ext_registers f f' : pool_ext f f' -> registers f' = registers f.
Proof. intros [H _]. by rewrite H. Qed.
Lemma pool_ext_tables f f' : pool_ext f f' -> tables f' = tables f.
Proof. intros [H _]. by rewrite H. Qed.

Lemma pool_ext_grows f f' : pool_ext f f' -> grows f f'.
Proof.
  intros H. split; [by apply pool_ext_registers|apply H|by rewrite (pool_ext_tables f f')].
Qed.
#[export] Hint Resolve pool_ext_grows : core.

Lemma exprAt_ext f f' id e : grows f f' -> exprAt f id = Some e -> exprAt f' id = Some e.
Proof. intros [_ [k Hk] _] He. unfold exprAt. rewrite Hk. by apply vget_app. Qed.

Lemma typeAt_Some f id t : typeAt f id = Some t <-> exists e, exprAt f id = Some e /\ type e = t.
Proof. unfold typeAt. rewrite fmap_Some. split; intros (e & ? & ?); exists e; auto. Qed.

Lemma typeAt_ext f f' id t : grows f f' -> typeAt f id = Some t -> typeAt f' id = Some t.
Proof.
  intros Hx (e & He & <-)%typeAt_Some. apply typeAt_Some. exists e.
  split; [by eapply exprAt_ext|done].
Qed.

Lemma mapM_typeAt_ext f f' xs ts :
  grows f f' -> mapM (typeAt f) xs = Some ts -> mapM (typeAt f') xs = Some ts.
Proof.
  intros Hx. rewrite !mapM_Some. intros H. eapply Forall2_impl; [done|].
  intros x t Ht. by eapply typeAt_ext.
Qed.

Lemma hasExpr_exprAt f id : hasExpr f id = true <-> exists e, exprAt f id = Some e.
Proof.
  unfold hasExpr, exprAt, vget. split.
  - intros Hc. rewrite Hc. apply contains_spec in Hc as [Hlt _].
    apply lookup_lt_is_Some. lia.
  - intros [e He]. by destruct (contains _ _).
Qed.

Lemma hasExpr_ext f f' id : grows f f' -> hasExpr f id = true -> hasExpr f' id = true.
Proof. intros Hx. rewrite !hasExpr_exprAt. intros [e He]. exists e. by eapply exprAt_ext. Qed.

Lemma valueType_ext f f' id i :
  grows f f' -> valueAt f id = Some i ->
  exists i', valueAt f' id = Some i' /\ valueType i' = valueType i.
Proof.
  intros [_ _ [k Hk]] [Hi Hv]%vget_Some.
  assert ((valueType <$> values (tables f')) !! N.to_nat id = Some (valueType i)) as H
    by (rewrite Hk; apply lookup_app_l_Some; by rewrite list_lookup_fmap, Hi).
  apply list_lookup_fmap_Some in H as (i' & Ht & Hi'). exists i'. split; [by apply vget_Some|done].
Qed.

Lemma opRuleOk_ext f f' e ts : grows f f' -> opRuleOk f e ts = true -> opRuleOk f' e ts = true.
Proof.
  intros H. unfold opRuleOk. rewrite (grows_registers f f' H). destruct (op e); try done.
  destruct (valueAt f _) as [i|] eqn:Hi; [|done].
  by destruct (valueType_ext f f' _ i H Hi) as (i' & -> & ->).
Qed.

Lemma exprVerifies_ext f f' id e :
  grows f f' -> exprVerifies f id e = true -> exprVerifies f' id e = true.
Proof.
  intros Hx. unfold exprVerifies. rewrite !andb_true_iff, !forallb_forall.
  intros [[? Hops] Hrules]. destruct (mapM (typeAt f) (operands e)) as [ts|] eqn:Hts; [|done].
  rewrite (mapM_typeAt_ext f f' _ ts) by done. rewrite andb_true_iff in *.
  destruct Hrules as [? ?%(opRuleOk_ext f f' e ts Hx)].
  split; [split; [done|]|done]. intros x Hin. specialize (Hops x Hin).
  rewrite andb_true_iff in *. destruct Hops as [Hh ?]. split; [by apply (hasExpr_ext f)|done].
Qed.

(** Every expression of the pool passes, and the index is the table's inverse. *)
Record pool_ok (f : Function) : Prop := {
  pool_ok_wf : pool_wf (pool f);
  pool_ok_verifies : forall id e, exprAt f id = Some e -> exprVerifies f id e = true }.

Lemma checkExpressions_spec f :
  (N.of_nat (length (exprs (pool f))) <= kInvalidIndex)%N ->
  checkExpressions f = true <-> forall id e, exprAt f id = Some e -> exprVerifies f id e = true.
Proof.
  intros Hlen. unfold checkExpressions. rewrite forallb_forall. split.
  - intros H id e [He _]%vget_Some. specialize (H (N.to_nat id, e)).
    cbn in H. rewrite N2Nat.id in H. apply H, list_elem_of_In, list_elem_of_lookup.
    exists (N.to_nat id). by rewrite list_lookup_imap, He.
  - intros H [i e] Hin. apply list_elem_of_In, elem_of_lookup_imap in Hin as (j & x & [= -> ->] & Hx).
    apply H, vget_Some. rewrite Nat2N.id. split; [done|]. apply lookup_lt_Some in Hx. lia.
Qed.

(** A decision procedure for concrete pools. *)
Definition poolWfb (p : Pool) : bool :=
  forallb (fun '(i, e) => bool_decide (exprIndex p !! e = Some (N.of_nat i))) (imap pair (exprs p))
  && forallb (fun '(e, id) => bool_decide (vget (exprs p) id = Some e)) (map_to_list (exprIndex p)).

Lemma poolWfb_sound p : poolWfb p = true -> pool_wf p.
Proof.
  unfold poolWfb. rewrite andb_true_iff, !forallb_forall. intros [H1 H2] e id. split.
  - intros Hi. specialize (H2 (e, id)). cbn in H2. apply bool_decide_eq_true in H2; [done|].
    by apply list_elem_of_In, elem_of_map_to_list.
  - intros [He Hv]%vget_Some. specialize (H1 (N.to_nat id, e)). cbn in H1.
    rewrite N2Nat.id in H1. apply bool_decide_eq_true in H1; [done|].
    apply list_elem_of_In, elem_of_lookup_imap. by eexists _, _.
Qed.

Lemma pool_ok_check f :
  (length (exprs (pool f)) <=? 1000)%nat = true ->
  poolWfb (pool f) = true -> checkExpressions f = true -> pool_ok f.
Proof.
  intros Hlen%Nat.leb_le Hw Hc. split; [by apply poolWfb_sound|].
  apply checkExpressions_spec; [unfold kInvalidIndex; lia|done].
Qed.

(** ** Interning *)

Lemma intern_Some f e f' id :
  intern e f = Some (id, f') ->
  (operandCount e <= 3)%nat /\
  ((exprIndex (pool f) !! e = Some id /\ f' = f) \/
   (exprIndex (pool f) !! e = None /\ id = N.of_nat (length (exprs (pool f))) /\
    (id <> kInvalidIndex) /\
    f' = withPool f (MkPool (exprs (pool f) ++ [e]) (<[e := id]> (exprIndex (pool f)))))).
Proof.
  unfold intern, internPool. destruct (_ <? _)%nat eqn:Hc; [done|].
  unfold kMaxExprOperands in Hc. apply Nat.ltb_ge in Hc.
  destruct (exprIndex (pool f) !! e) as [i|] eqn:Hi; cbn [mbind option_bind].
  - intros [= <- <-]. split; [done|left]. split; [done|]. by destruct f.
  - destruct (emplace _ _) as [[es i]|] eqn:He; [|done]. cbn. intros [= <- <-].
    apply emplace_Some in He as (-> & -> & ? & _). split; [done|right]. done.
Qed.

Lemma intern_ext f e f' id : intern e f = Some (id, f') -> pool_ext f f'.
Proof.
  intros (_ & [[_ ->]|(_ & _ & _ & ->)])%intern_Some; [done|].
  split; [done|]. cbn. by exists [e].
Qed.

Lemma intern_exprAt f e f' id :
  pool_wf (pool f) -> intern e f = Some (id, f') -> exprAt f' id = Some e.
Proof.
  intros Hwf (_ & [[Hi ->]|(_ & -> & Hne & ->)])%intern_Some; [by apply Hwf|].
  apply vget_Some. cbn. rewrite Nat2N.id, list_lookup_middle by done. done.
Qed.

Lemma intern_wf f e f' id : pool_wf (pool f) -> intern e f = Some (id, f') -> pool_wf (pool f').
Proof.
  intros Hwf (_ & [[Hi ->]|(Hi & -> & Hne & ->)])%intern_Some; [done|].
  intros e' id'. cbn. destruct (decide (e' = e)) as [->|Hee].
  - rewrite lookup_insert_eq, vget_Some. split.
    + intros [= <-]. rewrite Nat2N.id, list_lookup_middle by done. done.
    + intros [[Hl|[Hle Hl]]%lookup_app_Some Hv].
      * assert (exprIndex (pool f) !! e = Some id') by (by apply Hwf, vget_Some). congruence.
      * apply list_lookup_singleton_Some in Hl as [? _]. f_equal. lia.
  - rewrite lookup_insert_ne by done. rewrite (Hwf e' id'), !vget_Some. split.
    + intros [? ?]. split; [by apply lookup_app_l_Some|done].
    + intros [[Hl|[Hle Hl]]%lookup_app_Some Hv]; [done|].
      apply list_lookup_singleton_Some in Hl as [_ ->]. done.
Qed.

(** Operands that exist precede the next handle. *)
Lemma hasExpr_lt f x : hasExpr f x = true -> (x < N.of_nat (length (exprs (pool f))))%N.
Proof. intros [? _]%contains_spec. done. Qed.

(** What a verified expression needs besides its operands' existence. *)
Definition exprTyped (f : Function) (e : Expr) : Prop :=
  (minArity (info (op e)) <= operandCount e <= maxArity (info (op e)))%nat /\
  valid (type e) = true /\
  exists ts, mapM (typeAt f) (operands e) = Some ts /\
    resultRuleOk e ts = true /\ opRuleOk f e ts = true.

Lemma exprTyped_verifies f e :
  exprTyped f e -> exprVerifies f (N.of_nat (length (exprs (pool f)))) e = true.
Proof.
  intros (Ha & Hv & ts & Hts & Hr & Ho). unfold exprVerifies. rewrite Hts, Hv, Hr, Ho.
  destruct Ha as [Hmin Hmax]. apply Nat.leb_le in Hmin, Hmax. rewrite Hmin, Hmax.
  cbn [andb]. rewrite andb_true_r. apply forallb_forall. intros x Hin%list_elem_of_In.
  apply mapM_Some in Hts. apply list_elem_of_lookup in Hin as [i Hi].
  destruct (Forall2_lookup_l _ _ _ _ _ Hts Hi) as (t & _ & (e' & He' & _)%typeAt_Some).
  assert (hasExpr f x = true) as Hx by (apply hasExpr_exprAt; eauto). rewrite Hx.
  apply N.ltb_lt. by apply hasExpr_lt.
Qed.

Lemma exprVerifies_typed f id e : exprVerifies f id e = true -> exprTyped f e.
Proof.
  unfold exprVerifies. rewrite !andb_true_iff, !Nat.leb_le.
  intros [[[[? ?] ?] _] Hr]. destruct (mapM _ _) as [ts|] eqn:Hts; [|done].
  apply andb_true_iff in Hr as [? ?]. split_and!; try done. by exists ts.
Qed.

Lemma intern_ok f e f' id :
  pool_ok f -> exprTyped f e -> intern e f = Some (id, f') -> pool_ok f'.
Proof.
  intros [Hwf Hver] Ht Hi. pose proof (intern_ext _ _ _ _ Hi) as Hx.
  split; [by eapply intern_wf|]. intros id' e' He'.
  pose proof Hi as (_ & [[_ ->]|(_ & -> & Hne & Heq)])%intern_Some; [by apply Hver|].
  eapply exprVerifies_ext; [apply pool_ext_grows, Hx|]. rewrite Heq in He'.
  apply vget_Some in He' as [[Hl|[Hle Hl]]%lookup_app_Some Hv]; cbn in *.
  - apply Hver. by apply vget_Some.
  - apply list_lookup_singleton_Some in Hl as [Hid <-].
    replace id' with (N.of_nat (length (exprs (pool f)))) by lia. by apply exprTyped_verifies.
Qed.

(** ** Properties *)

(** C36 Hash-consing: interning an expression keeps the structural index the
    exact inverse of the table, returns a handle that denotes the expression,
    leaves every existing handle alone, answers the same handle the second time
    without growing the pool, and makes handle equality structural equality. *)
Theorem hash_consing f e f' id :
  pool_wf (pool f) -> intern e f = Some (id, f') ->
  pool_wf (pool f') /\ exprAt f' id = Some e /\
  (forall id0 e0, exprAt f id0 = Some e0 -> exprAt f' id0 = Some e0) /\
  intern e f' = Some (id, f') /\
  (forall id0 e0, exprAt f' id0 = Some e0 -> id0 = id <-> e0 = e).
Proof.
  intros Hwf Hi. pose proof (intern_wf _ _ _ _ Hwf Hi) as Hwf'.
  pose proof (intern_exprAt _ _ _ _ Hwf Hi) as He. pose proof (intern_ext _ _ _ _ Hi) as Hx.
  split_and!; [done|done|by intros; eapply exprAt_ext; [apply pool_ext_grows|]| |].
  - pose proof Hi as [Hc _]%intern_Some. unfold intern, internPool, kMaxExprOperands.
    apply Nat.ltb_ge in Hc as ->.
    assert (exprIndex (pool f') !! e = Some id) as -> by (by apply Hwf').
    cbn. by destruct f'.
  - intros id0 e0 He0. split; [intros ->; congruence|intros ->].
    assert (exprIndex (pool f') !! e = Some id) as H1 by (by apply Hwf').
    assert (exprIndex (pool f') !! e = Some id0) as H2 by (by apply Hwf'). congruence.
Qed.

(** Interning is total on verified pools while handles remain: an expression
    whose arity and operand types pass the verifier's rules always gets a
    handle, the pool only grows, and everything in it still verifies. *)
Theorem intern_total f e :
  pool_ok f -> exprTyped f e -> (N.of_nat (length (exprs (pool f))) < kInvalidIndex)%N ->
  exists id f', intern e f = Some (id, f') /\ pool_ext f f' /\ pool_ok f' /\ exprAt f' id = Some e.
Proof.
  intros Hok Ht Hlen.
  assert (exists id f', intern e f = Some (id, f')) as (id & f' & Hi).
  { destruct Ht as [[_ Hmax] _].
    assert (operandCount e <= 3)%nat as Hc by (destruct (op e); cbn in Hmax; lia).
    unfold intern, internPool, kMaxExprOperands. apply Nat.ltb_ge in Hc as ->.
    destruct (exprIndex (pool f) !! e); [by eexists _, _|].
    unfold emplace. assert ((N.of_nat (length (exprs (pool f))) =? kInvalidIndex)%N = false) as ->
      by (apply N.eqb_neq; lia). by eexists _, _. }
  exists id, f'. split_and!; [done|by eapply intern_ext|by eapply intern_ok|].
  eapply intern_exprAt; [apply Hok|done].
Qed.
