(* ===== verification/Verify.v ===== *)
(** * The verifier (il/verify.h, il/verify.cpp)

    [verifyOk level f] is [verify(function, level).ok()]: every check of the
    class, the expression checks of [VerifyExpr] among them. A check that C++
    would make on a handle or range it has not validated is false here. *)
From S2P Require Import Prelude Bits Types Exprs Registers Func Cfg VerifyExpr.
Local Open Scope Z_scope.

Definition atLeast (level l : Maturity) : bool := maturityCode l <=? maturityCode level.

Definition checkEntry (f : Function) : bool :=
  negb (length (blocks f) =? 0)%nat && hasBlock f (entryBlock f).

(** [isReachable]: membership in the reverse post-order. *)
Definition isReachable (f : Function) (b : N) : bool :=
  match reversePostOrder f with Some order => bool_decide (b ∈ order) | None => false end.

(** ** checkOp *)

Section CheckOp.
Context (level : Maturity) (f : Function) (blockId : N).

(** [function_.expr(id).type], of a handle the caller has checked. *)
Definition exprTypeIs (id : N) (t : Ty) : bool :=
  match typeAt f id with Some t' => typeEq t' t | None => false end.

Definition checkRegister (o : Op) : bool := rfContains (registers f) (payload o).
Definition registerTypeOf (o : Op) : Ty :=
  match rfAt (registers f) (payload o) with Some i => registerType i | None => voidType end.

(** One to nine operands: the target and up to eight argument versions. *)
Definition withArguments (xs : list N) : bool := (1 <=? length xs)%nat && (length xs <=? 9)%nat.

(** The switch, given the operands and targets. *)
Definition codeRuleOk (o : Op) (xs ts : list N) : bool :=
  let operands n := (length xs =? n)%nat in
  let targets n := (length ts =? n)%nat in
  match code o with
  | OpCode.ReadReg => operands 0%nat && checkRegister o && typeEq (registerTypeOf o) (opType o)
  | OpCode.WriteReg =>
      operands 1%nat && checkRegister o &&
      match xs with x :: _ => exprTypeIs x (registerTypeOf o) | [] => false end
  | OpCode.Load => operands 1%nat && negb (isVoid (opType o))
  | OpCode.Store => operands 2%nat && match xs with _ :: x :: _ => exprTypeIs x (opType o) | _ => false end
  | OpCode.Branch => operands 0%nat && targets 1%nat
  | OpCode.CondBranch =>
      operands 1%nat && match xs with x :: _ => match typeAt f x with Some t => isBoolean t | None => false end
                                | [] => false end && targets 2%nat
  | OpCode.IndirectBranch =>
      (if atLeast level Maturity.Ssa && (length ts =? 0)%nat then withArguments xs else operands 1%nat) &&
      negb ((length ts =? 0)%nat && atLeast level Maturity.Resolved && isReachable f blockId)
  | OpCode.Call => if atLeast level Maturity.Ssa then withArguments xs else operands 1%nat
  | OpCode.Return =>
      (if atLeast level Maturity.Ssa then (length xs <=? 1)%nat else operands 0%nat) && targets 0%nat
  | OpCode.Nop | OpCode.Unreachable => operands 0%nat && targets 0%nat
  | OpCode.Unimplemented => true
  | OpCode.Intrinsic => negb (String.eqb (nameOf f (payload o)) "")
  | OpCode.Phi =>
      (if atLeast level Maturity.Ssa then (length xs =? length (predsOf f blockId))%nat else true) &&
      forallb (fun x => exprTypeIs x (opType o)) xs
  end.

Definition shouldDefine (o : Op) : bool :=
  match code o with
  | OpCode.Intrinsic | OpCode.Call => negb (isVoid (opType o))
  | c => definesValue c
  end.

Definition checkOp (o : Op) : bool :=
  (origin o <? Z.of_nat (length (passNames (strings f)))) &&
  negb ((va o =? kNoOpAddress) && bool_decide (level = Maturity.Lifted)) &&
  match operandsOf (tables f) o, targetsOf (tables f) o with
  | Some xs, Some ts =>
      forallb (hasExpr f) xs && forallb (hasBlock f) ts && codeRuleOk o xs ts
  | _, _ => false
  end &&
  Bool.eqb (shouldDefine o) (handleValid (result o)).

(** The loop over a block's operations, with [seenPhiEnd]. *)
Fixpoint checkOps (seenPhiEnd : bool) (os : list N) : bool :=
  match os with
  | [] => true
  | opId :: rest =>
      match opAt f opId with
      | None => false
      | Some o =>
          let isLast := (length rest =? 0)%nat in
          negb (isTerminator (code o) && negb isLast) &&
          negb (negb (isTerminator (code o)) && isLast && atLeast level Maturity.Cfg) &&
          (if decide (code o = OpCode.Phi) then negb seenPhiEnd else true) &&
          checkOp o &&
          checkOps (seenPhiEnd || bool_decide (code o <> OpCode.Phi)) rest
      end
  end.
End CheckOp.

(** ** checkBlocks *)

(** [block.va != 0 && !blockAddresses.insert(block.va).second] reports nothing. *)
Fixpoint uniqueAddresses (seen : gset Z) (bs : list Block) : bool :=
  match bs with
  | [] => true
  | b :: bs =>
      if blockVa b =? 0 then uniqueAddresses seen bs
      else negb (bool_decide (blockVa b ∈ seen)) && uniqueAddresses ({[blockVa b]} ∪ seen) bs
  end.

(** The blocks with their handles. *)
Definition handled (f : Function) : list (N * Block) := imap (fun i b => (N.of_nat i, b)) (blocks f).

Definition checkBlock (level : Maturity) (f : Function) (p : N * Block) : bool :=
  match blockOps p.2 with
  | [] => external p.2
  | os => checkOps level f p.1 false os
  end.

Definition checkBlocks (level : Maturity) (f : Function) : bool :=
  uniqueAddresses ∅ (blocks f) && forallb (checkBlock level f) (handled f).

(** ** checkValues *)

(** The operations of the blocks, with their blocks. *)
Definition placedOps (f : Function) : list (N * N) :=
  flat_map (fun p => (fun o => (p.1, o)) <$> blockOps p.2) (handled f).

Definition checkDefinition (f : Function) (p : N * N) : bool :=
  match opAt f p.2 with
  | None => true
  | Some o =>
      if handleValid (result o) then
        match valueAt f (result o) with
        | None => false
        | Some i => (definition i =? p.2)%N && (valueBlock i =? p.1)%N && typeEq (valueType i) (opType o)
        end
      else true
  end.

(** [definitionCount]: the values the operations define, in order. *)
Definition definedValues (f : Function) : list N :=
  flat_map (fun p => match opAt f p.2 with
                     | Some o => if handleValid (result o) && hasValue f (result o) then [result o] else []
                     | None => [] end) (placedOps f).

Definition checkCount (f : Function) (id : N) (i : ValueInfo) : bool :=
  match count_occ N.eq_dec (definedValues f) id with
  | O => negb (handleValid (definition i))
  | S O => true
  | _ => false
  end.

(** *** Value uses *)

(** [collectValueUses]: the worklist (top first), the nodes seen and the values
    reported, latest first. *)
Fixpoint collectLoop (fuel : nat) (f : Function) (work : list N) (seen : gset N) (uses : list N)
  : option (list N) :=
  match work with
  | [] => Some uses
  | id :: work =>
      match fuel with
      | O => None
      | S fuel =>
          if negb (hasExpr f id) || bool_decide (id ∈ seen) then collectLoop fuel f work seen uses
          else
            e ← exprAt f id;
            if decide (op e = ExprOp.Value)
            then collectLoop fuel f work ({[id]} ∪ seen) (Z.to_N (u32 (immediate e)) :: uses)
            else collectLoop fuel f (reverse (operands e) ++ work) ({[id]} ∪ seen) uses
      end
  end.

(** Each node is expanded once and pushes its operands. *)
Definition collectFuel (f : Function) : nat :=
  S (sum_list_with (fun e => length (operands e)) (exprs (pool f))).

Definition collectValueUses (f : Function) (id : N) : option (list N) :=
  collectLoop (collectFuel f) f [id] ∅ [].

(** The callback: a value read must belong to the block and be available. *)
Definition useOk (f : Function) (blockId : N) (available : gset N) (used : N) : bool :=
  match valueAt f used with
  | None => true
  | Some i => (valueBlock i =? blockId)%N && bool_decide (used ∈ available)
  end.

Definition operandOk (f : Function) (blockId : N) (available : gset N) (x : N) : bool :=
  match collectValueUses f x with
  | Some uses => forallb (useOk f blockId available) uses
  | None => false
  end.

Fixpoint checkUses (f : Function) (blockId : N) (available : gset N) (os : list N) : bool :=
  match os with
  | [] => true
  | opId :: os =>
      match opAt f opId with
      | None => checkUses f blockId available os
      | Some o =>
          match operandsOf (tables f) o with
          | None => false
          | Some xs => forallb (operandOk f blockId available) xs
          end &&
          checkUses f blockId (if handleValid (result o) then {[result o]} ∪ available else available) os
      end
  end.

Definition checkValueUseOrder (level : Maturity) (f : Function) : bool :=
  atLeast level Maturity.Ssa || forallb (fun p => checkUses f p.1 ∅ (blockOps p.2)) (handled f).

Definition checkValues (level : Maturity) (f : Function) : bool :=
  forallb (checkDefinition f) (placedOps f) &&
  forallb (fun p => checkCount f p.1 p.2) (imap (fun i v => (N.of_nat i, v)) (values (tables f))) &&
  checkValueUseOrder level f.

(** ** checkEdges *)

(** The stored successors are those the terminator implies, when there is one. *)
Definition checkSuccessors (f : Function) (b : Block) : bool :=
  match last (blockOps b) with
  | None => true
  | Some opId =>
      match opAt f opId with
      | None => true
      | Some o => if isTerminator (code o) then bool_decide (derivedSuccessors f b = Some (successors b)) else true
      end
  end.

Definition checkPredecessors (f : Function) (p : N * Block) : bool :=
  forallb (fun q => hasBlock f q && bool_decide (p.1 ∈ succsOf f q)) (predecessors p.2).

Definition checkEdges (f : Function) : bool :=
  forallb (fun p => checkSuccessors f p.2) (handled f) && forallb (checkPredecessors f) (handled f).

(** ** verify *)

(** [checkReachability] only warns, but runs the search. *)
Definition checkReachability (f : Function) : bool :=
  if hasBlock f (entryBlock f) then match reversePostOrder f with Some _ => true | None => false end else true.

Definition verifyOk (level : Maturity) (f : Function) : bool :=
  checkEntry f && checkExpressions f && checkBlocks level f && checkValues level f && checkEdges f &&
  checkReachability f.

(** [verify(function)] and [verifyOrFail]: the function's own level. *)
Definition verifyOrFail (f : Function) : bool := verifyOk (maturity f) f.
