(* ===== verification/ValueTypes.v ===== *)
(** * Type soundness of evaluation

    A value that evaluation produces carries no bits above its type: the
    interpreter's comparisons, which do not mask, and the constant evaluator,
    which skips some of the interpreter's masks, rely on it. The proof goes
    through the verifier's expression checks, node by node. *)
From S2P Require Import Prelude Bits U128 Types Exprs Registers Func Floats Eval VerifyExpr.

(** ** Values of a type *)

(** Flag bundles are four bits, everything else fits the type's width. *)
Definition val_ok (t : Ty) (v : ConcreteValue) : Prop :=
  if isFlags t then hi v = 0 /\ fits 4 (lo v) else canon (bits t) v.

(** The environment supplies values of the declared types. *)
Record env_ok (f : Function) (env : Env) : Prop := {
  env_value_ok : forall id v i, envValue env id = Ok v -> valueAt f id = Some i -> val_ok (valueType i) v;
  env_reg_ok : forall id v i, envReg env id = Ok v -> rfAt (registers f) id = Some i ->
    val_ok (registerType i) v }.

Lemma valid_bits t : valid t = true -> 0 <= bits t.
Proof.
  unfold valid, bits. destruct (kind t); intros H; repeat (apply andb_true_iff in H as [H ?]); nia.
Qed.

Lemma isFlags_bits t : valid t = true -> isFlags t = true -> bits t = 0.
Proof.
  unfold isFlags, valid, bits. intros Hv Hk%bool_decide_eq_true. rewrite Hk in Hv.
  apply andb_true_iff in Hv as [? ?]. nia.
Qed.

Lemma isBoolean_bits t : valid t = true -> isBoolean t = true -> bits t = 1 /\ isFlags t = false.
Proof.
  unfold isBoolean, isFlags, valid, bits. intros Hv [Hk Hb]%andb_true_iff.
  apply bool_decide_eq_true in Hk. rewrite Hk in *. apply andb_true_iff in Hv as [? ?].
  split; [lia|done].
Qed.

Lemma tooWide_bits t : valid t = true -> tooWide t = false -> 0 <= bits t <= 128.
Proof.
  intros Hv Hw. pose proof (valid_bits t Hv). unfold tooWide in Hw.
  destruct (isFlags t) eqn:Hf; [rewrite (isFlags_bits t) in * by done; lia|].
  rewrite andb_true_r in Hw. lia.
Qed.

Lemma canon_0 v : canon 0 v -> v = zero128.
Proof.
  intros [[Hl Hh] Hc]. unfold fits, uval in *. destruct v as [l h]; cbn in *.
  assert (l = 0 /\ h = 0) as [-> ->] by lia. done.
Qed.

(** A value masked to the type's width is a value of the type. *)
Lemma val_ok_canon t v : valid t = true -> canon (bits t) v -> val_ok t v.
Proof.
  intros Hv Hc. unfold val_ok. destruct (isFlags t) eqn:Hf; [|done].
  rewrite (isFlags_bits t) in Hc by done. apply canon_0 in Hc as ->.
  split; [done|by apply fits_0].
Qed.

Lemma val_ok_wf t v : val_ok t v -> wf128 v.
Proof.
  unfold val_ok. destruct (isFlags t); [|by intros []].
  intros [Hh Hl]. split; [by apply (fits_weaken 4)|]. rewrite Hh. by apply fits_0.
Qed.

Lemma val_ok_int t v : isFlags t = false -> val_ok t v -> canon (bits t) v.
Proof. unfold val_ok. by intros ->. Qed.

Lemma canon_word w k : 0 <= w <= 128 -> fits w k -> fits 64 k -> canon w (MkU128 k 0).
Proof.
  intros Hw Hk H64. split; [split; cbn; [done|by apply fits_0]|].
  unfold uval. cbn. by rewrite Z.add_0_r.
Qed.

Lemma canon_word64 w k : 64 <= w <= 128 -> fits 64 k -> canon w (MkU128 k 0).
Proof. intros. apply canon_word; [lia|by apply (fits_weaken 64); [|lia]|done]. Qed.

(** The sign operations of the two float formats. *)
Lemma canon_signOps w a :
  w = 32 \/ 64 <= w <= 128 -> canon w a ->
  canon w (MkU128 (Z.lxor (lo a) (if w =? 32 then 0x80000000 else shl64 1 63)) 0) /\
  canon w (MkU128 (Z.land (lo a) (if w =? 32 then 0x7FFFFFFF else not64 (shl64 1 63))) 0).
Proof.
  intros [->|Hw] Ha; pose proof Ha as [[Hl Hh] Hc].
  - destruct (canon_narrow a 32 ltac:(lia) Ha) as [_ Hu]. rewrite Hu in Hc. cbn.
    split; apply canon_word; try lia; auto using fits_land_l with lia; apply fits_lxor; try done; lia.
  - assert ((w =? 32) = false) as -> by lia.
    split; apply canon_word64; auto using fits_land_l with lia. by apply fits_lxor.
Qed.

(** Masking an immediate, whatever number it is. *)
Lemma canon_mask_immediate z w : 0 <= w <= 128 -> canon w (mask (MkU128 z 0) w).
Proof.
  intros Hw. assert (mask (MkU128 z 0) w = mask (MkU128 (u64 z) 0) w) as ->.
  { unfold mask. cbn [lo hi]. f_equal. destruct (wf_maskOf w ltac:(lia)) as [Hm _].
    unfold u64. bitblast. }
  apply canon_mask; [lia|]. split; [apply fits_u64|by apply fits_0].
Qed.

(** A count of bits fits the width it counts in. *)
Lemma canon_count w k : 0 <= w <= 128 -> 0 <= k <= w -> canon w (MkU128 k 0).
Proof.
  intros Hw Hk. pose proof (Z.pow_gt_lin_r 2 w ltac:(lia) ltac:(lia)).
  apply canon_word; [done|unfold fits; lia..].
Qed.

Lemma val_ok_bool t b : valid t = true -> isBoolean t = true -> val_ok t (boolValue b).
Proof.
  intros Hv Hb. destruct (isBoolean_bits t Hv Hb) as [Hw _]. apply val_ok_canon; [done|].
  rewrite Hw. apply canon_count; [lia|destruct b; cbn; lia].
Qed.

(** ** Bounds of the single operations *)

Lemma popcount_le v n : 0 <= n -> fits n v -> 0 <= popcount v <= n.
Proof.
  intros Hn Hv. rewrite (popcount_bit_sum v (Z.to_nat n)) by (by rewrite Z2Nat.id).
  assert (forall m : nat, 0 <= bit_sum v m <= Z.of_nat m) as Hm; [|specialize (Hm (Z.to_nat n)); lia].
  induction m as [|m IH]; [done|].
  cbn [bit_sum]. destruct (Z.testbit v (Z.of_nat m)); cbn [Z.b2z]; lia.
Qed.

Lemma popcount_canon v w :
  0 <= w <= 128 -> canon w v -> 0 <= popcount (lo v) + popcount (hi v) <= w.
Proof.
  intros Hw Hc. pose proof Hc as [[Hl Hh] Hv]. destruct (Z.le_gt_cases w 64).
  - destruct (canon_narrow v w ltac:(lia) Hc) as [Hz Hu]. rewrite Hu in Hv. rewrite Hz.
    pose proof (popcount_le (lo v) w ltac:(lia) Hv). change (popcount 0) with 0. lia.
  - pose proof (popcount_le (lo v) 64 ltac:(lia) Hl).
    assert (fits (w - 64) (hi v)) as Hh'.
    { unfold fits, uval in *. replace w with (w - 64 + 64) in Hv by lia.
      rewrite Z.pow_add_r in Hv by lia. nia. }
    pose proof (popcount_le (hi v) (w - 64) ltac:(lia) Hh'). lia.
Qed.

Lemma clzOf_bound v w : 0 <= w <= 128 -> wf128 v -> 0 <= clzOf v w <= w.
Proof.
  intros Hw Hv. pose proof (canon_mask v w ltac:(lia) Hv) as Hm.
  destruct (Z.eq_dec w 0) as [->|Hne]; [done|].
  assert (clzOf v w = clzOf (mask v w) w) as -> by (unfold clzOf; by rewrite (mask_canon (mask v w)) by (done || lia)).
  rewrite clzOf_spec by (done || lia). destruct (Z.eqb_spec (uval (mask v w)) 0); [lia|].
  destruct Hm as [_ Hm]. unfold fits in Hm.
  pose proof (Z.log2_lt_pow2 (uval (mask v w)) w ltac:(lia)). pose proof (Z.log2_nonneg (uval (mask v w))).
  lia.
Qed.

Lemma ctzOf_bound v w : 0 <= w <= 128 -> wf128 v -> 0 <= ctzOf v w <= w.
Proof.
  intros Hw Hv. pose proof (canon_mask v w ltac:(lia) Hv) as Hm.
  assert (ctzOf v w = ctzOf (mask v w) w) as -> by (unfold ctzOf; by rewrite (mask_canon (mask v w)) by (done || lia)).
  destruct (Z.eq_dec w 0) as [->|Hne]; [apply canon_0 in Hm as ->; by vm_compute|].
  destruct (ctzOf_spec (mask v w) w ltac:(lia) Hm) as [H0 H1].
  destruct (Z.eq_dec (uval (mask v w)) 0) as [Hz|Hz]; [rewrite H0 by done; lia|].
  destruct (H1 Hz). lia.
Qed.

Lemma canon_bswapOf v w : 0 <= w <= 128 -> wf128 v -> canon w (bswapOf v w).
Proof.
  intros Hw Hv. apply canon_mask; [lia|].
  apply (foldl_seqZ_ind (fun _ => wf128)); [apply Z.div_pos; lia|apply wf_zero|].
  intros. by apply bswap_step_wf.
Qed.

Lemma canon_brevOf v w : 0 <= w <= 128 -> wf128 v -> canon w (brevOf v w).
Proof.
  intros Hw Hv. destruct (brevOf_inv v w Hv Hw) as [Hwf Hb]. split; [done|].
  apply fits_bits; [lia| |].
  - destruct Hwf as [[? _] [? _]]. unfold uval. lia.
  - intros i Hi. rewrite Hb by lia. by replace (i <? w) with false by lia.
Qed.

Lemma canon_not v w : 0 <= w <= 128 -> canon w v -> canon w (xor128 v (maskOf w)).
Proof.
  intros Hw Hv. pose proof (canon_maskOf w Hw) as Hm. split; [apply wf_xor128; [apply Hv|apply Hm]|].
  rewrite uval_xor128 by (apply Hv || apply Hm). apply fits_lxor; [lia|apply Hv|apply Hm].
Qed.

Lemma nzcvOf_fits n z c v : fits 4 (nzcvOf n z c v).
Proof. unfold fits. by destruct n, z, c, v. Qed.

Lemma evalFlagDef_fits o w args r : evalFlagDef o w args = Some r -> fits 4 r.
Proof.
  assert (forall wd a b c, fits 4 (flagAdd wd a b c)) as Hadd.
  { intros. unfold flagAdd. destruct (carryAdd _ _ _ _). apply nzcvOf_fits. }
  assert (forall wd a b c, fits 4 (flagSub wd a b c)) as Hsub.
  { intros. unfold flagSub. destruct (carryAdd _ _ _ _). apply nzcvOf_fits. }
  unfold evalFlagDef. intros H.
  destruct o as [[]|]; repeat (case_match; simplify_option_eq); simplify_eq;
    try apply Hadd; try apply Hsub; try apply nzcvOf_fits; try (by apply fits_0).
  destruct (args !! 0%nat) as [a|]; [|done]. cbn in H. injection H as <-.
  change 15 with (Z.ones 4). rewrite Z.land_ones by lia. by apply fits_mod.
Qed.

Lemma ofFloat_canon fmt x w :
  0 <= w <= 128 -> 0 <= width fmt <= w -> width fmt <= 64 -> canon w (MkU128 (ofFloat fmt x) 0).
Proof.
  intros Hw Hf H64. pose proof (ofFloat_fits fmt x ltac:(lia)).
  apply canon_word; [done|apply (fits_weaken (width fmt)); done || lia..].
Qed.

Lemma mul64x64_fits a b : fits 64 a -> fits 64 b -> fits 64 (mul64x64 a b).1.
Proof.
  intros Ha Hb. pose proof (mul64x64_spec a b Ha Hb) as Hm. destruct (mul64x64 a b) as [h l].
  cbn. by destruct Hm.
Qed.

(** ** One node *)

(** What the node lemmas know about the operands. *)
Definition args_ok (ts : list Ty) (args : list U128) : Prop :=
  Forall2 (fun t v => val_ok t v /\ valid t = true /\ tooWide t = false) ts args.

Lemma args_ok_at ts args i t :
  args_ok ts args -> ts !! i = Some t ->
  val_ok t (argAt args i) /\ valid t = true /\ tooWide t = false.
Proof.
  intros H Ht. destruct (Forall2_lookup_l _ _ _ _ _ H Ht) as (v & Hv & Hok).
  unfold argAt. by rewrite Hv.
Qed.

Lemma args_ok_wf ts args i : args_ok ts args -> wf128 (argAt args i).
Proof.
  intros H. unfold argAt. destruct (args !! i) as [v|] eqn:Hv; [|apply wf_zero].
  destruct (Forall2_lookup_r _ _ _ _ _ H Hv) as (t & _ & Hok & _). by apply val_ok_wf in Hok.
Qed.

Lemma args_ok_bits ts args i t :
  args_ok ts args -> ts !! i = Some t -> 0 <= bits t <= 128.
Proof. intros H Ht. destruct (args_ok_at _ _ _ _ H Ht) as (_ & ? & ?). by apply tooWide_bits. Qed.

(** Operands of an operation whose result shares their type. *)
Lemma same_operands_at e ts i t :
  infoResult (info (op e)) = ResultRule.SameAsOperands -> resultRuleOk e ts = true ->
  ts !! i = Some t -> t = type e.
Proof.
  unfold resultRuleOk. intros -> H Ht. rewrite forallb_forall in H.
  specialize (H t (proj1 (list_elem_of_In _ _) (list_elem_of_lookup_2 _ _ _ Ht))).
  rewrite typeEq_spec in H. by apply bool_decide_eq_true in H.
Qed.

Lemma same_args_at e ts args i :
  infoResult (info (op e)) = ResultRule.SameAsOperands -> resultRuleOk e ts = true ->
  args_ok ts args -> valid (type e) = true -> val_ok (type e) (argAt args i).
Proof.
  intros Hi Hr Ha Hv. destruct (ts !! i) as [t|] eqn:Ht.
  - rewrite <-(same_operands_at e ts i t) by done. by eapply args_ok_at.
  - unfold argAt. assert (args !! i = None) as ->.
    { apply lookup_ge_None. rewrite <-(Forall2_length _ _ _ Ha). by apply lookup_ge_None. }
    apply val_ok_canon; [done|]. apply canon_zero. by apply valid_bits.
Qed.

Section Node.
Context (f : Function) (env : Env) (e : Expr) (ts : list Ty) (args : list U128).
Context (Henv : env_ok f env) (Hargs : args_ok ts args).
Context (Hvalid : valid (type e) = true) (Hnarrow : tooWide (type e) = false).
Context (Hrule : resultRuleOk e ts = true) (Hop : opRuleOk f e ts = true).
Context (Hlen : length ts = operandCount e).
Context (Harity : (minArity (info (op e)) <= operandCount e <= maxArity (info (op e)))%nat).

Let Hw : 0 <= bits (type e) <= 128 := tooWide_bits _ Hvalid Hnarrow.
Let Hwf (i : nat) : wf128 (argAt args i) := args_ok_wf _ _ i Hargs.

Lemma bool_node b :
  infoResult (info (op e)) = ResultRule.Boolean -> val_ok (type e) (boolValue b).
Proof using Type*.
  intros Hi. apply val_ok_bool; [done|]. unfold resultRuleOk in Hrule. rewrite Hi in Hrule.
  by apply andb_true_iff in Hrule as [? _].
Qed.

Lemma divRem_node v :
  evalDivRem (op e) (bits (type e)) (argAt args 0) (argAt args 1) = Ok v -> val_ok (type e) v.
Proof using Type*.
  intros H. apply val_ok_canon; [done|]. unfold evalDivRem, guardWidth in H.
  assert (forall z, fits 64 z -> canon (bits (type e)) (mask (MkU128 z 0) (bits (type e)))) as Hm.
  { intros z Hz. apply canon_mask; [lia|]. split; cbn; [done|by apply fits_0]. }
  assert (canon (bits (type e)) zero128) by (apply canon_zero; lia).
  destruct (Hwf 0) as [Ha _], (Hwf 1) as [Hb _]. unfold fits in Ha, Hb.
  repeat (case_match; simplify_eq; try done);
    try (apply canon_mask; [lia|apply Hwf]); apply Hm; try apply fits_u64; unfold fits.
  - split; [apply Z.div_pos; lia|]. apply Z.div_lt_upper_bound; [lia|].
    match goal with E : (_ =? 0) = false |- _ => apply Z.eqb_neq in E end. nia.
  - pose proof (Z.mod_pos_bound (lo (argAt args 0)) (lo (argAt args 1))).
    match goal with E : (_ =? 0) = false |- _ => apply Z.eqb_neq in E end. lia.
Qed.

(** The type of an operand the node reads, when it exists. *)
Lemma widthOf_node i w :
  ofOption (bits <$> ts !! i) = Ok w ->
  exists t, ts !! i = Some t /\ w = bits t /\ 0 <= w <= 128 /\ val_ok t (argAt args i).
Proof using Type*.
  destruct (ts !! i) as [t|] eqn:Ht; [|done]. cbn. intros [= <-]. exists t.
  split_and!; [done|done|by eapply args_ok_bits|by eapply args_ok_bits|by eapply args_ok_at].
Qed.

(** A float of either format in a type wide enough for it. *)
Lemma canon_narrowFloat x :
  (bits (type e) =? 32) || (64 <=? bits (type e)) = true ->
  val_ok (type e) (narrowFloat (bits (type e)) x).
Proof using Type*.
  intros Hs. apply val_ok_canon; [done|]. unfold narrowFloat.
  destruct (Z.eqb_spec (bits (type e)) 32); apply ofFloat_canon; cbn in *; lia.
Qed.

(** The arithmetic, bitwise and shift cases, whose result is masked. *)
Lemma evalInt_typed v :
  match infoCategory (info (op e)) with
  | ExprCategory.IntArithmetic | ExprCategory.IntBitwise | ExprCategory.IntShift => True
  | _ => False
  end ->
  evalOp e ts args = Ok v -> val_ok (type e) v.
Proof using Type*.
  intros Hc H. pose proof (Hwf 0) as H0. pose proof (Hwf 1) as H1.
  pose proof (divRem_node v) as Hdiv.
  pose proof (same_args_at e ts args 0) as Hs. unfold evalOp, guardWidth in H. cbv zeta in H.
  assert (forall n, 0 <= u32 n) as Hu by (intros; apply Z.mod_pos_bound; lia).
  destruct (op e) eqn:Ho; try done; clear Hc; try (by apply Hdiv); clear Hdiv;
    specialize (Hs eq_refl Hrule Hargs Hvalid).
  - apply Ok_inj in H as <-. apply val_ok_canon, canon_add; done.
  - apply Ok_inj in H as <-. apply val_ok_canon, canon_sub; done.
  - apply Ok_inj in H as <-. apply val_ok_canon; [done|].
    unfold mulLow. destruct (mul64x64 _ _) as [h l] eqn:Hm.
    pose proof (mul64x64_spec (lo (argAt args 0)) (lo (argAt args 1)) (proj1 H0) (proj1 H1)) as Hsp.
    rewrite Hm in Hsp. apply canon_mask; [lia|]. split; cbn [lo hi]; [apply Hsp|by apply fits_mod].
  - destruct (Z.eqb_spec (bits (type e)) 64) as [Hb|]; [|done]. apply Ok_inj in H as <-.
    apply val_ok_canon; [done|]. rewrite Hb.
    apply canon_word; [lia|apply mul64x64_fits; [apply H0|apply H1]..].
  - destruct (Z.eqb_spec (bits (type e)) 64) as [Hb|]; [|done]. apply Ok_inj in H as <-.
    apply val_ok_canon; [done|]. rewrite Hb.
    pose proof (mul64x64_fits _ _ (proj1 H0) (proj1 H1)).
    apply canon_word; [lia|..]; repeat (destruct (negb _); [by apply fits_mod|]); done.
  - apply Ok_inj in H as <-. apply val_ok_canon, canon_sub; done.
  - apply Ok_inj in H as <-. apply val_ok_canon, canon_mask; [done|lia|by apply wf_and128].
  - apply Ok_inj in H as <-. apply val_ok_canon, canon_mask; [done|lia|by apply wf_or128].
  - apply Ok_inj in H as <-. apply val_ok_canon, canon_mask; [done|lia|by apply wf_xor128].
  - apply Ok_inj in H as <-. unfold val_ok in *. destruct (isFlags (type e)) eqn:Hf; [|by apply canon_not].
    rewrite (isFlags_bits (type e)) by done. unfold xor128. cbn. rewrite !Z.lxor_0_r. done.
  - apply Ok_inj in H as <-. apply val_ok_canon, canon_shl; done.
  - apply Ok_inj in H as <-. unfold val_ok in *. destruct (isFlags (type e)) eqn:Hf; [|by apply canon_shrU].
    rewrite (isFlags_bits (type e)) by done. unfold shrU.
    destruct (Z.eqb_spec (u32 (lo (argAt args 1))) 0) as [Hz|Hnz].
    + assert (canon 0 (mask (argAt args 0) 0)) as ->%canon_0 by (by apply canon_mask).
      split; [done|by apply fits_0].
    + specialize (Hu (lo (argAt args 1))). if_true. split; [done|by apply fits_0].
  - destruct (Z.eqb_spec (bits (type e)) 0); [done|]. apply Ok_inj in H as <-.
    apply val_ok_canon, canon_shrS; try done. lia.
  - destruct (Z.eqb_spec (bits (type e)) 0); [done|]. apply Ok_inj in H as <-.
    apply val_ok_canon, canon_rotR; try done. lia.
  - destruct (Z.eqb_spec (bits (type e)) 0); [done|]. apply Ok_inj in H as <-.
    apply val_ok_canon, canon_rotL; try done. lia.
Qed.

Lemma evalCast_typed v :
  infoCategory (info (op e)) = ExprCategory.Cast -> evalOp e ts args = Ok v -> val_ok (type e) v.
Proof using Type*.
  intros Hc H. pose proof (Hwf 0) as H0. pose proof (Hwf 1) as H1.
  pose proof widthOf_node as Hwidth. pose proof Hop as Hop'. unfold opRuleOk, opType0 in Hop'.
  unfold evalOp, guardWidth in H. cbv zeta in H.
  assert (0 <= u32 (immediate e)) by (apply Z.mod_pos_bound; lia).
  destruct (op e) eqn:Ho; try done; clear Hc; apply val_ok_canon; try done.
  - destruct (ofOption (bits <$> ts !! 0%nat)) as [w| |] eqn:Hw0; try done. apply Ok_inj in H as <-.
    destruct (Hwidth _ _ Hw0) as (t & Ht & -> & Hb & _). rewrite Ht in Hop'. cbn in Hop'.
    apply (canon_weaken (bits t)); [apply canon_mask; done || lia|lia].
  - destruct (ofOption (bits <$> ts !! 0%nat)) as [w| |] eqn:Hw0; try done. cbn in H.
    destruct (Hwidth _ _ Hw0) as (t & Ht & -> & Hb & _). rewrite Ht in Hop'. cbn in Hop'.
    destruct (Z.eqb_spec (bits t) 0); [done|]. apply Ok_inj in H as <-. apply canon_sext; done || lia.
  - apply Ok_inj in H as <-. apply canon_mask; done || lia.
  - apply Ok_inj in H as <-. apply canon_mask; done || lia.
  - destruct (ofOption (bits <$> ts !! 0%nat)) as [w| |] eqn:Hw0; try done. apply Ok_inj in H as <-.
    destruct (Hwidth _ _ Hw0) as (t & Ht & -> & Hb & _). apply canon_extract; done || lia.
  - destruct (ofOption (bits <$> ts !! 1%nat)) as [w| |] eqn:Hw0; try done. apply Ok_inj in H as <-.
    destruct (Hwidth _ _ Hw0) as (t & Ht & -> & Hb & _).
    apply canon_mask; [lia|]. apply wf_or128; [apply wf_shl|apply wf_mask]; done || lia.
Qed.

Lemma evalBitCount_typed v :
  infoCategory (info (op e)) = ExprCategory.BitCount -> evalOp e ts args = Ok v -> val_ok (type e) v.
Proof using Type*.
  intros Hc H. pose proof (Hwf 0) as H0. unfold evalOp in H. cbv zeta in H.
  destruct (op e) eqn:Ho; try done; clear Hc; apply Ok_inj in H as <-; apply val_ok_canon; try done.
  - apply canon_count; [done|]. by apply clzOf_bound.
  - apply canon_count; [done|]. by apply ctzOf_bound.
  - apply canon_count; [done|]. apply popcount_canon; [done|]. apply canon_mask; done || lia.
  - by apply canon_bswapOf.
  - by apply canon_brevOf.
Qed.

Lemma evalSelect_typed v : op e = ExprOp.Select -> evalOp e ts args = Ok v -> val_ok (type e) v.
Proof using Type*.
  intros Ho H. unfold evalOp in H. rewrite Ho in H, Harity. cbv zeta in H. apply Ok_inj in H as <-.
  unfold resultRuleOk in Hrule. rewrite Ho in Hrule. cbn in Hrule, Harity.
  assert (operandCount e = 3%nat) as Hc by lia. rewrite Hc in Hrule, Hlen. cbn in Hrule.
  destruct ts as [|t0 [|t1 [|t2 ?]]] eqn:Hts; cbn [length] in Hlen; try lia.
  cbn in Hrule. rewrite !andb_true_iff, !typeEq_spec, !bool_decide_eq_true in Hrule.
  destruct Hrule as [[_ <-] <-]. by destruct (negb _); eapply args_ok_at.
Qed.

Lemma evalFlags_typed v :
  match infoCategory (info (op e)) with
  | ExprCategory.FlagProducer | ExprCategory.FlagConsumer => True
  | _ => False
  end -> evalOp e ts args = Ok v -> val_ok (type e) v.
Proof using Type*.
  intros Hc H. pose proof bool_node as Hbool. unfold evalOp in H. cbv zeta in H.
  destruct (op e) eqn:Ho; try done; clear Hc.
  - destruct (evalFlagDef _ _ _) as [r|] eqn:Hr; [|done]. apply Ok_inj in H as <-.
    apply evalFlagDef_fits in Hr. unfold resultRuleOk in Hrule. rewrite Ho in Hrule. cbn in Hrule.
    unfold val_ok. by rewrite Hrule.
  - apply Ok_inj in H as <-. by apply Hbool.
  - apply Ok_inj in H as <-. by apply Hbool.
Qed.

Lemma evalCompare_typed v :
  infoCategory (info (op e)) = ExprCategory.IntCompare -> evalOp e ts args = Ok v ->
  val_ok (type e) v.
Proof using Type*.
  intros Hc H. pose proof bool_node as Hbool. unfold evalOp in H. cbv zeta in H.
  destruct (op e) eqn:Ho; try done; clear Hc;
    try (destruct (ofOption _) as [w| |]; try done); apply Ok_inj in H as <-; by apply Hbool.
Qed.

Lemma evalFloat_arith_typed v :
  infoCategory (info (op e)) = ExprCategory.FloatArithmetic -> floatSized e = true ->
  evalFloat (op e) (bits (type e)) 0 (argAt args 0) (argAt args 1) = Ok v -> val_ok (type e) v.
Proof using Type*.
  intros Hc Hs H. pose proof (same_args_at e ts args 0) as Ha. pose proof (Hwf 0) as [Hl Hh].
  unfold evalFloat in H. unfold floatSized in Hs.
  assert ((bits (type e) =? 32) || (64 <=? bits (type e)) = true ->
          canon (bits (type e)) (argAt args 0)) as Hca.
  { intros Hs'. apply val_ok_int; [|apply Ha; try done; by destruct (op e)].
    destruct (isFlags (type e)) eqn:Hf; [|done]. by rewrite (isFlags_bits (type e)) in Hs'. }
  destruct (op e) eqn:Ho; try done; clear Hc Ha; specialize (Hca Hs);
    pose proof (canon_signOps (bits (type e)) _ ltac:(lia) Hca) as [Hneg Habs];
    try (apply Ok_inj in H as <-; by apply val_ok_canon).
  all: destruct (Z.eqb_spec (bits (type e)) 32) as [Hb|Hb]; apply Ok_inj in H as <-;
    (apply val_ok_canon; [done|]); apply ofFloat_canon; cbn in *; lia.
Qed.

Lemma evalFloat_compare_typed v :
  infoCategory (info (op e)) = ExprCategory.FloatCompare ->
  evalFloat (op e) (bits (type e)) 0 (argAt args 0) (argAt args 1) = Ok v -> val_ok (type e) v.
Proof using Type*.
  intros Hc H. pose proof bool_node as Hbool. unfold evalFloat in H. cbv zeta in H.
  destruct (op e) eqn:Ho; try done; clear Hc;
    (destruct (_ || _); apply Ok_inj in H as <-; by apply Hbool).
Qed.

Lemma evalFloat_cast_typed fw v :
  infoCategory (info (op e)) = ExprCategory.FloatCast -> floatSized e = true ->
  evalFloat (op e) (bits (type e)) fw (argAt args 0) (argAt args 1) = Ok v -> val_ok (type e) v.
Proof using Type*.
  intros Hc Hs H. pose proof canon_narrowFloat as Hn. unfold evalFloat in H.
  assert (forall z, fits 64 z -> val_ok (type e) (mask (MkU128 z 0) (bits (type e)))) as Hm.
  { intros z Hz. apply val_ok_canon, canon_mask; [done|lia|]. split; [done|by apply fits_0]. }
  assert (val_ok (type e) zero128) as Hz by (apply val_ok_canon, canon_zero; done || lia).
  assert (val_ok (type e) (maskOf (bits (type e)))) as Ho1 by (by apply val_ok_canon, canon_maskOf).
  unfold floatSized in Hs. destruct (op e) eqn:Ho; try done; clear Hc.
  - destruct (_ || (fw =? 32)) eqn:Hw32; apply Ok_inj in H as <-; [by apply Hn|].
    apply orb_false_iff in Hw32 as [Hw32 _]. rewrite Hw32 in Hs. cbn in Hs. apply Z.leb_le in Hs.
    apply val_ok_canon, canon_word64; [done|lia|apply (Hwf 0)].
  - unfold floatToSigned in H. destruct (isNaN _); [by apply Ok_inj in H as <-|]. cbv zeta in H.
    destruct (ofOption _) as [n| |]; try done. apply Ok_inj in H as <-. apply Hm, fits_u64.
  - unfold floatToUnsigned in H. destruct (isNaN _); [by apply Ok_inj in H as <-|].
    destruct (SFleb _ _); [by apply Ok_inj in H as <-|].
    destruct (SFleb _ _); [by apply Ok_inj in H as <-|].
    destruct (toUint64 _) as [n|] eqn:Hn64; [|done]. apply Ok_inj in H as <-. apply Hm.
    by apply toUint64_fits in Hn64.
  - destruct (_ =? 0); [done|]. apply Ok_inj in H as <-. by apply Hn.
  - apply Ok_inj in H as <-. by apply Hn.
Qed.

(** Every case of the switch yields a value of the node's type. *)
Lemma evalOp_typed v : floatSized e = true -> evalOp e ts args = Ok v -> val_ok (type e) v.
Proof using Type*.
  intros Hs H. pose proof evalInt_typed as H1. pose proof evalCast_typed as H2.
  pose proof evalBitCount_typed as H3. pose proof evalSelect_typed as H4.
  pose proof evalFlags_typed as H5. pose proof evalCompare_typed as H6.
  pose proof evalFloat_arith_typed as H7. pose proof evalFloat_compare_typed as H8.
  pose proof evalFloat_cast_typed as H9. pose proof H as H'. unfold evalOp in H'. cbv zeta in H'.
  destruct (op e) eqn:Ho; try done; try (by apply H1); try (by apply H2); try (by apply H3);
    try (by apply H4); try (by apply H5); try (by apply H6); try (by apply H7); try (by apply H8);
    destruct (ofOption _) as [w| |]; try done; by apply (H9 w).
Qed.

Lemma evalNode_typed v :
  floatSized e = true -> evalNode env e ts args = Ok v -> val_ok (type e) v.
Proof using Type*.
  intros Hs H. pose proof evalOp_typed as Hop1. unfold evalNode in H.
  pose proof Hop as Hop2. unfold opRuleOk in Hop2.
  destruct (op e) eqn:Ho; try (by apply Hop1); try done.
  - apply Ok_inj in H as <-. by apply val_ok_canon, canon_mask_immediate.
  - destruct (valueAt _ _) as [i|] eqn:Hi; [|done]. rewrite typeEq_spec in Hop2.
    apply bool_decide_eq_true in Hop2 as <-. by eapply env_value_ok.
  - destruct (rfAt _ _) as [i|] eqn:Hi; [|done]. rewrite typeEq_spec in Hop2.
    apply bool_decide_eq_true in Hop2 as <-. by eapply env_reg_ok.
Qed.
End Node.

(** ** Whole expressions *)

(** The node lemma for an expression of a verified pool. *)
Lemma evalNode_verified f env id e ts args v :
  env_ok f env -> exprVerifies f id e = true -> floatSized e = true -> tooWide (type e) = false ->
  mapM (typeAt f) (operands e) = Some ts -> args_ok ts args ->
  evalNode env e ts args = Ok v -> val_ok (type e) v.
Proof.
  intros Henv Hver Hfs Hnar Hts Hargs Hv.
  apply exprVerifies_typed in Hver as ([Hmin Hmax] & Hvalid & ts' & Hts' & Hr & Ho).
  rewrite Hts in Hts'. injection Hts' as <-.
  eapply (evalNode_typed f env e ts args); try done.
  apply mapM_Some in Hts. symmetry. by apply Forall2_length in Hts.
Qed.

Definition floats_sized (f : Function) : Prop :=
  forall id e, exprAt f id = Some e -> floatSized e = true.

(** The nodes that count have floats of the supported sizes, by restriction or
    because the whole pool has. *)
Definition counted_sized (defined : Expr -> list U128 -> bool) (f : Function) : Prop :=
  forall id e args, exprAt f id = Some e -> defined e args = true -> floatSized e = true.

Lemma counted_any f : floats_sized f -> counted_sized anyNode f.
Proof. intros H id e args He _. by eapply H. Qed.

Lemma counted_strict f : counted_sized strictNode f.
Proof.
  intros id e args _. unfold strictNode, floatSized. by destruct (op e).
Qed.

Lemma floats_sized_check f : forallb floatSized (exprs (pool f)) = true -> floats_sized f.
Proof.
  rewrite forallb_forall. intros H id e [He _]%vget_Some.
  by eapply H, list_elem_of_In, list_elem_of_lookup_2.
Qed.

(** Evaluation under any node restriction yields values of the nodes' types. *)
Lemma Eval_val_ok defined f env id v :
  pool_ok f -> counted_sized defined f -> env_ok f env -> Eval defined f env id v ->
  exists e, exprAt f id = Some e /\ val_ok (type e) v /\ valid (type e) = true /\
    tooWide (type e) = false.
Proof.
  intros Hpool Hfs Henv H. induction H as [id e ts args v He Hw Ht Hargs IH Hd Hv] using Eval_ind'.
  exists e. pose proof (pool_ok_verifies f Hpool id e He) as Hver.
  split; [done|]. split; [|split; [by apply exprVerifies_typed in Hver as (_ & ? & _)|done]].
  eapply evalNode_verified; try done; [by eapply Hfs|].
  clear Hv Hargs Hd. apply mapM_Some in Ht. unfold args_ok. revert ts Ht.
  induction IH as [|x a xs as_ (e' & He' & Hok) _ IHl]; intros ts Ht;
    inversion Ht as [|? t ? ts' Htx Hts]; subst; constructor; [|by apply IHl].
  apply typeAt_Some in Htx as (e'' & He'' & <-). simplify_eq. apply Hok.
Qed.

Lemma args_of_Eval defined f env xs ts args :
  pool_ok f -> counted_sized defined f -> env_ok f env ->
  mapM (typeAt f) xs = Some ts -> Forall2 (Eval defined f env) xs args -> args_ok ts args.
Proof.
  intros Hpool Hfs Henv Ht%mapM_Some Hargs. revert ts Ht. unfold args_ok.
  induction Hargs as [|x a xs args Hx _ IH]; intros ts Ht; inversion Ht as [|? t ? ts' Htx Hts]; subst;
    constructor; [|by apply IH].
  apply typeAt_Some in Htx as (e & He & <-).
  destruct (Eval_val_ok _ _ _ _ _ Hpool Hfs Henv Hx) as (e' & He' & ? & ? & ?). by simplify_eq.
Qed.

(** ** Properties *)

(** C26 Type soundness: in a pool the verifier accepts, whose float operations
    have results of width 32 or at least 64, under an environment that supplies values
    and registers of their declared types, every value an expression evaluates to is a
    value of its type: four bits for a flag bundle, and otherwise no bit above the
    width. For the 16-bit floats the verifier also accepts this fails: they are
    computed in the 64-bit format ([Sample.half_floats_exceed_width]). *)
Theorem evaluation_type_soundness f env id v e :
  pool_ok f -> floats_sized f -> env_ok f env ->
  Evaluates f env id v -> exprAt f id = Some e -> val_ok (type e) v.
Proof.
  intros Hpool Hfs Henv Hv He.
  destruct (Eval_val_ok _ _ _ _ _ Hpool (counted_any f Hfs) Henv Hv) as (e' & He' & Hok & _).
  congruence.
Qed.
