(* ===== verification/EvalProps.v ===== *)
(** * The interpreter's evaluator computes the evaluation relation

    [evalRec], with its depth limit and its special treatment of flag operands,
    agrees with [Eval]: what it returns is what the relation gives, and below
    the limit it returns everything the relation gives. *)
From S2P Require Import Prelude Bits U128 Types Exprs Registers Func Eval VerifyExpr ValueTypes.

Lemma Res_bind_Ok {A B} (m : Res A) (k : A -> Res B) b :
  m ≫= k = Ok b <-> exists a, m = Ok a /\ k a = Ok b.
Proof.
  destruct m as [a| |]; cbn; split; try done; try (by intros (? & ? & ?)).
  - intros H. by exists a.
  - intros (a' & [= <-] & H). done.
Qed.

Lemma ofOption_Ok {A} (x : option A) a : ofOption x = Ok a <-> x = Some a.
Proof. destruct x; cbn; split; intros H; by inversion H. Qed.

Lemma mapRes_Ok {A B} (g : A -> Res B) l ys :
  mapRes g l = Ok ys <-> Forall2 (fun x y => g x = Ok y) l ys.
Proof.
  revert ys. induction l as [|x l IH]; intros ys; cbn.
  - split; [intros [= <-]; constructor|by inversion 1].
  - rewrite Res_bind_Ok. split.
    + intros (y & Hy & (ys' & Hys & [= <-])%Res_bind_Ok). constructor; [done|by apply IH].
    + inversion 1 as [|? y ? ys' Hy Hys]; subst. exists y. split; [done|].
      apply Res_bind_Ok. exists ys'. split; [by apply IH|done].
Qed.

(** The low four bits, which is what a flag consumer receives. *)
Definition flagNibble (v : ConcreteValue) : ConcreteValue := MkU128 (Z.land (lo v) 15) 0.

Lemma flagNibble_id r : fits 4 r -> flagNibble (MkU128 r 0) = MkU128 r 0.
Proof.
  intros Hr. unfold flagNibble. cbn. f_equal. change 15 with (Z.ones 4).
  rewrite Z.land_ones by lia. by apply Z.mod_small.
Qed.

(** A flag consumer reads nothing but the low four bits. *)
Lemma evalNode_flagNibble env e ts args :
  isFlagConsumer (op e) = true -> evalNode env e ts (flagNibble <$> args) = evalNode env e ts args.
Proof.
  intros Hc. unfold evalNode, evalOp.
  assert (lo (argAt (flagNibble <$> args) 0) = Z.land (lo (argAt args 0)) 15) as Ha.
  { unfold argAt. rewrite list_lookup_fmap. by destruct (args !! 0%nat). }
  destruct (op e); try done; cbv zeta; rewrite Ha.
  - by rewrite <-Z.land_assoc.
  - do 4 f_equal. unfold shr64. change 1 with (Z.ones 1). change 15 with (Z.ones 4).
    rewrite Z.shiftr_land, <-Z.land_assoc. f_equal.
    by destruct (enumAt flagBits (immediate e)) as [[]|].
Qed.

(** ** Every result is a value of the relation *)

Section Soundness.
Context (f : Function) (env : Env) (Hpool : pool_ok f).

Lemma operands_typed id e :
  exprAt f id = Some e -> exists ts, mapM (typeAt f) (operands e) = Some ts.
Proof using Hpool.
  intros He. apply (pool_ok_verifies f Hpool) in He.
  apply exprVerifies_typed in He as (_ & _ & ts & Hts & _). by exists ts.
Qed.

Lemma flagDef_narrow id e :
  exprAt f id = Some e -> op e = ExprOp.FlagDef -> tooWide (type e) = false.
Proof using Hpool.
  intros He Ho. apply (pool_ok_verifies f Hpool) in He.
  apply exprVerifies_typed in He as (_ & _ & ts & _ & Hr & _).
  unfold resultRuleOk in Hr. rewrite Ho in Hr. cbn in Hr. unfold tooWide. rewrite Hr.
  by rewrite andb_false_r.
Qed.

(** A flag operand's value is the bundle's, cut to four bits. *)
Lemma flagsOperand_sound rec id v :
  (forall x a, rec x = Ok a -> Evaluates f env x a) ->
  evalFlagsOperandWith rec f id = Ok v ->
  exists w, Evaluates f env id w /\ v = flagNibble w.
Proof using Hpool.
  intros Hrec H. unfold evalFlagsOperandWith in H.
  apply Res_bind_Ok in H as (e & He%ofOption_Ok & H). destruct (decide _) as [Ho|Ho].
  - apply Res_bind_Ok in H as (args & Hargs%mapRes_Ok & H).
    apply Res_bind_Ok in H as (r & Hr%ofOption_Ok & [= <-]).
    exists (MkU128 r 0). split; [|by rewrite flagNibble_id by (by eapply evalFlagDef_fits)].
    destruct (operands_typed id e He) as [ts Hts].
    econstructor; try done; [by eapply flagDef_narrow|eapply Forall2_impl; [exact Hargs|exact Hrec]|].
    unfold evalNode, evalOp. rewrite Ho. by rewrite Hr.
  - apply Res_bind_Ok in H as (w & Hw & [= <-]). exists w. split; [by apply Hrec|done].
Qed.

Lemma evalRec_sound fuel id depth v :
  evalRec fuel f env id depth = Ok v -> Evaluates f env id v.
Proof using Hpool.
  revert id depth v. induction fuel as [|fuel IH]; intros id depth v; cbn [evalRec];
    (destruct (_ <? _); [done|]); [done|].
  intros (e & He%ofOption_Ok & H)%Res_bind_Ok. destruct (tooWide (type e)) eqn:Hw; [done|].
  apply Res_bind_Ok in H as (args & Hargs%mapRes_Ok & H).
  apply Res_bind_Ok in H as (ts & Hts%ofOption_Ok & H).
  destruct (isFlagConsumer (op e)) eqn:Hc.
  2: { apply (Eval_node _ _ _ id e ts args v); try done.
       eapply Forall2_impl; [exact Hargs|intros x a Hx; exact (IH _ _ _ Hx)]. }
  assert (exists ws, Forall2 (Evaluates f env) (operands e) ws /\ args = flagNibble <$> ws)
    as (ws & Hws & ->).
  { clear H Hts He. induction Hargs as [|x a xs as_ Hx _ (ws & Hws & ->)]; [by exists []|].
    eapply flagsOperand_sound in Hx as (w & Hw' & ->); [|intros y b Hy; exact (IH _ _ _ Hy)].
    exists (w :: ws). by split; [constructor|]. }
  rewrite evalNode_flagNibble in H by done. by econstructor.
Qed.

(** ** Below the limit every value of the relation is returned *)

(** The tree below [id] is at most [n] nodes deep. *)
Fixpoint within (n : nat) (id : N) : Prop :=
  match n with
  | O => False
  | S n => exists e, exprAt f id = Some e /\ Forall (within n) (operands e)
  end.

Lemma within_operand n id e x :
  within (S n) id -> exprAt f id = Some e -> x ∈ operands e -> within n x.
Proof using Type*.
  intros (e' & He' & Hall) He Hx. simplify_eq. rewrite Forall_forall in Hall. by apply Hall.
Qed.

Lemma flagsOperand_complete rec id v :
  (forall x a, Evaluates f env x a -> (x = id \/ exists e, exprAt f id = Some e /\ x ∈ operands e) ->
     rec x = Ok a) ->
  Evaluates f env id v -> evalFlagsOperandWith rec f id = Ok (flagNibble v).
Proof using Hpool.
  intros Hrec Hv. inversion Hv as [id' e ts args v' He Hw Hts Hargs Hd Hn]; subst id' v'.
  unfold evalFlagsOperandWith. rewrite He. cbn [ofOption mbind Res_bind].
  destruct (decide _) as [Ho|Ho].
  - assert (mapRes rec (operands e) = Ok args) as ->.
    { apply mapRes_Ok. apply Forall2_same_length_lookup. split; [by eapply Forall2_length|].
      intros i x a Hx Ha. apply Hrec; [by eapply Forall2_lookup_lr|]. right. exists e.
      split; [done|by eapply list_elem_of_lookup_2]. }
    unfold evalNode, evalOp in Hn. rewrite Ho in Hn. cbn [mbind Res_bind].
    apply Res_bind_Ok in Hn as (r & Hr & [= <-]). rewrite Hr. cbn.
    apply ofOption_Ok, evalFlagDef_fits in Hr. by rewrite flagNibble_id.
  - rewrite (Hrec id v) by (try done; by left). done.
Qed.

Lemma evalRec_complete n fuel id depth v :
  within n id -> Evaluates f env id v -> (n <= fuel)%nat ->
  0 <= depth -> depth + 2 * Z.of_nat n <= 514 ->
  evalRec fuel f env id depth = Ok v.
Proof using Hpool.
  revert n id depth v. induction fuel as [|fuel IH]; intros n id depth v Hn Hv Hfuel Hd Hlim.
  { destruct n; [done|lia]. }
  destruct n as [|n]; [done|]. cbn [evalRec]. if_false.
  inversion Hv as [id' e ts args v' He Hw Hts Hargs Hdf Hnode]; subst id' v'.
  rewrite He. cbn [ofOption mbind Res_bind]. rewrite Hw.
  match goal with |- context [mapRes ?h (operands e)] => set (g := h) end.
  assert (mapRes g (operands e) =
          Ok (if isFlagConsumer (op e) then flagNibble <$> args else args)) as ->.
  { apply mapRes_Ok, Forall2_same_length_lookup.
    split; [destruct (isFlagConsumer _); rewrite ?length_fmap; by eapply Forall2_length|].
    intros i x a Hx Ha. assert (x ∈ operands e) as Hin by (by eapply list_elem_of_lookup_2).
    pose proof (within_operand n id e x Hn He Hin) as Hnx. unfold g.
    destruct (isFlagConsumer (op e)).
    - apply list_lookup_fmap_Some in Ha as (w & -> & Hw').
      apply flagsOperand_complete; [|by eapply Forall2_lookup_lr].
      intros y b Hy [->|(ex & Hex & Hyin)].
      + apply (IH n); done || lia.
      + destruct n as [|n']; [done|].
        apply (IH n'); try done; [by eapply within_operand|lia|lia|lia].
    - apply (IH n); try done; [by eapply Forall2_lookup_lr|lia|lia|lia]. }
  cbn [mbind Res_bind]. rewrite Hts. cbn [ofOption mbind Res_bind].
  destruct (isFlagConsumer (op e)) eqn:Hc; [|done]. by rewrite evalNode_flagNibble.
Qed.

Lemma eval_sound id v : eval f env id = Ok v -> Evaluates f env id v.
Proof using Hpool. unfold eval. apply evalRec_sound. Qed.
End Soundness.

(** ** Properties *)

(** C27 The interpreter's recursive evaluator is correct: whatever it returns is
    the value the evaluation relation assigns, and for an expression at most 257
    nodes deep it returns that value, so the depth limit of 512 and the double
    step at flag operands never cut it off. *)
Theorem eval_correct f env id v :
  pool_ok f ->
  (eval f env id = Ok v -> Evaluates f env id v) /\
  (within f 257 id -> Evaluates f env id v -> eval f env id = Ok v).
Proof.
  intros Hpool. split; [by apply eval_sound|].
  intros Hn Hv. eapply (evalRec_complete f env Hpool 257); try done; lia.
Qed.
