(* ===== verification/VerifyProps.v ===== *)
(** * What the verifier establishes (il/verify.cpp)

    The worklist of [collectValueUses] reports exactly the values an expression
    reads, and a report without errors gives, operation by operation, the facts
    execution relies on. *)
From stdpp Require Import relations.
From S2P Require Import Prelude Bits Types Exprs Registers Func Cfg VerifyExpr Verify.
Local Open Scope Z_scope.

(** ** The values an expression reads *)

Section Reads.
Context (f : Function).

Definition child (x y : N) : Prop := exists e, exprAt f x = Some e /\ y ∈ operands e.

(** The value handle of a [Value] node. *)
Definition handleOf (e : Expr) : N := Z.to_N (u32 (immediate e)).

Definition readsValue (x v : N) : Prop :=
  exists y e, rtc child x y /\ exprAt f y = Some e /\ op e = ExprOp.Value /\ v = handleOf e.

Lemma readsValue_child x y v : child x y -> readsValue y v -> readsValue x v.
Proof. intros Hc (z & e & Hz & ?). exists z, e. split; [by eapply rtc_l|done]. Qed.

(** ** The search ends *)

(** What the nodes not seen yet can still push. *)
Definition pendingFrom (seen : gset N) (start : nat) (es : list Expr) : nat :=
  sum_list (imap (fun i e => if decide (N.of_nat (start + i) ∈ seen) then 0%nat else length (operands e)) es).

Lemma pendingFrom_cons seen start e es :
  pendingFrom seen start (e :: es) =
    ((if decide (N.of_nat start ∈ seen) then 0 else length (operands e)) + pendingFrom seen (S start) es)%nat.
Proof.
  unfold pendingFrom. rewrite imap_cons. cbn [sum_list]. rewrite Nat.add_0_r. f_equal. f_equal.
  apply imap_ext. intros i x _. cbn. by rewrite Nat.add_succ_r.
Qed.

Lemma pendingFrom_insert seen es start i e :
  es !! i = Some e -> N.of_nat (start + i) ∉ seen ->
  (pendingFrom ({[N.of_nat (start + i)]} ∪ seen) start es + length (operands e) = pendingFrom seen start es)%nat.
Proof.
  assert (forall es start id, (N.to_nat id < start)%nat ->
    pendingFrom ({[id]} ∪ seen) start es = pendingFrom seen start es) as Hlow.
  { induction es0 as [|x es0 IH]; intros s id Hid; [done|]. rewrite !pendingFrom_cons, IH by lia. f_equal.
    assert (N.of_nat s <> id) by lia. rewrite (decide_ext _ (N.of_nat s ∈ seen)); [done|rewrite elem_of_union, elem_of_singleton; tauto]. }
  revert start i. induction es as [|x es IH]; intros start [|i] He Hs; [done..| |]; rewrite !pendingFrom_cons.
  - injection He as ->. rewrite Nat.add_0_r in *. rewrite Hlow by lia.
    rewrite decide_True, decide_False by set_solver. lia.
  - rewrite <-Nat.add_succ_comm in *. rewrite <-(IH (S start) i He Hs).
    assert (N.of_nat (S start + i) <> N.of_nat start) by lia.
    rewrite (decide_ext _ (N.of_nat start ∈ seen)) by (rewrite elem_of_union, elem_of_singleton; split; [intros [E|]|]; auto; congruence).
    lia.
Qed.

Definition pending (seen : gset N) : nat := pendingFrom seen 0 (exprs (pool f)).

Lemma pending_insert seen id e :
  exprAt f id = Some e -> id ∉ seen -> (pending ({[id]} ∪ seen) + length (operands e) = pending seen)%nat.
Proof using Type*.
  intros [He _]%vget_Some Hs. unfold pending.
  rewrite <-(N2Nat.id id). apply (pendingFrom_insert seen _ 0 (N.to_nat id) e He). cbn. by rewrite N2Nat.id.
Qed.

Lemma collectLoop_total fuel work seen uses :
  (length work + pending seen <= fuel)%nat -> exists r, collectLoop fuel f work seen uses = Some r.
Proof using Type*.
  revert work seen uses. induction fuel as [|fuel IH]; intros [|id work] seen uses Hf; cbn [collectLoop length] in *;
    try (by eexists); [lia|].
  destruct (hasExpr f id) eqn:Hh; cbn [negb orb]; [|apply IH; lia].
  destruct (bool_decide_reflect (id ∈ seen)) as [Hin|Hin]; [apply IH; lia|].
  apply hasExpr_exprAt in Hh as [e He]. rewrite He. cbn [mbind option_bind].
  pose proof (pending_insert seen id e He Hin). case_decide; apply IH; [lia|].
  rewrite length_app, length_reverse. lia.
Qed.

Lemma collectFuel_pending : collectFuel f = S (pending ∅).
Proof using Type*.
  unfold collectFuel, pending. f_equal. generalize 0%nat. induction (exprs (pool f)) as [|e es IH]; intros s; [done|].
  rewrite pendingFrom_cons, <-IH, decide_False by set_solver. done.
Qed.

Lemma collectValueUses_total id : exists uses, collectValueUses f id = Some uses.
Proof using Type*.
  apply collectLoop_total. rewrite collectFuel_pending. cbn [length]. lia.
Qed.

(** ** What it reports *)

(** The invariant of the loop: a node seen was reported, or its operands are
    seen or on the worklist; and what is reported is read. *)
Definition accounted (work : list N) (seen : gset N) (uses : list N) : Prop :=
  forall x e, x ∈ seen -> exprAt f x = Some e ->
    (op e = ExprOp.Value -> handleOf e ∈ uses) /\
    (op e <> ExprOp.Value -> forall y, y ∈ operands e -> hasExpr f y = true -> y ∈ seen \/ y ∈ work).

Lemma accounted_skip id work seen uses :
  hasExpr f id = false \/ id ∈ seen -> accounted (id :: work) seen uses -> accounted work seen uses.
Proof using Type*.
  intros Hid Hinv x e Hx He. destruct (Hinv x e Hx He) as [? Hc]. split; [done|]. intros Ho y Hy Hyh.
  destruct (Hc Ho y Hy Hyh) as [?|[->|?]%elem_of_cons]; [by left| |by right].
  destruct Hid; [congruence|by left].
Qed.

Lemma collectLoop_closed fuel work seen uses r :
  accounted work seen uses -> collectLoop fuel f work seen uses = Some r ->
  exists seen', seen ⊆ seen' /\ (forall x, x ∈ work -> hasExpr f x = true -> x ∈ seen') /\
    accounted [] seen' r /\ (forall v, v ∈ r -> v ∈ uses \/ exists x, x ∈ work /\ readsValue x v).
Proof using Type*.
  revert work seen uses. induction fuel as [|fuel IH]; intros [|id work] seen uses Hinv H; cbn [collectLoop] in H;
    try discriminate H; try (injection H as <-; exists seen; split_and!; [done|set_solver|done|by left]).
  destruct (negb (hasExpr f id) || bool_decide (id ∈ seen)) eqn:Hskip.
  { apply orb_true_iff in Hskip as [Hh%negb_true_iff|Hin%bool_decide_eq_true];
      (destruct (IH work seen uses) as (s & Hs & Hw & Ha & Hr); [apply (accounted_skip id); auto|done|]);
      exists s; (split_and!; [done| |done|]);
      try (intros v Hv; destruct (Hr v Hv) as [?|(x & ? & ?)]; [by left|right; exists x; split; [by right|done]]);
      intros x [->|?]%elem_of_cons ?; [congruence|by apply Hw|by apply Hs|by apply Hw]. }
  apply orb_false_iff in Hskip as [_ Hin%bool_decide_eq_false].
  destruct (exprAt f id) as [e|] eqn:He; cbn [mbind option_bind] in H; [|done].
  destruct (decide (op e = ExprOp.Value)) as [Ho|Ho].
  - destruct (IH work ({[id]} ∪ seen) (handleOf e :: uses)) as (s & Hs & Hw & Ha & Hr); [|done|].
    + intros x e' [->%elem_of_singleton|Hx]%elem_of_union He'.
      { assert (e' = e) as -> by congruence. split; [by left|done]. }
      destruct (Hinv x e' Hx He') as [? Hc]. split; [by right; auto|]. intros Ho' y Hy Hyh.
      destruct (Hc Ho' y Hy Hyh) as [?|[->|?]%elem_of_cons]; [left; set_solver|left; set_solver|by right].
    + exists s. split_and!; [set_solver| |done|].
      * intros x [->|?]%elem_of_cons ?; [set_solver|by apply Hw].
      * intros v Hv. destruct (Hr v Hv) as [[->|?]%elem_of_cons|(x & ? & ?)]; [|by left|].
        { right. exists id. split; [by left|]. exists id, e. by split. }
        right. exists x. split; [by right|done].
  - destruct (IH (reverse (operands e) ++ work) ({[id]} ∪ seen) uses) as (s & Hs & Hw & Ha & Hr); [|done|].
    + intros x e' [->%elem_of_singleton|Hx]%elem_of_union He'.
      { assert (e' = e) as -> by congruence. split; [done|]. intros _ y Hy _. right.
        apply elem_of_app. left. by apply elem_of_reverse. }
      destruct (Hinv x e' Hx He') as [? Hc]. split; [done|]. intros Ho' y Hy Hyh.
      destruct (Hc Ho' y Hy Hyh) as [?|[->|?]%elem_of_cons]; [left; set_solver|left; set_solver|].
      right. apply elem_of_app. by right.
    + exists s. split_and!; [set_solver| |done|].
      * intros x [->|?]%elem_of_cons ?; [set_solver|]. apply Hw; [|done]. apply elem_of_app. by right.
      * intros v Hv. destruct (Hr v Hv) as [?|(x & [Hx|Hx]%elem_of_app & Hxv)]; [by left| |].
        { right. exists id. split; [by left|]. apply (readsValue_child id x); [|done].
          exists e. split; [done|by apply elem_of_reverse]. }
        right. exists x. split; [by right|done].
Qed.

(** Operands exist, and values have none. *)
Lemma verified_child x y :
  pool_ok f -> child x y -> hasExpr f y = true.
Proof using Type*.
  intros Hpool (e & He & Hy). apply (pool_ok_verifies f Hpool) in He. unfold exprVerifies in He.
  rewrite !andb_true_iff, forallb_forall in He. destruct He as [[_ Ho] _].
  specialize (Ho y). rewrite andb_true_iff in Ho. apply Ho. by apply list_elem_of_In.
Qed.

Lemma value_leaf x e y : pool_ok f -> exprAt f x = Some e -> op e = ExprOp.Value -> y ∉ operands e.
Proof using Type*.
  intros Hpool He Ho Hy. apply (pool_ok_verifies f Hpool), exprVerifies_typed in He as ([_ Hmax] & _).
  rewrite Ho in Hmax. cbn in Hmax. unfold operandCount in Hmax.
  destruct (operands e); [by apply not_elem_of_nil in Hy|cbn in Hmax; lia].
Qed.

Lemma collectValueUses_sound id uses v :
  collectValueUses f id = Some uses -> v ∈ uses -> readsValue id v.
Proof using Type*.
  intros Hu Hv. destruct (collectLoop_closed _ [id] ∅ [] uses (fun x e Hx => ltac:(set_solver)) Hu)
    as (_ & _ & _ & _ & Hr).
  destruct (Hr v Hv) as [?%not_elem_of_nil|(x & ->%list_elem_of_singleton & Hx)]; done.
Qed.

Lemma collectValueUses_complete id uses v :
  pool_ok f -> hasExpr f id = true -> collectValueUses f id = Some uses -> readsValue id v -> v ∈ uses.
Proof using Type*.
  intros Hpool Hid Hu (y & e & Hy & He & Ho & ->).
  destruct (collectLoop_closed _ [id] ∅ [] uses (fun x e Hx => ltac:(set_solver)) Hu)
    as (seen & _ & Hw & Ha & _).
  assert (y ∈ seen) as Hs; [|by apply (Ha y e Hs He)].
  assert (id ∈ seen) as Hstart by (apply Hw; [by left|done]). clear Hw Hu He Hid.
  induction Hy as [x|x y z Hxy _ IH]; [done|]. apply IH.
  pose proof (verified_child x y Hpool Hxy) as Hyh. destruct Hxy as (ex & Hex & Hin).
  destruct (Ha x ex Hstart Hex) as [_ Hc]. destruct (decide (op ex = ExprOp.Value)) as [Hv|Hv].
  - by destruct (value_leaf x ex y Hpool Hex Hv).
  - destruct (Hc Hv y Hin Hyh) as [?|?%not_elem_of_nil]; done.
Qed.

(** C16 [collectValueUses] returns, and reports exactly the values the expression
    reads: those of the [Value] nodes its operands lead to, however shared the
    expression is. *)
Theorem collectValueUses_exact id :
  pool_ok f -> hasExpr f id = true ->
  exists uses, collectValueUses f id = Some uses /\ forall v, v ∈ uses <-> readsValue id v.
Proof using Type*.
  intros Hpool Hid. destruct (collectValueUses_total id) as [uses Hu]. exists uses. split; [done|].
  intros v. split; [by apply collectValueUses_sound|by apply collectValueUses_complete].
Qed.
End Reads.

(** ** What a report without errors says of a block *)

Lemma handled_block f b blk : blockAtId f b = Some blk -> (b, blk) ∈ handled f.
Proof.
  intros [Hb _]%vget_Some. apply elem_of_lookup_imap. exists (N.to_nat b), blk.
  split; [by rewrite N2Nat.id|done].
Qed.

Section Facts.
Context (level : Maturity) (f : Function) (Hv : verifyOk level f = true).

Lemma verifyOk_parts :
  checkEntry f = true /\ checkExpressions f = true /\ checkBlocks level f = true /\
  checkValues level f = true /\ checkEdges f = true.
Proof using Hv. unfold verifyOk in Hv. rewrite !andb_true_iff in Hv. tauto. Qed.

Lemma verified_ops b blk :
  blockAtId f b = Some blk ->
  checkOps level f b false (blockOps blk) = true /\ (blockOps blk = [] -> external blk = true).
Proof using Hv.
  intros Hb. destruct verifyOk_parts as (_ & _ & Hc & _). unfold checkBlocks in Hc.
  apply andb_true_iff in Hc as [_ Hc]. apply (forallb_elem _ _ (b, blk)) in Hc; [|by apply handled_block].
  unfold checkBlock in Hc. cbn [fst snd] in Hc. by destruct (blockOps blk).
Qed.

Lemma verified_definitions b blk opId :
  blockAtId f b = Some blk -> opId ∈ blockOps blk -> checkDefinition f (b, opId) = true.
Proof using Hv.
  intros Hb Ho. destruct verifyOk_parts as (_ & _ & _ & Hc & _). unfold checkValues in Hc.
  rewrite !andb_true_iff in Hc. apply (forallb_elem _ _ _ (proj1 (proj1 Hc))).
  apply list_elem_of_In, in_flat_map. exists (b, blk). split; [by apply list_elem_of_In, handled_block|].
  apply list_elem_of_In, list_elem_of_fmap. by exists opId.
Qed.

Lemma verified_uses b blk :
  atLeast level Maturity.Ssa = false -> blockAtId f b = Some blk -> checkUses f b ∅ (blockOps blk) = true.
Proof using Hv.
  intros Hl Hb. destruct verifyOk_parts as (_ & _ & _ & Hc & _). unfold checkValues, checkValueUseOrder in Hc.
  rewrite !andb_true_iff in Hc. destruct Hc as [_ Hc]. rewrite Hl in Hc.
  apply (forallb_elem _ _ (b, blk)) in Hc; [done|by apply handled_block].
Qed.
End Facts.

(** *** One operation *)

Lemma checkOps_cons level f b seenPhi opId os :
  checkOps level f b seenPhi (opId :: os) = true ->
  exists o seenPhi', opAt f opId = Some o /\ checkOp level f b o = true /\
    (isTerminator (code o) = true -> os = []) /\
    (isTerminator (code o) = false -> os = [] -> atLeast level Maturity.Cfg = false) /\
    checkOps level f b seenPhi' os = true.
Proof.
  cbn [checkOps]. destruct (opAt f opId) as [o|]; [|done]. rewrite !andb_true_iff.
  intros [[[[Hterm Hlast] _] Hop] Hrest]. eexists o, _. split_and!; [done|done| | |exact Hrest].
  - intros Ht. rewrite Ht in Hterm. by destruct os.
  - intros Ht ->. rewrite Ht in Hlast. by destruct (atLeast level Maturity.Cfg).
Qed.

Lemma checkOp_spec level f b o :
  checkOp level f b o = true ->
  exists xs ts, operandsOf (tables f) o = Some xs /\ targetsOf (tables f) o = Some ts /\
    (forall x, x ∈ xs -> hasExpr f x = true) /\ (forall t, t ∈ ts -> hasBlock f t = true) /\
    codeRuleOk level f b o xs ts = true /\ handleValid (result o) = shouldDefine o.
Proof.
  unfold checkOp. rewrite !andb_true_iff. intros [[_ Hm] Hr].
  destruct (operandsOf _ _) as [xs|], (targetsOf _ _) as [ts|]; try done.
  rewrite !andb_true_iff in Hm. destruct Hm as [[Hx Ht] Hc]. exists xs, ts. split_and!; try done.
  - intros x. by apply forallb_elem.
  - intros x. by apply forallb_elem.
  - by apply eqb_prop in Hr as ->.
Qed.

Lemma exprTypeIs_Some f x t : exprTypeIs f x t = true <-> typeAt f x = Some t.
Proof.
  unfold exprTypeIs. destruct (typeAt f x) as [t'|]; [|done]. rewrite typeEq_spec, bool_decide_eq_true.
  split; [by intros ->|by intros [= ->]].
Qed.

Lemma contains_vget {A} (l : list A) h : contains l h = true -> exists x, vget l h = Some x.
Proof.
  intros Hc. unfold vget. rewrite Hc. apply contains_spec in Hc as [Hlt _]. apply lookup_lt_is_Some. lia.
Qed.

Lemma checkRegister_Some f o : checkRegister f o = true ->
  exists i, rfAt (registers f) (payload o) = Some i /\ registerTypeOf f o = registerType i.
Proof.
  intros [i Hi]%contains_vget. exists i. split; [exact Hi|]. unfold registerTypeOf, rfAt. by rewrite Hi.
Qed.

(** The result an operation defines, typed as the operation. *)
Lemma checkDefinition_value f b opId o :
  checkDefinition f (b, opId) = true -> opAt f opId = Some o -> handleValid (result o) = true ->
  exists i, valueAt f (result o) = Some i /\ valueBlock i = b /\ valueType i = opType o.
Proof.
  unfold checkDefinition. cbn [fst snd]. intros H Ho Hr. rewrite Ho, Hr in H.
  destruct (valueAt f (result o)) as [i|]; [|done]. exists i. rewrite !andb_true_iff in H.
  destruct H as [[_ ?%N.eqb_eq] Ht]. rewrite typeEq_spec, bool_decide_eq_true in Ht. done.
Qed.

(** The values an operand reads are available, in a verified pool. *)
Lemma operandOk_reads f b available x v :
  pool_ok f -> hasExpr f x = true -> operandOk f b available x = true -> readsValue f x v -> v ∈ available.
Proof.
  intros Hpool Hx Hok Hr. destruct (collectValueUses_total f x) as [uses Hu].
  unfold operandOk in Hok. rewrite Hu in Hok.
  pose proof (collectValueUses_complete f x uses v Hpool Hx Hu Hr) as Hin.
  apply (forallb_elem _ _ v) in Hok; [|done]. destruct Hr as (y & e & _ & He & Ho & ->).
  apply (pool_ok_verifies f Hpool), exprVerifies_typed in He as (_ & _ & ts & _ & _ & Hrule).
  unfold opRuleOk in Hrule. rewrite Ho in Hrule. unfold useOk, handleOf in *.
  destruct (valueAt f _) as [i|]; [|done]. apply andb_true_iff in Hok as [_ Hok].
  by apply bool_decide_eq_true in Hok.
Qed.
