(* ===== verification/EvalErrors.v ===== *)
(** * Evaluation fails only for the reasons it names

    In a verified pool whose operations have widths C++ defines, the evaluator
    always returns a value or a diagnostic, and the diagnostic is never the one
    that accuses the IL of being malformed ([DiagCode.VerifyFailure]) as long as
    the values the expression reads have been supplied. *)
From stdpp Require Import relations.
From S2P Require Import Prelude Bits U128 Types Exprs Registers Func Floats Eval VerifyExpr ValueTypes EvalProps Cfg Verify VerifyProps.
Local Open Scope Z_scope.

Lemma good_bind {A B} (r : Res A) (k : A -> Res B) :
  good r -> (forall a, r = Ok a -> good (k a)) -> good (r ≫= k).
Proof. destruct r; cbn; auto. Qed.

Lemma good_mapRes {A B} (g : A -> Res B) l : (forall x, x ∈ l -> good (g x)) -> good (mapRes g l).
Proof.
  induction l as [|x l IH]; intros H; cbn [mapRes]; [done|].
  apply good_bind; [apply H; by left|intros y _]. apply good_bind; [|done].
  apply IH. intros z Hz. apply H. by right.
Qed.

Lemma good_ofOption {A} (x : option A) : is_Some x -> good (ofOption x).
Proof. by intros [a ->]. Qed.

(** Nodes on which C++ defines the arithmetic: no shift by [width - 1] or
    remainder by the width at width zero, no [INT64_MIN / -1], flag bundles of
    the widths the flag helpers accept, no cast of a float out of range. *)
Definition definedNode (ts : list Ty) (e : Expr) : bool :=
  let w := bits (type e) in
  match op e with
  | ExprOp.DivS => negb (w =? 0) && negb (w =? 64)
  | ExprOp.RemS | ExprOp.ShrS | ExprOp.RotR | ExprOp.RotL => negb (w =? 0)
  | ExprOp.SExt | ExprOp.IntToFpS => match ts with t :: _ => negb (bits t =? 0) | [] => false end
  | ExprOp.FlagDef =>
      match flagDefOp (immediate e) with
      | None | Some FlagOp.Const => true
      | _ => (1 <=? flagDefWidth (immediate e)) && (flagDefWidth (immediate e) <=? 64)
      end
  | ExprOp.FpToIntS | ExprOp.FpToIntU => false
  | _ => true
  end.

Definition definedNodes (f : Function) : Prop :=
  forall id e ts, exprAt f id = Some e -> mapM (typeAt f) (operands e) = Some ts -> definedNode ts e = true.

Definition definedNodeAt (f : Function) (e : Expr) : bool :=
  match mapM (typeAt f) (operands e) with Some ts => definedNode ts e | None => true end.

Lemma definedNodes_check f : forallb (definedNodeAt f) (exprs (pool f)) = true -> definedNodes f.
Proof.
  intros H id e ts [He _]%vget_Some Hts. apply list_elem_of_lookup_2 in He.
  apply (forallb_elem _ _ e H) in He. unfold definedNodeAt in He. by rewrite Hts in He.
Qed.

(** ** One node *)

Lemma evalFlagDef_Some o w (args : list U128) :
  length args = flagDefArity o ->
  match o with None | Some FlagOp.Const => true | _ => (1 <=? w) && (w <=? 64) end = true ->
  is_Some (evalFlagDef o w args).
Proof.
  intros Hl Hw. unfold evalFlagDef. destruct o as [[]|]; cbn in Hl; try rewrite Hw;
    destruct args as [|? [|? [|? []]]]; try discriminate Hl; cbn; by eexists.
Qed.

(** A narrow value sign-extended to 64 bits is not [INT64_MIN]. *)
Lemma sext_not_min a w : 1 <= w < 64 -> canon w a -> toI64 (lo (sext a w 64)) <> - 2 ^ 63.
Proof.
  intros Hw Ha. pose proof (uval_sext a w 64 ltac:(lia) ltac:(lia) Ha) as Hu.
  pose proof (canon_sext a w 64 ltac:(lia) ltac:(lia) (proj1 Ha)) as Hc.
  destruct (canon_narrow _ 64 ltac:(lia) Hc) as [_ Hlo]. rewrite Hlo in Hu. rewrite Hu, toI64_signed.
  pose proof (signed_range w (uval a) ltac:(lia) (proj2 Ha)) as Hr.
  pose proof (Z.pow_le_mono_r 2 (w - 1) 62 ltac:(lia) ltac:(lia)).
  assert (signed 64 (signed w (uval a) mod 2 ^ 64) = signed w (uval a)) as ->; [|lia].
  apply signed_unique; lia.
Qed.

Section Node.
Context (f : Function) (e : Expr) (ts : list Ty) (args : list U128).
Context (Hver : exprTyped f e) (Hts : mapM (typeAt f) (operands e) = Some ts).
Context (Hargs : Forall2 (fun _ _ => True) ts args).
Context (Hdef : definedNode ts e = true) (Hnarrow : tooWide (type e) = false).

Lemma node_arity : (minArity (info (op e)) <= length ts <= maxArity (info (op e)))%nat.
Proof using Hver Hts.
  destruct Hver as (Ha & _). unfold operandCount in Ha.
  apply mapM_Some, Forall2_length in Hts. by rewrite <-Hts.
Qed.

Lemma good_width {A} i (k : Z -> Res A) :
  (i < minArity (info (op e)))%nat -> (forall w, bits <$> ts !! i = Some w -> good (k w)) ->
  good (ofOption (bits <$> ts !! i) ≫= k).
Proof using Hver Hts.
  intros Hi Hk. pose proof node_arity. destruct (lookup_lt_is_Some_2 ts i) as [t Ht]; [lia|].
  rewrite Ht in *. by apply Hk.
Qed.

Lemma good_guard {A} w (r : Res A) : (w =? 0) = false -> good r -> good (guardWidth w r).
Proof using Type*. unfold guardWidth. by intros ->. Qed.

Lemma good_divRem a b :
  (op e = ExprOp.DivS -> val_ok (type e) a) ->
  op e = ExprOp.DivU \/ op e = ExprOp.DivS \/ op e = ExprOp.RemU \/ op e = ExprOp.RemS ->
  good (evalDivRem (op e) (bits (type e)) a b).
Proof using Hver Hts Hdef.
  intros Ha Ho. unfold evalDivRem, definedNode in *. destruct (Z.ltb_spec 64 (bits (type e))); [done|].
  destruct Ho as [Ho|[Ho|[Ho|Ho]]]; rewrite Ho in Hdef |- *.
  - by destruct (_ =? 0).
  - apply andb_true_iff in Hdef as [H0%negb_true_iff H64%negb_true_iff].
    apply good_guard; [done|]. cbv zeta. destruct (toI64 _ =? 0); [done|].
    destruct (_ && _) eqn:Hmin; [|done]. apply andb_true_iff in Hmin as [_ Hm].
    apply Z.eqb_eq in Hm. apply Z.eqb_neq in H0, H64. destruct Hver as (_ & Hvalid & _).
    pose proof (valid_bits _ Hvalid).
    destruct (sext_not_min a (bits (type e)) ltac:(lia)); [|done].
    apply val_ok_int; [|by apply Ha]. destruct (isFlags (type e)) eqn:Hf; [|done].
    apply isFlags_bits in Hf; [lia|done].
  - by destruct (_ =? 0).
  - apply good_guard; [by apply negb_true_iff|]. cbv zeta. by destruct (toI64 _ =? 0).
Qed.

Lemma good_flagDef : op e = ExprOp.FlagDef ->
  is_Some (evalFlagDef (flagDefOp (immediate e)) (flagDefWidth (immediate e)) args).
Proof using Hver Hts Hargs Hdef.
  intros Ho. destruct Hver as (_ & _ & ts' & Hts' & _ & Hr). rewrite Hts in Hts'. injection Hts' as <-.
  unfold opRuleOk in Hr. rewrite Ho in Hr. apply andb_true_iff in Hr as [Hr%Nat.eqb_eq _].
  unfold definedNode in Hdef. rewrite Ho in Hdef. apply evalFlagDef_Some; [|done].
  apply Forall2_length in Hargs. apply mapM_Some, Forall2_length in Hts. unfold operandCount in Hr. congruence.
Qed.

Lemma good_evalOp :
  (op e = ExprOp.DivS -> val_ok (type e) (argAt args 0)) -> op e <> ExprOp.Undef -> good (evalOp e ts args).
Proof using Type*.
  intros Ha Hu. unfold evalOp. cbv zeta. pose proof Hdef as Hd. unfold definedNode in Hd.
  destruct (op e) eqn:Ho; try done;
    try (destruct (negb _); done);
    try (rewrite <-Ho; apply good_divRem; rewrite ?Ho; tauto);
    try (apply good_guard; [by apply negb_true_iff|done]);
    try (apply good_width; [rewrite Ho; cbn; lia|intros w Hw]; try done);
    try (unfold evalFloat; repeat case_match; done).
  - destruct ts as [|t ?]; [done|]. injection Hw as <-. apply good_guard; [by apply negb_true_iff|done].
  - apply good_bind; [apply good_ofOption, good_flagDef; done|done].
  - destruct ts as [|t ?]; [done|]. injection Hw as <-. unfold evalFloat. apply negb_true_iff in Hd. by rewrite Hd.
Qed.
End Node.

(** ** The evaluator *)

Lemma length_mapRes {A B} (g : A -> Res B) l ys : mapRes g l = Ok ys -> length l = length ys.
Proof. intros H%mapRes_Ok. by eapply Forall2_length. Qed.

Lemma Forall2_same_length {A B} (l : list A) (k : list B) :
  length l = length k -> Forall2 (fun _ _ => True) l k.
Proof. intros H. apply Forall2_same_length_lookup. done. Qed.

Section Evaluator.
Context (f : Function) (env : Env) (Hpool : pool_ok f) (Hfs : floats_sized f) (Henv : env_ok f env).
Context (Hdef : definedNodes f).
Context (Hregs : forall reg i, rfAt (registers f) reg = Some i -> good (envReg env reg)).

Lemma verified_typed id e : exprAt f id = Some e -> exprTyped f e.
Proof using Hpool. intros He. by eapply exprVerifies_typed, pool_ok_verifies. Qed.

Lemma good_flagsOperand rec id :
  hasExpr f id = true -> (forall y, y = id \/ child f id y -> good (rec y)) ->
  good (evalFlagsOperandWith rec f id).
Proof using Hpool Hdef.
  intros [e He]%hasExpr_exprAt Hrec. unfold evalFlagsOperandWith. rewrite He. cbn [ofOption mbind Res_bind].
  destruct (decide _) as [Ho|Ho].
  - apply good_bind; [apply good_mapRes; intros y Hy; apply Hrec; right; by exists e|].
    intros args Ha. apply good_bind; [|done]. apply good_ofOption.
    pose proof (verified_typed id e He) as Ht. pose proof Ht as (_ & _ & ts & Hts & _).
    apply (good_flagDef f e ts); [done|done| |by eapply Hdef|done].
    apply Forall2_same_length. apply length_mapRes in Ha. apply mapM_Some, Forall2_length in Hts. congruence.
  - apply good_bind; [apply Hrec; by left|done].
Qed.

Lemma good_evalNode id e ts args :
  exprAt f id = Some e -> mapM (typeAt f) (operands e) = Some ts -> length args = length ts ->
  (isFlagConsumer (op e) = false -> args_ok ts args) -> tooWide (type e) = false ->
  (op e = ExprOp.Value -> good (envValue env (handleOf e))) ->
  good (evalNode env e ts args).
Proof using Hpool Hdef Hregs.
  intros He Hts Hlen Hargs Hnar Hval. pose proof (verified_typed id e He) as Ht.
  assert (op e <> ExprOp.Undef -> good (evalOp e ts args)) as Hop.
  { intros Hu. apply (good_evalOp f); [done|done|by apply Forall2_same_length|by eapply Hdef|done| |done].
    intros Ho. destruct Ht as (_ & Hvalid & ts' & Hts' & Hr & _). simplify_eq.
    apply (same_args_at e ts); rewrite ?Ho; try done. apply Hargs. by rewrite Ho. }
  destruct Ht as (_ & _ & ts' & _ & _ & Hrule). unfold evalNode.
  unfold opRuleOk in Hrule. destruct (op e); try (by apply Hop); try done.
  - by apply Hval.
  - destruct (rfAt _ _) as [i|] eqn:Hi; [|done]. by apply (Hregs _ i).
Qed.

Lemma good_evalRec fuel id depth :
  hasExpr f id = true -> (forall v, readsValue f id v -> good (envValue env v)) ->
  513 <= Z.of_nat fuel + depth -> good (evalRec fuel f env id depth).
Proof using Hpool Hfs Henv Hdef Hregs.
  revert id depth. induction fuel as [|fuel IH]; intros id depth [e He]%hasExpr_exprAt Hval Hfuel; cbn [evalRec];
    (destruct (Z.ltb_spec 512 depth); [done|]); [lia|].
  rewrite He. cbn [ofOption mbind Res_bind]. destruct (tooWide (type e)) eqn:Hw; [done|].
  assert (forall x, x ∈ operands e -> child f id x) as Hch by (intros x Hx; by exists e).
  assert (forall x y d, child f x y -> (forall v, readsValue f x v -> good (envValue env v)) ->
    depth + 1 <= d -> good (evalRec fuel f env y d)) as Hrec.
  { intros x y d Hc Hx Hd. apply IH; [by eapply verified_child| |lia].
    intros v Hv. apply Hx. by eapply readsValue_child. }
  apply good_bind.
  - apply good_mapRes. intros x Hx. specialize (Hch x Hx). destruct (isFlagConsumer (op e)).
    + apply good_flagsOperand; [by eapply verified_child|]. intros y [->|Hy].
      * apply (Hrec id); [done|done|lia].
      * apply (Hrec x); [done| |lia]. intros v Hv. apply Hval. by eapply readsValue_child.
    + apply (Hrec id); [done|done|lia].
  - intros args Ha. destruct (operands_typed f Hpool id e He) as [ts Hts]. rewrite Hts.
    cbn [ofOption mbind Res_bind]. apply (good_evalNode id e ts); try done.
    + apply length_mapRes in Ha. apply mapM_Some, Forall2_length in Hts. congruence.
    + intros Hc. rewrite Hc in Ha. apply mapRes_Ok in Ha.
      eapply (args_of_Eval anyNode); [done|by apply counted_any|done|exact Hts|].
      eapply Forall2_impl; [exact Ha|]. intros x a Hx. exact (evalRec_sound f env Hpool fuel x (depth + 1) a Hx).
    + intros Ho. apply Hval. exists id, e. split; [apply rtc_refl|done].
Qed.

Lemma good_eval id :
  hasExpr f id = true -> (forall v, readsValue f id v -> good (envValue env v)) -> good (eval f env id).
Proof using Type*. intros Hid Hval. apply good_evalRec; [done|done|lia]. Qed.
End Evaluator.
