(* ===== verification/Ceval.v ===== *)
(** * The constant evaluator (il/ceval.cpp)

    [evalConst] is [tryEvalConst]; the flag formulas it shares with the
    interpreter are in [Eval]. On every strict evaluation the constant evaluator
    and the interpreter agree, node by node and for whole expressions; they do
    not agree on remainders by zero. *)
From S2P Require Import Prelude Bits U128 Types Exprs Registers Func Eval VerifyExpr ValueTypes EvalProps.

(** ** The evaluator *)

Definition kMaxEvalDepth : Z := 256.

(** [return false]: the expression is not folded. *)
Definition declined {A} : Res A := err DiagCode.NotImplemented.

Definition constDivRem (o : ExprOp) (w : Z) (a b : U128) : Res ConcreteValue :=
  if lo b =? 0 then Ok zero128
  else match o with
  | ExprOp.DivU => Ok (mask (MkU128 (lo a / lo b) 0) w)
  | ExprOp.RemU => Ok (mask (MkU128 (lo a mod lo b) 0) w)
  | _ =>
      let isDiv := bool_decide (o = ExprOp.DivS) in
      let x := toI64 (lo (sext a w 128)) in
      let y := toI64 (lo (sext b w 128)) in
      let r :=
        if (x =? - 2 ^ 63) && (y =? -1) then (if isDiv then x else 0)
        else if isDiv then Z.quot x y else Z.rem x y in
      Ok (mask (MkU128 (u64 r) 0) w)
  end.

Definition constCompare (o : ExprOp) (ow : Z) (a b : U128) : Res ConcreteValue :=
  if (ow =? 0) || (128 <? ow) then declined
  else
    let lhs := mask a ow in
    let rhs := mask b ow in
    match o with
    | ExprOp.CmpEq => Ok (boolValue (cmpU lhs rhs =? 0))
    | ExprOp.CmpNe => Ok (boolValue (negb (cmpU lhs rhs =? 0)))
    | ExprOp.CmpLtU => Ok (boolValue (cmpU lhs rhs <? 0))
    | ExprOp.CmpLeU => Ok (boolValue (cmpU lhs rhs <=? 0))
    | ExprOp.CmpLtS => Ok (boolValue (cmpS lhs rhs ow <? 0))
    | _ => Ok (boolValue (cmpS lhs rhs ow <=? 0))
    end.

(** The switch of [evalRec] for a node that is not a flag bundle. *)
Definition constOp (e : Expr) (ts : list Ty) (args : list U128) : Res ConcreteValue :=
  let w := bits (type e) in
  let a := argAt args 0 in
  let b := argAt args 1 in
  let widthOf (i : nat) := ofOption (bits <$> ts !! i) in
  match op e with
  | ExprOp.Add => Ok (add a b w).1
  | ExprOp.Sub => Ok (sub a b w)
  | ExprOp.Mul => Ok (mulLow a b w)
  | ExprOp.MulHiU =>
      if 64 <? w then declined else Ok (mask (MkU128 (mul64x64 (lo a) (lo b)).1 0) w)
  | ExprOp.MulHiS =>
      if 64 <? w then declined
      else
        let h := (mul64x64 (lo a) (lo b)).1 in
        let h := if signBit a w then sub64 h (lo b) else h in
        let h := if signBit b w then sub64 h (lo a) else h in
        Ok (mask (MkU128 h 0) w)
  | ExprOp.DivU | ExprOp.RemU | ExprOp.DivS | ExprOp.RemS => constDivRem (op e) w a b
  | ExprOp.Neg => Ok (sub zero128 a w)
  | ExprOp.And => Ok (mask (and128 a b) w)
  | ExprOp.Or => Ok (mask (or128 a b) w)
  | ExprOp.Xor => Ok (mask (xor128 a b) w)
  | ExprOp.Not => Ok (xor128 a (maskOf w))
  | ExprOp.Shl => Ok (shl a w (u32 (lo b)))
  | ExprOp.ShrU => Ok (shrU a w (u32 (lo b)))
  | ExprOp.ShrS => Ok (shrS a w (u32 (lo b)))
  | ExprOp.RotR => Ok (rotR a w (u32 (lo b)))
  | ExprOp.RotL => Ok (rotL a w (u32 (lo b)))
  | ExprOp.CmpEq | ExprOp.CmpNe | ExprOp.CmpLtU | ExprOp.CmpLeU | ExprOp.CmpLtS | ExprOp.CmpLeS =>
      ow ← widthOf 0%nat; constCompare (op e) ow a b
  | ExprOp.ZExt => fw ← widthOf 0%nat; if fw =? 0 then declined else Ok (zext a fw w)
  | ExprOp.SExt => fw ← widthOf 0%nat; guardWidth fw (Ok (sext a fw w))
  | ExprOp.Trunc => Ok (mask a w)
  | ExprOp.Bitcast => Ok a
  | ExprOp.Extract => sw ← widthOf 0%nat; Ok (extract a sw (u32 (immediate e)) w)
  | ExprOp.Concat =>
      lowWidth ← widthOf 1%nat;
      highWidth ← widthOf 0%nat;
      if negb (w =? u32 (lowWidth + highWidth)) then declined
      else Ok (insert (mask b lowWidth) (mask a highWidth) lowWidth highWidth w)
  | ExprOp.Clz => Ok (MkU128 (clzOf a w) 0)
  | ExprOp.Ctz => Ok (MkU128 (ctzOf a w) 0)
  | ExprOp.PopCount =>
      let v := mask a w in Ok (MkU128 (popcount (lo v) + popcount (hi v)) 0)
  | ExprOp.ByteSwap => Ok (bswapOf a w)
  | ExprOp.BitReverse => Ok (brevOf a w)
  | ExprOp.Select => Ok (if negb (Z.land (lo a) 1 =? 0) then b else argAt args 2)
  | ExprOp.FlagCond =>
      Ok (boolValue (evalCondition (enumAt conditionCodes (immediate e)) (Z.land (lo a) 15)))
  | ExprOp.FlagBit =>
      Ok (boolValue (negb (Z.land (shr64 (lo a) (flagPosition (enumAt flagBits (immediate e)))) 1 =? 0)))
  | _ => declined
  end.

(** What [evalRec] does once the operands are known. *)
Definition constNode (e : Expr) (ts : list Ty) (args : list U128) : Res ConcreteValue :=
  let w := bits (type e) in
  if isFlags (type e) then
    (if decide (op e = ExprOp.FlagDef) then
       r ← ofOption (evalFlagDef (flagDefOp (immediate e)) (flagDefWidth (immediate e)) args);
       Ok (MkU128 r 0)
     else declined)
  else if (w =? 0) || (128 <? w) then declined
  else constOp e ts args.

(** [evalRec]: [fuel] is the recursion left; the depth bound stops the walk
    first whenever [fuel + depth > 256]. *)
Fixpoint evalConstRec (fuel : nat) (f : Function) (id : N) (depth : Z) : Res ConcreteValue :=
  if (kMaxEvalDepth <? depth) || negb (hasExpr f id) then declined
  else match fuel with
  | O => Undefined
  | S fuel =>
      e ← ofOption (exprAt f id);
      if decide (op e = ExprOp.Const) then Ok (mask (MkU128 (immediate e) 0) (bits (type e)))
      else if (operandCount e =? 0)%nat then declined
      else
        args ← mapRes (fun x => evalConstRec fuel f x (depth + 1)) (operands e);
        ts ← ofOption (mapM (typeAt f) (operands e));
        constNode e ts args
  end.

Definition tryEvalConst (f : Function) (id : N) : Res ConcreteValue := evalConstRec 257 f id 0.

(** ** Agreement on one node *)

Lemma mask_boolValue b w : 1 <= w -> mask (boolValue b) w = boolValue b.
Proof.
  intros Hw. apply mask_canon; [lia|]. apply (canon_weaken 1); [|done].
  apply canon_count; [lia|destruct b; cbn; lia].
Qed.

(** Sign extension of a narrow value to one word or to two has the same low word. *)
Lemma sext_lo a w : 1 <= w <= 64 -> wf128 a -> lo (sext a w 128) = lo (sext a w 64).
Proof.
  intros Hw Ha. unfold sext. pose proof (wf_mask a w ltac:(lia) Ha) as [Hl _].
  destruct (signBit (mask a w) w); [|done]. cbn [negb]. unfold mask at 1 4. cbn [lo].
  change (lo (maskOf 128)) with (lo (maskOf 64)). f_equal.
Qed.

Lemma signed_sext_lo a w :
  1 <= w <= 64 -> canon w a -> toI64 (lo (sext a w 64)) = signed w (lo a).
Proof.
  intros Hw Ha. pose proof (canon_sext a w 64 ltac:(lia) ltac:(lia) (proj1 Ha)) as Hs.
  destruct (canon_narrow _ 64 ltac:(lia) Hs) as [_ Hu]. destruct (canon_narrow a w ltac:(lia) Ha) as [_ Hua].
  rewrite <-Hu, uval_sext by (done || lia). rewrite toI64_signed, Hua.
  apply signed_unique; [lia|]. destruct Ha as [_ Ha]. rewrite Hua in Ha.
  pose proof (signed_range w (lo a) ltac:(lia) Ha). pose proof (Z.pow_le_mono_r 2 (w - 1) 63). lia.
Qed.

Lemma signed_eq_0 w a : 1 <= w -> fits w a -> signed w a = 0 <-> a = 0.
Proof.
  intros Hw Ha. pose proof (pow2_half w Hw). unfold signed, fits in *.
  destruct (Z.ltb_spec a (2 ^ (w - 1))); lia.
Qed.

Lemma divRem_agree o w a b v c :
  (o = ExprOp.RemU \/ o = ExprOp.RemS -> lo b <> 0) ->
  o ∈ [ExprOp.DivU; ExprOp.DivS; ExprOp.RemU; ExprOp.RemS] ->
  1 <= w -> canon w a -> canon w b ->
  evalDivRem o w a b = Ok v -> constDivRem o w a b = Ok c -> c = v.
Proof.
  intros Hrem Ho Hw Ha Hb. unfold evalDivRem, constDivRem, guardWidth.
  destruct (Z.ltb_spec 64 w) as [|Hw64]; [done|].
  rewrite !sext_lo, !signed_sext_lo by (done || lia || apply Ha || apply Hb).
  destruct (canon_narrow b w ltac:(lia) Hb) as [_ Hub].
  assert (fits w (lo b)) as Hfb by (rewrite <-Hub; apply Hb).
  pose proof (signed_eq_0 w (lo b) Hw Hfb) as Hz. assert ((w =? 0) = false) as Hw0 by lia.
  rewrite !elem_of_cons, elem_of_nil in Ho. destruct Ho as [->|[->|[->|[->|[]]]]]; rewrite ?Hw0.
  - destruct (lo b =? 0); by intros <-%Ok_inj <-%Ok_inj.
  - destruct (Z.eqb_spec (signed w (lo b)) 0), (Z.eqb_spec (lo b) 0); try lia;
      [by intros <-%Ok_inj <-%Ok_inj|]. cbv zeta.
    destruct (Z.eqb_spec (signed w (lo b)) (-1)) as [->|]; cbn [andb].
    + destruct (Z.eqb_spec (signed w (lo a)) (- 2 ^ 63)); [done|]. cbn [andb].
      intros <-%Ok_inj <-%Ok_inj. change (-1) with (Z.opp 1).
      by rewrite bool_decide_true, Z.quot_opp_r, Z.quot_1_r.
    + intros <-%Ok_inj. rewrite andb_false_r, bool_decide_true by done. by intros <-%Ok_inj.
  - destruct (Z.eqb_spec (lo b) 0); [by specialize (Hrem ltac:(auto))|]. by intros <-%Ok_inj <-%Ok_inj.
  - destruct (Z.eqb_spec (signed w (lo b)) 0), (Z.eqb_spec (lo b) 0); try lia; [by specialize (Hrem ltac:(auto))|].
    cbv zeta. intros <-%Ok_inj. rewrite bool_decide_false by done.
    destruct (Z.eqb_spec (signed w (lo b)) (-1)) as [->|].
    + replace (Z.rem (signed w (lo a)) (-1)) with 0; [destruct (_ && _); by intros <-%Ok_inj|].
      change (-1) with (Z.opp 1). by rewrite Z.rem_opp_r, Z.rem_1_r.
    + rewrite andb_false_r. by intros <-%Ok_inj.
Qed.

Lemma cmpU_eq a b : wf128 a -> wf128 b -> (cmpU a b =? 0) = (lo a =? lo b) && (hi a =? hi b).
Proof.
  intros Ha Hb. unfold cmpU.
  destruct (Z.eqb_spec (hi a) (hi b)), (Z.eqb_spec (lo a) (lo b)); cbn; try done;
    by repeat case_match.
Qed.

(** Shifting into place and inserting are the same concatenation. *)
Lemma concat_agree a b lw hw :
  0 <= lw -> 0 <= hw -> lw + hw <= 128 -> wf128 a -> wf128 b ->
  insert (mask b lw) (mask a hw) lw hw (lw + hw)
  = mask (or128 (shl a (lw + hw) lw) (mask b lw)) (lw + hw).
Proof.
  intros Hl Hh Hs Ha Hb. pose proof (canon_mask b lw Hl Hb) as Hmb. pose proof (canon_mask a hw Hh Ha) as Hma.
  assert (canon (lw + hw) (mask b lw)) as Hmb' by (apply (canon_weaken lw); done || lia).
  pose proof (canon_insert (mask b lw) (mask a hw) lw hw (lw + hw) ltac:(lia) Hl (proj1 Hmb) (proj1 Hma)) as Hi.
  assert (wf128 (or128 (shl a (lw + hw) lw) (mask b lw))) as Ho
    by (apply wf_or128; [apply wf_shl; done || lia|apply Hmb]).
  apply uval_inj; [apply Hi|apply wf_mask; done || lia|].
  apply Z.bits_inj'. intros i Hii. rewrite testbit_insert by (done || lia).
  rewrite (uval_mask (or128 _ _)), uval_or128, uval_shl
    by (done || lia || apply Hmb || (apply wf_shl; done || lia)).
  rewrite !uval_mask by (done || lia).
  bit_cases; try done; bit_bounds; try done. by rewrite orb_false_r.
Qed.

Section NodeAgreement.
Context (f : Function) (env : Env) (id : N) (e : Expr) (ts : list Ty) (args : list U128).
Context (Hver : exprVerifies f id e = true) (Hts : mapM (typeAt f) (operands e) = Some ts).
Context (Hargs : args_ok ts args) (Hstrict : strictNode e args = true).
Context (Hw : 1 <= bits (type e) <= 128) (Hnf : isFlags (type e) = false).

Let Hwf (i : nat) : wf128 (argAt args i) := args_ok_wf _ _ i Hargs.

Lemma same_canon i :
  infoResult (info (op e)) = ResultRule.SameAsOperands -> canon (bits (type e)) (argAt args i).
Proof using Type*.
  intros Hi. pose proof (exprVerifies_typed f id e Hver) as (_ & Hv & ts' & Hts' & Hr & _).
  rewrite Hts in Hts'. injection Hts' as <-.
  apply val_ok_int; [done|]. by eapply same_args_at.
Qed.

(** The operands of a comparison have one type, of the first operand's width. *)
Lemma compare_canon i ow :
  infoCategory (info (op e)) = ExprCategory.IntCompare -> (i < 2)%nat ->
  ofOption (bits <$> ts !! 0%nat) = Ok ow -> ow <> 0 -> canon ow (argAt args i).
Proof using Type*.
  intros Hc Hi Ho Hne.
  pose proof (exprVerifies_typed f id e Hver) as (Har & Hv & ts' & Hts' & Hr & _).
  rewrite Hts in Hts'. injection Hts' as <-.
  assert (operandCount e = 2%nat) as H2 by (destruct (op e); try done; cbn in Har; lia).
  assert (length ts = 2%nat) as Hl.
  { apply mapM_Some, Forall2_length in Hts. unfold operandCount in H2. lia. }
  destruct ts as [|t0 [|t1 [|]]]; try done. cbn in Ho. injection Ho as <-.
  unfold resultRuleOk in Hr. rewrite H2 in Hr.
  assert (t0 = t1) as <-.
  { destruct (op e); try done; cbn in Hr; apply andb_true_iff in Hr as [_ Hr];
      rewrite typeEq_spec in Hr; by apply bool_decide_eq_true in Hr. }
  assert ([t0; t0] !! i = Some t0) as Ht by (destruct i as [|[|]]; [done|done|lia]).
  destruct (args_ok_at _ _ _ _ Hargs Ht) as (Hok & Hvt & _).
  apply val_ok_int; [|done]. destruct (isFlags t0) eqn:Hf; [|done].
  by rewrite isFlags_bits in Hne.
Qed.

Lemma compare_agree v c :
  infoCategory (info (op e)) = ExprCategory.IntCompare ->
  evalOp e ts args = Ok v -> constOp e ts args = Ok c -> c = v.
Proof using Type*.
  intros Hc Hv H. pose proof (compare_canon 0) as H0. pose proof (compare_canon 1) as H1.
  unfold evalOp in Hv. unfold constOp in H. cbv zeta in Hv, H.
  destruct (ofOption (bits <$> ts !! 0%nat)) as [ow| |] eqn:Ho; [|destruct (op e); done..].
  assert (constCompare (op e) ow (argAt args 0) (argAt args 1) = Ok c) as Hcc by (destruct (op e); done).
  unfold constCompare in Hcc. clear H. destruct (Z.eqb_spec ow 0) as [|Hne]; [done|].
  destruct (Z.ltb_spec 128 ow) as [|Hle]; [done|]. cbn [orb] in Hcc. cbv zeta in Hcc.
  specialize (H0 ow Hc ltac:(lia) eq_refl Hne). specialize (H1 ow Hc ltac:(lia) eq_refl Hne).
  assert (0 <= ow) by (destruct H0 as [_ H0]; destruct (Z.ltb_spec ow 0);
    [unfold fits in H0; rewrite Z.pow_neg_r in H0; lia|done]).
  rewrite !mask_canon in Hcc by (done || lia).
  pose proof (cmpU_eq _ _ (Hwf 0) (Hwf 1)) as Heq. rewrite Heq in Hcc.
  destruct (op e); try done; apply Ok_inj in Hcc as <-; apply Ok_inj in Hv as <-; try done.
  by rewrite negb_andb.
Qed.

Lemma mulHi_agree v c :
  op e = ExprOp.MulHiU \/ op e = ExprOp.MulHiS ->
  evalOp e ts args = Ok v -> constOp e ts args = Ok c -> c = v.
Proof using Type*.
  intros Ho Hv H. pose proof (Hwf 0) as [Ha _]. pose proof (Hwf 1) as [Hb _].
  pose proof (mul64x64_fits _ _ Ha Hb) as Hm.
  assert (forall z, fits 64 z -> mask (MkU128 z 0) 64 = MkU128 z 0) as Hmask.
  { intros z Hz. apply mask_canon; [lia|]. by apply canon_word64. }
  assert (forall i, signBit (argAt args i) 64 = negb (shr64 (lo (argAt args i)) 63 =? 0)) as Hsign.
  { intros i. unfold signBit. change (64 <? 64) with false. cbv iota.
    f_equal. f_equal. change (64 - 1) with 63. change 1 with (Z.ones 1). unfold shr64.
    rewrite Z.land_ones by lia. apply Z.mod_small. destruct (Hwf i) as [Hi _]. unfold fits in Hi.
    rewrite Z.shiftr_div_pow2 by lia. split; [apply Z.div_pos; lia|].
    apply Z.div_lt_upper_bound; lia. }
  unfold evalOp in Hv. unfold constOp in H. cbv zeta in Hv, H.
  destruct Ho as [Ho|Ho]; rewrite Ho in Hv, H;
    (destruct (Z.eqb_spec (bits (type e)) 64) as [H64|]; [|done]); rewrite H64 in H;
    change (64 <? 64) with false in H; cbv iota in H; cbn [negb] in Hv.
  - rewrite Hmask in H by done. apply Ok_inj in H as <-. by apply Ok_inj in Hv as <-.
  - rewrite !Hsign in H. rewrite Hmask in H; [apply Ok_inj in H as <-; by apply Ok_inj in Hv as <-|].
    repeat (destruct (negb _); [by apply fits_mod|]). done.
Qed.

(** On a strict node the two evaluators return the same value. *)
Lemma node_agree v c :
  op e <> ExprOp.Const -> operandCount e <> 0%nat ->
  evalNode env e ts args = Ok v -> constOp e ts args = Ok c -> c = v.
Proof using Type*.
  intros Hnc Hno Hv H. pose proof compare_agree as Hcmp. pose proof mulHi_agree as Hmul.
  pose proof same_canon as Hsame. pose proof Hstrict as Hst. unfold strictNode in Hst.
  assert (evalOp e ts args = Ok v) as Hv'.
  { unfold evalNode in Hv. destruct (op e) eqn:Ho; try done; exfalso; apply Hno;
      apply exprVerifies_typed in Hver as ([_ Hmax] & _); rewrite Ho in Hmax; cbn in Hmax; lia. }
  clear Hv. rename Hv' into Hv. pose proof Hv as Hv0. pose proof H as H0.
  unfold evalOp in Hv. unfold constOp in H. cbv zeta in Hv, H.
  assert ((bits (type e) =? 0) = false) as Hw0 by lia. unfold guardWidth in *. rewrite ?Hw0 in Hv.
  assert (forall o, o ∈ [ExprOp.DivU; ExprOp.DivS; ExprOp.RemU; ExprOp.RemS] ->
    infoResult (info (op e)) = ResultRule.SameAsOperands ->
    (o = ExprOp.RemU \/ o = ExprOp.RemS -> lo (argAt args 1) <> 0) ->
    evalDivRem o (bits (type e)) (argAt args 0) (argAt args 1) = Ok v ->
    constDivRem o (bits (type e)) (argAt args 0) (argAt args 1) = Ok c -> c = v) as Hdiv.
  { intros o Hin Hs Hr Hv1 Hc1. eapply (divRem_agree o (bits (type e))); try done; [lia|..];
      by apply Hsame. }
  assert (forall i : nat, forall w, ofOption (bits <$> ts !! i) = Ok w -> 0 <= w <= 128) as Hwidth.
  { intros i w Hi. destruct (ts !! i) as [t|] eqn:Ht; [|done]. injection Hi as <-.
    by eapply args_ok_bits. }
  destruct (op e) eqn:Ho; try done; try (apply Ok_inj in H as <-; by apply Ok_inj in Hv);
    try (apply Hcmp; done || (by rewrite Ho)); try (apply Hmul; auto; by rewrite Ho);
    try (match type of Ho with _ = ?o =>
           apply (Hdiv o ltac:(repeat first [by left|right]) eq_refl); [|done..] end;
         intros [|]; try done; by apply negb_true_iff, Z.eqb_neq in Hst).
  - destruct (ofOption _) as [fw| |] eqn:Hfw; try done. cbn in Hv, H.
    destruct (fw =? 0); [done|]. apply Ok_inj in H as <-. by apply Ok_inj in Hv.
  - destruct (ofOption _) as [fw| |] eqn:Hfw; try done. cbn in Hv, H.
    destruct (fw =? 0); [done|]. apply Ok_inj in H as <-. by apply Ok_inj in Hv.
  - apply bool_decide_eq_true in Hst. rewrite Hst in Hv.
    apply Ok_inj in H as <-. by apply Ok_inj in Hv.
  - destruct (ofOption _) as [fw| |] eqn:Hfw; try done. cbn in Hv, H.
    apply Ok_inj in H as <-. by apply Ok_inj in Hv.
  - destruct (ofOption (bits <$> ts !! 1%nat)) as [lw| |] eqn:Hlw; try done.
    destruct (ofOption (bits <$> ts !! 0%nat)) as [hw| |] eqn:Hhw; try done.
    pose proof (Hwidth _ _ Hlw). pose proof (Hwidth _ _ Hhw).
    cbn [mbind Res_bind] in Hv, H.
    destruct (Z.eqb_spec (bits (type e)) (u32 (lw + hw))) as [Heq|]; [|done]. cbn [negb] in H.
    unfold u32 in Heq. rewrite Z.mod_small in Heq by lia. rewrite Heq in Hv, H.
    apply Ok_inj in H as <-. apply Ok_inj in Hv as <-.
    apply concat_agree; try apply Hwf; lia.
Qed.
End NodeAgreement.

(** ** Agreement on whole expressions *)

(** What the constant evaluator returns for an expression is what the
    interpreter's semantics gives it. *)
Lemma evalConstRec_agrees fuel f env id depth v c :
  pool_ok f -> env_ok f env -> Strict f env id v -> evalConstRec fuel f id depth = Ok c -> c = v.
Proof.
  intros Hpool Henv. revert id depth v c.
  induction fuel as [|fuel IH]; intros id depth v c Hv; cbn [evalConstRec];
    (destruct (_ || _); [done|]); [done|].
  inversion Hv as [id' e ts args v' He Hw Hts Hargs Hd Hn]; subst id' v'.
  rewrite He. cbn [ofOption mbind Res_bind].
  destruct (decide (op e = ExprOp.Const)) as [Ho|Ho].
  { unfold evalNode in Hn. rewrite Ho in Hn. intros <-%Ok_inj. by apply Ok_inj in Hn. }
  destruct (Nat.eqb_spec (operandCount e) 0) as [|Hno]; [done|].
  intros (cs & Hcs%mapRes_Ok & H)%Res_bind_Ok. rewrite Hts in H. cbn [ofOption mbind Res_bind] in H.
  assert (cs = args) as ->.
  { clear -IH Hcs Hargs. revert cs Hcs.
    induction Hargs as [|x a xs args Hx _ IHl]; intros cs Hcs; inversion Hcs; subst; [done|].
    f_equal; [by eapply IH|by apply IHl]. }
  assert (args_ok ts args) as Hok.
  { eapply args_of_Eval; try done. apply counted_strict. }
  pose proof (pool_ok_verifies f Hpool id e He) as Hver.
  unfold constNode in H. destruct (isFlags (type e)) eqn:Hf.
  - destruct (decide _) as [Hfd|]; [|done]. unfold evalNode, evalOp in Hn. rewrite Hfd in Hn. congruence.
  - destruct (_ || _) eqn:Hwd in H; [done|].
    assert (1 <= bits (type e) <= 128).
    { apply exprVerifies_typed in Hver as (_ & Hval & _). pose proof (tooWide_bits _ Hval Hw). lia. }
    by eapply (node_agree f env id e ts args).
Qed.

(** ** Properties *)

(** C25 The constant evaluator and the interpreter agree: when the interpreter's
    semantics gives an expression a value without a remainder by zero or a
    narrowing bitcast, and [tryEvalConst] succeeds on it, the two values are
    equal, under every environment. *)
Theorem ceval_agrees_with_interpreter f env id v c :
  pool_ok f -> env_ok f env -> Strict f env id v -> tryEvalConst f id = Ok c -> c = v.
Proof. intros. by eapply (evalConstRec_agrees 257). Qed.

(** On a remainder by zero they disagree: [5 rem.u 0] is 5 to the interpreter
    and 0 to the constant evaluator, although [ceval.h] states that both return
    zero and that a disagreement is a bug. *)
Theorem rem_by_zero_disagreement :
  exists f id, pool_ok f /\ (forall env, eval f env id = Ok (MkU128 5 0)) /\
    tryEvalConst f id = Ok (MkU128 0 0).
Proof.
  set (e5 := MkExpr ExprOp.Const (integer 64) [] 5). set (e0 := MkExpr ExprOp.Const (integer 64) [] 0).
  set (er := MkExpr ExprOp.RemU (integer 64) [0%N; 1%N] 0).
  exists (withPool (newFunction emptyRegisterFile 0)
    (MkPool [e5; e0; er] (<[er := 2%N]> (<[e0 := 1%N]> (<[e5 := 0%N]> ∅))))), 2%N.
  split_and!; [apply pool_ok_check; vm_compute; reflexivity|intros env; vm_compute; reflexivity
              |vm_compute; reflexivity].
Qed.
