(* ===== verification/Flags.v ===== *)
(** * What the flags of an operation say

    The AArch64-style N, Z, C and V of an addition, a subtraction or a logical
    result, computed by [flagAdd], [flagSub] and [flagLogical] (il/ceval.cpp) at
    every width from 1 to 64, and the arithmetic meaning of each condition code
    on them. *)
From S2P Require Import Prelude Bits U128 Exprs Eval.

(** ** Conditions on packed flags *)

(** [evalCondition] on unpacked flags. *)
Definition conditionOn (c : ConditionCode) (n z cf v : bool) : bool :=
  match c with
  | ConditionCode.Equal => z
  | ConditionCode.NotEqual => negb z
  | ConditionCode.CarrySet => cf
  | ConditionCode.CarryClear => negb cf
  | ConditionCode.Negative => n
  | ConditionCode.NonNegative => negb n
  | ConditionCode.Overflow => v
  | ConditionCode.NoOverflow => negb v
  | ConditionCode.UnsignedGreater => cf && negb z
  | ConditionCode.UnsignedLessEqual => negb cf || z
  | ConditionCode.SignedGreaterEqual => Bool.eqb n v
  | ConditionCode.SignedLess => negb (Bool.eqb n v)
  | ConditionCode.SignedGreater => negb z && Bool.eqb n v
  | ConditionCode.SignedLessEqual => z || negb (Bool.eqb n v)
  | ConditionCode.Always => true
  | ConditionCode.Never => false
  end.

Lemma evalCondition_nzcv c n z cf v :
  evalCondition (Some c) (nzcvOf n z cf v) = conditionOn c n z cf v.
Proof. by destruct c, n, z, cf, v. Qed.

Lemma evalCondition_low c nzcv : evalCondition c (Z.land nzcv 15) = evalCondition c nzcv.
Proof. unfold evalCondition. by rewrite <-!Z.land_assoc. Qed.

(** ** The single flags *)

Lemma land_1 x : Z.land x 1 = x mod 2.
Proof. change 1 with (Z.ones 1). by rewrite Z.land_ones by lia. Qed.

Lemma signAt_spec w v : 1 <= w <= 64 -> fits w v -> signAt w v = (2 ^ (w - 1) <=? v).
Proof.
  intros Hw Hv. unfold signAt, shr64. rewrite land_1, <-Z.bit0_mod.
  rewrite Z.shiftr_spec by lia. rewrite Z.add_0_l, testbit_top by (done || lia).
  destruct (Z.ltb_spec v (2 ^ (w - 1))), (Z.leb_spec (2 ^ (w - 1)) v); cbn; lia || done.
Qed.

Lemma signed_sign w v : 1 <= w <= 64 -> fits w v -> signAt w v = (signed w v <? 0).
Proof.
  intros Hw Hv. rewrite signAt_spec by done. unfold signed, fits in *. pose proof (pow2_half w).
  destruct (Z.ltb_spec v (2 ^ (w - 1))); lia.
Qed.

Lemma carryAdd_spec w a b c :
  1 <= w <= 64 -> fits w a -> fits w b -> 0 <= c <= 1 ->
  carryAdd w a b c = ((a + b + c) mod 2 ^ w, 2 ^ w <=? a + b + c).
Proof.
  unfold fits. intros Hw Ha Hb Hc. unfold carryAdd. destruct (Z.eqb_spec w 64) as [->|Hne].
  - unfold add64, u64. f_equal; [dlia|].
    destruct (Z.leb_spec (2 ^ 64) (a + b + c)) as [Hge|Hlt]; [apply orb_true_iff|apply orb_false_iff];
      dlia.
  - pose proof (Z.pow_le_mono_r 2 w 63 ltac:(lia) ltac:(lia)) as Hp. unfold add64.
    rewrite (u64_small (a + b)) by (unfold fits; lia). rewrite u64_small by (unfold fits; lia).
    f_equal.
    + rewrite lowMask_ones by lia. rewrite Z.min_l by lia. by apply Z.land_ones; lia.
    + unfold shr64. rewrite land_1, Z.shiftr_div_pow2 by lia. set (s := a + b + c) in *.
      pose proof (pow2_pos w ltac:(lia)).
      destruct (Z.leb_spec (2 ^ w) s).
      * assert (s / 2 ^ w = 1) as ->; [|done]. symmetry. apply (Z.div_unique_pos _ _ _ (s - 2 ^ w)); lia.
      * by rewrite Z.div_small by lia.
Qed.

(** The complement the subtraction adds. *)
Lemma subtrahend w b :
  1 <= w <= 64 -> fits w b ->
  (if w =? 64 then not64 b else Z.land (not64 b) (lowMask w)) = 2 ^ w - 1 - b.
Proof.
  unfold fits. intros Hw Hb. assert (not64 b = 2 ^ 64 - 1 - b) as Hn.
  { pose proof (Z.pow_le_mono_r 2 w 64 ltac:(lia) ltac:(lia)).
    unfold not64, u64, Z.lnot. dlia. }
  destruct (Z.eqb_spec w 64) as [->|Hne]; [done|].
  rewrite lowMask_ones by lia. rewrite Z.min_l, Z.land_ones, Hn by lia.
  replace (2 ^ 64 - 1 - b) with (2 ^ w - 1 - b + (2 ^ (64 - w) - 1) * 2 ^ w).
  - rewrite Z.mod_add by lia. apply Z.mod_small. lia.
  - replace (2 ^ 64) with (2 ^ (64 - w) * 2 ^ w); [lia|]. rewrite <-Z.pow_add_r by lia. f_equal. lia.
Qed.

(** ** Subtraction *)

(** The remainder of a difference or a sum, by whether it wraps. *)
Lemma mod_once n d : 0 < n -> - n <= d < n -> d mod n = if d <? 0 then d + n else d.
Proof.
  intros Hn Hd. destruct (Z.ltb_spec d 0).
  - symmetry. apply (Z.mod_unique_pos _ _ (-1)); lia.
  - apply Z.mod_small. lia.
Qed.

Lemma flagSub_spec w a b :
  1 <= w <= 64 -> fits w a -> fits w b ->
  flagSub w a b 1 =
    nzcvOf (signed w ((a - b) mod 2 ^ w) <? 0) (a =? b) (b <=? a)
      (negb ((- 2 ^ (w - 1) <=? signed w a - signed w b) && (signed w a - signed w b <? 2 ^ (w - 1)))).
Proof.
  intros Hw Ha Hb. unfold flagSub. cbv zeta. rewrite subtrahend by done.
  pose proof (pow2_half w ltac:(lia)) as Hp. pose proof (pow2_pos (w - 1) ltac:(lia)).
  assert (fits w (2 ^ w - 1 - b)) by (unfold fits in *; lia).
  rewrite carryAdd_spec by (done || lia).
  replace (a + (2 ^ w - 1 - b) + 1) with (a - b + 1 * 2 ^ w) by lia. rewrite Z.mod_add by lia.
  pose proof (fits_mod w (a - b) ltac:(lia)) as Hr.
  rewrite (signed_sign w ((a - b) mod 2 ^ w)) by done. rewrite !signed_sign by done.
  unfold fits in Ha, Hb.
  rewrite (mod_once (2 ^ w) (a - b)) in * by lia. f_equal; unfold signed;
    destruct (Z.ltb_spec (a - b) 0), (Z.ltb_spec a (2 ^ (w - 1))), (Z.ltb_spec b (2 ^ (w - 1)));
    try lia;
    [destruct (Z.ltb_spec (a - b + 2 ^ w) (2 ^ (w - 1)))|destruct (Z.ltb_spec (a - b) (2 ^ (w - 1)))]; lia.
Qed.

(** The meaning of a condition after [subs a, b]. *)
Definition subCondition (c : ConditionCode) (w a b : Z) : bool :=
  match c with
  | ConditionCode.Equal => a =? b
  | ConditionCode.NotEqual => negb (a =? b)
  | ConditionCode.CarrySet => b <=? a
  | ConditionCode.CarryClear => a <? b
  | ConditionCode.Negative => signed w ((a - b) mod 2 ^ w) <? 0
  | ConditionCode.NonNegative => 0 <=? signed w ((a - b) mod 2 ^ w)
  | ConditionCode.Overflow =>
      negb ((- 2 ^ (w - 1) <=? signed w a - signed w b) && (signed w a - signed w b <? 2 ^ (w - 1)))
  | ConditionCode.NoOverflow =>
      (- 2 ^ (w - 1) <=? signed w a - signed w b) && (signed w a - signed w b <? 2 ^ (w - 1))
  | ConditionCode.UnsignedGreater => b <? a
  | ConditionCode.UnsignedLessEqual => a <=? b
  | ConditionCode.SignedGreaterEqual => signed w b <=? signed w a
  | ConditionCode.SignedLess => signed w a <? signed w b
  | ConditionCode.SignedGreater => signed w b <? signed w a
  | ConditionCode.SignedLessEqual => signed w a <=? signed w b
  | ConditionCode.Always => true
  | ConditionCode.Never => false
  end.

Lemma sub_conditions c w a b :
  1 <= w <= 64 -> fits w a -> fits w b ->
  evalCondition (Some c) (flagSub w a b 1) = subCondition c w a b.
Proof.
  intros Hw Ha Hb. rewrite flagSub_spec, evalCondition_nzcv by done.
  pose proof (pow2_half w ltac:(lia)) as Hp. pose proof (pow2_pos (w - 1) ltac:(lia)).
  unfold fits in Ha, Hb. rewrite (mod_once (2 ^ w) (a - b)) by lia.
  unfold conditionOn, subCondition. rewrite (mod_once (2 ^ w) (a - b)) by lia. unfold signed.
  destruct c; try done;
    destruct (Z.ltb_spec (a - b) 0), (Z.ltb_spec a (2 ^ (w - 1))), (Z.ltb_spec b (2 ^ (w - 1)));
    try lia; repeat (match goal with |- context [if ?x <? ?y then _ else _] => destruct (Z.ltb_spec x y) end);
    lia.
Qed.

(** ** Addition *)

Lemma flagAdd_spec w a b c :
  1 <= w <= 64 -> fits w a -> fits w b -> 0 <= c <= 1 ->
  let r := (a + b + c) mod 2 ^ w in
  flagAdd w a b c =
    nzcvOf (signed w r <? 0) (r =? 0) (2 ^ w <=? a + b + c)
      (negb ((- 2 ^ (w - 1) <=? signed w a + signed w b + c)
             && (signed w a + signed w b + c <? 2 ^ (w - 1)))).
Proof.
  intros Hw Ha Hb Hc r. unfold flagAdd. rewrite carryAdd_spec by done. fold r.
  pose proof (pow2_half w ltac:(lia)) as Hp. pose proof (pow2_pos (w - 1) ltac:(lia)).
  pose proof (fits_mod w (a + b + c) ltac:(lia)) as Hr. fold r in Hr.
  rewrite !signed_sign by done. f_equal.
  assert (r = if 2 ^ w <=? a + b + c then a + b + c - 2 ^ w else a + b + c) as Hrv.
  { unfold fits in *. destruct (Z.leb_spec (2 ^ w) (a + b + c)).
    - symmetry. apply (Z.mod_unique_pos _ _ 1); lia.
    - apply Z.mod_small. lia. }
  unfold fits in *. unfold signed.
  destruct (Z.leb_spec (2 ^ w) (a + b + c)), (Z.ltb_spec a (2 ^ (w - 1))), (Z.ltb_spec b (2 ^ (w - 1))),
    (Z.ltb_spec r (2 ^ (w - 1))); lia.
Qed.

(** An unsigned sum wraps exactly when the result is below an operand. *)
Lemma carry_compare w a b :
  1 <= w -> fits w a -> fits w b -> (2 ^ w <=? a + b) = ((a + b) mod 2 ^ w <? a).
Proof.
  unfold fits. intros Hw Ha Hb. destruct (Z.leb_spec (2 ^ w) (a + b)).
  - replace ((a + b) mod 2 ^ w) with (a + b - 2 ^ w) by (apply (Z.mod_unique_pos _ _ 1); lia). lia.
  - rewrite Z.mod_small by lia. lia.
Qed.

(** ** Logical results *)

Lemma flagLogical_spec w r :
  1 <= w <= 64 -> fits w r -> flagLogical w r = nzcvOf (signed w r <? 0) (r =? 0) false false.
Proof. intros Hw Hr. unfold flagLogical. by rewrite signed_sign. Qed.

(** ** Properties *)

(** C34 Flags mean what the architecture says, at every width from 1 to 64: after
    a subtraction each condition code is the comparison of the operands it is
    named for, signed or unsigned, with no wrap-around; an addition's zero,
    carry, sign and overflow describe the exact sum; and inverting a condition
    code negates it on every flag word. *)
Theorem flag_conditions c w a b cin :
  1 <= w <= 64 -> fits w a -> fits w b -> 0 <= cin <= 1 ->
  evalCondition (Some c) (flagSub w a b 1) = subCondition c w a b /\
  (let sum := signed w a + signed w b + cin in
   evalCondition (Some ConditionCode.CarrySet) (flagAdd w a b cin) = (2 ^ w <=? a + b + cin) /\
   evalCondition (Some ConditionCode.Equal) (flagAdd w a b cin) = ((a + b + cin) mod 2 ^ w =? 0) /\
   evalCondition (Some ConditionCode.NoOverflow) (flagAdd w a b cin)
     = (- 2 ^ (w - 1) <=? sum) && (sum <? 2 ^ (w - 1)) /\
   evalCondition (Some ConditionCode.SignedLess) (flagAdd w a b cin) = (sum <? 0)) /\
  (forall nzcv, evalCondition (Some (invert c)) nzcv = negb (evalCondition (Some c) nzcv)).
Proof.
  intros Hw Ha Hb Hc. split; [by apply sub_conditions|]. split.
  - intros sum. rewrite flagAdd_spec, !evalCondition_nzcv by done. unfold conditionOn, sum.
    rewrite negb_involutive. split_and!; try done.
    pose proof (pow2_half w ltac:(lia)) as Hp. pose proof (pow2_pos (w - 1) ltac:(lia)).
    pose proof (fits_mod w (a + b + cin) ltac:(lia)) as Hr.
    assert (exists q, (a + b + cin) mod 2 ^ w = a + b + cin - q * 2 ^ w /\ (q = 0 \/ q = 1)) as (q & Hq & Hq01).
    { exists ((a + b + cin) / 2 ^ w). rewrite Z.mod_eq by lia. split; [lia|]. unfold fits in *.
      assert (0 <= (a + b + cin) / 2 ^ w < 2); [|lia].
      split; [apply Z.div_pos; lia|apply Z.div_lt_upper_bound; lia]. }
    rewrite Hq in *. unfold fits, signed in *.
    destruct (Z.ltb_spec a (2 ^ (w - 1))), (Z.ltb_spec b (2 ^ (w - 1))),
      (Z.ltb_spec (a + b + cin - q * 2 ^ w) (2 ^ (w - 1))), Hq01; subst q; lia.
  - intros nzcv. unfold evalCondition, invert. destruct c; cbv zeta; try by rewrite ?negb_involutive;
      repeat match goal with |- context [negb (?x =? 0)] => destruct (x =? 0) end.
Qed.

Lemma flag_conditions_witness :
  fits 8 0x80 /\ evalCondition (Some ConditionCode.SignedLess) (flagSub 8 0x80 0x01 1) = true.
Proof.
  assert (fits 8 0x80) as Ha by (unfold fits; lia). assert (fits 8 1) as Hb by (unfold fits; lia).
  split; [exact Ha|].
  exact (proj1 (flag_conditions ConditionCode.SignedLess 8 0x80 1 0 ltac:(lia) Ha Hb ltac:(lia))).
Defined.
