(* ===== verification/Rewrite.v ===== *)
(** * Rewriting expressions in place of others

    The passes rewrite an operand by walking its expression post-order: they
    remember what each handle became, rebuild a node whose operands changed, and
    then apply a rule of their own. [traverse] is that walk; it is sound when its
    rule is, and it returns while handles remain. *)
From S2P Require Import Prelude Bits U128 Types Exprs Registers Func Eval VerifyExpr ValueTypes.

Lemma M_bind_Some {A B} (m : M A) (k : A -> M B) f r f' :
  (m ≫= k) f = Some (r, f') <-> exists x f1, m f = Some (x, f1) /\ k x f1 = Some (r, f').
Proof.
  unfold mbind, M_bind. destruct (m f) as [[x f1]|]; split; try done.
  - intros H. by exists x, f1.
  - by intros (x' & f1' & [= <- <-] & H).
  - by intros (x' & f1' & ? & _).
Qed.

Lemma gets_Some {A} (q : Function -> option A) f x f' :
  gets q f = Some (x, f') <-> q f = Some x /\ f' = f.
Proof.
  unfold gets. destruct (q f) as [a|]; cbn; split; try done.
  - by intros [= <- <-].
  - by intros [[= <-] ->].
  - by intros [? _].
Qed.

(** ** Meaning in a grown pool *)

Lemma Eval_grows defined f f' env id v :
  grows f f' -> Eval defined f env id v -> Eval defined f' env id v.
Proof.
  intros Hg. induction 1 as [id e ts args v He Hw Ht _ IH Hd Hv] using Eval_ind'.
  econstructor; try done; [by eapply exprAt_ext|by eapply mapM_typeAt_ext].
Qed.

(** Operands of a verified expression exist, so nothing new can be reached. *)
Lemma Eval_shrinks defined f f' env id v :
  pool_ok f -> grows f f' -> hasExpr f id = true ->
  Eval defined f' env id v -> Eval defined f env id v.
Proof.
  intros Hok Hg Hh H. revert Hh.
  induction H as [id e ts args v He Hw Ht _ IH Hd Hv] using Eval_ind'.
  intros [e' He']%hasExpr_exprAt.
  assert (e' = e) as -> by (apply (exprAt_ext f f') in He'; [congruence|done]).
  pose proof (pool_ok_verifies f Hok id e He') as Hver.
  pose proof (exprVerifies_typed f id e Hver) as (_ & _ & ts' & Hts' & _).
  pose proof (mapM_typeAt_ext f f' _ _ Hg Hts') as Ht'. simplify_eq.
  apply (Eval_node _ _ _ id e ts args v); try done.
  apply mapM_Some in Hts'. clear -IH Hts'. revert ts Hts'.
  induction IH as [|x a xs args Hx _ IHl]; intros ts Hts; inversion Hts as [|? t ? ts' Hxt Hts']; subst;
    constructor; [|by eapply IHl].
  apply Hx, hasExpr_exprAt. apply typeAt_Some in Hxt as (e' & He' & _). by exists e'.
Qed.

(** ** One expression standing for another *)

(** [y] has the type of [x] and every strict value of [x]. *)
Definition Simulates (f : Function) (env : Env) (x y : N) : Prop :=
  exists t, typeAt f x = Some t /\ typeAt f y = Some t /\
    forall v, Strict f env x v -> Strict f env y v.

Definition sameType (f : Function) (x y : N) : Prop :=
  exists t, typeAt f x = Some t /\ typeAt f y = Some t.

Lemma Simulates_sameType f env x y : Simulates f env x y -> sameType f x y.
Proof. intros (t & ? & ? & _). by exists t. Qed.

Lemma Simulates_refl f env x : hasExpr f x = true -> Simulates f env x x.
Proof.
  intros [e He]%hasExpr_exprAt. exists (type e). split_and!; try done; apply typeAt_Some; by exists e.
Qed.

Lemma Simulates_trans f env x y z :
  Simulates f env x y -> Simulates f env y z -> Simulates f env x z.
Proof. intros (t & ? & ? & H1) (t' & ? & ? & H2). simplify_eq. exists t. split_and!; auto. Qed.

Lemma typeAt_hasExpr f x t : typeAt f x = Some t -> hasExpr f x = true.
Proof. intros (e & He & _)%typeAt_Some. apply hasExpr_exprAt. by exists e. Qed.

Lemma Simulates_grows f f' env x y :
  pool_ok f -> grows f f' -> Simulates f env x y -> Simulates f' env x y.
Proof.
  intros Hok Hg (t & Hx & Hy & H). exists t. split_and!; [by eapply typeAt_ext..|].
  intros v Hv. apply (Eval_grows _ f); [done|]. apply H.
  eapply Eval_shrinks; try done. by eapply typeAt_hasExpr.
Qed.

Lemma sameType_grows f f' x y : grows f f' -> sameType f x y -> sameType f' x y.
Proof. intros Hg (t & ? & ?). exists t. split; by eapply typeAt_ext. Qed.

(** ** Rebuilding a node over other operands *)

Definition withOperands (e : Expr) (xs : list N) : Expr :=
  MkExpr (op e) (type e) xs (immediate e).

Lemma withOperands_id e : withOperands e (operands e) = e.
Proof. by destruct e. Qed.

Lemma mapM_sameType f xs ys ts :
  Forall2 (sameType f) xs ys -> mapM (typeAt f) xs = Some ts -> mapM (typeAt f) ys = Some ts.
Proof.
  rewrite !mapM_Some. intros H. revert ts.
  induction H as [|x y xs ys (t & Hx & Hy) _ IH]; intros ts Hts; inversion Hts; subst; constructor.
  - congruence.
  - by apply IH.
Qed.

Lemma withOperands_typed f id e ys :
  pool_ok f -> exprAt f id = Some e -> Forall2 (sameType f) (operands e) ys ->
  exprTyped f (withOperands e ys).
Proof.
  intros Hok He Hys. pose proof (exprVerifies_typed f id e (pool_ok_verifies f Hok id e He))
    as (Ha & Hv & ts & Hts & Hr & Ho).
  assert (operandCount (withOperands e ys) = operandCount e) as Hc
    by (unfold operandCount; cbn; by rewrite (Forall2_length _ _ _ Hys)).
  split; [by rewrite Hc|]. split; [done|]. exists ts. split; [by eapply mapM_sameType|].
  revert Hr Ho. unfold resultRuleOk, opRuleOk. rewrite Hc. done.
Qed.

(** A rebuilt node takes the node's values when its operands take theirs. *)
Lemma withOperands_simulates f env id e ys r :
  pool_ok f -> exprAt f id = Some e -> Forall2 (Simulates f env) (operands e) ys ->
  exprAt f r = Some (withOperands e ys) -> Simulates f env id r.
Proof.
  intros Hok He Hys Hr. exists (type e). split_and!; [apply typeAt_Some; by eexists..|].
  intros v Hv. destruct (Eval_inv _ _ _ _ _ _ Hv He) as (ts & args & Hw & Hts & Hargs & Hd & Hn).
  apply (Eval_node _ _ _ r (withOperands e ys) ts args v); try done.
  - eapply mapM_sameType; [|done]. eapply Forall2_impl; [done|]. apply Simulates_sameType.
  - cbn. clear -Hys Hargs. revert args Hargs.
    induction Hys as [|x y xs ys (t & _ & _ & H) _ IH]; intros args Hargs; inversion Hargs; subst;
      constructor; auto.
Qed.

(** The number of expressions in the pool. *)
Definition exprCount (f : Function) : nat := length (exprs (pool f)).

(** ** The walk *)

Abbreviation Memo := (gmap N N).

(** [memo.emplace(id, result)]: an entry that exists stays. *)
Definition emplaceMemo (memo : Memo) (id r : N) : Memo :=
  match memo !! id with Some _ => memo | None => <[id := r]> memo end.

Section Traverse.
(** [post] is the rule: the node as it was, the handle of the rebuilt node, and
    a state of the pass's own. *)
Context {St : Type} (post : Expr -> N -> St -> M (N * St)).

(** [for (index < operandCount) { folded = rec(operand); changed |= ...; }] *)
Fixpoint operandsLoop (rec : N -> Memo * St -> M (N * (Memo * St))) (xs : list N) (w : Memo * St)
  : M (list N * bool * (Memo * St)) :=
  match xs with
  | [] => mret ([], false, w)
  | x :: xs =>
      '(y, w) ← rec x w;
      '(ys, changed, w) ← operandsLoop rec xs w;
      mret (y :: ys, negb (y =? x)%N || changed, w)
  end.

Fixpoint traverse (fuel : nat) (id : N) (w : Memo * St) : M (N * (Memo * St)) :=
  match w.1 !! id with
  | Some r => mret (r, w)
  | None =>
      match fuel with
      | O => fun _ => None
      | S fuel =>
          expr ← gets (fun f => exprAt f id);
          '(ys, changed, w) ← operandsLoop (traverse fuel) (operands expr) w;
          result ← (if (changed : bool) then intern (withOperands expr ys) else mret id);
          '(result, s) ← post expr result w.2;
          mret (result, (emplaceMemo w.1 id result, s))
      end
  end.
End Traverse.

(** ** Soundness of the walk *)

(** Any relation between a handle and what it becomes that growth keeps: if the
    rule establishes it for a node from its operands, the walk does for the whole
    expression, through the memo. *)
Section Walk.
Context {St : Type} (post : Expr -> N -> St -> M (N * St)).
(** The invariant of a pass, kept by rebuilding nodes and by its rule. *)
Context (I : Function -> Prop) (HI : forall f, I f -> pool_ok f).
Context (R : Function -> N -> N -> Prop).
Context (HR_grows : forall f f' x y, I f -> grows f f' -> R f x y -> R f' x y).
Context (HR_type : forall f x y, R f x y -> sameType f x y).
Context (Hrebuild : forall f id e ys r f', I f -> exprAt f id = Some e ->
  Forall2 (sameType f) (operands e) ys -> intern (withOperands e ys) f = Some (r, f') -> I f').
Context (Hnode : forall f id e ys res s r s' f', I f -> exprAt f id = Some e ->
  Forall2 (R f) (operands e) ys -> exprAt f res = Some (withOperands e ys) -> (ys = operands e -> res = id) ->
  post e res s f = Some ((r, s'), f') -> I f' /\ grows f f' /\ R f' id r).

Definition memo_R (f : Function) (memo : Memo) : Prop := forall k r, memo !! k = Some r -> R f k r.

Lemma memo_R_grows f f' memo : I f -> grows f f' -> memo_R f memo -> memo_R f' memo.
Proof using HR_grows. intros Hf Hg H k r Hk. apply (HR_grows f); auto. Qed.

Lemma memo_R_emplace f memo id r : memo_R f memo -> R f id r -> memo_R f (emplaceMemo memo id r).
Proof.
  intros Hm Hr. unfold emplaceMemo. destruct (memo !! id); [done|].
  intros k r'. rewrite lookup_insert_Some. intros [[<- <-]|[_ Hk]]; [done|by apply Hm].
Qed.

(** What one call of the walk guarantees. *)
Definition walk_R (rec : N -> Memo * St -> M (N * (Memo * St))) : Prop :=
  forall f id w r w' f', I f -> memo_R f w.1 -> hasExpr f id = true ->
    rec id w f = Some ((r, w'), f') ->
    I f' /\ grows f f' /\ memo_R f' w'.1 /\ R f' id r.

Lemma operandsLoop_R rec :
  walk_R rec -> forall xs f w ys changed w' f', I f -> memo_R f w.1 ->
    Forall (fun x => hasExpr f x = true) xs ->
    operandsLoop rec xs w f = Some ((ys, changed, w'), f') ->
    I f' /\ grows f f' /\ memo_R f' w'.1 /\ Forall2 (R f') xs ys /\
    (changed = false <-> ys = xs).
Proof using HR_grows.
  intros Hrec xs. induction xs as [|x xs IH]; intros f w ys changed w' f' Hf Hm Hxs;
    cbn [operandsLoop].
  { intros [= <- <- <- <-]. split_and!; done. }
  inversion Hxs as [|? ? Hx Hxs']; subst. rewrite M_bind_Some.
  intros ([y w1] & f1 & Hy & H). destruct (Hrec _ _ _ _ _ _ Hf Hm Hx Hy) as (Hf1 & Hg1 & Hm1 & Hs1).
  apply M_bind_Some in H as ([[ys' ch] w2] & f2 & Hl & [= <- <- <- <-]).
  assert (Forall (fun x => hasExpr f1 x = true) xs) as Hxs1
    by (eapply Forall_impl; [exact Hxs'|]; intros; by apply (hasExpr_ext f)).
  destruct (IH _ _ _ _ _ _ Hf1 Hm1 Hxs1 Hl) as (Hf2 & Hg2 & Hm2 & Hs2 & Hch).
  split_and!; [done|by etrans|done| |].
  - constructor; [by apply (HR_grows f1)|done].
  - rewrite orb_false_iff, negb_false_iff, N.eqb_eq, Hch. split; [by intros [-> ->]|by intros [= -> ->]].
Qed.

(** The operands of a verified node exist. *)
Lemma operands_exist f id e :
  pool_ok f -> exprAt f id = Some e -> Forall (fun x => hasExpr f x = true) (operands e).
Proof.
  intros Hok He. pose proof (exprVerifies_typed f id e (pool_ok_verifies f Hok id e He)) as (_ & _ & ts & Hts & _).
  apply mapM_Some in Hts. apply Forall_forall. intros x Hx. apply list_elem_of_lookup in Hx as [i Hi].
  destruct (Forall2_lookup_l _ _ _ _ _ Hts Hi) as (t & _ & Ht). by eapply typeAt_hasExpr.
Qed.

Lemma traverse_R fuel : walk_R (traverse post fuel).
Proof using HI HR_grows HR_type Hrebuild Hnode.
  assert (forall n, walk_R (traverse post n)) as Hall; [|apply Hall].
  induction n as [|n IH]; intros f id w r w' f' Hf Hm Hid; cbn [traverse];
    (destruct (w.1 !! id) as [r0|] eqn:Hmemo;
      [intros [= <- <- <-]; split_and!; [done..|by apply Hm]|]); [done|].
  rewrite M_bind_Some. intros (e & f0 & [He ->]%gets_Some & H).
  apply M_bind_Some in H as ([[ys ch] w1] & f1 & Hl & H).
  destruct (operandsLoop_R _ IH (operands e) f w ys ch w1 f1 Hf Hm (operands_exist f id e (HI f Hf) He) Hl)
    as (Hf1 & Hg1 & Hm1 & Hs1 & Hch).
  pose proof (exprAt_ext f f1 _ _ Hg1 He) as He1.
  assert (Forall2 (sameType f1) (operands e) ys) as Hst1 by (eapply Forall2_impl; [exact Hs1|apply HR_type]).
  apply M_bind_Some in H as (res & f2 & Hres & H).
  assert (I f2 /\ grows f1 f2 /\ exprAt f2 res = Some (withOperands e ys) /\ (ys = operands e -> res = id))
    as (Hf2 & Hg2 & Hr2 & Hid2).
  { destruct ch.
    - split_and!; [by eapply Hrebuild|by eapply pool_ext_grows, intern_ext| |by intros ?%Hch].
      eapply intern_exprAt; [apply HI, Hf1|done].
    - injection Hres as <- <-. split_and!; [done..| |done]. by rewrite (proj1 Hch eq_refl), withOperands_id. }
  apply M_bind_Some in H as ([r1 s] & f3 & Hp & [= <- <- <-]).
  assert (Forall2 (R f2) (operands e) ys) as Hs2.
  { eapply Forall2_impl; [exact Hs1|]. intros x y. by apply HR_grows. }
  destruct (Hnode _ _ _ _ _ _ _ _ _ Hf2 (exprAt_ext f1 f2 _ _ Hg2 He1) Hs2 Hr2 Hid2 Hp) as (Hf3 & Hg3 & Hs3).
  split_and!; [done|by do 2 (etrans; [eassumption|])| |done].
  apply memo_R_emplace; [|done]. by apply (memo_R_grows f2), (memo_R_grows f1).
Qed.
End Walk.

(** A rule is sound: given a node and its rebuilt handle, it keeps the pass's
    invariant, changes the function only by [ext], and returns a handle that
    stands for the rebuilt one. *)
Definition rule_sound {St : Type} (ext : Function -> Function -> Prop)
    (post : Expr -> N -> St -> M (N * St)) (env : Env) (I : Function -> Prop) : Prop :=
  forall f id e ys res s r s' f', I f -> exprAt f id = Some e ->
    Forall2 (sameType f) (operands e) ys -> exprAt f res = Some (withOperands e ys) ->
    post e res s f = Some ((r, s'), f') -> I f' /\ ext f f' /\ Simulates f' env res r.

Lemma rule_sound_grows {St} (post : Expr -> N -> St -> M (N * St)) env I :
  rule_sound pool_ext post env I -> rule_sound grows post env I.
Proof. intros H f id e ys res s r s' f' H1 H2 H3 H4 H5. destruct (H f id e ys res s r s' f') as (? & ? & ?); auto. Qed.

Section Soundness.
Context {St : Type} (post : Expr -> N -> St -> M (N * St)) (env : Env).
Context (I : Function -> Prop) (HI : forall f, I f -> pool_ok f).
Context (Hrebuild : forall f id e ys r f', I f -> exprAt f id = Some e ->
  Forall2 (sameType f) (operands e) ys -> intern (withOperands e ys) f = Some (r, f') -> I f').
Context (Hpost : rule_sound grows post env I).

Let R (f : Function) : N -> N -> Prop := Simulates f env.

Definition memo_ok : Function -> Memo -> Prop := memo_R R.

Lemma memo_ok_empty f : memo_ok f ∅.
Proof. intros k r. by rewrite lookup_empty. Qed.

Lemma R_grows f f' x y : I f -> grows f f' -> R f x y -> R f' x y.
Proof using HI. intros Hf Hg. apply Simulates_grows; auto. Qed.

(** What one call of the walk guarantees. *)
Definition walk_ok : (N -> Memo * St -> M (N * (Memo * St))) -> Prop := walk_R I R.

Lemma operandsLoop_sound rec :
  walk_ok rec -> forall xs f w ys changed w' f', I f -> memo_ok f w.1 ->
    Forall (fun x => hasExpr f x = true) xs ->
    operandsLoop rec xs w f = Some ((ys, changed, w'), f') ->
    I f' /\ grows f f' /\ memo_ok f' w'.1 /\ Forall2 (Simulates f' env) xs ys /\
    (changed = false <-> ys = xs).
Proof using HI. apply operandsLoop_R, R_grows. Qed.

Lemma traverse_sound fuel : walk_ok (traverse post fuel).
Proof using HI Hpost Hrebuild.
  apply traverse_R; [exact HI|exact R_grows|intros f x y; apply Simulates_sameType|exact Hrebuild|].
  intros f id e ys res s r s' f' Hf He Hs Hr _ Hp.
  assert (Forall2 (sameType f) (operands e) ys) as Hst by (eapply Forall2_impl; [exact Hs|apply Simulates_sameType]).
  destruct (Hpost _ _ _ _ _ _ _ _ _ Hf He Hst Hr Hp) as (Hf' & Hg & Hsim). split_and!; [done..|].
  eapply Simulates_trans; [|exact Hsim]. apply (Simulates_grows f); [by apply HI|done|].
  by eapply withOperands_simulates; [apply HI|..].
Qed.

End Soundness.

(** ** The walk returns *)

(** A rule whose results have the types of what they replace. *)
Definition rule_typed {St : Type} (post : Expr -> N -> St -> M (N * St)) (I : Function -> Prop) : Prop :=
  forall f id e ys res s r s' f', I f -> exprAt f id = Some e ->
    Forall2 (sameType f) (operands e) ys -> exprAt f res = Some (withOperands e ys) ->
    post e res s f = Some ((r, s'), f') -> I f' /\ grows f f' /\ sameType f' res r.

Lemma rule_sound_typed {St} (post : Expr -> N -> St -> M (N * St)) env I : rule_sound grows post env I -> rule_typed post I.
Proof.
  intros H f id e ys res s r s' f' H1 H2 H3 H4 H5. destruct (H f id e ys res s r s' f') as (? & ? & ?%Simulates_sameType); auto.
Qed.

Section Returning.
Context {St : Type} (post : Expr -> N -> St -> M (N * St)).
Context (I : Function -> Prop) (HI : forall f, I f -> pool_ok f).
Context (Hrebuild : forall f id e ys r f', I f -> exprAt f id = Some e ->
  Forall2 (sameType f) (operands e) ys -> intern (withOperands e ys) f = Some (r, f') -> I f').
Context (Hpost : rule_typed post I).

Definition memo_typed : Function -> Memo -> Prop := memo_R sameType.

Lemma memo_typed_empty f : memo_typed f ∅.
Proof. intros k r. by rewrite lookup_empty. Qed.

Lemma memo_ok_typed env f memo : memo_ok env f memo -> memo_typed f memo.
Proof. intros H k r Hk. by eapply Simulates_sameType, H. Qed.

Lemma sameType_grows_I f f' x y : I f -> grows f f' -> sameType f x y -> sameType f' x y.
Proof. intros _. apply sameType_grows. Qed.

Definition walk_typed : (N -> Memo * St -> M (N * (Memo * St))) -> Prop := walk_R I sameType.

Lemma traverse_typed fuel : walk_typed (traverse post fuel).
Proof using HI Hpost Hrebuild.
  apply traverse_R; [exact HI|exact sameType_grows_I|done|exact Hrebuild|].
  intros f id e ys res s r s' f' Hf He Hst Hr _ Hp.
  destruct (Hpost _ _ _ _ _ _ _ _ _ Hf He Hst Hr Hp) as (Hf' & Hg & t & Hres & Hty). split_and!; [done..|].
  exists t. split; [|done]. pose proof (exprAt_ext f f' _ _ Hg Hr) as Hr'. pose proof (exprAt_ext f f' _ _ Hg He) as He'.
  apply typeAt_Some in Hres as (e' & He'' & <-). simplify_eq. apply typeAt_Some. by exists e.
Qed.

(** The rule returns and adds at most [K] expressions while there is room. *)
Context (K : nat) (Hpost_total : forall f id e ys res s, I f -> exprAt f id = Some e ->
  Forall2 (sameType f) (operands e) ys -> exprAt f res = Some (withOperands e ys) ->
  (N.of_nat (exprCount f + K) <= kInvalidIndex)%N ->
  exists r s' f', post e res s f = Some ((r, s'), f') /\ (exprCount f' <= exprCount f + K)%nat).

(** The expressions that exist and those the handles below [m] still to be
    visited may add. *)
Definition demand (m : nat) (f : Function) (memo : Memo) : nat :=
  exprCount f + (K + 1) * (m - size memo).

Definition memo_below (m : nat) (memo : Memo) : Prop :=
  forall k, is_Some (memo !! k) -> (N.to_nat k < m)%nat.

Lemma memo_below_size m memo id :
  memo_below m memo -> memo !! id = None -> (N.to_nat id < m)%nat -> (size memo < m)%nat.
Proof.
  intros Hb Hid Hm. set (all := list_to_set (N.of_nat <$> seq 0 m) : gset N).
  assert (size all = m) as Hall.
  { unfold all. rewrite size_list_to_set, length_fmap, length_seq; [done|].
    apply (NoDup_fmap_2 N.of_nat). apply NoDup_seq. }
  rewrite <-size_dom, <-Hall. apply subset_size. split.
  - intros k Hk%elem_of_dom%Hb. unfold all. rewrite elem_of_list_to_set, list_elem_of_fmap.
    exists (N.to_nat k). rewrite N2Nat.id, elem_of_seq. split; [done|lia].
  - intros Hsub. assert (id ∈ dom memo) as H%elem_of_dom; [|by rewrite Hid in H; destruct H].
    apply Hsub. unfold all. rewrite elem_of_list_to_set, list_elem_of_fmap.
    exists (N.to_nat id). rewrite N2Nat.id, elem_of_seq. split; [done|lia].
Qed.

Definition walk_total (m n : nat) (rec : N -> Memo * St -> M (N * (Memo * St))) : Prop :=
  forall f id w, I f -> memo_typed f w.1 -> memo_below m w.1 -> hasExpr f id = true ->
    (N.to_nat id < n)%nat -> (N.of_nat (demand m f w.1) <= kInvalidIndex)%N ->
    exists r w' f', rec id w f = Some ((r, w'), f') /\ memo_below m w'.1 /\
      (demand m f' w'.1 <= demand m f w.1)%nat /\
      (forall k, is_Some (w'.1 !! k) -> is_Some (w.1 !! k) \/ (k <= id)%N).

Lemma operandsLoop_total m n rec :
  walk_typed rec -> walk_total m n rec -> forall xs f w, I f -> memo_typed f w.1 -> memo_below m w.1 ->
    Forall (fun x => hasExpr f x = true /\ (N.to_nat x < n)%nat) xs ->
    (N.of_nat (demand m f w.1) <= kInvalidIndex)%N ->
    exists ys ch w' f', operandsLoop rec xs w f = Some ((ys, ch, w'), f') /\ memo_below m w'.1 /\
      (demand m f' w'.1 <= demand m f w.1)%nat /\
      (forall k, is_Some (w'.1 !! k) -> is_Some (w.1 !! k) \/ (N.to_nat k < n)%nat).
Proof using HI.
  intros Hrec Htot xs. induction xs as [|x xs IH]; intros f w Hf Hm Hb Hxs Hd; cbn [operandsLoop].
  { exists [], false, w, f. split_and!; auto. }
  inversion Hxs as [|? ? [Hx Hn] Hxs']; subst.
  destruct (Htot f x w Hf Hm Hb Hx Hn Hd) as (y & w1 & f1 & Hy & Hb1 & Hd1 & Hk1).
  destruct (Hrec _ _ _ _ _ _ Hf Hm Hx Hy) as (Hf1 & Hg1 & Hm1 & _).
  destruct (IH f1 w1 Hf1 Hm1 Hb1) as (ys & ch & w2 & f2 & Hl & Hb2 & Hd2 & Hk2).
  { eapply Forall_impl; [exact Hxs'|]. intros z [? ?]. split; [by apply (hasExpr_ext f)|done]. }
  { lia. }
  exists (y :: ys), (negb (y =? x)%N || ch), w2, f2. split_and!; [|done|lia|].
  - apply M_bind_Some. exists (y, w1), f1. split; [done|].
    apply M_bind_Some. by exists (ys, ch, w2), f2.
  - intros k Hk. destruct (Hk2 k Hk) as [Hk'|]; [|by right].
    destruct (Hk1 k Hk') as [|]; [by left|right; lia].
Qed.

Lemma intern_count f e r f' :
  intern e f = Some (r, f') -> (exprCount f' <= exprCount f + 1)%nat.
Proof.
  intros (_ & [[_ ->]|(_ & _ & _ & ->)])%intern_Some; unfold exprCount; [lia|].
  cbn. rewrite length_app. cbn. lia.
Qed.

Lemma traverse_total m n fuel :
  (n <= fuel)%nat -> (n <= m)%nat -> walk_total m n (traverse post fuel).
Proof using Type*.
  revert n. induction fuel as [|fuel IH]; intros n Hfuel Hnm f id w Hf Hm Hb Hid Hn Hd; [lia|].
  cbn [traverse]. destruct (w.1 !! id) as [r0|] eqn:Hmemo.
  { exists r0, w, f. split_and!; auto. }
  apply hasExpr_exprAt in Hid as [e He].
  pose proof (pool_ok_verifies f (HI f Hf) id e He) as Hver.
  assert (Forall (fun x => hasExpr f x = true /\ (N.to_nat x < N.to_nat id)%nat) (operands e)) as Hxs.
  { unfold exprVerifies in Hver. rewrite !andb_true_iff in Hver. destruct Hver as [[_ Hver] _].
    rewrite forallb_forall in Hver. apply Forall_forall. intros x Hx%list_elem_of_In%Hver.
    apply andb_true_iff in Hx as [? ?%N.ltb_lt]. split; [done|lia]. }
  pose proof (traverse_typed fuel) as Hok.
  destruct (operandsLoop_total m (N.to_nat id) (traverse post fuel) Hok) with (xs := operands e) (f := f) (w := w)
    as (ys & ch & w1 & f1 & Hl & Hb1 & Hd1 & Hk1); try done.
  { apply IH; lia. }
  destruct (operandsLoop_R _ _ sameType_grows_I _ Hok (operands e) f w ys ch w1 f1 Hf Hm) as (Hf1 & Hg1 & Hm1 & Hs1 & Hch);
    [eapply Forall_impl; [exact Hxs|]; by intros ? []|exact Hl|].
  assert (w1.1 !! id = None) as Hw1.
  { destruct (w1.1 !! id) eqn:Hs; [|done]. destruct (Hk1 id ltac:(by eexists)) as [[? ?]|?]; [congruence|lia]. }
  pose proof (memo_below_size m w1.1 id Hb1 Hw1 ltac:(lia)) as Hsize.
  assert (demand m f1 w1.1 = exprCount f1 + (K + 1) + (K + 1) * (m - S (size w1.1)))%nat as Hdem
    by (unfold demand; nia).
  set (rest := ((K + 1) * (m - S (size w1.1)))%nat) in Hdem.
  pose proof (exprAt_ext f f1 _ _ Hg1 He) as He1.
  pose proof Hs1 as Hst.
  assert (exists res f2, (if ch then intern (withOperands e ys) else mret id) f1 = Some (res, f2) /\
    (exprCount f2 <= exprCount f1 + 1)%nat /\ I f2 /\ grows f1 f2 /\
    exprAt f2 res = Some (withOperands e ys)) as (res & f2 & Hres & Hc2 & Hf2 & Hg2 & Hr2).
  { destruct ch.
    - destruct (intern_total f1 (withOperands e ys)) as (res & f2 & Hres & Hx & _ & Hr).
      { by apply HI. } { eapply withOperands_typed; done || by apply HI. }
      { unfold exprCount in Hdem. lia. }
      exists res, f2. split_and!; auto; [by eapply intern_count|by eapply Hrebuild].
    - exists id, f1. rewrite (proj1 Hch eq_refl), withOperands_id. split_and!; done || lia. }
  destruct (Hpost_total f2 id e ys res w1.2 Hf2) as (r & s & f3 & Hp & Hc3).
  { by apply (exprAt_ext f1). } { eapply Forall2_impl; [exact Hst|]. intros. by eapply sameType_grows. }
  { done. } { lia. }
  assert (emplaceMemo w1.1 id r = <[id := r]> w1.1) as Hem by (unfold emplaceMemo; by rewrite Hw1).
  exists r, (emplaceMemo w1.1 id r, s), f3. rewrite Hem. cbn [fst]. split_and!.
  - apply M_bind_Some. exists e, f. split; [by apply gets_Some|].
    apply M_bind_Some. exists (ys, ch, w1), f1. split; [done|].
    apply M_bind_Some. exists res, f2. split; [done|].
    apply M_bind_Some. exists (r, s), f3. split; [done|]. by rewrite Hem.
  - intros k [r' [[<- _]|[_ Hk]]%lookup_insert_Some]; [lia|]. by apply Hb1.
  - unfold demand at 1. rewrite map_size_insert_None by done. fold rest. lia.
  - intros k [r' [[<- _]|[_ Hk]]%lookup_insert_Some]; [right; lia|].
    destruct (Hk1 k ltac:(by eexists)) as [|]; [by left|right; lia].
Qed.
End Returning.

(** The walk of a rule that only interns only grows the pool. *)
Lemma traverse_pool {St} (post : Expr -> N -> St -> M (N * St)) env I fuel f id s r w f' :
  (forall f, I f -> pool_ok f) ->
  (forall f id e ys r f', I f -> exprAt f id = Some e -> Forall2 (sameType f) (operands e) ys ->
     intern (withOperands e ys) f = Some (r, f') -> I f') ->
  rule_sound pool_ext post env I ->
  I f -> hasExpr f id = true -> traverse post fuel id (∅, s) f = Some ((r, w), f') ->
  I f' /\ pool_ext f f' /\ Simulates f' env id r.
Proof.
  intros HI Hrebuild Hrule Hf Hid H.
  destruct (traverse_sound post env (fun g => I g /\ pool_ext f g) (fun g Hg => HI g (proj1 Hg)))
    with (fuel := fuel) (f := f) (id := id) (w := (∅ : Memo, s)) (r := r) (w' := w) (f' := f')
    as ([? ?] & _ & _ & ?); try done.
  - intros g id' e ys r' g' [Hg Hx] He Hys Hi. split; [by eapply Hrebuild|].
    transitivity g; [done|by eapply intern_ext].
  - intros g id' e ys res s' r' s'' g' [Hg Hx] He Hys Hr Hp.
    destruct (Hrule g id' e ys res s' r' s'' g' Hg He Hys Hr Hp) as (? & ? & ?).
    split; [split; [done|by transitivity g]|]. auto.
Qed.
