(* ===== verification/Fold.v ===== *)
(** * Constant folding and lazy-flag folding (passes/fold.cpp)

    [foldConstants] replaces constant trees, [foldFlagConditions] replaces a
    condition on a flag bundle by a comparison of the bundle's operands; both
    are rules of the walk of [Rewrite], and [foldOperands] drives them over the
    operands of every operation. C++ leaves the order in which the arguments of
    a builder call are evaluated open, and with it the order in which two fresh
    nodes get their handles; the definitions build them left to right. *)
From S2P Require Import Prelude Bits U128 Types Exprs Registers Func.
From S2P Require Import Eval VerifyExpr ValueTypes Ceval Rewrite.

(** ** Constants *)

(** What [foldConstantsRec] does with a rebuilt node. *)
Definition foldConstantsRule (expr : Expr) (result : N) (s : unit) : M (N * unit) :=
  if (operandCount expr =? 0)%nat then mret (result, s)
  else if isFlags (type expr) then mret (result, s)
  else
    folded ← (fun f => match tryEvalConst f result with
                       | Ok value => Some (Some value, f)
                       | Err _ => Some (None, f)
                       | Undefined => None
                       end);
    match folded with
    | Some value =>
        if hi value =? 0 then r ← constant (type expr) (lo value); mret (r, s)
        else mret (result, s)
    | None => mret (result, s)
    end.

Definition foldConstantsRec (fuel : nat) (id : N) (memo : Memo) : M (N * Memo) :=
  '(r, (memo, _)) ← traverse foldConstantsRule fuel id (memo, tt);
  mret (r, memo).

(** Operands precede their node, so the recursion is at most [id] deep. *)
Definition depthOf (id : N) : nat := S (N.to_nat id).

Definition foldConstantsExpr (id : N) : M N :=
  '(r, _) ← foldConstantsRec (depthOf id) id ∅; mret r.

(** ** Flag conditions *)

Definition invalidExpr : M N := mret kInvalidIndex.

Definition onlyAlways (c : option ConditionCode) : M N :=
  match c with
  | Some ConditionCode.Always => boolean true
  | Some ConditionCode.Never => boolean false
  | _ => invalidExpr
  end.

Definition rewriteSub (flags : Expr) (c : option ConditionCode) : M N :=
  let a := operand flags 0 in
  let b := operand flags 1 in
  let ty := integer (flagDefWidth (immediate flags)) in
  let diff := binary ExprOp.Sub a b in
  let zero := constant ty 0 in
  match c with
  | Some ConditionCode.Equal => binary ExprOp.CmpEq a b
  | Some ConditionCode.NotEqual => binary ExprOp.CmpNe a b
  | Some ConditionCode.CarrySet => binary ExprOp.CmpLeU b a
  | Some ConditionCode.CarryClear => binary ExprOp.CmpLtU a b
  | Some ConditionCode.UnsignedGreater => binary ExprOp.CmpLtU b a
  | Some ConditionCode.UnsignedLessEqual => binary ExprOp.CmpLeU a b
  | Some ConditionCode.SignedGreaterEqual => binary ExprOp.CmpLeS b a
  | Some ConditionCode.SignedLess => binary ExprOp.CmpLtS a b
  | Some ConditionCode.SignedGreater => binary ExprOp.CmpLtS b a
  | Some ConditionCode.SignedLessEqual => binary ExprOp.CmpLeS a b
  | Some ConditionCode.Negative => d ← diff; z ← zero; binary ExprOp.CmpLtS d z
  | Some ConditionCode.NonNegative => z ← zero; d ← diff; binary ExprOp.CmpLeS z d
  | Some ConditionCode.Always => boolean true
  | Some ConditionCode.Never => boolean false
  | _ => invalidExpr
  end.

Definition rewriteAdd (flags : Expr) (c : option ConditionCode) : M N :=
  let a := operand flags 0 in
  let b := operand flags 1 in
  let ty := integer (flagDefWidth (immediate flags)) in
  let sum := binary ExprOp.Add a b in
  let zero := constant ty 0 in
  match c with
  | Some ConditionCode.Equal => s ← sum; z ← zero; binary ExprOp.CmpEq s z
  | Some ConditionCode.NotEqual => s ← sum; z ← zero; binary ExprOp.CmpNe s z
  | Some ConditionCode.CarrySet => s ← sum; binary ExprOp.CmpLtU s a
  | Some ConditionCode.CarryClear => s ← sum; binary ExprOp.CmpLeU a s
  | Some ConditionCode.UnsignedGreater =>
      s ← sum; carry ← binary ExprOp.CmpLtU s a;
      s ← sum; z ← zero; nonzero ← binary ExprOp.CmpNe s z;
      binary ExprOp.And carry nonzero
  | Some ConditionCode.UnsignedLessEqual =>
      s ← sum; noCarry ← binary ExprOp.CmpLeU a s;
      s ← sum; z ← zero; isZero ← binary ExprOp.CmpEq s z;
      binary ExprOp.Or noCarry isZero
  | Some ConditionCode.Negative => s ← sum; z ← zero; binary ExprOp.CmpLtS s z
  | Some ConditionCode.NonNegative => z ← zero; s ← sum; binary ExprOp.CmpLeS z s
  | Some ConditionCode.Always => boolean true
  | Some ConditionCode.Never => boolean false
  | _ => invalidExpr
  end.

Definition rewriteLogical (flags : Expr) (c : option ConditionCode) : M N :=
  let r := operand flags 0 in
  let ty := integer (flagDefWidth (immediate flags)) in
  let zero := constant ty 0 in
  let eq := z ← zero; binary ExprOp.CmpEq r z in
  let ne := z ← zero; binary ExprOp.CmpNe r z in
  let neg := z ← zero; binary ExprOp.CmpLtS r z in
  let pos := z ← zero; binary ExprOp.CmpLeS z r in
  match c with
  | Some ConditionCode.Equal => eq
  | Some ConditionCode.NotEqual => ne
  | Some ConditionCode.Negative => neg
  | Some ConditionCode.NonNegative => pos
  | Some ConditionCode.CarrySet => boolean false
  | Some ConditionCode.CarryClear => boolean true
  | Some ConditionCode.Overflow => boolean false
  | Some ConditionCode.NoOverflow => boolean true
  | Some ConditionCode.UnsignedGreater => boolean false
  | Some ConditionCode.UnsignedLessEqual => eq
  | Some ConditionCode.SignedGreaterEqual => pos
  | Some ConditionCode.SignedLess => neg
  | Some ConditionCode.SignedGreater => n ← ne; p ← pos; binary ExprOp.And n p
  | Some ConditionCode.SignedLessEqual => e ← eq; n ← neg; binary ExprOp.Or e n
  | Some ConditionCode.Always => boolean true
  | Some ConditionCode.Never => boolean false
  | None => invalidExpr
  end.

(** [FlagConditionRewrite(function, flags).rewrite(code)]. *)
Definition rewriteCondition (flags : Expr) (c : option ConditionCode) : M N :=
  match flagDefOp (immediate flags) with
  | Some FlagOp.Sub => rewriteSub flags c
  | Some FlagOp.Add => rewriteAdd flags c
  | Some FlagOp.Logical => rewriteLogical flags c
  | Some _ => onlyAlways c
  | None => invalidExpr
  end.

(** What [foldFlagConditionsRec] does with a rebuilt node. *)
Definition foldFlagConditionsRule (expr : Expr) (result : N) (s : unit) : M (N * unit) :=
  if decide (op expr = ExprOp.FlagCond) then
    cond ← gets (fun f => exprAt f result);
    flags ← gets (fun f => exprAt f (operand cond 0));
    if decide (op flags = ExprOp.FlagDef) then
      rewritten ← rewriteCondition flags (enumAt conditionCodes (immediate cond));
      mret (if handleValid rewritten then rewritten else result, s)
    else mret (result, s)
  else mret (result, s).

Definition foldFlagConditionsRec (fuel : nat) (id : N) (memo : Memo) : M (N * Memo) :=
  '(r, (memo, _)) ← traverse foldFlagConditionsRule fuel id (memo, tt);
  mret (r, memo).

Definition foldFlagConditionsExpr (id : N) : M N :=
  '(r, _) ← foldFlagConditionsRec (depthOf id) id ∅; mret r.

(** ** The driver over a function's operations *)

(** [for (operand : rewritten) { next = rewrite(operand); opChanged |= ...; }] *)
Fixpoint rewriteOperands (rewrite : N -> M N) (xs : list N) : M (list N * bool) :=
  match xs with
  | [] => mret ([], false)
  | x :: xs =>
      y ← rewrite x;
      '(ys, changed) ← rewriteOperands rewrite xs;
      mret (y :: ys, negb (y =? x)%N || changed)
  end.

Definition rewriteOp (rewrite : N -> M N) (opId : N) : M bool :=
  xs ← gets (fun f => o ← opAt f opId; operandsOf (tables f) o);
  if decide (xs = []) then mret false
  else
    '(ys, opChanged) ← rewriteOperands rewrite xs;
    if (opChanged : bool) then setOperands opId ys;; mret true else mret false.

Fixpoint rewriteOps (rewrite : N -> M N) (opIds : list N) : M bool :=
  match opIds with
  | [] => mret false
  | opId :: opIds =>
      changed ← rewriteOp rewrite opId;
      rest ← rewriteOps rewrite opIds;
      mret (changed || rest)
  end.

Fixpoint rewriteBlocks (rewrite : N -> M N) (blockIds : list N) : M bool :=
  match blockIds with
  | [] => mret false
  | blockId :: blockIds =>
      opIds ← gets (fun f => blockOps <$> blockAtId f blockId);
      changed ← rewriteOps rewrite opIds;
      rest ← rewriteBlocks rewrite blockIds;
      mret (changed || rest)
  end.

Definition foldOperands (rewrite : N -> M N) : M bool :=
  blockIds ← gets (fun f => Some (blockHandles f));
  rewriteBlocks rewrite blockIds.

Definition foldConstants : M bool := foldOperands foldConstantsExpr.
Definition foldFlagConditionsDirect : M bool := foldOperands foldFlagConditionsExpr.

(** ** Distributing a condition through a flags phi *)

(** [FlagPhiDistributor::cache_]: the boolean phi made for a flags phi and a
    condition code. *)
Abbreviation PhiCache := (gmap (N * Z) N).

Definition kMaxDepth : Z := 64.

(** [flagCondition(flags, code)] for the byte the condition code is. *)
Definition flagConditionByte (flags : N) (c : Z) : M N :=
  intern (MkExpr ExprOp.FlagCond booleanType [flags] c).

(** The arms of the new phi: each edge's flags resolved, or an honest condition. *)
Fixpoint resolveArms (rec : N -> PhiCache -> M (N * PhiCache)) (c : Z) (incoming : list N)
    (cache : PhiCache) : M (list N * PhiCache) :=
  match incoming with
  | [] => mret ([], cache)
  | x :: incoming =>
      '(arm, cache) ← rec x cache;
      y ← (if handleValid arm then mret arm else flagConditionByte x c);
      '(ys, cache) ← resolveArms rec c incoming cache;
      mret (y :: ys, cache)
  end.

(** [FlagPhiDistributor::resolveRec]; the depth test stops it before the fuel
    does whenever [fuel + depth > 64]. *)
Fixpoint resolveRec (fuel : nat) (c : Z) (depth : Z) (flags : N) (cache : PhiCache)
  : M (N * PhiCache) :=
  expr ← gets (fun f => exprAt f flags);
  if decide (op expr = ExprOp.FlagDef) then
    r ← rewriteCondition expr (enumAt conditionCodes c); mret (r, cache)
  else if bool_decide (op expr <> ExprOp.Value) || (kMaxDepth <=? depth) then mret (kInvalidIndex, cache)
  else match fuel with
  | O => fun _ => None
  | S fuel =>
      let value := Z.to_N (u32 (immediate expr)) in
      info ← gets (fun f => valueAt f value);
      phi ← gets (fun f => if handleValid (definition info)
                           then Some <$> opAt f (definition info) else Some None);
      match phi with
      | None => mret (kInvalidIndex, cache)
      | Some phiOp =>
          if decide (code phiOp <> OpCode.Phi) then mret (kInvalidIndex, cache)
          else match cache !! (value, c) with
          | Some found => r ← valueRef found; mret (r, cache)
          | None =>
              incoming ← gets (fun f => operandsOf (tables f) phiOp);
              if decide (flags ∈ incoming) then mret (kInvalidIndex, cache)
              else
                newPhi ← prependPhi (valueBlock info) (va phiOp) (integer 1);
                '(rewritten, cache) ←
                  resolveArms (resolveRec fuel c (depth + 1)) c incoming (<[(value, c) := newPhi]> cache);
                newInfo ← gets (fun f => valueAt f newPhi);
                setOperands (definition newInfo) rewritten;;
                r ← valueRef newPhi;
                mret (r, cache)
          end
      end
  end.

Definition resolve (flags : N) (c : Z) (cache : PhiCache) : M (N * PhiCache) :=
  resolveRec 65 c 0 flags cache.

(** What [distributeFlagCondRec] does with a rebuilt node. *)
Definition distributeRule (expr : Expr) (result : N) (cache : PhiCache) : M (N * PhiCache) :=
  if decide (op expr = ExprOp.FlagCond) then
    cond ← gets (fun f => exprAt f result);
    flags ← gets (fun f => exprAt f (operand cond 0));
    if decide (op flags <> ExprOp.FlagDef) then
      '(resolved, cache) ← resolve (operand cond 0) (u8 (immediate cond)) cache;
      mret (if handleValid resolved then resolved else result, cache)
    else mret (result, cache)
  else mret (result, cache).

Definition distributeFlagCondRec (id : N) (w : Memo * PhiCache) : M (N * (Memo * PhiCache)) :=
  traverse distributeRule (depthOf id) id w.

(** [distributeFlagCondThroughPhi]: one memo and one cache for the whole walk;
    the operations of a block are listed before the block is visited. *)
Definition distributeOp (opId : N) (w : Memo * PhiCache) : M (bool * (Memo * PhiCache)) :=
  xs ← gets (fun f => o ← opAt f opId; operandsOf (tables f) o);
  if decide (xs = []) then mret (false, w)
  else
    '(ys, opChanged, w) ← operandsLoop distributeFlagCondRec xs w;
    if (opChanged : bool) then setOperands opId ys;; mret (true, w) else mret (false, w).

Fixpoint distributeOps (opIds : list N) (w : Memo * PhiCache) : M (bool * (Memo * PhiCache)) :=
  match opIds with
  | [] => mret (false, w)
  | opId :: opIds =>
      '(changed, w) ← distributeOp opId w;
      '(rest, w) ← distributeOps opIds w;
      mret (changed || rest, w)
  end.

Fixpoint distributeBlocks (blockIds : list N) (w : Memo * PhiCache) : M (bool * (Memo * PhiCache)) :=
  match blockIds with
  | [] => mret (false, w)
  | blockId :: blockIds =>
      opIds ← gets (fun f => blockOps <$> blockAtId f blockId);
      '(changed, w) ← distributeOps opIds w;
      '(rest, w) ← distributeBlocks blockIds w;
      mret (changed || rest, w)
  end.

Definition distributeFlagCondThroughPhi : M bool :=
  blockIds ← gets (fun f => Some (blockHandles f));
  '(changed, _) ← distributeBlocks blockIds (∅, ∅);
  mret changed.

(** The whole pass entry: the direct rewrite, then the distribution. *)
Definition foldFlagConditions : M bool :=
  direct ← foldFlagConditionsDirect;
  distributed ← distributeFlagCondThroughPhi;
  mret (direct || distributed).
