(* ===== verification/FoldProps.v ===== *)
(** * Folding is sound and returns

    Every operand a fold replaces keeps its type and takes every strict value it
    had, in every environment of well-typed values, so the two folds commute
    with evaluation; and both return while handles remain. *)
From S2P Require Import Prelude Bits U128 Types Exprs Registers Func.
From S2P Require Import Eval VerifyExpr ValueTypes EvalProps Ceval Flags Rewrite Fold.

(** ** Builders *)

Lemma env_ok_ext f f' env : pool_ext f f' -> env_ok f env -> env_ok f' env.
Proof.
  intros Hx [Hv Hr]. split.
  - intros id v i He. unfold valueAt. rewrite (pool_ext_tables f f' Hx). by apply Hv.
  - intros id v i He. rewrite (pool_ext_registers f f' Hx). by apply Hr.
Qed.

(** A builder that interns a well-typed expression. *)
Lemma intern_spec f e r f' :
  pool_ok f -> exprTyped f e -> intern e f = Some (r, f') ->
  pool_ext f f' /\ pool_ok f' /\ exprAt f' r = Some e.
Proof.
  intros Hok Ht Hi. split_and!; [by eapply intern_ext|by eapply intern_ok|].
  eapply intern_exprAt; [apply Hok|done].
Qed.

Definition constantOf (t : Ty) (value : Z) : Expr :=
  MkExpr ExprOp.Const t [] (if 64 <=? bits t then value else zeroExtend value (bits t)).

Lemma constantOf_typed f t value : valid t = true -> exprTyped f (constantOf t value).
Proof.
  intros Hv. split; [cbn; lia|]. split; [done|]. exists []. split; [done|]. split; [done|].
  cbn. destruct (Z.ltb_spec (bits t) 64); [|by rewrite andb_false_r].
  assert ((64 <=? bits t) = false) as -> by lia. pose proof (valid_bits t Hv).
  rewrite !zeroExtend_mod_le by lia. rewrite mod_pow2_mod_pow2, Z.eqb_refl by lia.
  by rewrite andb_false_r.
Qed.

Lemma constant_spec f t value r f' :
  pool_ok f -> valid t = true -> constant t value f = Some (r, f') ->
  pool_ext f f' /\ pool_ok f' /\ exprAt f' r = Some (constantOf t value).
Proof.
  intros Hok Hv. unfold constant. destruct (_ || _); [|done].
  apply intern_spec; [done|by apply constantOf_typed].
Qed.

(** The value of a constant. *)
Lemma constantOf_value f env r t v :
  exprAt f r = Some (constantOf t (lo v)) -> tooWide t = false -> isFlags t = false -> valid t = true ->
  hi v = 0 -> val_ok t v -> Strict f env r v.
Proof.
  intros Hr Hw Hf Hv Hhi Hok. pose proof (tooWide_bits t Hv Hw) as Hb.
  apply (val_ok_int t v Hf) in Hok.
  apply (Eval_node _ _ _ r _ [] [] v Hr Hw); [done|constructor|done|].
  cbn. f_equal. destruct v as [l h]. cbn in Hhi. subst h. cbn [lo].
  transitivity (mask (MkU128 l 0) (bits t)); [|apply mask_canon; done || lia]. f_equal. f_equal.
  destruct (Z.leb_spec 64 (bits t)); [done|].
  rewrite zeroExtend_mod_le by lia. destruct (canon_narrow (MkU128 l 0) (bits t) ltac:(lia) Hok) as [_ Hu].
  destruct Hok as [_ Hok]. rewrite Hu in Hok. by apply mod_small_fits.
Qed.

(** ** Constants *)

Section Constants.
Context (env : Env).

Definition foldsConstants (f : Function) : Prop := pool_ok f /\ env_ok f env.

Lemma foldsConstants_ext f f' :
  foldsConstants f -> pool_ext f f' -> pool_ok f' -> foldsConstants f'.
Proof. intros [_ He] Hx Hok. split; [done|by eapply env_ok_ext]. Qed.

Lemma constant_simulates f t res r f' c :
  pool_ok f -> env_ok f env -> typeAt f res = Some t -> isFlags t = false ->
  tryEvalConst f res = Ok c -> hi c = 0 -> constant t (lo c) f = Some (r, f') ->
  pool_ext f f' /\ pool_ok f' /\ Simulates f' env res r.
Proof.
  intros Hok Henv Ht Hf Hc Hhi Hr.
  apply typeAt_Some in Ht as (e & He & <-).
  pose proof (exprVerifies_typed f res e (pool_ok_verifies f Hok res e He)) as (_ & Hv & _).
  destruct (constant_spec f (type e) (lo c) r f' Hok Hv Hr) as (Hx & Hok' & Hr').
  split_and!; [done|done|]. pose proof (exprAt_ext f f' res e (pool_ext_grows _ _ Hx) He) as He'.
  exists (type e). split; [|split]; [apply typeAt_Some; by exists e|apply typeAt_Some; by eexists|].
  intros v Hsv.
  assert (Strict f env res v) as Hsv0.
  { eapply (Eval_shrinks _ f f'); [done|by apply pool_ext_grows| |done].
    apply hasExpr_exprAt. by exists e. }
  pose proof (evalConstRec_agrees 257 f env res 0 v c Hok Henv Hsv0 Hc) as ->.
  destruct (Eval_val_ok _ _ _ _ _ Hok (counted_strict f) Henv Hsv0) as (e' & He2 & Hvo & _ & Hw).
  simplify_eq. by apply (constantOf_value f' env r (type e) v).
Qed.

Lemma foldConstantsRule_sound : rule_sound pool_ext foldConstantsRule env foldsConstants.
Proof.
  intros f id e ys res s r s' f' HI He Hys Hr. assert (hasExpr f res = true) as Hh by (apply hasExpr_exprAt; by eexists).
  assert (forall fin, Some (res, s, f) = Some (r, s', fin) ->
    foldsConstants fin /\ pool_ext f fin /\ Simulates fin env res r) as Hkeep.
  { intros fin [= <- <- <-]. split; [done|]. split; [done|by apply Simulates_refl]. }
  unfold foldConstantsRule. destruct (_ =? _)%nat; [apply Hkeep|].
  destruct (isFlags (type e)) eqn:Hf; [apply Hkeep|].
  rewrite M_bind_Some. intros (folded & f1 & Hfold & H).
  destruct (tryEvalConst f res) as [c| |] eqn:Hc; [| |done]; injection Hfold as <- <-; [|by apply Hkeep].
  destruct (Z.eqb_spec (hi c) 0) as [Hhi|_]; [|by apply Hkeep].
  apply M_bind_Some in H as (r1 & f2 & Hr1 & [= <- <- <-]). destruct HI as [Hok Henv].
  destruct (constant_simulates f (type e) res r1 f2 c) as (Hx & Hok' & Hs); try done.
  { apply typeAt_Some. by eexists. }
  split; [by eapply (foldsConstants_ext f)|]. by split.
Qed.

Lemma foldConstants_rebuild f id e ys r f' :
  foldsConstants f -> exprAt f id = Some e -> Forall2 (sameType f) (operands e) ys ->
  intern (withOperands e ys) f = Some (r, f') -> foldsConstants f'.
Proof.
  intros HI He Hys Hi.
  destruct (intern_spec f (withOperands e ys) r f') as (Hx & Hok & _); [apply HI| |done|].
  - eapply withOperands_typed; [apply HI|done..].
  - by eapply foldsConstants_ext.
Qed.

Lemma foldConstantsExpr_sound f id r f' :
  pool_ok f -> env_ok f env -> hasExpr f id = true -> foldConstantsExpr id f = Some (r, f') ->
  foldsConstants f' /\ pool_ext f f' /\ Simulates f' env id r.
Proof.
  intros Hok Henv Hid. unfold foldConstantsExpr, foldConstantsRec. rewrite M_bind_Some.
  intros ([r1 m] & f1 & H & [= <- <-]).
  apply M_bind_Some in H as ([r2 [m2 []]] & f2 & H & [= <- <- <-]).
  eapply (traverse_pool foldConstantsRule env foldsConstants); [by intros ? []
    |exact foldConstants_rebuild|exact foldConstantsRule_sound|done..|exact H].
Qed.
End Constants.

(** ** Comparisons built over known operands *)

(** The operations the flag rules build. *)
Definition plainBinary (o : ExprOp) : bool :=
  match o with
  | ExprOp.Add | ExprOp.Sub | ExprOp.And | ExprOp.Or | ExprOp.CmpEq | ExprOp.CmpNe
  | ExprOp.CmpLtU | ExprOp.CmpLeU | ExprOp.CmpLtS | ExprOp.CmpLeS => true
  | _ => false
  end.

Definition plainWidth (o : ExprOp) (w : Z) : Z :=
  match o with ExprOp.Add | ExprOp.Sub | ExprOp.And | ExprOp.Or => w | _ => 1 end.

(** Their values on unsigned integers of [w] bits. *)
Definition plainValue (o : ExprOp) (w x y : Z) : Z :=
  match o with
  | ExprOp.Add => (x + y) mod 2 ^ w
  | ExprOp.Sub => (x - y) mod 2 ^ w
  | ExprOp.And => Z.land x y
  | ExprOp.Or => Z.lor x y
  | ExprOp.CmpEq => Z.b2z (x =? y)
  | ExprOp.CmpNe => Z.b2z (negb (x =? y))
  | ExprOp.CmpLtU => Z.b2z (x <? y)
  | ExprOp.CmpLeU => Z.b2z (x <=? y)
  | ExprOp.CmpLtS => Z.b2z (signed w x <? signed w y)
  | _ => Z.b2z (signed w x <=? signed w y)
  end.

Lemma integer_facts w :
  1 <= w <= 64 -> valid (integer w) = true /\ bits (integer w) = w /\ isFlags (integer w) = false /\
    tooWide (integer w) = false.
Proof.
  intros Hw. assert (u16 w = w) as Hu by (unfold u16; apply Z.mod_small; lia).
  unfold valid, integer, bits, isFlags, tooWide, kMaxBits. cbn. rewrite Hu.
  split_and!; try done; try lia. unfold bits. cbn. lia.
Qed.

Lemma fits_b2z b : fits 1 (Z.b2z b).
Proof. unfold fits. destruct b; cbn; lia. Qed.

Lemma plainValue_fits o w x y :
  plainBinary o = true -> 1 <= w -> fits w x -> fits w y -> fits (plainWidth o w) (plainValue o w x y).
Proof.
  intros Ho Hw Hx Hy. unfold plainValue, plainWidth.
  destruct o; try done; try apply fits_b2z; try (apply fits_mod; lia).
  - apply fits_land_l; [lia|done].
  - apply fits_lor; [lia|done..].
Qed.

Lemma narrow_canon w x : 1 <= w <= 64 -> fits w x -> canon w (MkU128 x 0).
Proof. intros Hw Hx. apply canon_word; [lia|done|by apply (fits_weaken w); [|lia]]. Qed.

Lemma uval_narrow x : uval (MkU128 x 0) = x.
Proof. unfold uval. cbn. lia. Qed.

Lemma evalOp_plain o w x y xs :
  plainBinary o = true -> 1 <= w <= 64 -> fits w x -> fits w y ->
  evalOp (MkExpr o (integer (plainWidth o w)) xs 0) [integer w; integer w] [MkU128 x 0; MkU128 y 0]
  = Ok (MkU128 (plainValue o w x y) 0).
Proof.
  intros Ho Hw Hx Hy. pose proof (integer_facts w Hw) as (_ & Hb & _).
  pose proof (narrow_canon w x Hw Hx) as Hcx. pose proof (narrow_canon w y Hw Hy) as Hcy.
  destruct (cmpU_spec (MkU128 x 0) (MkU128 y 0)) as (Hltu & Hleu & _); [apply Hcx|apply Hcy|].
  destruct (cmpS_spec (MkU128 x 0) (MkU128 y 0) w) as [Hlts Hles]; [lia|done..|].
  rewrite !uval_narrow in *. unfold evalOp, argAt, plainWidth, plainValue.
  assert (forall v z, canon w v -> uval v = z -> fits w z -> v = MkU128 z 0) as Hval.
  { intros v z Hc Hv Hz. apply uval_inj; [apply Hc|exact (proj1 (narrow_canon w z Hw Hz))|by rewrite uval_narrow]. }
  destruct o; try done; cbn [op type bits default lookup list_lookup fmap option_fmap option_map
    ofOption mbind Res_bind id lo hi] in *; rewrite ?Hb; cbn [lookup list_lookup option_map ofOption mbind Res_bind from_option id lo hi];
    try (by rewrite ?Hltu, ?Hleu, ?Hlts, ?Hles).
  - f_equal. apply Hval; [by apply canon_add; lia| |by apply fits_mod; lia].
    rewrite uval_add, !uval_narrow by (lia || apply Hcx || apply Hcy). done.
  - f_equal. apply Hval; [by apply canon_sub; lia| |by apply fits_mod; lia].
    rewrite uval_sub, !uval_narrow by (lia || apply Hcx || apply Hcy). done.
  - f_equal. apply mask_canon; [lia|]. unfold and128. cbn. apply narrow_canon; [done|].
    apply fits_land_l; [lia|done].
  - f_equal. apply mask_canon; [lia|]. unfold or128. cbn. apply narrow_canon; [done|].
    apply fits_lor; [lia|done..].
  - change (0 =? 0) with true. by rewrite andb_true_r.
  - change (negb (0 =? 0)) with false. by rewrite orb_false_r.
Qed.

(** ** Growth without flag nodes *)

Lemma intern_new f e r f' id e' :
  intern e f = Some (r, f') -> exprAt f' id = Some e' -> exprAt f id = Some e' \/ e' = e.
Proof.
  intros (_ & [[_ ->]|(_ & _ & _ & ->)])%intern_Some; [by left|].
  intros [[Hl|[_ Hl] ]%lookup_app_Some Hv]%vget_Some; [left; by apply vget_Some|right].
  by apply list_lookup_singleton_Some in Hl as [_ ?].
Qed.

Definition isFlagNode (e : Expr) : bool :=
  match op e with ExprOp.FlagDef | ExprOp.FlagCond => true | _ => false end.

Definition plain_ext (f f' : Function) : Prop :=
  pool_ext f f' /\
  forall id e, exprAt f' id = Some e -> isFlagNode e = true -> exprAt f id = Some e.

#[export] Instance plain_ext_po : PreOrder plain_ext.
Proof.
  split; [by split|]. intros f g h [Hg Hfg] [Hh Hgh]. split; [by transitivity g|].
  intros id e He Hn. auto.
Qed.

Lemma intern_plain f e r f' :
  intern e f = Some (r, f') -> isFlagNode e = false -> plain_ext f f'.
Proof.
  intros Hi Hn. split; [by eapply intern_ext|]. intros id e' He' Hn'.
  destruct (intern_new f e r f' id e' Hi He') as [?|Heq]; [done|]. rewrite Heq in Hn'. congruence.
Qed.

(** ** Building over known operands *)

Section Building.
(** [P x y] says which values the operands of the flag bundle take. *)
Context (env : Env) (P : Z -> Z -> Prop).

(** [id] is an integer of [w] bits with the value [g] gives. *)
Definition Yields (f : Function) (id : N) (w : Z) (g : Z -> Z -> Z) : Prop :=
  typeAt f id = Some (integer w) /\
  forall x y, P x y -> fits w (g x y) /\ Strict f env id (MkU128 (g x y) 0).

Lemma Yields_ext f f' id w g : plain_ext f f' -> Yields f id w g -> Yields f' id w g.
Proof.
  intros [Hx%pool_ext_grows _] [Ht H]. split; [by eapply typeAt_ext|].
  intros x y Hp. destruct (H x y Hp). split; [done|by eapply Eval_grows].
Qed.

(** The builder [m], run in a verified pool with room for [k] expressions,
    returns; and whenever it returns it has built such an expression. *)
Definition Builds (f : Function) (m : M N) (k : nat) (w : Z) (g : Z -> Z -> Z) : Prop :=
  pool_ok f ->
  ((N.of_nat (exprCount f + k) <= kInvalidIndex)%N ->
    exists r f', m f = Some (r, f') /\ (exprCount f' <= exprCount f + k)%nat) /\
  forall r f', m f = Some (r, f') -> plain_ext f f' /\ pool_ok f' /\ Yields f' r w g.

Lemma Builds_bind f m c k w g k' w' g' :
  Builds f m k w g ->
  (forall z f1, plain_ext f f1 -> Yields f1 z w g -> Builds f1 (c z) k' w' g') ->
  Builds f (m ≫= c) (k + k') w' g'.
Proof.
  intros Hm Hk Hok. destruct (Hm Hok) as [Htot Hval]. split.
  - intros Hroom. destruct Htot as (z & f1 & Hz & Hc1); [lia|].
    destruct (Hval z f1 Hz) as (Hx & Hok1 & Hy). destruct (Hk z f1 Hx Hy Hok1) as [Htot' _].
    destruct Htot' as (r & f2 & Hr & Hc2); [lia|]. exists r, f2. split; [|lia].
    apply M_bind_Some. by exists z, f1.
  - intros r f' (z & f1 & Hz & H)%M_bind_Some.
    destruct (Hval z f1 Hz) as (Hx & Hok1 & Hy). destruct (Hk z f1 Hx Hy Hok1) as [_ Hval'].
    destruct (Hval' r f' H) as (Hx' & ? & ?). split_and!; [by transitivity f1..|done|done].
Qed.

Lemma Builds_value f m k w g k' g' :
  Builds f m k w g -> (k <= k')%nat -> (forall x y, P x y -> g x y = g' x y) -> Builds f m k' w g'.
Proof.
  intros Hm Hle Heq Hok. destruct (Hm Hok) as [Htot Hval]. split.
  - intros Hroom. destruct Htot as (r & f' & Hr & Hc); [lia|]. exists r, f'. split; [done|lia].
  - intros r f' H. destruct (Hval r f' H) as (? & ? & Ht & Hv).
    split_and!; [done..|]. split; [done|]. intros x y Hp. rewrite <-Heq by done. by apply Hv.
Qed.

(** Interning a well-typed expression that is no flag node. *)
Lemma intern_builds f m e w g :
  m f = intern e f -> exprTyped f e -> isFlagNode e = false -> type e = integer w ->
  (forall r f', plain_ext f f' -> exprAt f' r = Some e ->
     forall x y, P x y -> fits w (g x y) /\ Strict f' env r (MkU128 (g x y) 0)) ->
  Builds f m 1 w g.
Proof.
  intros Hm Ht Hn Hw Hg Hok. rewrite Hm. split.
  - intros Hroom. destruct (intern_total f e Hok Ht) as (r & f' & Hr & _); [unfold exprCount in Hroom; lia|].
    exists r, f'. split; [done|by eapply intern_count].
  - intros r f' H. destruct (intern_spec f e r f' Hok Ht H) as (Hx & Hok' & Hr).
    pose proof (intern_plain f e r f' H Hn) as Hp. split_and!; [apply Hp..|done|].
    split; [|by eapply Hg]. apply typeAt_Some. by exists e.
Qed.

Lemma binary_intern f o x y w :
  plainBinary o = true -> typeAt f x = Some (integer w) ->
  binary o x y f = intern (MkExpr o (integer (plainWidth o w)) [x; y] 0) f.
Proof.
  intros Ho Hx. unfold binary, gets, mbind, M_bind.
  destruct o; try done; cbn [info minArity maxArity infoResult Nat.leb andb assertion];
    (destruct (decide _) as [Hd|Hd]; [try discriminate Hd|try by destruct Hd]); try done;
    unfold plainWidth; by rewrite Hx.
Qed.

Lemma binary_builds f o x y w g h :
  Yields f x w g -> Yields f y w h -> plainBinary o = true -> 1 <= w <= 64 ->
  Builds f (binary o x y) 1 (plainWidth o w) (fun a b => plainValue o w (g a b) (h a b)).
Proof.
  intros [Hx Hvx] [Hy Hvy] Ho Hw. pose proof (integer_facts w Hw) as (Hv & _ & _ & _).
  assert (1 <= plainWidth o w <= 64) as Hpw by (unfold plainWidth; destruct o; lia).
  pose proof (integer_facts _ Hpw) as (Hpv & _ & _ & Hptw).
  assert (mapM (typeAt f) [x; y] = Some [integer w; integer w]) as Hts
    by (cbn; rewrite Hx; cbn; by rewrite Hy).
  assert (typeEq (integer w) (integer w) = true) as Hte
    by (rewrite typeEq_spec; by apply bool_decide_eq_true).
  eapply intern_builds; [by eapply binary_intern| |by destruct o|done|].
  - split; [destruct o; done || (cbn; lia)|]. split; [done|].
    exists [integer w; integer w]. split; [exact Hts|].
    split; destruct o; try done; unfold resultRuleOk, opType0, opType1; cbn; by rewrite ?Hte.
  - intros r f' [Hext _] Hr a b Hp. destruct (Hvx a b Hp) as [Hfx Hsx], (Hvy a b Hp) as [Hfy Hsy].
    split; [apply plainValue_fits; done || lia|].
    apply (Eval_node _ _ _ r (MkExpr o (integer (plainWidth o w)) [x; y] 0) [integer w; integer w]
      [MkU128 (g a b) 0; MkU128 (h a b) 0]); try done.
    + eapply mapM_typeAt_ext; [by apply pool_ext_grows|done].
    + repeat constructor; (eapply Eval_grows; [by apply pool_ext_grows|done]).
    + unfold strictNode. by destruct o.
    + rewrite <-(evalOp_plain o w (g a b) (h a b) [x; y]) by done. unfold evalNode. by destruct o.
Qed.

Lemma constant_builds f w z :
  1 <= w <= 64 -> fits w z -> Builds f (constant (integer w) z) 1 w (fun _ _ => z).
Proof.
  intros Hw Hz. pose proof (integer_facts w Hw) as (Hv & Hb & Hf & Htw).
  eapply (intern_builds f _ (constantOf (integer w) z)); [|by apply constantOf_typed|done|done|].
  - unfold constant. rewrite Hb. replace (w <=? 128) with true by lia.
    unfold constantOf. by rewrite Hb.
  - intros r f' [Hx _] Hr x y _. split; [done|].
    apply (constantOf_value f' env r (integer w) (MkU128 z 0)); try done.
    unfold val_ok. rewrite Hf, Hb. by apply narrow_canon.
Qed.

Lemma boolean_builds f b : Builds f (boolean b) 1 1 (fun _ _ => Z.b2z b).
Proof.
  assert (boolean b = constant (integer 1) (Z.b2z b)) as -> by (by destruct b).
  apply constant_builds; [lia|apply fits_b2z].
Qed.

(** A rule either builds the condition, from at most six expressions, or gives
    up with an invalid handle. *)
Definition Rewrites (f : Function) (m : M N) (g : Z -> Z -> Z) : Prop :=
  m = invalidExpr \/ Builds f m 6 1 g.
End Building.

Ltac build_term :=
  lazymatch goal with
  | |- Builds _ _ _ (_ ≫= _) _ _ _ =>
      eapply Builds_bind; [build_term|intros ? ? ? ?; build_term]
  | |- Builds ?env ?P ?f (binary ?o _ _) _ _ _ =>
      eapply (binary_builds env P f o); [eauto using Yields_ext|eauto using Yields_ext|done|cbn; lia]
  | |- Builds _ _ _ (constant _ _) _ _ _ => apply constant_builds; [lia|apply fits_0; lia]
  | |- Builds _ _ _ (boolean _) _ _ _ => apply boolean_builds
  end.

(** Build step by step; the goal left compares the values. *)
Ltac build := eapply Builds_value; [build_term|cbn; lia|].

Lemma signed_0 w : 1 <= w -> signed w 0 = 0.
Proof. intros Hw. unfold signed. pose proof (pow2_pos (w - 1)). by if_true. Qed.

Lemma b2z_and a b : Z.land (Z.b2z a) (Z.b2z b) = Z.b2z (a && b).
Proof. by destruct a, b. Qed.
Lemma b2z_or a b : Z.lor (Z.b2z a) (Z.b2z b) = Z.b2z (a || b).
Proof. by destruct a, b. Qed.

Section Rules.
Context (env : Env) (P : Z -> Z -> Prop) (f : Function) (flags : Expr).
Context (w : Z) (Hfw : flagDefWidth (immediate flags) = w) (Hw : 1 <= w <= 64) (HP : forall x y, P x y -> fits w x /\ fits w y).

Lemma rewriteSub_builds a b c :
  operands flags = [a; b] -> Yields env P f a w (fun x _ => x) -> Yields env P f b w (fun _ y => y) ->
  Rewrites env P f (rewriteSub flags c) (fun x y => Z.b2z (evalCondition c (flagSub w x y 1))).
Proof using Type*.
  intros Hops Ha Hb. unfold rewriteSub, operand. rewrite Hops. cbn [lookup list_lookup default from_option id].
  rewrite Hfw. destruct c as [c|]; [|by left].
  destruct c; try (by left); right; build; intros x y Hp; destruct (HP x y Hp);
    rewrite sub_conditions by done; try done;
    cbn [plainValue plainWidth subCondition]; by rewrite signed_0 by lia.
Qed.

Lemma rewriteAdd_builds a b c :
  operands flags = [a; b] -> Yields env P f a w (fun x _ => x) -> Yields env P f b w (fun _ y => y) ->
  Rewrites env P f (rewriteAdd flags c) (fun x y => Z.b2z (evalCondition c (flagAdd w x y 0))).
Proof using Type*.
  intros Hops Ha Hb. unfold rewriteAdd, operand. rewrite Hops. cbn [lookup list_lookup default from_option id].
  rewrite Hfw. destruct c as [c|]; [|by left].
  destruct c; try (by left); right; build; intros x y Hp; destruct (HP x y Hp);
    rewrite flagAdd_spec, evalCondition_nzcv by (done || lia); unfold conditionOn; try done;
    cbn [plainValue plainWidth]; rewrite ?Z.add_0_r, ?carry_compare, ?signed_0 by (done || lia);
    try done; rewrite ?b2z_and, ?b2z_or; f_equal; lia.
Qed.

(** The rule for "unsigned less or equal" is wrong, see [logical_lower_same_wrong]. *)
Lemma rewriteLogical_builds a c :
  c <> Some ConditionCode.UnsignedLessEqual -> operands flags = [a] -> Yields env P f a w (fun x _ => x) ->
  Rewrites env P f (rewriteLogical flags c) (fun x y => Z.b2z (evalCondition c (flagLogical w x))).
Proof using Type*.
  intros Hc Hops Ha. unfold rewriteLogical, operand. rewrite Hops. cbn [lookup list_lookup default from_option id].
  rewrite Hfw. destruct c as [c|]; [|by left].
  destruct c; try done; right; build; intros x y Hp; destruct (HP x y Hp);
    rewrite flagLogical_spec, evalCondition_nzcv by (done || lia); unfold conditionOn; try done;
    cbn [plainValue plainWidth]; rewrite ?signed_0 by lia; try done;
    rewrite ?b2z_and, ?b2z_or; f_equal; lia.
Qed.

Lemma onlyAlways_builds c g :
  (forall x y, P x y -> forall b, c = Some ConditionCode.Always /\ b = true \/
     c = Some ConditionCode.Never /\ b = false -> g x y = Z.b2z b) ->
  Rewrites env P f (onlyAlways c) g.
Proof using Type*.
  intros Hg. unfold onlyAlways. destruct c as [[]|]; try (by left); right; build; intros x y Hp;
    symmetry; apply (Hg x y Hp); auto.
Qed.
End Rules.

(** ** Flag conditions *)

(** What the flag rules assume of a pool and the verifier does not check: a
    bundle's width is its operands', at most 64; and, since the rule for "ls" on
    a logical bundle is wrong, such conditions and bundles do not both occur. *)
Definition flagNodeOk (logical : bool) (f : Function) (e : Expr) : Prop :=
  match op e with
  | ExprOp.FlagDef =>
      let sized := 1 <= flagDefWidth (immediate e) <= 64 /\
        Forall (fun x => typeAt f x = Some (integer (flagDefWidth (immediate e)))) (operands e) in
      match flagDefOp (immediate e) with
      | Some FlagOp.Add | Some FlagOp.Sub => sized
      | Some FlagOp.Logical => sized /\ logical = true
      | _ => True
      end
  | ExprOp.FlagCond =>
      logical = true -> enumAt conditionCodes (immediate e) <> Some ConditionCode.UnsignedLessEqual
  | _ => True
  end.

Definition flagNodesOk (logical : bool) (f : Function) : Prop :=
  forall id e, exprAt f id = Some e -> flagNodeOk logical f e.

Lemma flagNodeOk_grows logical f f' e : grows f f' -> flagNodeOk logical f e -> flagNodeOk logical f' e.
Proof.
  intros Hg. unfold flagNodeOk.
  assert (forall t, Forall (fun x => typeAt f x = Some t) (operands e) ->
                    Forall (fun x => typeAt f' x = Some t) (operands e)).
  { intros t Hf. eapply Forall_impl; [exact Hf|]. intros x Hx. by eapply typeAt_ext. }
  destruct (op e); try done. destruct (flagDefOp _) as [[]|]; try done; intuition.
Qed.

Lemma flagNodesOk_plain logical f f' : plain_ext f f' -> flagNodesOk logical f -> flagNodesOk logical f'.
Proof.
  intros [Hx Hp] Hf id e He. destruct (isFlagNode e) eqn:Hn.
  - apply (flagNodeOk_grows _ f); [by apply pool_ext_grows|]. eauto.
  - unfold flagNodeOk. unfold isFlagNode in Hn. by destruct (op e).
Qed.

Lemma flagNodeOk_withOperands logical f e ys :
  Forall2 (sameType f) (operands e) ys -> flagNodeOk logical f e ->
  flagNodeOk logical f (withOperands e ys).
Proof.
  intros Hys. unfold flagNodeOk. cbn.
  assert (forall t, Forall (fun x => typeAt f x = Some t) (operands e) ->
                    Forall (fun x => typeAt f x = Some t) ys).
  { intros t. induction Hys as [|x y xs ys (t' & Hx & Hy) _ IH]; inversion 1; constructor;
      [congruence|by apply IH]. }
  destruct (op e); try done. destruct (flagDefOp _) as [[]|]; try done; intuition.
Qed.

Section FlagConditions.
Context (env : Env) (logical : bool).

Definition foldsFlags (f : Function) : Prop :=
  pool_ok f /\ env_ok f env /\ flagNodesOk logical f.

Lemma foldsFlags_plain f f' : foldsFlags f -> plain_ext f f' -> pool_ok f' -> foldsFlags f'.
Proof.
  intros (_ & He & Hn) Hx Hok. split; [done|]. split; [by eapply env_ok_ext; [apply Hx|]|].
  by eapply flagNodesOk_plain.
Qed.

Lemma foldFlags_rebuild f id e ys r f' :
  foldsFlags f -> exprAt f id = Some e -> Forall2 (sameType f) (operands e) ys ->
  intern (withOperands e ys) f = Some (r, f') -> foldsFlags f'.
Proof.
  intros (Hok & Henv & Hn) He Hys Hi.
  destruct (intern_spec f (withOperands e ys) r f') as (Hx & Hok' & _); [done|by eapply withOperands_typed|done|].
  split; [done|]. split; [by eapply env_ok_ext|]. intros id' e' He'.
  apply (flagNodeOk_grows _ f); [by apply pool_ext_grows|].
  destruct (intern_new f _ r f' id' e' Hi He') as [?|Heq]; [by eapply Hn|].
  rewrite Heq. apply flagNodeOk_withOperands; [done|by eapply Hn].
Qed.

(** The operands of a verified bundle, with their strict values. *)
Lemma flag_operand f x w v :
  foldsFlags f -> 1 <= w <= 64 -> typeAt f x = Some (integer w) -> Strict f env x v ->
  v = MkU128 (lo v) 0 /\ fits w (lo v).
Proof.
  intros (Hok & Henv & _) Hw (e & He & Ht)%typeAt_Some Hv.
  destruct (Eval_val_ok _ _ _ _ _ Hok (counted_strict f) Henv Hv) as (e' & He' & Hvo & _).
  simplify_eq. rewrite Ht in Hvo. pose proof (integer_facts w Hw) as (_ & Hb & Hf & _).
  apply val_ok_int in Hvo; [|done]. rewrite Hb in Hvo.
  destruct (canon_narrow v w ltac:(lia) Hvo) as [Hh Hu]. destruct Hvo as [_ Hfit]. rewrite Hu in Hfit.
  split; [|done]. destruct v as [l h]. cbn in *. by subst h.
Qed.

(** Masking an operand that fits does nothing. *)
Lemma land_lowMask w x : 1 <= w <= 64 -> fits w x -> Z.land x (lowMask w) = x.
Proof. intros Hw Hx. rewrite lowMask_ones, Z.min_l, Z.land_ones by lia. by apply mod_small_fits. Qed.

(** What the values of a bundle's operands make of its condition. *)
Definition conditionOf (f : Function) (fl : N) (c : option ConditionCode) (v : ConcreteValue) : Prop :=
  exists va, Strict f env fl va /\ v = boolValue (evalCondition c (lo va)).

(** A rule's result stands for the condition. *)
Definition Condition (f f1 : Function) (fl : N) (c : option ConditionCode) (r : N) : Prop :=
  r = kInvalidIndex /\ f1 = f \/
  plain_ext f f1 /\ pool_ok f1 /\ typeAt f1 r = Some booleanType /\
  forall v, conditionOf f fl c v -> Strict f1 env r v.

(** Whatever [m] gives stands for the condition. *)
Definition Stands (f : Function) (fl : N) (c : option ConditionCode) (m : M N) : Prop :=
  forall r f1, m f = Some (r, f1) -> Condition f f1 fl c r.

Lemma Rewrites_Stands f fl c m (P : Z -> Z -> Prop) g :
  pool_ok f -> Rewrites env P f m (fun x y => Z.b2z (evalCondition c (g x y))) ->
  (forall va, Strict f env fl va -> exists x y, P x y /\ lo va = g x y) -> Stands f fl c m.
Proof.
  intros Hok [-> |Hm] HP; [intros r f1 [= <- <-]; by left|].
  destruct (Hm Hok) as [_ Hval]. intros r f1 H. right.
  destruct (Hval r f1 H) as (Hx & Hok1 & Ht & Hv). split_and!; [apply Hx..|done|done|].
  intros v (va & Hva & ->). destruct (HP va Hva) as (x & y & Hp & Hlo). rewrite Hlo.
  by destruct (Hv x y Hp).
Qed.

Lemma bundle_values f fl flags va :
  exprAt f fl = Some flags -> op flags = ExprOp.FlagDef -> Strict f env fl va ->
  exists args, Forall2 (Strict f env) (operands flags) args /\
    evalFlagDef (flagDefOp (immediate flags)) (flagDefWidth (immediate flags)) args = Some (lo va).
Proof.
  intros He Ho Hv. destruct (Eval_inv _ _ _ _ _ _ Hv He) as (ts & args & _ & _ & Hargs & _ & Hn).
  exists args. split; [done|]. unfold evalNode, evalOp in Hn. rewrite Ho in Hn.
  apply Res_bind_Ok in Hn as (r & Hr%ofOption_Ok & [= <-]). done.
Qed.

Lemma bundle_arity f fl flags :
  pool_ok f -> exprAt f fl = Some flags -> op flags = ExprOp.FlagDef ->
  operandCount flags = flagDefArity (flagDefOp (immediate flags)).
Proof.
  intros Hok He Ho. destruct (exprVerifies_typed f fl flags (pool_ok_verifies f Hok fl flags He))
    as (_ & _ & ts & _ & _ & Hr).
  unfold opRuleOk in Hr. rewrite Ho in Hr. apply andb_true_iff in Hr as [Hr _]. by apply Nat.eqb_eq.
Qed.

Lemma pair_operands (l : list N) : length l = 2%nat -> exists a b, l = [a; b].
Proof. destruct l as [|a [|b [|]]]; try done. by exists a, b. Qed.

(** The values of a bundle's one or two operands. *)
Definition operandValues (f : Function) (xs : list N) (x y : Z) : Prop :=
  match xs with
  | [a] => Strict f env a (MkU128 x 0) /\ y = 0
  | [a; b] => Strict f env a (MkU128 x 0) /\ Strict f env b (MkU128 y 0)
  | _ => False
  end.

Definition sizedBundle (f : Function) (flags : Expr) (w : Z) : Prop :=
  flagDefWidth (immediate flags) = w /\ 1 <= w <= 64 /\
  Forall (fun x => typeAt f x = Some (integer w)) (operands flags).

Lemma operandValues_fit f flags w x y :
  foldsFlags f -> sizedBundle f flags w -> operandValues f (operands flags) x y -> fits w x /\ fits w y.
Proof.
  intros HI (_ & Hw & Hts) Hp. destruct (operands flags) as [|a [|b [|]]]; try done;
    rewrite !Forall_cons in Hts; destruct Hp as [Hx Hy].
  - subst y. destruct Hts as (Ha & _). split; [|by apply fits_0; lia]. by eapply (flag_operand f a w (MkU128 x 0)).
  - destruct Hts as (Ha & Hb & _).
    split; [by eapply (flag_operand f a w (MkU128 x 0))|by eapply (flag_operand f b w (MkU128 y 0))].
Qed.

(** A strict value of the bundle comes from strict values of its operands. *)
Lemma bundle_operands f fl flags w va :
  foldsFlags f -> exprAt f fl = Some flags -> op flags = ExprOp.FlagDef -> sizedBundle f flags w ->
  (operandCount flags = 1 \/ operandCount flags = 2)%nat -> Strict f env fl va ->
  exists x y, operandValues f (operands flags) x y /\
    evalFlagDef (flagDefOp (immediate flags)) w
      (match operands flags with [_] => [MkU128 x 0] | _ => [MkU128 x 0; MkU128 y 0] end) = Some (lo va).
Proof.
  intros HI He Ho (<- & Hw & Hts) Hc Hva.
  destruct (bundle_values f fl flags va He Ho Hva) as (args & Hargs & Hf).
  unfold operandCount in Hc. destruct (operands flags) as [|a [|b [|]]]; cbn in Hc; try lia;
    rewrite !Forall_cons in Hts; inversion Hargs as [|? u ? us Hu Hus]; subst.
  - inversion Hus; subst. destruct Hts as (Ha & _). destruct (flag_operand f a _ u HI Hw Ha Hu) as [Eu _].
    exists (lo u), 0. cbn [operandValues]. rewrite <-Eu. done.
  - destruct Hts as (Ha & Hb & _). inversion Hus as [|? u' ? us' Hu' Hus']; subst. inversion Hus'; subst.
    destruct (flag_operand f a _ u HI Hw Ha Hu) as [Eu _], (flag_operand f b _ u' HI Hw Hb Hu') as [Eu' _].
    exists (lo u), (lo u'). cbn [operandValues]. rewrite <-Eu, <-Eu'. done.
Qed.

Lemma Yields_operand f x w P g :
  typeAt f x = Some (integer w) -> (forall a b, P a b -> fits w (g a b) /\ Strict f env x (MkU128 (g a b) 0)) ->
  Yields env P f x w g.
Proof. by split. Qed.

(** A rule that builds the same value from sized operands stands for the condition. *)
Lemma arithmetic_rule f fl flags w c m g :
  foldsFlags f -> exprAt f fl = Some flags -> op flags = ExprOp.FlagDef -> sizedBundle f flags w ->
  operandCount flags = 2%nat ->
  (forall x y, fits w x -> fits w y ->
     evalFlagDef (flagDefOp (immediate flags)) w [MkU128 x 0; MkU128 y 0] = Some (g x y)) ->
  (forall P a b, (forall x y, P x y -> fits w x /\ fits w y) -> operands flags = [a; b] ->
     Yields env P f a w (fun x _ => x) -> Yields env P f b w (fun _ y => y) ->
     Rewrites env P f m (fun x y => Z.b2z (evalCondition c (g x y)))) ->
  Stands f fl c m.
Proof.
  intros HI He Ho Hs Hc Hg Hm. destruct (pair_operands _ Hc) as (a & b & Hab).
  pose proof (operandValues_fit f flags w) as Hfit. pose proof Hs as (_ & _ & Hts).
  rewrite Hab, !Forall_cons in Hts. destruct Hts as (Hta & Htb & _).
  apply (Rewrites_Stands f fl c m (operandValues f (operands flags)) g); [apply HI| |].
  - apply (Hm _ a b); [intros; by apply Hfit|done|apply Yields_operand; [done|]..];
      intros x y Hp; destruct (Hfit x y HI Hs Hp); rewrite Hab in Hp; by destruct Hp.
  - intros va Hva. destruct (bundle_operands f fl flags w va HI He Ho Hs (or_intror Hc) Hva) as (x & y & Hp & Hf).
    exists x, y. split; [done|]. destruct (Hfit x y HI Hs Hp). rewrite Hab, Hg in Hf by done. congruence.
Qed.

Lemma logical_rule f fl flags w c :
  foldsFlags f -> exprAt f fl = Some flags -> op flags = ExprOp.FlagDef -> sizedBundle f flags w ->
  operandCount flags = 1%nat -> flagDefOp (immediate flags) = Some FlagOp.Logical ->
  c <> Some ConditionCode.UnsignedLessEqual ->
  Stands f fl c (rewriteLogical flags c).
Proof.
  intros HI He Ho Hs Hc Hop Hne. assert (exists a, operands flags = [a]) as [a Ha].
  { clear -Hc. unfold operandCount in Hc. destruct (operands flags) as [|a [|]]; try done. by exists a. }
  pose proof (operandValues_fit f flags w) as Hfit. pose proof Hs as (Hfw & Hw & Hts).
  rewrite Ha, Forall_singleton in Hts.
  apply (Rewrites_Stands f fl c (rewriteLogical flags c) (operandValues f (operands flags))
           (fun x _ => flagLogical w x)); [apply HI| |].
  - apply (rewriteLogical_builds env _ f flags w Hfw Hw) with (a := a); [intros; by apply Hfit|done..|].
    apply Yields_operand; [done|]. intros x y Hp. destruct (Hfit x y HI Hs Hp). rewrite Ha in Hp. by destruct Hp.
  - intros va Hva. destruct (bundle_operands f fl flags w va HI He Ho Hs (or_introl Hc) Hva) as (x & y & Hp & Hf).
    exists x, y. split; [done|]. destruct (Hfit x y HI Hs Hp). rewrite Ha, Hop in Hf. cbn in Hf.
    replace ((1 <=? w) && (w <=? 64)) with true in Hf by lia. injection Hf as <-. by rewrite land_lowMask.
Qed.

(** A rule that only knows the constant conditions. *)
Lemma constant_rule f fl c : pool_ok f -> Stands f fl c (onlyAlways c).
Proof.
  intros Hok.
  apply (Rewrites_Stands f fl c (onlyAlways c) (fun x _ => exists va, Strict f env fl va /\ x = lo va)
    (fun x _ => x)); [done| |intros va Hva; exists (lo va), 0; split; [by exists va|done] ].
  destruct c as [[]|]; try (by left); right;
    (eapply Builds_value; [apply boolean_builds|lia|done]).
Qed.

Lemma rewriteCondition_stands f fl flags c :
  foldsFlags f -> exprAt f fl = Some flags -> op flags = ExprOp.FlagDef ->
  (logical = true -> c <> Some ConditionCode.UnsignedLessEqual) ->
  Stands f fl c (rewriteCondition flags c).
Proof.
  intros HI He Ho Hc. pose proof HI as (Hok & _ & Hn).
  pose proof (bundle_arity f fl flags Hok He Ho) as Har. specialize (Hn fl flags He).
  unfold flagNodeOk in Hn. rewrite Ho in Hn. unfold rewriteCondition.
  set (w := flagDefWidth (immediate flags)) in *.
  destruct (flagDefOp (immediate flags)) as [[]|] eqn:Hop; try (by apply constant_rule);
    [..|by apply (Rewrites_Stands f fl c _ (fun x _ => exists va, Strict f env fl va /\ x = lo va) (fun x _ => x));
        [|left|intros va Hva; exists (lo va), 0; split; [exists va|]] ].
  - apply (arithmetic_rule f fl flags w c (rewriteAdd flags c) (fun x y => flagAdd w x y 0)); try done.
    + rewrite Hop. intros x y Hx Hy. cbn. if_true. by rewrite !land_lowMask by (done || apply (proj1 Hn)).
    + intros P a b HP Hab. apply (rewriteAdd_builds env P f flags w eq_refl (proj1 Hn) HP a b c Hab).
  - apply (arithmetic_rule f fl flags w c (rewriteSub flags c) (fun x y => flagSub w x y 1)); try done.
    + rewrite Hop. intros x y Hx Hy. cbn. if_true. by rewrite !land_lowMask by (done || apply (proj1 Hn)).
    + intros P a b HP Hab. apply (rewriteSub_builds env P f flags w eq_refl (proj1 Hn) HP a b c Hab).
  - destruct Hn as [Hn Hl]. by apply (logical_rule f fl flags w c); auto.
Qed.

Lemma typeAt_handleValid f r ty : typeAt f r = Some ty -> handleValid r = true.
Proof.
  intros H%typeAt_hasExpr. unfold hasExpr in H. apply contains_spec in H as [_ Hne].
  unfold handleValid. by apply negb_true_iff, N.eqb_neq.
Qed.

Lemma flagCond_facts f id e :
  pool_ok f -> exprAt f id = Some e -> op e = ExprOp.FlagCond ->
  type e = booleanType /\ exists fl, operands e = [fl].
Proof.
  intros Hok He Ho.
  destruct (exprVerifies_typed f id e (pool_ok_verifies f Hok id e He)) as (Ha & Hv & ts & _ & Hr & _).
  rewrite Ho in Ha. cbn in Ha. unfold resultRuleOk in Hr. rewrite Ho in Hr. cbn in Hr.
  apply andb_true_iff in Hr as [Hb _]. split.
  - unfold isBoolean in Hb. unfold valid in Hv. destruct (type e) as [eb k l]. cbn in *.
    apply andb_true_iff in Hb as [Hk%bool_decide_eq_true Hb%Z.eqb_eq]. subst k.
    rewrite !andb_true_iff in Hv. unfold booleanType, integer. change (u16 1) with 1. f_equal; cbn in *; lia.
  - unfold operandCount in Ha. destruct (operands e) as [|fl [|]]; cbn in Ha; try lia. by exists fl.
Qed.

(** The condition a verified [FlagCond] evaluates. *)
Lemma flagCond_value f res e fl v :
  exprAt f res = Some e -> op e = ExprOp.FlagCond -> operands e = [fl] -> Strict f env res v ->
  conditionOf f fl (enumAt conditionCodes (immediate e)) v.
Proof.
  intros He Ho Hops Hv. destruct (Eval_inv _ _ _ _ _ _ Hv He) as (ts & args & _ & _ & Hargs & _ & Hn).
  rewrite Hops in Hargs. inversion Hargs as [|? va ? vs Hva Hvs]; subst. inversion Hvs; subst.
  unfold evalNode, evalOp in Hn. rewrite Ho in Hn. cbn in Hn. injection Hn as <-.
  exists va. split; [done|]. by rewrite evalCondition_low.
Qed.

(** The rule keeps the handle, or asks [rewriteCondition] on a bundle. *)
Lemma foldFlagConditionsRule_runs f e ys res s :
  pool_ok f -> exprAt f res = Some (withOperands e ys) ->
  foldFlagConditionsRule e res s f = Some ((res, s), f) \/
  exists fl flags, op e = ExprOp.FlagCond /\ type (withOperands e ys) = booleanType /\ operands (withOperands e ys) = [fl] /\
    exprAt f fl = Some flags /\ op flags = ExprOp.FlagDef /\
    foldFlagConditionsRule e res s f =
      (rewritten ← rewriteCondition flags (enumAt conditionCodes (immediate e));
       mret (if handleValid rewritten then rewritten else res, s)) f.
Proof.
  intros Hok Hr. unfold foldFlagConditionsRule. destruct (decide (op e = ExprOp.FlagCond)) as [Ho|]; [|by left].
  set (cond := withOperands e ys) in *. assert (op cond = ExprOp.FlagCond) as Hoc by done.
  destruct (flagCond_facts f res cond Hok Hr Hoc) as (Ht & fl & Hfl).
  assert (operand cond 0 = fl) as Hof by (unfold operand; by rewrite Hfl).
  assert (exists flags, exprAt f fl = Some flags) as [flags Hflags].
  { pose proof (pool_ok_verifies f Hok res cond Hr) as Hver. unfold exprVerifies in Hver.
    rewrite !andb_true_iff, forallb_forall in Hver. destruct Hver as [[_ Hver] _].
    apply hasExpr_exprAt. rewrite Hfl in Hver. specialize (Hver fl (or_introl eq_refl)).
    by apply andb_true_iff in Hver as [? _]. }
  assert (forall g : Expr -> M (N * unit), (x ← gets (fun f => exprAt f res); g x) f = g cond f) as H1.
  { intros g. unfold mbind, M_bind, gets. by rewrite Hr. }
  assert (forall g : Expr -> M (N * unit), (x ← gets (fun f => exprAt f (operand cond 0)); g x) f = g flags f) as H2.
  { intros g. unfold mbind, M_bind, gets. by rewrite Hof, Hflags. }
  rewrite H1, H2. destruct (decide (op flags = ExprOp.FlagDef)) as [Hfd|]; [|by left]. right. exists fl, flags. done.
Qed.

Lemma foldFlagConditionsRule_sound : rule_sound pool_ext foldFlagConditionsRule env foldsFlags.
Proof.
  intros f id e ys res s r s' f' HI He Hys Hr Hrun. assert (hasExpr f res = true) as Hh by (apply hasExpr_exprAt; by eexists).
  pose proof HI as (Hok & _ & Hn).
  destruct (foldFlagConditionsRule_runs f e ys res s Hok Hr) as [Heq|(fl & flags & Ho & Ht & Hfl & Hflags & Hfd & Heq)];
    rewrite Heq in Hrun.
  { injection Hrun as <- <- <-. split; [done|]. split; [done|by apply Simulates_refl]. }
  apply M_bind_Some in Hrun as (r1 & f1 & Hrw & [= <- <- <-]).
  assert (Stands f fl (enumAt conditionCodes (immediate e)) (rewriteCondition flags (enumAt conditionCodes (immediate e)))) as Hval.
  { apply rewriteCondition_stands; [done..|]. pose proof (Hn id e He) as Hne. unfold flagNodeOk in Hne. by rewrite Ho in Hne. }
  destruct (Hval r1 f1 Hrw) as [[-> ->]|(Hx & Hok1 & Ht1 & Hv1)].
  - split; [done|]. split; [done|by apply Simulates_refl].
  - rewrite (typeAt_handleValid f1 r1 booleanType) by done.
    split; [by eapply foldsFlags_plain|]. pose proof (pool_ext_grows _ _ (proj1 Hx)) as Hg.
    split; [apply Hx|]. exists booleanType. split; [|split; [done|]].
    + eapply typeAt_ext; [done|]. apply typeAt_Some. exists (withOperands e ys). by rewrite Ht.
    + intros v Hv. apply Hv1. change (immediate e) with (immediate (withOperands e ys)).
      eapply flagCond_value; [exact Hr|done|exact Hfl|]. by apply (Eval_shrinks _ f f1).
Qed.

Lemma foldFlagConditionsExpr_sound f id r f' :
  foldsFlags f -> hasExpr f id = true -> foldFlagConditionsExpr id f = Some (r, f') ->
  foldsFlags f' /\ pool_ext f f' /\ Simulates f' env id r.
Proof.
  intros HI Hid. unfold foldFlagConditionsExpr, foldFlagConditionsRec. rewrite M_bind_Some.
  intros ([r1 m] & f1 & H & [= <- <-]).
  apply M_bind_Some in H as ([r2 [m2 []]] & f2 & H & [= <- <- <-]).
  eapply (traverse_pool foldFlagConditionsRule env foldsFlags); [by intros ? []
    |exact foldFlags_rebuild|exact foldFlagConditionsRule_sound|done..|exact H].
Qed.

End FlagConditions.

(** ** Flag folding returns *)

(** What keeps the rules from building ill-typed nodes: the bundles they take
    apart are as wide as their operands, at most 64 bits. *)
Definition flagSized (f : Function) (e : Expr) : Prop :=
  match op e with
  | ExprOp.FlagDef =>
      match flagDefOp (immediate e) with
      | Some FlagOp.Add | Some FlagOp.Sub | Some FlagOp.Logical =>
          1 <= flagDefWidth (immediate e) <= 64 /\
          Forall (fun x => typeAt f x = Some (integer (flagDefWidth (immediate e)))) (operands e)
      | _ => True
      end
  | _ => True
  end.

Definition flagsSized (f : Function) : Prop := forall id e, exprAt f id = Some e -> flagSized f e.

Lemma flagSized_grows f f' e : grows f f' -> flagSized f e -> flagSized f' e.
Proof.
  intros Hg. unfold flagSized. destruct (op e); try done.
  destruct (flagDefOp _) as [[]|]; try done; (intros [Hw H]; split; [done|]; eapply Forall_impl; [exact H|];
    intros x Hx; by eapply typeAt_ext).
Qed.

Lemma flagSized_withOperands f e ys : Forall2 (sameType f) (operands e) ys -> flagSized f e -> flagSized f (withOperands e ys).
Proof.
  intros Hys. unfold flagSized. cbn.
  assert (forall t, Forall (fun x => typeAt f x = Some t) (operands e) -> Forall (fun x => typeAt f x = Some t) ys) as Hts.
  { intros t. induction Hys as [|x y xs ys (t' & Hx & Hy) _ IH]; inversion 1; constructor; [congruence|by apply IH]. }
  destruct (op e); try done. destruct (flagDefOp _) as [[]|]; try done; (intros [Hw H]; split; [done|by apply Hts]).
Qed.

Definition sizedPool (f : Function) : Prop := pool_ok f /\ flagsSized f.

Lemma sizedPool_plain f f' : sizedPool f -> plain_ext f f' -> pool_ok f' -> sizedPool f'.
Proof.
  intros [_ Hn] [Hx Hp] Hok. split; [done|]. intros id e He. destruct (isFlagNode e) eqn:Hf.
  - apply (flagSized_grows f); [by apply pool_ext_grows|]. eauto.
  - unfold flagSized. unfold isFlagNode in Hf. by destruct (op e).
Qed.

Lemma sizedPool_rebuild f id e ys r f' :
  sizedPool f -> exprAt f id = Some e -> Forall2 (sameType f) (operands e) ys ->
  intern (withOperands e ys) f = Some (r, f') -> sizedPool f'.
Proof.
  intros (Hok & Hn) He Hys Hi.
  destruct (intern_spec f (withOperands e ys) r f') as (Hx & Hok' & _); [done|by eapply withOperands_typed|done|].
  split; [done|]. intros id' e' He'. apply (flagSized_grows f); [by apply pool_ext_grows|].
  destruct (intern_new f _ r f' id' e' Hi He') as [?|Heq]; [by eapply Hn|].
  rewrite Heq. apply flagSized_withOperands; [done|by eapply Hn].
Qed.

(** Nothing is known of the values. *)
Definition unknown (x y : Z) : Prop := False.

Lemma Yields_unknown env f x w g : typeAt f x = Some (integer w) -> Yields env unknown f x w g.
Proof. intros Ht. by split. Qed.

Lemma rewriteLogical_built env f flags w a c :
  flagDefWidth (immediate flags) = w -> 1 <= w <= 64 -> operands flags = [a] -> typeAt f a = Some (integer w) ->
  Rewrites env unknown f (rewriteLogical flags c) (fun _ _ => 0).
Proof.
  intros Hfw Hw Hops Ha. pose proof (Yields_unknown env f a w (fun x _ => x) Ha) as Hy.
  unfold rewriteLogical, operand. rewrite Hops. cbn [lookup list_lookup default from_option id]. rewrite Hfw.
  destruct c as [c|]; [|by left]. destruct c; right; build; by intros x y [].
Qed.

(** Every rule, on any condition, builds a boolean or gives up. *)
Lemma rewriteCondition_built env f flags fl c :
  sizedPool f -> exprAt f fl = Some flags -> op flags = ExprOp.FlagDef ->
  exists g, Rewrites env unknown f (rewriteCondition flags c) g.
Proof.
  intros [Hok Hn] He Ho. pose proof (bundle_arity f fl flags Hok He Ho) as Har. specialize (Hn fl flags He).
  unfold flagSized in Hn. rewrite Ho in Hn. unfold rewriteCondition.
  assert (exists g, Rewrites env unknown f (onlyAlways c) g) as Honly.
  { exists (fun _ _ => 0). destruct c as [[]|]; try (by left); right; (eapply Builds_value; [apply boolean_builds|lia|by intros x y []]). }
  assert (forall x y : Z, unknown x y -> fits (flagDefWidth (immediate flags)) x /\ fits (flagDefWidth (immediate flags)) y) as HP
    by by intros x y [].
  destruct (flagDefOp (immediate flags)) as [[]|]; try exact Honly; [..|exists (fun _ _ => 0); by left];
    destruct Hn as [Hw Hts]; eexists.
  - destruct (pair_operands _ Har) as (a & b & Hab). rewrite Hab, !Forall_cons in Hts. destruct Hts as (Ha & Hb & _).
    by apply (rewriteAdd_builds env unknown f flags _ eq_refl Hw HP a b); [|apply Yields_unknown..].
  - destruct (pair_operands _ Har) as (a & b & Hab). rewrite Hab, !Forall_cons in Hts. destruct Hts as (Ha & Hb & _).
    by apply (rewriteSub_builds env unknown f flags _ eq_refl Hw HP a b); [|apply Yields_unknown..].
  - assert (exists a, operands flags = [a]) as [a Ha].
    { clear -Har. unfold operandCount in Har. destruct (operands flags) as [|a [|]]; try done. by exists a. }
    rewrite Ha, Forall_singleton in Hts. by apply (rewriteLogical_built env f flags (flagDefWidth (immediate flags)) a).
Qed.

Lemma foldFlagConditionsRule_returns f id e ys res s :
  sizedPool f -> exprAt f id = Some e -> Forall2 (sameType f) (operands e) ys -> exprAt f res = Some (withOperands e ys) ->
  (N.of_nat (exprCount f + 6) <= kInvalidIndex)%N ->
  exists r s' f', foldFlagConditionsRule e res s f = Some ((r, s'), f') /\ (exprCount f' <= exprCount f + 6)%nat.
Proof.
  intros HI He Hys Hr Hroom.
  destruct (foldFlagConditionsRule_runs f e ys res s (proj1 HI) Hr) as [Heq|(fl & flags & Ho & Ht & Hfl & Hflags & Hfd & Heq)];
    rewrite Heq; [exists res, s, f; split; [done|lia]|].
  destruct (rewriteCondition_built (MkEnv (fun _ => Undefined) (fun _ => Undefined)) f flags fl
    (enumAt conditionCodes (immediate e)) HI Hflags Hfd) as [g [Hinv|Hb]].
  - rewrite Hinv. exists res, s, f. split; [done|lia].
  - destruct (Hb (proj1 HI)) as [Htot _]. destruct (Htot Hroom) as (r & f1 & Hrw & Hc). eexists _, _, f1.
    split; [|exact Hc]. apply M_bind_Some. by exists r, f1.
Qed.

Lemma foldFlagConditionsRule_typed : rule_typed foldFlagConditionsRule sizedPool.
Proof.
  intros f id e ys res s r s' f' HI He Hys Hr Hrun.
  assert (sameType f res res) as Hsame by (exists (type (withOperands e ys)); split; apply typeAt_Some; by eexists).
  destruct (foldFlagConditionsRule_runs f e ys res s (proj1 HI) Hr) as [Heq|(fl & flags & Ho & Ht & Hfl & Hflags & Hfd & Heq)];
    rewrite Heq in Hrun; [injection Hrun as <- <- <-; by split_and!|].
  apply M_bind_Some in Hrun as (r1 & f1 & Hrw & [= <- <- <-]).
  destruct (rewriteCondition_built (MkEnv (fun _ => Undefined) (fun _ => Undefined)) f flags fl
    (enumAt conditionCodes (immediate e)) HI Hflags Hfd) as [g [Hinv|Hb]].
  - rewrite Hinv in Hrw. injection Hrw as <- <-. by split_and!.
  - destruct (Hb (proj1 HI)) as [_ Hval]. destruct (Hval r1 f1 Hrw) as (Hx & Hok1 & Ht1 & _).
    rewrite (typeAt_handleValid f1 r1 (integer 1)) by done. pose proof (pool_ext_grows _ _ (proj1 Hx)) as Hg.
    split_and!; [by eapply sizedPool_plain|done|]. exists booleanType. split; [|done].
    eapply typeAt_ext; [done|]. apply typeAt_Some. exists (withOperands e ys). by rewrite Ht.
Qed.

Lemma foldFlagConditionsExpr_total f id :
  sizedPool f -> hasExpr f id = true ->
  (N.of_nat (exprCount f + 7 * depthOf id) <= kInvalidIndex)%N ->
  exists r f', foldFlagConditionsExpr id f = Some (r, f') /\
    (exprCount f' <= exprCount f + 7 * depthOf id)%nat.
Proof.
  intros HI Hid Hroom.
  destruct (traverse_total foldFlagConditionsRule sizedPool (fun f H => proj1 H)
    sizedPool_rebuild foldFlagConditionsRule_typed 6 foldFlagConditionsRule_returns
    (depthOf id) (depthOf id) (depthOf id) (le_n _) (le_n _) f id (∅, tt) HI)
    as (r & [m []] & f' & H & _ & Hd & _).
  { apply memo_typed_empty. } { intros k [? Hk]. done. } { done. }
  { unfold depthOf. lia. } { unfold demand. cbn [fst]. rewrite map_size_empty. lia. }
  exists r, f'. unfold demand in Hd. cbn [fst] in Hd. rewrite map_size_empty in Hd. split; [|lia].
  unfold foldFlagConditionsExpr, foldFlagConditionsRec. apply M_bind_Some. exists (r, m), f'.
  split; [|done]. apply M_bind_Some. by exists (r, (m, tt)), f'.
Qed.

(** ** Constant folding returns *)

(** What keeps the constant evaluator defined and its results constants, beyond
    the verifier's checks: flag bundles of a width the formulas handle, no sign
    extension of a type without bits, and no vector or over-wide results. *)
Definition foldableNode (f : Function) (e : Expr) : Prop :=
  (isFlags (type e) || (isInteger (type e) && (bits (type e) <=? 128)) || isFloat (type e)) = true /\
  match op e with
  | ExprOp.FlagDef => 1 <= flagDefWidth (immediate e) <= 64
  | ExprOp.SExt => Forall (fun x => exists t, typeAt f x = Some t /\ bits t <> 0) (operands e)
  | _ => True
  end.

Definition foldableNodes (f : Function) : Prop := forall id e, exprAt f id = Some e -> foldableNode f e.

Lemma foldableNode_grows f f' e : grows f f' -> foldableNode f e -> foldableNode f' e.
Proof.
  intros Hg [Ht H]. split; [done|]. destruct (op e); try done.
  eapply Forall_impl; [exact H|]. intros x (t & Hx & ?). exists t. split; [by eapply typeAt_ext|done].
Qed.

Lemma foldableNode_withOperands f e ys :
  Forall2 (sameType f) (operands e) ys -> foldableNode f e -> foldableNode f (withOperands e ys).
Proof.
  intros Hys [Ht H]. split; [done|]. cbn. destruct (op e); try done. clear Ht.
  induction Hys as [|x y xs ys (t & Hx & Hy) _ IH]; [done|].
  inversion H as [|? ? (t' & Hx' & Hne) Hxs]; subst. constructor; [|by apply IH].
  exists t. split; [done|congruence].
Qed.

Lemma evalFlagDef_defined o w args :
  1 <= w <= 64 -> length args = flagDefArity o -> exists r, evalFlagDef o w args = Some r.
Proof.
  intros Hw Hl. unfold evalFlagDef. assert ((1 <=? w) && (w <=? 64) = true) as -> by lia.
  destruct o as [[]|]; [..|by eexists];
    destruct args as [|a [|b [|c [|]]]]; cbn in Hl; try lia; by eexists.
Qed.

(** A node's operand types, as many as its arity. *)
Lemma typeAt_operand e ts i :
  (minArity (info (op e)) <= operandCount e)%nat -> length ts = operandCount e ->
  (i < minArity (info (op e)))%nat -> exists w, ofOption (bits <$> ts !! i) = Ok w.
Proof.
  intros Ha Hl Hi. destruct (lookup_lt_is_Some_2 ts i ltac:(lia)) as [t Ht]. rewrite Ht. by eexists.
Qed.

Lemma constDivRem_defined o w a b : constDivRem o w a b <> Undefined.
Proof. unfold constDivRem. case_match; [done|]. by destruct o. Qed.

Lemma constCompare_defined o w a b : constCompare o w a b <> Undefined.
Proof. unfold constCompare. case_match; [done|]. by destruct o. Qed.

Lemma constNode_defined f e ts args :
  exprTyped f e -> mapM (typeAt f) (operands e) = Some ts -> foldableNode f e ->
  length args = operandCount e -> constNode e ts args <> Undefined.
Proof.
  intros ([Hmin _] & _ & ts' & Hts' & _ & Hop) Hts [_ Hf] Hl.
  rewrite Hts in Hts'. injection Hts' as <-.
  assert (length ts = operandCount e) as Hlt by (apply mapM_Some, Forall2_length in Hts; unfold operandCount; lia).
  pose proof (typeAt_operand e ts 0 Hmin Hlt) as H0. pose proof (typeAt_operand e ts 1 Hmin Hlt) as H1.
  unfold constNode. destruct (isFlags (type e)) eqn:Hfl.
  - destruct (decide _) as [Ho|]; [|done]. unfold opRuleOk in Hop. rewrite Ho in Hop, Hf.
    apply andb_true_iff in Hop as [Har%Nat.eqb_eq _].
    destruct (evalFlagDef_defined (flagDefOp (immediate e)) (flagDefWidth (immediate e)) args Hf) as [r Hr];
      [lia|]. by rewrite Hr.
  - destruct (_ || _); [done|]. pose proof constDivRem_defined. pose proof constCompare_defined.
    unfold constOp. cbv zeta. destruct (op e) eqn:Ho; try done; cbn [info minArity] in H0, H1;
      try (destruct (H0 ltac:(lia)) as [u Hu]; rewrite Hu; cbn [mbind Res_bind]; try done);
      try (by repeat case_match).
    + (* SExt *)
      unfold guardWidth. apply ofOption_Ok in Hu. destruct ts as [|t ts]; [done|].
      injection Hu as <-. apply mapM_Some in Hts. destruct (operands e) as [|x xs]; inversion Hts as [|? ? ? ? Hx]; subst.
      rewrite Forall_cons in Hf. destruct Hf as [(t' & Hx' & Hne) _]. simplify_eq.
      by destruct (Z.eqb_spec (bits t') 0).
    + destruct (H1 ltac:(lia)) as [v Hv]. rewrite Hv. cbn [mbind Res_bind]. by case_match.
Qed.

Lemma mapRes_defined {A B} (g : A -> Res B) l :
  Forall (fun x => g x <> Undefined) l -> mapRes g l <> Undefined.
Proof.
  induction 1 as [|x l Hx _ IH]; cbn [mapRes]; [done|].
  destruct (g x); [cbn [mbind Res_bind]|done|done]. by destruct (mapRes g l).
Qed.

Lemma evalConstRec_defined f fuel id depth :
  pool_ok f -> foldableNodes f -> kMaxEvalDepth < Z.of_nat fuel + depth ->
  evalConstRec fuel f id depth <> Undefined.
Proof.
  intros Hok Hn. revert id depth. induction fuel as [|fuel IH]; intros id depth Hd; cbn [evalConstRec].
  { assert ((kMaxEvalDepth <? depth) = true) as -> by lia. done. }
  destruct (_ || _) eqn:Hg; [done|]. apply orb_false_iff in Hg as [_ Hh%negb_false_iff].
  apply hasExpr_exprAt in Hh as [e He]. rewrite He. cbn [ofOption mbind Res_bind].
  destruct (decide _); [done|]. destruct (_ =? _)%nat; [done|].
  destruct (mapRes _ (operands e)) as [args| |] eqn:Ha; cbn [mbind Res_bind]; [|done|].
  2: { exfalso. revert Ha. apply mapRes_defined, Forall_forall. intros x _. apply IH. lia. }
  pose proof (exprVerifies_typed f id e (pool_ok_verifies f Hok id e He)) as Ht.
  pose proof Ht as (_ & _ & ts & Hts & _). rewrite Hts. cbn [ofOption mbind Res_bind].
  apply (constNode_defined f); [done|done|by eapply Hn|].
  apply mapRes_Ok, Forall2_length in Ha. unfold operandCount. lia.
Qed.

Section ConstantsTotal.
Context (env : Env).

Definition foldsAll (f : Function) : Prop := foldsConstants env f /\ foldableNodes f.

Lemma foldsAll_rebuild f id e ys r f' :
  foldsAll f -> exprAt f id = Some e -> Forall2 (sameType f) (operands e) ys ->
  intern (withOperands e ys) f = Some (r, f') -> foldsAll f'.
Proof.
  intros [HI Hn] He Hys Hi. split; [by eapply foldConstants_rebuild|]. intros id' e' He'.
  apply (foldableNode_grows f); [by eapply pool_ext_grows, intern_ext|].
  destruct (intern_new f _ r f' id' e' Hi He') as [?|Heq]; [by eapply Hn|].
  rewrite Heq. apply foldableNode_withOperands; [done|by eapply Hn].
Qed.

Lemma foldConstantsRule_all : rule_sound pool_ext foldConstantsRule env foldsAll.
Proof.
  intros f id e ys res s r s' f' [HI Hn] He Hys Hr H.
  destruct (foldConstantsRule_sound env f id e ys res s r s' f' HI He Hys Hr H) as (HI' & Hg & Hs).
  split; [split; [done|]|done]. intros id' e' He'.
  assert (exprAt f id' = Some e' \/ exists c, e' = constantOf (type e) c) as [Ho|[c ->]].
  - unfold foldConstantsRule in H. destruct (_ =? _)%nat; [injection H as <- <- <-; by left|].
    destruct (isFlags _); [injection H as <- <- <-; by left|].
    apply M_bind_Some in H as (o & f1 & Ho & H). destruct (tryEvalConst f res) as [c| |]; [| |done];
      injection Ho as <- <-; [|injection H as <- <- <-; by left].
    destruct (_ =? _); [|injection H as <- <- <-; by left].
    apply M_bind_Some in H as (r1 & f2 & H & [= <- <- <-]).
    unfold constant in H. destruct (_ || _) in H; [|done].
    destruct (intern_new _ _ _ _ _ _ H He') as [|Heq]; [by left|right; by exists (lo c)].
  - apply (foldableNode_grows f); [by apply pool_ext_grows|by eapply Hn].
  - destruct (Hn id e He) as [Ht _]. by split.
Qed.

Lemma foldConstantsRule_total f id e ys res s :
  foldsAll f -> exprAt f id = Some e -> Forall2 (sameType f) (operands e) ys ->
  exprAt f res = Some (withOperands e ys) -> (N.of_nat (exprCount f + 1) <= kInvalidIndex)%N ->
  exists r s' f', foldConstantsRule e res s f = Some ((r, s'), f') /\
    (exprCount f' <= exprCount f + 1)%nat.
Proof.
  intros [[Hok Henv] Hn] He Hys Hr Hroom.
  assert (exists r s' f', Some ((res, s), f) = Some ((r, s'), f') /\ (exprCount f' <= exprCount f + 1)%nat)
    as Hkeep by (exists res, s, f; split; [done|lia]).
  unfold foldConstantsRule. destruct (_ =? _)%nat; [done|]. destruct (isFlags (type e)) eqn:Hf; [done|].
  pose proof (evalConstRec_defined f 257 res 0 Hok Hn ltac:(done)) as Hdef.
  fold (tryEvalConst f res) in Hdef. unfold mbind at 1, M_bind at 1.
  destruct (tryEvalConst f res) as [c| |]; [|done|done]. destruct (_ =? _); [|done].
  destruct (Hn id e He) as [Ht _]. rewrite Hf in Ht. cbn [orb] in Ht.
  pose proof (exprVerifies_typed f id e (pool_ok_verifies f Hok id e He)) as (_ & Hv & _).
  destruct (intern_total f (constantOf (type e) (lo c)) Hok) as (r & f' & Hi & _).
  { by apply constantOf_typed. } { unfold exprCount in Hroom. lia. }
  exists r, s, f'. split; [|by eapply intern_count].
  apply M_bind_Some. exists r, f'. split; [|done]. unfold constant. by rewrite Ht.
Qed.

Lemma foldConstantsExpr_total f id :
  foldsAll f -> hasExpr f id = true ->
  (N.of_nat (exprCount f + 2 * depthOf id) <= kInvalidIndex)%N ->
  exists r f', foldConstantsExpr id f = Some (r, f') /\
    (exprCount f' <= exprCount f + 2 * depthOf id)%nat.
Proof.
  intros HI Hid Hroom.
  destruct (traverse_total foldConstantsRule foldsAll (fun f H => proj1 (proj1 H))
    foldsAll_rebuild (rule_sound_typed _ _ _ (rule_sound_grows _ _ _ foldConstantsRule_all)) 1 foldConstantsRule_total
    (depthOf id) (depthOf id) (depthOf id) (le_n _) (le_n _) f id (∅, tt) HI)
    as (r & [m []] & f' & H & _ & Hd & _).
  { apply memo_typed_empty. } { intros k [? Hk]. done. } { done. }
  { unfold depthOf. lia. } { unfold demand. cbn [fst]. rewrite map_size_empty. lia. }
  exists r, f'. unfold demand in Hd. cbn [fst] in Hd. rewrite map_size_empty in Hd. split; [|lia].
  unfold foldConstantsExpr, foldConstantsRec. apply M_bind_Some. exists (r, m), f'.
  split; [|done]. apply M_bind_Some. by exists (r, (m, tt)), f'.
Qed.
End ConstantsTotal.
