(* ===== verification/FoldSound.v ===== *)
(** * The folds over a whole function (passes/fold.cpp [foldOperands])

    Rewriting every operand of every operation keeps the function's blocks,
    values, names and the operations themselves, and replaces each operand by one
    that stands for it. The soundness of both folds follows from the rules', and
    so does a counterexample for the one rule that is wrong. *)
From S2P Require Import Prelude Bits U128 Types Exprs Registers Func.
From S2P Require Import Eval VerifyExpr ValueTypes EvalProps Ceval Flags Rewrite Fold FoldProps.

(** ** Functions before and after *)

Lemma slice_app {A} (l k : list A) s c xs : slice l s c = Some xs -> slice (l ++ k) s c = Some xs.
Proof.
  unfold slice. destruct (_ && _) eqn:Hb; [|done]. intros [= <-].
  rewrite !andb_true_iff, !Z.leb_le in Hb. destruct Hb as [[Hs Hc] Hl].
  assert ((0 <=? s) && (0 <=? c) && (s + c <=? Z.of_nat (length (l ++ k))) = true) as ->
    by (rewrite length_app, !andb_true_iff, !Z.leb_le; lia).
  f_equal. rewrite drop_app_le by lia. by rewrite take_app_le by (rewrite length_drop; lia).
Qed.

Lemma slice_end {A} (l xs : list A) :
  slice (l ++ xs) (Z.of_nat (length l)) (Z.of_nat (length xs)) = Some xs.
Proof.
  unfold slice. rewrite length_app.
  assert ((0 <=? Z.of_nat (length l)) && (0 <=? Z.of_nat (length xs))
    && (Z.of_nat (length l) + Z.of_nat (length xs) <=? Z.of_nat (length l + length xs)) = true) as ->
    by (rewrite !andb_true_iff, !Z.leb_le; lia).
  rewrite !Nat2Z.id, drop_app_length. by rewrite firstn_all.
Qed.

(** The same operation, whatever its operands are. *)
Definition sameOp (o o' : Op) : Prop :=
  code o' = code o /\ opType o' = opType o /\ va o' = va o /\ origin o' = origin o /\
  result o' = result o /\ payload o' = payload o /\
  targetStart o' = targetStart o /\ targetCount o' = targetCount o.

Lemma sameOp_trans o1 o2 o3 : sameOp o1 o2 -> sameOp o2 o3 -> sameOp o1 o3.
Proof. unfold sameOp. intuition congruence. Qed.

(** [y] is the operand [x], or stands for it. *)
Definition replaces (f : Function) (env : Env) (x y : N) : Prop := y = x \/ Simulates f env x y.

Record refined (env : Env) (f f' : Function) : Prop := {
  refined_grows : grows f f';
  refined_values : values (tables f') = values (tables f);
  refined_targets : targetPool (tables f') = targetPool (tables f);
  refined_blocks : blocks f' = blocks f /\ entryBlock f' = entryBlock f;
  refined_strings : strings f' = strings f;
  refined_pool : operandPool (tables f) `prefix_of` operandPool (tables f');
  refined_ops : forall id o, opAt f id = Some o -> exists o', opAt f' id = Some o' /\ sameOp o o' /\
    forall xs, operandsOf (tables f) o = Some xs -> exists ys, operandsOf (tables f') o' = Some ys /\
      Forall2 (replaces f' env) xs ys }.

Lemma replaces_refl f env xs : Forall2 (replaces f env) xs xs.
Proof. induction xs; constructor; [by left|done]. Qed.

Lemma refined_refl env f : refined env f f.
Proof.
  split; try done. intros id o Ho. exists o. split_and!; [done..|]. intros xs Hxs. exists xs.
  split; [done|apply replaces_refl].
Qed.

Lemma replaces_trans f f' env x y z :
  pool_ok f -> grows f f' -> replaces f env x y -> replaces f' env y z -> replaces f' env x z.
Proof.
  intros Hok Hg [->|H1] [->|H2]; [by left|by right|right; by eapply Simulates_grows|right].
  eapply Simulates_trans; [|exact H2]. by eapply Simulates_grows.
Qed.

Lemma refined_trans env f f' f'' :
  pool_ok f' -> refined env f f' -> refined env f' f'' -> refined env f f''.
Proof.
  intros Hok H1 H2. split.
  - etrans; [apply H1|apply H2].
  - rewrite (refined_values _ _ _ H2). apply H1.
  - rewrite (refined_targets _ _ _ H2). apply H1.
  - destruct (refined_blocks _ _ _ H2) as [-> ->]. apply H1.
  - rewrite (refined_strings _ _ _ H2). apply H1.
  - etrans; [apply H1|apply H2].
  - intros id o Ho. destruct (refined_ops _ _ _ H1 id o Ho) as (o' & Ho' & Hs' & Hx').
    destruct (refined_ops _ _ _ H2 id o' Ho') as (o'' & Ho'' & Hs'' & Hx'').
    exists o''. split; [done|]. split; [by eapply sameOp_trans|]. intros xs Hxs.
    destruct (Hx' xs Hxs) as (ys & Hys & Hr1). destruct (Hx'' ys Hys) as (zs & Hzs & Hr2).
    exists zs. split; [done|]. pose proof (refined_grows _ _ _ H2) as Hg. clear -Hok Hg Hr1 Hr2.
    revert zs Hr2. induction Hr1 as [|x y xs ys Hxy _ IH]; intros zs Hr2; inversion Hr2; subst;
      constructor; [by eapply replaces_trans|by apply IH].
Qed.

(** Growing the pool refines. *)
Lemma refined_pool_ext env f f' : pool_ext f f' -> refined env f f'.
Proof.
  intros Hx. pose proof (pool_ext_tables f f' Hx) as Ht. pose proof Hx as [Hf _].
  split; [by apply pool_ext_grows|by rewrite Ht..|by rewrite Hf|by rewrite Hf|by rewrite Ht|].
  intros id o Ho. exists o. unfold opAt in *. rewrite Ht. split_and!; [done..|].
  intros xs Hxs. exists xs. split; [done|apply replaces_refl].
Qed.

(** ** Builders that only intern *)

Definition interns {A} (m : M A) : Prop := forall f x f', m f = Some (x, f') -> pool_ext f f'.

Lemma interns_ret {A} (x : A) : interns (mret x).
Proof. by intros f y f' [= <- <-]. Qed.
Lemma interns_bind {A B} (m : M A) (k : A -> M B) :
  interns m -> (forall x, interns (k x)) -> interns (m ≫= k).
Proof. intros Hm Hk f x f' (y & f1 & Hy & H)%M_bind_Some. transitivity f1; [by eapply Hm|by eapply Hk]. Qed.
Lemma interns_gets {A} (q : Function -> option A) : interns (gets q).
Proof. by intros f x f' [_ ->]%gets_Some. Qed.
Lemma interns_intern e : interns (intern e).
Proof. intros f x f'. apply intern_ext. Qed.
Lemma interns_constant t z : interns (constant t z).
Proof. unfold constant. destruct (_ || _); [apply interns_intern|by intros f x f']. Qed.
Lemma interns_binary o x y : interns (binary o x y).
Proof.
  unfold binary. apply interns_bind; [intros f u f'; unfold assertion; destruct (_ && _); by intros [= <- <-]|].
  intros _. apply interns_bind; [destruct (decide _); [apply interns_ret|apply interns_gets]|].
  intros t. apply interns_intern.
Qed.

Create HintDb interns.
#[export] Hint Resolve interns_ret interns_bind interns_gets interns_intern interns_constant
  interns_binary : interns.

Lemma interns_assertion b : interns (assertion b).
Proof. intros f u f'. unfold assertion. destruct b; by intros [= <- <-]. Qed.

Lemma interns_unary o x : interns (unary o x).
Proof. unfold unary. repeat (apply interns_bind; [auto using interns_assertion with interns|intros ?]). apply interns_intern. Qed.

Lemma interns_cast o t x : interns (cast o t x).
Proof. unfold cast. apply interns_bind; [apply interns_assertion|intros _]. apply interns_intern. Qed.

#[export] Hint Resolve interns_assertion interns_unary interns_cast : interns.

Lemma interns_traverse {St} (post : Expr -> N -> St -> M (N * St)) :
  (forall e r s, interns (post e r s)) -> forall fuel id w, interns (traverse post fuel id w).
Proof.
  intros Hpost fuel. induction fuel as [|fuel IH]; intros id w; cbn [traverse];
    (destruct (w.1 !! id); [apply interns_ret|]); [by intros f x f'|].
  apply interns_bind; [apply interns_gets|]. intros e. apply interns_bind.
  - generalize w. induction (operands e) as [|x xs IHl]; intros w'; cbn [operandsLoop]; [apply interns_ret|].
    apply interns_bind; [apply IH|]. intros [y w1]. apply interns_bind; [apply IHl|].
    intros [[ys ch] w2]. apply interns_ret.
  - intros [[ys ch] w1]. apply interns_bind; [destruct ch; auto with interns|]. intros r.
    apply interns_bind; [apply Hpost|]. intros [r' s]. apply interns_ret.
Qed.

Lemma interns_foldConstants id : interns (foldConstantsExpr id).
Proof.
  unfold foldConstantsExpr, foldConstantsRec. apply interns_bind; [|intros []; apply interns_ret].
  apply interns_bind; [|intros [? []]; apply interns_ret]. apply interns_traverse. intros e r s.
  unfold foldConstantsRule. repeat case_match; auto with interns.
  apply interns_bind; [intros f x f'; case_match; by intros [= <- <-]|].
  intros [c|]; [case_match|]; auto with interns.
Qed.

Lemma interns_rewriteCondition flags c : interns (rewriteCondition flags c).
Proof.
  assert (interns (onlyAlways c)) by (destruct c as [[]|]; apply interns_ret || apply interns_constant).
  unfold rewriteCondition, rewriteSub, rewriteAdd, rewriteLogical, invalidExpr, boolean.
  destruct (flagDefOp _) as [[]|]; try done; try apply interns_ret;
    destruct c as [[]|]; eauto 10 with interns.
Qed.

Lemma interns_foldFlagConditions id : interns (foldFlagConditionsExpr id).
Proof.
  unfold foldFlagConditionsExpr, foldFlagConditionsRec. apply interns_bind; [|intros []; apply interns_ret].
  apply interns_bind; [|intros [? []]; apply interns_ret]. apply interns_traverse. intros e r s.
  unfold foldFlagConditionsRule. case_match; auto with interns.
  apply interns_bind; [apply interns_gets|]. intros cond. apply interns_bind; [apply interns_gets|].
  intros flags. case_match; auto with interns. apply interns_bind; [apply interns_rewriteCondition|].
  intros r'. apply interns_ret.
Qed.

(** ** The driver *)

Section Driver.
Context (env : Env) (I : Function -> Prop) (rewrite_ : N -> M N).
Context (HI : forall f, I f -> pool_ok f).
(** The invariant is about the pool, the registers and the values. *)
Context (Hsame : forall f f', I f -> pool f' = pool f -> registers f' = registers f ->
  values (tables f') = values (tables f) -> I f').
Context (Hrewrite : forall f x y f', I f -> hasExpr f x = true -> rewrite_ x f = Some (y, f') ->
  I f' /\ pool_ext f f' /\ Simulates f' env x y).

(** Every operation's operands are in the pools. *)
Definition operandsExist (f : Function) : Prop :=
  forall id o, opAt f id = Some o -> exists xs, operandsOf (tables f) o = Some xs /\
    Forall (fun x => hasExpr f x = true) xs.

Lemma rewriteOperands_sound xs f ys changed f' :
  I f -> Forall (fun x => hasExpr f x = true) xs ->
  rewriteOperands rewrite_ xs f = Some ((ys, changed), f') ->
  I f' /\ pool_ext f f' /\ Forall2 (Simulates f' env) xs ys /\ (changed = false -> ys = xs).
Proof using HI Hrewrite.
  revert f ys changed. induction xs as [|x xs IH]; intros f ys changed Hf Hxs; cbn [rewriteOperands].
  { intros [= <- <- <-]. split_and!; [done|done|constructor|done]. }
  inversion Hxs as [|? ? Hx Hxs']; subst. rewrite M_bind_Some. intros (y & f1 & Hy & H).
  destruct (Hrewrite f x y f1 Hf Hx Hy) as (Hf1 & Hx1 & Hs1).
  apply M_bind_Some in H as ([ys' ch] & f2 & Hl & [= <- <- <-]).
  assert (Forall (fun x => hasExpr f1 x = true) xs) as Hxs1
    by (eapply Forall_impl; [exact Hxs'|]; intros; apply (hasExpr_ext f); auto).
  destruct (IH _ _ _ Hf1 Hxs1 Hl) as (Hf2 & Hx2 & Hs2 & Hch).
  split_and!; [done|by transitivity f1| |].
  - constructor; [apply (Simulates_grows f1); auto|done].
  - intros [Hy0%negb_false_iff%N.eqb_eq ->]%orb_false_iff. by rewrite Hy0, Hch.
Qed.

Lemma operandsExist_pool f f' : pool_ext f f' -> operandsExist f -> operandsExist f'.
Proof.
  intros Hx H id o. unfold opAt. rewrite (pool_ext_tables f f' Hx). intros Ho.
  destruct (H id o Ho) as (xs & Hxs & Hall). exists xs. split; [done|].
  eapply Forall_impl; [exact Hall|]. intros x Hxe. apply (hasExpr_ext f); [by apply pool_ext_grows|done].
Qed.

(** [setOperands] with operands that stand for the old ones. *)
Lemma setOperands_refined f id o xs ys f' :
  I f -> operandsExist f -> opAt f id = Some o -> operandsOf (tables f) o = Some xs ->
  Forall2 (Simulates f env) xs ys -> setOperands id ys f = Some (tt, f') ->
  Z.of_nat (length (operandPool (tables f'))) < 2 ^ 32 ->
  I f' /\ refined env f f' /\ operandsExist f'.
Proof using HI Hsame.
  intros Hf Hex Ho Hxs Hys H. unfold setOperands, update in H. rewrite Ho in H. cbn in H.
  injection H as <-. cbn [tables withTables operandPool]. rewrite length_app. intros Hlen.
  set (o' := MkOp _ _ _ _ _ _ _ _ _ _). set (t' := MkTables _ _ _ _).
  assert (operandsOf t' o' = Some ys) as Ho'.
  { unfold operandsOf. cbn. unfold u32. rewrite !Z.mod_small by lia. apply slice_end. }
  assert (forall id1 o1, vget (ops t') id1 = Some o1 ->
            id1 = id /\ o1 = o' \/ id1 <> id /\ opAt f id1 = Some o1) as Hops.
  { intros id1 o1 [Hl Hv]%vget_Some. cbn in Hl. destruct (decide (id1 = id)) as [->|Hne]; [left|right].
    - rewrite list_lookup_insert_eq in Hl; [by injection Hl|].
      apply vget_Some in Ho as [Ho _]. by eapply lookup_lt_Some.
    - split; [done|]. rewrite list_lookup_insert_ne in Hl by lia. by apply vget_Some. }
  assert (forall o1 xs1, operandsOf (tables f) o1 = Some xs1 -> operandsOf t' o1 = Some xs1) as Hslice
    by (intros; by apply slice_app).
  assert (grows f (withTables f t')) as Hg by (by split).
  split; [by apply (Hsame f)|]. split.
  - split; try done; [by eexists|]. intros id1 o1 Ho1.
    destruct (decide (id1 = id)) as [->|Hne].
    + assert (o1 = o) as -> by congruence. exists o'. split; [|split; [done|]].
      * apply vget_Some. apply vget_Some in Ho as [Ho Hv]. split; [|done].
        cbn. apply list_lookup_insert_eq. by eapply lookup_lt_Some.
      * intros xs1 Hxs1. exists ys. split; [done|]. assert (xs1 = xs) as -> by congruence.
        eapply Forall2_impl; [exact Hys|]. intros x y Hxy. right. apply (Simulates_grows f); auto.
    + exists o1. split; [|split; [done|]].
      * apply vget_Some. apply vget_Some in Ho1 as [Ho1 Hv]. split; [|done].
        cbn. rewrite list_lookup_insert_ne by lia. done.
      * intros xs1 Hxs1. exists xs1. split; [by apply Hslice|apply replaces_refl].
  - intros id1 o1 Ho1. destruct (Hops id1 o1 Ho1) as [[-> ->]|[Hne Ho1']].
    + exists ys. split; [done|]. apply Forall_forall. intros y Hy.
      apply list_elem_of_lookup in Hy as [i Hi].
      destruct (Forall2_lookup_r _ _ _ _ _ Hys Hi) as (x' & _ & t & _ & Ht & _). by eapply typeAt_hasExpr.
    + destruct (Hex id1 o1 Ho1') as (xs1 & Hxs1 & Hall). exists xs1. split; [by apply Hslice|done].
Qed.

Context (Hinterns : forall x, interns (rewrite_ x)).

Lemma rewriteOperands_interns xs : interns (rewriteOperands rewrite_ xs).
Proof using Hinterns.
  induction xs as [|x xs IH]; cbn [rewriteOperands]; [apply interns_ret|].
  apply interns_bind; [apply Hinterns|]. intros y. apply interns_bind; [apply IH|].
  intros [ys ch]. apply interns_ret.
Qed.

(** The operand pool as a 32-bit index can address it. *)
Definition addressable (f : Function) : Prop := Z.of_nat (length (operandPool (tables f))) < 2 ^ 32.

(** What a part of the driver guarantees: the operand pool only grows, and as
    long as it stays addressable the function is refined. *)
Definition drives (m : M bool) : Prop := forall f b f', m f = Some (b, f') ->
  (length (operandPool (tables f)) <= length (operandPool (tables f')))%nat /\
  (I f -> operandsExist f -> addressable f' -> I f' /\ refined env f f' /\ operandsExist f').

Lemma drives_ret b : drives (mret b).
Proof. intros f b' f' [= <- <-]. split; [done|]. intros. split_and!; [done|apply refined_refl|done]. Qed.

(** Doing one part and then another, whatever is returned. *)
Lemma drives_bind m (k : bool -> M bool) :
  drives m -> (forall b, drives (k b)) -> drives (m ≫= k).
Proof using HI.
  intros Hm Hk f b f' (b1 & f1 & H1 & H2)%M_bind_Some.
  destruct (Hm _ _ _ H1) as [Hl1 Hs1], (Hk b1 _ _ _ H2) as [Hl2 Hs2]. split; [lia|].
  intros Hf Hex Ha. destruct Hs1 as (Hf1 & Hr1 & Hex1); [done|done|unfold addressable in *; lia|].
  destruct Hs2 as (Hf2 & Hr2 & Hex2); [done..|].
  split_and!; [done|eapply (refined_trans env f f1); [by apply HI|done..]|done].
Qed.

Lemma drives_query {A} (q : Function -> option A) (k : A -> M bool) :
  (forall x, drives (k x)) -> drives (gets q ≫= k).
Proof. intros Hk f b f' (x & f1 & [_ ->]%gets_Some & H)%M_bind_Some. by eapply Hk. Qed.

Lemma rewriteOp_drives opId : drives (rewriteOp rewrite_ opId).
Proof using Type*.
  intros f b f' H. unfold rewriteOp in H. apply M_bind_Some in H as (xs & f0 & [Hq ->]%gets_Some & H).
  destruct (opAt f opId) as [o|] eqn:Ho; [|done]. cbn in Hq.
  destruct (decide (xs = [])) as [|_]; [by apply drives_ret in H|].
  apply M_bind_Some in H as ([ys ch] & f1 & Hys & H).
  pose proof (rewriteOperands_interns _ _ _ _ Hys) as Hx1. pose proof (pool_ext_tables f f1 Hx1) as Ht1.
  destruct ch; [|apply drives_ret in H as [Hl Hs]; rewrite Ht1 in Hl; split; [done|]].
  - apply M_bind_Some in H as ([] & f2 & Hset & [= <- <-]). split.
    { unfold setOperands, update in Hset. destruct (opAt f1 opId); [|done]. injection Hset as <-.
      cbn. rewrite length_app, Ht1. lia. }
    intros Hf Hex Ha. assert (opAt f1 opId = Some o) as Ho1 by (unfold opAt in *; by rewrite Ht1).
    destruct (Hex opId o Ho) as (xs' & Hxs' & Hall). assert (xs' = xs) as -> by congruence.
    destruct (rewriteOperands_sound xs f ys true f1 Hf Hall Hys) as (Hf1 & _ & Hs1 & _).
    destruct (setOperands_refined f1 opId o xs ys f2 Hf1) as (Hf2 & Hr2 & Hex2); try done.
    { by eapply operandsExist_pool. } { by rewrite Ht1. }
    split_and!; [done| |done]. eapply (refined_trans env f f1); [by apply HI|by apply refined_pool_ext|done].
  - intros Hf Hex Ha. destruct (Hex opId o Ho) as (xs' & Hxs' & Hall). assert (xs' = xs) as -> by congruence.
    destruct (rewriteOperands_sound xs f ys false f1 Hf Hall Hys) as (Hf1 & _ & _ & _).
    destruct Hs as (Hf2 & Hr2 & Hex2); [done|by eapply operandsExist_pool|done|].
    split_and!; [done| |done]. eapply (refined_trans env f f1); [by apply HI|by apply refined_pool_ext|done].
Qed.

Lemma rewriteOps_drives opIds : drives (rewriteOps rewrite_ opIds).
Proof using Type*.
  induction opIds as [|opId opIds IH]; cbn [rewriteOps]; [apply drives_ret|].
  apply drives_bind; [apply rewriteOp_drives|]. intros b. apply drives_bind; [done|].
  intros b'. apply drives_ret.
Qed.

Lemma foldOperands_drives : drives (foldOperands rewrite_).
Proof using Type*.
  unfold foldOperands. apply drives_query. intros blockIds.
  induction blockIds as [|blockId blockIds IH]; cbn [rewriteBlocks]; [apply drives_ret|].
  apply drives_query. intros opIds. apply drives_bind; [apply rewriteOps_drives|]. intros b.
  apply drives_bind; [done|]. intros b'. apply drives_ret.
Qed.
End Driver.

(** ** Both folds *)

Lemma same_pool_grows f f' :
  pool f' = pool f -> registers f' = registers f -> values (tables f') = values (tables f) -> grows f f'.
Proof. intros Hp Hr Hv. split; [done|by rewrite Hp|by rewrite Hv]. Qed.

Lemma pool_ok_same f f' :
  pool_ok f -> pool f' = pool f -> registers f' = registers f ->
  values (tables f') = values (tables f) -> pool_ok f'.
Proof.
  intros [Hw Hv] Hp Hr Hva. split; [by rewrite Hp|]. intros id e He.
  apply (exprVerifies_ext f); [by apply same_pool_grows|]. apply Hv. unfold exprAt in *. by rewrite <-Hp.
Qed.

Lemma env_ok_same f f' env :
  env_ok f env -> registers f' = registers f -> values (tables f') = values (tables f) -> env_ok f' env.
Proof.
  intros [Hv Hr] Hre Hva. split.
  - intros id v i He. unfold valueAt. rewrite Hva. by apply Hv.
  - intros id v i He. rewrite Hre. by apply Hr.
Qed.

Lemma foldsConstants_same env f f' :
  foldsConstants env f -> pool f' = pool f -> registers f' = registers f ->
  values (tables f') = values (tables f) -> foldsConstants env f'.
Proof. intros [Hok He] ? ? ?. split; [by eapply pool_ok_same|by eapply env_ok_same]. Qed.

Lemma foldsFlags_same env logical f f' :
  foldsFlags env logical f -> pool f' = pool f -> registers f' = registers f ->
  values (tables f') = values (tables f) -> foldsFlags env logical f'.
Proof.
  intros (Hok & He & Hn) Hp Hr Hva. split; [by eapply pool_ok_same|]. split; [by eapply env_ok_same|].
  intros id e Hid. apply (flagNodeOk_grows _ f); [by apply same_pool_grows|].
  apply (Hn id). unfold exprAt in *. by rewrite <-Hp.
Qed.

(** The environment that supplies nothing. *)
Definition emptyEnv : Env := MkEnv (fun _ => err DiagCode.Internal) (fun _ => err DiagCode.Internal).

Lemma emptyEnv_ok f : env_ok f emptyEnv.
Proof. by split. Qed.

(** ** Deciding the hypotheses *)

Lemma exprs_check (P : Expr -> Prop) (p : Expr -> bool) f :
  (forall e, p e = true -> P e) -> forallb p (exprs (pool f)) = true ->
  forall id e, exprAt f id = Some e -> P e.
Proof.
  intros Hp H id e [He _]%vget_Some. rewrite forallb_forall in H.
  by eapply Hp, H, list_elem_of_In, list_elem_of_lookup_2.
Qed.

Lemma forallb_Forall {A} (P : A -> Prop) (p : A -> bool) l :
  (forall x, p x = true -> P x) -> forallb p l = true -> Forall P l.
Proof. intros Hp H. rewrite forallb_forall in H. apply Forall_forall. intros x Hx%list_elem_of_In. auto. Qed.

Definition flagNodeOkb (logical : bool) (f : Function) (e : Expr) : bool :=
  match op e with
  | ExprOp.FlagDef =>
      let w := flagDefWidth (immediate e) in
      let sized := (1 <=? w) && (w <=? 64)
        && forallb (fun x => bool_decide (typeAt f x = Some (integer w))) (operands e) in
      match flagDefOp (immediate e) with
      | Some FlagOp.Add | Some FlagOp.Sub => sized
      | Some FlagOp.Logical => sized && logical
      | _ => true
      end
  | ExprOp.FlagCond =>
      negb (logical && bool_decide (enumAt conditionCodes (immediate e) = Some ConditionCode.UnsignedLessEqual))
  | _ => true
  end.

Lemma flagNodesOk_check logical f :
  forallb (flagNodeOkb logical f) (exprs (pool f)) = true -> flagNodesOk logical f.
Proof.
  intros H id e. apply (exprs_check _ (flagNodeOkb logical f)); [|done]. clear. intros e.
  unfold flagNodeOkb, flagNodeOk. destruct (op e); try done.
  - assert (forall w, (1 <=? w) && (w <=? 64)
      && forallb (fun x => bool_decide (typeAt f x = Some (integer w))) (operands e) = true ->
      1 <= w <= 64 /\ Forall (fun x => typeAt f x = Some (integer w)) (operands e)) as Hs.
    { intros w [[H1 H2]%andb_true_iff H3]%andb_true_iff. split; [lia|].
      eapply forallb_Forall; [|exact H3]. intros x. apply bool_decide_eq_true. }
    destruct (flagDefOp _) as [[]|]; try done; try apply Hs.
    intros [Hb Hl]%andb_true_iff. auto.
  - intros H -> Hc. by rewrite bool_decide_true in H.
Qed.

Definition operandsExistb (f : Function) : bool :=
  forallb (fun o => match operandsOf (tables f) o with
                    | Some xs => forallb (hasExpr f) xs
                    | None => false
                    end) (ops (tables f)).

Lemma operandsExist_check f : operandsExistb f = true -> operandsExist f.
Proof.
  unfold operandsExistb. rewrite forallb_forall. intros H id o [Ho _]%vget_Some.
  specialize (H o (proj1 (list_elem_of_In _ _) (list_elem_of_lookup_2 _ _ _ Ho))).
  destruct (operandsOf _ _) as [xs|]; [|done]. exists xs. split; [done|].
  by eapply forallb_Forall; [|exact H].
Qed.

Definition foldableNodeb (f : Function) (e : Expr) : bool :=
  (isFlags (type e) || (isInteger (type e) && (bits (type e) <=? 128)) || isFloat (type e))
  && match op e with
     | ExprOp.FlagDef => (1 <=? flagDefWidth (immediate e)) && (flagDefWidth (immediate e) <=? 64)
     | ExprOp.SExt => forallb (fun x => match typeAt f x with Some t => negb (bits t =? 0) | None => false end)
                        (operands e)
     | _ => true
     end.

Lemma foldableNodes_check f : forallb (foldableNodeb f) (exprs (pool f)) = true -> foldableNodes f.
Proof.
  intros H id e. apply (exprs_check _ (foldableNodeb f)); [|done]. clear. intros e.
  unfold foldableNodeb, foldableNode. intros [Ht H]%andb_true_iff. split; [done|].
  destruct (op e); try done; [|lia]. eapply forallb_Forall; [|exact H]. intros x Hx. cbn in Hx.
  destruct (typeAt f x) as [t|]; [|done]. exists t. split; [done|lia].
Qed.

(** ** Properties *)

(** Constant folding preserves meaning: over a verified function whose
    operations' operands exist, [foldConstants] keeps every block, value, name
    and operation, keeps the pool verified, and replaces each operand by one of
    the same type that takes every strict value the old one had, in every
    environment of well-typed values. *)
Theorem foldConstants_refines f env b f' :
  pool_ok f -> env_ok f env -> operandsExist f ->
  foldConstants f = Some (b, f') -> addressable f' ->
  pool_ok f' /\ refined env f f' /\ operandsExist f'.
Proof.
  intros Hok Henv Hex H Ha.
  destruct (foldOperands_drives env (foldsConstants env) foldConstantsExpr (fun f H => proj1 H)
    (foldsConstants_same env) (fun f x y f' HI Hx Hr => foldConstantsExpr_sound env f x y f' (proj1 HI) (proj2 HI) Hx Hr)
    interns_foldConstants f b f' H) as [_ Hs].
  destruct Hs as ([? _] & ? & ?); done.
Qed.

(** Lazy-flag folding preserves meaning: where bundles are as wide as their
    operands, and conditions "ls" do not meet logical bundles, replacing
    conditions on bundles by comparisons keeps the function's structure, keeps
    the pool verified, and gives every operand the strict values it had. *)
Theorem foldFlagConditions_refines logical f env b f' :
  pool_ok f -> env_ok f env -> flagNodesOk logical f -> operandsExist f ->
  foldFlagConditionsDirect f = Some (b, f') -> addressable f' ->
  pool_ok f' /\ refined env f f' /\ operandsExist f'.
Proof.
  intros Hok Henv Hn Hex H Ha.
  destruct (foldOperands_drives env (foldsFlags env logical) foldFlagConditionsExpr (fun f H => proj1 H)
    (foldsFlags_same env logical) (foldFlagConditionsExpr_sound env logical)
    interns_foldFlagConditions f b f' H) as [_ Hs].
  destruct Hs as ([? _] & ? & ?); done.
Qed.

Definition flagSizedb (f : Function) (e : Expr) : bool :=
  match op e with
  | ExprOp.FlagDef =>
      match flagDefOp (immediate e) with
      | Some FlagOp.Add | Some FlagOp.Sub | Some FlagOp.Logical =>
          let w := flagDefWidth (immediate e) in
          (1 <=? w) && (w <=? 64) && forallb (fun x => bool_decide (typeAt f x = Some (integer w))) (operands e)
      | _ => true
      end
  | _ => true
  end.

Lemma flagsSized_check f : forallb (flagSizedb f) (exprs (pool f)) = true -> flagsSized f.
Proof.
  intros H id e. apply (exprs_check _ (flagSizedb f)); [|done]. clear. intros e.
  unfold flagSizedb, flagSized. destruct (op e); try done.
  destruct (flagDefOp _) as [[]|]; try done;
    (intros [[H1 H2]%andb_true_iff H3]%andb_true_iff; split; [lia|];
     eapply forallb_Forall; [|exact H3]; intros x; apply bool_decide_eq_true).
Qed.

(** C35 Both folds return: in a verified pool, the recursion of [foldConstants]
    and of [foldFlagConditions] over one expression ends with a result, after
    adding at most two and at most seven expressions for each handle up to the
    root, when there are handles left for those. For constants, no node is a
    vector or an integer of more than 128 bits, no sign extension is of a type
    without bits, and flag bundles are 1 to 64 bits wide ([foldableNodes]). For
    flags, the bundles of additions, subtractions and logical operations are as
    wide as their operands, 1 to 64 bits ([flagsSized]); every condition code is
    covered, and every rule, that for logical bundles included. *)
Theorem folds_return f id :
  pool_ok f -> hasExpr f id = true ->
  (N.of_nat (exprCount f + 7 * depthOf id) <= kInvalidIndex)%N ->
  (foldableNodes f -> exists r f', foldConstantsExpr id f = Some (r, f') /\
     (exprCount f' <= exprCount f + 2 * depthOf id)%nat) /\
  (flagsSized f -> exists r f', foldFlagConditionsExpr id f = Some (r, f') /\
     (exprCount f' <= exprCount f + 7 * depthOf id)%nat).
Proof.
  intros Hok Hid Hroom. pose proof (emptyEnv_ok f) as He. split; intros Hn.
  - apply (foldConstantsExpr_total emptyEnv); [by split|done|lia].
  - by apply foldFlagConditionsExpr_total.
Qed.

(** The rule for "unsigned lower or same" on a logical bundle is wrong: such a
    bundle clears the carry, so the condition always holds, to the interpreter
    and the constant evaluator alike, but the rule replaces it by a test of the
    result against zero. Folding [tst 1, 1; b.ls] turns true into false. *)
Theorem logical_lower_same_wrong :
  exists f id r f', pool_ok f /\ (forall env, eval f env id = Ok (boolValue true)) /\
    tryEvalConst f id = Ok (boolValue true) /\
    foldFlagConditionsExpr id f = Some (r, f') /\ pool_ok f' /\
    (forall env, eval f' env r = Ok (boolValue false)).
Proof.
  set (one := MkExpr ExprOp.Const (integer 64) [] 1).
  set (tst := MkExpr ExprOp.FlagDef flagsType [0%N] (packFlagDef FlagOp.Logical 64)).
  set (ls := MkExpr ExprOp.FlagCond booleanType [1%N] (conditionCode ConditionCode.UnsignedLessEqual)).
  set (zero := MkExpr ExprOp.Const (integer 64) [] 0).
  set (eq := MkExpr ExprOp.CmpEq booleanType [0%N; 3%N] 0).
  set (p := MkPool [one; tst; ls] (<[ls := 2%N]> (<[tst := 1%N]> (<[one := 0%N]> ∅)))).
  set (p' := MkPool [one; tst; ls; zero; eq] (<[eq := 4%N]> (<[zero := 3%N]> (exprIndex p)))).
  exists (withPool (newFunction emptyRegisterFile 0) p), 2%N, 4%N,
    (withPool (newFunction emptyRegisterFile 0) p').
  split_and!; [apply pool_ok_check; vm_compute; reflexivity|intros env; vm_compute; reflexivity
    |vm_compute; reflexivity|vm_compute; reflexivity|apply pool_ok_check; vm_compute; reflexivity
    |intros env; vm_compute; reflexivity].
Qed.
