(* ===== verification/Memory.v ===== *)
(** * il::ExecMemory (il/interp.h, il/interp.cpp)

    The interpreter's sparse two-layer memory: seeded pages, copy-on-write pages
    of the current run, and the log of written bytes. [byteAt] is the flat view
    the operations implement; [ExecMemoryBackend] is the interface the
    interpreter uses, with the laws it relies on. *)
From stdpp Require Import sorting.
From S2P Require Import Prelude Bits U128 Eval.

(** ** State *)

Definition kPageBits : Z := 12.
Definition kPageSize : Z := 2 ^ kPageBits.

(** A page: [kPageSize] bytes. *)
Abbreviation Page := (list Z).
Definition zeroPage : Page := repeat 0 (Z.to_nat kPageSize).

Record ExecMemory : Type := MkMemory {
  seed_ : gmap Z Page; delta_ : gmap Z Page; writtenBytes_ : list Z }.

Definition emptyMemory : ExecMemory := MkMemory ∅ ∅ [].

(** [va & ~(kPageSize - 1)] and [va & (kPageSize - 1)]. *)
Definition pageBase (address : Z) : Z := Z.land address (not64 (kPageSize - 1)).
Definition pageOffset (address : Z) : Z := Z.land address (kPageSize - 1).

Definition setByte (p : Page) (offset byte : Z) : Page := <[Z.to_nat offset := byte]> p.

Definition pageAt (m : ExecMemory) (base : Z) : option Page :=
  match delta_ m !! base with
  | Some p => Some p
  | None => seed_ m !! base
  end.

(** The page [deltaPage] returns a pointer to; it is in [delta_] afterwards. *)
Definition deltaPage (m : ExecMemory) (base : Z) : Page :=
  match delta_ m !! base with
  | Some p => p
  | None => default zeroPage (seed_ m !! base)
  end.

(** [deltaPage(base)->bytes[offset] = byte]. *)
Definition storeByte (m : ExecMemory) (address byte : Z) : ExecMemory :=
  let base := pageBase address in
  MkMemory (seed_ m) (<[base := setByte (deltaPage m base) (pageOffset address) byte]> (delta_ m))
    (writtenBytes_ m).

(** ** Operations *)

(** [seed_[base].bytes[offset] = byte]: [operator[]] makes a missing page. *)
Definition seedByte (m : ExecMemory) (address byte : Z) : ExecMemory :=
  let base := pageBase address in
  MkMemory (<[base := setByte (default zeroPage (seed_ m !! base)) (pageOffset address) byte]> (seed_ m))
    (delta_ m) (writtenBytes_ m).

(** The loops over [bytes], from [address + index] on. *)
Fixpoint seed (m : ExecMemory) (address : Z) (bytes : list Z) : ExecMemory :=
  match bytes with
  | [] => m
  | b :: bytes => seed (seedByte m address b) (add64 address 1) bytes
  end.

Fixpoint fillDelta (m : ExecMemory) (address : Z) (bytes : list Z) : ExecMemory :=
  match bytes with
  | [] => m
  | b :: bytes => fillDelta (storeByte m address b) (add64 address 1) bytes
  end.

(** The loop of [mapped]; [fuel] is the number of pages from [page] to [last]. *)
Fixpoint mappedPages (fuel : nat) (m : ExecMemory) (page last : Z) : bool :=
  match pageAt m page with
  | None => false
  | Some _ =>
      if page =? last then true
      else match fuel with
           | O => false
           | S fuel => mappedPages fuel m (add64 page kPageSize) last
           end
  end.

Definition mapped (m : ExecMemory) (address size : Z) : bool :=
  if size =? 0 then true
  else
    let page := pageBase address in
    let last := pageBase (sub64 (add64 address size) 1) in
    mappedPages (Z.to_nat (sub64 last page / kPageSize)) m page last.

(** [value.lo |= byte << (index * 8)], or the same in [value.hi]. *)
Definition orByte (value : ConcreteValue) (index byte : Z) : ConcreteValue :=
  if index <? 8 then MkU128 (Z.lor (lo value) (shl64 byte (index * 8))) (hi value)
  else MkU128 (lo value) (Z.lor (hi value) (shl64 byte ((index - 8) * 8))).

(** The byte of a mapped address; [None] is the null page. *)
Definition byteAt (m : ExecMemory) (address : Z) : option Z :=
  p ← pageAt m (pageBase address); p !! Z.to_nat (pageOffset address).

Fixpoint readBytes (count : nat) (m : ExecMemory) (address index : Z) (value : ConcreteValue)
  : option ConcreteValue :=
  match count with
  | O => Some value
  | S count =>
      byte ← byteAt m (add64 address index);
      readBytes count m address (index + 1) (orByte value index byte)
  end.

Definition read (m : ExecMemory) (address bytes : Z) : Res ConcreteValue :=
  if (bytes =? 0) || (16 <? bytes) then err DiagCode.Internal
  else if negb (mapped m address bytes) then errAt DiagCode.UnmappedAddress address
  else ofOption (readBytes (Z.to_nat bytes) m address 0 zero128).

(** The byte [write] stores at [index]. *)
Definition valueByte (value : ConcreteValue) (index : Z) : Z :=
  if index <? 8 then Z.land (shr64 (lo value) (index * 8)) 255
  else Z.land (shr64 (hi value) ((index - 8) * 8)) 255.

Definition recordWrite (m : ExecMemory) (address : Z) : ExecMemory :=
  MkMemory (seed_ m) (delta_ m) (writtenBytes_ m ++ [address]).

Fixpoint writeBytes (count : nat) (m : ExecMemory) (address index : Z) (value : ConcreteValue)
  : ExecMemory :=
  match count with
  | O => m
  | S count =>
      let va := add64 address index in
      writeBytes count (recordWrite (storeByte m va (valueByte value index)) va)
        address (index + 1) value
  end.

Definition write (m : ExecMemory) (address bytes : Z) (value : ConcreteValue) : Res ExecMemory :=
  if (bytes =? 0) || (16 <? bytes) then err DiagCode.Internal
  else if negb (mapped m address bytes) then errAt DiagCode.UnmappedAddress address
  else Ok (writeBytes (Z.to_nat bytes) m address 0 value).

Record WrittenRange : Type := MkRange { rangeAddress : Z; rangeSize : Z }.

(** [std::sort] and [std::unique] with [erase]. *)
Fixpoint unique (l : list Z) : list Z :=
  match l with
  | x :: (y :: _) as rest => if x =? y then unique rest else x :: unique rest
  | _ => l
  end.

(** The loop of [writtenRanges] with its [start] and [previous]; a sorted list
    without duplicates does not wrap. *)
Fixpoint coalesce (start previous : Z) (l : list Z) : list WrittenRange :=
  match l with
  | [] => [MkRange start (add64 (sub64 previous start) 1)]
  | va :: l =>
      if negb (va =? previous) && negb (va =? add64 previous 1)
      then MkRange start (add64 (sub64 previous start) 1) :: coalesce va va l
      else coalesce start va l
  end.

Definition writtenRanges (m : ExecMemory) : list WrittenRange :=
  match unique (merge_sort Z.le (writtenBytes_ m)) with
  | [] => []
  | va :: l => coalesce va va (va :: l)
  end.

Definition clearDelta (m : ExecMemory) : ExecMemory := MkMemory (seed_ m) ∅ [].

(** ** Addresses *)

Lemma pageBase_spec a : fits 64 a -> pageBase a = a - a mod kPageSize.
Proof.
  intros Ha. unfold pageBase. change (not64 (kPageSize - 1)) with (not64 (sub64 (2 ^ 12) 1)).
  by apply land_not64_mask; [lia|].
Qed.

Lemma pageOffset_spec a : pageOffset a = a mod kPageSize.
Proof. unfold pageOffset. change (kPageSize - 1) with (Z.ones 12). by rewrite Z.land_ones by lia. Qed.

(** A page and an offset identify an address. *)
Lemma same_byte a b :
  fits 64 a -> fits 64 b -> pageBase a = pageBase b -> pageOffset a = pageOffset b -> a = b.
Proof. intros Ha Hb. rewrite !pageBase_spec, !pageOffset_spec by done. lia. Qed.

Lemma pageBase_bounds a : fits 64 a -> fits 64 (pageBase a) /\ pageBase a mod kPageSize = 0.
Proof.
  intros Ha. rewrite pageBase_spec by done. unfold fits, kPageSize, kPageBits in *. split; dlia.
Qed.

Lemma pageOffset_bounds a : 0 <= pageOffset a < kPageSize.
Proof. rewrite pageOffset_spec. by apply Z.mod_pos_bound. Qed.

(** ** Well-formed memories *)

Definition page_ok (p : Page) : Prop := length p = Z.to_nat kPageSize /\ Forall (fits 8) p.

Record memory_ok (m : ExecMemory) : Prop := {
  memory_seed_ok : map_Forall (fun _ p => page_ok p) (seed_ m);
  memory_delta_ok : map_Forall (fun _ p => page_ok p) (delta_ m);
  memory_log_ok : Forall (fits 64) (writtenBytes_ m) }.

Lemma zeroPage_ok : page_ok zeroPage.
Proof.
  split; [apply repeat_length|]. apply Forall_forall. intros x Hx%list_elem_of_In%repeat_spec.
  subst. by apply fits_0.
Qed.

Lemma lookup_zeroPage o : 0 <= o < kPageSize -> zeroPage !! Z.to_nat o = Some 0.
Proof.
  intros Ho. destruct zeroPage_ok as [Hl _].
  destruct (lookup_lt_is_Some_2 zeroPage (Z.to_nat o)) as [x Hx]; [rewrite Hl; lia|].
  rewrite Hx. apply list_elem_of_lookup_2, list_elem_of_In, repeat_spec in Hx. by subst.
Qed.

Lemma setByte_ok p o b : page_ok p -> fits 8 b -> page_ok (setByte p o b).
Proof.
  intros [Hl Hf] Hb. unfold setByte. split; [by rewrite length_insert|by apply Forall_insert].
Qed.

Lemma pageAt_ok m base p : memory_ok m -> pageAt m base = Some p -> page_ok p.
Proof.
  intros [Hs Hd _]. unfold pageAt. destruct (delta_ m !! base) eqn:H.
  - intros [= <-]. by eapply Hd.
  - by apply Hs.
Qed.

Lemma default_seed_ok m base : memory_ok m -> page_ok (default zeroPage (seed_ m !! base)).
Proof.
  intros Hm. destruct (seed_ m !! base) eqn:H; [|apply zeroPage_ok]. exact (memory_seed_ok m Hm _ _ H).
Qed.

Lemma deltaPage_ok m base : memory_ok m -> page_ok (deltaPage m base).
Proof.
  intros Hm. unfold deltaPage. destruct (delta_ m !! base) eqn:H; [|by apply default_seed_ok].
  exact (memory_delta_ok m Hm _ _ H).
Qed.

Lemma emptyMemory_ok : memory_ok emptyMemory.
Proof. split; [apply map_Forall_empty..|constructor]. Qed.

Lemma storeByte_ok m a b : memory_ok m -> fits 8 b -> memory_ok (storeByte m a b).
Proof.
  intros Hm Hb. split; try apply Hm. apply map_Forall_insert_2; [|apply Hm].
  by apply setByte_ok; [apply deltaPage_ok|].
Qed.

Lemma recordWrite_ok m a : memory_ok m -> fits 64 a -> memory_ok (recordWrite m a).
Proof. intros Hm Ha. split; try apply Hm. apply Forall_app_2; [apply Hm|by constructor]. Qed.

(** ** The flat view *)

(** A byte present in the view: its page is mapped. *)
Lemma byteAt_mapped m a : memory_ok m -> is_Some (byteAt m a) <-> is_Some (pageAt m (pageBase a)).
Proof.
  intros Hm. unfold byteAt. destruct (pageAt m (pageBase a)) as [p|] eqn:Hp; cbn.
  - split; [by intros _; eexists|]. intros _. apply lookup_lt_is_Some.
    destruct (pageAt_ok m _ p Hm Hp) as [-> _]. pose proof (pageOffset_bounds a). lia.
  - split; [by intros []|by intros []].
Qed.

Lemma byteAt_fits m a b : memory_ok m -> byteAt m a = Some b -> fits 8 b.
Proof.
  intros Hm H. unfold byteAt in H. destruct (pageAt m _) as [p|] eqn:Hp; [|done].
  destruct (pageAt_ok m _ p Hm Hp) as [_ Hf]. rewrite Forall_forall in Hf.
  by eapply Hf, list_elem_of_lookup_2.
Qed.

(** Storing one byte changes that byte, and maps its page (with zeros where it
    was not mapped). *)
Lemma byteAt_storeByte m a b x :
  memory_ok m -> fits 64 a -> fits 64 x ->
  byteAt (storeByte m a b) x =
    if x =? a then Some b
    else if pageBase x =? pageBase a then Some (default 0 (byteAt m x)) else byteAt m x.
Proof.
  intros Hm Ha Hx. unfold byteAt, storeByte, pageAt at 1. cbn [delta_ seed_].
  pose proof (deltaPage_ok m (pageBase a) Hm) as [Hl _].
  pose proof (pageOffset_bounds a) as Hoa. pose proof (pageOffset_bounds x) as Hox.
  destruct (Z.eqb_spec x a) as [->|Hne].
  - rewrite lookup_insert_eq. cbn. unfold setByte. apply list_lookup_insert_eq. lia.
  - destruct (Z.eqb_spec (pageBase x) (pageBase a)) as [Heq|Hneq].
    + rewrite Heq, lookup_insert_eq. cbn. unfold setByte. rewrite list_lookup_insert_ne.
      2: { intros H. apply Hne, same_byte; [done..|]. lia. }
      unfold deltaPage, pageAt. destruct (delta_ m !! pageBase a) as [p|] eqn:Hd; cbn.
      { destruct (lookup_lt_is_Some_2 p (Z.to_nat (pageOffset x))) as [y Hy]; [|by rewrite Hy].
        pose proof (memory_delta_ok m Hm _ _ Hd) as [-> _]. lia. }
      destruct (seed_ m !! pageBase a) as [p|] eqn:Hs; cbn.
      { destruct (lookup_lt_is_Some_2 p (Z.to_nat (pageOffset x))) as [y Hy]; [|by rewrite Hy].
        pose proof (memory_seed_ok m Hm _ _ Hs) as [-> _]. lia. }
      by rewrite lookup_zeroPage by lia.
    + rewrite lookup_insert_ne by done. done.
Qed.

(** ** Which addresses are mapped *)

Definition step (page k : Z) : Z := u64 (page + k * kPageSize).

Lemma mappedPages_spec n m page :
  fits 64 page -> Z.of_nat n * kPageSize < 2 ^ 64 ->
  mappedPages n m page (step page (Z.of_nat n)) = true <->
  forall k, 0 <= k <= Z.of_nat n -> is_Some (pageAt m (step page k)).
Proof.
  assert (forall p, fits 64 p -> step p 0 = p) as H0.
  { intros p Hp. unfold step. rewrite Z.mul_0_l, Z.add_0_r. by apply u64_small. }
  assert (forall p k, step (add64 p kPageSize) k = step p (k + 1)) as Hs.
  { intros p k. unfold step, add64, u64. rewrite Zplus_mod_idemp_l. f_equal. lia. }
  unfold kPageSize, kPageBits in *.
  revert page. induction n as [|n IH]; intros page Hp Hn.
  - cbn [mappedPages Z.of_nat]. rewrite H0 by done. split.
    + intros H k Hk. assert (k = 0) as -> by lia. rewrite H0 by done. by destruct (pageAt m page).
    + intros H. specialize (H 0 ltac:(lia)). rewrite H0 in H by done.
      destruct (pageAt m page); [by rewrite Z.eqb_refl|by destruct H].
  - assert (page <> step page (Z.of_nat (S n))) as Hne.
    { unfold step, u64, kPageSize, kPageBits, fits in *. intros Heq.
      assert (0 < Z.of_nat (S n) * 2 ^ 12 < 2 ^ 64) by lia.
      destruct (Z.lt_ge_cases (page + Z.of_nat (S n) * 2 ^ 12) (2 ^ 64)).
      - rewrite Z.mod_small in Heq by lia. lia.
      - rewrite <-(Z.mod_add _ (-1)), Z.mod_small in Heq by lia. lia. }
    assert (step page (Z.of_nat (S n)) = step (add64 page (2 ^ 12)) (Z.of_nat n)) as Hstep
      by (change (2 ^ 12) with kPageSize; rewrite Hs; f_equal; lia).
    specialize (IH (add64 page (2 ^ 12)) (fits_u64 _) ltac:(lia)). rewrite <-Hstep in IH.
    cbn [mappedPages]. apply Z.eqb_neq in Hne. rewrite Hne. change kPageSize with (2 ^ 12).
    split.
    + intros H k Hk. destruct (pageAt m page) eqn:Hpg; [|done].
      destruct (Z.eq_dec k 0) as [->|Hk0]; [rewrite H0 by done; by rewrite Hpg|].
      apply proj1 in IH. specialize (IH H (k - 1) ltac:(lia)).
      change (2 ^ 12) with kPageSize in IH. rewrite Hs in IH. by replace (k - 1 + 1) with k in IH by lia.
    + intros H. pose proof (H 0 ltac:(lia)) as Hp0. rewrite H0 in Hp0 by done.
      destruct (pageAt m page); [|by destruct Hp0].
      apply IH. intros k Hk. change (2 ^ 12) with kPageSize. rewrite Hs. apply H. lia.
Qed.

(** The page of the [i]-th byte from [a]. *)
Lemma pageBase_step a i :
  fits 64 a -> 0 <= i ->
  pageBase (u64 (a + i)) = step (pageBase a) ((a mod kPageSize + i) / kPageSize).
Proof.
  intros Ha Hi. rewrite !pageBase_spec by (done || apply fits_u64).
  unfold step, u64, kPageSize, kPageBits, fits in *. dlia.
Qed.

(** [mapped] says whether every byte of the range is, around the end of the
    address space included; a range that nearly covers the address space is the
    exception. *)
Lemma mapped_spec m a size :
  memory_ok m -> fits 64 a -> 0 <= size <= 2 ^ 64 - kPageSize ->
  mapped m a size = true <-> forall i, 0 <= i < size -> is_Some (byteAt m (u64 (a + i))).
Proof.
  intros Hm Ha Hs. unfold mapped. destruct (Z.eqb_spec size 0) as [->|Hne].
  { split; [intros _ i ?; lia|done]. }
  pose proof (pageBase_bounds a Ha) as [Hpb _].
  set (d := (a mod kPageSize + (size - 1)) / kPageSize).
  assert (sub64 (add64 a size) 1 = u64 (a + (size - 1))) as ->.
  { unfold sub64, add64, u64. rewrite Zminus_mod_idemp_l. f_equal. lia. }
  rewrite pageBase_step by (done || lia). fold d.
  assert (0 <= d /\ d * kPageSize < 2 ^ 64) as [Hd0 Hd].
  { unfold d, kPageSize, kPageBits, fits in *. split; dlia. }
  assert (sub64 (step (pageBase a) d) (pageBase a) / kPageSize = d) as ->.
  { unfold step, sub64, u64. rewrite Zminus_mod_idemp_l.
    replace (pageBase a + d * kPageSize - pageBase a) with (d * kPageSize) by lia.
    rewrite Z.mod_small by (unfold kPageSize, kPageBits in *; lia). by rewrite Z.div_mul by done. }
  replace (step (pageBase a) d) with (step (pageBase a) (Z.of_nat (Z.to_nat d))) by (by rewrite Z2Nat.id).
  rewrite mappedPages_spec by (done || (rewrite Z2Nat.id by done; lia)). rewrite Z2Nat.id by done.
  split.
  - intros H i Hi. apply byteAt_mapped; [done|]. rewrite pageBase_step by (done || lia).
    apply H. unfold d, kPageSize, kPageBits in *. clear H. dlia.
  - intros H k Hk.
    set (i := Z.max 0 (k * kPageSize - a mod kPageSize)).
    assert (0 <= i < size /\ (a mod kPageSize + i) / kPageSize = k) as [Hi Hk'].
    { unfold i, d, kPageSize, kPageBits in *. clear H. split; dlia. }
    rewrite <-Hk', <-pageBase_step by (done || lia). apply byteAt_mapped; [done|]. by apply H.
Qed.

(** ** Values as bytes *)

Definition byteOf (u k : Z) : Z := (u / 2 ^ (8 * k)) mod 2 ^ 8.

Lemma byteOf_fits u k : fits 8 (byteOf u k).
Proof. apply fits_mod. lia. Qed.

Lemma testbit_byteOf u k j : 0 <= k -> 0 <= j < 8 -> Z.testbit (byteOf u k) j = Z.testbit u (8 * k + j).
Proof.
  intros Hk Hj. unfold byteOf. rewrite Z.mod_pow2_bits_low by lia.
  rewrite <-Z.shiftr_div_pow2, Z.shiftr_spec by lia. f_equal. lia.
Qed.

(** Canonical values with the same bytes are equal. *)
Lemma bytes_ext n v w :
  0 <= n <= 16 -> canon (8 * n) v -> canon (8 * n) w ->
  (forall k, 0 <= k < n -> byteOf (uval v) k = byteOf (uval w) k) -> v = w.
Proof.
  intros Hn [Hv Hvc] [Hw Hwc] H. apply uval_inj; [done..|]. apply Z.bits_inj'. intros j Hj.
  destruct (Z.ltb_spec j (8 * n)).
  - replace j with (8 * (j / 8) + j mod 8) by dlia.
    rewrite <-!testbit_byteOf by dlia. by rewrite H by dlia.
  - by rewrite !(testbit_high (8 * n)) by (done || lia).
Qed.

Lemma valueByte_spec v k : wf128 v -> 0 <= k < 16 -> valueByte v k = byteOf (uval v) k.
Proof.
  intros [Hl Hh] Hk. unfold valueByte, shr64. change 255 with (Z.ones 8).
  unfold byteOf, uval, fits in *. destruct (Z.ltb_spec k 8).
  - rewrite Z.land_ones, Z.shiftr_div_pow2 by lia. replace (k * 8) with (8 * k) by lia.
    apply Z.bits_inj'. intros j Hj. destruct (Z.ltb_spec j 8); [|by rewrite !Z.mod_pow2_bits_high by lia].
    rewrite !Z.mod_pow2_bits_low by lia. rewrite <-!Z.shiftr_div_pow2, !Z.shiftr_spec by lia.
    rewrite <-(Z.mod_pow2_bits_low (lo v + hi v * 2 ^ 64) 64) by lia.
    rewrite Z.mod_add, Z.mod_small by lia. done.
  - rewrite Z.land_ones, Z.shiftr_div_pow2 by lia. f_equal.
    replace (2 ^ (8 * k)) with (2 ^ 64 * 2 ^ ((k - 8) * 8)) by (rewrite <-Z.pow_add_r by lia; f_equal; lia).
    rewrite <-Z.div_div by lia. f_equal. rewrite Z.div_add by lia. by rewrite Z.div_small by lia.
Qed.

(** Placing a byte above the bytes read so far. *)
Lemma orByte_spec v i b :
  0 <= i < 16 -> canon (8 * i) v -> fits 8 b ->
  canon (8 * (i + 1)) (orByte v i b) /\ uval (orByte v i b) = uval v + b * 2 ^ (8 * i).
Proof.
  intros Hi [[Hl Hh] Hc] Hb.
  assert (uval (orByte v i b) = uval v + b * 2 ^ (8 * i) /\ wf128 (orByte v i b)) as [Hu Hwf].
  - unfold orByte, uval, wf128, fits in *. destruct (Z.ltb_spec i 8); cbn [lo hi].
    + pose proof (Z.pow_le_mono_r 2 (8 * i) 56 ltac:(lia) ltac:(lia)).
      assert (shl64 b (i * 8) = Z.shiftl b (8 * i)) as ->.
      { unfold shl64. replace (i * 8) with (8 * i) by lia. apply u64_small. unfold fits.
        rewrite Z.shiftl_mul_pow2 by lia. nia. }
      rewrite lor_add_shiftl by (unfold fits; lia || lia). split; [lia|]. split; [nia|lia].
    + pose proof (Z.pow_le_mono_r 2 ((i - 8) * 8) 56 ltac:(lia) ltac:(lia)).
      assert (shl64 b ((i - 8) * 8) = Z.shiftl b ((i - 8) * 8)) as ->.
      { unfold shl64. apply u64_small. unfold fits. rewrite Z.shiftl_mul_pow2 by lia. nia. }
      assert (2 ^ (8 * i) = 2 ^ 64 * 2 ^ ((i - 8) * 8)) as Hp
        by (rewrite <-Z.pow_add_r by lia; f_equal; lia).
      rewrite lor_add_shiftl by (unfold fits; nia || lia). split; [lia|]. split; [lia|nia].
  - split; [|done]. split; [done|]. rewrite Hu. unfold fits in *.
    replace (2 ^ (8 * (i + 1))) with (2 ^ 8 * 2 ^ (8 * i)) by (rewrite <-Z.pow_add_r by lia; f_equal; lia).
    nia.
Qed.

Lemma byteOf_add u i b k :
  0 <= i -> fits (8 * i) u -> fits 8 b -> 0 <= k <= i ->
  byteOf (u + b * 2 ^ (8 * i)) k = if k =? i then b else byteOf u k.
Proof.
  unfold fits, byteOf. intros Hi Hu Hb Hk. pose proof (pow2_pos (8 * i) ltac:(lia)).
  destruct (Z.eqb_spec k i) as [->|Hne].
  - rewrite Z.div_add by lia. rewrite Z.div_small by lia. by apply Z.mod_small.
  - replace (2 ^ (8 * i)) with (2 ^ (8 * (i - k - 1)) * 2 ^ 8 * 2 ^ (8 * k))
      by (rewrite <-!Z.pow_add_r by lia; f_equal; lia).
    rewrite Z.mul_assoc, Z.div_add by (pose proof (pow2_pos (8 * k)); lia).
    rewrite Z.mul_assoc. by rewrite Z.mod_add by lia.
Qed.

(** ** Reading *)

Lemma readBytes_spec m a count i v :
  memory_ok m -> 0 <= i -> i + Z.of_nat count <= 16 -> canon (8 * i) v ->
  (forall k, i <= k < i + Z.of_nat count -> is_Some (byteAt m (u64 (a + k)))) ->
  exists r, readBytes count m a i v = Some r /\ canon (8 * (i + Z.of_nat count)) r /\
    (forall k, 0 <= k < i -> byteOf (uval r) k = byteOf (uval v) k) /\
    (forall k, i <= k < i + Z.of_nat count -> byteAt m (u64 (a + k)) = Some (byteOf (uval r) k)).
Proof.
  intros Hm. revert i v. induction count as [|count IH]; intros i v Hi Hc Hv Hb.
  { exists v. split; [done|]. rewrite Z.add_0_r. split_and!; [done|done|lia]. }
  cbn [readBytes]. destruct (Hb i ltac:(lia)) as [b Hbi]. unfold add64. rewrite Hbi. cbn [mbind option_bind].
  pose proof (byteAt_fits m _ b Hm Hbi) as Hbf. pose proof (proj2 Hv) as Hvf.
  destruct (orByte_spec v i b ltac:(lia) Hv Hbf) as [Hv' Hu].
  destruct (IH (i + 1) (orByte v i b)) as (r & Hr & Hcr & Hlow & Hhigh); [lia|lia|done|intros; apply Hb; lia|].
  exists r. split; [done|]. split; [by replace (i + Z.of_nat (S count)) with (i + 1 + Z.of_nat count) by lia|].
  split.
  - intros k Hk. rewrite Hlow, Hu, byteOf_add by (done || lia). by replace (k =? i) with false by lia.
  - intros k Hk. destruct (Z.eq_dec k i) as [->|]; [|apply Hhigh; lia].
    rewrite Hbi, Hlow, Hu, byteOf_add by (done || lia). by rewrite Z.eqb_refl.
Qed.

(** A successful read: the bytes of the view, little-endian, and nothing above. *)
Lemma read_spec m a n :
  memory_ok m -> fits 64 a -> 1 <= n <= 16 -> mapped m a n = true ->
  exists v, read m a n = Ok v /\ canon (8 * n) v /\
    forall k, 0 <= k < n -> byteAt m (u64 (a + k)) = Some (byteOf (uval v) k).
Proof.
  intros Hm Ha Hn Hmap. unfold read. replace ((n =? 0) || (16 <? n)) with false by lia. rewrite Hmap.
  cbn [negb]. pose proof (proj1 (mapped_spec m a n Hm Ha ltac:(unfold kPageSize, kPageBits; lia)) Hmap) as Hb.
  destruct (readBytes_spec m a (Z.to_nat n) 0 zero128 Hm) as (r & Hr & Hc & _ & Hbytes); [lia|lia| | |].
  { apply canon_zero. lia. } { intros k Hk. apply Hb. lia. }
  rewrite Hr. exists r. split; [done|]. rewrite Z2Nat.id, Z.add_0_l in * by lia. split; [done|].
  intros k Hk. apply Hbytes. lia.
Qed.

(** ** Writing *)

Lemma valueByte_fits v k : fits 8 (valueByte v k).
Proof.
  assert (forall z, fits 8 (Z.land z 255)) as H.
  { intros z. change 255 with (Z.ones 8). rewrite Z.land_ones by lia. apply fits_mod. lia. }
  unfold valueByte. destruct (k <? 8); apply H.
Qed.

Lemma byteAt_recordWrite m a x : byteAt (recordWrite m a) x = byteAt m x.
Proof. done. Qed.

(** Storing to a mapped page changes nothing else. *)
Lemma byteAt_storeByte_mapped m a b x :
  memory_ok m -> fits 64 a -> fits 64 x -> is_Some (byteAt m a) ->
  byteAt (storeByte m a b) x = if x =? a then Some b else byteAt m x.
Proof.
  intros Hm Ha Hx Hmap. rewrite byteAt_storeByte by done. destruct (Z.eqb_spec x a); [done|].
  destruct (Z.eqb_spec (pageBase x) (pageBase a)) as [Heq|]; [|done].
  apply byteAt_mapped in Hmap; [|done]. rewrite <-Heq in Hmap. apply byteAt_mapped in Hmap; [|done].
  by destruct Hmap as [y ->].
Qed.

Lemma add64_distinct a j k : 0 <= j < 16 -> 0 <= k < 16 -> u64 (a + j) = u64 (a + k) -> j = k.
Proof. unfold u64. intros. dlia. Qed.

Lemma writeBytes_spec m a count i v :
  memory_ok m -> 0 <= i -> i + Z.of_nat count <= 16 ->
  (forall k, i <= k < i + Z.of_nat count -> is_Some (byteAt m (u64 (a + k)))) ->
  let m' := writeBytes count m a i v in
  memory_ok m' /\ seed_ m' = seed_ m /\
  writtenBytes_ m' = writtenBytes_ m ++ ((fun k => u64 (a + k)) <$> seqZ i (Z.of_nat count)) /\
  (forall k, i <= k < i + Z.of_nat count -> byteAt m' (u64 (a + k)) = Some (valueByte v k)) /\
  (forall x, fits 64 x -> (forall k, i <= k < i + Z.of_nat count -> x <> u64 (a + k)) ->
     byteAt m' x = byteAt m x).
Proof.
  revert m i. induction count as [|count IH]; intros m i Hm Hi Hc Hb; cbn [writeBytes].
  { cbn zeta. split_and!; [done|done|by rewrite app_nil_r|lia|done]. }
  set (m1 := recordWrite (storeByte m (add64 a i) (valueByte v i)) (add64 a i)).
  assert (fits 64 (add64 a i)) as Hai by apply fits_u64.
  assert (forall x, fits 64 x -> byteAt m1 x = if x =? u64 (a + i) then Some (valueByte v i) else byteAt m x)
    as Hm1 by (intros x Hx; unfold m1; rewrite byteAt_recordWrite; apply byteAt_storeByte_mapped;
               [done|done|done|apply Hb; lia]).
  assert (memory_ok m1) as Hok1 by (apply recordWrite_ok; [apply storeByte_ok; [done|apply valueByte_fits]|done]).
  destruct (IH m1 (i + 1) Hok1 ltac:(lia) ltac:(lia)) as (Hok & Hs & Hw & Hin & Hout).
  { intros k Hk. rewrite Hm1 by apply fits_u64. destruct (_ =? _); [done|apply Hb; lia]. }
  split_and!; [done|by rewrite Hs| | |].
  - rewrite Hw. unfold m1. cbn [writtenBytes_ recordWrite storeByte].
    rewrite (seqZ_cons i (Z.of_nat (S count))) by lia. rewrite <-app_assoc. f_equal. cbn. f_equal.
    f_equal. f_equal; lia.
  - intros k Hk. destruct (Z.eq_dec k i) as [->|Hne]; [|apply Hin; lia].
    rewrite Hout.
    + rewrite Hm1 by apply fits_u64. by rewrite Z.eqb_refl.
    + apply fits_u64.
    + intros k Hk' Heq. apply add64_distinct in Heq; lia.
  - intros x Hx Hne. rewrite Hout by (done || (intros k Hk'; apply Hne; lia)). rewrite Hm1 by done.
    assert (x <> u64 (a + i)) as Hxi by (apply Hne; lia). apply Z.eqb_neq in Hxi. by rewrite Hxi.
Qed.

Lemma write_Ok m a n v m' :
  memory_ok m -> fits 64 a -> write m a n v = Ok m' ->
  (n <> 0 /\ n <= 16) /\ mapped m a n = true /\ m' = writeBytes (Z.to_nat n) m a 0 v.
Proof.
  intros Hm Ha. unfold write. destruct (_ || _) eqn:Hn; [done|]. destruct (mapped m a n) eqn:Hmap; [|done].
  intros <-%Ok_inj. split; [lia|done].
Qed.

Lemma write_spec m a n v m' :
  memory_ok m -> fits 64 a -> 0 <= n -> write m a n v = Ok m' ->
  1 <= n <= 16 /\ memory_ok m' /\ seed_ m' = seed_ m /\
  writtenBytes_ m' = writtenBytes_ m ++ ((fun k => u64 (a + k)) <$> seqZ 0 n) /\
  (forall k, 0 <= k < n -> byteAt m' (u64 (a + k)) = Some (valueByte v k)) /\
  (forall x, fits 64 x -> (forall k, 0 <= k < n -> x <> u64 (a + k)) -> byteAt m' x = byteAt m x).
Proof.
  intros Hm Ha Hn0 Hw. destruct (write_Ok m a n v m' Hm Ha Hw) as ([Hne Hle] & Hmap & ->).
  pose proof (proj1 (mapped_spec m a n Hm Ha ltac:(unfold kPageSize, kPageBits; lia)) Hmap) as Hb.
  pose proof (writeBytes_spec m a (Z.to_nat n) 0 v Hm) as H. rewrite Z2Nat.id, Z.add_0_l in H by lia.
  split; [lia|]. apply H; [lia|lia|]. intros k Hk. apply Hb. lia.
Qed.

(** ** The write set *)

Lemma unique_cons2 y z l :
  unique (y :: z :: l) = if y =? z then unique (z :: l) else y :: unique (z :: l).
Proof. done. Qed.

Lemma elem_of_unique l x : x ∈ unique l <-> x ∈ l.
Proof.
  induction l as [|y [|z l] IH]; [done|done|]. rewrite unique_cons2.
  destruct (Z.eqb_spec y z) as [->|]; [rewrite IH, !elem_of_cons; tauto|].
  rewrite elem_of_cons, IH. by rewrite (elem_of_cons (z :: l)).
Qed.

Lemma unique_sorted l : StronglySorted Z.le l -> StronglySorted Z.lt (unique l).
Proof.
  induction l as [|y [|z l] IH]; intros Hs; [constructor|repeat constructor|].
  inversion Hs as [|? ? Hs' Hf]; subst. rewrite unique_cons2. specialize (IH Hs').
  destruct (Z.eqb_spec y z) as [->|Hne]; [done|]. constructor; [done|].
  apply Forall_forall. intros x Hx. rewrite elem_of_unique in Hx. rewrite Forall_forall in Hf.
  inversion Hs' as [|? ? _ Hf']; subst. rewrite Forall_forall in Hf'.
  pose proof (Hf z ltac:(left)). apply elem_of_cons in Hx as [->|Hx]; [lia|]. specialize (Hf' x Hx). lia.
Qed.

Lemma sorted_log m : StronglySorted Z.lt (unique (merge_sort Z.le (writtenBytes_ m))).
Proof. apply unique_sorted. apply (StronglySorted_merge_sort Z.le). Qed.

Definition inRange (x : Z) (r : WrittenRange) : Prop := rangeAddress r <= x < rangeAddress r + rangeSize r.

(** [r'] starts after a gap behind [r]. *)
Definition apart (r r' : WrittenRange) : Prop := rangeAddress r + rangeSize r < rangeAddress r'.

Lemma coalesce_spec start prev l :
  0 <= start <= prev -> prev < 2 ^ 64 -> Forall (fits 64) l -> StronglySorted Z.lt (prev :: l) ->
  0 < start \/ Forall (fun x => x < 2 ^ 64 - 1) (prev :: l) ->
  (forall x, (exists r, r ∈ coalesce start prev l /\ inRange x r) <-> start <= x <= prev \/ x ∈ l) /\
  StronglySorted apart (coalesce start prev l) /\
  Forall (fun r => start <= rangeAddress r /\ 1 <= rangeSize r) (coalesce start prev l).
Proof.
  assert (forall s p, 0 <= s <= p -> p < 2 ^ 64 -> 0 < s \/ p < 2 ^ 64 - 1 ->
            add64 (sub64 p s) 1 = p - s + 1) as Hsize.
  { intros s p Hs Hp Hh. unfold add64, sub64. rewrite (u64_small (p - s)) by (unfold fits; lia).
    apply u64_small. unfold fits. lia. }
  revert start prev. induction l as [|va l IH]; intros start prev Hsp Hp Hfl Hs Hh; cbn [coalesce];
    (assert (0 < start \/ prev < 2 ^ 64 - 1) as Hh' by (destruct Hh as [|Hh]; [by left|right; by inversion Hh])).
  - rewrite Hsize by done. split_and!.
    + intros x. split.
      * intros (r & ->%list_elem_of_singleton & Hr). unfold inRange in Hr. cbn in Hr. left. lia.
      * intros [Hx|Hx%elem_of_nil]; [|done]. eexists. split; [by apply list_elem_of_singleton|].
        unfold inRange. cbn. lia.
    + repeat constructor.
    + constructor; [cbn; lia|constructor].
  - inversion Hs as [|? ? Hs' Hf]; subst. inversion Hfl as [|? ? Hva Hfl']; subst.
    inversion Hf as [|? ? Hlt Hf']; subst. unfold fits in Hva.
    assert (0 < va \/ Forall (fun x => x < 2 ^ 64 - 1) (va :: l)) as Hhv by (left; lia).
    destruct (Z.eq_dec va (prev + 1)) as [->|Hne].
    + assert (add64 prev 1 = prev + 1) as Ha by (apply u64_small; unfold fits; lia).
      rewrite Ha, Z.eqb_refl, andb_false_r.
      destruct (IH start (prev + 1)) as (Hc & Hso & Hb); try done; [lia|lia| |].
      { destruct Hh as [|Hh]; [by left|right; by inversion Hh]. }
      split_and!; [|done|done]. intros x. rewrite Hc, elem_of_cons.
      split; intros [Hx|Hx]; [destruct (Z.eq_dec x (prev + 1)); [right; by left|left; lia]
        |right; by right|left; lia|destruct Hx; [left; lia|by right]].
    + replace (va =? prev) with false by lia.
      assert ((va =? add64 prev 1) = false) as ->.
      { apply Z.eqb_neq. unfold add64. rewrite u64_small by (unfold fits; lia). done. }
      cbn [negb andb].
      destruct (IH va va) as (Hc & Hso & Hb); try done; [lia|lia|].
      rewrite Hsize by done. split_and!.
      * intros x. split.
        -- intros (r & [->|Hr]%elem_of_cons & Hin); [left; unfold inRange in Hin; cbn in Hin; lia|].
           assert (va <= x <= va \/ x ∈ l) as Hx by (apply Hc; eauto).
           right. apply elem_of_cons. destruct Hx; [left; lia|by right].
        -- intros [Hx|Hx].
           ++ eexists. split; [by left|]. unfold inRange. cbn. lia.
           ++ assert (exists r, r ∈ coalesce va va l /\ inRange x r) as (r & Hr & Hin).
              { apply Hc. apply elem_of_cons in Hx as [->|]; [left; lia|by right]. }
              exists r. split; [by right|done].
      * constructor; [done|]. eapply Forall_impl; [exact Hb|]. intros r [Hr _]. unfold apart. cbn. lia.
      * constructor; [cbn; lia|]. eapply Forall_impl; [exact Hb|]. intros r Hr. cbn in Hr. lia.
Qed.

(** ** Seeds and setup writes *)

Lemma fillDelta_ok m a bs :
  memory_ok m -> fits 64 a -> Forall (fits 8) bs ->
  memory_ok (fillDelta m a bs) /\ clearDelta (fillDelta m a bs) = clearDelta m /\
  writtenBytes_ (fillDelta m a bs) = writtenBytes_ m.
Proof.
  intros Hm Ha Hbs. revert m a Hm Ha. induction Hbs as [|b bs Hb _ IH]; intros m a Hm Ha; cbn [fillDelta]; [done|].
  destruct (IH (storeByte m a b) (add64 a 1)) as (? & Hc & Hw); [by apply storeByte_ok|apply fits_u64|].
  split_and!; [done|by rewrite Hc|by rewrite Hw].
Qed.

Lemma write_clearDelta m a n v m' :
  memory_ok m -> fits 64 a -> 0 <= n -> write m a n v = Ok m' -> clearDelta m' = clearDelta m.
Proof.
  intros Hm Ha Hn H. destruct (write_spec m a n v m' Hm Ha Hn H) as (_ & _ & Hs & _).
  unfold clearDelta. by rewrite Hs.
Qed.

Lemma seed_ok m a bs :
  memory_ok m -> fits 64 a -> Forall (fits 8) bs -> memory_ok (seed m a bs).
Proof.
  intros Hm Ha Hbs. revert m a Hm Ha. induction Hbs as [|b bs Hb _ IH]; intros m a Hm Ha; cbn [seed]; [done|].
  apply IH; [|apply fits_u64]. split; try apply Hm. apply map_Forall_insert_2; [|apply Hm].
  by apply setByte_ok; [apply default_seed_ok|].
Qed.

(** One run over a seeded memory: setup writes and stores, in any order. *)
Inductive run_step (m m' : ExecMemory) : Prop :=
  | run_fill a bs : fits 64 a -> Forall (fits 8) bs -> m' = fillDelta m a bs -> run_step m m'
  | run_write a n v : fits 64 a -> 0 <= n -> write m a n v = Ok m' -> run_step m m'.

(** ** The interface of the interpreter *)

(** What an [ExecMemoryBackend] promises: reads of at most 16 bytes give values
    of that many bytes, a state it calls valid stays valid, and an access
    returns or fails with a diagnostic of its own. *)
Class ExecMemoryBackend (B : Type) : Type := {
  backendRead : B -> Z -> Z -> Res ConcreteValue;
  backendWrite : B -> Z -> Z -> ConcreteValue -> Res B;
  backend_ok : B -> Prop }.

Class BackendLaws (B : Type) `{ExecMemoryBackend B} : Prop := {
  backend_read_canon b a n v :
    backend_ok b -> fits 64 a -> 0 <= n -> backendRead b a n = Ok v -> n <= 16 /\ canon (8 * n) v;
  backend_write_ok b a n v b' :
    backend_ok b -> fits 64 a -> 0 <= n -> backendWrite b a n v = Ok b' -> backend_ok b';
  backend_read_good b a n : backend_ok b -> fits 64 a -> 0 <= n -> good (backendRead b a n);
  backend_write_good b a n v : backend_ok b -> fits 64 a -> 0 <= n -> good (backendWrite b a n v) }.

#[export] Instance ExecMemory_backend : ExecMemoryBackend ExecMemory := {
  backendRead := read; backendWrite := write; backend_ok := memory_ok }.

#[export] Instance ExecMemory_laws : BackendLaws ExecMemory.
Proof.
  split.
  - intros m a n v Hm Ha Hn H. cbn in *.
    assert (1 <= n <= 16 /\ mapped m a n = true) as [Hn' Hmap].
    { unfold read in H. destruct (_ || _) eqn:Hb; [done|]. destruct (mapped m a n); [|done]. lia. }
    destruct (read_spec m a n Hm Ha Hn' Hmap) as (v' & Hv' & Hc & _).
    rewrite H in Hv'. apply Ok_inj in Hv' as <-. split; [lia|done].
  - intros m a n v m' Hm Ha Hn H. by destruct (write_spec m a n v m' Hm Ha Hn H) as (_ & ? & _).
  - intros m a n Hm Ha Hn. cbn. destruct (decide (1 <= n <= 16)) as [Hr|Hr].
    + destruct (mapped m a n) eqn:Hmap; [|unfold read; rewrite Hmap; by destruct (_ || _)].
      by destruct (read_spec m a n Hm Ha Hr Hmap) as (v & -> & _).
    + unfold read. by replace ((n =? 0) || (16 <? n)) with true by lia.
  - intros m a n v Hm Ha Hn. cbn. unfold write. destruct (_ || _); [done|]. by destruct (negb _).
Qed.

(** ** Properties *)

(** C28 A store is seen by a load of the same range and by no other: after a
    successful [write] of [n] bytes, [read] of that range returns the value's low
    [n] bytes, every byte outside the range is as before, the pages stay
    well-formed, the seed layer is untouched, and the write set gained exactly
    the range; around the end of the address space included. *)
Theorem read_after_write m a n v m' :
  memory_ok m -> fits 64 a -> 0 <= n -> wf128 v -> write m a n v = Ok m' ->
  read m' a n = Ok (mask v (8 * n)) /\
  (forall x, fits 64 x -> (forall k, 0 <= k < n -> x <> u64 (a + k)) -> byteAt m' x = byteAt m x) /\
  memory_ok m' /\ seed_ m' = seed_ m /\
  writtenBytes_ m' = writtenBytes_ m ++ ((fun k => u64 (a + k)) <$> seqZ 0 n).
Proof.
  intros Hm Ha Hn0 Hv H. destruct (write_spec m a n v m' Hm Ha Hn0 H) as (Hn & Hm' & Hs & Hw & Hin & Hout).
  split_and!; [|done..].
  assert (mapped m' a n = true) as Hmap.
  { apply mapped_spec; [done|done|unfold kPageSize, kPageBits; lia|]. intros k Hk. by rewrite Hin. }
  destruct (read_spec m' a n Hm' Ha Hn Hmap) as (r & Hr & Hc & Hb). rewrite Hr. f_equal.
  apply (bytes_ext n); [lia|done|by apply canon_mask; [lia|]|].
  intros k Hk. assert (Some (byteOf (uval r) k) = Some (byteOf (uval v) k)) as [= ->].
  { rewrite <-Hb, Hin by done. by rewrite valueByte_spec by (done || lia). }
  rewrite uval_mask by (done || lia). apply Z.bits_inj'. intros j Hj. destruct (Z.ltb_spec j 8).
  - rewrite !testbit_byteOf by lia. by rewrite Z.mod_pow2_bits_low by lia.
  - by rewrite !(testbit_high 8) by (apply byteOf_fits || done).
Qed.

(** Loads and stores fault exactly when they should: a size of zero or above
    16 is an internal error, a range with an unmapped byte is an unmapped-address
    fault at its first address, and every other access succeeds, a load with the
    little-endian value of the range's bytes. A store that faults writes nothing. *)
Theorem memory_faults m a n v :
  memory_ok m -> fits 64 a -> 0 <= n ->
  ((n = 0 \/ 16 < n) -> read m a n = err DiagCode.Internal /\ write m a n v = err DiagCode.Internal) /\
  (1 <= n <= 16 -> (exists k, 0 <= k < n /\ byteAt m (u64 (a + k)) = None) ->
     read m a n = errAt DiagCode.UnmappedAddress a /\ write m a n v = errAt DiagCode.UnmappedAddress a) /\
  (1 <= n <= 16 -> (forall k, 0 <= k < n -> is_Some (byteAt m (u64 (a + k)))) ->
     (exists r, read m a n = Ok r /\ canon (8 * n) r /\
        forall k, 0 <= k < n -> byteAt m (u64 (a + k)) = Some (byteOf (uval r) k)) /\
     exists m', write m a n v = Ok m').
Proof.
  intros Hm Ha Hn. pose proof (fun H => mapped_spec m a n Hm Ha H) as Hms. split_and!.
  - intros Hb. unfold read, write. by replace ((n =? 0) || (16 <? n)) with true by lia.
  - intros Hb (k & Hk & Hnone). unfold read, write. replace ((n =? 0) || (16 <? n)) with false by lia.
    assert (mapped m a n = false) as ->; [|done]. apply not_true_is_false. intros Hmap.
    rewrite Hms in Hmap by (unfold kPageSize, kPageBits; lia).
    destruct (Hmap k Hk) as [b Hb']. congruence.
  - intros Hb Hall. assert (mapped m a n = true) as Hmap
      by (apply Hms; [unfold kPageSize, kPageBits; lia|done]).
    split; [by apply read_spec|]. unfold write. replace ((n =? 0) || (16 <? n)) with false by lia.
    rewrite Hmap. cbn. by eexists.
Qed.

(** [writtenRanges] reports the write set: an address lies in one of the
    ranges exactly when a store wrote it since the last [clearDelta], and the
    ranges are non-empty, ascending, and separated by unwritten bytes, unless
    both ends of the address space were written. *)
Theorem writtenRanges_exact m :
  memory_ok m -> 0 ∉ writtenBytes_ m \/ 2 ^ 64 - 1 ∉ writtenBytes_ m ->
  (forall x, (exists r, r ∈ writtenRanges m /\ inRange x r) <-> x ∈ writtenBytes_ m) /\
  StronglySorted apart (writtenRanges m) /\ Forall (fun r => 1 <= rangeSize r) (writtenRanges m).
Proof.
  intros Hm Hends. pose proof (sorted_log m) as Hs. unfold writtenRanges.
  assert (forall x, x ∈ unique (merge_sort Z.le (writtenBytes_ m)) <-> x ∈ writtenBytes_ m) as Hmem.
  { intros x. rewrite elem_of_unique. by rewrite merge_sort_Permutation. }
  assert (Forall (fits 64) (unique (merge_sort Z.le (writtenBytes_ m)))) as Hf.
  { apply Forall_forall. intros x Hx. rewrite Hmem in Hx.
    pose proof (memory_log_ok m Hm) as Hl. rewrite Forall_forall in Hl. by apply Hl. }
  destruct (unique _) as [|va l] eqn:Hu.
  { split_and!; [|constructor..]. intros x. rewrite <-Hmem. split; [intros (r & Hr & _)|intros Hx];
      by apply elem_of_nil in Hr || apply elem_of_nil in Hx. }
  cbn [coalesce]. rewrite Z.eqb_refl. cbn [negb andb].
  inversion Hf as [|? ? Hva Hfl]; subst. unfold fits in Hva.
  destruct (coalesce_spec va va l) as (Hc & Hso & Hb); [lia|lia|done|done| |].
  { destruct (Z.lt_ge_cases 0 va); [by left|right]. assert (va = 0) as -> by lia.
    destruct Hends as [H0|H1]; [exfalso; apply H0, Hmem; left|].
    apply Forall_forall. intros x Hx. rewrite Forall_forall in Hf. specialize (Hf x Hx). unfold fits in Hf.
    destruct (Z.eq_dec x (2 ^ 64 - 1)) as [->|]; [|lia]. exfalso. by apply H1, Hmem. }
  split_and!; [|done|by eapply Forall_impl; [exact Hb|]; intros r []].
  intros x. rewrite Hc, <-Hmem, elem_of_cons. split; (intros [?|?]; [left; lia|by right]).
Qed.

(** Clearing the delta undoes a run: after any sequence of setup writes and
    stores from a well-formed memory, [clearDelta] gives the memory it gives
    before them, so seeds persist and nothing of the run survives. *)
Theorem clearDelta_undoes_run m m' :
  memory_ok m -> rtc run_step m m' ->
  memory_ok m' /\ clearDelta m' = clearDelta m /\ writtenRanges (clearDelta m') = [] /\
  forall x, byteAt (clearDelta m') x = byteAt (clearDelta m) x.
Proof.
  intros Hm Hr. assert (memory_ok m' /\ clearDelta m' = clearDelta m) as [Hm' Hc].
  { induction Hr as [m|m m1 m2 Hstep _ IH]; [done|].
    assert (memory_ok m1 /\ clearDelta m1 = clearDelta m) as [Hm1 Hc1].
    { destruct Hstep as [a bs Ha Hbs ->|a n v Ha Hn H].
      - by destruct (fillDelta_ok m a bs Hm Ha Hbs) as (? & ? & _).
      - split; [by destruct (write_spec m a n v m1 Hm Ha Hn H) as (_ & ? & _)|by eapply write_clearDelta]. }
    destruct (IH Hm1) as [? Hc2]. split; [done|]. by rewrite Hc2. }
  split_and!; [done|done|done|]. intros x. by rewrite Hc.
Qed.

(** ** Witnesses *)

(** Two pages, the second seeded with one byte; stores of the witnesses cross
    the page boundary. *)
Definition sampleMemory : ExecMemory := seed (seed emptyMemory 4096 [1; 2; 3]) 8192 [7].

Lemma sampleMemory_ok : memory_ok sampleMemory.
Proof.
  apply seed_ok; [apply seed_ok; [apply emptyMemory_ok|unfold fits; lia|]|unfold fits; lia|];
    repeat constructor; lia.
Qed.

Definition isOk {A} (r : Res A) : bool := match r with Ok _ => true | _ => false end.

Lemma isOk_Ok {A} (r : Res A) : isOk r = true -> exists a, r = Ok a.
Proof. destruct r as [a| |]; [by exists a|done..]. Qed.

Definition sampleWord : ConcreteValue := MkU128 0xAABBCCDD 0.

Lemma sample_store : exists m', write sampleMemory 8190 4 sampleWord = Ok m'.
Proof. apply isOk_Ok. vm_compute. reflexivity. Qed.

Lemma sample_address : fits 64 8190.
Proof. unfold fits. lia. Qed.

Lemma sample_word : wf128 sampleWord.
Proof. split; unfold fits; cbn; lia. Qed.

Lemma read_after_write_witness :
  exists m', write sampleMemory 8190 4 sampleWord = Ok m' /\ read m' 8190 4 = Ok sampleWord.
Proof.
  destruct sample_store as [m' H]. exists m'. split; [exact H|].
  exact (proj1 (read_after_write sampleMemory 8190 4 sampleWord m' sampleMemory_ok sample_address
    ltac:(lia) sample_word H)).
Defined.

Lemma memory_faults_witness :
  read sampleMemory 8190 17 = err DiagCode.Internal /\
  read sampleMemory 12287 2 = errAt DiagCode.UnmappedAddress 12287.
Proof.
  assert (fits 64 12287) as Ha by (unfold fits; lia). split.
  - exact (proj1 (proj1 (memory_faults sampleMemory 8190 17 sampleWord sampleMemory_ok sample_address
      ltac:(lia)) (or_intror (eq_refl : 16 < 17)))).
  - apply (proj1 (proj2 (memory_faults sampleMemory 12287 2 sampleWord sampleMemory_ok Ha ltac:(lia))));
      [lia|]. exists 1. split; [lia|]. vm_compute. reflexivity.
Defined.

Lemma sample_run : exists m', rtc run_step sampleMemory m' /\ memory_ok m' /\
  0 ∉ writtenBytes_ m' /\ write sampleMemory 8190 4 sampleWord = Ok m'.
Proof.
  destruct sample_store as [m' H]. exists m'.
  destruct (write_spec sampleMemory 8190 4 sampleWord m' sampleMemory_ok sample_address ltac:(lia) H)
    as (_ & Hm & _ & Hw & _).
  split; [|split; [exact Hm|split; [|exact H]]].
  - eapply rtc_once. eapply run_write; [exact sample_address| |exact H]. lia.
  - rewrite Hw. intros Hx%list_elem_of_In. cbn in Hx. destruct Hx as [Hx|[Hx|[Hx|[Hx|[]]]]]; discriminate Hx.
Qed.

Lemma writtenRanges_exact_witness :
  exists m', write sampleMemory 8190 4 sampleWord = Ok m' /\
    forall x, (exists r, r ∈ writtenRanges m' /\ inRange x r) <-> x ∈ writtenBytes_ m'.
Proof.
  destruct sample_run as (m' & _ & Hm & H0 & H). exists m'. split; [exact H|].
  exact (proj1 (writtenRanges_exact m' Hm (or_introl H0))).
Defined.

Lemma clearDelta_undoes_run_witness :
  exists m', rtc run_step sampleMemory m' /\ clearDelta m' = clearDelta sampleMemory.
Proof.
  destruct sample_run as (m' & Hr & _). exists m'. split; [exact Hr|].
  exact (proj1 (proj2 (clearDelta_undoes_run sampleMemory m' sampleMemory_ok Hr))).
Defined.
