(* ===== verification/Interp.v ===== *)
(** * il::Interpreter (il/interp.h, il/interp.cpp)

    Execution of one basic block: the machine state, register access through
    sub-register views, and [runBlock] over a memory of the interface
    [ExecMemoryBackend] and an embedder's hooks. Expressions are evaluated by
    [Eval.eval] in the environment the machine supplies. *)
From S2P Require Import Prelude Bits U128 Types Exprs Registers Func Eval VerifyExpr ValueTypes Memory.

(** ** State *)

(** The mutable members: one cell per register, the values of the block and
    which of them are defined, and the memory. *)
Record Machine (B : Type) : Type := MkMachine {
  cells : list ConcreteValue; slots : list ConcreteValue; defined : list bool; memory : B }.
Arguments MkMachine {B}. Arguments cells {B}. Arguments slots {B}. Arguments defined {B}.
Arguments memory {B}.

Definition valueCount (f : Function) : nat := length (values (tables f)).

Definition resetState {B} (f : Function) (m : Machine B) : Machine B :=
  MkMachine (repeat zero128 (length (registers_ (registers f)))) (repeat zero128 (valueCount f))
    (repeat false (valueCount f)) (memory m).

(** [std::vector::resize] with a default element. *)
Definition resizeTo {A} (n : nat) (x : A) (l : list A) : list A :=
  take n l ++ repeat x (n - length l).

(** [rebind], after its assertion that the register file is shared. *)
Definition rebind {B} (f : Function) (m : Machine B) : Machine B :=
  MkMachine (cells m) (resizeTo (valueCount f) zero128 (slots m)) (repeat false (valueCount f)) (memory m).

(** ** Registers *)

(** The walk of [writeRegister] from a view up to its root: [par] is the value
    being assembled, which starts as the root's contents. *)
Fixpoint writeViews (fuel : nat) (file : RegisterFile) (root level : N) (current par : U128)
  : option U128 :=
  if (level =? root)%N then Some par
  else match fuel with
  | O => None
  | S fuel =>
      view ← rfAt file level;
      p ← rfAt file (parent view);
      let par :=
        if zeroExtendsParent view then zext current (regBits view) (regBits p)
        else insert par current (offsetInParent view) (regBits view) (regBits p) in
      writeViews fuel file root (parent view) par par
  end.

Definition setCell (cs : list ConcreteValue) (reg : N) (v : ConcreteValue) : option (list ConcreteValue) :=
  if (reg <? N.of_nat (length cs))%N then Some (<[N.to_nat reg := v]> cs) else None.

Definition writeRegister (file : RegisterFile) (cs : list ConcreteValue) (reg : N) (value : ConcreteValue)
  : option (list ConcreteValue) :=
  i ← rfAt file reg;
  if decide (regClass i = RegClass.Zero) then Some cs
  else if decide (regClass i = RegClass.Flags) then setCell cs reg (MkU128 (Z.land (lo value) 15) 0)
  else
    root ← rootOf file reg;
    if (root =? reg)%N then setCell cs root (mask value (regBits i))
    else
      cell ← cs !! N.to_nat root;
      par ← writeViews (length (registers_ file)) file root reg value cell;
      r ← rfAt file root;
      setCell cs root (mask par (regBits r)).

(** The sum of the offsets from a view up to its root. *)
Fixpoint viewOffset (fuel : nat) (file : RegisterFile) (root level : N) (offset : Z) : option Z :=
  if (level =? root)%N then Some offset
  else match fuel with
  | O => None
  | S fuel =>
      view ← rfAt file level;
      viewOffset fuel file root (parent view) (u32 (offset + offsetInParent view))
  end.

Definition readRegister (file : RegisterFile) (cs : list ConcreteValue) (reg : N) : option ConcreteValue :=
  i ← rfAt file reg;
  if decide (regClass i = RegClass.Zero) then Some zero128
  else if decide (regClass i = RegClass.Flags) then
    cell ← cs !! N.to_nat reg; Some (MkU128 (Z.land (lo cell) 15) 0)
  else
    root ← rootOf file reg;
    cell ← cs !! N.to_nat root;
    offset ← viewOffset (length (registers_ file)) file root reg 0;
    r ← rfAt file root;
    Some (extract cell (regBits r) offset (regBits i)).

(** ** Outcomes *)

Module ExecStop.
Inductive ExecStop : Set :=
  | Branch | CondBranch | IndirectBranch | Call | Return | Unreachable | Unimplemented | Intrinsic
  | Interrupted | Error.
End ExecStop.
Abbreviation ExecStop := ExecStop.ExecStop.

#[export] Instance ExecStop_eq_dec : EqDecision ExecStop.
Proof. solve_decision. Defined.

Definition execStopToString (s : ExecStop) : string :=
  match s with
  | ExecStop.Branch => "branch"
  | ExecStop.CondBranch => "cond-branch"
  | ExecStop.IndirectBranch => "indirect-branch"
  | ExecStop.Call => "call"
  | ExecStop.Return => "return"
  | ExecStop.Unreachable => "unreachable"
  | ExecStop.Unimplemented => "unimplemented"
  | ExecStop.Intrinsic => "intrinsic"
  | ExecStop.Interrupted => "interrupted"
  | ExecStop.Error => "error"
  end%string.

(** [detail]: a name, or what a formatted diagnostic is made from. *)
Inductive Detail : Set := NoDetail | Named (s : string) | Fault (d : Diag) | Message (s : string).

Record ExecOutcome : Set := MkOutcome {
  stop : ExecStop; outcomeVa : Z; outcomeTarget : Z; fallthrough : Z; condition : bool;
  detail : Detail }.

Definition stopped (s : ExecStop) (ova : Z) : ExecOutcome := MkOutcome s ova 0 0 false NoDetail.
Definition stoppedAt (s : ExecStop) (ova target : Z) : ExecOutcome := MkOutcome s ova target 0 false NoDetail.
Definition stoppedWith (s : ExecStop) (ova : Z) (d : Detail) : ExecOutcome := MkOutcome s ova 0 0 false d.
Definition fail (d : Detail) (ova : Z) : ExecOutcome := stoppedWith ExecStop.Error ova d.

(** ** Execution *)

(** The hooks, each of which may update a state [X] of the embedder's. The
    intrinsic hook's [false] is [None]. *)
Record Hooks (X : Type) : Type := MkHooks {
  interruptHook : option (Op -> X -> bool * X);
  opHook : option (Op -> X -> X);
  intrinsicHook : option (string -> Ty -> list ConcreteValue -> X -> option ConcreteValue * X) }.
Arguments MkHooks {X}. Arguments interruptHook {X}. Arguments opHook {X}. Arguments intrinsicHook {X}.

Section Run.
Context {B X : Type} `{ExecMemoryBackend B}.

Abbreviation MachineB := (Machine B).

(** What the machine supplies to the expressions it evaluates. *)
Definition machineEnv (f : Function) (m : MachineB) : Env :=
  MkEnv
    (fun value =>
      if hasValue f value then
        isDefined ← ofOption (defined m !! N.to_nat value);
        if (isDefined : bool) then ofOption (slots m !! N.to_nat value) else err DiagCode.VerifyFailure
      else err DiagCode.VerifyFailure)
    (fun reg => ofOption (readRegister (registers f) (cells m) reg)).

Definition evalIn (f : Function) (m : MachineB) (id : N) : Res ConcreteValue := eval f (machineEnv f m) id.

(** The lambda [define]. *)
Definition define (m : MachineB) (value : N) (contents : ConcreteValue) : option MachineB :=
  if (value <? N.of_nat (length (slots m)))%N && (value <? N.of_nat (length (defined m)))%N
  then Some (MkMachine (cells m) (<[N.to_nat value := contents]> (slots m))
               (<[N.to_nat value := true]> (defined m)) (memory m))
  else None.

(** After one operation: go on, or stop with an outcome. *)
Inductive Next : Type := Continue (m : MachineB) (x : X) | Stop (o : ExecOutcome) (m : MachineB) (x : X).

(** [if (!value) return fail(value.error().format(), op.va)]; [None] is a use of
    something C++ leaves undefined. *)
Definition orFail {A} (r : Res A) (m : MachineB) (x : X) (ova : Z) (k : A -> option Next) : option Next :=
  match r with
  | Ok a => k a
  | Err d => Some (Stop (fail (Fault d) ova) m x)
  | Undefined => None
  end.

(** [function.block(function.targets(op)[i]).va]. *)
Definition targetVa (f : Function) (o : Op) (i : nat) : option Z :=
  ts ← targetsOf (tables f) o; t ← ts !! i; blockVa <$> blockAtId f t.

(** Evaluate the arguments of an intrinsic in order. *)
Definition evalArguments (f : Function) (m : MachineB) (xs : list N) : Res (list ConcreteValue) :=
  mapRes (evalIn f m) xs.

(** The switch of [runBlock]. *)
Definition execOp (f : Function) (hooks : Hooks X) (o : Op) (m : MachineB) (x : X) : option Next :=
  xs ← operandsOf (tables f) o;
  match code o with
  | OpCode.ReadReg =>
      v ← readRegister (registers f) (cells m) (payload o);
      m' ← define m (result o) v;
      Some (Continue m' x)
  | OpCode.WriteReg =>
      a ← xs !! 0%nat;
      orFail (evalIn f m a) m x (va o) (fun v =>
        cs ← writeRegister (registers f) (cells m) (payload o) v;
        Some (Continue (MkMachine cs (slots m) (defined m) (memory m)) x))
  | OpCode.Load =>
      a ← xs !! 0%nat;
      orFail (evalIn f m a) m x (va o) (fun address =>
        orFail (backendRead (memory m) (lo address) (bits (opType o) / 8)) m x (va o) (fun contents =>
          m' ← define m (result o) contents;
          Some (Continue m' x)))
  | OpCode.Store =>
      a ← xs !! 0%nat;
      b ← xs !! 1%nat;
      match evalIn f m a, evalIn f m b with
      | Undefined, _ | _, Undefined => None
      | Err d, _ => Some (Stop (fail (Fault d) (va o)) m x)
      | _, Err d => Some (Stop (fail (Fault d) (va o)) m x)
      | Ok address, Ok value =>
          orFail (backendWrite (memory m) (lo address) (bits (opType o) / 8) value) m x (va o) (fun mem =>
            Some (Continue (MkMachine (cells m) (slots m) (defined m) mem) x))
      end
  | OpCode.Branch =>
      target ← targetVa f o 0;
      Some (Stop (stoppedAt ExecStop.Branch (va o) target) m x)
  | OpCode.CondBranch =>
      a ← xs !! 0%nat;
      orFail (evalIn f m a) m x (va o) (fun c =>
        target ← targetVa f o 0;
        other ← targetVa f o 1;
        Some (Stop (MkOutcome ExecStop.CondBranch (va o) target other
                      (negb (Z.land (lo c) 1 =? 0)) NoDetail) m x))
  | OpCode.IndirectBranch =>
      a ← xs !! 0%nat;
      orFail (evalIn f m a) m x (va o) (fun target =>
        Some (Stop (stoppedAt ExecStop.IndirectBranch (va o) (lo target)) m x))
  | OpCode.Call =>
      a ← xs !! 0%nat;
      orFail (evalIn f m a) m x (va o) (fun target =>
        Some (Stop (stoppedAt ExecStop.Call (va o) (lo target)) m x))
  | OpCode.Return => Some (Stop (stopped ExecStop.Return (va o)) m x)
  | OpCode.Unreachable => Some (Stop (stopped ExecStop.Unreachable (va o)) m x)
  | OpCode.Unimplemented =>
      Some (Stop (stoppedWith ExecStop.Unimplemented (va o) (Named (nameOf f (payload o)))) m x)
  | OpCode.Nop => Some (Continue m x)
  | OpCode.Intrinsic =>
      orFail (evalArguments f m xs) m x (va o) (fun args =>
        let declined x :=
          Some (Stop (stoppedWith ExecStop.Intrinsic (va o) (Named (nameOf f (payload o)))) m x) in
        match intrinsicHook hooks with
        | None => declined x
        | Some hook =>
            match hook (nameOf f (payload o)) (opType o) args x with
            | (None, x) => declined x
            | (Some v, x) =>
                if handleValid (result o) then m' ← define m (result o) v; Some (Continue m' x)
                else Some (Continue m x)
            end
        end)
  | OpCode.Phi => Some (Stop (fail (Message "phi nodes do not exist before SSA construction") (va o)) m x)
  end.

(** One iteration of the loop of [runBlock], the hooks first. *)
Definition execStep (f : Function) (hooks : Hooks X) (o : Op) (m : MachineB) (x : X) : option Next :=
  let '(interrupted, x) :=
    match interruptHook hooks with Some hook => hook o x | None => (false, x) end in
  if interrupted then Some (Stop (stopped ExecStop.Interrupted (va o)) m x)
  else
    let x := match opHook hooks with Some hook => hook o x | None => x end in
    execOp f hooks o m x.

Fixpoint runOps (f : Function) (hooks : Hooks X) (end_ : Z) (opIds : list N) (m : MachineB) (x : X)
  : option (ExecOutcome * MachineB * X) :=
  match opIds with
  | [] => Some (fail (Message "block has no terminator") end_, m, x)
  | opId :: opIds =>
      o ← opAt f opId;
      next ← execStep f hooks o m x;
      match next with
      | Continue m x => runOps f hooks end_ opIds m x
      | Stop outcome m x => Some (outcome, m, x)
      end
  end.

(** The value slots a block starts with. *)
Definition freshSlots (f : Function) (m : MachineB) : MachineB :=
  if (length (slots m) =? valueCount f)%nat
  then MkMachine (cells m) (slots m) (repeat false (length (defined m))) (memory m)
  else MkMachine (cells m) (repeat zero128 (valueCount f)) (repeat false (valueCount f)) (memory m).

Definition runBlock (f : Function) (hooks : Hooks X) (block : N) (m : MachineB) (x : X)
  : option (ExecOutcome * MachineB * X) :=
  b ← blockAtId f block;
  runOps f hooks (endVa b) (blockOps b) (freshSlots f m) x.
End Run.
