(* ===== verification/RegisterViews.v ===== *)
(** * Register access through views (il/interp.cpp)

    [writeRegister] and [readRegister] over a well-formed register file: a
    register reads back what was written to it, through any chain of views;
    writing a view directly below its root keeps or clears the root's other
    bits as the view declares; through a longer chain the other bits are lost. *)
From S2P Require Import Prelude Bits U128 Types Exprs Registers Func Eval VerifyExpr ValueTypes Memory Interp.

(** Registers of at most 128 bits, with zero-extending views at offset zero:
    what the interpreter supports. *)
Record file_ok (file : RegisterFile) : Prop := {
  file_wf : rf_wf file;
  file_narrow : forall reg i, rfAt file reg = Some i ->
    0 <= regBits i <= 128 /\ (zeroExtendsParent i = true -> offsetInParent i = 0) }.

(** One cell per register, each a value of the register's type. *)
Definition cells_ok (file : RegisterFile) (cs : list ConcreteValue) : Prop :=
  length cs = length (registers_ file) /\
  forall reg i v, rfAt file reg = Some i -> cs !! N.to_nat reg = Some v -> val_ok (registerType i) v.

Lemma testbit_insert_wf dest field offset width dw i :
  0 <= dw <= 128 -> 0 <= offset -> 0 <= width -> offset + width <= dw ->
  wf128 dest -> canon width field -> 0 <= i < dw ->
  Z.testbit (uval (insert dest field offset width dw)) i =
    if (offset <=? i) && (i <? offset + width) then Z.testbit (uval field) (i - offset)
    else Z.testbit (uval dest) i.
Proof.
  intros Hdw Ho Hw Hfit Hd [Hf Hfc] Hi. unfold insert.
  assert (wf128 (shl (maskOf width) dw offset)) as Hms by (apply wf_shl; [|apply wf_maskOf]; lia).
  assert (wf128 (mask (shl (maskOf width) dw offset) dw)) as Hmw by (apply wf_mask; lia || done).
  assert (wf128 (shl field dw offset)) by (apply wf_shl; lia || done).
  rewrite uval_mask by (lia || apply wf_or128; auto using wf_insert_kept).
  rewrite uval_or128, uval_insert_kept by auto using wf_insert_kept.
  rewrite uval_mask, !uval_shl by (auto using wf_maskOf with lia).
  bit_cases; bit_finish.
Qed.

(** A view's parent, with the bounds well-formedness gives. *)
Lemma view_parent file level view :
  file_ok file -> rfAt file level = Some view -> isSubRegister view = true ->
  exists p, rfAt file (parent view) = Some p /\ (parent view < level)%N /\
    0 <= offsetInParent view /\ offsetInParent view + regBits view <= regBits p /\ regClass view = regClass p.
Proof.
  intros [Hwf _] Hl Hs. pose proof Hl as [Hl' _]%vget_Some.
  destruct (rf_views file Hwf _ _ Hl') as [_ [Hp|(p & Hlt & Hne & Hp & Hc & Ho & Hb)]].
  - unfold isSubRegister, handleValid in Hs. rewrite Hp in Hs. done.
  - exists p. split_and!; try done; [by apply vget_Some|lia].
Qed.

Lemma rootLoop_cases fuel file level root view :
  rootLoop fuel file level = Some root -> rfAt file level = Some view ->
  (isSubRegister view = false /\ root = level) \/
  (isSubRegister view = true /\ exists fuel', fuel = S fuel' /\ rootLoop fuel' file (parent view) = Some root).
Proof.
  destruct fuel as [|fuel]; cbn [rootLoop]; [done|]. intros H Hv. rewrite Hv in H. cbn in H.
  destruct (isSubRegister view); [right|left].
  - split; [done|]. by exists fuel.
  - by injection H as <-.
Qed.

(** The bits of [cur] in the result of the walk, at the view's offset. *)
Definition atOffset (r : U128) (off width : Z) (cur : U128) : Prop :=
  forall i, 0 <= i < width -> Z.testbit (uval r) (off + i) = Z.testbit (uval cur) i.

(** One level of the walk: the parent's value holds the view's at its offset. *)
Definition parentValue (view p : RegisterInfo) (cur par : U128) : U128 :=
  if zeroExtendsParent view then zext cur (regBits view) (regBits p)
  else insert par cur (offsetInParent view) (regBits view) (regBits p).

Lemma parentValue_spec file level view p cur par :
  file_ok file -> rfAt file level = Some view -> rfAt file (parent view) = Some p ->
  0 <= offsetInParent view -> offsetInParent view + regBits view <= regBits p ->
  canon (regBits view) cur -> wf128 par ->
  canon (regBits p) (parentValue view p cur par) /\
  atOffset (parentValue view p cur par) (offsetInParent view) (regBits view) cur.
Proof.
  intros Hf Hv Hp Ho Hb Hc Hpar. destruct (file_narrow file Hf _ _ Hv) as [Hvb Hz].
  destruct (file_narrow file Hf _ _ Hp) as [Hpb _]. unfold parentValue, atOffset.
  destruct (zeroExtendsParent view).
  - rewrite (zext_canon cur) by (done || lia). rewrite Hz by done. split; [apply (canon_weaken (regBits view)); done || lia|].
    intros i Hi. by rewrite Z.add_0_l.
  - split; [apply canon_insert; lia || done || apply Hc|]. intros i Hi.
    rewrite testbit_insert_wf by (done || lia).
    replace (_ && _) with true by lia. f_equal. lia.
Qed.

Lemma writeViews_step fuel file root level view p cur par :
  (level <> root) -> rfAt file level = Some view -> rfAt file (parent view) = Some p ->
  writeViews (S fuel) file root level cur par =
    writeViews fuel file root (parent view) (parentValue view p cur par) (parentValue view p cur par).
Proof. intros Hne Hv Hp. cbn [writeViews]. apply N.eqb_neq in Hne. rewrite Hne, Hv. cbn [mbind option_bind]. by rewrite Hp. Qed.

Lemma viewOffset_step fuel file root level view offset :
  (level <> root) -> rfAt file level = Some view ->
  viewOffset (S fuel) file root level offset =
    viewOffset fuel file root (parent view) (u32 (offset + offsetInParent view)).
Proof. intros Hne Hv. cbn [viewOffset]. apply N.eqb_neq in Hne. by rewrite Hne, Hv. Qed.

(** Both walks from a view to its root succeed and agree on where the view is. *)
Lemma views_agree file n level root ri view cur acc :
  file_ok file -> (N.to_nat level < n)%nat -> rfAt file level = Some view -> rfAt file root = Some ri ->
  isSubRegister ri = false -> rootLoop n file level = Some root ->
  canon (regBits view) cur -> 0 <= acc -> acc + regBits ri - regBits view <= 2 ^ 31 ->
  exists r off, writeViews n file root level cur cur = Some r /\
    viewOffset n file root level acc = Some (acc + off) /\ 0 <= off /\ off + regBits view <= regBits ri /\
    canon (regBits ri) r /\ atOffset r off (regBits view) cur.
Proof.
  intros Hf. revert level view cur acc. induction n as [|n IH]; intros level view cur acc Hn Hl Hr Hri Hroot Hc Ha Hacc.
  { lia. }
  destruct (rootLoop_cases _ _ _ _ _ Hroot Hl) as [[Hs ->]|(Hs & n' & [= <-] & Hroot')].
  - assert (view = ri) as -> by congruence. exists cur, 0. cbn [writeViews viewOffset].
    rewrite N.eqb_refl, !Z.add_0_r. split_and!; done || lia.
  - destruct (view_parent file level view Hf Hl Hs) as (p & Hp & Hlt & Ho & Hb & _).
    assert (level <> root) as Hne by (intros ->; congruence).
    destruct (parentValue_spec file level view p cur cur Hf Hl Hp Ho Hb Hc (proj1 Hc)) as [Hcp Hat].
    destruct (file_narrow file Hf _ _ Hp) as [Hpb _]. destruct (file_narrow file Hf _ _ Hr) as [Hrb _].
    assert (u32 (acc + offsetInParent view) = acc + offsetInParent view) as Hu
      by (unfold u32; apply Z.mod_small; lia).
    destruct (IH (parent view) p (parentValue view p cur cur) (acc + offsetInParent view))
      as (r & off & Hw & Hv & Hoff & Hfit & Hcr & Hatr); try done; try lia.
    exists r, (offsetInParent view + off). rewrite (writeViews_step n file root level view p) by done.
    rewrite (viewOffset_step n file root level view) by done. rewrite Hu, Hv.
    split_and!; try done; try (f_equal; lia); try lia.
    intros i Hi. replace (offsetInParent view + off + i) with (off + (offsetInParent view + i)) by lia.
    rewrite Hatr by lia. by apply Hat.
Qed.

(** ** Cells *)

Lemma registerType_flags file reg i :
  file_ok file -> rfAt file reg = Some i -> regClass i = RegClass.Flags -> registerType i = flagsType.
Proof. intros _ _ Hc. unfold registerType. by rewrite decide_True. Qed.

Lemma registerType_int file reg i v :
  file_ok file -> rfAt file reg = Some i -> regClass i <> RegClass.Flags ->
  val_ok (registerType i) v <-> canon (regBits i) v.
Proof.
  intros Hf Hi Hc. destruct (file_narrow file Hf _ _ Hi) as [Hb _]. unfold registerType.
  rewrite decide_False by done. unfold val_ok, isFlags, bits. cbn.
  assert (u16 (regBits i) = regBits i) as -> by (unfold u16; apply Z.mod_small; lia).
  cbn. by rewrite Z.mul_1_r || done.
Qed.

Lemma rfAt_cell file cs reg i :
  cells_ok file cs -> rfAt file reg = Some i -> exists v, cs !! N.to_nat reg = Some v.
Proof.
  intros [Hl _] [Hi _]%vget_Some. apply lookup_lt_is_Some. rewrite Hl. by eapply lookup_lt_Some.
Qed.

Lemma setCell_spec file cs reg i v :
  cells_ok file cs -> rfAt file reg = Some i -> val_ok (registerType i) v ->
  exists cs', setCell cs reg v = Some cs' /\ cells_ok file cs' /\ cs' !! N.to_nat reg = Some v /\
    forall r, r <> reg -> cs' !! N.to_nat r = cs !! N.to_nat r.
Proof.
  intros Hcs Hi Hv. destruct (rfAt_cell file cs reg i Hcs Hi) as [c Hc]. pose proof Hc as Hlt%lookup_lt_Some.
  unfold setCell. replace (reg <? N.of_nat (length cs))%N with true by (symmetry; apply N.ltb_lt; lia).
  eexists. split; [done|]. destruct Hcs as [Hl Hall]. split_and!.
  - split; [by rewrite length_insert|]. intros r j w Hj Hw.
    destruct (decide (r = reg)) as [->|Hne].
    + rewrite list_lookup_insert_eq in Hw by done. by simplify_eq.
    + rewrite list_lookup_insert_ne in Hw by lia. by eapply Hall.
  - by apply list_lookup_insert_eq.
  - intros r Hne. apply list_lookup_insert_ne. lia.
Qed.

Lemma val_ok_flags v : val_ok flagsType (MkU128 (Z.land v 15) 0).
Proof.
  split; [done|]. cbn. change 15 with (Z.ones 4). rewrite Z.land_ones by lia. apply fits_mod. lia.
Qed.

(** Reading a view at its offset in its root's cell. *)
Lemma extract_atOffset cell cw off w v :
  0 <= cw <= 128 -> 0 <= off -> 0 <= w -> w <= 128 -> canon cw cell -> canon w v -> atOffset cell off w v ->
  extract cell cw off w = v.
Proof.
  intros Hcw Ho Hw Hw' Hc [Hv Hvc] Hat. apply uval_inj; [apply canon_extract; done || lia || apply Hc|done|].
  rewrite uval_extract by (done || lia). apply Z.bits_inj'. intros i Hi. destruct (Z.ltb_spec i w).
  - rewrite Z.mod_pow2_bits_low, Z.shiftr_spec by lia. rewrite Z.add_comm. apply Hat. lia.
  - rewrite Z.mod_pow2_bits_high by lia. by rewrite (testbit_high w).
Qed.

Lemma rootOf_loop file reg root :
  rootOf file reg = Some root -> rootLoop (length (registers_ file)) file reg = Some root.
Proof. unfold rootOf. by destruct (rfContains file reg). Qed.

Lemma rfAt_lt file reg i : rfAt file reg = Some i -> (N.to_nat reg < length (registers_ file))%nat.
Proof. intros [Hi _]%vget_Some. by eapply lookup_lt_Some. Qed.

(** Writing a register of an ordinary class sets its root's cell, in which the
    register's bits are the value's; a direct view takes [parentValue]. *)
Lemma writeRegister_cell file cs reg i v :
  file_ok file -> cells_ok file cs -> rfAt file reg = Some i ->
  regClass i <> RegClass.Zero -> regClass i <> RegClass.Flags -> canon (regBits i) v ->
  exists root ri cell off cs', rootOf file reg = Some root /\ rfAt file root = Some ri /\
    isSubRegister ri = false /\ regClass ri = regClass i /\
    viewOffset (length (registers_ file)) file root reg 0 = Some off /\ 0 <= off /\
    writeRegister file cs reg v = Some cs' /\ cells_ok file cs' /\ cs' !! N.to_nat root = Some cell /\
    canon (regBits ri) cell /\ atOffset cell off (regBits i) v /\
    (forall r, r <> root -> cs' !! N.to_nat r = cs !! N.to_nat r) /\
    (parent i = root -> isSubRegister i = true ->
       exists old, cs !! N.to_nat root = Some old /\ cell = parentValue i ri v old).
Proof.
  intros Hf Hcs Hi Hz Hfl Hv. pose proof (file_wf file Hf) as Hwf.
  destruct (rootOf_total file reg i Hwf Hi) as (root & ri & Hroot & _ & Hri & Hrs & Hrc).
  pose proof (rootOf_loop _ _ _ Hroot) as Hloop. pose proof (rfAt_lt _ _ _ Hi) as Hlt.
  assert (regClass ri <> RegClass.Flags) as Hrf by congruence.
  destruct (file_narrow file Hf _ _ Hi) as [Hib _]. destruct (file_narrow file Hf _ _ Hri) as [Hrb _].
  exists root, ri. unfold writeRegister. rewrite Hi. cbn [mbind option_bind].
  rewrite !decide_False by done. rewrite Hroot. cbn [mbind option_bind].
  destruct (rootLoop_cases _ _ _ _ _ Hloop Hi) as [[Hs ->]|(Hs & n' & Hn & Hloop')].
  - assert (ri = i) as -> by congruence. rewrite N.eqb_refl, (mask_canon v) by (done || lia).
    destruct (setCell_spec file cs reg i v Hcs Hi) as (cs' & Hset & Hok & Hcell & Hother);
      [by apply (registerType_int file reg)|].
    exists v, 0, cs'. rewrite Hset. split_and!; try done.
    + destruct (length (registers_ file)); cbn [viewOffset]; by rewrite N.eqb_refl.
    + congruence.
  - destruct (view_parent file reg i Hf Hi Hs) as (p & Hp & Hplt & Ho & Hb & _).
    assert (reg <> root) as Hne by (intros ->; congruence). assert ((root =? reg)%N = false) as -> by (apply N.eqb_neq; congruence).
    destruct (rfAt_cell file cs root ri Hcs Hri) as [old Hold]. rewrite Hold. cbn [mbind option_bind].
    assert (canon (regBits ri) old) as Holdc.
    { apply (registerType_int file root ri old Hf Hri Hrf). by eapply Hcs. }
    destruct (parentValue_spec file reg i p v old Hf Hi Hp Ho Hb Hv (proj1 Holdc)) as [Hcp Hat].
    destruct (file_narrow file Hf _ _ Hp) as [Hpb _].
    assert (u32 (0 + offsetInParent i) = offsetInParent i) as Hu by (unfold u32; apply Z.mod_small; lia).
    destruct (views_agree file n' (parent i) root ri p (parentValue i p v old) (offsetInParent i) Hf)
      as (r & off & Hw & Hvo & Hoff & Hfit & Hcr & Hatr); try done; try lia.
    rewrite Hn, (writeViews_step n' file root reg i p), Hw by done. cbn [mbind option_bind].
    rewrite Hri. cbn [mbind option_bind]. rewrite (mask_canon r) by (done || lia).
    destruct (setCell_spec file cs root ri r Hcs Hri) as (cs' & Hset & Hok & Hcell & Hother);
      [by apply (registerType_int file root)|].
    exists r, (offsetInParent i + off), cs'. rewrite (viewOffset_step n' file root reg i), Hu, Hvo by done.
    split_and!; try done; try lia.
    + intros k Hk. replace (offsetInParent i + off + k) with (off + (offsetInParent i + k)) by lia.
      rewrite Hatr by lia. by apply Hat.
    + intros Hpr _. exists old. split; [done|]. rewrite Hpr in *. assert (p = ri) as -> by congruence.
      destruct n' as [|n']; cbn [writeViews] in Hw; rewrite N.eqb_refl in Hw; by injection Hw.
Qed.

(** What a read returns, from the cell of the root. *)
Lemma readRegister_cell file cs reg i root ri cell off :
  rfAt file reg = Some i -> regClass i <> RegClass.Zero -> regClass i <> RegClass.Flags ->
  rootOf file reg = Some root -> rfAt file root = Some ri -> cs !! N.to_nat root = Some cell ->
  viewOffset (length (registers_ file)) file root reg 0 = Some off ->
  readRegister file cs reg = Some (extract cell (regBits ri) off (regBits i)).
Proof.
  intros Hi Hz Hf Hr Hri Hc Ho. unfold readRegister. rewrite Hi. cbn [mbind option_bind].
  rewrite !decide_False, Hr by done. cbn [mbind option_bind]. rewrite Hc. cbn [mbind option_bind].
  rewrite Ho. cbn [mbind option_bind]. by rewrite Hri.
Qed.

(** A read depends on the cell of the register's root only. *)
Lemma readRegister_frame file cs cs' reg i root :
  file_ok file -> rfAt file reg = Some i -> rootOf file reg = Some root ->
  (regClass i = RegClass.Flags -> cs' !! N.to_nat reg = cs !! N.to_nat reg) ->
  cs' !! N.to_nat root = cs !! N.to_nat root ->
  readRegister file cs' reg = readRegister file cs reg.
Proof.
  intros Hf Hi Hr Hfl Hc. unfold readRegister. rewrite Hi. cbn [mbind option_bind].
  destruct (decide (regClass i = RegClass.Zero)); [done|].
  destruct (decide (regClass i = RegClass.Flags)); [by rewrite Hfl|].
  rewrite Hr. cbn [mbind option_bind]. by rewrite Hc.
Qed.

(** Every register can be read, and its contents are of its type. *)
Lemma readRegister_ok file cs reg i :
  file_ok file -> cells_ok file cs -> rfAt file reg = Some i ->
  exists v, readRegister file cs reg = Some v /\ val_ok (registerType i) v.
Proof.
  intros Hf Hcs Hi. destruct (file_narrow file Hf _ _ Hi) as [Hb _].
  destruct (decide (regClass i = RegClass.Zero)) as [Hz|Hz].
  { exists zero128. unfold readRegister. rewrite Hi. cbn [mbind option_bind]. rewrite decide_True by done.
    split; [done|]. apply (registerType_int file reg); [done|done|congruence|]. apply canon_zero. lia. }
  destruct (decide (regClass i = RegClass.Flags)) as [Hfl|Hfl].
  { destruct (rfAt_cell file cs reg i Hcs Hi) as [c Hc]. eexists. unfold readRegister. rewrite Hi.
    cbn [mbind option_bind]. rewrite decide_False, decide_True, Hc by done. split; [done|].
    rewrite (registerType_flags file reg i) by done. apply val_ok_flags. }
  destruct (writeRegister_cell file cs reg i zero128 Hf Hcs Hi Hz Hfl) as
    (root & ri & _ & off & _ & Hroot & Hri & _ & Hrc & Hoff & Hoff0 & _); [apply canon_zero; lia|].
  destruct (rfAt_cell file cs root ri Hcs Hri) as [cell Hcell].
  eexists. split; [by apply (readRegister_cell file cs reg i root ri cell off)|].
  apply (registerType_int file reg); [done..|]. destruct (file_narrow file Hf _ _ Hri).
  apply canon_extract; [lia..|]. apply val_ok_wf with (registerType ri). by eapply Hcs.
Qed.

(** Every register can be written with a value of its type. *)
Lemma writeRegister_ok file cs reg i v :
  file_ok file -> cells_ok file cs -> rfAt file reg = Some i -> val_ok (registerType i) v ->
  exists cs', writeRegister file cs reg v = Some cs' /\ cells_ok file cs'.
Proof.
  intros Hf Hcs Hi Hv.
  destruct (decide (regClass i = RegClass.Zero)) as [Hz|Hz].
  { exists cs. unfold writeRegister. rewrite Hi. cbn [mbind option_bind]. by rewrite decide_True. }
  destruct (decide (regClass i = RegClass.Flags)) as [Hfl|Hfl].
  { unfold writeRegister. rewrite Hi. cbn [mbind option_bind]. rewrite decide_False, decide_True by done.
    destruct (setCell_spec file cs reg i (MkU128 (Z.land (lo v) 15) 0) Hcs Hi) as (cs' & ? & ? & _);
      [rewrite (registerType_flags file reg i) by done; apply val_ok_flags|by exists cs']. }
  destruct (writeRegister_cell file cs reg i v Hf Hcs Hi Hz Hfl) as
    (root & ri & _ & off & cs' & _ & _ & _ & _ & _ & _ & Hw & Hok & _);
    [by apply (registerType_int file reg)|by exists cs'].
Qed.

(** A flag register keeps its own cell, which no register with another root reads. *)
Lemma readRegister_apart file cs cs' reg i other j :
  file_ok file -> rfAt file reg = Some i -> rfAt file other = Some j -> rootOf file other <> rootOf file reg ->
  (forall r, r <> reg -> cs' !! N.to_nat r = cs !! N.to_nat r) ->
  readRegister file cs' other = readRegister file cs other.
Proof.
  intros Hf Hi Hj Hne Hother. pose proof (file_wf file Hf) as Hwf.
  destruct (rootOf_total file other j Hwf Hj) as (r' & rj & Hr' & _ & Hrj & Hrs & _).
  apply (readRegister_frame file cs cs' other j r'); try done.
  - intros _. apply Hother. by intros ->.
  - apply Hother. intros ->. rewrite Hi in Hrj. injection Hrj as <-.
    destruct (rootOf_total file reg i Hwf Hi) as (root & ri & Hroot & _).
    destruct (rootLoop_cases _ _ _ _ _ (rootOf_loop _ _ _ Hroot) Hi) as [[_ ->]|[? _]]; congruence.
Qed.

Lemma writeFlags_spec file cs reg i v :
  file_ok file -> cells_ok file cs -> rfAt file reg = Some i -> regClass i = RegClass.Flags -> val_ok (registerType i) v ->
  exists cs', writeRegister file cs reg v = Some cs' /\ cells_ok file cs' /\ readRegister file cs' reg = Some v /\
    forall r, r <> reg -> cs' !! N.to_nat r = cs !! N.to_nat r.
Proof.
  intros Hf Hcs Hi Hfl Hv. rewrite (registerType_flags file reg i) in Hv by done. destruct Hv as [Hh Hl].
  assert (MkU128 (Z.land (lo v) 15) 0 = v) as Hvv.
  { destruct v as [l h]. cbn in *. change 15 with (Z.ones 4). rewrite Z.land_ones, Z.mod_small by (lia || exact Hl). congruence. }
  destruct (setCell_spec file cs reg i v Hcs Hi) as (cs' & Hset & Hok & Hcell & Hother);
    [by rewrite (registerType_flags file reg i)|].
  exists cs'. unfold writeRegister, readRegister. rewrite Hi. cbn [mbind option_bind].
  assert (regClass i <> RegClass.Zero) as Hz by congruence.
  rewrite !(decide_False _ _ Hz), !(decide_True _ _ Hfl), Hvv. split_and!; [done|done| |done].
  rewrite Hcell. cbn [mbind option_bind]. by rewrite Hvv.
Qed.

(** ** Properties *)

(** C29 In a well-formed file of registers of at most 128 bits whose
    zero-extending views lie at offset 0, with one cell per register holding a
    value of its type: writing any register of the file, full or through a chain
    of views, a value of its type (four bits for a flag register) succeeds and
    leaves cells of their types again; reading the register then gives the value
    back, or zero for a register of the Zero class, whose write changes no cell;
    and every register with another root reads what it read before. *)
Theorem register_read_after_write file cs reg i v :
  file_ok file -> cells_ok file cs -> rfAt file reg = Some i -> val_ok (registerType i) v ->
  exists cs', writeRegister file cs reg v = Some cs' /\ cells_ok file cs' /\
    readRegister file cs' reg = Some (if decide (regClass i = RegClass.Zero) then zero128 else v) /\
    (regClass i = RegClass.Zero -> cs' = cs) /\
    forall other j, rfAt file other = Some j -> rootOf file other <> rootOf file reg ->
      readRegister file cs' other = readRegister file cs other.
Proof.
  intros Hf Hcs Hi Hv. destruct (decide (regClass i = RegClass.Zero)) as [Hz|Hz].
  { exists cs. unfold writeRegister, readRegister. rewrite Hi. cbn [mbind option_bind].
    rewrite !decide_True by done. by split_and!. }
  destruct (decide (regClass i = RegClass.Flags)) as [Hfl|Hfl].
  { destruct (writeFlags_spec file cs reg i v Hf Hcs Hi Hfl Hv) as (cs' & Hw & Hok & Hr & Hother).
    exists cs'. split_and!; [done..|]. intros other j Hj Hne. by apply (readRegister_apart file cs cs' reg i other j). }
  destruct (writeRegister_cell file cs reg i v Hf Hcs Hi Hz Hfl) as
    (root & ri & cell & off & cs' & Hroot & Hri & _ & Hrc & Hoff & Hoff0 & Hw & Hok & Hcell & Hcan & Hat & Hother & _);
    [by apply (registerType_int file reg)|].
  exists cs'. split_and!; [done|done| |done|].
  - rewrite (readRegister_cell file cs' reg i root ri cell off) by done. f_equal.
    destruct (file_narrow file Hf _ _ Hi), (file_narrow file Hf _ _ Hri).
    apply extract_atOffset; try done; try lia. by apply (registerType_int file reg).
  - intros other j Hj Hne. destruct (rootOf_total file other j (file_wf file Hf) Hj) as (r' & rj & Hr' & _ & Hrj & _ & Hcj).
    apply (readRegister_frame file cs cs' other j r'); try done.
    + intros Hjf. apply Hother. intros ->. congruence.
    + apply Hother. congruence.
Qed.

(** Writing a view directly below its root: a view that zero-extends leaves
    the root holding the value alone; any other replaces exactly the view's bits
    of the root's value and keeps the rest. *)
Theorem direct_view_write file cs reg i root ri v old :
  file_ok file -> cells_ok file cs -> rfAt file reg = Some i ->
  regClass i <> RegClass.Zero -> regClass i <> RegClass.Flags -> canon (regBits i) v ->
  isSubRegister i = true -> parent i = root -> rfAt file root = Some ri -> isSubRegister ri = false ->
  readRegister file cs root = Some old ->
  exists cs' new, writeRegister file cs reg v = Some cs' /\ readRegister file cs' root = Some new /\
    if zeroExtendsParent i then new = v
    else forall k, 0 <= k < regBits ri -> Z.testbit (uval new) k =
      if (offsetInParent i <=? k) && (k <? offsetInParent i + regBits i)
      then Z.testbit (uval v) (k - offsetInParent i) else Z.testbit (uval old) k.
Proof.
  intros Hf Hcs Hi Hz Hfl Hv Hsub Hpar Hri Hrs Hold.
  destruct (view_parent file reg i Hf Hi Hsub) as (p & Hp & Hlt & Ho & Hb & Hcl).
  rewrite Hpar, Hri in Hp. injection Hp as <-.
  pose proof (file_wf file Hf) as Hwf. destruct (file_narrow file Hf _ _ Hi) as [Hib Hze].
  destruct (file_narrow file Hf _ _ Hri) as [Hrb _].
  destruct (writeRegister_cell file cs reg i v Hf Hcs Hi Hz Hfl Hv) as
    (root' & ri' & cell & off & cs' & Hroot & Hri' & Hrs' & _ & _ & _ & Hw & Hok & Hcell & Hcan & _ & _ & Hdirect).
  assert (rootOf file root = Some root) as Hrr.
  { destruct (rootOf_total file root ri Hwf Hri) as (r & ? & Hr & _). rewrite Hr. apply rootOf_loop in Hr.
    destruct (rootLoop_cases _ _ _ _ _ Hr Hri) as [[_ ->]|[? _]]; congruence. }
  assert (root' = root) as ->.
  { pose proof (rootOf_loop _ _ _ Hroot) as Hl.
    destruct (rootLoop_cases _ _ _ _ _ Hl Hi) as [[? _]|(_ & n & Hn & Hl')]; [congruence|]. rewrite Hpar in Hl'.
    destruct (rootLoop_cases _ _ _ _ _ Hl' Hri) as [[_ ->]|[? _]]; [done|congruence]. }
  rewrite Hri in Hri'. injection Hri' as <-.
  assert (forall c, canon (regBits ri) c -> extract c (regBits ri) 0 (regBits ri) = c) as Hex.
  { intros c Hc. apply extract_atOffset; [lia..|done|done|intros k _; by rewrite Z.add_0_l]. }
  assert (viewOffset (length (registers_ file)) file root root 0 = Some 0) as Hvo
    by (destruct (length (registers_ file)); cbn [viewOffset]; by rewrite N.eqb_refl).
  exists cs', cell. split_and!; [done| |].
  - rewrite (readRegister_cell file cs' root ri root ri cell 0) by (done || congruence). by rewrite Hex.
  - destruct (Hdirect Hpar Hsub) as (c & Hc & ->). 
    rewrite (readRegister_cell file cs root ri root ri c 0) in Hold by (done || congruence).
    assert (canon (regBits ri) c) as Hcc.
    { apply (registerType_int file root ri c Hf Hri); [congruence|]. by eapply Hcs. }
    rewrite Hex in Hold by done. injection Hold as ->. unfold parentValue.
    destruct (zeroExtendsParent i).
    + apply zext_canon; done || lia.
    + intros k Hk. apply testbit_insert_wf; done || lia || apply Hcc.
Qed.

(** Nested views: [eax] zero-extends into [rax], [ax] and [ah] insert. *)
Definition nestedRegisters : RegisterFile :=
  let f := emptyRegisterFile in
  let f := addOr f (addRegister f "rax" 64 RegClass.General) in
  let f := addOr f (addSubRegister f "eax" 0 0 32 true) in
  let f := addOr f (addSubRegister f "ax" 0 0 16 false) in
  let f := addOr f (addSubRegister f "ah" 2 8 8 false) in
  addOr f (addRegister f "flags" 4 RegClass.Flags).

Definition nestedCells : list ConcreteValue :=
  [MkU128 0x1122334455667788 0; zero128; zero128; zero128; zero128].

(** A view of a view loses its root's other bits: after a write of one byte
    to [ah], a view of [ax], which inserts into [rax], the low byte of [ax] is
    taken from the root but the upper 48 bits of [rax] read zero, where the
    same byte written through a view directly below [rax] keeps them. *)
Theorem nested_view_loses_root_bits :
  (forall reg i, rfAt nestedRegisters reg = Some i -> In reg [2; 3]%N -> zeroExtendsParent i = false) /\
  writeRegister nestedRegisters nestedCells 3 (MkU128 0xAB 0) ≫= (fun cs => readRegister nestedRegisters cs 0)
    = Some (MkU128 0xAB88 0) /\
  writeRegister nestedRegisters nestedCells 2 (MkU128 0xAB88 0) ≫= (fun cs => readRegister nestedRegisters cs 0)
    = Some (MkU128 0x112233445566AB88 0).
Proof.
  split_and!; [|vm_compute; reflexivity..]. intros reg i Hi [<-|[<-|[]]]; vm_compute in Hi; by injection Hi as <-.
Qed.

(** A decidable check of the hypotheses on a concrete file. *)
Definition fileNarrow (f : RegisterFile) : bool :=
  forallb (fun i => (0 <=? regBits i) && (regBits i <=? 128) &&
    (negb (zeroExtendsParent i) || (offsetInParent i =? 0))) (registers_ f).

Lemma file_ok_check f : rf_wf f -> fileNarrow f = true -> file_ok f.
Proof.
  intros Hwf Hn. split; [done|]. intros reg i [Hi _]%vget_Some.
  unfold fileNarrow in Hn. rewrite forallb_forall in Hn. specialize (Hn i).
  rewrite !andb_true_iff, orb_true_iff, negb_true_iff, !Z.leb_le, Z.eqb_eq in Hn.
  destruct Hn as [[? ?] Hz]; [by eapply list_elem_of_In, list_elem_of_lookup_2|].
  split; [lia|]. intros Hze. destruct Hz; congruence.
Qed.

Lemma file_ok_sample : file_ok sampleRegisters.
Proof. apply file_ok_check; [exact rf_wf_sample|vm_compute; reflexivity]. Qed.

Definition sampleCells : list ConcreteValue := MkU128 0x1122334455667788 0 :: repeat zero128 4.

Definition valOk (t : Ty) (v : U128) : bool :=
  if isFlags t then (hi v =? 0) && ((0 <=? lo v) && (lo v <? 2 ^ 4))
  else ((0 <=? lo v) && (lo v <? 2 ^ 64)) && ((0 <=? hi v) && (hi v <? 2 ^ 64)) &&
    ((0 <=? uval v) && (uval v <? 2 ^ bits t)).

Lemma valOk_spec t v : valOk t v = true -> val_ok t v.
Proof.
  unfold valOk, val_ok, canon, wf128, fits. destruct (isFlags t);
    rewrite !andb_true_iff, !Z.leb_le, !Z.ltb_lt; [rewrite Z.eqb_eq|]; tauto.
Qed.

Lemma cells_ok_sample : cells_ok sampleRegisters sampleCells.
Proof.
  split; [reflexivity|]. intros reg i v [Hi _]%vget_Some Hv.
  destruct (N.to_nat reg) as [|[|[|[|[|n]]]]]; vm_compute in Hi, Hv; try done;
    injection Hi as <-; injection Hv as <-; apply valOk_spec; vm_compute; reflexivity.
Qed.

Lemma register_read_after_write_witness :
  file_ok sampleRegisters /\ cells_ok sampleRegisters sampleCells /\
  exists cs', writeRegister sampleRegisters sampleCells 2 (MkU128 0xBEEF 0) = Some cs' /\
    cells_ok sampleRegisters cs' /\ readRegister sampleRegisters cs' 2 = Some (MkU128 0xBEEF 0).
Proof.
  split; [exact file_ok_sample|]. split; [exact cells_ok_sample|].
  destruct (register_read_after_write sampleRegisters sampleCells 2
    (MkRegisterInfo "h0" 16 RegClass.General 1 8 false) (MkU128 0xBEEF 0)
    file_ok_sample cells_ok_sample eq_refl) as (cs' & H1 & H2 & H3 & _);
    [exact (valOk_spec (integer 16) (MkU128 0xBEEF 0) eq_refl)|].
  exists cs'. split; [exact H1|]. split; [exact H2|exact H3].
Defined.

Lemma direct_view_write_witness :
  readRegister sampleRegisters sampleCells 0 = Some (MkU128 0x1122334455667788 0) /\
  exists cs' new, writeRegister sampleRegisters sampleCells 1 (MkU128 0xBEEF 0) = Some cs' /\
    readRegister sampleRegisters cs' 0 = Some new /\ new = MkU128 0xBEEF 0.
Proof.
  split; [reflexivity|].
  apply (direct_view_write sampleRegisters sampleCells 1 (MkRegisterInfo "w0" 32 RegClass.General 0 0 true) 0
    (MkRegisterInfo "x0" 64 RegClass.General kInvalidIndex 0 false) (MkU128 0xBEEF 0)
    (MkU128 0x1122334455667788 0) file_ok_sample cells_ok_sample eq_refl);
    [discriminate|discriminate|exact (valOk_spec (integer 32) (MkU128 0xBEEF 0) eq_refl)|reflexivity..].
Defined.
