(* ===== verification/InterpSound.v ===== *)
(** * Verified blocks run (il/interp.cpp over il/verify.cpp)

    A block of a function the verifier accepts, run from a machine whose
    registers hold values of their types: the run comes to an outcome, keeps the
    machine's invariant, never reads a value before its definition, and reports
    an error only for a reason the program can have. *)
From stdpp Require Import relations.
From S2P Require Import Prelude Bits U128 Types Exprs Registers Func Eval VerifyExpr ValueTypes EvalProps.
From S2P Require Import Cfg Verify VerifyProps EvalErrors Memory Interp RegisterViews.
Local Open Scope Z_scope.

(** The first operands, by position. *)
Lemma head_lookup (xs : list N) (p : N -> bool) :
  match xs with x :: _ => p x | [] => false end = true -> exists x, xs !! 0%nat = Some x /\ p x = true.
Proof. destruct xs as [|x xs]; [done|]. intros H. by exists x. Qed.

Lemma second_lookup (xs : list N) (p : N -> bool) :
  match xs with _ :: x :: _ => p x | _ => false end = true ->
  exists x y, xs !! 0%nat = Some x /\ xs !! 1%nat = Some y /\ p y = true.
Proof. destruct xs as [|x [|y xs]]; [done..|]. intros H. by exists x, y. Qed.

Lemma single_lookup (xs : list N) : (length xs =? 1)%nat = true -> exists x, xs !! 0%nat = Some x.
Proof. destruct xs as [|x xs]; [done|]. by exists x. Qed.

#[local] Strategy 100 [eval evalRec].

Section Machines.
Context {B X : Type} `{BackendLaws B}.
Context (f : Function).

(** Registers and defined values hold values of their types. *)
Record machine_ok (m : Machine B) : Prop := {
  machine_cells : cells_ok (registers f) (cells m);
  machine_slots : length (slots m) = valueCount f;
  machine_defined : length (defined m) = valueCount f;
  machine_values : forall v i c, defined m !! N.to_nat v = Some true -> valueAt f v = Some i ->
    slots m !! N.to_nat v = Some c -> val_ok (valueType i) c;
  machine_memory : backend_ok (memory m) }.

(** What [runBlock] asks of the machine it is entered with. *)
Record enterable (m : Machine B) : Prop := {
  enter_cells : cells_ok (registers f) (cells m);
  enter_slots : length (defined m) = length (slots m);
  enter_memory : backend_ok (memory m) }.

Lemma freshSlots_ok m : enterable m -> machine_ok (freshSlots f m).
Proof using Type*.
  intros [Hc Hs Hm]. unfold freshSlots. destruct (Nat.eqb_spec (length (slots m)) (valueCount f)) as [Hl|Hl];
    split; cbn; rewrite ?repeat_length; try done; try congruence;
    intros v i c Hd%list_elem_of_lookup_2%list_elem_of_In%repeat_spec; done.
Qed.

(** The values the verifier counts as available have been defined. *)
Definition provides (m : Machine B) (available : gset N) : Prop :=
  forall v, v ∈ available -> defined m !! N.to_nat v = Some true.

Lemma freshSlots_provides m : provides (freshSlots f m) ∅.
Proof using Type*. intros v Hv. by apply not_elem_of_empty in Hv. Qed.

Lemma define_ok m r i c available :
  machine_ok m -> provides m available -> valueAt f r = Some i -> val_ok (valueType i) c ->
  exists m', define m r c = Some m' /\ machine_ok m' /\ provides m' ({[r]} ∪ available).
Proof using Type*.
  intros [Hc Hs Hd Hv Hm] Hp Hr Ht. pose proof Hr as [Hlt%lookup_lt_Some _]%vget_Some.
  change (length (values (tables f))) with (valueCount f) in Hlt.
  unfold define. replace (r <? N.of_nat (length (slots m)))%N with true by (symmetry; apply N.ltb_lt; lia).
  replace (r <? N.of_nat (length (defined m)))%N with true by (symmetry; apply N.ltb_lt; lia).
  eexists. split; [done|]. split; [split; cbn; rewrite ?length_insert; try done|].
  - intros v j k. destruct (decide (v = r)) as [->|Hne].
    + rewrite !list_lookup_insert_eq by lia. intros _ Hj [= <-]. congruence.
    + rewrite !list_lookup_insert_ne by lia. apply Hv.
  - intros v. cbn. intros [->%elem_of_singleton|Hin]%elem_of_union; [rewrite list_lookup_insert_eq by lia; done|].
    destruct (decide (v = r)) as [->|Hne]; [by rewrite list_lookup_insert_eq by lia|].
    rewrite list_lookup_insert_ne by lia. by apply Hp.
Qed.

(** ** Expressions in a machine *)

Context (Hpool : pool_ok f) (Hfs : floats_sized f) (Hdef : definedNodes f) (Hfile : file_ok (registers f)).

Lemma machineEnv_ok m : machine_ok m -> env_ok f (machineEnv f m).
Proof using Hfile.
  intros [Hc Hs Hd Hv Hm]. split.
  - intros v c i H1 Hi. cbn in H1. destruct (hasValue f v); [|done].
    apply Res_bind_Ok in H1 as (d & Hdv%ofOption_Ok & H1). destruct d; [|done].
    apply ofOption_Ok in H1. by eapply Hv.
  - intros reg c i H1%ofOption_Ok Hi. destruct (readRegister_ok _ _ _ _ Hfile Hc Hi) as (c' & Hc' & Hok).
    by simplify_eq.
Qed.

Lemma readsValue_hasValue x v : readsValue f x v -> hasValue f v = true.
Proof using Hpool.
  intros (y & e & _ & He & Ho & ->). apply (pool_ok_verifies f Hpool), exprVerifies_typed in He as (_ & _ & ts & _ & _ & Hr).
  unfold opRuleOk in Hr. rewrite Ho in Hr. unfold valueAt, vget, hasValue, handleOf in *. by destruct (contains _ _).
Qed.

Lemma machineEnv_value m v :
  machine_ok m -> hasValue f v = true -> defined m !! N.to_nat v = Some true -> good (envValue (machineEnv f m) v).
Proof using Type*.
  intros Hm Hh Hd. unfold machineEnv. cbn [envValue]. rewrite Hh, Hd. cbn [ofOption mbind Res_bind].
  apply good_ofOption, lookup_lt_is_Some. apply lookup_lt_Some in Hd.
  rewrite (machine_slots m Hm), <-(machine_defined m Hm). exact Hd.
Qed.

Lemma machineEnv_reg m reg i :
  machine_ok m -> rfAt (registers f) reg = Some i -> good (envReg (machineEnv f m) reg).
Proof using Hfile.
  intros Hm Hi. unfold machineEnv. cbn [envReg].
  destruct (readRegister_ok _ _ _ _ Hfile (machine_cells m Hm) Hi) as (v & Hv & _). by rewrite Hv.
Qed.

(** An operand the verifier accepts evaluates to a value, or fails with a
    diagnostic that does not blame the IL. *)
Lemma evalIn_good m b available x :
  machine_ok m -> provides m available -> hasExpr f x = true -> operandOk f b available x = true ->
  good (evalIn f m x).
Proof using Type*.
  intros Hm Hp Hx Hok. unfold evalIn.
  apply (good_eval f (machineEnv f m) Hpool Hfs (machineEnv_ok m Hm) Hdef); [|exact Hx|].
  - intros reg i. exact (machineEnv_reg m reg i Hm).
  - intros v Hv. apply (machineEnv_value m v Hm); [exact (readsValue_hasValue x v Hv)|].
    exact (Hp v (operandOk_reads f b available x v Hpool Hx Hok Hv)).
Qed.

(** What it evaluates to is a value of its type. *)
Lemma evalIn_typed m x t v :
  machine_ok m -> typeAt f x = Some t -> evalIn f m x = Ok v -> val_ok t v.
Proof using Type*.
  intros Hm (e & He & <-)%typeAt_Some Hv. unfold evalIn in Hv. apply (eval_sound f _ Hpool) in Hv.
  destruct (Eval_val_ok anyNode f _ x v Hpool (counted_any f Hfs) (machineEnv_ok m Hm) Hv) as (e' & He' & Ht & _).
  rewrite He in He'. apply (inj Some) in He' as <-. exact Ht.
Qed.

Lemma evalIn_word m x v :
  machine_ok m -> hasExpr f x = true -> evalIn f m x = Ok v -> fits 64 (lo v).
Proof using Type*.
  intros Hm [e He]%hasExpr_exprAt Hv.
  assert (typeAt f x = Some (type e)) as Ht by (apply typeAt_Some; by exists e).
  apply (val_ok_wf (type e)). exact (evalIn_typed m x (type e) v Hm Ht Hv).
Qed.

(** ** One operation *)

Context (hooks : Hooks X).

(** The intrinsic hook returns values of the type it is asked for. *)
Definition typed_hooks : Prop :=
  forall hook, intrinsicHook hooks = Some hook ->
    forall nm t args x v x', hook nm t args x = (Some v, x') -> val_ok t v.

Context (Hhooks : typed_hooks).
(** Values have valid types: a type with no invalid encoding. *)
Context (Hvalues : forall v i, valueAt f v = Some i -> valid (valueType i) = true).

(** The reasons an operation may stop with an error. *)
Definition tolerable (o : Op) (r : ExecOutcome) : Prop :=
  stop r = ExecStop.Error ->
  (exists d, detail r = Fault d /\ diagCode d <> DiagCode.VerifyFailure) \/ code o = OpCode.Phi.

Definition steps (o : Op) (available : gset N) (next : option (Next (B:=B) (X:=X))) : Prop :=
  match next with
  | Some (Continue m' _) =>
      machine_ok m' /\ isTerminator (code o) = false /\
      provides m' (if handleValid (result o) then {[result o]} ∪ available else available)
  | Some (Stop r m' _) => machine_ok m' /\ tolerable o r
  | None => False
  end.

Lemma steps_orFail {A} o available (r : Res A) m x k :
  machine_ok m -> good r -> (forall a, r = Ok a -> steps o available (k a)) ->
  steps o available (orFail r m x (va o) k).
Proof using Type*.
  intros Hm Hg Hk. destruct r as [a|d|]; cbn; [by apply Hk| |done].
  split; [done|]. intros _. left. by exists d.
Qed.

(** Defining the result with a value of the operation's type. *)
Lemma steps_define o available b opId m x c :
  machine_ok m -> provides m available -> opAt f opId = Some o -> checkDefinition f (b, opId) = true ->
  handleValid (result o) = true -> isTerminator (code o) = false ->
  (valid (opType o) = true -> val_ok (opType o) c) ->
  steps o available (m' ← define m (result o) c; Some (Continue m' x)).
Proof using Type*.
  intros Hm Hp Ho Hc Hr Ht Hv. destruct (checkDefinition_value f b opId o Hc Ho Hr) as (i & Hi & _ & Hti).
  destruct (define_ok m (result o) i c available Hm Hp Hi) as (m' & -> & Hm' & Hp').
  { rewrite Hti. apply Hv. rewrite <-Hti. by eapply Hvalues. }
  cbn. rewrite Hr. done.
Qed.

(** What the lemmas below know of the operation. *)
Section Operation.
Context (level : Maturity) (b opId : N) (o : Op) (m : Machine B) (available : gset N).
Context (Hbelow : atLeast level Maturity.Ssa = false).
Context (Hop : opAt f opId = Some o) (Hcheck : checkOp level f b o = true).
Context (Hdefn : checkDefinition f (b, opId) = true) (Hm : machine_ok m) (Hp : provides m available).
Context (xs : list N) (Hxs : operandsOf (tables f) o = Some xs).
Context (Huses : forallb (operandOk f b available) xs = true).

Lemma operation_rule :
  exists ts, targetsOf (tables f) o = Some ts /\ codeRuleOk level f b o xs ts = true /\
    (forall x, x ∈ xs -> hasExpr f x = true) /\ (forall t, t ∈ ts -> hasBlock f t = true) /\
    handleValid (result o) = shouldDefine o.
Proof using Type*.
  destruct (checkOp_spec level f b o Hcheck) as (xs' & ts & Hxs' & Hts & Hx & Ht & Hr & Hd).
  rewrite Hxs in Hxs'. apply (inj Some) in Hxs' as <-. exists ts. split_and!; done.
Qed.

(** The evaluation of an operand, continued. *)
Lemma steps_eval x st k :
  x ∈ xs -> (forall v, hasExpr f x = true -> evalIn f m x = Ok v -> steps o available (k v)) ->
  steps o available (orFail (evalIn f m x) m st (va o) k).
Proof using Type*.
  intros Hx Hk. destruct operation_rule as (_ & _ & _ & Hh & _). specialize (Hh x Hx).
  apply steps_orFail; [exact Hm| |intros v Hv; by apply Hk].
  apply (evalIn_good m b available x Hm Hp Hh). exact (forallb_elem _ _ _ Huses Hx).
Qed.

Lemma steps_stop r st : tolerable o r -> steps o available (Some (Stop r m st)).
Proof using Type*. intros Hr. exact (conj Hm Hr). Qed.

(** An outcome that is not an error. *)
Lemma tolerable_stop r : stop r <> ExecStop.Error -> tolerable o r.
Proof using Type*. intros Hs He. by destruct Hs. Qed.

Lemma targetVa_Some ts i :
  targetsOf (tables f) o = Some ts -> (forall t, t ∈ ts -> hasBlock f t = true) -> (i < length ts)%nat ->
  exists target, targetVa f o i = Some target.
Proof using Type*.
  intros Hts Ht Hi. destruct (lookup_lt_is_Some_2 ts i Hi) as [t Hti].
  destruct (contains_vget (blocks f) t (Ht t (list_elem_of_lookup_2 _ _ _ Hti))) as [blk Hblk].
  exists (blockVa blk). unfold targetVa, blockAtId. rewrite Hts. cbn [mbind option_bind]. rewrite Hti.
  cbn [mbind option_bind]. by rewrite Hblk.
Qed.

(** An operation that defines nothing and goes on. *)
Lemma steps_continue m' st :
  machine_ok m' -> defined m' = defined m -> handleValid (result o) = false -> isTerminator (code o) = false ->
  steps o available (Some (Continue m' st)).
Proof using Type*.
  intros Hm' Hd Hr Ht. cbn. rewrite Hr. split_and!; [exact Hm'|exact Ht|]. intros v Hv. rewrite Hd. by apply Hp.
Qed.

Lemma with_cells_ok cs : cells_ok (registers f) cs -> machine_ok (MkMachine cs (slots m) (defined m) (memory m)).
Proof using Type*. intros Hcs. by destruct Hm. Qed.

Lemma with_memory_ok mem : backend_ok mem -> machine_ok (MkMachine (cells m) (slots m) (defined m) mem).
Proof using Type*. intros Hmem. by destruct Hm. Qed.

Ltac operation Hc :=
  destruct operation_rule as (ts & Hts & Hr & Hx & Ht & Hd); unfold codeRuleOk in Hr; unfold shouldDefine in Hd;
  rewrite Hc in Hr, Hd; unfold execOp; rewrite Hxs, Hc; cbn [mbind option_bind].

Lemma exec_readReg st : code o = OpCode.ReadReg -> steps o available (execOp f hooks o m st).
Proof using Type*.
  intros Hc. operation Hc. rewrite !andb_true_iff in Hr. destruct Hr as [[_ Hreg] Hty].
  apply checkRegister_Some in Hreg as (i & Hi & Hti). rewrite typeEq_spec, bool_decide_eq_true, Hti in Hty.
  destruct (readRegister_ok _ _ _ _ Hfile (machine_cells m Hm) Hi) as (v & Hv & Hok). rewrite Hv. cbn [mbind option_bind].
  apply (steps_define o available b opId); try done; [by rewrite Hc|]. intros _. by rewrite <-Hty.
Qed.

Lemma exec_writeReg st : code o = OpCode.WriteReg -> steps o available (execOp f hooks o m st).
Proof using Type*.
  intros Hc. operation Hc. rewrite !andb_true_iff in Hr. destruct Hr as [[_ Hreg] (x & Hx0 & Hty)%head_lookup].
  apply exprTypeIs_Some in Hty. apply checkRegister_Some in Hreg as (i & Hi & Hti). rewrite Hti in Hty.
  rewrite Hx0. cbn [mbind option_bind]. apply steps_eval; [by eapply list_elem_of_lookup_2|]. intros v _ Hv.
  destruct (writeRegister_ok _ _ _ _ v Hfile (machine_cells m Hm) Hi) as (cs & Hcs & Hok).
  { exact (evalIn_typed m x _ v Hm Hty Hv). }
  rewrite Hcs. cbn [mbind option_bind]. apply steps_continue; [by apply with_cells_ok|done|exact Hd|by rewrite Hc].
Qed.

Lemma exec_load st : code o = OpCode.Load -> steps o available (execOp f hooks o m st).
Proof using Type*.
  intros Hc. operation Hc. apply andb_true_iff in Hr as [(x & Hx0)%single_lookup _]. rewrite Hx0. cbn [mbind option_bind].
  apply steps_eval; [by eapply list_elem_of_lookup_2|]. intros a Hh Ha.
  pose proof (evalIn_word m x a Hm Hh Ha) as Hw.
  destruct (checkDefinition_value f b opId o Hdefn Hop) as (i & Hi & _ & Hti); [by rewrite Hd|].
  pose proof (Hvalues _ _ Hi) as Hvt. rewrite Hti in Hvt. pose proof (valid_bits _ Hvt) as Hb.
  assert (0 <= bits (opType o) / 8) as Hn by (apply Z.div_pos; lia).
  apply steps_orFail; [exact Hm|apply backend_read_good; [apply Hm|exact Hw|exact Hn]|]. intros c Hcv.
  apply (steps_define o available b opId); try done; [by rewrite Hc|]. intros _.
  destruct (backend_read_canon _ _ _ _ (machine_memory m Hm) Hw Hn Hcv) as [H16 Hcan].
  apply val_ok_canon; [exact Hvt|]. apply (canon_weaken (8 * (bits (opType o) / 8))); [exact Hcan|].
  pose proof (Z.mul_div_le (bits (opType o)) 8). lia.
Qed.

Lemma exec_store st : code o = OpCode.Store -> steps o available (execOp f hooks o m st).
Proof using Type*.
  intros Hc. operation Hc. apply andb_true_iff in Hr as [_ (x & y & Hx0 & Hy1 & Hty)%second_lookup].
  rewrite Hx0, Hy1. cbn [mbind option_bind]. apply list_elem_of_lookup_2 in Hx0, Hy1.
  pose proof (Hx x Hx0) as Hhx. pose proof (Hx y Hy1) as Hhy.
  pose proof (evalIn_good m b available x Hm Hp Hhx (forallb_elem _ _ _ Huses Hx0)) as Hgx.
  pose proof (evalIn_good m b available y Hm Hp Hhy (forallb_elem _ _ _ Huses Hy1)) as Hgy.
  assert (forall d, diagCode d <> DiagCode.VerifyFailure ->
    steps o available (Some (Stop (fail (Fault d) (va o)) m st))) as Herr.
  { intros d Hdc. split; [exact Hm|]. intros _. left. by exists d. }
  apply exprTypeIs_Some in Hty.
  destruct (evalIn f m x) as [a|d|] eqn:Ha; [|destruct (evalIn f m y); [by apply Herr..|done]|done].
  destruct (evalIn f m y) as [v|d|] eqn:Hv; [|by apply Herr|done].
  assert (0 <= bits (opType o) / 8) as Hn.
  { apply Z.div_pos; [|lia]. apply typeAt_Some in Hty as (e & He & <-).
    apply (pool_ok_verifies f Hpool), exprVerifies_typed in He as (_ & Hvt & _). by apply valid_bits. }
  pose proof (evalIn_word m x a Hm Hhx Ha) as Hw.
  apply steps_orFail; [exact Hm|apply backend_write_good; [apply Hm|exact Hw|exact Hn]|]. intros mem Hmem.
  apply steps_continue; [|done|exact Hd|by rewrite Hc]. apply with_memory_ok.
  exact (backend_write_ok _ _ _ _ _ (machine_memory m Hm) Hw Hn Hmem).
Qed.

(** The terminators that evaluate an operand: branches on a condition,
    computed branches and calls. *)
Lemma exec_condBranch st : code o = OpCode.CondBranch -> steps o available (execOp f hooks o m st).
Proof using Type*.
  intros Hc. operation Hc. rewrite !andb_true_iff in Hr. destruct Hr as [[_ (x & Hx0 & _)%head_lookup] Hl%Nat.eqb_eq].
  rewrite Hx0. cbn [mbind option_bind]. apply steps_eval; [by eapply list_elem_of_lookup_2|]. intros v _ Hv.
  destruct (targetVa_Some ts 0 Hts Ht ltac:(lia)) as [t0 ->]. cbn [mbind option_bind].
  destruct (targetVa_Some ts 1 Hts Ht ltac:(lia)) as [t1 ->]. cbn [mbind option_bind].
  apply steps_stop. by apply tolerable_stop.
Qed.

Lemma exec_branch st : code o = OpCode.Branch -> steps o available (execOp f hooks o m st).
Proof using Type*.
  intros Hc. operation Hc. apply andb_true_iff in Hr as [_ Hl%Nat.eqb_eq].
  destruct (targetVa_Some ts 0 Hts Ht ltac:(lia)) as [t0 ->]. cbn [mbind option_bind].
  apply steps_stop. by apply tolerable_stop.
Qed.

(** Below SSA a computed branch and a call have their target alone. *)
Lemma transfer_operand ts :
  codeRuleOk level f b o xs ts = true -> code o = OpCode.IndirectBranch \/ code o = OpCode.Call ->
  exists x, xs !! 0%nat = Some x.
Proof using Type*.
  intros Hr Hc. apply single_lookup. unfold codeRuleOk in Hr. rewrite Hbelow in Hr.
  destruct Hc as [Hc|Hc]; rewrite Hc in Hr; [|done]. by apply andb_true_iff in Hr as [Hr _].
Qed.

Lemma exec_transfer st :
  code o = OpCode.IndirectBranch \/ code o = OpCode.Call -> steps o available (execOp f hooks o m st).
Proof using Type*.
  intros Hc. destruct operation_rule as (ts & _ & Hr & _). destruct (transfer_operand ts Hr Hc) as [x Hx0].
  unfold execOp. rewrite Hxs. cbn [mbind option_bind].
  destruct Hc as [Hc|Hc]; rewrite Hc, Hx0; cbn [mbind option_bind];
    (apply steps_eval; [by eapply list_elem_of_lookup_2|]); intros v _ Hv; apply steps_stop; by apply tolerable_stop.
Qed.

Lemma exec_intrinsic st : code o = OpCode.Intrinsic -> steps o available (execOp f hooks o m st).
Proof using Type*.
  intros Hc. operation Hc. apply steps_orFail; [exact Hm| |].
  - apply good_mapRes. intros x Hxin. apply (evalIn_good m b available x Hm Hp (Hx x Hxin)).
    exact (forallb_elem _ _ _ Huses Hxin).
  - intros args _. cbv zeta.
    assert (forall st, steps o available
      (Some (Stop (stoppedWith ExecStop.Intrinsic (va o) (Named (nameOf f (payload o)))) m st))) as Hdecl
      by (intros st'; apply steps_stop; by apply tolerable_stop).
    destruct (intrinsicHook hooks) as [hook|] eqn:Hh; [|apply Hdecl].
    destruct (hook _ _ _ _) as [[v|] st'] eqn:Hres; [|apply Hdecl].
    destruct (handleValid (result o)) eqn:Hv.
    + apply (steps_define o available b opId); try done; [by rewrite Hc|]. intros _. by eapply Hhooks.
    + apply steps_continue; [exact Hm|done|exact Hv|by rewrite Hc].
Qed.

(** Every operation the verifier accepts executes. *)
Lemma execOp_ok st : steps o available (execOp f hooks o m st).
Proof using Type*.
  destruct (code o) eqn:Hc.
  - by apply exec_readReg.
  - by apply exec_writeReg.
  - by apply exec_load.
  - by apply exec_store.
  - by apply exec_branch.
  - by apply exec_condBranch.
  - apply exec_transfer. by left.
  - apply exec_transfer. by right.
  - operation Hc. apply steps_stop. by apply tolerable_stop.
  - by apply exec_intrinsic.
  - operation Hc. apply steps_continue; [exact Hm|done|exact Hd|by rewrite Hc].
  - operation Hc. apply steps_stop. by apply tolerable_stop.
  - operation Hc. apply steps_stop. by apply tolerable_stop.
  - operation Hc. apply steps_stop. intros _. by right.
Qed.

Lemma execStep_ok st : steps o available (execStep f hooks o m st).
Proof using Type*.
  unfold execStep. destruct (match interruptHook hooks with Some _ => _ | None => _ end) as [i st'].
  destruct i; [|apply execOp_ok]. apply steps_stop. by apply tolerable_stop.
Qed.
End Operation.

(** ** Blocks *)

(** The reasons a run may end with an error. *)
Definition allowed (level : Maturity) (os : list N) (isExternal : bool) (r : ExecOutcome) : Prop :=
  stop r = ExecStop.Error ->
  (exists d, detail r = Fault d /\ diagCode d <> DiagCode.VerifyFailure) \/
  (exists opId o, opId ∈ os /\ opAt f opId = Some o /\ code o = OpCode.Phi) \/
  (detail r = Message "block has no terminator" /\ (atLeast level Maturity.Cfg = false \/ isExternal = true)).

Lemma allowed_weaken level opId os x r : allowed level os x r -> allowed level (opId :: os) x r.
Proof.
  intros Ha He. destruct (Ha He) as [?|[(i & o & ? & ?)|?]]; [by left| |by right; right].
  right; left. exists i, o. split; [by right|done].
Qed.

Lemma runOps_ok level b end_ os seenPhi m st available isExternal :
  atLeast level Maturity.Ssa = false -> checkOps level f b seenPhi os = true ->
  (forall opId, opId ∈ os -> checkDefinition f (b, opId) = true) ->
  checkUses f b available os = true -> machine_ok m -> provides m available ->
  (os = [] -> atLeast level Maturity.Cfg = false \/ isExternal = true) ->
  exists r m' st', runOps f hooks end_ os m st = Some (r, m', st') /\ machine_ok m' /\
    allowed level os isExternal r.
Proof using Type*.
  intros Hbelow. revert seenPhi m st available. induction os as [|opId os IH];
    intros seenPhi m st available Hops Hdefn Huses Hm Hp Hend; cbn [runOps].
  { eexists _, m, st. split; [done|]. split; [exact Hm|]. intros _. right; right. split; [done|by apply Hend]. }
  apply checkOps_cons in Hops as (o & seenPhi' & Ho & Hcheck & Hterm & Hlast & Hrest).
  destruct (checkOp_spec level f b o Hcheck) as (xs & _ & Hxs & _).
  cbn [checkUses] in Huses. rewrite Ho, Hxs in Huses. apply andb_true_iff in Huses as [Hxok Huses].
  rewrite Ho. cbn [mbind option_bind].
  pose proof (execStep_ok level b opId o m available Hbelow Ho Hcheck (Hdefn opId ltac:(by left)) Hm Hp xs Hxs Hxok st)
    as Hstep. unfold steps in Hstep.
  destruct (execStep f hooks o m st) as [[m' st'|r m' st']|]; cbn [mbind option_bind]; [| |done].
  - destruct Hstep as (Hm' & Hnt & Hp').
    destruct (IH seenPhi' m' st' (if handleValid (result o) then {[result o]} ∪ available else available) Hrest) as (r & m'' & st'' & Hr & Hm'' & Ha);
      [intros i Hi; apply Hdefn; by right|exact Huses|exact Hm'|exact Hp'|by intros ->; left; apply Hlast|].
    exists r, m'', st''. split; [done|]. split; [done|by apply allowed_weaken].
  - destruct Hstep as [Hm' Ht]. exists r, m', st'. split; [done|]. split; [done|]. intros He.
    destruct (Ht He) as [?|Hphi]; [by left|]. right; left. exists opId, o. split; [by left|done].
Qed.

(** C10 Verified blocks run. The function verifies below SSA with a well-formed
    pool; its float operations are of width 32 or at least 64, it has no node C++ can
    leave undefined (64-bit signed division, float-to-integer conversion, zero-width
    operation, flag bundle not of 1 to 64 bits: [Sample.verified_nodes_undefined]),
    its registers have at most 128 bits with zero-extending views at offset 0, and its
    values have valid types. The intrinsic hook returns values of the type asked for,
    the memory keeps its laws, and the machine entered holds values of the registers'
    types. Then a block always comes to an outcome, in a machine whose registers and
    defined values have their types again. An error is then a diagnostic of the
    evaluation or of the memory, never one that a value was read before its
    definition; or a phi, which SSA brings; or the missing terminator of an external
    block or of IL not yet cut into blocks. *)
Theorem verified_block_runs level b blk m st :
  verifyOk level f = true -> atLeast level Maturity.Ssa = false -> blockAtId f b = Some blk -> enterable m ->
  exists r m' st', runBlock f hooks b m st = Some (r, m', st') /\ machine_ok m' /\
    allowed level (blockOps blk) (external blk) r.
Proof using Type*.
  intros Hv Hbelow Hb Hm. unfold runBlock. rewrite Hb. cbn [mbind option_bind].
  destruct (verified_ops level f Hv b blk Hb) as [Hops Hext].
  apply (runOps_ok level b _ _ false _ st ∅); [exact Hbelow|exact Hops| | |by apply freshSlots_ok| |].
  - intros opId. by apply (verified_definitions level f Hv b blk).
  - exact (verified_uses level f Hv b blk Hbelow Hb).
  - apply freshSlots_provides.
  - intros Hnil. right. exact (Hext Hnil).
Qed.
End Machines.
