(* ===== verification/BlockSim.v ===== *)
(** * Simulation of a block by a transformed one

    Two functions and two machines: operations with the same code, whose operands
    take the same values, do the same thing. The machines may differ in values
    that are not kept and in registers that are stale. *)
From S2P Require Import Prelude Bits U128 Types Exprs Registers Func Eval VerifyExpr ValueTypes EvalProps.
From S2P Require Import EvalErrors Memory Interp RegisterViews FoldSound.
Local Open Scope Z_scope.

(** ** Registers *)

(** A write that leaves nothing of the register's root. *)
Definition overwrites (file : RegisterFile) (reg : N) : Prop :=
  forall i, rfAt file reg = Some i -> isSubRegister i = false \/ zeroExtendsParent i = true.

(** Flag registers have no views. *)
Definition flagsRoots (file : RegisterFile) : Prop :=
  forall reg i, rfAt file reg = Some i -> regClass i = RegClass.Flags -> rootOf file reg = Some reg.

(** The cells agree, stale roots apart. *)
Definition cells_agree (stale : N -> Prop) (cs cs' : list ConcreteValue) : Prop :=
  length cs' = length cs /\ forall r, ~ stale r -> cs' !! N.to_nat r = cs !! N.to_nat r.

Lemma cells_agree_refl stale cs : cells_agree stale cs cs.
Proof. done. Qed.

Lemma cells_agree_weaken (stale stale' : N -> Prop) cs cs' :
  (forall r, stale r -> stale' r) -> cells_agree stale cs cs' -> cells_agree stale' cs cs'.
Proof. intros Hs [Hl H]. split; [done|]. intros r Hr. apply H. by intros ?%Hs. Qed.

Lemma setCell_agree stale cs cs' reg v cs1 :
  cells_agree stale cs cs' -> setCell cs reg v = Some cs1 ->
  exists cs1', setCell cs' reg v = Some cs1' /\ cells_agree (fun r => stale r /\ r <> reg) cs1 cs1'.
Proof.
  intros [Hl H]. unfold setCell. rewrite Hl. destruct (reg <? N.of_nat (length cs))%N eqn:Hr; [|done].
  intros [= <-]. eexists. split; [done|]. apply N.ltb_lt in Hr. split; [by rewrite !length_insert|].
  intros r Hst. destruct (decide (r = reg)) as [->|Hne].
  - rewrite !list_lookup_insert_eq by lia. done.
  - rewrite !list_lookup_insert_ne by lia. apply H. tauto.
Qed.

Lemma writeViews_overwrites file root reg i value par par' fuel :
  rfAt file reg = Some i -> zeroExtendsParent i = true -> reg <> root ->
  writeViews fuel file root reg value par = writeViews fuel file root reg value par'.
Proof.
  intros Hi Hz Hne%N.eqb_neq. destruct fuel as [|fuel]; cbn [writeViews]; rewrite Hne; [done|].
  rewrite Hi. cbn [mbind option_bind]. by rewrite Hz.
Qed.

(** A write to a root that is not stale, or that it overwrites, makes it fresh. *)
Lemma writeRegister_agree file stale cs cs' reg root v cs1 :
  cells_agree stale cs cs' -> flagsRoots file -> rootOf file reg = Some root ->
  ~ stale root \/ overwrites file reg -> writeRegister file cs reg v = Some cs1 ->
  exists cs1', writeRegister file cs' reg v = Some cs1' /\
    cells_agree (fun r => stale r /\ (r = root -> exists i, rfAt file reg = Some i /\ regClass i = RegClass.Zero)) cs1 cs1'.
Proof.
  intros Hag Hflags Hroot Hover. unfold writeRegister. destruct (rfAt file reg) as [i|] eqn:Hi; [|done].
  cbn [mbind option_bind]. destruct (decide (regClass i = RegClass.Zero)) as [Hz|Hz].
  { intros [= <-]. exists cs'. split; [done|]. eapply cells_agree_weaken; [|exact Hag].
    intros r Hr. split; [done|]. intros _. by exists i. }
  destruct (decide (regClass i = RegClass.Flags)) as [Hf|Hf].
  { rewrite (Hflags reg i Hi Hf) in Hroot. injection Hroot as <-.
    intros (cs1' & Hset & Hag')%(setCell_agree stale cs cs' reg _ cs1 Hag). exists cs1'. split; [done|].
    eapply cells_agree_weaken; [|exact Hag']. intros r [Hr Hne]. by split. }
  rewrite Hroot. cbn [mbind option_bind]. destruct (N.eqb_spec root reg) as [->|Hne].
  { intros (cs1' & Hset & Hag')%(setCell_agree stale cs cs' reg _ cs1 Hag). exists cs1'. split; [done|].
    eapply cells_agree_weaken; [|exact Hag']. intros r [Hr Hn]. by split. }
  assert (forall cell cell', cs !! N.to_nat root = Some cell -> cs' !! N.to_nat root = Some cell' ->
    writeViews (length (registers_ file)) file root reg v cell' =
    writeViews (length (registers_ file)) file root reg v cell) as Hsame.
  { intros cell cell' Hc Hc'. destruct Hover as [Hns|Ho].
    - destruct Hag as [_ Hag]. rewrite (Hag root Hns) in Hc'. congruence.
    - destruct (Ho i Hi) as [Hs|Hze]; [|by apply (writeViews_overwrites file root reg i)].
      unfold rootOf in Hroot. destruct (rfContains file reg); [|done].
      destruct (length (registers_ file)) as [|n]; cbn [rootLoop] in Hroot; [done|].
      rewrite Hi in Hroot. cbn [mbind option_bind] in Hroot. rewrite Hs in Hroot. congruence. }
  destruct (cs !! N.to_nat root) as [cell|] eqn:Hcell; cbn [mbind option_bind]; [|done].
  assert (exists cell', cs' !! N.to_nat root = Some cell') as [cell' Hcell'].
  { apply lookup_lt_is_Some. rewrite (proj1 Hag). by eapply lookup_lt_Some. }
  rewrite Hcell'. cbn [mbind option_bind]. rewrite (Hsame cell cell') by done.
  destruct (writeViews _ _ _ _ _ cell) as [par|]; cbn [mbind option_bind]; [|done].
  destruct (rfAt file root) as [ri|]; cbn [mbind option_bind]; [|done].
  intros (cs1' & Hset & Hag')%(setCell_agree stale cs cs' root _ cs1 Hag). exists cs1'. split; [done|].
  eapply cells_agree_weaken; [|exact Hag']. intros r [Hr Hn]. by split.
Qed.

(** A write reaches the cell of the register's root alone. *)
Lemma setCell_other cs reg v cs1 r : setCell cs reg v = Some cs1 -> r <> reg -> cs1 !! N.to_nat r = cs !! N.to_nat r.
Proof. unfold setCell. destruct (_ <? _)%N; [|done]. intros [= <-] Hr. apply list_lookup_insert_ne. lia. Qed.

Lemma setCell_length cs reg v cs1 : setCell cs reg v = Some cs1 -> length cs1 = length cs.
Proof. unfold setCell. destruct (_ <? _)%N; [|done]. intros [= <-]. apply length_insert. Qed.

Lemma writeRegister_elsewhere file cs reg root v cs1 i :
  flagsRoots file -> rfAt file reg = Some i -> rootOf file reg = Some root -> writeRegister file cs reg v = Some cs1 ->
  length cs1 = length cs /\
  forall r, r <> root \/ regClass i = RegClass.Zero -> cs1 !! N.to_nat r = cs !! N.to_nat r.
Proof.
  intros Hflags Hi Hroot. unfold writeRegister. rewrite Hi. cbn [mbind option_bind].
  destruct (decide (regClass i = RegClass.Zero)) as [Hz|Hz]; [by intros [= <-]|].
  destruct (decide (regClass i = RegClass.Flags)) as [Hf|Hf].
  { rewrite (Hflags reg i Hi Hf) in Hroot. injection Hroot as <-. intros Hs.
    split; [by eapply setCell_length|]. intros r [Hr|?]; [by eapply setCell_other|done]. }
  rewrite Hroot. cbn [mbind option_bind]. destruct (root =? reg)%N; [|
    destruct (cs !! N.to_nat root); cbn [mbind option_bind]; [|done];
    destruct (writeViews _ _ _ _ _ _); cbn [mbind option_bind]; [|done];
    destruct (rfAt file root); cbn [mbind option_bind]; [|done]];
  intros Hs; (split; [by eapply setCell_length|]); (intros k [Hk|?]; [by eapply setCell_other|done]).
Qed.

(** Reading a register whose root is not stale. *)
Lemma readRegister_agree file stale cs cs' reg root :
  cells_agree stale cs cs' -> flagsRoots file -> rootOf file reg = Some root -> ~ stale root ->
  readRegister file cs' reg = readRegister file cs reg.
Proof.
  intros [_ Hag] Hflags Hroot Hst. unfold readRegister. destruct (rfAt file reg) as [i|] eqn:Hi; [|done].
  cbn [mbind option_bind]. destruct (decide (regClass i = RegClass.Zero)); [done|].
  destruct (decide (regClass i = RegClass.Flags)) as [Hf|Hf].
  - rewrite (Hflags reg i Hi Hf) in Hroot. injection Hroot as <-. by rewrite (Hag reg).
  - rewrite Hroot. cbn [mbind option_bind]. by rewrite (Hag root).
Qed.

(** ** Machines *)

Section Sim.
Context {B : Type} `{ExecMemoryBackend B} {X : Type}.
Context (kept : N -> Prop).

Record related (stale : N -> Prop) (m m' : Machine B) : Prop := {
  related_memory : memory m' = memory m;
  related_cells : cells_agree stale (cells m) (cells m');
  related_lengths : length (slots m') = length (slots m) /\ length (defined m') = length (defined m);
  related_values : forall v, kept v ->
    defined m' !! N.to_nat v = defined m !! N.to_nat v /\ slots m' !! N.to_nat v = slots m !! N.to_nat v }.

Lemma related_refl stale m : related stale m m.
Proof. done. Qed.

Lemma related_weaken (stale stale' : N -> Prop) m m' :
  (forall r, stale r -> stale' r) -> related stale m m' -> related stale' m m'.
Proof. intros Hs []. split; try done. by eapply cells_agree_weaken. Qed.

(** Defining the same value on both sides, or a value not kept on the left. *)
Lemma define_related stale m m' v c m1 :
  related stale m m' -> define m v c = Some m1 ->
  exists m1', define m' v c = Some m1' /\ related stale m1 m1'.
Proof.
  intros [Hm Hc [Hs Hd] Hv]. unfold define. rewrite Hs, Hd. destruct (_ && _) eqn:Hb; [|done].
  intros [= <-]. eexists. split; [done|]. split; cbn; rewrite ?length_insert; try done.
  apply andb_true_iff in Hb as [H1%N.ltb_lt H2%N.ltb_lt]. intros u Hu. destruct (decide (u = v)) as [->|Hne].
  - rewrite !list_lookup_insert_eq by lia. done.
  - rewrite !list_lookup_insert_ne by lia. by apply Hv.
Qed.

Lemma define_dropped stale m m' v c m1 :
  related stale m m' -> ~ kept v -> define m v c = Some m1 -> related stale m1 m'.
Proof.
  intros [Hm Hc [Hs Hd] Hv] Hk. unfold define. destruct (_ && _); [|done].
  intros [= <-]. split; cbn; rewrite ?length_insert; try done.
  intros u Hu. rewrite !list_lookup_insert_ne; [by apply Hv|..]; intros E; apply Hk; by replace v with u by lia.
Qed.

(** A register write on the left alone makes its root stale. *)
Lemma write_dropped file (stale : N -> Prop) (m m' : Machine B) reg i root v cs1 :
  related stale m m' -> flagsRoots file -> rfAt file reg = Some i -> rootOf file reg = Some root ->
  writeRegister file (cells m) reg v = Some cs1 ->
  related (fun r => stale r \/ (r = root /\ regClass i <> RegClass.Zero))
    (MkMachine cs1 (slots m) (defined m) (memory m)) m'.
Proof.
  intros [Hm [Hl Hc] Hlen Hv] Hflags Hi Hroot Hw.
  destruct (writeRegister_elsewhere file _ reg root v cs1 i Hflags Hi Hroot Hw) as [Hl1 Ho].
  split; try done. cbn. split; [by rewrite Hl1|]. intros r Hr. rewrite Ho; [apply Hc; tauto|].
  destruct (decide (r = root)) as [->|]; [|by left]. right.
  destruct (decide (regClass i = RegClass.Zero)); [done|]. exfalso. apply Hr. right. done.
Qed.

(** ** Operations *)

(** An outcome that is not an error. *)
Definition quiet (next : Next (B:=B) (X:=X)) : Prop :=
  match next with Stop r _ _ => stop r <> ExecStop.Error | Continue _ _ => True end.

Lemma orFail_quiet {A} (r : Res A) m st ova k next :
  orFail r m st ova k = Some next -> quiet next -> exists a, r = Ok a /\ k a = Some next.
Proof.
  destruct r as [a|d|]; cbn; [intros; by exists a| |done].
  intros Hn. apply (inj Some) in Hn as <-. intros Hq. by destruct Hq.
Qed.

(** The same step, in related machines. *)
Inductive same_next (stale : N -> Prop) : Next (B:=B) (X:=X) -> Next (B:=B) (X:=X) -> Prop :=
  | same_continue m m' st : related stale m m' -> same_next stale (Continue m st) (Continue m' st)
  | same_stop r m m' st : related stale m m' -> same_next stale (Stop r m st) (Stop r m' st).

Context (f f' : Function) (hooks : Hooks X).

(** What a transform leaves as it was. *)
Record similar : Prop := {
  similar_registers : registers f' = registers f;
  similar_names : names (strings f') = names (strings f);
  similar_values : length (values (tables f')) = length (values (tables f));
  similar_targets : targetPool (tables f') = targetPool (tables f);
  similar_blocks : forall t, blockVa <$> blockAtId f' t = blockVa <$> blockAtId f t }.

Context (Hsimilar : similar) (Hflags : flagsRoots (registers f)).
Context (stale : N -> Prop) (m m' : Machine B) (Hrel : related stale m m').
Context (o o' : Op) (Hsame : sameOp o o') (xs ys : list N).
Context (Hxs : operandsOf (tables f) o = Some xs) (Hys : operandsOf (tables f') o' = Some ys).
Context (Hxys : Forall2 (fun x y => forall a, evalIn f m x = Ok a -> evalIn f' m' y = Ok a) xs ys).

(** The roots still stale after the operation. *)
Definition staleAfter (r : N) : Prop :=
  stale r /\ (code o = OpCode.WriteReg -> rootOf (registers f) (payload o) = Some r ->
    exists i, rfAt (registers f) (payload o) = Some i /\ regClass i = RegClass.Zero).

(** The register it reads is not stale; the register it writes is not stale, or
    is overwritten. *)
Definition registersFresh : Prop :=
  (code o = OpCode.ReadReg -> exists root, rootOf (registers f) (payload o) = Some root /\ ~ stale root) /\
  (code o = OpCode.WriteReg -> exists root, rootOf (registers f) (payload o) = Some root /\
     (~ stale root \/ overwrites (registers f) (payload o))).

Lemma staleAfter_other : code o <> OpCode.WriteReg -> forall r, stale r -> staleAfter r.
Proof using Type. intros Hc r Hr. split; [done|]. intros Hw. by destruct Hc. Qed.

(** An operand evaluated first, on both sides. *)
Lemma operand_related i st k next :
  (x ← xs !! i; orFail (evalIn f m x) m st (va o) k) = Some next -> quiet next ->
  exists y a, ys !! i = Some y /\ evalIn f' m' y = Ok a /\ k a = Some next.
Proof using Type*.
  destruct (xs !! i) as [x|] eqn:Hx; cbn [mbind option_bind]; [|done]. intros Hn Hq.
  destruct (Forall2_lookup_l _ _ _ _ _ Hxys Hx) as (y & Hy & Hxy).
  destruct (orFail_quiet _ _ _ _ _ _ Hn Hq) as (a & Ha & Hk). exists y, a. split; [done|].
  split; [exact (Hxy a Ha)|exact Hk].
Qed.

Lemma target_similar i : targetVa f' o' i = targetVa f o i.
Proof using Hsimilar Hsame.
  unfold targetVa, targetsOf. destruct Hsame as (_ & _ & _ & _ & _ & _ & -> & ->).
  rewrite (similar_targets Hsimilar). destruct (slice _ _ _) as [ts|]; cbn [mbind option_bind]; [|done].
  destruct (ts !! i) as [t|]; cbn [mbind option_bind]; [|done]. apply (similar_blocks Hsimilar).
Qed.

Lemma nameOf_similar id : nameOf f' id = nameOf f id.
Proof using Hsimilar. unfold nameOf. by rewrite (similar_names Hsimilar). Qed.

Lemma evalArguments_related args : evalArguments f m xs = Ok args -> evalArguments f' m' ys = Ok args.
Proof using Hxys.
  unfold evalArguments. rewrite !mapRes_Ok. intros Ha. apply Forall2_same_length_lookup.
  split; [rewrite <-(Forall2_length _ _ _ Ha); symmetry; exact (Forall2_length _ _ _ Hxys)|].
  intros i y v Hy Hv. destruct (Forall2_lookup_r _ _ _ _ _ Hxys Hy) as (x & Hx & Hxy).
  apply Hxy. exact (Forall2_lookup_lr _ _ _ _ _ _ Ha Hx Hv).
Qed.

Ltac common Hc :=
  destruct Hsame as (Hc' & Ht & Hva & _ & Hres & Hpay & _); unfold execOp;
  rewrite Hxs, Hys, Hc', Hc, ?Ht, ?Hva, ?Hres, ?Hpay; cbn [mbind option_bind].

Lemma exec_readReg_related st next :
  code o = OpCode.ReadReg -> registersFresh -> execOp f hooks o m st = Some next ->
  exists next', execOp f' hooks o' m' st = Some next' /\ same_next staleAfter next next'.
Proof using Type*.
  intros Hc [Hfresh _]. destruct (Hfresh Hc) as (root & Hroot & Hst). common Hc.
  rewrite (similar_registers Hsimilar), (readRegister_agree _ stale (cells m) (cells m') _ root (related_cells _ _ _ Hrel)) by done.
  destruct (readRegister _ _ _) as [v|]; cbn [mbind option_bind]; [|done].
  destruct (define m (result o) v) as [m1|] eqn:Hd; cbn [mbind option_bind]; [|done]. intros [= <-].
  destruct (define_related stale m m' _ _ m1 Hrel Hd) as (m1' & Hd' & Hr). rewrite Hd'. cbn [mbind option_bind].
  eexists. split; [done|]. constructor. eapply related_weaken; [|exact Hr]. apply staleAfter_other. congruence.
Qed.

Lemma exec_writeReg_related st next :
  code o = OpCode.WriteReg -> registersFresh -> execOp f hooks o m st = Some next -> quiet next ->
  exists next', execOp f' hooks o' m' st = Some next' /\ same_next staleAfter next next'.
Proof using Type*.
  intros Hc [_ Hfresh]. destruct (Hfresh Hc) as (root & Hroot & Hover). common Hc. intros Hn Hq.
  destruct (operand_related _ _ _ _ Hn Hq) as (y & a & Hy & Ha & Hk). rewrite Hy. cbn [mbind option_bind].
  rewrite Ha. cbn [orFail]. rewrite (similar_registers Hsimilar).
  destruct (writeRegister _ _ _ _) as [cs|] eqn:Hw; cbn [mbind option_bind] in Hk; [|done].
  destruct (writeRegister_agree _ stale _ (cells m') _ root a cs (related_cells _ _ _ Hrel) Hflags Hroot Hover Hw)
    as (cs' & Hw' & Hag). rewrite Hw'. cbn [mbind option_bind]. apply (inj Some) in Hk as <-.
  eexists. split; [done|]. constructor. destruct Hrel as [Hm _ Hl Hv]. split; try done. cbn.
  eapply cells_agree_weaken; [|exact Hag]. intros r [Hr Hz]. split; [exact Hr|]. intros _ Hrr. apply Hz. congruence.
Qed.

(** An operation that does not touch registers keeps what is stale. *)
Lemma same_next_other next next' : code o <> OpCode.WriteReg -> same_next stale next next' -> same_next staleAfter next next'.
Proof using Type*.
  intros Hc Hn. destruct Hn as [m1 m1' st Hr|r m1 m1' st Hr]; constructor;
    (eapply related_weaken; [|exact Hr]); by apply staleAfter_other.
Qed.

Lemma exec_load_related st next :
  code o = OpCode.Load -> execOp f hooks o m st = Some next -> quiet next ->
  exists next', execOp f' hooks o' m' st = Some next' /\ same_next stale next next'.
Proof using Type*.
  intros Hc. common Hc. intros Hn Hq.
  destruct (operand_related _ _ _ _ Hn Hq) as (y & a & Hy & Ha & Hk). rewrite Hy. cbn [mbind option_bind].
  rewrite Ha. cbn [orFail]. rewrite (related_memory _ _ _ Hrel).
  destruct (orFail_quiet _ _ _ _ _ _ Hk Hq) as (v & Hv & Hk2). rewrite Hv. cbn [orFail].
  destruct (define m (result o) v) as [m1|] eqn:Hd; cbn [mbind option_bind] in Hk2; [|done].
  apply (inj Some) in Hk2 as <-. destruct (define_related stale m m' _ _ m1 Hrel Hd) as (m1' & Hd' & Hr).
  rewrite Hd'. cbn [mbind option_bind]. eexists. split; [done|]. by constructor.
Qed.

Lemma exec_store_related st next :
  code o = OpCode.Store -> execOp f hooks o m st = Some next -> quiet next ->
  exists next', execOp f' hooks o' m' st = Some next' /\ same_next stale next next'.
Proof using Type*.
  intros Hc. common Hc.
  destruct (xs !! 0%nat) as [x|] eqn:Hx; cbn [mbind option_bind]; [|done].
  destruct (xs !! 1%nat) as [z|] eqn:Hz; cbn [mbind option_bind]; [|done].
  destruct (Forall2_lookup_l _ _ _ _ _ Hxys Hx) as (y & Hy & Hxy). rewrite Hy. cbn [mbind option_bind].
  destruct (Forall2_lookup_l _ _ _ _ _ Hxys Hz) as (w & Hw & Hzw). rewrite Hw. cbn [mbind option_bind].
  assert (forall d : Diag, quiet (Stop (fail (Fault d) (va o)) m st) -> False) as Hfail by (intros d Hq; by apply Hq).
  destruct (evalIn f m x) as [a|d|] eqn:Ha; [|destruct (evalIn f m z); try done..|done].
  - destruct (evalIn f m z) as [v|d|] eqn:Hv; [| |done].
    + rewrite (Hxy a eq_refl), (Hzw v eq_refl). intros Hn Hq. rewrite (related_memory _ _ _ Hrel).
      destruct (orFail_quiet _ _ _ _ _ _ Hn Hq) as (mem & Hmem & Hk). rewrite Hmem. cbn [orFail].
      apply (inj Some) in Hk as <-. eexists. split; [done|]. constructor. by destruct Hrel.
    + intros Hn Hq. apply (inj Some) in Hn as <-. by destruct (Hfail d).
  - intros Hn Hq. apply (inj Some) in Hn as <-. by destruct (Hfail d).
  - intros Hn Hq. apply (inj Some) in Hn as <-. by destruct (Hfail d).
Qed.

(** Branches, calls and returns stop on both sides with the same outcome. *)
Lemma exec_control_related st next :
  code o <> OpCode.ReadReg -> code o <> OpCode.WriteReg -> code o <> OpCode.Load -> code o <> OpCode.Store ->
  code o <> OpCode.Intrinsic -> execOp f hooks o m st = Some next -> quiet next ->
  exists next', execOp f' hooks o' m' st = Some next' /\ same_next stale next next'.
Proof using Type*.
  intros H1 H2 H3 H4 H5. pose proof target_similar as Htv. pose proof nameOf_similar as Hnm.
  destruct Hsame as (Hc' & Ht & Hva & _ & Hres & Hpay & _). unfold execOp.
  rewrite Hxs, Hys, Hc', ?Hva, ?Hpay, !Htv, ?Hnm. cbn [mbind option_bind].
  assert (forall r, Some (Stop r m st) = Some next -> exists next', Some (Stop r m' st) = Some next' /\ same_next stale next next')
    as Hstop by (intros r [= <-]; eexists; split; [done|by constructor]).
  assert (forall i k k', (forall a, k a = Some next -> exists next', k' a = Some next' /\ same_next stale next next') ->
    (x ← xs !! i; orFail (evalIn f m x) m st (va o) k) = Some next -> quiet next ->
    exists next', (y ← ys !! i; orFail (evalIn f' m' y) m' st (va o) k') = Some next' /\ same_next stale next next') as Heval.
  { intros i k k' Hk Hn Hq. destruct (operand_related i st k next Hn Hq) as (y & a & Hy & Ha & Hka).
    rewrite Hy. cbn [mbind option_bind]. rewrite Ha. by apply Hk. }
  destruct (code o) eqn:Hc; try done; intros Hn Hq; try (by apply Hstop in Hn); try (apply (Heval _ _ _ (fun a Hk => Hstop _ Hk) Hn Hq)).
  - destruct (targetVa f o 0) as [t|]; cbn [mbind option_bind] in *; [by apply Hstop|done].
  - eapply Heval; [|exact Hn|exact Hq]. intros a. destruct (targetVa f o 0) as [t|]; cbn [mbind option_bind]; [|done].
    destruct (targetVa f o 1) as [t'|]; cbn [mbind option_bind]; [apply Hstop|done].
  - injection Hn as <-. eexists. split; [done|]. by constructor.
Qed.

Lemma exec_intrinsic_related st next :
  code o = OpCode.Intrinsic -> execOp f hooks o m st = Some next -> quiet next ->
  exists next', execOp f' hooks o' m' st = Some next' /\ same_next stale next next'.
Proof using Type*.
  intros Hc. pose proof nameOf_similar as Hnm. common Hc. intros Hn Hq.
  destruct (orFail_quiet _ _ _ _ _ _ Hn Hq) as (args & Hargs & Hk). rewrite (evalArguments_related args Hargs).
  cbn [orFail]. cbv zeta in *. rewrite Hnm.
  assert (forall st1 r, Some (Stop r m st1) = Some next -> exists next', Some (Stop r m' st1) = Some next' /\ same_next stale next next')
    as Hstop by (intros st1 r E; apply (inj Some) in E as <-; eexists; split; [done|by constructor]).
  destruct (intrinsicHook hooks) as [hook|]; [|by apply Hstop].
  destruct (hook _ _ _ _) as [[v|] st']; [|by apply Hstop].
  destruct (handleValid (result o)).
  - destruct (define m (result o) v) as [m1|] eqn:Hd; cbn [mbind option_bind] in Hk; [|done].
    apply (inj Some) in Hk as <-. destruct (define_related stale m m' _ _ m1 Hrel Hd) as (m1' & Hd' & Hr).
    rewrite Hd'. cbn [mbind option_bind]. eexists. split; [done|]. by constructor.
  - apply (inj Some) in Hk as <-. eexists. split; [done|]. by constructor.
Qed.

(** Every operation. *)
Lemma execOp_related st next :
  registersFresh -> execOp f hooks o m st = Some next -> quiet next ->
  exists next', execOp f' hooks o' m' st = Some next' /\ same_next staleAfter next next'.
Proof using Type*.
  intros Hfresh Hn Hq.
  destruct (decide (code o = OpCode.ReadReg)) as [H1|H1]; [by apply exec_readReg_related|].
  destruct (decide (code o = OpCode.WriteReg)) as [H2|H2]; [by apply exec_writeReg_related|].
  assert (exists next', execOp f' hooks o' m' st = Some next' /\ same_next stale next next') as (next' & Hn' & Hs);
    [|exists next'; split; [exact Hn'|by apply same_next_other]].
  destruct (decide (code o = OpCode.Load)) as [H3|H3]; [by apply exec_load_related|].
  destruct (decide (code o = OpCode.Store)) as [H4|H4]; [by apply exec_store_related|].
  destruct (decide (code o = OpCode.Intrinsic)) as [H5|H5]; [by apply exec_intrinsic_related|].
  by apply exec_control_related.
Qed.
End Sim.
