(* ===== verification/FoldRuns.v ===== *)
(** * The folds preserve what a block does

    A function whose operands were replaced by ones that stand for them runs
    every block to the same outcome, machine and embedder state; [foldConstants]
    and [foldFlagConditions] give such functions. *)
From stdpp Require Import relations.
From S2P Require Import Prelude Bits U128 Types Exprs Registers Func Eval VerifyExpr ValueTypes EvalProps.
From S2P Require Import Cfg Verify VerifyProps EvalErrors Memory Interp RegisterViews InterpSound.
From S2P Require Import Rewrite Fold FoldProps FoldSound BlockSim.
Local Open Scope Z_scope.

#[local] Strategy 100 [eval evalRec].

(** Every expression is shallow enough for the evaluator's depth limit. *)
Definition shallow (f : Function) : Prop := forall id, hasExpr f id = true -> within f 257 id.

(** Operands precede their node, so a small pool is shallow. *)
Lemma within_order f n id : pool_ok f -> hasExpr f id = true -> (N.to_nat id < n)%nat -> within f n id.
Proof.
  intros Hpool. revert id. induction n as [|n IH]; intros id Hid Hn; [lia|].
  apply hasExpr_exprAt in Hid as [e He]. exists e. split; [done|]. apply Forall_forall. intros x Hx.
  pose proof (pool_ok_verifies f Hpool id e He) as Hv. unfold exprVerifies in Hv.
  rewrite !andb_true_iff in Hv. destruct Hv as [[_ Hops] _]. apply (forallb_elem _ _ x) in Hops; [|done].
  apply andb_true_iff in Hops as [Hxe Hlt%N.ltb_lt]. apply IH; [done|lia].
Qed.

Lemma shallow_small f : pool_ok f -> (length (exprs (pool f)) <=? 257)%nat = true -> shallow f.
Proof.
  intros Hpool Hl%Nat.leb_le id Hid. apply within_order; [done..|]. apply hasExpr_lt in Hid. lia.
Qed.

(** Every evaluation is one on which both evaluators are meant to agree. *)
Definition strictPool (f : Function) : Prop := forallb strictOp (exprs (pool f)) = true.

Section Refined.
Context {B X : Type} `{BackendLaws B}.
Context (f f' : Function) (hooks : Hooks X).
Context (Hpool : pool_ok f) (Hpool' : pool_ok f') (Hstrict : strictPool f) (Hshallow : shallow f').

(** The two functions are related in the environment of every typed machine. *)
Context (Href : forall env, env_ok f env -> refined env f f').

Section Machine.
Context (m : Machine B) (Henv : env_ok f (machineEnv f m)).

Lemma refined_at : refined (machineEnv f m) f f'.
Proof using Type*. exact (Href _ Henv). Qed.

Lemma machineEnv_refined : machineEnv f' m = machineEnv f m.
Proof using Type*.
  pose proof refined_at as Hr. unfold machineEnv, hasValue.
  by rewrite (refined_values _ _ _ Hr), (grows_registers _ _ (refined_grows _ _ _ Hr)).
Qed.

Lemma hasExpr_typeAt g x t : typeAt g x = Some t -> hasExpr g x = true.
Proof using Type*. intros (e & He & _)%typeAt_Some. apply hasExpr_exprAt. by exists e. Qed.

Lemma evalIn_hasExpr x v : evalIn f m x = Ok v -> hasExpr f x = true.
Proof using Type*.
  intros Hv. unfold evalIn in Hv. apply (eval_sound f _ Hpool) in Hv.
  inversion Hv as [id e ts args v' He]. apply hasExpr_exprAt. by exists e.
Qed.

(** What an operand evaluated to, its replacement evaluates to. *)
Lemma evalIn_replaces x y v :
  replaces f' (machineEnv f m) x y -> evalIn f m x = Ok v -> evalIn f' m y = Ok v.
Proof using Type*.
  intros Hxy Hv. pose proof (evalIn_hasExpr x v Hv) as Hx. unfold evalIn in *.
  apply (eval_sound f _ Hpool) in Hv. apply Evaluates_Strict in Hv; [|exact Hstrict].
  pose proof (refined_grows _ _ _ refined_at) as Hg. apply (Eval_grows _ f f') in Hv; [|exact Hg].
  rewrite machineEnv_refined.
  assert (Strict f' (machineEnv f m) y v /\ hasExpr f' y = true) as [Hy Hh].
  { destruct Hxy as [->|(t & _ & Ht & Hs)]; [split; [exact Hv|exact (hasExpr_ext f f' x Hg Hx)]|].
    split; [exact (Hs v Hv)|exact (hasExpr_typeAt f' y t Ht)]. }
  apply (evalRec_complete f' _ Hpool' 257); [exact (Hshallow y Hh)|by apply Strict_Evaluates|lia..].
Qed.

(** ** One operation *)

Context (o o' : Op) (xs ys : list N).
Context (Hsame : sameOp o o') (Hxs : operandsOf (tables f) o = Some xs) (Hys : operandsOf (tables f') o' = Some ys).
Context (Hxys : Forall2 (replaces f' (machineEnv f m)) xs ys).

(** An operand evaluated first, in both runs. *)
Lemma operand_refined i st ova k next :
  (x ← xs !! i; orFail (evalIn f m x) m st ova k) = Some next -> quiet (B:=B) (X:=X) next ->
  (y ← ys !! i; orFail (evalIn f' m y) m st ova k) = Some next.
Proof using Type*.
  destruct (xs !! i) as [x|] eqn:Hx; cbn [mbind option_bind]; [|done]. intros Hn Hq.
  destruct (Forall2_lookup_l _ _ _ _ _ Hxys Hx) as (y & Hy & Hxy). rewrite Hy. cbn [mbind option_bind].
  destruct (orFail_quiet _ _ _ _ _ _ Hn Hq) as (v & Hv & Hk). by rewrite (evalIn_replaces x y v Hxy Hv).
Qed.

Lemma arguments_refined args : evalArguments f m xs = Ok args -> evalArguments f' m ys = Ok args.
Proof using Type*.
  unfold evalArguments. rewrite !mapRes_Ok. intros Ha. apply Forall2_same_length_lookup.
  split; [rewrite <-(Forall2_length _ _ _ Ha); symmetry; exact (Forall2_length _ _ _ Hxys)|].
  intros i y v Hy Hv. destruct (Forall2_lookup_r _ _ _ _ _ Hxys Hy) as (x & Hx & Hxy).
  exact (evalIn_replaces x y v Hxy (Forall2_lookup_lr _ _ _ _ _ _ Ha Hx Hv)).
Qed.

Lemma target_refined i : targetVa f' o' i = targetVa f o i.
Proof using Type*.
  pose proof refined_at as Hr. unfold targetVa, targetsOf, blockAtId.
  destruct Hsame as (_ & _ & _ & _ & _ & _ & -> & ->). rewrite (refined_targets _ _ _ Hr).
  by destruct (refined_blocks _ _ _ Hr) as [-> _].
Qed.

Lemma nameOf_refined : nameOf f' = nameOf f.
Proof using Type*. unfold nameOf. by rewrite (refined_strings _ _ _ refined_at). Qed.

Lemma registers_refined : registers f' = registers f.
Proof using Type*. exact (grows_registers _ _ (refined_grows _ _ _ refined_at)). Qed.

(** Two operands, both evaluated before either result is looked at. *)
Lemma store_refined st next :
  code o = OpCode.Store -> execOp f hooks o m st = Some next -> quiet (B:=B) (X:=X) next -> execOp f' hooks o' m st = Some next.
Proof using Type*.
  destruct Hsame as (Hc' & Ht & Hva & _). intros Hc. unfold execOp. rewrite Hxs, Hys, Hc', Hc, Ht, Hva.
  cbn [mbind option_bind].
  destruct (xs !! 0%nat) as [x|] eqn:Hx; cbn [mbind option_bind]; [|done].
  destruct (xs !! 1%nat) as [z|] eqn:Hz; cbn [mbind option_bind]; [|done].
  destruct (Forall2_lookup_l _ _ _ _ _ Hxys Hx) as (y & Hy & Hxy). rewrite Hy. cbn [mbind option_bind].
  destruct (Forall2_lookup_l _ _ _ _ _ Hxys Hz) as (w & Hw & Hzw). rewrite Hw. cbn [mbind option_bind].
  assert (forall d : Diag, quiet (Stop (fail (Fault d) (va o)) m st) -> False) as Hfail by (intros d Hq; by apply Hq).
  destruct (evalIn f m x) as [a|d|] eqn:Ha; [|destruct (evalIn f m z); try done..|done].
  - destruct (evalIn f m z) as [v|d|] eqn:Hv; [| |done].
    + by rewrite (evalIn_replaces x y a Hxy Ha), (evalIn_replaces z w v Hzw Hv).
    + intros Hn Hq. apply (inj Some) in Hn as <-. by destruct (Hfail d).
  - intros Hn Hq. apply (inj Some) in Hn as <-. by destruct (Hfail d).
  - intros Hn Hq. apply (inj Some) in Hn as <-. by destruct (Hfail d).
Qed.

Lemma execOp_refined st next :
  execOp f hooks o m st = Some next -> quiet (B:=B) (X:=X) next -> execOp f' hooks o' m st = Some next.
Proof using Type*.
  destruct (decide (code o = OpCode.Store)) as [Hst|Hst]; [by apply store_refined|].
  pose proof target_refined as Htv. pose proof nameOf_refined as Hnm. pose proof registers_refined as Hrf.
  destruct Hsame as (Hc' & Ht & Hva & _ & Hres & Hpay & _). unfold execOp.
  rewrite Hxs, Hys, Hc', Ht, Hva, Hres, Hpay, Hnm, Hrf, !Htv. cbn [mbind option_bind].
  destruct (code o); try (intros Hn _; exact Hn); try (by destruct Hst); try apply operand_refined.
  intros Hn Hq. destruct (orFail_quiet _ _ _ _ _ _ Hn Hq) as (args & Hargs & Hk).
  by rewrite (arguments_refined args Hargs).
Qed.

(** The hooks that see the operation do not look at where its operands are
    stored. *)
Definition blind_hooks : Prop := forall u u' : Op, sameOp u u' ->
  (forall h, interruptHook hooks = Some h -> forall st, h u' st = h u st) /\
  (forall h, opHook hooks = Some h -> forall st, h u' st = h u st).

Lemma execStep_refined st next :
  blind_hooks -> execStep f hooks o m st = Some next -> quiet (B:=B) (X:=X) next -> execStep f' hooks o' m st = Some next.
Proof using Type*.
  intros Hb. destruct (Hb o o' Hsame) as [Hi Ho]. pose proof Hsame as (_ & _ & Hva & _). unfold execStep.
  assert (match interruptHook hooks with Some hook => hook o' st | None => (false, st) end =
          match interruptHook hooks with Some hook => hook o st | None => (false, st) end) as ->
    by (destruct (interruptHook hooks); [by apply Hi|done]).
  destruct (match interruptHook hooks with Some _ => _ | None => _ end) as [[] st'];
    [by rewrite Hva|].
  assert (match opHook hooks with Some hook => hook o' st' | None => st' end =
          match opHook hooks with Some hook => hook o st' | None => st' end) as ->
    by (destruct (opHook hooks); [by apply Ho|done]).
  apply execOp_refined.
Qed.
End Machine.

(** ** Blocks *)

Context (Hfs : floats_sized f) (Hdef : definedNodes f) (Hfile : file_ok (registers f)).
Context (Hhooks : typed_hooks hooks) (Hblind : blind_hooks).
Context (Hvalues : forall v i, valueAt f v = Some i -> valid (valueType i) = true).

Lemma runOps_refined level b end_ os seenPhi m st available r m' st' :
  atLeast level Maturity.Ssa = false -> checkOps level f b seenPhi os = true ->
  (forall opId, opId ∈ os -> checkDefinition f (b, opId) = true) ->
  checkUses f b available os = true -> machine_ok f m -> provides m available ->
  runOps f hooks end_ os m st = Some (r, m', st') -> stop r <> ExecStop.Error ->
  runOps f' hooks end_ os m st = Some (r, m', st').
Proof using Type*.
  intros Hbelow. revert seenPhi m st available. induction os as [|opId os IH];
    intros seenPhi m st available Hops Hdefn Huses Hm Hp Hrun Hstop; cbn [runOps] in *; [exact Hrun|].
  apply checkOps_cons in Hops as (o & seenPhi' & Ho & Hcheck & _ & _ & Hrest).
  destruct (checkOp_spec level f b o Hcheck) as (xs & _ & Hxs & _).
  cbn [checkUses] in Huses. rewrite Ho, Hxs in Huses. apply andb_true_iff in Huses as [Hxok Huses].
  pose proof (machineEnv_ok f Hfile m Hm) as Henv.
  destruct (refined_ops _ _ _ (Href _ Henv) opId o Ho) as (o' & Ho' & Hsame & Hxys).
  destruct (Hxys xs Hxs) as (ys & Hys & Hrep). rewrite Ho in Hrun. rewrite Ho'. cbn [mbind option_bind] in *.
  pose proof (execStep_ok f Hpool Hfs Hdef Hfile hooks Hhooks Hvalues level b opId o m available Hbelow Ho Hcheck
    (Hdefn opId ltac:(by left)) Hm Hp xs Hxs Hxok st) as Hstep. unfold steps in Hstep.
  destruct (execStep f hooks o m st) as [next|] eqn:Hnext; cbn [mbind option_bind] in Hrun; [|done].
  rewrite (execStep_refined m Henv o o' xs ys Hsame Hxs Hys Hrep st next Hblind Hnext); cbn [mbind option_bind].
  - destruct next as [m1 st1|r1 m1 st1]; [|exact Hrun]. destruct Hstep as (Hm1 & _ & Hp1).
    apply (IH seenPhi' m1 st1 (if handleValid (result o) then {[result o]} ∪ available else available) Hrest);
      [intros i Hi; apply Hdefn; by right|exact Huses|exact Hm1|exact Hp1|exact Hrun|exact Hstop].
  - destruct next as [m1 st1|r1 m1 st1]; cbn; [done|]. by injection Hrun as -> _ _.
Qed.

Lemma runBlock_refined level b m st r m' st' :
  verifyOk level f = true -> atLeast level Maturity.Ssa = false -> enterable f m ->
  runBlock f hooks b m st = Some (r, m', st') -> stop r <> ExecStop.Error ->
  runBlock f' hooks b m st = Some (r, m', st').
Proof using Type*.
  intros Hv Hbelow Hm Hrun Hstop. pose proof (freshSlots_ok f m Hm) as Hfresh.
  pose proof (Href _ (machineEnv_ok f Hfile _ Hfresh)) as Hr. unfold runBlock in *.
  assert (blockAtId f' b = blockAtId f b) as Hblk by (unfold blockAtId; by destruct (refined_blocks _ _ _ Hr) as [-> _]).
  rewrite Hblk. destruct (blockAtId f b) as [blk|] eqn:Hb; cbn [mbind option_bind] in *; [|done].
  assert (freshSlots f' m = freshSlots f m) as -> by (unfold freshSlots, valueCount; by rewrite (refined_values _ _ _ Hr)).
  destruct (verified_ops level f Hv b blk Hb) as [Hops _].
  apply (runOps_refined level b _ _ false _ st ∅); [exact Hbelow|exact Hops| | |exact Hfresh| |exact Hrun|exact Hstop].
  - intros opId. by apply (verified_definitions level f Hv b blk).
  - exact (verified_uses level f Hv b blk Hbelow Hb).
  - apply freshSlots_provides.
Qed.
End Refined.

(** ** Properties *)

Lemma strict_floats f : strictPool f -> floats_sized f.
Proof.
  intros Hs. apply floats_sized_check. unfold strictPool in Hs. rewrite forallb_forall in *.
  intros e He. specialize (Hs e He). unfold strictOp in Hs. by destruct (op e) eqn:Ho; unfold floatSized in *; rewrite ?Ho in *.
Qed.

(** What the two theorems ask of the function: it verifies below SSA, and its
    operations are ones the two evaluators agree on and C++ defines. *)
Record executable (level : Maturity) (f : Function) : Prop := {
  executable_verified : verifyOk level f = true;
  executable_below : atLeast level Maturity.Ssa = false;
  executable_pool : pool_ok f;
  executable_strict : strictPool f;
  executable_defined : definedNodes f;
  executable_file : file_ok (registers f);
  executable_values : forall v i, valueAt f v = Some i -> valid (valueType i) = true;
  executable_operands : operandsExist f }.

Section Folds.
Context {B X : Type} `{BackendLaws B}.
Context (level : Maturity) (f f' : Function) (hooks : Hooks X) (changed : bool) (b : N) (m m' : Machine B).
Context (st st' : X) (r : ExecOutcome).

(** C9 Constant folding preserves execution, for a function that is [executable]:
    it verifies below SSA with a well-formed pool ([pool_ok]), which has no remainder
    and no bitcast, no float operation of a width other than 32 or at least 64, and no
    node C++ can leave undefined (64-bit signed division, float-to-integer conversion,
    zero-width operation, flag bundle not of 1 to 64 bits); registers have at most 128
    bits and zero-extending views offset 0; values have valid types and operands
    exist. The hooks return values of the type asked for and do not look at where
    operands are stored, and the machine is [enterable]: lawful memory, registers
    holding values of their types. When [foldConstants] returns a function whose
    operand pool stays below 2^32 and whose expressions are at most 257 deep, every
    run of a block that does not end in an error is the same run after it: outcome,
    registers, values, memory and hooks' state. Remainders by zero would differ
    ([Ceval.rem_by_zero_disagreement]). *)
Theorem foldConstants_preserves_runs :
  executable level f -> typed_hooks hooks -> blind_hooks hooks -> enterable f m ->
  foldConstants f = Some (changed, f') -> addressable f' -> shallow f' ->
  runBlock f hooks b m st = Some (r, m', st') -> stop r <> ExecStop.Error ->
  runBlock f' hooks b m st = Some (r, m', st').
Proof using Type*.
  intros [] Hth Hbh Hm Hfold Haddr Hsh.
  assert (forall env, env_ok f env -> pool_ok f' /\ refined env f f') as Hboth.
  { intros env Henv. destruct (foldConstants_refines f env changed f' executable_pool0 Henv executable_operands0 Hfold Haddr)
      as (? & ? & _). done. }
  assert (pool_ok f') as Hpool' by (apply (Hboth (machineEnv f (freshSlots f m))), machineEnv_ok, freshSlots_ok; done).
  apply (runBlock_refined f f' hooks) with (level := level); auto using strict_floats.
  intros env Henv. apply Hboth, Henv.
Qed.

(** C11 Folding each flag condition over the bundle it reads
    ([foldFlagConditionsDirect]; the distribution through phis, which the public pass
    does next, is not covered) preserves execution. The function is [executable], as
    for constant folding: it verifies below SSA with a well-formed pool, without
    remainders, bitcasts, floats of widths other than 32 or at least 64, or nodes C++
    can leave undefined. Also, an Add, Sub or Logical bundle has 1 to 64 bits and
    operands of that width, and no "ls" condition occurs beside a Logical bundle,
    where the fold is wrong ([flagNodesOk]). The hooks return values of the type asked
    for and do not look at where operands are stored; the machine is [enterable]:
    lawful memory, registers holding values of their types. When the fold returns a
    function with an operand pool below 2^32 and expressions at most 257 deep, every
    run of a block that does not end in an error is the same run after it: outcome,
    registers, values, memory and hooks' state. *)
Theorem foldFlagConditions_preserves_runs logical :
  executable level f -> flagNodesOk logical f -> typed_hooks hooks -> blind_hooks hooks -> enterable f m ->
  foldFlagConditionsDirect f = Some (changed, f') -> addressable f' -> shallow f' ->
  runBlock f hooks b m st = Some (r, m', st') -> stop r <> ExecStop.Error ->
  runBlock f' hooks b m st = Some (r, m', st').
Proof using Type*.
  intros [] Hfl Hth Hbh Hm Hfold Haddr Hsh.
  assert (forall env, env_ok f env -> pool_ok f' /\ refined env f f') as Hboth.
  { intros env Henv. destruct (foldFlagConditions_refines logical f env changed f' executable_pool0 Henv Hfl
      executable_operands0 Hfold Haddr) as (? & ? & _). done. }
  assert (pool_ok f') as Hpool' by (apply (Hboth (machineEnv f (freshSlots f m))), machineEnv_ok, freshSlots_ok; done).
  apply (runBlock_refined f f' hooks) with (level := level); auto using strict_floats.
  intros env Henv. apply Hboth, Henv.
Qed.
End Folds.
