(* ===== verification/EvalFrame.v ===== *)
(** * What an evaluation depends on

    An expression's value depends on the values it reads and, where the pool has
    [EntryReg] nodes, on the registers. Growing the pool changes neither. *)
From stdpp Require Import relations.
From S2P Require Import Prelude Bits U128 Types Exprs Registers Func Eval VerifyExpr ValueTypes EvalProps.
From S2P Require Import Cfg Verify VerifyProps Rewrite.
Local Open Scope Z_scope.

(** No node reads a register directly. *)
Definition entryFree (f : Function) : Prop :=
  forall id e, exprAt f id = Some e -> op e <> ExprOp.EntryReg.

Definition entryFreeNode (e : Expr) : bool := negb (bool_decide (op e = ExprOp.EntryReg)).

Lemma entryFree_check f : forallb entryFreeNode (exprs (pool f)) = true -> entryFree f.
Proof.
  intros H id e [He _]%vget_Some. apply list_elem_of_lookup_2, (forallb_elem _ _ _ H) in He.
  unfold entryFreeNode in He. by apply negb_true_iff, bool_decide_eq_false in He.
Qed.

(** The values the expression reads are among [A]. *)
Definition closed (f : Function) (A : gset N) (x : N) : Prop := forall v, readsValue f x v -> v ∈ A.

Lemma closed_weaken f A A' x : A ⊆ A' -> closed f A x -> closed f A' x.
Proof. intros HA H v Hv. by apply HA, H. Qed.

Lemma closed_child f A x y : child f x y -> closed f A x -> closed f A y.
Proof. intros Hc H v Hv. apply H. by eapply readsValue_child. Qed.

(** A node of another opcode reads what its operands read. *)
Lemma closed_node f A x e :
  exprAt f x = Some e -> op e <> ExprOp.Value -> Forall (closed f A) (operands e) -> closed f A x.
Proof.
  intros He Ho Hall v (y & ey & Hy & Hey & Hop & ->). apply rtc_inv in Hy as [->|(z & (e' & He' & Hz) & Hzy)].
  - congruence.
  - assert (e' = e) as -> by congruence. rewrite Forall_forall in Hall. apply (Hall z Hz). by exists y, ey.
Qed.

(** Growing the pool adds nothing below an expression that exists. *)
Lemma readsValue_shrinks f f' x v :
  pool_ok f -> grows f f' -> hasExpr f x = true -> readsValue f' x v -> readsValue f x v.
Proof.
  intros Hok Hg Hx (y & e & Hy & He & Ho & ->). revert Hx. induction Hy as [x|x y z Hxy _ IH]; intros Hx.
  - apply hasExpr_exprAt in Hx as [e' He']. pose proof (exprAt_ext f f' x e' Hg He').
    assert (e' = e) as -> by congruence. exists x, e. by split; [apply rtc_refl|].
  - destruct Hxy as (e' & He' & Hin). apply hasExpr_exprAt in Hx as [ex Hex].
    pose proof (exprAt_ext f f' x ex Hg Hex). assert (ex = e') as -> by congruence.
    assert (child f x y) as Hc by (by exists e'). eapply readsValue_child; [exact Hc|].
    apply IH; [done|]. by eapply verified_child.
Qed.

Lemma closed_grows f f' A x : pool_ok f -> grows f f' -> hasExpr f x = true -> closed f A x -> closed f' A x.
Proof. intros Hok Hg Hx H v Hv. apply H. by eapply readsValue_shrinks. Qed.

(** The same values supplied, the same value evaluated. *)
Lemma Eval_frame defined f env env' x a :
  entryFree f ->
  (forall v c, readsValue f x v -> envValue env v = Ok c -> envValue env' v = Ok c) ->
  Eval defined f env x a -> Eval defined f env' x a.
Proof.
  intros Hfree Henv H. revert Henv.
  induction H as [x e ts args a He Hw Ht _ IH Hd Hv] using Eval_ind'. intros Henv.
  apply (Eval_node _ _ _ x e ts args a); try done.
  - apply Forall2_same_length_lookup. split; [by eapply Forall2_length|]. intros i y b Hy Hb.
    apply (Forall2_lookup_lr _ _ _ _ _ _ IH Hy Hb). intros v c Hr. apply Henv.
    eapply readsValue_child; [|exact Hr]. exists e. split; [done|by eapply list_elem_of_lookup_2].
  - unfold evalNode in *. pose proof (Hfree x e He). destruct (op e) eqn:Ho; try done.
    apply Henv; [|exact Hv]. exists x, e. by split; [apply rtc_refl|].
Qed.

(** ** Substitution of values *)

(** Interning keeps the pool free of register reads. *)
Lemma entryFree_intern f e r f' :
  entryFree f -> op e <> ExprOp.EntryReg -> intern e f = Some (r, f') -> entryFree f'.
Proof.
  intros Hf Ho Hi id e' He'. pose proof Hi as (_ & [[_ ->]|(_ & -> & _ & Heq)])%intern_Some; [by eapply Hf|].
  rewrite Heq in He'. apply vget_Some in He' as [[Hl|[_ Hl]]%lookup_app_Some Hv]; cbn in *.
  - apply (Hf id). by apply vget_Some.
  - by apply list_lookup_singleton_Some in Hl as [_ <-].
Qed.
