(* ===== verification/LocalPasses.v ===== *)
(** * Block-local transforms (passes/transform.h, copyprop.cpp, load_forward.cpp, dce.cpp)

    Substitution of values by expressions, copy propagation through registers,
    forwarding of redundant loads and removal of dead register accesses, each
    over one block, in the builder monad. *)
From S2P Require Import Prelude Bits U128 Types Exprs Registers Func Verify Rewrite Fold.

(** ** ValueSubst *)

(** [map_] and [memo_]. *)
Record ValueSubst : Type := MkSubst { substMap : gmap N N; substMemo : Memo }.
Definition emptySubst : ValueSubst := MkSubst ∅ ∅.

(** [set]: a later replacement of the same value wins. *)
Definition substSet (s : ValueSubst) (value replacement : N) : ValueSubst :=
  MkSubst (<[value := replacement]> (substMap s)) (substMemo s).

(** What [apply] makes of a node once its operands are rebuilt: a value that is
    in the map becomes its replacement. (Value nodes have no operands.) *)
Definition substRule (map : gmap N N) (expr : Expr) (r : N) (s : unit) : M (N * unit) :=
  if decide (op expr = ExprOp.Value)
  then mret (default r (map !! Z.to_N (u32 (immediate expr))), s)
  else mret (r, s).

(** [apply]. *)
Definition substApply (id : N) (s : ValueSubst) : M (N * ValueSubst) :=
  '(r, w) ← traverse (substRule (substMap s)) (depthOf id) id (substMemo s, tt);
  mret (r, MkSubst (substMap s) w.1).

(** The loop over an operation's operands: the new operands and whether one of
    them changed. *)
Fixpoint substOperands (xs : list N) (s : ValueSubst) : M (list N * bool * ValueSubst) :=
  match xs with
  | [] => mret ([], false, s)
  | x :: xs =>
      '(y, s) ← substApply x s;
      '(ys, changed, s) ← substOperands xs s;
      mret (y :: ys, negb (y =? x)%N || changed, s)
  end.

(** [setOperands] when an operand changed. *)
Definition setChanged (opChanged : bool) (opId : N) (ys : list N) : M unit :=
  if opChanged then setOperands opId ys else mret tt.

(** The calls of [removeOp] at the end of each transform. *)
Fixpoint removeOps (blockId : N) (opIds : list N) : M unit :=
  match opIds with
  | [] => mret tt
  | opId :: opIds => removeOp blockId opId;; removeOps blockId opIds
  end.

(** ** Copy propagation *)

Definition kMaxTrackedExprNodes : nat := 64.

(** The loop of [boundedExprNodeCount], top of the stack first. *)
Fixpoint nodeCountLoop (fuel : nat) (f : Function) (limit : nat) (stack : list N) (visited : gset N)
  : option nat :=
  match stack with
  | [] => Some (size visited)
  | current :: stack =>
      if (limit <? size visited)%nat then Some (size visited)
      else match fuel with
      | O => None
      | S fuel =>
          if decide (current ∈ visited) then nodeCountLoop fuel f limit stack visited
          else
            e ← exprAt f current;
            nodeCountLoop fuel f limit (reverse (operands e) ++ stack) ({[current]} ∪ visited)
      end
  end.

(** Each node is expanded once: the fuel of [collectValueUses] is enough. *)
Definition boundedExprNodeCount (f : Function) (id : N) (limit : nat) : option nat :=
  nodeCountLoop (collectFuel f) f limit [id] ∅.

(** [BlockProp]. *)
Record BlockProp : Type := MkProp {
  propSubst : ValueSubst; contents : gmap N N; propRemovable : list N; propChanged : bool }.

Definition withContents (p : BlockProp) (c : gmap N N) : BlockProp :=
  MkProp (propSubst p) c (propRemovable p) (propChanged p).
Definition withSubst (p : BlockProp) (s : ValueSubst) (ch : bool) : BlockProp :=
  MkProp s (contents p) (propRemovable p) (propChanged p || ch).

(** [readExpr]; [None] inside is the invalid handle. *)
Definition readExpr (p : BlockProp) (reg : N) : M (option N) :=
  root ← gets (fun f => rootOf (registers f) reg);
  match contents p !! root with
  | None => mret None
  | Some found =>
      i ← gets (fun f => rfAt (registers f) reg);
      if isSubRegister i
      then r ← extractExpr (registerType i) found (offsetInParent i); mret (Some r)
      else mret (Some found)
  end.

(** [write]. *)
Definition writeContents (p : BlockProp) (reg value : N) : M BlockProp :=
  i ← gets (fun f => rfAt (registers f) reg);
  if decide (regClass i = RegClass.Zero) then mret p
  else
    root ← gets (fun f => rootOf (registers f) reg);
    count ← gets (fun f => boundedExprNodeCount f value kMaxTrackedExprNodes);
    if (kMaxTrackedExprNodes <? count)%nat then mret (withContents p (delete root (contents p)))
    else if negb (isSubRegister i) then mret (withContents p (<[root := value]> (contents p)))
    else if zeroExtendsParent i then
      r ← gets (fun f => rfAt (registers f) root);
      z ← cast ExprOp.ZExt (registerType r) value;
      mret (withContents p (<[root := z]> (contents p)))
    else mret (withContents p (delete root (contents p))).

(** One iteration of [copyPropagateBlock]. *)
Definition copyOp (opId : N) (p : BlockProp) : M BlockProp :=
  o ← gets (fun f => opAt f opId);
  xs ← gets (fun f => operandsOf (tables f) o);
  '(ys, opChanged, s) ← substOperands xs (propSubst p);
  setChanged opChanged opId ys;;
  let p := withSubst p s opChanged in
  match code o with
  | OpCode.ReadReg =>
      i ← gets (fun f => rfAt (registers f) (payload o));
      if decide (regClass i = RegClass.Zero) then
        zero ← constant (registerType i) 0;
        mret (withSubst p (substSet (propSubst p) (result o) zero) true)
      else
        known ← readExpr p (payload o);
        match known with
        | Some e => mret (withSubst p (substSet (propSubst p) (result o) e) true)
        | None => mret p
        end
  | OpCode.WriteReg =>
      i ← gets (fun f => rfAt (registers f) (payload o));
      if decide (regClass i = RegClass.Zero) then
        mret (MkProp (propSubst p) (contents p) (propRemovable p ++ [opId]) true)
      else
        value ← gets (fun _ => ys !! 0%nat);
        writeContents p (payload o) value
  | OpCode.Call | OpCode.Intrinsic | OpCode.Unimplemented => mret (withContents p ∅)
  | _ => mret p
  end.

Fixpoint copyOps (opIds : list N) (p : BlockProp) : M BlockProp :=
  match opIds with
  | [] => mret p
  | opId :: opIds => p ← copyOp opId p; copyOps opIds p
  end.

Definition copyPropagateBlock (blockId : N) : M bool :=
  block ← gets (fun f => blockAtId f blockId);
  p ← copyOps (blockOps block) (MkProp emptySubst ∅ [] false);
  removeOps blockId (propRemovable p);;
  mret (propChanged p).

(** ** Redundant loads *)

Record LoadState : Type := MkLoads {
  loadSubst : ValueSubst; lastLoadOf : gmap N N; loadRemovable : list N; loadChanged : bool }.

(** One iteration of [forwardRedundantLoads]. *)
Definition loadOp (opId : N) (p : LoadState) : M LoadState :=
  o ← gets (fun f => opAt f opId);
  xs ← gets (fun f => operandsOf (tables f) o);
  '(ys, opChanged, s) ← substOperands xs (loadSubst p);
  setChanged opChanged opId ys;;
  let p := MkLoads s (lastLoadOf p) (loadRemovable p) (loadChanged p || opChanged) in
  match code o with
  | OpCode.Load =>
      match ys with
      | [] => mret p
      | address :: _ =>
          let remember := MkLoads (loadSubst p) (<[address := result o]> (lastLoadOf p))
                            (loadRemovable p) (loadChanged p) in
          match lastLoadOf p !! address with
          | None => mret remember
          | Some found =>
              i ← gets (fun f => valueAt f found);
              if typeEq (valueType i) (opType o) then
                r ← valueRef found;
                mret (MkLoads (substSet (loadSubst p) (result o) r) (lastLoadOf p)
                        (loadRemovable p ++ [opId]) true)
              else mret remember
          end
      end
  | OpCode.Store | OpCode.Call | OpCode.Intrinsic =>
      mret (MkLoads (loadSubst p) ∅ (loadRemovable p) (loadChanged p))
  | _ => mret p
  end.

Fixpoint loadOps (opIds : list N) (p : LoadState) : M LoadState :=
  match opIds with
  | [] => mret p
  | opId :: opIds => p ← loadOp opId p; loadOps opIds p
  end.

Definition forwardRedundantLoads (blockId : N) : M bool :=
  block ← gets (fun f => blockAtId f blockId);
  p ← loadOps (blockOps block) (MkLoads emptySubst ∅ [] false);
  removeOps blockId (loadRemovable p);;
  mret (loadChanged p).

(** ** Dead register accesses *)

(** [collectValueUses] of dce.cpp: the values used and the nodes visited. *)
Fixpoint dceUses (fuel : nat) (f : Function) (id : N) (s : gset N * gset N) : option (gset N * gset N) :=
  let '(uses, visited) := s in
  if decide (id ∈ visited) then Some s
  else match fuel with
  | O => None
  | S fuel =>
      e ← exprAt f id;
      let visited := {[id]} ∪ visited in
      if decide (op e = ExprOp.Value)
      then Some ({[Z.to_N (u32 (immediate e))]} ∪ uses, visited)
      else foldl (fun r x => s ← r; dceUses fuel f x s) (Some (uses, visited)) (operands e)
  end.

(** The first loop of [dceBlock]: the values the block's operations use. *)
Fixpoint blockUses (f : Function) (opIds : list N) (s : gset N * gset N) : option (gset N) :=
  match opIds with
  | [] => Some s.1
  | opId :: opIds =>
      o ← opAt f opId;
      xs ← operandsOf (tables f) o;
      s ← foldl (fun r x => s ← r; dceUses (depthOf x) f x s) (Some s) xs;
      blockUses f opIds s
  end.

(** The second loop: the operations to remove, and the writes of each root not
    read since. *)
Fixpoint deadOps (f : Function) (uses : gset N) (opIds : list N) (pending : gmap N N) (removable : list N)
  : option (list N) :=
  match opIds with
  | [] => Some removable
  | opId :: opIds =>
      o ← opAt f opId;
      if decide (code o = OpCode.ReadReg /\ result o ∉ uses)
      then deadOps f uses opIds pending (removable ++ [opId])
      else if touchesRegister (code o) then
        root ← rootOf (registers f) (payload o);
        if decide (code o = OpCode.ReadReg) then deadOps f uses opIds (delete root pending) removable
        else
          let removable := match pending !! root with
                           | Some dead => removable ++ [dead]
                           | None => removable
                           end in
          deadOps f uses opIds (<[root := opId]> pending) removable
      else match code o with
      | OpCode.Call | OpCode.Intrinsic | OpCode.Unimplemented => deadOps f uses opIds ∅ removable
      | _ => deadOps f uses opIds pending removable
      end
  end.

Definition dceBlock (blockId : N) : M bool :=
  block ← gets (fun f => blockAtId f blockId);
  uses ← gets (fun f => blockUses f (blockOps block) (∅, ∅));
  removable ← gets (fun f => deadOps f uses (blockOps block) ∅ []);
  removeOps blockId removable;;
  mret (negb (length removable =? 0)%nat).
