(* ===== verification/DceSound.v ===== *)
(** * Dead register accesses can go (passes/dce.cpp)

    [dceBlock] returns, and a block it has cleaned runs as before: the reads it
    removes define values nothing uses, the writes it removes are overwritten
    before anything can look. That needs writes to overwrite: a write through a
    view that keeps the rest of its register does not, and [dceBlock] loses the
    register's other bits. *)
From stdpp Require Import relations.
From S2P Require Import Prelude Bits U128 Types Exprs Registers Func Cfg Eval VerifyExpr Verify ValueTypes EvalProps.
From S2P Require Import VerifyProps EvalErrors Rewrite Fold FoldSound Memory Interp RegisterViews InterpSound BlockSim.
From S2P Require Import FoldRuns EvalFrame LocalPasses.
Local Open Scope Z_scope.

(** [f'] is [f] with operations of [b] removed: those in [R]. *)
Record removed (b : N) (R : list N) (f f' : Function) : Prop := {
  removed_pool : pool f' = pool f;
  removed_similar : similar f f';
  removed_operands : operandPool (tables f') = operandPool (tables f);
  removed_types : valueType <$> values (tables f') = valueType <$> values (tables f);
  removed_ops : forall id, id ∉ R -> opAt f' id = opAt f id;
  removed_block : forall blk, blockAtId f b = Some blk -> exists blk', blockAtId f' b = Some blk' /\
    endVa blk' = endVa blk /\ blockOps blk' = filter (fun id => id ∉ R) (blockOps blk) }.

Lemma filter_all {A} (P : A -> Prop) `{!forall x, Decision (P x)} (l : list A) : (forall x, x ∈ l -> P x) -> filter P l = l.
Proof.
  induction l as [|x l IH]; intros Hl; [done|]. rewrite filter_cons_True by (apply Hl; by left).
  f_equal. apply IH. intros y Hy. apply Hl. by right.
Qed.

Lemma removed_nil b f : removed b [] f f.
Proof.
  split; try done. intros blk Hb. exists blk. split_and!; [done..|].
  symmetry. apply filter_all. intros x _. apply not_elem_of_nil.
Qed.

Lemma filter_filter_not (R R' l : list N) :
  filter (fun id => id ∉ R') (filter (fun id => id ∉ R) l) = filter (fun id => id ∉ R ++ R') l.
Proof.
  rewrite list_filter_filter. apply list_filter_iff. intros x. rewrite not_elem_of_app. tauto.
Qed.

Lemma removed_trans b R R' f f' f'' : removed b R f f' -> removed b R' f' f'' -> removed b (R ++ R') f f''.
Proof.
  intros [Hp [] Ho Ht Hops Hb] [Hp' [] Ho' Ht' Hops' Hb'].
  split; [congruence|split; congruence|congruence|congruence| |].
  - intros id [H1 H2]%not_elem_of_app. by rewrite Hops', Hops.
  - intros blk Hblk. destruct (Hb blk Hblk) as (blk1 & H1 & He1 & Hf1).
    destruct (Hb' blk1 H1) as (blk2 & H2 & He2 & Hf2). exists blk2. split_and!; [done|congruence|].
    rewrite Hf2, Hf1. apply filter_filter_not.
Qed.

(** Deleting the one occurrence of an element. *)
Lemma delete_filter (l : list N) i x :
  NoDup l -> l !! i = Some x -> delete i l = filter (fun id => id ∉ [x]) l.
Proof.
  intros Hnd Hi. rewrite <-(take_drop_middle l i x Hi) at 2. rewrite delete_take_drop, filter_app, filter_cons_False
    by (intros Hn; apply Hn; by left).
  rewrite <-(take_drop_middle l i x Hi) in Hnd. apply NoDup_app in Hnd as (_ & Hd & Hnd).
  apply NoDup_cons in Hnd as [Hx _]. f_equal; symmetry; apply filter_all; intros y Hy Hyx%list_elem_of_singleton; subst.
  - apply (Hd x Hy). by left.
  - done.
Qed.

Lemma setBlock_at f b blk blk' t : blockAtId f b = Some blk ->
  blockAtId (setBlock f b blk') t = if decide (t = b) then Some blk' else blockAtId f t.
Proof.
  intros [Hb Hv]%vget_Some. unfold blockAtId, setBlock, vget, contains. cbn. rewrite length_insert.
  destruct (decide (t = b)) as [->|Hne].
  - rewrite list_lookup_insert_eq by (by eapply lookup_lt_Some). apply lookup_lt_Some in Hb.
    unfold handleValid in *. case_match eqn:Hc; [done|]. apply andb_false_iff in Hc as [Hc|Hc].
    + by rewrite negb_false_iff, N.eqb_eq in Hc.
    + apply N.ltb_ge in Hc. lia.
  - by rewrite list_lookup_insert_ne by lia.
Qed.

(** ** removeOp *)

(** What [tombstone] leaves: everything but the operation's result and its
    value's definition. *)
Lemma tombstone_Some t id o t' :
  vget (ops t) id = Some o -> tombstone t id o = Some t' ->
  operandPool t' = operandPool t /\ targetPool t' = targetPool t /\
  valueType <$> values t' = valueType <$> values t /\
  forall k, k <> id -> vget (ops t') k = vget (ops t) k.
Proof.
  intros Ho. unfold tombstone. destruct (handleValid (result o)); [|by intros [= <-]].
  destruct (vget (values t) (result o)) as [i|] eqn:Hi; cbn [mbind option_bind]; [|done]. intros [= <-]. cbn.
  split_and!; [done..| |].
  - rewrite list_fmap_insert. cbn. apply list_insert_id. rewrite list_lookup_fmap.
    apply vget_Some in Hi as [Hi _]. by rewrite Hi.
  - intros k Hk. unfold vget, contains. rewrite length_insert. by rewrite list_lookup_insert_ne by lia.
Qed.

Lemma removeOp_removed b opId f f' blk :
  blockAtId f b = Some blk -> NoDup (blockOps blk) -> removeOp b opId f = Some (tt, f') -> removed b [opId] f f'.
Proof.
  intros Hb Hnd. unfold removeOp, update. rewrite Hb. cbn [mbind option_bind].
  destruct (opAt f opId) as [o|] eqn:Ho; cbn [mbind option_bind]; [|done].
  destruct (list_find _ _) as [[position x]|] eqn:Hfind; cbn [mbind option_bind]; [|done].
  apply list_find_Some in Hfind as (Hpos & <- & _). destruct (isTerminator (code o)); [done|].
  destruct (tombstone (tables f) opId o) as [t|] eqn:Ht; cbn [mbind option_bind]; [|done]. intros [= <-].
  destruct (tombstone_Some _ _ _ _ Ho Ht) as (Hop & Htp & Hvt & Hops).
  assert (forall k, blockAtId (eraseNote (setBlock (withTables f t) b (withBlockOps blk (delete position (blockOps blk)))) opId) k =
    if decide (k = b) then Some (withBlockOps blk (delete position (blockOps blk))) else blockAtId f k) as Hblk.
  { intros k. exact (setBlock_at (withTables f t) b blk _ k Hb). }
  split; [done| |done|done| |].
  - split; try done; cbn.
    + apply (f_equal length) in Hvt. by rewrite !length_fmap in Hvt.
    + intros k. rewrite Hblk. destruct (decide (k = b)) as [->|]; [by rewrite Hb|done].
  - intros id Hid%not_elem_of_cons. apply Hops. tauto.
  - intros blk0 Hblk0. assert (blk0 = blk) as -> by congruence. eexists.
    split; [rewrite Hblk; by rewrite decide_True|]. split; [done|]. cbn. by apply delete_filter.
Qed.

Lemma removeOps_removed b R f f' blk :
  blockAtId f b = Some blk -> NoDup (blockOps blk) -> removeOps b R f = Some (tt, f') -> removed b R f f'.
Proof.
  revert f blk. induction R as [|opId R IH]; intros f blk Hb Hnd; cbn [removeOps].
  { intros [= <-]. apply removed_nil. }
  rewrite M_bind_Some. intros ([] & f1 & H1 & H2).
  pose proof (removeOp_removed b opId f f1 blk Hb Hnd H1) as Hr1.
  destruct (removed_block _ _ _ _ Hr1 blk Hb) as (blk1 & Hb1 & _ & Hops1).
  apply (removed_trans b [opId] R f f1 f'); [done|]. apply (IH f1 blk1); [done| |done].
  rewrite Hops1. by apply list.NoDup_filter.
Qed.

(** The removal returns: the operations are in the block, are not terminators,
    and their results exist. *)
Lemma removeOps_total b R f blk :
  blockAtId f b = Some blk -> NoDup (blockOps blk) -> NoDup R ->
  (forall id, id ∈ R -> id ∈ blockOps blk /\ exists o, opAt f id = Some o /\ isTerminator (code o) = false /\
     (handleValid (result o) = true -> (N.to_nat (result o) < length (values (tables f)))%nat)) ->
  exists f', removeOps b R f = Some (tt, f').
Proof.
  revert f blk. induction R as [|opId R IH]; intros f blk Hb Hnd Hndr HR; cbn [removeOps]; [by exists f|].
  apply NoDup_cons in Hndr as [Hnot Hndr].
  assert (exists f1, removeOp b opId f = Some (tt, f1)) as [f1 H1].
  { destruct (HR opId ltac:(by left)) as (Hin & o & Ho & Ht & Hv). unfold removeOp, update. rewrite Hb. cbn [mbind option_bind].
    rewrite Ho. cbn [mbind option_bind]. apply list_elem_of_lookup in Hin as [i Hi].
    destruct (list_find (opId =.) (blockOps blk)) as [[j x]|] eqn:Hf.
    - cbn [mbind option_bind]. rewrite Ht. unfold tombstone. destruct (handleValid (result o)) eqn:Hres; cbn [mbind option_bind]; [|by eexists].
      destruct (lookup_lt_is_Some_2 _ _ (Hv eq_refl)) as [i' Hi'].
      assert (vget (values (tables f)) (result o) = Some i') as ->; [|by eexists].
      apply vget_Some. split; [done|]. unfold handleValid in Hres. by rewrite negb_true_iff, N.eqb_neq in Hres.
    - rewrite list_find_None, Forall_forall in Hf. by destruct (Hf opId (list_elem_of_lookup_2 _ _ _ Hi)). }
  pose proof (removeOp_removed b opId f f1 blk Hb Hnd H1) as Hr1.
  destruct (removed_block _ _ _ _ Hr1 blk Hb) as (blk1 & Hb1 & _ & Hops1).
  destruct (IH f1 blk1 Hb1) as [f' Hf']; [rewrite Hops1; by apply list.NoDup_filter|done| |].
  - intros id Hid. destruct (HR id ltac:(by right)) as (Hin & o & Ho & Ht & Hv).
    assert (id <> opId) as Hne by (by intros ->). assert (id ∉ [opId]) as Hni by (by intros ?%list_elem_of_singleton).
    split; [rewrite Hops1; by apply list_elem_of_filter|]. exists o.
    rewrite (removed_ops _ _ _ _ Hr1) by done. rewrite (similar_values _ _ (removed_similar _ _ _ _ Hr1)). done.
  - exists f'. apply M_bind_Some. by exists tt, f1.
Qed.

#[local] Strategy 100 [eval evalRec].

(** ** The values a block uses *)

(** The state has moved from [s] to [s'] by nodes below [bound]. *)
Definition movesTo (bound : N) (s s' : gset N * gset N) : Prop :=
  s.1 ⊆ s'.1 /\ s.2 ⊆ s'.2 /\ (forall y, y ∈ s'.2 -> y ∈ s.2 \/ (y < bound)%N).

Lemma movesTo_refl bound s : movesTo bound s s.
Proof. split_and!; [done..|by left]. Qed.

Lemma movesTo_trans bound bound' s1 s2 s3 : (bound <= bound')%N -> movesTo bound s1 s2 -> movesTo bound' s2 s3 -> movesTo bound' s1 s3.
Proof.
  intros Hb (H1 & H2 & H3) (H4 & H5 & H6). split_and!; [set_solver|set_solver|].
  intros y Hy. destruct (H6 y Hy) as [Hy2|]; [|by right]. destruct (H3 y Hy2); [by left|right; lia].
Qed.

Lemma movesTo_weaken bound bound' s s' : (bound <= bound')%N -> movesTo bound s s' -> movesTo bound' s s'.
Proof. intros Hb (H1 & H2 & H3). split_and!; [done..|]. intros y Hy. destruct (H3 y Hy); [by left|right; lia]. Qed.

Lemma movesTo_visit id (uses uses' visited : gset N) :
  uses ⊆ uses' -> movesTo (N.succ id) (uses, visited) (uses', {[id]} ∪ visited).
Proof.
  intros Hu. split_and!; cbn; [done|apply union_subseteq_r|].
  intros y [->%elem_of_singleton|]%elem_of_union; [right; lia|by left].
Qed.

Section Uses.
Context (f : Function) (Hpool : pool_ok f).

(** Everything below the node is in [uses]. *)
Definition complete (uses : gset N) (y : N) : Prop := forall v, readsValue f y v -> v ∈ uses.

Lemma complete_weaken uses uses' y : uses ⊆ uses' -> complete uses y -> complete uses' y.
Proof. intros Hs H v Hv. by apply Hs, H. Qed.

(** The nodes visited below [bound] are done; those above may be in progress. *)
Definition doneBelow (bound : N) (s : gset N * gset N) : Prop :=
  forall y, y ∈ s.2 -> (y < bound)%N -> complete s.1 y.

(** Folding over operands below [bound] that exist. *)
Lemma foldUses_spec (rec : N -> gset N * gset N -> option (gset N * gset N)) bound xs s :
  (forall x s, x ∈ xs -> doneBelow (N.succ x) s -> exists s', rec x s = Some s' /\
     doneBelow (N.succ x) s' /\ movesTo (N.succ x) s s' /\ x ∈ s'.2) ->
  (forall x, x ∈ xs -> (x < bound)%N) -> doneBelow bound s ->
  exists s', foldl (fun r x => s ← r; rec x s) (Some s) xs = Some s' /\
    doneBelow bound s' /\ movesTo bound s s' /\ forall x, x ∈ xs -> x ∈ s'.2.
Proof using Type*.
  revert s. induction xs as [|x xs IH]; intros s Hrec Hlt Hd; cbn [foldl].
  { exists s. split_and!; [done|done|apply movesTo_refl|intros x Hx; by apply not_elem_of_nil in Hx]. }
  pose proof (Hlt x ltac:(by left)) as Hx.
  destruct (Hrec x s ltac:(by left)) as (s1 & H1 & Hd1 & Hm1 & Hin1); [intros y Hy Hyx; apply Hd; [done|lia]|].
  cbn [mbind option_bind]. rewrite H1.
  destruct (IH s1) as (s2 & H2 & Hd2 & Hm2 & Hin2).
  - intros y s' Hy. apply Hrec. by right.
  - intros y Hy. apply Hlt. by right.
  - intros y Hy Hyb. destruct (decide (y < N.succ x)%N) as [Hyx|Hyx]; [by apply Hd1|].
    destruct Hm1 as (Hu & _ & Hn). destruct (Hn y Hy) as [Hys|]; [|lia].
    eapply complete_weaken; [exact Hu|]. by apply Hd.
  - exists s2. split; [done|]. split; [done|]. split; [by apply (movesTo_trans (N.succ x) bound s s1 s2); [lia|..]|].
    intros y [->|Hy]%elem_of_cons; [by apply Hm2|by apply Hin2].
Qed.

Lemma operand_below id e x : exprAt f id = Some e -> x ∈ operands e -> hasExpr f x = true /\ (x < id)%N.
Proof using Hpool.
  intros He Hx. pose proof (pool_ok_verifies f Hpool id e He) as Hv. unfold exprVerifies in Hv.
  rewrite !andb_true_iff in Hv. destruct Hv as [[_ Hops] _]. apply (forallb_elem _ _ x) in Hops; [|done].
  by apply andb_true_iff in Hops as [? ?%N.ltb_lt].
Qed.

(** One call: it returns, and the node is done afterwards. *)
Lemma dceUses_spec fuel id s :
  hasExpr f id = true -> (N.to_nat id < fuel)%nat -> doneBelow (N.succ id) s ->
  exists s', dceUses fuel f id s = Some s' /\ doneBelow (N.succ id) s' /\ movesTo (N.succ id) s s' /\ id ∈ s'.2.
Proof using Hpool.
  revert id s. induction fuel as [|fuel IH]; intros id [uses visited] Hid Hfuel Hd; [lia|]. cbn [dceUses].
  destruct (decide (id ∈ visited)) as [Hin|Hin].
  { eexists. split; [done|]. split_and!; [done|apply movesTo_refl|done]. }
  apply hasExpr_exprAt in Hid as [e He]. rewrite He. cbn [mbind option_bind].
  assert (doneBelow id (uses, {[id]} ∪ visited)) as Hd0.
  { intros y Hy Hlt. cbn in Hy. apply elem_of_union in Hy as [->%elem_of_singleton|Hy]; [lia|]. apply Hd; [done|lia]. }
  destruct (decide (op e = ExprOp.Value)) as [Ho|Ho].
  - eexists. split; [done|]. assert (complete ({[handleOf e]} ∪ uses) id) as Hc.
    { intros v (y & ey & Hy & Hey & _ & ->). apply rtc_inv in Hy as [->|(z & (e' & He' & Hz) & _)].
      - assert (ey = e) as -> by congruence. set_solver.
      - assert (e' = e) as -> by congruence. by destruct (value_leaf f id e z Hpool He Ho). }
    split; [|split; [apply movesTo_visit, union_subseteq_r|cbn; apply elem_of_union_l, elem_of_singleton; done]].
    intros y Hy Hlt. destruct (decide (y = id)) as [->|Hne]; [exact Hc|].
    eapply complete_weaken; [|apply Hd0; [exact Hy|lia]]. apply union_subseteq_r.
  - destruct (foldUses_spec (dceUses fuel f) id (operands e) (uses, {[id]} ∪ visited))
      as (s' & Hs' & Hd' & Hm' & Hin').
    + intros x s Hx Hds. destruct (operand_below id e x He Hx) as [Hxe Hlt]. apply IH; [done|lia|done].
    + intros x Hx. by apply (operand_below id e x He Hx).
    + done.
    + exists s'. split; [exact Hs'|].
      assert (complete s'.1 id) as Hc.
      { intros v (y & ey & Hy & Hey & Hoy & ->). apply rtc_inv in Hy as [->|(z & (e' & He' & Hz) & Hzy)]; [congruence|].
        assert (e' = e) as -> by congruence. apply (Hd' z (Hin' z Hz)); [by apply (operand_below id e z He Hz)|].
        by exists y, ey. }
      split; [|split].
      * intros y Hy Hlt. destruct (decide (y = id)) as [->|Hne]; [exact Hc|]. apply Hd'; [done|lia].
      * apply (movesTo_trans (N.succ id) _ _ (uses, {[id]} ∪ visited)); [lia|by apply movesTo_visit|].
        eapply movesTo_weaken; [|exact Hm']. lia.
      * apply Hm'. cbn. apply elem_of_union_l, elem_of_singleton. done.
Qed.
End Uses.

(** The operations of a list exist, with operands that exist. *)
Definition opsExist (f : Function) (os : list N) : Prop :=
  forall opId, opId ∈ os -> exists o xs, opAt f opId = Some o /\ operandsOf (tables f) o = Some xs /\
    forall x, x ∈ xs -> hasExpr f x = true.

(** [blockUses] returns every value the operations use. *)
Lemma blockUses_spec f os s :
  pool_ok f -> opsExist f os -> doneBelow f (N.of_nat (exprCount f)) s ->
  exists uses, blockUses f os s = Some uses /\ s.1 ⊆ uses /\
    forall opId o xs x, opId ∈ os -> opAt f opId = Some o -> operandsOf (tables f) o = Some xs -> x ∈ xs ->
      complete f uses x.
Proof.
  intros Hpool. revert s. induction os as [|opId os IH]; intros s Hex Hd; cbn [blockUses].
  { exists s.1. split_and!; [done|done|]. intros opId o xs x Ho. by apply not_elem_of_nil in Ho. }
  destruct (Hex opId ltac:(by left)) as (o & xs & Ho & Hxs & Hx). rewrite Ho. cbn [mbind option_bind].
  rewrite Hxs. cbn [mbind option_bind].
  destruct (foldUses_spec f Hpool (fun x => dceUses (depthOf x) f x) (N.of_nat (exprCount f)) xs s) as (s1 & Hs1 & Hd1 & Hm1 & Hin1).
  - intros x s' Hxin Hds. apply dceUses_spec; [done|by apply Hx|unfold depthOf; lia|done].
  - intros x Hxin. by apply hasExpr_lt, Hx.
  - done.
  - rewrite Hs1. cbn [mbind option_bind].
    destruct (IH s1) as (uses & Hu & Hsub & Hc); [intros i Hi; apply Hex; by right|done|].
    exists uses. split; [done|]. split; [by etrans; [apply Hm1|]|].
    intros i o' xs' x [->|Hi]%elem_of_cons Ho' Hxs' Hxin; [|by eapply Hc]. simplify_eq.
    eapply complete_weaken; [exact Hsub|]. apply Hd1; [by apply Hin1|]. by apply hasExpr_lt, Hx.
Qed.

(** ** The operations to remove *)

Section Dead.
Context (f : Function) (uses : gset N).

(** An operation that is removed was so before, comes later, or is a pending
    write. *)
Lemma deadOps_origin os P acc R :
  deadOps f uses os P acc = Some R ->
  (forall w, w ∈ acc -> w ∈ R) /\
  forall w, w ∈ R -> w ∈ acc \/ w ∈ os \/ exists root, P !! root = Some w.
Proof.
  revert P acc. induction os as [|opId os IH]; intros P acc; cbn [deadOps].
  { intros [= <-]. split; [done|]. intros w Hw. by left. }
  destruct (opAt f opId) as [o|]; cbn [mbind option_bind]; [|done].
  destruct (decide (_ /\ _)) as [_|_].
  { intros [Hin Hor]%IH. split; [intros w Hw; apply Hin, elem_of_app; by left|]. intros w Hw.
    destruct (Hor w Hw) as [[?| ->%list_elem_of_singleton]%elem_of_app|[?|?]];
      [by left|right; left; by left|right; left; by right|right; by right]. }
  destruct (touchesRegister (code o)).
  - destruct (rootOf _ _) as [root|]; cbn [mbind option_bind]; [|done]. destruct (decide _) as [_|_].
    + intros [Hin Hor]%IH. split; [done|]. intros w Hw.
      destruct (Hor w Hw) as [?|[?|(r & [_ Hr]%lookup_delete_Some)]]; [by left|right; left; by right|right; right; by exists r].
    + intros [Hin Hor]%IH. split.
      { intros w Hw. apply Hin. destruct (P !! root); [apply elem_of_app; by left|done]. }
      intros w Hw. destruct (Hor w Hw) as [Ha|[?|(r & [[_ <-]|[_ Hr]]%lookup_insert_Some)]];
        [|right; left; by right|right; left; by left|right; right; by exists r].
      destruct (P !! root) as [dead|] eqn:Hp; [|by left].
      apply elem_of_app in Ha as [?| ->%list_elem_of_singleton]; [by left|right; right; by exists root].
  - intros Hd. assert (exists P', (forall r w, P' !! r = Some w -> P !! r = Some w) /\ deadOps f uses os P' acc = Some R)
      as (P' & HP & [Hin Hor]%IH) by (destruct (code o); try (by exists P); exists ∅; (split; [intros r w; by rewrite lookup_empty|done])).
    split; [done|]. intros w Hw. destruct (Hor w Hw) as [?|[?|(r & Hr)]]; [by left|right; left; by right|].
    right; right. exists r. by apply HP.
Qed.

(** The pending writes are writes to their roots, not removed so far nor met
    again. *)
Record pending_ok (os : list N) (P : gmap N N) (acc : list N) : Prop := {
  pending_write : forall root w, P !! root = Some w -> (exists o, opAt f w = Some o /\
    code o = OpCode.WriteReg /\ rootOf (registers f) (payload o) = Some root);
  pending_fresh : forall root w, P !! root = Some w -> (w ∉ os) /\ (w ∉ acc);
  pending_acc : forall w, w ∈ acc -> w ∉ os;
  pending_nodup : NoDup os }.

Lemma pending_start os : NoDup os -> pending_ok os ∅ [].
Proof. intros Hnd. split; [intros root w; by rewrite lookup_empty..|intros w Hw; by apply not_elem_of_nil in Hw|done]. Qed.

(** Forgetting pending writes. *)
Lemma pending_sub opId os P P' acc :
  pending_ok (opId :: os) P acc -> (forall r w, P' !! r = Some w -> P !! r = Some w) -> pending_ok os P' acc.
Proof.
  intros [Hw Hf Ha Hnd] HP. apply NoDup_cons in Hnd as [_ Hnd]. split; [eauto| | |done].
  - intros r w Hr. destruct (Hf r w (HP r w Hr)) as [H1 H2]. split; [|done]. intros Hin. apply H1. by right.
  - intros w Hw' Hin. apply (Ha w Hw'). by right.
Qed.

Lemma pending_removed opId os P acc : pending_ok (opId :: os) P acc -> pending_ok os P (acc ++ [opId]).
Proof.
  intros Hp. pose proof (pending_sub opId os P P acc Hp ltac:(done)) as [Hw Hf Ha Hnd].
  destruct Hp as [_ Hf0 _ [Hn _]%NoDup_cons]. split; [done| | |done].
  - intros r w Hr. destruct (Hf r w Hr) as [H1 H2], (Hf0 r w Hr) as [H3 _]. split; [done|].
    intros [?| ->%list_elem_of_singleton]%elem_of_app; [done|]. apply H3. by left.
  - intros w [Hw'| ->%list_elem_of_singleton]%elem_of_app; [by apply Ha|done].
Qed.

Lemma pending_write_step opId o root os P acc :
  pending_ok (opId :: os) P acc -> opAt f opId = Some o -> code o = OpCode.WriteReg ->
  rootOf (registers f) (payload o) = Some root ->
  pending_ok os (<[root := opId]> P) (match P !! root with Some dead => acc ++ [dead] | None => acc end).
Proof.
  intros Hp Ho Hc Hroot. pose proof (pending_sub opId os P P acc Hp ltac:(done)) as [Hw Hf Ha Hnd].
  destruct Hp as [Hw0 Hf0 Ha0 [Hn _]%NoDup_cons].
  assert (forall w, w ∈ match P !! root with Some dead => acc ++ [dead] | None => acc end ->
    w ∈ acc \/ P !! root = Some w) as Hacc.
  { intros w. destruct (P !! root) as [dead|]; [|by left].
    intros [?| ->%list_elem_of_singleton]%elem_of_app; [by left|by right]. }
  split; [| | |done].
  - intros r w [[<- <-]|[_ Hr]]%lookup_insert_Some; [by exists o|by apply Hw].
  - intros r w [[<- <-]|[Hne Hr]]%lookup_insert_Some.
    + split; [done|]. intros [Hin|Hin]%Hacc; [apply (Ha0 opId Hin); by left|]. destruct (Hf0 _ _ Hin) as [H1 _]. apply H1. by left.
    + split; [by apply (Hf r)|]. intros [Hin|Hin]%Hacc; [by destruct (Hf r w Hr)|].
      destruct (Hw r w Hr) as (o1 & Ho1 & _ & Hr1), (Hw root w Hin) as (o2 & Ho2 & _ & Hr2). congruence.
  - intros w [Hin|Hin]%Hacc; [by apply Ha|by apply (Hf root)].
Qed.

(** A pending write that is forgotten, and stays out of sight, is kept. *)
Lemma not_dead os P acc R w :
  deadOps f uses os P acc = Some R -> w ∉ acc -> w ∉ os -> (forall root, P !! root <> Some w) -> w ∉ R.
Proof.
  intros Hd Ha Ho Hp Hw. destruct (proj2 (deadOps_origin os P acc R Hd) w Hw) as [?|[?|(r & Hr)]]; [done..|].
  by apply (Hp r).
Qed.
End Dead.

(** ** The block runs as before *)

(** No hook watches the operations go by. *)
Definition plainHooks {X} (hooks : Hooks X) : Prop := interruptHook hooks = None /\ opHook hooks = None.

Lemma execStep_plain {B X} `{ExecMemoryBackend B} f (hooks : Hooks X) o (m : Machine B) st :
  plainHooks hooks -> execStep f hooks o m st = execOp f hooks o m st.
Proof. intros [Hi Ho]. unfold execStep. by rewrite Hi, Ho. Qed.

(** Only an operation that ends or suspends the block stops without an error. *)
Definition suspends (c : OpCode) : bool :=
  isTerminator c || match c with OpCode.Call | OpCode.Intrinsic | OpCode.Unimplemented => true | _ => false end.

Lemma quiet_stop {B X} `{ExecMemoryBackend B} f (hooks : Hooks X) o (m m1 : Machine B) st r st1 :
  execOp f hooks o m st = Some (Stop r m1 st1) -> stop r <> ExecStop.Error -> suspends (code o) = true.
Proof.
  intros Hn Hq. assert (forall (m : Machine B) st d ova, Some (Stop (fail d ova) m st) = Some (Stop r m1 st1) -> False) as Hfail.
  { intros m0 st0 d ova E. injection E as <- _ _. by apply Hq. }
  destruct (code o) eqn:Hc; try done; exfalso; unfold execOp in Hn; rewrite Hc in Hn;
    destruct (operandsOf (tables f) o) as [xs|]; cbn [mbind option_bind] in Hn; try done.
  - destruct (readRegister _ _ _); cbn [mbind option_bind] in Hn; [|done].
    destruct (define _ _ _); cbn [mbind option_bind] in Hn; done.
  - destruct (xs !! 0%nat); cbn [mbind option_bind] in Hn; [|done].
    destruct (evalIn _ _ _); cbn [orFail] in Hn; [|by eapply Hfail|done].
    destruct (writeRegister _ _ _ _); cbn [mbind option_bind] in Hn; done.
  - destruct (xs !! 0%nat); cbn [mbind option_bind] in Hn; [|done].
    destruct (evalIn _ _ _); cbn [orFail] in Hn; [|by eapply Hfail|done].
    destruct (backendRead _ _ _); cbn [orFail] in Hn; [|by eapply Hfail|done].
    destruct (define _ _ _); cbn [mbind option_bind] in Hn; done.
  - destruct (xs !! 0%nat); cbn [mbind option_bind] in Hn; [|done].
    destruct (xs !! 1%nat); cbn [mbind option_bind] in Hn; [|done].
    destruct (evalIn f m n) as [a|d|]; [|destruct (evalIn f m n0); try done; by eapply Hfail|done].
    destruct (evalIn f m n0) as [v|d|]; [|by eapply Hfail|done].
    destruct (backendWrite _ _ _ _); cbn [orFail] in Hn; [|by eapply Hfail|done]. done.
  - by eapply Hfail.
Qed.

Section Run.
Context {B X : Type} `{ExecMemoryBackend B}.
Context (f f' : Function) (b : N) (R : list N) (hooks : Hooks X) (Hplain : plainHooks hooks).
Context (Hpool : pool_ok f) (Hshallow : shallow f) (Hfree : entryFree f).
Context (Hremoved : removed b R f f').
Context (Hflags : flagsRoots (registers f)) (uses : gset N).

Let kept (v : N) : Prop := v ∈ uses.

Lemma removed_grows : grows f f' /\ grows f' f.
Proof using Hremoved.
  destruct Hremoved as [Hp [] _ Ht _ _]. split; split; try done; by rewrite ?Hp, ?Ht.
Qed.

Lemma removed_pool_ok : pool_ok f'.
Proof using Hpool Hremoved.
  destruct Hpool as [Hw Hv]. split; [by rewrite (removed_pool _ _ _ _ Hremoved)|]. intros id e He.
  apply (exprVerifies_ext f); [apply removed_grows|]. apply Hv. unfold exprAt in *.
  by rewrite <-(removed_pool _ _ _ _ Hremoved).
Qed.

(** An operand whose values are all used evaluates as before. *)
Lemma evalIn_removed stale (m m' : Machine B) x a :
  related kept stale m m' -> complete f uses x -> evalIn f m x = Ok a -> evalIn f' m' x = Ok a.
Proof using Hpool Hshallow Hfree Hremoved.
  intros Hrel Hc Ha. unfold evalIn in *. apply (eval_sound f _ Hpool) in Ha.
  assert (hasExpr f x = true) as Hx by (inversion Ha; apply hasExpr_exprAt; by eexists).
  apply (Eval_frame _ _ _ (machineEnv f' m') _ _ Hfree) in Ha.
  - apply (Eval_grows _ f f') in Ha; [|apply removed_grows].
    apply (evalRec_complete f' _ removed_pool_ok 257); [|exact Ha|lia..].
    assert (forall n y, within f n y -> within f' n y) as Hw; [|by apply Hw, Hshallow].
    induction n as [|n IH]; intros y Hy; [done|]. destruct Hy as (e & He & Hall). exists e.
    split; [by apply (exprAt_ext f f'); [apply removed_grows|]|]. eapply Forall_impl; [exact Hall|exact IH].
  - intros v c Hv. cbn. pose proof (similar_values _ _ (removed_similar _ _ _ _ Hremoved)) as Hl.
    assert (hasValue f' v = hasValue f v) as -> by (unfold hasValue, contains; by rewrite Hl).
    destruct (related_values _ _ _ _ Hrel v (Hc v Hv)) as [-> ->]. done.
Qed.

(** The roots that hold an outdated value: their last write was removed. A
    register of the zero class holds none. *)
Definition zeroRoot (r : N) : Prop := exists i, rfAt (registers f) r = Some i /\ regClass i = RegClass.Zero.
Definition staleRoots (P : gmap N N) (r : N) : Prop := (exists w, P !! r = Some w /\ w ∈ R) /\ ~ zeroRoot r.

Lemma same_cells (stale : N -> Prop) cs cs' : (forall r, ~ stale r) -> cells_agree stale cs cs' -> cs' = cs.
Proof using Type.
  intros Hs [_ Hc]. apply list_eq. intros i. specialize (Hc (N.of_nat i) (Hs _)). by rewrite Nat2N.id in Hc.
Qed.

(** What is known of one operation of the block. *)
Record dce_op (o : Op) : Prop := {
  dce_root : touchesRegister (code o) = true -> exists root ri i, rootOf (registers f) (payload o) = Some root /\
    rfAt (registers f) (payload o) = Some i /\ rfAt (registers f) root = Some ri /\ regClass ri = regClass i;
  dce_overwrites : code o = OpCode.WriteReg -> overwrites (registers f) (payload o);
  dce_operands : exists xs, operandsOf (tables f) o = Some xs /\ forall x, x ∈ xs -> complete f uses x }.

(** An operation that stays, executed on both sides. *)
Lemma kept_step o stale (m m' : Machine B) st next :
  dce_op o -> related kept stale m m' -> (code o = OpCode.ReadReg -> forall r, rootOf (registers f) (payload o) = Some r -> ~ stale r) ->
  execOp f hooks o m st = Some next -> quiet next ->
  exists next', execOp f' hooks o m' st = Some next' /\ same_next kept (staleAfter f stale o) next next'.
Proof using Type*.
  intros [Hroot Hover (xs & Hxs & Hc)] Hrel Hfresh Hn Hq.
  apply (execOp_related kept f f' hooks (removed_similar _ _ _ _ Hremoved) Hflags stale m m' Hrel o o
    ltac:(done) xs xs Hxs) ; [| | |exact Hn|exact Hq].
  - unfold operandsOf in *. by rewrite (removed_operands _ _ _ _ Hremoved).
  - apply Forall2_same_length_lookup. split; [done|]. intros i x y Hx Hy a Ha. simplify_eq.
    apply (evalIn_removed stale m m'); [done| |done]. by eapply Hc, list_elem_of_lookup_2.
  - split; intros Hcode.
    + destruct (Hroot ltac:(by rewrite Hcode)) as (root & _ & _ & Hr & _). exists root. split; [done|]. by apply Hfresh.
    + destruct (Hroot ltac:(by rewrite Hcode)) as (root & _ & _ & Hr & _). exists root. split; [done|]. right. by apply Hover.
Qed.

(** A removed read defines a value nothing uses. *)
Lemma read_removed o stale (m m' : Machine B) st next :
  code o = OpCode.ReadReg -> result o ∉ uses -> related kept stale m m' -> execOp f hooks o m st = Some next ->
  exists m1, next = Continue m1 st /\ related kept stale m1 m'.
Proof using Type.
  intros Hc Hu Hrel. unfold execOp. rewrite Hc. destruct (operandsOf _ _); cbn [mbind option_bind]; [|done].
  destruct (readRegister _ _ _) as [v|]; cbn [mbind option_bind]; [|done].
  destruct (define m (result o) v) as [m1|] eqn:Hd; cbn [mbind option_bind]; [|done]. intros [= <-].
  exists m1. split; [done|]. by eapply define_dropped.
Qed.

(** A removed write leaves its root outdated. *)
Lemma write_removed o root ri i stale (m m' : Machine B) st next :
  code o = OpCode.WriteReg -> rootOf (registers f) (payload o) = Some root ->
  rfAt (registers f) (payload o) = Some i -> rfAt (registers f) root = Some ri -> regClass ri = regClass i ->
  related kept stale m m' -> execOp f hooks o m st = Some next -> quiet next ->
  exists m1, next = Continue m1 st /\ related kept (fun r => stale r \/ (r = root /\ ~ zeroRoot r)) m1 m'.
Proof using Hflags.
  intros Hc Hroot Hi Hri Hcls Hrel. unfold execOp. rewrite Hc. destruct (operandsOf _ _) as [xs|]; cbn [mbind option_bind]; [|done].
  destruct (xs !! 0%nat) as [x|]; cbn [mbind option_bind]; [|done]. intros Hn Hq.
  destruct (orFail_quiet _ _ _ _ _ _ Hn Hq) as (a & _ & Hk).
  destruct (writeRegister _ _ _ _) as [cs|] eqn:Hw; cbn [mbind option_bind] in Hk; [|done].
  apply (inj Some) in Hk as <-. eexists. split; [done|].
  eapply related_weaken; [|by apply (write_dropped kept (registers f) stale m m' (payload o) i root a cs)].
  intros r [?|[-> Hz]]; [by left|right]. split; [done|]. intros (i' & Hi' & Hz'). congruence.
Qed.

(** Pending writes that the next step forgets are not removed. *)
Lemma forgotten opId os P P' acc acc' w :
  deadOps f uses os P' acc' = Some R -> pending_ok f (opId :: os) P acc -> acc' = acc ->
  (exists r, P !! r = Some w) -> (forall r, P' !! r <> Some w) -> w ∉ R.
Proof using Type.
  intros Hd Hp -> (r & Hr) Hno. destruct (pending_fresh _ _ _ _ Hp r w Hr) as [H1 H2].
  apply (not_dead f uses os P' acc); try done. intros Hin. apply H1. by right.
Qed.

(** The operation itself, when it is neither removed now nor pending. *)
Lemma stays opId os P P' acc :
  deadOps f uses os P' acc = Some R -> pending_ok f (opId :: os) P acc ->
  (forall r w, P' !! r = Some w -> P !! r = Some w) -> opId ∉ R.
Proof using Type.
  intros Hd [_ Hf Ha [Hn _]%NoDup_cons] HP. apply (not_dead f uses os P' acc); try done.
  - intros Hin. apply (Ha opId Hin). by left.
  - intros r Hr. apply (proj1 (Hf r opId (HP r opId Hr))). by left.
Qed.

(** What a machine holds at the end: the memory, the registers, the hooks' state
    and the outcome are those of the original run. *)
Definition endsAs (end_ : Z) (os : list N) (m' : Machine B) (st : X) (r : ExecOutcome) (m1 : Machine B) (st1 : X) : Prop :=
  exists m1', runOps f' hooks end_ os m' st = Some (r, m1', st1) /\ memory m1' = memory m1 /\ cells m1' = cells m1.

(** The step of an operation that stays, followed by the rest of the block. *)
Lemma kept_then end_ opId o os stale stale' (m m' : Machine B) st r m1 st1 :
  opAt f opId = Some o -> opId ∉ R -> dce_op o -> related kept stale m m' ->
  (code o = OpCode.ReadReg -> forall r, rootOf (registers f) (payload o) = Some r -> ~ stale r) ->
  (forall r, staleAfter f stale o r -> stale' r) ->
  (suspends (code o) = true -> forall r, ~ stale r) ->
  (forall m2 m2' st2, related kept stale' m2 m2' -> runOps f hooks end_ os m2 st2 = Some (r, m1, st1) ->
    endsAs end_ (filter (fun id => id ∉ R) os) m2' st2 r m1 st1) ->
  runOps f hooks end_ (opId :: os) m st = Some (r, m1, st1) -> stop r <> ExecStop.Error ->
  endsAs end_ (filter (fun id => id ∉ R) (opId :: os)) m' st r m1 st1.
Proof using Type*.
  intros Ho Hnr Hop Hrel Hfresh Hst Hsus Hrest Hrun Hq. rewrite filter_cons_True by done. unfold endsAs. cbn [runOps] in *.
  rewrite Ho in Hrun. rewrite (removed_ops _ _ _ _ Hremoved opId Hnr), Ho. cbn [mbind option_bind] in *.
  rewrite execStep_plain in Hrun |- * by done.
  destruct (execOp f hooks o m st) as [next|] eqn:Hn; cbn [mbind option_bind] in Hrun; [|done].
  assert (quiet next) as Hqn.
  { destruct next as [m2 st2|r2 m2 st2]; [done|]. injection Hrun as -> _ _. exact Hq. }
  destruct (kept_step o stale m m' st next Hop Hrel Hfresh Hn Hqn) as (next' & Hn' & Hsame). rewrite Hn'. cbn [mbind option_bind].
  destruct Hsame as [m2 m2' st2 Hr2|r2 m2 m2' st2 Hr2].
  - apply (Hrest m2 m2' st2); [|exact Hrun]. by eapply related_weaken.
  - injection Hrun as <- <- <-. exists m2'. split; [done|]. split; [apply (related_memory _ _ _ _ Hr2)|].
    apply (same_cells _ _ _ (fun k Hk => Hsus (quiet_stop _ _ _ _ _ _ _ _ Hn Hq) k (proj1 Hk)) (related_cells _ _ _ _ Hr2)).
Qed.

(** The step of an operation that is removed. *)
Lemma dropped_then end_ opId o os stale' (m m' : Machine B) st r m1 st1 :
  opAt f opId = Some o -> opId ∈ R ->
  (forall next, execOp f hooks o m st = Some next -> quiet next -> exists m2, next = Continue m2 st /\ related kept stale' m2 m') ->
  (forall m2, related kept stale' m2 m' -> runOps f hooks end_ os m2 st = Some (r, m1, st1) ->
    endsAs end_ (filter (fun id => id ∉ R) os) m' st r m1 st1) ->
  runOps f hooks end_ (opId :: os) m st = Some (r, m1, st1) -> stop r <> ExecStop.Error ->
  endsAs end_ (filter (fun id => id ∉ R) (opId :: os)) m' st r m1 st1.
Proof using Type*.
  intros Ho Hin Hstep Hrest Hrun Hq. rewrite filter_cons_False by tauto. cbn [runOps] in Hrun.
  rewrite Ho in Hrun. cbn [mbind option_bind] in Hrun. rewrite execStep_plain in Hrun by done.
  destruct (execOp f hooks o m st) as [next|] eqn:Hn; cbn [mbind option_bind] in Hrun; [|done].
  assert (quiet next) as Hqn.
  { destruct next as [m2 st2|r2 m2 st2]; [done|]. injection Hrun as -> _ _. exact Hq. }
  destruct (Hstep next eq_refl Hqn) as (m2 & -> & Hr2). by apply (Hrest m2).
Qed.

(** The simulation, along [deadOps]. *)
Lemma dce_run end_ level blockId seenPhi os P acc (m m' : Machine B) st r m1 st1 :
  deadOps f uses os P acc = Some R -> pending_ok f os P acc -> checkOps level f blockId seenPhi os = true ->
  (forall opId o, opId ∈ os -> opAt f opId = Some o -> dce_op o) ->
  related kept (staleRoots P) m m' ->
  runOps f hooks end_ os m st = Some (r, m1, st1) -> stop r <> ExecStop.Error ->
  endsAs end_ (filter (fun id => id ∉ R) os) m' st r m1 st1.
Proof using Type*.
  revert seenPhi P acc m m' st. induction os as [|opId os IH]; intros seenPhi P acc m m' st Hd Hp Hcheck Hops Hrel Hrun Hq.
  { cbn in Hrun. injection Hrun as <- _ _. by destruct Hq. }
  apply checkOps_cons in Hcheck as (o & seenPhi' & Ho & _ & Hterm & _ & Hcheck).
  pose proof (Hops opId o ltac:(by left) Ho) as Hop. cbn [deadOps] in Hd. rewrite Ho in Hd. cbn [mbind option_bind] in Hd.
  assert (forall i o, i ∈ os -> opAt f i = Some o -> dce_op o) as Hops' by (intros i o' Hi; apply Hops; by right).
  destruct (decide (code o = OpCode.ReadReg /\ result o ∉ uses)) as [[Hc Hu]|Hkeep].
  { apply (dropped_then end_ opId o os (staleRoots P) m m' st r m1 st1 Ho); [| | |exact Hrun|exact Hq].
    - apply (proj1 (deadOps_origin f uses os P (acc ++ [opId]) R Hd)), elem_of_app. right. by left.
    - intros next Hn _. by apply (read_removed o (staleRoots P) m m' st next).
    - intros m2 Hr2 Hrest. by apply (IH seenPhi' P (acc ++ [opId]) m2 m' st Hd (pending_removed f opId os P acc Hp)). }
  destruct (touchesRegister (code o)) eqn:Htouch.
  - destruct (dce_root o Hop Htouch) as (root & ri & i & Hroot & Hi & Hri & Hcls). rewrite Hroot in Hd. cbn [mbind option_bind] in Hd.
    destruct (decide (code o = OpCode.ReadReg)) as [Hc|Hc].
    + assert (forall k w, delete root P !! k = Some w -> P !! k = Some w) as Hsub by (intros k w [_ ?]%lookup_delete_Some; done).
      assert (~ staleRoots P root) as Hfresh.
      { intros [(w & Hw & HwR) _]. apply (forgotten opId os P (delete root P) acc acc w Hd Hp eq_refl); [by exists root| |exact HwR].
        intros k [Hne Hk]%lookup_delete_Some. destruct (pending_write _ _ _ _ Hp k w Hk) as (o1 & Ho1 & _ & Hr1).
        destruct (pending_write _ _ _ _ Hp root w Hw) as (o2 & Ho2 & _ & Hr2). congruence. }
      apply (kept_then end_ opId o os (staleRoots P) (staleRoots (delete root P)) m m' st r m1 st1 Ho);
        [exact (stays opId os P (delete root P) acc Hd Hp Hsub)|exact Hop|exact Hrel| | | | |exact Hrun|exact Hq].
      * intros _ k Hk. assert (k = root) as -> by congruence. exact Hfresh.
      * intros k [[(w & Hw & HwR) Hz] _]. split; [|done]. exists w. split; [|done].
        rewrite lookup_delete_ne; [done|]. intros <-. apply Hfresh. split; [by exists w|done].
      * rewrite Hc. done.
      * intros m2 m2' st2 Hr2 Hrest. apply (IH seenPhi' (delete root P) acc m2 m2' st2 Hd); try done.
        by apply (pending_sub f opId os P).
    + assert (code o = OpCode.WriteReg) as Hcw by (destruct (code o); done).
      pose proof (pending_write_step f opId o root os P acc Hp Ho Hcw Hroot) as Hp'.
      assert (forall k, staleRoots P k -> k <> root -> staleRoots (<[root:=opId]> P) k) as Hother.
      { intros k [(w & Hw & HwR) Hz] Hne. split; [|done]. exists w. by rewrite lookup_insert_ne. }
      destruct (decide (opId ∈ R)) as [HinR|HnR].
      * apply (dropped_then end_ opId o os (staleRoots (<[root:=opId]> P)) m m' st r m1 st1 Ho HinR); [| |exact Hrun|exact Hq].
        -- intros next Hn Hqn. destruct (write_removed o root ri i (staleRoots P) m m' st next) as (m2 & -> & Hr2); try done.
           exists m2. split; [done|]. eapply related_weaken; [|exact Hr2]. intros k [Hk|[-> Hz]].
           ++ destruct (decide (k = root)) as [->|Hne]; [|by apply Hother]. split; [|apply Hk]. exists opId. by rewrite lookup_insert_eq.
           ++ split; [|done]. exists opId. by rewrite lookup_insert_eq.
        -- intros m2 Hr2 Hrest. by apply (IH seenPhi' _ _ m2 m' st Hd Hp').
      * apply (kept_then end_ opId o os (staleRoots P) (staleRoots (<[root:=opId]> P)) m m' st r m1 st1 Ho HnR Hop Hrel);
          [by rewrite Hcw| |by rewrite Hcw| |exact Hrun|exact Hq].
        -- intros k [Hk Hz]. destruct (decide (k = root)) as [->|Hne]; [|by apply Hother]. exfalso.
           destruct (Hz Hcw Hroot) as (i' & Hi' & Hz'). apply Hk. exists ri. split; [done|congruence].
        -- intros m2 m2' st2 Hr2 Hrest. by apply (IH seenPhi' _ _ m2 m2' st2 Hd Hp').
  - assert (exists P', (forall k w, P' !! k = Some w -> P !! k = Some w) /\ deadOps f uses os P' acc = Some R /\
      (P' = P \/ P' = ∅) /\ (suspends (code o) = true -> isTerminator (code o) = false -> P' = ∅)) as (P' & Hsub & Hd' & Hpp & Hsus).
    { destruct (code o); try done; try (exists P; split_and!; [done|done|by left|done]);
        (exists ∅; split_and!; [intros k w; by rewrite lookup_empty|done|by right|done]). }
    assert (P' = ∅ -> forall k, ~ staleRoots P k) as Hempty.
    { intros -> k [(w & Hw & HwR) _]. apply (forgotten opId os P ∅ acc acc w Hd' Hp eq_refl); [by exists k| |exact HwR].
      intros k'. by rewrite lookup_empty. }
    apply (kept_then end_ opId o os (staleRoots P) (staleRoots P') m m' st r m1 st1 Ho);
      [exact (stays opId os P P' acc Hd' Hp Hsub)|exact Hop|exact Hrel|by intros Hc; rewrite Hc in Htouch| | | |exact Hrun|exact Hq].
    + intros k [Hk _]. destruct Hpp as [->| ->]; [done|]. by destruct (Hempty eq_refl k).
    + intros Hs. destruct (isTerminator (code o)) eqn:Ht; [|by apply Hempty, Hsus].
      intros k [(w & Hw & HwR) _]. rewrite (Hterm eq_refl) in Hd'. cbn in Hd'. injection Hd' as ->.
      by destruct (pending_fresh _ _ _ _ Hp k w Hw).
    + intros m2 m2' st2 Hr2 Hrest. apply (IH seenPhi' P' acc m2 m2' st2 Hd'); try done. by apply (pending_sub f opId os P).
Qed.
End Run.

(** ** What [dceBlock] does *)

(** [deadOps] returns operations of the block, once each, that touch registers. *)
Lemma deadOps_total f uses level b (blk : list N) seenPhi os P acc :
  rf_wf (registers f) -> checkOps level f b seenPhi os = true -> pending_ok f os P acc -> NoDup acc ->
  (forall w, w ∈ os -> w ∈ blk) ->
  (forall r w, P !! r = Some w -> w ∈ blk) ->
  (forall w, w ∈ acc -> w ∈ blk /\ exists o, opAt f w = Some o /\ touchesRegister (code o) = true) ->
  exists R, deadOps f uses os P acc = Some R /\ NoDup R /\
    forall w, w ∈ R -> w ∈ blk /\ exists o, opAt f w = Some o /\ touchesRegister (code o) = true.
Proof.
  intros Hwf. revert seenPhi P acc. induction os as [|opId os IH]; intros seenPhi P acc Hcheck Hp Hnd Hin HP Hacc; cbn [deadOps].
  { by exists acc. }
  apply checkOps_cons in Hcheck as (o & seenPhi' & Ho & Hop & _ & _ & Hcheck). rewrite Ho. cbn [mbind option_bind].
  assert (forall w, w ∈ os -> w ∈ blk) as Hin' by (intros w Hw; apply Hin; by right).
  pose proof (Hin opId ltac:(by left)) as Hhere.
  destruct (decide (code o = OpCode.ReadReg /\ result o ∉ uses)) as [[Hc _]|_].
  { apply (IH seenPhi' P (acc ++ [opId]) Hcheck (pending_removed f opId os P acc Hp)); [|done|done|].
    - destruct Hp as [_ _ Ha _]. apply NoDup_app. split; [done|]. split; [|apply NoDup_singleton].
      intros w Hw ->%list_elem_of_singleton. apply (Ha _ Hw). by left.
    - intros w [Hw| ->%list_elem_of_singleton]%elem_of_app; [by apply Hacc|]. split; [done|]. exists o. by rewrite Hc. }
  destruct (touchesRegister (code o)) eqn:Htouch.
  - destruct (checkOp_spec _ _ _ _ Hop) as (xs & ts & _ & _ & _ & _ & Hrule & _).
    assert (checkRegister f o = true) as (i & Hi & _)%checkRegister_Some.
    { unfold codeRuleOk in Hrule. destruct (code o); try done; rewrite !andb_true_iff in Hrule; tauto. }
    destruct (rootOf_total _ _ i Hwf Hi) as (root & ri & Hroot & _). rewrite Hroot. cbn [mbind option_bind].
    destruct (decide (code o = OpCode.ReadReg)) as [Hc|Hc].
    + apply (IH seenPhi' _ acc Hcheck); try done.
      * apply (pending_sub f opId os P); [done|]. by intros r w [_ ?]%lookup_delete_Some.
      * intros r w [_ Hr]%lookup_delete_Some. by eapply HP.
    + assert (code o = OpCode.WriteReg) as Hcw by (destruct (code o); done).
      apply (IH seenPhi' _ _ Hcheck (pending_write_step f opId o root os P acc Hp Ho Hcw Hroot)); [|done| |].
      * destruct (P !! root) as [dead|] eqn:Hd; [|done]. apply NoDup_app. split; [done|]. split; [|apply NoDup_singleton].
        intros w Hw ->%list_elem_of_singleton. by apply (pending_fresh _ _ _ _ Hp root dead Hd).
      * intros r w [[_ <-]|[_ Hr]]%lookup_insert_Some; [done|by eapply HP].
      * destruct (P !! root) as [dead|] eqn:Hd; [|done].
        intros w [Hw| ->%list_elem_of_singleton]%elem_of_app; [by apply Hacc|]. split; [by eapply HP|].
        destruct (pending_write _ _ _ _ Hp root dead Hd) as (od & Hod & Hcd & _). exists od. by rewrite Hcd.
  - assert (forall P', P' = P \/ P' = ∅ -> pending_ok f os P' acc /\ forall r w, P' !! r = Some w -> w ∈ blk) as Hsub.
    { intros P' HP'. assert (forall r w, P' !! r = Some w -> P !! r = Some w) as Hs.
      { destruct HP' as [->| ->]; [done|]. intros r w. by rewrite lookup_empty. }
      split; [by apply (pending_sub f opId os P)|]. intros r w Hw. by eapply HP, Hs. }
    assert (forall P', P' = P \/ P' = ∅ -> exists R, deadOps f uses os P' acc = Some R /\ NoDup R /\
      forall w, w ∈ R -> w ∈ blk /\ exists o, opAt f w = Some o /\ touchesRegister (code o) = true) as Hgo.
    { intros P' HP'. destruct (Hsub P' HP') as [Hp' HPb]. by apply (IH seenPhi' P' acc). }
    destruct (code o); try done; (apply Hgo; by first [left; reflexivity|right; reflexivity]).
Qed.

(** What the theorem asks of the function and the block: the function verifies,
    evaluation stays within its depth limit, no node reads a register, flag
    registers have no views, and the block lists an operation once and its writes
    overwrite. *)
Record cleanable (level : Maturity) (f : Function) (blk : Block) : Prop := {
  cleanable_verified : verifyOk level f = true;
  cleanable_pool : pool_ok f;
  cleanable_shallow : shallow f;
  cleanable_entryFree : entryFree f;
  cleanable_file : rf_wf (registers f);
  cleanable_flags : flagsRoots (registers f);
  cleanable_once : NoDup (blockOps blk);
  cleanable_writes : forall opId o, opId ∈ blockOps blk -> opAt f opId = Some o -> code o = OpCode.WriteReg ->
    overwrites (registers f) (payload o) }.

Section Dce.
Context {B X : Type} `{ExecMemoryBackend B}.
Context (level : Maturity) (f : Function) (b : N) (blk : Block) (Hb : blockAtId f b = Some blk) (Hclean : cleanable level f blk).

Lemma clean_opsExist : opsExist f (blockOps blk).
Proof using Hb Hclean.
  destruct Hclean as [Hv _ _ _ _ _ _ _]. destruct (verified_ops level f Hv b blk Hb) as [Hops _]. revert Hops.
  generalize false. generalize (blockOps blk). induction l as [|i os IH]; intros seenPhi Hops opId Hin.
  { by apply not_elem_of_nil in Hin. }
  apply checkOps_cons in Hops as (o & seenPhi' & Ho & Hop & _ & _ & Hrest).
  apply elem_of_cons in Hin as [->|Hin]; [|by eapply IH].
  destruct (checkOp_spec _ _ _ _ Hop) as (xs & ts & Hxs & _ & Hx & _). by exists o, xs.
Qed.

(** Each operation of the block. *)
Lemma clean_checkOp opId o : opId ∈ blockOps blk -> opAt f opId = Some o -> checkOp level f b o = true.
Proof using Hb Hclean.
  destruct Hclean as [Hv _ _ _ _ _ _ _]. destruct (verified_ops level f Hv b blk Hb) as [Hops _]. revert Hops.
  generalize false. generalize (blockOps blk). induction l as [|i os IH]; intros seenPhi Hops Hin Ho.
  { by apply not_elem_of_nil in Hin. }
  apply checkOps_cons in Hops as (o' & seenPhi' & Ho' & Hop & _ & _ & Hrest).
  apply elem_of_cons in Hin as [->|Hin]; [by simplify_eq|by eapply IH].
Qed.

Lemma clean_dce_op uses opId o :
  (forall opId o xs x, opId ∈ blockOps blk -> opAt f opId = Some o -> operandsOf (tables f) o = Some xs -> x ∈ xs ->
      complete f uses x) ->
  opId ∈ blockOps blk -> opAt f opId = Some o -> dce_op f uses o.
Proof using Hb Hclean.
  intros Hc Hin Ho. pose proof (clean_checkOp opId o Hin Ho) as Hop.
  destruct (checkOp_spec _ _ _ _ Hop) as (xs & ts & Hxs & _ & _ & _ & Hrule & _). split.
  - intros Ht. assert (checkRegister f o = true) as (i & Hi & _)%checkRegister_Some.
    { unfold codeRuleOk in Hrule. destruct (code o); try done; rewrite !andb_true_iff in Hrule; tauto. }
    destruct (rootOf_total _ _ i (cleanable_file _ _ _ Hclean) Hi) as (root & ri & Hroot & _ & Hri & _ & Hcls).
    by exists root, ri, i.
  - intros Hw. by apply (cleanable_writes _ _ _ Hclean opId o).
  - exists xs. split; [done|]. intros x. by apply (Hc opId o).
Qed.

(** C15 Removing dead register accesses preserves execution. The function verifies
    with a well-formed pool, its expressions are at most 257 deep and none reads an
    entry register, its register file is well formed and flag registers have no views;
    the block lists an operation once, and each of its register writes is to a full
    register or to a view that clears the rest of it (without this a partial write is
    lost, [LocalSample.dce_loses_partial_write]). Then [dceBlock] returns, and with no
    interrupt or operation hook (an operation hook would miss the removed accesses)
    every run of the block that does not end in an error ends, after it, with the same
    outcome, memory, registers and state of the intrinsic hook. *)
Theorem dceBlock_preserves_runs :
  exists changed f', dceBlock b f = Some (changed, f') /\
    forall (hooks : Hooks X) (m m1 : Machine B) st r st1, plainHooks hooks ->
      runBlock f hooks b m st = Some (r, m1, st1) -> stop r <> ExecStop.Error ->
      exists m1', runBlock f' hooks b m st = Some (r, m1', st1) /\ memory m1' = memory m1 /\ cells m1' = cells m1.
Proof using Type*.
  destruct Hclean as [Hv Hpool Hshallow Hfree Hwf Hflags Honce Hwrites].
  destruct (blockUses_spec f (blockOps blk) (∅, ∅) Hpool clean_opsExist) as (uses & Huses & _ & Hcomplete).
  { intros y Hy. by apply not_elem_of_empty in Hy. }
  destruct (verified_ops level f Hv b blk Hb) as [Hops _].
  destruct (deadOps_total f uses level b (blockOps blk) false (blockOps blk) ∅ [] Hwf Hops
    (pending_start f _ Honce) (NoDup_nil_2) ltac:(done)) as (R & HR & Hnd & Hin).
  { intros k w. by rewrite lookup_empty. }
  { intros w Hw. by apply not_elem_of_nil in Hw. }
  destruct (removeOps_total b R f blk Hb Honce Hnd) as [f' Hf'].
  { intros w Hw. destruct (Hin w Hw) as (Hwb & o & Ho & Ht). split; [done|]. exists o. split; [done|].
    split; [by destruct (code o)|]. intros Hres.
    destruct (checkDefinition_value f b w o (verified_definitions level f Hv b blk w Hb Hwb) Ho Hres) as (i & Hi & _).
    apply vget_Some in Hi as [Hi _]. by eapply lookup_lt_Some. }
  exists (negb (length R =? 0)%nat), f'. split.
  { unfold dceBlock. apply M_bind_Some. exists blk, f. split; [unfold gets; by rewrite Hb|].
    apply M_bind_Some. exists uses, f. split; [unfold gets; by rewrite Huses|].
    apply M_bind_Some. exists R, f. split; [unfold gets; by rewrite HR|].
    apply M_bind_Some. by exists tt, f'. }
  intros hooks m m1 st r st1 Hplain Hrun Hq. pose proof (removeOps_removed b R f f' blk Hb Honce Hf') as Hrem.
  destruct (removed_block _ _ _ _ Hrem blk Hb) as (blk' & Hb' & Hend & Hops').
  unfold runBlock in *. rewrite Hb in Hrun. rewrite Hb'. cbn [mbind option_bind] in *. rewrite Hend, Hops'.
  assert (freshSlots f' m = freshSlots f m) as ->.
  { unfold freshSlots, valueCount. by rewrite (similar_values _ _ (removed_similar _ _ _ _ Hrem)). }
  apply (dce_run f f' b R hooks Hplain Hpool Hshallow Hfree Hrem Hflags uses (endVa blk) level b false (blockOps blk) ∅ []
    (freshSlots f m)); try done.
  - by apply pending_start.
  - intros opId o Ho. by apply clean_dce_op.
Qed.
End Dce.
