(* ===== verification/SubstSound.v ===== *)
(** * Substituting expressions for values (passes/transform.h [ValueSubst])

    [apply] replaces values by expressions under a memo that outlives the map it
    was filled from. It is sound in every environment in which the replacements
    are, so also in those of a run that has gone further; and a value replaced
    before anything visits it is read by nothing that [apply] returns. *)
From stdpp Require Import relations.
From S2P Require Import Prelude Bits U128 Types Exprs Registers Func Cfg Eval VerifyExpr Verify ValueTypes EvalProps.
From S2P Require Import VerifyProps Rewrite Fold FoldProps FoldSound EvalFrame LocalPasses.
Local Open Scope Z_scope.

(** ** Environments that know more *)

Definition envLe (env env' : Env) : Prop := forall v c, envValue env v = Ok c -> envValue env' v = Ok c.

#[export] Instance envLe_po : PreOrder envLe.
Proof. split; [by intros env v c|]. intros e1 e2 e3 H1 H2 v c Hv. by apply H2, H1. Qed.

Lemma Eval_envLe defined f env env' x a :
  entryFree f -> envLe env env' -> Eval defined f env x a -> Eval defined f env' x a.
Proof. intros Hf Ha. apply Eval_frame; [done|]. intros v c _. apply Ha. Qed.

Lemma entryFree_node f id e ys : entryFree f -> exprAt f id = Some e -> op (withOperands e ys) <> ExprOp.EntryReg.
Proof. intros Hf He. exact (Hf id e He). Qed.

(** What a value node evaluates to. *)
Lemma Strict_value f env id e c :
  exprAt f id = Some e -> op e = ExprOp.Value -> Strict f env id c ->
  tooWide (type e) = false /\ envValue env (Z.to_N (u32 (immediate e))) = Ok c.
Proof.
  intros He Ho Hc. destruct (Eval_inv _ _ _ _ _ _ Hc He) as (ts & args & Hw & _ & _ & _ & Hn).
  unfold evalNode in Hn. by rewrite Ho in Hn.
Qed.

(** ** Replacements *)

(** [r] has the type of the value [v], and in [env] what [v] has, where a node of
    that type can be evaluated at all. *)
Definition replacement (f : Function) (env : Env) (v r : N) : Prop :=
  exists i, valueAt f v = Some i /\ typeAt f r = Some (valueType i) /\
    forall c, tooWide (valueType i) = false -> envValue env v = Ok c -> Strict f env r c.

Definition map_ok (env : Env) (f : Function) (map : gmap N N) : Prop :=
  forall v r, map !! v = Some r -> replacement f env v r.

Lemma replacement_grows f f' env v r : grows f f' -> replacement f env v r -> replacement f' env v r.
Proof.
  intros Hg (i & Hi & Ht & Hs). destruct (valueType_ext f f' v i Hg Hi) as (i' & Hi' & Hti).
  exists i'. rewrite Hti. split_and!; [done|by eapply typeAt_ext|]. intros c Hw Hc. eapply Eval_grows; [done|by apply Hs].
Qed.

Lemma map_ok_grows env f f' map : grows f f' -> map_ok env f map -> map_ok env f' map.
Proof. intros Hg Hm v r Hr. eapply replacement_grows; [done|by apply Hm]. Qed.

Lemma map_ok_set env f map v r : map_ok env f map -> replacement f env v r -> map_ok env f (<[v := r]> map).
Proof. intros Hm Hr u s [[<- <-]|[_ Hs]]%lookup_insert_Some; [done|by apply Hm]. Qed.

(** The pass's invariant for the walk. *)
Definition substInv (env : Env) (map : gmap N N) (f : Function) : Prop :=
  pool_ok f /\ entryFree f /\ map_ok env f map.

Lemma substInv_rebuild env map f id e ys r f' :
  substInv env map f -> exprAt f id = Some e -> Forall2 (sameType f) (operands e) ys ->
  intern (withOperands e ys) f = Some (r, f') -> substInv env map f'.
Proof.
  intros (Hp & Hf & Hm) He Hys Hi. split_and!.
  - eapply intern_ok; [done| |done]. by eapply withOperands_typed.
  - eapply entryFree_intern; [done| |done]. by eapply entryFree_node.
  - eapply map_ok_grows; [|done]. by eapply pool_ext_grows, intern_ext.
Qed.

Lemma substRule_sound env map : rule_sound grows (substRule map) env (substInv env map).
Proof.
  intros f id e ys res s r s' f' (Hp & Hf & Hm) He Hys Hres. unfold substRule.
  assert (Simulates f env res res) as Hrefl by (apply Simulates_refl, hasExpr_exprAt; by eexists).
  destruct (decide (op e = ExprOp.Value)) as [Ho|Ho]; intros [= <- <- <-]; [|done].
  split_and!; [done|done|]. destruct (map !! _) as [r'|] eqn:Hr; [|done]. cbn.
  destruct (Hm _ _ Hr) as (i & Hi & Ht & Hs).
  assert (valueType i = type e) as Hte.
  { pose proof (exprVerifies_typed f id e (pool_ok_verifies f Hp id e He)) as (_ & _ & ts & _ & _ & Hv).
    unfold opRuleOk in Hv. rewrite Ho, Hi, typeEq_spec in Hv. by apply bool_decide_eq_true in Hv. }
  exists (type e). split_and!.
  - apply typeAt_Some. by eexists.
  - by rewrite Ht, Hte.
  - intros c Hc. destruct (Strict_value f env res (withOperands e ys) c Hres Ho Hc) as [Hw Hv]. cbn in Hw. rewrite <-Hte in Hw. by apply Hs.
Qed.

Lemma interns_substApply x s : interns (substApply x s).
Proof.
  unfold substApply. apply interns_bind; [|intros [? ?]; apply interns_ret]. apply interns_traverse.
  intros e r u. unfold substRule. case_match; apply interns_ret.
Qed.

(** ** Substitutions over a class of environments *)

Section Class.
Context (E : Env -> Prop).

Definition stands (f : Function) (x y : N) : Prop := sameType f x y /\ forall env, E env -> Simulates f env x y.

Record subst_ok (f : Function) (s : ValueSubst) : Prop := {
  subst_map : forall env, E env -> map_ok env f (substMap s);
  subst_memo : forall env, E env -> memo_ok env f (substMemo s) }.

Lemma subst_ok_empty f : subst_ok f emptySubst.
Proof. split; intros env _; [|apply memo_ok_empty]. intros v r. cbn. by rewrite lookup_empty. Qed.

Lemma subst_ok_grows f f' s : pool_ok f -> grows f f' -> subst_ok f s -> subst_ok f' s.
Proof.
  intros Hp Hg [Hm Hk]. split; intros env He; [by eapply map_ok_grows, Hm|].
  intros x y Hxy. eapply Simulates_grows; [done..|]. by apply (Hk env He).
Qed.

Lemma subst_ok_set f s v r : subst_ok f s -> (forall env, E env -> replacement f env v r) -> subst_ok f (substSet s v r).
Proof. intros [Hm Hk] Hr. split; intros env He; cbn; [apply map_ok_set; auto|auto]. Qed.

Context (env0 : Env) (Henv0 : E env0).

Lemma substApply_spec f x s y s' f' :
  pool_ok f -> entryFree f -> subst_ok f s -> hasExpr f x = true ->
  substApply x s f = Some ((y, s'), f') ->
  pool_ok f' /\ entryFree f' /\ pool_ext f f' /\ subst_ok f' s' /\ stands f' x y.
Proof using Henv0.
  intros Hp Hf [Hm Hk] Hx H. pose proof (interns_substApply x s f _ f' H) as Hext.
  unfold substApply in H. apply M_bind_Some in H as ([r [memo []]] & f1 & H & [= <- <- <-]). cbn.
  assert (forall env, E env -> substInv env (substMap s) f1 /\ memo_ok env f1 memo /\ Simulates f1 env x r) as Hall.
  { intros env He. destruct (traverse_sound (substRule (substMap s)) env (substInv env (substMap s)) (fun _ H => proj1 H)
      (substInv_rebuild env _) (substRule_sound env _) (depthOf x) f x (substMemo s, tt) r (memo, tt) f1)
      as (? & _ & ? & ?); [|by apply Hk|done|done|done].
    split_and!; [done|done|by apply Hm]. }
  destruct (Hall env0 Henv0) as ((? & ? & _) & _ & Hs0). split_and!; [done..| |].
  - split; intros env He; apply Hall, He.
  - split; [by eapply Simulates_sameType|]. intros env He. apply Hall, He.
Qed.

Lemma stands_grows f f' x y : pool_ok f -> grows f f' -> stands f x y -> stands f' x y.
Proof.
  intros Hp Hg [Ht Hs]. split; [by eapply sameType_grows|]. intros env He. eapply Simulates_grows; [done..|]. auto.
Qed.

Lemma substOperands_spec xs f s ys changed s' f' :
  pool_ok f -> entryFree f -> subst_ok f s -> Forall (fun x => hasExpr f x = true) xs ->
  substOperands xs s f = Some ((ys, changed, s'), f') ->
  pool_ok f' /\ entryFree f' /\ pool_ext f f' /\ subst_ok f' s' /\ Forall2 (stands f') xs ys /\
  (changed = false -> ys = xs).
Proof using Henv0.
  revert f s ys changed s' f'. induction xs as [|x xs IH]; intros f s ys changed s' f' Hp Hf Hs Hxs; cbn [substOperands].
  { intros [= <- <- <- <-]. by split_and!. }
  apply Forall_cons in Hxs as [Hx Hxs]. rewrite M_bind_Some. intros ([y s1] & f1 & H1 & H).
  destruct (substApply_spec f x s y s1 f1 Hp Hf Hs Hx H1) as (Hp1 & Hf1 & He1 & Hs1 & Hy).
  apply M_bind_Some in H as ([[ys' ch] s2] & f2 & H2 & [= <- <- <- <-]).
  destruct (IH f1 s1 ys' ch s2 f2 Hp1 Hf1 Hs1) as (Hp2 & Hf2 & He2 & Hs2 & Hys & Hch); [|done|].
  { eapply Forall_impl; [exact Hxs|]. intros z. apply hasExpr_ext. by apply pool_ext_grows. }
  split_and!; [done|done|by transitivity f1|done| |].
  - constructor; [|done]. eapply stands_grows; [exact Hp1| |exact Hy]. by apply pool_ext_grows.
  - intros [Hy0%negb_false_iff%N.eqb_eq Hc]%orb_false_iff. by rewrite Hy0, Hch.
Qed.
End Class.

(** A class of fewer environments. *)
Lemma subst_ok_class (E E' : Env -> Prop) f s : (forall env, E' env -> E env) -> subst_ok E f s -> subst_ok E' f s.
Proof. intros He [Hm Hk]. split; intros env Henv; [apply Hm|apply Hk]; by apply He. Qed.

(** ** Keys of the memo *)

(** Descending in a grown pool is descending in the pool. *)
Lemma child_shrinks f f' x k :
  pool_ok f -> grows f f' -> hasExpr f x = true -> rtc (child f') x k -> rtc (child f) x k.
Proof.
  intros Hp Hg Hx H. induction H as [x|x y k (e & He & Hy) _ IH]; [apply rtc_refl|].
  apply hasExpr_exprAt in Hx as [e' He']. pose proof (exprAt_ext f f' x e' Hg He'). assert (e' = e) as -> by congruence.
  apply (rtc_l _ x y k); [by exists e|]. apply IH. eapply verified_child; [exact Hp|]. by exists e.
Qed.

Section Keys.
Context (map : gmap N N).
Let post := substRule map.
Let I := substInv emptyEnv map.

Lemma walk_emptyEnv n : walk_ok emptyEnv I (traverse post n).
Proof using Type. apply traverse_sound; [by intros f []|apply substInv_rebuild|apply substRule_sound]. Qed.

(** The walk visits what is below its root. *)
Definition keys_below (f : Function) (memo memo' : Memo) (xs : list N) : Prop :=
  forall k, is_Some (memo' !! k) -> is_Some (memo !! k) \/ exists x, x ∈ xs /\ rtc (child f) x k.

Lemma operandsLoop_keys n :
  (forall f id w r w' f', I f -> memo_ok emptyEnv f w.1 -> hasExpr f id = true ->
     traverse post n id w f = Some ((r, w'), f') -> keys_below f w.1 w'.1 [id]) ->
  forall xs f w ys ch w' f', I f -> memo_ok emptyEnv f w.1 -> Forall (fun x => hasExpr f x = true) xs ->
    operandsLoop (traverse post n) xs w f = Some ((ys, ch, w'), f') -> keys_below f w.1 w'.1 xs.
Proof using Type.
  intros Hrec xs. induction xs as [|x xs IH]; intros f w ys ch w' f' Hf Hm Hxs; cbn [operandsLoop].
  { intros [= <- <- <- <-] k Hk. by left. }
  apply Forall_cons in Hxs as [Hx Hxs]. rewrite M_bind_Some. intros ([y w1] & f1 & Hy & H).
  destruct (walk_emptyEnv n _ _ _ _ _ _ Hf Hm Hx Hy) as (Hf1 & Hg1 & Hm1 & _).
  apply M_bind_Some in H as ([[ys' ch'] w2] & f2 & Hl & [= <- <- <- <-]). intros k Hk.
  destruct (IH f1 w1 ys' ch' w2 f2 Hf1 Hm1) with (k := k) as [Hk1|(z & Hz & Hr)]; [|done|done| |].
  - eapply Forall_impl; [exact Hxs|]. intros z. by apply hasExpr_ext.
  - destruct (Hrec _ _ _ _ _ _ Hf Hm Hx Hy k Hk1) as [?|(z & ->%list_elem_of_singleton & Hr)]; [by left|].
    right. exists x. split; [by left|done].
  - right. exists z. split; [by right|]. eapply child_shrinks; [apply Hf|exact Hg1| |done].
    rewrite Forall_forall in Hxs. by apply Hxs.
Qed.

Lemma traverse_keys n f id w r w' f' :
  I f -> memo_ok emptyEnv f w.1 -> hasExpr f id = true ->
  traverse post n id w f = Some ((r, w'), f') -> keys_below f w.1 w'.1 [id].
Proof using Type.
  revert f id w r w' f'. induction n as [|n IH]; intros f id w r w' f' Hf Hm Hid; cbn [traverse];
    (destruct (w.1 !! id) as [r0|] eqn:Hmemo; [intros [= <- <- <-] k Hk; by left|]); [done|].
  rewrite M_bind_Some. intros (e & f0 & [He ->]%gets_Some & H).
  apply M_bind_Some in H as ([[ys ch] w1] & f1 & Hl & H).
  pose proof (operandsLoop_keys n IH (operands e) f w ys ch w1 f1 Hf Hm (operands_exist f id e (proj1 Hf) He) Hl) as Hk1.
  apply M_bind_Some in H as (res & f2 & Hres & H). apply M_bind_Some in H as ([r1 s] & f3 & Hp & [= <- <- <-]).
  intros k Hk. cbn in Hk. unfold emplaceMemo in Hk.
  assert (is_Some (w1.1 !! k) \/ k = id) as [Hk'| ->].
  { destruct (w1.1 !! id); [by left|]. destruct Hk as [v [[<- _] | [_ Hv]]%lookup_insert_Some]; [by right|left; by exists v]. }
  - destruct (Hk1 k Hk') as [?|(x & Hx & Hr)]; [by left|]. right. exists id. split; [by left|].
    apply (rtc_l _ id x k); [by exists e|done].
  - right. exists id. split; [by left|apply rtc_refl].
Qed.
End Keys.

(** ** What is read afterwards *)

(** [A]: the values defined so far; [D]: those of them that are replaced. *)
Section Reads.
Context (A D : gset N).

Record reads_ok (f : Function) (s : ValueSubst) : Prop := {
  reads_map : forall v r, substMap s !! v = Some r -> closed f (A ∖ D) r;
  reads_dropped : forall v, v ∈ D -> is_Some (substMap s !! v);
  reads_memo : forall k r, substMemo s !! k = Some r -> closed f A k /\ closed f (A ∖ D) r }.

Let R (f : Function) (x y : N) : Prop := Simulates f emptyEnv x y /\ (closed f A x -> closed f (A ∖ D) y).

Definition closedInv (map : gmap N N) (f : Function) : Prop :=
  substInv emptyEnv map f /\ (forall v r, map !! v = Some r -> closed f (A ∖ D) r).

Lemma closed_shrinks f f' X x : grows f f' -> closed f' X x -> closed f X x.
Proof.
  intros Hg Hc v (y & e & Hr & He & Ho & Hv). apply Hc. exists y, e. split_and!; [|by eapply exprAt_ext|done..].
  clear -Hg Hr. induction Hr as [|x y z (e' & He' & Hy) _ IH]; [apply rtc_refl|].
  apply (rtc_l _ x y z); [|done]. exists e'. split; [by eapply exprAt_ext|done].
Qed.

Lemma map_hasExpr env map f v r : map_ok env f map -> map !! v = Some r -> hasExpr f r = true.
Proof. intros Hm Hr. destruct (Hm v r Hr) as (i & _ & Ht & _). by eapply typeAt_hasExpr. Qed.

Lemma closedInv_grows map f f' : closedInv map f -> grows f f' -> substInv emptyEnv map f' -> closedInv map f'.
Proof.
  intros [(Hp & _ & Hm) Hc] Hg Hi. split; [done|]. intros v r Hr.
  apply (closed_grows f f' (A ∖ D) r); [exact Hp|exact Hg|by eapply map_hasExpr|by eapply Hc].
Qed.

Lemma reads_R_grows f f' x y : pool_ok f -> grows f f' -> R f x y -> R f' x y.
Proof.
  intros Hp Hg [Hs Hc]. split; [by eapply Simulates_grows|]. intros Hx. destruct Hs as (t & Htx & Hty & _).
  apply (closed_grows f f'); [done|done|by eapply typeAt_hasExpr|]. apply Hc. by eapply closed_shrinks.
Qed.

Lemma substRule_reads map f id e ys res s r s' f' :
  (forall v, v ∈ D -> is_Some (map !! v)) ->
  closedInv map f -> exprAt f id = Some e -> Forall2 (R f) (operands e) ys -> exprAt f res = Some (withOperands e ys) ->
  (ys = operands e -> res = id) -> substRule map e res s f = Some ((r, s'), f') ->
  closedInv map f' /\ grows f f' /\ R f' id r.
Proof.
  intros Hdom [Hi Hmc] He Hys Hres Hid Hr. pose proof Hi as (Hp & Hf & Hm).
  assert (f' = f) as -> by (unfold substRule in Hr; by case_match; injection Hr as _ _ <-).
  assert (Forall2 (Simulates f emptyEnv) (operands e) ys) as Hsim by (eapply Forall2_impl; [exact Hys|by intros x y []]).
  destruct (substRule_sound emptyEnv map f id e ys res s r s' f Hi He) as (_ & _ & Hst); [|done|done|].
  { eapply Forall2_impl; [exact Hsim|]. intros x y. apply Simulates_sameType. }
  split; [by split|]. split; [done|]. split.
  { eapply Simulates_trans; [|exact Hst]. by eapply withOperands_simulates. }
  intros Hcx. unfold substRule in Hr. destruct (decide (op e = ExprOp.Value)) as [Ho|Ho].
  - injection Hr as <- _. assert (Z.to_N (u32 (immediate e)) ∈ A) as HA by (apply Hcx; exists id, e; by split; [apply rtc_refl|]).
    destruct (map !! _) as [r'|] eqn:Hr'; cbn; [by eapply Hmc|].
    pose proof (exprVerifies_typed f id e (pool_ok_verifies f Hp id e He)) as ([_ Harity] & _).
    assert (operands e = []) as Hnil by (unfold operandCount in Harity; rewrite Ho in Harity; cbn in Harity; destruct (operands e); [done|cbn in Harity; lia]).
    rewrite Hnil in Hys, Hid. apply Forall2_nil_inv_l in Hys as ->. rewrite (Hid eq_refl).
    intros v (z & ez & Hz & Hez & _ & ->). apply rtc_inv in Hz as [-> |(u & (e' & He' & Hu) & _)].
    + assert (ez = e) as -> by congruence. apply elem_of_difference. split; [exact HA|].
      intros [r' Hd]%Hdom. unfold handleOf in Hd. congruence.
    + assert (e' = e) as -> by congruence. rewrite Hnil in Hu. by apply not_elem_of_nil in Hu.
  - injection Hr as <- _. apply (closed_node f (A ∖ D) res (withOperands e ys)); [done|done|]. cbn.
    apply Forall_forall. intros y Hy. apply list_elem_of_lookup in Hy as [j Hj].
    destruct (Forall2_lookup_r _ _ _ _ _ Hys Hj) as (x & Hx & _ & Hxy). apply Hxy.
    eapply closed_child; [|exact Hcx]. exists e. split; [done|by eapply list_elem_of_lookup_2].
Qed.

Lemma substApply_reads f x s y s' f' :
  pool_ok f -> entryFree f -> subst_ok (fun env => env = emptyEnv) f s -> reads_ok f s -> hasExpr f x = true -> closed f A x ->
  substApply x s f = Some ((y, s'), f') -> closed f' (A ∖ D) y /\ reads_ok f' s' /\ substMap s' = substMap s.
Proof.
  intros Hp Hf [Hm Hk] [Hrm Hrd Hrk] Hx Hcx H. unfold substApply in H.
  apply M_bind_Some in H as ([r [memo []]] & f1 & H & [= <- <- <-]). cbn [substMap substMemo fst snd] in *.
  assert (substInv emptyEnv (substMap s) f) as Hinv by (split_and!; [done|done|by apply Hm]).
  pose proof (traverse_keys (substMap s) _ f x (substMemo s, tt) r (memo, tt) f1 Hinv (Hk _ eq_refl) Hx H) as Hkeys.
  pose proof (interns_traverse (substRule (substMap s)) ltac:(intros e r0 u; unfold substRule; case_match; apply interns_ret)
    _ _ _ _ _ _ H) as Hext.
  assert (grows f f1) as Hg by (by apply pool_ext_grows).
  destruct (traverse_R (substRule (substMap s)) (closedInv (substMap s)) (fun g Hg => proj1 (proj1 Hg)) R)
    with (fuel := depthOf x) (f := f) (id := x) (w := (substMemo s, tt)) (r := r) (w' := (memo, tt)) (f' := f1)
    as ([_ Hmap1] & _ & Hmemo1 & [_ Hr1]); try done.
  - intros g g' z z' [(Hpg & _) _]. by apply reads_R_grows.
  - intros g z z' [Hs _]. by eapply Simulates_sameType.
  - intros g id e ys r0 g' Hgi He Hys Hi. eapply closedInv_grows; [exact Hgi|by eapply pool_ext_grows, intern_ext|].
    eapply substInv_rebuild; [apply Hgi|done..].
  - intros g id e ys res u r0 u' g' Hgi He Hys Hres Hid Hr. by eapply substRule_reads.
  - intros k r0 Hkr. split; [by apply (Hk _ eq_refl)|]. intros _. by apply (Hrk k r0 Hkr).
  - assert (forall z, hasExpr f z = true -> closed f A z -> closed f1 A z) as Hup by (intros z; by apply closed_grows).
    split; [apply Hr1; by apply Hup|]. split; [|done]. split; cbn; [done|done|].
    intros k r0 Hkr. assert (closed f1 A k) as Hck; [|split; [done|by apply (Hmemo1 k r0 Hkr)]].
    destruct (Hkeys k) as [[r1 Hk1]|(z & ->%list_elem_of_singleton & Hz)]; [by exists r0| |].
    + apply Hup; [|by apply (Hrk k r1)]. destruct (Hk _ eq_refl k r1 Hk1) as (t & Ht & _). by eapply typeAt_hasExpr.
    + apply Hup; clear -Hp Hx Hcx Hz; induction Hz as [|x y k Hc _ IH]; try done; apply IH;
        by first [eapply verified_child|eapply closed_child].
Qed.
End Reads.

(** ** A value more *)

Lemma reads_ok_grows A D f f' s :
  pool_ok f -> grows f f' -> subst_ok (fun env => env = emptyEnv) f s -> reads_ok A D f s -> reads_ok A D f' s.
Proof.
  intros Hp Hg [Hm Hk] [Hrm Hrd Hrk].
  assert (forall X x, hasExpr f x = true -> closed f X x -> closed f' X x) as Hup by (intros X x; by apply closed_grows).
  split; [|done|].
  - intros v r Hr. apply Hup; [|by eapply Hrm]. by eapply map_hasExpr; [apply Hm|].
  - intros k r Hr. destruct (Hrk k r Hr). destruct (Hk _ eq_refl k r Hr) as (t & Ht & Ht' & _).
    split; apply Hup; try done; by eapply typeAt_hasExpr.
Qed.

Lemma reads_ok_defined A D f s v : v ∉ A -> reads_ok A D f s -> v ∉ D -> reads_ok ({[v]} ∪ A) D f s.
Proof.
  intros Hv [Hrm Hrd Hrk] HD. assert (A ⊆ {[v]} ∪ A /\ A ∖ D ⊆ ({[v]} ∪ A) ∖ D) as [H1 H2] by set_solver.
  split; [intros u r Hr; by eapply closed_weaken, Hrm|done|]. intros k r Hr. destruct (Hrk k r Hr).
  split; by eapply closed_weaken.
Qed.

Lemma reads_ok_replaced A D f s v r :
  v ∉ A -> closed f (A ∖ D) r -> reads_ok A D f s -> reads_ok ({[v]} ∪ A) ({[v]} ∪ D) f (substSet s v r).
Proof.
  intros Hv Hr [Hrm Hrd Hrk]. assert (A ⊆ {[v]} ∪ A /\ A ∖ D ⊆ ({[v]} ∪ A) ∖ ({[v]} ∪ D)) as [H1 H2] by set_solver.
  split; cbn.
  - intros u x [[<- <-]|[_ Hx]]%lookup_insert_Some; [by eapply closed_weaken|by eapply closed_weaken, Hrm].
  - intros u [->%elem_of_singleton|Hu]%elem_of_union; [rewrite lookup_insert_eq; by eexists|].
    destruct (decide (u = v)) as [->|Hne]; [rewrite lookup_insert_eq; by eexists|]. rewrite lookup_insert_ne by done. by apply Hrd.
  - intros k x Hx. destruct (Hrk k x Hx). split; by eapply closed_weaken.
Qed.
