(* ===== verification/CopySound.v ===== *)
(** * One step of copy propagation (passes/copyprop.cpp)

    [readExpr] and [write] look at a view's own offset and zero extension only;
    for a view directly below its root that is what the interpreter does. What
    [copyOp] does is then stated in terms of what is known about the machine
    before and after the operation: the environments it may supply and the
    contents of its registers. *)
From S2P Require Import Prelude Bits U128 Types Exprs Registers Func Eval VerifyExpr ValueTypes EvalProps Rewrite Fold.
From S2P Require Import FoldProps FoldSound Memory Interp RegisterViews BlockSim EvalFrame LocalPasses SubstSound.
Local Open Scope Z_scope.

(** A full register, or a view directly below one. *)
Definition straight (file : RegisterFile) (reg : N) : Prop :=
  forall i, rfAt file reg = Some i -> isSubRegister i = true -> rootOf file reg = Some (parent i).

Definition straightb (file : RegisterFile) (reg : N) : bool :=
  match rfAt file reg with
  | Some i => negb (isSubRegister i) || bool_decide (rootOf file reg = Some (parent i))
  | None => true
  end.

Lemma straight_check file reg : straightb file reg = true -> straight file reg.
Proof.
  unfold straightb. intros H i Hi Hs. rewrite Hi, Hs in H. by apply bool_decide_eq_true in H.
Qed.

(** A full register is its own root. *)
Lemma rootOf_full file reg i root :
  rfAt file reg = Some i -> isSubRegister i = false -> rootOf file reg = Some root -> root = reg.
Proof.
  intros Hi Hs Hr%rootOf_loop. destruct (rootLoop_cases _ _ _ _ _ Hr Hi) as [[_ ?]|[? _]]; congruence.
Qed.

Lemma full_rootOf file reg i : rfAt file reg = Some i -> isSubRegister i = false -> rootOf file reg = Some reg.
Proof.
  intros Hi Hs. unfold rootOf. pose proof Hi as Hlt%rfAt_lt.
  destruct (rfContains file reg) eqn:Hc.
  - destruct (length (registers_ file)) as [|n]; [lia|]. cbn [rootLoop]. rewrite Hi. cbn [mbind option_bind]. by rewrite Hs.
  - unfold rfAt, vget in Hi. unfold rfContains in Hc. by rewrite Hc in Hi.
Qed.

Lemma extract_full c w : 0 <= w <= 128 -> canon w c -> extract c w 0 w = c.
Proof.
  intros Hw Hc. apply (extract_atOffset c w 0 w c); done || lia.
Qed.

Section Views.
Context (file : RegisterFile) (Hfile : file_ok file) (Hflags : flagsRoots file).
Context (reg root : N) (i ri : RegisterInfo).
Context (Hi : rfAt file reg = Some i) (Hroot : rootOf file reg = Some root) (Hri : rfAt file root = Some ri).
Context (Hstraight : straight file reg).

Lemma view_class : isSubRegister ri = false /\ regClass ri = regClass i.
Proof using Hfile Hi Hroot Hri.
  destruct (rootOf_total file reg i (file_wf file Hfile) Hi) as (r & ri' & Hr & _ & Hri' & ? & ?). by simplify_eq.
Qed.

(** A view is not a flag register, and fits in its root. *)
Lemma view_facts :
  isSubRegister i = true -> root = parent i /\ reg <> root /\ regClass i <> RegClass.Flags /\
    0 <= offsetInParent i /\ offsetInParent i + regBits i <= regBits ri.
Proof using Type*.
  intros Hs. pose proof (Hstraight i Hi Hs) as Hp. assert (root = parent i) as -> by congruence.
  destruct (view_parent file reg i Hfile Hi Hs) as (p & Hp' & Hlt & Ho & Hb & _). assert (p = ri) as -> by congruence.
  split; [done|]. split; [intros ->; lia|]. split; [|done]. intros Hf. pose proof (Hflags reg i Hi Hf). simplify_eq. lia.
Qed.

(** Reading: the root's contents, or the view's part of them. *)
Lemma view_read cs c v :
  cells_ok file cs -> regClass i <> RegClass.Zero -> cs !! N.to_nat root = Some c -> readRegister file cs reg = Some v ->
  v = if isSubRegister i then extract c (regBits ri) (offsetInParent i) (regBits i) else c.
Proof using Type*.
  intros Hcs Hz Hc. destruct (file_narrow file Hfile _ _ Hi) as [Hb _]. destruct view_class as [Hrs _].
  destruct (decide (regClass i = RegClass.Flags)) as [Hf|Hf].
  - pose proof (Hflags reg i Hi Hf) as Hrr. assert (root = reg) as -> by congruence. assert (ri = i) as Hrii by congruence. rewrite Hrii in Hrs.
    rewrite Hrs. unfold readRegister. rewrite Hi. cbn [mbind option_bind].
    rewrite decide_False, decide_True, Hc by done. intros [= <-].
    pose proof (proj2 Hcs reg i c Hi Hc) as Hv. rewrite (registerType_flags file reg) in Hv by done.
    destruct c as [l h]. destruct Hv as [Hh Hl]. cbn in *. subst h. f_equal. change 15 with (Z.ones 4).
    rewrite Z.land_ones by lia. by apply Z.mod_small.
  - destruct (isSubRegister i) eqn:Hs.
    + destruct (view_facts Hs) as (Hp & Hne & _ & Ho & Hfit). destruct (file_narrow file Hfile _ _ Hri) as [Hrb _].
      rewrite (readRegister_cell file cs reg i root ri c (offsetInParent i)); try done; [by intros [= <-]|].
      pose proof (rfAt_lt _ _ _ Hi). destruct (length (registers_ file)) as [|n]; [lia|].
      rewrite (viewOffset_step n file root reg i) by done. rewrite <-Hp.
      assert (u32 (0 + offsetInParent i) = offsetInParent i) as -> by (unfold u32; apply Z.mod_small; lia).
      destruct n; cbn [viewOffset]; by rewrite N.eqb_refl.
    + assert (root = reg) as -> by (by eapply rootOf_full). assert (ri = i) as -> by congruence.
      rewrite (readRegister_cell file cs reg i reg i c 0); try done; [|destruct (length _); cbn [viewOffset]; by rewrite N.eqb_refl].
      intros [= <-]. apply extract_full; [done|]. apply (registerType_int file reg); [done..|]. by eapply Hcs.
Qed.

(** Writing: no other cell, and the root's when nothing of it is left. *)
Lemma view_write cs v cs' :
  cells_ok file cs -> regClass i <> RegClass.Zero -> val_ok (registerType i) v -> writeRegister file cs reg v = Some cs' ->
  (forall r, r <> root -> cs' !! N.to_nat r = cs !! N.to_nat r) /\
  (isSubRegister i = false \/ zeroExtendsParent i = true -> forall c, cs' !! N.to_nat root = Some c ->
     c = if isSubRegister i then zext v (regBits i) (regBits ri) else v).
Proof using Type*.
  intros Hcs Hz Hv Hw.
  destruct (writeRegister_elsewhere file cs reg root v cs' i Hflags Hi Hroot Hw) as [_ Hother].
  split; [intros r Hr; apply Hother; by left|]. intros Hwhole c Hc. destruct (file_narrow file Hfile _ _ Hi) as [Hb _].
  destruct view_class as [Hrs _].
  destruct (decide (regClass i = RegClass.Flags)) as [Hf|Hf].
  - pose proof (Hflags reg i Hi Hf) as Hrr. assert (root = reg) as -> by congruence. assert (ri = i) as Hrii by congruence. rewrite Hrii in Hrs.
    rewrite Hrs. unfold writeRegister in Hw. rewrite Hi in Hw. cbn [mbind option_bind] in Hw.
    rewrite decide_False, decide_True in Hw by done. rewrite (registerType_flags file reg) in Hv by done.
    assert (MkU128 (Z.land (lo v) 15) 0 = v) as Hvv.
    { destruct v as [l h]. destruct Hv as [Hh Hl]. cbn in *. subst h. f_equal. change 15 with (Z.ones 4).
      rewrite Z.land_ones by lia. by apply Z.mod_small. }
    rewrite Hvv in Hw. unfold setCell in Hw. destruct (_ <? _)%N eqn:Hlt; [|done]. injection Hw as <-.
    apply N.ltb_lt in Hlt. rewrite list_lookup_insert_eq in Hc by lia. congruence.
  - pose proof Hv as Hvc%(registerType_int file reg); [|done..].
    destruct (writeRegister_cell file cs reg i v Hfile Hcs Hi Hz Hf Hvc) as
      (root' & ri' & cell & off & cs2 & Hroot' & Hri' & _ & _ & Hoff & _ & Hw' & _ & Hcell & Hcan & Hat & _ & Hdirect).
    assert (root' = root) as -> by congruence. assert (ri' = ri) as -> by congruence.
    assert (cs2 = cs') as -> by congruence. assert (cell = c) as -> by congruence.
    destruct (isSubRegister i) eqn:Hs.
    + destruct (view_facts Hs) as (Hp & _). destruct Hwhole as [?|Hze]; [done|].
      destruct (Hdirect (eq_sym Hp) eq_refl) as (old & _ & ->). unfold parentValue. by rewrite Hze.
    + assert (root = reg) as -> by (by eapply rootOf_full). assert (ri = i) as -> by congruence.
      assert (off = 0) as -> by (destruct (length (registers_ file)); cbn [viewOffset] in Hoff; rewrite N.eqb_refl in Hoff; congruence).
      apply uval_inj; [apply Hcan|apply Hvc|]. apply Z.bits_inj'. intros k Hk. destruct (Z.ltb_spec k (regBits i)).
      * rewrite <-(Hat k) by lia. f_equal; lia.
      * rewrite (testbit_high (regBits i) (uval c)), (testbit_high (regBits i) (uval v)) by (apply Hvc || apply Hcan || lia).
        done.
Qed.
End Views.

(** ** Functions before and after *)

(** Nothing but the pools and the operations in [os] changed. *)
Record frame (os : list N) (f f' : Function) : Prop := {
  frame_grows : grows f f';
  frame_similar : similar f f';
  frame_values : values (tables f') = values (tables f);
  frame_blocks : blocks f' = blocks f;
  frame_pool : operandPool (tables f) `prefix_of` operandPool (tables f');
  frame_ops : forall id, id ∉ os -> opAt f' id = opAt f id;
  frame_same : forall id o, opAt f id = Some o -> exists o', opAt f' id = Some o' /\ sameOp o o' }.

Lemma sameOp_refl o : sameOp o o.
Proof. done. Qed.

Lemma frame_pool_ext os f f' : pool_ext f f' -> frame os f f'.
Proof.
  intros Hx. pose proof (pool_ext_tables f f' Hx) as Ht. pose proof Hx as [Hf _].
  assert (blocks f' = blocks f) as Hb by (by rewrite Hf).
  split; [by apply pool_ext_grows| |by rewrite Ht|done|by rewrite Ht| |].
  3: { intros id o Ho. exists o. unfold opAt in *. by rewrite Ht. }
  - split; [by apply pool_ext_registers|by rewrite Hf|by rewrite Ht|by rewrite Ht|]. intros t. unfold blockAtId. by rewrite Hb.
  - intros id _. unfold opAt. by rewrite Ht.
Qed.

Lemma frame_refl os f : frame os f f.
Proof. by apply frame_pool_ext. Qed.

Lemma frame_trans os f f' f'' : frame os f f' -> frame os f' f'' -> frame os f f''.
Proof.
  intros [Hg [] Hv Hb Hp Ho Hs] [Hg' [] Hv' Hb' Hp' Ho' Hs'].
  split; [by etrans|split; congruence|congruence|congruence|by etrans| |].
  - intros id Hid. by rewrite Ho', Ho.
  - intros id o (o1 & H1 & Hs1)%Hs. destruct (Hs' id o1 H1) as (o2 & H2 & Hs2). exists o2. split; [done|by eapply sameOp_trans].
Qed.

Lemma frame_weaken os os' f f' : os ⊆ os' -> frame os f f' -> frame os' f f'.
Proof. intros Hs [Hg Hsi Hv Hb Hp Ho]. split; try done. intros id Hid. apply Ho. by intros ?%Hs. Qed.

Lemma slice_prefix {A} (l l' : list A) s c xs : l `prefix_of` l' -> slice l s c = Some xs -> slice l' s c = Some xs.
Proof. intros [k ->]. apply slice_app. Qed.

Lemma operandsOf_frame os f f' o xs : frame os f f' -> operandsOf (tables f) o = Some xs -> operandsOf (tables f') o = Some xs.
Proof. intros Hf. apply slice_prefix, Hf. Qed.

(** [setOperands]: the operation with its new operands. *)
Lemma setOperands_frame f id ys x f' : setOperands id ys f = Some (x, f') -> pool f' = pool f /\ frame [id] f f'.
Proof.
  unfold setOperands, update. destruct (opAt f id) as [o|] eqn:Ho; cbn [mbind option_bind]; [|done]. intros [= _ <-].
  set (o' := MkOp _ _ _ _ _ _ _ _ _ _). split; [done|].
  assert (forall k, opAt (withTables f (MkTables (<[N.to_nat id := o']> (ops (tables f))) (values (tables f))
    (operandPool (tables f) ++ ys) (targetPool (tables f)))) k = if decide (k = id) then Some o' else opAt f k) as Hat.
  { intros k. unfold opAt, vget, contains. cbn. rewrite length_insert. apply vget_Some in Ho as [Ho Hv]. destruct (decide (k = id)) as [->|Hne].
    - rewrite list_lookup_insert_eq by (by eapply lookup_lt_Some). apply lookup_lt_Some in Ho.
      assert (contains (ops (tables f)) id = true) as Hc by (apply contains_spec; split; [lia|done]).
      unfold contains in Hc. by rewrite Hc.
    - by rewrite list_lookup_insert_ne by lia. }
  split; [by split|by split|done|done|cbn; by eexists| |].
  - intros k Hk%not_elem_of_cons. rewrite Hat, decide_False; [done|tauto].
  - intros k o1 Ho1. rewrite Hat. destruct (decide (k = id)) as [->|Hne]; [|by exists o1].
    exists o'. split; [done|]. by assert (o1 = o) as -> by congruence.
Qed.

Lemma setOperands_op f id o ys x f' :
  opAt f id = Some o -> setOperands id ys f = Some (x, f') -> addressable f' ->
  exists o', opAt f' id = Some o' /\ sameOp o o' /\ operandsOf (tables f') o' = Some ys.
Proof.
  intros Ho. unfold setOperands, update. rewrite Ho. cbn [mbind option_bind]. intros [= _ <-]. unfold addressable.
  cbn [tables withTables operandPool]. rewrite length_app. intros Hlen.
  set (o' := MkOp _ _ _ _ _ _ _ _ _ _). pose proof Ho as [Hl Hv]%vget_Some. exists o'.
  split; [apply vget_Some; split; [cbn; apply list_lookup_insert_eq; by eapply lookup_lt_Some|done]|].
  split; [done|]. unfold operandsOf. cbn. unfold u32. rewrite !Z.mod_small by lia. apply slice_end.
Qed.

Lemma setChanged_frame f id ys changed x f' :
  setChanged changed id ys f = Some (x, f') -> pool f' = pool f /\ frame [id] f f'.
Proof.
  unfold setChanged. destruct changed; [apply setOperands_frame|]. intros [= _ <-]. split; [done|apply frame_refl].
Qed.

Lemma setChanged_op f id o xs ys changed x f' :
  opAt f id = Some o -> operandsOf (tables f) o = Some xs -> (changed = false -> ys = xs) ->
  setChanged changed id ys f = Some (x, f') -> addressable f' ->
  exists o', opAt f' id = Some o' /\ sameOp o o' /\ operandsOf (tables f') o' = Some ys.
Proof.
  intros Ho Hxs Hch. unfold setChanged. destruct changed; [by apply setOperands_op|].
  intros [= _ <-] _. exists o. by rewrite Hch.
Qed.

(** A part of the pass that touches the operations in [os] only. *)
Definition framed {A} (os : list N) (m : M A) : Prop := forall f x f', m f = Some (x, f') -> frame os f f'.

Lemma framed_interns {A} os (m : M A) : interns m -> framed os m.
Proof. intros Hm f x f' H%Hm. by apply frame_pool_ext. Qed.

Lemma framed_bind {A B} os (m : M A) (k : A -> M B) : framed os m -> (forall x, framed os (k x)) -> framed os (m ≫= k).
Proof. intros Hm Hk f x f' (y & f1 & H1 & H2)%M_bind_Some. eapply frame_trans; [by eapply Hm|by eapply Hk]. Qed.

Lemma framed_weaken {A} os os' (m : M A) : os ⊆ os' -> framed os m -> framed os' m.
Proof. intros Hs Hm f x f' H. eapply frame_weaken; [done|by eapply Hm]. Qed.

(** ** What is known about the machine *)

(** [holds r c]: the full register [r] contains [c]. *)
Section Knowledge.
Context (file : RegisterFile).

(** [c] is what reading [reg] gives. *)
Definition readAs (reg : N) (holds : N -> ConcreteValue -> Prop) (c : ConcreteValue) : Prop :=
  forall i root ri, rfAt file reg = Some i -> rootOf file reg = Some root -> rfAt file root = Some ri ->
    (regClass i = RegClass.Zero -> c = zero128) /\
    (regClass i <> RegClass.Zero -> exists d, holds root d /\
       c = if isSubRegister i then extract d (regBits ri) (offsetInParent i) (regBits i) else d).

(** A write of [reg] with one of the values [given]. *)
Definition writes (reg : N) (given : ConcreteValue -> Prop) (holds holds' : N -> ConcreteValue -> Prop) : Prop :=
  forall i root ri, rfAt file reg = Some i -> rootOf file reg = Some root -> rfAt file root = Some ri ->
    regClass i <> RegClass.Zero ->
    (forall r c, holds' r c -> r <> root -> holds r c) /\
    (isSubRegister i = false \/ zeroExtendsParent i = true -> forall c, holds' root c ->
       exists v, given v /\ c = if isSubRegister i then zext v (regBits i) (regBits ri) else v).

Definition zeroWrite (o : Op) : bool :=
  bool_decide (code o = OpCode.WriteReg) &&
  match rfAt file (payload o) with Some i => bool_decide (regClass i = RegClass.Zero) | None => false end.

(** From one class of environments and one set of contents to the next. *)
Record progress (f : Function) (o : Op) (xs : list N) (E E' : Env -> Prop) (holds holds' : N -> ConcreteValue -> Prop)
  : Prop := {
  progress_envs : forall env, E' env -> E env;
  progress_keeps : code o <> OpCode.WriteReg \/ zeroWrite o = true -> forall r c, holds' r c -> holds r c;
  progress_read : code o = OpCode.ReadReg -> forall env c, E' env -> envValue env (result o) = Ok c ->
    readAs (payload o) holds c;
  progress_write : code o = OpCode.WriteReg ->
    writes (payload o) (fun v => exists x, xs !! 0%nat = Some x /\ forall env, E' env -> Strict f env x v) holds holds' }.
End Knowledge.

(** ** What the pass keeps *)

(** A tracked expression has its register's type, and what the register contains. *)
Definition contents_ok (E : Env -> Prop) (holds : N -> ConcreteValue -> Prop) (f : Function) (cs : gmap N N) : Prop :=
  forall root e, cs !! root = Some e -> exists ri, rfAt (registers f) root = Some ri /\ isSubRegister ri = false /\
    typeAt f e = Some (registerType ri) /\ forall env c, E env -> holds root c -> Strict f env e c.

Record prop_ok (E : Env -> Prop) (holds : N -> ConcreteValue -> Prop) (f : Function) (p : BlockProp) : Prop := {
  prop_subst : subst_ok E f (propSubst p);
  prop_contents : contents_ok E holds f (contents p) }.

Lemma contents_ok_grows E holds f f' cs : grows f f' -> contents_ok E holds f cs -> contents_ok E holds f' cs.
Proof.
  intros Hg Hc root e He. destruct (Hc root e He) as (ri & Hri & Hs & Ht & Hv). exists ri.
  rewrite (grows_registers f f' Hg). split_and!; [done|done|by eapply typeAt_ext|].
  intros env c Henv Hh. eapply Eval_grows; [done|]. by apply Hv.
Qed.

Lemma contents_ok_delete E holds f cs root : contents_ok E holds f cs -> contents_ok E holds f (delete root cs).
Proof. intros Hc r e [_ He]%lookup_delete_Some. by apply Hc. Qed.

Lemma prop_ok_grows E holds f f' p : pool_ok f -> grows f f' -> prop_ok E holds f p -> prop_ok E holds f' p.
Proof. intros Hp Hg [Hs Hc]. split; [by eapply subst_ok_grows|by eapply contents_ok_grows]. Qed.

(** Fewer environments, less known to be held. *)
Lemma contents_ok_keeps (E E' : Env -> Prop) (holds holds' : N -> ConcreteValue -> Prop) f cs :
  (forall env, E' env -> E env) -> (forall r c, is_Some (cs !! r) -> holds' r c -> holds r c) ->
  contents_ok E holds f cs -> contents_ok E' holds' f cs.
Proof.
  intros He Hh Hc root e Hr. destruct (Hc root e Hr) as (ri & ? & ? & ? & Hv). exists ri. split_and!; [done..|].
  intros env c Henv Hhr. apply Hv; [by apply He|]. apply Hh; [by eexists|done].
Qed.

(** ** The two register operations *)

Lemma registerType_bits file reg i :
  file_ok file -> rfAt file reg = Some i -> regClass i <> RegClass.Flags ->
  registerType i = integer (regBits i) /\ bits (registerType i) = regBits i /\ tooWide (registerType i) = false.
Proof.
  intros Hf Hi Hc. destruct (file_narrow file Hf _ _ Hi) as [Hb _]. unfold registerType. rewrite decide_False by done.
  split; [done|]. unfold tooWide, bits. cbn. assert (u16 (regBits i) = regBits i) as -> by (unfold u16; apply Z.mod_small; lia).
  rewrite Z.mul_1_r. split; [done|]. by replace (128 <? regBits i) with false by lia.
Qed.

(** A cast or extraction of one operand that evaluates. *)
Lemma Strict_unary f env r e x t a c :
  exprAt f r = Some e -> operands e = [x] -> typeAt f x = Some t -> tooWide (type e) = false ->
  Strict f env x a -> strictNode e [a] = true -> evalNode env e [t] [a] = Ok c -> Strict f env r c.
Proof.
  intros He Hops Ht Hw Ha Hs Hn. apply (Eval_node _ _ _ r e [t] [a] c); try done; rewrite Hops; cbn.
  - by rewrite Ht.
  - by repeat constructor.
Qed.

Lemma valid_integer_pos w : 0 <= w <= 128 -> valid (integer w) = true <-> 1 <= w.
Proof.
  intros Hw. unfold valid, integer, bits, kMaxBits. cbn. assert (u16 w = w) as -> by (unfold u16; apply Z.mod_small; lia).
  lia.
Qed.

Section Step.
Context (f : Function) (Hfile : file_ok (registers f)) (Hflags : flagsRoots (registers f)).
Context (E E' : Env -> Prop) (holds holds' : N -> ConcreteValue -> Prop).

(** The extraction [readExpr] builds, and the extension [write] builds, verify. *)
Lemma extract_typed g reg i root ri x :
  rfAt (registers f) reg = Some i -> rootOf (registers f) reg = Some root -> rfAt (registers f) root = Some ri ->
  straight (registers f) reg -> isSubRegister i = true -> valid (registerType i) = true ->
  typeAt g x = Some (registerType ri) -> exprTyped g (MkExpr ExprOp.Extract (registerType i) [x] (offsetInParent i)).
Proof using Hfile Hflags.
  intros Hi Hroot Hri Hst Hs Hv Hx.
  destruct (view_class _ Hfile _ _ _ _ Hi Hroot Hri) as [Hrs Hrc].
  destruct (view_facts _ Hfile Hflags _ _ _ _ Hi Hroot Hri Hst Hs) as (_ & _ & Hnf & Ho & Hfit).
  destruct (file_narrow _ Hfile _ _ Hi) as [Hib _]. destruct (file_narrow _ Hfile _ _ Hri) as [Hrb _].
  destruct (registerType_bits _ _ _ Hfile Hi Hnf) as (_ & Hbi & _).
  destruct (registerType_bits _ _ _ Hfile Hri) as (_ & Hbr & _); [congruence|].
  assert (u64 (offsetInParent i + regBits i) = offsetInParent i + regBits i) as Hu by (unfold u64; apply Z.mod_small; lia).
  split; [cbn; lia|]. split; [done|]. exists [registerType ri]. split; [cbn; by rewrite Hx|]. split; [done|].
  unfold opRuleOk, opType0. cbn. rewrite Hbi, Hbr, Hu. lia.
Qed.

Lemma zext_typed g reg i root ri x :
  pool_ok g -> rfAt (registers f) reg = Some i -> rootOf (registers f) reg = Some root -> rfAt (registers f) root = Some ri ->
  straight (registers f) reg -> isSubRegister i = true -> typeAt g x = Some (registerType i) ->
  exprTyped g (MkExpr ExprOp.ZExt (registerType ri) [x] 0).
Proof using Hfile Hflags.
  intros Hp Hi Hroot Hri Hst Hs Hx.
  destruct (view_class _ Hfile _ _ _ _ Hi Hroot Hri) as [Hrs Hrc].
  destruct (view_facts _ Hfile Hflags _ _ _ _ Hi Hroot Hri Hst Hs) as (_ & _ & Hnf & Ho & Hfit).
  destruct (file_narrow _ Hfile _ _ Hi) as [Hib _]. destruct (file_narrow _ Hfile _ _ Hri) as [Hrb _].
  destruct (registerType_bits _ _ _ Hfile Hi Hnf) as (Hti & Hbi & _).
  destruct (registerType_bits _ _ _ Hfile Hri) as (Htr & Hbr & _); [congruence|].
  assert (valid (registerType ri) = true) as Hv.
  { rewrite Htr. apply valid_integer_pos; [done|]. apply typeAt_Some in Hx as (e & He & Hte).
    pose proof (exprVerifies_typed g x e (pool_ok_verifies g Hp x e He)) as (_ & Hv & _).
    rewrite Hte, Hti in Hv. apply valid_integer_pos in Hv; lia. }
  split; [cbn; lia|]. split; [done|]. exists [registerType i]. split; [cbn; by rewrite Hx|]. split; [done|].
  unfold opRuleOk, opType0. cbn. rewrite Hbi, Hbr. lia.
Qed.

Lemma extract_spec g reg i root ri x r g' :
  pool_ok g -> entryFree g -> registers g = registers f ->
  rfAt (registers f) reg = Some i -> rootOf (registers f) reg = Some root -> rfAt (registers f) root = Some ri ->
  straight (registers f) reg -> isSubRegister i = true -> valid (registerType i) = true ->
  typeAt g x = Some (registerType ri) -> extractExpr (registerType i) x (offsetInParent i) g = Some (r, g') ->
  pool_ok g' /\ entryFree g' /\ pool_ext g g' /\ typeAt g' r = Some (registerType i) /\
  forall env d, Strict g env x d -> Strict g' env r (extract d (regBits ri) (offsetInParent i) (regBits i)).
Proof using Hfile Hflags.
  intros Hp Hf Hr Hi Hroot Hri Hst Hs Hv Hx H.
  destruct (view_class _ Hfile _ _ _ _ Hi Hroot Hri) as [Hrs Hrc].
  destruct (view_facts _ Hfile Hflags _ _ _ _ Hi Hroot Hri Hst Hs) as (_ & _ & Hnf & Ho & Hfit).
  destruct (file_narrow _ Hfile _ _ Hi) as [Hib _]. destruct (file_narrow _ Hfile _ _ Hri) as [Hrb _].
  destruct (registerType_bits _ _ _ Hfile Hi Hnf) as (_ & Hbi & Hwi).
  destruct (registerType_bits _ _ _ Hfile Hri) as (_ & Hbr & _); [congruence|].
  unfold extractExpr in H. set (e := MkExpr _ _ _ _) in H.
  destruct (intern_spec g e r g' Hp) as (Hx' & Hp' & He); [by apply (extract_typed g reg i root ri)|done|].
  split_and!; [done|by eapply (entryFree_intern g e)|done|apply typeAt_Some; by eexists|].
  intros env d Hd. apply (Strict_unary g' env r e x (registerType ri) d); try done.
  - eapply typeAt_ext; [|done]. by apply pool_ext_grows.
  - eapply Eval_grows; [|done]. by apply pool_ext_grows.
  - unfold evalNode, evalOp, argAt. cbn [op e type]. cbn [lookup list_lookup fmap option_fmap option_map ofOption mbind Res_bind default from_option id immediate].
    rewrite Hbi, Hbr. do 2 f_equal. cbn. unfold u32. apply Z.mod_small. lia.
Qed.

Lemma zext_spec g reg i root ri x r g' :
  pool_ok g -> entryFree g ->
  rfAt (registers f) reg = Some i -> rootOf (registers f) reg = Some root -> rfAt (registers f) root = Some ri ->
  straight (registers f) reg -> isSubRegister i = true ->
  typeAt g x = Some (registerType i) -> cast ExprOp.ZExt (registerType ri) x g = Some (r, g') ->
  pool_ok g' /\ entryFree g' /\ pool_ext g g' /\ typeAt g' r = Some (registerType ri) /\
  forall env d, Strict g env x d -> Strict g' env r (zext d (regBits i) (regBits ri)).
Proof using Hfile Hflags.
  intros Hp Hf Hi Hroot Hri Hst Hs Hx H.
  destruct (view_class _ Hfile _ _ _ _ Hi Hroot Hri) as [Hrs Hrc].
  destruct (view_facts _ Hfile Hflags _ _ _ _ Hi Hroot Hri Hst Hs) as (_ & _ & Hnf & Ho & Hfit).
  destruct (file_narrow _ Hfile _ _ Hi) as [Hib _]. destruct (file_narrow _ Hfile _ _ Hri) as [Hrb _].
  destruct (registerType_bits _ _ _ Hfile Hi Hnf) as (Hti & Hbi & _).
  destruct (registerType_bits _ _ _ Hfile Hri) as (Htr & Hbr & Hwr); [congruence|].
  unfold cast in H. apply M_bind_Some in H as (u & g1 & [= <- <-] & H). set (e := MkExpr _ _ _ _) in H.
  destruct (intern_spec g e r g' Hp) as (Hx' & Hp' & He); [by apply (zext_typed g reg i root ri)|done|].
  split_and!; [done|by eapply (entryFree_intern g e)|done|apply typeAt_Some; by eexists|].
  intros env d Hd. apply (Strict_unary g' env r e x (registerType i) d); try done.
  - eapply typeAt_ext; [|done]. by apply pool_ext_grows.
  - eapply Eval_grows; [|done]. by apply pool_ext_grows.
  - unfold evalNode, evalOp, argAt. cbn [op e type]. cbn [lookup list_lookup fmap option_fmap option_map ofOption mbind Res_bind default from_option id].
    by rewrite Hbi, Hbr.
Qed.

(** [readExpr]: the expression found denotes what reading the register gives. *)
Lemma readExpr_spec g p reg i root ri r g' :
  pool_ok g -> entryFree g -> registers g = registers f -> contents_ok E holds g (contents p) ->
  rfAt (registers f) reg = Some i -> rootOf (registers f) reg = Some root -> rfAt (registers f) root = Some ri ->
  straight (registers f) reg -> valid (registerType i) = true -> regClass i <> RegClass.Zero ->
  readExpr p reg g = Some (r, g') ->
  pool_ok g' /\ entryFree g' /\ pool_ext g g' /\
  forall e, r = Some e -> typeAt g' e = Some (registerType i) /\
    forall env c, E env -> readAs (registers f) reg holds c -> Strict g' env e c.
Proof using Hfile Hflags.
  intros Hp Hf Hr Hc Hi Hroot Hri Hst Hv Hz. unfold readExpr. intros (root' & g1 & [Hroot' ->]%gets_Some & H)%M_bind_Some.
  rewrite Hr in Hroot'. assert (root' = root) as -> by congruence.
  destruct (contents p !! root) as [x|] eqn:Hx; [|by injection H as <- <-].
  apply M_bind_Some in H as (i' & g1 & [Hi' ->]%gets_Some & H). rewrite Hr in Hi'. assert (i' = i) as -> by congruence.
  destruct (Hc root x Hx) as (ri' & Hri' & _ & Ht & Hs). rewrite Hr in Hri'. assert (ri' = ri) as -> by congruence.
  destruct (isSubRegister i) eqn:Hsub.
  - apply M_bind_Some in H as (e & g1 & He & [= <- <-]).
    destruct (extract_spec g reg i root ri x e g1) as (? & ? & ? & ? & Hd); try done. split_and!; [done..|].
    intros e' [= <-]. split; [done|]. intros env c Henv Hread. destruct (Hread i root ri Hi Hroot Hri) as [_ Hd'].
    destruct (Hd' Hz) as (d & Hh & ->). rewrite Hsub. by apply Hd, Hs.
  - injection H as <- <-. split_and!; [done..|]. intros e [= <-].
    assert (root = reg) as -> by (by eapply rootOf_full). assert (ri = i) as -> by congruence.
    split; [done|]. intros env c Henv Hread. destruct (Hread i reg i Hi Hroot Hri) as [_ Hd'].
    destruct (Hd' Hz) as (d & Hh & ->). rewrite Hsub. by apply Hs.
Qed.

(** [write]: what is tracked afterwards is held afterwards. *)
Lemma writeContents_spec g p reg i root ri y q g' given :
  pool_ok g -> entryFree g -> registers g = registers f -> contents_ok E holds g (contents p) ->
  rfAt (registers f) reg = Some i -> rootOf (registers f) reg = Some root -> rfAt (registers f) root = Some ri ->
  straight (registers f) reg -> typeAt g y = Some (registerType i) -> regClass i <> RegClass.Zero ->
  (forall env, E' env -> E env) -> writes (registers f) reg given holds holds' ->
  (forall env v, E' env -> given v -> Strict g env y v) ->
  writeContents p reg y g = Some (q, g') ->
  pool_ok g' /\ entryFree g' /\ pool_ext g g' /\ contents_ok E' holds' g' (contents q) /\
  propSubst q = propSubst p /\ propRemovable q = propRemovable p.
Proof using Hfile Hflags.
  intros Hp Hf Hr Hc Hi Hroot Hri Hst Hy Hz HE Hw Hgiven. destruct (Hw i root ri Hi Hroot Hri Hz) as [Hother Hwhole].
  destruct (view_class _ Hfile _ _ _ _ Hi Hroot Hri) as [Hrs Hrc].
  assert (forall h, grows g h -> contents_ok E' holds' h (delete root (contents p))) as Hdel.
  { intros h Hh. eapply contents_ok_grows; [exact Hh|]. apply (contents_ok_keeps E E' holds holds'); [done| |by apply contents_ok_delete].
    intros r c [e [Hne _]%lookup_delete_Some] Hh'. by apply Hother. }
  assert (forall h e, grows g h -> typeAt h e = Some (registerType ri) ->
    (forall env c, E' env -> holds' root c -> Strict h env e c) -> contents_ok E' holds' h (<[root := e]> (contents p))) as Hins.
  { intros h e Hh Ht Hs r e' [[<- <-]|[Hne He']]%lookup_insert_Some.
    - exists ri. rewrite (grows_registers g h Hh), Hr. by split_and!.
    - apply (Hdel h Hh r e'). by apply lookup_delete_Some. }
  unfold writeContents. intros (i' & g1 & [Hi' ->]%gets_Some & H)%M_bind_Some. rewrite Hr in Hi'. assert (i' = i) as -> by congruence.
  rewrite decide_False in H by done. apply M_bind_Some in H as (root' & g1 & [Hroot' ->]%gets_Some & H).
  rewrite Hr in Hroot'. assert (root' = root) as -> by congruence.
  apply M_bind_Some in H as (n & g1 & [_ ->]%gets_Some & H).
  destruct (_ <? n)%nat; [injection H as <- <-; split_and!; try done; by apply Hdel|].
  destruct (isSubRegister i) eqn:Hsub; cbn [negb] in H.
  - destruct (zeroExtendsParent i) eqn:Hze; [|injection H as <- <-; split_and!; try done; by apply Hdel].
    apply M_bind_Some in H as (ri' & g1 & [Hri' ->]%gets_Some & H). rewrite Hr in Hri'. assert (ri' = ri) as -> by congruence.
    apply M_bind_Some in H as (z & g1 & Hcast & [= <- <-]).
    destruct (zext_spec g reg i root ri y z g1) as (? & ? & Hx & ? & Hd); try done. split_and!; try done. cbn.
    apply Hins; [by apply pool_ext_grows|done|]. intros env c Henv Hh.
    destruct (Hwhole (or_intror eq_refl) c Hh) as (v & Hv & ->). apply Hd. by apply Hgiven.
  - injection H as <- <-. split_and!; try done. cbn. assert (root = reg) as -> by (by eapply rootOf_full).
    assert (ri = i) as -> by congruence. apply Hins; [done|done|]. intros env c Henv Hh.
    destruct (Hwhole (or_introl eq_refl) c Hh) as (v & Hv & ->). by apply Hgiven.
Qed.
End Step.

(** ** One operation *)

(** What the verifier says of an operation, and where its register is. *)
Record op_shape (f : Function) (o : Op) (xs : list N) : Prop := {
  shape_operands : Forall (fun x => hasExpr f x = true) xs;
  shape_read : code o = OpCode.ReadReg -> exists i vi, rfAt (registers f) (payload o) = Some i /\
    straight (registers f) (payload o) /\ valueAt f (result o) = Some vi /\ valueType vi = registerType i /\
    valid (registerType i) = true;
  shape_write : code o = OpCode.WriteReg -> exists i x, rfAt (registers f) (payload o) = Some i /\
    straight (registers f) (payload o) /\ xs = [x] /\ typeAt f x = Some (registerType i) }.

(** The part of [copyOp] after the operands. *)
Definition copyAction (o : Op) (opId : N) (ys : list N) (p : BlockProp) : M BlockProp :=
  match code o with
  | OpCode.ReadReg =>
      i ← gets (fun f => rfAt (registers f) (payload o));
      if decide (regClass i = RegClass.Zero) then
        zero ← constant (registerType i) 0;
        mret (withSubst p (substSet (propSubst p) (result o) zero) true)
      else
        known ← readExpr p (payload o);
        match known with
        | Some e => mret (withSubst p (substSet (propSubst p) (result o) e) true)
        | None => mret p
        end
  | OpCode.WriteReg =>
      i ← gets (fun f => rfAt (registers f) (payload o));
      if decide (regClass i = RegClass.Zero) then
        mret (MkProp (propSubst p) (contents p) (propRemovable p ++ [opId]) true)
      else
        value ← gets (fun _ => ys !! 0%nat);
        writeContents p (payload o) value
  | OpCode.Call | OpCode.Intrinsic | OpCode.Unimplemented => mret (withContents p ∅)
  | _ => mret p
  end.

Section Action.
Context (f : Function) (Hfile : file_ok (registers f)) (Hflags : flagsRoots (registers f)).
Context (E E' : Env -> Prop) (holds holds' : N -> ConcreteValue -> Prop).
Context (o : Op) (opId : N) (xs ys : list N).
Context (Hshape : op_shape f o xs) (Hprogress : progress (registers f) f o xs E E' holds holds').

Definition removes : list N := if zeroWrite (registers f) o then [opId] else [].

(** What the action leaves. *)
Definition acted (g g' : Function) (p q : BlockProp) : Prop :=
  pool_ok g' /\ entryFree g' /\ pool_ext g g' /\ prop_ok E' holds' g' q /\ propRemovable q = propRemovable p ++ removes.

Lemma acted_keeps g p q :
  code o <> OpCode.WriteReg -> pool_ok g -> entryFree g -> prop_ok E holds g p ->
  propSubst q = propSubst p -> propRemovable q = propRemovable p -> contents q ⊆ contents p -> acted g g p q.
Proof using Hprogress.
  intros Hc Hp Hf [Hs Hcs] Hqs Hqr Hqc. assert (removes = []) as Hrm.
  { unfold removes, zeroWrite. by rewrite bool_decide_false. }
  split_and!; try done; [|by rewrite Hrm, app_nil_r, Hqr]. split.
  - rewrite Hqs. eapply subst_ok_class; [exact (progress_envs _ _ _ _ _ _ _ _ Hprogress)|done].
  - intros root e He. apply (lookup_weaken _ _ _ _ He) in Hqc.
    apply (contents_ok_keeps E E' holds holds' g (contents p)); [exact (progress_envs _ _ _ _ _ _ _ _ Hprogress)| |done|done].
    intros r c _. apply (progress_keeps _ _ _ _ _ _ _ _ Hprogress). by left.
Qed.

(** A value read is replaced. *)
Lemma acted_set g g1 p e vi :
  code o = OpCode.ReadReg -> pool_ok g -> pool_ok g1 -> entryFree g1 -> pool_ext g g1 -> prop_ok E holds g p ->
  valueAt g1 (result o) = Some vi -> typeAt g1 e = Some (valueType vi) ->
  (forall env c, E' env -> envValue env (result o) = Ok c -> Strict g1 env e c) ->
  acted g g1 p (withSubst p (substSet (propSubst p) (result o) e) true).
Proof using Hprogress.
  intros Hc Hp Hp1 Hf1 Hx Hprop Hvi Ht Hs.
  assert (grows g g1) as Hg by (by apply pool_ext_grows).
  destruct (acted_keeps g1 p p) as (_ & _ & _ & [Hs1 Hc1] & Hr1); [congruence|done|done| |done..|].
  { by apply (prop_ok_grows E holds g g1). }
  split_and!; [done..| |done]. split; [|done]. cbn. apply subst_ok_set; [done|]. intros env Henv. exists vi. split_and!; auto.
Qed.

Lemma action_read g p q g' :
  code o = OpCode.ReadReg -> pool_ok g -> entryFree g -> grows f g -> prop_ok E holds g p ->
  copyAction o opId ys p g = Some (q, g') -> acted g g' p q.
Proof using Type*.
  intros Hc Hp Hf Hg Hprop H. destruct (shape_read f o xs Hshape Hc) as (i & vi & Hi & Hst & Hvi & Hvt & Hv).
  pose proof (grows_registers f g Hg) as Hr. unfold copyAction in H. rewrite Hc in H.
  apply M_bind_Some in H as (i' & g1 & [Hi' ->]%gets_Some & H). rewrite Hr in Hi'. assert (i' = i) as -> by congruence.
  destruct (rootOf_total _ _ i (file_wf _ Hfile) Hi) as (root & ri & Hroot & _ & Hri & _ & Hrc).
  assert (forall g1, pool_ext g g1 -> exists vi', valueAt g1 (result o) = Some vi' /\ valueType vi' = registerType i) as Hval.
  { intros g1 Hx. destruct (valueType_ext f g1 (result o) vi) as (vi' & ? & ?); [|done|exists vi'; split; congruence].
    transitivity g; [done|by apply pool_ext_grows]. }
  destruct (decide (regClass i = RegClass.Zero)) as [Hz|Hz].
  - apply M_bind_Some in H as (z & g1 & Hk & [= <- <-]).
    destruct (constant_spec g (registerType i) 0 z g1 Hp Hv Hk) as (Hx & Hp1 & Hze).
    destruct (Hval g1 Hx) as (vi' & Hvi' & Hvt').
    destruct (registerType_bits _ _ _ Hfile Hi) as (Hti & Hbi & Hwi); [congruence|].
    assert (isFlags (registerType i) = false) as Hfl by (by rewrite Hti).
    apply (acted_set g g1 p z vi'); try done.
    + unfold constant in Hk. destruct (_ || _); [|done]. eapply entryFree_intern; [exact Hf| |exact Hk]; done.
    + apply typeAt_Some. exists (constantOf (registerType i) 0). by rewrite Hvt'.
    + intros env c Henv He. pose proof (progress_read _ _ _ _ _ _ _ _ Hprogress Hc env c Henv He i root ri Hi Hroot Hri) as [-> _]; [|done].
      apply (constantOf_value g1 env z (registerType i) zero128); try done. unfold val_ok. rewrite Hfl, Hbi.
      apply canon_zero. by apply (file_narrow _ Hfile _ _ Hi).
  - apply M_bind_Some in H as (known & g1 & Hk & H).
    destruct (readExpr_spec f Hfile Hflags E holds g p (payload o) i root ri known g1) as (Hp1 & Hf1 & Hx & Hread);
      [done|done|done|by destruct Hprop|done..|].
    destruct known as [e|].
    + injection H as <- <-. destruct (Hval g1 Hx) as (vi' & Hvi' & Hvt'). destruct (Hread e eq_refl) as [Ht Hs].
      apply (acted_set g g1 p e vi'); try done; [congruence|]. intros env c Henv He. apply Hs.
      * by apply (progress_envs _ _ _ _ _ _ _ _ Hprogress).
      * by apply (progress_read _ _ _ _ _ _ _ _ Hprogress Hc env).
    + injection H as <- <-. destruct (acted_keeps g1 p p) as (? & ? & _ & ? & ?); [congruence|done|done| |done..|].
      { eapply prop_ok_grows; [exact Hp|by apply pool_ext_grows|done]. }
      by split_and!.
Qed.

Lemma action_write g p q g' :
  code o = OpCode.WriteReg -> pool_ok g -> entryFree g -> grows f g -> prop_ok E holds g p ->
  Forall2 (stands E g) xs ys -> copyAction o opId ys p g = Some (q, g') -> acted g g' p q.
Proof using Type*.
  intros Hc Hp Hf Hg [Hs Hcs] Hys H. destruct (shape_write f o xs Hshape Hc) as (i & x & Hi & Hst & Hx & Hxt).
  pose proof (grows_registers f g Hg) as Hr. unfold copyAction in H. rewrite Hc in H.
  apply M_bind_Some in H as (i' & g1 & [Hi' ->]%gets_Some & H). rewrite Hr in Hi'. assert (i' = i) as -> by congruence.
  pose proof (progress_envs _ _ _ _ _ _ _ _ Hprogress) as HE.
  destruct (decide (regClass i = RegClass.Zero)) as [Hz|Hz].
  - injection H as <- <-. assert (zeroWrite (registers f) o = true) as Hzw.
    { unfold zeroWrite. by rewrite Hi, !bool_decide_true. }
    split_and!; try done; [|unfold removes; by rewrite Hzw]. split; cbn; [by eapply subst_ok_class|].
    eapply contents_ok_keeps; [done| |done]. intros r c _. apply (progress_keeps _ _ _ _ _ _ _ _ Hprogress). by right.
  - assert (removes = []) as Hrm.
    { unfold removes, zeroWrite. rewrite Hi, (bool_decide_false (regClass i = _)) by done. by rewrite andb_false_r. }
    destruct (rootOf_total _ _ i (file_wf _ Hfile) Hi) as (root & ri & Hroot & _ & Hri & _ & Hrc).
    rewrite Hx in Hys. apply Forall2_cons_inv_l in Hys as (y & ys' & [Hty Hsy] & _ & Hyy).
    apply M_bind_Some in H as (y' & g1 & [Hy' ->]%gets_Some & H). assert (y' = y) as -> by (rewrite Hyy in Hy'; cbn in Hy'; congruence).
    edestruct (writeContents_spec f Hfile Hflags E E' holds holds' g p (payload o) i root ri y q g'
      (fun v => exists x, xs !! 0%nat = Some x /\ forall env, E' env -> Strict f env x v)) as (? & ? & ? & ? & Hqs & Hqr); try done.
    + destruct Hty as (t & Ht1 & Ht2). pose proof (typeAt_ext f g x _ Hg Hxt). congruence.
    + exact (progress_write _ _ _ _ _ _ _ _ Hprogress Hc).
    + intros env v Henv (x' & Hx' & Hv). rewrite Hx in Hx'. injection Hx' as <-.
      destruct (Hsy env (HE env Henv)) as (t & _ & _ & Hsim). apply Hsim. eapply Eval_grows; [exact Hg|by apply Hv].
    + split_and!; try done; [|by rewrite Hrm, app_nil_r]. split; [|done]. rewrite Hqs. eapply subst_ok_class; [exact HE|].
      eapply subst_ok_grows; [exact Hp|by apply pool_ext_grows|done].
Qed.

Lemma action_spec g p q g' :
  pool_ok g -> entryFree g -> grows f g -> prop_ok E holds g p ->
  Forall2 (stands E g) xs ys -> copyAction o opId ys p g = Some (q, g') -> acted g g' p q.
Proof using Type*.
  intros Hp Hf Hg Hprop Hys H.
  destruct (decide (code o = OpCode.ReadReg)) as [Hr|Hr]; [by apply action_read|].
  destruct (decide (code o = OpCode.WriteReg)) as [Hw|Hw]; [by apply action_write|].
  assert (g' = g /\ (q = p \/ q = withContents p ∅)) as [-> Hq].
  { unfold copyAction in H. destruct (code o); try done; injection H as <- <-; split; try done; by (left + right). }
  apply acted_keeps; try done; destruct Hq as [->| ->]; try done. apply map_empty_subseteq.
Qed.
End Action.

(** ** [copyOp] *)

Lemma copyOp_actions opId p :
  copyOp opId p =
    (o ← gets (fun f => opAt f opId);
     xs ← gets (fun f => operandsOf (tables f) o);
     '(ys, opChanged, s) ← substOperands xs (propSubst p);
     setChanged opChanged opId ys;; copyAction o opId ys (withSubst p s opChanged)).
Proof. reflexivity. Qed.

Lemma interns_readExpr p reg : interns (readExpr p reg).
Proof.
  unfold readExpr. apply interns_bind; [apply interns_gets|]. intros root. destruct (contents p !! root); [|apply interns_ret].
  apply interns_bind; [apply interns_gets|]. intros i. destruct (isSubRegister i); [|apply interns_ret].
  apply interns_bind; [apply interns_intern|]. intros r. apply interns_ret.
Qed.

Lemma interns_writeContents p reg v : interns (writeContents p reg v).
Proof.
  unfold writeContents. apply interns_bind; [apply interns_gets|]. intros i. destruct (decide _); [apply interns_ret|].
  apply interns_bind; [apply interns_gets|]. intros root. apply interns_bind; [apply interns_gets|]. intros count.
  destruct (_ <? _)%nat; [apply interns_ret|]. destruct (negb _); [apply interns_ret|]. destruct (zeroExtendsParent i); [|apply interns_ret].
  apply interns_bind; [apply interns_gets|]. intros r. apply interns_bind; [apply interns_cast|]. intros z. apply interns_ret.
Qed.

Lemma interns_copyAction o opId ys p : interns (copyAction o opId ys p).
Proof.
  unfold copyAction. destruct (code o); try apply interns_ret; (apply interns_bind; [apply interns_gets|]); intros i; destruct (decide _).
  - apply interns_bind; [apply interns_constant|]. intros z. apply interns_ret.
  - apply interns_bind; [apply interns_readExpr|]. intros [e|]; apply interns_ret.
  - apply interns_ret.
  - apply interns_bind; [apply interns_gets|]. intros v. apply interns_writeContents.
Qed.

Lemma interns_substOperands xs s : interns (substOperands xs s).
Proof.
  revert s. induction xs as [|x xs IH]; intros s; cbn [substOperands]; [apply interns_ret|].
  apply interns_bind; [apply interns_substApply|]. intros [y s1]. apply interns_bind; [apply IH|].
  intros [[ys ch] s2]. apply interns_ret.
Qed.

Lemma framed_copyOp opId p : framed [opId] (copyOp opId p).
Proof.
  rewrite copyOp_actions.
  apply framed_bind; [apply framed_interns, interns_gets|]. intros o.
  apply framed_bind; [apply framed_interns, interns_gets|]. intros xs.
  apply framed_bind; [apply framed_interns, interns_substOperands|]. intros [[ys ch] s].
  apply framed_bind; [intros f x f' H; by apply setChanged_frame in H as [_ ?]|].
  intros []. apply framed_interns, interns_copyAction.
Qed.

Lemma framed_copyOps os p : framed os (copyOps os p).
Proof.
  revert p. induction os as [|opId os IH]; intros p; cbn [copyOps]; [apply framed_interns, interns_ret|].
  apply framed_bind; [eapply framed_weaken; [|apply framed_copyOp]|].
  - intros id ->%list_elem_of_singleton. by left.
  - intros q. eapply framed_weaken; [|apply IH]. intros id Hid. by right.
Qed.

(** The operand pool only grows, so it was addressable before. *)
Lemma addressable_frame os f f' : frame os f f' -> addressable f' -> addressable f.
Proof. intros Hf. unfold addressable. pose proof (prefix_length _ _ (frame_pool _ _ _ Hf)). lia. Qed.

Lemma addressable_pool_ext f f' : pool_ext f f' -> addressable f' -> addressable f.
Proof. intros Hx. exact (addressable_frame [] f f' (frame_pool_ext [] f f' Hx)). Qed.

Section CopyOp.
Context (f : Function) (Hfile : file_ok (registers f)) (Hflags : flagsRoots (registers f)).
Context (E E' : Env -> Prop) (holds holds' : N -> ConcreteValue -> Prop) (env0 : Env) (Henv0 : E' env0).
Context (o : Op) (opId : N) (xs : list N).
Context (Hshape : op_shape f o xs) (Hprogress : progress (registers f) f o xs E E' holds holds').

Lemma copyOp_spec g p q g' :
  pool_ok g -> entryFree g -> grows f g -> prop_ok E holds g p ->
  opAt g opId = Some o -> operandsOf (tables g) o = Some xs -> copyOp opId p g = Some (q, g') ->
  pool_ok g' /\ entryFree g' /\ frame [opId] g g' /\ prop_ok E' holds' g' q /\
  propRemovable q = propRemovable p ++ removes f o opId /\
  (addressable g' -> exists o' ys, opAt g' opId = Some o' /\ sameOp o o' /\ operandsOf (tables g') o' = Some ys /\
     Forall2 (stands E g') xs ys).
Proof using Type*.
  intros Hp Hf Hg [Hs Hcs] Ho Hxs. rewrite copyOp_actions. intros H.
  apply M_bind_Some in H as (o1 & g1 & [Ho1 ->]%gets_Some & H). assert (o1 = o) as -> by congruence.
  apply M_bind_Some in H as (xs1 & g1 & [Hxs1 ->]%gets_Some & H). assert (xs1 = xs) as -> by congruence.
  apply M_bind_Some in H as ([[ys ch] s] & g1 & Hsub & H).
  apply M_bind_Some in H as ([] & g2 & Hset & H).
  destruct (substOperands_spec E env0 (progress_envs _ _ _ _ _ _ _ _ Hprogress _ Henv0) xs g (propSubst p) ys ch s g1 Hp Hf Hs)
    as (Hp1 & Hf1 & Hx1 & Hs1 & Hys & Hch); [|exact Hsub|].
  { eapply Forall_impl; [apply (shape_operands f o xs Hshape)|]. intros x. by apply hasExpr_ext. }
  assert (grows g g1) as Hg1 by (by apply pool_ext_grows).
  pose proof (interns_copyAction _ _ _ _ _ _ _ H) as Hx3.
  destruct (setChanged_frame g1 opId ys ch _ g2 Hset) as [Hpool2 Hfr2].
  pose proof (frame_grows _ _ _ Hfr2) as Hg2.
  assert (pool_ok g2) as Hp2.
  { apply (pool_ok_same g1); [done|done|apply Hg2|apply (frame_values _ _ _ Hfr2)]. }
  assert (entryFree g2) as Hf2 by (intros id e; unfold exprAt; rewrite Hpool2; apply Hf1).
  assert (Forall2 (stands E g2) xs ys) as Hys2.
  { eapply Forall2_impl; [exact Hys|]. intros x y. by apply stands_grows. }
  destruct (action_spec f Hfile Hflags E E' holds holds' o opId xs ys Hshape Hprogress g2 (withSubst p s ch) q g')
    as (Hp3 & Hf3 & _ & Hprop3 & Hrm); try done.
  { transitivity g; [done|by transitivity g1]. }
  { split; cbn; [apply (subst_ok_grows E g1 g2); done|]. eapply contents_ok_grows; [|exact Hcs]. by transitivity g1. }
  pose proof (frame_pool_ext [opId] _ _ Hx3) as Hfr3.
  split_and!; [done|done| |done|done|].
  - eapply frame_trans; [by apply frame_pool_ext|]. by eapply frame_trans.
  - intros Haddr. destruct (setChanged_op g1 opId o xs ys ch tt g2) as (o' & Ho' & Hso & Hyo); try done.
    { unfold opAt in *. by rewrite (pool_ext_tables _ _ Hx1). }
    { by rewrite (pool_ext_tables _ _ Hx1). }
    { by eapply addressable_pool_ext. }
    exists o', ys. unfold opAt in *. rewrite (pool_ext_tables _ _ Hx3). split_and!; try done.
    eapply Forall2_impl; [exact Hys2|]. intros x y. apply stands_grows; [done|]. by apply pool_ext_grows.
Qed.
End CopyOp.
