(* ===== verification/CopyRuns.v ===== *)
(** * Copy propagation preserves what a block does (passes/copyprop.cpp)

    [copyPropagateBlock] returns while handles remain, and any run of the block
    that does not end in an error is, after it, the same run. The walks share a
    memo over the expressions there were, and each operation adds one more
    expression at most. *)
From stdpp Require Import relations.
From S2P Require Import Prelude Bits U128 Types Exprs Registers Func Cfg Eval VerifyExpr Verify ValueTypes EvalProps.
From S2P Require Import VerifyProps EvalErrors Rewrite Fold FoldProps FoldSound Memory Interp RegisterViews InterpSound.
From S2P Require Import BlockSim FoldRuns EvalFrame LocalPasses DceSound SubstSound CopySound.
Local Open Scope Z_scope.

#[local] Strategy 100 [eval evalRec].

(** ** The whole pass, whatever the machine *)

(** Every operation of the list is one the pass handles. *)
Definition shaped (f : Function) (os : list N) : Prop := forall opId, opId ∈ os ->
  exists o xs, opAt f opId = Some o /\ operandsOf (tables f) o = Some xs /\ op_shape f o xs.

(** The operations the pass removes. *)
Definition zeroWrites (f : Function) (os : list N) : list N :=
  filter (fun id => match opAt f id with Some o => zeroWrite (registers f) o | None => false end = true) os.

Definition noEnv (env : Env) : Prop := env = emptyEnv.
Definition nothing (r : N) (c : ConcreteValue) : Prop := False.

Lemma progress_static f o xs : progress (registers f) f o xs noEnv noEnv nothing nothing.
Proof. split; [done|by intros _ r c []|by intros _ env c ->|]. intros _ i root ri _ _ _ _. by split; [intros r c []|intros _ c []]. Qed.

Lemma prop_ok_start E holds f : prop_ok E holds f (MkProp emptySubst ∅ [] false).
Proof. split; [apply subst_ok_empty|]. intros root e. cbn. by rewrite lookup_empty. Qed.

(** An operation still to be visited is as it was. *)
Lemma opAt_later f g done_ (os : list N) opId : frame done_ f g -> (forall id, id ∈ os -> id ∉ done_) -> opId ∈ os -> opAt g opId = opAt f opId.
Proof. intros Hf Hd Hin. apply Hf, Hd, Hin. Qed.

Section Pass.
Context (f : Function) (Hfile : file_ok (registers f)) (Hflags : flagsRoots (registers f)).

(** One operation of the pass, from a function the pass has reached. *)
Record reached (done_ : list N) (g : Function) : Prop := {
  reached_pool : pool_ok g;
  reached_entry : entryFree g;
  reached_frame : frame done_ f g }.

Lemma copyOp_reached E E' holds holds' env0 opId os done_ o xs g p q g' :
  E' env0 -> progress (registers f) f o xs E E' holds holds' -> op_shape f o xs ->
  opAt f opId = Some o -> operandsOf (tables f) o = Some xs ->
  reached done_ g -> (forall id, id ∈ opId :: os -> id ∉ done_) -> prop_ok E holds g p ->
  copyOp opId p g = Some (q, g') ->
  reached (opId :: done_) g' /\ frame [opId] g g' /\ prop_ok E' holds' g' q /\
  propRemovable q = propRemovable p ++ removes f o opId /\
  (addressable g' -> exists o' ys, opAt g' opId = Some o' /\ sameOp o o' /\ operandsOf (tables g') o' = Some ys /\
     Forall2 (stands E g') xs ys).
Proof using Hfile Hflags.
  intros Henv0 Hpr Hsh Ho Hxs [Hp He Hfr] Hd Hprop H.
  destruct (copyOp_spec f Hfile Hflags E E' holds holds' env0 Henv0 o opId xs Hsh Hpr g p q g')
    as (Hp' & He' & Hfr' & Hprop' & Hrm & Hop); try done.
  - apply (frame_grows _ _ _ Hfr).
  - rewrite <-Ho. apply (opAt_later f g done_ (opId :: os)); [done..|by left].
  - by apply (operandsOf_frame _ _ _ _ _ Hfr).
  - split_and!; try done. split; [done|done|]. eapply frame_trans.
    + eapply frame_weaken; [|exact Hfr]. intros id Hid. by right.
    + eapply frame_weaken; [|exact Hfr']. intros id ->%list_elem_of_singleton. by left.
Qed.

Lemma zeroWrites_cons opId os o : opAt f opId = Some o -> zeroWrites f (opId :: os) = removes f o opId ++ zeroWrites f os.
Proof.
  intros Ho. unfold zeroWrites, removes. rewrite filter_cons, Ho. by destruct (zeroWrite (registers f) o).
Qed.

Lemma copyOps_static (os : list N) done_ g p q h :
  shaped f os -> NoDup os -> reached done_ g -> (forall id, id ∈ os -> id ∉ done_) -> prop_ok noEnv nothing g p ->
  copyOps os p g = Some (q, h) ->
  (exists done', reached done' h) /\ propRemovable q = propRemovable p ++ zeroWrites f os.
Proof using Hfile Hflags.
  revert done_ g p. induction os as [|opId os IH]; intros done_ g p Hsh Hnd Hr Hd Hprop H; cbn [copyOps] in H.
  { injection H as <- <-. split; [by exists done_|by rewrite app_nil_r]. }
  apply M_bind_Some in H as (p1 & g1 & H1 & H). apply NoDup_cons in Hnd as [Hni Hnd].
  destruct (Hsh opId ltac:(by left)) as (o & xs & Ho & Hxs & Hshape).
  destruct (copyOp_reached noEnv noEnv nothing nothing emptyEnv opId os done_ o xs g p p1 g1) as (Hr1 & Hfr1 & Hprop1 & Hrm & _); try done.
  { apply progress_static. }
  destruct (IH (opId :: done_) g1 p1) as (Hex & Hrm2); try done.
  { intros id Hid. apply Hsh. by right. }
  { intros id Hid [->|Hin]%elem_of_cons; [done|]. apply (Hd id); [by right|done]. }
  split; [done|]. rewrite Hrm2, Hrm, <-app_assoc. f_equal. by rewrite (zeroWrites_cons opId os o).
Qed.
End Pass.

(** ** What an operation that goes on changes *)

Section Machines.
Context {B X : Type} `{BackendLaws B}.
Context (f : Function) (hooks : Hooks X).

Definition knows (m : Machine B) : Env -> Prop := envLe (machineEnv f m).
Definition cellsHold (m : Machine B) (r : N) (c : ConcreteValue) : Prop := cells m !! N.to_nat r = Some c.

Lemma knows_refl m : knows m (machineEnv f m).
Proof using Type. by intros v c. Qed.

Lemma define_envLe (m : Machine B) v c m1 :
  define m v c = Some m1 -> defined m !! N.to_nat v <> Some true -> envLe (machineEnv f m) (machineEnv f m1).
Proof using Type.
  unfold define. destruct (_ && _) eqn:Hb; [|done]. intros [= <-] Hnd u d. cbn. destruct (hasValue f u); [|done].
  apply andb_true_iff in Hb as [H1%N.ltb_lt H2%N.ltb_lt].
  destruct (decide (u = v)) as [->|Hne].
  - destruct (defined m !! N.to_nat v) as [[]|]; [done|by rewrite list_lookup_insert_eq by lia|done].
  - by rewrite !list_lookup_insert_ne by lia.
Qed.

Lemma define_value (m : Machine B) v c m1 i :
  define m v c = Some m1 -> valueAt f v = Some i -> envValue (machineEnv f m1) v = Ok c.
Proof using Type.
  unfold define. destruct (_ && _) eqn:Hb; [|done]. intros [= <-] Hi. cbn.
  apply andb_true_iff in Hb as [H1%N.ltb_lt H2%N.ltb_lt].
  assert (hasValue f v = true) as -> by (unfold hasValue; unfold valueAt, vget in Hi; by destruct (contains _ _)).
  by rewrite !list_lookup_insert_eq by lia.
Qed.

Lemma define_cells (m : Machine B) v c m1 : define m v c = Some m1 ->
  cells m1 = cells m /\ forall u, u <> v -> defined m1 !! N.to_nat u = defined m !! N.to_nat u.
Proof using Type.
  unfold define. destruct (_ && _); [|done]. intros [= <-]. split; [done|]. intros u Hu. cbn.
  apply list_lookup_insert_ne. lia.
Qed.

(** [c] is what a load reads. *)
Definition loads (o : Op) (m : Machine B) (c : ConcreteValue) : Prop := exists xs x a,
  operandsOf (tables f) o = Some xs /\ xs !! 0%nat = Some x /\ evalIn f m x = Ok a /\
  backendRead (memory m) (lo a) (bits (opType o) / 8) = Ok c.

(** The machine after an operation that goes on: registers apart, at most the
    result and the memory changed. *)
Inductive moved (o : Op) (m : Machine B) : Machine B -> Prop :=
  | moved_define c m1 : define m (result o) c = Some m1 ->
      (code o = OpCode.ReadReg -> readRegister (registers f) (cells m) (payload o) = Some c) ->
      (code o = OpCode.Load -> loads o m c) -> code o <> OpCode.WriteReg -> definesValue (code o) = true \/ handleValid (result o) = true -> moved o m m1
  | moved_memory mem : code o <> OpCode.ReadReg -> code o <> OpCode.WriteReg -> code o <> OpCode.Load ->
      (code o <> OpCode.Store -> mem = memory m) ->
      moved o m (MkMachine (cells m) (slots m) (defined m) mem)
  | moved_write x v cs xs : code o = OpCode.WriteReg -> operandsOf (tables f) o = Some xs -> xs !! 0%nat = Some x ->
      evalIn f m x = Ok v -> writeRegister (registers f) (cells m) (payload o) v = Some cs ->
      moved o m (MkMachine cs (slots m) (defined m) (memory m)).

Lemma moved_same o m : code o <> OpCode.ReadReg -> code o <> OpCode.WriteReg -> code o <> OpCode.Load -> moved o m m.
Proof using Type. intros Hr Hw Hl. pose proof (moved_memory o m (memory m) Hr Hw Hl (fun _ => eq_refl)). by destruct m. Qed.

Lemma orFail_Continue {A} (r : Res A) (m : Machine B) st ova k m1 st1 :
  orFail r m st ova k = Some (Continue (X:=X) m1 st1) -> exists a, r = Ok a /\ k a = Some (Continue m1 st1).
Proof using Type. destruct r as [a|d|]; cbn; [intros; by exists a|done|done]. Qed.

Lemma execOp_moved o m st m1 st1 : execOp f hooks o m st = Some (Continue m1 st1) -> moved o m m1.
Proof using Type.
  unfold execOp. destruct (operandsOf (tables f) o) as [xs|] eqn:Hxs; cbn [mbind option_bind]; [|done].
  destruct (code o) eqn:Hc.
  - destruct (readRegister _ _ _) as [v|] eqn:Hv; cbn [mbind option_bind]; [|done].
    destruct (define _ _ _) as [m2|] eqn:Hd; cbn [mbind option_bind]; [|done]. intros [= <- <-].
    apply (moved_define o m v); [done|done|congruence..|left; by rewrite Hc].
  - destruct (xs !! 0%nat) as [x|] eqn:Hx; cbn [mbind option_bind]; [|done].
    intros (v & Hv & H1)%orFail_Continue. destruct (writeRegister _ _ _ _) as [cs|] eqn:Hw; cbn [mbind option_bind] in H1; [|done].
    injection H1 as <- _. by apply (moved_write o m x v cs xs).
  - destruct (xs !! 0%nat) as [x|] eqn:Hx; cbn [mbind option_bind]; [|done].
    intros (a & Ha & (v & Hv & H1)%orFail_Continue)%orFail_Continue.
    destruct (define _ _ _) as [m2|] eqn:Hd; cbn [mbind option_bind] in H1; [|done]. injection H1 as <- _.
    apply (moved_define o m v); [done|congruence|intros _; by exists xs, x, a|congruence|left; by rewrite Hc].
  - destruct (xs !! 0%nat) as [x|] eqn:Hx; cbn [mbind option_bind]; [|done].
    destruct (xs !! 1%nat) as [y|] eqn:Hy; cbn [mbind option_bind]; [|done].
    destruct (evalIn f m x), (evalIn f m y); try done. intros (mem & _ & [= <- <-])%orFail_Continue.
    apply moved_memory; congruence.
  - destruct (targetVa f o 0); by intros.
  - destruct (xs !! 0%nat) as [x|] eqn:Hx; cbn [mbind option_bind]; [|done].
    intros (v & _ & H1)%orFail_Continue. destruct (targetVa f o 0), (targetVa f o 1); done.
  - destruct (xs !! 0%nat); cbn [mbind option_bind]; [|done]. intros (v & _ & H1)%orFail_Continue; discriminate H1.
  - destruct (xs !! 0%nat); cbn [mbind option_bind]; [|done]. intros (v & _ & H1)%orFail_Continue; discriminate H1.
  - done.
  - intros (args & _ & H1)%orFail_Continue. cbv zeta in H1. destruct (intrinsicHook hooks) as [hook|]; [|done].
    destruct (hook _ _ _ _) as [[v|] st2]; [|done]. destruct (handleValid (result o)) eqn:Hres.
    + destruct (define _ _ _) as [m2|] eqn:Hd; cbn [mbind option_bind] in H1; [|done]. injection H1 as <- _.
      apply (moved_define o m v); [done|congruence..|by right].
    + injection H1 as <- _. apply moved_same; congruence.
  - intros [= <- <-]. apply moved_same; congruence.
  - done.
  - done.
  - done.
Qed.

Lemma moved_undefined o m m1 u : moved o m m1 -> u <> result o -> defined m1 !! N.to_nat u = defined m !! N.to_nat u.
Proof using Type. intros Hm Hu. destruct Hm as [c m1 Hd _ _ _ _|mem _ _ _ _|x v cs xs _ _ _ _ _]; [|done..]. by apply define_cells in Hd as [_ ?]; auto. Qed.

Context (Hpool : pool_ok f) (Hstrict : strictPool f) (Hentry : entryFree f) (Hfs : floats_sized f) (Hdef : definedNodes f).
Context (Hfile : file_ok (registers f)) (Hflags : flagsRoots (registers f)).

(** What an operand evaluated to, it evaluates to in every later environment. *)
Lemma evalIn_Strict (m m1 : Machine B) x v env :
  evalIn f m x = Ok v -> envLe (machineEnv f m) (machineEnv f m1) -> knows m1 env -> Strict f env x v.
Proof using Hpool Hstrict Hentry.
  intros Hv Ha He. unfold evalIn in Hv. apply (eval_sound f _ Hpool) in Hv. apply Evaluates_Strict in Hv; [|exact Hstrict].
  apply (Eval_envLe strictNode f (machineEnv f m) env x v Hentry); [|exact Hv]. etrans; [exact Ha|exact He].
Qed.

Lemma moved_progress o xs m m1 :
  machine_ok f m -> op_shape f o xs -> operandsOf (tables f) o = Some xs ->
  (definesValue (code o) = true -> handleValid (result o) = true) ->
  (handleValid (result o) = true -> defined m !! N.to_nat (result o) <> Some true) ->
  moved o m m1 -> progress (registers f) f o xs (knows m) (knows m1) (cellsHold m) (cellsHold m1).
Proof using Type*.
  intros Hm Hsh Hxs Hdv Hfresh Hmv. pose proof (machine_cells f m Hm) as Hcs.
  destruct Hmv as [c m1 Hd Hread _ Hnw Hval|mem Hnr Hnw _ _|x v cs xs' Hw Hxs' Hx Hv Hwr].
  - assert (envLe (machineEnv f m) (machineEnv f m1)) as Ha.
    { apply (define_envLe m (result o) c); [done|]. apply Hfresh. by destruct Hval as [?%Hdv|?]. }
    destruct (define_cells m _ c m1 Hd) as [Hcells _]. split.
    + intros env He. exact (transitivity Ha He).
    + intros _ r d. unfold cellsHold. by rewrite Hcells.
    + intros Hc env d He Hed i root ri Hi Hroot Hri. destruct (shape_read f o xs Hsh Hc) as (i' & vi & Hi' & Hst & Hvi & _).
      pose proof (He _ _ (define_value m (result o) c m1 vi Hd Hvi)) as Hed'. assert (d = c) as -> by congruence.
      specialize (Hread Hc). split.
      * intros Hz. unfold readRegister in Hread. rewrite Hi in Hread. cbn [mbind option_bind] in Hread.
        rewrite decide_True in Hread by done. congruence.
      * intros Hz. destruct (rfAt_cell _ _ root ri Hcs Hri) as [cell Hcell]. exists cell. split; [done|].
        by apply (view_read _ Hfile Hflags (payload o) root i ri Hi Hroot Hri Hst (cells m)).
    + done.
  - split; [by intros env|by intros _ r d|done|done].
  - assert (xs' = xs) as -> by congruence. destruct (shape_write f o xs Hsh Hw) as (i & x' & Hi & Hst & -> & Ht).
    injection Hx as <-. split.
    + by intros env.
    + intros [?|Hz] r d; [done|]. unfold zeroWrite in Hz. rewrite Hi in Hz. apply andb_true_iff in Hz as [_ Hz%bool_decide_eq_true].
      unfold writeRegister in Hwr. rewrite Hi in Hwr. cbn [mbind option_bind] in Hwr. rewrite decide_True in Hwr by done.
      injection Hwr as <-. done.
    + congruence.
    + intros _ i' root ri Hi' Hroot Hri Hz. assert (i' = i) as -> by congruence.
      destruct (view_write _ Hfile Hflags (payload o) root i ri Hi Hroot Hri Hst (cells m) v cs) as [Hother Hwhole]; try done.
      { exact (evalIn_typed f Hpool Hfs Hdef Hfile m x' _ v Hm Ht Hv). }
      split; [intros r d Hd Hne; unfold cellsHold in *; cbn in Hd; by rewrite Hother in Hd|].
      intros Hfull d Hd. exists v. split; [|by apply Hwhole]. exists x'. split; [done|].
      intros env He. by apply (evalIn_Strict m m).
Qed.

(** An operation of neither register code changes nothing before it stops. *)
Lemma other_progress o xs (E : Env -> Prop) holds :
  code o <> OpCode.ReadReg -> code o <> OpCode.WriteReg -> progress (registers f) f o xs E E holds holds.
Proof using Type. by split. Qed.
End Machines.

(** ** The block runs as before *)

Lemma related_eq {B} (m m' : Machine B) : related (fun _ => True) (fun _ => False) m m' -> m' = m.
Proof.
  intros [Hm [Hl Hc] [Hs Hd] Hv]. destruct m as [cs ss ds me], m' as [cs' ss' ds' me']. cbn in *. subst me'.
  assert (forall {A} (l l' : list A), (forall n : N, l' !! N.to_nat n = l !! N.to_nat n) -> l' = l) as Heq.
  { intros A l l' Hall. apply list_eq. intros i. rewrite <-(Nat2N.id i). apply Hall. }
  f_equal; apply Heq; intros n; [by apply Hc; intros []|by apply Hv|by apply Hv].
Qed.

(** The registers the operations touch are full or directly below a full one. *)
Definition straightOps (f : Function) (os : list N) : Prop := forall opId o, opId ∈ os -> opAt f opId = Some o ->
  touchesRegister (code o) = true -> straight (registers f) (payload o).

(** The verifier's checks give an operation the pass handles. *)
Lemma op_shape_verified f level b opId o xs :
  checkOp level f b o = true -> checkDefinition f (b, opId) = true -> opAt f opId = Some o ->
  operandsOf (tables f) o = Some xs -> (touchesRegister (code o) = true -> straight (registers f) (payload o)) ->
  (forall v i, valueAt f v = Some i -> valid (valueType i) = true) -> op_shape f o xs.
Proof.
  intros Hc Hd Ho Hxs Hst Hvalid. destruct (checkOp_spec _ _ _ _ Hc) as (xs' & ts & Hxs' & _ & Hx & _ & Hrule & Hres).
  assert (xs' = xs) as -> by congruence. split; [by apply Forall_forall| |]; intros Hcode;
    unfold codeRuleOk in Hrule; rewrite Hcode in Hrule; rewrite !andb_true_iff in Hrule; destruct Hrule as [[Hl Hr] Ht];
    destruct (checkRegister_Some f o Hr) as (i & Hi & Hty); rewrite Hty in Ht.
  - unfold shouldDefine in Hres. rewrite Hcode in Hres, Hst.
    destruct (checkDefinition_value f b opId o Hd Ho Hres) as (vi & Hvi & _ & Hvt).
    rewrite typeEq_spec, bool_decide_eq_true in Ht. exists i, vi. rewrite Ht, <-Hvt.
    split_and!; [done|by apply Hst|done|done|by apply (Hvalid (result o))].
  - rewrite Hcode in Hst. destruct xs as [|x [|y xs]]; try done. apply exprTypeIs_Some in Ht. exists i, x. by split_and!; [|apply Hst| |].
Qed.

(** No result of the operations has been defined. *)
Definition unset {B} (f : Function) (os : list N) (m : Machine B) : Prop := forall id o, id ∈ os -> opAt f id = Some o ->
  handleValid (result o) = true -> defined m !! N.to_nat (result o) <> Some true.

(** Operations define different values. *)
Lemma results_differ f b id id' o o' :
  checkDefinition f (b, id) = true -> checkDefinition f (b, id') = true -> opAt f id = Some o -> opAt f id' = Some o' ->
  handleValid (result o) = true -> result o = result o' -> id = id'.
Proof.
  unfold checkDefinition. cbn [fst snd]. intros H1 H2 Ho Ho' Hr He. rewrite Ho in H1. rewrite Ho', <-He in H2. rewrite Hr in H1, H2.
  destruct (valueAt f (result o)) as [i|]; [|done]. rewrite !andb_true_iff, !N.eqb_eq in H1, H2. intuition congruence.
Qed.

Section Run.
Context {B X : Type} `{BackendLaws B}.
Context (f h f' : Function) (b : N) (R : list N) (hooks : Hooks X).
Context (Hplain : plainHooks hooks) (Hhooks : typed_hooks hooks).
Context (level : Maturity) (Hexec : executable level f) (Hentry : entryFree f) (Hflags : flagsRoots (registers f)).
Context (all : list N) (Hwhole : frame all f h) (Hpoolh : pool_ok h) (Haddr : addressable h).
Context (Hremoved : removed b R h f') (Hshallow : shallow f').

Lemma final_grows g : grows g h -> grows g f'.
Proof using Hremoved. intros Hg. etrans; [exact Hg|]. by apply (removed_grows h f' b R Hremoved). Qed.

Lemma final_similar : similar f f'.
Proof using Hremoved Hwhole.
  pose proof (removed_similar _ _ _ _ Hremoved) as []. pose proof (frame_similar _ _ _ Hwhole) as []. split; congruence.
Qed.

Lemma final_env (m : Machine B) : machineEnv f' m = machineEnv f m.
Proof using Hremoved Hwhole.
  pose proof final_similar as []. unfold machineEnv, hasValue, contains. by rewrite similar_registers, similar_values.
Qed.

(** An operand's replacement evaluates to what the operand does. *)
Lemma operand_final g (m : Machine B) x y v :
  stands (knows f m) g x y -> grows f g -> grows g h -> evalIn f m x = Ok v -> evalIn f' m y = Ok v.
Proof using Hexec Hentry Hremoved Hwhole Hpoolh Hshallow.
  intros [(t & _ & Hty) Hs] Hfg Hgh Hv. pose proof (final_grows g Hgh) as Hg. destruct Hexec as [_ _ Hpool Hstrict _ _ _ _].
  assert (Strict f (machineEnv f m) x v) as Hx by (apply (evalIn_Strict f Hpool Hstrict Hentry m m); [exact Hv|reflexivity|unfold knows; reflexivity]).
  apply (Eval_grows _ f g) in Hx; [|exact Hfg].
  destruct (Hs (machineEnv f m)) as (_ & _ & _ & Hsim); [unfold knows; reflexivity|].
  apply Hsim, (Eval_grows _ g f') in Hx; [|exact Hg]. unfold evalIn. rewrite final_env.
  apply (evalRec_complete f' _ (removed_pool_ok h f' b R Hpoolh Hremoved) 257); [|by apply Strict_Evaluates|lia..].
  apply Hshallow. apply (hasExpr_ext g f' y Hg). by eapply typeAt_hasExpr.
Qed.

(** An operation of the block, after the whole pass. *)
Lemma op_final g os opId o' ys :
  frame os g h -> opId ∉ os -> opId ∉ R -> opAt g opId = Some o' -> operandsOf (tables g) o' = Some ys ->
  opAt f' opId = Some o' /\ operandsOf (tables f') o' = Some ys.
Proof using Hremoved.
  intros Hfr Hos HR Ho Hys. split.
  - rewrite (removed_ops _ _ _ _ Hremoved opId HR), (frame_ops _ _ _ Hfr opId Hos). done.
  - unfold operandsOf. rewrite (removed_operands _ _ _ _ Hremoved). by apply (operandsOf_frame os g h).
Qed.

(** One step, in the block before and after. *)
Lemma step_final g os opId o o' xs ys (m : Machine B) st next :
  frame os g h -> opId ∉ os -> opId ∉ R -> grows f g -> opAt g opId = Some o' -> sameOp o o' ->
  operandsOf (tables f) o = Some xs -> operandsOf (tables g) o' = Some ys -> Forall2 (stands (knows f m) g) xs ys ->
  op_shape f o xs -> execStep f hooks o m st = Some next -> quiet next ->
  opAt f' opId = Some o' /\ execStep f' hooks o' m st = Some next.
Proof using Type*.
  intros Hfr Hos HR Hg Ho' Hso Hxs Hys Hall Hsh Hn Hq. rewrite execStep_plain in * by done.
  destruct (op_final g os opId o' ys Hfr Hos HR Ho' Hys) as [Hof Hyf]. split; [done|].
  pose proof (file_wf _ (executable_file _ _ Hexec)) as Hwf.
  destruct (execOp_related (fun _ => True) f f' hooks final_similar Hflags (fun _ => False) m m (related_refl _ _ m)
    o o' Hso xs ys Hxs Hyf) with (st := st) (next := next) as (next' & Hn' & Hsame); try done.
  - eapply Forall2_impl; [exact Hall|]. intros x y Hxy v. apply (operand_final g); [done|done|apply Hfr].
  - split; intros Hc.
    + destruct (shape_read f o xs Hsh Hc) as (i & _ & Hi & _). destruct (rootOf_total _ _ i Hwf Hi) as (root & _ & Hr & _).
      exists root. by split; [|intros []].
    + destruct (shape_write f o xs Hsh Hc) as (i & _ & Hi & _). destruct (rootOf_total _ _ i Hwf Hi) as (root & _ & Hr & _).
      exists root. split; [done|]. left. by intros [].
  - rewrite Hn'. f_equal. assert (forall m1 m1' : Machine B,
      related (fun _ => True) (staleAfter f (fun _ => False) o) m1 m1' -> m1' = m1) as Heq.
    { intros m1 m1' Hr. apply related_eq. eapply related_weaken; [|exact Hr]. by intros r [[] _]. }
    by destruct Hsame as [m1 m1' st1 ->%Heq|r m1 m1' st1 ->%Heq].
Qed.

(** A write to a zero register changes nothing. *)
Lemma zeroWrite_step o xs (m m1 : Machine B) st st1 :
  zeroWrite (registers f) o = true -> operandsOf (tables f) o = Some xs -> execOp f hooks o m st = Some (Continue m1 st1) ->
  m1 = m /\ st1 = st.
Proof using Type.
  intros Hz Hxs. unfold zeroWrite in Hz. apply andb_true_iff in Hz as [Hc%bool_decide_eq_true Hz].
  destruct (rfAt (registers f) (payload o)) as [i|] eqn:Hi; [|done]. apply bool_decide_eq_true in Hz.
  unfold execOp. rewrite Hxs, Hc. cbn [mbind option_bind]. destruct (xs !! 0%nat) as [x|]; cbn [mbind option_bind]; [|done].
  intros (v & _ & Hk)%orFail_Continue. unfold writeRegister in Hk. rewrite Hi in Hk. cbn [mbind option_bind] in Hk.
  rewrite decide_True in Hk by done. injection Hk as <- <-. by destruct m.
Qed.

Lemma unset_step os opId o (m m1 : Machine B) :
  opId ∉ os -> (forall id, id ∈ opId :: os -> checkDefinition f (b, id) = true) -> opAt f opId = Some o ->
  unset f (opId :: os) m -> moved f o m m1 -> unset f os m1.
Proof using Type.
  intros Hni Hdef Ho Hun Hmv id o' Hid Ho' Hr. rewrite (moved_undefined f o m m1 _ Hmv).
  - apply (Hun id o'); [by right|done..].
  - intros He. apply Hni. rewrite (results_differ f b opId id o o'); try done; [apply Hdef; by left|apply Hdef; by right|by rewrite <-He].
Qed.

Context (Hbelow : atLeast level Maturity.Ssa = false).

Lemma runOps_copied end_ os done_ seenPhi p g (m : Machine B) st available q r m' st' :
  checkOps level f b seenPhi os = true -> (forall id, id ∈ os -> checkDefinition f (b, id) = true) ->
  checkUses f b available os = true -> machine_ok f m -> provides m available -> straightOps f os ->
  NoDup os -> (forall id, id ∈ os -> id ∉ done_) -> unset f os m ->
  (forall id o, id ∈ os -> opAt f id = Some o -> id ∈ R <-> zeroWrite (registers f) o = true) ->
  reached f done_ g -> prop_ok (knows f m) (cellsHold m) g p -> copyOps os p g = Some (q, h) ->
  runOps f hooks end_ os m st = Some (r, m', st') -> stop r <> ExecStop.Error ->
  runOps f' hooks end_ (filter (fun id => id ∉ R) os) m st = Some (r, m', st').
Proof using Type*.
  destruct Hexec as [_ _ Hpool Hstrict Hdn Hfile Hvalid _]. pose proof (strict_floats f Hstrict) as Hfs.
  revert done_ seenPhi p g m st available. induction os as [|opId os IH];
    intros done_ seenPhi p g m st available Hops Hdef Huses Hm Hp Hst Hnd Hd Hun HR Hreach Hprop Hcopy Hrun Hq; [exact Hrun|].
  cbn [runOps copyOps checkUses] in *. apply NoDup_cons in Hnd as [Hni Hnd].
  apply checkOps_cons in Hops as (o & seenPhi' & Ho & Hcheck & _ & _ & Hrest).
  destruct (checkOp_spec level f b o Hcheck) as (xs & ts & Hxs & _ & _ & _ & _ & Hres).
  rewrite Ho, Hxs in Huses. apply andb_true_iff in Huses as [Hxok Huses].
  pose proof (Hdef opId ltac:(by left)) as Hdef0.
  assert (op_shape f o xs) as Hsh by (apply (op_shape_verified f level b opId); auto; intros; apply (Hst opId); [by left|done..]).
  pose proof (execStep_ok f Hpool Hfs Hdn Hfile hooks Hhooks Hvalid level b opId o m available Hbelow Ho Hcheck
    Hdef0 Hm Hp xs Hxs Hxok st) as Hstep. unfold steps in Hstep. rewrite Ho in Hrun. cbn [mbind option_bind] in Hrun.
  destruct (execStep f hooks o m st) as [next|] eqn:Hnext; cbn [mbind option_bind] in Hrun; [|done].
  apply M_bind_Some in Hcopy as (p1 & g1 & H1 & Hcopy). pose proof (framed_copyOps _ _ _ _ _ Hcopy) as Hfr1.
  pose proof (addressable_frame os g1 h Hfr1 Haddr) as Haddr1.
  pose proof (copyOp_reached f Hfile Hflags) as Hcop. pose proof Hnext as Hexecop. rewrite execStep_plain in Hexecop by done.
  destruct next as [m1 st1|r1 m1 st1].
  - pose proof (execOp_moved f hooks o m st m1 st1 Hexecop) as Hmv. destruct Hstep as (Hm1 & _ & Hp1).
    assert (progress (registers f) f o xs (knows f m) (knows f m1) (cellsHold m) (cellsHold m1)) as Hpr.
    { apply (moved_progress f Hpool Hstrict Hentry Hfs Hdn Hfile Hflags); try done; [|intros Hv; apply (Hun opId); [by left|done..]].
      intros Hdv. rewrite Hres. unfold shouldDefine. by destruct (code o). }
    destruct (Hcop _ _ _ _ (machineEnv f m1) opId os done_ o xs g p p1 g1 (knows_refl f m1) Hpr Hsh Ho Hxs Hreach Hd Hprop H1)
      as (Hreach1 & _ & Hprop1 & _ & Hop). destruct (Hop Haddr1) as (o' & ys & Ho' & Hso & Hys & Hall).
    assert (forall st2, runOps f hooks end_ os m1 st2 = Some (r, m', st') ->
      runOps f' hooks end_ (filter (fun id => id ∉ R) os) m1 st2 = Some (r, m', st')) as Hgo.
    { intros st2 Hrun2. apply (IH (opId :: done_) seenPhi' p1 g1 m1 st2 (if handleValid (result o) then {[result o]} ∪ available else available)); try done.
      - intros id Hid. apply Hdef. by right.
      - intros id o2 Hid. apply Hst. by right.
      - intros id Hid [->|Hin]%elem_of_cons; [done|]. by apply (Hd id); [right|].
      - by apply (unset_step os opId o m m1).
      - intros id o2 Hid. apply HR. by right. }
    destruct (decide (opId ∈ R)) as [HinR|HniR].
    + rewrite filter_cons_False by (intros Hn; by apply Hn). apply (HR opId o) in HinR; [|by left|done].
      destruct (zeroWrite_step o xs m m1 st st1 HinR Hxs Hexecop) as [-> ->]. by apply Hgo.
    + rewrite filter_cons_True by done. cbn [runOps].
      destruct (step_final g1 os opId o o' xs ys m st (Continue m1 st1) Hfr1 Hni HniR) as [Hof Hnf]; try done.
      { etrans; [apply (frame_grows _ _ _ (reached_frame _ _ _ Hreach1))|]. done. }
      rewrite Hof. cbn [mbind option_bind]. rewrite Hnf. cbn [mbind option_bind]. by apply Hgo.
  - assert (stop r1 <> ExecStop.Error) as Hq1 by (by injection Hrun as -> _ _).
    pose proof (quiet_stop f hooks o m m1 st r1 st1 Hexecop Hq1) as Hsus.
    assert (code o <> OpCode.ReadReg /\ code o <> OpCode.WriteReg) as [Hnr Hnw] by (split; intros E; by rewrite E in Hsus).
    destruct (Hcop _ _ _ _ (machineEnv f m) opId os done_ o xs g p p1 g1 (knows_refl f m)
      (other_progress f o xs (knows f m) (cellsHold m) Hnr Hnw) Hsh Ho Hxs Hreach Hd Hprop H1)
      as (Hreach1 & _ & _ & _ & Hop). destruct (Hop Haddr1) as (o' & ys & Ho' & Hso & Hys & Hall).
    assert (opId ∉ R) as HniR.
    { intros Hin. apply (HR opId o) in Hin; [|by left|done]. unfold zeroWrite in Hin. by rewrite bool_decide_false in Hin. }
    rewrite filter_cons_True by done. cbn [runOps].
    destruct (step_final g1 os opId o o' xs ys m st (Stop r1 m1 st1) Hfr1 Hni HniR) as [Hof Hnf]; try done.
    { apply (frame_grows _ _ _ (reached_frame _ _ _ Hreach1)). }
    rewrite Hof. cbn [mbind option_bind]. rewrite Hnf. exact Hrun.
Qed.
End Run.

(** ** [boundedExprNodeCount] *)

Lemma nodeCountLoop_total f limit fuel stack visited :
  pool_ok f -> Forall (fun x => hasExpr f x = true) stack -> (length stack + pending f visited <= fuel)%nat ->
  exists n, nodeCountLoop fuel f limit stack visited = Some n.
Proof.
  intros Hp. revert stack visited. induction fuel as [|fuel IH]; intros [|x stack] visited Hs Hf; cbn [nodeCountLoop length] in *;
    try (by eexists); [lia|].
  destruct (limit <? size visited)%nat; [by eexists|]. apply Forall_cons in Hs as [Hx Hs].
  destruct (decide (x ∈ visited)) as [Hin|Hin]; [apply IH; [done|lia]|].
  apply hasExpr_exprAt in Hx as [e He]. rewrite He. cbn [mbind option_bind].
  pose proof (pending_insert f visited x e He Hin). apply IH; [|rewrite length_app, length_reverse; lia].
  apply Forall_app. split; [|done]. rewrite Forall_reverse. by eapply operands_exist.
Qed.

Lemma boundedExprNodeCount_total f x limit :
  pool_ok f -> hasExpr f x = true -> exists n, boundedExprNodeCount f x limit = Some n.
Proof.
  intros Hp Hx. apply nodeCountLoop_total; [done|by constructor|]. rewrite collectFuel_pending. cbn [length]. lia.
Qed.

(** ** Substitution *)

(** [n]: the expressions there were at the start. *)
Section Total.
Context (n : nat).

(** What the walks still to come may add, and the expressions there are. *)
Definition budget (f : Function) (s : ValueSubst) : nat := demand 0 n f (substMemo s).

Record walkable (f : Function) (s : ValueSubst) : Prop := {
  walkable_pool : pool_ok f;
  walkable_entry : entryFree f;
  walkable_subst : subst_ok noEnv f s;
  walkable_memo : memo_below n (substMemo s) }.

Definition room (f : Function) (s : ValueSubst) (k : nat) : Prop := (N.of_nat (budget f s + k) <= kInvalidIndex)%N.

Lemma substApply_total f x s k :
  walkable f s -> hasExpr f x = true -> (N.to_nat x < n)%nat -> room f s k ->
  exists y s' f', substApply x s f = Some ((y, s'), f') /\ walkable f' s' /\ room f' s' k /\ stands noEnv f' x y.
Proof.
  intros [Hp He Hs Hm] Hx Hn Hroom.
  pose proof (subst_map _ _ _ Hs emptyEnv eq_refl) as Hmap. pose proof (subst_memo _ _ _ Hs emptyEnv eq_refl) as Hmemo.
  destruct (traverse_total (substRule (substMap s)) (substInv emptyEnv (substMap s)) (fun _ H => proj1 H)
    (substInv_rebuild emptyEnv _) (rule_sound_typed _ _ _ (substRule_sound emptyEnv _)) 0) with (m := n) (n := depthOf x) (fuel := depthOf x)
    (f := f) (id := x) (w := (substMemo s, tt)) as (y & [memo []] & f' & H & Hm' & Hd & _); try done; try by eapply memo_ok_typed.
  - intros g id e ys res [] _ He' _ _ _. unfold substRule. destruct (decide _); eexists _, _, _; (split; [reflexivity|lia]).
  - unfold depthOf. lia.
  - unfold room, budget in Hroom. cbn. lia.
  - assert (substApply x s f = Some ((y, MkSubst (substMap s) memo), f')) as Hap.
    { unfold substApply. apply M_bind_Some. by exists (y, (memo, tt)), f'. }
    destruct (substApply_spec noEnv emptyEnv eq_refl f x s y _ f' Hp He Hs Hx Hap) as (? & ? & _ & ? & ?).
    eexists _, _, _. split; [exact Hap|]. split; [by split|]. split; [|done].
    unfold room, budget in *. cbn in *. lia.
Qed.

Lemma substOperands_total xs f s k :
  walkable f s -> Forall (fun x => hasExpr f x = true /\ (N.to_nat x < n)%nat) xs -> room f s k ->
  exists ys ch s' f', substOperands xs s f = Some ((ys, ch, s'), f') /\ walkable f' s' /\ room f' s' k.
Proof.
  revert f s. induction xs as [|x xs IH]; intros f s Hw Hxs Hroom; cbn [substOperands].
  { by exists [], false, s, f. }
  apply Forall_cons in Hxs as [[Hx Hn] Hxs].
  destruct (substApply_total f x s k Hw Hx Hn Hroom) as (y & s1 & f1 & H1 & Hw1 & Hr1 & _).
  pose proof (interns_substApply x s f _ f1 H1) as Hext.
  destruct (IH f1 s1 Hw1) as (ys & ch & s2 & f2 & H2 & Hw2 & Hr2); [|done|].
  { eapply Forall_impl; [exact Hxs|]. intros z [Hz ?]. split; [|done]. by apply (hasExpr_ext f); [apply pool_ext_grows|]. }
  exists (y :: ys), (negb (y =? x)%N || ch), s2, f2. split; [|done]. apply M_bind_Some. exists (y, s1), f1. split; [done|].
  apply M_bind_Some. by exists (ys, ch, s2), f2.
Qed.

(** ** The register operations *)

(** A builder that interns at most one expression. *)
Definition adds_one {A} (f : Function) (m : M A) : Prop :=
  (N.of_nat (exprCount f) < kInvalidIndex)%N -> exists r f', m f = Some (r, f') /\ (exprCount f' <= exprCount f + 1)%nat.

Lemma adds_one_ret {A} f (x : A) : adds_one f (mret x).
Proof. intros _. exists x, f. split; [done|lia]. Qed.

Lemma adds_one_gets {A B} f (q : Function -> option A) a (k : A -> M B) :
  q f = Some a -> adds_one f (k a) -> adds_one f (gets q ≫= k).
Proof.
  intros Hq Hk Hr. destruct (Hk Hr) as (r & f' & H & Hc). exists r, f'. split; [|done]. apply M_bind_Some. exists a, f.
  split; [by apply gets_Some|done].
Qed.

Lemma adds_one_ends {A B} f (m : M A) (k : A -> B) : adds_one f m -> adds_one f (x ← m; mret (k x)).
Proof.
  intros Hm Hr. destruct (Hm Hr) as (x & f' & H & Hc). exists (k x), f'. split; [|done]. apply M_bind_Some. by exists x, f'.
Qed.

Lemma adds_one_intern f e : pool_ok f -> exprTyped f e -> adds_one f (intern e).
Proof.
  intros Hp Ht Hr. destruct (intern_total f e Hp Ht Hr) as (r & f' & H & _). exists r, f'. split; [done|by eapply intern_count].
Qed.

Section Actions.
Context (f : Function) (Hfile : file_ok (registers f)) (Hflags : flagsRoots (registers f)).
Context (o : Op) (opId : N) (xs : list N) (Hshape : op_shape f o xs).

Lemma adds_one_readExpr g p i :
  pool_ok g -> grows f g -> contents_ok noEnv nothing g (contents p) -> rfAt (registers f) (payload o) = Some i ->
  straight (registers f) (payload o) -> valid (registerType i) = true -> adds_one g (readExpr p (payload o)).
Proof using Hfile Hflags.
  intros Hp Hg Hc Hi Hst Hv. pose proof (grows_registers f g Hg) as Hr.
  destruct (rootOf_total _ _ i (file_wf _ Hfile) Hi) as (root & ri & Hroot & _ & Hri & _ & _).
  unfold readExpr. apply (adds_one_gets g _ root); [by rewrite Hr|]. destruct (contents p !! root) as [x|] eqn:Hx; [|apply adds_one_ret].
  apply (adds_one_gets g _ i); [by rewrite Hr|]. destruct (isSubRegister i) eqn:Hs; [|apply adds_one_ret].
  apply adds_one_ends, adds_one_intern; [done|]. destruct (Hc root x Hx) as (ri' & Hri' & _ & Ht & _).
  rewrite Hr in Hri'. assert (ri' = ri) as -> by congruence. by apply (extract_typed f Hfile Hflags g (payload o) i root ri).
Qed.

Lemma adds_one_writeContents g p i y :
  pool_ok g -> grows f g -> rfAt (registers f) (payload o) = Some i -> straight (registers f) (payload o) ->
  typeAt g y = Some (registerType i) -> adds_one g (writeContents p (payload o) y).
Proof using Hfile Hflags.
  intros Hp Hg Hi Hst Hy. pose proof (grows_registers f g Hg) as Hr.
  destruct (rootOf_total _ _ i (file_wf _ Hfile) Hi) as (root & ri & Hroot & _ & Hri & _ & _).
  unfold writeContents. apply (adds_one_gets g _ i); [by rewrite Hr|]. destruct (decide _); [apply adds_one_ret|].
  apply (adds_one_gets g _ root); [by rewrite Hr|].
  destruct (boundedExprNodeCount_total g y kMaxTrackedExprNodes Hp) as [count Hcount]; [by eapply typeAt_hasExpr|].
  apply (adds_one_gets g _ count); [done|]. destruct (_ <? _)%nat; [apply adds_one_ret|].
  destruct (isSubRegister i) eqn:Hs; cbn [negb]; [|apply adds_one_ret]. destruct (zeroExtendsParent i); [|apply adds_one_ret].
  apply (adds_one_gets g _ ri); [by rewrite Hr|]. apply adds_one_ends. unfold cast.
  intros Hroom. destruct (adds_one_intern g (MkExpr ExprOp.ZExt (registerType ri) [y] 0) Hp) as (r & g' & H & Hc); [|done|].
  { by apply (zext_typed f Hfile Hflags g (payload o) i root ri). }
  exists r, g'. split; [|done]. apply M_bind_Some. by exists tt, g.
Qed.

Lemma adds_one_action g p ys :
  pool_ok g -> grows f g -> contents_ok noEnv nothing g (contents p) -> Forall2 (stands noEnv g) xs ys ->
  adds_one g (copyAction o opId ys p).
Proof using Type*.
  intros Hp Hg Hc Hys. pose proof (grows_registers f g Hg) as Hr.
  unfold copyAction. destruct (code o) eqn:Hcode; try apply adds_one_ret.
  - destruct (shape_read f o xs Hshape Hcode) as (i & vi & Hi & Hst & _ & _ & Hv).
    apply (adds_one_gets g _ i); [by rewrite Hr|]. destruct (decide _) as [Hz|Hz].
    + apply adds_one_ends. destruct (registerType_bits _ _ _ Hfile Hi) as (Hti & Hbi & _); [congruence|].
      destruct (file_narrow _ Hfile _ _ Hi) as [Hb _]. unfold constant. rewrite Hbi.
      assert (isInteger (registerType i) && (regBits i <=? 128) = true) as ->.
      { rewrite Hti. change (isInteger (integer (regBits i))) with true. lia. }
      cbn [orb].
      rewrite <-Hbi. apply adds_one_intern; [done|]. by apply (constantOf_typed g (registerType i) 0).
    + intros Hroom. destruct (adds_one_readExpr g p i Hp Hg Hc Hi Hst Hv Hroom) as (known & g' & H & Hcount).
      destruct known as [e|]; eexists _, g'; (split; [|exact Hcount]); apply M_bind_Some; eexists _, g'; split; done.
  - destruct (shape_write f o xs Hshape Hcode) as (i & x & Hi & Hst & -> & Ht).
    apply (adds_one_gets g _ i); [by rewrite Hr|]. destruct (decide _) as [Hz|Hz]; [apply adds_one_ret|].
    apply Forall2_cons_inv_l in Hys as (y & ys' & [(t & Ht1 & Ht2) _] & _ & ->).
    apply (adds_one_gets g _ y); [done|]. apply (adds_one_writeContents g p i y); try done.
    pose proof (typeAt_ext f g x _ Hg Ht). congruence.
Qed.
End Actions.

(** The memo is the walks' own. *)
Lemma copyAction_memo o opId ys p g q g' :
  copyAction o opId ys p g = Some (q, g') -> substMemo (propSubst q) = substMemo (propSubst p).
Proof.
  unfold copyAction, writeContents. intros H.
  destruct (code o); try (by injection H as <- <-); apply M_bind_Some in H as (i & g1 & _ & H); destruct (decide _).
  - by apply M_bind_Some in H as (z & g2 & _ & [= <- <-]).
  - apply M_bind_Some in H as ([e|] & g2 & _ & H); by injection H as <- <-.
  - by injection H as <- <-.
  - apply M_bind_Some in H as (v & g2 & _ & H). apply M_bind_Some in H as (i' & g3 & _ & H).
    destruct (decide _); [by injection H as <- <-|]. apply M_bind_Some in H as (root & g4 & _ & H).
    apply M_bind_Some in H as (count & g5 & _ & H). destruct (_ <? _)%nat; [by injection H as <- <-|].
    destruct (negb _); [by injection H as <- <-|]. destruct (zeroExtendsParent i'); [|by injection H as <- <-].
    apply M_bind_Some in H as (ri & g6 & _ & H). by apply M_bind_Some in H as (z & g7 & _ & [= <- <-]).
Qed.

(** ** The pass *)

Section Pass.
Context (f : Function) (Hfile : file_ok (registers f)) (Hflags : flagsRoots (registers f)) (Hn : n = exprCount f).

Lemma copyOp_total opId os done_ o xs g p k :
  op_shape f o xs -> opAt f opId = Some o -> operandsOf (tables f) o = Some xs -> reached f done_ g ->
  (forall id, id ∈ opId :: os -> id ∉ done_) -> prop_ok noEnv nothing g p ->
  memo_below n (substMemo (propSubst p)) -> room g (propSubst p) (S k) ->
  exists q g', copyOp opId p g = Some (q, g') /\ memo_below n (substMemo (propSubst q)) /\ room g' (propSubst q) k.
Proof using Hfile Hflags Hn.
  intros Hsh Ho Hxs [Hp He Hfr] Hd [Hs Hc] Hm Hroom. pose proof (frame_grows _ _ _ Hfr) as Hg.
  destruct (substOperands_total xs g (propSubst p) (S k)) as (ys & ch & s & g1 & H1 & [Hp1 He1 Hs1 Hm1] & Hr1); [by split| |done|].
  { eapply Forall_impl; [apply (shape_operands f o xs Hsh)|]. intros x Hx. split; [by apply (hasExpr_ext f)|].
    apply hasExpr_lt in Hx. rewrite Hn. unfold exprCount. lia. }
  pose proof (interns_substOperands _ _ _ _ _ H1) as Hx1. assert (grows g g1) as Hg1 by (by apply pool_ext_grows).
  destruct (substOperands_spec noEnv emptyEnv eq_refl xs g (propSubst p) ys ch s g1 Hp He Hs) as (_ & _ & _ & _ & Hys & _); [|done|].
  { eapply Forall_impl; [apply (shape_operands f o xs Hsh)|]. intros x. by apply hasExpr_ext. }
  assert (opAt g1 opId = Some o) as Ho1.
  { unfold opAt. rewrite (pool_ext_tables _ _ Hx1). rewrite <-Ho. apply (opAt_later f g done_ (opId :: os)); [done..|by left]. }
  assert (exists g2, setChanged ch opId ys g1 = Some (tt, g2)) as [g2 H2].
  { unfold setChanged, setOperands, update. destruct ch; [|by eexists]. rewrite Ho1. by eexists. }
  destruct (setChanged_frame g1 opId ys ch tt g2 H2) as [Hpool2 Hfr2]. pose proof (frame_grows _ _ _ Hfr2) as Hg2.
  assert (pool_ok g2) as Hp2 by (apply (pool_ok_same g1); [done|done|apply Hg2|apply (frame_values _ _ _ Hfr2)]).
  assert (exprCount g2 = exprCount g1) as Hc2 by (unfold exprCount; by rewrite Hpool2).
  destruct (adds_one_action f Hfile Hflags o opId xs Hsh g2 (withSubst p s ch) ys) as (q & g3 & H3 & Hc3); [done| | | | |].
  - transitivity g; [done|by transitivity g1].
  - eapply contents_ok_grows; [|exact Hc]. by transitivity g1.
  - eapply Forall2_impl; [exact Hys|]. intros x y. by apply stands_grows.
  - unfold room, budget, demand in Hr1. lia.
  - exists q, g3. pose proof (copyAction_memo _ _ _ _ _ _ _ H3) as Hmem. cbn in Hmem.
    split; [|rewrite Hmem; split; [done|]].
    + rewrite copyOp_actions. apply M_bind_Some. exists o, g. split.
      { apply gets_Some. split; [|done]. rewrite <-Ho. apply (opAt_later f g done_ (opId :: os)); [done..|by left]. }
      apply M_bind_Some. exists xs, g. split; [apply gets_Some; split; [by apply (operandsOf_frame _ _ _ _ _ Hfr)|done]|].
      apply M_bind_Some. exists (ys, ch, s), g1. split; [done|]. apply M_bind_Some. by exists tt, g2.
    + unfold room, budget, demand in *. rewrite Hmem. lia.
Qed.

Lemma copyOps_total (os : list N) done_ g p :
  shaped f os -> NoDup os -> reached f done_ g -> (forall id, id ∈ os -> id ∉ done_) -> prop_ok noEnv nothing g p ->
  memo_below n (substMemo (propSubst p)) -> room g (propSubst p) (length os) ->
  exists q h, copyOps os p g = Some (q, h).
Proof using Hfile Hflags Hn.
  revert done_ g p. induction os as [|opId os IH]; intros done_ g p Hsh Hnd Hr Hd Hprop Hm Hroom; cbn [copyOps]; [by eexists _, _|].
  apply NoDup_cons in Hnd as [Hni Hnd]. destruct (Hsh opId ltac:(by left)) as (o & xs & Ho & Hxs & Hshape).
  destruct (copyOp_total opId os done_ o xs g p (length os)) as (p1 & g1 & H1 & Hm1 & Hroom1); try done.
  destruct (copyOp_reached f Hfile Hflags noEnv noEnv nothing nothing emptyEnv opId os done_ o xs g p p1 g1) as (Hr1 & _ & Hprop1 & _); try done.
  { apply progress_static. }
  destruct (IH (opId :: done_) g1 p1) as (q & h & H); try done.
  { intros id Hid. apply Hsh. by right. }
  { intros id Hid [->|Hin]%elem_of_cons; [done|]. by apply (Hd id); [right|]. }
  exists q, h. apply M_bind_Some. by exists p1, g1.
Qed.
End Pass.
End Total.

(** ** The theorem *)

(** What it asks of the function and the block: the function can be executed, no
    node reads a register, flag registers have no views, the block lists an
    operation once and touches full registers and views directly below one, and
    handles remain. *)
Record propagable (level : Maturity) (f : Function) (blk : Block) : Prop := {
  propagable_executable : executable level f;
  propagable_entry : entryFree f;
  propagable_flags : flagsRoots (registers f);
  propagable_once : NoDup (blockOps blk);
  propagable_straight : straightOps f (blockOps blk);
  propagable_room : (N.of_nat (2 * exprCount f + length (blockOps blk)) <= kInvalidIndex)%N }.

(** Each operation of a verified block. *)
Lemma checkOps_elem level f b seenPhi os opId :
  checkOps level f b seenPhi os = true -> opId ∈ os -> exists o, opAt f opId = Some o /\ checkOp level f b o = true.
Proof.
  revert seenPhi. induction os as [|i os IH]; intros seenPhi Hc Hin; [by apply not_elem_of_nil in Hin|].
  apply checkOps_cons in Hc as (o & seenPhi' & Ho & Hop & _ & _ & Hrest).
  apply elem_of_cons in Hin as [->|Hin]; [by exists o|by eapply IH].
Qed.

Section Copy.
Context {B X : Type} `{BackendLaws B}.
Context (level : Maturity) (f : Function) (b : N) (blk : Block) (Hb : blockAtId f b = Some blk) (Hprop : propagable level f blk).

Lemma copy_shaped : shaped f (blockOps blk).
Proof using Hb Hprop.
  intros opId Hin. destruct Hprop as [[Hv _ _ _ _ _ Hvalid _] _ _ _ Hst _].
  destruct (verified_ops level f Hv b blk Hb) as [Hops _]. destruct (checkOps_elem _ _ _ _ _ opId Hops Hin) as (o & Ho & Hc).
  destruct (checkOp_spec _ _ _ _ Hc) as (xs & ts & Hxs & _). exists o, xs. split_and!; [done|done|].
  apply (op_shape_verified f level b opId); try done; [by apply (verified_definitions level f Hv b blk)|]. intros Ht. by apply (Hst opId).
Qed.

Lemma copy_returns :
  exists q h f', copyOps (blockOps blk) (MkProp emptySubst ∅ [] false) f = Some (q, h) /\ pool_ok h /\
    propRemovable q = zeroWrites f (blockOps blk) /\ frame (blockOps blk) f h /\
    removeOps b (zeroWrites f (blockOps blk)) h = Some (tt, f').
Proof using Hb Hprop.
  destruct Hprop as [Hexec Hentry Hflags Honce _ Hroom]. pose proof (executable_file _ _ Hexec) as Hfile.
  assert (reached f [] f) as Hreach by (split; [apply Hexec|done|apply frame_refl]).
  assert (forall id, id ∈ blockOps blk -> id ∉ []) as Hd by (intros id _; apply not_elem_of_nil).
  destruct (copyOps_total (exprCount f) f Hfile Hflags eq_refl (blockOps blk) [] f (MkProp emptySubst ∅ [] false) copy_shaped Honce Hreach Hd)
    as (q & h & Hcopy); [apply prop_ok_start|intros k [x Hx]; cbn in Hx; by rewrite lookup_empty in Hx|..].
  { unfold room, budget, demand. cbn. rewrite map_size_empty. lia. }
  destruct (copyOps_static f Hfile Hflags (blockOps blk) [] f _ q h copy_shaped Honce Hreach Hd (prop_ok_start _ _ f) Hcopy)
    as ([done' Hreached] & Hrm). pose proof (framed_copyOps _ _ _ _ _ Hcopy) as Hfr.
  assert (blockAtId h b = Some blk) as Hbh by (unfold blockAtId; rewrite (frame_blocks _ _ _ Hfr); exact Hb).
  destruct (removeOps_total b (zeroWrites f (blockOps blk)) h blk Hbh Honce) as [f' Hf'].
  - unfold zeroWrites. by apply list.NoDup_filter.
  - intros id [Hz Hin]%list_elem_of_filter. split; [done|]. destruct (opAt f id) as [o|] eqn:Ho; [|done].
    destruct (frame_same _ _ _ Hfr id o Ho) as (o' & Ho' & Hc & _ & _ & _ & Hres & _). exists o'. split; [done|].
    destruct (verified_ops level f (executable_verified _ _ Hexec) b blk Hb) as [Hops _].
    destruct (checkOps_elem _ _ _ _ _ id Hops Hin) as (o1 & Ho1 & Hcheck). assert (o1 = o) as -> by congruence.
    destruct (checkOp_spec _ _ _ _ Hcheck) as (_ & _ & _ & _ & _ & _ & _ & Hresult).
    unfold zeroWrite in Hz. apply andb_true_iff in Hz as [Hw%bool_decide_eq_true _].
    rewrite Hc, Hw, Hres, Hresult. unfold shouldDefine. by rewrite Hw.
  - exists q, h, f'. split_and!; try done. apply Hreached.
Qed.

(** C13 Copy propagation preserves execution. The function is [executable] (it
    verifies below SSA with a well-formed pool, without remainders, bitcasts, floats
    of widths other than 32 or at least 64, or nodes C++ can leave undefined), no
    expression reads an entry register and flag registers have no views; the block
    lists an operation once and reads and writes only full registers and views
    directly below one (a view of a view is misread,
    [LocalSample.copy_misreads_nested_view]); handles for twice the pool and the
    block's operations remain. Then [copyPropagateBlock] returns; and if the operand
    pool stays below 2^32 and expressions at most 257 deep, then with no interrupt or
    operation hook, an intrinsic hook that returns values of the type asked for, and
    an [enterable] machine (lawful memory, registers holding values of their types),
    every run of the block that does not end in an error is the same run after it:
    outcome, registers, values, memory and hook's state. *)
Theorem copyPropagateBlock_preserves_runs :
  exists changed f', copyPropagateBlock b f = Some (changed, f') /\
    (addressable f' -> shallow f' ->
     forall (hooks : Hooks X) (m m' : Machine B) st r st', plainHooks hooks -> typed_hooks hooks -> enterable f m ->
       runBlock f hooks b m st = Some (r, m', st') -> stop r <> ExecStop.Error ->
       runBlock f' hooks b m st = Some (r, m', st')).
Proof using Type*.
  destruct copy_returns as (q & h & f' & Hcopy & Hpoolh & Hrm & Hfr & Hf'). exists (propChanged q), f'. split.
  { unfold copyPropagateBlock. apply M_bind_Some. exists blk, f. split; [unfold gets; by rewrite Hb|].
    apply M_bind_Some. exists q, h. split; [done|]. rewrite Hrm. apply M_bind_Some. by exists tt, f'. }
  intros Haddr Hshallow hooks m m' st r st' Hplain Htyped Hm Hrun Hq.
  destruct Hprop as [Hexec Hentry Hflags Honce Hst _]. pose proof Hexec as [Hv Hbelow _ _ _ _ _ _].
  assert (blockAtId h b = Some blk) as Hbh by (unfold blockAtId; rewrite (frame_blocks _ _ _ Hfr); exact Hb).
  pose proof (removeOps_removed b _ h f' blk Hbh Honce Hf') as Hremoved.
  destruct (removed_block _ _ _ _ Hremoved blk Hbh) as (blk' & Hb' & Hend & Hops').
  assert (addressable h) as Haddrh by (unfold addressable in *; by rewrite <-(removed_operands _ _ _ _ Hremoved)).
  unfold runBlock in *. rewrite Hb in Hrun. rewrite Hb'. cbn [mbind option_bind] in *. rewrite Hend, Hops'.
  assert (freshSlots f' m = freshSlots f m) as ->.
  { unfold freshSlots, valueCount. by rewrite (similar_values _ _ (removed_similar _ _ _ _ Hremoved)), (frame_values _ _ _ Hfr). }
  destruct (verified_ops level f Hv b blk Hb) as [Hops _].
  eapply (runOps_copied f h f' b _ hooks Hplain Htyped level Hexec Hentry Hflags (blockOps blk) Hfr Hpoolh Haddrh Hremoved Hshallow Hbelow
    (endVa blk) (blockOps blk) [] false _ f (freshSlots f m) st ∅ q); try done.
  - intros id. by apply (verified_definitions level f Hv b blk).
  - exact (verified_uses level f Hv b blk Hbelow Hb).
  - by apply freshSlots_ok.
  - intros id _. apply not_elem_of_nil.
  - intros id o _ _ _. unfold freshSlots. intros Hd. destruct (_ =? _)%nat; cbn in Hd;
      by apply list_elem_of_lookup_2, list_elem_of_In, repeat_spec in Hd.
  - intros id o Hin Ho. unfold zeroWrites. rewrite list_elem_of_filter, Ho. tauto.
  - split; [apply Hexec|done|apply frame_refl].
  - apply prop_ok_start.
Qed.
End Copy.
