(* ===== verification/LoadSound.v ===== *)
(** * Forwarding of loads preserves what a block does (passes/load_forward.cpp)

    What [loadOp] does to the function and to its own state, in terms of what is
    known about the machine of the original run: the environments it may supply
    and the memory it reads. A load that is removed defines a value nothing reads
    any more, so the two machines agree on the values that are left. *)
From stdpp Require Import relations.
From S2P Require Import Prelude Bits U128 Types Exprs Registers Func Eval VerifyExpr ValueTypes EvalProps.
From S2P Require Import Cfg Verify VerifyProps Rewrite Fold EvalFrame FoldProps FoldSound BlockSim LocalPasses.
From S2P Require Import EvalErrors Memory Interp RegisterViews InterpSound FoldRuns DceSound SubstSound CopySound CopyRuns.
Local Open Scope Z_scope.

(** ** [valueRef] *)

(** Every value's index can be written in an immediate. *)
Definition fewValues (f : Function) : Prop := (N.of_nat (length (values (tables f))) <= kInvalidIndex)%N.

Definition valueNode (i : ValueInfo) (v : N) : Expr := MkExpr ExprOp.Value (valueType i) [] (Z.of_N v).

Section ValueRef.
Context (f : Function) (v : N) (i : ValueInfo).
Context (Hfew : fewValues f) (Hi : valueAt f v = Some i) (Hvalid : valid (valueType i) = true).

Lemma valueNode_handle : Z.to_N (u32 (immediate (valueNode i v))) = v.
Proof using Hfew Hi.
  apply vget_Some in Hi as [Hl%lookup_lt_Some _]. unfold fewValues, kInvalidIndex in Hfew. cbn.
  unfold u32. rewrite Z.mod_small by lia. lia.
Qed.

Lemma valueNode_typed : exprTyped f (valueNode i v).
Proof using Type*.
  split; [cbn; unfold operandCount; cbn; lia|]. split; [done|]. exists []. split_and!; [done..|].
  unfold opRuleOk. cbn [op valueNode]. rewrite valueNode_handle, Hi. cbn. rewrite typeEq_spec. by apply bool_decide_eq_true.
Qed.

Lemma valueRef_spec r f' : pool_ok f -> entryFree f -> valueRef v f = Some (r, f') ->
  pool_ok f' /\ entryFree f' /\ pool_ext f f' /\ typeAt f' r = Some (valueType i) /\
  (forall A : gset N, v ∈ A -> closed f' A r) /\
  (forall env c, tooWide (valueType i) = false -> envValue env v = Ok c -> Strict f' env r c).
Proof using Type*.
  intros Hp He H. unfold valueRef in H. apply M_bind_Some in H as (i' & f1 & [Hi' ->]%gets_Some & H).
  assert (i' = i) as -> by congruence. change (MkExpr _ _ _ _) with (valueNode i v) in H.
  destruct (intern_spec f (valueNode i v) r f' Hp valueNode_typed H) as (Hx & Hp' & Hr).
  split; [done|]. split; [by apply (entryFree_intern f (valueNode i v) r)|]. split; [done|].
  split; [by apply typeAt_Some; exists (valueNode i v)|]. split.
  - intros A HA u (y & e & Hy & Hey & Ho & ->). apply rtc_inv in Hy as [->|(z & (e' & He' & Hz) & _)].
    + assert (e = valueNode i v) as -> by congruence. unfold handleOf. by rewrite valueNode_handle.
    + assert (e' = valueNode i v) as -> by congruence. by apply not_elem_of_nil in Hz.
  - intros env c Hw Hc. apply (Eval_node _ _ _ r (valueNode i v) [] [] c Hr Hw); [done|constructor|done|].
    unfold evalNode. cbn [op valueNode]. by rewrite valueNode_handle.
Qed.

Lemma adds_one_valueRef : pool_ok f -> adds_one f (valueRef v).
Proof using Type*.
  intros Hp. apply (adds_one_gets f _ i); [done|]. apply adds_one_intern; [done|]. exact valueNode_typed.
Qed.
End ValueRef.

(** ** The part of [loadOp] after the operands *)

Definition loadAction (o : Op) (opId : N) (ys : list N) (p : LoadState) : M LoadState :=
  match code o with
  | OpCode.Load =>
      match ys with
      | [] => mret p
      | address :: _ =>
          let remember := MkLoads (loadSubst p) (<[address := result o]> (lastLoadOf p))
                            (loadRemovable p) (loadChanged p) in
          match lastLoadOf p !! address with
          | None => mret remember
          | Some found =>
              i ← gets (fun f => valueAt f found);
              if typeEq (valueType i) (opType o) then
                r ← valueRef found;
                mret (MkLoads (substSet (loadSubst p) (result o) r) (lastLoadOf p)
                        (loadRemovable p ++ [opId]) true)
              else mret remember
          end
      end
  | OpCode.Store | OpCode.Call | OpCode.Intrinsic =>
      mret (MkLoads (loadSubst p) ∅ (loadRemovable p) (loadChanged p))
  | _ => mret p
  end.

Lemma loadOp_actions opId p :
  loadOp opId p =
    (o ← gets (fun f => opAt f opId);
     xs ← gets (fun f => operandsOf (tables f) o);
     '(ys, opChanged, s) ← substOperands xs (loadSubst p);
     setChanged opChanged opId ys;;
     loadAction o opId ys (MkLoads s (lastLoadOf p) (loadRemovable p) (loadChanged p || opChanged))).
Proof. reflexivity. Qed.

Lemma interns_loadAction o opId ys p : interns (loadAction o opId ys p).
Proof.
  unfold loadAction. destruct (code o); try apply interns_ret. destruct ys as [|a ys]; [apply interns_ret|].
  destruct (lastLoadOf p !! a) as [found|]; [|apply interns_ret]. apply interns_bind; [apply interns_gets|]. intros i.
  destruct (typeEq _ _); [|apply interns_ret]. apply interns_bind; [|intros r; apply interns_ret].
  unfold valueRef. apply interns_bind; [apply interns_gets|]. intros j. apply interns_intern.
Qed.

Lemma framed_loadOps os p : framed os (loadOps os p).
Proof.
  revert p. induction os as [|opId os IH]; intros p; cbn [loadOps]; [apply framed_interns, interns_ret|].
  apply framed_bind; [|intros q; eapply framed_weaken; [|apply IH]; intros id Hid; by right].
  eapply framed_weaken with (os := [opId]); [intros id ->%list_elem_of_singleton; by left|]. rewrite loadOp_actions.
  apply framed_bind; [apply framed_interns, interns_gets|]. intros o.
  apply framed_bind; [apply framed_interns, interns_gets|]. intros xs.
  apply framed_bind; [apply framed_interns, interns_substOperands|]. intros [[ys ch] s].
  apply framed_bind; [intros f x f' H; by apply setChanged_frame in H as [_ ?]|].
  intros []. apply framed_interns, interns_loadAction.
Qed.

(** ** What is known, and what the pass keeps *)

(** [mem a s c]: the [s] bytes at [a] are [c]. *)
Abbreviation Contents := (Z -> Z -> ConcreteValue -> Prop).

Definition defines (o : Op) (A : gset N) : gset N := if handleValid (result o) then {[result o]} ∪ A else A.

(** From one class of environments and one memory to the next. *)
Record advance (f : Function) (o : Op) (xs : list N) (E E' : Env -> Prop) (mem mem' : Contents) : Prop := {
  advance_envs : forall env, E' env -> E env;
  advance_keeps : code o <> OpCode.Store -> forall a s c, mem' a s c -> mem a s c;
  advance_loaded : code o = OpCode.Load -> forall env c, E' env -> envValue env (result o) = Ok c ->
    exists x b, xs !! 0%nat = Some x /\ Strict f env x b /\ mem (lo b) (bits (opType o) / 8) c;
  advance_defined : code o = OpCode.Load -> forall env a s c, E' env -> mem' a s c ->
    exists d, envValue env (result o) = Ok d;
  advance_function : forall a s c d, mem a s c -> mem a s d -> c = d }.

(** What the verifier says of an operation. *)
Record load_shape (f : Function) (o : Op) (xs : list N) : Prop := {
  load_operands : Forall (fun x => hasExpr f x = true) xs;
  load_result : code o = OpCode.Load -> (exists x, xs = [x]) /\ handleValid (result o) = true /\
    exists vi, valueAt f (result o) = Some vi /\ valueType vi = opType o /\ valid (opType o) = true }.

Section State.
Context (E : Env -> Prop) (mem : Contents) (A D : gset N).

(** A load remembered is of a value defined, not replaced, that has what is at
    the address. *)
Definition last_ok (f : Function) (last : gmap N N) : Prop := forall a v, last !! a = Some v ->
  hasExpr f a = true /\ v ∈ A ∖ D /\ exists i, valueAt f v = Some i /\
    forall env b c, E env -> Strict f env a b -> mem (lo b) (bits (valueType i) / 8) c -> envValue env v = Ok c.

Record load_ok (f : Function) (p : LoadState) : Prop := {
  load_subst : subst_ok E f (loadSubst p);
  load_static : subst_ok noEnv f (loadSubst p);
  load_reads : reads_ok A D f (loadSubst p);
  load_last : last_ok f (lastLoadOf p) }.

Lemma last_ok_grows f f' last : pool_ok f -> grows f f' -> last_ok f last -> last_ok f' last.
Proof.
  intros Hp Hg Hl a v Hv. destruct (Hl a v Hv) as (Ha & HA & i & Hi & Hs).
  destruct (valueType_ext f f' v i Hg Hi) as (i' & Hi' & Ht). split; [by eapply hasExpr_ext|]. split; [done|].
  exists i'. split; [done|]. rewrite Ht. intros env b c He Hb. apply Hs; [done|]. by eapply Eval_shrinks.
Qed.

Lemma load_ok_grows f f' p : pool_ok f -> grows f f' -> load_ok f p -> load_ok f' p.
Proof.
  intros Hp Hg []. split; [by apply (subst_ok_grows _ f)|by apply (subst_ok_grows _ f)|by apply (reads_ok_grows A D f)|by apply (last_ok_grows f)].
Qed.
End State.

(** ** The action *)

Section Action.
Context (f : Function) (E E' : Env -> Prop) (mem mem' : Contents) (A D : gset N) (o : Op) (opId : N) (xs : list N).
Context (Hadv : advance f o xs E E' mem mem') (Hshape : load_shape f o xs).
Context (Hfresh : handleValid (result o) = true -> result o ∉ A) (HD : D ⊆ A).

Let A' := defines o A.

(** What stays known when the operation is kept. *)
Lemma kept_subst g s :
  subst_ok E g s -> reads_ok A D g s -> subst_ok E' g s /\ reads_ok A' D g s.
Proof using Type*.
  intros Hs Hr. split; [eapply subst_ok_class; [apply Hadv|done]|]. unfold A', defines.
  destruct (handleValid (result o)) eqn:Hv; [|done]. apply reads_ok_defined; [by apply Hfresh|done|].
  intros ?%HD. by apply Hfresh.
Qed.

Lemma kept_last g last : code o <> OpCode.Store -> last_ok E mem A D g last -> last_ok E' mem' A' D g last.
Proof using Type*.
  intros Hc Hl a v Hv. destruct (Hl a v Hv) as (Ha & HA & i & Hi & Hs). split; [done|]. split.
  { unfold A', defines. destruct (handleValid (result o)); set_solver. }
  exists i. split; [done|]. intros env b c He Hb Hm. apply (Hs env b c); [by apply Hadv|done|by apply Hadv].
Qed.

Lemma last_ok_empty g : last_ok E' mem' A' D g ∅.
Proof using Type. intros a v. by rewrite lookup_empty. Qed.

Lemma last_ok_insert g last a v :
  last_ok E' mem' A' D g last -> last_ok E' mem' A' D g {[a := v]} -> last_ok E' mem' A' D g (<[a := v]> last).
Proof using Type.
  intros Hl Ha b u [[<- <-]|[_ Hu]]%lookup_insert_Some; [apply Ha, lookup_singleton_eq|by apply Hl].
Qed.

(** A load kept is remembered. *)
Lemma remember_ok g y :
  code o = OpCode.Load -> grows f g -> Forall2 (stands E g) xs [y] -> hasExpr g y = true ->
  last_ok E' mem' A' D g {[y := result o]}.
Proof using Type*.
  intros Hc Hg Hys Hy a v [<- <-]%lookup_singleton_Some. destruct (load_result f o xs Hshape Hc) as ((x & ->) & Hv & vi & Hvi & Hvt & _).
  destruct (valueType_ext f g (result o) vi Hg Hvi) as (vi' & Hvi' & Hvt'). split; [done|]. split.
  { unfold A', defines. rewrite Hv. pose proof (Hfresh Hv). set_solver. }
  exists vi'. split; [done|]. rewrite Hvt', Hvt. intros env b c He Hb Hm.
  destruct (advance_defined _ _ _ _ _ _ _ Hadv Hc env _ _ _ He Hm) as [d Hd]. rewrite Hd. f_equal.
  destruct (advance_loaded _ _ _ _ _ _ _ Hadv Hc env d He Hd) as (x' & b' & Hx' & Hb' & Hd'). injection Hx' as <-.
  inversion Hys as [|? ? ? ? [_ Hst] _]; subst.
  destruct (Hst env (advance_envs _ _ _ _ _ _ _ Hadv env He)) as (_ & _ & _ & Hsim).
  assert (b' = b) as -> by (apply (Eval_det strictNode g env y); [|done]; apply Hsim; by eapply Eval_grows).
  eapply (advance_function _ _ _ _ _ _ _ Hadv); [exact Hd'|]. apply (advance_keeps _ _ _ _ _ _ _ Hadv); [congruence|done].
Qed.

(** A load removed: its value is replaced by the one remembered. *)
Lemma replaced_ok g p x y found i r g' :
  code o = OpCode.Load -> pool_ok g -> entryFree g -> fewValues g -> grows f g -> load_ok E mem A D g p ->
  xs = [x] -> stands E g x y -> lastLoadOf p !! y = Some found -> valueAt g found = Some i -> valueType i = opType o ->
  valueRef found g = Some (r, g') ->
  pool_ok g' /\ entryFree g' /\ pool_ext g g' /\
  load_ok E' mem' A' ({[result o]} ∪ D) g'
    (MkLoads (substSet (loadSubst p) (result o) r) (lastLoadOf p) (loadRemovable p ++ [opId]) true).
Proof using Type*.
  intros Hc Hp He Hfew Hg [Hs Hst Hr Hl] Hxs [Htxy Hsim] Hfound Hi Hti H.
  destruct (Hl y found Hfound) as (_ & HA & i' & Hi' & Hval). assert (i' = i) as -> by congruence.
  destruct (load_result f o xs Hshape Hc) as (_ & Hv & vi & Hvi & Hvt & Hvalid).
  destruct (valueRef_spec g found i Hfew Hi ltac:(by rewrite Hti) r g' Hp He H) as (Hp' & He' & Hx & Htr & Hcl & Hev).
  assert (grows g g') as Hg' by (by apply pool_ext_grows). pose proof (Hfresh Hv) as HnA.
  destruct (valueType_ext f g' (result o) vi ltac:(by transitivity g) Hvi) as (vi' & Hvi' & Hvt').
  split; [done|]. split; [done|]. split; [done|].
  assert (typeAt g' r = Some (valueType vi')) as Htr' by (rewrite Htr; congruence). split; cbn.
  - apply subst_ok_set; [eapply subst_ok_class; [apply Hadv|by apply (subst_ok_grows E g g')]|].
    intros env Henv. exists vi'. split_and!; [done..|]. intros c Hw Hcv. apply Hev; [congruence|].
    destruct (advance_loaded _ _ _ _ _ _ _ Hadv Hc env c Henv Hcv) as (x' & b & Hx' & Hb & Hm). rewrite Hxs in Hx'. injection Hx' as <-.
    pose proof (advance_envs _ _ _ _ _ _ _ Hadv env Henv) as HE. apply (Hval env b c HE); [|by rewrite Hti].
    destruct (Hsim env HE) as (_ & _ & _ & Hxy). apply Hxy. by eapply Eval_grows.
  - apply subst_ok_set; [by apply (subst_ok_grows noEnv g g')|]. intros env ->. exists vi'. by split_and!.
  - unfold A', defines. rewrite Hv. apply reads_ok_replaced; [done|by apply Hcl|by apply (reads_ok_grows A D g g')].
  - assert (last_ok E' mem' A' D g' (lastLoadOf p)) as Hl'.
    { apply kept_last; [congruence|]. by apply (last_ok_grows E mem A D g g'). }
    intros a v Ha. destruct (Hl a v Ha) as (_ & HAv & _). destruct (Hl' a v Ha) as (Hea & HAv' & Hrest).
    split; [done|]. split; [|done]. set_solver.
Qed.

Lemma kept_ok g p q :
  load_ok E mem A D g p -> loadSubst q = loadSubst p -> last_ok E' mem' A' D g (lastLoadOf q) -> load_ok E' mem' A' D g q.
Proof using Type*.
  intros [Hs Hst Hr _] Hq Hl. destruct (kept_subst g _ Hs Hr) as [Hs' Hr']. split; rewrite ?Hq; [done..|].
  done.
Qed.

(** What the action leaves. *)
Definition forwarded (g g' : Function) (p q : LoadState) : Prop :=
  pool_ok g' /\ entryFree g' /\ pool_ext g g' /\ exists drop : bool, (drop = true -> code o = OpCode.Load) /\
    loadRemovable q = loadRemovable p ++ (if drop then [opId] else []) /\
    load_ok E' mem' A' (if drop then {[result o]} ∪ D else D) g' q.

Lemma forwarded_keeps g p q :
  pool_ok g -> entryFree g -> load_ok E mem A D g p -> loadSubst q = loadSubst p -> loadRemovable q = loadRemovable p ->
  last_ok E' mem' A' D g (lastLoadOf q) -> forwarded g g p q.
Proof using Type*.
  intros Hp He Hok Hs Hr Hl. split; [done|]. split; [done|]. split; [done|]. exists false.
  split; [done|]. split; [by rewrite app_nil_r|]. by apply (kept_ok g p).
Qed.

Lemma loadAction_spec g ys p q g' :
  pool_ok g -> entryFree g -> fewValues g -> grows f g -> load_ok E mem A D g p -> Forall2 (stands E g) xs ys ->
  Forall (fun y => hasExpr g y = true) ys -> loadAction o opId ys p g = Some (q, g') -> forwarded g g' p q.
Proof using Type*.
  intros Hp He Hfew Hg Hok Hys Hhas H. pose proof (load_last _ _ _ _ _ _ Hok) as Hl.
  destruct (decide (code o = OpCode.Load)) as [Hc|Hc].
  - destruct (load_result f o xs Hshape Hc) as ((x & Hxs) & Hv & _). unfold loadAction in H. rewrite Hc in H.
    rewrite Hxs in Hys. apply Forall2_cons_inv_l in Hys as (y & ys' & Hy & Hnil & ->). apply Forall2_nil_inv_l in Hnil as ->.
    apply Forall_cons in Hhas as [Hhy _].
    assert (forwarded g g p (MkLoads (loadSubst p) (<[y:=result o]> (lastLoadOf p)) (loadRemovable p) (loadChanged p))) as Hkeep.
    { apply forwarded_keeps; try done. cbn. apply last_ok_insert; [apply kept_last; [congruence|done]|].
      apply remember_ok; [done..| |done]. rewrite Hxs. by constructor. }
    destruct (lastLoadOf p !! y) as [found|] eqn:Hfound; [|by injection H as <- <-].
    apply M_bind_Some in H as (i & g1 & [Hi ->]%gets_Some & H).
    destruct (typeEq (valueType i) (opType o)) eqn:Ht; [|by injection H as <- <-].
    rewrite typeEq_spec in Ht. apply bool_decide_eq_true in Ht.
    apply M_bind_Some in H as (r & g1 & Hr & [= <- <-]).
    destruct (replaced_ok g p x y found i r g1) as (? & ? & ? & ?); try done. split; [done|]. split; [done|]. split; [done|].
    by exists true.
  - assert (g' = g /\ loadSubst q = loadSubst p /\ loadRemovable q = loadRemovable p /\
      (lastLoadOf q = ∅ \/ code o <> OpCode.Store /\ lastLoadOf q = lastLoadOf p)) as (-> & Hs & Hr & Hq).
    { clear -Hc H. unfold loadAction in H. destruct (code o); try (by destruct Hc); injection H as <- <-;
        (do 3 (split; [reflexivity|])); first [left; reflexivity|right; split; [discriminate|reflexivity]]. }
    apply forwarded_keeps; try done. destruct Hq as [->|[Hns ->]]; [apply last_ok_empty|by apply kept_last].
Qed.
End Action.

(** ** [loadOp] *)

Lemma substOperands_reads A D xs f s ys ch s' f' :
  pool_ok f -> entryFree f -> subst_ok noEnv f s -> reads_ok A D f s -> Forall (fun x => hasExpr f x = true) xs ->
  Forall (closed f A) xs -> substOperands xs s f = Some ((ys, ch, s'), f') ->
  Forall (closed f' (A ∖ D)) ys /\ reads_ok A D f' s'.
Proof.
  revert f s ys ch s' f'. induction xs as [|x xs IH]; intros f s ys ch s' f' Hp Hf Hs Hr Hxs Hcl; cbn [substOperands].
  { intros [= <- <- <- <-]. by split. }
  apply Forall_cons in Hxs as [Hx Hxs]. apply Forall_cons in Hcl as [Hcx Hcl]. rewrite M_bind_Some. intros ([y s1] & f1 & H1 & H).
  destruct (substApply_spec noEnv emptyEnv eq_refl f x s y s1 f1 Hp Hf Hs Hx H1) as (Hp1 & Hf1 & He1 & Hs1 & [(t & _ & Hty) _]).
  destruct (substApply_reads A D f x s y s1 f1 Hp Hf Hs Hr Hx Hcx H1) as (Hcy & Hr1 & _).
  assert (grows f f1) as Hg by (by apply pool_ext_grows).
  apply M_bind_Some in H as ([[ys' ch'] s2] & f2 & H2 & [= <- <- <- <-]).
  destruct (IH f1 s1 ys' ch' s2 f2) as [Hcys Hr2]; try done.
  { eapply Forall_impl; [exact Hxs|]. intros z. by apply hasExpr_ext. }
  { apply Forall_forall. intros z Hz. rewrite Forall_forall in Hxs, Hcl. apply (closed_grows f f1); auto. }
  split; [|done]. constructor; [|done]. apply (closed_grows f1 f2); [done| |by eapply typeAt_hasExpr|done].
  apply pool_ext_grows. by apply (interns_substOperands xs s1 f1 (ys', ch', s2) f2).
Qed.

Section LoadOp.
Context (f : Function) (E E' : Env -> Prop) (mem mem' : Contents) (A D : gset N) (env0 : Env) (Henv0 : E' env0).
Context (o : Op) (opId : N) (xs : list N).
Context (Hadv : advance f o xs E E' mem mem') (Hshape : load_shape f o xs) (Hclosed : Forall (closed f A) xs).
Context (Hfresh : handleValid (result o) = true -> result o ∉ A) (HD : D ⊆ A).

Lemma loadOp_spec g p q g' :
  pool_ok f -> pool_ok g -> entryFree g -> fewValues g -> grows f g -> load_ok E mem A D g p ->
  opAt g opId = Some o -> operandsOf (tables g) o = Some xs -> loadOp opId p g = Some (q, g') ->
  pool_ok g' /\ entryFree g' /\ frame [opId] g g' /\
  (exists drop : bool, (drop = true -> code o = OpCode.Load) /\
    loadRemovable q = loadRemovable p ++ (if drop then [opId] else []) /\
    load_ok E' mem' (defines o A) (if drop then {[result o]} ∪ D else D) g' q) /\
  (addressable g' -> exists o' ys, opAt g' opId = Some o' /\ sameOp o o' /\ operandsOf (tables g') o' = Some ys /\
     Forall2 (stands E g') xs ys /\ Forall (closed g' (A ∖ D)) ys).
Proof using Type*.
  intros Hpf Hp Hf Hfew Hg Hok Ho Hxs. pose proof Hok as [Hs Hst Hr Hl]. rewrite loadOp_actions. intros H.
  apply M_bind_Some in H as (o1 & g1 & [Ho1 ->]%gets_Some & H). assert (o1 = o) as -> by congruence.
  apply M_bind_Some in H as (xs1 & g1 & [Hxs1 ->]%gets_Some & H). assert (xs1 = xs) as -> by congruence.
  apply M_bind_Some in H as ([[ys ch] s] & g1 & Hsub & H). apply M_bind_Some in H as ([] & g2 & Hset & H).
  assert (Forall (fun x => hasExpr g x = true) xs) as Hhas.
  { eapply Forall_impl; [apply (load_operands f o xs Hshape)|]. intros x. by apply hasExpr_ext. }
  assert (Forall (closed g A) xs) as Hclg.
  { apply Forall_forall. intros z Hz. pose proof (load_operands f o xs Hshape) as Hx. rewrite Forall_forall in Hclosed, Hx.
    apply (closed_grows f g); auto. }
  destruct (substOperands_spec E env0 (advance_envs _ _ _ _ _ _ _ Hadv _ Henv0) xs g (loadSubst p) ys ch s g1 Hp Hf Hs Hhas Hsub)
    as (Hp1 & Hf1 & Hx1 & Hs1 & Hys & Hch).
  destruct (substOperands_spec noEnv emptyEnv eq_refl xs g (loadSubst p) ys ch s g1 Hp Hf Hst Hhas Hsub) as (_ & _ & _ & Hst1 & _).
  destruct (substOperands_reads A D xs g (loadSubst p) ys ch s g1 Hp Hf Hst Hr Hhas Hclg Hsub) as [Hcly Hr1].
  assert (grows g g1) as Hg1 by (by apply pool_ext_grows).
  assert (load_ok E mem A D g1 (MkLoads s (lastLoadOf p) (loadRemovable p) (loadChanged p || ch))) as Hok1.
  { split; try done. by apply (last_ok_grows E mem A D g g1). }
  destruct (setChanged_frame g1 opId ys ch _ g2 Hset) as [Hpool2 Hfr2]. pose proof (frame_grows _ _ _ Hfr2) as Hg2.
  assert (pool_ok g2) as Hp2 by (apply (pool_ok_same g1); [done|done|apply Hg2|apply (frame_values _ _ _ Hfr2)]).
  assert (entryFree g2) as Hf2 by (intros id e; unfold exprAt; rewrite Hpool2; apply Hf1).
  assert (fewValues g2) as Hfew2.
  { unfold fewValues in *. by rewrite (frame_values _ _ _ Hfr2), (pool_ext_tables _ _ Hx1). }
  assert (Forall2 (stands E g2) xs ys) as Hys2.
  { eapply Forall2_impl; [exact Hys|]. intros x y. by apply stands_grows. }
  assert (forall y, y ∈ ys -> hasExpr g1 y = true) as Hhy.
  { intros y [j Hj]%list_elem_of_lookup. destruct (Forall2_lookup_r _ _ _ _ _ Hys Hj) as (x & _ & (t & _ & Ht) & _).
    by eapply typeAt_hasExpr. }
  destruct (loadAction_spec f E E' mem mem' A D o opId xs Hadv Hshape Hfresh HD g2 ys
    (MkLoads s (lastLoadOf p) (loadRemovable p) (loadChanged p || ch)) q g') as (Hp3 & Hf3 & Hx3 & Hdrop); try done.
  { transitivity g; [done|by transitivity g1]. }
  { by apply (load_ok_grows E mem A D g1 g2). }
  { apply Forall_forall. intros y Hy. apply (hasExpr_ext g1); [done|by apply Hhy]. }
  pose proof (frame_pool_ext [opId] _ _ Hx3) as Hfr3.
  split; [done|]. split; [done|]. split; [eapply frame_trans; [by apply frame_pool_ext|by eapply frame_trans]|]. split; [exact Hdrop|].
  intros Haddr. destruct (setChanged_op g1 opId o xs ys ch tt g2) as (o' & Ho' & Hso & Hyo); try done.
  { unfold opAt in *. by rewrite (pool_ext_tables _ _ Hx1). }
  { by rewrite (pool_ext_tables _ _ Hx1). }
  { by eapply addressable_pool_ext. }
  exists o', ys. unfold opAt in *. rewrite (pool_ext_tables _ _ Hx3). split; [done|]. split; [done|]. split; [done|]. split.
  - eapply Forall2_impl; [exact Hys2|]. intros x y. apply stands_grows; [done|]. by apply pool_ext_grows.
  - apply Forall_forall. intros y Hy. rewrite Forall_forall in Hcly. apply (closed_grows g1); [done| |by apply Hhy|by apply Hcly].
    transitivity g2; [done|by apply pool_ext_grows].
Qed.
End LoadOp.

(** ** The whole pass, whatever the machine *)

(** The values the operations of a list define. *)
Definition dropped (f : Function) (R : list N) : gset N := list_to_set (omap (fun id => result <$> opAt f id) R).

Lemma dropped_app f R id o : opAt f id = Some o -> dropped f (R ++ [id]) = {[result o]} ∪ dropped f R.
Proof. intros Ho. unfold dropped. rewrite omap_app. cbn. rewrite Ho. cbn. set_solver. Qed.

Lemma elem_of_dropped f R v : v ∈ dropped f R <-> exists id o, id ∈ R /\ opAt f id = Some o /\ result o = v.
Proof.
  unfold dropped. rewrite elem_of_list_to_set, list_elem_of_omap. split.
  - intros (id & Hid & (o & Ho & ->)%fmap_Some). by exists id, o.
  - intros (id & o & Hid & Ho & <-). exists id. by rewrite Ho.
Qed.

(** Each load is removed at most once, as the pass comes to it. *)
Definition isLoad (f : Function) (id : N) : Prop := exists o, opAt f id = Some o /\ code o = OpCode.Load.

Lemma isLoad_frame os f f' id : frame os f f' -> isLoad f id -> isLoad f' id.
Proof.
  intros Hfr (o & Ho & Hc). destruct (frame_same _ _ _ Hfr id o Ho) as (o' & Ho' & Hc' & _). exists o'. split; [done|congruence].
Qed.

Lemma loadOp_removable opId p g q g' : loadOp opId p g = Some (q, g') ->
  exists drop : bool, (drop = true -> isLoad g opId) /\ loadRemovable q = loadRemovable p ++ (if drop then [opId] else []).
Proof.
  rewrite loadOp_actions. intros H. apply M_bind_Some in H as (o & g1 & [Ho ->]%gets_Some & H). apply M_bind_Some in H as (xs & g2 & _ & H).
  apply M_bind_Some in H as ([[ys ch] s] & g3 & _ & H). apply M_bind_Some in H as ([] & g4 & _ & H). unfold loadAction in H.
  assert (forall r : LoadState, loadRemovable r = loadRemovable p -> exists drop : bool, (drop = true -> isLoad g opId) /\
    loadRemovable r = loadRemovable p ++ (if drop then [opId] else [])) as Hno by (intros r Hr; exists false; by rewrite app_nil_r).
  destruct (code o) eqn:Hc; try (injection H as <- _; by apply Hno). destruct ys as [|y ys]; [injection H as <- _; by apply Hno|].
  destruct (lastLoadOf _ !! y); [|injection H as <- _; by apply Hno]. apply M_bind_Some in H as (i & g5 & _ & H).
  destruct (typeEq _ _); [|injection H as <- _; by apply Hno]. apply M_bind_Some in H as (r & g6 & _ & [= <- _]).
  exists true. split; [by exists o|done].
Qed.

Lemma loadOps_removable os p g q h : loadOps os p g = Some (q, h) ->
  exists rest, loadRemovable q = loadRemovable p ++ rest /\ rest `sublist_of` os /\ Forall (isLoad h) rest.
Proof.
  revert p g. induction os as [|opId os IH]; intros p g H; cbn [loadOps] in H.
  { injection H as <- _. exists []. by rewrite app_nil_r. }
  pose proof (framed_loadOps (opId :: os) p g q h H) as Hfr.
  apply M_bind_Some in H as (p1 & g1 & H1 & H). destruct (loadOp_removable _ _ _ _ _ H1) as (drop & Hl & Hd).
  destruct (IH p1 g1 H) as (rest & Hr & Hsub & Hall). rewrite Hr, Hd, <-app_assoc. eexists. split; [done|].
  destruct drop; [|split; [by apply sublist_cons|done]]. split; [by apply sublist_skip|].
  constructor; [|done]. eapply isLoad_frame; [exact Hfr|by apply Hl].
Qed.

Section Pass.
Context (f : Function) (Hpool : pool_ok f) (Hfew : fewValues f) (b : N).

(** Where the pass stands: the operations left, those done, what it has. *)
Record stage (E : Env -> Prop) (mem : Contents) (A : gset N) (os done_ : list N) (g : Function) (p : LoadState) : Prop := {
  stage_reached : reached f done_ g;
  stage_later : forall id, id ∈ os -> id ∉ done_;
  stage_done : forall id, id ∈ loadRemovable p -> id ∈ done_;
  stage_ok : load_ok E mem A (dropped f (loadRemovable p)) g p;
  stage_sub : dropped f (loadRemovable p) ⊆ A;
  stage_fresh : forall id o, id ∈ os -> opAt f id = Some o -> result o ∉ A }.

(** What the verifier says of the operations of the block. *)
Record loadable (os : list N) : Prop := {
  loadable_once : NoDup os;
  loadable_definitions : forall id, id ∈ os -> checkDefinition f (b, id) = true;
  loadable_shapes : forall id o xs, id ∈ os -> opAt f id = Some o -> operandsOf (tables f) o = Some xs -> load_shape f o xs }.

Lemma loadable_cons opId os : loadable (opId :: os) -> opId ∉ os /\ loadable os.
Proof using Type.
  intros [Hnd Hd Hs]. apply NoDup_cons in Hnd as [Hni Hnd]. split; [done|].
  split; [done|intros id Hid; apply Hd; by right|intros id o xs Hid; apply Hs; by right].
Qed.

Lemma stage_start E mem os : entryFree f -> stage E mem ∅ os [] f (MkLoads emptySubst ∅ [] false).
Proof using Hpool.
  intros He. split; [split; [done|done|apply frame_refl]|intros id _; apply not_elem_of_nil|by intros id Hid| |done|].
  2: { intros id o _ _. apply not_elem_of_empty. }
  split; [apply subst_ok_empty..| |intros a v; cbn; by rewrite lookup_empty].
  split; cbn; intros v; [intros r; by rewrite lookup_empty|by intros ?%not_elem_of_empty|intros r; by rewrite lookup_empty].
Qed.

(** One operation. *)
Lemma stage_step E E' mem mem' A os done_ g p opId o xs q g1 env0 :
  E' env0 -> stage E mem A (opId :: os) done_ g p -> loadable (opId :: os) -> opAt f opId = Some o ->
  operandsOf (tables f) o = Some xs -> Forall (closed f A) xs -> advance f o xs E E' mem mem' -> loadOp opId p g = Some (q, g1) ->
  stage E' mem' (defines o A) os (opId :: done_) g1 q /\ frame [opId] g g1 /\
  (exists drop : bool, (drop = true -> code o = OpCode.Load) /\ loadRemovable q = loadRemovable p ++ (if drop then [opId] else [])) /\
  (addressable g1 -> exists o' ys, opAt g1 opId = Some o' /\ sameOp o o' /\ operandsOf (tables g1) o' = Some ys /\
     Forall2 (stands E g1) xs ys /\ Forall (closed g1 (A ∖ dropped f (loadRemovable p))) ys).
Proof using Hpool Hfew.
  intros Henv0 [[Hp He Hfr] Hlater Hdone Hok Hsub Hfresh] Hload Ho Hxs Hcl Hadv H. pose proof Hload as [_ Hdef Hsh].
  pose proof (Hsh opId o xs ltac:(by left) Ho Hxs) as Hshape. destruct (loadable_cons _ _ Hload) as [Hni _].
  destruct (loadOp_spec f E E' mem mem' A (dropped f (loadRemovable p)) env0 Henv0 o opId xs Hadv Hshape Hcl) with (g := g) (p := p) (q := q) (g' := g1)
    as (Hp1 & He1 & Hfr1 & (drop & Hdl & Hrm & Hok1) & Hop); try done.
  { intros _. apply (Hfresh opId o); [by left|done]. }
  { unfold fewValues in *. by rewrite (frame_values _ _ _ Hfr). }
  { apply (frame_grows _ _ _ Hfr). }
  { rewrite (opAt_later f g done_ (opId :: os)); [done..|by left]. }
  { by apply (operandsOf_frame _ _ _ _ _ Hfr). }
  split; [|split; [done|split; [by exists drop|done]]].
  assert (dropped f (loadRemovable q) = if drop then {[result o]} ∪ dropped f (loadRemovable p) else dropped f (loadRemovable p)) as Hdr.
  { rewrite Hrm. destruct drop; [by apply dropped_app|by rewrite app_nil_r]. }
  split.
  - split; [done|done|]. eapply frame_trans; [eapply frame_weaken; [|exact Hfr]|eapply frame_weaken; [|exact Hfr1]].
    + intros id Hid. by right.
    + intros id ->%list_elem_of_singleton. by left.
  - intros id Hid [->|Hin]%elem_of_cons; [done|]. by apply (Hlater id); [right|].
  - intros id. rewrite Hrm. intros [Hid|Hid]%elem_of_app; [right; by apply Hdone|].
    destruct drop; [apply list_elem_of_singleton in Hid as ->; by left|by apply not_elem_of_nil in Hid].
  - by rewrite Hdr.
  - rewrite Hdr. unfold defines. destruct drop; [|destruct (handleValid _); set_solver].
    destruct (load_result f o xs Hshape (Hdl eq_refl)) as (_ & -> & _). set_solver.
  - intros id o2 Hid Ho2. pose proof (Hfresh id o2 ltac:(by right) Ho2) as HnA. unfold defines.
    destruct (handleValid (result o)) eqn:Hv; [|done]. intros [Heq%elem_of_singleton|]%elem_of_union; [|done].
    apply Hni. rewrite (results_differ f b opId id o o2); try done; [apply Hdef; by left|apply Hdef; by right].
Qed.

(** The pass returns. *)
Definition nowhere (a s : Z) (c : ConcreteValue) : Prop := False.

Lemma advance_static o xs : advance f o xs noEnv noEnv nowhere nowhere.
Proof using Type. by split; [|intros _ a s c []|intros _ env c ->|intros _ env a s c _ []|intros a s c d []]. Qed.

Lemma adds_one_loadAction o opId xs ys A D g p :
  load_shape f o xs -> pool_ok g -> fewValues g -> last_ok noEnv nowhere A D g (lastLoadOf p) -> adds_one g (loadAction o opId ys p).
Proof using Type.
  intros Hsh Hp Hfewg Hl. unfold loadAction. destruct (code o) eqn:Hc; try apply adds_one_ret.
  destruct ys as [|y ys]; [apply adds_one_ret|]. destruct (lastLoadOf p !! y) as [found|] eqn:Hfound; [|apply adds_one_ret].
  destruct (Hl y found Hfound) as (_ & _ & i & Hi & _). apply (adds_one_gets g _ i); [done|].
  destruct (typeEq _ _) eqn:Ht; [|apply adds_one_ret]. rewrite typeEq_spec in Ht. apply bool_decide_eq_true in Ht.
  destruct (load_result f o xs Hsh Hc) as (_ & _ & vi & _ & _ & Hv).
  apply adds_one_ends, (adds_one_valueRef g found i); try done. by rewrite Ht.
Qed.

Lemma loadAction_memo o opId ys p g q g' :
  loadAction o opId ys p g = Some (q, g') -> substMemo (loadSubst q) = substMemo (loadSubst p).
Proof using Type.
  unfold loadAction. intros H. destruct (code o); try (by injection H as <- <-). destruct ys as [|y ys]; [by injection H as <- <-|].
  destruct (lastLoadOf p !! y); [|by injection H as <- <-]. apply M_bind_Some in H as (i & g1 & _ & H).
  destruct (typeEq _ _); [|by injection H as <- <-]. by apply M_bind_Some in H as (r & g2 & _ & [= <- <-]).
Qed.

Lemma loadOp_total opId os done_ o xs A g p k :
  loadable (opId :: os) -> opAt f opId = Some o -> operandsOf (tables f) o = Some xs ->
  stage noEnv nowhere A (opId :: os) done_ g p ->
  memo_below (exprCount f) (substMemo (loadSubst p)) -> room (exprCount f) g (loadSubst p) (S k) ->
  exists q g', loadOp opId p g = Some (q, g') /\ memo_below (exprCount f) (substMemo (loadSubst q)) /\
    room (exprCount f) g' (loadSubst q) k.
Proof using Hfew.
  intros [_ _ Hshapes] Ho Hxs [[Hp He Hfr] Hlater _ [_ Hst _ Hl] _ _] Hm Hroom. pose proof (frame_grows _ _ _ Hfr) as Hg.
  pose proof (Hshapes opId o xs ltac:(by left) Ho Hxs) as Hsh.
  assert (opAt g opId = Some o) as Hog by (rewrite (opAt_later f g done_ (opId :: os)); [done..|by left]).
  destruct (substOperands_total (exprCount f) xs g (loadSubst p) (S k)) as (ys & ch & s & g1 & H1 & [Hp1 He1 Hs1 Hm1] & Hr1); [by split| |done|].
  { eapply Forall_impl; [apply (load_operands f o xs Hsh)|]. intros x Hx. split; [by apply (hasExpr_ext f)|].
    apply hasExpr_lt in Hx. unfold exprCount. lia. }
  pose proof (interns_substOperands _ _ _ _ _ H1) as Hx1. assert (grows g g1) as Hg1 by (by apply pool_ext_grows).
  assert (exists g2, setChanged ch opId ys g1 = Some (tt, g2)) as [g2 H2].
  { unfold setChanged, setOperands, update. destruct ch; [|by eexists]. unfold opAt in *. rewrite (pool_ext_tables _ _ Hx1), Hog. by eexists. }
  destruct (setChanged_frame g1 opId ys ch tt g2 H2) as [Hpool2 Hfr2]. pose proof (frame_grows _ _ _ Hfr2) as Hg2.
  assert (pool_ok g2) as Hp2 by (apply (pool_ok_same g1); [done|done|apply Hg2|apply (frame_values _ _ _ Hfr2)]).
  assert (exprCount g2 = exprCount g1) as Hc2 by (unfold exprCount; by rewrite Hpool2).
  set (p1 := MkLoads s (lastLoadOf p) (loadRemovable p) (loadChanged p || ch)).
  destruct (adds_one_loadAction o opId xs ys A (dropped f (loadRemovable p)) g2 p1 Hsh Hp2) as (q & g3 & H3 & Hc3).
  - unfold fewValues in *. by rewrite (frame_values _ _ _ Hfr2), (pool_ext_tables _ _ Hx1), (frame_values _ _ _ Hfr).
  - apply (last_ok_grows noEnv nowhere A _ g g2); [done|by transitivity g1|done].
  - unfold room, budget, demand in Hr1. lia.
  - exists q, g3. pose proof (loadAction_memo _ _ _ _ _ _ _ H3) as Hmem. cbn in Hmem.
    split; [|unfold room, budget, demand in *; rewrite Hmem; split; [done|lia]].
    rewrite loadOp_actions. apply M_bind_Some. exists o, g. split; [by apply gets_Some|].
    apply M_bind_Some. exists xs, g. split; [apply gets_Some; split; [by apply (operandsOf_frame _ _ _ _ _ Hfr)|done]|].
    apply M_bind_Some. exists (ys, ch, s), g1. split; [done|]. apply M_bind_Some. by exists tt, g2.
Qed.

(** The operations read what is defined before them. *)
Lemma uses_closed level o xs A :
  checkOp level f b o = true -> operandsOf (tables f) o = Some xs -> forallb (operandOk f b A) xs = true -> Forall (closed f A) xs.
Proof using Hpool.
  intros Hc Hxs Hu. destruct (checkOp_spec _ _ _ _ Hc) as (xs' & ts & Hxs' & _ & Hx & _). assert (xs' = xs) as -> by congruence.
  apply Forall_forall. intros x Hin v. apply (operandOk_reads f b A x v Hpool); [by apply Hx|by apply (forallb_elem _ _ x Hu)].
Qed.

Lemma loadOps_total level os done_ seenPhi A g p :
  loadable os -> checkOps level f b seenPhi os = true -> checkUses f b A os = true -> stage noEnv nowhere A os done_ g p ->
  memo_below (exprCount f) (substMemo (loadSubst p)) -> room (exprCount f) g (loadSubst p) (length os) ->
  exists q h, loadOps os p g = Some (q, h) /\ pool_ok h /\ frame os g h.
Proof using Hpool Hfew.
  revert done_ seenPhi A g p. induction os as [|opId os IH]; intros done_ seenPhi A g p Hload Hops Huses Hst Hm Hroom; cbn [loadOps].
  { exists p, g. split; [done|]. split; [apply Hst|apply frame_refl]. }
  apply checkOps_cons in Hops as (o & seenPhi' & Ho & Hcheck & _ & _ & Hrest). cbn [checkUses] in Huses.
  destruct (checkOp_spec _ _ _ _ Hcheck) as (xs & ts & Hxs & _). rewrite Ho, Hxs in Huses. apply andb_true_iff in Huses as [Hxok Huses].
  destruct (loadOp_total opId os done_ o xs A g p (length os) Hload Ho Hxs Hst Hm Hroom) as (p1 & g1 & H1 & Hm1 & Hroom1).
  destruct (stage_step noEnv noEnv nowhere nowhere A os done_ g p opId o xs p1 g1 emptyEnv) as (Hst1 & Hfr1 & _); try done.
  { by apply (uses_closed level o). }
  { apply advance_static. }
  destruct (IH (opId :: done_) seenPhi' (defines o A) g1 p1) as (q & h & H & Hph & Hfr); try done; [by apply (loadable_cons opId)|].
  exists q, h. split; [apply M_bind_Some; by exists p1, g1|]. split; [done|]. eapply frame_trans; [eapply frame_weaken; [|exact Hfr1]|eapply frame_weaken; [|exact Hfr]].
  - intros id ->%list_elem_of_singleton. by left.
  - intros id Hid. by right.
Qed.
End Pass.

(** ** The block runs as before *)

Section Machines.
Context {B X : Type} `{BackendLaws B}.
Context (f : Function) (hooks : Hooks X).
Context (Hpool : pool_ok f) (Hstrict : strictPool f) (Hentry : entryFree f).

Definition memHolds (m : Machine B) (a s : Z) (c : ConcreteValue) : Prop := backendRead (memory m) a s = Ok c.

(** An operation that goes on leaves more defined, and the memory as it was
    unless it stores. *)
Lemma moved_envLe o (m m1 : Machine B) :
  (definesValue (code o) = true -> handleValid (result o) = true) ->
  (handleValid (result o) = true -> defined m !! N.to_nat (result o) <> Some true) ->
  moved f o m m1 -> envLe (machineEnv f m) (machineEnv f m1).
Proof using Type.
  intros Hdv Hfresh [c m2 Hd _ _ _ Hval|mem _ _ _ _|x v cs xs _ _ _ _ _]; [|by intros u d..].
  apply (define_envLe f m (result o) c); [done|]. apply Hfresh. by destruct Hval as [?%Hdv|?].
Qed.

Lemma moved_memory_same o (m m1 : Machine B) : code o <> OpCode.Store -> moved f o m m1 -> memory m1 = memory m.
Proof using Type.
  intros Hc [c m2 Hd _ _ _ _|mem _ _ _ Hm|x v cs xs _ _ _ _ _]; [|by apply Hm|done].
  unfold define in Hd. destruct (_ && _); [|done]. by injection Hd as <-.
Qed.

Lemma moved_advance o xs (m m1 : Machine B) :
  load_shape f o xs -> operandsOf (tables f) o = Some xs ->
  (definesValue (code o) = true -> handleValid (result o) = true) ->
  (handleValid (result o) = true -> defined m !! N.to_nat (result o) <> Some true) ->
  moved f o m m1 -> advance f o xs (knows f m) (knows f m1) (memHolds m) (memHolds m1).
Proof using Hpool Hstrict Hentry.
  intros Hsh Hxs Hdv Hfresh Hmv. pose proof (moved_envLe o m m1 Hdv Hfresh Hmv) as Ha.
  assert (code o = OpCode.Load -> exists c vi, loads f o m c /\ define m (result o) c = Some m1 /\ valueAt f (result o) = Some vi) as Hload.
  { intros Hc. destruct (load_result f o xs Hsh Hc) as (_ & _ & vi & Hvi & _).
    destruct Hmv as [c m2 Hd _ Hl _ _|mem _ _ Hn _|x v cs xs' Hn _ _ _ _]; [|by destruct Hn|congruence]. exists c, vi. auto. }
  split.
  - intros env He. exact (transitivity Ha He).
  - intros Hc a s c. unfold memHolds. by rewrite (moved_memory_same o m m1 Hc Hmv).
  - intros Hc env c He Hev. destruct (Hload Hc) as (c' & vi & (xs' & x & a & Hxs' & Hx & Hxa & Hr) & Hd & Hvi).
    assert (xs' = xs) as -> by congruence. exists x, a. split; [done|]. split; [by apply (evalIn_Strict f Hpool Hstrict Hentry m m1)|].
    pose proof (He _ _ (define_value f m (result o) c' m1 vi Hd Hvi)) as Hev'. assert (c = c') as -> by congruence. exact Hr.
  - intros Hc env a s c He _. destruct (Hload Hc) as (c' & vi & _ & Hd & Hvi). exists c'.
    exact (He _ _ (define_value f m (result o) c' m1 vi Hd Hvi)).
  - unfold memHolds. intros a s c d Hc Hd. congruence.
Qed.

Lemma other_advance o xs (E : Env -> Prop) mem :
  code o <> OpCode.Load -> (forall a s c d, mem a s c -> mem a s d -> c = d) -> advance f o xs E E mem mem.
Proof using Type. by split. Qed.
End Machines.

Section Run.
Context {B X : Type} `{BackendLaws B}.
Context (f h f' : Function) (b : N) (R : list N) (hooks : Hooks X).
Context (Hplain : plainHooks hooks) (Hhooks : typed_hooks hooks).
Context (level : Maturity) (Hexec : executable level f) (Hentry : entryFree f) (Hflags : flagsRoots (registers f)).
Context (Hfew : fewValues f).
Context (all : list N) (Hwhole : frame all f h) (Hpoolh : pool_ok h) (Haddr : addressable h).
Context (Hremoved : removed b R h f') (Hshallow : shallow f').

(** The values a run still defines. *)
Let kept (v : N) : Prop := v ∉ dropped f R.

Lemma related_env (m m' : Machine B) v c : related kept (fun _ => False) m m' -> kept v ->
  envValue (machineEnv f m) v = Ok c -> envValue (machineEnv f' m') v = Ok c.
Proof using Hwhole Hremoved.
  intros Hrel Hv. pose proof (final_similar f h f' b R all Hwhole Hremoved) as Hsim. cbn.
  assert (hasValue f' v = hasValue f v) as -> by (unfold hasValue, contains; by rewrite (similar_values _ _ Hsim)).
  by destruct (related_values _ _ _ _ Hrel v Hv) as [-> ->].
Qed.

(** An operand's replacement evaluates to what the operand does. *)
Lemma forwarded_operand g (A D : gset N) (m m' : Machine B) x y v :
  related kept (fun _ => False) m m' -> (forall u, u ∈ A ∖ D -> kept u) ->
  stands (knows f m) g x y -> closed g (A ∖ D) y -> entryFree g -> grows f g -> grows g h ->
  evalIn f m x = Ok v -> evalIn f' m' y = Ok v.
Proof using Type*.
  intros Hrel HD [(t & _ & Hty) Hs] Hcl Hge Hfg Hgh Hv. pose proof (final_grows h f' b R Hremoved g Hgh) as Hg.
  destruct Hexec as [_ _ Hpool Hstrict _ _ _ _].
  assert (Strict f (machineEnv f m) x v) as Hx.
  { apply (evalIn_Strict f Hpool Hstrict Hentry m m); [exact Hv|reflexivity|unfold knows; reflexivity]. }
  apply (Eval_grows _ f g) in Hx; [|exact Hfg].
  destruct (Hs (machineEnv f m)) as (_ & _ & _ & Hsim); [unfold knows; reflexivity|]. apply Hsim in Hx.
  apply (Eval_frame _ _ _ (machineEnv f' m') _ _ Hge) in Hx.
  2: { intros u c Hu. apply related_env; [done|]. by apply HD, Hcl. }
  apply (Eval_grows _ g f') in Hx; [|exact Hg]. unfold evalIn.
  apply (evalRec_complete f' _ (removed_pool_ok h f' b R Hpoolh Hremoved) 257); [|by apply Strict_Evaluates|lia..].
  apply Hshallow. apply (hasExpr_ext g f' y Hg). by eapply typeAt_hasExpr.
Qed.

(** One step of an operation that stays, in the block before and after. *)
Lemma forwarded_step g (A D : gset N) os opId o o' xs ys (m m' : Machine B) st next :
  frame os g h -> opId ∉ os -> opId ∉ R -> grows f g -> entryFree g -> opAt g opId = Some o' -> sameOp o o' ->
  operandsOf (tables f) o = Some xs -> operandsOf (tables g) o' = Some ys -> Forall2 (stands (knows f m) g) xs ys ->
  Forall (closed g (A ∖ D)) ys -> (forall u, u ∈ A ∖ D -> kept u) -> related kept (fun _ => False) m m' ->
  checkOp level f b o = true -> execOp f hooks o m st = Some next -> quiet next ->
  opAt f' opId = Some o' /\ exists next', execOp f' hooks o' m' st = Some next' /\ same_next kept (fun _ => False) next next'.
Proof using Type*.
  intros Hfr Hos HR Hg Hge Ho' Hso Hxs Hys Hall Hcl HD Hrel Hcheck Hn Hq.
  destruct (op_final h f' b R Hremoved g os opId o' ys Hfr Hos HR Ho' Hys) as [Hof Hyf]. split; [done|].
  destruct (execOp_related kept f f' hooks (final_similar f h f' b R all Hwhole Hremoved) Hflags (fun _ => False) m m' Hrel
    o o' Hso xs ys Hxs Hyf) with (st := st) (next := next) as (next' & Hn' & Hsame); try done.
  - apply Forall2_same_length_lookup. split; [by eapply Forall2_length|]. intros i x y Hx Hy v.
    apply (forwarded_operand g A D); try done; [by apply (Forall2_lookup_lr _ _ _ _ _ _ Hall Hx Hy)| |apply Hfr].
    rewrite Forall_forall in Hcl. by eapply Hcl, list_elem_of_lookup_2.
  - pose proof (file_wf _ (executable_file _ _ Hexec)) as Hwf. destruct (checkOp_spec _ _ _ _ Hcheck) as (? & ? & _ & _ & _ & _ & Hrule & _).
    assert (touchesRegister (code o) = true -> exists root, rootOf (registers f) (payload o) = Some root) as Hroot.
    { intros Ht. assert (checkRegister f o = true) as (i & Hi & _)%checkRegister_Some.
      { unfold codeRuleOk in Hrule. destruct (code o); try done; rewrite !andb_true_iff in Hrule; tauto. }
      destruct (rootOf_total _ _ i Hwf Hi) as (root & _ & Hr & _). by exists root. }
    split; intros Hc; destruct Hroot as [root Hr]; [by rewrite Hc|exists root; split; [done|by intros []]|by rewrite Hc|exists root].
    split; [done|]. left. by intros [].
  - exists next'. split; [done|]. destruct Hsame as [m1 m1' st1 Hr|r m1 m1' st1 Hr]; constructor;
      (eapply related_weaken; [|exact Hr]); by intros k [[] _].
Qed.

(** A load that was removed defines a value nothing reads. *)
Lemma load_dropped o (m m' m1 : Machine B) st st1 :
  code o = OpCode.Load -> result o ∈ dropped f R -> related kept (fun _ => False) m m' ->
  execOp f hooks o m st = Some (Continue m1 st1) -> st1 = st /\ related kept (fun _ => False) m1 m'.
Proof using Type.
  intros Hc Hin Hrel. unfold execOp. rewrite Hc. destruct (operandsOf _ _) as [xs|]; cbn [mbind option_bind]; [|done].
  destruct (xs !! 0%nat) as [x|]; cbn [mbind option_bind]; [|done].
  intros (a & _ & (c & _ & Hk)%orFail_Continue)%orFail_Continue.
  destruct (define m (result o) c) as [m2|] eqn:Hd; cbn [mbind option_bind] in Hk; [|done]. injection Hk as <- <-.
  split; [done|]. eapply define_dropped; [exact Hrel| |exact Hd]. intros Hn. by apply Hn.
Qed.

(** What is defined and not replaced yet is not removed later either. *)
Lemma not_dropped_later E mem A os done_ g p rest u :
  stage f E mem A os done_ g p -> R = loadRemovable p ++ rest -> rest ⊆ os -> u ∈ A ∖ dropped f (loadRemovable p) -> kept u.
Proof using Type.
  intros Hst HR Hrest [HA HD]%elem_of_difference. unfold kept. rewrite elem_of_dropped. intros (id & o & Hid & Ho & <-).
  rewrite HR in Hid. apply elem_of_app in Hid as [Hid|Hid].
  - apply HD. rewrite elem_of_dropped. by exists id, o.
  - by apply (stage_fresh _ _ _ _ _ _ _ _ Hst id o (Hrest id Hid) Ho).
Qed.

(** An operation the pass keeps is executed on both sides. *)
Lemma forwarded_stays mem A os done_ g g1 p rest opId o xs (m m' : Machine B) st next :
  stage f (knows f m) mem A (opId :: os) done_ g p -> opId ∉ os -> R = loadRemovable p ++ rest -> rest `sublist_of` os ->
  frame [opId] g g1 -> frame os g1 h -> entryFree g1 ->
  (addressable g1 -> exists o' ys, opAt g1 opId = Some o' /\ sameOp o o' /\ operandsOf (tables g1) o' = Some ys /\
     Forall2 (stands (knows f m) g1) xs ys /\ Forall (closed g1 (A ∖ dropped f (loadRemovable p))) ys) ->
  related kept (fun _ => False) m m' -> checkOp level f b o = true -> operandsOf (tables f) o = Some xs ->
  execOp f hooks o m st = Some next -> quiet next ->
  opId ∉ R /\ exists o' next', opAt f' opId = Some o' /\ execOp f' hooks o' m' st = Some next' /\
    same_next kept (fun _ => False) next next'.
Proof using Type*.
  intros Hst Hni HR Hsub Hfr Hfr1 He1 Hop Hrel Hcheck Hxs Hn Hq. pose proof (addressable_frame os g1 h Hfr1 Haddr) as Haddr1.
  assert (rest ⊆ os) as Hrest by (intros id Hid; by eapply elem_of_sublist). assert (opId ∉ R) as HniR.
  { rewrite HR. intros [Hin|Hin]%elem_of_app; [|by apply Hni, Hrest].
    apply (stage_later _ _ _ _ _ _ _ _ Hst opId); [by left|]. by apply (stage_done _ _ _ _ _ _ _ _ Hst). }
  split; [done|]. destruct (Hop Haddr1) as (o' & ys & Ho' & Hso & Hys & Hall & Hclys).
  destruct (forwarded_step g1 A (dropped f (loadRemovable p)) os opId o o' xs ys m m' st next) as (Hof & next' & Hn' & Hsame); try done.
  - etrans; [|apply (frame_grows _ _ _ Hfr)]. apply (frame_grows _ _ _ (reached_frame _ _ _ (stage_reached _ _ _ _ _ _ _ _ Hst))).
  - intros u. apply (not_dropped_later (knows f m) mem A (opId :: os) done_ g p rest); try done. intros id Hid. right. by apply Hrest.
  - by exists o', next'.
Qed.

Context (Hbelow : atLeast level Maturity.Ssa = false).

Lemma runOps_forwarded end_ os done_ seenPhi p g A (m m' : Machine B) st q r m1 st1 :
  loadable f b os -> checkOps level f b seenPhi os = true -> checkUses f b A os = true -> machine_ok f m -> provides m A ->
  unset f os m -> stage f (knows f m) (memHolds m) A os done_ g p -> loadOps os p g = Some (q, h) -> loadRemovable q = R ->
  related kept (fun _ => False) m m' -> runOps f hooks end_ os m st = Some (r, m1, st1) -> stop r <> ExecStop.Error ->
  endsAs f' hooks end_ (filter (fun id => id ∉ R) os) m' st r m1 st1.
Proof using Type*.
  pose proof Hexec as [_ _ Hpool Hstrict Hdn Hfile Hvalid _]. pose proof (strict_floats f Hstrict) as Hfs.
  revert done_ seenPhi p g A m m' st. induction os as [|opId os IH];
    intros done_ seenPhi p g A m m' st Hload Hops Huses Hm Hp Hun Hst Hcopy HR Hrel Hrun Hq.
  { cbn in Hrun. injection Hrun as <- _ _. by destruct Hq. }
  cbn [runOps loadOps checkUses] in *. destruct (loadable_cons f b opId os Hload) as [Hni Hload'].
  apply checkOps_cons in Hops as (o & seenPhi' & Ho & Hcheck & _ & _ & Hrest).
  destruct (checkOp_spec level f b o Hcheck) as (xs & ts & Hxs & _ & _ & _ & _ & Hres).
  rewrite Ho, Hxs in Huses. apply andb_true_iff in Huses as [Hxok Huses].
  pose proof Hload as [_ Hdef Hshapes]. pose proof (Hdef opId ltac:(by left)) as Hdef0.
  pose proof (Hshapes opId o xs ltac:(by left) Ho Hxs) as Hsh. pose proof (uses_closed f Hpool b level o xs A Hcheck Hxs Hxok) as Hcl.
  pose proof (execStep_ok f Hpool Hfs Hdn Hfile hooks Hhooks Hvalid level b opId o m A Hbelow Ho Hcheck
    Hdef0 Hm Hp xs Hxs Hxok st) as Hstep. unfold steps in Hstep. rewrite Ho in Hrun. cbn [mbind option_bind] in Hrun.
  destruct (execStep f hooks o m st) as [next|] eqn:Hnext; cbn [mbind option_bind] in Hrun; [|done].
  rewrite execStep_plain in Hnext by done. apply M_bind_Some in Hcopy as (p1 & g1 & H1 & Hcopy).
  pose proof (framed_loadOps _ _ _ _ _ Hcopy) as Hfr1. pose proof (addressable_frame os g1 h Hfr1 Haddr) as Haddr1.
  destruct (loadOps_removable _ _ _ _ _ Hcopy) as (rest & Hrest1 & Hsub & _). rewrite HR in Hrest1.
  destruct next as [m2 st2|r2 m2 st2].
  - pose proof (execOp_moved f hooks o m st m2 st2 Hnext) as Hmv. destruct Hstep as (Hm2 & _ & Hp2).
    assert (advance f o xs (knows f m) (knows f m2) (memHolds m) (memHolds m2)) as Hadv.
    { apply (moved_advance f Hpool Hstrict Hentry); try done; [|intros Hv; apply (Hun opId); [by left|done..]].
      intros Hdv. rewrite Hres. unfold shouldDefine. by destruct (code o). }
    destruct (stage_step f Hpool Hfew b _ _ _ _ A os done_ g p opId o xs p1 g1 (machineEnv f m2) (knows_refl f m2) Hst Hload Ho Hxs Hcl Hadv H1)
      as (Hst1 & Hfr & (drop & Hdl & Hrm) & Hop).
    assert (forall m2', related kept (fun _ => False) m2 m2' ->
      endsAs f' hooks end_ (filter (fun id => id ∉ R) os) m2' st2 r m1 st1) as Hgo.
    { intros m2' Hrel2. apply (IH (opId :: done_) seenPhi' p1 g1 (defines o A) m2 m2' st2); try done.
      by apply (unset_step f b os opId o m m2). }
    destruct drop.
    + assert (opId ∈ R) as Hin by (rewrite Hrest1, Hrm; set_solver).
      destruct (load_dropped o m m' m2 st st2 (Hdl eq_refl)) as [-> Hrel2]; [|done..|].
      { rewrite elem_of_dropped. by exists opId, o. }
      rewrite filter_cons_False by (intros Hn; by apply Hn). by apply Hgo.
    + rewrite Hrm, app_nil_r in Hrest1.
      destruct (forwarded_stays (memHolds m) A os done_ g g1 p rest opId o xs m m' st (Continue m2 st2)) as (HniR & o' & next' & Hof & Hn' & Hsame);
        try done; [apply (stage_reached _ _ _ _ _ _ _ _ Hst1)|].
      unfold endsAs. rewrite filter_cons_True by done. cbn [runOps]. rewrite Hof. cbn [mbind option_bind].
      rewrite execStep_plain, Hn' by done. cbn [mbind option_bind]. inversion Hsame as [? m2' ? Hrel2|]; subst. by apply Hgo.
  - assert (stop r2 <> ExecStop.Error) as Hq2 by (by injection Hrun as -> _ _).
    pose proof (quiet_stop f hooks o m m2 st r2 st2 Hnext Hq2) as Hsus.
    assert (code o <> OpCode.Load) as Hnl by (intros E; by rewrite E in Hsus).
    assert (advance f o xs (knows f m) (knows f m) (memHolds m) (memHolds m)) as Hadv.
    { apply other_advance; [done|]. unfold memHolds. congruence. }
    destruct (stage_step f Hpool Hfew b _ _ _ _ A os done_ g p opId o xs p1 g1 (machineEnv f m) (knows_refl f m) Hst Hload Ho Hxs Hcl Hadv H1)
      as (Hst1 & Hfr & ([] & Hdl & Hrm) & Hop); [by destruct Hnl; apply Hdl|]. rewrite Hrm, app_nil_r in Hrest1.
    destruct (forwarded_stays (memHolds m) A os done_ g g1 p rest opId o xs m m' st (Stop r2 m2 st2)) as (HniR & o' & next' & Hof & Hn' & Hsame);
      try done; [apply (stage_reached _ _ _ _ _ _ _ _ Hst1)|].
    unfold endsAs. rewrite filter_cons_True by done. cbn [runOps]. rewrite Hof. cbn [mbind option_bind].
    rewrite execStep_plain, Hn' by done. cbn [mbind option_bind]. inversion Hsame as [|? ? m2' ? Hrel2]; subst.
    injection Hrun as <- <- <-. exists m2'. split; [done|]. split; [apply (related_memory _ _ _ _ Hrel2)|].
    apply (same_cells (fun _ => False)); [by intros k []|apply (related_cells _ _ _ _ Hrel2)].
Qed.
End Run.

(** ** The theorem *)

(** What it asks of the function and the block: the function can be executed, no
    node reads a register, flag registers have no views, the block lists an
    operation once, and handles remain. *)
Record forwardable (level : Maturity) (f : Function) (blk : Block) : Prop := {
  forwardable_executable : executable level f;
  forwardable_entry : entryFree f;
  forwardable_flags : flagsRoots (registers f);
  forwardable_once : NoDup (blockOps blk);
  forwardable_values : fewValues f;
  forwardable_room : (N.of_nat (2 * exprCount f + length (blockOps blk)) <= kInvalidIndex)%N }.

Lemma load_shape_verified f level b opId o xs :
  checkOp level f b o = true -> checkDefinition f (b, opId) = true -> opAt f opId = Some o ->
  operandsOf (tables f) o = Some xs -> (forall v i, valueAt f v = Some i -> valid (valueType i) = true) -> load_shape f o xs.
Proof.
  intros Hc Hd Ho Hxs Hvalid. destruct (checkOp_spec _ _ _ _ Hc) as (xs' & ts & Hxs' & _ & Hx & _ & Hrule & Hres).
  assert (xs' = xs) as -> by congruence. split; [by apply Forall_forall|]. intros Hcode. unfold codeRuleOk in Hrule.
  rewrite Hcode in Hrule. apply andb_true_iff in Hrule as [Hl _]. unfold shouldDefine in Hres. rewrite Hcode in Hres.
  destruct (checkDefinition_value f b opId o Hd Ho Hres) as (vi & Hvi & _ & Hvt). pose proof (Hvalid _ _ Hvi) as Hv.
  split; [destruct xs as [|x [|y xs]]; try done; by exists x|]. split; [done|]. exists vi. by rewrite <-Hvt.
Qed.

Section Load.
Context {B X : Type} `{BackendLaws B}.
Context (level : Maturity) (f : Function) (b : N) (blk : Block) (Hb : blockAtId f b = Some blk) (Hfwd : forwardable level f blk).

Lemma forward_loadable : loadable f b (blockOps blk).
Proof using Hb Hfwd.
  destruct Hfwd as [[Hv _ _ _ _ _ Hvalid _] _ _ Honce _ _]. destruct (verified_ops level f Hv b blk Hb) as [Hops _].
  split; [done|intros id; by apply (verified_definitions level f Hv b blk)|]. intros id o xs Hid Ho Hxs.
  destruct (checkOps_elem _ _ _ _ _ id Hops Hid) as (o' & Ho' & Hc). assert (o' = o) as -> by congruence.
  apply (load_shape_verified f level b id); try done. by apply (verified_definitions level f Hv b blk).
Qed.

Lemma forward_returns :
  exists q h f', loadOps (blockOps blk) (MkLoads emptySubst ∅ [] false) f = Some (q, h) /\ pool_ok h /\
    frame (blockOps blk) f h /\ removeOps b (loadRemovable q) h = Some (tt, f').
Proof using Hb Hfwd.
  destruct Hfwd as [Hexec Hentry _ Honce Hfew Hroom]. pose proof Hexec as [Hv Hbelow Hpool _ _ _ _ _].
  destruct (verified_ops level f Hv b blk Hb) as [Hops _].
  destruct (loadOps_total f Hpool Hfew b level (blockOps blk) [] false ∅ f (MkLoads emptySubst ∅ [] false) forward_loadable Hops
    (verified_uses level f Hv b blk Hbelow Hb) (stage_start f Hpool noEnv nowhere _ Hentry)) as (q & h & Hload & Hph & Hfr).
  { intros k [x Hx]. cbn in Hx. by rewrite lookup_empty in Hx. }
  { unfold room, budget, demand. cbn. rewrite map_size_empty. lia. }
  destruct (loadOps_removable _ _ _ _ _ Hload) as (rest & Hrm & Hsub & Hall). cbn in Hrm.
  assert (blockAtId h b = Some blk) as Hbh by (unfold blockAtId; rewrite (frame_blocks _ _ _ Hfr); exact Hb).
  destruct (removeOps_total b (loadRemovable q) h blk Hbh Honce) as [f' Hf']; [rewrite Hrm; by eapply sublist_NoDup| |by exists q, h, f'].
  rewrite Hrm. intros id Hid. rewrite Forall_forall in Hall. destruct (Hall id Hid) as (o' & Ho' & Hc'). split; [by eapply elem_of_sublist|].
  exists o'. split; [done|]. split; [by rewrite Hc'|]. intros Hres. assert (id ∈ blockOps blk) as Hin by (by eapply elem_of_sublist).
  destruct (checkOps_elem _ _ _ _ _ id Hops Hin) as (o & Ho & _). destruct (frame_same _ _ _ Hfr id o Ho) as (o2 & Ho2 & _ & _ & _ & _ & Hr & _).
  assert (o2 = o') as -> by congruence. rewrite Hr in *.
  destruct (checkDefinition_value f b id o (verified_definitions level f Hv b blk id Hb Hin) Ho Hres) as (vi & Hvi & _).
  rewrite (frame_values _ _ _ Hfr). apply vget_Some in Hvi as [Hvi _]. by eapply lookup_lt_Some.
Qed.

(** C14 Forwarding of loads preserves execution. The function is [executable] (it
    verifies below SSA with a well-formed pool, without remainders, bitcasts, floats
    of widths other than 32 or at least 64, or nodes C++ can leave undefined), no
    expression reads an entry register, flag registers have no views, the block lists
    an operation once, and handles for the values, twice the pool and the block's
    operations remain. Then [forwardRedundantLoads] returns; and if the operand pool
    stays below 2^32 and expressions at most 257 deep, then with no interrupt or
    operation hook (an operation hook would miss the removed loads), an intrinsic hook
    that returns values of the type asked for, and an [enterable] machine (lawful
    memory, registers holding values of their types), every run of the block that does
    not end in an error ends, after it, with the same outcome, memory, registers and
    state of the intrinsic hook. *)
Theorem forwardRedundantLoads_preserves_runs :
  exists changed f', forwardRedundantLoads b f = Some (changed, f') /\
    (addressable f' -> shallow f' ->
     forall (hooks : Hooks X) (m m1 : Machine B) st r st1, plainHooks hooks -> typed_hooks hooks -> enterable f m ->
       runBlock f hooks b m st = Some (r, m1, st1) -> stop r <> ExecStop.Error ->
       exists m1', runBlock f' hooks b m st = Some (r, m1', st1) /\ memory m1' = memory m1 /\ cells m1' = cells m1).
Proof using Type*.
  destruct forward_returns as (q & h & f' & Hload & Hpoolh & Hfr & Hf'). exists (loadChanged q), f'. split.
  { unfold forwardRedundantLoads. apply M_bind_Some. exists blk, f. split; [unfold gets; by rewrite Hb|].
    apply M_bind_Some. exists q, h. split; [done|]. apply M_bind_Some. by exists tt, f'. }
  intros Haddr Hshallow hooks m m1 st r st1 Hplain Htyped Hm Hrun Hq.
  destruct Hfwd as [Hexec Hentry Hflags Honce Hfew _]. pose proof Hexec as [Hv Hbelow Hpool _ _ _ _ _].
  assert (blockAtId h b = Some blk) as Hbh by (unfold blockAtId; rewrite (frame_blocks _ _ _ Hfr); exact Hb).
  pose proof (removeOps_removed b _ h f' blk Hbh Honce Hf') as Hremoved.
  destruct (removed_block _ _ _ _ Hremoved blk Hbh) as (blk' & Hb' & Hend & Hops').
  assert (addressable h) as Haddrh by (unfold addressable in *; by rewrite <-(removed_operands _ _ _ _ Hremoved)).
  unfold runBlock in *. rewrite Hb in Hrun. rewrite Hb'. cbn [mbind option_bind] in *. rewrite Hend, Hops'.
  assert (freshSlots f' m = freshSlots f m) as ->.
  { unfold freshSlots, valueCount. by rewrite (similar_values _ _ (removed_similar _ _ _ _ Hremoved)), (frame_values _ _ _ Hfr). }
  destruct (verified_ops level f Hv b blk Hb) as [Hops _].
  apply (runOps_forwarded f h f' b (loadRemovable q) hooks Hplain Htyped level Hexec Hentry Hflags Hfew (blockOps blk) Hfr Hpoolh Haddrh
    Hremoved Hshallow Hbelow (endVa blk) (blockOps blk) [] false (MkLoads emptySubst ∅ [] false) f ∅ (freshSlots f m) (freshSlots f m) st q);
    try done.
  - apply forward_loadable.
  - exact (verified_uses level f Hv b blk Hbelow Hb).
  - by apply freshSlots_ok.
  - intros id o _ _ _. unfold freshSlots. intros Hd. destruct (_ =? _)%nat; cbn in Hd;
      by apply list_elem_of_lookup_2, list_elem_of_In, repeat_spec in Hd.
  - by apply stage_start.
Qed.
End Load.
