(* ===== verification/Denote.v ===== *)
(** * Denotations

    The strict value of an expression as a function, so that two expressions are
    compared by rewriting: [den f env id] is the value of a handle, and the
    equations of this file give the value of an integer node of at most 64 bits
    from its operands'. *)
From S2P Require Import Prelude Bits U128 Types Exprs Registers Func.
From S2P Require Import Eval VerifyExpr ValueTypes EvalProps Rewrite Fold FoldProps.

Definition okOnly {A} (r : Res A) : option A := match r with Ok x => Some x | _ => None end.

Section Sem.
Context (f : Function) (env : Env).

(** One node, given the values of handles. *)
Definition semNode (rec : N -> option ConcreteValue) (e : Expr) : option ConcreteValue :=
  if tooWide (type e) then None
  else
    ts ← mapM (typeAt f) (operands e);
    args ← mapM rec (operands e);
    if strictNode e args then okOnly (evalNode env e ts args) else None.

Fixpoint semRec (fuel : nat) (id : N) : option ConcreteValue :=
  match fuel with
  | O => None
  | S fuel => e ← exprAt f id; semNode (semRec fuel) e
  end.

Definition sem (id : N) : option ConcreteValue := semRec (S (N.to_nat id)) id.
Definition semE (e : Expr) : option ConcreteValue := semNode sem e.

Definition den (id : N) : option Z := lo <$> sem id.
Definition denE (e : Expr) : option Z := lo <$> semE e.

Lemma semNode_Some rec e v : semNode rec e = Some v <->
  exists ts args, tooWide (type e) = false /\ mapM (typeAt f) (operands e) = Some ts /\
    Forall2 (fun x a => rec x = Some a) (operands e) args /\ strictNode e args = true /\ evalNode env e ts args = Ok v.
Proof.
  unfold semNode. destruct (tooWide (type e)); [split; [done|by intros (? & ? & ? & _)]|].
  rewrite bind_Some. split.
  - intros (ts & Hts & H). apply bind_Some in H as (args & Hargs & H). destruct (strictNode e args) eqn:Hs; [|done].
    exists ts, args. split_and!; [done|done|by apply mapM_Some|done|]. by destruct (evalNode env e ts args); simplify_eq/=.
  - intros (ts & args & _ & Hts & Hargs & Hs & Hv). exists ts. split; [done|]. apply bind_Some. exists args.
    split; [by apply mapM_Some|]. by rewrite Hs, Hv.
Qed.

Lemma semRec_Strict fuel id v : semRec fuel id = Some v -> Strict f env id v.
Proof.
  revert id v. induction fuel as [|fuel IH]; intros id v; [done|]. cbn [semRec]. intros (e & He & H)%bind_Some.
  apply semNode_Some in H as (ts & args & Hw & Hts & Hargs & Hs & Hv).
  apply (Eval_node _ _ _ id e ts args v); try done. eapply Forall2_impl; [exact Hargs|]. intros. by apply IH.
Qed.

Context (Hpool : pool_ok f).

Lemma operand_precedes id e x : exprAt f id = Some e -> x ∈ operands e -> (x < id)%N.
Proof using Hpool.
  intros He Hx. pose proof (pool_ok_verifies f Hpool id e He) as Hv. unfold exprVerifies in Hv.
  rewrite !andb_true_iff in Hv. destruct Hv as [[_ Hops] _]. rewrite forallb_forall in Hops.
  by apply list_elem_of_In, Hops, andb_true_iff in Hx as [_ ?%N.ltb_lt].
Qed.

Lemma Strict_semRec id v : Strict f env id v -> forall fuel, (N.to_nat id < fuel)%nat -> semRec fuel id = Some v.
Proof using Hpool.
  induction 1 as [id e ts args v He Hw Ht _ IH Hd Hv] using Eval_ind'. intros [|fuel] Hf; [lia|].
  cbn [semRec]. rewrite He. cbn. apply semNode_Some. exists ts, args. split_and!; try done.
  assert (Forall (fun x => (N.to_nat x < fuel)%nat) (operands e)) as Hlt.
  { apply Forall_forall. intros x Hx. pose proof (operand_precedes id e x He Hx). lia. }
  clear -IH Hlt. induction IH as [|x a xs as_ Hx _ IHl]; inversion Hlt; subst; constructor; auto.
Qed.

Lemma sem_Strict id v : sem id = Some v <-> Strict f env id v.
Proof using Hpool. split; [apply semRec_Strict|]. intros H. apply Strict_semRec; [done|lia]. Qed.

Lemma sem_expr id e : exprAt f id = Some e -> sem id = semE e.
Proof using Hpool.
  intros He. apply option_eq. intros v. rewrite sem_Strict. unfold semE. rewrite semNode_Some. split.
  - intros H. destruct (Eval_inv _ _ _ _ _ _ H He) as (ts & args & Hw & Hts & Hargs & Hd & Hv).
    exists ts, args. split_and!; try done. eapply Forall2_impl; [exact Hargs|]. intros x a. apply sem_Strict.
  - intros (ts & args & Hw & Hts & Hargs & Hs & Hv). apply (Eval_node _ _ _ id e ts args v); try done.
    eapply Forall2_impl; [exact Hargs|]. intros x a. apply sem_Strict.
Qed.

Lemma den_expr id e : exprAt f id = Some e -> den id = denE e.
Proof using Hpool. intros He. unfold den, denE. by rewrite (sem_expr id e). Qed.

(** ** Integers of at most 64 bits *)

Context (Henv : env_ok f env).

Lemma sem_val_ok id v : sem id = Some v -> exists e, exprAt f id = Some e /\ val_ok (type e) v /\ valid (type e) = true /\ tooWide (type e) = false.
Proof using Hpool Henv. intros H%sem_Strict. by eapply Eval_val_ok; [|apply counted_strict|..]. Qed.

Lemma sem_int id w v : 1 <= w <= 64 -> typeAt f id = Some (integer w) -> sem id = Some v -> v = MkU128 (lo v) 0 /\ fits w (lo v).
Proof using Hpool Henv.
  intros Hw Ht H. destruct (sem_val_ok id v H) as (e & He & Hv & _).
  apply typeAt_Some in Ht as (e' & He' & Ht). simplify_eq. rewrite Ht in Hv.
  pose proof (integer_facts w Hw) as (_ & Hb & Hf & _). apply val_ok_int in Hv; [|done]. rewrite Hb in Hv.
  destruct (canon_narrow v w ltac:(lia) Hv) as [Hh Hu]. destruct Hv as [_ Hfit]. rewrite Hu in Hfit.
  split; [|done]. destruct v as [l h]. cbn in *. by subst h.
Qed.

Lemma den_fits id w z : 1 <= w <= 64 -> typeAt f id = Some (integer w) -> den id = Some z -> fits w z.
Proof using Hpool Henv. intros Hw Ht (v & Hv & ->)%fmap_Some. by eapply sem_int. Qed.

Lemma sem_den id w : 1 <= w <= 64 -> typeAt f id = Some (integer w) -> sem id = (fun z => MkU128 z 0) <$> den id.
Proof using Hpool Henv.
  intros Hw Ht. unfold den. destruct (sem id) as [v|] eqn:Hv; [|done]. cbn. f_equal. by eapply sem_int.
Qed.

(** Values of typed expressions that are not in the pool. *)
Lemma semE_val_ok e v : exprTyped f e -> semE e = Some v -> val_ok (type e) v.
Proof using Hpool Henv.
  intros ([Hmin Hmax] & Hvalid & ts' & Hts' & Hr & Ho) H. apply semNode_Some in H as (ts & args & Hw & Hts & Hargs & Hs & Hv).
  rewrite Hts in Hts'. injection Hts' as <-. assert (floatSized e = true) as Hfs by (revert Hs; unfold strictNode, floatSized; by destruct (op e)).
  eapply (evalNode_typed f env e ts args); try done.
  - apply mapM_Some in Hts. clear -Hpool Henv Hts Hargs. unfold args_ok. revert ts Hts.
    induction Hargs as [|x a xs as_ Hx _ IH]; intros ts Hts; inversion Hts as [|? t ? ts' Ht Hts']; subst; constructor; [|by apply IH].
    destruct (sem_val_ok x a Hx) as (e1 & He1 & ? & ? & ?). apply typeAt_Some in Ht as (e2 & He2 & <-). by simplify_eq.
  - apply mapM_Some in Hts. symmetry. by apply Forall2_length in Hts.
Qed.

Lemma semE_den e w : exprTyped f e -> 1 <= w <= 64 -> type e = integer w -> semE e = (fun z => MkU128 z 0) <$> denE e.
Proof using Hpool Henv.
  intros Ht Hw Hty. unfold denE. destruct (semE e) as [v|] eqn:Hv; [|done]. cbn. f_equal.
  apply semE_val_ok in Hv; [|done]. rewrite Hty in Hv. pose proof (integer_facts w Hw) as (_ & Hb & Hf & _).
  apply val_ok_int in Hv; [|done]. rewrite Hb in Hv. destruct (canon_narrow v w ltac:(lia) Hv) as [Hh Hu].
  destruct v as [l h]. cbn in *. by subst h.
Qed.

(** Standing for an expression by its denotation. *)
Lemma den_simulates e r w : exprTyped f e -> 1 <= w <= 64 -> type e = integer w -> typeAt f r = Some (integer w) ->
  (forall z, denE e = Some z -> den r = Some z) -> forall v, semE e = Some v -> sem r = Some v.
Proof using Hpool Henv.
  intros He Hw Hty Hr H v. rewrite (semE_den e w), (sem_den r w) by done.
  intros (z & Hz & ->)%fmap_Some. by rewrite (H z Hz).
Qed.
End Sem.

(** ** Operands of typed expressions *)

Lemma typed_operand f e i x : exprTyped f e -> operands e !! i = Some x -> exists t, typeAt f x = Some t.
Proof.
  intros (_ & _ & ts & Hts & _) Hx. apply mapM_Some in Hts.
  destruct (Forall2_lookup_l _ _ _ _ _ Hts Hx) as (t & _ & Ht). by exists t.
Qed.

Lemma typed_same f e i x :
  exprTyped f e -> infoResult (info (op e)) = ResultRule.SameAsOperands -> operands e !! i = Some x -> typeAt f x = Some (type e).
Proof.
  intros (_ & _ & ts & Hts & Hr & _) Hi Hx. apply mapM_Some in Hts.
  destruct (Forall2_lookup_l _ _ _ _ _ Hts Hx) as (t & Htt & Ht). rewrite Ht. f_equal. by eapply same_operands_at.
Qed.

(** Exactly two operands, or one. *)
Definition isBinary (o : ExprOp) : bool := (minArity (info o) =? 2)%nat && (maxArity (info o) =? 2)%nat.
Definition isUnary (o : ExprOp) : bool := (minArity (info o) =? 1)%nat && (maxArity (info o) =? 1)%nat.

Lemma binary_operands f e : exprTyped f e -> isBinary (op e) = true -> operands e = [operand e 0; operand e 1].
Proof.
  intros [[Hmin Hmax] _] [H1%Nat.eqb_eq H2%Nat.eqb_eq]%andb_true_iff. unfold operandCount, operand in *.
  destruct (operands e) as [|x [|y [|z xs]]]; cbn in *; try lia. done.
Qed.

Lemma unary_operands f e : exprTyped f e -> isUnary (op e) = true -> operands e = [operand e 0].
Proof.
  intros [[Hmin Hmax] _] [H1%Nat.eqb_eq H2%Nat.eqb_eq]%andb_true_iff. unfold operandCount, operand in *.
  destruct (operands e) as [|x [|y xs]]; cbn in *; try lia. done.
Qed.

Lemma binary_types f e : exprTyped f e -> isBinary (op e) = true -> infoResult (info (op e)) = ResultRule.SameAsOperands ->
  typeAt f (operand e 0) = Some (type e) /\ typeAt f (operand e 1) = Some (type e).
Proof.
  intros Ht Hb Hi. pose proof (binary_operands f e Ht Hb) as Ho.
  split; [apply (typed_same f e 0)|apply (typed_same f e 1)]; try done; by rewrite Ho.
Qed.

Lemma unary_type f e : exprTyped f e -> isUnary (op e) = true -> infoResult (info (op e)) = ResultRule.SameAsOperands ->
  typeAt f (operand e 0) = Some (type e).
Proof. intros Ht Hu Hi. apply (typed_same f e 0); try done. by rewrite (unary_operands f e). Qed.

(** A comparison is boolean and compares values of one type. *)
Lemma compare_types f e : exprTyped f e -> isBinary (op e) = true -> infoResult (info (op e)) = ResultRule.Boolean ->
  isBoolean (type e) = true /\ exists t, typeAt f (operand e 0) = Some t /\ typeAt f (operand e 1) = Some t.
Proof.
  intros Ht Hb Hi. pose proof (binary_operands f e Ht Hb) as Ho. destruct Ht as (_ & _ & ts & Hts & Hr & _).
  unfold resultRuleOk in Hr. rewrite Hi in Hr. apply andb_true_iff in Hr as [Hbool Hr]. split; [done|].
  unfold operandCount in Hr. rewrite Ho in Hr, Hts. cbn [length Nat.eqb] in Hr.
  cbn in Hts. destruct (typeAt f (operand e 0)) as [t|]; [|done]. destruct (typeAt f (operand e 1)) as [t'|]; [|done].
  cbn in Hts. injection Hts as <-. unfold opType0, opType1 in Hr. cbn in Hr. rewrite typeEq_spec in Hr. apply bool_decide_eq_true in Hr as <-.
  by exists t.
Qed.

Lemma boolean_type t : valid t = true -> isBoolean t = true -> t = integer 1.
Proof.
  unfold valid, isBoolean. destruct t as [b k l]. cbn. intros Hv [Hk%bool_decide_eq_true Hb%Z.eqb_eq]%andb_true_iff. subst.
  apply andb_true_iff in Hv as [_ Hl%Z.eqb_eq]. by subst.
Qed.

Lemma scalar_type t : valid t = true -> isScalarInteger t = true -> t = integer (bits t) /\ 1 <= bits t <= 64.
Proof.
  unfold valid, isScalarInteger, bits. destruct t as [b k l]. cbn. rewrite !andb_true_iff. intros Hv [[Hk%bool_decide_eq_true H1%Z.ltb_lt] H2%Z.leb_le]. subst.
  rewrite !andb_true_iff in Hv. destruct Hv as [_ Hl%Z.eqb_eq]. subst. rewrite Z.mul_1_r. split; [|lia].
  unfold integer. f_equal. unfold u16. symmetry. apply Z.mod_small. lia.
Qed.

(** ** Values of the integer operations *)

(** The two-operand operations of [plainBinary] and those algebra adds. *)
Definition intBinary (o : ExprOp) : bool :=
  match o with
  | ExprOp.Mul | ExprOp.Xor | ExprOp.Shl | ExprOp.ShrU | ExprOp.ShrS | ExprOp.RotR | ExprOp.RotL => true
  | _ => plainBinary o
  end.

Definition binWidth (o : ExprOp) (w : Z) : Z :=
  match o with
  | ExprOp.Mul | ExprOp.Xor | ExprOp.Shl | ExprOp.ShrU | ExprOp.ShrS | ExprOp.RotR | ExprOp.RotL => w
  | _ => plainWidth o w
  end.

Definition binValue (o : ExprOp) (w x y : Z) : Z :=
  match o with
  | ExprOp.Mul => (x * y) mod 2 ^ w
  | ExprOp.Xor => Z.lxor x y
  | ExprOp.Shl => Z.shiftl x (u32 y) mod 2 ^ w
  | ExprOp.ShrU => Z.shiftr x (u32 y)
  | ExprOp.ShrS => Z.shiftr (signed w x) (u32 y) mod 2 ^ w
  | ExprOp.RotR => uval (rotR (MkU128 x 0) w (u32 y))
  | ExprOp.RotL => uval (rotL (MkU128 x 0) w (u32 y))
  | _ => plainValue o w x y
  end.

Lemma narrow_word w v : 0 <= w <= 64 -> canon w v -> v = MkU128 (uval v) 0.
Proof. intros Hw Hc. destruct (canon_narrow v w Hw Hc) as [Hh Hu]. rewrite Hu. destruct v as [l h]. cbn in *. by subst h. Qed.

Lemma evalOp_int o w x y xs imm :
  intBinary o = true -> 1 <= w <= 64 -> fits w x -> fits w y ->
  evalOp (MkExpr o (integer (binWidth o w)) xs imm) [integer w; integer w] [MkU128 x 0; MkU128 y 0] = Ok (MkU128 (binValue o w x y) 0).
Proof.
  intros Ho Hw Hx Hy. pose proof (integer_facts w Hw) as (_ & Hb & _).
  pose proof (narrow_canon w x Hw Hx) as Hcx. pose proof (narrow_canon w y Hw Hy) as Hcy.
  assert (0 <= u32 y) as Hu by (apply Z.mod_pos_bound; lia).
  assert (forall v z, canon w v -> uval v = z -> v = MkU128 z 0) as Hval by (intros v z Hc <-; by apply (narrow_word w); [lia|]).
  destruct (plainBinary o) eqn:Hp.
  - transitivity (evalOp (MkExpr o (integer (plainWidth o w)) xs 0) [integer w; integer w] [MkU128 x 0; MkU128 y 0]); [by destruct o|].
    rewrite evalOp_plain by done. by destruct o.
  - pose proof (proj1 Hcx) as Hwx. pose proof (proj1 Hcy) as Hwy.
    destruct o; try done; unfold evalOp, argAt, binWidth, binValue, guardWidth; cbn [op type]; rewrite ?Hb;
      try (replace (w =? 0) with false by lia); cbn [lookup list_lookup default from_option id lo hi]; apply (f_equal Ok), Hval; try done.
    + unfold mulLow. destruct (mul64x64 _ _) as [h l] eqn:Hm. apply canon_mask; [lia|].
      pose proof (mul64x64_spec x y (proj1 Hwx) (proj1 Hwy)) as Hs. cbn in Hm. rewrite Hm in Hs. split; [apply Hs|apply fits_u64].
    + by rewrite uval_mulLow, !uval_narrow by (lia || done).
    + apply canon_mask; [lia|]. by apply wf_xor128.
    + rewrite mask_canon; [by unfold xor128; cbn; rewrite uval_narrow|lia|]. apply narrow_canon; [done|]. by apply fits_lxor; [lia|..].
    + by apply canon_shl; [lia|..].
    + by rewrite uval_shl, uval_narrow by (lia || done).
    + by apply canon_shrU; [lia..|].
    + by rewrite uval_shrU, uval_narrow by (lia || done).
    + by apply canon_shrS; [lia..|].
    + by rewrite uval_shrS, uval_narrow by (lia || done).
    + by apply canon_rotR; [lia..|].
    + by apply canon_rotL; [lia..|].
Qed.

Definition intUnary (o : ExprOp) : bool := match o with ExprOp.Neg | ExprOp.Not => true | _ => false end.
Definition unValue (o : ExprOp) (w x : Z) : Z := match o with ExprOp.Neg => (- x) mod 2 ^ w | _ => (-1 - x) mod 2 ^ w end.

Lemma lxor_ones_sub w x : 0 <= w -> fits w x -> Z.lxor x (2 ^ w - 1) = (-1 - x) mod 2 ^ w.
Proof.
  intros Hw Hx. replace (-1 - x) with (2 ^ w - 1 - x + (-1) * 2 ^ w) by lia. rewrite Z.mod_add by lia.
  rewrite Z.mod_small by (unfold fits in Hx; lia). revert Hw Hx.
  intros Hw Hx. rewrite <-(Z.sub_add 1 (2 ^ w)) at 1. replace (2 ^ w - 1 + 1 - 1) with (Z.ones w) by (rewrite Z.ones_equiv; lia).
  replace (2 ^ w - 1 - x) with (Z.ones w - x) by (rewrite Z.ones_equiv; lia).
  rewrite Z.sub_nocarry_ldiff; bitblast.
Qed.

Lemma evalOp_unary o w x xs imm :
  intUnary o = true -> 1 <= w <= 64 -> fits w x ->
  evalOp (MkExpr o (integer w) xs imm) [integer w] [MkU128 x 0] = Ok (MkU128 (unValue o w x) 0).
Proof.
  intros Ho Hw Hx. pose proof (integer_facts w Hw) as (_ & Hb & _). pose proof (narrow_canon w x Hw Hx) as Hcx.
  assert (forall v z, canon w v -> uval v = z -> v = MkU128 z 0) as Hval by (intros v z Hc <-; by apply (narrow_word w); [lia|]).
  destruct o; try done; unfold evalOp, argAt, unValue; cbn [op type]; rewrite Hb; cbn [lookup list_lookup default from_option id lo hi]; apply (f_equal Ok), Hval.
  - apply canon_sub. lia.
  - rewrite uval_sub, uval_narrow by (apply wf_zero || lia || apply Hcx). done.
  - by apply canon_not; [lia|].
  - rewrite uval_xor128, uval_narrow, uval_maskOf by (lia || apply Hcx || (apply wf_maskOf; lia)). apply lxor_ones_sub; [lia|done].
Qed.

(** ** Equations *)

Section Equations.
Context (f : Function) (env : Env) (Hpool : pool_ok f) (Henv : env_ok f env).

Lemma denE_binary e w :
  exprTyped f e -> intBinary (op e) = true -> 1 <= w <= 64 -> typeAt f (operand e 0) = Some (integer w) ->
  denE f env e = (a ← den f env (operand e 0); b ← den f env (operand e 1); Some (binValue (op e) w a b)).
Proof using Type*.
  intros Ht Ho Hw Hx. assert (isBinary (op e) = true) as Hb by (by destruct (op e)).
  pose proof (binary_operands f e Ht Hb) as Hops. pose proof (integer_facts w Hw) as (_ & _ & _ & Htw).
  assert (typeAt f (operand e 1) = Some (integer w) /\ type e = integer (binWidth (op e) w)) as [Hy Hty].
  { destruct (infoResult (info (op e))) eqn:Hi; try (by destruct (op e)).
    - destruct (binary_types f e Ht Hb Hi) as [Hx' Hy]. rewrite Hx in Hx'. injection Hx' as Hte. rewrite Hy, <-Hte. split; [done|]. by destruct (op e).
    - destruct (compare_types f e Ht Hb Hi) as (Hbool & t & Hx' & Hy). rewrite Hx in Hx'. injection Hx' as <-. split; [done|].
      destruct Ht as (_ & Hv & _). rewrite (boolean_type _ Hv Hbool). by destruct (op e). }
  assert (tooWide (type e) = false) as Hte.
  { rewrite Hty. assert (1 <= binWidth (op e) w <= 64) as Hbw by (destruct (op e); try done; cbn; lia). by apply integer_facts. }
  unfold denE, semE, semNode. rewrite Hte, Hops. cbn [mapM mbind option_bind option_fmap]. rewrite Hx, Hy. cbn [mbind option_bind mret option_ret].
  rewrite (sem_den f env Hpool Henv _ w Hw Hx), (sem_den f env Hpool Henv _ w Hw Hy).
  destruct (den f env (operand e 0)) as [a|] eqn:Ha; [|done]. destruct (den f env (operand e 1)) as [b|] eqn:Hb'; [|done].
  cbn [fmap option_fmap option_map mbind option_bind mret option_ret].
  assert (strictNode e [MkU128 a 0; MkU128 b 0] = true) as -> by (unfold strictNode, floatSized; by destruct (op e)).
  assert (evalNode env e [integer w; integer w] [MkU128 a 0; MkU128 b 0] = Ok (MkU128 (binValue (op e) w a b) 0)) as ->; [|done].
  transitivity (evalOp (MkExpr (op e) (integer (binWidth (op e) w)) (operands e) (immediate e)) [integer w; integer w] [MkU128 a 0; MkU128 b 0]).
  - rewrite <-Hty. unfold evalNode. by destruct e as [o ? ? ?], o.
  - apply evalOp_int; [done..|exact (den_fits f env Hpool Henv _ w a Hw Hx Ha)|exact (den_fits f env Hpool Henv _ w b Hw Hy Hb')].
Qed.

Lemma denE_unary e w :
  exprTyped f e -> intUnary (op e) = true -> 1 <= w <= 64 -> type e = integer w ->
  denE f env e = (a ← den f env (operand e 0); Some (unValue (op e) w a)).
Proof using Type*.
  intros Ht Ho Hw Hty. assert (isUnary (op e) = true) as Hu by (by destruct (op e)).
  pose proof (unary_operands f e Ht Hu) as Hops. pose proof (integer_facts w Hw) as (_ & _ & _ & Htw).
  assert (typeAt f (operand e 0) = Some (integer w)) as Hx by (rewrite <-Hty; apply unary_type; by destruct (op e)).
  unfold denE, semE, semNode. rewrite Hty, Htw, Hops. cbn [mapM mbind option_bind option_fmap]. rewrite Hx. cbn [mbind option_bind mret option_ret].
  rewrite (sem_den f env Hpool Henv _ w Hw Hx). destruct (den f env (operand e 0)) as [a|] eqn:Ha; [|done].
  cbn [fmap option_fmap option_map mbind option_bind mret option_ret].
  assert (strictNode e [MkU128 a 0] = true) as -> by (unfold strictNode, floatSized; by destruct (op e)).
  assert (evalNode env e [integer w] [MkU128 a 0] = Ok (MkU128 (unValue (op e) w a) 0)) as ->; [|done].
  transitivity (evalOp (MkExpr (op e) (integer w) (operands e) (immediate e)) [integer w] [MkU128 a 0]).
  - rewrite <-Hty. unfold evalNode. by destruct e as [o ? ? ?], o.
  - apply evalOp_unary; [done..|exact (den_fits f env Hpool Henv _ w a Hw Hx Ha)].
Qed.

(** A constant of at most 64 bits whose immediate is in range. *)
Lemma denE_const e w :
  exprTyped f e -> op e = ExprOp.Const -> 1 <= w <= 64 -> type e = integer w -> fits 64 (immediate e) ->
  denE f env e = Some (immediate e) /\ fits w (immediate e).
Proof using Type*.
  intros ([Hmin Hmax] & _ & ts & Hts & _ & Hr) Ho Hw Hty Hi. pose proof (integer_facts w Hw) as (_ & Hb & _ & Htw).
  assert (operands e = []) as Hops.
  { unfold operandCount in Hmax. rewrite Ho in Hmax. cbn in Hmax. by destruct (operands e); [|cbn in Hmax; lia]. }
  assert (fits w (immediate e)) as Hfit.
  { unfold opRuleOk in Hr. rewrite Ho, Hty, Hb in Hr. destruct (Z.eq_dec w 64) as [->|Hne]; [done|].
    assert (isScalarInteger (integer w) = true) as Hs.
    { unfold isScalarInteger, integer. cbn. unfold u16. rewrite Z.mod_small by lia. by replace (0 <? w) with true by lia; replace (w <=? 64) with true by lia. }
    rewrite Hs in Hr. replace (w <? 64) with true in Hr by lia. cbn in Hr. rewrite negb_involutive in Hr. apply Z.eqb_eq in Hr.
    rewrite Hr. rewrite zeroExtend_mod_le by lia. by apply fits_mod; lia. }
  split; [|done]. unfold denE, semE, semNode. rewrite Hty, Htw, Hops. cbn [mapM mbind option_bind mret option_ret].
  assert (strictNode e [] = true) as -> by (unfold strictNode, floatSized; by rewrite Ho). unfold evalNode. rewrite Ho, Hty, Hb. cbn [okOnly].
  rewrite mask_canon by (lia || by apply narrow_canon). done.
Qed.

(** One operand, an integer of [v] bits. *)
Lemma denE_cast e v w :
  exprTyped f e -> 1 <= v <= 64 -> 1 <= w <= 64 -> typeAt f (operand e 0) = Some (integer v) -> type e = integer w ->
  denE f env e =
    match op e with
    | ExprOp.ZExt => den f env (operand e 0)
    | ExprOp.SExt => a ← den f env (operand e 0); Some (signed v a mod 2 ^ w)
    | ExprOp.Trunc => a ← den f env (operand e 0); Some (a mod 2 ^ w)
    | ExprOp.Extract => a ← den f env (operand e 0); Some (Z.shiftr a (u32 (immediate e)) mod 2 ^ w)
    | _ => denE f env e
    end.
Proof using Type*.
  intros Ht Hv Hw Hx Hty. destruct (op e) eqn:Ho; try done.
  all: pose proof (unary_operands f e Ht ltac:(by rewrite Ho)) as Hops; pose proof (integer_facts w Hw) as (_ & Hb & _ & Htw);
    pose proof (integer_facts v Hv) as (_ & Hbv & _ & Htv); unfold denE, semE, semNode; rewrite Hty, Htw, Hops;
    cbn [mapM mbind option_bind option_fmap]; rewrite Hx; cbn [mbind option_bind mret option_ret];
    rewrite (sem_den f env Hpool Henv _ v Hv Hx); destruct (den f env (operand e 0)) as [a|] eqn:Ha; [|done..];
    pose proof (den_fits f env Hpool Henv _ v a Hv Hx Ha) as Hfa; pose proof (narrow_canon v a Hv Hfa) as Hca;
    cbn [fmap option_fmap option_map mbind option_bind mret option_ret];
    (assert (strictNode e [MkU128 a 0] = true) as -> by (unfold strictNode, floatSized; by rewrite Ho));
    unfold evalNode, evalOp, argAt, guardWidth; rewrite Ho, Hty;
    cbn [lookup list_lookup fmap option_fmap option_map ofOption mbind Res_bind default from_option id];
    rewrite ?Hb, ?Hbv; try (replace (v =? 0) with false by lia); cbn [okOnly];
    (destruct Ht as (_ & _ & ts & Hts & _ & Hr); unfold opRuleOk in Hr; rewrite Ho in Hr; rewrite Hops in Hts; cbn in Hts; rewrite Hx in Hts;
     cbn in Hts; injection Hts as <-; unfold opType0 in Hr; cbn in Hr; rewrite Hty, ?Hb, ?Hbv in Hr).
  - by rewrite zext_canon by (lia || done).
  - apply (f_equal Some).
    rewrite <-(proj2 (canon_narrow (sext (MkU128 a 0) v w) w ltac:(lia) (canon_sext _ v w ltac:(lia) ltac:(lia) (proj1 Hca)))).
    rewrite uval_sext, uval_narrow by (lia || done). done.
  - apply (f_equal Some). rewrite <-(proj2 (canon_narrow (mask (MkU128 a 0) w) w ltac:(lia) (canon_mask _ w ltac:(lia) (proj1 Hca)))).
    by rewrite uval_mask, uval_narrow by (lia || apply Hca).
  - assert (0 <= u32 (immediate e)) as Hu by (apply Z.mod_pos_bound; lia). apply (f_equal Some).
    rewrite <-(proj2 (canon_narrow (extract (MkU128 a 0) v (u32 (immediate e)) w) w ltac:(lia)
      (canon_extract _ v _ w ltac:(lia) Hu ltac:(lia) (proj1 Hca)))).
    by rewrite uval_extract, uval_narrow by (lia || done).
Qed.
End Equations.
