(* ===== verification/AlgebraIdioms.v ===== *)
(** * The shapes algebra looks for (passes/algebra_idioms.cpp)

    Each matcher looks at a node and builds the simpler expression, or declines;
    [None] is the invalid handle [ExprId{}], and [std::nullopt]. *)
From S2P Require Import Prelude Bits Types Exprs Registers Func.

(** ** Reading the pool *)

Definition exprOf (id : N) : M Expr := gets (fun f => exprAt f id).

(** [constantOf], a [Konst] by what it denotes. *)
Definition konstOf (id : N) : M (option Z) := gets (fun f => Some (asConstant f id)).

(** [operandsOf], a [Pair]. *)
Definition pairOf (id : N) (o : ExprOp) : M (option (N * N)) :=
  e ← exprOf id;
  mret (if bool_decide (op e = o) && (operandCount e =? 2)%nat then Some (operand e 0, operand e 1) else None).

(** Go on with what was found, or decline. *)
Notation "x ←? m ; k" := (mbind (fun r => match r with Some x => k | None => mret None end) m)
  (at level 20, m at level 100, k at level 200, only parsing).

(** [for (... : xs) { ... }] whose body returns or goes on. *)
Fixpoint firstOf {A B} (body : A -> M (option B)) (xs : list A) : M (option B) :=
  match xs with
  | [] => mret None
  | x :: xs =>
      r ← body x;
      match r with Some _ => mret r | None => firstOf body xs end
  end.

(** [for (const int arm : {0, 1})]: [arm] and [arm ^ 1]. *)
Definition arms : list (nat * nat) := [(0, 1); (1, 0)]%nat.

(** The value of a shift, or the undefined behaviour of one by 64 or more. *)
Definition ofShift (k : option Z) : M Z := gets (fun _ => k).

(** An expression that was built. *)
Definition built (m : M N) : M (option N) := r ← m; mret (Some r).

(** ** Helpers *)

Definition samePair (a b x y : N) : bool := ((a =? x) && (b =? y) || (a =? y) && (b =? x))%N.

Definition doubledOperand (id : N) : M (option N) :=
  e ← exprOf id;
  let isMul := bool_decide (op e = ExprOp.Mul) in
  let isShl := bool_decide (op e = ExprOp.Shl) in
  if negb isMul && negb isShl then mret None
  else
    factor ←? konstOf (operand e 1);
    mret (if factor =? (if isMul then 2 else 1) then Some (operand e 0) else None).

Definition isBitOf (bit : Expr) (index : Z) (source : N) : bool :=
  if negb (isBoolean (type bit)) || negb (operandCount bit =? 1)%nat || negb (operand bit 0 =? source)%N then false
  else if decide (op bit = ExprOp.Extract) then immediate bit =? index
  else bool_decide (op bit = ExprOp.Trunc) && (index =? 0).

(** [~0 << amount] is a 64-bit shift, undefined at 64 and above, which a node
    wider than 64 bits allows: [None]. *)
Definition reachableBits (o : ExprOp) (width amount : Z) : option Z :=
  if width <=? amount then Some 0
  else match o with
  | ExprOp.Shl => if 64 <=? amount then None else Some (zeroExtend (shl64 (not64 0) amount) width)
  | ExprOp.ShrU => Some (lowMask (width - amount))
  | _ => Some (zeroExtend (not64 0) width)
  end.

Record CarryBound : Type := MkCarryBound { carryOther : N; carryBound : Z; carryType : Ty }.

(** One arm of the loop of [matchCarryBound]. *)
Definition matchCarryArm (cmp : Expr) (eqLhs : N) (arm : nat * nat) : M (option CarryBound) :=
  if negb (operand cmp arm.1 =? eqLhs)%N then mret None
  else
    let sumId := operand cmp arm.1 in
    let other := operand cmp arm.2 in
    sum ← exprOf sumId;
    if negb (bool_decide (op sum = ExprOp.Add)) || negb (operandCount sum =? 2)%nat || negb (operand sum 0 =? other)%N
    then mret None
    else if negb (isScalarInteger (type sum)) || (bits (type sum) =? 0) then mret None
    else
      added ←? konstOf (operand sum 1);
      if added =? 0 then mret None
      else mret (Some (MkCarryBound other (zeroExtend (sub64 0 added) (bits (type sum))) (type sum))).

Definition matchCarryBound (cmpId eqId : N) (cmpOp eqOp : ExprOp) : M (option CarryBound) :=
  cmp ← exprOf cmpId;
  if negb (bool_decide (op cmp = cmpOp)) || negb (operandCount cmp =? 2)%nat then mret None
  else
    eq ←? pairOf eqId eqOp;
    zero ←? konstOf eq.2;
    if negb (zero =? 0) then mret None else firstOf (matchCarryArm cmp eq.1) arms.

(** ** Comparisons with a carry *)

Definition matchCarryCompare (andExpr : Expr) : M (option N) :=
  firstOf (fun arm =>
    m ←? matchCarryBound (operand andExpr arm.1) (operand andExpr arm.2) ExprOp.CmpLtU ExprOp.CmpNe;
    built (c ← constant (carryType m) (carryBound m); binary ExprOp.CmpLtU c (carryOther m))) arms.

Definition matchCarryCompareOr (orExpr : Expr) : M (option N) :=
  firstOf (fun arm =>
    m ←? matchCarryBound (operand orExpr arm.1) (operand orExpr arm.2) ExprOp.CmpLeU ExprOp.CmpEq;
    built (c ← constant (carryType m) (carryBound m); binary ExprOp.CmpLeU (carryOther m) c)) arms.

(** ** Sign extension *)

Definition matchSignArm (orExpr : Expr) (arm : nat * nat) : M (option N) :=
  let width := bits (type orExpr) in
  high ← pairOf (operand orExpr arm.1) ExprOp.And;
  low ← pairOf (operand orExpr arm.2) ExprOp.And;
  match high, low with
  | Some high, Some low =>
      highBits ← konstOf high.2;
      lowBits ← konstOf low.2;
      match highBits, lowBits with
      | Some highBits, Some lowBits =>
          let fieldBits := countTrailingZeros (not64 lowBits) in
          if negb (fieldBits =? 1) && negb (fieldBits =? 8) && negb (fieldBits =? 16) && negb (fieldBits =? 32)
          then mret None
          else if (width <=? fieldBits) || negb (lowBits =? lowMask fieldBits)
                  || negb (highBits =? zeroExtend (not64 lowBits) width)
          then mret None
          else
            spread ← exprOf high.1;
            if negb (bool_decide (op spread = ExprOp.SExt)) || negb (typeEq (type spread) (type orExpr)) then mret None
            else
              bit ← exprOf (operand spread 0);
              if negb (isBitOf bit (fieldBits - 1) low.1) then mret None
              else if fieldBits =? 1
              then built (a ← binary ExprOp.And low.1 low.2; unary ExprOp.Neg a)
              else built (t ← cast ExprOp.Trunc (integer fieldBits) low.1; cast ExprOp.SExt (type orExpr) t)
      | _, _ => mret None
      end
  | _, _ => mret None
  end.

Definition matchSignExtend (orExpr : Expr) : M (option N) :=
  if negb (isScalarInteger (type orExpr)) || (bits (type orExpr) =? 0) then mret None
  else firstOf (matchSignArm orExpr) arms.

(** ** Masked rotates and shifts *)

Definition matchMaskedRotate (andExpr : Expr) : M (option N) :=
  let width := bits (type andExpr) in
  if negb (isScalarInteger (type andExpr)) || (width =? 0) then mret None
  else
    mask ←? konstOf (operand andExpr 1);
    rotate ← exprOf (operand andExpr 0);
    if negb (bool_decide (op rotate = ExprOp.RotR)) && negb (bool_decide (op rotate = ExprOp.RotL)) then mret None
    else
      amount ←? konstOf (operand rotate 1);
      if (amount =? 0) || (width <=? amount) then mret None
      else
        let right := if decide (op rotate = ExprOp.RotR) then amount else width - amount in
        let fromRight := lowMask (width - right) in
        let fromLeft := zeroExtend (not64 fromRight) width in
        let value := operand rotate 0 in
        if Z.land mask fromRight =? 0
        then built (k ← constant (type andExpr) (width - right);
                    s ← binary ExprOp.Shl value k; binary ExprOp.And s (operand andExpr 1))
        else if Z.land mask fromLeft =? 0
        then built (k ← constant (type andExpr) right;
                    s ← binary ExprOp.ShrU value k; binary ExprOp.And s (operand andExpr 1))
        else mret None.

Definition matchMaskedShift (andExpr : Expr) : M (option N) :=
  let width := bits (type andExpr) in
  if negb (isScalarInteger (type andExpr)) || (width =? 0) then mret None
  else
    mask ←? konstOf (operand andExpr 1);
    shift ← exprOf (operand andExpr 0);
    if negb (bool_decide (op shift = ExprOp.Shl)) && negb (bool_decide (op shift = ExprOp.ShrU)) then mret None
    else
      amount ←? konstOf (operand shift 1);
      if width <=? amount then mret None
      else
        reachable ← ofShift (reachableBits (op shift) width amount);
        mret (if negb (Z.land mask reachable =? reachable) then None else Some (operand andExpr 0)).

(** ** Mixed boolean and arithmetic *)

(** [a && b && samePair(a.lhs, a.rhs, b.lhs, b.rhs)]. *)
Definition pairsMatch (a b : option (N * N)) : option (N * N) :=
  match a, b with
  | Some a, Some b => if samePair a.1 a.2 b.1 b.2 then Some a else None
  | _, _ => None
  end.

Definition matchMbaAddArm (addExpr : Expr) (arm : nat * nat) : M (option N) :=
  let lhs := operand addExpr arm.1 in
  let rhs := operand addExpr arm.2 in
  xorLhs ← pairOf lhs ExprOp.Xor;
  carried ← (match xorLhs with
             | None => mret None
             | Some _ =>
                 doubled ←? doubledOperand rhs;
                 andDoubled ← pairOf doubled ExprOp.And;
                 mret (pairsMatch xorLhs andDoubled)
             end);
  match carried with
  | Some p => built (binary ExprOp.Add p.1 p.2)
  | None =>
      orPair ← pairOf lhs ExprOp.Or;
      andPair ← pairOf rhs ExprOp.And;
      xorPair ← pairOf rhs ExprOp.Xor;
      match pairsMatch orPair andPair with
      | Some p => built (binary ExprOp.Add p.1 p.2)
      | None =>
          andLhs ← pairOf lhs ExprOp.And;
          match pairsMatch andLhs xorPair with
          | Some p => built (binary ExprOp.Or p.1 p.2)
          | None => mret None
          end
      end
  end.

Definition matchMbaAdd (addExpr : Expr) : M (option N) := firstOf (matchMbaAddArm addExpr) arms.

Definition matchMbaOr (orExpr : Expr) : M (option N) :=
  firstOf (fun arm =>
    andPair ← pairOf (operand orExpr arm.1) ExprOp.And;
    xorPair ← pairOf (operand orExpr arm.2) ExprOp.Xor;
    match pairsMatch andPair xorPair with
    | Some p => built (binary ExprOp.Or p.1 p.2)
    | None => mret None
    end) arms.

Definition matchMbaXor (xorExpr : Expr) : M (option N) :=
  firstOf (fun arm =>
    orPair ← pairOf (operand xorExpr arm.1) ExprOp.Or;
    andPair ← pairOf (operand xorExpr arm.2) ExprOp.And;
    match pairsMatch orPair andPair with
    | Some p => built (binary ExprOp.Xor p.1 p.2)
    | None => mret None
    end) arms.

Definition matchMbaSub (subExpr : Expr) : M (option N) :=
  let lhs := operand subExpr 0 in
  let rhs := operand subExpr 1 in
  orPair ← pairOf lhs ExprOp.Or;
  andPair ← pairOf rhs ExprOp.And;
  match pairsMatch orPair andPair with
  | Some p => built (binary ExprOp.Xor p.1 p.2)
  | None =>
      doubled ← doubledOperand lhs;
      orDoubled ← (match doubled with Some d => pairOf d ExprOp.Or | None => mret None end);
      xorPair ← pairOf rhs ExprOp.Xor;
      match pairsMatch orDoubled xorPair with
      | Some p => built (binary ExprOp.Add p.1 p.2)
      | None => mret None
      end
  end.

Definition matchObfuscatedIncrement (subExpr : Expr) : M (option N) :=
  orPair ←? pairOf (operand subExpr 0) ExprOp.Or;
  v ← doubledOperand orPair.1;
  two ← konstOf orPair.2;
  match v, two with
  | Some v, Some two =>
      if negb (two =? 2) then mret None
      else
        xorPair ←? pairOf (operand subExpr 1) ExprOp.Xor;
        if negb (xorPair.1 =? v)%N then mret None
        else
          one ←? konstOf xorPair.2;
          if negb (one =? 1) then mret None
          else built (k ← constant (type subExpr) 1; binary ExprOp.Add v k)
  | _, _ => mret None
  end.

(** One arm of [matchEvenProduct]; [Some tt] is [true]. *)
Definition matchEvenArm (expr : Expr) (arm : nat * nat) : M (option unit) :=
  let other := operand expr arm.2 in
  factor ← exprOf (operand expr arm.1);
  consecutive ← (if bool_decide (op factor = ExprOp.Sub) || bool_decide (op factor = ExprOp.Add)
                 then one ←? konstOf (operand factor 1);
                      mret (if (one =? 1) && (operand factor 0 =? other)%N then Some tt else None)
                 else mret None);
  match consecutive with
  | Some _ => mret consecutive
  | None => mret (if bool_decide (op factor = ExprOp.Not) && (operand factor 0 =? other)%N then Some tt else None)
  end.

Definition matchEvenProduct (mulId : N) : M bool :=
  expr ← exprOf mulId;
  if negb (bool_decide (op expr = ExprOp.Mul)) then mret false
  else found ← firstOf (matchEvenArm expr) arms; mret (bool_decide (is_Some found)).

(** ** Comparisons *)

Definition matchShiftedCompare (cmpExpr : Expr) : M (option N) :=
  first ← pairOf (operand cmpExpr 0) ExprOp.Shl;
  let mirrored := match first with Some _ => false | None => true end in
  let lhs := operand cmpExpr (if mirrored then 1 else 0) in
  let rhs := operand cmpExpr (if mirrored then 0 else 1) in
  shifted ←? pairOf lhs ExprOp.Shl;
  amount ←? konstOf shifted.2;
  lhsExpr ← exprOf lhs;
  let width := bits (type lhsExpr) in
  if (amount =? 0) || (width <=? u64 amount) then mret None
  else
    let narrow := width - amount in
    if negb (narrow =? 8) && negb (narrow =? 16) && negb (narrow =? 32) then mret None
    else
      let t := integer narrow in
      k ← konstOf rhs;
      other ←? (match k with
                | Some value =>
                    if negb (Z.land value (lowMask amount) =? 0) then mret None
                    else
                      k ← ofShift (if 64 <=? amount then None else Some (shr64 value amount));
                      built (constant t k)
                | None =>
                    otherShift ←? pairOf rhs ExprOp.Shl;
                    otherAmount ←? konstOf otherShift.2;
                    if negb (otherAmount =? amount) then mret None
                    else built (cast ExprOp.Trunc t otherShift.1)
                end);
      built (narrowed ← cast ExprOp.Trunc t shifted.1;
             if mirrored then binary (op cmpExpr) other narrowed else binary (op cmpExpr) narrowed other).

(** The inner loop of [matchCancelledSubtrahend] for [subIsLhs]. *)
Definition matchCancelledSide (cmpExpr : Expr) (sumId : N) (sum sub : N * N) (subIsLhs : bool) : M (option N) :=
  let a := if subIsLhs then sum.2 else sum.1 in
  inner ←? pairOf (if subIsLhs then sum.1 else sum.2) ExprOp.Sub;
  if negb (inner.2 =? sub.2)%N then mret None
  else
    k1 ← konstOf inner.1;
    k2 ← konstOf sub.1;
    match k1, k2 with
    | Some k1, Some k2 =>
        sumExpr ← exprOf sumId;
        let width := bits (type sumExpr) in
        if width =? 0 then mret None
        else built (c ← constant (type sumExpr) (zeroExtend (sub64 k2 k1) width); binary (op cmpExpr) a c)
    | _, _ => mret None
    end.

Definition matchCancelledSubtrahend (cmpExpr : Expr) : M (option N) :=
  if negb (bool_decide (op cmpExpr = ExprOp.CmpEq)) && negb (bool_decide (op cmpExpr = ExprOp.CmpNe)) then mret None
  else firstOf (fun arm =>
    let sumId := operand cmpExpr arm.1 in
    sum ← pairOf sumId ExprOp.Add;
    sub ← pairOf (operand cmpExpr arm.2) ExprOp.Sub;
    match sum, sub with
    | Some sum, Some sub => firstOf (matchCancelledSide cmpExpr sumId sum sub) [true; false]
    | _, _ => mret None
    end) arms.
