(* ===== verification/Algebra.v ===== *)
(** * Algebraic simplification (passes/algebra.cpp)

    The local rules, the loop that applies them to a node until nothing changes,
    the walk that simplifies operands before their node, and the driver over a
    function. One memo serves a whole run. *)
From S2P Require Import Prelude Bits U128 Types Exprs Registers Func Eval Ceval Rewrite AlgebraIdioms.

(** ** [Pred] *)

Definition isConst (id : N) (value : Z) : M bool :=
  actual ← konstOf id; mret (match actual with Some a => a =? value | None => false end).

Definition isZero (id : N) : M bool := isConst id 0.

Definition isAllOnes (id : N) : M bool :=
  e ← exprOf id;
  if negb (isScalarInteger (type e)) then mret false
  else isConst id (if 64 <=? bits (type e) then not64 0 else zeroExtend (not64 0) (bits (type e))).

(** ** Rules *)

(** A list of rules, each of which may decline, and what is left. *)
Fixpoint rulesOr (rules : list (M (option N))) (last : M N) : M N :=
  match rules with
  | [] => last
  | rule :: rules =>
      r ← rule;
      match r with Some x => mret x | None => rulesOr rules last end
  end.

(** [if (condition) return x]. *)
Definition ruleIf (condition : M bool) (x : M N) : M (option N) :=
  c ← condition; if (c : bool) then built x else mret None.

Definition unchanged (expr : Expr) : M N := intern expr.

Definition normaliseCommutative (expr : Expr) : M Expr :=
  left ← exprOf (operand expr 0);
  right ← exprOf (operand expr 1);
  mret (if bool_decide (op left = ExprOp.Const) && negb (bool_decide (op right = ExprOp.Const))
        then MkExpr (op expr) (type expr) [operand expr 1; operand expr 0] (immediate expr)
        else expr).

(** [~x + 1]. *)
Definition addNotOne (x y : N) : M (option N) :=
  one ← isConst y 1;
  if (one : bool) then
    e ← exprOf x;
    if decide (op e = ExprOp.Not) then built (unary ExprOp.Neg (operand e 0)) else mret None
  else mret None.

(** A negation on either side. *)
Definition addNegated (expr : Expr) (arm : nat * nat) : M (option N) :=
  negated ← exprOf (operand expr arm.1);
  if decide (op negated = ExprOp.Neg)
  then built (binary ExprOp.Sub (operand expr arm.2) (operand negated 0))
  else mret None.

(** Folding constants into [t], in the order the builders take them. *)
Definition withRight (o : ExprOp) (x : N) (t : Ty) (value : Z) : M (option N) :=
  built (c ← constant t (zeroExtend value (bits t)); binary o x c).
Definition withLeft (o : ExprOp) (t : Ty) (value : Z) (y : N) : M (option N) :=
  built (c ← constant t (zeroExtend value (bits t)); binary o c y).

(** [(x + k1) + k] and its variants. *)
Definition addReassociate (expr : Expr) : M (option N) :=
  let x := operand expr 0 in
  k ←? konstOf (operand expr 1);
  inner ← exprOf x;
  if negb (operandCount inner =? 2)%nat then mret None
  else
    let isAdd := bool_decide (op inner = ExprOp.Add) in
    let isSub := bool_decide (op inner = ExprOp.Sub) in
    k1 ← (if isAdd || isSub then konstOf (operand inner 1) else mret None);
    match k1 with
    | Some k1 => withRight ExprOp.Add (operand inner 0) (type expr) (if isAdd then add64 k1 k else sub64 k k1)
    | None =>
        k1 ← (if isSub then konstOf (operand inner 0) else mret None);
        match k1 with
        | Some k1 => withLeft ExprOp.Sub (type expr) (add64 k1 k) (operand inner 1)
        | None => mret None
        end
    end.

Definition rewriteAdd (expr : Expr) : M N :=
  expr ← normaliseCommutative expr;
  let x := operand expr 0 in
  let y := operand expr 1 in
  rulesOr [matchMbaAdd expr; addNotOne x y; ruleIf (isZero y) (mret x); firstOf (addNegated expr) arms; addReassociate expr]
    (unchanged expr).

(** [x - (-y)]. *)
Definition subNegated (x y : N) : M (option N) :=
  e ← exprOf y;
  if decide (op e = ExprOp.Neg) then built (binary ExprOp.Add x (operand e 0)) else mret None.

(** [(x - k1) - k] and its variants. *)
Definition subReassociate (expr : Expr) : M (option N) :=
  k ←? konstOf (operand expr 1);
  inner ← exprOf (operand expr 0);
  if negb (operandCount inner =? 2)%nat then mret None
  else
    let isAdd := bool_decide (op inner = ExprOp.Add) in
    let isSub := bool_decide (op inner = ExprOp.Sub) in
    right ← (if isSub || isAdd then konstOf (operand inner 1) else mret None);
    match right with
    | Some k1 =>
        if isSub then withRight ExprOp.Sub (operand inner 0) (type expr) (add64 k1 k)
        else withRight ExprOp.Add (operand inner 0) (type expr) (sub64 k1 k)
    | None =>
        left ← (if isSub then konstOf (operand inner 0) else mret None);
        match left with
        | Some k1 => withLeft ExprOp.Sub (type expr) (sub64 k1 k) (operand inner 1)
        | None => mret None
        end
    end.

(** [k - (x - k2)] and [k - (x + k2)]. *)
Definition subMirror (expr : Expr) : M (option N) :=
  k ←? konstOf (operand expr 0);
  inner ← exprOf (operand expr 1);
  if negb (operandCount inner =? 2)%nat then mret None
  else
    let isAdd := bool_decide (op inner = ExprOp.Add) in
    let isSub := bool_decide (op inner = ExprOp.Sub) in
    right ← (if isSub || isAdd then konstOf (operand inner 1) else mret None);
    match right with
    | Some k2 => withLeft ExprOp.Sub (type expr) (if isSub then add64 k k2 else sub64 k k2) (operand inner 0)
    | None => mret None
    end.

Definition rewriteSub (expr : Expr) : M N :=
  let x := operand expr 0 in
  let y := operand expr 1 in
  rulesOr [matchMbaSub expr; matchObfuscatedIncrement expr; ruleIf (isZero y) (mret x);
           ruleIf (mret (x =? y)%N) (constant (type expr) 0); subNegated x y; ruleIf (isZero x) (unary ExprOp.Neg y);
           subReassociate expr; subMirror expr]
    (unchanged expr).

(** [(x o k1) o k2] for the product and the conjunction. *)
Definition foldNested (o : ExprOp) (expr : Expr) (value : Z -> Z -> Z) : M (option N) :=
  let x := operand expr 0 in
  k2 ←? konstOf (operand expr 1);
  inner ← exprOf x;
  if negb (bool_decide (op inner = o)) then mret None
  else
    k1 ←? konstOf (operand inner 1);
    built (c ← constant (type expr) (value k1 k2); binary o (operand inner 0) c).

Definition rewriteMul (expr : Expr) : M N :=
  expr ← normaliseCommutative expr;
  let x := operand expr 0 in
  let y := operand expr 1 in
  rulesOr [ruleIf (isZero y) (constant (type expr) 0); ruleIf (isConst y 1) (mret x);
           foldNested ExprOp.Mul expr (fun k1 k2 => zeroExtend (mul64 k1 k2) (bits (type expr)))]
    (unchanged expr).

(** A product that is provably even, masked to its lowest bit. *)
Definition andEven (expr : Expr) : M (option N) :=
  one ← isConst (operand expr 1) 1;
  if (one : bool) then
    even ← matchEvenProduct (operand expr 0);
    if (even : bool) then built (constant (type expr) 0) else mret None
  else mret None.

Definition allOnesOr (y : N) (same : bool) : M bool := all ← isAllOnes y; mret (all || same).

Definition rewriteAnd (expr : Expr) : M N :=
  expr ← normaliseCommutative expr;
  let x := operand expr 0 in
  let y := operand expr 1 in
  rulesOr [ruleIf (isZero y) (constant (type expr) 0); ruleIf (allOnesOr y (x =? y)%N) (mret x);
           foldNested ExprOp.And expr Z.land; andEven expr; matchMaskedRotate expr; matchMaskedShift expr;
           matchCarryCompare expr]
    (unchanged expr).

Definition zeroOr (y : N) (same : bool) : M bool := zero ← isZero y; mret (zero || same).

Definition rewriteOr (expr : Expr) : M N :=
  expr ← normaliseCommutative expr;
  let x := operand expr 0 in
  let y := operand expr 1 in
  rulesOr [ruleIf (zeroOr y (x =? y)%N) (mret x); ruleIf (isAllOnes y) (mret y); matchSignExtend expr;
           matchMbaOr expr; matchCarryCompareOr expr]
    (unchanged expr).

Definition rewriteXor (expr : Expr) : M N :=
  expr ← normaliseCommutative expr;
  let x := operand expr 0 in
  let y := operand expr 1 in
  rulesOr [ruleIf (isZero y) (mret x); ruleIf (mret (x =? y)%N) (constant (type expr) 0);
           ruleIf (isAllOnes y) (unary ExprOp.Not x); matchMbaXor expr]
    (unchanged expr).

Definition rewriteNot (expr : Expr) : M N :=
  inner ← exprOf (operand expr 0);
  if decide (op inner = ExprOp.Not) then mret (operand inner 0)
  else if decide (op inner = ExprOp.Neg)
  then c ← constant (type expr) 1; binary ExprOp.Sub (operand inner 0) c
  else unchanged expr.

Definition rewriteNeg (expr : Expr) : M N :=
  inner ← exprOf (operand expr 0);
  if decide (op inner = ExprOp.Neg) then mret (operand inner 0)
  else if decide (op inner = ExprOp.Not)
  then c ← constant (type expr) 1; binary ExprOp.Add (operand inner 0) c
  else unchanged expr.

Definition rewriteShift (expr : Expr) : M N :=
  zero ← isZero (operand expr 1);
  if (zero : bool) then mret (operand expr 0) else unchanged expr.

Definition rewriteSelect (expr : Expr) : M N :=
  condition ← konstOf (operand expr 0);
  match condition with
  | Some c => mret (operand expr (if negb (c =? 0) then 1 else 2))
  | None => if (operand expr 1 =? operand expr 2)%N then mret (operand expr 1) else unchanged expr
  end.

Definition conditionValue (code : option ConditionCode) (nzcv : Z) : bool :=
  let n := negb (Z.land (shr64 nzcv 3) 1 =? 0) in
  let z := negb (Z.land (shr64 nzcv 2) 1 =? 0) in
  let c := negb (Z.land (shr64 nzcv 1) 1 =? 0) in
  let v := negb (Z.land nzcv 1 =? 0) in
  match code with
  | Some ConditionCode.Equal => z
  | Some ConditionCode.NotEqual => negb z
  | Some ConditionCode.CarrySet => c
  | Some ConditionCode.CarryClear => negb c
  | Some ConditionCode.Negative => n
  | Some ConditionCode.NonNegative => negb n
  | Some ConditionCode.Overflow => v
  | Some ConditionCode.NoOverflow => negb v
  | Some ConditionCode.UnsignedGreater => c && negb z
  | Some ConditionCode.UnsignedLessEqual => negb c || z
  | Some ConditionCode.SignedGreaterEqual => Bool.eqb n v
  | Some ConditionCode.SignedLess => negb (Bool.eqb n v)
  | Some ConditionCode.SignedGreater => negb z && Bool.eqb n v
  | Some ConditionCode.SignedLessEqual => z || negb (Bool.eqb n v)
  | Some ConditionCode.Always => true
  | Some ConditionCode.Never => false
  | None => false
  end.

Definition rewriteFlagCond (expr : Expr) : M N :=
  def ← exprOf (operand expr 0);
  if decide (op def <> ExprOp.FlagDef) then unchanged expr
  else
    let code := enumAt conditionCodes (immediate expr) in
    let flagOp := flagDefOp (immediate def) in
    nzcv ← (if decide (flagOp = Some FlagOp.Const) then konstOf (operand def 0) else mret None);
    match nzcv with
    | Some nzcv => constant (type expr) (if conditionValue code nzcv then 1 else 0)
    | None =>
        if decide (flagOp = Some FlagOp.Logical) then
          match code with
          | Some ConditionCode.CarrySet | Some ConditionCode.Overflow => constant (type expr) 0
          | Some ConditionCode.CarryClear | Some ConditionCode.NoOverflow => constant (type expr) 1
          | _ => unchanged expr
          end
        else unchanged expr
    end.

Definition rewriteCompare (expr : Expr) (id : N) : M N :=
  rulesOr [matchShiftedCompare expr; matchCancelledSubtrahend expr] (mret id).

(** [trunc(zext(x))] back at the width of [x]. *)
Definition truncZext (expr source : Expr) : M (option N) :=
  if negb (bool_decide (op source = ExprOp.ZExt)) then mret None
  else
    inner ← exprOf (operand source 0);
    mret (if typeEq (type inner) (type expr) then Some (operand source 0) else None).

Definition rewriteCast (expr : Expr) (id : N) : M N :=
  source ← exprOf (operand expr 0);
  match op expr with
  | ExprOp.ZExt | ExprOp.SExt => mret (if typeEq (type source) (type expr) then operand expr 0 else id)
  | ExprOp.Trunc =>
      if typeEq (type source) (type expr) then mret (operand expr 0)
      else rulesOr [truncZext expr source] (mret id)
  | ExprOp.Extract =>
      if (immediate expr =? 0) && (bits (type expr) <? bits (type source))
      then cast ExprOp.Trunc (type expr) (operand expr 0) else mret id
  | _ => mret id
  end.

(** ** The rule loop *)

(** The switch of [rewriteOnce]. *)
Definition rewriteNode (expr : Expr) (id : N) : M N :=
  match op expr with
  | ExprOp.Add => rewriteAdd expr
  | ExprOp.Sub => rewriteSub expr
  | ExprOp.Mul => rewriteMul expr
  | ExprOp.And => rewriteAnd expr
  | ExprOp.Or => rewriteOr expr
  | ExprOp.Xor => rewriteXor expr
  | ExprOp.Not => rewriteNot expr
  | ExprOp.Neg => rewriteNeg expr
  | ExprOp.Shl | ExprOp.ShrU | ExprOp.ShrS | ExprOp.RotR | ExprOp.RotL => rewriteShift expr
  | ExprOp.CmpEq | ExprOp.CmpNe | ExprOp.CmpLtU | ExprOp.CmpLeU | ExprOp.CmpLtS | ExprOp.CmpLeS => rewriteCompare expr id
  | ExprOp.Select => rewriteSelect expr
  | ExprOp.FlagCond => rewriteFlagCond expr
  | ExprOp.ZExt | ExprOp.SExt | ExprOp.Trunc | ExprOp.Extract => rewriteCast expr id
  | _ => mret id
  end.

(** [tryEvalConst] of a node that can fold. *)
Definition foldNode (expr : Expr) (id : N) : M (option N) :=
  if (0 <? operandCount expr)%nat && negb (bool_decide (op expr = ExprOp.Const))
     && isScalarInteger (type expr) && (bits (type expr) <=? 64)
  then
    folded ← (fun f => match tryEvalConst f id with
                       | Ok value => Some (Some value, f)
                       | Err _ => Some (None, f)
                       | Undefined => None
                       end);
    match folded with Some value => built (constant (type expr) (lo value)) | None => mret None end
  else mret None.

Definition rewriteOnce (id : N) : M N :=
  expr ← exprOf id;
  rulesOr [foldNode expr id] (rewriteNode expr id).

Fixpoint rewriteRounds (rounds : nat) (id : N) : M N :=
  match rounds with
  | O => mret id
  | S rounds =>
      next ← rewriteOnce id;
      if (next =? id)%N then mret id else rewriteRounds rounds next
  end.

Definition kMaxRounds : nat := 8.
Definition kMaxDepth : nat := 512.

Definition rewriteToFixpoint (id : N) : M N := rewriteRounds kMaxRounds id.

(** ** The walk *)

Record Stats : Type := MkStats { entries : Z; memoHits : Z; interned : Z }.

Abbreviation Walk := (Memo * Stats)%type.

Definition countEntry (w : Walk) : Walk := (w.1, MkStats (entries w.2 + 1) (memoHits w.2) (interned w.2)).
Definition countHit (w : Walk) : Walk := (w.1, MkStats (entries w.2) (memoHits w.2 + 1) (interned w.2)).
Definition countIntern (w : Walk) : Walk := (w.1, MkStats (entries w.2) (memoHits w.2) (interned w.2 + 1)).

(** The part of [simplify] on a node with operands. *)
Definition simplifyNode (rec : N -> Walk -> M (N * Walk)) (expr : Expr) (id : N) (w : Walk) : M (N * Walk) :=
  '(ys, changed, w) ← operandsLoop rec (operands expr) w;
  '(result, w) ← (if (changed : bool) then r ← intern (withOperands expr ys); mret (r, countIntern w) else mret (id, w));
  r ← rewriteToFixpoint result;
  mret (r, w).

(** [simplify], with the depth that is left: [kMaxDepth - depth]. *)
Fixpoint simplify (levels : nat) (id : N) (w : Walk) : M (N * Walk) :=
  let w := countEntry w in
  match w.1 !! id with
  | Some r => mret (r, countHit w)
  | None =>
      match levels with
      | O => mret (id, w)
      | S levels =>
          expr ← exprOf id;
          '(result, w) ← (if (operandCount expr =? 0)%nat then mret (id, w)
                          else simplifyNode (simplify levels) expr id w);
          mret (result, (emplaceMemo w.1 id result, w.2))
      end
  end.

Definition newWalk : Walk := (∅, MkStats 0 0 0).

(** [simplifyAlgebra] of one expression. *)
Definition simplifyAlgebraExpr (id : N) : M N := '(r, _) ← simplify kMaxDepth id newWalk; mret r.

(** ** The driver *)

Section Driver.
(** A rewrite with a state of its own. *)
Context {St : Type} (rewrite : N -> Memo * St -> M (N * (Memo * St))).

Definition walkOp (opId : N) (w : Memo * St) : M (bool * (Memo * St)) :=
  xs ← gets (fun f => o ← opAt f opId; operandsOf (tables f) o);
  if decide (xs = []) then mret (false, w)
  else
    '(ys, touched, w) ← operandsLoop rewrite xs w;
    if (touched : bool) then setOperands opId ys;; mret (true, w) else mret (false, w).

Fixpoint walkOps (opIds : list N) (w : Memo * St) : M (bool * (Memo * St)) :=
  match opIds with
  | [] => mret (false, w)
  | opId :: opIds =>
      '(changed, w) ← walkOp opId w;
      '(rest, w) ← walkOps opIds w;
      mret (changed || rest, w)
  end.

Fixpoint walkBlocks (blockIds : list N) (w : Memo * St) : M (bool * (Memo * St)) :=
  match blockIds with
  | [] => mret (false, w)
  | blockId :: blockIds =>
      opIds ← gets (fun f => blockOps <$> blockAtId f blockId);
      '(changed, w) ← walkOps opIds w;
      '(rest, w) ← walkBlocks blockIds w;
      mret (changed || rest, w)
  end.
End Driver.

(** [simplifyAlgebra] of a function. *)
Definition simplifyAlgebra : M bool :=
  blockIds ← gets (fun f => Some (blockHandles f));
  '(changed, _) ← walkBlocks (simplify kMaxDepth) blockIds newWalk;
  mret changed.
