(* ===== verification/AlgebraRules.v ===== *)
(** * How the rules of algebra are proved

    A rule looks at the pool and builds an expression or declines. [Rule] says
    what it must do: whatever it builds verifies, has the type of the expression
    it replaces and, in a tame pool, every strict value of it. The tactics of
    this file run a rule forward, and compare denotations at the end. *)
From S2P Require Import Prelude Bits U128 Types Exprs Registers Func.
From S2P Require Import Eval VerifyExpr ValueTypes EvalProps Rewrite Fold FoldProps Denote AlgebraIdioms Algebra.

(** ** Tame pools

    What the rules need of a pool and the verifier does not promise: integer
    arithmetic of at most 64 bits, immediates within their types, no casts of flag
    bundles; and no comparison of a value with its own sum that [matchCarryBound]
    would take for the carry test the other way around. *)
Definition isSumOf (f : Function) (sum a : N) : bool :=
  match exprAt f sum with
  | Some e => bool_decide (op e = ExprOp.Add) && (operand e 0 =? a)%N && bool_decide (is_Some (asConstant f (operand e 1)))
  | None => false
  end.

Definition tameNode (f : Function) (e : Expr) : bool :=
  match op e with
  | ExprOp.Const => (0 <=? immediate e) && (immediate e <? 2 ^ Z.min 64 (bits (type e)))
  | ExprOp.CmpLtU => negb (isSumOf f (operand e 1) (operand e 0))
  | ExprOp.CmpLeU => negb (isSumOf f (operand e 0) (operand e 1))
  | ExprOp.ZExt | ExprOp.SExt | ExprOp.Trunc | ExprOp.Extract => negb (isFlags (type e))
  | ExprOp.Neg | ExprOp.Not => isScalarInteger (type e)
  | o => if intBinary o && isBinary o && bool_decide (infoResult (info o) = ResultRule.SameAsOperands)
         then isScalarInteger (type e) else true
  end.

Definition tame (f : Function) : Prop := forall id e, exprAt f id = Some e -> tameNode f e = true.

Definition tameCheck (f : Function) : bool := forallb (tameNode f) (exprs (pool f)).

Lemma tameCheck_sound f : tameCheck f = true -> tame f.
Proof.
  unfold tameCheck. rewrite forallb_forall. intros H id e [He _]%vget_Some. by eapply H, list_elem_of_In, list_elem_of_lookup_2.
Qed.

Lemma isSumOf_grows f f' sum a : grows f f' -> isSumOf f sum a = true -> isSumOf f' sum a = true.
Proof.
  intros Hg. unfold isSumOf. destruct (exprAt f sum) as [e|] eqn:He; [|done]. rewrite (exprAt_ext f f' _ _ Hg He).
  rewrite !andb_true_iff, !bool_decide_eq_true. intros [[? ?] [c Hc]]. split; [done|]. exists c. revert Hc.
  unfold asConstant. destruct (exprAt f (operand e 1)) as [k|] eqn:Hk; [|done]. by rewrite (exprAt_ext f f' _ _ Hg Hk).
Qed.

Lemma tameNode_shrinks f f' e : grows f f' -> tameNode f' e = true -> tameNode f e = true.
Proof.
  intros Hg. unfold tameNode. destruct (op e); try done; rewrite !negb_true_iff; intros H; apply not_true_iff_false;
    intros Hs%(isSumOf_grows f f' _ _ Hg); congruence.
Qed.

Lemma tame_shrinks f f' : grows f f' -> tame f' -> tame f.
Proof. intros Hg Ht id e He. apply (tameNode_shrinks f f' e Hg), (Ht id). by apply (exprAt_ext f). Qed.

(** The operations whose operands and result share an integer type. *)
Definition intArith (o : ExprOp) : bool :=
  intBinary o && isBinary o && bool_decide (infoResult (info o) = ResultRule.SameAsOperands).

Lemma tame_arith f e : tameNode f e = true -> valid (type e) = true -> intArith (op e) = true \/ intUnary (op e) = true ->
  exists w, type e = integer w /\ 1 <= w <= 64.
Proof.
  intros Ht Hv Ho. assert (isScalarInteger (type e) = true) as Hs by (unfold tameNode in Ht; destruct Ho as [Ho|Ho]; by destruct (op e)).
  destruct (scalar_type _ Hv Hs) as [Heq Hb]. by exists (bits (type e)).
Qed.

Lemma exprTyped_ext f f' e : grows f f' -> exprTyped f e -> exprTyped f' e.
Proof.
  intros Hg (Ha & Hv & ts & Hts & Hr & Ho). split; [done|]. split; [done|]. exists ts.
  split; [by eapply mapM_typeAt_ext|]. split; [done|by eapply opRuleOk_ext].
Qed.

Lemma exprAt_typed f id e : pool_ok f -> exprAt f id = Some e -> exprTyped f e.
Proof. intros Hok He. by eapply exprVerifies_typed, pool_ok_verifies. Qed.

Lemma typeAt_valid f id t : pool_ok f -> typeAt f id = Some t -> valid t = true.
Proof. intros Hok (e & He & <-)%typeAt_Some. by apply (exprAt_typed f id e Hok He). Qed.

(** ** Arithmetic modulo a power of two *)

Lemma add64_mod w a b : 1 <= w <= 64 -> add64 a b mod 2 ^ w = (a + b) mod 2 ^ w.
Proof. intros Hw. unfold add64, u64. by rewrite mod_pow2_mod_pow2 by lia. Qed.
Lemma sub64_mod w a b : 1 <= w <= 64 -> sub64 a b mod 2 ^ w = (a - b) mod 2 ^ w.
Proof. intros Hw. unfold sub64, u64. by rewrite mod_pow2_mod_pow2 by lia. Qed.
Lemma mul64_mod w a b : 1 <= w <= 64 -> mul64 a b mod 2 ^ w = (a * b) mod 2 ^ w.
Proof. intros Hw. unfold mul64, u64. by rewrite mod_pow2_mod_pow2 by lia. Qed.

#[export] Instance eqm_equivalence m : Equivalence (eqm m) := eqm_setoid m.
#[export] Instance eqm_add m : Proper (eqm m ==> eqm m ==> eqm m) Z.add := Zplus_eqm m.
#[export] Instance eqm_sub m : Proper (eqm m ==> eqm m ==> eqm m) Z.sub := Zminus_eqm m.
#[export] Instance eqm_mul m : Proper (eqm m ==> eqm m ==> eqm m) Z.mul := Zmult_eqm m.
#[export] Instance eqm_opp m : Proper (eqm m ==> eqm m) Z.opp := Zopp_eqm m.

(** Equal modulo [2 ^ w] by ring laws, whatever was reduced on the way. *)
Ltac modring w :=
  try match goal with
  | |- ?a = _ mod 2 ^ w => rewrite <-(mod_small_fits w a) by assumption
  | |- _ mod 2 ^ w = ?a => rewrite <-(mod_small_fits w a) by assumption
  end;
  match goal with |- ?a mod ?m = ?b mod ?m => change (eqm m a b) end;
  repeat setoid_rewrite Zmod_eqm; unfold eqm; f_equal; ring.

(** ** Running a computation that may fail *)

Definition wlp {A} (m : M A) (Φ : A -> Function -> Prop) (f : Function) : Prop := forall x f', m f = Some (x, f') -> Φ x f'.

Lemma wlp_ret {A} (x : A) (Φ : A -> Function -> Prop) f : Φ x f -> wlp (mret x) Φ f.
Proof. by intros H y f' [= <- <-]. Qed.

Lemma wlp_bind {A B} (m : M A) (k : A -> M B) Φ f : wlp m (fun x => wlp (k x) Φ) f -> wlp (m ≫= k) Φ f.
Proof. intros H y f' (x & f1 & Hx & Hy)%M_bind_Some. by apply (H x f1 Hx). Qed.

Lemma wlp_mono {A} (m : M A) (Φ Φ' : A -> Function -> Prop) f : wlp m Φ f -> (forall x f', Φ x f' -> Φ' x f') -> wlp m Φ' f.
Proof. intros H HΦ x f' Hx. by apply HΦ, H. Qed.

Lemma wlp_exprOf id (Φ : Expr -> Function -> Prop) f : (forall e, exprAt f id = Some e -> Φ e f) -> wlp (exprOf id) Φ f.
Proof. unfold exprOf. intros H e f' [He ->]%gets_Some. by apply H. Qed.

Lemma asConstant_Some f id k : asConstant f id = Some k -> exists e, exprAt f id = Some e /\ op e = ExprOp.Const /\ immediate e = k.
Proof. unfold asConstant. intros (e & He & H)%bind_Some. case_decide; simplify_eq. by exists e. Qed.

Lemma wlp_konstOf id (Φ : option Z -> Function -> Prop) f :
  Φ None f -> (forall e, exprAt f id = Some e -> op e = ExprOp.Const -> Φ (Some (immediate e)) f) -> wlp (konstOf id) Φ f.
Proof.
  unfold konstOf. intros HN HS k f' [[= <-] ->]%gets_Some. destruct (asConstant f id) as [k|] eqn:Hk; [|done].
  apply asConstant_Some in Hk as (e & He & Ho & <-). by apply HS.
Qed.

Lemma wlp_pairOf id o (Φ : option (N * N) -> Function -> Prop) f :
  Φ None f -> (forall e, exprAt f id = Some e -> op e = o -> Φ (Some (operand e 0, operand e 1)) f) -> wlp (pairOf id o) Φ f.
Proof.
  intros HN HS. apply wlp_bind, wlp_exprOf. intros e He. apply wlp_ret.
  destruct (bool_decide (op e = o) && _) eqn:Hc; [|done]. apply andb_true_iff in Hc as [Ho%bool_decide_eq_true _]. by apply HS.
Qed.

Lemma zeroExtend_ones w : 1 <= w <= 64 -> (if 64 <=? w then not64 0 else zeroExtend (not64 0) w) = Z.ones w.
Proof.
  intros Hw. assert (not64 0 = Z.ones 64) as -> by done. destruct (Z.leb_spec 64 w) as [H|H]; [by replace w with 64 by lia|].
  rewrite zeroExtend_mod_le, <-Z.land_ones by lia. apply Z.bits_inj'. intros n Hn.
  rewrite Z.land_spec, !Z.testbit_ones by lia. lia.
Qed.

Lemma wlp_isAllOnes id t (Φ : bool -> Function -> Prop) f : pool_ok f -> typeAt f id = Some t ->
  Φ false f -> (forall e, exprAt f id = Some e -> op e = ExprOp.Const -> immediate e = Z.ones (bits t) -> Φ true f) ->
  wlp (isAllOnes id) Φ f.
Proof.
  intros Hok Ht HN HS. apply wlp_bind, wlp_exprOf. intros e He. assert (type e = t) as <- by (apply typeAt_Some in Ht as (e' & ? & ?); congruence).
  destruct (negb _) eqn:Hs; [by apply wlp_ret|]. apply negb_false_iff in Hs.
  destruct (scalar_type _ (typeAt_valid f id _ Hok Ht) Hs) as [_ Hb]. rewrite zeroExtend_ones by done.
  apply wlp_bind, wlp_konstOf; [by apply wlp_ret|]. intros k Hk Ho. apply wlp_ret. destruct (immediate k =? _) eqn:Hi; [|done].
  apply Z.eqb_eq in Hi. by apply (HS k).
Qed.

(** [v * 2] or [v << 1]. *)
Definition doubles (f : Function) (e : Expr) : Prop :=
  exists k, exprAt f (operand e 1) = Some k /\ op k = ExprOp.Const /\
    (op e = ExprOp.Mul /\ immediate k = 2 \/ op e = ExprOp.Shl /\ immediate k = 1).

Lemma wlp_doubledOperand id (Φ : option N -> Function -> Prop) f :
  Φ None f -> (forall e, exprAt f id = Some e -> doubles f e -> Φ (Some (operand e 0)) f) -> wlp (doubledOperand id) Φ f.
Proof.
  intros HN HS. apply wlp_bind, wlp_exprOf. intros e He. cbv zeta.
  destruct (negb _ && negb _) eqn:Hc; [by apply wlp_ret|]. apply wlp_bind, wlp_konstOf; [by apply wlp_ret|].
  intros k Hk Ho. apply wlp_ret. destruct (immediate k =? _) eqn:Hi; [|done]. apply HS; [done|]. exists k. split; [done|]. split; [done|].
  apply Z.eqb_eq in Hi. destruct (bool_decide (op e = ExprOp.Mul)) eqn:Hm; [left|right].
  - by apply bool_decide_eq_true in Hm.
  - rewrite andb_false_iff, !negb_false_iff, bool_decide_eq_true in Hc. split; [|done]. by destruct Hc.
Qed.

(** ** Builders *)

(** The type [binary] gives the operation. *)
Definition binType (o : ExprOp) (t : Ty) : Ty :=
  match infoResult (info o) with ResultRule.Boolean => booleanType | _ => t end.

Lemma compare_binType o t : infoResult (info o) = ResultRule.Boolean -> binType o t = booleanType.
Proof. unfold binType. by intros ->. Qed.

Section Builders.
Context (f : Function) (Hok : pool_ok f).

Lemma wlp_intern e (Φ : N -> Function -> Prop) :
  exprTyped f e -> (forall r f', pool_ext f f' -> pool_ok f' -> exprAt f' r = Some e -> Φ r f') -> wlp (intern e) Φ f.
Proof using Hok. intros Ht H r f' Hi. destruct (intern_spec f e r f' Hok Ht Hi) as (? & ? & ?). by apply H. Qed.

Lemma wlp_constant t z (Φ : N -> Function -> Prop) :
  valid t = true -> (forall r f', pool_ext f f' -> pool_ok f' -> exprAt f' r = Some (constantOf t z) -> Φ r f') -> wlp (constant t z) Φ f.
Proof using Hok. intros Hv H r f' Hi. destruct (constant_spec f t z r f' Hok Hv Hi) as (? & ? & ?). by apply H. Qed.

Lemma wlp_binary o x y t (Φ : N -> Function -> Prop) :
  intBinary o = true -> typeAt f x = Some t -> typeAt f y = Some t ->
  (forall r f', pool_ext f f' -> pool_ok f' ->
     exprAt f' r = Some (MkExpr o (binType o t) [x; y] 0) -> Φ r f') ->
  wlp (binary o x y) Φ f.
Proof using Hok.
  intros Ho Hx Hy H r f' Hb. apply (wlp_intern (MkExpr o (binType o t) [x; y] 0) Φ); [|exact H|].
  - split; [destruct o; done || (cbn; lia)|]. split; [cbn [type]; destruct o; done || by eapply typeAt_valid|].
    exists [t; t]. split; [cbn; by rewrite Hx; cbn; rewrite Hy|].
    assert (typeEq t t = true) as Hte by (rewrite typeEq_spec; by apply bool_decide_eq_true).
    split; destruct o; try done; unfold resultRuleOk, opType0, opType1; cbn; by rewrite ?Hte.
  - revert Hb. unfold binary, gets, mbind, M_bind. destruct o; try done; cbn [info minArity maxArity infoResult Nat.leb andb assertion];
      (destruct (decide _) as [Hd|Hd]; [try discriminate Hd|try by destruct Hd]); rewrite ?Hx; done.
Qed.

Lemma wlp_unary o x t (Φ : N -> Function -> Prop) :
  intUnary o = true -> typeAt f x = Some t ->
  (forall r f', pool_ext f f' -> pool_ok f' -> exprAt f' r = Some (MkExpr o t [x] 0) -> Φ r f') -> wlp (unary o x) Φ f.
Proof using Hok.
  intros Ho Hx H r f' Hb. apply (wlp_intern (MkExpr o t [x] 0) Φ); [|exact H|].
  - split; [destruct o; done || (cbn; lia)|]. split; [by eapply typeAt_valid|]. exists [t]. split; [cbn; by rewrite Hx|].
    assert (typeEq t t = true) as Hte by (rewrite typeEq_spec; by apply bool_decide_eq_true).
    split; destruct o; try done; unfold resultRuleOk; cbn; by rewrite ?Hte.
  - revert Hb. unfold unary, gets, mbind, M_bind. destruct o; try done; cbn [info minArity maxArity infoResult Nat.leb andb assertion]; by rewrite Hx.
Qed.

Lemma wlp_cast o t x s (Φ : N -> Function -> Prop) :
  o = ExprOp.Trunc /\ bits t <= bits s \/ o = ExprOp.SExt /\ bits s <= bits t -> valid t = true -> typeAt f x = Some s ->
  (forall r f', pool_ext f f' -> pool_ok f' -> exprAt f' r = Some (MkExpr o t [x] 0) -> Φ r f') -> wlp (cast o t x) Φ f.
Proof using Hok.
  intros Ho Hv Hx H r f' Hb. apply (wlp_intern (MkExpr o t [x] 0) Φ); [|exact H|].
  - split; [destruct Ho as [[-> _]|[-> _]]; cbn; lia|]. split; [done|]. exists [s]. split; [cbn; by rewrite Hx|].
    split; destruct Ho as [[-> ?]|[-> ?]]; try done; unfold opRuleOk, opType0; cbn; by apply Z.leb_le.
  - revert Hb. unfold cast, mbind, M_bind. by destruct Ho as [[-> _]|[-> _]].
Qed.
End Builders.

(** ** Rules *)

Section Rules.
Context (env : Env) (f : Function) (e : Expr).

(** [r] can stand for [e]. *)
Definition Good (r : N) (f' : Function) : Prop :=
  pool_ext f f' /\ pool_ok f' /\ typeAt f' r = Some (type e) /\
  (tame f' -> tameNode f' e = true -> env_ok f' env -> forall v, semE f' env e = Some v -> sem f' env r = Some v).

(** What a rule does: it declines without a trace, or builds an expression. *)
Definition Rule (m : M (option N)) : Prop := wlp m (fun o f' => match o with Some r => Good r f' | None => f' = f end) f.

Lemma rule_none : Rule (mret None).
Proof. by apply wlp_ret. Qed.

Lemma rule_some r : Good r f -> Rule (mret (Some r)).
Proof. intros H. by apply wlp_ret. Qed.

Lemma rule_built m : wlp m Good f -> Rule (built m).
Proof. intros H. apply wlp_bind. eapply wlp_mono; [exact H|]. intros r f' Hr. by apply wlp_ret. Qed.

(** Two builders in a row. *)
Lemma rule_then m (k : N -> M N) : wlp m (fun x f1 => wlp (k x) Good f1) f ->
  Rule (built m ≫= fun r => match r with Some x => built (k x) | None => mret None end).
Proof.
  intros H. apply wlp_bind, wlp_bind. eapply wlp_mono; [exact H|]. intros x f1 Hx. apply wlp_ret, wlp_bind.
  eapply wlp_mono; [exact Hx|]. intros r f' Hr. by apply wlp_ret.
Qed.

(** A query leaves the function alone. *)
Lemma rule_query {A} (q : M A) (P : A -> Prop) (k : A -> M (option N)) :
  wlp q (fun x f' => f' = f /\ P x) f -> (forall x, P x -> Rule (k x)) -> Rule (q ≫= k).
Proof. intros Hq Hk. apply wlp_bind. eapply wlp_mono; [exact Hq|]. intros x f' [-> Hp]. by apply Hk. Qed.

Lemma rule_exprOf id k : (forall x, exprAt f id = Some x -> Rule (k x)) -> Rule (exprOf id ≫= k).
Proof. intros H. by apply wlp_bind, wlp_exprOf. Qed.

Lemma rule_konstOf id k :
  Rule (k None) -> (forall x, exprAt f id = Some x -> op x = ExprOp.Const -> Rule (k (Some (immediate x)))) -> Rule (konstOf id ≫= k).
Proof. intros HN HS. by apply wlp_bind, wlp_konstOf. Qed.

Lemma rule_pairOf id o k :
  Rule (k None) -> (forall x, exprAt f id = Some x -> op x = o -> Rule (k (Some (operand x 0, operand x 1)))) -> Rule (pairOf id o ≫= k).
Proof. intros HN HS. by apply wlp_bind, wlp_pairOf. Qed.

Lemma rule_doubled id k :
  Rule (k None) -> (forall x, exprAt f id = Some x -> doubles f x -> Rule (k (Some (operand x 0)))) -> Rule (doubledOperand id ≫= k).
Proof. intros HN HS. by apply wlp_bind, wlp_doubledOperand. Qed.

Lemma rule_isConst id v k :
  Rule (k false) -> (forall x, exprAt f id = Some x -> op x = ExprOp.Const -> immediate x = v -> Rule (k true)) -> Rule (isConst id v ≫= k).
Proof.
  intros HN HS. apply wlp_bind, wlp_bind, wlp_konstOf; [by apply wlp_ret|]. intros x Hx Ho. apply wlp_ret.
  destruct (immediate x =? v) eqn:Hi; [|done]. apply Z.eqb_eq in Hi. by apply (HS x).
Qed.

Lemma rule_isAllOnes id t k : pool_ok f -> typeAt f id = Some t ->
  Rule (k false) -> (forall x, exprAt f id = Some x -> op x = ExprOp.Const -> immediate x = Z.ones (bits t) -> Rule (k true)) ->
  Rule (isAllOnes id ≫= k).
Proof. intros Hok Ht HN HS. by apply wlp_bind, (wlp_isAllOnes id t). Qed.

Lemma rule_assoc {A B} (m : M A) (g : A -> M B) (k : B -> M (option N)) :
  Rule (m ≫= fun x => g x ≫= k) -> Rule ((m ≫= g) ≫= k).
Proof.
  intros H r f' Hr. apply H. apply M_bind_Some in Hr as (y & f2 & Hy & Hr). apply M_bind_Some in Hy as (x & f1 & Hx & Hy).
  apply M_bind_Some. exists x, f1. split; [done|]. apply M_bind_Some. by exists y, f2.
Qed.

Lemma rule_ret {A} (x : A) k : Rule (k x) -> Rule (mret x ≫= k).
Proof. done. Qed.

Lemma rule_ofShift c k : (forall x, c = Some x -> Rule (k x)) -> Rule (ofShift c ≫= k).
Proof. intros H. apply wlp_bind. intros x f' Hx. unfold ofShift, gets in Hx. destruct c; [|done]. injection Hx as <- <-. by apply H. Qed.

Lemma rule_first {A} (body : A -> M (option N)) xs : (forall x, x ∈ xs -> Rule (body x)) -> Rule (firstOf body xs).
Proof.
  induction xs as [|x xs IH]; intros H; [apply rule_none|]. cbn [firstOf]. apply wlp_bind.
  eapply wlp_mono; [apply H; by left|]. intros [r|] f' Hr; [by apply wlp_ret|]. subst f'. apply IH. intros y Hy. apply H. by right.
Qed.

Lemma rule_if (c : M bool) x : wlp c (fun b f' => f' = f /\ (b = true -> wlp x Good f)) f -> Rule (ruleIf c x).
Proof.
  intros H. apply wlp_bind. eapply wlp_mono; [exact H|]. intros [] f' [-> Hx]; [by apply rule_built, Hx|apply rule_none].
Qed.

Lemma good_unchanged : pool_ok f -> exprTyped f e -> wlp (unchanged e) Good f.
Proof.
  intros Hok Ht. apply (wlp_intern f Hok); [done|]. intros r f' Hx Hok' Hr. split_and!; try done.
  - apply typeAt_Some. by exists e.
  - intros _ _ _ v Hv. by rewrite (sem_expr f' env Hok' r e Hr).
Qed.

Lemma rules_or rules last : Forall Rule rules -> wlp last Good f -> wlp (rulesOr rules last) Good f.
Proof.
  intros H Hl. induction H as [|m rules Hm _ IH]; cbn [rulesOr]; [done|]. apply wlp_bind. eapply wlp_mono; [exact Hm|].
  intros [r|] f' Hr; [by apply wlp_ret|]. by subst f'.
Qed.
End Rules.

Lemma elem_of_arms x : x ∈ arms -> x = (0, 1)%nat \/ x = (1, 0)%nat.
Proof. unfold arms. rewrite !elem_of_cons, elem_of_nil. tauto. Qed.

(** A test of an opcode, decided. *)
Ltac op_step :=
  match goal with
  | |- context [bool_decide (op ?x = ?o)] =>
      let Ho := fresh "Ho" in let Hn := fresh "Hn" in
      destruct (decide (op x = o)) as [Ho|Hn];
      [rewrite (bool_decide_true _ Ho); try (exfalso; congruence)|rewrite (bool_decide_false _ Hn); try contradiction];
      cbn [negb orb andb]
  end.

(** A handle read twice is read once. *)
Ltac merge :=
  repeat match goal with
  | H : exprAt ?f ?y = Some ?a, H' : exprAt ?f ?y = Some ?b |- _ => assert (b = a) as -> by congruence; clear H'
  end; try (exfalso; congruence).

(** One syntactic step of a rule. *)
Ltac rule_step :=
  first [op_step|
  lazymatch goal with
  | |- Rule _ _ _ (mret None) => apply rule_none
  | |- Rule _ _ _ (mret _ ≫= _) => apply rule_ret
  | |- Rule _ _ _ (ofShift _ ≫= _) => apply rule_ofShift; intros ? ?
  | |- Rule _ _ _ (exprOf _ ≫= _) => apply rule_exprOf; intros ? ?; merge
  | |- Rule _ _ _ (konstOf _ ≫= _) => apply rule_konstOf; [|intros ? ? ?; merge]
  | |- Rule _ _ _ (isConst _ _ ≫= _) => apply rule_isConst; [|intros ? ? ? ?]
  | |- Rule _ _ _ (isAllOnes _ ≫= _) => eapply rule_isAllOnes; [eassumption|eassumption| |intros ? ? ? ?]
  | |- Rule _ _ _ (pairOf _ _ ≫= _) => apply rule_pairOf; [|intros ? ? ?; merge]
  | |- Rule _ _ _ (doubledOperand _ ≫= _) => apply rule_doubled; [|intros ? ? (? & ? & ? & [[? ?]|[? ?]]); merge]
  | |- Rule _ _ _ (built _ ≫= _) => apply rule_then
  | |- Rule _ _ _ ((_ ≫= _) ≫= _) => apply rule_assoc
  | |- Rule _ _ _ ((if ?b then _ else _) ≫= _) => destruct b eqn:?
  | |- Rule _ _ _ ((match ?x with Some _ => _ | None => _ end) ≫= _) => destruct x eqn:?
  | |- Rule _ _ _ (if ?b then _ else _) => destruct b eqn:?
  | |- Rule _ _ _ (mret (if ?b then _ else _)) => destruct b eqn:?
  | |- Rule _ _ _ (match ?x with Some _ => _ | None => _ end) => destruct x eqn:?
  | |- Rule _ _ _ (firstOf _ arms) => apply rule_first; intros ? Harm; apply elem_of_arms in Harm as [->| ->]; cbn [fst snd]
  end]; cbv beta iota zeta; cbn [fst snd].

(** ** Types of the nodes a rule has seen *)

Lemma node_binary f x ex t : pool_ok f -> exprAt f x = Some ex -> typeAt f x = Some t ->
  isBinary (op ex) = true -> infoResult (info (op ex)) = ResultRule.SameAsOperands ->
  type ex = t /\ typeAt f (operand ex 0) = Some t /\ typeAt f (operand ex 1) = Some t.
Proof.
  intros Hok Hx Ht Hb Hi. assert (type ex = t) as <- by (apply typeAt_Some in Ht as (e' & ? & ?); congruence).
  split; [done|]. apply binary_types; try done. by eapply exprAt_typed.
Qed.

Lemma node_unary f x ex t : pool_ok f -> exprAt f x = Some ex -> typeAt f x = Some t ->
  isUnary (op ex) = true -> infoResult (info (op ex)) = ResultRule.SameAsOperands ->
  type ex = t /\ typeAt f (operand ex 0) = Some t.
Proof.
  intros Hok Hx Ht Hb Hi. assert (type ex = t) as <- by (apply typeAt_Some in Ht as (e' & ? & ?); congruence).
  split; [done|]. apply unary_type; try done. by eapply exprAt_typed.
Qed.

Lemma exprAt_typeAt f x ex : exprAt f x = Some ex -> typeAt f x = Some (type ex).
Proof. intros Hx. apply typeAt_Some. by exists ex. Qed.

Lemma pairsMatch_Some a b p : pairsMatch a b = Some p ->
  a = Some p /\ exists q, b = Some q /\ (p.1 = q.1 /\ p.2 = q.2 \/ p.1 = q.2 /\ p.2 = q.1).
Proof.
  unfold pairsMatch, samePair. destruct a as [a|], b as [b|]; try done. case_match eqn:Hs; [|done]. intros [= ->].
  split; [done|]. exists b. split; [done|]. rewrite orb_true_iff, !andb_true_iff, !N.eqb_eq in Hs. tauto.
Qed.

(** Pairs that were found to match. *)
Ltac pairs :=
  repeat match goal with
  | H : pairsMatch None _ = Some _ |- _ => discriminate H
  | H : pairsMatch _ None = Some _ |- _ => by apply pairsMatch_Some in H as (_ & ? & ? & _)
  | H : pairsMatch _ _ = Some _ |- _ =>
      apply pairsMatch_Some in H as (H & ? & Hq & Hm); injection H as <-; injection Hq as <-;
      cbn [fst snd] in Hm |- *; destruct Hm as [[? ?]|[? ?]]
  end.

(** Derive the types of operands from those of their nodes. *)
Ltac types :=
  repeat match goal with
  | Hok : pool_ok ?f, Hx : exprAt ?f ?x = Some ?ex, Ho : op ?ex = _, T : typeAt ?f ?x = Some ?t |- _ =>
      lazymatch goal with
      | _ : typeAt f (operand ex 0) = Some t |- _ => fail
      | _ => first
          [ destruct (node_binary f x ex t Hok Hx T ltac:(by rewrite Ho) ltac:(by rewrite Ho)) as (? & ? & ?)
          | destruct (node_unary f x ex t Hok Hx T ltac:(by rewrite Ho) ltac:(by rewrite Ho)) as (? & ?) ]
      end
  end.

(** Carry what is known of [f] over to its extension. *)
Ltac advance X :=
  lazymatch type of X with
  | pool_ext ?f ?f' =>
      repeat match goal with
      | H : exprAt f _ = Some _ |- _ => apply (exprAt_ext f f' _ _ (pool_ext_grows _ _ X)) in H
      | H : typeAt f _ = Some _ |- _ => apply (typeAt_ext f f' _ _ (pool_ext_grows _ _ X)) in H
      | H : exprTyped f _ |- _ => apply (exprTyped_ext f f' _ (pool_ext_grows _ _ X)) in H
      | H : env_ok f _ |- _ => apply (env_ok_ext f f' _ X) in H
      end;
      try match goal with
      | H : pool_ext ?g f |- _ => lazymatch g with f => fail | _ => pose proof (transitivity H X); clear H X end
      end
  end.

(** ** Denotations of the nodes a rule has seen *)

Lemma good_int env f e r f' :
  exprTyped f' e -> intArith (op e) = true \/ intUnary (op e) = true -> pool_ext f f' -> pool_ok f' -> typeAt f' r = Some (type e) ->
  (forall w, 1 <= w <= 64 -> type e = integer w -> tame f' -> env_ok f' env ->
     forall z, denE f' env e = Some z -> den f' env r = Some z) ->
  Good env f e r f'.
Proof.
  intros Ht Ho Hx Hok Hr H. split_and!; try done. intros Htame Hnode Henv v.
  destruct (tame_arith f' e Hnode (proj1 (proj2 Ht)) Ho) as (w & Hty & Hw).
  apply (den_simulates f' env Hok Henv e r w Ht Hw Hty); [by rewrite Hr, Hty|]. by eapply H.
Qed.

(** A pool node of integer type, by its operation. *)
Lemma den_int f env x ex w :
  pool_ok f -> env_ok f env -> tame f -> exprAt f x = Some ex -> typeAt f x = Some (integer w) -> 1 <= w <= 64 ->
  match op ex with
  | ExprOp.Const => den f env x = Some (immediate ex) /\ fits w (immediate ex)
  | ExprOp.Neg | ExprOp.Not => den f env x = (a ← den f env (operand ex 0); Some (unValue (op ex) w a))
  | o => if intArith o
         then den f env x = (a ← den f env (operand ex 0); b ← den f env (operand ex 1); Some (binValue o w a b))
         else True
  end.
Proof.
  intros Hok Henv Htame Hx Ht Hw. assert (type ex = integer w) as Hty by (apply typeAt_Some in Ht as (e' & ? & ?); congruence).
  pose proof (exprAt_typed f x ex Hok Hx) as Htyped. pose proof (Htame x ex Hx) as Hnode. rewrite (den_expr f env Hok x ex Hx).
  assert (intArith (op ex) = true -> denE f env ex = (a ← den f env (operand ex 0); b ← den f env (operand ex 1); Some (binValue (op ex) w a b))) as Hbin.
  { intros [[Ha Hb]%andb_true_iff Hs%bool_decide_eq_true]%andb_true_iff. apply denE_binary; try done.
    rewrite <-Hty. by apply binary_types. }
  destruct (op ex) eqn:Ho; try done; try (by apply Hbin); cbn [intArith].
  - apply denE_const; try done. unfold tameNode in Hnode. rewrite Ho in Hnode.
    rewrite Hty, (proj1 (proj2 (integer_facts w Hw))), Z.min_r in Hnode by lia.
    apply andb_true_iff in Hnode as [?%Z.leb_le ?%Z.ltb_lt]. by apply (fits_weaken w); [|lia].
  - rewrite (denE_unary f env Hok Henv ex w); rewrite ?Ho; done.
  - rewrite (denE_unary f env Hok Henv ex w); rewrite ?Ho; done.
Qed.

(** The value of a constant, whatever its type. *)
Lemma sem_const f env x ex v : pool_ok f -> tame f -> exprAt f x = Some ex -> op ex = ExprOp.Const -> sem f env x = Some v -> lo v = immediate ex.
Proof.
  intros Hok Ht Hx Ho Hv. rewrite (sem_expr f env Hok x ex Hx) in Hv. apply semNode_Some in Hv as (ts & args & Hw & _ & _ & _ & Hv).
  unfold evalNode in Hv. rewrite Ho in Hv. apply Ok_inj in Hv as <-. specialize (Ht x ex Hx). unfold tameNode in Ht. rewrite Ho in Ht.
  apply andb_true_iff in Ht as [H0%Z.leb_le H1%Z.ltb_lt]. pose proof (exprAt_typed f x ex Hok Hx) as (_ & Hval & _).
  pose proof (valid_bits _ Hval). unfold mask, maskOf. cbn [lo]. destruct (Z.leb_spec 64 (bits (type ex))).
  - rewrite Z.min_l in H1 by lia. change (not64 0) with (Z.ones 64). rewrite Z.land_ones by lia. by apply Z.mod_small.
  - rewrite Z.min_r in H1 by lia. rewrite lowMask_ones, Z.min_l, Z.land_ones by lia. by apply Z.mod_small.
Qed.

(** A cast between integers. *)
Lemma den_cast f env x ex v w :
  pool_ok f -> env_ok f env -> exprAt f x = Some ex -> typeAt f x = Some (integer w) -> 1 <= w <= 64 ->
  typeAt f (operand ex 0) = Some (integer v) -> 1 <= v <= 64 ->
  match op ex with
  | ExprOp.ZExt => den f env x = den f env (operand ex 0)
  | ExprOp.SExt => den f env x = (a ← den f env (operand ex 0); Some (signed v a mod 2 ^ w))
  | ExprOp.Trunc => den f env x = (a ← den f env (operand ex 0); Some (a mod 2 ^ w))
  | ExprOp.Extract => den f env x = (a ← den f env (operand ex 0); Some (Z.shiftr a (u32 (immediate ex)) mod 2 ^ w))
  | _ => True
  end.
Proof.
  intros Hok Henv Hx Ht Hw Ho Hv. assert (type ex = integer w) as Hty by (apply typeAt_Some in Ht as (e' & ? & ?); congruence).
  rewrite (den_expr f env Hok x ex Hx), (denE_cast f env Hok Henv ex v w (exprAt_typed f x ex Hok Hx) Hv Hw Ho Hty).
  by destruct (op ex).
Qed.

(** A comparison of integers. *)
Definition isCompare (o : ExprOp) : bool := intBinary o && bool_decide (infoResult (info o) = ResultRule.Boolean).

Lemma isCompare_facts o : isCompare o = true -> intBinary o = true /\ isBinary o = true /\ infoResult (info o) = ResultRule.Boolean.
Proof. by destruct o. Qed.

Lemma den_compare f env x ex v :
  pool_ok f -> env_ok f env -> exprAt f x = Some ex -> isCompare (op ex) = true -> typeAt f (operand ex 0) = Some (integer v) -> 1 <= v <= 64 ->
  den f env x = (a ← den f env (operand ex 0); b ← den f env (operand ex 1); Some (binValue (op ex) v a b)).
Proof.
  intros Hok Henv Hx Hc Ho Hv. destruct (isCompare_facts _ Hc) as (Hb & _ & _).
  rewrite (den_expr f env Hok x ex Hx). apply denE_binary; try done. by eapply exprAt_typed.
Qed.

Lemma good_cmp env f e r f' :
  exprTyped f' e -> isBoolean (type e) = true -> pool_ext f f' -> pool_ok f' -> typeAt f' r = Some booleanType ->
  (tame f' -> tameNode f' e = true -> env_ok f' env -> forall z, denE f' env e = Some z -> den f' env r = Some z) ->
  Good env f e r f'.
Proof.
  intros Ht Hb Hx Hok Hr H. pose proof (boolean_type _ (proj1 (proj2 Ht)) Hb) as Hty.
  split_and!; [done|done|by rewrite Hr, Hty|]. intros Htame Hnode Henv v.
  apply (den_simulates f' env Hok Henv e r 1 Ht ltac:(lia) Hty); [done|]. by eapply H.
Qed.

(** The immediate [constant] gives an integer. *)
Definition constImm (w z : Z) : Z := if 64 <=? w then z else zeroExtend z w.

Lemma bits_int w : 1 <= w <= 64 -> bits (integer w) = w.
Proof. intros Hw. by apply integer_facts. Qed.

Lemma den_constant f env x z w :
  pool_ok f -> env_ok f env -> tame f -> exprAt f x = Some (constantOf (integer w) z) -> 1 <= w <= 64 ->
  den f env x = Some (constImm w z) /\ fits w (constImm w z).
Proof.
  intros Hok Henv Htame Hx Hw. pose proof (den_int f env x _ w Hok Henv Htame Hx (exprAt_typeAt f x _ Hx) Hw) as H.
  unfold constantOf in H. cbn [op immediate] in H. by rewrite bits_int in H.
Qed.

Lemma constImm_fits w z : 1 <= w <= 64 -> fits w z -> constImm w z = z.
Proof. intros Hw Hz. unfold constImm. case_match; [done|]. rewrite zeroExtend_mod_le by lia. by apply mod_small_fits. Qed.

Lemma constImm_mod w z : 1 <= w <= 64 -> fits 64 z -> constImm w z = z mod 2 ^ w.
Proof.
  intros Hw Hz. unfold constImm. destruct (Z.leb_spec 64 w); [|by rewrite zeroExtend_mod_le by lia].
  assert (w = 64) as -> by lia. symmetry. by apply mod_small_fits.
Qed.

Lemma constImm_zeroExtend w z : 1 <= w <= 64 -> constImm w (zeroExtend z w) = z mod 2 ^ w.
Proof. intros Hw. rewrite zeroExtend_mod_le by lia. apply constImm_fits; [done|]. apply fits_mod. lia. Qed.

Lemma operand_0 o t x xs i : operand (MkExpr o t (x :: xs) i) 0 = x.
Proof. done. Qed.
Lemma operand_1 o t x y xs i : operand (MkExpr o t (x :: y :: xs) i) 1 = y.
Proof. done. Qed.

(** The type of a node that was built. *)
Ltac built_types :=
  repeat match goal with
  | Hx : exprAt ?f ?x = Some (MkExpr _ ?t _ _) |- _ =>
      lazymatch goal with _ : typeAt f x = Some _ |- _ => fail | _ => idtac end;
      pose proof (exprAt_typeAt f x _ Hx : typeAt f x = Some t)
  | Hx : exprAt ?f ?x = Some (constantOf ?t _) |- _ =>
      lazymatch goal with _ : typeAt f x = Some _ |- _ => fail | _ => idtac end;
      pose proof (exprAt_typeAt f x _ Hx : typeAt f x = Some t)
  end.

(** The value of every cast by its operand's. *)
Ltac den_casts :=
  repeat match goal with
  | Hok : pool_ok ?f, Henv : env_ok ?f ?env, Hx : exprAt ?f ?x = Some ?ex, Ho : op ?ex = _, T : typeAt ?f ?x = Some (integer ?w), Hw : 1 <= ?w <= 64,
    To : typeAt ?f (operand ?ex 0) = Some (integer ?v), Hv : 1 <= ?v <= 64 |- _ =>
      let D := fresh "D" in pose proof (den_cast f env x ex v w Hok Henv Hx T Hw To Hv) as D; rewrite Ho in D;
      lazymatch type of D with True => fail | _ => idtac end; clear Hx
  | Hok : pool_ok ?f, Henv : env_ok ?f ?env, Hx : exprAt ?f ?x = Some (MkExpr ?o (integer ?w) [?y] ?i), T : typeAt ?f ?x = Some (integer ?w), Hw : 1 <= ?w <= 64,
    To : typeAt ?f ?y = Some (integer ?v), Hv : 1 <= ?v <= 64 |- _ =>
      let D := fresh "D" in pose proof (den_cast f env x (MkExpr o (integer w) [y] i) v w Hok Henv Hx T Hw To Hv) as D; cbn [op] in D;
      rewrite ?operand_0 in D;
      lazymatch type of D with True => fail | _ => idtac end; clear Hx
  end.

(** The value of every comparison by its operands'. *)
Ltac den_compares :=
  repeat match goal with
  | Hok : pool_ok ?f, Henv : env_ok ?f ?env, Hx : exprAt ?f ?x = Some ?ex, Ho : op ?ex = ?o,
    To : typeAt ?f (operand ?ex 0) = Some (integer ?v), Hv : 1 <= ?v <= 64 |- _ =>
      let D := fresh "D" in pose proof (den_compare f env x ex v Hok Henv Hx ltac:(by rewrite Ho) To Hv) as D; rewrite Ho in D; clear Hx
  | Hok : pool_ok ?f, Henv : env_ok ?f ?env, Hx : exprAt ?f ?x = Some (MkExpr ?o ?t [?y; ?z] ?i),
    To : typeAt ?f ?y = Some (integer ?v), Hv : 1 <= ?v <= 64 |- _ =>
      let D := fresh "D" in pose proof (den_compare f env x (MkExpr o t [y; z] i) v Hok Henv Hx ltac:(done || assumption) To Hv) as D;
      cbn [op] in D; rewrite ?operand_0, ?operand_1 in D; clear Hx
  end.

(** The value of every node by its operands'. *)
Ltac den_equations :=
  den_casts; den_compares;
  repeat match goal with
  | Hok : pool_ok ?f, Henv : env_ok ?f ?env, Htame : tame ?f, Hx : exprAt ?f ?x = Some (constantOf (integer ?w) ?k), Hw : 1 <= ?w <= 64 |- _ =>
      let D := fresh "D" in let D' := fresh "Fit" in destruct (den_constant f env x k w Hok Henv Htame Hx Hw) as [D D']; clear Hx
  | Hok : pool_ok ?f, Henv : env_ok ?f ?env, Htame : tame ?f, Hx : exprAt ?f ?x = Some ?ex, T : typeAt ?f ?x = Some (integer ?w), Hw : 1 <= ?w <= 64 |- _ =>
      let D := fresh "D" in pose proof (den_int f env x ex w Hok Henv Htame Hx T Hw) as D; clear Hx;
      first [match goal with Ho : op ex = _ |- _ => rewrite Ho in D end | cbn [op] in D];
      cbv beta iota zeta in D; rewrite ?operand_0, ?operand_1 in D;
      lazymatch type of D with
      | True => clear D
      | _ /\ _ => let D' := fresh "Fit" in destruct D as [D D']
      | if _ then _ else _ => change (intArith _) with true in D; cbv iota in D
      | match _ with _ => _ end => clear D
      | _ => idtac
      end
  end.

(** Everything in terms of the leaves, whose values fit. *)
Ltac den_leaves H :=
  repeat match goal with D : den _ _ _ = _ |- _ => first [rewrite D in H | rewrite D] end;
  repeat match goal with D : den _ _ _ = _ |- _ => clear D end;
  repeat match type of H with
  | context [den ?f ?env ?y] =>
      let z := fresh "a" in let E := fresh "E" in
      destruct (den f env y) as [z|] eqn:E; cbn [mbind option_bind] in H |- *; [|discriminate H];
      try match goal with
      | Hok : pool_ok f, Henv : env_ok f env, T : typeAt f y = Some (integer ?w), Hw : 1 <= ?w <= 64 |- _ =>
          let F := fresh "F" in pose proof (den_fits f env Hok Henv y w z Hw T E) as F
      end
  end;
  cbn [mbind option_bind] in H |- *.

(** The values, compared: what is left is an equation between integers. *)
Ltac den_goal :=
  let w := fresh "w" in let Hw := fresh "Hw" in let Hty := fresh "Hty" in let Ht := fresh "Htame" in
  let He := fresh "Henv" in let z := fresh "z" in let Hz := fresh "Hz" in
  intros w Hw Hty Ht He z Hz;
  lazymatch type of Hty with type ?e = _ =>
    repeat match goal with H : context [type e] |- _ => lazymatch H with Hty => fail | _ => rewrite Hty in H end end;
    built_types;
    lazymatch type of Hz with denE ?f ?env _ = _ =>
      first [rewrite (denE_binary f env ltac:(assumption) He e w ltac:(assumption)) in Hz; [|by match goal with Ho : op e = _ |- _ => rewrite Ho end|exact Hw|eassumption]
            |rewrite (denE_unary f env ltac:(assumption) He e w ltac:(assumption)) in Hz; [|by match goal with Ho : op e = _ |- _ => rewrite Ho end|exact Hw|exact Hty]]
    end;
    match goal with Ho : op e = _ |- _ => rewrite Ho in Hz end
  end;
  den_equations; den_leaves Hz; apply (inj Some) in Hz; apply (f_equal Some); rewrite <-Hz; clear Hz;
  rewrite ?(bits_int w Hw) in *; cbn [binValue plainValue unValue].

(** Run the builders of a rule. *)
Ltac build_step :=
  let r := fresh "r" in let f' := fresh "f" in let X := fresh "X" in let K := fresh "K" in let R := fresh "R" in
  lazymatch goal with
  | |- Rule _ _ _ (built _) => apply rule_built
  | |- Rule _ _ _ (mret (Some _)) => apply rule_some
  | |- wlp (mret _) _ _ => apply wlp_ret
  | |- wlp (exprOf _) _ _ => apply wlp_exprOf; intros ? ?
  | |- wlp (if decide (op ?x = ?o) then _ else _) _ _ => destruct (decide (op x = o))
  | |- wlp (_ ≫= _) _ _ => apply wlp_bind
  | |- wlp (binary _ _ _) _ _ =>
      eapply wlp_binary; [assumption|done || assumption|eassumption|eassumption|intros r f' X K R; cbn [binType info infoResult] in R;
        try match goal with Hi : infoResult (info _) = ResultRule.Boolean |- _ => rewrite (compare_binType _ _ Hi) in R end; advance X; built_types]
  | |- wlp (unary _ _) _ _ => eapply wlp_unary; [assumption|done|eassumption|intros r f' X K R; advance X; built_types]
  | |- wlp (cast ExprOp.Trunc _ _) _ _ => eapply wlp_cast; [assumption|left; split; [done|]| |eassumption|intros r f' X K R; advance X; built_types]
  | |- wlp (cast ExprOp.SExt _ _) _ _ => eapply wlp_cast; [assumption|right; split; [done|]| |eassumption|intros r f' X K R; advance X; built_types]
  | |- wlp (constant _ _) _ _ => eapply wlp_constant; [assumption|assumption|intros r f' X K R; advance X; built_types]
  end; cbv beta.

(** The result of a rule on an integer operation. *)
Ltac good :=
  apply good_int;
    [assumption|match goal with |- intArith (op ?e) = true \/ _ => match goal with H : op e = _ |- _ => rewrite H end end; (by left) || (by right)
    |assumption || reflexivity|assumption|assumption|den_goal].

(** A rule, up to the arithmetic. *)
Ltac rule := repeat rule_step; pairs; types; repeat build_step; good.

Lemma constImm_ones w : 1 <= w <= 64 -> constImm w (Z.ones w) = Z.ones w.
Proof. intros Hw. apply constImm_fits; [done|]. unfold fits. rewrite Z.ones_equiv. lia. Qed.

Lemma constImm_small w z : 1 <= w <= 64 -> 0 <= z <= 1 -> constImm w z = z.
Proof.
  intros Hw Hz. apply constImm_fits; [done|]. pose proof (Z.pow_le_mono_r 2 1 w ltac:(lia) ltac:(lia)). unfold fits. lia.
Qed.

(** Constants a rule computed, the equations it tested, and equal operands. *)
Ltac consts :=
  repeat match goal with
  | H : (_ && _) = true |- _ => apply andb_true_iff in H as [? ?]
  | H : (_ || _) = false |- _ => apply orb_false_iff in H as [? ?]
  | H : negb _ = false |- _ => apply negb_false_iff in H
  | H : (_ =? _) = true |- _ => apply Z.eqb_eq in H
  | H : (_ =? _)%N = true |- _ => apply N.eqb_eq in H
  | H : immediate _ = _ |- _ => rewrite H in *; clear H
  | H : ?x = ?y, E : den ?f ?env ?x = Some ?a, E' : den ?f ?env ?y = Some ?b |- _ =>
      rewrite H, E' in E; injection E as E; subst a; clear H
  end;
  rewrite ?constImm_zeroExtend, ?constImm_small, ?constImm_ones, ?add64_mod, ?sub64_mod, ?mul64_mod by (assumption || lia).

(** The integer type of a node of a tame pool. *)
Ltac int_type x :=
  match goal with
  | Hx : exprAt ?g ?y = Some x, Htame : tame ?g, Hok : pool_ok ?g, Ho : op x = _ |- _ =>
      let w := fresh "w" in let Hw := fresh "Hw" in let E := fresh "Hty" in
      destruct (tame_arith g x (Htame y x Hx) (proj1 (proj2 (exprAt_typed g y x Hok Hx))) ltac:(left; by rewrite Ho)) as (w & E & Hw);
      rewrite E in *; repeat match goal with H : integer _ = ?t |- _ => is_var t; rewrite <-H in *; clear H end; rewrite ?(bits_int w Hw) in *
  end.

(** The value of a comparison [e] of integers, by its leaves. *)
Ltac cmp_goal e x :=
  let Htame := fresh "Htame" in let Hnode := fresh "Hnode" in let Henv := fresh "Henv" in let z := fresh "z" in let Hz := fresh "Hz" in
  intros Htame Hnode Henv z Hz; int_type x;
  lazymatch type of Hz with denE ?f ?env _ = _ =>
    rewrite (denE_binary f env ltac:(assumption) Henv e _ ltac:(assumption) ltac:(assumption) ltac:(eassumption) ltac:(eassumption)) in Hz
  end;
  den_equations; den_leaves Hz; apply (inj Some) in Hz; apply (f_equal Some); rewrite <-Hz; clear Hz.
