(* ===== verification/AlgebraLocal.v ===== *)
(** * The local rules, casts and constant folding of algebra are sound (passes/algebra.cpp) *)
From S2P Require Import Prelude Bits U128 Types Exprs Registers Func Eval VerifyExpr ValueTypes EvalProps Ceval Rewrite.
From S2P Require Import Fold FoldProps Denote AlgebraIdioms Algebra AlgebraRules.
(** The types of the operands of [e], whose opcode is the premise. *)
Ltac operand_types f e Ht :=
  let Ho := fresh "Ho" in intros Ho;
  destruct (binary_types f e Ht ltac:(by rewrite Ho) ltac:(by rewrite Ho)) as [Tx Ty];
  pose proof (proj1 (proj2 Ht)) as Hv.

Ltac ring_rule := rule; consts; match goal with Hw : 1 <= ?w <= 64 |- _ => modring w end.

Ltac bit_rule :=
  rule; consts; rewrite ?Z.sub_diag, ?Z.mul_0_r, ?Z.mod_0_l by lia;
  repeat match goal with H : (_ || _) = true |- _ => apply orb_true_iff in H as [?|?]; try done end; consts;
  repeat match goal with |- context [constImm ?w ?z] => rewrite (constImm_fits w z) by (first [assumption|apply fits_land_l; [lia|assumption]]) end;
  try done; bitblast.

Section Local.
Context (env : Env) (f : Function) (Hok : pool_ok f) (e : Expr) (Ht : exprTyped f e).

Lemma addNotOne_rule : op e = ExprOp.Add -> Rule env f e (addNotOne (operand e 0) (operand e 1)).
Proof using Type*. operand_types f e Ht. unfold addNotOne. ring_rule. Qed.

Lemma addNegated_rule arm : op e = ExprOp.Add -> arm ∈ arms -> Rule env f e (addNegated e arm).
Proof using Type*.
  operand_types f e Ht. intros [->| ->]%elem_of_arms; unfold addNegated; cbn [fst snd]; ring_rule.
Qed.

Lemma addReassociate_rule : op e = ExprOp.Add -> Rule env f e (addReassociate e).
Proof using Type*. operand_types f e Ht. unfold addReassociate, withRight, withLeft. ring_rule. Qed.

Lemma subNegated_rule : op e = ExprOp.Sub -> Rule env f e (subNegated (operand e 0) (operand e 1)).
Proof using Type*. operand_types f e Ht. unfold subNegated. ring_rule. Qed.

Lemma subReassociate_rule : op e = ExprOp.Sub -> Rule env f e (subReassociate e).
Proof using Type*. operand_types f e Ht. unfold subReassociate, withRight, withLeft. ring_rule. Qed.

Lemma subMirror_rule : op e = ExprOp.Sub -> Rule env f e (subMirror e).
Proof using Type*. operand_types f e Ht. unfold subMirror, withRight, withLeft. ring_rule. Qed.

Lemma addZero_rule : op e = ExprOp.Add -> Rule env f e (ruleIf (isZero (operand e 1)) (mret (operand e 0))).
Proof using Type*. operand_types f e Ht. unfold ruleIf, isZero. ring_rule. Qed.

Lemma subZero_rule : op e = ExprOp.Sub -> Rule env f e (ruleIf (isZero (operand e 1)) (mret (operand e 0))).
Proof using Type*. operand_types f e Ht. unfold ruleIf, isZero. ring_rule. Qed.

Lemma zeroSub_rule : op e = ExprOp.Sub -> Rule env f e (ruleIf (isZero (operand e 0)) (unary ExprOp.Neg (operand e 1))).
Proof using Type*. operand_types f e Ht. unfold ruleIf, isZero. ring_rule. Qed.

Lemma mulZero_rule : op e = ExprOp.Mul -> Rule env f e (ruleIf (isZero (operand e 1)) (constant (type e) 0)).
Proof using Type*. operand_types f e Ht. unfold ruleIf, isZero. bit_rule. Qed.

Lemma mulOne_rule : op e = ExprOp.Mul -> Rule env f e (ruleIf (isConst (operand e 1) 1) (mret (operand e 0))).
Proof using Type*. operand_types f e Ht. unfold ruleIf, isZero. ring_rule. Qed.

Lemma mulNested_rule : op e = ExprOp.Mul ->
  Rule env f e (foldNested ExprOp.Mul e (fun k1 k2 => zeroExtend (mul64 k1 k2) (bits (type e)))).
Proof using Type*. operand_types f e Ht. unfold foldNested. ring_rule. Qed.

Lemma andZero_rule : op e = ExprOp.And -> Rule env f e (ruleIf (isZero (operand e 1)) (constant (type e) 0)).
Proof using Type*. operand_types f e Ht. unfold ruleIf, isZero. bit_rule. Qed.

Lemma andOnes_rule : op e = ExprOp.And -> Rule env f e (ruleIf (allOnesOr (operand e 1) (operand e 0 =? operand e 1)%N) (mret (operand e 0))).
Proof using Type*. operand_types f e Ht. unfold ruleIf, allOnesOr. bit_rule. Qed.

Lemma andNested_rule : op e = ExprOp.And -> Rule env f e (foldNested ExprOp.And e Z.land).
Proof using Type*. operand_types f e Ht. unfold foldNested. bit_rule. Qed.

Lemma subSame_rule : op e = ExprOp.Sub -> Rule env f e (ruleIf (mret (operand e 0 =? operand e 1)%N) (constant (type e) 0)).
Proof using Type*. operand_types f e Ht. unfold ruleIf. bit_rule. Qed.

Lemma orZero_rule : op e = ExprOp.Or -> Rule env f e (ruleIf (zeroOr (operand e 1) (operand e 0 =? operand e 1)%N) (mret (operand e 0))).
Proof using Type*. operand_types f e Ht. unfold ruleIf, zeroOr, isZero. bit_rule. Qed.

Lemma orOnes_rule : op e = ExprOp.Or -> Rule env f e (ruleIf (isAllOnes (operand e 1)) (mret (operand e 1))).
Proof using Type*. operand_types f e Ht. unfold ruleIf. bit_rule. Qed.

Lemma xorZero_rule : op e = ExprOp.Xor -> Rule env f e (ruleIf (isZero (operand e 1)) (mret (operand e 0))).
Proof using Type*. operand_types f e Ht. unfold ruleIf, isZero. bit_rule. Qed.

Lemma xorSame_rule : op e = ExprOp.Xor -> Rule env f e (ruleIf (mret (operand e 0 =? operand e 1)%N) (constant (type e) 0)).
Proof using Type*. operand_types f e Ht. unfold ruleIf. bit_rule. Qed.

Lemma xorOnes_rule : op e = ExprOp.Xor -> Rule env f e (ruleIf (isAllOnes (operand e 1)) (unary ExprOp.Not (operand e 0))).
Proof using Type*.
  operand_types f e Ht. unfold ruleIf. rule; consts. symmetry. rewrite Z.ones_equiv, <-Z.sub_1_r. apply lxor_ones_sub; [lia|done].
Qed.

(** ** One operand, and shifts *)

Ltac operand_type f e Ht :=
  let Ho := fresh "Ho" in intros Ho; pose proof (unary_type f e Ht ltac:(by rewrite Ho) ltac:(by rewrite Ho)) as Tx;
  pose proof (proj1 (proj2 Ht)) as Hv.

Lemma rewriteNot_good : op e = ExprOp.Not -> wlp (rewriteNot e) (Good env f e) f.
Proof using Type*.
  operand_type f e Ht. unfold rewriteNot. repeat (build_step; types); try by apply good_unchanged.
  all: good; consts; modring w.
Qed.

Lemma rewriteNeg_good : op e = ExprOp.Neg -> wlp (rewriteNeg e) (Good env f e) f.
Proof using Type*.
  operand_type f e Ht. unfold rewriteNeg. repeat (build_step; types); try by apply good_unchanged.
  all: good; consts; modring w.
Qed.

Lemma rotR_0 w a : 1 <= w <= 64 -> fits w a -> uval (rotR (MkU128 a 0) w 0) = a.
Proof.
  intros Hw Ha. unfold rotR. rewrite Z.mod_0_l by lia. cbn [Z.eqb]. pose proof (narrow_canon w a Hw Ha) as Hc.
  rewrite mask_canon by (done || lia). by apply uval_narrow.
Qed.

Lemma shift_0 o w a : intArith o = true -> infoCategory (info o) = ExprCategory.IntShift -> 1 <= w <= 64 -> fits w a -> binValue o w a 0 = a.
Proof.
  intros Ho Hc Hw Ha. destruct o; try done; cbn [binValue]; change (u32 0) with 0; rewrite ?Z.shiftl_0_r, ?Z.shiftr_0_r.
  - by apply mod_small_fits.
  - by apply signed_mod; [lia|].
  - by apply rotR_0.
  - unfold rotL. rewrite Z.mod_0_l, Z.sub_0_r by lia. unfold rotR. rewrite Z.mod_same by lia. by apply rotR_0.
Qed.

Lemma rewriteShift_good :
  intArith (op e) = true -> infoCategory (info (op e)) = ExprCategory.IntShift -> wlp (rewriteShift e) (Good env f e) f.
Proof using Type*.
  intros Ho Hc. assert (isBinary (op e) = true /\ infoResult (info (op e)) = ResultRule.SameAsOperands) as [Hb Hi] by (by destruct (op e)).
  destruct (binary_types f e Ht Hb Hi) as [Tx Ty]. unfold rewriteShift, isZero, isConst. apply wlp_bind, wlp_bind, wlp_konstOf.
  { by apply wlp_ret, good_unchanged. }
  intros k Hk Hkc. apply wlp_ret. destruct (immediate k =? 0) eqn:Hz; [|by apply good_unchanged]. apply wlp_ret.
  apply good_int; [done|by left|done|done|done|]. intros w Hw Hty Htame Henv z Hz'. rewrite Hty in *.
  rewrite (denE_binary f env Hok Henv e w Ht ltac:(by destruct (op e)) Hw Tx) in Hz'.
  pose proof (den_int f env (operand e 1) k w Hok Henv Htame Hk Ty Hw) as Hd. rewrite Hkc in Hd. destruct Hd as [Hd _].
  apply Z.eqb_eq in Hz. rewrite Hd, Hz in Hz'. destruct (den f env (operand e 0)) as [a|] eqn:Ha; [|done]. cbn in Hz'.
  rewrite shift_0 in Hz'; [done|done|done|done|]. exact (den_fits f env Hok Henv _ w a Hw Tx Ha).
Qed.
End Local.

(** Doing nothing. *)
Lemma good_same env f e id : pool_ok f -> exprAt f id = Some e -> Good env f e id f.
Proof.
  intros Hok He. split_and!; [done|done|by apply exprAt_typeAt|]. intros _ _ _ v. by rewrite (sem_expr f env Hok id e He).
Qed.

Definition isCast (o : ExprOp) : bool :=
  match o with ExprOp.ZExt | ExprOp.SExt | ExprOp.Trunc | ExprOp.Extract => true | _ => false end.

(** The operand of a cast that has a value, and that value. *)
Lemma cast_operand env f e s v : pool_ok f -> env_ok f env -> exprTyped f e -> isCast (op e) = true ->
  exprAt f (operand e 0) = Some s -> semE f env e = Some v ->
  exists a, sem f env (operand e 0) = Some a /\ val_ok (type s) a /\ valid (type s) = true /\ evalOp e [type s] [a] = Ok v.
Proof.
  intros Hok Henv Ht Hc Hs Hv. pose proof (unary_operands f e Ht ltac:(by destruct (op e))) as Hops.
  apply semNode_Some in Hv as (ts & args & _ & Hts & Hargs & _ & Hv). rewrite Hops in Hts, Hargs.
  cbn in Hts. rewrite (exprAt_typeAt f _ s Hs) in Hts. injection Hts as <-.
  inversion Hargs as [|? a ? ? Ha Hn]; subst. inversion Hn; subst. exists a.
  destruct (sem_val_ok f env Hok Henv _ a Ha) as (s' & Hs' & Hok' & Hv' & _). assert (s' = s) as -> by congruence.
  split_and!; try done. unfold evalNode in Hv. by destruct (op e).
Qed.

Lemma valid_canon t a : valid t = true -> isFlags t = false -> val_ok t a -> canon (bits t) a /\ 0 <= bits t.
Proof. intros Hv Hf Ha. split; [by apply val_ok_int|by apply valid_bits]. Qed.

Lemma or128_zero a : or128 a zero128 = a.
Proof. destruct a as [l h]. unfold or128. cbn. by rewrite !Z.lor_0_r. Qed.
Lemma xor128_self a : xor128 a a = zero128.
Proof. unfold xor128. by rewrite !Z.lxor_nilpotent. Qed.

Lemma sext_same w a : 0 <= w -> canon w a -> sext a w w = a.
Proof.
  intros Hw Ha. unfold sext. rewrite (mask_canon a w) by done. destruct (negb _); [done|]. by rewrite xor128_self, or128_zero, mask_canon.
Qed.

(** A cast to the type it comes from does nothing. *)
Lemma cast_same env f e s v : pool_ok f -> env_ok f env -> exprTyped f e -> tameNode f e = true ->
  op e = ExprOp.ZExt \/ op e = ExprOp.SExt \/ op e = ExprOp.Trunc ->
  exprAt f (operand e 0) = Some s -> type s = type e -> semE f env e = Some v -> sem f env (operand e 0) = Some v.
Proof.
  intros Hok Henv Ht Htame Ho Hs Hty Hv.
  destruct (cast_operand env f e s v Hok Henv Ht ltac:(by destruct Ho as [->|[->| ->]]) Hs Hv) as (a & Ha & Hva & Hvs & Hr).
  assert (isFlags (type s) = false) as Hf by (rewrite Hty; unfold tameNode in Htame; destruct Ho as [Ho|[Ho|Ho]]; rewrite Ho in Htame; by apply negb_true_iff).
  destruct (valid_canon _ a Hvs Hf Hva) as [Hc Hb]. rewrite Ha. f_equal. unfold evalOp in Hr. rewrite <-Hty in Hr.
  destruct Ho as [Ho|[Ho|Ho]]; rewrite Ho in Hr; cbn [lookup list_lookup fmap option_fmap option_map ofOption mbind Res_bind argAt default from_option id] in Hr.
  - apply Ok_inj in Hr as <-. by rewrite zext_canon.
  - unfold guardWidth in Hr. destruct (_ =? 0); [done|]. apply Ok_inj in Hr as <-. by rewrite sext_same.
  - apply Ok_inj in Hr as <-. by rewrite mask_canon.
Qed.

Section Casts.
Context (env : Env) (f : Function) (Hok : pool_ok f) (node : N) (e : Expr) (He : exprAt f node = Some e).

Local Lemma Ht : exprTyped f e.
Proof using Hok He. by eapply exprAt_typed. Qed.

Lemma good_cast_same s : op e = ExprOp.ZExt \/ op e = ExprOp.SExt \/ op e = ExprOp.Trunc ->
  exprAt f (operand e 0) = Some s -> typeEq (type s) (type e) = true -> Good env f e (operand e 0) f.
Proof using Type*.
  intros Ho Hs Hty. rewrite typeEq_spec in Hty. apply bool_decide_eq_true in Hty.
  split_and!; [done|done|by rewrite <-Hty; apply exprAt_typeAt|]. intros Htame Hnode Henv v. apply (cast_same env f e s); auto using Ht.
Qed.

(** [trunc(zext(x))] at the width of [x]. *)
Lemma good_trunc_zext s x : op e = ExprOp.Trunc -> exprAt f (operand e 0) = Some s -> op s = ExprOp.ZExt ->
  exprAt f (operand s 0) = Some x -> typeEq (type x) (type e) = true -> Good env f e (operand s 0) f.
Proof using Type*.
  intros Ho Hs Hso Hx Hty. rewrite typeEq_spec in Hty. apply bool_decide_eq_true in Hty.
  split_and!; [done|done|by rewrite <-Hty; apply exprAt_typeAt|]. intros Htame Hnode Henv v Hv.
  destruct (cast_operand env f e s v Hok Henv Ht ltac:(by rewrite Ho) Hs Hv) as (a & Ha & _ & _ & Hr).
  rewrite (sem_expr f env Hok _ s Hs) in Ha.
  destruct (cast_operand env f s x a Hok Henv (exprAt_typed f _ s Hok Hs) ltac:(by rewrite Hso) Hx Ha) as (b & Hb & Hvb & Hvx & Hr').
  assert (isFlags (type x) = false) as Hf by (rewrite Hty; unfold tameNode in Hnode; rewrite Ho in Hnode; by apply negb_true_iff).
  destruct (valid_canon _ b Hvx Hf Hvb) as [Hc Hbits]. rewrite Hb. f_equal. unfold evalOp in Hr, Hr'. rewrite Ho in Hr. rewrite Hso in Hr'.
  cbn [lookup list_lookup fmap option_fmap option_map ofOption mbind Res_bind argAt default from_option id] in Hr, Hr'.
  apply Ok_inj in Hr as <-. apply Ok_inj in Hr' as <-. rewrite zext_canon by done. unfold argAt. cbn. rewrite <-Hty. by rewrite mask_canon.
Qed.

(** [extract(x, 0)] at a narrower width is a truncation. *)
Lemma good_extract s : op e = ExprOp.Extract -> immediate e = 0 -> exprAt f (operand e 0) = Some s -> bits (type e) < bits (type s) ->
  wlp (cast ExprOp.Trunc (type e) (operand e 0)) (Good env f e) f.
Proof using Type*.
  intros Ho Hi Hs Hlt. eapply wlp_cast; [done|left; split; [done|]|apply Ht|by apply exprAt_typeAt|]; [lia|].
  intros r g Hx Hg Hr. split_and!; [done|done|by apply (exprAt_typeAt g r _ Hr)|]. intros Htame Hnode Henv v Hv.
  pose proof (exprTyped_ext f g e (pool_ext_grows _ _ Hx) Ht) as Htg. apply (exprAt_ext f g _ _ (pool_ext_grows _ _ Hx)) in Hs.
  destruct (cast_operand env g e s v Hg Henv Htg ltac:(by rewrite Ho) Hs Hv) as (a & Ha & Hva & Hvs & Hev).
  pose proof (valid_bits _ (proj1 (proj2 Htg))) as Hb.
  assert (isFlags (type s) = false) as Hf by (destruct (isFlags (type s)) eqn:Hf; [apply isFlags_bits in Hf; [lia|done]|done]).
  destruct (valid_canon _ a Hvs Hf Hva) as [Hc _]. unfold evalOp in Hev. rewrite Ho, Hi in Hev.
  cbn [lookup list_lookup fmap option_fmap option_map ofOption mbind Res_bind argAt default from_option id] in Hev.
  apply Ok_inj in Hev as <-. rewrite (sem_expr g env Hg r _ Hr). unfold semE. apply semNode_Some. exists [type s], [a]. split_and!.
  - cbn [type]. apply semNode_Some in Hv as (? & ? & Hw & _). done.
  - cbn. by rewrite (exprAt_typeAt g _ s Hs).
  - by constructor.
  - done.
  - unfold evalNode, evalOp. cbn [op type]. f_equal. unfold argAt, extract. cbn [lookup list_lookup default from_option id].
    change (u32 0) with 0. unfold shrU. cbn [Z.eqb]. by rewrite (mask_canon a (bits (type s))) by (done || lia).
Qed.

Lemma rewriteCast_good : isCast (op e) = true -> wlp (rewriteCast e node) (Good env f e) f.
Proof using Type*.
  intros Hc. pose proof (good_same env f e node Hok He) as Hsame. unfold rewriteCast. apply wlp_bind, wlp_exprOf. intros s Hs.
  destruct (op e) eqn:Ho; try done.
  1,2: apply wlp_ret; destruct (typeEq _ _) eqn:Hty; [|done]; apply (good_cast_same s); auto.
  - destruct (typeEq _ _) eqn:Hty; [apply wlp_ret, (good_cast_same s); auto|]. apply rules_or; [|by apply wlp_ret].
    constructor; [|done]. unfold truncZext. destruct (negb _) eqn:Hz; [apply rule_none|]. apply negb_false_iff, bool_decide_eq_true in Hz.
    apply rule_exprOf. intros x Hx. destruct (typeEq (type x) _) eqn:Htx; [|apply rule_none]. apply rule_some. by apply (good_trunc_zext s x).
  - destruct (_ && _) eqn:Hx; [|by apply wlp_ret]. apply andb_true_iff in Hx as [Hi%Z.eqb_eq Hlt%Z.ltb_lt].
    by apply (good_extract s).
Qed.

(** ** Constant folding *)

Lemma env_ok_back g : pool_ext f g -> env_ok g env -> env_ok f env.
Proof using Type.
  intros Hx [Hv Hr]. split; intros k v i.
  - intros H. unfold valueAt. rewrite <-(pool_ext_tables f g Hx). by apply Hv.
  - intros H. rewrite <-(pool_ext_registers f g Hx). by apply Hr.
Qed.

Lemma good_folded c : tryEvalConst f node = Ok c -> isScalarInteger (type e) = true -> wlp (constant (type e) (lo c)) (Good env f e) f.
Proof using Type*.
  intros Hc Hs. destruct (scalar_type _ (proj1 (proj2 Ht)) Hs) as [Hty Hw]. eapply wlp_constant; [done|apply Ht|]. intros r g Hx Hg Hr.
  split_and!; [done|done|by apply (exprAt_typeAt g r _ Hr)|]. intros Htame _ Henv v Hv.
  pose proof (exprAt_ext f g _ _ (pool_ext_grows _ _ Hx) He) as Heg. rewrite <-(sem_expr g env Hg node e Heg) in Hv.
  assert (typeAt g node = Some (integer (bits (type e)))) as Htid by (rewrite <-Hty; by apply exprAt_typeAt).
  destruct (sem_int g env Hg Henv node _ v Hw Htid Hv) as [Heq Hfit]. apply (sem_Strict g env Hg) in Hv.
  assert (c = v) as ->.
  { apply (evalConstRec_agrees 257 f env node 0 v c Hok); [by apply (env_ok_back g)| |done].
    apply (Eval_shrinks _ f g); [done|by apply pool_ext_grows|apply hasExpr_exprAt; by exists e|done]. }
  rewrite Hty in Hr. destruct (den_constant g env r _ _ Hg Henv Htame Hr Hw) as [Hd _].
  rewrite constImm_fits in Hd by done. rewrite (sem_den g env Hg Henv r _ Hw (exprAt_typeAt g r _ Hr)), Hd. cbn. by rewrite <-Heq.
Qed.

Lemma foldNode_rule : Rule env f e (foldNode e node).
Proof using Type*.
  unfold foldNode. destruct (_ && _) eqn:Hg; [|apply rule_none]. apply andb_true_iff in Hg as [[_ Hs]%andb_true_iff _].
  apply wlp_bind. intros folded f1 Hf. destruct (tryEvalConst f node) as [c| |] eqn:Hc; injection Hf as <- <- || done; [|apply rule_none].
  by apply rule_built, good_folded.
Qed.
End Casts.
