(* ===== verification/AlgebraShapes.v ===== *)
(** * The shapes of algebra are what they stand for (passes/algebra_idioms.cpp) *)
From Stdlib Require Import Zbitwise.
From S2P Require Import Prelude Bits U128 Types Exprs Registers Func.
From S2P Require Import Eval VerifyExpr ValueTypes EvalProps Rewrite Fold FoldProps Denote AlgebraIdioms Algebra AlgebraRules AlgebraLocal.

(** ** Mixed boolean and arithmetic *)

Lemma lxor_mba a b : Z.lxor a b = a + b - 2 * Z.land a b.
Proof. pose proof (Z.add_lxor_2land a b). lia. Qed.
Lemma lor_mba a b : Z.lor a b = a + b - Z.land a b.
Proof. pose proof (Z.add_lor_land a b). lia. Qed.

(** Bitwise operations on two leaves, as sums and their conjunction. *)
Ltac mba_pair w a b :=
  rewrite ?(Z.land_comm b a), ?(Z.lor_comm b a), ?(Z.lxor_comm b a);
  try (rewrite <-(mod_small_fits w (Z.lor a b)) by (apply fits_lor; [lia|assumption|assumption]));
  try (rewrite <-(mod_small_fits w (Z.lxor a b)) by (apply fits_lxor; [lia|assumption|assumption]));
  rewrite ?lxor_mba, ?lor_mba; modring w.

Ltac mba :=
  consts; change (u32 1) with 1; rewrite ?Z.shiftl_mul_pow2 by lia; rewrite ?(Z.pow_1_r 2);
  match goal with
  | Hw : 1 <= ?w <= 64 |- context [Z.land ?a ?b] => mba_pair w a b
  | Hw : 1 <= ?w <= 64 |- context [Z.lor ?a ?b] => mba_pair w a b
  end.

(** [(2v | 2) - (v ^ 1)]: the low bits cancel. *)
Lemma increment_mba w v : 1 <= w <= 64 -> fits w 2 -> (v + 1) mod 2 ^ w = (Z.lor ((v * 2) mod 2 ^ w) 2 - Z.lxor v 1) mod 2 ^ w.
Proof.
  intros Hw H2. assert (2 <= w). { destruct (Z.eq_dec w 1) as [->|]; [unfold fits in H2; lia|lia]. }
  assert (Z.land ((v * 2) mod 2 ^ w) 2 = 2 * Z.land v 1) as Hl.
  { change 2 with (2 ^ 1) at 1 3 4. rewrite (Z.mul_comm (2 ^ 1)), <-!Z.shiftl_mul_pow2 by lia. bitblast. }
  rewrite lor_mba, lxor_mba, Hl. modring w.
Qed.

(** ** Masks *)

Lemma u32_small z : 0 <= z < 2 ^ 32 -> u32 z = z.
Proof. apply Z.mod_small. Qed.

Lemma land_disjoint m r i : 0 <= i -> Z.land m r = 0 -> Z.testbit m i = true -> Z.testbit r i = false.
Proof. intros Hi H Hm. apply (f_equal (fun z => Z.testbit z i)) in H. by rewrite Z.land_spec, Hm, Z.testbit_0_l in H. Qed.

Lemma land_masked x y m : (forall i, 0 <= i -> Z.testbit m i = true -> Z.testbit x i = Z.testbit y i) -> Z.land x m = Z.land y m.
Proof.
  intros H. apply Z.bits_inj'. intros i Hi. rewrite !Z.land_spec. destruct (Z.testbit m i) eqn:Hm; [|by rewrite !andb_false_r].
  by rewrite H.
Qed.

Lemma land_covers x m r : (forall i, 0 <= i -> Z.testbit x i = true -> Z.testbit r i = true) -> Z.land m r = r -> Z.land x m = x.
Proof.
  intros H Hm. apply Z.bits_inj'. intros i Hi. rewrite Z.land_spec. destruct (Z.testbit x i) eqn:Hx; [|done].
  specialize (H i Hi Hx). rewrite <-Hm, Z.land_spec in H. by apply andb_true_iff in H as [-> _].
Qed.

(** Rotating right by [n], where a mask looks at one part of the result. *)
Lemma rotR_high w n a m : 1 <= w <= 64 -> 0 < n < w -> fits w a -> fits w m -> Z.land m (lowMask (w - n)) = 0 ->
  Z.land (Z.shiftl a (w - n) mod 2 ^ w) m = Z.land (uval (rotR (MkU128 a 0) w n)) m.
Proof.
  intros Hw Hn Ha Hm H. apply land_masked. intros i Hi Hb. pose proof (land_disjoint _ _ i Hi H Hb) as Hlow.
  rewrite testbit_lowMask in Hlow by lia. destruct (Z.ltb_spec i w); [|by rewrite (testbit_high w m i) in Hb].
  rewrite testbit_rotR, uval_narrow by (lia || by apply narrow_canon). replace (i <? w) with true by lia. cbn [andb].
  rewrite Z.testbit_mod_pow2, testbit_shiftl by lia. replace (i <? w) with true by lia. replace (0 <=? i) with true by lia. cbn [andb].
  f_equal. assert (w - n <= i) by lia. replace (i + n) with (i - (w - n) + 1 * w) by lia. by rewrite Z.mod_add, Z.mod_small by lia.
Qed.

Lemma rotR_low w n a m : 1 <= w <= 64 -> 0 < n < w -> fits w a -> fits w m -> Z.land m (zeroExtend (not64 (lowMask (w - n))) w) = 0 ->
  Z.land (Z.shiftr a n) m = Z.land (uval (rotR (MkU128 a 0) w n)) m.
Proof.
  intros Hw Hn Ha Hm H. apply land_masked. intros i Hi Hb. pose proof (land_disjoint _ _ i Hi H Hb) as Hlow.
  destruct (Z.ltb_spec i w); [|by rewrite (testbit_high w m i) in Hb].
  rewrite zeroExtend_mod_le, Z.testbit_mod_pow2, testbit_not64, testbit_lowMask in Hlow by lia.
  rewrite testbit_rotR, uval_narrow by (lia || by apply narrow_canon). replace (i <? w) with true in * by lia. cbn [andb] in *.
  rewrite testbit_shiftr. replace (0 <=? i) with true in * by lia. cbn [andb]. by rewrite Z.mod_small by lia.
Qed.

Lemma reachable_shl w n a m : 1 <= w <= 64 -> 0 <= n < w -> Z.land m (zeroExtend (shl64 (not64 0) n) w) = zeroExtend (shl64 (not64 0) n) w ->
  Z.land (Z.shiftl a n mod 2 ^ w) m = Z.shiftl a n mod 2 ^ w.
Proof.
  intros Hw Hn H. eapply land_covers; [|exact H]. intros i Hi Hb.
  rewrite zeroExtend_mod_le by lia. revert Hb. rewrite !Z.testbit_mod_pow2, testbit_shl64, testbit_not64, testbit_shiftl, Z.testbit_0_l by lia.
  destruct (Z.ltb_spec i w); [|done]. cbn [andb]. destruct (Z.leb_spec 0 i); [|done]. cbn [andb negb].
  destruct (Z.lt_ge_cases i n); [by rewrite Z.testbit_neg_r by lia|]. lia.
Qed.

Lemma reachable_shrU w n a m : 1 <= w <= 64 -> 0 <= n < w -> fits w a -> Z.land m (lowMask (w - n)) = lowMask (w - n) ->
  Z.land (Z.shiftr a n) m = Z.shiftr a n.
Proof.
  intros Hw Hn Ha H. eapply land_covers; [|exact H]. intros i Hi Hb.
  rewrite testbit_lowMask by lia. revert Hb. rewrite testbit_shiftr. destruct (Z.ltb_spec (i + n) w); [lia|].
  rewrite (testbit_high w a) by (done || lia). by rewrite andb_false_r.
Qed.

Lemma constImm_amount w z : 1 <= w <= 64 -> 0 <= z <= w -> constImm w z = z.
Proof. intros Hw Hz. pose proof (Z.pow_gt_lin_r 2 w ltac:(lia) ltac:(lia)). apply constImm_fits; [done|]. unfold fits. lia. Qed.

(** ** Sign extension *)

Lemma testbit_signed w a i : 1 <= w -> 0 <= i -> fits w a ->
  Z.testbit (signed w a) i = if i <? w then Z.testbit a i else Z.testbit a (w - 1).
Proof.
  intros Hw Hi Ha. rewrite signed_top by done. destruct (Z.testbit a (w - 1)) eqn:Htop.
  - assert (a - 2 ^ w = Z.lor a (Z.shiftl (-1) w)) as -> by (rewrite lor_add_shiftl by (done || lia); lia).
    rewrite Z.lor_spec, testbit_shiftl. replace (0 <=? i) with true by lia. cbn [andb]. destruct (Z.ltb_spec i w).
    + by rewrite (Z.testbit_neg_r (-1)), orb_false_r by lia.
    + by rewrite Z.bits_m1, orb_true_r by lia.
  - destruct (Z.ltb_spec i w); [done|]. by apply (testbit_high w).
Qed.

(** A field below a spread sign bit. *)
Lemma sign_extend_mba w k v : 1 <= k < w -> w <= 64 ->
  signed k (v mod 2 ^ k) mod 2 ^ w =
  Z.lor (Z.land (signed 1 (Z.shiftr v (k - 1) mod 2 ^ 1) mod 2 ^ w) (zeroExtend (not64 (lowMask k)) w)) (Z.land v (lowMask k)).
Proof.
  intros Hk Hw. apply Z.bits_inj'. intros i Hi. rewrite zeroExtend_mod_le by lia.
  rewrite Z.lor_spec, !Z.land_spec, !Z.testbit_mod_pow2, testbit_not64, !testbit_lowMask, !testbit_signed by (lia || apply fits_mod; lia).
  rewrite !Z.testbit_mod_pow2, !testbit_shiftr, Z.min_l by lia. destruct (Z.ltb_spec i w); cbn [andb orb].
  - replace (i <? 64) with true by lia. replace (0 <=? i) with true by lia. destruct (Z.ltb_spec i k); cbn [andb negb].
    + by rewrite andb_false_r, andb_true_r.
    + replace (k - 1 <? k) with true by lia. rewrite andb_true_r, andb_false_r, orb_false_r.
      destruct (Z.ltb_spec i 1); cbn [andb]; [f_equal; lia|]. change (1 - 1 <? 1) with true. change (0 <=? 1 - 1) with true. cbn [andb]. f_equal; lia.
  - destruct (Z.ltb_spec i k); [lia|]. by rewrite !andb_false_r.
Qed.

Lemma neg_low_bit w v : 1 < w -> (- Z.land v 1) mod 2 ^ w = signed 1 (v mod 2 ^ 1) mod 2 ^ w.
Proof.
  intros Hw. change 1 with (Z.ones 1) at 1. rewrite Z.land_ones by lia. f_equal.
  pose proof (Z.mod_pos_bound v (2 ^ 1) ltac:(lia)) as Hb. unfold signed. change (2 ^ (1 - 1)) with 1. change (2 ^ 1) with 2 in *.
  destruct (Z.ltb_spec (v mod 2) 1); lia.
Qed.

(** A shift amount below the width. *)
Ltac amounts :=
  repeat match goal with H : (_ || _) = false |- _ => apply orb_false_iff in H as [? ?] end;
  repeat match goal with
  | Fit : fits ?w ?k, Hw : 1 <= ?w <= 64, H : (?w <=? ?k) = false |- _ =>
      apply Z.leb_gt in H; assert (0 <= k < w) by (unfold fits in Fit; lia)
  | H : (?k =? 0) = false |- _ => apply Z.eqb_neq in H
  | H : negb _ = false |- _ => apply negb_false_iff in H
  | H : (_ =? _) = true |- _ => apply Z.eqb_eq in H
  end;
  rewrite ?constImm_amount, ?u32_small by lia.

Section Mba.
Context (env : Env) (f : Function) (Hok : pool_ok f) (e : Expr) (Ht : exprTyped f e).

Lemma matchMbaAdd_rule : op e = ExprOp.Add -> Rule env f e (matchMbaAdd e).
Proof using Type*. operand_types f e Ht. unfold matchMbaAdd, matchMbaAddArm. rule; mba. Qed.

Lemma matchMbaOr_rule : op e = ExprOp.Or -> Rule env f e (matchMbaOr e).
Proof using Type*. operand_types f e Ht. unfold matchMbaOr. rule; consts; bitblast. Qed.

Lemma matchMbaXor_rule : op e = ExprOp.Xor -> Rule env f e (matchMbaXor e).
Proof using Type*. operand_types f e Ht. unfold matchMbaXor. rule; consts; bitblast. Qed.

Lemma matchMbaSub_rule : op e = ExprOp.Sub -> Rule env f e (matchMbaSub e).
Proof using Type*. operand_types f e Ht. unfold matchMbaSub. rule; mba. Qed.


Lemma matchObfuscatedIncrement_rule : op e = ExprOp.Sub -> Rule env f e (matchObfuscatedIncrement e).
Proof using Type*.
  operand_types f e Ht. unfold matchObfuscatedIncrement. rule; amounts; consts; change (u32 1) with 1; rewrite ?Z.shiftl_mul_pow2, ?Z.pow_1_r by lia; by apply increment_mba.
Qed.

Lemma matchMaskedRotate_rule : op e = ExprOp.And -> Rule env f e (matchMaskedRotate e).
Proof using Type*.
  operand_types f e Ht. unfold matchMaskedRotate. rule; amounts; unfold rotL; rewrite ?(Z.mod_small (immediate _)) by lia.
  - by apply rotR_high; [|lia|..].
  - by apply rotR_low; [|lia|..].
  - by apply rotR_high; [|lia|..].
  - by apply rotR_low; [|lia|..].
Qed.

Lemma reachableBits_shl w n r : n < w -> reachableBits ExprOp.Shl w n = Some r -> r = zeroExtend (shl64 (not64 0) n) w.
Proof. intros Hn. unfold reachableBits. if_false. destruct (64 <=? n); [done|]. by intros [= <-]. Qed.
Lemma reachableBits_shrU w n r : n < w -> reachableBits ExprOp.ShrU w n = Some r -> r = lowMask (w - n).
Proof. intros Hn. unfold reachableBits. if_false. by intros [= <-]. Qed.

Lemma matchMaskedShift_rule : op e = ExprOp.And -> Rule env f e (matchMaskedShift e).
Proof using Type*.
  operand_types f e Ht. unfold matchMaskedShift. rule; amounts; symmetry.
  - apply (reachable_shl w); [done|lia|]. erewrite <-reachableBits_shl; [eassumption|lia|by rewrite <-Ho0].
  - apply (reachable_shrU w); [done|lia|done|]. erewrite <-reachableBits_shrU; [eassumption|lia|by rewrite <-Ho0].
Qed.

Lemma isBitOf_true bit index source : isBitOf bit index source = true ->
  isBoolean (type bit) = true /\ operand bit 0 = source /\ (op bit = ExprOp.Extract /\ immediate bit = index \/ op bit = ExprOp.Trunc /\ index = 0).
Proof.
  unfold isBitOf. destruct (negb _ || _ || _) eqn:Hc; [done|]. rewrite !orb_false_iff, !negb_false_iff, N.eqb_eq in Hc.
  destruct Hc as [[Hb _] Hs]. intros H. split_and!; [done|done|]. destruct (decide (op bit = ExprOp.Extract)); [left|right].
  - split; [done|]. by apply Z.eqb_eq.
  - by apply andb_true_iff in H as [?%bool_decide_eq_true ?%Z.eqb_eq].
Qed.

(** What the tests of [matchSignArm] say of the widths. *)
Ltac sign_facts f Hok :=
  repeat match goal with H : (_ || _) = false |- _ => apply orb_false_iff in H as [? ?] end;
  match goal with H : negb (isBitOf _ _ _) = false |- _ => apply negb_false_iff, isBitOf_true in H as (Hbool & Hsrc & Hbit) end;
  repeat match goal with H : negb (_ =? _) = false |- _ => apply negb_false_iff, Z.eqb_eq in H end;
  match goal with B : exprAt f _ = Some ?b, Hbool : isBoolean (type ?b) = true |- _ =>
    pose proof (exprAt_typeAt f _ b B) as Tb; rewrite (boolean_type _ (typeAt_valid f _ _ Hok Tb) Hbool) in Tb end;
  types;
  match goal with
  | Hsrc : operand ?b 0 = ?v, T : typeAt f ?v = Some ?t |- _ => assert (typeAt f (operand b 0) = Some t) by (by rewrite Hsrc)
  end;
  assert (1 <= 1 <= 64) by lia;
  match goal with H : _ = lowMask ?k |- _ => assert (1 <= k <= 32) by lia; assert (1 <= k <= 64) by lia; set (fb := k) in *; clearbody fb end.

Ltac sign_goal :=
  rewrite ?u32_small by lia;
  try match goal with |- _ = Z.lor (Z.land ?a (lowMask ?k)) ?b => rewrite (Z.lor_comm (Z.land a (lowMask k)) b) end;
  lazymatch goal with
  | |- _ = Z.lor (Z.land (signed 1 (Z.shiftr ?a (?k - 1) mod _) mod 2 ^ ?w) _) _ => rewrite <-(sign_extend_mba w k a) by lia
  | |- _ = Z.lor (Z.land (signed 1 (?a mod _) mod 2 ^ ?w) (zeroExtend (not64 (lowMask ?k)) _)) _ =>
      pose proof (sign_extend_mba w k a ltac:(lia) ltac:(lia)) as Hs; replace (k - 1) with 0 in Hs by lia; rewrite Z.shiftr_0_r in Hs; rewrite <-Hs
  end;
  first [reflexivity|match goal with H : ?k = 1 |- _ => rewrite H; apply neg_low_bit; lia end].

Lemma matchSignExtend_rule : op e = ExprOp.Or -> Rule env f e (matchSignExtend e).
Proof using Type*.
  operand_types f e Ht. unfold matchSignExtend, matchSignArm. repeat rule_step; sign_facts f Hok.
  all: repeat build_step; try assumption; rewrite ?bits_int by assumption; try lia; try (by apply integer_facts).
  all: destruct Hbit as [[? ?]|[? ?]].
  all: good; consts; sign_goal.
Qed.

(** ** Even products *)

(** A factor next to the other one: [x - 1], [x + 1] or [~x] beside [x]. *)
Definition besideIt (g : Function) (factor : Expr) (other : N) : Prop :=
  operand factor 0 = other /\
  (op factor = ExprOp.Not \/
   (op factor = ExprOp.Sub \/ op factor = ExprOp.Add) /\
   exists k, exprAt g (operand factor 1) = Some k /\ op k = ExprOp.Const /\ immediate k = 1).

Lemma wlp_matchEvenArm p arm :
  wlp (matchEvenArm p arm) (fun o g => g = f /\ (is_Some o -> exists x, exprAt f (operand p arm.1) = Some x /\ besideIt f x (operand p arm.2))) f.
Proof using Type.
  unfold matchEvenArm. apply wlp_bind, wlp_exprOf. intros x Hx. apply wlp_bind.
  set (Φ := fun (o : option unit) (g : Function) => g = f /\ (is_Some o -> besideIt f x (operand p arm.2))).
  assert (forall b, wlp (mret (if bool_decide (op x = ExprOp.Not) && (operand x 0 =? b)%N then Some () else None))
    (fun o g => g = f /\ (is_Some o -> b = operand p arm.2 -> besideIt f x (operand p arm.2))) f) as Hnot.
  { intros b. apply wlp_ret. split; [done|]. destruct (_ && _) eqn:H; [|by intros [? ?]]. intros _ <-.
    apply andb_true_iff in H as [?%bool_decide_eq_true ?%N.eqb_eq]. split; [done|by left]. }
  apply (wlp_mono _ Φ).
  - destruct (_ || _) eqn:Ho; [|by apply wlp_ret; split; [done|intros [? ?]]].
    apply wlp_bind, wlp_konstOf; [by apply wlp_ret; split; [done|intros [? ?]]|]. intros k Hk Hkc. apply wlp_ret. split; [done|].
    destruct (_ && _) eqn:H; [|by intros [? ?]]. intros _. apply andb_true_iff in H as [?%Z.eqb_eq ?%N.eqb_eq]. split; [done|]. right. split; [|by exists k].
    apply orb_true_iff in Ho as [?%bool_decide_eq_true|?%bool_decide_eq_true]; auto.
  - intros o g [-> H]. destruct o as [u|].
    + apply wlp_ret. split; [done|]. intros _. exists x. auto.
    + eapply wlp_mono; [apply Hnot|]. intros o g [-> H']. split; [done|]. intros Hs. exists x. split; [done|]. by apply H'.
Qed.

(** A product of neighbours is even. *)
Lemma even_product w a b : 1 <= w -> (b = (a - 1) mod 2 ^ w \/ b = (a + 1) mod 2 ^ w \/ b = (-1 - a) mod 2 ^ w) -> Z.land ((a * b) mod 2 ^ w) 1 = 0.
Proof using Type.
  intros Hw Hb. change 1 with (Z.ones 1) at 1. rewrite Z.land_ones, mod_pow2_mod_pow2 by lia. change (2 ^ 1) with 2.
  assert (exists k, b = 2 * k + a + 1) as [k ->].
  { assert (forall z, exists q, z mod 2 ^ w = z + 2 * q) as Hz.
    { intros z. exists (- 2 ^ (w - 1) * (z / 2 ^ w)). rewrite Z.mod_eq, (pow2_half w) by lia. lia. }
    destruct Hb as [->|[->| ->]]; [destruct (Hz (a - 1)) as [q ->]; exists (q - 1)|destruct (Hz (a + 1)) as [q ->]; exists q
      |destruct (Hz (-1 - a)) as [q ->]; exists (q - a - 1)]; lia. }
  replace (a * (2 * k + a + 1)) with (a * (a + 1) + a * k * 2) by lia. rewrite Z.mod_add by lia.
  rewrite <-Z.bit0_mod, Z.bit0_odd, Z.odd_mul, Z.add_1_r, Z.odd_succ, <-Z.negb_odd. by destruct (Z.odd a).
Qed.

Lemma wlp_matchEvenProduct id (Φ : bool -> Function -> Prop) :
  Φ false f ->
  (forall p arm x, exprAt f id = Some p -> op p = ExprOp.Mul -> arm ∈ arms -> exprAt f (operand p arm.1) = Some x ->
     besideIt f x (operand p arm.2) -> Φ true f) -> wlp (matchEvenProduct id) Φ f.
Proof using Type.
  intros HN HS. apply wlp_bind, wlp_exprOf. intros p Hp. destruct (negb _) eqn:Hm; [by apply wlp_ret|].
  apply negb_false_iff, bool_decide_eq_true in Hm. apply wlp_bind.
  assert (forall xs, (forall arm, arm ∈ xs -> arm ∈ arms) ->
    wlp (firstOf (matchEvenArm p) xs) (fun o g => g = f /\ (is_Some o -> Φ true f)) f) as Hfirst.
  { induction xs as [|arm xs IH]; intros Hin; [by apply wlp_ret; split; [done|intros [? ?]]|]. cbn [firstOf]. apply wlp_bind.
    eapply wlp_mono; [apply wlp_matchEvenArm|]. intros o g [-> H]. destruct o as [u|].
    - apply wlp_ret. split; [done|]. intros Hs. destruct (H Hs) as (x & Hx & Hb). eapply HS; try done. apply Hin. by left.
    - apply IH. intros a Ha. apply Hin. by right. }
  eapply wlp_mono; [by apply Hfirst|]. intros o g [-> H]. apply wlp_ret. case_bool_decide; auto.
Qed.

Lemma andEven_rule : op e = ExprOp.And -> Rule env f e (andEven e).
Proof using Type*.
  operand_types f e Ht. unfold andEven. rule_step; [apply rule_none|]. apply wlp_bind, wlp_matchEvenProduct; [apply rule_none|].
  intros p arm y Hp Hm Harm Hy [Hn Hy']. apply elem_of_arms in Harm as [->| ->]; cbn [fst snd] in *;
    change (Rule env f e (built (constant (type e) 0))).
  all: destruct Hy' as [Hnot|[[Hs|Ha] (k & Hk & Hkc & Hk1)]]; types; repeat build_step; good.
  all: consts; symmetry; rewrite ?(Z.mul_comm (_ mod _)); apply even_product; [lia|tauto].
Qed.
End Mba.
