(* ===== verification/AlgebraTests.v ===== *)
(** * Comparisons, selections, flags and casts of algebra are sound *)
From S2P Require Import Prelude Bits U128 Types Exprs Registers Func.
From S2P Require Import Eval VerifyExpr ValueTypes EvalProps Ceval Rewrite Fold FoldProps Denote AlgebraIdioms Algebra AlgebraRules AlgebraLocal AlgebraShapes.

(** ** Shifted comparisons *)

Lemma shl_mod w k a : 0 <= k <= w -> Z.shiftl a k mod 2 ^ w = a mod 2 ^ (w - k) * 2 ^ k.
Proof.
  intros Hk. rewrite Z.shiftl_mul_pow2 by lia. replace (2 ^ w) with (2 ^ (w - k) * 2 ^ k) by (rewrite <-Z.pow_add_r by lia; f_equal; lia).
  by rewrite Z.mul_mod_distr_r by lia.
Qed.

Lemma signed_scale w k a : 0 <= k < w -> signed w (a * 2 ^ k) = signed (w - k) a * 2 ^ k.
Proof.
  intros Hk. unfold signed.
  replace (2 ^ (w - 1)) with (2 ^ (w - k - 1) * 2 ^ k) by (rewrite <-Z.pow_add_r by lia; f_equal; lia).
  replace (2 ^ w) with (2 ^ (w - k) * 2 ^ k) by (rewrite <-Z.pow_add_r by lia; f_equal; lia).
  destruct (Z.ltb_spec a (2 ^ (w - k - 1))), (Z.ltb_spec (a * 2 ^ k) (2 ^ (w - k - 1) * 2 ^ k)); nia.
Qed.

Lemma eqb_scale p x y : 0 < p -> (x * p =? y * p) = (x =? y).
Proof. intros Hp. apply eq_true_iff_eq. rewrite !Z.eqb_eq. nia. Qed.
Lemma ltb_scale p x y : 0 < p -> (x * p <? y * p) = (x <? y).
Proof. intros Hp. apply eq_true_iff_eq. rewrite !Z.ltb_lt. nia. Qed.
Lemma leb_scale p x y : 0 < p -> (x * p <=? y * p) = (x <=? y).
Proof. intros Hp. apply eq_true_iff_eq. rewrite !Z.leb_le. nia. Qed.

(** Comparing two values shifted by the same amount compares what is left of them. *)
Lemma compare_shifted o w k a b : isCompare o = true -> 0 <= k < w ->
  binValue o w (Z.shiftl a k mod 2 ^ w) (Z.shiftl b k mod 2 ^ w) = binValue o (w - k) (a mod 2 ^ (w - k)) (b mod 2 ^ (w - k)).
Proof.
  intros Ho Hk. rewrite !shl_mod by lia. set (x := a mod _). set (y := b mod _). assert (0 < 2 ^ k) as Hp by lia.
  destruct o; try done; cbn [binValue plainValue]; rewrite ?signed_scale by lia; f_equal;
    rewrite ?eqb_scale, ?ltb_scale, ?leb_scale by lia; done.
Qed.

Lemma shift_facts width amount : 0 <= width -> (amount =? 0) || (width <=? u64 amount) = false ->
  negb (width - amount =? 8) && negb (width - amount =? 16) && negb (width - amount =? 32) = false ->
  0 < amount < width /\ 1 <= width - amount <= 32 /\ 1 <= width - amount <= 64.
Proof.
  intros Hw [Ha%Z.eqb_neq Hu%Z.leb_gt]%orb_false_iff Hn. assert (1 <= width - amount <= 32) by lia.
  destruct (Z.lt_ge_cases amount 0) as [Hneg|]; [|lia]. exfalso. unfold u64 in Hu.
  rewrite <-(Z.mod_unique amount (2 ^ 64) (-1) (amount + 2 ^ 64)) in Hu by lia. lia.
Qed.

(** A constant without low bits is one that was shifted. *)
Lemma shifted_const w k c : 1 <= w <= 64 -> 0 < k < w -> fits w c -> Z.land c (lowMask k) = 0 ->
  exists b, c = Z.shiftl b k mod 2 ^ w /\ constImm (w - k) (shr64 c k) = b mod 2 ^ (w - k).
Proof.
  intros Hw Hk Hc H. exists (Z.shiftr c k). assert (fits (w - k) (Z.shiftr c k)) as Hs by (apply fits_shiftr_sub; [lia|done]). split.
  - apply Z.bits_inj'. intros i Hi. rewrite Z.testbit_mod_pow2, testbit_shiftl, testbit_shiftr by lia.
    destruct (Z.ltb_spec i w); [|by rewrite (testbit_high w c)]. replace (0 <=? i) with true by lia. cbn [andb].
    destruct (Z.leb_spec 0 (i - k)); cbn [andb]; [f_equal; lia|].
    apply (f_equal (fun z => Z.testbit z i)) in H. rewrite Z.land_spec, testbit_lowMask, Z.testbit_0_l in H by lia.
    replace (i <? Z.min k 64) with true in H by lia. replace (0 <=? i) with true in H by lia. by rewrite !andb_true_r in H.
  - rewrite mod_small_fits by done. apply constImm_fits; [lia|done].
Qed.

Ltac shifted_constant :=
  match goal with
  | H : Z.land ?c (lowMask ?k) = 0, F : fits ?w ?c, Hw : 1 <= ?w <= 64 |- _ =>
      let Hc := fresh "Hc" in let Hs := fresh "Hs" in
      destruct (shifted_const w k c Hw ltac:(lia) F H) as (? & Hc & Hs); rewrite Hs, Hc; symmetry; apply compare_shifted; [done|lia]
  end.

(** [(k1 - c) + a] against [k2 - c]. *)
Lemma equality_sym o w x y : o = ExprOp.CmpEq \/ o = ExprOp.CmpNe -> binValue o w x y = binValue o w y x.
Proof. intros [->| ->]; cbn [binValue plainValue]; by rewrite Z.eqb_sym. Qed.

Lemma equality_cancels o w a c k1 k2 : o = ExprOp.CmpEq \/ o = ExprOp.CmpNe -> fits w a ->
  binValue o w a ((k2 - k1) mod 2 ^ w) = binValue o w (binValue ExprOp.Add w (binValue ExprOp.Sub w k1 c) a) (binValue ExprOp.Sub w k2 c).
Proof.
  intros Ho Ha. cbn [binValue plainValue]. set (x := (_ + a) mod _). set (y := (k2 - c) mod _).
  assert ((a =? (k2 - k1) mod 2 ^ w) = (x =? y)) as He; [|by destruct Ho as [->| ->]; cbn [binValue plainValue]; rewrite He].
  apply eq_true_iff_eq. rewrite !Z.eqb_eq. subst x y. split; intros H.
  - rewrite H. modring w.
  - replace a with (((k1 - c) mod 2 ^ w + a - k1 + c) mod 2 ^ w) by modring w.
    assert (eqm (2 ^ w) ((k1 - c) mod 2 ^ w + a) (k2 - c)) as Hm by exact H.
    change (eqm (2 ^ w) ((k1 - c) mod 2 ^ w + a - k1 + c) (k2 - k1)). rewrite Hm. unfold eqm. f_equal. ring.
Qed.

(** ** Carries

    [a + k] wrapped around exactly when [a] is at least [-k]. *)
Lemma wraps w a k : 0 <= w -> fits w a -> fits w k -> k <> 0 ->
  (a + k) mod 2 ^ w = (if 2 ^ w <=? a + k then a + k - 2 ^ w else a + k) /\ (0 - k) mod 2 ^ w = 2 ^ w - k.
Proof.
  unfold fits. intros Hw Ha Hk Hk0. split.
  - destruct (Z.leb_spec (2 ^ w) (a + k)); [|by apply Z.mod_small; lia]. symmetry. apply (Z.mod_unique _ _ 1); lia.
  - symmetry. apply (Z.mod_unique _ _ (-1)); lia.
Qed.

Lemma carry_lt w a k : 0 <= w -> fits w a -> fits w k -> k <> 0 ->
  Z.b2z ((0 - k) mod 2 ^ w <? a) = Z.land (Z.b2z ((a + k) mod 2 ^ w <? a)) (Z.b2z (negb ((a + k) mod 2 ^ w =? 0))).
Proof.
  intros Hw Ha Hk Hk0. destruct (wraps w a k Hw Ha Hk Hk0) as [-> ->]. unfold fits in *.
  destruct (Z.leb_spec (2 ^ w) (a + k)); repeat (bit_split; cbn; try lia; try done).
Qed.

Lemma carry_le w a k : 0 <= w -> fits w a -> fits w k -> k <> 0 ->
  Z.b2z (a <=? (0 - k) mod 2 ^ w) = Z.lor (Z.b2z (a <=? (a + k) mod 2 ^ w)) (Z.b2z ((a + k) mod 2 ^ w =? 0)).
Proof.
  intros Hw Ha Hk Hk0. destruct (wraps w a k Hw Ha Hk Hk0) as [-> ->]. unfold fits in *.
  destruct (Z.leb_spec (2 ^ w) (a + k)); repeat (bit_split; cbn; try lia; try done).
Qed.

(** A search that finds nothing, or something with [P]. *)
Definition Finds {A} (f : Function) (P : A -> Prop) (m : M (option A)) : Prop :=
  wlp m (fun o g => g = f /\ match o with Some x => P x | None => True end) f.

Lemma finds_none {A} f (P : A -> Prop) : Finds f P (mret None).
Proof. by apply wlp_ret. Qed.

Lemma finds_first {A B} f (P : B -> Prop) (body : A -> M (option B)) xs : (forall x, x ∈ xs -> Finds f P (body x)) -> Finds f P (firstOf body xs).
Proof.
  induction xs as [|x xs IH]; intros H; [apply finds_none|]. cbn [firstOf]. apply wlp_bind.
  eapply wlp_mono; [apply H; by left|]. intros [r|] g [-> Hr]; [by apply wlp_ret|]. apply IH. intros y Hy. apply H. by right.
Qed.

(** What [matchCarryBound] looks for. *)
Inductive CarryShape (f : Function) (cmpId eqId : N) (cmpOp eqOp : ExprOp) : CarryBound -> Prop :=
  MkCarryShape cmp eq zero sum added i j :
    exprAt f cmpId = Some cmp -> op cmp = cmpOp -> exprAt f eqId = Some eq -> op eq = eqOp ->
    exprAt f (operand eq 1) = Some zero -> op zero = ExprOp.Const -> immediate zero = 0 -> (i, j) ∈ arms ->
    exprAt f (operand cmp i) = Some sum -> op sum = ExprOp.Add -> operand cmp i = operand eq 0 -> operand sum 0 = operand cmp j ->
    exprAt f (operand sum 1) = Some added -> op added = ExprOp.Const -> immediate added <> 0 ->
    CarryShape f cmpId eqId cmpOp eqOp (MkCarryBound (operand cmp j) (zeroExtend (sub64 0 (immediate added)) (bits (type sum))) (type sum)).

Lemma matchCarryBound_finds f cmpId eqId cmpOp eqOp :
  Finds f (CarryShape f cmpId eqId cmpOp eqOp) (matchCarryBound cmpId eqId cmpOp eqOp).
Proof.
  unfold matchCarryBound. apply wlp_bind, wlp_exprOf. intros cmp Hc. destruct (_ || _) eqn:Hg; [apply finds_none|].
  apply orb_false_iff in Hg as [Hco%negb_false_iff%bool_decide_eq_true _].
  apply wlp_bind, wlp_pairOf; [apply finds_none|]. intros eq Heq Heo. apply wlp_bind, wlp_konstOf; [apply finds_none|].
  intros z Hz Hzc. cbn [fst snd] in *. destruct (negb (immediate z =? 0)) eqn:H0; [apply finds_none|]. apply negb_false_iff, Z.eqb_eq in H0.
  apply finds_first. intros arm Harm. unfold matchCarryArm. destruct (negb _) eqn:Hl in |- *; [apply finds_none|].
  apply negb_false_iff, N.eqb_eq in Hl. apply wlp_bind, wlp_exprOf. intros sum Hs. destruct (_ || _) eqn:Ha in |- *; [apply finds_none|].
  rewrite !orb_false_iff, !negb_false_iff, bool_decide_eq_true, N.eqb_eq in Ha. destruct Ha as [[Hso _] Hso0].
  destruct (_ || _) in |- *; [apply finds_none|]. apply wlp_bind, wlp_konstOf; [apply finds_none|]. intros k Hk Hkc.
  destruct (Z.eqb_spec (immediate k) 0) as [|Hk0]; [apply finds_none|]. apply wlp_ret. split; [done|].
  destruct arm as [i j]. by apply (MkCarryShape f cmpId eqId cmpOp eqOp cmp eq z sum k i j).
Qed.

Lemma isSumOf_intro f s a sum added : exprAt f s = Some sum -> op sum = ExprOp.Add -> operand sum 0 = a ->
  exprAt f (operand sum 1) = Some added -> op added = ExprOp.Const -> isSumOf f s a = true.
Proof.
  intros Hs Ho <- Ha Hc. unfold isSumOf, asConstant. rewrite Hs, Ho, Ha. cbn [mbind option_bind]. rewrite decide_True by done.
  by rewrite N.eqb_refl.
Qed.

Lemma exprAt_as f x y ex : exprAt f x = Some ex -> x = y -> exprAt f y = Some ex.
Proof. by intros Hx <-. Qed.

Lemma compare_second f x ex t : pool_ok f -> exprAt f x = Some ex -> isCompare (op ex) = true -> typeAt f (operand ex 0) = Some t ->
  typeAt f (operand ex 1) = Some t.
Proof.
  intros Hok Hx (_ & Hb & Hi)%isCompare_facts Ht.
  destruct (compare_types f ex (exprAt_typed f x ex Hok Hx) Hb Hi) as (_ & t' & Ht' & ?). congruence.
Qed.

(** The rule, up to the arithmetic: the types are those of the sum. *)
Ltac carry_rule e Ht Hok :=
  rule_step; (eapply rule_query; [apply matchCarryBound_finds|]); (intros [m|] Hm; [|apply rule_none]);
  destruct Hm as [cmp eq zero sum added i j Hcmp Hcmpo Heq Heqo Hzero Hzeroc Hzero0 Harm Hsum Hsumo Hl Hr Hadded Haddedc Hadded0];
  apply elem_of_arms in Harm as [[= -> ->]|[= -> ->]]; cbn [carryType carryBound carryOther];
  pose proof (exprAt_typeAt _ _ _ Hsum) as Ts; pose proof (exprAt_as _ _ _ _ Hsum Hl) as Hsum'; pose proof (exprAt_typeAt _ _ _ Hsum') as Te;
  pose proof (compare_second _ _ eq _ Hok Heq ltac:(by rewrite Heqo) Te) as Te';
  types; pose proof (typeAt_valid _ _ _ Hok Ts) as Hvs;
  match goal with T : typeAt ?f (operand sum 0) = Some ?t |- _ => assert (typeAt f (operand cmp 0) = Some t /\ typeAt f (operand cmp 1) = Some t) as [? ?]
    by (split; first [exact Ts|rewrite <-Hr; exact T]) end;
  assert (isBoolean (type e) = true) as Hbe by
    (match goal with T : typeAt ?f ?y = Some (type e), Hc : exprAt ?f ?y = Some cmp |- _ =>
       replace (type e) with (type cmp) by (apply typeAt_Some in T as (? & ? & ?); congruence) end;
     apply (compare_types _ cmp (exprAt_typed _ _ _ Hok Hcmp)); by rewrite Hcmpo);
  assert (type e = integer 1) as Hte by (by apply boolean_type; [apply Ht|]);
  repeat build_step; (apply good_cmp; [assumption|assumption|assumption|assumption|assumption|]);
  intros Htame Hnode Henv z Hz;
  first [exfalso; pose proof (Htame _ _ Hcmp) as Hno; unfold tameNode in Hno; rewrite Hcmpo in Hno;
         by rewrite (isSumOf_intro _ _ _ sum added Hsum Hsumo Hr Hadded Haddedc) in Hno
        |int_type sum; rewrite Hte in *; lazymatch type of Hz with denE ?f ?env _ = _ =>
           rewrite (denE_binary f env ltac:(assumption) Henv e 1 ltac:(assumption) ltac:(match goal with H : op e = _ |- _ => by rewrite H end)
             ltac:(lia) ltac:(assumption)) in Hz end;
         match goal with H : op e = _ |- _ => rewrite H in Hz end;
         den_equations; den_leaves Hz; apply (inj Some) in Hz; apply (f_equal Some); rewrite <-Hz; clear Hz].

Section Tests.
Context (env : Env) (f : Function) (Hok : pool_ok f) (e : Expr) (Ht : exprTyped f e).

Lemma matchShiftedCompare_rule : isCompare (op e) = true -> Rule env f e (matchShiftedCompare e).
Proof using Type*.
  intros Hc. destruct (isCompare_facts _ Hc) as (Hib & Hb & Hi). destruct (compare_types f e Ht Hb Hi) as (Hbool & t & Tx & Ty).
  unfold matchShiftedCompare. repeat rule_step; types.
  all: repeat match goal with H : (if 64 <=? _ then None else Some _) = Some _ |- _ => destruct (64 <=? _) eqn:? in H; [done|]; injection H as <- end.
  all: match goal with Hs : op ?x = ExprOp.Shl, Hty : type ?x = _ |- context [bits (type ?x) - ?k] =>
         destruct (shift_facts (bits (type x)) k ltac:(rewrite Hty; apply valid_bits; by eapply typeAt_valid) ltac:(assumption) ltac:(assumption)) as (Hk & Hn & Hn');
         destruct (integer_facts _ Hn') as (Hvn & Hbn & _) end.
  all: repeat match goal with H : type ?x = ?y |- context [bits (type ?x)] => is_var y; rewrite H in * end.
  all: repeat build_step; try assumption; rewrite ?Hbn; try lia; apply good_cmp; try assumption.
  all: match goal with Hs : op ?x = ExprOp.Shl |- _ => cmp_goal e x end; consts; cbn [binValue]; rewrite ?u32_small by lia.
  all: first [symmetry; apply compare_shifted; [done|lia]|shifted_constant].
Qed.

(** ** A subtrahend on both sides *)

Lemma matchCancelledSubtrahend_rule : isCompare (op e) = true -> Rule env f e (matchCancelledSubtrahend e).
Proof using Type*.
  intros Hc. destruct (isCompare_facts _ Hc) as (Hib & Hb & Hi). destruct (compare_types f e Ht Hb Hi) as (Hbool & t & Tx & Ty).
  pose proof (typeAt_valid f _ _ Hok Tx) as Hv.
  unfold matchCancelledSubtrahend. destruct (negb _ && _) eqn:Hop; [apply rule_none|].
  assert (op e = ExprOp.CmpEq \/ op e = ExprOp.CmpNe) as Ho.
  { apply andb_false_iff in Hop as [Ho|Ho]; apply negb_false_iff, bool_decide_eq_true in Ho; auto. }
  clear Hop. unfold matchCancelledSide. repeat rule_step; apply rule_first; intros [] _; repeat rule_step; types.
  all: repeat match goal with H : type ?x = ?y |- context [bits (type ?x)] => is_var y; rewrite H in * end.
  all: repeat build_step; apply good_cmp; try assumption.
  all: match goal with Hs : op ?x = ExprOp.Add |- _ => cmp_goal e x end; consts.
  all: try (rewrite (equality_sym _ _ (binValue ExprOp.Sub _ _ _)) by done).
  all: try match goal with |- context [binValue ExprOp.Add ?w ?a (binValue ExprOp.Sub ?w ?k ?c)] =>
         change (binValue ExprOp.Add w a (binValue ExprOp.Sub w k c)) with ((a + binValue ExprOp.Sub w k c) mod 2 ^ w); rewrite (Z.add_comm a) end.
  all: by apply equality_cancels.
Qed.

Lemma matchCarryCompare_rule : op e = ExprOp.And -> Rule env f e (matchCarryCompare e).
Proof using Type*.
  operand_types f e Ht. unfold matchCarryCompare. carry_rule e Ht Hok; consts; cbn [binValue plainValue].
  - apply carry_lt; [lia|done..].
  - rewrite Z.land_comm. apply carry_lt; [lia|done..].
Qed.

Lemma matchCarryCompareOr_rule : op e = ExprOp.Or -> Rule env f e (matchCarryCompareOr e).
Proof using Type*.
  operand_types f e Ht. unfold matchCarryCompareOr. carry_rule e Ht Hok; consts; cbn [binValue plainValue].
  - apply carry_le; [lia|done..].
  - rewrite Z.lor_comm. apply carry_le; [lia|done..].
Qed.

(** ** Selections *)

Lemma semE_select v : op e = ExprOp.Select -> semE f env e = Some v ->
  exists c a b, operands e = [operand e 0; operand e 1; operand e 2] /\
    sem f env (operand e 0) = Some c /\ sem f env (operand e 1) = Some a /\ sem f env (operand e 2) = Some b /\
    v = (if negb (Z.land (lo c) 1 =? 0) then a else b).
Proof using Ht.
  intros Ho Hv. pose proof Ht as [[Hmin Hmax] _]. rewrite Ho in Hmin, Hmax. cbn in Hmin, Hmax.
  apply semNode_Some in Hv as (ts & args & _ & _ & Hargs & _ & Hv).
  unfold operandCount, operand in *. destruct (operands e) as [|x [|y [|u [|? ?]]]]; cbn in Hmin, Hmax; try lia. cbn.
  inversion Hargs as [|? c ? args1 Hc Hargs1]; subst. inversion Hargs1 as [|? a ? args2 Ha Hargs2]; subst.
  inversion Hargs2 as [|? b ? args3 Hb Hargs3]; subst. inversion Hargs3; subst.
  unfold evalNode, evalOp in Hv. rewrite Ho in Hv. apply Ok_inj in Hv as <-. by exists c, a, b.
Qed.

Lemma select_types : op e = ExprOp.Select ->
  typeAt f (operand e 0) = Some (integer 1) /\ typeAt f (operand e 1) = Some (type e) /\ typeAt f (operand e 2) = Some (type e).
Proof using Ht Hok.
  intros Ho. pose proof Ht as ([Hmin Hmax] & _ & ts & Hts & Hr & _). rewrite Ho in Hmin, Hmax. cbn in Hmin, Hmax.
  unfold resultRuleOk in Hr. rewrite Ho in Hr. cbn [info infoResult] in Hr.
  unfold operandCount, operand in *. destruct (operands e) as [|x [|y [|u [|? ?]]]]; cbn in Hmin, Hmax; try lia. cbn in Hts |- *.
  destruct (typeAt f x) as [tx|] eqn:Hx; [|done]. destruct (typeAt f y) as [ty|]; [|done]. destruct (typeAt f u) as [tu|]; [|done].
  injection Hts as <-. cbn in Hr. rewrite !andb_true_iff, !typeEq_spec, !bool_decide_eq_true in Hr. unfold opType0, opType1, opType2 in Hr. cbn in Hr.
  destruct Hr as [[Hb <-] <-]. split_and!; [|done|done]. f_equal. apply boolean_type; [by eapply typeAt_valid|done].
Qed.

Lemma rewriteSelect_good : op e = ExprOp.Select -> wlp (rewriteSelect e) (Good env f e) f.
Proof using Type*.
  intros Ho. destruct (select_types Ho) as (T0 & T1 & T2). unfold rewriteSelect. apply wlp_bind, wlp_konstOf.
  - destruct (N.eqb_spec (operand e 1) (operand e 2)) as [Heq|_]; [|by apply good_unchanged]. apply wlp_ret. split_and!; try done.
    intros _ _ _ v Hv. destruct (semE_select v Ho Hv) as (c & a & b & _ & _ & Ha & Hb & ->). rewrite Heq in *. destruct (negb _); congruence.
  - intros k Hk Hkc. apply wlp_ret. split; [done|]. split; [done|]. split; [by destruct (negb _)|].
    intros Htame _ Henv v Hv. destruct (semE_select v Ho Hv) as (c & a & b & _ & Hc & Ha & Hb & ->).
    pose proof (den_int f env (operand e 0) k 1 Hok Henv Htame Hk T0 ltac:(lia)) as Hd. rewrite Hkc in Hd. destruct Hd as [Hd Hfit].
    unfold den in Hd. rewrite Hc in Hd. injection Hd as Hd. rewrite Hd. unfold fits in Hfit.
    assert (immediate k = 0 \/ immediate k = 1) as [-> | ->] by lia; done.
Qed.
End Tests.

(** ** Flags *)

Lemma conditionValue_nzcv code nzcv : conditionValue code nzcv = evalCondition code (Z.land (Z.land nzcv 15) 15).
Proof.
  assert (forall k, 0 <= k < 4 -> negb (Z.land (shr64 nzcv k) 1 =? 0) = negb (Z.land (Z.land (Z.land nzcv 15) 15) (2 ^ k) =? 0)) as Hbit.
  { intros k Hk. f_equal. apply eq_true_iff_eq. rewrite !Z.eqb_eq. unfold shr64. split; intros H; apply Z.bits_inj'; intros i Hi.
    - apply (f_equal (fun z => Z.testbit z 0)) in H. rewrite Z.land_spec, Z.shiftr_spec, !Z.testbit_0_l in H by lia.
      rewrite !Z.land_spec, testbit_pow2, Z.testbit_0_l by lia. destruct (Z.eqb_spec i k) as [->|]; [|by rewrite andb_false_r].
      rewrite testbit_1, Z.add_0_l in H. cbn in H. rewrite andb_true_r in H. by rewrite H.
    - apply (f_equal (fun z => Z.testbit z k)) in H. rewrite !Z.land_spec, testbit_pow2, Z.eqb_refl, Z.testbit_0_l, andb_true_r in H by lia.
      rewrite Z.land_spec, Z.shiftr_spec, testbit_1, Z.testbit_0_l by lia. destruct (Z.eqb_spec i 0) as [->|]; [|by rewrite andb_false_r].
      rewrite andb_true_r. change 15 with (Z.ones 4) in H. rewrite !Z.testbit_ones in H by lia.
      replace ((0 <=? k) && (k <? 4)) with true in H by lia. by rewrite !andb_true_r in H. }
  pose proof (Hbit 3 ltac:(lia)) as H3. pose proof (Hbit 2 ltac:(lia)) as H2. pose proof (Hbit 1 ltac:(lia)) as H1. pose proof (Hbit 0 ltac:(lia)) as H0.
  unfold shr64 in H0. rewrite Z.shiftr_0_r in H0. unfold conditionValue, evalCondition. rewrite H3, H2, H1, H0. done.
Qed.

(** A flag condition over a bundle that is built in place. *)
Lemma semE_flagCond env f e def v : pool_ok f -> exprTyped f e -> op e = ExprOp.FlagCond -> exprAt f (operand e 0) = Some def -> op def = ExprOp.FlagDef -> semE f env e = Some v ->
  exists args r, Forall2 (fun x a => sem f env x = Some a) (operands def) args /\
    evalFlagDef (flagDefOp (immediate def)) (flagDefWidth (immediate def)) args = Some r /\
    v = boolValue (evalCondition (enumAt conditionCodes (immediate e)) (Z.land r 15)).
Proof.
  intros Hok Ht Ho Hdef Hd Hv. pose proof (unary_operands f e Ht ltac:(by rewrite Ho)) as Hops.
  apply semNode_Some in Hv as (ts & args & _ & _ & Hargs & _ & Hv). rewrite Hops in Hargs.
  inversion Hargs as [|? fl ? args' Hfl Hargs']; subst. inversion Hargs'; subst.
  unfold evalNode, evalOp in Hv. rewrite Ho in Hv. apply Ok_inj in Hv as <-.
  rewrite (sem_expr f env Hok _ def Hdef) in Hfl. apply semNode_Some in Hfl as (ts' & as' & _ & _ & Has & _ & Hfl).
  unfold evalNode, evalOp in Hfl. rewrite Hd in Hfl. destruct (evalFlagDef _ _ _) as [r|] eqn:Hr; [|done].
  apply Ok_inj in Hfl as <-. by exists as', r.
Qed.

Lemma boolean_const env g r b v : pool_ok g -> env_ok g env -> tame g -> exprAt g r = Some (constantOf (integer 1) (Z.b2z b)) ->
  v = boolValue b -> sem g env r = Some v.
Proof.
  intros Hg Henv Htame Hr ->. destruct (den_constant g env r _ 1 Hg Henv Htame Hr ltac:(lia)) as [Hd _].
  rewrite constImm_small in Hd by (lia || destruct b; cbn; lia).
  rewrite (sem_den g env Hg Henv r 1 ltac:(lia) (exprAt_typeAt g r _ Hr)), Hd. by destruct b.
Qed.

(** Replacing the condition by what it is known to be. *)
Lemma good_boolean env f e b : pool_ok f -> exprTyped f e -> op e = ExprOp.FlagCond ->
  (forall g, pool_ext f g -> pool_ok g -> exprTyped g e -> tame g -> forall v, semE g env e = Some v -> v = boolValue b) ->
  wlp (constant (type e) (Z.b2z b)) (Good env f e) f.
Proof.
  intros Hok Ht Ho H. assert (type e = integer 1) as Hty.
  { apply boolean_type; [apply Ht|]. pose proof Ht as (_ & _ & ts & _ & Hr & _). unfold resultRuleOk in Hr. rewrite Ho in Hr.
    by apply andb_true_iff in Hr as [? _]. }
  eapply wlp_constant; [done|apply Ht|]. intros r g Hx Hg Hr. split_and!; [done|done|by apply (exprAt_typeAt g r _ Hr)|].
  intros Htame _ Henv v Hv. rewrite Hty in Hr. apply (boolean_const env g r b v Hg Henv Htame Hr).
  apply (H g); try done. by eapply exprTyped_ext; [apply pool_ext_grows|].
Qed.

Lemma evalFlagDef_const w a args : evalFlagDef (Some FlagOp.Const) w (a :: args) = Some (Z.land (lo a) 15).
Proof. done. Qed.

(** A logical operation clears the carry and the overflow. *)
Lemma evalFlagDef_logical w args r : evalFlagDef (Some FlagOp.Logical) w args = Some r -> Z.land r 2 = 0 /\ Z.land r 1 = 0.
Proof.
  unfold evalFlagDef. intros (a & _ & H)%bind_Some. destruct (_ && _); [|done]. injection H as <-.
  unfold flagLogical. by destruct (signAt _ _), (_ =? 0).
Qed.

(** What the condition evaluates to, when the bundle is the constant [k]. *)
Lemma flagCond_const env f e def k v : pool_ok f -> exprTyped f e -> tame f -> op e = ExprOp.FlagCond ->
  exprAt f (operand e 0) = Some def -> op def = ExprOp.FlagDef -> flagDefOp (immediate def) = Some FlagOp.Const ->
  exprAt f (operand def 0) = Some k -> op k = ExprOp.Const -> semE f env e = Some v ->
  v = boolValue (conditionValue (enumAt conditionCodes (immediate e)) (immediate k)).
Proof.
  intros Hok Ht Htame Ho Hdef Hd Hc Hk Hkc Hv. destruct (semE_flagCond env f e def v Hok Ht Ho Hdef Hd Hv) as (args & r & Hargs & Hr & ->).
  rewrite Hc in Hr. unfold operand in Hk. destruct Hargs as [|x a xs args Hx _]; [done|]. rewrite evalFlagDef_const in Hr. injection Hr as <-.
  by rewrite conditionValue_nzcv, (sem_const f env x k a Hok Htame Hk Hkc Hx).
Qed.

(** And when it is that of a logical operation. *)
Lemma flagCond_logical env f e def v : pool_ok f -> exprTyped f e -> op e = ExprOp.FlagCond ->
  exprAt f (operand e 0) = Some def -> op def = ExprOp.FlagDef -> flagDefOp (immediate def) = Some FlagOp.Logical ->
  semE f env e = Some v ->
  exists r, Z.land (Z.land r 15) 2 = 0 /\ Z.land (Z.land r 15) 1 = 0 /\ v = boolValue (evalCondition (enumAt conditionCodes (immediate e)) (Z.land r 15)).
Proof.
  intros Hok Ht Ho Hdef Hd Hc Hv. destruct (semE_flagCond env f e def v Hok Ht Ho Hdef Hd Hv) as (args & r & _ & Hr & ->).
  rewrite Hc in Hr. apply evalFlagDef_logical in Hr as [H2 H1]. exists r. rewrite <-!Z.land_assoc. by split_and!.
Qed.

Lemma rewriteFlagCond_good env f e : pool_ok f -> exprTyped f e -> op e = ExprOp.FlagCond -> wlp (rewriteFlagCond e) (Good env f e) f.
Proof.
  intros Hok Ht Ho. unfold rewriteFlagCond. apply wlp_bind, wlp_exprOf. intros def Hdef.
  destruct (decide (op def <> ExprOp.FlagDef)) as [|Hd%dec_stable]; [by apply good_unchanged|]. cbv zeta. apply wlp_bind.
  assert (forall g, pool_ext f g -> exprAt g (operand e 0) = Some def) as Hdef' by (intros g Hx; by apply (exprAt_ext f g _ _ (pool_ext_grows _ _ Hx))).
  destruct (decide (flagDefOp (immediate def) = Some FlagOp.Const)) as [Hc|Hc].
  - apply wlp_konstOf; [rewrite decide_False by congruence; by apply good_unchanged|]. intros k Hk Hkc.
    apply (good_boolean env f e (conditionValue _ _)); try done. intros g Hx Hg Htg Htame v.
    apply (flagCond_const env g e def k v); auto. by apply (exprAt_ext f g _ _ (pool_ext_grows _ _ Hx)).
  - apply wlp_ret. destruct (decide _) as [Hl|_]; [|by apply good_unchanged].
    assert (forall g v, pool_ext f g -> pool_ok g -> exprTyped g e -> semE g env e = Some v ->
      exists r, Z.land (Z.land r 15) 2 = 0 /\ Z.land (Z.land r 15) 1 = 0 /\ v = boolValue (evalCondition (enumAt conditionCodes (immediate e)) (Z.land r 15))) as Hval.
    { intros g v Hx Hg Htg. apply (flagCond_logical env g e def v); auto. }
    destruct (enumAt conditionCodes (immediate e)) as [[]|]; try (by apply good_unchanged).
    all: (apply (good_boolean env f e false); [done|done|done|]) || (apply (good_boolean env f e true); [done|done|done|]).
    all: intros g Hx Hg Htg _ v Hv; destruct (Hval g v Hx Hg Htg Hv) as (r & H2 & H1 & ->); unfold evalCondition; by rewrite ?H2, ?H1.
Qed.
