(* ===== verification/AlgebraSound.v ===== *)
(** * The rule loop and the walk of algebra are sound (passes/algebra.cpp) *)
From S2P Require Import Prelude Bits U128 Types Exprs Registers Func.
From S2P Require Import Eval VerifyExpr ValueTypes EvalProps Ceval Rewrite Fold FoldProps FoldSound Denote AlgebraIdioms Algebra AlgebraRules AlgebraLocal AlgebraShapes AlgebraTests.

(** ** The constant on the right *)

Definition commutes (o : ExprOp) : bool :=
  match o with ExprOp.Add | ExprOp.Mul | ExprOp.And | ExprOp.Or | ExprOp.Xor => true | _ => false end.

Lemma binValue_comm o w x y : commutes o = true -> binValue o w x y = binValue o w y x.
Proof.
  destruct o; try done; intros _; cbn [binValue plainValue];
    first [apply Z.land_comm|apply Z.lor_comm|apply Z.lxor_comm|by rewrite Z.add_comm|by rewrite Z.mul_comm].
Qed.

Definition swapped (e : Expr) : Expr := MkExpr (op e) (type e) [operand e 1; operand e 0] (immediate e).

Section Swap.
Context (env : Env) (f : Function) (Hok : pool_ok f) (e : Expr) (Ht : exprTyped f e) (Hc : commutes (op e) = true).

Lemma commutes_facts : intBinary (op e) = true /\ isBinary (op e) = true /\ infoResult (info (op e)) = ResultRule.SameAsOperands /\ intArith (op e) = true.
Proof using Hc. by destruct (op e). Qed.

Lemma swapped_typed : exprTyped f (swapped e).
Proof using Hc Ht.
  destruct commutes_facts as (_ & Hb & Hi & _). destruct (binary_types f e Ht Hb Hi) as [Tx Ty].
  pose proof Ht as (_ & Hv & _). split; [unfold swapped, operandCount; cbn [op operands length]; destruct (op e); done || (cbn; lia)|]. split; [done|].
  exists [type e; type e]. split; [cbn; rewrite Ty; cbn; by rewrite Tx|].
  assert (typeEq (type e) (type e) = true) as Hte by (rewrite typeEq_spec; by apply bool_decide_eq_true).
  split; [unfold resultRuleOk; cbn [op swapped]; rewrite Hi; cbn; by rewrite Hte|]. unfold opRuleOk. cbn [op swapped]. by destruct (op e).
Qed.

Lemma good_swapped r g : Good env f (swapped e) r g -> Good env f e r g.
Proof using Hc Ht.
  intros (Hx & Hg & Hr & H). split_and!; [done|done|exact Hr|]. intros Htame Hnode Henv v Hv.
  pose proof (exprTyped_ext f g e (pool_ext_grows _ _ Hx) Ht) as Htg. destruct commutes_facts as (Hi & Hb & Hs & Ha).
  assert (exprTyped g (swapped e)) as Hts by (eapply exprTyped_ext; [by apply pool_ext_grows|apply swapped_typed]).
  destruct (tame_arith g e Hnode (proj1 (proj2 Htg)) (or_introl Ha)) as (w & Hty & Hw).
  destruct (binary_types g e Htg Hb Hs) as [Tx Ty]. rewrite Hty in Tx, Ty.
  apply H; [done|by unfold tameNode, swapped in *; cbn; destruct (op e)|done|].
  rewrite (semE_den g env Hg Henv _ w Htg Hw Hty) in Hv. rewrite (semE_den g env Hg Henv _ w Hts Hw Hty). rewrite <-Hv. f_equal.
  rewrite (denE_binary g env Hg Henv _ w Hts Hi Hw Ty), (denE_binary g env Hg Henv _ w Htg Hi Hw Tx).
  change (operand (swapped e) 0) with (operand e 1). change (operand (swapped e) 1) with (operand e 0). change (op (swapped e)) with (op e).
  destruct (den g env (operand e 1)) as [b|], (den g env (operand e 0)) as [a|]; try done. cbn. by rewrite binValue_comm.
Qed.

(** A rewrite that holds of every such node holds of the normalised one. *)
Lemma wlp_normalise (k : Expr -> M N) :
  (forall e', exprTyped f e' -> op e' = op e -> wlp (k e') (Good env f e') f) -> wlp (normaliseCommutative e ≫= k) (Good env f e) f.
Proof using Hc Ht.
  intros H. unfold normaliseCommutative. apply wlp_bind, wlp_bind, wlp_exprOf. intros l Hl. apply wlp_bind, wlp_exprOf. intros r Hr.
  apply wlp_ret. destruct (_ && _); [|by apply H]. eapply wlp_mono; [apply (H (swapped e)); [apply swapped_typed|done]|]. intros x g. apply good_swapped.
Qed.
End Swap.

(** ** One round *)

Create HintDb algebra.

Section Node.
Context (env : Env) (f : Function) (Hok : pool_ok f).

#[local] Hint Resolve addNotOne_rule addNegated_rule addReassociate_rule addZero_rule matchMbaAdd_rule : algebra.
#[local] Hint Resolve subNegated_rule subReassociate_rule subMirror_rule subZero_rule subSame_rule zeroSub_rule matchMbaSub_rule
  matchObfuscatedIncrement_rule : algebra.
#[local] Hint Resolve mulZero_rule mulOne_rule mulNested_rule andZero_rule andOnes_rule andNested_rule andEven_rule matchMaskedRotate_rule
  matchMaskedShift_rule matchCarryCompare_rule : algebra.
#[local] Hint Resolve orZero_rule orOnes_rule matchSignExtend_rule matchMbaOr_rule matchCarryCompareOr_rule xorZero_rule xorSame_rule xorOnes_rule
  matchMbaXor_rule matchShiftedCompare_rule matchCancelledSubtrahend_rule : algebra.
#[local] Hint Resolve rule_first : algebra.

(** The rules of one opcode. *)
Ltac all_rules := repeat first [apply Forall_nil|apply Forall_cons; split]; auto with algebra.
Ltac rules := apply rules_or; [all_rules|by apply good_unchanged].
Ltac commutative e Ht Ho :=
  refine (wlp_normalise env f e Ht ltac:(by rewrite Ho) _ _); let e' := fresh "e" in intros e' ? ?; assert (op e' = op e) as Ho' by done;
  rewrite Ho in Ho'; rules.

Lemma rewriteAdd_good e : exprTyped f e -> op e = ExprOp.Add -> wlp (rewriteAdd e) (Good env f e) f.
Proof using Hok. intros Ht Ho. commutative e Ht Ho. Qed.
Lemma rewriteSub_good e : exprTyped f e -> op e = ExprOp.Sub -> wlp (rewriteSub e) (Good env f e) f.
Proof using Hok. intros Ht Ho. rules. Qed.
Lemma rewriteMul_good e : exprTyped f e -> op e = ExprOp.Mul -> wlp (rewriteMul e) (Good env f e) f.
Proof using Hok. intros Ht Ho. commutative e Ht Ho. Qed.
Lemma rewriteAnd_good e : exprTyped f e -> op e = ExprOp.And -> wlp (rewriteAnd e) (Good env f e) f.
Proof using Hok. intros Ht Ho. commutative e Ht Ho. Qed.
Lemma rewriteOr_good e : exprTyped f e -> op e = ExprOp.Or -> wlp (rewriteOr e) (Good env f e) f.
Proof using Hok. intros Ht Ho. commutative e Ht Ho. Qed.
Lemma rewriteXor_good e : exprTyped f e -> op e = ExprOp.Xor -> wlp (rewriteXor e) (Good env f e) f.
Proof using Hok. intros Ht Ho. commutative e Ht Ho. Qed.

Lemma rewriteCompare_good e id : exprAt f id = Some e -> isCompare (op e) = true -> wlp (rewriteCompare e id) (Good env f e) f.
Proof using Hok.
  intros He Ho. pose proof (exprAt_typed f id e Hok He) as Ht.
  apply rules_or; [all_rules|]. apply wlp_ret. by apply good_same.
Qed.

Lemma rewriteNode_good e id : exprAt f id = Some e -> wlp (rewriteNode e id) (Good env f e) f.
Proof using Hok.
  intros He. pose proof (exprAt_typed f id e Hok He) as Ht. pose proof (good_same env f e id Hok He) as Hsame.
  unfold rewriteNode. destruct (op e) eqn:Ho; try (by apply wlp_ret).
  all: first [by apply rewriteAdd_good|by apply rewriteSub_good|by apply rewriteMul_good|by apply rewriteAnd_good|by apply rewriteOr_good
    |by apply rewriteXor_good|by apply rewriteNot_good|by apply rewriteNeg_good|by apply rewriteSelect_good|by apply rewriteFlagCond_good
    |by apply rewriteShift_good; rewrite ?Ho|by apply rewriteCompare_good; rewrite ?Ho|by apply rewriteCast_good; rewrite ?Ho].
Qed.

Lemma rewriteOnce_good id : wlp (rewriteOnce id) (fun r g => exists e, exprAt f id = Some e /\ Good env f e r g) f.
Proof using Hok.
  apply wlp_bind, wlp_exprOf. intros e He. apply (wlp_mono _ (Good env f e)); [|intros r g Hr; by exists e].
  apply rules_or; [|by apply rewriteNode_good]. constructor; [|done]. by apply foldNode_rule.
Qed.
End Node.

(** ** Handles that stand for others *)

(** [y] has the type of [x] and, in a tame pool, every strict value of it. *)
Definition Stands (f : Function) (x y : N) : Prop :=
  sameType f x y /\ (tame f -> forall env, env_ok f env -> Simulates f env x y).

Lemma env_ok_shrinks f f' env : grows f f' -> env_ok f' env -> env_ok f env.
Proof.
  intros Hg [H1 H2]. split; intros id v i Hv.
  - intros [Hi Hn]%vget_Some. assert ((valueType <$> values (tables f)) !! N.to_nat id = Some (valueType i)) as H by (by rewrite list_lookup_fmap, Hi).
    eapply prefix_lookup_Some in H; [|apply (grows_values _ _ Hg)].
    rewrite list_lookup_fmap in H. apply fmap_Some in H as (i' & Hi' & ->). apply (H1 id v i' Hv). by apply vget_Some.
  - rewrite <-(grows_registers _ _ Hg). by apply H2.
Qed.

Lemma Stands_refl f x : hasExpr f x = true -> Stands f x x.
Proof.
  intros Hx. split; [|intros _ env _; by apply Simulates_refl]. by apply (Simulates_sameType f emptyEnv), Simulates_refl.
Qed.

Lemma Stands_trans f x y z : Stands f x y -> Stands f y z -> Stands f x z.
Proof.
  intros [(t & Hx & Hy) H1] [(t' & Hy' & Hz) H2]. split; [exists t; split; congruence|].
  intros Htame env Henv. eapply Simulates_trans; eauto.
Qed.

Lemma Stands_grows f f' x y : pool_ok f -> grows f f' -> Stands f x y -> Stands f' x y.
Proof.
  intros Hok Hg [Ht H]. split; [by eapply sameType_grows|]. intros Htame env Henv. eapply Simulates_grows; [done|done|].
  apply H; [by eapply tame_shrinks|by eapply env_ok_shrinks].
Qed.

Lemma Stands_type f x y : Stands f x y -> sameType f x y.
Proof. by intros [? _]. Qed.

(** A rebuilt node stands for the node when its operands stand for its operands. *)
Lemma Stands_rebuilt f id e ys r : pool_ok f -> exprAt f id = Some e -> Forall2 (Stands f) (operands e) ys ->
  exprAt f r = Some (withOperands e ys) -> Stands f id r.
Proof.
  intros Hok He Hys Hr. split.
  - exists (type e). split; apply typeAt_Some; by eexists.
  - intros Htame env Henv. eapply withOperands_simulates; try done. eapply Forall2_impl; [exact Hys|]. intros x y [_ H]. auto.
Qed.

(** ** The rule loop *)

Definition Rewrites1 (f : Function) (x : N) (m : M N) : Prop :=
  wlp m (fun r g => pool_ext f g /\ pool_ok g /\ Stands g x r) f.

Lemma rewriteOnce_stands f id : pool_ok f -> Rewrites1 f id (rewriteOnce id).
Proof.
  intros Hok r g H. destruct (rewriteOnce_good emptyEnv f Hok id r g H) as (e & He & Hx & Hg & Hr & _).
  split_and!; [done|done|]. pose proof (exprAt_ext f g _ _ (pool_ext_grows _ _ Hx) He) as Heg.
  assert (typeAt g id = Some (type e)) as Ht by (by apply exprAt_typeAt). split; [by exists (type e)|].
  intros Htame env Henv. exists (type e). split_and!; [done|done|]. intros v Hv.
  destruct (rewriteOnce_good env f Hok id r g H) as (e' & He' & _ & _ & _ & Hsim). assert (e' = e) as -> by congruence.
  apply (sem_Strict g env Hg). apply Hsim; [done|by apply (Htame id)|done|].
  rewrite <-(sem_expr g env Hg id e Heg). by apply (sem_Strict g env Hg).
Qed.

Lemma rewriteRounds_stands rounds : forall f x id, pool_ok f -> Stands f x id -> Rewrites1 f x (rewriteRounds rounds id).
Proof.
  induction rounds as [|rounds IH]; intros f x id Hok Hs; cbn [rewriteRounds]; [by apply wlp_ret|].
  apply wlp_bind. eapply wlp_mono; [by apply rewriteOnce_stands|]. intros next g (Hx & Hg & Hn).
  assert (Stands g x id) as Hs' by (eapply Stands_grows; [exact Hok|by apply pool_ext_grows|done]).
  destruct (next =? id)%N; [by apply wlp_ret|]. eapply wlp_mono; [apply (IH g x next Hg); by eapply Stands_trans|].
  intros r h (? & ? & ?). split_and!; [by etrans|done|done].
Qed.

(** ** The walk *)

Section Walk.
(** Where the walk started. *)
Context (f0 : Function).

Definition walks (f : Function) : Prop := pool_ok f /\ pool_ext f0 f.

Lemma walks_stands f f' x y : walks f -> grows f f' -> Stands f x y -> Stands f' x y.
Proof. intros [Hok _]. by apply Stands_grows. Qed.

Lemma walks_ext f f' : walks f -> pool_ext f f' -> pool_ok f' -> walks f'.
Proof. intros [_ H] Hx Hok. split; [done|by etrans]. Qed.

Lemma simplifyNode_R rec e id f w r w' f' :
  walk_R walks Stands rec -> walks f -> memo_R Stands f w.1 -> exprAt f id = Some e ->
  simplifyNode rec e id w f = Some ((r, w'), f') ->
  walks f' /\ grows f f' /\ memo_R Stands f' w'.1 /\ Stands f' id r.
Proof.
  intros Hrec Hf Hm He. unfold simplifyNode. rewrite M_bind_Some. intros ([[ys ch] w1] & f1 & Hl & H).
  destruct (operandsLoop_R walks Stands walks_stands rec Hrec (operands e) f w ys ch w1 f1 Hf Hm (operands_exist f id e (proj1 Hf) He) Hl)
    as (Hf1 & Hg1 & Hm1 & Hs1 & Hch).
  pose proof (exprAt_ext f f1 _ _ Hg1 He) as He1.
  apply M_bind_Some in H as ([res w2] & f2 & Hres & H).
  assert (walks f2 /\ grows f1 f2 /\ memo_R Stands f2 w2.1 /\ Stands f2 id res) as (Hf2 & Hg2 & Hm2 & Hs2).
  { destruct ch.
    - apply M_bind_Some in Hres as (r1 & f2' & Hi & [= <- <- <-]).
      assert (exprTyped f1 (withOperands e ys)) as Ht.
      { eapply withOperands_typed; [apply Hf1|done|]. eapply Forall2_impl; [exact Hs1|]. intros x y. apply Stands_type. }
      destruct (intern_spec f1 _ _ _ (proj1 Hf1) Ht Hi) as (Hx & Hok & Hr).
      split_and!; [by eapply walks_ext|by apply pool_ext_grows|eapply memo_R_grows; [exact walks_stands|done|by apply pool_ext_grows|done]|].
      eapply Stands_rebuilt; [done|by eapply exprAt_ext; [apply pool_ext_grows|]| |done].
      eapply Forall2_impl; [exact Hs1|]. intros x y. apply walks_stands; [done|by apply pool_ext_grows].
    - injection Hres as <- <- <-. split_and!; [done|done|done|]. apply Stands_refl, hasExpr_exprAt. by exists e. }
  apply M_bind_Some in H as (r' & f3 & Hr & [= <- <- <-]).
  destruct (rewriteRounds_stands kMaxRounds f2 id res (proj1 Hf2) Hs2 _ _ Hr) as (Hx3 & Hok3 & Hs3).
  split_and!; [by eapply walks_ext|do 2 (etrans; [eassumption|]); by apply pool_ext_grows| |done].
  eapply memo_R_grows; [exact walks_stands|done|by apply pool_ext_grows|done].
Qed.

Lemma simplify_R levels : walk_R walks Stands (simplify levels).
Proof.
  induction levels as [|levels IH]; intros f id w r w' f' Hf Hm Hid; cbn [simplify]; cbv zeta;
    (destruct ((countEntry w).1 !! id) as [r0|] eqn:Hmemo;
      [intros [= <- <- <-]; split_and!; [done..|by apply Hm]|]).
  { intros [= <- <- <-]. split_and!; [done..|by apply Stands_refl]. }
  rewrite M_bind_Some. intros (e & g & He & H). unfold exprOf in He. apply gets_Some in He as [He ->]. apply M_bind_Some in H as ([res w1] & f1 & Hn & [= <- <- <-]).
  assert (walks f1 /\ grows f f1 /\ memo_R Stands f1 w1.1 /\ Stands f1 id res) as (Hf1 & Hg1 & Hm1 & Hs1).
  { destruct (operandCount e =? 0)%nat; [injection Hn as <- <- <-; split_and!; [done..|by apply Stands_refl]|].
    exact (simplifyNode_R (simplify levels) e id f (countEntry w) res w1 f1 IH Hf Hm He Hn). }
  split_and!; [done|done| |done]. by apply memo_R_emplace.
Qed.
End Walk.
