(* ===== verification/AlgebraRuns.v ===== *)
(** * Algebraic simplification preserves what a block does

    The driver of algebra threads one memo through the whole function. It keeps
    the structure of the function and replaces operands by handles that stand for
    them, so every block runs as before. *)
From stdpp Require Import relations.
From S2P Require Import Prelude Bits U128 Types Exprs Registers Func Eval VerifyExpr ValueTypes EvalProps.
From S2P Require Import Cfg Verify VerifyProps EvalErrors Ceval Memory Interp RegisterViews InterpSound.
From S2P Require Import Rewrite Fold FoldProps FoldSound BlockSim FoldRuns Denote AlgebraIdioms Algebra AlgebraRules AlgebraSound.
Local Open Scope Z_scope.

(** ** Only the pool grows *)

Lemma interns_exprOf id : interns (exprOf id).
Proof. apply interns_gets. Qed.
Lemma interns_konstOf id : interns (konstOf id).
Proof. apply interns_gets. Qed.

#[local] Hint Resolve interns_exprOf interns_konstOf : interns.

(** Through binds, conditionals and matches. *)
Ltac interns :=
  repeat first
    [progress auto with interns nocore
    |match goal with
     | |- interns (_ ≫= _) => apply interns_bind; [|intros ?]
     | |- interns (if ?b then _ else _) => destruct b
     | |- interns (match ?x with _ => _ end) => destruct x
     | |- interns (let '_ := ?x in _) => destruct x
     end].

Lemma interns_first {A B} (body : A -> M (option B)) xs : (forall x, interns (body x)) -> interns (firstOf body xs).
Proof. intros H. induction xs as [|x xs IH]; cbn [firstOf]; [apply interns_ret|]. interns. Qed.

Lemma interns_pairOf id o : interns (pairOf id o).
Proof. unfold pairOf. interns. Qed.
Lemma interns_ofShift c : interns (ofShift c).
Proof. by intros f x f' (? & _ & [= _ <-])%bind_Some. Qed.
Lemma interns_doubledOperand id : interns (doubledOperand id).
Proof. unfold doubledOperand. cbv zeta. interns. Qed.
Lemma interns_built m : interns m -> interns (built m).
Proof. intros H. unfold built. interns. Qed.
Lemma interns_isConst id v : interns (isConst id v).
Proof. unfold isConst. interns. Qed.
Lemma interns_isAllOnes id : interns (isAllOnes id).
Proof. unfold isAllOnes. interns. apply interns_isConst. Qed.
Lemma interns_ruleIf c x : interns c -> interns x -> interns (ruleIf c x).
Proof. intros. unfold ruleIf. interns. by apply interns_built. Qed.
Lemma interns_rulesOr rules last : Forall interns rules -> interns last -> interns (rulesOr rules last).
Proof. intros H Hl. induction H as [|m rules Hm _ IH]; cbn [rulesOr]; [done|]. interns. Qed.

#[local] Hint Resolve interns_first interns_pairOf interns_ofShift interns_doubledOperand interns_built interns_isConst interns_isAllOnes interns_ruleIf : interns.

Lemma interns_carryBound cmpId eqId cmpOp eqOp : interns (matchCarryBound cmpId eqId cmpOp eqOp).
Proof. unfold matchCarryBound. interns. apply interns_first. intros arm. unfold matchCarryArm. cbv zeta. interns. Qed.
Lemma interns_evenProduct id : interns (matchEvenProduct id).
Proof. unfold matchEvenProduct. interns. apply interns_first. intros arm. unfold matchEvenArm. cbv zeta. interns. Qed.

#[local] Hint Resolve interns_carryBound interns_evenProduct : interns.

Ltac interns_rule :=
  repeat first
    [progress cbv zeta|progress interns
    |match goal with
     | |- interns (built _) => apply interns_built
     | |- interns (firstOf _ _) => apply interns_first; intros ?
     | |- interns (ruleIf _ _) => apply interns_ruleIf
     | |- interns (rulesOr _ _) => apply interns_rulesOr
     | |- Forall interns _ => constructor
     end].

Lemma interns_matchSignExtend e : interns (matchSignExtend e).
Proof. unfold matchSignExtend, matchSignArm. interns_rule. Qed.

Lemma interns_rewriteNode e id : interns (rewriteNode e id).
Proof.
  assert (forall o x t v, interns (withRight o x t v)) by (intros; unfold withRight; interns_rule).
  assert (forall o t v y, interns (withLeft o t v y)) by (intros; unfold withLeft; interns_rule).
  assert (forall e, interns (normaliseCommutative e)) by (intros; unfold normaliseCommutative; interns_rule).
  assert (forall e, interns (unchanged e)) by (intros; unfold unchanged; interns_rule).
  assert (forall o e v, interns (foldNested o e v)) by (intros; unfold foldNested; interns_rule).
  assert (forall e, interns (matchMbaAdd e)) by (intros; unfold matchMbaAdd, matchMbaAddArm; interns_rule).
  assert (forall e, interns (matchMbaSub e)) by (intros; unfold matchMbaSub; interns_rule).
  assert (forall e, interns (matchObfuscatedIncrement e)) by (intros; unfold matchObfuscatedIncrement; interns_rule).
  assert (forall e, interns (matchMaskedRotate e)) by (intros; unfold matchMaskedRotate; interns_rule).
  assert (forall e, interns (matchMaskedShift e)) by (intros; unfold matchMaskedShift; interns_rule).
  assert (forall e, interns (matchShiftedCompare e)) by (intros; unfold matchShiftedCompare; interns_rule).
  assert (forall e, interns (matchCancelledSubtrahend e)) by (intros; unfold matchCancelledSubtrahend, matchCancelledSide; interns_rule).
  pose proof interns_matchSignExtend.
  unfold rewriteNode, rewriteAdd, rewriteSub, rewriteMul, rewriteAnd, rewriteOr, rewriteXor, rewriteNot, rewriteNeg, rewriteShift, rewriteSelect,
    rewriteFlagCond, rewriteCompare, rewriteCast.
  destruct (op e); interns_rule.
  all: unfold addNotOne, addNegated, addReassociate, subNegated, subReassociate, subMirror, allOnesOr, zeroOr, andEven, matchCarryCompare,
    matchCarryCompareOr, matchMbaOr, matchMbaXor, truncZext, isZero; interns_rule.
Qed.

Lemma interns_foldNode e id : interns (foldNode e id).
Proof.
  unfold foldNode. destruct (_ && _); [|apply interns_ret].
  apply interns_bind; [intros f x f'; destruct (tryEvalConst f id); by intros [= <- <-]|]. intros [v|]; auto with interns.
Qed.

Lemma interns_rewriteRounds rounds id : interns (rewriteRounds rounds id).
Proof.
  revert id. induction rounds as [|rounds IH]; intros id; cbn [rewriteRounds]; [apply interns_ret|].
  assert (interns (rewriteOnce id)).
  { unfold rewriteOnce. apply interns_bind; [apply interns_exprOf|]. intros e.
    apply interns_rulesOr; [constructor; [apply interns_foldNode|constructor]|apply interns_rewriteNode]. }
  interns_rule.
Qed.

Lemma interns_operandsLoop {St} (rec : N -> Memo * St -> M (N * (Memo * St))) xs :
  (forall x w, interns (rec x w)) -> forall w, interns (operandsLoop rec xs w).
Proof.
  intros H. induction xs as [|x xs IH]; intros w; cbn [operandsLoop]; [apply interns_ret|].
  apply interns_bind; [apply H|]. intros [y w1]. apply interns_bind; [apply IH|]. intros [[ys ch] w2]. apply interns_ret.
Qed.

Lemma interns_simplify levels id w : interns (simplify levels id w).
Proof.
  revert id w. induction levels as [|levels IH]; intros id w; cbn [simplify]; cbv zeta; (destruct (_ !! id); [apply interns_ret|]); [apply interns_ret|].
  apply interns_bind; [apply interns_exprOf|]. intros e. apply interns_bind; [|intros [r w1]; apply interns_ret].
  destruct (_ =? 0)%nat; [apply interns_ret|]. unfold simplifyNode.
  apply interns_bind; [by apply interns_operandsLoop|]. intros [[ys ch] w1].
  apply interns_bind; [destruct ch; interns|]. intros [r w2]. apply interns_bind; [apply interns_rewriteRounds|]. intros r'. apply interns_ret.
Qed.

(** ** The driver *)

Section Drive.
Context {St : Type} (rewrite_ : N -> Memo * St -> M (N * (Memo * St))).
Context (Hinterns : forall x w, interns (rewrite_ x w)).
Context (Hwalk : forall f0, walk_R (walks f0) Stands rewrite_).

(** What a part of the driver guarantees: it only adds to the pools, and as long
    as the function that results is tame and addressable, it is refined, and the
    memo stays right. *)
Definition simplifies (w : Memo * St) (m : M (bool * (Memo * St))) : Prop := forall f b w' f', m f = Some ((b, w'), f') ->
  (grows f f' /\ (length (operandPool (tables f)) <= length (operandPool (tables f')))%nat) /\
  (pool_ok f -> operandsExist f -> memo_R Stands f w.1 -> addressable f' -> tame f' ->
   pool_ok f' /\ operandsExist f' /\ memo_R Stands f' w'.1 /\ forall env, env_ok f env -> env_ok f' env /\ refined env f f').

Lemma simplifies_ret w b : simplifies w (mret (b, w)).
Proof. intros f b' w' f' [= <- <- <-]. split; [done|]. intros. split_and!; [done..|]. intros env Henv. split; [done|apply refined_refl]. Qed.

Lemma simplifies_query {A} w (q : Function -> option A) k : (forall x, simplifies w (k x)) -> simplifies w (gets q ≫= k).
Proof. intros Hk f b w' f' (x & f1 & [_ ->]%gets_Some & H)%M_bind_Some. by eapply Hk. Qed.

(** One part and then another. *)
Lemma simplifies_bind w m k :
  simplifies w m -> (forall b w1, simplifies w1 (k (b, w1))) -> simplifies w (m ≫= k).
Proof.
  intros Hm Hk f b w' f' ([b1 w1] & f1 & H1 & H2)%M_bind_Some.
  destruct (Hm _ _ _ _ H1) as [[Hg1 Hl1] Hs1], (Hk b1 w1 _ _ _ _ H2) as [[Hg2 Hl2] Hs2].
  split; [split; [by etrans|lia]|]. intros Hok Hex Hw Ha Ht.
  destruct Hs1 as (Hok1 & Hex1 & Hw1 & Hr1); [done|done|done|unfold addressable in *; lia|by eapply tame_shrinks|].
  destruct Hs2 as (Hok2 & Hex2 & Hw2 & Hr2); [done..|]. split_and!; [done|done|done|]. intros env Henv.
  destruct (Hr1 env Henv) as [Henv1 Href1], (Hr2 env Henv1) as [Henv2 Href2]. split; [done|]. by eapply (refined_trans env f f1).
Qed.

(** Storing operands that stand for the old ones. *)
Lemma setOperands_simplifies f id o xs ys f' :
  pool_ok f -> operandsExist f -> opAt f id = Some o -> operandsOf (tables f) o = Some xs -> Forall2 (Stands f) xs ys -> tame f ->
  setOperands id ys f = Some (tt, f') -> addressable f' ->
  pool_ok f' /\ operandsExist f' /\ forall env, env_ok f env -> env_ok f' env /\ refined env f f'.
Proof using Type.
  intros Hok Hex Ho Hxs Hys Ht Hset Ha.
  assert (forall env, env_ok f env -> pool_ok f' /\ refined env f f' /\ operandsExist f') as Hall.
  { intros env Henv. apply (setOperands_refined env pool_ok (fun _ H => H) pool_ok_same f id o xs ys f'); try done.
    eapply Forall2_impl; [exact Hys|]. intros x y [_ H]. auto. }
  destruct (Hall emptyEnv (emptyEnv_ok f)) as (Hok' & Href & Hex'). split_and!; [done|done|]. intros env Henv. split; [|by apply Hall].
  apply (env_ok_same f); [done|exact (grows_registers _ _ (refined_grows _ _ _ Href))|exact (refined_values _ _ _ Href)].
Qed.

Lemma setOperands_keeps id ys f f' : setOperands id ys f = Some (tt, f') ->
  grows f f' /\ (length (operandPool (tables f)) <= length (operandPool (tables f')))%nat.
Proof using Type.
  unfold setOperands, update. destruct (opAt f id) as [o|]; [|done]. intros [= <-]. cbn. rewrite length_app. split; [by split|lia].
Qed.

Lemma walkOp_simplifies opId w : simplifies w (walkOp rewrite_ opId w).
Proof using Hinterns Hwalk.
  intros f b w' f' H. unfold walkOp in H. apply M_bind_Some in H as (xs & f0 & [Hq ->]%gets_Some & H).
  destruct (opAt f opId) as [o|] eqn:Ho; [|done]. cbn in Hq. destruct (decide (xs = [])) as [|_]; [by apply (simplifies_ret w) in H|].
  apply M_bind_Some in H as ([[ys touched] w1] & f1 & Hl & H).
  pose proof (interns_operandsLoop rewrite_ xs Hinterns w f _ f1 Hl) as Hx1. pose proof (pool_ext_tables f f1 Hx1) as Ht1.
  pose proof (pool_ext_grows _ _ Hx1) as Hg1.
  assert (pool_ok f -> operandsExist f -> memo_R Stands f w.1 ->
    (pool_ok f1 /\ operandsExist f1 /\ memo_R Stands f1 w1.1 /\ Forall2 (Stands f1) xs ys)) as Hloop.
  { intros Hok Hex Hw. destruct (Hex opId o Ho) as (xs' & Hxs' & Hall). assert (xs' = xs) as -> by congruence.
    destruct (operandsLoop_R (walks f) Stands (walks_stands f) rewrite_ (Hwalk f) xs f w ys touched w1 f1) as ([Hok1 _] & _ & Hw1 & Hs1 & _); try done.
    split_and!; [done|by eapply operandsExist_pool|done|done]. }
  destruct touched.
  - apply M_bind_Some in H as ([] & f2 & Hset & [= <- <- <-]). destruct (setOperands_keeps opId ys f1 f2 Hset) as [Hg2 Hl2].
    split; [split; [by etrans|rewrite Ht1 in Hl2; exact Hl2]|]. intros Hok Hex Hw Ha Ht. destruct (Hloop Hok Hex Hw) as (Hok1 & Hex1 & Hw1 & Hs1).
    destruct (setOperands_simplifies f1 opId o xs ys f2) as (Hok2 & Hex2 & Hr2); try done; [by unfold opAt in *; rewrite Ht1|by rewrite Ht1|by eapply tame_shrinks|].
    split_and!; [done|done|exact (memo_R_grows pool_ok Stands Stands_grows f1 f2 w1.1 Hok1 Hg2 Hw1)|]. intros env Henv.
    destruct (Hr2 env (env_ok_ext f f1 env Hx1 Henv)) as [? Hr]. split; [done|].
    eapply (refined_trans env f f1); [done|by apply refined_pool_ext|done].
  - injection H as <- <- <-. split; [split; [done|by rewrite Ht1]|]. intros Hok Hex Hw Ha Ht.
    destruct (Hloop Hok Hex Hw) as (Hok1 & Hex1 & Hw1 & _). split_and!; [done|done|done|]. intros env Henv.
    split; [by eapply env_ok_ext|by apply refined_pool_ext].
Qed.

Lemma walkOps_simplifies opIds w : simplifies w (walkOps rewrite_ opIds w).
Proof using Hinterns Hwalk.
  revert w. induction opIds as [|opId opIds IH]; intros w; cbn [walkOps]; [apply simplifies_ret|].
  apply simplifies_bind; [apply walkOp_simplifies|]. intros b w1. apply simplifies_bind; [apply IH|]. intros b2 w2. apply simplifies_ret.
Qed.

Lemma walkBlocks_simplifies blockIds w : simplifies w (walkBlocks rewrite_ blockIds w).
Proof using Hinterns Hwalk.
  revert w. induction blockIds as [|blockId blockIds IH]; intros w; cbn [walkBlocks]; [apply simplifies_ret|].
  apply simplifies_query. intros opIds. apply simplifies_bind; [apply walkOps_simplifies|]. intros b w1.
  apply simplifies_bind; [apply IH|]. intros b2 w2. apply simplifies_ret.
Qed.
End Drive.

(** ** Properties *)

(** Algebraic simplification refines the function: whatever rules fired, the
    pool still verifies, every operation keeps its place, and its operands are
    the old ones or stand for them. *)
Lemma simplifyAlgebra_refines f changed f' :
  pool_ok f -> operandsExist f -> simplifyAlgebra f = Some (changed, f') -> addressable f' -> tame f' ->
  pool_ok f' /\ operandsExist f' /\ forall env, env_ok f env -> refined env f f'.
Proof.
  intros Hok Hex H Ha Ht. unfold simplifyAlgebra in H. apply M_bind_Some in H as (blockIds & f0 & [_ ->]%gets_Some & H).
  apply M_bind_Some in H as ([b w] & f1 & H & [= <- <-]).
  destruct (walkBlocks_simplifies (simplify kMaxDepth) (interns_simplify kMaxDepth) (fun f0 => simplify_R f0 kMaxDepth) blockIds newWalk f b w f1 H)
    as [_ Hs]. destruct Hs as (? & ? & _ & Hr); try done.
  split_and!; [done|done|]. intros env Henv. by apply Hr.
Qed.

Section Runs.
Context {B X : Type} `{BackendLaws B}.
Context (level : Maturity) (f f' : Function) (hooks : Hooks X) (changed : bool) (b : N) (m m' : Machine B).
Context (st st' : X) (r : ExecOutcome).

(** C12 Algebraic simplification preserves execution. The function is
    [executable]: it verifies below SSA with a well-formed pool, without remainders (5
    rem 0 folds to 0 and runs to 5), bitcasts, floats of widths other than 32 or at
    least 64, or nodes C++ can leave undefined. The hooks return values of the type
    asked for and do not look at where operands are stored; the machine is
    [enterable]: lawful memory, registers holding values of their types. The function
    [simplifyAlgebra] returns is [tame]: integer operations are on scalars of at most
    64 bits, constants lie within their types, no cast is to a flag bundle, and there
    is no comparison a <u a + c or a + c <=u a, which the carry rule takes the wrong
    way round; its operand pool stays below 2^32 and its expressions are at most 257
    deep. Then every run of a block that does not end in an error is the same run
    after it: outcome, registers, values, memory and hooks' state. *)
Theorem simplifyAlgebra_preserves_runs :
  executable level f -> typed_hooks hooks -> blind_hooks hooks -> enterable f m ->
  simplifyAlgebra f = Some (changed, f') -> addressable f' -> shallow f' -> tame f' ->
  runBlock f hooks b m st = Some (r, m', st') -> stop r <> ExecStop.Error ->
  runBlock f' hooks b m st = Some (r, m', st').
Proof using Type*.
  intros [] Hth Hbh Hm Hs Haddr Hsh Ht.
  destruct (simplifyAlgebra_refines f changed f') as (Hpool' & _ & Href); [done..|].
  apply (runBlock_refined f f' hooks) with (level := level); auto using strict_floats.
Qed.
End Runs.
