(* ===== verification/GuestMemory.v ===== *)
(** * The guest address space (exec/memory.h, exec/memory.cpp)

    Permissioned pages that a provider may supply on first access, a one-page
    cache of pointers into the page table, a generation per page, and one dirty
    bit per byte. Pages are nodes of a store, since the table's entries are
    pointed to; an access that fails keeps what it did before failing. *)
From stdpp Require Import sorting.
From S2P Require Import Prelude Bits U128 Eval Memory.

(** ** Data *)

(** [MemoryPermission] is a set of bits. *)
Module Permission.
Definition None : Z := 0.
Definition Read : Z := 1.
Definition Write : Z := 2.
Definition Execute : Z := 4.
End Permission.

Definition hasPermission (permissions query : Z) : bool := Z.land permissions query =? query.

Record MemoryAccess : Type := MkAccess {
  accessInstruction : Z; accessAddress : Z; accessSize : Z; accessWrite : bool; accessValue : ConcreteValue }.

Record PageSeed : Type := MkSeed { seedPermissions : Z; seedBytes : list Z }.

Module PatchKind.
Inductive Kind : Set := Write | Map | Protect | Unmap.
End PatchKind.
Abbreviation Kind := PatchKind.Kind.

#[export] Instance Kind_eq_dec : EqDecision Kind.
Proof. solve_decision. Defined.

Record MemoryPatch : Type := MkPatch {
  patchKind : Kind; patchAddress : Z; patchSize : Z; patchPermissions : Z; patchBytes : list Z }.

Definition patchWrite (address : Z) (bytes : list Z) : MemoryPatch :=
  MkPatch PatchKind.Write address (Z.of_nat (length bytes)) Permission.None bytes.
Definition patchMap (address size permissions : Z) (initial : list Z) : MemoryPatch :=
  MkPatch PatchKind.Map address size permissions initial.
Definition patchProtect (address size permissions : Z) : MemoryPatch :=
  MkPatch PatchKind.Protect address size permissions [].
Definition patchUnmap (address size : Z) : MemoryPatch :=
  MkPatch PatchKind.Unmap address size Permission.None [].

Definition kDirtyWordBits : Z := 64.
Definition kDirtyWords : Z := kPageSize / kDirtyWordBits.

Record GuestPage : Type := MkPage {
  pageBytes : list Z; pagePermissions : Z; generation : Z; dirty : list Z; dirtyListed : bool }.

Definition cleanDirty : list Z := repeat 0 (Z.to_nat kDirtyWords).

(** A page as [try_emplace] makes it. *)
Definition emptyPage : GuestPage := MkPage zeroPage Permission.None 0 cleanDirty false.

Definition withBytes (p : GuestPage) (bytes : list Z) : GuestPage :=
  MkPage bytes (pagePermissions p) (generation p) (dirty p) (dirtyListed p).
Definition withPermissions (p : GuestPage) (permissions : Z) : GuestPage :=
  MkPage (pageBytes p) permissions (generation p) (dirty p) (dirtyListed p).
Definition withGeneration (p : GuestPage) (g : Z) : GuestPage :=
  MkPage (pageBytes p) (pagePermissions p) g (dirty p) (dirtyListed p).
Definition withDirty (p : GuestPage) (words : list Z) (listed : bool) : GuestPage :=
  MkPage (pageBytes p) (pagePermissions p) (generation p) words listed.

(** What the embedder plugs in, and the address space. [pages_] maps page bases
    to nodes of [nodes]; a node that is gone is a dangling pointer. [cacheBase]
    and [cachePage] are [cache_]. Within one call the provider is a function of the
    page (no call asks for a page again once it has been supplied); what it
    supplies, and the embedder as a whole, may change from one call to the next. *)
Record Embedder : Type := MkEmbedder {
  canonicalizer : option (Z -> Z); provider : option (Z -> Res (option PageSeed)); observing : bool }.

Record GuestAddressSpace : Type := MkSpace {
  nodes : gmap N GuestPage; nextNode : N; pages_ : gmap Z N; cacheBase : Z; cachePage : option N;
  dirtyPages_ : list Z; nextGeneration_ : Z; instruction_ : Z; accesses : list MemoryAccess }.

(** [PageCache::kNoPage]. *)
Definition kNoPage : Z := 1.

Definition newSpace : GuestAddressSpace := MkSpace ∅ 0 ∅ kNoPage None [] 1 0 [].

(** ** The monad: a result and the state it leaves *)

Definition G (A : Type) : Type := GuestAddressSpace -> Res A * GuestAddressSpace.

#[export] Instance G_ret : MRet G := fun A x s => (Ok x, s).
#[export] Instance G_bind : MBind G := fun A B k m s =>
  match m s with
  | (Ok x, s) => k x s
  | (Err d, s) => (Err d, s)
  | (Undefined, s) => (Undefined, s)
  end.

Definition gfail {A} (r : Res A) : G A := fun s => (r, s).
Definition gask {A} (q : GuestAddressSpace -> A) : G A := fun s => (Ok (q s), s).
Definition gput (u : GuestAddressSpace -> GuestAddressSpace) : G unit := fun s => (Ok tt, u s).

Definition withNodes (s : GuestAddressSpace) (ns : gmap N GuestPage) : GuestAddressSpace :=
  MkSpace ns (nextNode s) (pages_ s) (cacheBase s) (cachePage s) (dirtyPages_ s) (nextGeneration_ s)
    (instruction_ s) (accesses s).
Definition withCache (s : GuestAddressSpace) (base : Z) (page : option N) : GuestAddressSpace :=
  MkSpace (nodes s) (nextNode s) (pages_ s) base page (dirtyPages_ s) (nextGeneration_ s) (instruction_ s) (accesses s).
Definition withDirtyPages (s : GuestAddressSpace) (bases : list Z) : GuestAddressSpace :=
  MkSpace (nodes s) (nextNode s) (pages_ s) (cacheBase s) (cachePage s) bases (nextGeneration_ s)
    (instruction_ s) (accesses s).

(** [setInstructionContext]. *)
Definition setInstructionContext (pc : Z) (s : GuestAddressSpace) : GuestAddressSpace :=
  MkSpace (nodes s) (nextNode s) (pages_ s) (cacheBase s) (cachePage s) (dirtyPages_ s) (nextGeneration_ s) pc
    (accesses s).

Definition observe (a : MemoryAccess) (s : GuestAddressSpace) : GuestAddressSpace :=
  MkSpace (nodes s) (nextNode s) (pages_ s) (cacheBase s) (cachePage s) (dirtyPages_ s) (nextGeneration_ s)
    (instruction_ s) (accesses s ++ [a]).

(** [nextGeneration_++]. *)
Definition freshGeneration : G Z := fun s =>
  (Ok (nextGeneration_ s),
   MkSpace (nodes s) (nextNode s) (pages_ s) (cacheBase s) (cachePage s) (dirtyPages_ s) (add64 (nextGeneration_ s) 1)
     (instruction_ s) (accesses s)).

(** Through a [Page*]. *)
Definition deref (node : N) : G GuestPage := fun s => (ofOption (nodes s !! node), s).
Definition store (node : N) (p : GuestPage) : G unit := gput (fun s => withNodes s (<[node := p]> (nodes s))).
Definition modify (node : N) (u : GuestPage -> GuestPage) : G unit := p ← deref node; store node (u p).

(** [pages_.try_emplace(page)], or [emplace] with a page: whether it was
    inserted, and the entry. *)
Definition emplacePage (page : Z) (p : GuestPage) : G (N * bool) := fun s =>
  match pages_ s !! page with
  | Some node => (Ok (node, false), s)
  | None =>
      (Ok (nextNode s, true),
       MkSpace (<[nextNode s := p]> (nodes s)) (N.succ (nextNode s)) (<[page := nextNode s]> (pages_ s))
         (cacheBase s) (cachePage s) (dirtyPages_ s) (nextGeneration_ s) (instruction_ s) (accesses s))
  end.

(** [pages_.erase(page)]. *)
Definition erasePage (page : Z) : G unit := gput (fun s =>
  match pages_ s !! page with
  | None => s
  | Some node =>
      MkSpace (delete node (nodes s)) (nextNode s) (delete page (pages_ s)) (cacheBase s) (cachePage s)
        (dirtyPages_ s) (nextGeneration_ s) (instruction_ s) (accesses s)
  end).

(** [lookup]. *)
Definition lookupPage (page : Z) : G (option N) := fun s =>
  if cacheBase s =? page then (Ok (cachePage s), s)
  else match pages_ s !! page with
  | None => (Ok None, s)
  | Some node => (Ok (Some node), withCache s page (Some node))
  end.

Definition guestPageAt (address : Z) : G (option N) := lookupPage (pageBase address).

(** [pageAt] where the code dereferences the result. *)
Definition pageAtDeref (address : Z) : G N := found ← guestPageAt address; gfail (ofOption found).

(** The loops [for (page = first;; page += kPageSize) { ...; if (page == last) break; }],
    with what they carry along; without fuel left they do not end. *)
Fixpoint eachPage {A} (fuel : nat) (body : Z -> A -> G A) (page last : Z) (x : A) : G A :=
  x ← body page x;
  if page =? last then mret x
  else match fuel with
  | O => gfail Undefined
  | S fuel => eachPage fuel body (add64 page kPageSize) last x
  end.

Definition forPagesWith {A} (body : Z -> A -> G A) (address size : Z) (x : A) : G A :=
  let first := pageBase address in
  let last := pageBase (sub64 (add64 address size) 1) in
  eachPage (Z.to_nat (sub64 last first / kPageSize)) body first last x.

Definition forPages (body : Z -> G unit) (address size : Z) : G unit :=
  forPagesWith (fun page _ => body page) address size tt.

(** [address > max - (size - 1)]. *)
Definition wraps (address size : Z) : bool := (2 ^ 64 - 1 - (size - 1) <? address).

Section Operations.
Context (env : Embedder).

Definition canonicalize (address : Z) : Z :=
  match canonicalizer env with Some c => c address | None => address end.

(** ** Pages *)

(** [residentPage]. *)
Definition residentPage (page permission : Z) : G N :=
  found ← lookupPage page;
  found ← match found, provider env with
          | None, Some provide =>
              supplied ← gfail (provide page);
              match supplied with
              | Some sd =>
                  g ← freshGeneration;
                  '(node, _) ← emplacePage page (MkPage (seedBytes sd) (seedPermissions sd) g cleanDirty false);
                  gput (fun s => withCache s page (Some node));;
                  mret (Some node)
              | None => mret None
              end
          | _, _ => mret found
          end;
  match found with
  | None => gfail (errAt DiagCode.UnmappedAddress page)
  | Some node =>
      p ← deref node;
      if negb (permission =? Permission.None) && negb (hasPermission (pagePermissions p) permission)
      then gfail (errAt DiagCode.OutOfRange page)
      else mret node
  end.

(** [ensure]. *)
Definition ensure (address size permission : Z) : G unit :=
  let address := canonicalize address in
  if size =? 0 then mret tt
  else if wraps address size then gfail (err DiagCode.OutOfRange)
  else forPages (fun page => residentPage page permission;; mret tt) address size.

(** [map]. *)
Definition guestMap (address size permissions : Z) : G unit :=
  let address := canonicalize address in
  if size =? 0 then mret tt
  else if wraps address size then gfail (err DiagCode.OutOfRange)
  else
    forPages (fun page =>
      found ← gask (fun s => pages_ s !! page);
      match found with Some _ => gfail (errAt DiagCode.BadFormat page) | None => mret tt end) address size;;
    forPages (fun page =>
      '(node, _) ← emplacePage page emptyPage;
      modify node (fun p => withPermissions p permissions);;
      g ← freshGeneration;
      modify node (fun p => withGeneration p g)) address size.

(** The byte loops of [seed] and of [apply]'s mappings. *)
Fixpoint pokeBytes (address : Z) (bytes : list Z) : G unit :=
  match bytes with
  | [] => mret tt
  | b :: bytes =>
      node ← pageAtDeref address;
      modify node (fun p => withBytes p (setByte (pageBytes p) (pageOffset address) b));;
      pokeBytes (add64 address 1) bytes
  end.

(** [seed]. *)
Definition guestSeed (address : Z) (bytes : list Z) (permissions : Z) : G unit :=
  let address := canonicalize address in
  let size := Z.of_nat (length bytes) in
  if size =? 0 then mret tt
  else if wraps address size then gfail (err DiagCode.OutOfRange)
  else
    forPages (fun page =>
      '(node, inserted) ← emplacePage page emptyPage;
      modify node (fun p => withPermissions p
        (if (inserted : bool) then permissions else Z.lor (pagePermissions p) permissions));;
      g ← freshGeneration;
      modify node (fun p => withGeneration p g)) address size;;
    pokeBytes address bytes.

(** [protect]. [pages_.at] throws on a missing page. *)
Definition guestProtect (address size permissions : Z) : G unit :=
  let address := canonicalize address in
  ensure address size Permission.None;;
  if size =? 0 then mret tt
  else forPages (fun page =>
    found ← gask (fun s => pages_ s !! page);
    node ← gfail (ofOption found);
    modify node (fun p => withPermissions p permissions);;
    g ← freshGeneration;
    modify node (fun p => withGeneration p g)) address size.

(** [unmap]. *)
Definition guestUnmap (address size : Z) : G unit :=
  let address := canonicalize address in
  if size =? 0 then mret tt
  else
    ensure address size Permission.None;;
    gput (fun s => withCache s kNoPage None);;
    forPages erasePage address size.

(** The loop of [mapped]. *)
Fixpoint mappedLoop (fuel : nat) (s : GuestAddressSpace) (page last : Z) : bool :=
  match pages_ s !! page with
  | None => false
  | Some _ =>
      if page =? last then true
      else match fuel with
      | O => false
      | S fuel => mappedLoop fuel s (add64 page kPageSize) last
      end
  end.

Definition guestMapped (s : GuestAddressSpace) (address size : Z) : bool :=
  let address := canonicalize address in
  if size =? 0 then true
  else if wraps address size then false
  else
    let first := pageBase address in
    let last := pageBase (sub64 (add64 address size) 1) in
    mappedLoop (Z.to_nat (sub64 last first / kPageSize)) s first last.

(** ** Bytes *)

(** The chunk of a copy of [rest] bytes at [cursor]: up to the end of its page. *)
Definition chunkSize (cursor rest : Z) : Z := Z.min rest (kPageSize - pageOffset cursor).

Definition pageSlice (p : GuestPage) (offset size : Z) : list Z :=
  take (Z.to_nat size) (drop (Z.to_nat offset) (pageBytes p)).

(** The copying loop of [readBytes], from [cursor] on; each step copies a byte. *)
Fixpoint copyOut (fuel : nat) (cursor rest : Z) : G (list Z) :=
  if rest =? 0 then mret []
  else match fuel with
  | O => gfail Undefined
  | S fuel =>
      let chunk := chunkSize cursor rest in
      node ← pageAtDeref cursor;
      p ← deref node;
      more ← copyOut fuel (add64 cursor chunk) (rest - chunk);
      mret (pageSlice p (pageOffset cursor) chunk ++ more)
  end.

(** [readBytes] of [size] bytes. *)
Definition guestReadBytes (address size permission : Z) : G (list Z) :=
  let address := canonicalize address in
  let offset := pageOffset address in
  if negb (size =? 0) && (offset + size <=? kPageSize) then
    node ← residentPage (pageBase address) permission;
    p ← deref node;
    mret (pageSlice p offset size)
  else
    ensure address size permission;;
    copyOut (Z.to_nat size) address size.

(** The search of [readResidentBytes]: whether every page is resident. *)
Fixpoint allResident (fuel : nat) (page last : Z) : G bool :=
  found ← lookupPage page;
  match found with
  | None => mret false
  | Some _ =>
      if page =? last then mret true
      else match fuel with
      | O => gfail Undefined
      | S fuel => allResident fuel (add64 page kPageSize) last
      end
  end.

(** [readResidentBytes]; [None] is [false]. *)
Definition guestReadResident (address size : Z) : G (option (list Z)) :=
  let address := canonicalize address in
  if size =? 0 then mret (Some [])
  else if wraps address size then mret None
  else
    let first := pageBase address in
    let last := pageBase (sub64 (add64 address size) 1) in
    resident ← allResident (Z.to_nat (sub64 last first / kPageSize)) first last;
    if (resident : bool) then bytes ← copyOut (Z.to_nat size) address size; mret (Some bytes)
    else mret None.

(** [refresh]. *)
Definition refresh (address size : Z) : G unit :=
  match provider env with
  | None => mret tt
  | Some provide =>
      if size =? 0 then mret tt
      else
        let address := canonicalize address in
        if wraps address size then gfail (err DiagCode.OutOfRange)
        else forPages (fun page =>
          found ← lookupPage page;
          match found with
          | None => mret tt
          | Some node =>
              supplied ← gfail (provide page);
              match supplied with
              | None => mret tt
              | Some sd =>
                  modify node (fun p => withPermissions (withBytes p (seedBytes sd)) (seedPermissions sd));;
                  g ← freshGeneration;
                  modify node (fun p => withGeneration p g)
              end
          end) address size
  end.

(** The loop of [markDirty] over the dirty words; each step marks a bit. Without
    fuel left it does not end. *)
Fixpoint markWords (fuel : nat) (words : list Z) (offset size : Z) : option (list Z) :=
  if size =? 0 then Some words
  else match fuel with
  | O => None
  | S fuel =>
      let word := offset / kDirtyWordBits in
      let bit := offset mod kDirtyWordBits in
      let take := Z.min (kDirtyWordBits - bit) size in
      let ones := if take =? kDirtyWordBits then not64 0 else sub64 (shl64 1 take) 1 in
      let words := <[Z.to_nat word := Z.lor (nth (Z.to_nat word) words 0) (shl64 ones bit)]> words in
      markWords fuel words (offset + take) (size - take)
  end.

(** [markDirty]. *)
Definition markDirty (node : N) (base offset size : Z) : G unit :=
  p ← deref node;
  (if dirtyListed p then mret tt else gput (fun s => withDirtyPages s (dirtyPages_ s ++ [base])));;
  p ← deref node;
  words ← gfail (ofOption (markWords (Z.to_nat size) (dirty p) offset size));
  modify node (fun p => withDirty p words true).

(** Copying [bytes] into one page, and what follows. *)
Definition writeChunk (node : N) (base offset : Z) (bytes : list Z) : G unit :=
  modify node (fun p => withBytes p (list_inserts (Z.to_nat offset) bytes (pageBytes p)));;
  markDirty node base offset (Z.of_nat (length bytes));;
  g ← freshGeneration;
  modify node (fun p => withGeneration p g).

(** The copying loop of [writeBytes]. *)
Fixpoint copyIn (fuel : nat) (cursor : Z) (bytes : list Z) : G unit :=
  match bytes with
  | [] => mret tt
  | _ =>
      match fuel with
      | O => gfail Undefined
      | S fuel =>
          let chunk := chunkSize cursor (Z.of_nat (length bytes)) in
          node ← pageAtDeref cursor;
          writeChunk node (pageBase cursor) (pageOffset cursor) (take (Z.to_nat chunk) bytes);;
          copyIn fuel (add64 cursor chunk) (drop (Z.to_nat chunk) bytes)
      end
  end.

(** [writeBytes]. *)
Definition guestWriteBytes (address : Z) (bytes : list Z) : G unit :=
  let address := canonicalize address in
  let size := Z.of_nat (length bytes) in
  if size =? 0 then mret tt
  else
    let offset := pageOffset address in
    if offset + size <=? kPageSize then
      node ← residentPage (pageBase address) Permission.Write;
      writeChunk node (pageBase address) offset bytes
    else
      ensure address size Permission.Write;;
      copyIn (length bytes) address bytes.

(** ** The interpreter's accesses *)

(** The loop that assembles the value. *)
Fixpoint assemble (bytes : list Z) (index : Z) (value : ConcreteValue) : ConcreteValue :=
  match bytes with
  | [] => value
  | b :: bytes => assemble bytes (index + 1) (orByte value index b)
  end.

Definition note (address size : Z) (isWrite : bool) (value : ConcreteValue) : G unit :=
  if observing env
  then gput (fun s => observe (MkAccess (instruction_ s) address size isWrite value) s)
  else mret tt.

(** [read]. *)
Definition guestRead (address bytes : Z) : G ConcreteValue :=
  if (bytes =? 0) || (16 <? bytes) then gfail (err DiagCode.Internal)
  else
    storage ← guestReadBytes address bytes Permission.Read;
    let value := assemble storage 0 zero128 in
    note address bytes false value;;
    mret value.

(** [write]. *)
Definition guestWrite (address bytes : Z) (value : ConcreteValue) : G unit :=
  if (bytes =? 0) || (16 <? bytes) then gfail (err DiagCode.Internal)
  else
    guestWriteBytes address (valueByte value <$> seqZ 0 bytes);;
    note address bytes true value.

(** ** Patches *)

(** [permissionAt]: the overlay first. *)
Definition permissionAt (overlay : gmap Z (option Z)) (page : Z) : G (option Z) :=
  match overlay !! page with
  | Some changed => mret changed
  | None =>
      found ← gask (fun s => pages_ s !! page);
      match found with
      | None => mret None
      | Some node => p ← deref node; mret (Some (pagePermissions p))
      end
  end.

(** [const auto r = m; if (r) ...]: the error is looked at, not passed on. *)
Definition gtry {A} (m : G A) : G bool := fun s =>
  match m s with
  | (Ok _, s) => (Ok true, s)
  | (Err _, s) => (Ok false, s)
  | (Undefined, s) => (Undefined, s)
  end.

(** One page of one patch: the overlay after it. *)
Definition validatePage (patch : MemoryPatch) (overlay : gmap Z (option Z)) (page : Z) : G (gmap Z (option Z)) :=
  current ← permissionAt overlay page;
  match patchKind patch with
  | PatchKind.Write =>
      current ← match current with
                | Some _ => mret current
                | None =>
                    materialized ← gtry (ensure page kPageSize Permission.Write);
                    if (materialized : bool) then permissionAt overlay page else mret current
                end;
      match current with
      | Some permissions =>
          if hasPermission permissions Permission.Write then mret overlay
          else gfail (errAt DiagCode.OutOfRange page)
      | None => gfail (errAt DiagCode.OutOfRange page)
      end
  | PatchKind.Map =>
      match current with
      | Some _ => gfail (errAt DiagCode.BadFormat page)
      | None => mret (<[page := Some (patchPermissions patch)]> overlay)
      end
  | PatchKind.Protect =>
      match current with
      | None => gfail (errAt DiagCode.UnmappedAddress page)
      | Some _ => mret (<[page := Some (patchPermissions patch)]> overlay)
      end
  | PatchKind.Unmap =>
      match current with
      | None => gfail (errAt DiagCode.UnmappedAddress page)
      | Some _ => mret (<[page := None]> overlay)
      end
  end.

Definition patchExtent (patch : MemoryPatch) : Z :=
  match patchKind patch with PatchKind.Write => Z.of_nat (length (patchBytes patch)) | _ => patchSize patch end.

(** The loop of [validate]. *)
Fixpoint validateFrom (overlay : gmap Z (option Z)) (patches : list MemoryPatch) : G unit :=
  match patches with
  | [] => mret tt
  | patch :: patches =>
      let address := canonicalize (patchAddress patch) in
      let size := patchExtent patch in
      if bool_decide (patchKind patch = PatchKind.Map) && (size <? Z.of_nat (length (patchBytes patch)))
      then gfail (err DiagCode.BadFormat)
      else if size =? 0 then validateFrom overlay patches
      else if wraps address size then gfail (err DiagCode.OutOfRange)
      else
        overlay ← forPagesWith (fun page overlay => validatePage patch overlay page) address size overlay;
        validateFrom overlay patches
  end.

Definition validate (patches : list MemoryPatch) : G unit := validateFrom ∅ patches.

(** One patch of [apply]. *)
Definition applyPatch (patch : MemoryPatch) : G unit :=
  match patchKind patch with
  | PatchKind.Write => guestWriteBytes (patchAddress patch) (patchBytes patch)
  | PatchKind.Map =>
      if patchSize patch <? Z.of_nat (length (patchBytes patch)) then gfail (err DiagCode.BadFormat)
      else
        guestMap (patchAddress patch) (patchSize patch) (patchPermissions patch);;
        pokeBytes (canonicalize (patchAddress patch)) (patchBytes patch)
  | PatchKind.Protect => guestProtect (patchAddress patch) (patchSize patch) (patchPermissions patch)
  | PatchKind.Unmap => guestUnmap (patchAddress patch) (patchSize patch)
  end.

Fixpoint applyPatches (patches : list MemoryPatch) : G unit :=
  match patches with
  | [] => mret tt
  | patch :: patches => applyPatch patch;; applyPatches patches
  end.

(** [apply]. *)
Definition apply (patches : list MemoryPatch) : G unit := validate patches;; applyPatches patches.

(** ** Seeding an image *)

(** [seedImage], given the image's regions (address, size, permissions) and its
    reader. *)
Fixpoint seedRegion (fuel : nat) (imageRead : Z -> Z -> Res (list Z)) (va size permissions offset : Z) : G unit :=
  if negb (offset <? size) then mret tt
  else match fuel with
  | O => gfail Undefined
  | S fuel =>
      let chunk := Z.min kPageSize (size - offset) in
      bytes ← gfail (imageRead (add64 va offset) chunk);
      guestSeed (add64 va offset) bytes permissions;;
      seedRegion fuel imageRead va size permissions (offset + chunk)
  end.

Fixpoint seedRegions (imageRead : Z -> Z -> Res (list Z)) (regions : list (Z * Z * Z)) : G unit :=
  match regions with
  | [] => mret tt
  | (va, size, permissions) :: regions =>
      seedRegion (Z.to_nat (size / kPageSize + 1)) imageRead va size permissions 0;;
      seedRegions imageRead regions
  end.
End Operations.

(** ** Dirty bytes *)

(** [std::countr_one]. *)
Definition countr_one (word : Z) : Z := if word =? not64 0 then 64 else countTrailingZeros (not64 word).

(** The inner loop: the end of the run that starts before [index]; a turn per
    word. Without fuel left neither loop ends. *)
Fixpoint runEnd (fuel : nat) (words : list Z) (index : Z) : option Z :=
  match fuel with
  | O => None
  | S fuel =>
      if kPageSize <=? index then Some index
      else
        let bit := index mod kDirtyWordBits in
        let run := countr_one (shr64 (nth (Z.to_nat (index / kDirtyWordBits)) words 0) bit) in
        let index := index + run in
        if bit + run <? kDirtyWordBits then Some index else runEnd fuel words index
  end.

(** The outer loop over a page: its runs, as offsets and sizes; a turn at most
    per byte. *)
Fixpoint dirtyRuns (fuel : nat) (words : list Z) (index : Z) : option (list (Z * Z)) :=
  match fuel with
  | O => None
  | S fuel =>
      if kPageSize <=? index then Some []
      else
        let word := index / kDirtyWordBits in
        let pending := shr64 (nth (Z.to_nat word) words 0) (index mod kDirtyWordBits) in
        if pending =? 0 then dirtyRuns fuel words ((word + 1) * kDirtyWordBits)
        else
          let start := index + countTrailingZeros pending in
          stop ← runEnd (S (Z.to_nat kDirtyWords)) words start;
          runs ← dirtyRuns fuel words stop;
          Some ((start, stop - start) :: runs)
  end.

(** [emit]: a range that continues the last one joins it. *)
Definition emitRange (ranges : list WrittenRange) (address size : Z) : list WrittenRange :=
  match last ranges with
  | Some r =>
      if add64 (rangeAddress r) (rangeSize r) =? address
      then removelast ranges ++ [MkRange (rangeAddress r) (add64 (rangeSize r) size)]
      else ranges ++ [MkRange address size]
  | None => ranges ++ [MkRange address size]
  end.

Fixpoint dirtyFrom (ranges : list WrittenRange) (bases : list Z) : G (list WrittenRange) :=
  match bases with
  | [] => mret ranges
  | base :: bases =>
      found ← lookupPage base;
      match found with
      | None => dirtyFrom ranges bases
      | Some node =>
          p ← deref node;
          runs ← gfail (ofOption (dirtyRuns (S (Z.to_nat kPageSize)) (dirty p) 0));
          dirtyFrom (foldl (fun rs r => emitRange rs (add64 base r.1) r.2) ranges runs) bases
      end
  end.

(** [dirtyRanges]. *)
Definition dirtyRanges : G (list WrittenRange) :=
  pages ← gask dirtyPages_;
  dirtyFrom [] (unique (merge_sort Z.le pages)).

(** [clearDirty]. *)
Fixpoint clearPages (bases : list Z) : G unit :=
  match bases with
  | [] => mret tt
  | base :: bases =>
      found ← lookupPage base;
      match found with
      | None => mret tt
      | Some node => modify node (fun p => withDirty p cleanDirty false)
      end;;
      clearPages bases
  end.

Definition clearDirty : G unit :=
  pages ← gask dirtyPages_;
  clearPages pages;;
  gput (fun s => withDirtyPages s []).

(** [seedImage]. *)
Definition seedImage (env : Embedder) (imageRead : Z -> Z -> Res (list Z)) (regions : list (Z * Z * Z)) : G unit :=
  seedRegions env imageRead regions;; clearDirty.

(** [generationAt]. *)
Definition generationAt (env : Embedder) (address : Z) : G Z :=
  found ← guestPageAt (canonicalize env address);
  match found with
  | None => mret 0
  | Some node => p ← deref node; mret (generation p)
  end.
