(* ===== verification/GuestPages.v ===== *)
(** * The page table of the guest address space

    A small program logic for operations that may fail, the invariant of the
    table with its nodes and its cache, and what each primitive does to [table],
    the pages by their bases. *)
From S2P Require Import Prelude Bits U128 Eval Memory GuestMemory.

(** ** Postconditions

    [wp m Φ E s]: from [s], [m] returns a value and a state with [Φ], or fails
    with a diagnostic and a state with [E]; it does nothing undefined. *)
Definition wp {A} (m : G A) (Φ : A -> GuestAddressSpace -> Prop) (E : Diag -> GuestAddressSpace -> Prop)
    (s : GuestAddressSpace) : Prop :=
  match m s with
  | (Ok x, s') => Φ x s'
  | (Err d, s') => E d s'
  | (Undefined, _) => False
  end.

Lemma wp_ret {A} (x : A) Φ E s : Φ x s -> wp (mret x) Φ E s.
Proof. done. Qed.

Lemma wp_bind {A B} (m : G A) (k : A -> G B) Φ E s : wp m (fun x => wp (k x) Φ E) E s -> wp (m ≫= k) Φ E s.
Proof. unfold wp, mbind, G_bind. by destruct (m s) as [[x|d|] s']. Qed.

Lemma wp_mono {A} (m : G A) (Φ Φ' : A -> GuestAddressSpace -> Prop) (E E' : Diag -> GuestAddressSpace -> Prop) s :
  wp m Φ E s -> (forall x s', Φ x s' -> Φ' x s') -> (forall d s', E d s' -> E' d s') -> wp m Φ' E' s.
Proof. unfold wp. destruct (m s) as [[x|d|] s']; auto. Qed.

Lemma wp_ask {A} (q : GuestAddressSpace -> A) (Φ : A -> GuestAddressSpace -> Prop) E s : Φ (q s) s -> wp (gask q) Φ E s.
Proof. done. Qed.

Lemma wp_put u (Φ : unit -> GuestAddressSpace -> Prop) E s : Φ tt (u s) -> wp (gput u) Φ E s.
Proof. done. Qed.

Lemma wp_fail {A} d (Φ : A -> GuestAddressSpace -> Prop) (E : Diag -> GuestAddressSpace -> Prop) s : E d s -> wp (gfail (Err d)) Φ E s.
Proof. done. Qed.

Lemma wp_Ok {A} (m : G A) Φ E s x s' : wp m Φ E s -> m s = (Ok x, s') -> Φ x s'.
Proof. unfold wp. intros H Hm. by rewrite Hm in H. Qed.

Lemma wp_Err {A} (m : G A) Φ E s d s' : wp m Φ E s -> m s = (Err d, s') -> E d s'.
Proof. unfold wp. intros H Hm. by rewrite Hm in H. Qed.

Lemma wp_total {A} (m : G A) Φ E s : wp m Φ E s ->
  (exists x s', m s = (Ok x, s') /\ Φ x s') \/ (exists d s', m s = (Err d, s') /\ E d s').
Proof. unfold wp. destruct (m s) as [[x|d|] s']; [left; by exists x, s'|right; by exists d, s'|done]. Qed.

(** ** The table *)

Definition table (s : GuestAddressSpace) : gmap Z GuestPage := omap (fun node => nodes s !! node) (pages_ s).

Lemma table_lookup s b : table s !! b = pages_ s !! b ≫= fun node => nodes s !! node.
Proof. apply lookup_omap. Qed.

(** The base of a page of the address space. *)
Definition pageAligned (b : Z) : Prop := fits 64 b /\ b mod kPageSize = 0.

Lemma pageBase_aligned a : fits 64 a -> pageAligned (pageBase a).
Proof. apply pageBase_bounds. Qed.

Lemma aligned_kNoPage b : pageAligned b -> b <> kNoPage.
Proof. intros [_ Hm] ->. discriminate Hm. Qed.

(** A page's arrays have their lengths, and a page that is not listed is clean. *)
Record guestPage_ok (p : GuestPage) : Prop := {
  guest_bytes : page_ok (pageBytes p);
  guest_words : length (dirty p) = Z.to_nat kDirtyWords /\ Forall (fits 64) (dirty p);
  guest_clean : dirtyListed p = false -> dirty p = cleanDirty }.

Lemma cleanDirty_ok : length cleanDirty = Z.to_nat kDirtyWords /\ Forall (fits 64) cleanDirty.
Proof.
  split; [apply repeat_length|]. apply Forall_forall. intros x Hx%list_elem_of_In%repeat_spec. subst. by apply fits_0.
Qed.

Lemma emptyPage_ok : guestPage_ok emptyPage.
Proof. split; [apply zeroPage_ok|apply cleanDirty_ok|done]. Qed.

Lemma withPermissions_ok p permissions : guestPage_ok p -> guestPage_ok (withPermissions p permissions).
Proof. intros []. by split. Qed.
Lemma withGeneration_ok p g : guestPage_ok p -> guestPage_ok (withGeneration p g).
Proof. intros []. by split. Qed.
Lemma withBytes_ok p bytes : guestPage_ok p -> page_ok bytes -> guestPage_ok (withBytes p bytes).
Proof. intros [] Hb. by split. Qed.

(** The invariant. The cache is empty or points to the entry it names. *)
Record space_ok (s : GuestAddressSpace) : Prop := {
  space_aligned : forall b node, pages_ s !! b = Some node -> pageAligned b;
  space_live : forall b node, pages_ s !! b = Some node -> exists p, nodes s !! node = Some p /\ guestPage_ok p /\
    (dirtyListed p = true -> b ∈ dirtyPages_ s);
  space_inj : forall b b' node, pages_ s !! b = Some node -> pages_ s !! b' = Some node -> b = b';
  space_fresh : forall node p, nodes s !! node = Some p -> (node < nextNode s)%N;
  space_cache : (cacheBase s = kNoPage /\ cachePage s = None) \/
    exists node, cachePage s = Some node /\ pages_ s !! cacheBase s = Some node }.

Lemma newSpace_ok : space_ok newSpace.
Proof.
  split; [intros b node H|intros b node H|intros b b' node H|intros node p H|by left];
    cbn in H; by rewrite lookup_empty in H.
Qed.

Lemma table_node s b node : space_ok s -> pages_ s !! b = Some node ->
  exists p, nodes s !! node = Some p /\ table s !! b = Some p.
Proof.
  intros Hs Hb. destruct (space_live s Hs b node Hb) as (p & Hp & _). exists p. split; [done|].
  rewrite table_lookup, Hb. exact Hp.
Qed.

Lemma table_Some s b p : table s !! b = Some p -> exists node, pages_ s !! b = Some node /\ nodes s !! node = Some p.
Proof. rewrite table_lookup. intros (node & Hn & Hp)%bind_Some. by exists node. Qed.

Lemma table_ok s b p : space_ok s -> table s !! b = Some p -> guestPage_ok p /\ pageAligned b /\ (dirtyListed p = true -> b ∈ dirtyPages_ s).
Proof.
  intros Hs (node & Hb & Hp)%table_Some. destruct (space_live s Hs b node Hb) as (p' & Hp' & Hok & Hl). simplify_eq.
  split; [done|]. split; [by eapply space_aligned|done].
Qed.

Lemma table_None s b : space_ok s -> table s !! b = None <-> pages_ s !! b = None.
Proof.
  intros Hs. split; [|by intros H; rewrite table_lookup, H]. intros Ht. destruct (pages_ s !! b) as [node|] eqn:Hb; [|done].
  destruct (table_node s b node Hs Hb) as (p & _ & Hp). congruence.
Qed.

(** What the primitives below leave alone, beside the table. *)
Definition framed (s s' : GuestAddressSpace) : Prop :=
  dirtyPages_ s' = dirtyPages_ s /\ instruction_ s' = instruction_ s /\ accesses s' = accesses s.

Lemma framed_refl s : framed s s.
Proof. done. Qed.

Lemma framed_trans s1 s2 s3 : framed s1 s2 -> framed s2 s3 -> framed s1 s3.
Proof. intros (?&?&?) (?&?&?). split_and!; congruence. Qed.

(** ** Primitives *)

Lemma wp_lookup s b (Φ : option N -> GuestAddressSpace -> Prop) E :
  space_ok s ->
  (forall s', space_ok s' -> table s' = table s -> pages_ s' = pages_ s -> framed s s' -> Φ (pages_ s !! b) s') ->
  wp (lookupPage b) Φ E s.
Proof.
  intros Hs HΦ. unfold wp, lookupPage. destruct (Z.eqb_spec (cacheBase s) b) as [<-|Hne].
  - assert (cachePage s = pages_ s !! cacheBase s) as ->; [|by apply HΦ].
    destruct (space_cache s Hs) as [[-> ->]|(node & Hn & Hp)]; [|congruence].
    destruct (pages_ s !! kNoPage) as [node|] eqn:Hb; [|done]. by destruct (aligned_kNoPage _ (space_aligned s Hs _ _ Hb)).
  - destruct (pages_ s !! b) as [node|] eqn:Hp; [|by apply HΦ].
    apply HΦ; try done. destruct Hs. split; try done. right. by exists node.
Qed.

(** Changing a page through a pointer to it. *)
Lemma wp_modify s b node p u (Φ : unit -> GuestAddressSpace -> Prop) E :
  space_ok s -> pages_ s !! b = Some node -> table s !! b = Some p -> guestPage_ok (u p) ->
  (dirtyListed (u p) = true -> b ∈ dirtyPages_ s) ->
  (forall s', space_ok s' -> table s' = <[b := u p]> (table s) -> pages_ s' = pages_ s -> framed s s' -> Φ tt s') ->
  wp (modify node u) Φ E s.
Proof.
  intros Hs Hb Ht Hok Hl HΦ. destruct (table_node s b node Hs Hb) as (p' & Hn & Ht').
  assert (p' = p) as -> by congruence. unfold wp, modify, deref, store, gput, mbind, G_bind. rewrite Hn. cbn.
  apply HΦ; try done.
  - destruct Hs as [Ha Hv Hi Hf Hc]. split; cbn; try done.
    + intros b' node' Hb'. destruct (decide (node' = node)) as [->|Hne].
      * rewrite lookup_insert_eq. exists (u p). split; [done|]. split; [done|]. rewrite (Hi b' b node Hb' Hb). exact Hl.
      * rewrite lookup_insert_ne by done. by apply Hv.
    + intros node' q [[<- _]|[_ Hq]]%lookup_insert_Some; [by eapply Hf|by eapply Hf].
  - apply map_eq. intros b'. rewrite table_lookup. cbn. destruct (decide (b' = b)) as [->|Hne].
    + rewrite Hb. cbn. by rewrite !lookup_insert_eq.
    + rewrite lookup_insert_ne, table_lookup by done. destruct (pages_ s !! b') as [node'|] eqn:Hb'; cbn; [|done].
      rewrite lookup_insert_ne; [done|]. intros <-. apply Hne. by eapply space_inj.
Qed.

Lemma wp_deref s b node p (Φ : GuestPage -> GuestAddressSpace -> Prop) E :
  space_ok s -> pages_ s !! b = Some node -> table s !! b = Some p -> Φ p s -> wp (deref node) Φ E s.
Proof.
  intros Hs Hb Ht HΦ. destruct (table_node s b node Hs Hb) as (p' & Hn & Ht'). unfold wp, deref. rewrite Hn. cbn. congruence.
Qed.

Lemma wp_fresh s (Φ : Z -> GuestAddressSpace -> Prop) E :
  space_ok s ->
  (forall s', space_ok s' -> table s' = table s -> pages_ s' = pages_ s -> framed s s' -> Φ (nextGeneration_ s) s') ->
  wp freshGeneration Φ E s.
Proof. intros Hs HΦ. unfold wp, freshGeneration. apply HΦ; try done. by destruct Hs. Qed.

Lemma wp_emplace s b q (Φ : N * bool -> GuestAddressSpace -> Prop) E :
  space_ok s -> pageAligned b -> guestPage_ok q -> dirtyListed q = false ->
  (forall node p, pages_ s !! b = Some node -> table s !! b = Some p -> Φ (node, false) s) ->
  (forall node s', table s !! b = None -> space_ok s' -> table s' = <[b := q]> (table s) ->
     pages_ s' = <[b := node]> (pages_ s) -> framed s s' -> Φ (node, true) s') ->
  wp (emplacePage b q) Φ E s.
Proof.
  intros Hs Ha Hq Hl Hold Hnew. unfold wp, emplacePage. destruct (pages_ s !! b) as [node|] eqn:Hb.
  { destruct (table_node s b node Hs Hb) as (p & _ & Hp). by apply (Hold node p). }
  assert (forall b node, pages_ s !! b = Some node -> node <> nextNode s) as Hne.
  { intros b' node Hb' ->. destruct (space_live s Hs b' _ Hb') as (p & Hp & _). apply (space_fresh s Hs) in Hp. lia. }
  apply Hnew; try done; [by apply table_None| |].
  - destruct Hs as [Hal Hv Hi Hf Hc]. split; cbn.
    + intros b' node [[<- _]|[_ ?]]%lookup_insert_Some; [done|by eapply Hal].
    + intros b' node [[<- <-]|[Hb' Hn]]%lookup_insert_Some.
      * exists q. rewrite lookup_insert_eq. split; [done|]. split; [done|]. congruence.
      * rewrite lookup_insert_ne by (intros <-; by apply (Hne b' _ Hn)). by apply Hv.
    + intros b1 b2 node [[<- <-]|[H1 Hn1]]%lookup_insert_Some [[<- H2']|[H2 Hn2]]%lookup_insert_Some;
        [done|by destruct (Hne b2 _ Hn2)|by destruct (Hne b1 _ Hn1)|by eapply Hi].
    + intros node p [[<- _]|[_ ?%Hf]]%lookup_insert_Some; lia.
    + destruct Hc as [?|(node & Hn & Hb')]; [by left|right]. exists node. split; [done|].
      rewrite lookup_insert_ne; [done|]. intros ->. congruence.
  - apply map_eq. intros b'. rewrite table_lookup. cbn. destruct (decide (b' = b)) as [->|Hneq].
    + rewrite !lookup_insert_eq. cbn. by rewrite lookup_insert_eq.
    + rewrite !lookup_insert_ne, table_lookup by done. destruct (pages_ s !! b') as [node|] eqn:Hb'; cbn; [|done].
      rewrite lookup_insert_ne; [done|]. intros <-. by apply (Hne b' _ Hb').
Qed.

(** Erasing needs the cache forgotten first: it could point to the page. *)
Lemma wp_erase s b (Φ : unit -> GuestAddressSpace -> Prop) E :
  space_ok s -> cachePage s = None ->
  (forall s', space_ok s' -> cachePage s' = None -> table s' = delete b (table s) -> framed s s' -> Φ tt s') ->
  wp (erasePage b) Φ E s.
Proof.
  intros Hs Hcache HΦ. unfold wp, erasePage, gput. destruct (pages_ s !! b) as [node|] eqn:Hb; cbn.
  - apply HΦ; [|exact Hcache| |done].
    + destruct Hs as [Hal Hv Hi Hf Hc]. split; cbn.
      * intros b' node' [_ Hb']%lookup_delete_Some. by eapply Hal.
      * intros b' node' [Hne Hb']%lookup_delete_Some. rewrite lookup_delete_ne; [by apply Hv|].
        intros <-. apply Hne. by eapply Hi.
      * intros b1 b2 node' [_ H1]%lookup_delete_Some [_ H2]%lookup_delete_Some. by eapply Hi.
      * intros node' p [_ Hn]%lookup_delete_Some. by eapply Hf.
      * left. destruct Hc as [?|(node' & Hn & _)]; [done|congruence].
    + apply map_eq. intros b'. rewrite table_lookup. cbn. destruct (decide (b' = b)) as [->|Hne].
      * by rewrite !lookup_delete_eq.
      * rewrite !lookup_delete_ne, table_lookup by done. destruct (pages_ s !! b') as [node'|] eqn:Hb'; cbn; [|done].
        rewrite lookup_delete_ne; [done|]. intros <-. apply Hne. by eapply space_inj.
  - apply HΦ; [done|done| |done]. symmetry. apply delete_id. by apply table_None.
Qed.

(** [nth] of an updated list. *)
Lemma list_insert_lookup_nth (l : list Z) i x d : (i < length l)%nat -> nth i (<[i := x]> l) d = x.
Proof. intros Hi. rewrite nth_lookup, list_lookup_insert_eq by done. done. Qed.

Lemma list_insert_lookup_nth_ne (l : list Z) i j x d : i <> j -> nth j (<[i := x]> l) d = nth j l d.
Proof. intros Hi. by rewrite !nth_lookup, list_lookup_insert_ne. Qed.

(** ** Loops over pages *)

Fixpoint pageList (first : Z) (count : nat) : list Z :=
  match count with O => [] | S count => first :: pageList (first + kPageSize) count end.

Lemma elem_of_pageList first count b :
  b ∈ pageList first count <-> exists i : nat, (i < count)%nat /\ b = first + kPageSize * Z.of_nat i.
Proof.
  revert first. induction count as [|count IH]; intros first; cbn [pageList].
  - rewrite elem_of_nil. split; [done|]. intros (i & ? & _). lia.
  - rewrite elem_of_cons, IH. split.
    + intros [->|(i & Hi & ->)]; [exists 0%nat; lia|exists (S i); lia].
    + intros ([|i] & Hi & ->); [left; lia|right; exists i; lia].
Qed.

Lemma NoDup_pageList first count : NoDup (pageList first count).
Proof.
  revert first. induction count as [|count IH]; intros first; cbn; [constructor|]. constructor; [|apply IH].
  intros (i & _ & Hi)%elem_of_pageList. unfold kPageSize, kPageBits in Hi. lia.
Qed.

Fixpoint overPages {A} (body : Z -> A -> G A) (bases : list Z) (x : A) : G A :=
  match bases with [] => mret x | b :: bases => x ← body b x; overPages body bases x end.

Lemma eachPage_over {A} (body : Z -> A -> G A) first n last x s :
  fits 64 first -> last = first + kPageSize * Z.of_nat n -> fits 64 last ->
  eachPage n body first last x s = overPages body (pageList first (S n)) x s.
Proof.
  intros Hf Hl Hlast. revert first x s Hf Hl. induction n as [|n IH]; intros first x s Hf Hl; cbn [eachPage pageList overPages].
  - replace (first =? last) with true by lia. done.
  - replace (first =? last) with false by (unfold kPageSize, kPageBits in *; lia).
    unfold mbind, G_bind. destruct (body first x s) as [[y|d|] s1]; [|done..].
    assert (add64 first kPageSize = first + kPageSize) as ->.
    { apply u64_small. unfold fits, kPageSize, kPageBits in *. lia. }
    rewrite IH; [done| |lia]. unfold fits, kPageSize, kPageBits in *. lia.
Qed.

(** The pages of a range that does not wrap. *)
Definition rangePages (address size : Z) : list Z :=
  pageList (pageBase address) (S (Z.to_nat ((pageBase (address + size - 1) - pageBase address) / kPageSize))).

Definition inSpace (address size : Z) : Prop := fits 64 address /\ 0 < size /\ address + size <= 2 ^ 64.

Lemma wraps_false address size : fits 64 address -> 0 < size -> wraps address size = false -> inSpace address size.
Proof. unfold wraps, inSpace, fits. lia. Qed.

Lemma inSpace_fits address size i : inSpace address size -> 0 <= i < size -> fits 64 (address + i).
Proof. unfold inSpace, fits. lia. Qed.

Lemma elem_of_rangePages address size b :
  inSpace address size -> b ∈ rangePages address size <-> exists i, 0 <= i < size /\ b = pageBase (address + i).
Proof.
  intros Hin. pose proof (inSpace_fits address size) as Hfit. unfold rangePages. rewrite elem_of_pageList.
  assert (fits 64 (address + size - 1)) as Hlast.
  { replace (address + size - 1) with (address + (size - 1)) by lia. apply Hfit; [done|]. destruct Hin as (_ & ? & _). lia. }
  assert (fits 64 address) as Ha by apply Hin. rewrite (pageBase_spec address), (pageBase_spec (address + size - 1)) by done.
  pose proof Hin as (_ & Hs & He).
  unfold kPageSize, kPageBits in *. split.
  - intros (i & Hi & ->). exists (Z.max 0 (4096 * Z.of_nat i - address mod 4096)).
    assert (0 <= Z.max 0 (4096 * Z.of_nat i - address mod 4096) < size) as Hr by dlia.
    split; [exact Hr|]. rewrite pageBase_spec by (apply Hfit; done). unfold kPageSize, kPageBits. dlia.
  - intros (i & Hi & ->). rewrite pageBase_spec by (apply Hfit; done). unfold kPageSize, kPageBits.
    exists (Z.to_nat ((address + i) / 4096 - address / 4096)). dlia.
Qed.

Lemma NoDup_rangePages address size : NoDup (rangePages address size).
Proof. apply NoDup_pageList. Qed.

Lemma rangePages_aligned address size b : inSpace address size -> b ∈ rangePages address size -> pageAligned b.
Proof. intros Hin (i & Hi & ->)%elem_of_rangePages; [|done]. by apply pageBase_aligned, (inSpace_fits address size). Qed.

(** The first and the last page of a range, and the steps between them. *)
Lemma range_bounds address size :
  inSpace address size ->
  let first := pageBase address in let last := pageBase (sub64 (add64 address size) 1) in
  let steps := Z.to_nat (sub64 last first / kPageSize) in
  fits 64 first /\ last = first + kPageSize * Z.of_nat steps /\ fits 64 last /\ rangePages address size = pageList first (S steps).
Proof.
  intros (Ha & Hs & He). cbv zeta. unfold rangePages.
  assert (sub64 (add64 address size) 1 = address + size - 1) as ->.
  { unfold sub64, add64, u64. rewrite Zminus_mod_idemp_l. apply Z.mod_small. unfold fits in *. lia. }
  assert (fits 64 (address + size - 1)) as Hl by (unfold fits in *; lia).
  assert (pageBase address <= pageBase (address + size - 1)) as Hle.
  { rewrite !pageBase_spec by done. unfold kPageSize, kPageBits. dlia. }
  destruct (pageBase_bounds address Ha) as [Hf1 Hm1], (pageBase_bounds _ Hl) as [Hf2 Hm2].
  assert (sub64 (pageBase (address + size - 1)) (pageBase address) = pageBase (address + size - 1) - pageBase address) as ->.
  { unfold sub64. apply u64_small. unfold fits in *. lia. }
  split; [done|]. split; [|done]. unfold kPageSize, kPageBits in *. dlia.
Qed.

Lemma forPages_over {A} (body : Z -> A -> G A) address size x s :
  inSpace address size -> forPagesWith body address size x s = overPages body (rangePages address size) x s.
Proof.
  intros Hin. destruct (range_bounds address size Hin) as (Hf & Hlast & Hfl & ->). by apply eachPage_over.
Qed.

(** A loop with an invariant over the pages done. *)
Lemma wp_overPages {A} (body : Z -> A -> G A) bases (I : list Z -> A -> GuestAddressSpace -> Prop) x E s :
  I [] x s ->
  (forall pre b rest x s, bases = pre ++ b :: rest -> I pre x s -> wp (body b x) (I (pre ++ [b])) E s) ->
  wp (overPages body bases x) (I bases) E s.
Proof.
  intros Hs Hstep.
  assert (forall pre x s, I pre x s -> forall rest, bases = pre ++ rest -> wp (overPages body rest x) (I (pre ++ rest)) E s) as H.
  { intros pre y s' Hpre rest. revert pre y s' Hpre. induction rest as [|b rest IH]; intros pre y s' Hpre Hb; cbn [overPages].
    - apply wp_ret. by rewrite app_nil_r.
    - apply wp_bind. eapply wp_mono; [by eapply Hstep| |done]. intros z s1 H1. cbv beta in H1.
      replace (pre ++ b :: rest) with ((pre ++ [b]) ++ rest) by (by rewrite <-app_assoc).
      apply IH; [done|]. by rewrite <-app_assoc. }
  by apply (H []).
Qed.

Lemma wp_forPages {A} (body : Z -> A -> G A) address size (I : list Z -> A -> GuestAddressSpace -> Prop) x
    (Φ : A -> GuestAddressSpace -> Prop) (E : Diag -> GuestAddressSpace -> Prop) s :
  inSpace address size -> I [] x s ->
  (forall pre b rest x s, rangePages address size = pre ++ b :: rest -> b ∈ rangePages address size -> pageAligned b ->
     b ∉ pre -> I pre x s -> wp (body b x) (I (pre ++ [b])) E s) ->
  (forall x s', I (rangePages address size) x s' -> Φ x s') ->
  wp (forPagesWith body address size x) Φ E s.
Proof.
  intros Hin Hs Hstep HΦ. unfold wp. rewrite (forPages_over body address size x s Hin).
  fold (wp (overPages body (rangePages address size) x) Φ E s).
  eapply wp_mono; [apply (wp_overPages _ _ I)| |done]; [done| |done].
  intros pre b rest y s1 Hb. assert (b ∈ rangePages address size) as Hel by (rewrite Hb; apply elem_of_app; right; by left).
  apply (Hstep pre b rest); [done|done|by apply (rangePages_aligned address size)|].
  pose proof (NoDup_rangePages address size) as Hnd. rewrite Hb in Hnd. apply NoDup_app in Hnd as (_ & Hd & _).
  intros Hpre. apply (Hd b Hpre). by left.
Qed.
