(* ===== verification/GuestAccess.v ===== *)
(** * Accesses to the guest address space

    What a program can see of the address space, resident or still with the
    provider, and what reading and writing do to it. *)
From S2P Require Import Prelude Bits U128 Eval Memory GuestMemory GuestPages.

(** What is asked of the embedder: canonical addresses are addresses, stay
    themselves and keep their place in the page; the provider fills whole pages and never reports the
    interpreter's own failures. *)
Record embedder_ok (env : Embedder) : Prop := {
  embedder_canonical : forall a, fits 64 a -> fits 64 (canonicalize env a);
  embedder_idempotent : forall a, canonicalize env (canonicalize env a) = canonicalize env a;
  embedder_offset : forall a, fits 64 a -> pageOffset (canonicalize env a) = pageOffset a;
  embedder_seeds : forall provide b sd, provider env = Some provide -> provide b = Ok (Some sd) -> page_ok (seedBytes sd);
  embedder_good : forall provide b, provider env = Some provide -> good (provide b) }.

Section Access.
Context (env : Embedder).

(** ** What can be seen *)

Definition provided (b : Z) : option PageSeed :=
  match provider env with
  | Some provide => match provide b with Ok supplied => supplied | _ => None end
  | None => None
  end.

(** A page's bytes and permissions. *)
Definition pageView (T : gmap Z GuestPage) (b : Z) : option (list Z * Z) :=
  match T !! b with
  | Some p => Some (pageBytes p, pagePermissions p)
  | None => (fun sd => (seedBytes sd, seedPermissions sd)) <$> provided b
  end.

Definition permits (permissions query : Z) : bool := (query =? Permission.None) || hasPermission permissions query.

Definition accessible (T : gmap Z GuestPage) (query b : Z) : bool :=
  match pageView T b with Some v => permits v.2 query | None => false end.

Definition byteView (T : gmap Z GuestPage) (a : Z) : option Z :=
  v ← pageView T (pageBase a); v.1 !! Z.to_nat (pageOffset a).

(** The bytes of a range. *)
Definition bytesView (T : gmap Z GuestPage) (a n : Z) : list Z := (fun i => default 0 (byteView T (a + i))) <$> seqZ 0 n.

Lemma bytesView_length T a n : length (bytesView T a n) = Z.to_nat n.
Proof. unfold bytesView. by rewrite length_fmap, length_seqZ. Qed.

Lemma bytesView_lookup T a n (i : nat) : Z.of_nat i < n -> bytesView T a n !! i = Some (default 0 (byteView T (a + Z.of_nat i))).
Proof. intros Hi. unfold bytesView. rewrite list_lookup_fmap, lookup_seqZ_lt by lia. done. Qed.

Lemma bytesView_app T a n m : 0 <= n -> 0 <= m -> bytesView T a (n + m) = bytesView T a n ++ bytesView T (a + n) m.
Proof.
  intros Hn Hm. unfold bytesView. rewrite seqZ_app, fmap_app by done. f_equal. rewrite !Z.add_0_l.
  apply list_eq. intros i. rewrite !list_lookup_fmap. destruct (decide (Z.of_nat i < m)) as [Hi|Hi].
  - rewrite !lookup_seqZ_lt by lia. cbn. do 3 f_equal. lia.
  - by rewrite !lookup_seqZ_ge by lia.
Qed.

Lemma bytesView_ext T T' a n : (forall i, 0 <= i < n -> byteView T' (a + i) = byteView T (a + i)) -> bytesView T' a n = bytesView T a n.
Proof.
  intros H. apply list_eq. intros i. destruct (decide (Z.of_nat i < n)) as [Hi|Hi].
  - rewrite !bytesView_lookup by done. by rewrite H by lia.
  - rewrite !lookup_ge_None_2; [done|rewrite bytesView_length; lia..].
Qed.

(** ** Pages from the provider *)

(** [s'] is [s] with pages of [L] from the provider. *)
Record grown (L : list Z) (s s' : GuestAddressSpace) : Prop := {
  grown_old : forall b p, table s !! b = Some p -> table s' !! b = Some p;
  grown_new : forall b p, table s !! b = None -> table s' !! b = Some p -> b ∈ L /\ exists sd g,
    provided b = Some sd /\ p = MkPage (seedBytes sd) (seedPermissions sd) g cleanDirty false;
  grown_pages : forall b node, pages_ s !! b = Some node -> pages_ s' !! b = Some node;
  grown_framed : framed s s' }.

Lemma grown_same L s s' : table s' = table s -> pages_ s' = pages_ s -> framed s s' -> grown L s s'.
Proof. intros Ht Hp Hf. split; [by rewrite Ht|rewrite Ht; congruence|by rewrite Hp|done]. Qed.

Lemma grown_refl L s : grown L s s.
Proof. by apply grown_same. Qed.

Lemma grown_weaken (L L' : list Z) s s' : (forall b, b ∈ L -> b ∈ L') -> grown L s s' -> grown L' s s'.
Proof. intros HL [Ho Hn Hp Hf]. split; [done| |done|done]. intros b p H1 H2. destruct (Hn b p H1 H2) as [? ?]. split; [by apply HL|done]. Qed.

Lemma grown_trans L s1 s2 s3 : grown L s1 s2 -> grown L s2 s3 -> grown L s1 s3.
Proof.
  intros [Ho Hn Hp Hf] [Ho' Hn' Hp' Hf']. split; [eauto| |eauto|by eapply framed_trans].
  intros b p H1 H3. destruct (table s2 !! b) as [q|] eqn:H2; [|by apply Hn'].
  apply Hn; [done|]. rewrite H2. rewrite <-H3. symmetry. by apply Ho'.
Qed.

Lemma grown_outside L s s' b : grown L s s' -> b ∉ L \/ is_Some (table s !! b) -> table s' !! b = table s !! b.
Proof.
  intros Hg Hb. destruct (table s !! b) as [p|] eqn:H; [by apply (grown_old L s s')|].
  destruct (table s' !! b) as [p|] eqn:H'; [|done]. destruct (grown_new L s s' Hg b p H H') as [? _].
  destruct Hb as [?|[? ?]]; done.
Qed.

Lemma grown_view L s s' b : grown L s s' -> pageView (table s') b = pageView (table s) b.
Proof.
  intros Hg. unfold pageView. destruct (table s !! b) as [p|] eqn:Hb.
  - by rewrite (grown_old L s s' Hg b p Hb).
  - destruct (table s' !! b) as [p|] eqn:Hb'; [|done].
    destruct (grown_new L s s' Hg b p Hb Hb') as (_ & sd & g & -> & ->). done.
Qed.

Lemma grown_accessible L s s' q b : grown L s s' -> accessible (table s') q b = accessible (table s) q b.
Proof. intros Hg. unfold accessible. by rewrite (grown_view L s s'). Qed.

Lemma grown_byte L s s' a : grown L s s' -> byteView (table s') a = byteView (table s) a.
Proof. intros Hg. unfold byteView. by rewrite (grown_view L s s'). Qed.

Lemma grown_bytes L s s' a n : grown L s s' -> bytesView (table s') a n = bytesView (table s) a n.
Proof. intros Hg. apply bytesView_ext. intros i _. by apply (grown_byte L). Qed.

Context (Henv : embedder_ok env).

(** [residentPage]: the page is there afterwards, or it cannot be accessed. *)
Lemma wp_resident s b q (Φ : N -> GuestAddressSpace -> Prop) (E : Diag -> GuestAddressSpace -> Prop) :
  space_ok s -> pageAligned b ->
  (forall s' node p, space_ok s' -> grown [b] s s' -> pages_ s' !! b = Some node -> table s' !! b = Some p ->
     accessible (table s) q b = true -> Φ node s') ->
  (forall d s', space_ok s' -> grown [b] s s' -> accessible (table s) q b = false -> diagCode d <> DiagCode.VerifyFailure -> E d s') ->
  wp (residentPage env b q) Φ E s.
Proof using Henv.
  intros Hs Hb HΦ HE. unfold residentPage. apply wp_bind, wp_lookup; [done|].
  intros s1 Hs1 Ht1 Hp1 Hf1. pose proof (grown_same [b] s s1 Ht1 Hp1 Hf1) as Hg1.
  assert (forall s2 node p, space_ok s2 -> grown [b] s s2 -> pages_ s2 !! b = Some node -> table s2 !! b = Some p ->
    wp (p ← deref node; if negb (q =? Permission.None) && negb (hasPermission (pagePermissions p) q)
        then gfail (errAt DiagCode.OutOfRange b) else mret node) Φ E s2) as Hcheck.
  { intros s2 node p Hs2 Hg2 Hn Hp. apply wp_bind, (wp_deref s2 b node p); try done.
    assert (accessible (table s) q b = permits (pagePermissions p) q) as Ha.
    { rewrite <-(grown_accessible [b] s s2) by done. unfold accessible, pageView. by rewrite Hp. }
    destruct (negb _ && negb _) eqn:Hdeny.
    - apply wp_fail, HE; try done. rewrite Ha. unfold permits. apply andb_true_iff in Hdeny as [H1%negb_true_iff H2%negb_true_iff].
      by rewrite H1, H2.
    - apply wp_ret, (HΦ s2 node p); try done. rewrite Ha. unfold permits.
      apply andb_false_iff in Hdeny as [H1%negb_false_iff|H1%negb_false_iff]; rewrite H1; [done|by rewrite orb_true_r]. }
  assert (forall s2, space_ok s2 -> grown [b] s s2 -> provided b = None -> table s !! b = None ->
    wp (gfail (A:=N) (errAt DiagCode.UnmappedAddress b)) Φ E s2) as Hmissing.
  { intros s2 Hs2 Hg2 Hnone Hb0. apply wp_fail, HE; try done. unfold accessible, pageView. by rewrite Hb0, Hnone. }
  destruct (pages_ s !! b) as [node|] eqn:Hn.
  { apply wp_bind, wp_ret. destruct (table_node s b node Hs Hn) as (p & _ & Hp).
    apply (Hcheck s1 node p); [done|done|by rewrite Hp1|by rewrite Ht1]. }
  assert (table s !! b = None) as Ht by (by apply table_None).
  destruct (provider env) as [provide|] eqn:Hpr; [|apply wp_bind, wp_ret, Hmissing; try done; unfold provided; by rewrite Hpr].
  destruct (provide b) as [[sd|]|d|] eqn:Hsup.
  - apply wp_bind, wp_bind. change (wp (gfail (Ok (Some sd))) ?P E s1) with (P (Some sd) s1). cbv beta.
    apply wp_bind, wp_fresh; [done|]. intros s2 Hs2 Ht2 Hp2 Hf2.
    apply wp_bind, wp_emplace; [done|done| |done| |].
    + split; [by eapply embedder_seeds|apply cleanDirty_ok|done].
    + intros node p Hn2. rewrite Hp2, Hp1, Hn in Hn2. done.
    + intros node s3 _ Hs3 Ht3 Hp3 Hf3. apply wp_bind, wp_put, wp_ret.
      apply (Hcheck (withCache s3 b (Some node)) node (MkPage (seedBytes sd) (seedPermissions sd) (nextGeneration_ s1) cleanDirty false)).
      * destruct Hs3 as [Hal Hv Hi Hfr Hc]. split; try done. right. exists node. split; [done|]. cbn. by rewrite Hp3, lookup_insert_eq.
      * assert (table (withCache s3 b (Some node)) = table s3) as Htc by done. split.
        -- intros b' p' Hb'. rewrite Htc, Ht3, Ht2, Ht1. rewrite lookup_insert_ne; [done|]. intros <-. congruence.
        -- intros b' p'. rewrite Htc, Ht3, Ht2, Ht1. intros Hb' [[<- <-]|[_ ?]]%lookup_insert_Some; [|congruence]. split; [by left|].
           exists sd, (nextGeneration_ s1). split; [|done]. unfold provided. by rewrite Hpr, Hsup.
        -- intros b' node' Hb'. cbn. rewrite Hp3, Hp2, Hp1. rewrite lookup_insert_ne; [done|]. intros <-. congruence.
        -- by apply (framed_trans s s1), (framed_trans s1 s2).
      * change (pages_ s3 !! b = Some node). by rewrite Hp3, lookup_insert_eq.
      * change (table (withCache s3 b (Some node))) with (table s3). by rewrite Ht3, lookup_insert_eq.
  - apply wp_bind, wp_bind. change (wp (gfail (Ok (@None PageSeed))) ?P E s1) with (P None s1). cbv beta.
    apply wp_ret, Hmissing; try done. unfold provided. by rewrite Hpr, Hsup.
  - apply wp_bind, wp_bind. apply wp_fail, HE; try done.
    + unfold accessible, pageView, provided. by rewrite Ht, Hpr, Hsup.
    + pose proof (embedder_good env Henv provide b Hpr) as Hgood. by rewrite Hsup in Hgood.
  - pose proof (embedder_good env Henv provide b Hpr) as Hgood. by rewrite Hsup in Hgood.
Qed.

(** Every page of the range can be accessed. *)
Definition rangeAccessible (T : gmap Z GuestPage) (q a n : Z) : Prop :=
  inSpace a n /\ forall b, b ∈ rangePages a n -> accessible T q b = true.

(** [ensure], from an address that is canonical. *)
Lemma wp_ensure s a n q (Φ : unit -> GuestAddressSpace -> Prop) (E : Diag -> GuestAddressSpace -> Prop) :
  space_ok s -> fits 64 a -> canonicalize env a = a -> 0 < n ->
  (forall s', space_ok s' -> grown (rangePages a n) s s' -> rangeAccessible (table s) q a n ->
     (forall b, b ∈ rangePages a n -> is_Some (table s' !! b)) -> Φ tt s') ->
  (forall d s', space_ok s' -> grown (rangePages a n) s s' -> ~ rangeAccessible (table s) q a n -> diagCode d <> DiagCode.VerifyFailure -> E d s') ->
  wp (ensure env a n q) Φ E s.
Proof using Henv.
  intros Hs Ha Hc Hn HΦ HE. unfold ensure. rewrite Hc. replace (n =? 0) with false by lia.
  destruct (wraps a n) eqn:Hw.
  { apply wp_fail, HE; try done; [apply grown_refl|]. intros [(? & ? & ?) _]. unfold wraps in Hw. lia. }
  pose proof (wraps_false a n Ha Hn Hw) as Hin.
  apply (wp_forPages _ _ _ (fun pre _ s' => space_ok s' /\ grown (rangePages a n) s s' /\ forall b, b ∈ pre ->
    accessible (table s) q b = true /\ is_Some (table s' !! b))); [done| | |].
  - split; [done|]. split; [apply grown_refl|]. intros b Hb. by apply not_elem_of_nil in Hb.
  - intros pre b rest [] s1 _ Hb Hal _ (Hs1 & Hg1 & Hpre).
    assert (forall s2, grown [b] s1 s2 -> grown (rangePages a n) s s2) as Hg.
    { intros s2 Hg2. apply (grown_trans _ s s1); [done|]. apply (grown_weaken [b]); [by intros ? ->%list_elem_of_singleton|done]. }
    apply wp_bind, wp_resident; [done|done| |].
    + intros s2 node p Hs2 Hg2 _ Hp Hacc. apply wp_ret. split; [done|]. split; [by apply Hg|].
      intros b' [Hb'| ->%list_elem_of_singleton]%elem_of_app.
      * destruct (Hpre b' Hb') as [? [p' Hp']]. split; [done|]. exists p'. by apply (grown_old [b] s1 s2).
      * split; [by rewrite <-(grown_accessible (rangePages a n) s s1)|by exists p].
    + intros d s2 Hs2 Hg2 Hacc Hd. apply HE; [done|by apply Hg| |done].
      intros [_ Hall]. specialize (Hall b Hb). rewrite (grown_accessible (rangePages a n) s s1) in Hacc by done. congruence.
  - intros [] s' (Hs' & Hg & Hall). apply HΦ; try done; [split; [done|]|]; intros b Hb; by apply Hall.
Qed.

(** ** Reading *)

(** Bytes of one page. *)
Lemma pageSlice_view s cursor n p :
  space_ok s -> fits 64 cursor -> table s !! pageBase cursor = Some p -> 0 <= n -> pageOffset cursor + n <= kPageSize ->
  pageSlice p (pageOffset cursor) n = bytesView (table s) cursor n.
Proof.
  intros Hs Hc Hp Hn Hle. destruct (table_ok s _ p Hs Hp) as ([[Hl _] _ _] & _).
  pose proof (pageOffset_bounds cursor) as Ho. unfold pageSlice. apply list_eq. intros i.
  destruct (decide (Z.of_nat i < n)) as [Hi|Hi].
  - rewrite bytesView_lookup, lookup_take_lt, lookup_drop by lia.
    assert (pageBase (cursor + Z.of_nat i) = pageBase cursor /\ pageOffset (cursor + Z.of_nat i) = pageOffset cursor + Z.of_nat i) as [Hb Hoff].
    { rewrite !pageOffset_spec in *. assert (fits 64 (cursor + Z.of_nat i)) as Hf.
      { unfold fits, kPageSize, kPageBits in *. dlia. }
      rewrite !pageBase_spec by done. unfold kPageSize, kPageBits in *. split; dlia. }
    unfold byteView, pageView. rewrite Hb, Hp, Hoff. cbn [mbind option_bind fst].
    destruct (lookup_lt_is_Some_2 (pageBytes p) (Z.to_nat (pageOffset cursor) + i)) as [x Hx].
    { rewrite Hl. unfold kPageSize, kPageBits in *. lia. }
    replace (Z.to_nat (pageOffset cursor + Z.of_nat i)) with (Z.to_nat (pageOffset cursor) + i)%nat by lia. by rewrite Hx.
  - rewrite !lookup_ge_None_2; [done|rewrite bytesView_length; lia|rewrite length_take; lia].
Qed.

Lemma inSpace_split a n m : inSpace a (n + m) -> 0 < n -> 0 < m -> inSpace a n /\ inSpace (a + n) m.
Proof. unfold inSpace, fits. lia. Qed.

Lemma chunkSize_spec cursor rest : 0 < rest -> 0 < chunkSize cursor rest <= rest /\ pageOffset cursor + chunkSize cursor rest <= kPageSize.
Proof. intros Hr. pose proof (pageOffset_bounds cursor). unfold chunkSize. lia. Qed.

(** A pointer to the page of an address, where that page is resident. *)
Lemma wp_pageAt s a p (Φ : N -> GuestAddressSpace -> Prop) E :
  space_ok s -> fits 64 a -> table s !! pageBase a = Some p ->
  (forall s' node, space_ok s' -> table s' = table s -> pages_ s' = pages_ s -> framed s s' ->
     pages_ s !! pageBase a = Some node -> Φ node s') ->
  wp (pageAtDeref a) Φ E s.
Proof.
  intros Hs Ha Hp HΦ. unfold pageAtDeref, guestPageAt. apply wp_bind, wp_lookup; [done|].
  intros s' Hs' Ht Hpg Hf. destruct (table_Some s _ p Hp) as (node & Hn & _). rewrite Hn. by apply HΦ.
Qed.

Definition rangeResident (s : GuestAddressSpace) (a n : Z) : Prop := forall i, 0 <= i < n -> is_Some (table s !! pageBase (a + i)).

Lemma wp_copyOut fuel s cursor rest (Φ : list Z -> GuestAddressSpace -> Prop) E :
  space_ok s -> 0 <= rest -> (0 < rest -> inSpace cursor rest) -> rangeResident s cursor rest -> rest <= Z.of_nat fuel ->
  (forall s', space_ok s' -> table s' = table s -> pages_ s' = pages_ s -> framed s s' -> Φ (bytesView (table s) cursor rest) s') ->
  wp (copyOut fuel cursor rest) Φ E s.
Proof.
  revert s cursor rest Φ. induction fuel as [|fuel IH]; intros s cursor rest Φ Hs Hr Hin Hres Hfuel HΦ; cbn [copyOut].
  { assert (rest = 0) as -> by lia. apply wp_ret. by apply (HΦ s). }
  destruct (Z.eqb_spec rest 0) as [->|Hne].
  { apply wp_ret. apply (HΦ s); done. }
  assert (0 < rest) as Hpos by lia. pose proof (Hin Hpos) as Hsp. destruct (chunkSize_spec cursor rest Hpos) as [Hch Hpage].
  set (chunk := chunkSize cursor rest) in *. assert (fits 64 cursor) as Hc by apply Hsp.
  destruct (Hres 0 ltac:(lia)) as [p Hp]. rewrite Z.add_0_r in Hp.
  apply wp_bind, (wp_pageAt s cursor p); [done..|]. intros s1 node Hs1 Ht1 Hp1 Hf1 Hn.
  apply wp_bind, (wp_deref s1 (pageBase cursor) node p); [done|by rewrite Hp1|by rewrite Ht1|].
  apply wp_bind. destruct (decide (rest - chunk = 0)) as [Hz|Hz].
  - replace (rest - chunk) with 0 by lia. destruct fuel; cbn [copyOut]; apply wp_ret, wp_ret; rewrite app_nil_r,
      (pageSlice_view s cursor chunk p) by (done || lia); replace chunk with rest by lia; by apply HΦ.
  - assert (add64 cursor chunk = cursor + chunk) as ->.
    { apply u64_small. destruct Hsp as (? & ? & ?). unfold fits in *. lia. }
    destruct (inSpace_split cursor chunk (rest - chunk)) as [_ Hsp2]; [by replace (chunk + (rest - chunk)) with rest by lia|lia..|].
    apply IH; [done|lia|done| |lia|].
    + intros i Hi. rewrite Ht1. destruct (Hres (chunk + i) ltac:(lia)) as [q Hq]. exists q. by rewrite <-Z.add_assoc.
    + intros s2 Hs2 Ht2 Hp2 Hf2. apply wp_ret. rewrite Ht1, (pageSlice_view s cursor chunk p) by (done || lia).
      rewrite <-bytesView_app by lia. replace (chunk + (rest - chunk)) with rest by lia.
      apply HΦ; [done|congruence|congruence|by apply (framed_trans s s1)].
Qed.

Lemma rangePages_resident s a n : inSpace a n -> (forall b, b ∈ rangePages a n -> is_Some (table s !! b)) -> rangeResident s a n.
Proof. intros Hin H i Hi. apply H, elem_of_rangePages; [done|]. by exists i. Qed.

(** A range in one page. *)
Lemma rangePages_one a n : inSpace a n -> pageOffset a + n <= kPageSize -> forall b, b ∈ rangePages a n <-> b = pageBase a.
Proof.
  intros Hin Hle b. rewrite elem_of_rangePages by done. pose proof (inSpace_fits a n) as Hfit.
  assert (forall i, 0 <= i < n -> pageBase (a + i) = pageBase a) as Hsame.
  { intros i Hi. rewrite pageOffset_spec in Hle. assert (fits 64 a) as Ha by apply Hin.
    rewrite !pageBase_spec by (done || by apply Hfit). unfold kPageSize, kPageBits in *. dlia. }
  split; [intros (i & Hi & ->); by apply Hsame|]. intros ->. exists 0. destruct Hin as (_ & ? & _). split; [lia|]. by rewrite Z.add_0_r.
Qed.

(** A range that ends in its first page does not wrap. *)
Lemma one_page_inSpace a n : fits 64 a -> 0 < n -> pageOffset a + n <= kPageSize -> inSpace a n.
Proof. rewrite pageOffset_spec. unfold inSpace, fits, kPageSize, kPageBits. intros. dlia. Qed.

(** [readBytes]: the bytes that can be seen, where every page can be read; it
    changes nothing that can be seen. *)
Lemma wp_readBytes s a n q (Φ : list Z -> GuestAddressSpace -> Prop) (E : Diag -> GuestAddressSpace -> Prop) :
  let c := canonicalize env a in
  space_ok s -> fits 64 a -> 0 < n ->
  (forall s', space_ok s' -> grown (rangePages c n) s s' -> rangeAccessible (table s) q c n -> rangeResident s' c n -> Φ (bytesView (table s) c n) s') ->
  (forall d s', space_ok s' -> grown (rangePages c n) s s' -> ~ rangeAccessible (table s) q c n -> diagCode d <> DiagCode.VerifyFailure -> E d s') ->
  wp (guestReadBytes env a n q) Φ E s.
Proof using Henv.
  cbv zeta. intros Hs Ha Hn HΦ HE. pose proof (embedder_canonical env Henv a Ha) as Hc.
  pose proof (embedder_idempotent env Henv a) as Hcc. unfold guestReadBytes. set (c := canonicalize env a) in *.
  replace (n =? 0) with false by lia. cbn [negb andb]. destruct (Z.leb_spec (pageOffset c + n) kPageSize) as [Hle|Hgt].
  - pose proof (one_page_inSpace c n Hc Hn Hle) as Hin. pose proof (rangePages_one c n Hin Hle) as Hone.
    assert (forall s1, grown [pageBase c] s s1 -> grown (rangePages c n) s s1) as Hwk.
    { intros s1. apply grown_weaken. intros b ->%list_elem_of_singleton. by apply Hone. }
    apply wp_bind, wp_resident; [done|by apply pageBase_aligned| |].
    + intros s1 node p Hs1 Hg1%Hwk Hnode Hp Hacc. apply wp_bind, (wp_deref s1 (pageBase c) node p); [done..|]. apply wp_ret.
      rewrite (pageSlice_view s1 c n p), (grown_bytes (rangePages c n) s s1) by (done || lia). apply HΦ; [done|done| |].
      * split; [done|]. by intros b ->%Hone.
      * apply (rangePages_resident s1 c n Hin). intros b ->%Hone. by exists p.
    + intros d s1 Hs1 Hg1%Hwk Hacc Hd. apply HE; [done|done| |done]. intros [_ Hall]. specialize (Hall (pageBase c)).
      rewrite Hall in Hacc; [done|by apply Hone].
  - apply wp_bind, wp_ensure; [done..| |].
    + intros s1 Hs1 Hg1 Hacc Hres. apply wp_copyOut; [done|lia|by intros _; apply Hacc| |lia|].
      * apply rangePages_resident; [apply Hacc|done].
      * intros s2 Hs2 Ht2 Hp2 Hf2. rewrite (grown_bytes (rangePages c n) s s1) by done. apply HΦ; [done| |done|].
        -- apply (grown_trans _ s s1); [done|by apply grown_same].
        -- intros i Hi. rewrite Ht2. by apply (rangePages_resident s1 c n); [apply Hacc|..].
    + intros d s1 Hs1 Hg1 Hacc Hd. by apply HE.
Qed.

(** ** Writing *)

(** The dirty bit of an offset, and of an address. *)
Definition bitAt (words : list Z) (o : Z) : bool :=
  Z.testbit (nth (Z.to_nat (o / kDirtyWordBits)) words 0) (o mod kDirtyWordBits).

Definition dirtyAt (T : gmap Z GuestPage) (a : Z) : bool :=
  match T !! pageBase a with Some p => bitAt (dirty p) (pageOffset a) | None => false end.

Definition within (a n x : Z) : bool := (a <=? x) && (x <? a + n).

Lemma ones_of_take count : 0 < count <= 64 ->
  (if count =? kDirtyWordBits then not64 0 else sub64 (shl64 1 count) 1) = Z.ones count.
Proof.
  intros Hc. destruct (Z.eqb_spec count kDirtyWordBits) as [->|Hne]; [reflexivity|]. unfold kDirtyWordBits in Hne.
  assert (0 < 2 ^ count < 2 ^ 64) by (split; [lia|apply Z.pow_lt_mono_r; lia]).
  unfold shl64, sub64. rewrite Z.shiftl_mul_pow2, Z.mul_1_l, (u64_small (2 ^ count)) by (lia || (unfold fits; lia)).
  rewrite u64_small by (unfold fits; lia). rewrite Z.ones_equiv. lia.
Qed.

Lemma testbit_mark count bit i : 0 < count -> 0 <= bit -> bit + count <= 64 -> 0 <= i < 64 ->
  Z.testbit (shl64 (Z.ones count) bit) i = within bit count i.
Proof.
  intros Hc Hb Hle Hi. unfold shl64, within. unfold u64. rewrite Z.mod_pow2_bits_low, Z.shiftl_spec by lia.
  destruct (Z.leb_spec bit i); cbn [andb].
  - destruct (Z.ltb_spec i (bit + count)); [apply Z.ones_spec_low; lia|apply Z.ones_spec_high; lia].
  - apply Z.testbit_neg_r. lia.
Qed.

Definition words_ok (words : list Z) : Prop := length words = Z.to_nat kDirtyWords /\ Forall (fits 64) words.

Lemma markWords_spec fuel words off size :
  words_ok words -> 0 <= off -> 0 <= size -> off + size <= kPageSize -> size <= Z.of_nat fuel ->
  exists marked, markWords fuel words off size = Some marked /\ words_ok marked /\
    forall o, 0 <= o < kPageSize -> bitAt marked o = bitAt words o || within off size o.
Proof.
  assert (kPageSize = 4096 /\ kDirtyWordBits = 64 /\ kDirtyWords = 64) as (Hps & Hwb & Hws) by done.
  assert (forall words off o, bitAt words o = bitAt words o || within off 0 o) as Hzero.
  { intros ws o1 o2. unfold within. destruct (Z.leb_spec o1 o2), (Z.ltb_spec o2 (o1 + 0)); try lia; by rewrite orb_false_r. }
  revert words off size. induction fuel as [|fuel IH]; intros words off size Hw Ho Hs Hle Hf; cbn [markWords].
  { replace (size =? 0) with true by lia. exists words. split_and!; [done..|]. intros o _. replace size with 0 by lia. apply Hzero. }
  destruct (Z.eqb_spec size 0) as [->|Hne]; [exists words; split_and!; [done..|]; intros o _; apply Hzero|].
  rewrite Hwb in *. set (word := off / 64). set (bit := off mod 64). set (count := Z.min (64 - bit) size).
  assert (0 <= bit < 64 /\ 0 <= word < 64 /\ off = 64 * word + bit) as (Hbit & Hword & Hoff) by (subst bit word; dlia).
  assert (0 < count <= size /\ bit + count <= 64) as (Hcount & Hend) by lia.
  clearbody word bit count.
  pose proof (ones_of_take count ltac:(lia)) as Hones. rewrite Hwb in Hones. rewrite Hones.
  destruct Hw as [Hlen Hfit]. rewrite Hws in Hlen.
  set (v := Z.lor (nth (Z.to_nat word) words 0) (shl64 (Z.ones count) bit)).
  assert (fits 64 v) as Hv.
  { destruct (lookup_lt_is_Some_2 words (Z.to_nat word) ltac:(lia)) as [x Hx].
    apply fits_lor; [lia| |apply fits_u64]. rewrite nth_lookup, Hx. by apply (Forall_lookup_1 _ _ _ _ Hfit Hx). }
  destruct (IH (<[Z.to_nat word := v]> words) (off + count) (size - count)) as (marked & Hmark & Hok & Hbits); [|lia..|].
  { split; [by rewrite length_insert|]. by apply Forall_insert. }
  exists marked. split; [exact Hmark|]. split; [exact Hok|]. intros o Hr. rewrite Hbits by done.
  assert (bitAt (<[Z.to_nat word := v]> words) o = bitAt words o || within off count o) as ->.
  { unfold bitAt. rewrite Hwb. destruct (decide (o / 64 = word)) as [Heq|Hneq].
    - rewrite Heq, list_insert_lookup_nth by lia. subst v. rewrite Z.lor_spec, testbit_mark by first [lia|apply Z.mod_pos_bound; lia]. f_equal.
      unfold within. assert (o = 64 * word + o mod 64) by dlia.
      destruct (Z.leb_spec bit (o mod 64)), (Z.ltb_spec (o mod 64) (bit + count)), (Z.leb_spec off o), (Z.ltb_spec o (off + count)); done || lia.
    - rewrite list_insert_lookup_nth_ne by dlia.
      assert (within off count o = false) as ->; [|by rewrite orb_false_r]. unfold within.
      destruct (Z.leb_spec off o), (Z.ltb_spec o (off + count)); try done. exfalso. apply Hneq. dlia. }
  rewrite <-orb_assoc. f_equal. unfold within.
  destruct (Z.leb_spec off o), (Z.ltb_spec o (off + count)), (Z.leb_spec (off + count) o),
    (Z.ltb_spec o (off + count + (size - count))), (Z.ltb_spec o (off + size)); done || lia.
Qed.

(** [T'] is [T] with [bytes] at [a]. *)
Record written (T : gmap Z GuestPage) (a : Z) (bytes : list Z) (T' : gmap Z GuestPage) : Prop := {
  written_page : forall b p', T' !! b = Some p' -> exists p, T !! b = Some p /\ pagePermissions p' = pagePermissions p;
  written_domain : forall b, is_Some (T !! b) -> is_Some (T' !! b);
  written_byte : forall x, fits 64 x -> byteView T' x =
    if within a (Z.of_nat (length bytes)) x then bytes !! Z.to_nat (x - a) else byteView T x;
  written_dirty : forall x, fits 64 x -> dirtyAt T' x = dirtyAt T x || within a (Z.of_nat (length bytes)) x }.

Lemma written_nil T a : written T a [] T.
Proof.
  split; try done.
  - intros b p Hp. by exists p.
  - intros x _. unfold within. destruct (Z.leb_spec a x), (Z.ltb_spec x (a + Z.of_nat (@length Z []))); try done. cbn in *. lia.
  - intros x _. unfold within. destruct (Z.leb_spec a x), (Z.ltb_spec x (a + Z.of_nat (@length Z []))); cbn in *;
      try lia; by rewrite orb_false_r.
Qed.

Lemma written_app T T1 T2 a bytes1 bytes2 :
  written T a bytes1 T1 -> written T1 (a + Z.of_nat (length bytes1)) bytes2 T2 -> written T a (bytes1 ++ bytes2) T2.
Proof.
  intros [Hp Hd Hb Hy] [Hp' Hd' Hb' Hy']. split.
  - intros b p2 H2. destruct (Hp' b p2 H2) as (p1 & H1 & ->). destruct (Hp b p1 H1) as (p & H0 & ->). by exists p.
  - intros b H. by apply Hd', Hd.
  - intros x Hx. rewrite Hb', Hb by done. rewrite length_app. unfold within. set (n1 := length bytes1).
    destruct (Z.leb_spec a x), (Z.ltb_spec x (a + Z.of_nat n1)), (Z.leb_spec (a + Z.of_nat n1) x),
      (Z.ltb_spec x (a + Z.of_nat n1 + Z.of_nat (length bytes2))), (Z.ltb_spec x (a + Z.of_nat (n1 + length bytes2)));
      cbn [andb]; try lia; try done;
      first [by rewrite lookup_app_l by lia | rewrite lookup_app_r by lia; f_equal; lia].
  - intros x Hx. rewrite Hy', Hy by done. rewrite <-orb_assoc. f_equal. rewrite length_app. unfold within.
    destruct (Z.leb_spec a x), (Z.ltb_spec x (a + Z.of_nat (length bytes1))), (Z.leb_spec (a + Z.of_nat (length bytes1)) x),
      (Z.ltb_spec x (a + Z.of_nat (length bytes1) + Z.of_nat (length bytes2))),
      (Z.ltb_spec x (a + Z.of_nat (length bytes1 + length bytes2))); done || lia.
Qed.

Lemma written_accessible T a bytes T' q b : written T a bytes T' -> accessible T' q b = accessible T q b.
Proof.
  intros [Hp Hd _ _]. unfold accessible, pageView. destruct (T' !! b) as [p'|] eqn:H'.
  - destruct (Hp b p' H') as (p & -> & Hperm). cbn. by rewrite Hperm.
  - destruct (T !! b) as [p|] eqn:H; [|done]. destruct (Hd b) as [? ?]; [by exists p|congruence].
Qed.

(** Writing into one page. *)
Lemma written_one T a bytes p p' :
  fits 64 a -> T !! pageBase a = Some p -> guestPage_ok p -> 0 < Z.of_nat (length bytes) ->
  pageOffset a + Z.of_nat (length bytes) <= kPageSize ->
  pageBytes p' = list_inserts (Z.to_nat (pageOffset a)) bytes (pageBytes p) -> pagePermissions p' = pagePermissions p ->
  (forall o, 0 <= o < kPageSize -> bitAt (dirty p') o = bitAt (dirty p) o || within (pageOffset a) (Z.of_nat (length bytes)) o) ->
  written T a bytes (<[pageBase a := p']> T).
Proof.
  intros Ha Hp Hok Hn Hle Hbytes Hperm Hdirty. pose proof (pageOffset_bounds a) as Ho.
  assert (forall x, fits 64 x -> pageBase x = pageBase a -> within (pageOffset a) (Z.of_nat (length bytes)) (pageOffset x) =
    within a (Z.of_nat (length bytes)) x /\ x - a = pageOffset x - pageOffset a) as Hsame.
  { intros x Hx Hb. rewrite !pageBase_spec in Hb by done. rewrite !pageOffset_spec in *. split; [|lia].
    unfold within. destruct (Z.leb_spec (a mod kPageSize) (x mod kPageSize)), (Z.leb_spec a x),
      (Z.ltb_spec (x mod kPageSize) (a mod kPageSize + Z.of_nat (length bytes))),
      (Z.ltb_spec x (a + Z.of_nat (length bytes))); done || lia. }
  assert (forall x, fits 64 x -> pageBase x <> pageBase a -> within a (Z.of_nat (length bytes)) x = false) as Helse.
  { intros x Hx Hb. unfold within. destruct (Z.leb_spec a x), (Z.ltb_spec x (a + Z.of_nat (length bytes))); try done.
    exfalso. apply Hb. rewrite pageOffset_spec in *. rewrite !pageBase_spec by done. unfold kPageSize, kPageBits in *. dlia. }
  split.
  - intros b q [[<- <-]|[_ Hq]]%lookup_insert_Some; [by exists p|by exists q].
  - intros b Hb. destruct (decide (b = pageBase a)) as [->|Hne]; [by rewrite lookup_insert_eq|by rewrite lookup_insert_ne].
  - intros x Hx. unfold byteView, pageView. destruct (decide (pageBase x = pageBase a)) as [Hb|Hb].
    + rewrite Hb, lookup_insert_eq, Hp. cbn [mbind option_bind fst]. rewrite Hbytes.
      destruct (Hsame x Hx Hb) as [<- Hd]. pose proof (pageOffset_bounds x) as Hox. unfold within.
      destruct (guest_bytes p Hok) as [Hl _].
      destruct (Z.leb_spec (pageOffset a) (pageOffset x)), (Z.ltb_spec (pageOffset x) (pageOffset a + Z.of_nat (length bytes)));
        cbn [andb]; [|by rewrite list_lookup_inserts_ge by lia|by rewrite list_lookup_inserts_lt by lia..].
      rewrite list_lookup_inserts by (unfold kPageSize, kPageBits in *; lia). f_equal. lia.
    + rewrite lookup_insert_ne by done. by rewrite Helse.
  - intros x Hx. unfold dirtyAt. destruct (decide (pageBase x = pageBase a)) as [Hb|Hb].
    + rewrite Hb, lookup_insert_eq, Hp, Hdirty by apply pageOffset_bounds. by destruct (Hsame x Hx Hb) as [-> _].
    + rewrite lookup_insert_ne by done. by rewrite Helse, orb_false_r.
Qed.

Definition quietly (s s' : GuestAddressSpace) : Prop := instruction_ s' = instruction_ s /\ accesses s' = accesses s.

Lemma framed_quietly s s' : framed s s' -> quietly s s'.
Proof. by intros (_ & ? & ?). Qed.
Lemma quietly_trans s1 s2 s3 : quietly s1 s2 -> quietly s2 s3 -> quietly s1 s3.
Proof. intros [? ?] [? ?]. split; congruence. Qed.

Lemma page_ok_inserts bytes i page : page_ok page -> Forall (fits 8) bytes -> page_ok (list_inserts i bytes page).
Proof.
  intros [Hl Hf] Hb. split; [by rewrite length_inserts|]. revert i. induction Hb as [|b bytes Hb _ IH]; intros i; cbn; [done|].
  by apply Forall_insert.
Qed.

Lemma wp_writeChunk s node a bytes p (Φ : unit -> GuestAddressSpace -> Prop) E :
  space_ok s -> fits 64 a -> pages_ s !! pageBase a = Some node -> table s !! pageBase a = Some p ->
  Forall (fits 8) bytes -> 0 < Z.of_nat (length bytes) -> pageOffset a + Z.of_nat (length bytes) <= kPageSize ->
  (forall s', space_ok s' -> written (table s) a bytes (table s') -> pages_ s' = pages_ s -> quietly s s' -> Φ tt s') ->
  wp (writeChunk node (pageBase a) (pageOffset a) bytes) Φ E s.
Proof.
  intros Hs Ha Hn Hp Hbytes Hlen Hle HΦ. destruct (table_ok s _ p Hs Hp) as (Hok & _ & Hlist).
  pose proof (pageOffset_bounds a) as Ho. unfold writeChunk.
  set (p1 := withBytes p (list_inserts (Z.to_nat (pageOffset a)) bytes (pageBytes p))).
  assert (guestPage_ok p1) as Hok1 by (apply withBytes_ok, page_ok_inserts; [done|apply Hok|done]).
  apply wp_bind, (wp_modify s (pageBase a) node p); try done. intros s1 Hs1 Ht1 Hp1 Hf1.
  assert (pages_ s1 !! pageBase a = Some node /\ table s1 !! pageBase a = Some p1) as [Hn1 Hq1]
    by (rewrite Hp1, Ht1, lookup_insert_eq; done).
  apply wp_bind. unfold markDirty. apply wp_bind, (wp_deref s1 (pageBase a) node p1); [done..|].
  destruct (markWords_spec (Z.to_nat (Z.of_nat (length bytes))) (dirty p1) (pageOffset a) (Z.of_nat (length bytes)))
    as (words & Hmark & Hwok & Hbits); [apply Hok1|lia..|].
  set (p2 := withDirty p1 words true).
  assert (guestPage_ok p2) as Hok2 by (split; [apply Hok1|done|done]).
  assert (forall s2, space_ok s2 -> table s2 = table s1 -> pages_ s2 = pages_ s1 -> pageBase a ∈ dirtyPages_ s2 ->
    quietly s1 s2 -> wp (p ← deref node; words ← gfail (ofOption (markWords (Z.to_nat (Z.of_nat (length bytes))) (dirty p) (pageOffset a) (Z.of_nat (length bytes))));
             modify node (fun p => withDirty p words true))
      (fun _ => wp (g ← freshGeneration; modify node (fun p => withGeneration p g)) Φ E) E s2) as Hrest.
  { intros s2 Hs2 Ht2 Hp2 Hin Hf2. apply wp_bind, (wp_deref s2 (pageBase a) node p1); [done|by rewrite Hp2|by rewrite Ht2|].
    rewrite Hmark. apply wp_bind. change (wp (gfail (ofOption (Some words))) ?P ?E s2) with (P words s2). cbv beta.
    apply (wp_modify s2 (pageBase a) node p1); [done|by rewrite Hp2|by rewrite Ht2|done|done|].
    intros s3 Hs3 Ht3 Hp3 Hf3. apply wp_bind, wp_fresh; [done|]. intros s4 Hs4 Ht4 Hp4 Hf4.
    apply (wp_modify s4 (pageBase a) node p2); [done|by rewrite Hp4, Hp3, Hp2|by rewrite Ht4, Ht3, lookup_insert_eq|
      by apply withGeneration_ok| |].
    { intros _. destruct Hf4 as (-> & _), Hf3 as (-> & _). done. }
    intros s5 Hs5 Ht5 Hp5 Hf5. apply HΦ; [done| |congruence|].
    - rewrite Ht5, Ht4, Ht3, Ht2, Ht1, !insert_insert_eq. by apply (written_one (table s) a bytes p).
    - apply (quietly_trans s s1); [by apply framed_quietly|]. apply (quietly_trans s1 s2); [done|].
      apply framed_quietly, (framed_trans s2 s3); [done|]. by apply (framed_trans s3 s4). }
  destruct (dirtyListed p1) eqn:Hlisted.
  - apply wp_bind, wp_ret, Hrest; try done. destruct Hf1 as (-> & _). by apply Hlist.
  - apply wp_bind, wp_put, Hrest; try done.
    + destruct Hs1 as [Hal Hv Hi Hfr Hc]. split; try done. intros b node' Hb. destruct (Hv b node' Hb) as (q & Hq & ? & Hl).
      exists q. split; [done|]. split; [done|]. intros ?. apply elem_of_app. left. by apply Hl.
    + cbn. apply elem_of_app. right. by left.
Qed.

Lemma rangeResident_written s a n T' s' : rangeResident s a n -> (forall b, is_Some (table s !! b) -> is_Some (T' !! b)) ->
  table s' = T' -> rangeResident s' a n.
Proof. intros Hr Hd <- i Hi. by apply Hd, Hr. Qed.

Lemma wp_copyIn fuel s a bytes (Φ : unit -> GuestAddressSpace -> Prop) E :
  space_ok s -> let n := Z.of_nat (length bytes) in (0 < n -> inSpace a n) -> rangeResident s a n -> Forall (fits 8) bytes ->
  (length bytes <= fuel)%nat ->
  (forall s', space_ok s' -> written (table s) a bytes (table s') -> pages_ s' = pages_ s -> quietly s s' -> Φ tt s') ->
  wp (copyIn fuel a bytes) Φ E s.
Proof.
  cbv zeta. revert s a bytes Φ. induction fuel as [|fuel IH]; intros s a bytes Φ Hs Hin Hres Hb Hf HΦ.
  { destruct bytes; [|cbn in Hf; lia]. apply wp_ret, HΦ; [done|apply written_nil|done|done]. }
  destruct bytes as [|byte rest] eqn:Hbytes; [apply wp_ret, HΦ; [done|apply written_nil|done|done]|].
  rewrite <-Hbytes in *. rewrite Hbytes. cbn [copyIn]. rewrite <-Hbytes.
  assert (0 < Z.of_nat (length bytes)) as Hpos by (rewrite Hbytes; cbn; lia).
  pose proof (Hin Hpos) as Hsp. destruct (chunkSize_spec a _ Hpos) as [Hch Hpage].
  set (chunk := chunkSize a (Z.of_nat (length bytes))) in *.
  destruct (Hres 0 ltac:(lia)) as [p Hp]. rewrite Z.add_0_r in Hp.
  apply wp_bind, (wp_pageAt s a p); [done|apply Hsp|done|]. intros s1 node Hs1 Ht1 Hp1 Hf1 Hn.
  assert (length (take (Z.to_nat chunk) bytes) = Z.to_nat chunk) as Hlt by (rewrite length_take; lia).
  apply wp_bind, (wp_writeChunk s1 node a _ p); [done|apply Hsp|by rewrite Hp1|by rewrite Ht1|by apply Forall_take|lia|lia|].
  intros s2 Hs2 Hw2 Hp2 Hq2.
  destruct (decide (Z.of_nat (length bytes) = chunk)) as [Hz|Hz].
  - rewrite drop_ge by lia. assert (copyIn fuel (add64 a chunk) [] = mret tt) as -> by (by destruct fuel). apply wp_ret, HΦ; [done| |congruence|].
    + rewrite Ht1 in Hw2. by rewrite take_ge in Hw2 by lia.
    + apply (quietly_trans s s1); [by apply framed_quietly|done].
  - assert (add64 a chunk = a + chunk) as ->.
    { apply u64_small. destruct Hsp as (? & ? & ?). unfold fits in *. lia. }
    destruct (inSpace_split a chunk (Z.of_nat (length bytes) - chunk)) as [_ Hsp2];
      [by replace (chunk + (Z.of_nat (length bytes) - chunk)) with (Z.of_nat (length bytes)) by lia|lia..|].
    assert (Z.of_nat (length (drop (Z.to_nat chunk) bytes)) = Z.of_nat (length bytes) - chunk) as Hld by (rewrite length_drop; lia).
    apply IH; [done|by rewrite Hld| |by apply Forall_drop|lia|].
    + rewrite Hld. intros i Hi. apply (written_domain _ _ _ _ Hw2). rewrite Ht1, <-Z.add_assoc. apply Hres. lia.
    + intros s3 Hs3 Hw3 Hp3 Hq3. apply HΦ; [done| |congruence|].
      * rewrite <-(take_drop (Z.to_nat chunk) bytes). rewrite Ht1 in Hw2. apply (written_app _ (table s2)); [done|].
        rewrite Hlt, Z2Nat.id by lia. done.
      * apply (quietly_trans s s1); [by apply framed_quietly|]. by apply (quietly_trans s1 s2).
Qed.

(** [writeBytes]: the bytes are there where every page can be written, and
    nothing that can be seen has changed where one cannot. *)
Lemma wp_writeBytes s a bytes (Φ : unit -> GuestAddressSpace -> Prop) (E : Diag -> GuestAddressSpace -> Prop) :
  let c := canonicalize env a in let n := Z.of_nat (length bytes) in
  space_ok s -> fits 64 a -> Forall (fits 8) bytes -> 0 < n ->
  (forall s1 s', space_ok s' -> grown (rangePages c n) s s1 -> written (table s1) c bytes (table s') -> quietly s s' ->
     rangeAccessible (table s) Permission.Write c n -> rangeResident s1 c n -> Φ tt s') ->
  (forall d s', space_ok s' -> grown (rangePages c n) s s' -> ~ rangeAccessible (table s) Permission.Write c n ->
     diagCode d <> DiagCode.VerifyFailure -> E d s') ->
  wp (guestWriteBytes env a bytes) Φ E s.
Proof using Henv.
  cbv zeta. intros Hs Ha Hb Hn HΦ HE. pose proof (embedder_canonical env Henv a Ha) as Hc.
  pose proof (embedder_idempotent env Henv a) as Hcc. unfold guestWriteBytes. set (c := canonicalize env a) in *.
  replace (Z.of_nat (length bytes) =? 0) with false by lia.
  destruct (Z.leb_spec (pageOffset c + Z.of_nat (length bytes)) kPageSize) as [Hle|Hgt].
  - pose proof (one_page_inSpace c _ Hc Hn Hle) as Hin. pose proof (rangePages_one c _ Hin Hle) as Hone.
    assert (forall s1, grown [pageBase c] s s1 -> grown (rangePages c (Z.of_nat (length bytes))) s s1) as Hwk.
    { intros s1. apply grown_weaken. intros b ->%list_elem_of_singleton. by apply Hone. }
    apply wp_bind, wp_resident; [done|by apply pageBase_aligned| |].
    + intros s1 node p Hs1 Hg1%Hwk Hnode Hp Hacc. apply (wp_writeChunk s1 node c bytes p); try done.
      intros s2 Hs2 Hw2 Hp2 Hq2. apply (HΦ s1); try done.
      * apply (quietly_trans s s1); [apply framed_quietly, Hg1|done].
      * split; [done|]. by intros b ->%Hone.
      * apply (rangePages_resident s1 c _ Hin). intros b ->%Hone. by exists p.
    + intros d s1 Hs1 Hg1%Hwk Hacc Hd. apply HE; [done|done| |done]. intros [_ Hall]. specialize (Hall (pageBase c)).
      rewrite Hall in Hacc; [done|by apply Hone].
  - apply wp_bind, wp_ensure; [done..| |].
    + intros s1 Hs1 Hg1 Hacc Hres. pose proof (rangePages_resident s1 c _ (proj1 Hacc) Hres) as Hr1.
      apply wp_copyIn; [done|by intros _; apply Hacc|done|done|done|].
      intros s2 Hs2 Hw2 Hp2 Hq2. apply (HΦ s1); try done. apply (quietly_trans s s1); [apply framed_quietly, Hg1|done].
    + intros d s1 Hs1 Hg1 Hacc Hd. by apply HE.
Qed.
End Access.
