(* ===== verification/GuestProps.v ===== *)
(** * What the guest address space promises

    It is a memory for the interpreter: reads see writes and nothing else does,
    an access fails exactly where a page forbids it, and a write that fails has
    written nothing. *)
From S2P Require Import Prelude Bits U128 Eval EvalErrors Memory GuestMemory GuestPages GuestAccess.

(** ** Values from bytes *)

Lemma assemble_spec bytes i v :
  0 <= i -> i + Z.of_nat (length bytes) <= 16 -> canon (8 * i) v -> Forall (fits 8) bytes ->
  let r := assemble bytes i v in
  canon (8 * (i + Z.of_nat (length bytes))) r /\
  (forall k, 0 <= k < i -> byteOf (uval r) k = byteOf (uval v) k) /\
  forall k b, bytes !! k = Some b -> byteOf (uval r) (i + Z.of_nat k) = b.
Proof.
  cbv zeta. intros Hi Hle Hv Hb. revert i v Hi Hle Hv. induction Hb as [|b bytes Hbf _ IH]; intros i v Hi Hle Hv; cbn [assemble length] in *.
  { rewrite Z.add_0_r. split_and!; [done|done|]. intros k b. by rewrite lookup_nil. }
  pose proof (proj2 Hv) as Hvf. destruct (orByte_spec v i b ltac:(lia) Hv Hbf) as [Hv' Hu].
  destruct (IH (i + 1) (orByte v i b) ltac:(lia) ltac:(lia) Hv') as (Hc & Hlow & Hhigh).
  split; [by replace (i + Z.of_nat (S (length bytes))) with (i + 1 + Z.of_nat (length bytes)) by lia|]. split.
  - intros k Hk. rewrite Hlow, Hu, byteOf_add by (done || lia). by replace (k =? i) with false by lia.
  - intros [|k] b' Hk.
    + injection Hk as <-. rewrite Z.add_0_r, Hlow, Hu, byteOf_add by (done || lia). by rewrite Z.eqb_refl.
    + replace (i + Z.of_nat (S k)) with (i + 1 + Z.of_nat k) by lia. by apply Hhigh.
Qed.

(** The value of a list of at most 16 bytes, little-endian. *)
Definition valueOf (bytes : list Z) : ConcreteValue := assemble bytes 0 zero128.

Lemma valueOf_canon bytes n : 0 <= n <= 16 -> length bytes = Z.to_nat n -> Forall (fits 8) bytes -> canon (8 * n) (valueOf bytes).
Proof.
  intros Hn Hl Hb. destruct (assemble_spec bytes 0 zero128 ltac:(lia) ltac:(lia)) as (Hc & _); [apply canon_zero; lia|done|].
  by replace (8 * n) with (8 * (0 + Z.of_nat (length bytes))) by lia.
Qed.

Lemma valueOf_valueBytes v n : wf128 v -> 0 <= n <= 16 -> valueOf (valueByte v <$> seqZ 0 n) = mask v (8 * n).
Proof.
  intros Hv Hn. assert (Forall (fits 8) (valueByte v <$> seqZ 0 n)) as Hf.
  { apply Forall_fmap, Forall_true. intros k. apply valueByte_fits. }
  assert (length (valueByte v <$> seqZ 0 n) = Z.to_nat n) as Hl by (by rewrite length_fmap, length_seqZ).
  assert (0 + Z.of_nat (length (valueByte v <$> seqZ 0 n)) <= 16) as Hle by (rewrite Hl; lia).
  apply (bytes_ext n); [done|by apply valueOf_canon|by apply canon_mask; [lia|]|]. intros k Hk.
  destruct (assemble_spec (valueByte v <$> seqZ 0 n) 0 zero128 ltac:(lia) Hle) as (_ & _ & Hbytes); [apply canon_zero; lia|done|].
  specialize (Hbytes (Z.to_nat k) (valueByte v k)). rewrite Z2Nat.id, Z.add_0_l in Hbytes by lia.
  unfold valueOf. rewrite Hbytes.
  - rewrite valueByte_spec, uval_mask by (done || lia). apply Z.bits_inj'. intros j Hj. destruct (Z.ltb_spec j 8).
    + rewrite !testbit_byteOf by lia. by rewrite Z.mod_pow2_bits_low by lia.
    + by rewrite !(testbit_high 8) by (apply byteOf_fits || done).
  - rewrite list_lookup_fmap, lookup_seqZ_lt by lia. cbn. do 2 f_equal. lia.
Qed.

(** The bytes of a range just written. *)
Lemma written_bytesView env T a n bytes T' :
  written env T a bytes T' -> inSpace a n -> Z.of_nat (length bytes) = n -> bytesView env T' a n = bytes.
Proof.
  intros Hw Hin Hl. apply list_eq. intros i. destruct (decide (Z.of_nat i < n)) as [Hi|Hi].
  - rewrite bytesView_lookup by done. rewrite (written_byte _ _ _ _ _ Hw) by (apply (inSpace_fits a n); [done|lia]).
    unfold within. rewrite Hl. replace ((a <=? a + Z.of_nat i) && (a + Z.of_nat i <? a + n)) with true by lia.
    replace (Z.to_nat (a + Z.of_nat i - a)) with i by lia.
    destruct (lookup_lt_is_Some_2 bytes i ltac:(lia)) as [b ->]. done.
  - by rewrite !lookup_ge_None_2 by (rewrite ?bytesView_length; lia).
Qed.

(** ** Accesses of the interpreter *)

Section Guest.
Context (env : Embedder) (Henv : embedder_ok env).

Lemma pageView_ok s b v : space_ok s -> pageView env (table s) b = Some v -> page_ok v.1.
Proof using Henv.
  intros Hs. unfold pageView. destruct (table s !! b) as [p|] eqn:Hp.
  - intros [= <-]. cbn. apply (table_ok s b p Hs Hp).
  - unfold provided. destruct (provider env) as [provide|] eqn:Hpr; [|done].
    destruct (provide b) as [[sd|]|d|] eqn:Hsd; try done. intros [= <-]. cbn. by eapply embedder_seeds.
Qed.

Lemma byteView_fits s a x : space_ok s -> byteView env (table s) a = Some x -> fits 8 x.
Proof using Henv.
  intros Hs. unfold byteView. intros (v & Hv & Hx)%bind_Some. destruct (pageView_ok s _ v Hs Hv) as [_ Hf].
  by apply (Forall_lookup_1 _ _ _ _ Hf Hx).
Qed.

Lemma bytesView_fits s a n : space_ok s -> Forall (fits 8) (bytesView env (table s) a n).
Proof using Henv.
  intros Hs. apply Forall_fmap, Forall_true. intros i. cbn. destruct (byteView _ _ _) as [x|] eqn:Hx; cbn; [|by apply fits_0].
  by apply (byteView_fits s (a + i)).
Qed.

(** Noting an access changes nothing else. *)
Lemma wp_note s a n w v (Φ : unit -> GuestAddressSpace -> Prop) E :
  space_ok s -> (forall s', space_ok s' -> table s' = table s -> pages_ s' = pages_ s -> dirtyPages_ s' = dirtyPages_ s -> Φ tt s') ->
  wp (note env a n w v) Φ E s.
Proof. intros Hs HΦ. unfold note. destruct (observing env); [|by apply wp_ret, HΦ]. apply wp_put, HΦ; try done. by destruct Hs. Qed.

(** What can be seen is the same: every page, its bytes and its permissions. *)
Definition sameView (s s' : GuestAddressSpace) : Prop := forall b, pageView env (table s') b = pageView env (table s) b.

Lemma sameView_grown L s s1 s' : grown env L s s1 -> table s' = table s1 -> sameView s s'.
Proof. intros Hg Ht b. rewrite Ht. by apply (grown_view env L). Qed.

Lemma wp_read s a n (Φ : ConcreteValue -> GuestAddressSpace -> Prop) (E : Diag -> GuestAddressSpace -> Prop) :
  let c := canonicalize env a in
  space_ok s -> fits 64 a -> 1 <= n <= 16 ->
  (forall s', space_ok s' -> sameView s s' -> rangeAccessible env (table s) Permission.Read c n ->
     Φ (valueOf (bytesView env (table s) c n)) s') ->
  (forall d s', space_ok s' -> sameView s s' -> ~ rangeAccessible env (table s) Permission.Read c n ->
     diagCode d <> DiagCode.VerifyFailure -> E d s') ->
  wp (guestRead env a n) Φ E s.
Proof using Henv.
  cbv zeta. intros Hs Ha Hn HΦ HE. unfold guestRead. replace ((n =? 0) || (16 <? n)) with false by lia.
  apply wp_bind, wp_readBytes; [done..|lia| |].
  - intros s1 Hs1 Hg1 Hacc _. apply wp_bind, wp_note; [done|]. intros s2 Hs2 Ht2 _ _. apply wp_ret, HΦ; [done| |done].
    by apply (sameView_grown (rangePages (canonicalize env a) n) s s1).
  - intros d s1 Hs1 Hg1 Hacc Hd. apply HE; try done. by apply (sameView_grown (rangePages (canonicalize env a) n) s s1).
Qed.

Lemma wp_write s a n v (Φ : unit -> GuestAddressSpace -> Prop) (E : Diag -> GuestAddressSpace -> Prop) :
  let c := canonicalize env a in
  space_ok s -> fits 64 a -> 1 <= n <= 16 ->
  (forall s1 s', space_ok s' -> grown env (rangePages c n) s s1 -> written env (table s1) c (valueByte v <$> seqZ 0 n) (table s') ->
     rangeAccessible env (table s) Permission.Write c n -> rangeResident s1 c n -> Φ tt s') ->
  (forall d s', space_ok s' -> grown env (rangePages c n) s s' -> ~ rangeAccessible env (table s) Permission.Write c n ->
     diagCode d <> DiagCode.VerifyFailure -> E d s') ->
  wp (guestWrite env a n v) Φ E s.
Proof using Henv.
  cbv zeta. intros Hs Ha Hn HΦ HE. unfold guestWrite. replace ((n =? 0) || (16 <? n)) with false by lia.
  assert (Z.of_nat (length (valueByte v <$> seqZ 0 n)) = n) as Hl by (rewrite length_fmap, length_seqZ; lia).
  apply wp_bind, wp_writeBytes; rewrite ?Hl; [done..| |lia| |].
  - apply Forall_fmap, Forall_true. intros k. apply valueByte_fits.
  - intros s1 s2 Hs2 Hg1 Hw2 _ Hacc Hres. apply wp_note; [done|]. intros s3 Hs3 Ht3 _ _. apply (HΦ s1); try done. by rewrite Ht3.
  - done.
Qed.
End Guest.

(** ** The interface *)

(** An address space with its embedder. *)
Record Guest : Type := MkGuest { guestEnv : Embedder; guestSpace : GuestAddressSpace }.

(** A read may bring pages in and note the access; no later access can tell, so
    the interpreter keeps the state it had ([guest_access_exact]). *)
#[export] Instance Guest_backend : ExecMemoryBackend Guest := {
  backendRead g a n := (guestRead (guestEnv g) a n (guestSpace g)).1;
  backendWrite g a n v :=
    let r := guestWrite (guestEnv g) a n v (guestSpace g) in _ ← r.1; Ok (MkGuest (guestEnv g) r.2);
  backend_ok g := embedder_ok (guestEnv g) /\ space_ok (guestSpace g) }.

(** A size the interpreter's accesses refuse. *)
Lemma guest_bad_size (env : Embedder) a n v s : n = 0 \/ 16 < n ->
  guestRead env a n s = (err DiagCode.Internal, s) /\ guestWrite env a n v s = (err DiagCode.Internal, s).
Proof. intros Hn. unfold guestRead, guestWrite. by replace ((n =? 0) || (16 <? n)) with true by lia. Qed.

#[export] Instance Guest_laws : BackendLaws Guest.
Proof.
  split; intros [env s] a n; cbn [backendRead backendWrite backend_ok Guest_backend guestEnv guestSpace].
  - intros v [Henv Hs] Ha Hn Hr. destruct (decide (1 <= n <= 16)) as [Hb|Hb].
    + split; [lia|]. pose proof (wp_read env Henv s a n (fun v _ => canon (8 * n) v) (fun _ _ => True) Hs Ha Hb) as H.
      unfold wp in H. destruct (guestRead env a n s) as [[v'|d|] s']; cbn in Hr; simplify_eq. apply H; [|done].
      intros s1 Hs1 _ _. apply valueOf_canon; [lia|apply bytesView_length|by apply bytesView_fits].
    + rewrite (proj1 (guest_bad_size env a n zero128 s ltac:(lia))) in Hr. done.
  - intros v g' [Henv Hs] Ha Hn Hr. destruct (decide (1 <= n <= 16)) as [Hb|Hb].
    + pose proof (wp_write env Henv s a n v (fun _ s' => space_ok s') (fun _ _ => True) Hs Ha Hb) as H.
      unfold wp in H. destruct (guestWrite env a n v s) as [[[]|d|] s']; cbn in Hr; simplify_eq. split; [done|]. by apply H.
    + rewrite (proj2 (guest_bad_size env a n v s ltac:(lia))) in Hr. done.
  - intros [Henv Hs] Ha Hn. destruct (decide (1 <= n <= 16)) as [Hb|Hb].
    + pose proof (wp_read env Henv s a n (fun _ _ => True) (fun d _ => diagCode d <> DiagCode.VerifyFailure) Hs Ha Hb) as H.
      unfold wp in H. by destruct (guestRead env a n s) as [[v|d|] s']; cbn; [|apply H|apply H].
    + by rewrite (proj1 (guest_bad_size env a n zero128 s ltac:(lia))).
  - intros v [Henv Hs] Ha Hn. destruct (decide (1 <= n <= 16)) as [Hb|Hb].
    + pose proof (wp_write env Henv s a n v (fun _ _ => True) (fun d _ => diagCode d <> DiagCode.VerifyFailure) Hs Ha Hb) as H.
      unfold wp in H. by destruct (guestWrite env a n v s) as [[[]|d|] s']; cbn; [|apply H|apply H].
    + by rewrite (proj2 (guest_bad_size env a n v s ltac:(lia))).
Qed.

(** ** Properties *)

(** C30 The guest address space is a memory: after a successful [write] of [n]
    bytes, a [read] of that range, where its pages can be read, gives the value's
    low [n] bytes; every other byte is what it was, seen or still with the
    provider; no page's permissions changed; and the dirty bytes are those before
    with exactly the range added. *)
Theorem guest_read_after_write env s s' a n v :
  let c := canonicalize env a in
  embedder_ok env -> space_ok s -> fits 64 a -> wf128 v -> 1 <= n <= 16 -> guestWrite env a n v s = (Ok tt, s') ->
  space_ok s' /\
  (rangeAccessible env (table s) Permission.Read c n -> exists s'', guestRead env a n s' = (Ok (mask v (8 * n)), s'')) /\
  (forall x, fits 64 x -> within c n x = false -> byteView env (table s') x = byteView env (table s) x) /\
  (forall q b, accessible env (table s') q b = accessible env (table s) q b) /\
  (forall x, fits 64 x -> dirtyAt (table s') x = dirtyAt (table s) x || within c n x).
Proof.
  cbv zeta. intros Henv Hs Ha Hv Hn Hw. set (c := canonicalize env a).
  assert (Z.of_nat (length (valueByte v <$> seqZ 0 n)) = n) as Hl by (rewrite length_fmap, length_seqZ; lia).
  pose proof (fun Φ E HΦ HE => wp_Ok _ _ _ s tt s' (wp_write env Henv s a n v Φ E Hs Ha Hn HΦ HE) Hw) as H.
  apply (H (fun _ s' => space_ok s' /\ (rangeAccessible env (table s) Permission.Read c n ->
      exists s'', guestRead env a n s' = (Ok (mask v (8 * n)), s'')) /\
    (forall x, fits 64 x -> within c n x = false -> byteView env (table s') x = byteView env (table s) x) /\
    (forall q b, accessible env (table s') q b = accessible env (table s) q b) /\
    (forall x, fits 64 x -> dirtyAt (table s') x = dirtyAt (table s) x || within c n x)) (fun _ _ => True)); [|done].
  intros s1 s2 Hs2 Hg1 Hw2 Hacc Hres. fold c in Hw2, Hacc, Hres. split; [done|].
  assert (forall q b, accessible env (table s2) q b = accessible env (table s) q b) as Hsame.
  { intros q b. rewrite (written_accessible env _ _ _ _ q b Hw2). by apply (grown_accessible env _ s s1 _ _ Hg1). }
  split; [|split; [|split; [done|]]].
  - intros Hread. assert (wp (guestRead env a n) (fun r _ => r = mask v (8 * n)) (fun _ _ => False) s2) as Hr.
    { apply (wp_read env Henv s2 a n); [done..| |]; fold c.
      + intros s3 _ _ _. rewrite <-valueOf_valueBytes by (done || lia). f_equal.
        apply (written_bytesView env (table s1)); [done|by apply Hread|by rewrite Hl].
      + intros d s3 _ _ Hno _. apply Hno. destruct Hread as [Hin Hall]. split; [done|]. intros b Hb. rewrite Hsame. by apply Hall. }
    destruct (wp_total _ _ _ _ Hr) as [(r & s3 & Hr3 & ->)|(d & s3 & _ & [])]. by exists s3.
  - intros x Hx Hout. rewrite (written_byte _ _ _ _ _ Hw2) by done. rewrite Hl, Hout. by apply (grown_byte env _ s s1 _ Hg1).
  - intros x Hx. rewrite (written_dirty _ _ _ _ _ Hw2) by done. rewrite Hl. f_equal. unfold dirtyAt.
    destruct (table s !! pageBase x) as [p|] eqn:Hp; [by rewrite (grown_old env _ s s1 Hg1 _ p Hp)|].
    destruct (table s1 !! pageBase x) as [p|] eqn:Hp1; [|done].
    destruct (grown_new env _ s s1 Hg1 _ p Hp Hp1) as (_ & sd & g & _ & ->). unfold bitAt, cleanDirty. cbn [dirty].
    rewrite nth_repeat. apply Z.testbit_0_l.
Qed.

(** C33 Accesses fail exactly when they should: a size of zero or above 16 is an
    internal error; otherwise a read succeeds exactly when every page of the range
    is there, or comes from the provider, with the permission to read, and gives
    the bytes that can be seen, and a write succeeds exactly when every page can
    be written. A read, and a write that fails on any of its pages, leave every
    page's bytes and permissions as they could be seen. *)
Theorem guest_access_exact env s a n v :
  let c := canonicalize env a in
  embedder_ok env -> space_ok s -> fits 64 a -> 0 <= n ->
  (n = 0 \/ 16 < n -> guestRead env a n s = (err DiagCode.Internal, s) /\ guestWrite env a n v s = (err DiagCode.Internal, s)) /\
  (1 <= n <= 16 ->
     (exists r s', guestRead env a n s = (r, s') /\ sameView env s s' /\
        (rangeAccessible env (table s) Permission.Read c n /\ r = Ok (valueOf (bytesView env (table s) c n)) \/
         ~ rangeAccessible env (table s) Permission.Read c n /\ exists d, r = Err d)) /\
     exists r s', guestWrite env a n v s = (r, s') /\
        (rangeAccessible env (table s) Permission.Write c n /\ r = Ok tt \/
         ~ rangeAccessible env (table s) Permission.Write c n /\ sameView env s s' /\ exists d, r = Err d)).
Proof.
  cbv zeta. intros Henv Hs Ha Hn. split; [by apply guest_bad_size|]. intros Hb. set (c := canonicalize env a). split.
  - assert (wp (guestRead env a n) (fun x s' => sameView env s s' /\ rangeAccessible env (table s) Permission.Read c n /\
        x = valueOf (bytesView env (table s) c n))
      (fun _ s' => sameView env s s' /\ ~ rangeAccessible env (table s) Permission.Read c n) s) as H
      by (apply wp_read; [done..|done|done]).
    destruct (wp_total _ _ _ _ H) as [(x & s' & -> & Hv & Hacc & ->)|(d & s' & -> & Hv & Hacc)]; eexists _, s';
      (split; [done|]); (split; [done|]); [by left|right; split; [done|by exists d]].
  - assert (wp (guestWrite env a n v) (fun _ _ => rangeAccessible env (table s) Permission.Write c n)
      (fun _ s' => sameView env s s' /\ ~ rangeAccessible env (table s) Permission.Write c n) s) as H.
    { apply wp_write; [done..| |]; [done|]. intros d s' Hs' Hg Hacc _. split; [|done]. intros b. by apply (grown_view env _ s s' b Hg). }
    destruct (wp_total _ _ _ _ H) as [([] & s' & -> & Hacc)|(d & s' & -> & Hv & Hacc)]; eexists _, s';
      (split; [done|]); [by left|right; split; [done|]; split; [done|by exists d]].
Qed.
