(* ===== verification/GuestPatches.v ===== *)
(** * Patches of the guest address space

    What mapping, protecting and unmapping do to the permissions of pages, and
    that a list of patches that validates applies to its end: [apply] does
    everything or nothing. *)
From S2P Require Import Prelude Bits U128 Eval Memory GuestMemory GuestPages GuestAccess GuestProps.

(** ** Permissions of resident pages *)

Definition permAt (T : gmap Z GuestPage) (b : Z) : option Z := pagePermissions <$> T !! b.

Lemma permAt_None s b : permAt (table s) b = None <-> table s !! b = None.
Proof. apply fmap_None. Qed.

Lemma permAt_Some T b p : permAt T b = Some p -> exists q, T !! b = Some q /\ pagePermissions q = p.
Proof. intros (q & -> & Hq)%fmap_Some. by exists q. Qed.

Lemma permAt_insert T b p b' : permAt (<[b := p]> T) b' = if decide (b' = b) then Some (pagePermissions p) else permAt T b'.
Proof.
  unfold permAt. destruct (decide (b' = b)) as [->|Hne]; [by rewrite lookup_insert_eq|by rewrite lookup_insert_ne].
Qed.

(** ** Contents of resident pages *)

(** A page's bytes and permissions. *)
Definition contentAt (T : gmap Z GuestPage) (b : Z) : option (list Z * Z) := (fun p => (pageBytes p, pagePermissions p)) <$> T !! b.

(** The byte of an address, where its page is resident. *)
Definition byteAt (T : gmap Z GuestPage) (x : Z) : option Z := p ← T !! pageBase x; pageBytes p !! Z.to_nat (pageOffset x).

Lemma permAt_content T b : permAt T b = snd <$> contentAt T b.
Proof. unfold permAt, contentAt. by destruct (T !! b). Qed.

Lemma byteAt_content T x : byteAt T x = c ← contentAt T (pageBase x); c.1 !! Z.to_nat (pageOffset x).
Proof. unfold byteAt, contentAt. by destruct (T !! pageBase x). Qed.

Lemma contentAt_is_Some T b : is_Some (contentAt T b) <-> is_Some (T !! b).
Proof. apply fmap_is_Some. Qed.

Lemma contentAt_None T b : contentAt T b = None <-> T !! b = None.
Proof. apply fmap_None. Qed.

Lemma contentAt_insert T b p b' :
  contentAt (<[b := p]> T) b' = if decide (b' = b) then Some (pageBytes p, pagePermissions p) else contentAt T b'.
Proof.
  unfold contentAt. destruct (decide (b' = b)) as [->|Hne]; [by rewrite lookup_insert_eq|by rewrite lookup_insert_ne].
Qed.

Lemma same_perm T T' : (forall b, contentAt T' b = contentAt T b) -> forall b, permAt T' b = permAt T b.
Proof. intros H b. by rewrite !permAt_content, H. Qed.

Lemma alike_byteAt T T' : (forall b, contentAt T' b = contentAt T b) -> forall x, byteAt T' x = byteAt T x.
Proof. intros H x. by rewrite !byteAt_content, H. Qed.

(** One byte of a page set. *)
Lemma byteAt_setByte T a p v x :
  fits 64 a -> fits 64 x -> T !! pageBase a = Some p -> page_ok (pageBytes p) ->
  byteAt (<[pageBase a := withBytes p (setByte (pageBytes p) (pageOffset a) v)]> T) x =
    if x =? a then Some v else byteAt T x.
Proof.
  intros Ha Hx Hp [Hl _]. unfold byteAt. pose proof (pageOffset_bounds a). pose proof (pageOffset_bounds x).
  destruct (decide (pageBase x = pageBase a)) as [Hb|Hb].
  - rewrite Hb, lookup_insert_eq, Hp. cbn [mbind option_bind withBytes pageBytes]. unfold setByte.
    assert (x - a = pageOffset x - pageOffset a) as Hd by (rewrite !pageBase_spec in Hb by done; rewrite !pageOffset_spec; lia).
    destruct (Z.eqb_spec x a) as [->|Hne].
    + apply list_lookup_insert_eq. rewrite Hl. unfold kPageSize, kPageBits in *. lia.
    + apply list_lookup_insert_ne. lia.
  - rewrite lookup_insert_ne by done. by destruct (Z.eqb_spec x a) as [->|].
Qed.

Section Patches.
Context (env : Embedder) (Henv : embedder_ok env).

(** The contents of the pages in [L] change by [u]; the others keep theirs. *)
Definition changed (L : list Z) (u : option (list Z * Z) -> option (list Z * Z)) (T T' : gmap Z GuestPage) : Prop :=
  forall b, contentAt T' b = if decide (b ∈ L) then u (contentAt T b) else contentAt T b.

Lemma changed_nil u T T' : (forall b, contentAt T' b = contentAt T b) -> changed [] u T T'.
Proof. intros H b. rewrite decide_False by apply not_elem_of_nil. apply H. Qed.

Lemma changed_snoc L b u T T1 T2 :
  changed L u T T1 -> b ∉ L -> (forall b', contentAt T2 b' = if decide (b' = b) then u (contentAt T1 b) else contentAt T1 b') ->
  changed (L ++ [b]) u T T2.
Proof.
  intros H1 Hb H2 b'. rewrite H2. destruct (decide (b' = b)) as [->|Hne].
  - rewrite (decide_True (P := b ∈ L ++ [b])) by (apply elem_of_app; right; by left). by rewrite H1, decide_False.
  - rewrite H1. apply decide_ext. rewrite elem_of_app, list_elem_of_singleton. tauto.
Qed.

Lemma changed_fresh L b u T T1 : changed L u T T1 -> b ∉ L -> contentAt T1 b = contentAt T b.
Proof. intros H Hb. by rewrite H, decide_False. Qed.

(** Changing a page and stamping it with a fresh generation. *)
Lemma wp_restamp s b node p u (Φ : unit -> GuestAddressSpace -> Prop) E :
  space_ok s -> pages_ s !! b = Some node -> table s !! b = Some p -> guestPage_ok (u p) -> dirtyListed (u p) = dirtyListed p ->
  (forall s' g, space_ok s' -> table s' = <[b := withGeneration (u p) g]> (table s) -> pages_ s' = pages_ s -> Φ tt s') ->
  wp (modify node u;; g ← freshGeneration; modify node (fun p => withGeneration p g)) Φ E s.
Proof.
  intros Hs Hn Hp Hok Hl HΦ. destruct (table_ok s b p Hs Hp) as (_ & _ & Hlist).
  apply wp_bind, (wp_modify s b node p); [done..|by rewrite Hl|]. intros s1 Hs1 Ht1 Hp1 Hf1.
  apply wp_bind, wp_fresh; [done|]. intros s2 Hs2 Ht2 Hp2 Hf2.
  apply (wp_modify s2 b node (u p)); [done|by rewrite Hp2, Hp1|by rewrite Ht2, Ht1, lookup_insert_eq|by apply withGeneration_ok| |].
  { cbn. rewrite Hl. destruct Hf2 as (-> & _), Hf1 as (-> & _). done. }
  intros s3 Hs3 Ht3 Hp3 _. apply (HΦ s3 (nextGeneration_ s1)); [done| |congruence]. by rewrite Ht3, Ht2, Ht1, insert_insert_eq.
Qed.

(** [map] over pages that are not there. *)
Lemma wp_map s a n perms (Φ : unit -> GuestAddressSpace -> Prop) E :
  let c := canonicalize env a in
  space_ok s -> inSpace c n -> (forall b, b ∈ rangePages c n -> table s !! b = None) ->
  (forall s', space_ok s' -> changed (rangePages c n) (fun _ => Some (zeroPage, perms)) (table s) (table s') -> Φ tt s') ->
  wp (guestMap env a n perms) Φ E s.
Proof.
  cbv zeta. intros Hs Hin Habs HΦ. unfold guestMap. set (c := canonicalize env a) in *.
  assert (0 < n) as Hn by apply Hin. replace (n =? 0) with false by lia.
  assert (wraps c n = false) as -> by (destruct Hin as (? & ? & ?); unfold wraps; lia).
  apply wp_bind. apply (wp_forPages _ _ _ (fun _ _ s' => s' = s)); [done|done| |].
  { intros pre b rest [] s1 _ Hb _ _ ->. apply wp_bind, wp_ask. rewrite (proj1 (table_None s b Hs)) by auto. by apply wp_ret. }
  intros [] s1 ->. apply (wp_forPages _ _ _ (fun pre _ s' => space_ok s' /\ changed pre (fun _ => Some (zeroPage, perms)) (table s) (table s')));
    [done|split; [done|by apply changed_nil]| |by intros [] s' [? ?]; apply HΦ].
  intros pre b rest [] s1 _ Hb Hal Hpre [Hs1 Hr1].
  assert (table s1 !! b = None) as Hn1.
  { apply contentAt_None. rewrite (changed_fresh pre b _ _ _ Hr1 Hpre). apply contentAt_None. by apply Habs. }
  apply wp_bind, wp_emplace; [done|done|apply emptyPage_ok|done| |].
  { intros node p Hn2 Hp2. congruence. }
  intros node s2 _ Hs2 Ht2 Hp2 _. apply (wp_restamp s2 b node emptyPage); [done|by rewrite Hp2, lookup_insert_eq|by rewrite Ht2, lookup_insert_eq|
    by apply withPermissions_ok, emptyPage_ok|done|]. intros s3 g Hs3 Ht3 _. split; [done|].
  apply (changed_snoc pre b _ _ _ _ Hr1 Hpre). intros b'. rewrite Ht3, Ht2, contentAt_insert, contentAt_insert.
  by destruct (decide (b' = b)).
Qed.

(** [ensure] of pages that are there, whatever their permissions. *)
Lemma wp_ensure_resident s a n (Φ : unit -> GuestAddressSpace -> Prop) E :
  let c := canonicalize env a in
  space_ok s -> inSpace c n -> (forall b, b ∈ rangePages c n -> is_Some (table s !! b)) ->
  (forall s', space_ok s' -> (forall b, contentAt (table s') b = contentAt (table s) b) -> Φ tt s') ->
  wp (ensure env c n Permission.None) Φ E s.
Proof using Henv.
  cbv zeta. intros Hs Hin Hres HΦ. set (c := canonicalize env a) in *.
  apply (wp_ensure env Henv s c n Permission.None); [done|apply Hin|apply (embedder_idempotent env Henv)|apply Hin| |].
  - intros s1 Hs1 Hg1 _ _. apply HΦ; [done|]. intros b. unfold contentAt. f_equal.
    apply (grown_outside env (rangePages c n)); [done|]. destruct (decide (b ∈ rangePages c n)); [right; by apply Hres|by left].
  - intros d s1 _ _ Hno _. destruct Hno. split; [done|]. intros b Hb. destruct (Hres b Hb) as [p Hp].
    unfold accessible, pageView. by rewrite Hp.
Qed.

Lemma permAt_is_Some T b : is_Some (permAt T b) <-> is_Some (T !! b).
Proof. apply fmap_is_Some. Qed.

(** [protect] of pages that are there. *)
Lemma wp_protect s a n perms (Φ : unit -> GuestAddressSpace -> Prop) E :
  let c := canonicalize env a in
  space_ok s -> inSpace c n -> (forall b, b ∈ rangePages c n -> is_Some (table s !! b)) ->
  (forall s', space_ok s' -> changed (rangePages c n) (fmap (fun c => (c.1, perms))) (table s) (table s') -> Φ tt s') ->
  wp (guestProtect env a n perms) Φ E s.
Proof using Henv.
  cbv zeta. intros Hs Hin Hres HΦ. unfold guestProtect. set (c := canonicalize env a) in *.
  apply wp_bind, wp_ensure_resident; [done..|]. intros s0 Hs0 H0.
  assert (0 < n) as Hn by apply Hin. replace (n =? 0) with false by lia.
  apply (wp_forPages _ _ _ (fun pre _ s' => space_ok s' /\ changed pre (fmap (fun c => (c.1, perms))) (table s) (table s')));
    [done|split; [done|by apply changed_nil]| |by intros [] s' [? ?]; apply HΦ].
  intros pre b rest [] s1 _ Hb Hal Hpre [Hs1 Hr1]. apply wp_bind, wp_ask.
  assert (is_Some (table s1 !! b)) as [p Hp].
  { apply contentAt_is_Some. rewrite (changed_fresh pre b _ _ _ Hr1 Hpre). by apply contentAt_is_Some, Hres. }
  destruct (table_Some s1 b p Hp) as (node & Hnode & _). rewrite Hnode. apply wp_bind.
  change (wp (gfail (ofOption (Some node))) ?P E s1) with (P node s1). cbv beta.
  destruct (table_ok s1 b p Hs1 Hp) as (Hok & _). apply (wp_restamp s1 b node p); [done..|by apply withPermissions_ok|done|].
  intros s2 g Hs2 Ht2 _. split; [done|]. apply (changed_snoc pre b _ _ _ _ Hr1 Hpre). intros b'. rewrite Ht2, contentAt_insert.
  destruct (decide (b' = b)) as [->|]; [|done]. unfold contentAt. by rewrite Hp.
Qed.

(** [unmap] of pages that are there. *)
Lemma wp_unmap s a n (Φ : unit -> GuestAddressSpace -> Prop) E :
  let c := canonicalize env a in
  space_ok s -> inSpace c n -> (forall b, b ∈ rangePages c n -> is_Some (table s !! b)) ->
  (forall s', space_ok s' -> changed (rangePages c n) (fun _ => None) (table s) (table s') -> Φ tt s') ->
  wp (guestUnmap env a n) Φ E s.
Proof using Henv.
  cbv zeta. intros Hs Hin Hres HΦ. unfold guestUnmap. set (c := canonicalize env a) in *.
  assert (0 < n) as Hn by apply Hin. replace (n =? 0) with false by lia.
  apply wp_bind, wp_ensure_resident; [done..|]. intros s0 Hs0 H0. apply wp_bind, wp_put.
  apply (wp_forPages _ _ _ (fun pre _ s' => space_ok s' /\ cachePage s' = None /\ changed pre (fun _ => None) (table s) (table s')));
    [done| | |by intros [] s' (? & _ & ?); apply HΦ].
  { split; [|split; [done|by apply changed_nil]]. destruct Hs0. split; try done. by left. }
  intros pre b rest [] s1 _ Hb Hal Hpre (Hs1 & Hc1 & Hr1). apply wp_erase; [done..|]. intros s2 Hs2 Hc2 Ht2 _.
  split; [done|]. split; [done|]. apply (changed_snoc pre b _ _ _ _ Hr1 Hpre). intros b'. rewrite Ht2. unfold contentAt.
  destruct (decide (b' = b)) as [->|Hne]; [by rewrite lookup_delete_eq|by rewrite lookup_delete_ne].
Qed.

(** A list of bytes from [a] on, over what was there. *)
Definition bytesOver (a : Z) (bytes : list Z) (old : Z -> option Z) (x : Z) : option Z :=
  if within a (Z.of_nat (length bytes)) x then bytes !! Z.to_nat (x - a) else old x.

Lemma bytesOver_nil a old x : bytesOver a [] old x = old x.
Proof.
  unfold bytesOver, within. cbn [length]. destruct (Z.leb_spec a x), (Z.ltb_spec x (a + Z.of_nat 0)); try done. lia.
Qed.

Lemma bytesOver_cons a byte bytes old x :
  bytesOver (a + 1) bytes (fun x => if x =? a then Some byte else old x) x = bytesOver a (byte :: bytes) old x.
Proof.
  unfold bytesOver, within. rewrite length_cons, Nat2Z.inj_succ. set (n := Z.of_nat (length bytes)). destruct (Z.eqb_spec x a) as [->|Hne].
  - destruct (Z.leb_spec (a + 1) a), (Z.leb_spec a a), (Z.ltb_spec a (a + Z.succ n)); try lia. cbn. by rewrite Z.sub_diag.
  - destruct (Z.leb_spec (a + 1) x), (Z.ltb_spec x (a + 1 + n)), (Z.leb_spec a x), (Z.ltb_spec x (a + Z.succ n)); try lia; try done.
    cbn [andb]. by replace (Z.to_nat (x - a)) with (S (Z.to_nat (x - (a + 1)))) by lia.
Qed.

Lemma bytesOver_ext a bytes f g x : f x = g x -> bytesOver a bytes f x = bytesOver a bytes g x.
Proof. unfold bytesOver. by intros ->. Qed.

(** Bytes poked into pages that are there. *)
Lemma wp_poke s a bytes (Φ : unit -> GuestAddressSpace -> Prop) E :
  let n := Z.of_nat (length bytes) in
  space_ok s -> (0 < n -> inSpace a n) -> Forall (fits 8) bytes -> rangeResident s a n ->
  (forall s', space_ok s' -> (forall b, permAt (table s') b = permAt (table s) b) ->
     (forall x, fits 64 x -> byteAt (table s') x = bytesOver a bytes (byteAt (table s)) x) -> Φ tt s') ->
  wp (pokeBytes a bytes) Φ E s.
Proof.
  cbv zeta. intros Hs Hin Hb. revert s a Hs Hin. induction Hb as [|byte bytes Hbyte _ IH]; intros s a Hs Hin Hres HΦ; cbn [pokeBytes].
  { apply wp_ret, HΦ; [done..|]. intros x _. by rewrite bytesOver_nil. }
  cbn [length] in *. destruct (Hin ltac:(lia)) as (Ha & Hn & Hend). destruct (Hres 0 ltac:(lia)) as [p Hp]. rewrite Z.add_0_r in Hp.
  apply wp_bind, (wp_pageAt s a p); [done..|]. intros s1 node Hs1 Ht1 Hp1 Hf1 Hnode.
  destruct (table_ok s _ p Hs Hp) as (Hok & _ & Hl).
  apply wp_bind, (wp_modify s1 (pageBase a) node p); [done|by rewrite Hp1|by rewrite Ht1| | |].
  - apply withBytes_ok, setByte_ok; [done|apply Hok|done].
  - destruct Hf1 as (-> & _). done.
  - intros s2 Hs2 Ht2 Hp2 Hf2.
    assert (forall b, permAt (table s2) b = permAt (table s) b) as Hsame.
    { intros b. rewrite Ht2, permAt_insert, Ht1. destruct (decide (b = pageBase a)) as [->|]; [|done]. unfold permAt. by rewrite Hp. }
    assert (0 < Z.of_nat (length bytes) -> add64 a 1 = a + 1) as Hadd by (intros ?; apply u64_small; unfold fits in *; lia).
    assert (forall x, fits 64 x -> byteAt (table s2) x = if x =? a then Some byte else byteAt (table s) x) as Hbytes.
    { intros x Hx. rewrite Ht2, Ht1. apply byteAt_setByte; [done..|]. apply Hok. }
    apply IH; [done| | |].
    3: { intros s3 Hs3 H3 Hb3. apply HΦ; [done|intros b; by rewrite H3|]. intros x Hx. rewrite Hb3 by done.
         destruct bytes as [|byte' bytes'] eqn:Hbs.
         - rewrite bytesOver_nil, Hbytes by done. rewrite <-bytesOver_cons. by rewrite bytesOver_nil.
         - rewrite <-Hbs in *. rewrite Hadd by (rewrite Hbs; cbn; lia). rewrite <-bytesOver_cons. by apply bytesOver_ext, Hbytes. }
    + intros Hpos. rewrite Hadd by done. unfold inSpace, fits in *. lia.
    + intros i Hi. rewrite Hadd by lia. apply permAt_is_Some. rewrite Hsame. apply permAt_is_Some.
      rewrite <-Z.add_assoc. apply Hres. lia.
Qed.

(** [writeBytes] to pages that are there and can be written. *)
Lemma wp_writeBytes_resident s a bytes (Φ : unit -> GuestAddressSpace -> Prop) E :
  let c := canonicalize env a in let n := Z.of_nat (length bytes) in
  space_ok s -> fits 64 a -> inSpace c n -> Forall (fits 8) bytes ->
  (forall b, b ∈ rangePages c n -> exists p, permAt (table s) b = Some p /\ hasPermission p Permission.Write = true) ->
  (forall s', space_ok s' -> (forall b, permAt (table s') b = permAt (table s) b) ->
     (forall x, fits 64 x -> byteAt (table s') x = bytesOver c bytes (byteAt (table s)) x) -> Φ tt s') ->
  wp (guestWriteBytes env a bytes) Φ E s.
Proof using Henv.
  cbv zeta. intros Hs Ha Hin Hb Hall HΦ. set (c := canonicalize env a) in *.
  apply wp_writeBytes; [done..|apply Hin| |]; fold c.
  - intros s1 s2 Hs2 Hg1 Hw2 _ _ _.
    assert (forall b, table s1 !! b = table s !! b) as H1.
    { intros b. apply (grown_outside env (rangePages c (Z.of_nat (length bytes)))); [done|].
      destruct (decide (b ∈ rangePages c (Z.of_nat (length bytes)))) as [Hin'|]; [right|by left].
      destruct (Hall b Hin') as (p & Hp & _). apply permAt_is_Some. by exists p. }
    assert (forall b, table s2 !! b = None <-> table s !! b = None) as Hdom.
    { intros b. rewrite <-H1. destruct (table s2 !! b) as [p2|] eqn:H2.
      - destruct (written_page _ _ _ _ _ Hw2 b p2 H2) as (p & -> & _). done.
      - destruct (table s1 !! b) as [p|] eqn:Hp; [|done]. destruct (written_domain _ _ _ _ _ Hw2 b) as [? ?]; [by exists p|congruence]. }
    apply HΦ; [done| |].
    + intros b. unfold permAt. destruct (table s2 !! b) as [p2|] eqn:H2.
      * destruct (written_page _ _ _ _ _ Hw2 b p2 H2) as (p & Hp & Heq). rewrite H1 in Hp. rewrite Hp. cbn. by rewrite Heq.
      * by rewrite (proj1 (Hdom b) H2).
    + intros x Hx. pose proof (written_byte _ _ _ _ _ Hw2 x Hx) as Hbyte. unfold byteView, pageView in Hbyte. rewrite H1 in Hbyte.
      unfold byteAt, bytesOver. destruct (table s2 !! pageBase x) as [p2|] eqn:H2.
      * destruct (table s !! pageBase x) as [p|] eqn:Hp; [exact Hbyte|]. apply Hdom in Hp. congruence.
      * rewrite (proj1 (Hdom _) H2). cbn [mbind option_bind]. destruct (within _ _ _) eqn:Hwi; [|done]. exfalso.
        destruct (Hall (pageBase x)) as (p & Hp & _); [|unfold permAt in Hp; by rewrite (proj1 (Hdom _) H2) in Hp].
        apply elem_of_rangePages; [done|]. exists (x - c). unfold within in Hwi. split; [lia|]. f_equal. lia.
  - intros d s1 _ _ Hno _. destruct Hno. split; [done|]. intros b Hin'. destruct (Hall b Hin') as (p & Hp & Hw).
    apply permAt_Some in Hp as (q & Hq & <-). unfold accessible, pageView, permits. rewrite Hq. cbn. exact Hw.
Qed.

(** ** Validation *)

(** The permissions the patches so far leave a page with. *)
Definition overlayed (ov : gmap Z (option Z)) (T : gmap Z GuestPage) (b : Z) : option Z :=
  match ov !! b with Some changed => changed | None => permAt T b end.

Lemma wp_permissionAt s ov b (Φ : option Z -> GuestAddressSpace -> Prop) E :
  space_ok s -> Φ (overlayed ov (table s) b) s -> wp (permissionAt ov b) Φ E s.
Proof.
  intros Hs HΦ. unfold permissionAt, overlayed in *. destruct (ov !! b) as [changed|]; [by apply wp_ret|].
  apply wp_bind, wp_ask. destruct (pages_ s !! b) as [node|] eqn:Hn.
  - destruct (table_node s b node Hs Hn) as (p & _ & Hp). apply wp_bind, (wp_deref s b node p); [done..|].
    apply wp_ret. unfold permAt in HΦ. by rewrite Hp in HΦ.
  - apply wp_ret. unfold permAt in HΦ. by rewrite (proj2 (table_None s b Hs) Hn) in HΦ.
Qed.

Lemma wp_try {A} (m : G A) (Φ : bool -> GuestAddressSpace -> Prop) E s :
  wp m (fun _ => Φ true) (fun _ => Φ false) s -> wp (gtry m) Φ E s.
Proof. unfold wp, gtry. by destruct (m s) as [[x|d|] s']. Qed.

(** What a patch asks of a page's permissions, and what it makes of them. *)
Definition demands (patch : MemoryPatch) (current : option Z) : Prop :=
  match patchKind patch with
  | PatchKind.Write => exists p, current = Some p /\ hasPermission p Permission.Write = true
  | PatchKind.Map => current = None
  | PatchKind.Protect | PatchKind.Unmap => is_Some current
  end.

Definition newEntry (patch : MemoryPatch) : option (option Z) :=
  match patchKind patch with
  | PatchKind.Write => None
  | PatchKind.Map | PatchKind.Protect => Some (Some (patchPermissions patch))
  | PatchKind.Unmap => Some None
  end.

(** Validating a patch on the pages [L]: pages not in the overlay may have been
    brought in, by a write; the patch's demands are met; its changes are noted. *)
Record patchStep (patch : MemoryPatch) (L : list Z) (ov : gmap Z (option Z)) (s : GuestAddressSpace)
    (ov' : gmap Z (option Z)) (s' : GuestAddressSpace) : Prop := {
  step_ok : space_ok s';
  step_grown : grown env L s s';
  step_fixed : forall b, is_Some (ov !! b) -> table s' !! b = table s !! b;
  step_table : is_Some (newEntry patch) -> table s' = table s;
  step_demands : forall b, b ∈ L -> demands patch (overlayed ov (table s') b);
  step_overlay : forall b, ov' !! b = match newEntry patch with
                                      | Some e => if decide (b ∈ L) then Some e else ov !! b
                                      | None => ov !! b end }.

Lemma sameView_refl s : sameView env s s.
Proof. by intros b. Qed.

Lemma sameView_trans s1 s2 s3 : sameView env s1 s2 -> sameView env s2 s3 -> sameView env s1 s3.
Proof. intros H1 H2 b. by rewrite H2. Qed.

Definition failedSafely (s : GuestAddressSpace) (d : Diag) (s' : GuestAddressSpace) : Prop := space_ok s' /\ sameView env s s'.

(** [ensure] of one whole page: the page of its canonical address. *)
Lemma wp_ensure_page s b (Φ : unit -> GuestAddressSpace -> Prop) (E : Diag -> GuestAddressSpace -> Prop) :
  let b' := canonicalize env b in
  space_ok s -> pageAligned b ->
  (forall s', space_ok s' -> grown env [b'] s s' -> Φ tt s') -> (forall d s', space_ok s' -> grown env [b'] s s' -> E d s') ->
  wp (ensure env b kPageSize Permission.Write) Φ E s.
Proof using Henv.
  cbv zeta. intros Hs [Hb Hm] HΦ HE. set (b' := canonicalize env b).
  assert (fits 64 b') as Hb' by (by apply embedder_canonical).
  assert (pageOffset b' = 0) as Ho by (unfold b'; rewrite (embedder_offset env Henv) by done; by rewrite pageOffset_spec).
  assert (pageOffset b' + kPageSize <= kPageSize) as Hone by (rewrite Ho; done).
  pose proof (one_page_inSpace b' kPageSize Hb' ltac:(done) Hone) as Hin. pose proof (rangePages_one b' kPageSize Hin Hone) as Hpages.
  assert (pageBase b' = b') as Hbase by (rewrite pageBase_spec by done; rewrite pageOffset_spec in Ho; lia).
  assert (forall s', grown env (rangePages b' kPageSize) s s' -> grown env [b'] s s') as Hwk.
  { intros s'. apply grown_weaken. intros x ->%Hpages. rewrite Hbase. by left. }
  assert (ensure env b kPageSize Permission.Write = ensure env b' kPageSize Permission.Write) as ->.
  { unfold ensure. subst b'. by rewrite (embedder_idempotent env Henv). }
  apply (wp_ensure env Henv s b' kPageSize Permission.Write); [done|done|apply (embedder_idempotent env Henv)|done| |].
  - intros s1 Hs1 Hg1%Hwk _ _. by apply HΦ.
  - intros d s1 Hs1 Hg1%Hwk _ _. by apply (HE d).
Qed.

Lemma patchStep_unchanged patch b ov s :
  space_ok s -> newEntry patch = None -> demands patch (overlayed ov (table s) b) -> patchStep patch [b] ov s ov s.
Proof.
  intros Hs Hn Hd. split; try done; [apply grown_refl|by intros b' ->%list_elem_of_singleton|by rewrite Hn].
Qed.

Lemma patchStep_noted patch b e ov s :
  space_ok s -> newEntry patch = Some e -> demands patch (overlayed ov (table s) b) -> patchStep patch [b] ov s (<[b := e]> ov) s.
Proof.
  intros Hs Hn Hd. split; try done; [apply grown_refl|by intros b' ->%list_elem_of_singleton|].
  intros b'. rewrite Hn. destruct (decide (b' ∈ [b])) as [->%list_elem_of_singleton|Hb]; [by rewrite lookup_insert_eq|].
  rewrite lookup_insert_ne; [done|]. intros ->. apply Hb. by left.
Qed.

(** A write's page that is not known yet may come from the provider. *)
Lemma wp_validateWrite s ov patch b :
  space_ok s -> pageAligned b -> patchKind patch = PatchKind.Write -> overlayed ov (table s) b = None ->
  wp (materialized ← gtry (ensure env b kPageSize Permission.Write);
      current ← (if (materialized : bool) then permissionAt ov b else mret None);
      match current with
      | Some permissions =>
          if hasPermission permissions Permission.Write then mret ov else gfail (errAt DiagCode.OutOfRange b)
      | None => gfail (errAt DiagCode.OutOfRange b)
      end) (patchStep patch [b] ov s) (failedSafely s) s.
Proof using Henv.
  intros Hs Hb Hk Hnone. assert (newEntry patch = None) as Hne by (unfold newEntry; by rewrite Hk).
  apply wp_bind, wp_try, wp_ensure_page; [done..| |]; [intros s1 Hs1 Hg1|intros d s1 Hs1 Hg1];
    (assert (sameView env s s1) as Hv by (intros x; by apply (grown_view env [canonicalize env b])));
    [|apply wp_bind, wp_ret, wp_fail; by split].
  apply wp_bind, wp_permissionAt; [done|]. destruct (overlayed ov (table s1) b) as [p|] eqn:Hp; [|apply wp_fail; by split].
  destruct (hasPermission p Permission.Write) eqn:Hw; [|apply wp_fail; by split]. apply wp_ret.
  assert (ov !! b = None /\ canonicalize env b = b) as [Hov Hcb].
  { unfold overlayed in *. destruct (ov !! b); [congruence|]. split; [done|].
    destruct (decide (canonicalize env b = b)) as [|Hne']; [done|]. exfalso.
    assert (b ∉ [canonicalize env b]) as Hnot by (intros Heq%list_elem_of_singleton; by apply Hne').
    unfold permAt in *. rewrite (grown_outside env _ s s1 b Hg1) in Hp by (by left). congruence. }
  rewrite Hcb in Hg1. split; try done.
  - intros b' Hb'. apply (grown_outside env [b]); [done|]. left. intros ->%list_elem_of_singleton. rewrite Hov in Hb'. by destruct Hb'.
  - rewrite Hne. by intros [].
  - intros b' ->%list_elem_of_singleton. unfold demands. rewrite Hk. by exists p.
  - by rewrite Hne.
Qed.

Lemma wp_validatePage s ov patch b :
  space_ok s -> pageAligned b -> wp (validatePage env patch ov b) (patchStep patch [b] ov s) (failedSafely s) s.
Proof using Henv.
  intros Hs Hb. unfold validatePage. apply wp_bind, wp_permissionAt; [done|].
  assert (forall c, failedSafely s c s) as Hsafe by (intros c; split; [done|apply sameView_refl]).
  destruct (patchKind patch) eqn:Hk.
  - destruct (overlayed ov (table s) b) as [p|] eqn:Hp.
    + apply wp_bind, wp_ret. destruct (hasPermission p Permission.Write) eqn:Hw; [|by apply wp_fail].
      apply wp_ret, patchStep_unchanged; [done|unfold newEntry; by rewrite Hk|]. unfold demands. rewrite Hk, Hp. by exists p.
    + pose proof (wp_validateWrite s ov patch b Hs Hb Hk Hp) as H. unfold wp, mbind, G_bind in H |- *.
      by destruct (gtry _ s) as [[[]|d|] s1].
  - destruct (overlayed ov (table s) b) as [p|] eqn:Hp; [by apply wp_fail|].
    apply wp_ret, patchStep_noted; [done|unfold newEntry; by rewrite Hk|]. unfold demands. by rewrite Hk, Hp.
  - destruct (overlayed ov (table s) b) as [p|] eqn:Hp; [|by apply wp_fail].
    apply wp_ret, patchStep_noted; [done|unfold newEntry; by rewrite Hk|]. unfold demands. rewrite Hk, Hp. by eexists.
  - destruct (overlayed ov (table s) b) as [p|] eqn:Hp; [|by apply wp_fail].
    apply wp_ret, patchStep_noted; [done|unfold newEntry; by rewrite Hk|]. unfold demands. rewrite Hk, Hp. by eexists.
Qed.

Lemma patchStep_snoc patch L b ov s ov1 s1 ov2 s2 :
  patchStep patch L ov s ov1 s1 -> patchStep patch [b] ov1 s1 ov2 s2 -> b ∉ L -> patchStep patch (L ++ [b]) ov s ov2 s2.
Proof.
  intros H1 H2 Hb. assert (forall b', b' ∉ L -> ov1 !! b' = ov !! b') as Hsame.
  { intros b' Hb'. rewrite (step_overlay _ _ _ _ _ _ H1). destruct (newEntry patch); [|done]. by rewrite decide_False. }
  split.
  - apply H2.
  - apply (grown_trans env _ s s1); [apply (grown_weaken env L)|apply (grown_weaken env [b])];
      try apply (step_grown _ _ _ _ _ _ H1); try apply (step_grown _ _ _ _ _ _ H2);
      intros x Hx; apply elem_of_app; [by left|by right].
  - intros b' Hb'. rewrite (step_fixed _ _ _ _ _ _ H2); [by apply (step_fixed _ _ _ _ _ _ H1)|].
    rewrite (step_overlay _ _ _ _ _ _ H1). destruct (newEntry patch); [|done]. by destruct (decide (b' ∈ L)).
  - intros Hn. rewrite (step_table _ _ _ _ _ _ H2 Hn). by apply (step_table _ _ _ _ _ _ H1).
  - intros b' [Hb'| ->%list_elem_of_singleton]%elem_of_app.
    + pose proof (step_demands _ _ _ _ _ _ H1 b' Hb') as Hd. destruct (newEntry patch) as [e|] eqn:Hn.
      * rewrite (step_table _ _ _ _ _ _ H2) by (rewrite Hn; by eexists). exact Hd.
      * unfold demands, newEntry in *. destruct (patchKind patch); try done. destruct Hd as (p & Hp & Hw). exists p. split; [|done].
        unfold overlayed in *. destruct (ov !! b'); [done|]. apply permAt_Some in Hp as (q & Hq & <-). unfold permAt.
        by rewrite (grown_old env _ _ _ (step_grown _ _ _ _ _ _ H2) b' q Hq).
    + pose proof (step_demands _ _ _ _ _ _ H2 b ltac:(by left)) as Hd. unfold overlayed in *. by rewrite Hsame in Hd.
  - intros b'. rewrite (step_overlay _ _ _ _ _ _ H2), (step_overlay _ _ _ _ _ _ H1). destruct (newEntry patch) as [e|]; [|done].
    destruct (decide (b' ∈ [b])) as [Hin|Hin].
    + rewrite decide_True; [done|]. apply elem_of_app. by right.
    + apply decide_ext. rewrite elem_of_app. tauto.
Qed.

Lemma failedSafely_grown L s s1 d s2 : grown env L s s1 -> failedSafely s1 d s2 -> failedSafely s d s2.
Proof.
  intros Hg [Hs Hv]. split; [done|]. apply (sameView_trans s s1); [|done]. intros b. by apply (grown_view env L).
Qed.

Lemma wp_validateLoop s ov patch c n :
  space_ok s -> inSpace c n ->
  wp (forPagesWith (fun page overlay => validatePage env patch overlay page) c n ov)
    (patchStep patch (rangePages c n) ov s) (failedSafely s) s.
Proof using Henv.
  intros Hs Hin. apply (wp_forPages _ _ _ (fun pre ov' s' => patchStep patch pre ov s ov' s')); [done| | |done].
  - split; try done; [apply grown_refl|intros b Hb; by apply not_elem_of_nil in Hb|].
    intros b. destruct (newEntry patch); [|done]. by rewrite decide_False by apply not_elem_of_nil.
  - intros pre b rest ov1 s1 _ _ Hal Hb H1. eapply wp_mono; [apply (wp_validatePage s1 ov1 patch b); [apply H1|done]| |].
    + intros ov2 s2 H2. by apply (patchStep_snoc patch pre b ov s ov1 s1).
    + intros d s2. apply (failedSafely_grown pre), H1.
Qed.

(** ** Application *)

Definition patch_ok (patch : MemoryPatch) : Prop :=
  fits 64 (patchAddress patch) /\ fits 64 (patchSize patch) /\ Forall (fits 8) (patchBytes patch).

(** [validate]'s first check. *)
Definition bytesFit (patch : MemoryPatch) : Prop :=
  patchKind patch = PatchKind.Map -> Z.of_nat (length (patchBytes patch)) <= patchSize patch.

(** The permissions a patch leaves. *)
Definition repatched (patch : MemoryPatch) (L : list Z) (T T' : gmap Z GuestPage) : Prop :=
  forall b, permAt T' b = match newEntry patch with
                          | Some e => if decide (b ∈ L) then e else permAt T b
                          | None => permAt T b end.

(** ** What patches come to

    What can be seen of the resident pages: their permissions, by base, and their
    bytes, by address. A patch of no bytes changes nothing; a write puts its bytes
    over those that were there; a mapping makes pages of zeros with its initial
    bytes; a protection changes permissions only; an unmapping removes the pages. *)
Record View : Type := MkView { viewPermission : Z -> option Z; viewByte : Z -> option Z }.

Definition viewOf (T : gmap Z GuestPage) : View := MkView (permAt T) (byteAt T).

Definition patchView (v : View) (patch : MemoryPatch) : View :=
  let c := canonicalize env (patchAddress patch) in
  let n := patchExtent patch in
  if n =? 0 then v
  else MkView
    (fun b => match newEntry patch with
              | Some e => if decide (b ∈ rangePages c n) then e else viewPermission v b
              | None => viewPermission v b end)
    (match patchKind patch with
     | PatchKind.Write => bytesOver c (patchBytes patch) (viewByte v)
     | PatchKind.Map =>
         bytesOver c (patchBytes patch) (fun x => if decide (pageBase x ∈ rangePages c n) then Some 0 else viewByte v x)
     | PatchKind.Protect => viewByte v
     | PatchKind.Unmap => fun x => if decide (pageBase x ∈ rangePages c n) then None else viewByte v x
     end).

(** The table is as the view says. *)
Definition sees (T : gmap Z GuestPage) (v : View) : Prop :=
  (forall b, permAt T b = viewPermission v b) /\ (forall x, fits 64 x -> byteAt T x = viewByte v x).

Lemma zeroPage_byte x : zeroPage !! Z.to_nat (pageOffset x) = Some 0.
Proof.
  pose proof (pageOffset_bounds x). destruct (lookup_lt_is_Some_2 zeroPage (Z.to_nat (pageOffset x))) as [z Hz].
  { unfold zeroPage. rewrite repeat_length. lia. }
  rewrite Hz. f_equal. by apply list_elem_of_lookup_2, list_elem_of_In, repeat_spec in Hz.
Qed.

Lemma changed_perm L u T T' : changed L u T T' ->
  forall b, permAt T' b = if decide (b ∈ L) then snd <$> u (contentAt T b) else permAt T b.
Proof. intros H b. rewrite !permAt_content, H. by destruct (decide (b ∈ L)). Qed.

Lemma changed_byte L u T T' : changed L u T T' ->
  forall x, byteAt T' x = if decide (pageBase x ∈ L) then c ← u (contentAt T (pageBase x)); c.1 !! Z.to_nat (pageOffset x) else byteAt T x.
Proof. intros H x. rewrite !byteAt_content, H. by destruct (decide (pageBase x ∈ L)). Qed.

Lemma wp_applyPatch t patch v (Φ : unit -> GuestAddressSpace -> Prop) E :
  let c := canonicalize env (patchAddress patch) in let n := patchExtent patch in
  space_ok t -> patch_ok patch -> bytesFit patch -> inSpace c n ->
  (forall b, b ∈ rangePages c n -> demands patch (permAt (table t) b)) -> sees (table t) v ->
  (forall t', space_ok t' -> repatched patch (rangePages c n) (table t) (table t') -> sees (table t') (patchView v patch) -> Φ tt t') ->
  wp (applyPatch env patch) Φ E t.
Proof using Henv.
  cbv zeta. intros Ht (Ha & Hsz & Hb) Hfit Hin Hd [Hvp Hvb] HΦ.
  assert (patchExtent patch =? 0 = false) as Hn by (destruct Hin as (_ & ? & _); lia).
  unfold patchView in HΦ. rewrite Hn in HΦ. clear Hn.
  unfold applyPatch, sees, repatched, bytesFit, demands, newEntry, patchExtent in *.
  set (c := canonicalize env (patchAddress patch)) in *.
  destruct (patchKind patch) eqn:Hk.
  - apply wp_writeBytes_resident; [done..|]. intros t' Ht' Hp' Hb'. apply HΦ; [done|done|]. split; [intros b; cbn; by rewrite Hp'|].
    intros x Hx. rewrite Hb' by done. by apply bytesOver_ext, Hvb.
  - specialize (Hfit eq_refl). replace (patchSize patch <? Z.of_nat (length (patchBytes patch))) with false by lia.
    apply wp_bind, wp_map; [done|done|intros b Hb'; by apply permAt_None, Hd|]. intros t1 Ht1 Hr1.
    pose proof (changed_perm _ _ _ _ Hr1) as Hp1. pose proof (changed_byte _ _ _ _ Hr1) as Hb1. cbn in Hp1.
    apply wp_poke; [done| |done| |].
    + intros Hpos. destruct Hin as (? & ? & ?). split; [done|]. lia.
    + intros i Hi. apply permAt_is_Some. rewrite Hp1, decide_True; [by eexists|]. apply elem_of_rangePages; [done|].
      exists i. split; [lia|done].
    + intros t2 Ht2 Hp2 Hb2. apply HΦ; [done|intros b; by rewrite Hp2, Hp1|]. split; [intros b; rewrite Hp2, Hp1; cbn; by rewrite Hvp|].
      intros x Hx. rewrite Hb2 by done. cbn. apply bytesOver_ext. rewrite Hb1, Hvb by done.
      destruct (decide _); [|done]. cbn. apply zeroPage_byte.
  - apply wp_protect; [done|done|intros b Hb'; by apply permAt_is_Some, Hd|]. intros t' Ht' Hr.
    assert (forall b, permAt (table t') b = if decide (b ∈ rangePages c (patchSize patch)) then Some (patchPermissions patch) else permAt (table t) b) as Hp.
    { intros b. rewrite (changed_perm _ _ _ _ Hr). destruct (decide _) as [Hb'|]; [|done].
      destruct (Hd b Hb') as [p Hp]. rewrite permAt_content in Hp. destruct (contentAt _ b); [done|discriminate Hp]. }
    apply HΦ; [done|done|]. split; [intros b; cbn; by rewrite Hp, Hvp|].
    intros x Hx. cbn. rewrite (changed_byte _ _ _ _ Hr), <-Hvb, byteAt_content by done. by destruct (decide _), (contentAt _ _).
  - apply wp_unmap; [done|done|intros b Hb'; by apply permAt_is_Some, Hd|]. intros t' Ht' Hr.
    apply HΦ; [done|exact (changed_perm _ _ _ _ Hr)|]. split; [intros b; rewrite (changed_perm _ _ _ _ Hr); cbn; by rewrite Hvp|].
    intros x Hx. rewrite (changed_byte _ _ _ _ Hr). cbn. by rewrite Hvb.
Qed.

(** A patch of no bytes does nothing. *)
Lemma wp_applyPatch_empty t patch (Φ : unit -> GuestAddressSpace -> Prop) E :
  bytesFit patch -> patchExtent patch = 0 -> Φ tt t -> wp (applyPatch env patch) Φ E t.
Proof.
  intros Hfit H0 HΦ. unfold applyPatch, bytesFit, patchExtent in *.
  destruct (patchKind patch) eqn:Hk.
  - unfold guestWriteBytes. rewrite H0. by apply wp_ret.
  - specialize (Hfit eq_refl). rewrite H0. replace (0 <? Z.of_nat (length (patchBytes patch))) with false by lia.
    destruct (patchBytes patch); [|cbn in Hfit; lia]. unfold guestMap. cbn. by apply wp_bind, wp_ret, wp_ret.
  - unfold guestProtect, ensure. rewrite H0. by apply wp_bind, wp_ret, wp_ret.
  - unfold guestUnmap. rewrite H0. by apply wp_ret.
Qed.

(** The pages of [t] have the permissions the overlay predicts. *)
Definition agrees (ov : gmap Z (option Z)) (s1 t : GuestAddressSpace) : Prop :=
  forall b, permAt (table t) b = overlayed ov (table s1) b.

(** Validation that succeeds from the overlay [ov]: what has an overlay entry is
    still as it was, and the patches apply to any space the overlay describes. *)
Record validated (ov : gmap Z (option Z)) (s : GuestAddressSpace) (patches : list MemoryPatch) (s1 : GuestAddressSpace) : Prop := {
  validated_ok : space_ok s1;
  validated_view : sameView env s s1;
  validated_fixed : forall b, is_Some (ov !! b) -> table s1 !! b = table s !! b;
  validated_old : forall b p, table s !! b = Some p -> table s1 !! b = Some p;
  validated_apply : forall t v, space_ok t -> agrees ov s1 t -> sees (table t) v ->
    wp (applyPatches env patches) (fun _ t' => space_ok t' /\ sees (table t') (foldl patchView v patches)) (fun _ _ => False) t }.

Lemma patchStep_agrees patch L ov s ov' s' s1 t t' patches :
  patchStep patch L ov s ov' s' -> validated ov' s' patches s1 -> agrees ov s1 t -> repatched patch L (table t) (table t') -> agrees ov' s1 t'.
Proof.
  intros Hstep Hval Ht Hr b. rewrite Hr. unfold overlayed. rewrite (step_overlay _ _ _ _ _ _ Hstep).
  destruct (newEntry patch) as [e|]; [|apply Ht]. destruct (decide (b ∈ L)); [done|]. apply Ht.
Qed.

Lemma patchStep_demands patch L ov s ov' s' s1 t patches b :
  patchStep patch L ov s ov' s' -> validated ov' s' patches s1 -> agrees ov s1 t -> b ∈ L -> demands patch (permAt (table t) b).
Proof.
  intros Hstep Hval Ht Hb. rewrite Ht. pose proof (step_demands _ _ _ _ _ _ Hstep b Hb) as Hd. unfold overlayed in *.
  destruct (ov !! b) as [c|] eqn:Hov; [done|]. pose proof (step_overlay _ _ _ _ _ _ Hstep b) as Hov'.
  destruct (newEntry patch) as [e|] eqn:Hn.
  - rewrite decide_True in Hov' by done. unfold permAt in *. rewrite (validated_fixed _ _ _ _ Hval b) by (rewrite Hov'; by eexists). exact Hd.
  - unfold demands, newEntry in *. destruct (patchKind patch); try done. destruct Hd as (p & Hp & Hw). exists p. split; [|done].
    apply permAt_Some in Hp as (q & Hq & <-). unfold permAt. by rewrite (validated_old _ _ _ _ Hval b q Hq).
Qed.

Lemma wp_validateFrom patches ov s :
  space_ok s -> Forall patch_ok patches -> wp (validateFrom env ov patches) (fun _ => validated ov s patches) (failedSafely s) s.
Proof using Henv.
  intros Hs Hps. revert ov s Hs. induction Hps as [|patch patches Hp _ IH]; intros ov s Hs; cbn [validateFrom].
  { by apply wp_ret. }
  assert (forall d, failedSafely s d s) as Hsafe by (intros d; split; [done|apply sameView_refl]).
  set (c := canonicalize env (patchAddress patch)). set (n := patchExtent patch).
  destruct (bool_decide (patchKind patch = PatchKind.Map) && _) eqn:Hcheck; [by apply wp_fail|].
  assert (bytesFit patch) as Hfit.
  { intros Hk. unfold n, patchExtent in Hcheck. rewrite Hk, bool_decide_true in Hcheck by done. cbn in Hcheck. lia. }
  destruct (Z.eqb_spec n 0) as [Hn|Hn].
  - eapply wp_mono; [by apply IH| |done]. intros [] s1 [Hok Hv Hfx Ho Happ]. split; try done.
    intros t v Ht Hag Hv'. cbn [applyPatches foldl].
    assert (patchView v patch = v) as -> by (unfold patchView; fold c n; by rewrite Hn).
    by apply wp_bind, wp_applyPatch_empty, Happ.
  - destruct (wraps c n) eqn:Hw; [by apply wp_fail|]. destruct Hp as (Ha & Hsz & Hb).
    assert (0 <= n) as Hn0 by (unfold n, patchExtent; destruct (patchKind patch); unfold fits in Hsz; lia).
    pose proof (wraps_false c n (embedder_canonical env Henv _ Ha) ltac:(lia) Hw) as Hin.
    apply wp_bind. eapply wp_mono; [by apply wp_validateLoop| |done]. intros ov' s' Hstep.
    eapply wp_mono; [apply (IH ov' s'); apply Hstep| |intros d s1; by apply (failedSafely_grown (rangePages c n)), Hstep].
    intros [] s1 Hval. cbv beta in Hval. split.
    + apply Hval.
    + apply (sameView_trans s s'); [|apply Hval]. intros b. apply (grown_view env (rangePages c n)), Hstep.
    + intros b Hb'. rewrite (validated_fixed _ _ _ _ Hval); [by apply (step_fixed _ _ _ _ _ _ Hstep)|].
      rewrite (step_overlay _ _ _ _ _ _ Hstep). destruct (newEntry patch); [|done]. by destruct (decide (b ∈ _)).
    + intros b p Hbp. by apply (validated_old _ _ _ _ Hval), (grown_old env (rangePages c n) s s'); [apply Hstep|].
    + intros t v Ht Hag Hv'. cbn [applyPatches foldl]. apply wp_bind, (wp_applyPatch t patch v); [done|by split|done|done| |done|].
      * intros b. by apply (patchStep_demands patch (rangePages c n) ov s ov' s' s1 t patches).
      * intros t' Ht' Hr Hs'. apply (validated_apply _ _ _ _ Hval); [done| |done]. by apply (patchStep_agrees patch (rangePages c n) ov s ov' s' s1 t t' patches).
Qed.
End Patches.

(** C31 Patches apply all or not at all. [apply] either succeeds, and then the
    resident pages are what carrying the patches out in order makes of those that
    validation left: every page's permissions and whether it is there, and every
    byte (written, mapped with its initial bytes over zeros, kept by a protection,
    gone with an unmapping); validation itself only brought in pages the provider
    supplied and changed nothing that could be seen. Or it fails, having left every
    page's bytes and permissions as they could be seen before, resident or with the
    provider. Either way the table stays well-formed and nothing undefined happens:
    no missing page is dereferenced, no dangling pointer of the cache is followed.
    Assumed: the embedder's canonical addresses are addresses, stay themselves and
    keep the place in the page, its provider fills whole pages or gives a
    diagnostic ([embedder_ok]); patches have arguments of their types
    ([patch_ok]); the table was well-formed. *)
Theorem apply_all_or_nothing env patches s :
  embedder_ok env -> space_ok s -> Forall patch_ok patches ->
  (exists s1 s', apply env patches s = (Ok tt, s') /\ space_ok s' /\
     sameView env s s1 /\ (forall b p, table s !! b = Some p -> table s1 !! b = Some p) /\
     sees (table s') (foldl (patchView env) (viewOf (table s1)) patches)) \/
  (exists d s', apply env patches s = (Err d, s') /\ space_ok s' /\ sameView env s s').
Proof.
  intros Henv Hs Hps. pose proof (wp_validateFrom env Henv patches ∅ s Hs Hps) as Hv. unfold apply, validate, mbind, G_bind.
  destruct (wp_total _ _ _ _ Hv) as [([] & s1 & -> & Hval)|(d & s1 & -> & Hs1 & Hsame)]; [left|right; by exists d, s1].
  destruct (wp_total _ _ _ _ (validated_apply _ _ _ _ _ Hval s1 (viewOf (table s1)) (validated_ok _ _ _ _ _ Hval) ltac:(by intros b) ltac:(by split)))
    as [([] & s2 & -> & Hs2 & Hv2)|(d & s2 & _ & [])]. exists s1, s2. split_and!; [done|done|apply Hval|apply Hval|apply Hv2..].
Qed.
