(* ===== verification/GuestSafe.v ===== *)
(** * The invariant of the guest address space

    Every operation, whatever its arguments and its outcome, keeps the page table
    well-formed and does nothing undefined. *)
From stdpp Require Import relations.
From S2P Require Import Prelude Bits U128 Eval Memory GuestMemory GuestPages GuestAccess GuestProps GuestPatches.
Local Open Scope Z_scope.

(** The operation keeps the invariant. *)
Definition safe {A} (m : G A) (s : GuestAddressSpace) : Prop := wp m (fun _ => space_ok) (fun _ => space_ok) s.

(** ** The scan for dirty bytes *)

Lemma testbit_complement word i : 0 <= i < 64 -> Z.testbit (not64 word) i = negb (Z.testbit word i).
Proof. intros Hi. rewrite testbit_not64. by replace (i <? 64) with true by lia; replace (0 <=? i) with true by lia. Qed.

Lemma countr_one_spec word : fits 64 word ->
  0 <= countr_one word <= 64 /\ (forall i, 0 <= i < countr_one word -> Z.testbit word i = true) /\
  (countr_one word < 64 -> Z.testbit word (countr_one word) = false).
Proof.
  intros Hw. unfold countr_one. destruct (Z.eqb_spec word (not64 0)) as [->|Hne].
  { split; [lia|]. split; [|lia]. intros i Hi. by rewrite testbit_complement, Z.testbit_0_l. }
  assert (not64 word <> 0) as Hz.
  { intros H. apply Hne, Z.bits_inj'. intros i Hi. destruct (Z.lt_ge_cases i 64).
    - rewrite testbit_complement, Z.testbit_0_l by lia. apply (f_equal (fun z => Z.testbit z i)) in H.
      rewrite testbit_complement, Z.testbit_0_l in H by lia. by destruct (Z.testbit word i).
    - by rewrite !(testbit_high 64) by (done || apply fits_not64). }
  destruct (countTrailingZeros_spec (not64 word) (fits_not64 word) Hz) as (Hb & Ht & Hlow). split; [lia|]. split.
  - intros i Hi. specialize (Hlow i Hi). rewrite testbit_complement in Hlow by lia. by destruct (Z.testbit word i).
  - intros _. rewrite testbit_complement in Ht by lia. by destruct (Z.testbit word _).
Qed.

(** The bits of a dirty word from an offset on. *)
Lemma wordAt_bits words index i : words_ok words -> 0 <= index < kPageSize -> 0 <= i ->
  fits 64 (shr64 (nth (Z.to_nat (index / kDirtyWordBits)) words 0) (index mod kDirtyWordBits)) /\
  (index mod kDirtyWordBits + i < kDirtyWordBits ->
   Z.testbit (shr64 (nth (Z.to_nat (index / kDirtyWordBits)) words 0) (index mod kDirtyWordBits)) i = bitAt words (index + i)) /\
  (kDirtyWordBits <= index mod kDirtyWordBits + i ->
   Z.testbit (shr64 (nth (Z.to_nat (index / kDirtyWordBits)) words 0) (index mod kDirtyWordBits)) i = false).
Proof.
  intros [Hlen Hfit] Hi H0. assert (kPageSize = 4096 /\ kDirtyWordBits = 64 /\ kDirtyWords = 64) as (Hps & Hwb & Hws) by done.
  rewrite Hps in Hi. rewrite Hws in Hlen. rewrite Hwb.
  assert (fits 64 (nth (Z.to_nat (index / 64)) words 0)) as Hf.
  { destruct (lookup_lt_is_Some_2 words (Z.to_nat (index / 64)) ltac:(dlia)) as [x Hx]. rewrite nth_lookup, Hx.
    by apply (Forall_lookup_1 _ _ _ _ Hfit Hx). }
  pose proof (Z.mod_pos_bound index 64 ltac:(lia)). split; [apply fits_shr64; [lia|done]|].
  rewrite testbit_shr64. replace (0 <=? i) with true by lia. cbn [andb]. split.
  - intros Hlt. unfold bitAt. rewrite Hwb. replace ((index + i) / 64) with (index / 64) by dlia. f_equal. dlia.
  - intros Hge. apply (testbit_high 64); [done|lia].
Qed.

Lemma runEnd_spec fuel words index :
  words_ok words -> 0 <= index <= kPageSize -> kDirtyWords - index / kDirtyWordBits < Z.of_nat fuel ->
  exists stop, runEnd fuel words index = Some stop /\ index <= stop <= kPageSize /\
    (forall o, index <= o < stop -> bitAt words o = true) /\ (stop < kPageSize -> bitAt words stop = false).
Proof.
  assert (kPageSize = 4096 /\ kDirtyWordBits = 64 /\ kDirtyWords = 64) as (Hps & Hwb & Hws) by done.
  intros Hw. revert index. induction fuel as [|fuel IH]; intros index Hi Hf; [exfalso; rewrite Hps, Hwb, Hws in *; dlia|].
  cbn [runEnd]. destruct (Z.leb_spec kPageSize index); [exists index; split; [done|]; split; [lia|]; split; lia|].
  pose proof (fun i => wordAt_bits words index i Hw ltac:(lia)) as Hbits. destruct (Hbits 0 ltac:(lia)) as [Hfit _].
  set (bit := index mod kDirtyWordBits) in *. set (word := shr64 _ bit) in *.
  destruct (countr_one_spec word Hfit) as (Hr & Hones & Hend). set (run := countr_one word) in *.
  assert (0 <= bit < 64) as Hb by (apply Z.mod_pos_bound; done).
  assert (bit + run <= 64) as Hle.
  { destruct (Z.leb_spec (bit + run) 64); [done|]. destruct (Hbits (64 - bit) ltac:(lia)) as (_ & _ & Hz).
    rewrite Hones in Hz by lia. by rewrite Hwb in Hz; discriminate Hz; lia. }
  assert (forall o, index <= o < index + run -> bitAt words o = true) as Hset.
  { intros o Ho. destruct (Hbits (o - index) ltac:(lia)) as (_ & Hz & _). rewrite Hones in Hz by lia.
    rewrite Hwb in Hz. rewrite Hz by lia. f_equal. lia. }
  destruct (Z.ltb_spec (bit + run) kDirtyWordBits) as [Hlt|Hge].
  - exists (index + run). split; [done|]. assert (index + run < kPageSize) by (subst bit; rewrite Hps, Hwb in *; dlia).
    split; [lia|]. split; [done|]. intros _. destruct (Hbits run ltac:(lia)) as (_ & Hz & _).
    rewrite <-Hz by done. apply Hend. lia.
  - assert (run = 64 - bit) as Hrun by lia.
    assert (index + run = 64 * (index / 64 + 1)) as Hnext by (subst bit; rewrite Hrun, Hwb; dlia).
    destruct (IH (index + run)) as (stop & Hs & Hb1 & Hb2 & Hb3); [rewrite Hps in *; dlia|rewrite Hwb, Hws in *; rewrite Hnext; dlia|].
    exists stop. split; [done|]. split; [lia|]. split; [|done]. intros o Ho. destruct (Z.lt_ge_cases o (index + run)); [apply Hset|apply Hb2]; lia.
Qed.

(** The outer loop ends, and its runs are exactly the bits that are set. *)
Lemma runs_after runs index o : Forall (fun r => index <= r.1) runs -> o < index ->
  existsb (fun r : Z * Z => within r.1 r.2 o) runs = false.
Proof.
  intros H Ho. induction H as [|r runs Hr _ IH]; [done|]. cbn [existsb]. rewrite IH, orb_false_r. unfold within.
  by destruct (Z.leb_spec r.1 o); [lia|].
Qed.

Lemma dirtyRuns_spec fuel words index :
  words_ok words -> 0 <= index <= kPageSize -> kPageSize - index < Z.of_nat fuel ->
  exists runs, dirtyRuns fuel words index = Some runs /\ Forall (fun r => index <= r.1) runs /\
    forall o, index <= o < kPageSize -> bitAt words o = existsb (fun r => within r.1 r.2 o) runs.
Proof.
  assert (kPageSize = 4096 /\ kDirtyWordBits = 64 /\ kDirtyWords = 64) as (Hps & Hwb & Hws) by done.
  intros Hw. revert index. induction fuel as [|fuel IH]; intros index Hi Hf; [lia|]. cbn [dirtyRuns].
  destruct (Z.leb_spec kPageSize index); [exists []; split_and!; [done|done|lia]|].
  pose proof (fun i => wordAt_bits words index i Hw ltac:(lia)) as Hbits. destruct (Hbits 0 ltac:(lia)) as [Hfit _].
  set (bit := index mod kDirtyWordBits) in *. set (pending := shr64 _ bit) in *.
  assert (0 <= bit < 64) as Hb by (apply Z.mod_pos_bound; done).
  destruct (Z.eqb_spec pending 0) as [Hz|Hz].
  - set (next := (index / kDirtyWordBits + 1) * kDirtyWordBits).
    assert (index + (64 - bit) = next /\ next <= kPageSize) as [Hnext Hle] by (subst bit next; rewrite Hps, Hwb in *; dlia).
    destruct (IH next) as (runs & Hr & Hlow & Hex); [lia..|]. exists runs. split; [done|].
    split; [eapply Forall_impl; [exact Hlow|]; intros r Hr'; cbn in *; lia|].
    intros o Ho. destruct (Z.lt_ge_cases o next); [|apply Hex; lia]. rewrite (runs_after runs next) by done.
    destruct (Hbits (o - index) ltac:(lia)) as (_ & Hbit & _). rewrite Hz, Z.testbit_0_l in Hbit.
    rewrite Hwb in Hbit. replace o with (index + (o - index)) by lia. symmetry. apply Hbit. lia.
  - destruct (countTrailingZeros_spec pending Hfit Hz) as (Hc & Hone & Hzero). set (skip := countTrailingZeros pending) in *.
    assert (bit + skip < 64) as Hlt.
    { destruct (Z.ltb_spec (bit + skip) 64); [done|]. destruct (Hbits skip ltac:(lia)) as (_ & _ & Hbit).
      rewrite Hbit in Hone; [done|]. by rewrite Hwb. }
    assert (index + skip < kPageSize) as Hstart by (subst bit; rewrite Hps, Hwb in *; dlia).
    destruct (runEnd_spec (S (Z.to_nat kDirtyWords)) words (index + skip)) as (stop & -> & Hstop & Hset & Hclear); [done|lia| |].
    { rewrite Hws, Hwb. rewrite Hps in *. dlia. }
    assert (index + skip < stop) as Hgo.
    { destruct (Z.eq_dec stop (index + skip)) as [->|]; [|lia]. destruct (Hbits skip ltac:(lia)) as (_ & Hbit & _).
      rewrite Hbit, Hclear in Hone by (done || lia). done. }
    destruct (IH stop) as (runs & Hr & Hlow & Hex); [lia..|]. cbn [mbind option_bind]. rewrite Hr. cbn [mbind option_bind].
    eexists. split; [done|]. split.
    { constructor; [cbn; lia|]. eapply Forall_impl; [exact Hlow|]. intros r Hr'; cbn in *; lia. }
    intros o Ho. cbn [existsb fst snd]. unfold within at 1.
    destruct (Z.leb_spec (index + skip) o), (Z.ltb_spec o (index + skip + (stop - (index + skip)))); cbn [andb orb]; try lia.
    + apply Hset. lia.
    + apply Hex. lia.
    + rewrite (runs_after runs stop) by (done || lia). destruct (Hbits (o - index) ltac:(lia)) as (_ & Hbit & _).
      rewrite Hzero in Hbit by lia. rewrite Hwb in Hbit. replace o with (index + (o - index)) by lia. symmetry. apply Hbit. lia.
Qed.

Section Safe.
Context (env : Embedder) (Henv : embedder_ok env).

(** Setting up a page of the table, new or not. *)
Lemma wp_setup s b q (u : bool -> GuestPage -> GuestPage) (Φ : unit -> GuestAddressSpace -> Prop) E :
  space_ok s -> pageAligned b -> guestPage_ok q -> dirtyListed q = false ->
  (forall i p, guestPage_ok p -> guestPage_ok (u i p) /\ dirtyListed (u i p) = dirtyListed p) ->
  (forall s', space_ok s' -> is_Some (table s' !! b) -> (forall b', is_Some (table s !! b') -> is_Some (table s' !! b')) -> Φ tt s') ->
  wp ('(node, inserted) ← emplacePage b q; modify node (u inserted);; g ← freshGeneration; modify node (fun p => withGeneration p g)) Φ E s.
Proof.
  intros Hs Hb Hq Hl Hu HΦ. apply wp_bind, wp_emplace; [done..| |].
  - intros node p Hn Hp. destruct (table_ok s b p Hs Hp) as (Hok & _). destruct (Hu false p Hok) as [? ?].
    apply (wp_restamp s b node p); [done..|]. intros s1 g Hs1 Ht1 _. apply HΦ; [done|rewrite Ht1, lookup_insert_eq; by eexists|].
    intros b' [p' Hp']. rewrite Ht1. destruct (decide (b' = b)) as [->|Hne]; [rewrite lookup_insert_eq; by eexists|].
    rewrite lookup_insert_ne by done. by exists p'.
  - intros node s1 _ Hs1 Ht1 Hp1 _. destruct (Hu true q Hq) as [? ?].
    apply (wp_restamp s1 b node q); [done|by rewrite Hp1, lookup_insert_eq|by rewrite Ht1, lookup_insert_eq|done|done|].
    intros s2 g Hs2 Ht2 _. apply HΦ; [done|rewrite Ht2, lookup_insert_eq; by eexists|].
    intros b' [p' Hp']. rewrite Ht2, Ht1. destruct (decide (b' = b)) as [->|Hne]; [rewrite lookup_insert_eq; by eexists|].
    rewrite !lookup_insert_ne by done. by exists p'.
Qed.

Lemma safe_map s a n perms : space_ok s -> fits 64 a -> 0 <= n -> safe (guestMap env a n perms) s.
Proof using Henv.
  intros Hs Ha Hn. unfold safe, guestMap. pose proof (embedder_canonical env Henv a Ha) as Hc. set (c := canonicalize env a) in *.
  destruct (Z.eqb_spec n 0) as [->|Hne]; [by apply wp_ret|]. destruct (wraps c n) eqn:Hw; [by apply wp_fail|].
  pose proof (wraps_false c n Hc ltac:(lia) Hw) as Hin.
  apply wp_bind, (wp_forPages _ _ _ (fun _ _ => space_ok)); [done|done| |].
  { intros pre b rest [] s1 _ _ _ _ Hs1. apply wp_bind, wp_ask. destruct (pages_ s1 !! b); [by apply wp_fail|by apply wp_ret]. }
  intros [] s1 Hs1. apply (wp_forPages _ _ _ (fun _ _ => space_ok)); [done|done| |done].
  intros pre b rest [] s2 _ _ Hal _ Hs2.
  apply (wp_setup s2 b emptyPage (fun _ p => withPermissions p perms)); [done|done|apply emptyPage_ok|done| |by intros s3 Hs3 _ _].
  intros i p Hp. split; [by apply withPermissions_ok|done].
Qed.

Lemma safe_seed s a bytes perms : space_ok s -> fits 64 a -> Forall (fits 8) bytes -> safe (guestSeed env a bytes perms) s.
Proof using Henv.
  intros Hs Ha Hb. unfold safe, guestSeed. pose proof (embedder_canonical env Henv a Ha) as Hc. set (c := canonicalize env a) in *.
  set (n := Z.of_nat (length bytes)). destruct (Z.eqb_spec n 0) as [Hz|Hne]; [by apply wp_ret|]. destruct (wraps c n) eqn:Hw; [by apply wp_fail|].
  pose proof (wraps_false c n Hc ltac:(lia) Hw) as Hin. apply wp_bind.
  apply (wp_forPages _ _ _ (fun pre _ s' => space_ok s' /\ forall b, b ∈ pre -> is_Some (table s' !! b))); [done| | |].
  - split; [done|]. intros b Hx. by apply not_elem_of_nil in Hx.
  - intros pre b rest [] s2 _ _ Hal _ [Hs2 Hpre].
    apply (wp_setup s2 b emptyPage (fun i p => withPermissions p (if (i : bool) then perms else Z.lor (pagePermissions p) perms)));
      [done|done|apply emptyPage_ok|done| |].
    + intros i p Hp. split; [by apply withPermissions_ok|done].
    + intros s3 Hs3 Hb3 Hold. split; [done|]. intros b' [Hx| ->%list_elem_of_singleton]%elem_of_app; [by apply Hold, Hpre|done].
  - intros [] s1 [Hs1 Hall]. apply wp_poke; [done|by intros _|done| |by intros s2 Hs2 _ _].
    intros i Hi. apply Hall, elem_of_rangePages; [done|]. by exists i.
Qed.

(** [ensure], then work on pages that are there. *)
Lemma wp_ensure_safe s a n q (Φ : unit -> GuestAddressSpace -> Prop) :
  space_ok s -> fits 64 a -> 0 < n ->
  (forall s', space_ok s' -> inSpace (canonicalize env a) n ->
     (forall b, b ∈ rangePages (canonicalize env a) n -> is_Some (table s' !! b)) -> Φ tt s') ->
  wp (ensure env (canonicalize env a) n q) Φ (fun _ => space_ok) s.
Proof using Henv.
  intros Hs Ha Hn HΦ. apply (wp_ensure env Henv s (canonicalize env a) n q); [done|by apply embedder_canonical|apply (embedder_idempotent env Henv)|done| |done].
  intros s1 Hs1 _ [Hin _] Hres. by apply HΦ.
Qed.

Lemma ensure_zero a q : ensure env a 0 q = mret tt.
Proof. done. Qed.

Lemma safe_protect s a n perms : space_ok s -> fits 64 a -> 0 <= n -> safe (guestProtect env a n perms) s.
Proof using Henv.
  intros Hs Ha Hn. unfold safe. destruct (Z.eq_dec n 0) as [->|Hne]; [unfold guestProtect; rewrite ensure_zero; by apply wp_bind, wp_ret, wp_ret|].
  unfold guestProtect. apply wp_bind, wp_ensure_safe; [done|done|lia|]. intros s1 Hs1 Hin Hres.
  replace (n =? 0) with false by lia.
  apply (wp_forPages _ _ _ (fun pre _ s' => space_ok s' /\ forall b, b ∈ rangePages (canonicalize env a) n -> is_Some (table s' !! b)));
    [done|done| |by intros [] s' [? _]].
  intros pre b rest [] s2 _ Hb Hal Hpre [Hs2 Hr2]. apply wp_bind, wp_ask. destruct (Hr2 b Hb) as [p Hp].
  destruct (table_Some s2 b p Hp) as (node & Hnode & _). rewrite Hnode. apply wp_bind.
  change (wp (gfail (ofOption (Some node))) ?P ?E s2) with (P node s2). cbv beta.
  destruct (table_ok s2 b p Hs2 Hp) as (Hok & _). apply (wp_restamp s2 b node p); [done..|by apply withPermissions_ok|done|].
  intros s3 g Hs3 Ht3 _. split; [done|]. intros b' Hb'. rewrite Ht3.
  destruct (decide (b' = b)) as [->|Hneq]; [rewrite lookup_insert_eq; by eexists|]. rewrite lookup_insert_ne by done. by apply Hr2.
Qed.

Lemma safe_unmap s a n : space_ok s -> fits 64 a -> 0 <= n -> safe (guestUnmap env a n) s.
Proof using Henv.
  intros Hs Ha Hn. unfold safe, guestUnmap. destruct (Z.eqb_spec n 0) as [->|Hne]; [by apply wp_ret|].
  apply wp_bind, wp_ensure_safe; [done|done|lia|]. intros s1 Hs1 Hin Hres. apply wp_bind, wp_put.
  apply (wp_forPages _ _ _ (fun _ _ s' => space_ok s' /\ cachePage s' = None)); [done| | |by intros [] s' [? _]].
  - split; [|done]. destruct Hs1. split; try done. by left.
  - intros pre b rest [] s2 _ _ _ _ [Hs2 Hc2]. apply wp_erase; [done..|]. by intros s3 Hs3 Hc3 _ _.
Qed.

Lemma safe_refresh s a n : space_ok s -> fits 64 a -> 0 <= n -> safe (refresh env a n) s.
Proof using Henv.
  intros Hs Ha Hn. unfold safe, refresh. destruct (provider env) as [provide|] eqn:Hpr; [|by apply wp_ret].
  destruct (Z.eqb_spec n 0) as [->|Hne]; [by apply wp_ret|]. pose proof (embedder_canonical env Henv a Ha) as Hc.
  destruct (wraps (canonicalize env a) n) eqn:Hw; [by apply wp_fail|].
  pose proof (wraps_false _ n Hc ltac:(lia) Hw) as Hin.
  apply (wp_forPages _ _ _ (fun _ _ => space_ok)); [done|done| |done].
  intros pre b rest [] s1 _ _ Hal _ Hs1. apply wp_bind, wp_lookup; [done|]. intros s2 Hs2 Ht2 Hp2 _.
  destruct (pages_ s1 !! b) as [node|] eqn:Hn1; [|by apply wp_ret].
  destruct (table_node s2 b node Hs2 ltac:(by rewrite Hp2)) as (p & _ & Hp). apply wp_bind.
  destruct (provide b) as [[sd|]|d|] eqn:Hsd.
  - change (wp (gfail (Ok (Some sd))) ?P ?E s2) with (P (Some sd) s2). cbv beta.
    destruct (table_ok s2 b p Hs2 Hp) as (Hok & _). apply (wp_restamp s2 b node p); [done|by rewrite Hp2|done| |done|by intros s3 g Hs3 _ _].
    apply withPermissions_ok, withBytes_ok; [done|]. by eapply embedder_seeds.
  - change (wp (gfail (Ok (@None PageSeed))) ?P ?E s2) with (P None s2). by apply wp_ret.
  - by apply wp_fail.
  - pose proof (embedder_good env Henv provide b Hpr) as Hg. by rewrite Hsd in Hg.
Qed.

Lemma safe_readBytes s a n q : space_ok s -> fits 64 a -> 0 <= n -> safe (guestReadBytes env a n q) s.
Proof using Henv.
  intros Hs Ha Hn. unfold safe. destruct (Z.eq_dec n 0) as [->|Hne].
  - unfold guestReadBytes. cbn [negb andb]. by apply wp_bind, wp_ret, wp_ret.
  - apply wp_readBytes; [done..|lia| |]; by intros.
Qed.

Lemma safe_writeBytes s a bytes : space_ok s -> fits 64 a -> Forall (fits 8) bytes -> safe (guestWriteBytes env a bytes) s.
Proof using Henv.
  intros Hs Ha Hb. unfold safe. destruct bytes as [|byte rest]; [by apply wp_ret|].
  apply wp_writeBytes; [done..|cbn; lia| |]; by intros.
Qed.

(** The search of [readResidentBytes]. *)
Lemma wp_allResident s fuel first last (Φ : bool -> GuestAddressSpace -> Prop) E :
  space_ok s -> fits 64 first -> last = first + kPageSize * Z.of_nat fuel -> fits 64 last ->
  (forall s', space_ok s' -> table s' = table s -> Φ false s') ->
  (forall s', space_ok s' -> table s' = table s -> (forall b, b ∈ pageList first (S fuel) -> is_Some (table s !! b)) -> Φ true s') ->
  wp (allResident fuel first last) Φ E s.
Proof.
  revert s first. induction fuel as [|fuel IH]; intros s first Hs Hf Hlast Hfl Hno Hyes; cbn [allResident];
    (apply wp_bind, wp_lookup; [done|]; intros s1 Hs1 Ht1 Hp1 _; destruct (pages_ s !! first) as [node|] eqn:Hb; [|by apply wp_ret, Hno]);
    destruct (table_node s first node Hs Hb) as (p & _ & Hp).
  - replace (first =? last) with true by lia. apply wp_ret, Hyes; [done|done|]. intros b [->|Hx]%elem_of_cons; [by exists p|by apply not_elem_of_nil in Hx].
  - replace (first =? last) with false by (unfold kPageSize, kPageBits in *; lia).
    assert (add64 first kPageSize = first + kPageSize) as ->.
    { apply u64_small. unfold fits, kPageSize, kPageBits in *. lia. }
    apply (IH s1 (first + kPageSize)); [done|unfold fits, kPageSize, kPageBits in *; lia|lia|done| |].
    + intros s2 Hs2 Ht2. apply Hno; [done|congruence].
    + intros s2 Hs2 Ht2 Hall. apply Hyes; [done|congruence|]. intros b [->|Hx]%elem_of_cons; [by exists p|]. rewrite <-Ht1. by apply Hall.
Qed.

Lemma safe_readResident s a n : space_ok s -> fits 64 a -> 0 <= n -> safe (guestReadResident env a n) s.
Proof using Henv.
  intros Hs Ha Hn. unfold safe, guestReadResident. destruct (Z.eqb_spec n 0) as [->|Hne]; [by apply wp_ret|].
  pose proof (embedder_canonical env Henv a Ha) as Hc. set (c := canonicalize env a) in *.
  destruct (wraps c n) eqn:Hw; [by apply wp_ret|]. pose proof (wraps_false c n Hc ltac:(lia) Hw) as Hin.
  destruct (range_bounds c n Hin) as (Hf & Hlast & Hfl & Hpages). apply wp_bind, (wp_allResident s _ (pageBase c)); try done.
  intros s1 Hs1 Ht1 Hall. rewrite <-Hpages in Hall. apply wp_bind, (wp_copyOut env); [done|lia|by intros _| |lia|].
  - intros i Hi. rewrite Ht1. apply Hall, elem_of_rangePages; [done|]. by exists i.
  - intros s2 Hs2 _ _ _. by apply wp_ret.
Qed.

Lemma safe_note s a n w v : space_ok s -> safe (note env a n w v) s.
Proof. intros Hs. apply wp_note; [done|]. by intros. Qed.

Lemma safe_read s a n : space_ok s -> fits 64 a -> 0 <= n -> safe (guestRead env a n) s.
Proof using Henv.
  intros Hs Ha Hn. unfold safe, guestRead. destruct (_ || _); [by apply wp_fail|]. apply wp_bind.
  eapply wp_mono; [by apply safe_readBytes| |done]. intros bytes s1 Hs1. apply wp_bind.
  eapply wp_mono; [by apply safe_note| |done]. intros [] s2 Hs2. by apply wp_ret.
Qed.

Lemma safe_write s a n v : space_ok s -> fits 64 a -> safe (guestWrite env a n v) s.
Proof using Henv.
  intros Hs Ha. unfold safe, guestWrite. destruct (_ || _); [by apply wp_fail|]. apply wp_bind.
  eapply wp_mono; [apply safe_writeBytes; [done|done|]| |done].
  - apply Forall_fmap, Forall_true. intros k. apply valueByte_fits.
  - intros [] s1 Hs1. by apply safe_note.
Qed.

Lemma safe_generationAt s a : space_ok s -> safe (generationAt env a) s.
Proof.
  intros Hs. unfold safe, generationAt, guestPageAt. apply wp_bind, wp_lookup; [done|]. intros s1 Hs1 Ht1 Hp1 _.
  destruct (pages_ s !! _) as [node|] eqn:Hn; [|by apply wp_ret].
  rewrite <-Hp1 in Hn. destruct (table_node s1 _ node Hs1 Hn) as (p & _ & Hp).
  by apply wp_bind, (wp_deref s1 (pageBase (canonicalize env a)) node p).
Qed.

(** [clearDirty] of some of the listed pages. *)
Lemma wp_clearPages s bases (Φ : unit -> GuestAddressSpace -> Prop) E :
  space_ok s ->
  (forall s', space_ok s' -> dirtyPages_ s' = dirtyPages_ s ->
     (forall b p', table s' !! b = Some p' -> exists p, table s !! b = Some p /\ pageBytes p' = pageBytes p /\
        pagePermissions p' = pagePermissions p /\
        (b ∈ bases -> dirtyListed p' = false) /\ (b ∉ bases -> p' = p)) -> Φ tt s') ->
  wp (clearPages bases) Φ E s.
Proof.
  revert s. induction bases as [|b bases IH]; intros s Hs HΦ; cbn [clearPages].
  { apply wp_ret, HΦ; [done..|]. intros b p Hp. exists p. split_and!; try done. by intros ?%not_elem_of_nil. }
  apply wp_bind, wp_lookup; [done|]. intros s1 Hs1 Ht1 Hp1 Hf1. apply wp_bind.
  assert (forall s2 : GuestAddressSpace, space_ok s2 -> dirtyPages_ s2 = dirtyPages_ s ->
    (forall b' p2, table s2 !! b' = Some p2 -> exists p, table s !! b' = Some p /\ pageBytes p2 = pageBytes p /\
       pagePermissions p2 = pagePermissions p /\ (b' = b -> dirtyListed p2 = false) /\ (b' <> b -> p2 = p)) ->
    wp (clearPages bases) Φ E s2) as Hrest.
  { intros s2 Hs2 Hd2 H2. apply IH; [done|]. intros s3 Hs3 Hd3 H3. apply HΦ; [done|congruence|]. intros b' p3 Hp3.
    destruct (H3 b' p3 Hp3) as (p2 & Hp2 & Hb3 & Hq3 & Hin3 & Hout3). destruct (H2 b' p2 Hp2) as (p & Hp & Hb2 & Hq2 & Hin2 & Hout2).
    exists p. split; [done|]. split; [congruence|]. split; [congruence|]. rewrite elem_of_cons. split.
    - intros [->|Hx]; [|by apply Hin3]. destruct (decide (b ∈ bases)) as [Hx|Hx]; [by apply Hin3|]. rewrite (Hout3 Hx). by apply Hin2.
    - intros Hno. assert (b' <> b /\ b' ∉ bases) as [Hx Hy] by tauto. by rewrite (Hout3 Hy), (Hout2 Hx). }
  destruct Hf1 as (Hd1 & _). destruct (pages_ s !! b) as [node|] eqn:Hn.
  - destruct (table_node s b node Hs Hn) as (p & _ & Hp). destruct (table_ok s b p Hs Hp) as ([Hbo _ _] & _).
    apply (wp_modify s1 b node p); [done|by rewrite Hp1|by rewrite Ht1|split; [done|apply cleanDirty_ok|done]|done|].
    intros s2 Hs2 Ht2 _ (Hd2 & _). apply Hrest; [done|congruence|]. intros b' p2. rewrite Ht2, Ht1.
    intros [[<- <-]|[Hne Hp2]]%lookup_insert_Some; [exists p|exists p2]; by split_and!.
  - apply wp_ret, Hrest; [done|done|]. intros b' p2 Hp2. rewrite Ht1 in Hp2. exists p2. split_and!; try done.
    intros ->. apply table_None in Hn; [|done]. congruence.
Qed.

Lemma safe_clearDirty s : space_ok s -> safe clearDirty s.
Proof.
  intros Hs. unfold safe, clearDirty. apply wp_bind, wp_ask, wp_bind, wp_clearPages; [done|]. intros s1 Hs1 Hd1 H1.
  apply wp_put. destruct Hs1 as [Hal Hv Hi Hf Hc]. split; try done. intros b node Hb. destruct (Hv b node Hb) as (p & Hp & Hok & Hl).
  exists p. split; [done|]. split; [done|]. intros Hlisted. exfalso.
  destruct (H1 b p) as (q & _ & _ & _ & Hin & _).
  - cbn in Hb, Hp. rewrite table_lookup, Hb. exact Hp.
  - rewrite Hin in Hlisted; [done|]. rewrite <-Hd1. by apply Hl.
Qed.

Lemma safe_dirtyFrom s rs bases : space_ok s -> safe (dirtyFrom rs bases) s.
Proof.
  revert s rs. induction bases as [|b bases IH]; intros s rs Hs; unfold safe; cbn [dirtyFrom]; [by apply wp_ret|].
  apply wp_bind, wp_lookup; [done|]. intros s1 Hs1 Ht1 Hp1 _. destruct (pages_ s !! b) as [node|] eqn:Hn; [|by apply IH].
  destruct (table_node s1 b node Hs1 ltac:(by rewrite Hp1)) as (p & _ & Hp).
  apply wp_bind, (wp_deref s1 b node p); [done|by rewrite Hp1|done|].
  destruct (dirtyRuns_spec (S (Z.to_nat kPageSize)) (dirty p) 0) as (runs & -> & _); [|done..|].
  { by destruct (table_ok s1 b p Hs1 Hp) as ([_ Hd _] & _). }
  apply wp_bind. change (wp (gfail (ofOption (Some runs))) ?P ?E s1) with (P runs s1). by apply IH.
Qed.

Lemma safe_apply s patches : space_ok s -> Forall patch_ok patches -> safe (apply env patches) s.
Proof using Henv.
  intros Hs Hps. unfold safe, apply, validate. apply wp_bind. eapply wp_mono; [by apply wp_validateFrom| |by intros d s1 [? _]].
  intros [] s1 Hval. cbv beta in Hval. eapply wp_mono; [apply (validated_apply _ _ _ _ _ Hval s1 (viewOf (table s1))); [apply Hval|by intros b|by split]|by intros [] s2 []|done].
Qed.

(** What an image gives: all the bytes asked for, or a diagnostic. *)
Definition image_ok (imageRead : Z -> Z -> Res (list Z)) : Prop :=
  forall va n, match imageRead va n with
    | Ok bytes => Forall (fits 8) bytes /\ Z.of_nat (length bytes) = n
    | Err _ => True
    | Undefined => False
    end.

Lemma safe_seedRegion imageRead fuel va size perms offset s :
  image_ok imageRead -> 0 <= offset -> size - offset <= kPageSize * Z.of_nat fuel -> space_ok s ->
  safe (seedRegion env fuel imageRead va size perms offset) s.
Proof using Henv.
  intros Him. revert offset s. induction fuel as [|fuel IH]; intros offset s Ho Hf Hs; unfold safe; cbn [seedRegion];
    (destruct (Z.ltb_spec offset size); cbn [negb]; [|by apply wp_ret]); [lia|].
  specialize (Him (add64 va offset) (Z.min kPageSize (size - offset))). apply wp_bind.
  destruct (imageRead _ _) as [bytes|d|]; [|by apply wp_fail|done]. destruct Him as [Hb _].
  change (wp (gfail (Ok bytes)) ?P ?E s) with (P bytes s). cbv beta. apply wp_bind.
  eapply wp_mono; [apply safe_seed; [done|apply fits_u64|done]| |done]. intros [] s1 Hs1.
  apply IH; [unfold kPageSize, kPageBits in *; lia..|done].
Qed.

Lemma safe_seedImage imageRead regions s :
  image_ok imageRead -> Forall (fun region => 0 <= region.1.2) regions -> space_ok s ->
  safe (seedImage env imageRead regions) s.
Proof using Henv.
  intros Him Hr Hs. unfold safe, seedImage. apply wp_bind. assert (safe (seedRegions env imageRead regions) s) as Hreg.
  { revert s Hs. induction Hr as [|[[va size] perms] regions Hsize _ IH]; intros s Hs; unfold safe; cbn [seedRegions]; [by apply wp_ret|].
    apply wp_bind. eapply wp_mono; [apply safe_seedRegion; [done|done| |done]|intros [] s1; apply IH|done].
    cbn in Hsize. unfold kPageSize, kPageBits. dlia. }
  eapply wp_mono; [exact Hreg|intros [] s1; exact (safe_clearDirty s1)|done].
Qed.

(** ** Operations *)

Inductive Operation : Type :=
  | OpMap (address size permissions : Z) | OpSeed (address : Z) (bytes : list Z) (permissions : Z)
  | OpProtect (address size permissions : Z) | OpUnmap (address size : Z) | OpRefresh (address size : Z)
  | OpReadBytes (address size permission : Z) | OpReadResident (address size : Z) | OpWriteBytes (address : Z) (bytes : list Z)
  | OpRead (address bytes : Z) | OpWrite (address bytes : Z) (value : ConcreteValue)
  | OpValidate (patches : list MemoryPatch) | OpApply (patches : list MemoryPatch)
  | OpDirtyRanges | OpClearDirty | OpGenerationAt (address : Z) | OpSetContext (pc : Z)
  | OpSeedImage (imageRead : Z -> Z -> Res (list Z)) (regions : list (Z * Z * Z)).

Definition discard {A} (m : G A) : G unit := m;; mret tt.

(** What a call of the operation does. *)
Definition perform (o : Operation) : G unit :=
  match o with
  | OpMap a n p => guestMap env a n p
  | OpSeed a bytes p => guestSeed env a bytes p
  | OpProtect a n p => guestProtect env a n p
  | OpUnmap a n => guestUnmap env a n
  | OpRefresh a n => refresh env a n
  | OpReadBytes a n q => discard (guestReadBytes env a n q)
  | OpReadResident a n => discard (guestReadResident env a n)
  | OpWriteBytes a bytes => guestWriteBytes env a bytes
  | OpRead a n => discard (guestRead env a n)
  | OpWrite a n v => guestWrite env a n v
  | OpValidate patches => validate env patches
  | OpApply patches => apply env patches
  | OpDirtyRanges => discard dirtyRanges
  | OpClearDirty => clearDirty
  | OpGenerationAt a => discard (generationAt env a)
  | OpSetContext pc => gput (setInstructionContext pc)
  | OpSeedImage imageRead regions => seedImage env imageRead regions
  end.

(** Arguments of their C++ types, and an image that reads what it is asked for. *)
Definition operation_ok (o : Operation) : Prop :=
  match o with
  | OpMap a n _ | OpProtect a n _ | OpUnmap a n | OpRefresh a n | OpReadBytes a n _ | OpReadResident a n | OpRead a n =>
      fits 64 a /\ 0 <= n
  | OpSeed a bytes _ | OpWriteBytes a bytes => fits 64 a /\ Forall (fits 8) bytes
  | OpWrite a _ _ | OpGenerationAt a => fits 64 a
  | OpValidate patches | OpApply patches => Forall patch_ok patches
  | OpSeedImage imageRead regions => image_ok imageRead /\ Forall (fun region => 0 <= region.1.2) regions
  | _ => True
  end.

Lemma safe_discard {A} (m : G A) s : safe m s -> safe (discard m) s.
Proof. intros H. apply wp_bind. eapply wp_mono; [exact H| |done]. intros x s' Hs'. by apply wp_ret. Qed.

Lemma perform_safe o s : space_ok s -> operation_ok o -> safe (perform o) s.
Proof using Henv.
  intros Hs. destruct o; cbn [operation_ok perform]; intros Ho; try destruct Ho as [Ha Hn]; try apply safe_discard.
  - by apply safe_map.
  - by apply safe_seed.
  - by apply safe_protect.
  - by apply safe_unmap.
  - by apply safe_refresh.
  - by apply safe_readBytes.
  - by apply safe_readResident.
  - by apply safe_writeBytes.
  - by apply safe_read.
  - by apply safe_write.
  - eapply wp_mono; [by apply wp_validateFrom|intros [] s1 Hv; apply Hv|by intros d s1 [? _]].
  - by apply safe_apply.
  - unfold safe, dirtyRanges. apply wp_bind, wp_ask. by apply safe_dirtyFrom.
  - by apply safe_clearDirty.
  - by apply safe_generationAt.
  - apply wp_put. by destruct Hs.
  - by apply safe_seedImage.
Qed.
End Safe.

(** A call, whatever its outcome; the canonicalizer, the provider and what the
    provider gives may have been changed since the call before. *)
Inductive guest_step (s s' : GuestAddressSpace) : Prop :=
  | guest_call env o r : embedder_ok env -> operation_ok o -> perform env o s = (r, s') -> guest_step s s'.

(** C32 The guest address space is never left malformed: after any sequence of
    calls on a new one, failing calls included, the page table, its nodes and the
    page cache are consistent (the cache points to the entry it names), and the
    next call, whatever it is, returns a value or a diagnostic: it dereferences no
    null page, follows no dangling pointer and always ends, the scan for dirty
    ranges included. The canonicalizer and the provider may be replaced, and the
    provider change what it supplies, from one call to the next. Assumed of them at
    each call ([embedder_ok]): the canonical form of an address is one, is its own
    canonical form and keeps the place in the page; the provider fills whole pages
    with bytes or gives a diagnostic. Arguments have their C++ types, and an image
    that is seeded reads the bytes it is asked for or fails. *)
Theorem guest_always_consistent env s o :
  rtc guest_step newSpace s -> embedder_ok env -> operation_ok o ->
  space_ok s /\ exists r s', perform env o s = (r, s') /\ r <> Undefined /\ space_ok s'.
Proof.
  intros Hr Henv Ho. assert (space_ok s) as Hs.
  { remember newSpace as s0 eqn:E. assert (space_ok s0) as H0 by (rewrite E; apply newSpace_ok). clear E.
    induction Hr as [s|s1 s2 s3 [env' o' r Henv' Ho' Hp] _ IH]; [done|]. apply IH. pose proof (perform_safe env' Henv' o' s1 H0 Ho') as Hsafe.
    unfold safe, wp in Hsafe. rewrite Hp in Hsafe. by destruct r. }
  split; [done|]. destruct (wp_total _ _ _ _ (perform_safe env Henv o s Hs Ho)) as [(x & s' & Hp & Hs')|(d & s' & Hp & Hs')];
    by eexists _, s'.
Qed.
