(* ===== verification/PltStub.v ===== *)
(** * Calls that never return (analysis/plt_stub.cpp, analysis/noreturn.cpp)

    The scan of the lifter asks whether a call's target is an AArch64 PLT stub
    bound to a function known not to return. What the image can say, the bytes and
    the loader's values, are parameters. *)
From S2P Require Import Prelude Bits.
Local Open Scope Z_scope.

(** [ByteReader]: as many bytes as asked for, or none. *)
Definition ByteReader : Type := Z -> nat -> option (list Z).

(** The one of the [MemoryFacts] asked for here: the name of the symbol the
    loader fills a slot from, empty for none. *)
Definition LoaderNames : Type := Z -> string.

(** ** Words of a stub *)

Definition byteOr (bytes : list Z) (index : Z) (word : Z) : Z :=
  Z.lor (u32 (Z.shiftl word 8)) (default 0 (bytes !! Z.to_nat index)).

Definition loadWordLe (bytes : list Z) (wordIndex : Z) : Z :=
  byteOr bytes (wordIndex * 4) (byteOr bytes (wordIndex * 4 + 1) (byteOr bytes (wordIndex * 4 + 2) (byteOr bytes (wordIndex * 4 + 3) 0))).

Definition field (word high low : Z) : Z := Z.land (Z.shiftr word low) (2 ^ (high - low + 1) - 1).

Definition isAdrp (word : Z) : bool := (field word 31 31 =? 1) && (field word 28 24 =? 16).

(** Sign-extended from 21 bits, in pages. *)
Definition adrpPageOffset (word : Z) : Z :=
  let immlo := field word 30 29 in
  let immhi := field word 23 5 in
  let imm21 := Z.lor (u32 (Z.shiftl immhi 2)) immlo in
  let signExtended := Z.shiftr (signed 32 (u32 (Z.shiftl imm21 11))) 11 in
  Z.shiftl signExtended 12.

Definition adrpDestReg (word : Z) : Z := field word 4 0.

Definition isLdrUnsignedOffset64 (word : Z) : bool :=
  (field word 31 30 =? 3) && (field word 29 27 =? 7) && (field word 26 26 =? 0) && (field word 25 24 =? 1) &&
  (field word 23 22 =? 1).

Definition ldrBaseReg (word : Z) : Z := field word 9 5.
Definition ldrByteOffset (word : Z) : Z := field word 21 10 * 8.

(** ** The slot, the name and the answer *)

Definition pltGotSlot (reader : ByteReader) (stubVa : Z) : option Z :=
  bytes ← reader stubVa 8%nat;
  let adrp := loadWordLe bytes 0 in
  let ldr := loadWordLe bytes 1 in
  if negb (isAdrp adrp) || negb (isLdrUnsignedOffset64 ldr) then None
  else if negb (ldrBaseReg ldr =? adrpDestReg adrp) then None
  else
    let page := add64 (Z.land stubVa (not64 0xfff)) (u64 (adrpPageOffset adrp)) in
    Some (add64 page (ldrByteOffset ldr)).

Definition importNameForPltStub (stubVa : Z) (reader : ByteReader) (facts : LoaderNames) : option string :=
  got ← pltGotSlot reader stubVa;
  let bound := facts got in
  if String.eqb bound "" then None else Some bound.

Definition kNoreturnSymbols : list string :=
  ["__stack_chk_fail"; "abort"; "exit"; "_exit"; "__assert_fail"; "__assert2"; "quick_exit"; "longjmp"]%string.

Definition isKnownNoreturnSymbol (name : string) : bool := existsb (String.eqb name) kNoreturnSymbols.

Definition isNoreturnCallTarget (target : Z) (reader : ByteReader) (facts : LoaderNames) : bool :=
  match importNameForPltStub target reader facts with
  | Some imported => isKnownNoreturnSymbol imported
  | None => false
  end.

(** ** The stub a linker writes *)

(** [adrp x(rd), page] for a page [delta] pages away; [ldr x(rt), [x(rn), offset]]. *)
Definition encodeAdrp (rd delta : Z) : Z :=
  2 ^ 31 + (delta mod 4) * 2 ^ 29 + 16 * 2 ^ 24 + (delta mod 2 ^ 21 / 4) * 2 ^ 5 + rd.
Definition encodeLdr (rt rn offset : Z) : Z := 0xF9400000 + (offset / 8) * 2 ^ 10 + rn * 2 ^ 5 + rt.

Definition wordBytes (word : Z) : list Z :=
  [word mod 256; word / 2 ^ 8 mod 256; word / 2 ^ 16 mod 256; word / 2 ^ 24 mod 256].

Lemma field_div word high low : 0 <= low <= high -> field word high low = word / 2 ^ low mod 2 ^ (high - low + 1).
Proof.
  intros H. unfold field. rewrite Z.shiftr_div_pow2 by lia. replace (2 ^ (high - low + 1) - 1) with (Z.ones (high - low + 1)) by (rewrite Z.ones_equiv; lia).
  by rewrite Z.land_ones by lia.
Qed.

Lemma lor_shift a b n : fits n b -> 0 <= n -> Z.lor (Z.shiftl a n) b = a * 2 ^ n + b.
Proof.
  intros Hb Hn. rewrite Z.lor_comm, lor_add_shiftl by done. lia.
Qed.

Lemma load_bytes b0 b1 b2 b3 :
  fits 8 b0 -> fits 8 b1 -> fits 8 b2 -> fits 8 b3 ->
  Z.lor (u32 (Z.shiftl (Z.lor (u32 (Z.shiftl (Z.lor (u32 (Z.shiftl (Z.lor (u32 (Z.shiftl 0 8)) b3) 8)) b2) 8)) b1) 8)) b0 =
  ((b3 * 256 + b2) * 256 + b1) * 256 + b0.
Proof.
  intros H0 H1 H2 H3.
  assert (forall a b, 0 <= a < 2 ^ 24 -> fits 8 b -> Z.lor (u32 (Z.shiftl a 8)) b = a * 256 + b) as Hstep.
  { intros a b Ha Hb. unfold u32. rewrite Z.mod_small by (rewrite Z.shiftl_mul_pow2; lia). by rewrite lor_shift. }
  unfold fits in *. rewrite (Hstep 0 b3), (Hstep (0 * 256 + b3) b2), (Hstep ((0 * 256 + b3) * 256 + b2) b1), Hstep by lia. lia.
Qed.

Lemma load_words w1 w2 : fits 32 w1 -> fits 32 w2 ->
  loadWordLe (wordBytes w1 ++ wordBytes w2) 0 = w1 /\ loadWordLe (wordBytes w1 ++ wordBytes w2) 1 = w2.
Proof.
  intros H1 H2.
  assert (forall w, fits 32 w -> ((w / 2 ^ 24 mod 256 * 256 + w / 2 ^ 16 mod 256) * 256 + w / 2 ^ 8 mod 256) * 256 + w mod 256 = w) as Hw.
  { intros w Hw. assert (w / 2 ^ 16 = w / 2 ^ 8 / 2 ^ 8) as -> by (by rewrite Z.div_div by lia).
    assert (w / 2 ^ 24 = w / 2 ^ 8 / 2 ^ 8 / 2 ^ 8) as -> by (by rewrite !Z.div_div by lia). unfold fits in Hw. dlia. }
  split; unfold loadWordLe, byteOr; cbn [wordBytes app Z.mul Z.add]; cbn -[Z.lor Z.shiftl Z.div Z.modulo u32 Z.pow];
    rewrite load_bytes by (apply fits_mod; lia); by apply Hw.
Qed.

(** ** Properties *)

(** C40 A stub's slot is the one it loads from: for the pair of instructions a
    linker writes for a slot aligned to eight bytes and within reach of the
    stub's page, [pltGotSlot] returns that slot, whatever registers are used; and
    where the second instruction loads through another register it returns none. *)
Theorem plt_stub_roundtrip reader stubVa got rd rn rt :
  let delta := got / 4096 - stubVa / 4096 in
  fits 64 stubVa -> fits 64 got -> got mod 8 = 0 -> - 2 ^ 20 <= delta < 2 ^ 20 -> fits 5 rd -> fits 5 rn -> fits 5 rt ->
  reader stubVa 8%nat = Some (wordBytes (encodeAdrp rd delta) ++ wordBytes (encodeLdr rt rn (got mod 4096))) ->
  pltGotSlot reader stubVa = if rn =? rd then Some got else None.
Proof.
  intros delta Hs Hg H8 Hd Hrd Hrn Hrt Hread. unfold fits in *. unfold pltGotSlot. rewrite Hread. cbn [mbind option_bind].
  assert (0 <= got mod 4096 < 4096) as Ho by (apply Z.mod_pos_bound; lia).
  destruct (load_words (encodeAdrp rd delta) (encodeLdr rt rn (got mod 4096))) as [-> ->].
  { unfold fits, encodeAdrp. clearbody delta. dlia. }
  { unfold fits, encodeLdr. dlia. }
  assert (isAdrp (encodeAdrp rd delta) = true) as ->.
  { unfold isAdrp. rewrite !field_div by lia. unfold encodeAdrp. clearbody delta.
    apply andb_true_iff; rewrite !Z.eqb_eq; split; dlia. }
  assert (isLdrUnsignedOffset64 (encodeLdr rt rn (got mod 4096)) = true) as ->.
  { unfold isLdrUnsignedOffset64. rewrite !field_div by lia. unfold encodeLdr. generalize dependent (got mod 4096). intros o Ho.
    rewrite !andb_true_iff, !Z.eqb_eq. repeat split; dlia. }
  assert (ldrBaseReg (encodeLdr rt rn (got mod 4096)) = rn) as ->.
  { unfold ldrBaseReg. rewrite field_div by lia. unfold encodeLdr. generalize dependent (got mod 4096). intros o Ho. dlia. }
  assert (adrpDestReg (encodeAdrp rd delta) = rd) as ->.
  { unfold adrpDestReg. rewrite field_div by lia. unfold encodeAdrp. clearbody delta. dlia. }
  cbn [negb orb]. destruct (rn =? rd); cbn [negb]; [|done]. f_equal.
  assert (adrpPageOffset (encodeAdrp rd delta) = delta * 4096) as ->.
  { unfold adrpPageOffset. rewrite !field_div by lia.
    assert (encodeAdrp rd delta / 2 ^ 29 mod 2 ^ (30 - 29 + 1) = delta mod 4) as -> by (unfold encodeAdrp; clearbody delta; dlia).
    assert (encodeAdrp rd delta / 2 ^ 5 mod 2 ^ (23 - 5 + 1) = delta mod 2 ^ 21 / 4) as -> by (unfold encodeAdrp; clearbody delta; dlia).
    assert (Z.lor (u32 (Z.shiftl (delta mod 2 ^ 21 / 4) 2)) (delta mod 4) = delta mod 2 ^ 21) as ->.
    { unfold u32. rewrite Z.mod_small by (rewrite Z.shiftl_mul_pow2 by lia; clearbody delta; dlia).
      rewrite lor_shift by (unfold fits; dlia). clearbody delta. dlia. }
    rewrite Z.shiftl_mul_pow2, Z.shiftr_div_pow2, Z.shiftl_mul_pow2 by lia. unfold signed, u32. clearbody delta. case_match; dlia. }
  assert (ldrByteOffset (encodeLdr rt rn (got mod 4096)) = got mod 4096) as ->.
  { unfold ldrByteOffset. rewrite field_div by lia. unfold encodeLdr.
    assert (got mod 4096 mod 8 = 0) by (clear - H8; dlia). generalize dependent (got mod 4096). intros o Ho ?. dlia. }
  assert (Z.land stubVa (not64 0xfff) = stubVa / 4096 * 4096) as ->.
  { clear - Hs. apply Z.bits_inj'. intros i Hi. rewrite Z.land_spec. change (not64 0xfff) with (Z.shiftl (Z.ones 52) 12).
    rewrite Z.shiftl_spec, <- (Z.shiftl_mul_pow2 _ 12), <- (Z.shiftr_div_pow2 _ 12), Z.shiftl_spec by lia.
    destruct (Z.ltb_spec i 12); [rewrite !(Z.testbit_neg_r _ (i - 12)) by lia; apply andb_false_r|].
    rewrite Z.shiftr_spec by lia. replace (i - 12 + 12) with i by lia. destruct (Z.ltb_spec i 64).
    - rewrite Z.ones_spec_low by lia. apply andb_true_r.
    - by rewrite (testbit_high 64 stubVa) by (done || lia). }
  unfold add64, u64. replace (got mod 4096) with (got - got / 4096 * 4096) by (clear; dlia). unfold delta. clear -Hg Hs.
  generalize (got / 4096) (stubVa / 4096). intros a b. rewrite <- (Z.mod_small got (2 ^ 64)) at 2 by lia. rewrite !Zplus_mod_idemp_r, Zplus_mod_idemp_l. f_equal. lia.
Qed.
