(* ===== verification/Program.v ===== *)
(** * The compiled form of a specification (spec/program.h, spec/program.cpp, spec/encoding.h)

    The bytecode's opcodes and instructions, bodies, encoding patterns and the
    program they make up. Opcodes, sub-operations and styles are stored as the
    bytes the C++ enumerations have under them, because a program may come from a
    file: [enumAt] gives what a [switch] over them sees. *)
From S2P Require Import Prelude Bits Types Exprs Registers.

(** ** Opcodes *)

Module Opcode.
Inductive Opcode : Set :=
  | Halt | ConstInt | Field | InsnPc | InsnLen | Opword | IntUnary | IntBinary | IntSelect
  | SExtInt | OnesInt | HighestBitInt | RorInt | ReplicateInt | Move | Jump | JumpIfZero
  | Return | CallFn | Imm | Undef | ExprUnary | ExprBinary | Cast | Extract | Concat | Select
  | FlagDef | FlagCond | FlagBit | ReadReg | WriteReg | Load | Store | Branch | CondBranch
  | IndirectBranch | CallAddr | IndirectCall | Ret | Nop | Unreachable | Intrinsic
  | Unimplemented.
End Opcode.
Abbreviation Opcode := Opcode.Opcode.

#[export] Instance Opcode_eq_dec : EqDecision Opcode.
Proof. solve_decision. Defined.

Definition opcodes : list Opcode :=
  [
   Opcode.Halt; Opcode.ConstInt; Opcode.Field; Opcode.InsnPc; Opcode.InsnLen; Opcode.Opword;
   Opcode.IntUnary; Opcode.IntBinary; Opcode.IntSelect; Opcode.SExtInt; Opcode.OnesInt;
   Opcode.HighestBitInt; Opcode.RorInt; Opcode.ReplicateInt; Opcode.Move; Opcode.Jump;
   Opcode.JumpIfZero; Opcode.Return; Opcode.CallFn; Opcode.Imm; Opcode.Undef; Opcode.ExprUnary;
   Opcode.ExprBinary; Opcode.Cast; Opcode.Extract; Opcode.Concat; Opcode.Select;
   Opcode.FlagDef; Opcode.FlagCond; Opcode.FlagBit; Opcode.ReadReg; Opcode.WriteReg;
   Opcode.Load; Opcode.Store; Opcode.Branch; Opcode.CondBranch; Opcode.IndirectBranch;
   Opcode.CallAddr; Opcode.IndirectCall; Opcode.Ret; Opcode.Nop; Opcode.Unreachable;
   Opcode.Intrinsic; Opcode.Unimplemented ].

Definition opcodeToString (o : Opcode) : string :=
  match o with
  | Opcode.Halt => "halt" | Opcode.ConstInt => "const" | Opcode.Field => "field"
  | Opcode.InsnPc => "insn_pc" | Opcode.InsnLen => "insn_len" | Opcode.Opword => "opcode"
  | Opcode.IntUnary => "iunary" | Opcode.IntBinary => "ibinary" | Opcode.IntSelect => "iselect"
  | Opcode.SExtInt => "sextint" | Opcode.OnesInt => "ones_int"
  | Opcode.HighestBitInt => "highestbit_int" | Opcode.RorInt => "ror_int"
  | Opcode.ReplicateInt => "replicate_int" | Opcode.Move => "move" | Opcode.Jump => "jump"
  | Opcode.JumpIfZero => "jz" | Opcode.Return => "return" | Opcode.CallFn => "callfn"
  | Opcode.Imm => "imm" | Opcode.Undef => "undef" | Opcode.ExprUnary => "eunary"
  | Opcode.ExprBinary => "ebinary" | Opcode.Cast => "cast" | Opcode.Extract => "extract"
  | Opcode.Concat => "concat" | Opcode.Select => "select" | Opcode.FlagDef => "flagdef"
  | Opcode.FlagCond => "flagcond" | Opcode.FlagBit => "flagbit" | Opcode.ReadReg => "read"
  | Opcode.WriteReg => "write" | Opcode.Load => "load" | Opcode.Store => "store"
  | Opcode.Branch => "br" | Opcode.CondBranch => "brc" | Opcode.IndirectBranch => "brind"
  | Opcode.CallAddr => "call" | Opcode.IndirectCall => "callind" | Opcode.Ret => "ret"
  | Opcode.Nop => "nop" | Opcode.Unreachable => "unreachable" | Opcode.Intrinsic => "intrinsic"
  | Opcode.Unimplemented => "unimplemented"
  end%string.

Module IntOp.
Inductive IntOp : Set :=
  | Negate | Not | LogicalNot | Add | Sub | Mul | DivU | DivS | RemU | RemS | And | Or | Xor
  | Shl | ShrU | ShrS | Equal | NotEqual | LessU | LessEqualU | LessS | LessEqualS | GreaterU
  | GreaterEqualU | GreaterS | GreaterEqualS | LogicalAnd | LogicalOr.
End IntOp.
Abbreviation IntOp := IntOp.IntOp.

#[export] Instance IntOp_eq_dec : EqDecision IntOp.
Proof. solve_decision. Defined.

Definition intOps : list IntOp :=
  [
   IntOp.Negate; IntOp.Not; IntOp.LogicalNot; IntOp.Add; IntOp.Sub; IntOp.Mul; IntOp.DivU;
   IntOp.DivS; IntOp.RemU; IntOp.RemS; IntOp.And; IntOp.Or; IntOp.Xor; IntOp.Shl; IntOp.ShrU;
   IntOp.ShrS; IntOp.Equal; IntOp.NotEqual; IntOp.LessU; IntOp.LessEqualU; IntOp.LessS;
   IntOp.LessEqualS; IntOp.GreaterU; IntOp.GreaterEqualU; IntOp.GreaterS; IntOp.GreaterEqualS;
   IntOp.LogicalAnd; IntOp.LogicalOr ].

Definition intOpToString (o : IntOp) : string :=
  match o with
  | IntOp.Negate => "neg" | IntOp.Not => "not" | IntOp.LogicalNot => "lnot"
  | IntOp.Add => "add" | IntOp.Sub => "sub" | IntOp.Mul => "mul" | IntOp.DivU => "divu"
  | IntOp.DivS => "divs" | IntOp.RemU => "remu" | IntOp.RemS => "rems" | IntOp.And => "and"
  | IntOp.Or => "or" | IntOp.Xor => "xor" | IntOp.Shl => "shl" | IntOp.ShrU => "shru"
  | IntOp.ShrS => "shrs" | IntOp.Equal => "eq" | IntOp.NotEqual => "ne" | IntOp.LessU => "ltu"
  | IntOp.LessEqualU => "leu" | IntOp.LessS => "lts" | IntOp.LessEqualS => "les"
  | IntOp.GreaterU => "gtu" | IntOp.GreaterEqualU => "geu" | IntOp.GreaterS => "gts"
  | IntOp.GreaterEqualS => "ges" | IntOp.LogicalAnd => "land" | IntOp.LogicalOr => "lor"
  end%string.

Module AsmStyle.
Inductive AsmStyle : Set :=
  | Plain | Register | RegisterSp | VectorRegister | Hex | Dec | Condition | Label | Shift
  | Extend.
End AsmStyle.
Abbreviation AsmStyle := AsmStyle.AsmStyle.

#[export] Instance AsmStyle_eq_dec : EqDecision AsmStyle.
Proof. solve_decision. Defined.

Definition asmStyles : list AsmStyle :=
  [
   AsmStyle.Plain; AsmStyle.Register; AsmStyle.RegisterSp; AsmStyle.VectorRegister;
   AsmStyle.Hex; AsmStyle.Dec; AsmStyle.Condition; AsmStyle.Label; AsmStyle.Shift;
   AsmStyle.Extend ].

Definition asmStyleToString (o : AsmStyle) : string :=
  match o with
  | AsmStyle.Plain => "plain" | AsmStyle.Register => "reg" | AsmStyle.RegisterSp => "regsp"
  | AsmStyle.VectorRegister => "vreg" | AsmStyle.Extend => "extend" | AsmStyle.Hex => "hex"
  | AsmStyle.Dec => "dec" | AsmStyle.Condition => "cond" | AsmStyle.Label => "label"
  | AsmStyle.Shift => "shift"
  end%string.

Module AsmPieceOp.
Inductive AsmPieceOp : Set := Text | Substitution | GroupBegin | GroupEnd.
End AsmPieceOp.
Abbreviation AsmPieceOp := AsmPieceOp.AsmPieceOp.

Definition asmPieceOps : list AsmPieceOp :=
  [AsmPieceOp.Text; AsmPieceOp.Substitution; AsmPieceOp.GroupBegin; AsmPieceOp.GroupEnd].

(** [static_cast<uint8_t>] of a register class, and back. *)
Definition regClasses : list RegClass :=
  [RegClass.General; RegClass.Float; RegClass.Vector; RegClass.Flags; RegClass.StackPointer;
   RegClass.ProgramCounter; RegClass.Zero; RegClass.Special].
Definition regClassByte (c : RegClass) : Z :=
  match c with
  | RegClass.General => 0 | RegClass.Float => 1 | RegClass.Vector => 2 | RegClass.Flags => 3
  | RegClass.StackPointer => 4 | RegClass.ProgramCounter => 5 | RegClass.Zero => 6 | RegClass.Special => 7
  | RegClass.Other byte => byte
  end.

Definition byteRegClass (byte : Z) : RegClass := default (RegClass.Other byte) (enumAt regClasses byte).

(** ** Instructions and bodies *)

Definition kNoSlot : Z := 65535.

Record Insn : Set := MkInsn {
  insnOp : Z; insnAux : Z; insnDest : Z; insnA : Z; insnB : Z; insnC : Z; insnImm : Z }.

Record Body : Set := MkBody { bodyStart : Z; bodyLength : Z; bodySlots : Z }.

Record ProgramFn : Set := MkProgramFn { fnName : string; fnParams : Z; fnBody : Body }.

Record ProgramField : Set := MkProgramField { fieldName : string; fieldShift : Z; fieldBits : Z }.

Record ProgramAsmPiece : Set := MkProgramAsmPiece {
  pieceOp : Z; pieceStyle : Z; pieceText : Z; pieceValue : Body; pieceArgument : Body }.

Record ProgramAsm : Set := MkProgramAsm { asmStart : Z; asmLength : Z }.

Record ProgramInsn : Set := MkProgramInsn {
  ruleName : string; ruleFields : list ProgramField; ruleGuards : list Body; ruleSemantics : Body;
  ruleDisassembly : ProgramAsm }.

Record ProgramRegFile : Set := MkProgramRegFile {
  fileName : string; fileBase : N; fileCount : Z; fileBits : Z; viewBase : list N; viewBits : list Z;
  fileRole : RegClass }.

(** ** Patterns and the program *)

(** [EncodingPattern]; [patPriority] is an [int]. *)
Record EncodingPattern : Set := MkEncodingPattern {
  patInstruction : Z; patName : string; patMask : Z; patValue : Z; patPriority : Z; patGuards : bool }.

(** A node of the decision tree; an empty bucket is a null child. *)
#[local] Unset Elimination Schemes.
Inductive DecisionNode : Set :=
  MkNode (nodeShift nodeWidth : Z) (nodeChildren : list (option DecisionNode)) (nodeCandidates : list Z).
#[local] Set Elimination Schemes.

Definition nodeShift (n : DecisionNode) : Z := let '(MkNode s _ _ _) := n in s.
Definition nodeWidth (n : DecisionNode) : Z := let '(MkNode _ w _ _) := n in w.
Definition nodeChildren (n : DecisionNode) : list (option DecisionNode) := let '(MkNode _ _ c _) := n in c.
Definition nodeCandidates (n : DecisionNode) : list Z := let '(MkNode _ _ _ c) := n in c.

Definition isLeaf (n : DecisionNode) : bool := nodeWidth n =? 0.

Record DecisionTree : Set := MkDecisionTree { treeRoot : option DecisionNode; treeWidth : Z }.

Record SpecProgram : Set := MkSpecProgram {
  progName : string; progArch : Z; progEndian : endian; insnWidth : Z; pointerBits : Z;
  progRegisters : RegisterFile; regFiles : list ProgramRegFile; progStrings : list string;
  progCode : list Insn; asmPieces : list ProgramAsmPiece; functions : list ProgramFn;
  instructions : list ProgramInsn; patterns : list EncodingPattern; decoder : DecisionTree }.

Definition kMagic : Z := 0x43455053.
Definition kVersion : Z := 1.

(** ** Queries *)

Definition programString (p : SpecProgram) (index : Z) : string :=
  default ""%string (progStrings p !! Z.to_nat index).

Definition findRegFile (p : SpecProgram) (wanted : string) : option ProgramRegFile :=
  snd <$> list_find (fun file => fileName file = wanted) (regFiles p).

Definition findInsn (p : SpecProgram) (wanted : string) : Z :=
  match list_find (fun rule => ruleName rule = wanted) (instructions p) with
  | Some (index, _) => Z.of_nat index
  | None => -1
  end.
