(* ===== verification/Sorting.v ===== *)
(** * std::sort

    The standard sort orders a range by a strict weak order and says nothing
    about elements the order does not separate, so it is a class here: an
    operation and the two laws its callers rely on. Insertion sort is an
    instance. *)
From S2P Require Import Prelude.
From stdpp Require Import sorting.
Local Open Scope Z_scope.

Class Sorter := sort_by : forall {A : Type}, (A -> A -> bool) -> list A -> list A.

(** A strict weak order, as [std::sort] asks of its comparison: a strict order
    by a key. *)
Definition ordered_by {A K} (less : A -> A -> bool) (key : A -> K) (before : K -> K -> Prop) : Prop :=
  (forall x y, less x y = true <-> before (key x) (key y)) /\
  (forall k, ~ before k k) /\ (forall a b c, before a b -> before b c -> before a c) /\
  (forall a b, before a b \/ a = b \/ before b a).

(** Nothing stands before something that should precede it. *)
Definition in_order {A} (less : A -> A -> bool) : list A -> Prop := StronglySorted (fun x y => less y x = false).

Class SorterLaws `{Sorter} : Prop := {
  sort_by_perm : forall A (less : A -> A -> bool) l, sort_by less l ≡ₚ l;
  sort_by_ordered : forall A K (less : A -> A -> bool) (key : A -> K) before l,
    ordered_by less key before -> in_order less (sort_by less l) }.

(** ** Insertion sort *)

Fixpoint insertSorted {A} (less : A -> A -> bool) (x : A) (l : list A) : list A :=
  match l with
  | [] => [x]
  | y :: l' => if less y x then y :: insertSorted less x l' else x :: l
  end.

Definition insertionSort {A} (less : A -> A -> bool) (l : list A) : list A := foldr (insertSorted less) [] l.

#[export] Instance insertion_sorter : Sorter := @insertionSort.

Lemma insertSorted_perm {A} (less : A -> A -> bool) x l : insertSorted less x l ≡ₚ x :: l.
Proof.
  induction l as [|y l IH]; cbn; [done|]. destruct (less y x); [|done]. rewrite IH. apply Permutation_swap.
Qed.

Lemma insertSorted_ordered {A K} (less : A -> A -> bool) (key : A -> K) before x l :
  ordered_by less key before -> in_order less l -> in_order less (insertSorted less x l).
Proof.
  intros Ho Hl. pose proof Ho as (Hk & Hirr & Htr & Htot). induction Hl as [|y l Hl IH Hy]; cbn; [by repeat constructor|].
  destruct (less y x) eqn:E.
  - constructor; [done|]. rewrite insertSorted_perm. constructor; [|done].
    apply not_true_iff_false. rewrite Hk. intros ?. apply Hk in E. by eapply Hirr, Htr.
  - constructor; [by constructor|]. constructor; [done|]. eapply Forall_impl; [exact Hy|]. cbn. intros z Hz.
    apply not_true_iff_false in E, Hz. apply not_true_iff_false. rewrite Hk in E, Hz |- *. intros Hzx.
    destruct (Htot (key x) (key y)) as [H|[H|H]]; [by apply Hz, (Htr _ (key x))|rewrite <- H in Hz|]; done.
Qed.

#[export] Instance insertion_sorter_laws : SorterLaws.
Proof.
  split; unfold sort_by, insertion_sorter, insertionSort.
  - intros A less l. induction l as [|x l IH]; cbn; [done|]. by rewrite insertSorted_perm, IH.
  - intros A K less key before l Ho. induction l as [|x l IH]; cbn; [constructor|].
    by apply (insertSorted_ordered less key before).
Qed.

(** ** What sorted lists have in common *)

Lemma in_order_filter {A} (less : A -> A -> bool) (P : A -> Prop) `{forall x, Decision (P x)} l :
  in_order less l -> in_order less (filter P l).
Proof.
  induction 1 as [|x l Hl IH Hx]; [constructor|]. rewrite filter_cons. case_decide; [|done].
  constructor; [done|]. apply Forall_forall. intros y [_ Hy]%list_elem_of_filter. by eapply Forall_forall in Hx.
Qed.

Lemma in_order_keys_sorted {A K} (less : A -> A -> bool) (key : A -> K) before l :
  ordered_by less key before -> in_order less l -> StronglySorted (fun a b => ~ before b a) (key <$> l).
Proof.
  intros (Hk & _). induction 1 as [|x l Hl IH Hx]; cbn; [constructor|]. constructor; [done|].
  apply Forall_fmap. eapply Forall_impl; [exact Hx|]. cbn. intros y. rewrite <- Hk. by intros ->.
Qed.

(** Two arrangements of the same elements in the same order agree on every key. *)
Lemma in_order_keys {A K} (less : A -> A -> bool) (key : A -> K) before l1 l2 :
  ordered_by less key before -> in_order less l1 -> in_order less l2 -> l1 ≡ₚ l2 -> key <$> l1 = key <$> l2.
Proof.
  intros Ho H1 H2 Hp. assert (AntiSymm (=) (fun a b => ~ before b a)) as Hanti.
  { intros a b Hab Hba. destruct Ho as (_ & _ & _ & Htot). by destruct (Htot a b) as [|[|]]. }
  apply (StronglySorted_unique (fun a b => ~ before b a)); [by eapply in_order_keys_sorted..|by rewrite Hp].
Qed.
