(* ===== verification/Encoding.v ===== *)
(** * Encodings (spec/encoding.h, spec/encoding.cpp)

    The overlap report, the decision tree over the encoding patterns and the
    walk that looks a word up in it. Indices into the patterns are [uint32_t]. *)
From S2P Require Import Prelude Bits Program Sorting.

(** ** Comparing patterns *)

Definition patternsOverlap (a b : EncodingPattern) : bool :=
  let common := Z.land (patMask a) (patMask b) in
  Z.land (Z.lxor (patValue a) (patValue b)) common =? 0.

Definition overlapWitness (a b : EncodingPattern) : Z :=
  Z.lor (Z.land (patValue a) (patMask a)) (Z.land (patValue b) (patMask b)).

Definition strictlyMoreSpecific (a b : EncodingPattern) : bool :=
  (Z.land (patMask a) (patMask b) =? patMask b) && negb (patMask a =? patMask b).

Definition matchesBefore (a b : EncodingPattern) : bool :=
  if negb (patPriority a =? patPriority b) then patPriority b <? patPriority a
  else
    let aBits := countOnes (patMask a) in
    let bBits := countOnes (patMask b) in
    if negb (aBits =? bBits) then bBits <? aBits else patInstruction a <? patInstruction b.

(** [patterns[index]]. The indices are those of the patterns themselves, so the
    default is never taken. *)
Definition emptyPattern : EncodingPattern := MkEncodingPattern 0 "" 0 0 0 false.
Definition patternAt (ps : list EncodingPattern) (index : Z) : EncodingPattern :=
  default emptyPattern (ps !! Z.to_nat index).

Definition indexBefore (ps : list EncodingPattern) (lhs rhs : Z) : bool :=
  matchesBefore (patternAt ps lhs) (patternAt ps rhs).

(** ** Scoring a field *)

Definition kMaxFieldWidth : Z := 4.
Definition kLeafThreshold : nat := 4.
Definition kMaxDepth : nat := 12.

Record Candidate : Set := MkCandidate {
  candShift : Z; candWidth : Z; worstChild : nat; wildcards : nat }.

Definition fieldMask (shift width : Z) : Z := shl64 (lowMask width) shift.

(** Partially or wholly unconstrained. *)
Definition isWildcard (p : EncodingPattern) (shift width : Z) : bool :=
  negb (Z.land (patMask p) (fieldMask shift width) =? fieldMask shift width).

(** The bucket a pattern that constrains the field falls into. *)
Definition slotOf (p : EncodingPattern) (shift width : Z) : Z :=
  shr64 (Z.land (patValue p) (fieldMask shift width)) shift.

Fixpoint countBuckets (ps : list EncodingPattern) (active : list Z) (shift width : Z)
    (buckets : list nat) (wild : nat) : list nat * nat :=
  match active with
  | [] => (buckets, wild)
  | index :: active =>
      let pattern := patternAt ps index in
      if isWildcard pattern shift width then countBuckets ps active shift width buckets (S wild)
      else countBuckets ps active shift width (alter S (Z.to_nat (slotOf pattern shift width)) buckets) wild
  end.

Definition childCount (width : Z) : nat := Z.to_nat (2 ^ width).

Definition scoreField (ps : list EncodingPattern) (active : list Z) (shift width : Z) : Candidate :=
  let '(buckets, wild) := countBuckets ps active shift width (repeat 0%nat (childCount width)) 0 in
  MkCandidate shift width (foldr Nat.max 0 buckets + wild)%nat wild.

(** The ranking of candidates: a lexicographic [<]. *)
Definition effective (c : Candidate) : nat := Nat.max (worstChild c) kLeafThreshold.

Definition ranksBelow (a b : Candidate) : bool :=
  let wildA := negb (wildcards a =? 0)%nat in
  let wildB := negb (wildcards b =? 0)%nat in
  if (effective a <? effective b)%nat then true
  else if (effective b <? effective a)%nat then false
  else if negb wildA && wildB then true
  else if wildA && negb wildB then false
  else candWidth a <? candWidth b.

(** The fields the two loops visit, widest first. *)
Definition fieldsOf (width insnWidth : Z) : list (Z * Z) :=
  (fun shift => (shift, width)) <$> seqZ 0 (insnWidth - width + 1).
Definition allFields (insnWidth : Z) : list (Z * Z) :=
  concat ((fun width => fieldsOf width insnWidth) <$> [4; 3; 2; 1]).

Definition improve (ps : list EncodingPattern) (active : list Z) (best : option Candidate) (field : Z * Z)
  : option Candidate :=
  let candidate := scoreField ps active field.1 field.2 in
  if (wildcards candidate =? length active)%nat then best
  else match best with
  | None => Some candidate
  | Some b => if ranksBelow candidate b then Some candidate else best
  end.

Definition bestField (ps : list EncodingPattern) (active : list Z) (insnWidth : Z) : option Candidate :=
  foldl (improve ps active) None (allFields insnWidth).

(** ** Building the tree *)

Definition leaf (candidates : list Z) : DecisionNode := MkNode 0 0 [] candidates.

(** Distribute the active patterns over the buckets; a wildcard goes everywhere. *)
Fixpoint distribute (ps : list EncodingPattern) (active : list Z) (shift width : Z)
    (buckets : list (list Z)) : list (list Z) :=
  match active with
  | [] => buckets
  | index :: active =>
      let pattern := patternAt ps index in
      distribute ps active shift width
        (if isWildcard pattern shift width then (fun bucket => bucket ++ [index]) <$> buckets
         else alter (fun bucket => bucket ++ [index]) (Z.to_nat (slotOf pattern shift width)) buckets)
  end.

Section Build.
Context `{Sorter}.

(** [buildNode], with the levels that are left: [kMaxDepth - depth]. *)
Fixpoint buildNode (levels : nat) (ps : list EncodingPattern) (active : list Z) (insnWidth : Z) : DecisionNode :=
  if (length active <=? kLeafThreshold)%nat then leaf active
  else match levels with
  | O => leaf active
  | S levels =>
      match bestField ps active insnWidth with
      | None => leaf (sort_by (indexBefore ps) active)
      | Some best =>
          if (length active <=? worstChild best)%nat then leaf (sort_by (indexBefore ps) active)
          else
            let buckets := distribute ps active (candShift best) (candWidth best)
                             (repeat [] (childCount (candWidth best))) in
            MkNode (candShift best) (candWidth best)
              ((fun bucket => match bucket with
                              | [] => None
                              | _ => Some (buildNode levels ps bucket insnWidth)
                              end) <$> buckets) []
      end
  end.

Definition buildDecisionTree (ps : list EncodingPattern) (insnWidth : Z) : DecisionTree :=
  let active := (fun index => u32 (Z.of_nat index)) <$> seq 0 (length ps) in
  let active := sort_by (indexBefore ps) active in
  MkDecisionTree (Some (buildNode kMaxDepth ps active insnWidth)) insnWidth.

(** [SpecProgram::rebuildDecoder]. *)
Definition rebuildDecoder (p : SpecProgram) : SpecProgram :=
  MkSpecProgram (progName p) (progArch p) (progEndian p) (insnWidth p) (pointerBits p) (progRegisters p)
    (regFiles p) (progStrings p) (progCode p) (asmPieces p) (functions p) (instructions p) (patterns p)
    (buildDecisionTree (patterns p) (insnWidth p)).
End Build.

(** ** Looking a word up *)

(** The [while] loop of [lookup]; the slot is masked by the node's width. *)
Fixpoint lookupNode (node : DecisionNode) (word : Z) : list Z :=
  let '(MkNode shift width children candidates) := node in
  if width =? 0 then candidates
  else
    (fix child (children : list (option DecisionNode)) (slot : nat) : list Z :=
       match children, slot with
       | [], _ => []
       | c :: _, O => match c with Some c => lookupNode c word | None => [] end
       | _ :: children, S slot => child children slot
       end) children (Z.to_nat (Z.land (shr64 word shift) (lowMask width))).

Definition treeLookup (t : DecisionTree) (word : Z) : list Z :=
  match treeRoot t with None => [] | Some node => lookupNode node word end.

(** ** Statistics *)

Fixpoint nodeDepth (node : DecisionNode) : nat :=
  let '(MkNode _ width children _) := node in
  if width =? 0 then 1%nat
  else S (foldr Nat.max 0%nat ((fun c => match c with Some c => nodeDepth c | None => 1%nat end) <$> children)).

Fixpoint nodeWorstLeaf (node : DecisionNode) : nat :=
  let '(MkNode _ width children candidates) := node in
  if width =? 0 then length candidates
  else foldr Nat.max 0%nat ((fun c => match c with Some c => nodeWorstLeaf c | None => 0%nat end) <$> children).

Fixpoint countNodes (node : DecisionNode) : nat :=
  let '(MkNode _ _ children _) := node in
  S (sum_list ((fun c => match c with Some c => countNodes c | None => 0%nat end) <$> children)).

Definition treeDepth (t : DecisionTree) : nat := match treeRoot t with None => 1%nat | Some n => nodeDepth n end.
Definition worstLeaf (t : DecisionTree) : nat := match treeRoot t with None => 0%nat | Some n => nodeWorstLeaf n end.
Definition nodeCount (t : DecisionTree) : nat := match treeRoot t with None => 0%nat | Some n => countNodes n end.

(** ** Overlaps *)

Record Conflict : Set := MkConflict { conflictFirst : Z; conflictSecond : Z; conflictWitness : Z }.

Definition conflictOf (a b : EncodingPattern) : option Conflict :=
  if negb (patternsOverlap a b) then None
  else if negb (patPriority a =? patPriority b) then None
  else if strictlyMoreSpecific a b || strictlyMoreSpecific b a then None
  else if patGuards a || patGuards b then None
  else Some (MkConflict (patInstruction a) (patInstruction b) (overlapWitness a b)).

Fixpoint findOverlaps (ps : list EncodingPattern) : list Conflict :=
  match ps with
  | [] => []
  | a :: ps => omap (conflictOf a) ps ++ findOverlaps ps
  end.
