(* ===== verification/EncodingProps.v ===== *)
(** * The decoder's tree and its overlap report

    Looking a word up in the tree narrows the search and nothing else: the
    patterns that match the word come back, all of them, in match order. The
    overlap report lists exactly the ambiguous pairs. *)
From S2P Require Import Prelude Bits Program Sorting Encoding.
Local Open Scope Z_scope.

(** ** Matching *)

(** The test of [SpecEngine::decode]. *)
Definition patternMatches (p : EncodingPattern) (word : Z) : bool := Z.land word (patMask p) =? patValue p.

Definition matchesAt (ps : list EncodingPattern) (word index : Z) : Prop :=
  patternMatches (patternAt ps index) word = true.
#[export] Instance matchesAt_dec ps word index : Decision (matchesAt ps word index).
Proof. unfold matchesAt. apply _. Defined.

(** Match order is an order by priority, then constrained bits, then instruction. *)
Definition matchKey (p : EncodingPattern) : Z * Z * Z := (patPriority p, countOnes (patMask p), patInstruction p).
Definition keyBefore (a b : Z * Z * Z) : Prop :=
  b.1.1 < a.1.1 \/ (a.1.1 = b.1.1 /\ (b.1.2 < a.1.2 \/ (a.1.2 = b.1.2 /\ a.2 < b.2))).

Lemma matchesBefore_key a b : matchesBefore a b = true <-> keyBefore (matchKey a) (matchKey b).
Proof.
  unfold matchesBefore, keyBefore, matchKey. cbn.
  destruct (Z.eqb_spec (patPriority a) (patPriority b)) as [E|]; cbn; [|rewrite Z.ltb_lt; lia].
  destruct (Z.eqb_spec (countOnes (patMask a)) (countOnes (patMask b))); cbn; rewrite Z.ltb_lt; lia.
Qed.

Lemma indexBefore_ordered ps : ordered_by (indexBefore ps) (fun i => matchKey (patternAt ps i)) keyBefore.
Proof.
  split_and!.
  - intros x y. apply matchesBefore_key.
  - intros [[a b] c]. unfold keyBefore. cbn. lia.
  - intros [[a b] c] [[d e] f] [[g h] i]. unfold keyBefore. cbn. lia.
  - intros [[a b] c] [[d e] f]. unfold keyBefore. cbn.
    destruct (Z.lt_trichotomy a d) as [|[->|]]; [lia| |lia]. destruct (Z.lt_trichotomy b e) as [|[->|]]; [lia| |lia].
    destruct (Z.lt_trichotomy c f) as [|[->|]]; [lia|auto|lia].
Qed.

(** ** Fields and buckets *)

Lemma lookup_repeat {A} (x y : A) n i : repeat x n !! i = Some y <-> y = x /\ (i < n)%nat.
Proof.
  revert i. induction n as [|n IH]; intros [|i]; cbn; try (split; [done|lia]); [|rewrite IH; split; intros []; split; auto; lia].
  split; [intros [= <-]; split; [done|lia]|by intros [-> _]].
Qed.


Definition slotIn (word shift width : Z) : Z := Z.land (shr64 word shift) (lowMask width).

(** A pattern that constrains the field and matches the word is in its slot. *)
Lemma slot_matches p word shift width :
  0 <= shift -> 0 <= width -> fits 64 word -> isWildcard p shift width = false -> patternMatches p word = true ->
  slotOf p shift width = slotIn word shift width.
Proof.
  intros Hs Hw Hf Hm%negb_false_iff%Z.eqb_eq Hp%Z.eqb_eq. unfold slotOf, slotIn. rewrite <- Hp, <- Z.land_assoc, Hm.
  unfold fieldMask. bitblast.
Qed.

Lemma slotIn_nonneg word shift width : 0 <= width -> 0 <= slotIn word shift width.
Proof.
  intros Hw. unfold slotIn. rewrite lowMask_ones, Z.land_ones by lia. apply Z.mod_pos_bound, pow2_pos. lia.
Qed.

Lemma slotIn_bound word shift width : 0 <= width <= 64 -> (Z.to_nat (slotIn word shift width) < childCount width)%nat.
Proof.
  intros Hw. unfold slotIn, childCount. rewrite lowMask_ones, Z.land_ones by lia. replace (Z.min width 64) with width by lia.
  pose proof (Z.mod_pos_bound (shr64 word shift) (2 ^ width)). pose proof (pow2_pos width). lia.
Qed.

(** What a bucket holds, in the order of the active list. *)
Definition inBucket (ps : list EncodingPattern) (shift width slot index : Z) : Prop :=
  isWildcard (patternAt ps index) shift width = true \/ slotOf (patternAt ps index) shift width = slot.
#[export] Instance inBucket_dec ps shift width slot index : Decision (inBucket ps shift width slot index).
Proof. unfold inBucket. apply _. Defined.

Lemma length_distribute ps active shift width buckets :
  length (distribute ps active shift width buckets) = length buckets.
Proof.
  revert buckets. induction active as [|i active IH]; intros buckets; cbn; [done|]. rewrite IH.
  destruct (isWildcard _ _ _); [apply length_fmap|apply length_alter].
Qed.

Lemma slotOf_nonneg p shift width : 0 <= shift -> 0 <= slotOf p shift width.
Proof.
  intros Hs. unfold slotOf, shr64, fieldMask, shl64, u64. apply Z.shiftr_nonneg, Z.land_nonneg. right.
  apply Z.mod_pos_bound. lia.
Qed.

Lemma distribute_lookup ps active shift width buckets slot bucket :
  0 <= shift -> 0 <= slot -> buckets !! Z.to_nat slot = Some bucket ->
  distribute ps active shift width buckets !! Z.to_nat slot = Some (bucket ++ filter (inBucket ps shift width slot) active).
Proof.
  intros Hs Hslot. revert buckets bucket. induction active as [|i active IH]; intros buckets bucket Hb; cbn [distribute].
  - by rewrite filter_nil, app_nil_r.
  - pose proof (slotOf_nonneg (patternAt ps i) shift width Hs).
    rewrite filter_cons. destruct (isWildcard (patternAt ps i) shift width) eqn:Ew.
    + rewrite decide_True by by left. rewrite (IH _ (bucket ++ [i])), <- app_assoc; [done|]. by rewrite list_lookup_fmap, Hb.
    + destruct (decide (slotOf (patternAt ps i) shift width = slot)) as [<-|Hne].
      * rewrite decide_True by by right. rewrite (IH _ (bucket ++ [i])), <- app_assoc; [done|]. by rewrite list_lookup_alter, decide_True, Hb by done.
      * rewrite decide_False by (unfold inBucket; rewrite Ew; intros [|]; congruence). apply IH. rewrite list_lookup_alter_ne; [done|lia].
Qed.

(** The bucket of the word's slot loses no pattern that matches the word. *)
Lemma bucket_matches ps (active : list Z) word shift width :
  0 <= shift -> 0 <= width -> fits 64 word ->
  filter (matchesAt ps word) (filter (inBucket ps shift width (slotIn word shift width)) active) = filter (matchesAt ps word) active.
Proof.
  intros Hs Hw Hf. induction active as [|i active IH]; [done|].
  rewrite (filter_cons (inBucket _ _ _ _)). case_decide as Hi.
  - rewrite !(filter_cons (matchesAt _ _)), IH. done.
  - rewrite (filter_cons (matchesAt _ _)), IH. case_decide as Hm; [|done]. exfalso. apply Hi.
    destruct (isWildcard (patternAt ps i) shift width) eqn:Ew; [by left|right]. by apply slot_matches.
Qed.

(** ** Which field is chosen *)

Lemma elem_of_allFields s w insnWidth : (s, w) ∈ allFields insnWidth -> 0 <= s /\ 1 <= w <= 4 /\ s + w <= insnWidth.
Proof.
  unfold allFields. rewrite list_elem_of_In, in_concat. intros (l & Hl & Hsw).
  apply list_elem_of_In in Hl, Hsw. apply list_elem_of_fmap in Hl as (width & -> & Hwidth).
  unfold fieldsOf in Hsw. apply list_elem_of_fmap in Hsw as (s' & [= -> ->] & Hs%elem_of_seqZ).
  rewrite !elem_of_cons, elem_of_nil in Hwidth. lia.
Qed.

Lemma scoreField_field ps active s w : candShift (scoreField ps active s w) = s /\ candWidth (scoreField ps active s w) = w.
Proof. unfold scoreField. by destruct (countBuckets _ _ _ _ _ _). Qed.

Lemma bestField_in ps active insnWidth best :
  bestField ps active insnWidth = Some best -> (candShift best, candWidth best) ∈ allFields insnWidth.
Proof.
  unfold bestField. set (fields := allFields insnWidth).
  assert (forall l b, (forall c, b = Some c -> (candShift c, candWidth c) ∈ fields) -> (forall x, x ∈ l -> x ∈ fields) ->
    forall c, foldl (improve ps active) b l = Some c -> (candShift c, candWidth c) ∈ fields) as H; [|apply H; [done|auto]].
  induction l as [|[s w] l IH]; intros b Hb Hl; cbn; [done|]. apply IH; [|set_solver].
  intros c. unfold improve. cbn [fst snd]. destruct (scoreField_field ps active s w) as [Hs Hw].
  assert ((s, w) ∈ fields) as Hsw by (apply Hl; set_solver).
  destruct (_ =? _)%nat; [apply Hb|]. destruct b as [b|]; [destruct (ranksBelow _ b); [|apply Hb]|]; intros [= <-]; by rewrite Hs, Hw.
Qed.

(** ** Looking up *)

(** The child walk of [lookupNode]. *)
Lemma lookupNode_split shift width children candidates word :
  width <> 0 ->
  lookupNode (MkNode shift width children candidates) word =
  match children !! Z.to_nat (slotIn word shift width) with Some (Some c) => lookupNode c word | _ => [] end.
Proof.
  intros Hw. cbn. destruct (Z.eqb_spec width 0); [done|]. fold (slotIn word shift width).
  generalize (Z.to_nat (slotIn word shift width)). clear Hw n candidates. induction children as [|c cs IH]; intros [|slot]; cbn; try done.
Qed.

Section Lookup.
Context `{SorterLaws}.

(** What comes back of an active list: the patterns that match, in order. *)
Definition narrows (ps : list EncodingPattern) (active : list Z) (word : Z) (found : list Z) : Prop :=
  filter (matchesAt ps word) found ≡ₚ filter (matchesAt ps word) active /\
  (in_order (indexBefore ps) active -> in_order (indexBefore ps) found) /\ (forall i, i ∈ found -> i ∈ active).

Lemma narrows_sorted ps active word : narrows ps active word (sort_by (indexBefore ps) active).
Proof using Type*.
  split_and!; [by rewrite sort_by_perm| |intros i; by rewrite sort_by_perm]. intros _. eapply sort_by_ordered, indexBefore_ordered.
Qed.

Lemma buildNode_narrows levels ps active insnWidth word :
  insnWidth <= 64 -> fits 64 word -> narrows ps active word (lookupNode (buildNode levels ps active insnWidth) word).
Proof using Type*.
  intros Hw Hf. revert active. induction levels as [|levels IH]; intros active; cbn [buildNode].
  { by destruct (_ <=? _)%nat. }
  destruct (_ <=? _)%nat; [done|]. destruct (bestField ps active insnWidth) as [best|] eqn:Eb; [|apply narrows_sorted].
  destruct (_ <=? _)%nat; [apply narrows_sorted|].
  apply bestField_in, elem_of_allFields in Eb as (Hs & Hbw & Hfit).
  rewrite lookupNode_split, list_lookup_fmap by lia. set (slot := slotIn word (candShift best) (candWidth best)).
  rewrite (distribute_lookup ps active _ _ _ slot []); [|done|apply slotIn_nonneg; lia|].
  2: { apply lookup_repeat. split; [done|]. apply slotIn_bound. lia. }
  cbn [app fmap option_fmap option_map]. pose proof (bucket_matches ps active word (candShift best) (candWidth best) Hs ltac:(lia) Hf) as Hb.
  fold slot in Hb. set (bucket := filter (inBucket ps _ _ slot) active) in *.
  assert (narrows ps active word bucket) as (Hn1 & Hn2 & Hn3).
  { split_and!; [by rewrite Hb|apply in_order_filter|]. intros i. unfold bucket. rewrite list_elem_of_filter. by intros []. }
  destruct bucket as [|i bucket]; [done|]. destruct (IH (i :: bucket)) as (Hi1 & Hi2 & Hi3).
  split_and!; [by rewrite Hi1|auto..].
Qed.

Definition allIndices (ps : list EncodingPattern) : list Z := (fun index => u32 (Z.of_nat index)) <$> seq 0 (length ps).

(** The instructions a word may be, in the order the decoder tries them, are
    those of all patterns in match order that match it. *)
Lemma lookup_linear ps insnWidth word :
  insnWidth <= 64 -> fits 64 word ->
  (fun i => patInstruction (patternAt ps i)) <$> filter (matchesAt ps word) (treeLookup (buildDecisionTree ps insnWidth) word) =
  (fun i => patInstruction (patternAt ps i)) <$> filter (matchesAt ps word) (sort_by (indexBefore ps) (allIndices ps)).
Proof using Type*.
  intros Hw Hf. unfold buildDecisionTree, treeLookup. cbn [treeRoot]. fold (allIndices ps).
  destruct (buildNode_narrows kMaxDepth ps (sort_by (indexBefore ps) (allIndices ps)) insnWidth word Hw Hf) as (Hp & Ho & _).
  assert (in_order (indexBefore ps) (sort_by (indexBefore ps) (allIndices ps))) as Hs by eapply sort_by_ordered, indexBefore_ordered.
  pose proof (in_order_keys _ _ _ _ _ (indexBefore_ordered ps)
    (in_order_filter _ (matchesAt ps word) _ (Ho Hs)) (in_order_filter _ (matchesAt ps word) _ Hs) Hp) as Hk.
  apply (f_equal (fmap (fun k : Z * Z * Z => k.2))) in Hk. by rewrite <- !list_fmap_compose in Hk.
Qed.
Lemma lookup_indices ps insnWidth word i :
  insnWidth <= 64 -> fits 64 word -> i ∈ treeLookup (buildDecisionTree ps insnWidth) word -> i ∈ allIndices ps.
Proof using Type*.
  intros Hw Hf Hi. destruct (buildNode_narrows kMaxDepth ps (sort_by (indexBefore ps) (allIndices ps)) insnWidth word Hw Hf) as (_ & _ & Hs).
  specialize (Hs i Hi). by rewrite sort_by_perm in Hs.
Qed.
End Lookup.

(** ** Size *)

(** The tree is never deeper than [kMaxDepth] splits and a leaf, and no lookup
    returns more patterns than there are. *)
Lemma max_le (l : list nat) n : (forall x, x ∈ l -> (x <= n)%nat) -> (foldr Nat.max 0 l <= n)%nat.
Proof. intros H. induction l as [|x l IH]; cbn; [lia|]. pose proof (H x). pose proof (IH ltac:(set_solver)). set_solver by lia. Qed.

Lemma elem_of_distribute ps active shift width buckets bucket :
  (forall b, b ∈ buckets -> (length b <= 0)%nat) -> bucket ∈ distribute ps active shift width buckets ->
  (length bucket <= length active)%nat.
Proof.
  intros Hb. replace (length active) with (0 + length active)%nat by lia. revert buckets Hb. generalize 0%nat as n.
  induction active as [|i active IH]; intros n buckets Hb Hin; cbn [distribute] in Hin; [apply Hb in Hin; cbn; lia|].
  cbn [length]. replace (n + S (length active))%nat with (S n + length active)%nat by lia. eapply IH; [|exact Hin].
  intros b Hbi. destruct (isWildcard _ _ _).
  - apply list_elem_of_fmap in Hbi as (b' & -> & Hb'). rewrite length_app. pose proof (Hb b' Hb'). cbn. lia.
  - apply list_elem_of_lookup_1 in Hbi as [k Hk]. rewrite list_lookup_alter in Hk. case_decide.
    + apply fmap_Some in Hk as (b' & Hk & ->). rewrite length_app. pose proof (Hb b' (list_elem_of_lookup_2 _ _ _ Hk)). cbn. lia.
    + pose proof (Hb b (list_elem_of_lookup_2 _ _ _ Hk)). lia.
Qed.

Section Bounds.
Context `{SorterLaws}.

Lemma buildNode_bounds levels ps active insnWidth :
  (nodeDepth (buildNode levels ps active insnWidth) <= S levels)%nat /\
  (nodeWorstLeaf (buildNode levels ps active insnWidth) <= length active)%nat.
Proof using Type*.
  revert active. induction levels as [|levels IH]; intros active; cbn [buildNode].
  { destruct (_ <=? _)%nat; cbn; lia. }
  assert (length (sort_by (indexBefore ps) active) = length active) as Hsort by (apply Permutation_length, sort_by_perm).
  destruct (_ <=? _)%nat; [cbn; lia|]. destruct (bestField ps active insnWidth) as [best|] eqn:Eb; [|cbn; lia].
  destruct (_ <=? _)%nat; [cbn; lia|]. apply bestField_in, elem_of_allFields in Eb as (Hs & Hbw & Hfit).
  set (buckets := distribute _ _ _ _ _).
  assert (forall b, b ∈ buckets -> (length b <= length active)%nat) as Hb.
  { intros b. apply elem_of_distribute. intros b' [k [-> _]%lookup_repeat]%list_elem_of_lookup_1. done. }
  cbn [nodeDepth nodeWorstLeaf]. destruct (Z.eqb_spec (candWidth best) 0); [lia|]. split.
  - apply le_n_S, max_le. intros x Hx. rewrite <- list_fmap_compose in Hx. apply list_elem_of_fmap in Hx as ([|i b] & -> & Hin); cbn; [lia|].
    apply (IH (i :: b)).
  - apply max_le. intros x Hx. rewrite <- list_fmap_compose in Hx. apply list_elem_of_fmap in Hx as ([|i b] & -> & Hin); cbn; [lia|].
    pose proof (proj2 (IH (i :: b))). pose proof (Hb _ Hin). lia.
Qed.
End Bounds.

(** A node and its children, by induction. *)
Lemma DecisionNode_ind' (P : DecisionNode -> Prop) :
  (forall shift width children candidates, Forall (from_option P True) children -> P (MkNode shift width children candidates)) ->
  forall node, P node.
Proof.
  intros Hn. fix IH 1. intros [shift width children candidates]. apply Hn.
  induction children as [|[c|] cs IHc]; constructor; cbn; auto.
Qed.

Lemma foldr_max_elem (l : list nat) x : x ∈ l -> (x <= foldr Nat.max 0 l)%nat.
Proof. induction 1 as [x l|x y l _ IH]; cbn; lia. Qed.

Lemma lookup_worstLeaf node word : (length (lookupNode node word) <= nodeWorstLeaf node)%nat.
Proof.
  induction node as [shift width children candidates IH] using DecisionNode_ind'.
  destruct (decide (width = 0)) as [->|Hw]; [done|]. rewrite lookupNode_split by done.
  cbn [nodeWorstLeaf]. destruct (Z.eqb_spec width 0); [done|].
  destruct (children !! _) as [[c|]|] eqn:E; cbn [length]; [|lia..]. apply list_elem_of_lookup_2 in E.
  rewrite Forall_forall in IH. etrans; [apply (IH _ E)|]. apply foldr_max_elem, list_elem_of_fmap. by exists (Some c).
Qed.

(** ** Overlaps *)

Lemma bit_sum_mono a b n : (forall i, Z.testbit b i = true -> Z.testbit a i = true) -> bit_sum b n <= bit_sum a n.
Proof.
  intros H. induction n as [|n IH]; cbn [bit_sum]; [lia|]. specialize (H (Z.of_nat n)).
  destruct (Z.testbit b _); [rewrite H by done|]; destruct (Z.testbit a _); cbn; lia.
Qed.

Lemma bit_sum_strict a b n i :
  (forall i, Z.testbit b i = true -> Z.testbit a i = true) -> 0 <= i < Z.of_nat n -> Z.testbit a i = true ->
  Z.testbit b i = false -> bit_sum b n < bit_sum a n.
Proof.
  intros H Hi Ha Hb. induction n as [|n IH]; [lia|]. cbn [bit_sum].
  destruct (decide (i = Z.of_nat n)) as [->|Hne].
  - rewrite Ha, Hb. pose proof (bit_sum_mono a b n H). cbn. lia.
  - specialize (IH ltac:(lia)). specialize (H (Z.of_nat n)). destruct (Z.testbit b _); [rewrite H by done|]; destruct (Z.testbit a _); cbn; lia.
Qed.

(** A more specific pattern constrains more bits, so it comes earlier in match order. *)
Lemma strictlyMoreSpecific_count a b :
  fits 64 (patMask a) -> fits 64 (patMask b) -> strictlyMoreSpecific a b = true -> countOnes (patMask b) < countOnes (patMask a).
Proof.
  intros Ha Hb [Hsub%Z.eqb_eq Hne%negb_true_iff%Z.eqb_neq]%andb_true_iff.
  assert (forall i, Z.testbit (patMask b) i = true -> Z.testbit (patMask a) i = true) as Hbits.
  { intros i Hi. rewrite <- Hsub, Z.land_spec in Hi. by apply andb_true_iff in Hi as []. }
  rewrite !countOnes_bit_sum by done.
  destruct (decide (Exists (fun i => Z.testbit (patMask a) i <> Z.testbit (patMask b) i) (seqZ 0 64))) as [(i & Hi%elem_of_seqZ & Hd)%Exists_exists|Hno].
  - apply (bit_sum_strict _ _ 64 i); [done|lia|..]; specialize (Hbits i);
      destruct (Z.testbit (patMask a) i), (Z.testbit (patMask b) i); intuition congruence.
  - exfalso. apply Hne, Z.bits_inj'. intros i Hi. destruct (decide (i < 64)); [|by rewrite !(testbit_high 64) by (done || lia)].
    apply dec_stable. intros Hd. apply Hno, Exists_exists. exists i. split; [apply elem_of_seqZ; lia|done].
Qed.

Lemma same_count_unspecific a b :
  fits 64 (patMask a) -> fits 64 (patMask b) -> countOnes (patMask a) = countOnes (patMask b) -> strictlyMoreSpecific a b = false.
Proof. intros Ha Hb Hc. apply not_true_iff_false. intros Hs. pose proof (strictlyMoreSpecific_count a b Ha Hb Hs). lia. Qed.

(** A pattern of 64 bits whose value lies inside its mask. *)
Definition pattern_ok (p : EncodingPattern) : Prop :=
  fits 64 (patMask p) /\ fits 64 (patValue p) /\ Z.land (patValue p) (patMask p) = patValue p.

Definition bothMatch (a b : EncodingPattern) (word : Z) : Prop :=
  patternMatches a word = true /\ patternMatches b word = true.

Lemma overlap_witness a b :
  pattern_ok a -> pattern_ok b -> patternsOverlap a b = true -> bothMatch a b (overlapWitness a b).
Proof.
  intros (Hma & Hva & Ha) (Hmb & Hvb & Hb) H%Z.eqb_eq. unfold bothMatch, patternMatches. rewrite !Z.eqb_eq. unfold overlapWitness.
  rewrite Ha, Hb.
  assert (forall i, Z.testbit (patMask a) i = true -> Z.testbit (patMask b) i = true -> Z.testbit (patValue a) i = Z.testbit (patValue b) i) as Hc.
  { intros i Hia Hib. apply (f_equal (fun z => Z.testbit z i)) in H. rewrite !Z.land_spec, Z.lxor_spec, Hia, Hib, Z.testbit_0_l in H.
    by destruct (Z.testbit (patValue a) i), (Z.testbit (patValue b) i). }
  assert (forall p i, Z.land (patValue p) (patMask p) = patValue p -> Z.testbit (patValue p) i = true -> Z.testbit (patMask p) i = true) as Hin.
  { intros p i Hp Hi. rewrite <- Hp, Z.land_spec in Hi. by apply andb_true_iff in Hi as []. }
  split; apply Z.bits_inj'; intros i Hi; rewrite Z.land_spec, Z.lor_spec; specialize (Hc i); pose proof (Hin a i Ha); pose proof (Hin b i Hb);
    destruct (Z.testbit (patValue a) i), (Z.testbit (patValue b) i), (Z.testbit (patMask a) i), (Z.testbit (patMask b) i); intuition congruence.
Qed.

Lemma overlap_complete a b word : bothMatch a b word -> patternsOverlap a b = true.
Proof.
  intros [Ha%Z.eqb_eq Hb%Z.eqb_eq]. apply Z.eqb_eq. rewrite <- Ha, <- Hb. apply Z.bits_inj'. intros i Hi.
  rewrite !Z.land_spec, Z.lxor_spec, !Z.land_spec, Z.testbit_0_l.
  by destruct (Z.testbit word i), (Z.testbit (patMask a) i), (Z.testbit (patMask b) i).
Qed.

(** Two rules nothing tells apart: a word both match, the same priority,
    neither the more specific, no guards. *)
Definition ambiguous (a b : EncodingPattern) : Prop :=
  (exists word, bothMatch a b word) /\ patPriority a = patPriority b /\
  strictlyMoreSpecific a b = false /\ strictlyMoreSpecific b a = false /\ patGuards a = false /\ patGuards b = false.

Lemma conflictOf_Some a b c : pattern_ok a -> pattern_ok b ->
  conflictOf a b = Some c <-> ambiguous a b /\ c = MkConflict (patInstruction a) (patInstruction b) (overlapWitness a b).
Proof.
  intros Ha Hb. unfold conflictOf, ambiguous. destruct (patternsOverlap a b) eqn:Eo; cbn [negb].
  2: { split; [done|]. intros [[[word Hw] _] _]. by rewrite (overlap_complete a b word Hw) in Eo. }
  pose proof (overlap_witness a b Ha Hb Eo). destruct (Z.eqb_spec (patPriority a) (patPriority b)); cbn [negb]; [|split; [done|naive_solver]].
  destruct (strictlyMoreSpecific a b), (strictlyMoreSpecific b a); cbn [orb]; try (split; [done|by intros [(_ & _ & ? & ? & _) _]]).
  destruct (patGuards a), (patGuards b); cbn [orb]; try (split; [done|by intros [(_ & _ & _ & _ & ? & ?) _]]).
  split; [intros [= <-]|intros [_ ->]; done]. split_and!; eauto.
Qed.

Lemma elem_of_findOverlaps ps c :
  c ∈ findOverlaps ps <-> exists i j a b, (i < j)%nat /\ ps !! i = Some a /\ ps !! j = Some b /\ conflictOf a b = Some c.
Proof.
  induction ps as [|p ps IH]; cbn.
  - split; [by intros ?%elem_of_nil|by intros (? & ? & ? & ? & ? & ? & ? & ?)].
  - rewrite elem_of_app, list_elem_of_omap, IH. split.
    + intros [(b & Hb & Hc)|(i & j & a & b & Hij & Hi & Hj & Hc)].
      * apply list_elem_of_lookup_1 in Hb as [j Hj]. exists 0%nat, (S j), p, b. split_and!; [lia|done..].
      * exists (S i), (S j), a, b. split_and!; [lia|done..].
    + intros ([|i] & [|j] & a & b & Hij & Hi & Hj & Hc); try lia; cbn in Hi, Hj.
      * injection Hi as <-. left. exists b. split; [by eapply list_elem_of_lookup_2|done].
      * right. exists i, j, a, b. split_and!; [lia|done..].
Qed.

(** ** Properties *)

(** C38 The overlap report lists exactly the ambiguous pairs of rules, each with
    a word that both match; and where it is empty, any two rules without guards
    that match a common word are told apart by priority or specificity, so that
    match order between them does not depend on the order of declaration. *)
Theorem findOverlaps_exact ps :
  Forall pattern_ok ps ->
  (forall i j a b, (i < j)%nat -> ps !! i = Some a -> ps !! j = Some b -> ambiguous a b ->
     MkConflict (patInstruction a) (patInstruction b) (overlapWitness a b) ∈ findOverlaps ps) /\
  (forall c, c ∈ findOverlaps ps -> exists i j a b, (i < j)%nat /\ ps !! i = Some a /\ ps !! j = Some b /\ ambiguous a b /\
     conflictFirst c = patInstruction a /\ conflictSecond c = patInstruction b /\ bothMatch a b (conflictWitness c)) /\
  (findOverlaps ps = [] -> forall i j a b word, i <> j -> ps !! i = Some a -> ps !! j = Some b ->
     bothMatch a b word -> patGuards a = false -> patGuards b = false ->
     (patPriority a, countOnes (patMask a)) <> (patPriority b, countOnes (patMask b))).
Proof.
  intros Hok. rewrite Forall_lookup in Hok. split_and!.
  - intros i j a b Hij Hi Hj Ham. apply elem_of_findOverlaps. exists i, j, a, b. split_and!; [done..|].
    apply conflictOf_Some; eauto.
  - intros c (i & j & a & b & Hij & Hi & Hj & Hc)%elem_of_findOverlaps.
    apply conflictOf_Some in Hc as [Ham ->]; eauto. exists i, j, a, b. split_and!; try done; apply overlap_witness; eauto;
      destruct Ham as [[word Hw] _]; by apply (overlap_complete a b word).
  - intros Hnil i j a b word Hij Hi Hj Hw Ga Gb [= Hp Hc].
    assert (forall i j a b, (i < j)%nat -> ps !! i = Some a -> ps !! j = Some b -> ~ ambiguous a b) as Hno.
    { intros i' j' a' b' Hlt Hi' Hj' Ham. apply (not_elem_of_nil (MkConflict (patInstruction a') (patInstruction b') (overlapWitness a' b'))).
      rewrite <- Hnil. apply elem_of_findOverlaps. exists i', j', a', b'. split_and!; [done..|]. apply conflictOf_Some; eauto. }
    destruct (Hok i a Hi) as (Ma & _), (Hok j b Hj) as (Mb & _).
    pose proof (same_count_unspecific a b Ma Mb Hc). pose proof (same_count_unspecific b a Mb Ma (eq_sym Hc)).
    assert (ambiguous a b) by (unfold ambiguous; eauto 10). assert (ambiguous b a) by (unfold ambiguous; destruct Hw; split_and!; try done; by exists word).
    destruct (decide (i < j)%nat); [apply (Hno i j a b)|apply (Hno j i b a)]; try done; lia.
Qed.

(** C39 Looking a word up costs a bounded number of steps: the tree has at most
    [kMaxDepth] splits on the way to a leaf, whatever the patterns; the reported
    worst leaf bounds the candidates of every word and is at most the number of
    patterns; and where there are at most [kLeafThreshold] patterns the tree is
    one leaf holding all of them. *)
Theorem decision_tree_bounds `{SorterLaws} ps insnWidth :
  let t := buildDecisionTree ps insnWidth in
  (treeDepth t <= S kMaxDepth)%nat /\ (worstLeaf t <= length ps)%nat /\
  (forall word, (length (treeLookup t word) <= worstLeaf t)%nat) /\
  ((length ps <= kLeafThreshold)%nat -> treeDepth t = 1%nat /\ worstLeaf t = length ps /\ nodeCount t = 1%nat).
Proof.
  cbn zeta. unfold buildDecisionTree, treeDepth, worstLeaf, treeLookup, nodeCount. cbn [treeRoot]. fold (allIndices ps).
  destruct (buildNode_bounds kMaxDepth ps (sort_by (indexBefore ps) (allIndices ps)) insnWidth) as [Hd Hl].
  assert (length (sort_by (indexBefore ps) (allIndices ps)) = length ps) as Hlen.
  { unfold allIndices. rewrite (Permutation_length (sort_by_perm _ _ _)). by rewrite length_fmap, length_seq. }
  rewrite Hlen in Hl. split_and!; [done..|intros word; apply lookup_worstLeaf|].
  intros Hs. unfold kMaxDepth. cbn [buildNode]. rewrite Hlen. by destruct (Nat.leb_spec (length ps) kLeafThreshold); [cbn|lia].
Qed.
