(* ===== verification/Engine.v ===== *)
(** * The specification engine (spec/engine.h, spec/engine.cpp)

    The bytecode interpreter that runs guards, probes control flow and builds IL,
    and the three operations over it: [decode], [probe] and [elaborate]. A run
    ends ([Done]), meets something C++ leaves undefined or a failed assertion of
    the builders ([Fault]), or goes on for longer than the fuel ([OutOfFuel]). *)
From S2P Require Import Prelude Bits Types Exprs Registers Func Program Sorting Encoding.

(** ** Integers *)

Definition applyIntUnary (o : option IntOp) (a : Z) : Z :=
  match o with
  | Some IntOp.Negate => add64 (not64 a) 1
  | Some IntOp.Not => not64 a
  | Some IntOp.LogicalNot => if a =? 0 then 1 else 0
  | _ => a
  end.

(** A comparison as a number. *)
Definition truth (b : bool) : Z := if b then 1 else 0.

(** Signed division; the quotient of the least number by minus one overflows. *)
Definition divSigned (quotient : Z -> Z -> Z) (sa sb : Z) : option Z :=
  if sb =? 0 then Some 0
  else if (sa =? - 2 ^ 63) && (sb =? -1) then None else Some (u64 (quotient sa sb)).

Definition applyIntBinary (o : option IntOp) (a b : Z) : option Z :=
  let sa := toI64 a in
  let sb := toI64 b in
  match o with
  | Some IntOp.Add => Some (add64 a b)
  | Some IntOp.Sub => Some (sub64 a b)
  | Some IntOp.Mul => Some (mul64 a b)
  | Some IntOp.DivU => Some (if b =? 0 then 0 else a / b)
  | Some IntOp.DivS => divSigned Z.quot sa sb
  | Some IntOp.RemU => Some (if b =? 0 then 0 else a mod b)
  | Some IntOp.RemS => divSigned Z.rem sa sb
  | Some IntOp.And => Some (Z.land a b)
  | Some IntOp.Or => Some (Z.lor a b)
  | Some IntOp.Xor => Some (Z.lxor a b)
  | Some IntOp.Shl => Some (if 64 <=? b then 0 else shl64 a b)
  | Some IntOp.ShrU => Some (if 64 <=? b then 0 else shr64 a b)
  | Some IntOp.ShrS => Some (u64 (if 64 <=? b then (if sa <? 0 then -1 else 0) else Z.shiftr sa b))
  | Some IntOp.Equal => Some (truth (a =? b))
  | Some IntOp.NotEqual => Some (truth (negb (a =? b)))
  | Some IntOp.LessU => Some (truth (a <? b))
  | Some IntOp.LessEqualU => Some (truth (a <=? b))
  | Some IntOp.LessS => Some (truth (sa <? sb))
  | Some IntOp.LessEqualS => Some (truth (sa <=? sb))
  | Some IntOp.GreaterU => Some (truth (b <? a))
  | Some IntOp.GreaterEqualU => Some (truth (b <=? a))
  | Some IntOp.GreaterS => Some (truth (sb <? sa))
  | Some IntOp.GreaterEqualS => Some (truth (sb <=? sa))
  | Some IntOp.LogicalAnd => Some (truth (negb (a =? 0) && negb (b =? 0)))
  | Some IntOp.LogicalOr => Some (truth (negb (a =? 0) || negb (b =? 0)))
  | _ => Some 0
  end.

Definition castResultType (o : ExprOp) (width : Z) (floatResult : bool) : Ty :=
  match o with
  | ExprOp.IntToFpS | ExprOp.IntToFpU | ExprOp.FpConvert => floating width
  | ExprOp.Bitcast => if floatResult then floating width else integer width
  | _ => integer width
  end.

(** ** Decoded instructions and their control flow *)

Definition kMaxFields : nat := 16.

(** [decFields] has [fieldCount] elements. *)
Record DecodedInsn : Set := MkDecodedInsn {
  decValid : bool; decInstruction : Z; decAddress : Z; decWord : Z; decLength : Z; decFields : list Z }.

Definition decNext (i : DecodedInsn) : Z := add64 (decAddress i) (decLength i).

Module FlowKind.
Inductive FlowKind : Set := Fallthrough | Branch | CondBranch | IndirectBranch | Return | Unreachable | Unknown.
End FlowKind.
Abbreviation FlowKind := FlowKind.FlowKind.

#[export] Instance FlowKind_eq_dec : EqDecision FlowKind.
Proof. solve_decision. Defined.

Record InsnFlow : Set := MkInsnFlow {
  flowKind : FlowKind; flowTarget : Z; flowFallthrough : Z; flowCalls : bool; flowCallKnown : bool; flowCallTarget : Z }.

Definition newFlow : InsnFlow := MkInsnFlow FlowKind.Fallthrough 0 0 false false 0.

Definition terminates (w : InsnFlow) : bool := negb (bool_decide (flowKind w = FlowKind.Fallthrough)).

(** ** The interpreter's state *)

Record Slot : Set := MkSlot { slotInteger : Z; slotExpr : N }.
Definition emptySlot : Slot := MkSlot 0 kInvalidIndex.
Definition withInteger (value : Z) (s : Slot) : Slot := MkSlot value (slotExpr s).
Definition withExpr (id : N) (s : Slot) : Slot := MkSlot (slotInteger s) id.

Module EngineError.
Inductive EngineError : Set :=
  | NestedTooDeeply | SlotOutsideFrame | NoBlockResolver | TargetOutside (address : Z) | NoSuchFunction
  | FlagDefWithoutOperands | ReadsMissingRegister | WritesMissingRegister | OpcodeNotImplemented.
End EngineError.
Abbreviation EngineError := EngineError.EngineError.

(** The frame of the running body, the scratch slot, the flow, the first error,
    and the function being built (untouched while probing). *)
Record EngineState := MkEngineState {
  frame : list Slot; scratch : Slot; engineFlow : InsnFlow; engineError : option EngineError; built : Function }.

Definition withFrame (s : EngineState) (fr : list Slot) : EngineState :=
  MkEngineState fr (scratch s) (engineFlow s) (engineError s) (built s).
Definition withScratch (s : EngineState) (x : Slot) : EngineState :=
  MkEngineState (frame s) x (engineFlow s) (engineError s) (built s).
Definition withFlow (s : EngineState) (w : InsnFlow) : EngineState :=
  MkEngineState (frame s) (scratch s) w (engineError s) (built s).
Definition withError (s : EngineState) (e : EngineError) : EngineState :=
  MkEngineState (frame s) (scratch s) (engineFlow s) (Some e) (built s).
Definition withBuilt (s : EngineState) (f : Function) : EngineState :=
  MkEngineState (frame s) (scratch s) (engineFlow s) (engineError s) f.

Inductive Run (A : Type) : Type := Done (x : A) | Fault | OutOfFuel.
Arguments Done {A} x. Arguments Fault {A}. Arguments OutOfFuel {A}.

Definition E (A : Type) : Type := EngineState -> Run (A * EngineState).

#[export] Instance E_ret : MRet E := fun A x s => Done (x, s).
#[export] Instance E_bind : MBind E := fun A B k m s =>
  match m s with Done (x, s) => k x s | Fault => Fault | OutOfFuel => OutOfFuel end.

Definition eget : E EngineState := fun s => Done (s, s).
Definition eput (q : EngineState -> EngineState) : E unit := fun s => Done (tt, q s).
Definition eof {A} (x : option A) : E A := fun s => match x with Some x => Done (x, s) | None => Fault end.
(** A builder of the function. *)
Definition build {A} (m : M A) : E A := fun s =>
  match m (built s) with Some (x, f) => Done (x, withBuilt s f) | None => Fault end.

(** ** The interpreter *)

(** [LiftSite]; [blockResolver] is [blockAt], which may be empty. *)
Record LiftSite : Type := MkLiftSite { siteBlock : N; blockResolver : option (Z -> N) }.

Definition kMaxCallDepth : nat := 64.

Definition setError (e : EngineError) : E unit :=
  eput (fun s => match engineError s with None => withError s e | Some _ => s end).

Definition outside (s : EngineState) (index : Z) : bool :=
  (index =? kNoSlot) || (Z.of_nat (length (frame s)) <=? index).

(** [slot(base, index)] read, and a member of it assigned. *)
Definition slotAt (index : Z) : E Slot :=
  s ← eget;
  if outside s index then setError EngineError.SlotOutsideFrame;; mret (scratch s)
  else eof (frame s !! Z.to_nat index).

Definition assignSlot (index : Z) (q : Slot -> Slot) : E unit :=
  s ← eget;
  if outside s index then setError EngineError.SlotOutsideFrame;; eput (fun s => withScratch s (q (scratch s)))
  else eput (fun s => withFrame s (alter q (Z.to_nat index) (frame s))).

Definition intAt (index : Z) : E Z := x ← slotAt index; mret (slotInteger x).
Definition engineExprAt (index : Z) : E N := x ← slotAt index; mret (slotExpr x).
Definition setInt (index value : Z) : E unit := assignSlot index (withInteger value).
Definition setExpr (index : Z) (id : N) : E unit := assignSlot index (withExpr id).

(** The arguments in slots [first], [first + 1], ... *)
Fixpoint slotRun (count : nat) (first : Z) : E (list Slot) :=
  match count with
  | O => mret []
  | S count => x ← slotAt (u16 first); xs ← slotRun count (first + 1); mret (x :: xs)
  end.

Section Interpreter.
Variables (program : SpecProgram) (insn : DecodedInsn) (site : option LiftSite).

Definition building : bool := bool_decide (is_Some site).

(** [site_->block]. *)
Definition block : N := match site with Some x => siteBlock x | None => kInvalidIndex end.

Definition callResultType : E Ty :=
  if negb building then mret voidType
  else build (gets (fun f =>
    let x0 := findRegister (registers f) "x0" in
    if handleValid x0 then root ← rootOf (registers f) x0; registerType <$> rfAt (registers f) root
    else Some voidType)).

Definition widthOfExpr (id : N) : E Z :=
  if building then build (gets (fun f => bits <$> typeAt f id)) else mret 0.

Definition blockFor (target : Z) : E N :=
  match site ≫= blockResolver with
  | None => setError EngineError.NoBlockResolver;; mret kInvalidIndex
  | Some blockAt =>
      let b := blockAt target in
      if handleValid b then mret b else setError (EngineError.TargetOutside target);; mret b
  end.

Definition recordFlow (q : InsnFlow -> InsnFlow) : E unit := eput (fun s => withFlow s (q (engineFlow s))).
Definition setKind (k : FlowKind) (w : InsnFlow) : InsnFlow :=
  MkInsnFlow k (flowTarget w) (flowFallthrough w) (flowCalls w) (flowCallKnown w) (flowCallTarget w).
Definition setTarget (t : Z) (w : InsnFlow) : InsnFlow :=
  MkInsnFlow (flowKind w) t (flowFallthrough w) (flowCalls w) (flowCallKnown w) (flowCallTarget w).
Definition setFallthrough (t : Z) (w : InsnFlow) : InsnFlow :=
  MkInsnFlow (flowKind w) (flowTarget w) t (flowCalls w) (flowCallKnown w) (flowCallTarget w).
Definition setCalls (known : option Z) (w : InsnFlow) : InsnFlow :=
  match known with
  | Some t => MkInsnFlow (flowKind w) (flowTarget w) (flowFallthrough w) true true t
  | None => MkInsnFlow (flowKind w) (flowTarget w) (flowFallthrough w) true (flowCallKnown w) (flowCallTarget w)
  end.

(** [if (building()) { ... } return true]. *)
Definition whenBuilding (m : E bool) : E bool := if building then m else mret true.

Definition done {A} (m : E A) : E bool := m;; mret true.

(** The first switch of [executeEffect]: control flow, recorded in both modes. *)
Definition executeFlow (o : Opcode) (i : Insn) : option (E bool) :=
  match o with
  | Opcode.Branch => Some (
      recordFlow (setKind FlowKind.Branch);;
      t ← intAt (insnA i); recordFlow (setTarget t);;
      whenBuilding (
        target ← blockFor t;
        if negb (handleValid target) then mret false
        else done (build (appendBranch block (decAddress insn) target))))
  | Opcode.CondBranch => Some (
      recordFlow (setKind FlowKind.CondBranch);;
      t ← intAt (insnB i); recordFlow (setTarget t);;
      n ← intAt (insnC i); recordFlow (setFallthrough n);;
      whenBuilding (
        taken ← blockFor t;
        notTaken ← blockFor n;
        if negb (handleValid taken) || negb (handleValid notTaken) then mret false
        else
          c ← engineExprAt (insnA i);
          done (build (appendCondBranch block (decAddress insn) c taken notTaken))))
  | Opcode.IndirectBranch => Some (
      recordFlow (setKind FlowKind.IndirectBranch);;
      whenBuilding (t ← engineExprAt (insnA i); done (build (appendIndirectBranch block (decAddress insn) t))))
  | Opcode.Ret => Some (
      recordFlow (setKind FlowKind.Return);; whenBuilding (done (build (appendReturn block (decAddress insn)))))
  | Opcode.Unreachable => Some (
      recordFlow (setKind FlowKind.Unreachable);; whenBuilding (done (build (appendUnreachable block (decAddress insn)))))
  | Opcode.CallAddr => Some (
      t ← intAt (insnA i); recordFlow (setCalls (Some t));;
      whenBuilding (
        target ← build (constant (integer (pointerBits program)) t);
        result ← callResultType;
        done (build (appendCall block (decAddress insn) target result))))
  | Opcode.IndirectCall => Some (
      recordFlow (setCalls None);;
      whenBuilding (
        target ← engineExprAt (insnA i);
        result ← callResultType;
        done (build (appendCall block (decAddress insn) target result))))
  | Opcode.Unimplemented => Some (
      recordFlow (setKind FlowKind.Unknown);;
      whenBuilding (done (build (appendUnimplemented block (decAddress insn) (programString program (u32 (insnImm i)))))))
  | _ => None
  end.

(** The operands of a flag producer: up to the first absent one. *)
Fixpoint flagOperands (indices : list Z) : E (list N) :=
  match indices with
  | [] => mret []
  | index :: indices =>
      if index =? kNoSlot then mret []
      else x ← engineExprAt index; xs ← flagOperands indices; mret (x :: xs)
  end.

(** The second switch of [executeEffect], reached while building only. *)
Definition executeBuild (o : option Opcode) (i : Insn) : E bool :=
  match o with
  | Some Opcode.Imm =>
      w ← intAt (insnB i); v ← intAt (insnA i);
      x ← build (constant (integer (u32 w)) v); done (setExpr (insnDest i) x)
  | Some Opcode.Undef =>
      w ← intAt (insnA i); x ← build (undefined (integer (u32 w))); done (setExpr (insnDest i) x)
  | Some Opcode.ExprUnary =>
      o ← eof (enumAt exprOps (insnAux i)); a ← engineExprAt (insnA i);
      x ← build (unary o a); done (setExpr (insnDest i) x)
  | Some Opcode.ExprBinary =>
      o ← eof (enumAt exprOps (insnAux i)); a ← engineExprAt (insnA i); b ← engineExprAt (insnB i);
      x ← build (binary o a b); done (setExpr (insnDest i) x)
  | Some Opcode.Cast =>
      o ← eof (enumAt exprOps (Z.land (insnAux i) 127)); w ← intAt (insnB i); a ← engineExprAt (insnA i);
      x ← build (cast o (castResultType o (u32 w) (negb (Z.land (insnAux i) 128 =? 0))) a);
      done (setExpr (insnDest i) x)
  | Some Opcode.Extract =>
      w ← intAt (insnC i); a ← engineExprAt (insnA i); low ← intAt (insnB i);
      x ← build (extractExpr (integer (u32 w)) a (u32 low)); done (setExpr (insnDest i) x)
  | Some Opcode.Concat =>
      high ← engineExprAt (insnA i); low ← engineExprAt (insnB i);
      wh ← widthOfExpr high; wl ← widthOfExpr low;
      x ← build (concat (integer (wh + wl)) high low); done (setExpr (insnDest i) x)
  | Some Opcode.Select =>
      c ← engineExprAt (insnA i); a ← engineExprAt (insnB i); b ← engineExprAt (insnC i);
      x ← build (select c a b); done (setExpr (insnDest i) x)
  | Some Opcode.FlagDef =>
      xs ← flagOperands [insnA i; insnB i; insnC i];
      match xs with
      | [] => setError EngineError.FlagDefWithoutOperands;; mret false
      | first :: _ =>
          o ← eof (enumAt flagOps (insnAux i)); w ← widthOfExpr first;
          x ← build (flagDef o w xs); done (setExpr (insnDest i) x)
      end
  | Some Opcode.FlagCond =>
      a ← engineExprAt (insnA i); c ← intAt (insnB i); c ← eof (enumAt conditionCodes c);
      x ← build (flagCondition a c); done (setExpr (insnDest i) x)
  | Some Opcode.FlagBit =>
      a ← engineExprAt (insnA i); c ← intAt (insnB i); c ← eof (enumAt flagBits c);
      x ← build (flagBitOf a c); done (setExpr (insnDest i) x)
  | Some Opcode.ReadReg =>
      a ← intAt (insnA i);
      let reg := Z.to_N (u32 (insnImm i + a)) in
      if negb (rfContains (progRegisters program) reg) then setError EngineError.ReadsMissingRegister;; mret false
      else
        value ← build (appendReadReg block (decAddress insn) reg);
        x ← build (valueRef value); done (setExpr (insnDest i) x)
  | Some Opcode.WriteReg =>
      a ← intAt (insnA i);
      let reg := Z.to_N (u32 (insnImm i + a)) in
      match rfAt (progRegisters program) reg with
      | None => setError EngineError.WritesMissingRegister;; mret false
      | Some info =>
          if decide (regClass info = RegClass.Zero) then mret true
          else v ← engineExprAt (insnB i); done (build (appendWriteReg block (decAddress insn) reg v))
      end
  | Some Opcode.Load =>
      w ← intAt (insnB i); a ← engineExprAt (insnA i);
      value ← build (appendLoad block (decAddress insn) (integer (u32 w)) a);
      x ← build (valueRef value); done (setExpr (insnDest i) x)
  | Some Opcode.Store =>
      v ← engineExprAt (insnB i); t ← build (gets (fun f => typeAt f v)); a ← engineExprAt (insnA i);
      done (build (appendStore block (decAddress insn) t a v))
  | Some Opcode.Nop => done (build (appendNop block (decAddress insn)))
  | Some Opcode.Intrinsic =>
      arguments ← slotRun (Z.to_nat (insnB i)) (insnA i);
      w ← (if insnC i =? kNoSlot then mret voidType else w ← intAt (insnC i); mret (integer (u32 w)));
      op ← build (appendIntrinsic block (decAddress insn) (programString program (u32 (insnImm i))) w (slotExpr <$> arguments));
      if insnDest i =? kNoSlot then mret true
      else x ← build (value ← gets (fun f => Some (resultOf f op)); valueRef value); done (setExpr (insnDest i) x)
  | _ => setError EngineError.OpcodeNotImplemented;; mret false
  end.

Definition executeEffect (o : option Opcode) (i : Insn) : E bool :=
  match o ≫= (fun o => executeFlow o i) with
  | Some m => m
  | None => whenBuilding (executeBuild o i)
  end.

(** *** The loop *)

(** What the loop does after an instruction: [continue] at a position, or return. *)
Inductive Control : Type := Next | JumpTo (pc : Z) | Finish (okay : bool) (result : Slot).

Definition bind_next {A} (m : E A) : E Control := m;; mret Next.

(** [run], with the loop it enters. *)
Definition runWith (exec : nat -> Body -> Z -> E (bool * Slot)) (depth : nat) (body : Body) (arguments : list Slot)
  : E (bool * Slot) :=
  if (kMaxCallDepth <=? depth)%nat then setError EngineError.NestedTooDeeply;; mret (false, emptySlot)
  else
    s ← eget;
    let slots := Nat.max (Z.to_nat (bodySlots body)) (length arguments) in
    eput (fun s => withFrame s (arguments ++ repeat emptySlot (slots - length arguments)));;
    r ← exec (S depth) body 0;
    eput (fun s' => withFrame s' (frame s));;
    mret r.

(** One instruction of [execute]. *)
Definition executeInsn (call : Body -> list Slot -> E (bool * Slot)) (i : Insn) : E Control :=
  let o := enumAt opcodes (insnOp i) in
  match o with
  | Some Opcode.Halt => mret (Finish true emptySlot)
  | Some Opcode.Jump => mret (JumpTo (u32 (insnImm i)))
  | Some Opcode.JumpIfZero => a ← intAt (insnA i); mret (if a =? 0 then JumpTo (u32 (insnImm i)) else Next)
  | Some Opcode.Return =>
      if insnA i =? kNoSlot then mret (Finish true emptySlot)
      else r ← slotAt (insnA i); mret (Finish true r)
  | Some Opcode.ConstInt => bind_next (setInt (insnDest i) (insnImm i))
  | Some Opcode.Field => bind_next (setInt (insnDest i) (default 0 (decFields insn !! Z.to_nat (insnA i))))
  | Some Opcode.InsnPc => bind_next (setInt (insnDest i) (decAddress insn))
  | Some Opcode.InsnLen => bind_next (setInt (insnDest i) (decLength insn))
  | Some Opcode.Opword => bind_next (setInt (insnDest i) (decWord insn))
  | Some Opcode.Move => bind_next (x ← slotAt (insnA i); assignSlot (insnDest i) (fun _ => x))
  | Some Opcode.IntUnary =>
      bind_next (a ← intAt (insnA i); setInt (insnDest i) (applyIntUnary (enumAt intOps (insnAux i)) a))
  | Some Opcode.IntBinary =>
      bind_next (a ← intAt (insnA i); b ← intAt (insnB i);
                 r ← eof (applyIntBinary (enumAt intOps (insnAux i)) a b); setInt (insnDest i) r)
  | Some Opcode.IntSelect =>
      bind_next (a ← intAt (insnA i); x ← slotAt (if negb (a =? 0) then insnB i else insnC i);
                 assignSlot (insnDest i) (fun _ => x))
  | Some Opcode.SExtInt =>
      bind_next (b ← intAt (insnB i); a ← intAt (insnA i);
                 let bits := u32 b in
                 setInt (insnDest i) (if (bits =? 0) || (64 <=? bits) then a else u64 (signExtend a bits)))
  | Some Opcode.OnesInt => bind_next (a ← intAt (insnA i); setInt (insnDest i) (lowMask (u32 a)))
  | Some Opcode.HighestBitInt =>
      bind_next (a ← intAt (insnA i);
                 setInt (insnDest i) (if a =? 0 then not64 0 else 63 - countLeadingZeros a 64))
  | Some Opcode.RorInt =>
      bind_next (a ← intAt (insnA i); b ← intAt (insnB i); c ← intAt (insnC i);
                 let width := u32 c in
                 setInt (insnDest i) (if (width =? 0) || (64 <? width) then a else rotateRight a width (u32 b)))
  | Some Opcode.ReplicateInt =>
      bind_next (a ← intAt (insnA i); b ← intAt (insnB i); c ← intAt (insnC i);
                 r ← eof (replicate a (u32 b) (u32 c)); setInt (insnDest i) r)
  | Some Opcode.CallFn =>
      match functions program !! Z.to_nat (insnImm i) with
      | None => setError EngineError.NoSuchFunction;; mret (Finish false emptySlot)
      | Some callee =>
          arguments ← slotRun (Z.to_nat (insnB i)) (insnA i);
          '(okay, returned) ← call (fnBody callee) arguments;
          if (okay : bool) then bind_next (assignSlot (insnDest i) (fun _ => returned)) else mret (Finish false emptySlot)
      end
  | _ => okay ← executeEffect o i; mret (if (okay : bool) then Next else Finish false emptySlot)
  end.

Fixpoint execute (fuel : nat) (depth : nat) (body : Body) (pc : Z) : E (bool * Slot) :=
  match fuel with
  | O => fun _ => OutOfFuel
  | S fuel =>
      if negb (pc <? bodyLength body) then mret (true, emptySlot)
      else
        s ← eget;
        if decide (is_Some (engineError s)) then mret (false, emptySlot)
        else
          i ← eof (progCode program !! Z.to_nat (u32 (bodyStart body + pc)));
          c ← executeInsn (runWith (execute fuel) depth) i;
          match c with
          | Next => execute fuel depth body (pc + 1)
          | JumpTo pc => execute fuel depth body pc
          | Finish okay result => mret (okay, result)
          end
  end.

(** Enough for code whose jumps go forward: every level of calls makes at most
    one turn per instruction of its body, and one to leave. *)
Definition longestBody (body : Body) : nat :=
  foldr Nat.max (Z.to_nat (bodyLength body)) ((fun fn => Z.to_nat (bodyLength (fnBody fn))) <$> functions program).
Definition executeFuel (body : Body) : nat := kMaxCallDepth * S (longestBody body).

Definition run (body : Body) : E (bool * Slot) := runWith (execute (executeFuel body)) 0 body [].
End Interpreter.

Definition newEngine (f : Function) : EngineState := MkEngineState [] emptySlot newFlow None f.

(** ** Decoding *)

(** The instruction's bytes as a word. A little-endian byte past the eighth is
    shifted by 64 or more, which is undefined. *)
Fixpoint assembleWord (order : endian) (bytes : list Z) (index word : Z) : option Z :=
  match bytes with
  | [] => Some word
  | b :: bytes =>
      match order with
      | little =>
          if 64 <=? index * 8 then None
          else assembleWord order bytes (index + 1) (Z.lor word (shl64 b (index * 8)))
      | big => assembleWord order bytes (index + 1) (Z.lor (shl64 word 8) b)
      end
  end.

(** A shift by 64 or more is undefined. *)
Definition decodeField (word : Z) (field : ProgramField) : option Z :=
  if 64 <=? fieldShift field then None else Some (Z.land (shr64 word (fieldShift field)) (lowMask (fieldBits field))).

Definition decodeFields (rule : ProgramInsn) (word : Z) : option (list Z) :=
  mapM (decodeField word) (take kMaxFields (ruleFields rule)).

(** Probing builds nothing; its function is a placeholder. *)
Definition noFunction (p : SpecProgram) : Function := newFunction (progRegisters p) 0.

Fixpoint guardsAccept (p : SpecProgram) (trial : DecodedInsn) (guards : list Body) : Run bool :=
  match guards with
  | [] => Done true
  | guard :: guards =>
      match run p trial None guard (newEngine (noFunction p)) with
      | Done ((okay, result), _) =>
          if negb okay || (slotInteger result =? 0) then Done false else guardsAccept p trial guards
      | Fault => Fault
      | OutOfFuel => OutOfFuel
      end
  end.

Fixpoint tryCandidates (p : SpecProgram) (decoded : DecodedInsn) (candidates : list Z) : Run DecodedInsn :=
  match candidates with
  | [] => Done decoded
  | candidate :: candidates =>
      match patterns p !! Z.to_nat candidate with
      | None => Fault
      | Some pattern =>
          if negb (Z.land (decWord decoded) (patMask pattern) =? patValue pattern) then tryCandidates p decoded candidates
          else match instructions p !! Z.to_nat (patInstruction pattern) with
          | None => Fault
          | Some rule =>
              match decodeFields rule (decWord decoded) with
              | None => Fault
              | Some fields =>
                  let trial := MkDecodedInsn false (patInstruction pattern) (decAddress decoded) (decWord decoded)
                                 (decLength decoded) fields in
                  match guardsAccept p trial (ruleGuards rule) with
                  | Done true =>
                      Done (MkDecodedInsn true (patInstruction pattern) (decAddress decoded) (decWord decoded)
                              (decLength decoded) fields)
                  | Done false => tryCandidates p decoded candidates
                  | Fault => Fault
                  | OutOfFuel => OutOfFuel
                  end
              end
          end
      end
  end.

Definition decode (p : SpecProgram) (bytes : list Z) (address : Z) : Run DecodedInsn :=
  let len := insnWidth p / 8 in
  if Z.of_nat (length bytes) <? len then Done (MkDecodedInsn false 0 address 0 len [])
  else
    match assembleWord (progEndian p) (take (Z.to_nat len) bytes) 0 0 with
    | None => Fault
    | Some word => tryCandidates p (MkDecodedInsn false 0 address word len []) (treeLookup (decoder p) word)
    end.

(** ** Probing and elaborating *)

Definition unknownFlow (i : DecodedInsn) : InsnFlow := MkInsnFlow FlowKind.Unknown 0 (decNext i) false false 0.

Definition probe (p : SpecProgram) (i : DecodedInsn) : Run InsnFlow :=
  if negb (decValid i) then Done (unknownFlow i)
  else match instructions p !! Z.to_nat (decInstruction i) with
  | None => Fault
  | Some rule =>
      match run p i None (ruleSemantics rule) (newEngine (noFunction p)) with
      | Done ((okay, _), s) =>
          if negb okay then Done (unknownFlow i)
          else
            let observed := engineFlow s in
            Done (if decide (flowKind observed = FlowKind.Fallthrough) then setFallthrough (decNext i) observed else observed)
      | Fault => Fault
      | OutOfFuel => OutOfFuel
      end
  end.

(** [Result<void>]: the error, if any; a failure without one is internal. *)
Definition elaborate (p : SpecProgram) (i : DecodedInsn) (site : LiftSite) (f : Function)
  : Run (option (option EngineError) * Function) :=
  if negb (decValid i) then
    match appendUnimplemented (siteBlock site) (decAddress i) "undecodable" f with
    | Some (_, f) => Done (None, f)
    | None => Fault
    end
  else match instructions p !! Z.to_nat (decInstruction i) with
  | None => Fault
  | Some rule =>
      match run p i (Some site) (ruleSemantics rule) (newEngine f) with
      | Done ((okay, _), s) => Done (if (okay : bool) then None else Some (engineError s), built s)
      | Fault => Fault
      | OutOfFuel => OutOfFuel
      end
  end.
