(* ===== verification/DecodeProps.v ===== *)
(** * Decoding

    The decision tree changes which patterns are looked at, not which rule is
    found: [decode] gives the rule a scan of all patterns in match order finds. *)
From S2P Require Import Prelude Bits Types Exprs Registers Func Program Sorting Encoding EncodingProps Engine.
Local Open Scope Z_scope.

(** ** The reference decoder *)

(** A rule tried on a word, with the fields it has there. *)
Definition trialOf (fields : list Z) (valid : bool) (number : Z) (d : DecodedInsn) : DecodedInsn :=
  MkDecodedInsn valid number (decAddress d) (decWord d) (decLength d) fields.

Definition fieldsAt (p : SpecProgram) (d : DecodedInsn) (number : Z) : option (list Z) :=
  r ← instructions p !! Z.to_nat number; decodeFields r (decWord d).

Definition accepts (p : SpecProgram) (d : DecodedInsn) (number : Z) : Run bool :=
  match instructions p !! Z.to_nat number, fieldsAt p d number with
  | Some r, Some fields => guardsAccept p (trialOf fields false number d) (ruleGuards r)
  | _, _ => Fault
  end.

(** The first rule of a list of rules whose guards accept. *)
Fixpoint firstAccepted (p : SpecProgram) (d : DecodedInsn) (numbers : list Z) : Run DecodedInsn :=
  match numbers with
  | [] => Done d
  | number :: numbers =>
      match accepts p d number, fieldsAt p d number with
      | Done true, Some fields => Done (trialOf fields true number d)
      | Done false, _ => firstAccepted p d numbers
      | Fault, _ | _, None => Fault
      | OutOfFuel, _ => OutOfFuel
      end
  end.

(** The word of the bytes; a word of at most 64 bits always has one. *)
Definition wordOf (p : SpecProgram) (bytes : list Z) : option Z :=
  assembleWord (progEndian p) (take (Z.to_nat (insnWidth p / 8)) bytes) 0 0.

Definition undecoded (p : SpecProgram) (bytes : list Z) (address : Z) : DecodedInsn :=
  MkDecodedInsn false 0 address (default 0 (wordOf p bytes)) (insnWidth p / 8) [].

(** A linear scan of the patterns that match, in match order. *)
Definition decodeLinear `{Sorter} (p : SpecProgram) (bytes : list Z) (address : Z) : Run DecodedInsn :=
  let d := undecoded p bytes address in
  if Z.of_nat (length bytes) <? insnWidth p / 8 then Done (MkDecodedInsn false 0 address 0 (insnWidth p / 8) [])
  else firstAccepted p d ((fun i => patInstruction (patternAt (patterns p) i)) <$>
         filter (matchesAt (patterns p) (decWord d)) (sort_by (indexBefore (patterns p)) (allIndices (patterns p)))).

(** ** Words *)

Definition bytes_ok (bytes : list Z) : Prop := Forall (fits 8) bytes.

Lemma assembleWord_fits order bytes index word :
  bytes_ok bytes -> fits 64 word -> 0 <= index -> index + Z.of_nat (length bytes) <= 8 ->
  exists w, assembleWord order bytes index word = Some w /\ fits 64 w.
Proof.
  intros Hb. revert index word. induction Hb as [|b bytes Hb _ IH]; intros index word Hw Hi Hl; cbn in *; [by exists word|].
  destruct order; [if_false|]; (apply IH; [|lia..]); apply fits_lor; auto using fits_shl64; try lia.
  eapply fits_weaken; [done|lia].
Qed.

(** ** Candidates *)

Lemma tryCandidates_firstAccepted p d candidates :
  Forall (fun c => is_Some (patterns p !! Z.to_nat c)) candidates ->
  tryCandidates p d candidates =
  firstAccepted p d ((fun i => patInstruction (patternAt (patterns p) i)) <$> filter (matchesAt (patterns p) (decWord d)) candidates).
Proof.
  induction 1 as [|c candidates [a Ha] _ IH]; cbn [tryCandidates]; [done|]. rewrite Ha, filter_cons.
  assert (patternAt (patterns p) c = a) as Hc by (unfold patternAt; by rewrite Ha).
  destruct (Z.land (decWord d) (patMask a) =? patValue a) eqn:Em; cbn [negb].
  2: { rewrite decide_False; [done|]. unfold matchesAt, patternMatches. rewrite Hc. congruence. }
  rewrite decide_True by (unfold matchesAt, patternMatches; by rewrite Hc).
  cbn [fmap list_fmap firstAccepted]. unfold accepts. rewrite Hc. unfold fieldsAt.
  destruct (instructions p !! _) as [r|]; [|done]. cbn [mbind option_bind].
  destruct (decodeFields r (decWord d)) as [fields|]; [|done]. fold (trialOf fields false (patInstruction a) d). by destruct (guardsAccept _ _ _) as [[]| |].
Qed.

(** ** Ranges *)

(** Few enough patterns for a [uint32_t] index, a word of at most 64 bits, and
    a tree built from the patterns. *)
Record decodable `{Sorter} (p : SpecProgram) : Prop := {
  dec_count : Z.of_nat (length (patterns p)) <= 2 ^ 32;
  dec_width : 0 <= insnWidth p <= 64;
  dec_tree : decoder p = buildDecisionTree (patterns p) (insnWidth p) }.

Lemma elem_of_allIndices ps i :
  Z.of_nat (length ps) <= 2 ^ 32 -> i ∈ allIndices ps <-> 0 <= i < Z.of_nat (length ps).
Proof.
  intros Hn. unfold allIndices. rewrite list_elem_of_fmap. setoid_rewrite elem_of_seq. unfold u32. split.
  - intros (k & -> & Hk). rewrite Z.mod_small by lia. lia.
  - intros Hi. exists (Z.to_nat i). rewrite Z.mod_small by lia. lia.
Qed.

Lemma index_pattern ps i : 0 <= i < Z.of_nat (length ps) -> ps !! Z.to_nat i = Some (patternAt ps i).
Proof. intros Hi. unfold patternAt. destruct (lookup_lt_is_Some_2 ps (Z.to_nat i)) as [a ->]; [lia|done]. Qed.

Section Decode.
Context `{SorterLaws}.
Context (p : SpecProgram) (Hp : decodable p).

Lemma lookup_in_range word : fits 64 word ->
  Forall (fun c => is_Some (patterns p !! Z.to_nat c)) (treeLookup (decoder p) word).
Proof using Type*.
  intros Hw. destruct Hp as [Hn Hi Ht]. rewrite Ht. apply Forall_forall. intros i Hin.
  apply lookup_indices, elem_of_allIndices in Hin; [|done|lia|done]. rewrite index_pattern by done. eauto.
Qed.

Lemma wordOf_fits bytes : bytes_ok bytes -> exists w, wordOf p bytes = Some w /\ fits 64 w.
Proof using Type*.
  intros Hb. destruct Hp as [_ Hw _]. apply assembleWord_fits; [by apply Forall_take|by apply fits_0|done|].
  rewrite length_take. assert (insnWidth p / 8 <= 8) by (apply Z.div_le_upper_bound; lia). lia.
Qed.

Lemma decode_linear bytes address : bytes_ok bytes -> decode p bytes address = decodeLinear p bytes address.
Proof using Type*.
  intros Hb. unfold decode, decodeLinear, undecoded. destruct (_ <? _); [done|].
  destruct (wordOf_fits bytes Hb) as (w & Hword & Hw). fold (wordOf p bytes). rewrite Hword. cbn [default from_option].
  rewrite tryCandidates_firstAccepted by by apply lookup_in_range. destruct Hp as [Hn Hi Ht]. rewrite Ht.
  by rewrite lookup_linear by (done || lia).
Qed.

(** What a scan of a list in match order finds. *)
Lemma firstAccepted_spec d r (candidates : list Z) :
  in_order (indexBefore (patterns p)) candidates ->
  firstAccepted p d ((fun i => patInstruction (patternAt (patterns p) i)) <$> candidates) = Done r -> decValid d = false ->
  if decValid r
  then exists i fields, i ∈ candidates /\ fieldsAt p d (patInstruction (patternAt (patterns p) i)) = Some fields /\
         r = trialOf fields true (patInstruction (patternAt (patterns p) i)) d /\
         accepts p d (patInstruction (patternAt (patterns p) i)) = Done true /\
         forall j, j ∈ candidates -> accepts p d (patInstruction (patternAt (patterns p) j)) = Done true -> indexBefore (patterns p) j i = false
  else r = d /\ forall j, j ∈ candidates -> accepts p d (patInstruction (patternAt (patterns p) j)) = Done false.
Proof using.
  intros Hs. revert r. induction Hs as [|i candidates Hs IH Hi]; intros r Hdone Hd; cbn [fmap list_fmap firstAccepted] in Hdone.
  - injection Hdone as <-. rewrite Hd. split; [done|]. by intros j ?%elem_of_nil.
  - destruct (accepts p d (patInstruction (patternAt (patterns p) i))) as [[]| |] eqn:Ea; try (by destruct (fieldsAt p d (patInstruction (patternAt (patterns p) i)))).
    + destruct (fieldsAt p d _) as [fields|] eqn:Er; [|done]. injection Hdone as <-. exists i, fields. split_and!; try done; [by left|].
      intros j [->|Hj]%elem_of_cons _; [|by eapply Forall_forall in Hi].
      destruct (indexBefore_ordered (patterns p)) as (Hk & Hirr & _). apply not_true_iff_false. rewrite Hk. apply Hirr.
    + specialize (IH r Hdone Hd). destruct (decValid r).
      * destruct IH as (k & fields & Hk & Hfields & Hr & Hacc & Hbest). exists k, fields. split_and!; try done; [by right|].
        intros j [->|Hj]%elem_of_cons Hj'; [congruence|by apply Hbest].
      * destruct IH as [-> IH]. split; [done|]. intros j [->|Hj]%elem_of_cons; [done|by apply IH].
Qed.
End Decode.

(** ** Properties *)

Section Correct.
Context `{SorterLaws}.

(** C2 Decoding finds the right rule. For a program with at most 2^32 patterns,
    words of at most 64 bits and the decision tree of its patterns ([decodable]),
    given enough bytes and a decoding that ends in a result: the bytes make a word,
    and the decision tree gives the same answer as a scan of every pattern in match
    order; a decoded rule is one whose pattern matches the word and whose guards
    accept, and no other such rule comes before it; and a word is left undecoded only
    if every rule whose pattern matches it has a guard that refuses. *)
Theorem decode_correct p bytes address r :
  decodable p -> bytes_ok bytes -> insnWidth p / 8 <= Z.of_nat (length bytes) -> decode p bytes address = Done r ->
  let d := undecoded p bytes address in
  wordOf p bytes = Some (decWord d) /\ decodeLinear p bytes address = Done r /\
  (decValid r = true -> exists a rule fields, a ∈ patterns p /\ patternMatches a (decWord d) = true /\
     instructions p !! Z.to_nat (patInstruction a) = Some rule /\ decodeFields rule (decWord d) = Some fields /\
     r = trialOf fields true (patInstruction a) d /\
     accepts p d (patInstruction a) = Done true /\
     forall b, b ∈ patterns p -> patternMatches b (decWord d) = true -> accepts p d (patInstruction b) = Done true ->
       matchesBefore b a = false) /\
  (decValid r = false -> r = d /\ forall b, b ∈ patterns p -> patternMatches b (decWord d) = true ->
     accepts p d (patInstruction b) = Done false).
Proof using Type*.
  intros Hp Hb Hlen Hdone d. rewrite (decode_linear p Hp) in Hdone by done.
  split; [destruct (wordOf_fits p Hp bytes Hb) as (w & Hw & _); unfold d, undecoded; cbn; by rewrite Hw|]. split; [done|].
  unfold decodeLinear in Hdone. fold d in Hdone. destruct (Z.ltb_spec (Z.of_nat (length bytes)) (insnWidth p / 8)); [lia|].
  set (candidates := filter _ _) in Hdone.
  assert (in_order (indexBefore (patterns p)) candidates) as Ho.
  { apply in_order_filter. eapply sort_by_ordered, indexBefore_ordered. }
  assert (forall i, i ∈ candidates -> patternAt (patterns p) i ∈ patterns p /\ patternMatches (patternAt (patterns p) i) (decWord d) = true) as Hin.
  { intros i. unfold candidates. rewrite list_elem_of_filter, sort_by_perm, elem_of_allIndices by apply Hp. intros [Hm Hi].
    split; [by eapply list_elem_of_lookup_2, index_pattern|done]. }
  assert (forall b, b ∈ patterns p -> patternMatches b (decWord d) = true -> exists i, i ∈ candidates /\ patternAt (patterns p) i = b) as Hall.
  { intros b [k Hk]%list_elem_of_lookup_1 Hm. assert (patternAt (patterns p) (Z.of_nat k) = b) as Hkb by (unfold patternAt; by rewrite Nat2Z.id, Hk).
    exists (Z.of_nat k). split; [|done]. unfold candidates. rewrite list_elem_of_filter, sort_by_perm, elem_of_allIndices by apply Hp.
    apply lookup_lt_Some in Hk. split; [unfold matchesAt; by rewrite Hkb|lia]. }
  pose proof (firstAccepted_spec p d r candidates Ho Hdone eq_refl) as Hr. destruct (decValid r); split; try done; intros _.
  - destruct Hr as (i & fields & Hi & Hfields & -> & Hacc & Hbest). apply Hin in Hi as Hi'. unfold fieldsAt in Hfields.
    destruct (instructions p !! _) as [rule|] eqn:Hrule; [|done]. exists (patternAt (patterns p) i), rule, fields.
    split_and!; try done; [apply Hi'..|]. intros b Hbp Hbm Hba. apply Hall in Hbm as (j & Hj & <-); [|done]. by apply (Hbest j).
  - destruct Hr as [-> Hr]. split; [done|]. intros b Hbp Hbm. apply Hall in Hbm as (j & Hj & <-); [|done]. by apply Hr.
Qed.
End Correct.
