(* ===== verification/EngineProps.v ===== *)
(** * Probing and elaborating agree

    A probe runs the same bytecode as an elaboration, with the IL left out. The
    two runs go through states that have the same integers in every slot and the
    same recorded flow ([twin]), so a probe foresees where an elaboration goes. *)
From S2P Require Import Prelude Bits Types Exprs Registers Func Program Sorting Encoding Engine.
Local Open Scope Z_scope.

(** ** Twin states *)

Record twin (sp sb : EngineState) : Prop := {
  twin_frame : slotInteger <$> frame sp = slotInteger <$> frame sb;
  twin_scratch : slotInteger (scratch sp) = slotInteger (scratch sb);
  twin_flow : engineFlow sp = engineFlow sb;
  twin_error : is_Some (engineError sp) -> is_Some (engineError sb) }.

Lemma twin_length sp sb : twin sp sb -> length (frame sp) = length (frame sb).
Proof. intros [Hf _ _ _]. by rewrite <- (length_fmap slotInteger (frame sp)), Hf, length_fmap. Qed.

Lemma twin_outside sp sb index : twin sp sb -> outside sp index = outside sb index.
Proof. intros H. unfold outside. by rewrite (twin_length sp sb). Qed.

Lemma E_bind_Done {A B} (m : E A) (k : A -> E B) s r :
  (m ≫= k) s = Done r -> exists x s', m s = Done (x, s') /\ k x s' = Done r.
Proof. cbn. unfold mbind, E_bind. destruct (m s) as [[x s']| |]; [|done..]. eauto. Qed.

(** The build state does something; its results relate to the probe's. *)
Definition tracks {A B} (R : A -> B -> Prop) (mp : E A) (mb : E B) : Prop :=
  forall sp sb b sb', twin sp sb -> mb sb = Done (b, sb') ->
    exists a sp', mp sp = Done (a, sp') /\ twin sp' sb' /\ R a b.

(** What the build does alone leaves integers and flow as they are. *)
Definition quiet {B} (mb : E B) : Prop := forall sp, (forall sb b sb', twin sp sb -> mb sb = Done (b, sb') -> twin sp sb').

Lemma tracks_ret {A B} (R : A -> B -> Prop) a b : R a b -> tracks R (mret a) (mret b).
Proof. intros HR sp sb b' sb' Ht [= <- <-]. eauto. Qed.

Lemma tracks_bind {A B A' B'} (R : A -> B -> Prop) (R' : A' -> B' -> Prop) mp mb kp kb :
  tracks R mp mb -> (forall a b, R a b -> tracks R' (kp a) (kb b)) -> tracks R' (mp ≫= kp) (mb ≫= kb).
Proof.
  intros Hm Hk sp sb b sb' Ht (x & s & Hx & Hs)%E_bind_Done. destruct (Hm sp sb x s Ht Hx) as (a & sp' & Ha & Ht' & HR).
  destruct (Hk a x HR sp' s b sb' Ht' Hs) as (a' & sp'' & Ha' & Ht'' & HR').
  exists a', sp''. split_and!; try done. unfold mbind, E_bind. by rewrite Ha.
Qed.

Lemma tracks_quiet {A B} (R : A -> B -> Prop) (a : A) (mb : E B) : quiet mb -> (forall b, R a b) -> tracks R (mret a) mb.
Proof. intros Hq HR sp sb b sb' Ht Hb. exists a, sp. split_and!; [done|by eapply Hq|done]. Qed.

Lemma tracks_weaken {A B} (R R' : A -> B -> Prop) mp mb : tracks R mp mb -> (forall a b, R a b -> R' a b) -> tracks R' mp mb.
Proof. intros Hm HR sp sb b sb' Ht Hb. destruct (Hm sp sb b sb' Ht Hb) as (a & sp' & ? & ? & ?). eauto 6. Qed.

Lemma tracks_eput R q q' : (forall sp sb, twin sp sb -> twin (q sp) (q' sb)) -> R tt tt -> tracks R (eput q) (eput q').
Proof. intros Hq HR sp sb b sb' Ht [= <- <-]. exists tt, (q sp). auto. Qed.

Lemma tracks_eof {A} (x : option A) : tracks eq (eof x) (eof x).
Proof. intros sp sb b sb' Ht H. unfold eof in *. destruct x; [|done]. injection H as <- <-. eauto. Qed.

Lemma twin_withFrame sp sb fp fb :
  twin sp sb -> slotInteger <$> fp = slotInteger <$> fb -> twin (withFrame sp fp) (withFrame sb fb).
Proof. intros [] Hf. by split. Qed.

Lemma twin_setError sp sb e :
  twin sp sb -> twin (match engineError sp with None => withError sp e | Some _ => sp end)
                     (match engineError sb with None => withError sb e | Some _ => sb end).
Proof. intros [Hf Hs Hw He]. destruct (engineError sp) eqn:Ep, (engineError sb) eqn:Eb; split; cbn; auto; intros _; rewrite ?Eb; eauto. Qed.

Lemma tracks_setError e : tracks eq (setError e) (setError e).
Proof. apply tracks_eput; [|done]. intros. by apply twin_setError. Qed.

Definition sameInt (x y : Slot) : Prop := slotInteger x = slotInteger y.

Lemma sameInt_fmap xs ys : Forall2 sameInt xs ys -> slotInteger <$> xs = slotInteger <$> ys.
Proof. induction 1; cbn; [done|]. unfold sameInt in *. by f_equal. Qed.

Lemma tracks_slotAt index : tracks sameInt (slotAt index) (slotAt index).
Proof.
  intros sp sb b sb' Ht H. unfold slotAt in *. cbn in *. unfold mbind, E_bind, eget in *.
  rewrite (twin_outside sp sb) by done. destruct (outside sb index) eqn:Eo.
  - unfold setError, eput in *. injection H as <- <-. eexists _, _. split; [done|]. split; [by apply twin_setError|].
    destruct Ht as [_ Hs _ _]. unfold sameInt. by destruct (engineError sp), (engineError sb).
  - unfold eof in H. destruct (frame sb !! Z.to_nat index) as [y|] eqn:Ey; [|done]. injection H as <- <-.
    pose proof (f_equal (fun l => l !! Z.to_nat index) (twin_frame _ _ Ht)) as Hl. cbn in Hl.
    rewrite !list_lookup_fmap, Ey in Hl. cbn in Hl. apply fmap_Some in Hl as (x & Hx & Hxy).
    unfold eof. rewrite Hx. exists x, sp. by split_and!.
Qed.

Lemma tracks_intAt index : tracks eq (intAt index) (intAt index).
Proof. eapply tracks_bind; [apply tracks_slotAt|]. intros a b Hab. by apply tracks_ret. Qed.

(** Assignments that agree on integers. *)
Lemma tracks_assign index q q' :
  (forall x y, sameInt x y -> sameInt (q x) (q' y)) -> tracks eq (assignSlot index q) (assignSlot index q').
Proof.
  intros Hq sp sb b sb' Ht H. unfold assignSlot in *. unfold mbind, E_bind, eget in *. rewrite (twin_outside sp sb) by done.
  destruct (outside sb index).
  - unfold setError, eput in *. injection H as <- <-. eexists tt, _. split; [done|]. split; [|done].
    pose proof (twin_setError sp sb EngineError.SlotOutsideFrame Ht) as [Hf Hs Hw He]. split; cbn; auto. by apply Hq.
  - unfold eput in *. injection H as <- <-. eexists tt, _. split; [done|]. split; [|done]. apply twin_withFrame; [done|].
    pose proof (twin_frame _ _ Ht) as Hf. revert Hf. generalize (frame sp), (frame sb), (Z.to_nat index). clear -Hq.
    intros l. induction l as [|x l IH]; intros [|y k] n Hf; try done. injection Hf as Hx Hf. destruct n as [|n]; cbn.
    + f_equal; [by apply Hq|done].
    + f_equal; [done|by apply IH].
Qed.

Lemma tracks_setInt index v : tracks eq (setInt index v) (setInt index v).
Proof. by apply tracks_assign. Qed.

Lemma tracks_move index x y : sameInt x y -> tracks eq (assignSlot index (fun _ => x)) (assignSlot index (fun _ => y)).
Proof. intros Hxy. by apply tracks_assign. Qed.

Lemma tracks_slotRun count first : tracks (Forall2 sameInt) (slotRun count first) (slotRun count first).
Proof.
  revert first. induction count as [|count IH]; intros first; cbn [slotRun]; [by apply tracks_ret|].
  eapply tracks_bind; [apply tracks_slotAt|]. intros x y Hxy. eapply tracks_bind; [apply IH|]. intros xs ys Hs.
  apply tracks_ret. by constructor.
Qed.

Lemma tracks_flow q : tracks eq (recordFlow q) (recordFlow q).
Proof. apply tracks_eput; [|done]. intros sp sb [Hf Hs Hw He]. split; cbn; auto. by rewrite Hw. Qed.

(** ** Quiet steps *)

Lemma quiet_ret {B} (b : B) : quiet (mret b).
Proof. by intros sp sb b' sb' Ht [= <- <-]. Qed.

Lemma quiet_bind {B C} (m : E B) (k : B -> E C) : quiet m -> (forall b, quiet (k b)) -> quiet (m ≫= k).
Proof. intros Hm Hk sp sb b sb' Ht (x & s & Hx & Hs)%E_bind_Done. eapply Hk, Hs. by eapply Hm. Qed.

Lemma quiet_build {B} (m : M B) : quiet (build m).
Proof. intros sp sb b sb' [] H. unfold build in H. destruct (m (built sb)) as [[x f]|]; [|done]. injection H as <- <-. by split. Qed.

Lemma quiet_eof {B} (x : option B) : quiet (eof x).
Proof. intros sp sb b sb' Ht H. destruct x; [|done]. by injection H as <- <-. Qed.

Lemma quiet_setError e : quiet (setError e).
Proof.
  intros sp sb b sb' [Hf Hs Hw He] [= <- <-]. destruct (engineError sb) eqn:E; split; cbn; auto; rewrite ?E; eauto.
Qed.

Lemma quiet_slotAt index : quiet (slotAt index).
Proof.
  intros sp sb b sb' Ht (s & s' & [= <- <-] & H)%E_bind_Done. destruct (outside sb index); [|by eapply quiet_eof].
  eapply quiet_bind; [apply quiet_setError|intros; apply quiet_ret|exact Ht|exact H].
Qed.

Lemma quiet_setExpr index id : quiet (setExpr index id).
Proof.
  intros sp sb b sb' Ht (s & s' & [= <- <-] & H)%E_bind_Done. destruct (outside sb index).
  - apply E_bind_Done in H as ([] & s & H & [= <- <-]). apply (quiet_setError _ sp) in H as [Hf Hs Hw He]; [|done].
    by split; cbn.
  - injection H as <- <-. destruct Ht as [Hf Hs Hw He]. split; cbn; auto. rewrite Hf.
    symmetry. apply list_eq. intros k. rewrite !list_lookup_fmap, list_lookup_alter. case_decide as Hk; [subst|done].
    by destruct (frame sb !! _).
Qed.

Create HintDb quiet.
#[export] Hint Resolve quiet_ret quiet_build quiet_eof quiet_setError quiet_slotAt quiet_setExpr : quiet.

Ltac quiet :=
  repeat match goal with
  | |- forall _, _ => intro
  | |- quiet (mbind _ _) => apply quiet_bind
  | |- quiet (match ?x with _ => _ end) => destruct x
  | |- quiet (done _) => unfold done
  | |- quiet (intAt _) => unfold intAt
  | |- quiet (engineExprAt _) => unfold engineExprAt
  | |- quiet _ => solve [auto with quiet]
  end.

Lemma quiet_slotRun count first : quiet (slotRun count first).
Proof. revert first. induction count as [|count IH]; intros first; cbn [slotRun]; quiet. Qed.
Lemma quiet_flagOperands indices : quiet (flagOperands indices).
Proof. induction indices; cbn [flagOperands]; quiet. Qed.
Lemma quiet_blockFor site target : quiet (blockFor site target).
Proof. unfold blockFor. quiet. Qed.
Lemma quiet_callResultType site : quiet (callResultType site).
Proof. unfold callResultType. quiet. Qed.
Lemma quiet_widthOfExpr site id : quiet (widthOfExpr site id).
Proof. unfold widthOfExpr. quiet. Qed.
#[export] Hint Resolve quiet_slotRun quiet_flagOperands quiet_blockFor quiet_callResultType quiet_widthOfExpr : quiet.

Lemma quiet_executeBuild program insn site o i : quiet (executeBuild program insn site o i).
Proof. destruct o as [[]|]; unfold executeBuild; quiet. Qed.

(** ** A probe and an elaboration of the same instruction *)

Section Agree.
Variables (program : SpecProgram) (insn : DecodedInsn) (site : LiftSite).

Lemma executeFlow_tracks o i :
  match executeFlow program insn None o i, executeFlow program insn (Some site) o i with
  | Some mp, Some mb => tracks (fun a _ => a = true) mp mb
  | None, None => True
  | _, _ => False
  end.
Proof.
  destruct o; cbn [executeFlow]; try exact I; unfold whenBuilding; cbn [building bool_decide decide is_Some_dec decide_rel].
  all: repeat first
    [ apply tracks_quiet; [|done]; quiet
    | eapply tracks_bind; [first [apply tracks_flow | apply tracks_intAt]|intros ? ? <-] ].
Qed.

Lemma executeEffect_tracks o i :
  tracks (fun a _ => a = true) (executeEffect program insn None o i) (executeEffect program insn (Some site) o i).
Proof.
  unfold executeEffect. pose proof (fun o => executeFlow_tracks o i) as Hf. destruct o as [o|]; cbn [mbind option_bind].
  - specialize (Hf o). destruct (executeFlow program insn None o i), (executeFlow program insn (Some site) o i); try done.
    apply tracks_quiet; [apply quiet_executeBuild|done].
  - apply tracks_quiet; [apply quiet_executeBuild|done].
Qed.

Definition sameControl (a b : Control) : Prop :=
  match b with
  | Finish true r => exists r', a = Finish true r' /\ sameInt r' r
  | Finish false _ => True
  | _ => a = b
  end.

(** A call that succeeds while building succeeds while probing. *)
Definition calls_track (cp cb : Body -> list Slot -> E (bool * Slot)) : Prop :=
  forall body xs ys sp sb r sb', Forall2 sameInt xs ys -> twin sp sb -> cb body ys sb = Done ((true, r), sb') ->
    exists r' sp', cp body xs sp = Done ((true, r'), sp') /\ twin sp' sb' /\ sameInt r' r.

Definition gaveUp (c : Control) : Prop := exists r, c = Finish false r.

Ltac track_step :=
  match goal with
  | |- tracks _ (mret _) (mret _) => apply tracks_ret; try done
  | |- tracks _ (bind_next _) (bind_next _) => unfold bind_next
  | |- tracks _ (if ?b then _ else _) (if ?b then _ else _) => destruct b
  | |- tracks _ (let x := _ in _) _ => cbv zeta
  | |- tracks _ (mbind _ (intAt _)) _ => eapply tracks_bind; [apply tracks_intAt|intros ? ? <-]
  | |- tracks _ (mbind _ (slotAt _)) _ => eapply tracks_bind; [apply tracks_slotAt|intros ? ? ?]
  | |- tracks _ (mbind _ (eof _)) _ => eapply tracks_bind; [apply tracks_eof|intros ? ? <-]
  | |- tracks _ (mbind _ (executeEffect _ _ _ _ _)) _ => eapply tracks_bind; [apply executeEffect_tracks|intros ? [] ->]
  | |- tracks _ (mbind _ _) _ => eapply (tracks_bind (@eq unit)); [|intros ? ? _]
  | |- tracks _ (setInt _ _) (setInt _ _) => apply tracks_setInt
  | |- tracks _ (assignSlot _ _) (assignSlot _ _) => apply tracks_move; assumption
  end.

Lemma executeInsn_plain cp cb i :
  enumAt opcodes (insnOp i) <> Some Opcode.CallFn ->
  tracks sameControl (executeInsn program insn None cp i) (executeInsn program insn (Some site) cb i).
Proof.
  intros Ho. unfold executeInsn. destruct (enumAt opcodes (insnOp i)) as [[]|]; try done; repeat track_step.
  - by exists emptySlot.
  - by destruct (_ =? 0).
  - by exists emptySlot.
  - by eexists.
Qed.

Lemma executeInsn_tracks cp cb i sp sb c sb' :
  calls_track cp cb -> twin sp sb -> executeInsn program insn (Some site) cb i sb = Done (c, sb') ->
  gaveUp c \/ exists a sp', executeInsn program insn None cp i sp = Done (a, sp') /\ twin sp' sb' /\ sameControl a c.
Proof.
  intros Hcall Ht H. unfold executeInsn in *. set (o := enumAt opcodes (insnOp i)) in *.
  destruct (decide (o = Some Opcode.CallFn)) as [Ho|Ho].
  - rewrite Ho in *. destruct (functions program !! _) as [callee|].
    2: { left. apply E_bind_Done in H as (? & ? & _ & [= <- _]). by eexists. }
    apply E_bind_Done in H as (ys & s1 & Hys & H). apply E_bind_Done in H as ([okay r] & s2 & Hr & H).
    destruct okay; [|left; injection H as <- _; by eexists]. right.
    destruct (tracks_slotRun _ _ sp sb ys s1 Ht Hys) as (xs & sp1 & Hxs & Ht1 & Hs).
    destruct (Hcall _ _ _ _ _ _ _ Hs Ht1 Hr) as (r' & sp2 & Hr' & Ht2 & Hrr).
    apply E_bind_Done in H as ([] & s3 & H & [= <- <-]).
    destruct (tracks_move (insnDest i) r' r Hrr sp2 s2 tt s3 Ht2 H) as ([] & sp3 & H' & Ht3 & _).
    exists Next, sp3. split; [|done]. unfold mbind, E_bind. rewrite Hxs, Hr'. unfold bind_next, mbind, E_bind. by rewrite H'.
  - right. by apply (executeInsn_plain cp cb i Ho sp sb c sb').
Qed.

(** Entering a body, given that its loop keeps in step. *)
Definition loops_track (ep eb : nat -> Body -> Z -> E (bool * Slot)) : Prop :=
  forall depth body sp sb r sb', twin sp sb -> eb depth body 0 sb = Done ((true, r), sb') ->
    exists r' sp', ep depth body 0 sp = Done ((true, r'), sp') /\ twin sp' sb' /\ sameInt r' r.

Lemma runWith_tracks ep eb depth : loops_track ep eb -> calls_track (runWith ep depth) (runWith eb depth).
Proof.
  intros IH body xs ys sp sb r sb' Hs Ht H. unfold runWith in *. destruct (_ <=? _)%nat.
  { by apply E_bind_Done in H as (? & ? & _ & [=]). }
  apply E_bind_Done in H as (s & s0 & [= <- <-] & H). apply E_bind_Done in H as ([] & s1 & [= <-] & H).
  apply E_bind_Done in H as ([okay x] & s2 & Hx & H). apply E_bind_Done in H as ([] & s3 & [= <-] & [= -> <- <-]).
  pose proof (sameInt_fmap xs ys Hs) as Hi.
  pose proof (Forall2_length _ _ _ Hs) as Hl.
  set (fp := xs ++ repeat emptySlot (Nat.max (Z.to_nat (bodySlots body)) (length xs) - length xs)).
  set (fb := ys ++ _) in Hx. assert (slotInteger <$> fp = slotInteger <$> fb) as Hf by (unfold fp, fb; rewrite !fmap_app, Hi, Hl; done).
  destruct (IH (S depth) body _ _ x s2 (twin_withFrame sp sb fp fb Ht Hf) Hx) as (r' & sp' & Hr' & Ht' & Hrr).
  exists r', (withFrame sp' (frame sp)). unfold mbind, E_bind, eget, eput. rewrite Hr'. split; [done|].
  split; [|done]. apply twin_withFrame; [done|apply Ht].
Qed.

(** The loops, in lockstep. *)
Lemma execute_tracks fuel depth body pc sp sb r sb' :
  twin sp sb -> execute program insn (Some site) fuel depth body pc sb = Done ((true, r), sb') ->
  exists r' sp', execute program insn None fuel depth body pc sp = Done ((true, r'), sp') /\ twin sp' sb' /\ sameInt r' r.
Proof.
  revert depth body pc sp sb r sb'. induction fuel as [|fuel IH]; intros depth body pc sp sb r sb' Ht H; [done|].
  cbn [execute] in *. destruct (negb (pc <? bodyLength body)); [injection H as <- <-; exists emptySlot, sp; done|].
  apply E_bind_Done in H as (s & s0 & [= <- <-] & H). unfold mbind at 1, E_bind, eget.
  destruct (decide (is_Some (engineError sb))) as [|Hno]; [done|].
  destruct (decide (is_Some (engineError sp))) as [Hsp|_]; [by apply Ht in Hsp|].
  apply E_bind_Done in H as (i & s1 & Hi & H). unfold eof in Hi. unfold mbind, E_bind, eof.
  destruct (progCode program !! _) as [i'|]; [|done]. injection Hi as <- <-.
  apply E_bind_Done in H as (c & s2 & Hc & H).
  assert (calls_track (runWith (execute program insn None fuel) depth) (runWith (execute program insn (Some site) fuel) depth)) as Hcall.
  { apply runWith_tracks. intros ? ? ? ? ? ?. apply IH. }
  destruct (executeInsn_tracks _ _ i' sp sb c s2 Hcall Ht Hc) as [[x ->]|(a & sp' & Ha & Ht' & Hac)]; [discriminate H|].
  rewrite Ha. destruct c as [|pc'|okay x]; cbn in Hac.
  - subst a. by eapply IH.
  - subst a. by eapply IH.
  - injection H as -> -> ->. destruct Hac as (x' & -> & Hx). by exists x', sp'.
Qed.
Lemma run_tracks body sp sb r sb' :
  twin sp sb -> run program insn (Some site) body sb = Done ((true, r), sb') ->
  exists r' sp', run program insn None body sp = Done ((true, r'), sp') /\ twin sp' sb' /\ sameInt r' r.
Proof.
  intros Ht H. refine (runWith_tracks _ _ 0 _ body [] [] sp sb r sb' _ Ht H); [|constructor].
  intros ? ? ? ? ? ?. apply execute_tracks.
Qed.
End Agree.
