(* ===== verification/EngineTotal.v ===== *)
(** * The engine always comes back

    For programs whose bodies lie inside the code and whose jumps go forward
    ([program_ends]), a run ends within the fuel: each level of calls passes over
    its body at most once, and levels are bounded by [kMaxCallDepth]. If moreover
    nothing in the program can trap ([program_ok]), decoding and probing meet
    nothing undefined. *)
From S2P Require Import Prelude Bits Types Exprs Registers Func Program Sorting Encoding EncodingProps Engine EngineProps DecodeProps.
Local Open Scope Z_scope.

(** ** Well-formed programs *)

Definition bodyInRange (p : SpecProgram) (body : Body) : bool :=
  (0 <=? bodyStart body) && (0 <=? bodyLength body) &&
  (bodyStart body + bodyLength body <=? Z.of_nat (length (progCode p))).

Definition isJump (i : Insn) : bool :=
  match enumAt opcodes (insnOp i) with Some Opcode.Jump | Some Opcode.JumpIfZero => true | _ => false end.

(** Slots are numbered from zero. *)
Definition slotsOk (i : Insn) : bool :=
  (0 <=? insnDest i) && (0 <=? insnA i) && (0 <=? insnB i) && (0 <=? insnC i).

(** The instructions that can meet something undefined: a signed division
    overflows, a replication shifts by 64 or more. *)
Definition traps (i : Insn) : bool :=
  match enumAt opcodes (insnOp i) with
  | Some Opcode.IntBinary =>
      match enumAt intOps (insnAux i) with Some IntOp.DivS | Some IntOp.RemS => true | _ => false end
  | Some Opcode.ReplicateInt => true
  | _ => false
  end.

(** Every field is within a word. *)
Definition fieldsOk (rule : ProgramInsn) : bool := forallb (fun field => fieldShift field <? 64) (ruleFields rule).

(** Every jump of the body goes forward. *)
Definition forwardBody (p : SpecProgram) (body : Body) : bool :=
  forallb (fun pc => match progCode p !! Z.to_nat (bodyStart body + pc) with
                     | Some i => implb (isJump i) (pc <? u32 (insnImm i))
                     | None => true
                     end) (seqZ 0 (bodyLength body)).

Definition bodyOk (p : SpecProgram) (body : Body) : bool := bodyInRange p body && forwardBody p body.

(** All the bodies the engine runs to decode and lift. *)
Definition programEnds (p : SpecProgram) : bool :=
  (0 <=? insnWidth p) && (Z.of_nat (length (progCode p)) <=? 2 ^ 32) && forallb slotsOk (progCode p) &&
  forallb (fun fn => bodyOk p (fnBody fn)) (functions p) &&
  forallb (fun rule => bodyOk p (ruleSemantics rule) && forallb (bodyOk p) (ruleGuards rule)) (instructions p) &&
  forallb (fun pattern => (0 <=? patInstruction pattern) && (patInstruction pattern <? Z.of_nat (length (instructions p)))) (patterns p).

Definition programOk (p : SpecProgram) : bool :=
  programEnds p && forallb (fun i => negb (traps i)) (progCode p) && forallb fieldsOk (instructions p).

(** The program's code is well-formed and its jumps go forward. *)
Record program_ends (p : SpecProgram) : Prop := {
  po_width : 0 <= insnWidth p;
  po_code : Z.of_nat (length (progCode p)) <= 2 ^ 32;
  po_insns : forall k i, progCode p !! k = Some i -> slotsOk i = true;
  po_functions : forall k fn, functions p !! k = Some fn -> bodyOk p (fnBody fn) = true;
  po_semantics : forall k rule, instructions p !! k = Some rule -> bodyOk p (ruleSemantics rule) = true;
  po_guards : forall k rule guard, instructions p !! k = Some rule -> guard ∈ ruleGuards rule -> bodyOk p guard = true;
  po_patterns : forall k a, patterns p !! k = Some a -> is_Some (instructions p !! Z.to_nat (patInstruction a)) }.

(** Moreover nothing in it can meet what is undefined. *)
Record program_ok (p : SpecProgram) : Prop := {
  po_ends : program_ends p;
  po_traps : forall k i, progCode p !! k = Some i -> traps i = false;
  po_fields : forall k rule, instructions p !! k = Some rule -> fieldsOk rule = true }.

Lemma programEnds_sound p : programEnds p = true -> program_ends p.
Proof.
  unfold programEnds. rewrite !andb_true_iff. intros (((((H0 & H1) & H2) & H3) & H4) & H5). split.
  - by apply Z.leb_le.
  - by apply Z.leb_le.
  - intros k i Hi. by eapply forallb_lookup in Hi.
  - intros k fn Hfn. by eapply forallb_lookup in H3.
  - intros k r Hr. eapply forallb_lookup in H4; [|exact Hr]. by apply andb_true_iff in H4 as [].
  - intros k r g Hr Hg. eapply forallb_lookup in H4; [|exact Hr]. apply andb_true_iff in H4 as [_ H4].
    rewrite forallb_forall in H4. by apply H4, list_elem_of_In.
  - intros k a Ha. eapply forallb_lookup in H5; [|exact Ha]. apply andb_true_iff in H5 as [H5 H6].
    apply lookup_lt_is_Some_2. lia.
Qed.

Lemma programOk_sound p : programOk p = true -> program_ok p.
Proof.
  unfold programOk. rewrite !andb_true_iff. intros ((H1 & H2) & H3). split.
  - by apply programEnds_sound.
  - intros k i Hi. eapply forallb_lookup in H2; [|exact Hi]. by apply negb_true_iff.
  - intros k r Hr. by eapply forallb_lookup in H3.
Qed.

Lemma decodeFields_defined rule word : fieldsOk rule = true -> is_Some (decodeFields rule word).
Proof.
  unfold fieldsOk, decodeFields. rewrite forallb_forall. intros H. apply mapM_is_Some_2, Forall_forall.
  intros field (k & Hf%list_elem_of_lookup_2 & _)%elem_of_take. unfold decodeField. specialize (H field). rewrite <-list_elem_of_In in H.
  specialize (H Hf). cbn. destruct (Z.leb_spec 64 (fieldShift field)); [lia|eauto].
Qed.

(** ** Runs that end *)

Definition endsWell {A} (strict : bool) (r : Run A) : Prop :=
  match r with Done _ => True | Fault => strict = false | OutOfFuel => False end.

Definition fine {A} (strict : bool) (m : E A) : Prop := forall s, endsWell strict (m s).

Section Fine.
Context (strict : bool).
Abbreviation fine := (fine strict).

Lemma fine_ret {A} (x : A) : fine (mret x).
Proof. by intros s. Qed.
Lemma fine_bind {A B} (m : E A) (k : A -> E B) : fine m -> (forall x, fine (k x)) -> fine (m ≫= k).
Proof. intros Hm Hk s. unfold mbind, E_bind. specialize (Hm s). destruct (m s) as [[x s']| |]; [apply Hk|done..]. Qed.
Lemma fine_eget : fine eget.
Proof. by intros s. Qed.
Lemma fine_eput q : fine (eput q).
Proof. by intros s. Qed.
Lemma fine_eof {A} (x : option A) : (strict = true -> is_Some x) -> fine (eof x).
Proof. intros H s. unfold eof. destruct x; cbn; [done|]. destruct strict; [|done]. by destruct H. Qed.
Lemma fine_setError e : fine (setError e).
Proof. by intros s. Qed.

Lemma fine_slotAt index : 0 <= index -> fine (slotAt index).
Proof.
  intros Hi s. unfold slotAt, mbind, E_bind, eget. destruct (outside s index) eqn:Eo; [done|]. apply fine_eof. intros _.
  apply orb_false_iff in Eo as [_ Eo]. apply lookup_lt_is_Some_2. lia.
Qed.
Lemma fine_assignSlot index q : fine (assignSlot index q).
Proof. intros s. unfold assignSlot, mbind, E_bind, eget. by destruct (outside s index). Qed.
Lemma fine_intAt index : 0 <= index -> fine (intAt index).
Proof. intros. apply fine_bind; [by apply fine_slotAt|]. intros. apply fine_ret. Qed.
Lemma fine_slotRun count first : fine (slotRun count first).
Proof.
  revert first. induction count as [|count IH]; intros first; cbn [slotRun]; [apply fine_ret|].
  apply fine_bind; [apply fine_slotAt; unfold u16; dlia|]. intros. apply fine_bind; [apply IH|intros; apply fine_ret].
Qed.
End Fine.

(** Without strictness every step of building is fine. *)
Lemma fine_build {A} (m : M A) : fine false (build m).
Proof. intros s. unfold build. by destruct (m (built s)) as [[]|]. Qed.

Lemma fine_loose {A} (m : E A) strict : fine strict m -> fine false m.
Proof. intros H s. specialize (H s). by destruct (m s). Qed.

Create HintDb fine.
#[export] Hint Resolve fine_ret fine_eget fine_eput fine_setError fine_assignSlot fine_slotRun fine_build : fine.

Ltac fine :=
  repeat match goal with
  | |- forall _, _ => intro
  | |- fine _ (mbind _ _) => apply fine_bind
  | |- fine _ (let x := _ in _) => cbv zeta
  | |- fine _ (match ?x with _ => _ end) => destruct x eqn:?
  | |- fine _ (done _) => unfold done
  | |- fine _ (bind_next _) => unfold bind_next
  | |- fine _ (setInt _ _) => unfold setInt
  | |- fine _ (setExpr _ _) => unfold setExpr
  | |- fine _ (recordFlow _) => unfold recordFlow
  | |- fine _ (engineExprAt _) => unfold engineExprAt
  | |- fine _ (intAt _) => apply fine_intAt; lia
  | |- fine _ (slotAt _) => apply fine_slotAt; lia
  | |- fine false (eof _) => apply fine_eof; discriminate
  | |- fine _ _ => solve [auto with fine]
  end.

Lemma fine_flagOperands indices : (forall i, i ∈ indices -> 0 <= i) -> fine false (flagOperands indices).
Proof.
  induction indices as [|i indices IH]; intros Hi; cbn [flagOperands]; [fine|].
  assert (0 <= i) by (apply Hi; by left). fine. apply IH. intros j Hj. apply Hi. by right.
Qed.

Section Loop.
Variables (p : SpecProgram) (d : DecodedInsn) (site : option LiftSite) (strict : bool).
Hypothesis Hstrict : strict = true -> site = None.

Lemma slotsOk_slots i : slotsOk i = true -> 0 <= insnDest i /\ 0 <= insnA i /\ 0 <= insnB i /\ 0 <= insnC i.
Proof. unfold slotsOk. rewrite !andb_true_iff. lia. Qed.

Lemma fine_blockFor target : fine strict (blockFor site target).
Proof. unfold blockFor. fine. Qed.
Lemma fine_callResultType : fine false (callResultType site).
Proof. unfold callResultType. fine. Qed.
Lemma fine_widthOfExpr id : fine false (widthOfExpr site id).
Proof. unfold widthOfExpr. fine. Qed.
#[local] Hint Resolve fine_callResultType fine_widthOfExpr : fine.

Lemma fine_executeBuild o i : slotsOk i = true -> fine false (executeBuild p d site o i).
Proof.
  intros Hi%slotsOk_slots. destruct o as [[]|]; unfold executeBuild; fine.
  apply fine_flagOperands. intros j. rewrite !elem_of_cons, elem_of_nil. lia.
Qed.

Lemma fine_whenBuilding (m : E bool) : fine false m -> fine strict (whenBuilding site m).
Proof using Hstrict.
  intros Hm. unfold whenBuilding. destruct strict eqn:Es; [rewrite Hstrict by done; cbn; fine|]. destruct (building site); fine.
Qed.

Lemma fine_executeEffect o i : slotsOk i = true -> fine strict (executeEffect p d site o i).
Proof using Hstrict.
  intros Hi. pose proof (slotsOk_slots i Hi). unfold executeEffect.
  destruct o as [o|]; cbn [mbind option_bind]; [|by apply fine_whenBuilding, fine_executeBuild].
  destruct o; cbn [executeFlow]; try (by apply fine_whenBuilding, fine_executeBuild); fine;
    apply fine_whenBuilding; fine; eapply fine_loose, fine_blockFor.
Qed.

Lemma signed_division o a b : o <> Some IntOp.DivS -> o <> Some IntOp.RemS -> is_Some (applyIntBinary o a b).
Proof. destruct o as [[]|]; try done; eauto. Qed.

Lemma fine_executeInsn call i :
  slotsOk i = true -> (strict = true -> traps i = false) ->
  (forall fn arguments, fn ∈ functions p -> fine strict (call (fnBody fn) arguments)) ->
  fine strict (executeInsn p d site call i).
Proof using Hstrict.
  intros Hi Ht Hcall. pose proof (slotsOk_slots i Hi). unfold executeInsn. unfold traps in Ht.
  assert (enumAt opcodes (insnOp i) = Some Opcode.IntBinary -> strict = true ->
    forall a b, is_Some (applyIntBinary (enumAt intOps (insnAux i)) a b)) as Hdiv.
  { intros Ho Hs a b. rewrite Ho in Ht. apply signed_division; intros Hd; rewrite Hd in Ht; by apply Ht in Hs. }
  destruct (enumAt opcodes (insnOp i)) as [[]|]; fine; try (by apply fine_executeEffect).
  - apply fine_eof. intros Hs. by apply Hdiv.
  - apply fine_slotAt. destruct (negb _); lia.
  - apply fine_eof. by intros ?%Ht.
  - apply Hcall. by eapply list_elem_of_lookup_2.
Qed.

(** A jump stays ahead of where it was made. *)
Lemma jump_target call i s target s' :
  executeInsn p d site call i s = Done (JumpTo target, s') -> isJump i = true /\ target = u32 (insnImm i).
Proof.
  unfold executeInsn, isJump, bind_next. destruct (enumAt opcodes (insnOp i)) as [[]|]; intros H.
  all: try discriminate H.
  all: repeat match goal with
  | H : mret _ _ = Done _ |- _ => injection H as H _
  | H : mbind _ _ _ = Done _ |- _ => let x := fresh "x" in let s := fresh "s" in apply E_bind_Done in H as (x & s & _ & H)
  | H : (match ?x with _ => _ end) _ = Done _ |- _ => destruct x
  | H : (match ?x with _ => _ end) = JumpTo _ |- _ => destruct x
  | H : JumpTo _ = JumpTo _ |- _ => injection H as <-
  end; try done.
Qed.

Lemma jump_forward body pc i call s target s' :
  0 <= pc < bodyLength body -> bodyOk p body = true ->
  progCode p !! Z.to_nat (bodyStart body + pc) = Some i ->
  executeInsn p d site call i s = Done (JumpTo target, s') -> pc < target.
Proof.
  intros Hpc [_ Hf]%andb_true_iff Hi (Hj & ->)%jump_target. unfold forwardBody in Hf. rewrite forallb_forall in Hf.
  specialize (Hf pc ltac:(apply list_elem_of_In, elem_of_seqZ; lia)). rewrite Hi, Hj in Hf. cbn in Hf. lia.
Qed.

Hypothesis Hp : program_ends p.
Hypothesis Htraps : strict = true -> forall k i, progCode p !! k = Some i -> traps i = false.

Lemma execute_fine longest fuel depth body pc :
  (forall fn, fn ∈ functions p -> (Z.to_nat (bodyLength (fnBody fn)) <= longest)%nat) -> bodyOk p body = true ->
  (Z.to_nat (bodyLength body) <= longest)%nat -> 0 <= pc -> (1 <= depth <= kMaxCallDepth)%nat ->
  ((kMaxCallDepth - depth) * S longest + Z.to_nat (bodyLength body - pc) < fuel)%nat ->
  fine strict (execute p d site fuel depth body pc).
Proof using Hp Hstrict Htraps.
  intros Hfns. revert depth body pc. induction fuel as [|fuel IH]; intros depth body pc Hbody Hlen Hpc Hd Hfuel; [by apply Nat.nlt_0_r in Hfuel|].
  cbn [execute]. destruct (Z.ltb_spec pc (bodyLength body)) as [Hlt|]; cbn [negb]; [|fine].
  apply fine_bind; [fine|]. intros s0. destruct (decide _); [fine|].
  pose proof Hbody as [Hr _]%andb_true_iff. unfold bodyInRange in Hr. rewrite !andb_true_iff in Hr.
  destruct Hp as [_ Hcode Hinsns Hfn _ _ _]. unfold u32. rewrite Z.mod_small by lia.
  destruct (lookup_lt_is_Some_2 (progCode p) (Z.to_nat (bodyStart body + pc))) as [i Hi]; [lia|]. rewrite Hi.
  intros s. unfold mbind at 1, E_bind at 1, eof at 1. unfold mbind, E_bind.
  assert (fine strict (executeInsn p d site (runWith (execute p d site fuel) depth) i)) as Hi'.
  { apply fine_executeInsn; [by eapply Hinsns|intros Hs; by eapply Htraps|]. intros fn arguments Hin. unfold runWith. destruct (Nat.leb_spec kMaxCallDepth depth); fine.
    apply IH; try lia.
    - apply list_elem_of_lookup_1 in Hin as [k Hk]. by eapply Hfn.
    - by apply Hfns.
    - pose proof (Hfns fn Hin). rewrite Z.sub_0_r.
      replace (kMaxCallDepth - depth)%nat with (S (kMaxCallDepth - S depth)) in Hfuel by lia. rewrite Nat.mul_succ_l in Hfuel. lia. }
  specialize (Hi' s). destruct (executeInsn _ _ _ _ i s) as [[c s']| |] eqn:Ec; [|done..].
  destruct c as [|target|okay r]; [apply IH; try done; lia|apply IH; try done|done].
  - eapply jump_forward in Ec; [|split; done|done|exact Hi]. lia.
  - eapply jump_forward in Ec; [|split; done|done|exact Hi]. lia.
Qed.

Lemma run_fine body : bodyOk p body = true -> fine strict (run p d site body).
Proof using Hp Hstrict Htraps.
  intros Hb. unfold run, runWith. destruct (Nat.leb_spec kMaxCallDepth 0); [unfold kMaxCallDepth in *; lia|]. fine.
  unfold executeFuel, longestBody. set (longest := foldr Nat.max _ _).
  assert ((Z.to_nat (bodyLength body) <= longest)%nat /\
    forall fn, fn ∈ functions p -> (Z.to_nat (bodyLength (fnBody fn)) <= longest)%nat) as [Hl Hfns].
  { unfold longest. clear. induction (functions p) as [|f fs [IH1 IH2]]; cbn; [split; [lia|by intros fn ?%elem_of_nil]|].
    split; [lia|]. intros fn [->|Hfn]%elem_of_cons; [lia|]. specialize (IH2 fn Hfn). lia. }
  apply (execute_fine longest); try done; unfold kMaxCallDepth; lia.
Qed.
End Loop.

(** ** Decoding, probing and elaborating *)

Lemma tryCandidates_valid p d candidates r :
  tryCandidates p d candidates = Done r -> decValid d = false -> decValid r = true ->
  is_Some (instructions p !! Z.to_nat (decInstruction r)).
Proof.
  intros H Hd Hv. induction candidates as [|c candidates IH]; cbn [tryCandidates] in H; [injection H as <-; congruence|].
  destruct (patterns p !! _) as [a|]; [|done]. destruct (negb _); [auto|].
  destruct (instructions p !! _) as [rule|] eqn:Er; [|done]. destruct (decodeFields _ _); [|done].
  destruct (guardsAccept _ _ _) as [[]| |]; [|auto|done..]. injection H as <-. cbn. by exists rule.
Qed.

Section Ends.
Context (p : SpecProgram) (strict : bool) (Hp : program_ends p) (Hok : strict = true -> program_ok p).

Lemma run_ends d body s : bodyOk p body = true -> endsWell strict (run p d None body s).
Proof using Hp Hok. intros Hb. apply (run_fine p d None strict); [done..| |done]. intros Hs. apply po_traps. auto. Qed.

Lemma guardsAccept_ends d guards :
  (forall guard, guard ∈ guards -> bodyOk p guard = true) -> endsWell strict (guardsAccept p d guards).
Proof using Hp Hok.
  induction guards as [|guard guards IH]; intros Hg; cbn [guardsAccept]; [done|].
  pose proof (run_ends d guard (newEngine (noFunction p)) ltac:(apply Hg; by left)) as Hr.
  destruct (run _ _ _ _ _) as [[[okay r] s]| |]; [|done..].
  destruct (_ || _); [done|]. apply IH. intros g Hin. apply Hg. by right.
Qed.

Lemma tryCandidates_ends d candidates :
  (strict = true -> Forall (fun c => is_Some (patterns p !! Z.to_nat c)) candidates) ->
  endsWell strict (tryCandidates p d candidates).
Proof using Hp Hok.
  induction candidates as [|c candidates IH]; intros H; cbn [tryCandidates]; [done|].
  assert (endsWell strict (tryCandidates p d candidates)) as Hrest.
  { apply IH. intros Hs. specialize (H Hs). by inv H. }
  destruct (patterns p !! Z.to_nat c) as [a|] eqn:Ea.
  2: { destruct strict eqn:Es; [|done]. specialize (H eq_refl). inv H. rewrite Ea in *. by destruct H2. }
  destruct (negb _); [done|]. destruct (po_patterns p Hp _ a Ea) as [rule Hrule]. rewrite Hrule.
  destruct (decodeFields rule (decWord d)) as [fields|] eqn:Ef.
  2: { destruct strict eqn:Es; [|done]. destruct (decodeFields_defined rule (decWord d)) as [l Hl]; [|congruence].
       eapply po_fields; [|done]. by apply Hok. }
  pose proof (guardsAccept_ends (MkDecodedInsn false (patInstruction a) (decAddress d) (decWord d) (decLength d) fields)
    (ruleGuards rule) ltac:(intros; by eapply po_guards)) as Hg.
  by destruct (guardsAccept _ _ _) as [[]| |].
Qed.

Lemma probe_ends r :
  (strict = true -> decValid r = true -> is_Some (instructions p !! Z.to_nat (decInstruction r))) -> endsWell strict (probe p r).
Proof using Hp Hok.
  intros Hin. unfold probe. destruct (decValid r); cbn [negb]; [|done].
  destruct (instructions p !! _) as [rule|] eqn:Hrule.
  2: { destruct strict; [|done]. by destruct (Hin eq_refl eq_refl). }
  pose proof (run_ends r (ruleSemantics rule) (newEngine (noFunction p)) ltac:(by eapply po_semantics)) as Hr.
  destruct (run _ _ _ _ _) as [[[okay x] s]| |]; [|done..]. by destruct (negb okay).
Qed.
End Ends.

Section Total.
Context (p : SpecProgram).

Lemma decode_done `{SorterLaws} bytes address :
  program_ok p -> decodable p -> bytes_ok bytes ->
  exists r, decode p bytes address = Done r /\
    (decValid r = true -> is_Some (instructions p !! Z.to_nat (decInstruction r))).
Proof.
  intros Hp Hdec Hb. unfold decode. destruct (_ <? _); [eexists; split; [done|discriminate]|].
  destruct (wordOf_fits p Hdec bytes Hb) as (word & Hword & Hfits). fold (wordOf p bytes). rewrite Hword.
  set (d := MkDecodedInsn _ _ _ _ _ _). set (candidates := treeLookup _ _).
  pose proof (tryCandidates_ends p true (po_ends p Hp) (fun _ => Hp) d candidates) as H'.
  destruct (tryCandidates p d candidates) as [r| |] eqn:Er.
  - exists r. split; [done|]. by eapply tryCandidates_valid.
  - discriminate H'. intros _. by apply (lookup_in_range p Hdec).
  - destruct H'. intros _. by apply (lookup_in_range p Hdec).
Qed.

Lemma probe_done r :
  program_ok p -> (decValid r = true -> is_Some (instructions p !! Z.to_nat (decInstruction r))) ->
  exists w, probe p r = Done w.
Proof.
  intros Hp Hin. pose proof (probe_ends p true (po_ends p Hp) (fun _ => Hp) r (fun _ => Hin)) as H.
  destruct (probe p r); [eauto|done..].
Qed.

Lemma decode_not_stuck bytes address : program_ends p -> decode p bytes address <> OutOfFuel.
Proof.
  intros Hp. unfold decode. destruct (_ <? _); [done|]. destruct (assembleWord _ _ _ _) as [word|]; [|done].
  set (d := MkDecodedInsn _ _ _ _ _ _). set (candidates := treeLookup _ _).
  pose proof (tryCandidates_ends p false Hp ltac:(done) d candidates ltac:(done)) as H. by intros Hr; rewrite Hr in H.
Qed.

Lemma probe_not_stuck r : program_ends p -> probe p r <> OutOfFuel.
Proof.
  intros Hp Hr. pose proof (probe_ends p false Hp ltac:(done) r ltac:(done)) as H. by rewrite Hr in H.
Qed.

Lemma elaborate_ends i site f : program_ends p -> elaborate p i site f <> OutOfFuel.
Proof.
  intros Hp. unfold elaborate. destruct (negb _); [by destruct (appendUnimplemented _ _ _ _) as [[]|]|].
  destruct (instructions p !! _) as [rule|] eqn:Er; [|done].
  pose proof (run_fine p i (Some site) false ltac:(discriminate) Hp ltac:(discriminate) (ruleSemantics rule) (po_semantics p Hp _ _ Er) (newEngine f)) as H'.
  by destruct (run _ _ _ _ _) as [[[]]| |].
Qed.

(** C5 The engine always comes back. For a program whose code has at most 2^32
    instructions, with unsigned slots, whose bodies lie inside it and whose patterns
    name existing instructions (all of which holds of what [deserialize] accepts), and
    whose jumps all go forward ([program_ends]), no decoding, probe or elaboration
    runs on for ever, whatever the bytes, since calls nest at most [kMaxCallDepth]
    deep; signed divisions and replications included, which may however meet what C++
    leaves undefined (a quotient that overflows, a shift by 64 or more). For such a
    program that moreover divides no signed numbers, replicates nothing and has every
    field start below bit 64 ([program_ok]), with at most 2^32 patterns, words of at
    most 64 bits and the decision tree of its patterns ([decodable]), decoding any
    bytes and probing what was decoded end in a result, and never touch what is
    undefined. *)
Theorem engine_total `{SorterLaws} :
  program_ends p ->
  (forall bytes address, decode p bytes address <> OutOfFuel) /\
  (forall i, probe p i <> OutOfFuel) /\
  (forall i site f, elaborate p i site f <> OutOfFuel) /\
  (program_ok p -> decodable p -> forall bytes address, bytes_ok bytes ->
     exists r, decode p bytes address = Done r /\ exists w, probe p r = Done w).
Proof.
  intros Hp. split_and!; [by intros; apply decode_not_stuck|by intros; apply probe_not_stuck|by intros; apply elaborate_ends|].
  intros Hok Hdec bytes address Hb. destruct (decode_done bytes address Hok Hdec Hb) as (r & Hr & Hin).
  exists r. split; [done|by apply probe_done].
Qed.
End Total.
