(* ===== verification/Elaborate.v ===== *)
(** * What an elaboration builds

    Elaborating an instruction appends operations to the block of its site and
    touches no other part of the function; every operation carries the
    instruction's address; and the block ends the way the recorded flow says. *)
From stdpp Require Import relations.
From S2P Require Import Prelude Bits Types Exprs Registers Func Eval VerifyExpr ValueTypes EvalProps Rewrite Fold FoldProps FoldSound.
From S2P Require Import Program Sorting Encoding EncodingProps Engine EngineProps.
Local Open Scope Z_scope.

(** ** Appending to a block *)

Definition newIds (f : Function) (n : nat) : list N := N.of_nat <$> seq (length (ops (tables f))) n.

(** The function [f] is [f0] with the operations [os] at the end of block [b],
    all at the address [a] and stamped with the current pass; the pools grow. *)
Record appended (f0 : Function) (b : N) (a : Z) (os : list Op) (f : Function) : Prop := {
  ap_rest : registers f = registers f0 /\ entryVa f = entryVa f0 /\ functionName f = functionName f0 /\
    maturity f = maturity f0 /\ entryBlock f = entryBlock f0 /\ currentPass f = currentPass f0 /\
    blocksByAddress f = blocksByAddress f0;
  ap_exprs : exprs (pool f0) `prefix_of` exprs (pool f);
  ap_ops : ops (tables f) = ops (tables f0) ++ os;
  ap_stamp : Forall (fun o => va o = a /\ origin o = currentPass f0) os;
  ap_values : values (tables f0) `prefix_of` values (tables f);
  ap_operands : operandPool (tables f0) `prefix_of` operandPool (tables f);
  ap_targets : targetPool (tables f0) `prefix_of` targetPool (tables f);
  ap_block : exists b0, blockAtId f0 b = Some b0 /\
    blocks f = <[N.to_nat b := withBlockOps b0 (blockOps b0 ++ newIds f0 (length os))]> (blocks f0) }.

Lemma appended_refl f0 b a b0 : blockAtId f0 b = Some b0 -> appended f0 b a [] f0.
Proof.
  intros Hb. split; try done; try apply (reflexivity (R := prefix)); [by rewrite app_nil_r|].
  exists b0. split; [done|]. cbn. rewrite app_nil_r. apply vget_Some in Hb as [Hb _]. rewrite list_insert_id; [done|]. by destruct b0.
Qed.

Lemma appended_intern f0 b a os f f' : appended f0 b a os f -> pool_ext f f' -> appended f0 b a os f'.
Proof.
  intros [] [-> Hp]. split; cbn; try done. by etrans.
Qed.

Lemma appended_strings f0 b a os f s : appended f0 b a os f -> appended f0 b a os (withStrings f s).
Proof. intros []. by split. Qed.

Definition lastOpen (os : list Op) : Prop := match last os with Some o => isTerminator (code o) = false | None => True end.

Definition smallTargets (f : Function) : Prop := Z.of_nat (length (targetPool (tables f))) < 2 ^ 32.

(** Where the block ends. *)
Lemma appended_ends f0 b a os f b1 :
  appended f0 b a os f -> blockAtId f b = Some b1 -> endsInTerminator (tables f) b1 = Some false -> lastOpen os.
Proof.
  intros [_ _ Ho _ _ _ _ (b0 & Hb0 & Hbl)] Hb1 He. unfold lastOpen. destruct (last os) as [o|] eqn:El; [|done].
  apply last_Some in El as [os' ->]. apply vget_Some in Hb1 as [Hb1 _].
  rewrite Hbl, list_lookup_insert_eq in Hb1 by (apply vget_lt in Hb0; unfold blockAtId in *; lia). injection Hb1 as <-.
  unfold endsInTerminator in He. cbn in He. unfold newIds in He. rewrite length_app, Nat.add_comm in He. cbn [length Nat.add] in He.
  rewrite seq_S, fmap_app in He. cbn [fmap list_fmap] in He. rewrite app_assoc, last_snoc in He.
  destruct (vget (ops (tables f)) _) as [o'|] eqn:Eo; [|done]. apply vget_Some in Eo as [Eo _].
  rewrite Ho, Nat2N.id, app_assoc in Eo.
  rewrite list_lookup_middle in Eo by (rewrite length_app; done). injection Eo as <-. by injection He.
Qed.

Lemma appendOp_Some b o xs ts f id f' :
  appendOp b o xs ts f = Some (id, f') ->
  exists b1, blockAtId f b = Some b1 /\ endsInTerminator (tables f) b1 = Some false /\ id = N.of_nat (length (ops (tables f))) /\
    id <> kInvalidIndex /\
    let '(t, o') := appendRange (tables f) o (currentPass f) xs ts in
    f' = setBlock (withTables f (withOps t (ops (tables f) ++ [o']))) b (withBlockOps b1 (blockOps b1 ++ [id])).
Proof.
  unfold appendOp. destruct (blockAtId f b) as [b1|]; [|done]. cbn [mbind option_bind].
  destruct (endsInTerminator (tables f) b1) as [[]|] eqn:Ee; [done| |done]. cbn [mbind option_bind].
  destruct (appendRange _ _ _ _ _) as [t o'] eqn:Er. assert (ops t = ops (tables f)) as Ht by (by injection Er as <- <-).
  destruct (emplace (ops t) o') as [[os i]|] eqn:Em; [|done]. cbn. intros [= <- <-].
  apply emplace_Some in Em as (-> & -> & Hne & _). rewrite Ht in *. exists b1. by split_and!.
Qed.

Lemma appendOp_appended f0 b a os f o xs ts id f' :
  appended f0 b a os f -> appendOp b o xs ts f = Some (id, f') -> va o = a ->
  lastOpen os /\ id = N.of_nat (length (ops (tables f))) /\ id <> kInvalidIndex /\
  exists o', appended f0 b a (os ++ [o']) f' /\ code o' = code o /\ result o' = result o /\
    (smallTargets f' -> targetsOf (tables f') o' = Some ts).
Proof.
  intros Hap (b1 & Hb1 & He & Hid & Hne & Hf')%appendOp_Some Ha. split; [by eapply appended_ends|]. split; [done|]. split; [done|].
  destruct Hap as [Hrest Hex Ho Hst Hv Hop Htg (b0 & Hb0 & Hbl)].
  destruct (appendRange _ _ _ _ _) as [t o'] eqn:Er. injection Er as <- <-. eexists. split; [|split; [|split]].
  - subst f'. split; cbn; try done.
    + by rewrite Ho, app_assoc.
    + apply Forall_app. split; [done|]. constructor; [|done]. cbn. destruct Hrest as (_ & _ & _ & _ & _ & -> & _). done.
    + etrans; [done|]. by eexists.
    + etrans; [done|]. by eexists.
    + exists b0. split; [done|]. rewrite Hbl, list_insert_insert_eq.
      apply vget_Some in Hb1 as [Hb1 _]. rewrite Hbl, list_lookup_insert_eq in Hb1 by (apply vget_lt in Hb0; unfold blockAtId in *; lia).
      injection Hb1 as <-. cbn. f_equal. unfold withBlockOps. cbn. f_equal. rewrite <- app_assoc. f_equal.
      unfold newIds. rewrite length_app, Nat.add_1_r, seq_S, fmap_app. cbn. do 2 f_equal. by rewrite Hid, Ho, length_app.
  - done.
  - done.
  - subst f'. intros Hs. unfold smallTargets in Hs. cbn in Hs |- *. rewrite length_app in Hs. unfold targetsOf. cbn.
    unfold u32. rewrite !Z.mod_small by lia. apply slice_end.
Qed.

(** A value defined by the operation just appended. *)
Lemma appended_define f0 b a os o f t id blk value f' :
  appended f0 b a (os ++ [o]) f -> id = N.of_nat (length (ops (tables f0) ++ os)) ->
  (v ← defineValue t id blk; setResult id v;; mret (id, v)) f = Some (value, f') ->
  exists o', appended f0 b a (os ++ [o']) f' /\ code o' = code o.
Proof.
  intros Hap -> H. apply M_bind_Some in H as (v & f1 & Hv & H). apply M_bind_Some in H as ([] & f2 & H & [= <- <-]).
  unfold defineValue in Hv. destruct (emplace _ _) as [[vs v']|] eqn:Em; [|done]. cbn in Hv. injection Hv as -> <-.
  apply emplace_Some in Em as (-> & _). unfold setResult, update in H. destruct (opAt _ _) as [o1|] eqn:Eo; [|done]. cbn in H. injection H as <-.
  destruct Hap as [Hrest Hex Ho Hst Hvl Hop Htg (b0 & Hb0 & Hbl)].
  apply vget_Some in Eo as [Eo _]. cbn in Eo. rewrite Ho, Nat2N.id, app_assoc in Eo. rewrite list_lookup_middle in Eo by done. injection Eo as <-.
  exists (withResult o v). split; [|done]. split; cbn; try done.
  - by rewrite Ho, Nat2N.id, app_assoc, insert_snoc, <- app_assoc.
  - apply Forall_app in Hst as [Hst Hlast]. apply Forall_app. split; [done|].
    rewrite Forall_singleton in Hlast |- *. exact Hlast.
  - etrans; [done|]. by eexists.
  - exists b0. rewrite length_app in *. done.
Qed.

Lemma appendDefining_appended f0 b a os f o xs r f' :
  appended f0 b a os f -> appendDefining b o xs f = Some (r, f') -> va o = a ->
  lastOpen os /\ exists o', appended f0 b a (os ++ [o']) f' /\ code o' = code o.
Proof.
  intros Hap H Ha. apply M_bind_Some in H as (id & f1 & Hid & H).
  destruct (appendOp_appended f0 b a os f o xs [] id f1 Hap Hid Ha) as (Hl & Hid' & Hne & o1 & Hap1 & Hc1 & _).
  split; [done|]. destruct (appended_define f0 b a os o1 f1 (opType o) id b r f') as (o' & Hap' & Hc'); try done.
  - by rewrite Hid', (ap_ops _ _ _ _ _ Hap).
  - exists o'. split; [done|congruence].
Qed.

(** ** The invariant of a run *)

Section Invariant.
Variables (f0 : Function) (b : N) (blockAt : Z -> N).

Definition straight (os : list Op) : Prop := Forall (fun o => isTerminator (code o) = false) os.

(** The operation a kind of flow ends a block with, and its targets. *)
Definition terminatorOf (k : FlowKind) : option OpCode :=
  match k with
  | FlowKind.Fallthrough => None
  | FlowKind.Branch => Some OpCode.Branch
  | FlowKind.CondBranch => Some OpCode.CondBranch
  | FlowKind.IndirectBranch => Some OpCode.IndirectBranch
  | FlowKind.Return => Some OpCode.Return
  | FlowKind.Unreachable => Some OpCode.Unreachable
  | FlowKind.Unknown => Some OpCode.Unimplemented
  end.

Definition flowTargets (w : InsnFlow) : list N :=
  match flowKind w with
  | FlowKind.Branch => [blockAt (flowTarget w)]
  | FlowKind.CondBranch => [blockAt (flowTarget w); blockAt (flowFallthrough w)]
  | _ => []
  end.

(** The operations appended so far are what the flow says. *)
Definition flowMatches (w : InsnFlow) (os : list Op) (f : Function) : Prop :=
  match terminatorOf (flowKind w) with
  | None => straight os
  | Some c => exists os' o, os = os' ++ [o] /\ straight os' /\ code o = c /\
                (smallTargets f -> targetsOf (tables f) o = Some (flowTargets w))
  end.

Definition building_ok (a : Z) (w : InsnFlow) (f : Function) : Prop :=
  exists os, appended f0 b a os f /\ flowMatches w os f.

Lemma flow_open w os f : flowMatches w os f -> lastOpen os -> flowKind w = FlowKind.Fallthrough /\ straight os.
Proof.
  unfold flowMatches. destruct (terminatorOf (flowKind w)) as [c|] eqn:E.
  - intros (os' & o & -> & _ & <- & _) Hl. exfalso. unfold lastOpen in Hl. rewrite last_snoc in Hl.
    destruct (flowKind w); cbn in E; try done; injection E as E; by rewrite <- E in Hl.
  - destruct (flowKind w); done.
Qed.

Lemma flow_intern w os f f' : flowMatches w os f -> tables f' = tables f -> flowMatches w os f'.
Proof. unfold flowMatches, smallTargets. by intros H ->. Qed.

(** An operation that does not end the block. *)
Lemma building_op a w f o xs id f' :
  building_ok a w f -> appendOp b o xs [] f = Some (id, f') -> va o = a -> isTerminator (code o) = false -> building_ok a w f'.
Proof.
  intros (os & Hap & Hw) H Ha Hc. destruct (appendOp_appended _ _ _ _ _ _ _ _ _ _ Hap H Ha) as (Hl & _ & _ & o' & Hap' & Hc' & _).
  destruct (flow_open _ _ _ Hw Hl) as [Hk Hs]. exists (os ++ [o']). split; [done|]. unfold flowMatches. rewrite Hk. cbn.
  apply Forall_app. split; [done|]. apply Forall_singleton. congruence.
Qed.

Lemma building_defining a w f o xs r f' :
  building_ok a w f -> appendDefining b o xs f = Some (r, f') -> va o = a -> isTerminator (code o) = false -> building_ok a w f'.
Proof.
  intros (os & Hap & Hw) H Ha Hc. destruct (appendDefining_appended _ _ _ _ _ _ _ _ _ Hap H Ha) as (Hl & o' & Hap' & Hc').
  destruct (flow_open _ _ _ Hw Hl) as [Hk Hs]. exists (os ++ [o']). split; [done|]. unfold flowMatches. rewrite Hk. cbn.
  apply Forall_app. split; [done|]. apply Forall_singleton. congruence.
Qed.

(** The operation that ends it, after the flow was recorded. *)
Lemma building_terminator a w w' f o xs id f' :
  building_ok a w f -> appendOp b o xs (flowTargets w') f = Some (id, f') -> va o = a ->
  terminatorOf (flowKind w') = Some (code o) -> building_ok a w' f'.
Proof.
  intros (os & Hap & Hw) H Ha Hc. destruct (appendOp_appended _ _ _ _ _ _ _ _ _ _ Hap H Ha) as (Hl & _ & _ & o' & Hap' & Hc' & _ & Ht).
  destruct (flow_open _ _ _ Hw Hl) as [Hk Hs]. exists (os ++ [o']). split; [done|]. unfold flowMatches. rewrite Hc.
  exists os, o'. split_and!; done.
Qed.

Lemma building_interns {A} (m : M A) a w f x f' : interns m -> building_ok a w f -> m f = Some (x, f') -> building_ok a w f'.
Proof.
  intros Hm (os & Hap & Hw) H. apply Hm in H as Hx. exists os. split; [by eapply appended_intern|].
  apply (flow_intern w os f); [done|]. by destruct Hx as [-> _].
Qed.

Lemma building_name a w f key x f' : building_ok a w f -> internName key f = Some (x, f') -> building_ok a w f'.
Proof.
  intros (os & Hap & Hw) H. unfold internName in H. destruct (nameIndex (strings f) !! key); [by injection H as <- <-; exists os|].
  injection H as <- <-. exists os. split; [by apply appended_strings|by eapply flow_intern].
Qed.
End Invariant.

(** ** The engine while building *)

(** Steps that touch slots and errors only. *)
Definition still {A} (m : E A) : Prop :=
  forall s x s', m s = Done (x, s') -> built s' = built s /\ engineFlow s' = engineFlow s.

Lemma still_ret {A} (x : A) : still (mret x).
Proof. by intros s y s' [= <- <-]. Qed.
Lemma still_bind {A B} (m : E A) (k : A -> E B) : still m -> (forall x, still (k x)) -> still (m ≫= k).
Proof.
  intros Hm Hk s y s' (x & s1 & Hx & H)%E_bind_Done. destruct (Hm _ _ _ Hx) as [Hb Hf]. destruct (Hk x _ _ _ H) as [Hb' Hf'].
  split; congruence.
Qed.
Lemma still_eof {A} (x : option A) : still (eof x).
Proof. intros s y s' H. destruct x; [|done]. by injection H as <- <-. Qed.
Lemma still_setError e : still (setError e).
Proof. intros s [] s' [= <-]. by destruct (engineError s). Qed.
Lemma still_slotAt index : still (slotAt index).
Proof.
  intros s x s' (s1 & s2 & [= <- <-] & H)%E_bind_Done. destruct (outside s index); [|by eapply still_eof].
  eapply still_bind; [apply still_setError|intros; apply still_ret|exact H].
Qed.
Lemma still_assignSlot index q : still (assignSlot index q).
Proof.
  intros s x s' (s1 & s2 & [= <- <-] & H)%E_bind_Done. destruct (outside s index).
  - apply E_bind_Done in H as ([] & s3 & H & [= <- <-]). by apply still_setError in H.
  - by injection H as <- <-.
Qed.

Create HintDb appends.
Create HintDb still.
#[export] Hint Resolve still_ret still_eof still_setError still_slotAt still_assignSlot : still.

Ltac still :=
  repeat match goal with
  | |- forall _, _ => intro
  | |- still (mbind _ _) => apply still_bind
  | |- still (match ?x with _ => _ end) => destruct x
  | |- still (bind_next _) => unfold bind_next
  | |- still (intAt _) => unfold intAt
  | |- still (engineExprAt _) => unfold engineExprAt
  | |- still (setInt _ _) => unfold setInt
  | |- still (setExpr _ _) => unfold setExpr
  | |- still _ => solve [auto with still]
  end.

Lemma still_slotRun count first : still (slotRun count first).
Proof. revert first. induction count as [|count IH]; intros first; cbn [slotRun]; still. Qed.
Lemma still_flagOperands indices : still (flagOperands indices).
Proof. induction indices; cbn [flagOperands]; still. Qed.
Lemma still_intAt index : still (intAt index).
Proof. still. Qed.
Lemma still_exprAt index : still (engineExprAt index).
Proof. still. Qed.
Lemma still_setExpr index id : still (setExpr index id).
Proof. still. Qed.
Lemma still_setInt index value : still (setInt index value).
Proof. still. Qed.
Lemma still_blockFor site target : still (blockFor site target).
Proof. unfold blockFor. still. Qed.
#[export] Hint Resolve still_slotRun still_flagOperands still_intAt still_exprAt still_setExpr still_setInt still_blockFor : still.

Lemma build_Done {A} (m : M A) s x s' :
  build m s = Done (x, s') -> m (built s) = Some (x, built s') /\ engineFlow s' = engineFlow s.
Proof. unfold build. destruct (m (built s)) as [[y f]|]; [|done]. by intros [= <- <-]. Qed.

Section Building.
Variables (p : SpecProgram) (d : DecodedInsn) (site : LiftSite) (f0 : Function).

Definition resolves (target : Z) : N :=
  match blockResolver site with Some blockAt => blockAt target | None => kInvalidIndex end.

Definition inv (s : EngineState) : Prop :=
  building_ok f0 (siteBlock site) resolves (decAddress d) (engineFlow s) (built s).

Definition keeps {A} (m : E A) : Prop := forall s x s', inv s -> m s = Done (x, s') -> inv s'.

Lemma keeps_still {A} (m : E A) : still m -> keeps m.
Proof. intros Hm s x s' Hs H. destruct (Hm _ _ _ H) as [Hb Hf]. unfold inv. by rewrite Hb, Hf. Qed.
Lemma keeps_bind {A B} (m : E A) (k : A -> E B) : keeps m -> (forall x, keeps (k x)) -> keeps (m ≫= k).
Proof. intros Hm Hk s y s' Hs (x & s1 & Hx & H)%E_bind_Done. eapply Hk, H. by eapply Hm. Qed.
Lemma keeps_interns {A} (m : M A) : interns m -> keeps (build m).
Proof. intros Hm s x s' Hs [H Hf]%build_Done. unfold inv. rewrite Hf. by eapply building_interns. Qed.

(** A builder that appends operations which do not end the block. *)
Definition appends {A} (m : M A) : Prop := forall w f x f',
  building_ok f0 (siteBlock site) resolves (decAddress d) w f -> m f = Some (x, f') ->
  building_ok f0 (siteBlock site) resolves (decAddress d) w f'.

Lemma keeps_build {A} (m : M A) : appends m -> keeps (build m).
Proof. intros Hm s x s' Hs [H Hf]%build_Done. unfold inv. rewrite Hf. by eapply Hm. Qed.

Lemma appends_interns {A} (m : M A) : interns m -> appends m.
Proof. intros Hm w f x f' Hf H. by eapply building_interns. Qed.
Lemma appends_bind {A B} (m : M A) (k : A -> M B) : appends m -> (forall x, appends (k x)) -> appends (m ≫= k).
Proof. intros Hm Hk w f x f' Hf (y & f1 & Hy & H)%M_bind_Some. eapply Hk, H. by eapply Hm. Qed.
Lemma appends_op c t payload xs :
  isTerminator c = false -> appends (appendOp (siteBlock site) (newOp c t (decAddress d) payload) xs []).
Proof. intros Hc w f x f' Hf H. by eapply building_op. Qed.
Lemma appends_defining c t payload xs :
  isTerminator c = false -> appends (appendDefining (siteBlock site) (newOp c t (decAddress d) payload) xs).
Proof. intros Hc w f x f' Hf H. by eapply building_defining. Qed.
Lemma appends_maybe c t payload xs :
  isTerminator c = false -> appends (appendMaybeDefining (siteBlock site) (newOp c t (decAddress d) payload) xs).
Proof.
  intros Hc. unfold appendMaybeDefining. destruct (isVoid _); [by apply appends_op|].
  apply appends_bind; [by apply appends_defining|]. intros [id v]. apply appends_interns, interns_ret.
Qed.
Lemma appends_name key : appends (internName key).
Proof. intros w f x f' Hf H. by eapply building_name. Qed.

#[local] Hint Resolve appends_op appends_defining appends_maybe appends_name : appends.

Ltac appends :=
  repeat match goal with
  | |- forall _, _ => intro
  | |- appends (match ?x with _ => _ end) => destruct x
  | |- appends (mbind _ _) => apply appends_bind
  | |- appends _ => solve [auto with appends | apply appends_interns; auto with interns]
  end.

Lemma appends_readReg reg : appends (appendReadReg (siteBlock site) (decAddress d) reg).
Proof. unfold appendReadReg. appends. Qed.
Lemma appends_writeReg reg x : appends (appendWriteReg (siteBlock site) (decAddress d) reg x).
Proof. unfold appendWriteReg. appends. Qed.
Lemma appends_load t a : appends (appendLoad (siteBlock site) (decAddress d) t a).
Proof. unfold appendLoad. appends. Qed.
Lemma appends_store t a x : appends (appendStore (siteBlock site) (decAddress d) t a x).
Proof. unfold appendStore. appends. Qed.
Lemma appends_nop : appends (appendNop (siteBlock site) (decAddress d)).
Proof. unfold appendNop. appends. Qed.
Lemma appends_call target t : appends (appendCall (siteBlock site) (decAddress d) target t).
Proof. unfold appendCall. appends. Qed.
Lemma appends_intrinsic nm t xs : appends (appendIntrinsic (siteBlock site) (decAddress d) nm t xs).
Proof. unfold appendIntrinsic. appends. Qed.

#[local] Hint Resolve appends_readReg appends_writeReg appends_load appends_store appends_nop appends_call
  appends_intrinsic : appends.

Ltac keeps :=
  repeat match goal with
  | |- forall _, _ => intro
  | |- keeps (match ?x with _ => _ end) => destruct x
  | |- keeps (mbind _ _) => apply keeps_bind
  | |- keeps (done _) => unfold done
  | |- keeps (build _) => first
      [ apply keeps_build; solve [auto with appends]
      | apply keeps_interns; solve [auto with interns] ]
  | |- keeps _ => solve [auto with still | apply keeps_still; auto with still]
  end.

Lemma keeps_callResultType : keeps (callResultType (Some site)).
Proof. unfold callResultType. keeps. Qed.
Lemma keeps_widthOfExpr id : keeps (widthOfExpr (Some site) id).
Proof. unfold widthOfExpr. keeps. Qed.
#[local] Hint Resolve keeps_callResultType keeps_widthOfExpr : still.

Lemma interns_valueRef v : interns (valueRef v).
Proof. unfold valueRef. auto with interns. Qed.
Lemma interns_undefined t : interns (undefined t).
Proof. apply interns_intern. Qed.
Lemma interns_extract t x low : interns (extractExpr t x low).
Proof. apply interns_intern. Qed.
Lemma interns_concat t x y : interns (concat t x y).
Proof. apply interns_intern. Qed.
Lemma interns_select c x y : interns (select c x y).
Proof. unfold select. auto with interns. Qed.
Lemma interns_flagDef o w xs : interns (flagDef o w xs).
Proof. unfold flagDef. auto with interns. Qed.
Lemma interns_flagCondition x c : interns (flagCondition x c).
Proof. apply interns_intern. Qed.
Lemma interns_flagBitOf x c : interns (flagBitOf x c).
Proof. apply interns_intern. Qed.
#[local] Hint Resolve interns_valueRef interns_undefined interns_extract interns_concat interns_select interns_flagDef
  interns_flagCondition interns_flagBitOf : interns.

Lemma keeps_executeBuild o i : keeps (executeBuild p d (Some site) o i).
Proof. destruct o as [[]|]; unfold executeBuild; keeps. Qed.

(** Steps that succeed keep the invariant. *)
Definition keepsTrue (m : E bool) : Prop := forall s s', inv s -> m s = Done (true, s') -> inv s'.

Lemma intAt_still s index v s' : intAt index s = Done (v, s') -> built s' = built s /\ engineFlow s' = engineFlow s.
Proof. apply still_intAt. Qed.

(** Peel a run that is known to have ended. *)
Ltac peel :=
  repeat match goal with
  | H : (recordFlow _ ≫= _) _ = Done _ |- _ =>
      let s := fresh "s" in let E := fresh "E" in
      apply E_bind_Done in H as ([] & s & E & H); injection E as <-
  | H : (mbind _ (intAt _)) _ = Done _ |- _ =>
      let x := fresh "t" in let s := fresh "s" in let Hb := fresh "Hb" in let Hf := fresh "Hf" in
      apply E_bind_Done in H as (x & s & [Hb Hf]%still_intAt & H); cbn in Hb, Hf
  | H : (mbind _ (engineExprAt _)) _ = Done _ |- _ =>
      let x := fresh "x" in let s := fresh "s" in let Hb := fresh "Hb" in let Hf := fresh "Hf" in
      apply E_bind_Done in H as (x & s & [Hb Hf]%still_exprAt & H); cbn in Hb, Hf
  | H : done (build _) _ = Done _ |- _ =>
      let s := fresh "s" in let Hb := fresh "Hb" in let Hf := fresh "Hf" in
      apply E_bind_Done in H as (? & s & [Hb Hf]%build_Done & [= <-])
  end.

(** The block a target resolves to, when it does. *)
Lemma blockFor_valid target s r s' :
  blockFor (Some site) target s = Done (r, s') -> handleValid r = true ->
  r = resolves target /\ built s' = built s /\ engineFlow s' = engineFlow s.
Proof.
  unfold blockFor, resolves. cbn [mbind option_bind]. destruct (blockResolver site) as [g|].
  - destruct (handleValid (g target)) eqn:Ev.
    + intros [= <- <-]. done.
    + intros H Hr. apply E_bind_Done in H as ([] & s1 & _ & [= <- <-]). congruence.
  - intros H Hr. apply E_bind_Done in H as ([] & s1 & _ & [= <- <-]). done.
Qed.

(** A terminator appended after its flow was recorded. *)
Lemma inv_terminator w f c payload xs w' ts id f' :
  building_ok f0 (siteBlock site) resolves (decAddress d) w f ->
  appendOp (siteBlock site) (newOp c voidType (decAddress d) payload) xs ts f = Some (id, f') ->
  ts = flowTargets resolves w' -> terminatorOf (flowKind w') = Some c ->
  building_ok f0 (siteBlock site) resolves (decAddress d) w' f'.
Proof. intros Hs H -> Hc. by eapply building_terminator. Qed.

Lemma keeps_calls known : keeps (recordFlow (setCalls known)).
Proof. intros s [] s' (os & Hap & Hw) [= <-]. exists os. split; [done|]. by destruct known. Qed.

(** Read the flow and the function back to where the step began. *)
Ltac settle :=
  unfold inv; cbn in *;
  repeat match goal with
  | H : engineFlow ?s = _ |- context [engineFlow ?s] => rewrite H
  | H : built ?s = _, H' : context [built ?s] |- _ => rewrite H in H'
  end.

Lemma keeps_call o i m :
  o = Opcode.CallAddr \/ o = Opcode.IndirectCall -> executeFlow p d (Some site) o i = Some m -> keeps m.
Proof.
  intros [-> | ->] [= <-]; unfold whenBuilding; cbn [building bool_decide decide is_Some_dec decide_rel];
    repeat first [apply keeps_calls | apply keeps_bind; [first [apply keeps_calls | keeps]|intros ?] | progress keeps].
Qed.

Lemma keeps_executeFlow o i m : executeFlow p d (Some site) o i = Some m -> keepsTrue m.
Proof.
  intros Hm s s' Hs H. destruct (decide (o = Opcode.CallAddr \/ o = Opcode.IndirectCall)) as [Ho|Ho]; [by eapply keeps_call|].
  destruct o; try discriminate Hm; try (exfalso; auto; fail); injection Hm as <-; peel;
    unfold whenBuilding in H; cbn [building bool_decide decide is_Some_dec decide_rel] in H.
  - apply E_bind_Done in H as (r & s3 & Hr & H).
    destruct (handleValid r) eqn:Ev; cbn [negb] in H; [|discriminate H]. apply blockFor_valid in Hr as (-> & Hb' & Hf'); [|done].
    peel. settle. eapply inv_terminator; [exact Hs|eassumption|reflexivity..].
  - apply E_bind_Done in H as (r & s3 & Hr & H). apply E_bind_Done in H as (r' & s4 & Hr' & H).
    destruct (handleValid r) eqn:Ev, (handleValid r') eqn:Ev'; cbn [negb orb] in H; try discriminate H.
    apply blockFor_valid in Hr as (-> & Hb' & Hf'); [|done]. apply blockFor_valid in Hr' as (-> & Hb'' & Hf''); [|done].
    peel. settle. eapply inv_terminator; [exact Hs|eassumption|reflexivity..].
  - peel. settle. eapply inv_terminator; [exact Hs|eassumption|reflexivity..].
  - peel. settle. eapply inv_terminator; [exact Hs|eassumption|reflexivity..].
  - peel. settle. eapply inv_terminator; [exact Hs|eassumption|reflexivity..].
  - peel. settle. unfold appendUnimplemented in Hb. apply M_bind_Some in Hb as (nm & f1 & Hn & Hb).
    eapply inv_terminator; [eapply building_name; [exact Hs|exact Hn]|exact Hb|reflexivity..].
Qed.

Lemma keeps_executeEffect o i : keepsTrue (executeEffect p d (Some site) o i).
Proof.
  intros s s' Hs H. unfold executeEffect in H. destruct o as [o|]; cbn [mbind option_bind] in H.
  - destruct (executeFlow p d (Some site) o i) as [m|] eqn:Em; [exact (keeps_executeFlow o i m Em s s' Hs H)|].
    exact (keeps_executeBuild _ i s true s' Hs H).
  - exact (keeps_executeBuild _ i s true s' Hs H).
Qed.

Lemma keeps_executeInsn call i s c s' :
  (forall body arguments s r s', inv s -> call body arguments s = Done ((true, r), s') -> inv s') ->
  inv s -> executeInsn p d (Some site) call i s = Done (c, s') -> gaveUp c \/ inv s'.
Proof.
  intros Hcall Hs H. unfold executeInsn in H.
  assert (forall o, (okay ← executeEffect p d (Some site) o i; mret (if (okay : bool) then Next else Finish false emptySlot)) s = Done (c, s') ->
    gaveUp c \/ inv s') as Heffect.
  { intros o Ho. apply E_bind_Done in Ho as ([] & s1 & Ho & [= <- <-]); [right; exact (keeps_executeEffect o i _ _ Hs Ho)|left; by eexists]. }
  destruct (enumAt opcodes (insnOp i)) as [[]|]; try (by eapply Heffect).
  all: try (right; refine (keeps_still _ _ s c s' Hs H); still; fail).
  destruct (functions p !! _) as [callee|]; [|right; refine (keeps_still _ _ s c s' Hs H); still].
  apply E_bind_Done in H as (arguments & s1 & Ha & H). apply E_bind_Done in H as ([okay r] & s2 & Hr & H).
  destruct okay; [right|left; injection H as <- _; by eexists].
  assert (inv s2) as Hs2 by (eapply Hcall, Hr; exact (keeps_still _ (still_slotRun _ _) s _ _ Hs Ha)).
  refine (keeps_still _ _ s2 c s' Hs2 H). still.
Qed.

(** A body that returns leaves the invariant as it was. *)
Lemma keeps_execute fuel depth body pc s r s' :
  inv s -> execute p d (Some site) fuel depth body pc s = Done ((true, r), s') -> inv s'.
Proof.
  revert depth body pc s r s'. induction fuel as [|fuel IH]; intros depth body pc s r s' Hs H; [done|]. cbn [execute] in H.
  destruct (negb (pc <? bodyLength body)); [by injection H as _ <-|].
  apply E_bind_Done in H as (s0 & s1 & [= <- <-] & H). destruct (decide _); [done|].
  apply E_bind_Done in H as (i & s1 & Hi & H). assert (s1 = s) as -> by (unfold eof in Hi; destruct (progCode p !! _); [by injection Hi|discriminate Hi]).
  apply E_bind_Done in H as (c & s2 & Hc & H).
  assert (forall body arguments s r s', inv s -> runWith (execute p d (Some site) fuel) depth body arguments s = Done ((true, r), s') -> inv s') as Hcall.
  { clear -IH. intros body arguments s r s' Hs H. unfold runWith in H. destruct (_ <=? _)%nat.
    { by apply E_bind_Done in H as (? & ? & _ & [=]). }
    apply E_bind_Done in H as (s0 & s1 & [= <- <-] & H). apply E_bind_Done in H as ([] & s1 & [= <-] & H).
    apply E_bind_Done in H as ([okay x] & s2 & Hx & H). apply E_bind_Done in H as ([] & s3 & [= <-] & [= -> <- <-]).
    exact (IH (S depth) body 0 (withFrame s _) x s2 Hs Hx). }
  destruct (keeps_executeInsn _ _ _ _ _ Hcall Hs Hc) as [[x ->]|Hs2]; [discriminate H|].
  destruct c as [|target|okay x]; [exact (IH _ _ _ _ _ _ Hs2 H)..|by injection H as _ _ <-].
Qed.

Lemma keeps_run body s r s' : inv s -> run p d (Some site) body s = Done ((true, r), s') -> inv s'.
Proof.
  intros Hs H. unfold run, runWith in H. destruct (_ <=? _)%nat; [by apply E_bind_Done in H as (? & ? & _ & [=])|].
  apply E_bind_Done in H as (s0 & s1 & [= <- <-] & H). apply E_bind_Done in H as ([] & s1 & [= <-] & H).
  apply E_bind_Done in H as ([okay x] & s2 & Hx & H). apply E_bind_Done in H as ([] & s3 & [= <-] & [= -> <- <-]).
  exact (keeps_execute _ _ _ _ (withFrame s _) x s2 Hs Hx).
Qed.
End Building.

(** ** Properties *)

(** C1 Probing foresees elaboration: where an instruction elaborates without an
    error into a block that has not ended, the probe of the same instruction
    succeeds, and the block then ends the way the probe says, falling through or
    in the terminator for its kind of flow with the blocks its addresses resolve
    to. Nothing else of the function changes: the operations go to the end of
    the site's block, all of them carry the instruction's address, and the pools
    only grow. *)
Theorem probe_foresees_elaboration p d site f f' b0 :
  decValid d = true -> blockAtId f (siteBlock site) = Some b0 ->
  elaborate p d site f = Done (None, f') -> smallTargets f' ->
  exists w os, probe p d = Done w /\ appended f (siteBlock site) (decAddress d) os f' /\
    match terminatorOf (flowKind w) with
    | None => straight os /\ flowFallthrough w = decNext d
    | Some c => exists os' o, os = os' ++ [o] /\ straight os' /\ code o = c /\
                  targetsOf (tables f') o = Some (flowTargets (resolves site) w)
    end.
Proof.
  intros Hv Hb H Hsmall. unfold elaborate, probe in *. rewrite Hv in *. cbn [negb] in *.
  destruct (instructions p !! _) as [rule|]; [|done].
  destruct (run p d (Some site) (ruleSemantics rule) (newEngine f)) as [[[okay r] s]| |] eqn:Er; [|done..].
  destruct okay; [|by destruct (engineError s)]. injection H as <-.
  assert (inv d site f (newEngine f)) as Hinit.
  { exists []. split; [by apply (appended_refl _ _ _ b0)|]. apply Forall_nil_2. }
  destruct (keeps_run p d site f (ruleSemantics rule) (newEngine f) r s Hinit Er) as (os & Hap & Hw).
  assert (exists r' s', run p d None (ruleSemantics rule) (newEngine (noFunction p)) = Done ((true, r'), s') /\ twin s' s) as (r' & s' & -> & Ht).
  { destruct (run_tracks p d site (ruleSemantics rule) (newEngine (noFunction p)) (newEngine f) r s) as (r' & s' & ? & ? & _); [by split|done|eauto]. }
  cbn [negb]. pose proof (twin_flow _ _ Ht) as Hf. rewrite <- Hf in Hw. unfold flowMatches in Hw.
  eexists _, os. split; [done|]. split; [done|]. destruct (decide _) as [Hk|Hk]; cbn.
  - rewrite Hk in Hw |- *. done.
  - destruct (terminatorOf _) as [c|] eqn:Ec; [|by destruct (flowKind _)]. destruct Hw as (os' & o & ? & ? & ? & Hts). eauto 8.
Qed.
