(* ===== verification/Serialize.v ===== *)
(** * The spec blob (spec/serialize.cpp)

    A compiled specification as a flat little-endian buffer: the writer, the
    bounds-checked reader with its sticky failure, [serialize], and [deserialize]
    with its checks. The decision tree is not stored; loading rebuilds it. *)
From S2P Require Import Prelude Bits Types Exprs Registers Program Sorting Encoding.
From Stdlib Require Import Ascii.
Local Open Scope Z_scope.

(** ** Writer

    The bytes each member function of [Writer] appends. *)

Definition write8 (value : Z) : list Z := [u8 value].
Definition write16 (value : Z) : list Z := write8 (u8 value) ++ write8 (u8 (Z.shiftr value 8)).
Definition write32 (value : Z) : list Z := write16 (u16 value) ++ write16 (u16 (Z.shiftr value 16)).
Definition write64 (value : Z) : list Z := write32 (u32 value) ++ write32 (u32 (Z.shiftr value 32)).

Definition charByte (c : ascii) : Z := Z.of_N (N_of_ascii c).
Definition writeString (text : string) : list Z :=
  write32 (u32 (Z.of_nat (String.length text))) ++ (charByte <$> String.list_ascii_of_string text).

Definition writeBody (value : Body) : list Z :=
  write32 (bodyStart value) ++ write32 (bodyLength value) ++ write16 (bodySlots value).

Definition writeBool (b : bool) : list Z := write8 (if b then 1 else 0).

(** A length, and a loop over the elements. *)
Definition writeList {A} (write : A -> list Z) (l : list A) : list Z :=
  write32 (u32 (Z.of_nat (length l))) ++ concat (write <$> l).

(** ** Reader *)

(** The bytes from [position_] on, and [failed_]. *)
Record Reader : Set := MkReader { remaining : list Z; readFailed : bool }.

(** A reading operation; [None] is a failed assertion of the register file. *)
Definition R (A : Type) : Type := Reader -> option (A * Reader).

#[export] Instance R_ret : MRet R := fun A x r => Some (x, r).
#[export] Instance R_bind : MBind R := fun A B k m r =>
  match m r with Some (x, r) => k x r | None => None end.

Definition inFailed : R bool := fun r => Some (readFailed r, r).
Definition setFailed : R unit := fun r => Some (tt, MkReader (remaining r) true).
Definition bytesLeft : R Z := fun r => Some (Z.of_nat (length (remaining r)), r).
Definition asserted {A} (x : option A) : R A := fun r => x ← x; Some (x, r).

Definition read8 : R Z := fun r =>
  match remaining r with
  | [] => Some (0, MkReader [] true)
  | b :: bytes => Some (b, MkReader bytes (readFailed r))
  end.

Definition read16 : R Z := low ← read8; high ← read8; mret (u16 (Z.lor low (u16 (Z.shiftl high 8)))).
Definition read32 : R Z := low ← read16; high ← read16; mret (Z.lor low (u32 (Z.shiftl high 16))).
Definition read64 : R Z := low ← read32; high ← read32; mret (Z.lor low (shl64 high 32)).

Definition byteChar (b : Z) : ascii := ascii_of_N (Z.to_N b).

Fixpoint readChars (length : nat) : R string :=
  match length with
  | O => mret EmptyString
  | S length => b ← read8; text ← readChars length; mret (String (byteChar b) text)
  end.

Definition readString : R string :=
  length ← read32; failed ← inFailed; left ← bytesLeft;
  if failed || (left <? length) then setFailed;; mret EmptyString else readChars (Z.to_nat length).

Definition readCount (minimumBytesEach : Z) : R Z :=
  value ← read32; failed ← inFailed; left ← bytesLeft;
  if failed || (negb (minimumBytesEach =? 0) && (left / minimumBytesEach <? value)) then setFailed;; mret 0 else mret value.

Definition readBody : R Body :=
  start ← read32; length ← read32; slots ← read16; mret (MkBody start length slots).

Definition readBool : R bool := b ← read8; mret (negb (b =? 0)).

(** [for (index = 0; index < count && !in.failed(); ++index)]. *)
Fixpoint readTimes {A} (count : nat) (element : R A) : R (list A) :=
  match count with
  | O => mret []
  | S count =>
      failed ← inFailed;
      if (failed : bool) then mret [] else x ← element; xs ← readTimes count element; mret (x :: xs)
  end.

Definition readList {A} (minimumBytesEach : Z) (element : R A) : R (list A) :=
  count ← readCount minimumBytesEach; readTimes (Z.to_nat count) element.

(** ** The parts of a program *)

(** A handle as its index; an invalid parent is [0xFFFFFFFF], which is also
    what [kInvalidIndex] is. *)
Definition writeHandle (h : N) : list Z := write32 (Z.of_N h).
Definition readHandle : R N := index ← read32; mret (Z.to_N index).

Definition writeRegClass (c : RegClass) : list Z := write8 (u8 (regClassByte c)).

(** Any byte is cast, whether or not it names a class. *)
Definition readRegClass : R RegClass := b ← read8; mret (byteRegClass b).

Definition writeRegister (reg : RegisterInfo) : list Z :=
  writeString (name reg) ++ write32 (regBits reg) ++ writeRegClass (regClass reg) ++
  write32 (if handleValid (parent reg) then Z.of_N (parent reg) else 0xFFFFFFFF) ++
  write32 (offsetInParent reg) ++ writeBool (zeroExtendsParent reg).

Definition readRegister (f : RegisterFile) : R RegisterFile :=
  nm ← readString; bits ← read32; c ← readRegClass; par ← read32; offset ← read32; zeroExtends ← readBool;
  asserted (fst <$> (if par =? 0xFFFFFFFF then addRegister f nm bits c
                     else addSubRegister f nm (Z.to_N par) offset bits zeroExtends)).

Fixpoint readRegisters (count : nat) (f : RegisterFile) : R RegisterFile :=
  match count with
  | O => mret f
  | S count =>
      failed ← inFailed;
      if (failed : bool) then mret f else f ← readRegister f; readRegisters count f
  end.

Definition readRegisterFile : R RegisterFile :=
  count ← readCount 8; readRegisters (Z.to_nat count) emptyRegisterFile.

Definition writeView (view : N * Z) : list Z := writeHandle view.1 ++ write32 view.2.
Definition readView : R (N * Z) := base ← readHandle; bits ← read32; mret (base, bits).

Definition writeRegFile (file : ProgramRegFile) : list Z :=
  writeString (fileName file) ++ writeHandle (fileBase file) ++ write32 (fileCount file) ++ write32 (fileBits file) ++
  writeRegClass (fileRole file) ++ writeList writeView (zip (viewBase file) (viewBits file)).

Definition readRegFile : R ProgramRegFile :=
  nm ← readString; base ← readHandle; count ← read32; bits ← read32; role ← readRegClass;
  views ← readList 8 readView; mret (MkProgramRegFile nm base count bits views.*1 views.*2 role).

Definition writeInsn (i : Insn) : list Z :=
  write8 (insnOp i) ++ write8 (insnAux i) ++ write16 (insnDest i) ++ write16 (insnA i) ++ write16 (insnB i) ++
  write16 (insnC i) ++ write64 (insnImm i).

Definition readInsn : R Insn :=
  op ← read8; aux ← read8; dest ← read16; a ← read16; b ← read16; c ← read16; imm ← read64;
  mret (MkInsn op aux dest a b c imm).

Definition writePiece (piece : ProgramAsmPiece) : list Z :=
  write8 (pieceOp piece) ++ write8 (pieceStyle piece) ++ write32 (pieceText piece) ++ writeBody (pieceValue piece) ++
  writeBody (pieceArgument piece).

Definition readPiece : R ProgramAsmPiece :=
  op ← read8; style ← read8; text ← read32; value ← readBody; argument ← readBody;
  mret (MkProgramAsmPiece op style text value argument).

Definition writeFunction (fn : ProgramFn) : list Z :=
  writeString (fnName fn) ++ write16 (fnParams fn) ++ writeBody (fnBody fn).

Definition readFunction : R ProgramFn :=
  nm ← readString; params ← read16; body ← readBody; mret (MkProgramFn nm params body).

Definition writeField (field : ProgramField) : list Z :=
  writeString (fieldName field) ++ write8 (fieldShift field) ++ write8 (fieldBits field).

Definition readField : R ProgramField :=
  nm ← readString; shift ← read8; bits ← read8; mret (MkProgramField nm shift bits).

Definition writeRule (rule : ProgramInsn) : list Z :=
  writeString (ruleName rule) ++ writeList writeField (ruleFields rule) ++ writeList writeBody (ruleGuards rule) ++
  writeBody (ruleSemantics rule) ++ write32 (asmStart (ruleDisassembly rule)) ++ write32 (asmLength (ruleDisassembly rule)).

Definition readRule : R ProgramInsn :=
  nm ← readString; fields ← readList 6 readField; guards ← readList 10 readBody; semantics ← readBody;
  start ← read32; length ← read32; mret (MkProgramInsn nm fields guards semantics (MkProgramAsm start length)).

(** A priority is an [int]. *)
Definition toI32 (a : Z) : Z := if a <? 2 ^ 31 then a else a - 2 ^ 32.

Definition writePattern (pattern : EncodingPattern) : list Z :=
  write32 (patInstruction pattern) ++ writeString (patName pattern) ++ write64 (patMask pattern) ++
  write64 (patValue pattern) ++ write32 (u32 (patPriority pattern)) ++ writeBool (patGuards pattern).

Definition readPattern : R EncodingPattern :=
  instruction ← read32; nm ← readString; mask ← read64; value ← read64; priority ← read32; guards ← readBool;
  mret (MkEncodingPattern instruction nm mask value (toI32 priority) guards).

(** ** The blob *)

(** [endian == Endian::Big]. *)
Definition isBig (order : endian) : bool := match order with big => true | little => false end.

(** After the magic and the version. *)
Definition writeProgram (p : SpecProgram) : list Z :=
  writeString (progName p) ++ write32 (u32 (progArch p)) ++
  writeBool (isBig (progEndian p)) ++ write32 (insnWidth p) ++ write32 (pointerBits p) ++
  writeList writeRegister (registers_ (progRegisters p)) ++ writeList writeRegFile (regFiles p) ++
  writeList writeString (progStrings p) ++ writeList writeInsn (progCode p) ++ writeList writePiece (asmPieces p) ++
  writeList writeFunction (functions p) ++ writeList writeRule (instructions p) ++ writeList writePattern (patterns p).

Definition serialize (p : SpecProgram) : list Z := write32 kMagic ++ write32 kVersion ++ writeProgram p.

(** [Arch] is an enumeration over [uint8_t]. *)
Definition readProgram : R SpecProgram :=
  nm ← readString; arch ← read32; order ← readBool; width ← read32; pointer ← read32;
  regs ← readRegisterFile; files ← readList 8 readRegFile; strings ← readList 4 readString;
  code ← readList 18 readInsn; pieces ← readList 26 readPiece; fns ← readList 16 readFunction;
  rules ← readList 24 readRule; pats ← readList 29 readPattern;
  mret (MkSpecProgram nm (u8 arch) (if (order : bool) then big else little) width pointer regs files strings code pieces fns rules
          pats (MkDecisionTree None 0)).

Inductive BlobError : Set :=
  | BadMagic | WrongVersion (version : Z) | Truncated | FunctionOutside | SemanticsOutside | GuardOutside
  | TemplateOutside | NoSuchInstruction.

Definition bodyWithin (p : SpecProgram) (body : Body) : bool :=
  bodyStart body + bodyLength body <=? Z.of_nat (length (progCode p)).

(** The checks of one rule. *)
Definition checkRule (p : SpecProgram) (rule : ProgramInsn) : option BlobError :=
  if negb (bodyWithin p (ruleSemantics rule)) then Some SemanticsOutside
  else if negb (forallb (bodyWithin p) (ruleGuards rule)) then Some GuardOutside
  else if Z.of_nat (length (asmPieces p)) <? asmStart (ruleDisassembly rule) + asmLength (ruleDisassembly rule)
  then Some TemplateOutside else None.

(** The structural checks after the reading, in order. *)
Definition checkProgram (p : SpecProgram) : option BlobError :=
  if negb (forallb (fun fn => bodyWithin p (fnBody fn)) (functions p)) then Some FunctionOutside
  else match list_find (fun rule => is_Some (checkRule p rule)) (instructions p) with
  | Some (_, rule) => checkRule p rule
  | None =>
      if negb (forallb (fun pattern => patInstruction pattern <? Z.of_nat (length (instructions p))) (patterns p))
      then Some NoSuchInstruction else None
  end.

(** [None] is an abort in the register file's assertions. *)
Definition deserialize `{Sorter} (bytes : list Z) : option (BlobError + SpecProgram) :=
  '(magic, r) ← read32 (MkReader bytes false);
  if negb (magic =? kMagic) then Some (inl BadMagic)
  else
    '(version, r) ← read32 r;
    if negb (version =? kVersion) then Some (inl (WrongVersion version))
    else
      '(p, r) ← readProgram r;
      if readFailed r then Some (inl Truncated)
      else match checkProgram p with
      | Some e => Some (inl e)
      | None => Some (inr (rebuildDecoder p))
      end.
