(* ===== verification/SerializeProps.v ===== *)
(** * The spec blob is read back as it was written

    Every part's reader reads what its writer wrote, and fails on any proper
    prefix of it ([codec]); both compose, so that a whole program is read back
    and a truncated blob never yields one. *)
From S2P Require Import Prelude Bits Types Exprs Registers Program Sorting Encoding Serialize.
From Stdlib Require Import Ascii.
Local Open Scope Z_scope.

(** ** Codecs *)

Definition parses {A} (m : R A) (bytes : list Z) (x : A) : Prop :=
  forall rest, m (MkReader (bytes ++ rest) false) = Some (x, MkReader rest false).

(** On a proper prefix the reader does not end without having failed. *)
Definition cut {A} (m : R A) (bytes : list Z) : Prop :=
  forall front back, bytes = front ++ back -> back <> [] ->
  forall y r, m (MkReader front false) = Some (y, r) -> readFailed r = true.

Record codec {A} (m : R A) (bytes : list Z) (x : A) : Prop := { codec_parses : parses m bytes x; codec_cut : cut m bytes }.

(** A failure is not forgotten. *)
Definition stuck {A} (m : R A) : Prop :=
  forall r y r', readFailed r = true -> m r = Some (y, r') -> readFailed r' = true.

Create HintDb codec.

Lemma R_bind_Some {A B} (m : R A) (k : A -> R B) r y r' :
  (m ≫= k) r = Some (y, r') -> exists x r1, m r = Some (x, r1) /\ k x r1 = Some (y, r').
Proof. unfold mbind, R_bind. destruct (m r) as [[x r1]|]; [eauto|done]. Qed.

Lemma stuck_ret {A} (x : A) : stuck (mret x).
Proof. by intros r y r' Hr [= _ <-]. Qed.
Lemma stuck_bind {A B} (m : R A) (k : A -> R B) : stuck m -> (forall x, stuck (k x)) -> stuck (m ≫= k).
Proof. intros Hm Hk r y r' Hr (x & r1 & H1 & H2)%R_bind_Some. eapply Hk, H2. by eapply Hm, H1. Qed.
Lemma stuck_inFailed : stuck inFailed.
Proof. by intros r y r' Hr [= _ <-]. Qed.
Lemma stuck_bytesLeft : stuck bytesLeft.
Proof. by intros r y r' Hr [= _ <-]. Qed.
Lemma stuck_setFailed : stuck setFailed.
Proof. by intros r y r' Hr [= _ <-]. Qed.
Lemma stuck_asserted {A} (x : option A) : stuck (asserted x).
Proof. destruct x; [by intros r y r' Hr [= _ <-]|done]. Qed.
Lemma stuck_read8 : stuck read8.
Proof. intros r y r' Hr H. unfold read8 in H. destruct (remaining r); by injection H as _ <-. Qed.
#[export] Hint Resolve stuck_ret stuck_bind stuck_inFailed stuck_bytesLeft stuck_setFailed stuck_asserted stuck_read8 : codec.

(** Bring a goal about [stuck] down to the readers it is made of. *)
Ltac stuck := repeat (intros; first [apply stuck_bind|case_match]); eauto with codec nocore.

Lemma stuck_read16 : stuck read16. Proof. unfold read16. stuck. Qed.
#[export] Hint Resolve stuck_read16 : codec.
Lemma stuck_read32 : stuck read32. Proof. unfold read32. stuck. Qed.
#[export] Hint Resolve stuck_read32 : codec.
Lemma stuck_read64 : stuck read64. Proof. unfold read64. stuck. Qed.
Lemma stuck_readChars n : stuck (readChars n).
Proof. induction n; cbn [readChars]; stuck. Qed.
#[export] Hint Resolve stuck_read64 stuck_readChars : codec.
Lemma stuck_readString : stuck readString. Proof. unfold readString. stuck. Qed.
Lemma stuck_readCount n : stuck (readCount n). Proof. unfold readCount. stuck. Qed.
Lemma stuck_readBool : stuck readBool. Proof. unfold readBool. stuck. Qed.
Lemma stuck_readTimes {A} n (m : R A) : stuck m -> stuck (readTimes n m).
Proof. intros Hm. induction n; cbn [readTimes]; stuck. Qed.
#[export] Hint Resolve stuck_readString stuck_readCount stuck_readBool stuck_readTimes : codec.
Lemma stuck_readList {A} n (m : R A) : stuck m -> stuck (readList n m).
Proof. intros Hm. unfold readList. stuck. Qed.
Lemma stuck_readBody : stuck readBody. Proof. unfold readBody. stuck. Qed.
Lemma stuck_readHandle : stuck readHandle. Proof. unfold readHandle. stuck. Qed.
Lemma stuck_readRegClass : stuck readRegClass. Proof. unfold readRegClass. stuck. Qed.
#[export] Hint Resolve stuck_readList stuck_readBody stuck_readHandle stuck_readRegClass : codec.
Lemma stuck_readView : stuck readView. Proof. unfold readView. stuck. Qed.
Lemma stuck_readField : stuck readField. Proof. unfold readField. stuck. Qed.
Lemma stuck_readRegister f : stuck (readRegister f).
Proof. unfold readRegister. stuck. Qed.
#[export] Hint Resolve stuck_readView stuck_readField stuck_readRegister : codec.
Lemma stuck_readRegisters n f : stuck (readRegisters n f).
Proof. revert f. induction n; intros f; cbn [readRegisters]; stuck. Qed.
#[export] Hint Resolve stuck_readRegisters : codec.
Lemma stuck_readRegisterFile : stuck readRegisterFile. Proof. unfold readRegisterFile. stuck. Qed.
Lemma stuck_readRegFile : stuck readRegFile. Proof. unfold readRegFile. stuck. Qed.
Lemma stuck_readInsn : stuck readInsn. Proof. unfold readInsn. stuck. Qed.
Lemma stuck_readPiece : stuck readPiece. Proof. unfold readPiece. stuck. Qed.
Lemma stuck_readFunction : stuck readFunction. Proof. unfold readFunction. stuck. Qed.
Lemma stuck_readRule : stuck readRule. Proof. unfold readRule. stuck. Qed.
Lemma stuck_readPattern : stuck readPattern. Proof. unfold readPattern. stuck. Qed.
#[export] Hint Resolve stuck_readRegisterFile stuck_readRegFile stuck_readInsn stuck_readPiece stuck_readFunction
  stuck_readRule stuck_readPattern : codec.

(** *** Composition *)

Lemma codec_ret {A} (x : A) : codec (mret x) [] x.
Proof. split; [done|]. intros front back H Hb. by destruct front, back. Qed.

Lemma app_split {A} (a b c d : list A) :
  a ++ b = c ++ d -> (exists e, a = c ++ e /\ d = e ++ b /\ e <> []) \/ (exists e, c = a ++ e /\ b = e ++ d).
Proof.
  revert c. induction a as [|x a IH]; intros c H; cbn in H; [right; by exists c|].
  destruct c as [|y c]; cbn in H; [left; exists (x :: a); by rewrite <- H|].
  injection H as -> H. destruct (IH c H) as [(e & -> & -> & He)|(e & -> & ->)]; [left|right]; by exists e.
Qed.

Lemma codec_bind {A B} (m : R A) (k : A -> R B) b1 b2 x y :
  codec m b1 x -> codec (k x) b2 y -> (forall x, stuck (k x)) -> codec (m ≫= k) (b1 ++ b2) y.
Proof.
  intros [Hm Hmc] [Hk Hkc] Hs. split.
  - intros rest. unfold mbind, R_bind. rewrite <- app_assoc, Hm. apply Hk.
  - intros front back Heq Hb z r (x' & r1 & H1 & H2)%R_bind_Some.
    destruct (app_split _ _ _ _ Heq) as [(e & -> & -> & He)|(e & -> & ->)].
    + eapply Hs, H2. by eapply Hmc.
    + rewrite Hm in H1. injection H1 as <- <-. by eapply Hkc.
Qed.

Lemma codec_bind_last {A B} (m : R A) (k : A -> R B) b x y :
  codec m b x -> codec (k x) [] y -> (forall x, stuck (k x)) -> codec (m ≫= k) b y.
Proof. intros. rewrite <- (app_nil_r b). by eapply codec_bind. Qed.

(** Read the parts of a record in turn. *)
Ltac codec_steps :=
  repeat first [ eapply codec_bind; [solve [eauto with codec]| |stuck]
               | eapply codec_bind_last; [solve [eauto with codec]| |stuck] ];
  try (apply codec_ret || done).

(** ** Integers and strings *)

Lemma codec_eq {A} (m : R A) b x x' : codec m b x -> x = x' -> codec m b x'.
Proof. by intros ? <-. Qed.

Lemma codec_read8_wrap v : codec read8 (write8 v) (u8 v).
Proof.
  split; [done|]. intros [|b front] back H Hb y r Hr; [by injection Hr as _ <-|].
  injection H as _ H. by destruct front, back.
Qed.

Lemma join_words n a : 0 <= n -> Z.lor (a mod 2 ^ n) (Z.shiftl (Z.shiftr a n mod 2 ^ n) n) = a mod 2 ^ (n + n).
Proof. intros Hn. bitblast. Qed.

Lemma u_small n a m : fits n a -> n <= m -> a mod 2 ^ m = a.
Proof. intros Ha Hm. by apply mod_small_fits, (fits_weaken n). Qed.

(** Each width from the one below. *)
Lemma codec_double n m (read : R Z) (write : Z -> list Z) (k : Z -> Z -> Z) v :
  0 <= n -> m = n + n -> stuck read ->
  (forall v, codec read (write (v mod 2 ^ n)) (v mod 2 ^ n)) ->
  (forall a b, fits n a -> fits n b -> k a b = Z.lor a (Z.shiftl b n)) ->
  codec (low ← read; high ← read; mret (k low high)) (write (v mod 2 ^ n) ++ write (Z.shiftr v n mod 2 ^ n)) (v mod 2 ^ m).
Proof.
  intros Hn -> Hs Hread Hk. eapply codec_bind; [apply Hread| |stuck]. eapply codec_bind_last; [apply Hread| |stuck].
  rewrite Hk by (apply fits_mod; lia). rewrite join_words by done. apply codec_ret.
Qed.

Lemma codec_read16_wrap v : codec read16 (write16 v) (u16 v).
Proof.
  unfold read16, write16. apply (codec_double 8); [lia|done|auto with codec|intros w; eapply codec_eq; [apply codec_read8_wrap|]|].
  - unfold u8. by rewrite Z.mod_mod.
  - intros a b Ha Hb. assert (fits 16 (Z.shiftl b 8)) as Hs by (unfold fits in *; rewrite Z.shiftl_mul_pow2; lia).
    unfold u16. rewrite (mod_small_fits 16 (Z.shiftl b 8)) by done. apply mod_small_fits, fits_lor; [lia|by apply (fits_weaken 8)|done].
Qed.

Lemma codec_read32_wrap v : codec read32 (write32 v) (u32 v).
Proof.
  unfold read32, write32. apply (codec_double 16); [lia|done|auto with codec|intros w; eapply codec_eq; [apply codec_read16_wrap|]|].
  - unfold u16. by rewrite Z.mod_mod.
  - intros a b Ha Hb. f_equal. unfold u32. apply mod_small_fits. unfold fits in *. rewrite Z.shiftl_mul_pow2; lia.
Qed.

Lemma codec_read64_wrap v : codec read64 (write64 v) (u64 v).
Proof.
  unfold read64, write64. apply (codec_double 32); [lia|done|auto with codec|intros w; eapply codec_eq; [apply codec_read32_wrap|]|].
  - unfold u32. by rewrite Z.mod_mod.
  - intros a b Ha Hb. f_equal. unfold shl64, u64. apply mod_small_fits. unfold fits in *. rewrite Z.shiftl_mul_pow2; lia.
Qed.

Lemma codec_read8 v : fits 8 v -> codec read8 (write8 v) v.
Proof. intros Hv. eapply codec_eq; [apply codec_read8_wrap|by apply mod_small_fits]. Qed.
Lemma codec_read16 v : fits 16 v -> codec read16 (write16 v) v.
Proof. intros Hv. eapply codec_eq; [apply codec_read16_wrap|by apply mod_small_fits]. Qed.
Lemma codec_read32 v : fits 32 v -> codec read32 (write32 v) v.
Proof. intros Hv. eapply codec_eq; [apply codec_read32_wrap|by apply mod_small_fits]. Qed.
Lemma codec_read64 v : fits 64 v -> codec read64 (write64 v) v.
Proof. intros Hv. eapply codec_eq; [apply codec_read64_wrap|by apply mod_small_fits]. Qed.
#[export] Hint Resolve codec_read8 codec_read16 codec_read32 codec_read64 : codec.

Lemma codec_readBool b : codec readBool (writeBool b) b.
Proof.
  unfold readBool, writeBool. eapply codec_bind_last; [eapply codec_read8; by destruct b|by destruct b; apply codec_ret|stuck].
Qed.

Lemma codec_readHandle h : (h < 2 ^ 32)%N -> codec readHandle (writeHandle h) h.
Proof.
  intros Hh. unfold readHandle, writeHandle. eapply codec_bind_last; [eapply codec_read32; unfold fits; lia| |stuck].
  rewrite N2Z.id. apply codec_ret.
Qed.

(** The byte of a class without a name is none of the named ones. *)
Definition class_ok (c : RegClass) : Prop := match c with RegClass.Other byte => 8 <= byte < 256 | _ => True end.
#[export] Instance class_ok_dec c : Decision (class_ok c). Proof. destruct c; cbn; apply _. Defined.

Lemma byteRegClass_byte c : class_ok c -> fits 8 (regClassByte c) /\ byteRegClass (regClassByte c) = c.
Proof.
  destruct c as [| | | | | | | |byte]; try (intros _; split; [done|reflexivity]). cbn. intros Hb. split; [unfold fits; lia|].
  unfold byteRegClass, enumAt, u8. rewrite Z.mod_small, lookup_ge_None_2; [done|cbn; lia|lia].
Qed.

Lemma codec_readRegClass c : class_ok c -> codec readRegClass (writeRegClass c) c.
Proof.
  intros [Hf Hc]%byteRegClass_byte. unfold readRegClass, writeRegClass, u8. rewrite (mod_small_fits 8) by done.
  eapply codec_bind_last; [by eapply codec_read8| |stuck]. rewrite Hc. apply codec_ret.
Qed.

Lemma charByte_fits c : fits 8 (charByte c).
Proof. unfold charByte, fits. pose proof (Ascii.N_ascii_bounded c). lia. Qed.

Lemma codec_readChars s : codec (readChars (String.length s)) (charByte <$> String.list_ascii_of_string s) s.
Proof.
  induction s as [|c s IH]; cbn [readChars String.length String.list_ascii_of_string fmap list_fmap]; [apply codec_ret|].
  change (charByte c :: ?l) with ([charByte c] ++ l). eapply codec_bind; [|eapply codec_bind_last; [exact IH| |stuck]|stuck].
  - pose proof (codec_read8 (charByte c) (charByte_fits c)) as H. unfold write8, u8 in H.
    by rewrite (mod_small_fits 8) in H by apply charByte_fits.
  - unfold byteChar, charByte. rewrite N2Z.id, ascii_N_embedding. apply codec_ret.
Qed.

Lemma length_list_ascii s : length (String.list_ascii_of_string s) = String.length s.
Proof. induction s; cbn; congruence. Qed.

Lemma codec_readString s : Z.of_nat (String.length s) < 2 ^ 32 -> codec readString (writeString s) s.
Proof.
  intros Hs. unfold writeString, u32. rewrite (mod_small_fits 32) by (unfold fits; lia). unfold readString.
  eapply codec_bind; [apply codec_read32; unfold fits; lia| |stuck]. destruct (codec_readChars s) as [Hp Hc]. split.
  - intros rest. unfold mbind, R_bind. cbn. rewrite length_app, length_fmap, length_list_ascii.
    destruct (Z.ltb_spec (Z.of_nat (String.length s + length rest)) (Z.of_nat (String.length s))); [lia|]. rewrite Nat2Z.id. apply Hp.
  - intros front back Heq Hb y r H. unfold mbind, R_bind in H. cbn in H. apply (f_equal length) in Heq as Hlen.
    rewrite length_app, length_fmap, length_list_ascii in Hlen. assert (length back <> 0%nat) by by destruct back.
    destruct (Z.ltb_spec (Z.of_nat (length front)) (Z.of_nat (String.length s))); [|lia]. by injection H as _ <-.
Qed.
#[export] Hint Resolve codec_readBool codec_readHandle codec_readRegClass codec_readString : codec.

(** ** Lists *)

(** A count the buffer can hold is not refused; a cut buffer cannot hold it, or
    is cut inside an element. *)
Lemma codec_readCount {A} n (k : Z -> R A) count bytes x :
  0 < n -> fits 32 count -> count * n <= Z.of_nat (length bytes) -> (forall c, stuck (k c)) ->
  codec (k count) bytes x -> codec (readCount n ≫= k) (write32 count ++ bytes) x.
Proof.
  intros Hn Hc Hlen Hs [Hp Hcut]. unfold readCount.
  assert (codec (value ← read32; (failed ← inFailed; left ← bytesLeft;
      if failed || (negb (n =? 0) && (left / n <? value)) then setFailed;; mret 0 else mret value) ≫= k) (write32 count ++ bytes) x) as H.
  { eapply codec_bind; [by apply codec_read32| |stuck]. split.
    - intros rest. unfold mbind, R_bind. cbn. rewrite length_app. destruct (Z.eqb_spec n 0); [lia|]. cbn.
      destruct (Z.ltb_spec (Z.of_nat (length bytes + length rest) / n) count) as [H|_]; [|apply Hp].
      apply Z.div_lt_upper_bound in H || (pose proof (Z.div_le_lower_bound (Z.of_nat (length bytes + length rest)) n count); lia).
    - intros front back -> Hb y r (c & r1 & H1 & H2)%R_bind_Some. unfold mbind, R_bind in H1. cbn in H1.
      destruct (_ && _); injection H1 as <- <-; [by eapply Hs in H2|]. by eapply Hcut. }
  clear -H. destruct H as [Hp Hcut]. split.
  - intros rest. specialize (Hp rest). unfold mbind, R_bind in *. by destruct (read32 _) as [[]|].
  - intros front back He Hb y r Hr. eapply (Hcut front back He Hb y r). unfold mbind, R_bind in *. by destruct (read32 _) as [[]|].
Qed.

Section Lists.
Context {A : Type} (m : R A) (write : A -> list Z) (n : Z).

Definition stored (x : A) : Prop := codec m (write x) x /\ n <= Z.of_nat (length (write x)).

Lemma codec_readTimes xs : stuck m -> Forall stored xs -> codec (readTimes (length xs) m) (concat (write <$> xs)) xs.
Proof.
  intros Hs. induction 1 as [|x xs [Hx _] _ IH]; cbn [length readTimes fmap list_fmap concat]; [apply codec_ret|].
  assert (codec (x ← m; xs ← readTimes (length xs) m; mret (x :: xs)) (write x ++ concat (write <$> xs)) (x :: xs)) as H.
  { eapply codec_bind; [done| |stuck]. eapply codec_bind_last; [done|apply codec_ret|stuck]. }
  by destruct H as [Hp Hc].
Qed.

Lemma stored_length xs : Forall stored xs -> Z.of_nat (length xs) * n <= Z.of_nat (length (concat (write <$> xs))).
Proof. induction 1 as [|x xs [_ Hx] _ IH]; cbn [length fmap list_fmap concat]; [lia|]. rewrite length_app. lia. Qed.

Lemma codec_readList xs :
  0 < n -> stuck m -> Forall stored xs -> Z.of_nat (length xs) < 2 ^ 32 -> codec (readList n m) (writeList write xs) xs.
Proof.
  intros Hn Hs Hxs Hlen. unfold readList, writeList, u32. rewrite (mod_small_fits 32) by (unfold fits; lia).
  apply codec_readCount; [done|unfold fits; lia|by apply stored_length|stuck|]. rewrite Nat2Z.id. by apply codec_readTimes.
Qed.
End Lists.

(** ** What a blob can hold

    Values within the widths of the format, lists and strings shorter than
    [2 ^ 32], and a register file its own operations could have built. *)

Definition short (s : string) : Prop := Z.of_nat (String.length s) < 2 ^ 32.
Definition few {A} (l : list A) : Prop := Z.of_nat (length l) < 2 ^ 32.
#[export] Instance short_dec s : Decision (short s). Proof. unfold short. apply _. Defined.
#[export] Instance few_dec {A} (l : list A) : Decision (few l). Proof. unfold few. apply _. Defined.
#[export] Instance fits_dec n a : Decision (fits n a). Proof. unfold fits. apply _. Defined.

Definition body_ok (b : Body) : Prop := fits 32 (bodyStart b) /\ fits 32 (bodyLength b) /\ fits 16 (bodySlots b).
#[export] Instance body_ok_dec b : Decision (body_ok b). Proof. unfold body_ok. apply _. Defined.

Definition register_ok (i : RegisterInfo) : Prop :=
  short (name i) /\ name i <> ""%string /\ fits 32 (regBits i) /\ fits 32 (offsetInParent i) /\ (parent i < 2 ^ 32)%N /\
  (parent i = kInvalidIndex -> offsetInParent i = 0 /\ zeroExtendsParent i = false) /\ class_ok (regClass i).
#[export] Instance register_ok_dec i : Decision (register_ok i). Proof. unfold register_ok. apply _. Defined.

Definition view_stored (view : N * Z) : Prop := (view.1 < 2 ^ 32)%N /\ fits 32 view.2.
#[export] Instance view_stored_dec v : Decision (view_stored v). Proof. unfold view_stored. apply _. Defined.

Definition regFile_ok (file : ProgramRegFile) : Prop :=
  short (fileName file) /\ (fileBase file < 2 ^ 32)%N /\ fits 32 (fileCount file) /\ fits 32 (fileBits file) /\
  few (viewBase file) /\ length (viewBase file) = length (viewBits file) /\ Forall view_stored (zip (viewBase file) (viewBits file)) /\
  class_ok (fileRole file).
#[export] Instance regFile_ok_dec f : Decision (regFile_ok f). Proof. unfold regFile_ok. apply _. Defined.

Definition insn_ok (i : Insn) : Prop :=
  fits 8 (insnOp i) /\ fits 8 (insnAux i) /\ fits 16 (insnDest i) /\ fits 16 (insnA i) /\ fits 16 (insnB i) /\
  fits 16 (insnC i) /\ fits 64 (insnImm i).
#[export] Instance insn_ok_dec i : Decision (insn_ok i). Proof. unfold insn_ok. apply _. Defined.

Definition piece_ok (piece : ProgramAsmPiece) : Prop :=
  fits 8 (pieceOp piece) /\ fits 8 (pieceStyle piece) /\ fits 32 (pieceText piece) /\ body_ok (pieceValue piece) /\
  body_ok (pieceArgument piece).
#[export] Instance piece_ok_dec x : Decision (piece_ok x). Proof. unfold piece_ok. apply _. Defined.

Definition function_ok (fn : ProgramFn) : Prop := short (fnName fn) /\ fits 16 (fnParams fn) /\ body_ok (fnBody fn).
#[export] Instance function_ok_dec x : Decision (function_ok x). Proof. unfold function_ok. apply _. Defined.

Definition field_ok (field : ProgramField) : Prop :=
  short (fieldName field) /\ fits 8 (fieldShift field) /\ fits 8 (fieldBits field).
#[export] Instance field_ok_dec x : Decision (field_ok x). Proof. unfold field_ok. apply _. Defined.

Definition rule_ok (rule : ProgramInsn) : Prop :=
  short (ruleName rule) /\ few (ruleFields rule) /\ Forall field_ok (ruleFields rule) /\ few (ruleGuards rule) /\
  Forall body_ok (ruleGuards rule) /\ body_ok (ruleSemantics rule) /\ fits 32 (asmStart (ruleDisassembly rule)) /\
  fits 32 (asmLength (ruleDisassembly rule)).
#[export] Instance rule_ok_dec x : Decision (rule_ok x). Proof. unfold rule_ok. apply _. Defined.

Definition stored_pattern (a : EncodingPattern) : Prop :=
  fits 32 (patInstruction a) /\ short (patName a) /\ fits 64 (patMask a) /\ fits 64 (patValue a) /\
  - 2 ^ 31 <= patPriority a < 2 ^ 31.
#[export] Instance stored_pattern_dec x : Decision (stored_pattern x). Proof. unfold stored_pattern. apply _. Defined.

Definition tables_ok (p : SpecProgram) : Prop :=
  short (progName p) /\ fits 8 (progArch p) /\ fits 32 (insnWidth p) /\ fits 32 (pointerBits p) /\
  few (registers_ (progRegisters p)) /\ Forall register_ok (registers_ (progRegisters p)) /\
  few (regFiles p) /\ Forall regFile_ok (regFiles p) /\ few (progStrings p) /\ Forall short (progStrings p) /\
  few (progCode p) /\ Forall insn_ok (progCode p) /\ few (asmPieces p) /\ Forall piece_ok (asmPieces p) /\
  few (functions p) /\ Forall function_ok (functions p) /\ few (instructions p) /\ Forall rule_ok (instructions p) /\
  few (patterns p) /\ Forall stored_pattern (patterns p).
#[export] Instance tables_ok_dec p : Decision (tables_ok p). Proof. unfold tables_ok. apply _. Defined.

Definition storable (p : SpecProgram) : Prop := rf_wf (progRegisters p) /\ tables_ok p.

(** ** Records *)

#[local] Hint Unfold short : codec.
Ltac codec_record := intros; destruct_and?; codec_steps.

Lemma codec_readBody b : body_ok b -> codec readBody (writeBody b) b.
Proof. intros (? & ? & ?). destruct b. unfold readBody, writeBody. codec_steps. Qed.
#[export] Hint Resolve codec_readBody : codec.

Lemma codec_readView v : view_stored v -> codec readView (writeView v) v.
Proof. intros (? & ?). destruct v. unfold readView, writeView. codec_steps. Qed.
Lemma codec_readInsn i : insn_ok i -> codec readInsn (writeInsn i) i.
Proof. intros (? & ? & ? & ? & ? & ? & ?). destruct i. unfold readInsn, writeInsn. codec_steps. Qed.
Lemma codec_readPiece x : piece_ok x -> codec readPiece (writePiece x) x.
Proof. intros (? & ? & ? & ? & ?). destruct x. unfold readPiece, writePiece. codec_steps. Qed.
Lemma codec_readFunction x : function_ok x -> codec readFunction (writeFunction x) x.
Proof. intros (? & ? & ?). destruct x. unfold readFunction, writeFunction. codec_steps. Qed.
Lemma codec_readField x : field_ok x -> codec readField (writeField x) x.
Proof. intros (? & ? & ?). destruct x. unfold readField, writeField. codec_steps. Qed.

(** The least a part takes up, which is what [readCount] divides by. *)
Create Rewrite HintDb size.
Lemma length_write8 v : length (write8 v) = 1%nat. Proof. done. Qed.
Lemma length_write16 v : length (write16 v) = 2%nat. Proof. done. Qed.
Lemma length_write32 v : length (write32 v) = 4%nat. Proof. done. Qed.
Lemma length_write64 v : length (write64 v) = 8%nat. Proof. done. Qed.
Lemma length_writeBody b : length (writeBody b) = 10%nat. Proof. done. Qed.
Lemma length_writeString s : (4 <= length (writeString s))%nat.
Proof. unfold writeString. rewrite length_app, length_write32. lia. Qed.
Lemma length_writeList {A} (write : A -> list Z) l : (4 <= length (writeList write l))%nat.
Proof. unfold writeList. rewrite length_app, length_write32. lia. Qed.
#[export] Hint Rewrite @length_app length_write8 length_write16 length_write32 length_write64 length_writeBody : size.

Ltac size :=
  autorewrite with size;
  repeat match goal with
  | |- context [length (writeString ?s)] => pose proof (length_writeString s); generalize dependent (length (writeString s)); intros
  | |- context [length (writeList ?w ?l)] => pose proof (length_writeList w l); generalize dependent (length (writeList w l)); intros
  end; lia.

(** A list of parts, from what makes each of them readable. *)
Lemma codec_parts {A} (m : R A) write n (ok : A -> Prop) xs :
  0 < n -> stuck m -> (forall x, ok x -> codec m (write x) x) -> (forall x, n <= Z.of_nat (length (write x))) ->
  few xs -> Forall ok xs -> codec (readList n m) (writeList write xs) xs.
Proof.
  intros Hn Hs Hm Hl Hf Hxs. apply codec_readList; [done..| |done]. eapply Forall_impl; [exact Hxs|]. intros x Hx. split; auto.
Qed.

Lemma codec_strings l : few l -> Forall short l -> codec (readList 4 readString) (writeList writeString l) l.
Proof. apply codec_parts; [done|auto with codec|by auto with codec|intros s; size]. Qed.
Lemma codec_code l : few l -> Forall insn_ok l -> codec (readList 18 readInsn) (writeList writeInsn l) l.
Proof. apply codec_parts; [done|auto with codec|exact codec_readInsn|intros i; unfold writeInsn; size]. Qed.
Lemma codec_pieces l : few l -> Forall piece_ok l -> codec (readList 26 readPiece) (writeList writePiece l) l.
Proof. apply codec_parts; [done|auto with codec|exact codec_readPiece|intros i; unfold writePiece; size]. Qed.
Lemma codec_functions l : few l -> Forall function_ok l -> codec (readList 16 readFunction) (writeList writeFunction l) l.
Proof. apply codec_parts; [done|auto with codec|exact codec_readFunction|intros i; unfold writeFunction; size]. Qed.
Lemma codec_fields l : few l -> Forall field_ok l -> codec (readList 6 readField) (writeList writeField l) l.
Proof. apply codec_parts; [done|auto with codec|exact codec_readField|intros i; unfold writeField; size]. Qed.
Lemma codec_guards l : few l -> Forall body_ok l -> codec (readList 10 readBody) (writeList writeBody l) l.
Proof. apply codec_parts; [done|auto with codec|exact codec_readBody|intros i; size]. Qed.
Lemma codec_views l : few l -> Forall view_stored l -> codec (readList 8 readView) (writeList writeView l) l.
Proof. apply codec_parts; [done|auto with codec|exact codec_readView|intros i; unfold writeView, writeHandle; size]. Qed.
#[export] Hint Resolve codec_strings codec_code codec_pieces codec_functions codec_fields codec_guards codec_views : codec.

Lemma codec_readRegFile file : regFile_ok file -> codec readRegFile (writeRegFile file) file.
Proof.
  destruct file as [nm base count bits vb vs role]. intros (? & ? & ? & ? & ? & Hlen & Hviews & ?). cbn [viewBase viewBits fileRole] in *. unfold readRegFile, writeRegFile.
  assert (few (zip vb vs)) by (unfold few in *; by rewrite length_zip_with_l_eq).
  codec_steps. rewrite fst_zip, snd_zip by (cbn; lia). apply codec_ret.
Qed.

Lemma codec_readRule rule : rule_ok rule -> codec readRule (writeRule rule) rule.
Proof. intros (? & ? & ? & ? & ? & ? & ? & ?). destruct rule as [? ? ? ? []]. unfold readRule, writeRule. codec_steps. Qed.

Lemma signed_priority v : - 2 ^ 31 <= v < 2 ^ 31 -> toI32 (u32 v) = v.
Proof. intros Hv. unfold toI32, u32. destruct (Z.ltb_spec (v mod 2 ^ 32) (2 ^ 31)); dlia. Qed.

Lemma codec_readPattern a : stored_pattern a -> codec readPattern (writePattern a) a.
Proof.
  destruct a as [i nm mask value priority g]. intros (? & ? & ? & ? & ?). unfold readPattern, writePattern.
  assert (fits 32 (u32 priority)) by by apply fits_mod. codec_steps. rewrite signed_priority by done. apply codec_ret.
Qed.

Lemma codec_regFiles l : few l -> Forall regFile_ok l -> codec (readList 8 readRegFile) (writeList writeRegFile l) l.
Proof. apply codec_parts; [done|auto with codec|exact codec_readRegFile|intros i; unfold writeRegFile, writeHandle; size]. Qed.
Lemma codec_rules l : few l -> Forall rule_ok l -> codec (readList 24 readRule) (writeList writeRule l) l.
Proof. apply codec_parts; [done|auto with codec|exact codec_readRule|intros i; unfold writeRule; size]. Qed.
Lemma codec_patterns l : few l -> Forall stored_pattern l -> codec (readList 29 readPattern) (writeList writePattern l) l.
Proof. apply codec_parts; [done|auto with codec|exact codec_readPattern|intros i; unfold writePattern, writeBool; size]. Qed.
#[export] Hint Resolve codec_regFiles codec_rules codec_patterns : codec.

(** ** The register file *)

(** What loading does with an entry, given back by the entry's own values. *)
Definition addEntry (f : RegisterFile) (i : RegisterInfo) : option RegisterFile :=
  fst <$> (if decide (parent i = kInvalidIndex) then addRegister f (name i) (regBits i) (regClass i)
           else addSubRegister f (name i) (parent i) (offsetInParent i) (regBits i) (zeroExtendsParent i)).

Fixpoint addEntries (f : RegisterFile) (l : list RegisterInfo) : option RegisterFile :=
  match l with [] => Some f | i :: l => f ← addEntry f i; addEntries f l end.

Lemma codec_asserted {A} (x : A) o : o = Some x -> codec (asserted o) [] x.
Proof. intros ->. apply (codec_ret x). Qed.

Lemma codec_readRegister f i f' :
  register_ok i -> addEntry f i = Some f' -> codec (readRegister f) (writeRegister i) f'.
Proof.
  intros (? & _ & ? & ? & Hp & _ & ?) Ha. unfold readRegister, writeRegister.
  assert (fits 32 (if handleValid (parent i) then Z.of_N (parent i) else 0xFFFFFFFF)).
  { unfold fits. destruct (handleValid _); lia. }
  codec_steps. apply codec_asserted. rewrite <- Ha. unfold addEntry, handleValid.
  destruct (N.eqb_spec (parent i) kInvalidIndex) as [->|Hne]; cbn [negb].
  - by rewrite decide_True.
  - rewrite decide_False by done. destruct (Z.eqb_spec (Z.of_N (parent i)) 0xFFFFFFFF); [unfold kInvalidIndex in Hne; lia|]. by rewrite N2Z.id.
Qed.

Lemma codec_readRegisters f l f' :
  Forall register_ok l -> addEntries f l = Some f' -> codec (readRegisters (length l) f) (concat (writeRegister <$> l)) f'.
Proof.
  intros Hl. revert f. induction Hl as [|i l Hi _ IH]; intros f Ha; cbn [addEntries] in Ha; cbn [length readRegisters fmap list_fmap concat].
  - injection Ha as <-. apply codec_ret.
  - destruct (addEntry f i) as [f1|] eqn:E; [|done].
    assert (codec (readRegister f ≫= readRegisters (length l)) (writeRegister i ++ concat (writeRegister <$> l)) f') as H.
    { eapply codec_bind; [by eapply codec_readRegister|by apply IH|stuck]. }
    by destruct H as [Hp Hc].
Qed.

(** The file that holds the first [k] registers of [f]. *)
Definition upTo (f : RegisterFile) (k : nat) : RegisterFile :=
  MkRegisterFile (take k (registers_ f)) (filter (fun x => (N.to_nat x.2 < k)%nat) (byName_ f)).

Lemma upTo_all f : rf_wf f -> upTo f (length (registers_ f)) = f.
Proof.
  intros Hf. unfold upTo. rewrite firstn_all. destruct f as [regs names]. cbn. f_equal. apply map_filter_id.
  intros nm h Hh. apply (rf_names _ Hf) in Hh as (i & Hi & _). by eapply lookup_lt_Some in Hi.
Qed.

Lemma addEntry_upTo f k i :
  rf_wf f -> registers_ f !! k = Some i -> register_ok i -> addEntry (upTo f k) i = Some (upTo f (S k)).
Proof.
  intros Hf Hi (_ & Hname & _ & _ & _ & Hroot & _). pose proof (lookup_lt_Some _ _ _ Hi) as Hk.
  assert (length (take k (registers_ f)) = k) as Hlen by (rewrite length_take; lia).
  assert (byName_ f !! name i = Some (N.of_nat k)) as Hnm by (apply (rf_names f Hf); rewrite Nat2N.id; eauto).
  assert (byName_ (upTo f k) !! name i = None) as Hfresh.
  { apply map_lookup_filter_None_2. right. intros h Hh. rewrite Hnm in Hh. injection Hh as <-. cbn. rewrite Nat2N.id. lia. }
  assert (forall j, name j = name i -> MkRegisterFile (take k (registers_ f) ++ [i]) (<[name i := N.of_nat k]> (byName_ (upTo f k))) = upTo f (S k)) as Hsnoc.
  { intros _ _. unfold upTo. erewrite take_S_r by done. f_equal. apply map_eq. intros nm. destruct (decide (nm = name i)) as [->|Hne].
    - rewrite lookup_insert_eq. symmetry. apply map_lookup_filter_Some_2; [done|]. cbn. rewrite Nat2N.id. lia.
    - rewrite lookup_insert_ne by done. apply option_eq. intros h. unfold upTo. cbn [byName_]. rewrite !map_lookup_filter_Some. cbn [snd]. split; intros [Hh Hlt]; split; try done; [lia|].
      destruct (decide (N.to_nat h = k)) as [He|]; [|lia]. apply (rf_names f Hf) in Hh as (j & Hj & <-). rewrite He, Hi in Hj. by injection Hj as <-. }
  specialize (Hsnoc i eq_refl). unfold addEntry, addRegister, addSubRegister. apply String.eqb_neq in Hname.
  destruct (rf_views f Hf k i Hi) as [Hb [Hp|(p & Hlt & Hne & Hp & Hc & Ho & Hfit)]].
  - rewrite decide_True by done. unfold addRegister. rewrite Hname, Hfresh. cbn. rewrite Hlen. f_equal. rewrite <- Hsnoc. do 2 f_equal.
    destruct (Hroot Hp). destruct i; cbn in *; congruence.
  - rewrite decide_False by done. pose proof (rf_views f Hf _ _ Hp) as [Hpb _].
    assert (rfAt (upTo f k) (parent i) = Some p) as ->. { apply vget_Some. split; [|done]. cbn. by rewrite lookup_take_lt by lia. }
    cbn [mbind option_bind]. unfold u32. rewrite Z.mod_small by lia. destruct (Z.ltb_spec (regBits p) (offsetInParent i + regBits i)); [lia|].
    unfold addRegister. rewrite Hname, Hfresh. cbn. rewrite Hlen, Nat2N.id. f_equal. rewrite <- Hsnoc. f_equal.
    rewrite <- Hlen at 1. rewrite insert_snoc. do 2 f_equal. destruct i; cbn in *; congruence.
Qed.

(** A well-formed file is what its own entries rebuild. *)
Lemma addEntries_rebuild f : rf_wf f -> Forall register_ok (registers_ f) -> addEntries emptyRegisterFile (registers_ f) = Some f.
Proof.
  intros Hf Hall. assert (forall n k, (n + k = length (registers_ f))%nat -> addEntries (upTo f k) (drop k (registers_ f)) = Some f) as H.
  { induction n as [|n IH]; intros k Hk.
    - rewrite drop_ge by lia. cbn. f_equal. rewrite <- (upTo_all f Hf) at 2. f_equal. lia.
    - destruct (lookup_lt_is_Some_2 (registers_ f) k) as [i Hi]; [lia|]. erewrite drop_S by done. cbn [addEntries].
      rewrite Forall_lookup in Hall. rewrite (addEntry_upTo f k i) by eauto. apply IH. lia. }
  specialize (H _ 0%nat (Nat.add_0_r _)). rewrite drop_0 in H. rewrite <- H. f_equal. unfold upTo, emptyRegisterFile. f_equal.
  symmetry. apply map_empty. intros nm. apply map_lookup_filter_None_2. right. intros h _. cbn. lia.
Qed.

Lemma codec_readRegisterFile f :
  rf_wf f -> few (registers_ f) -> Forall register_ok (registers_ f) ->
  codec readRegisterFile (writeList writeRegister (registers_ f)) f.
Proof.
  intros Hf Hfew Hall. unfold readRegisterFile, writeList, u32. unfold few in Hfew. rewrite (mod_small_fits 32) by (unfold fits; lia).
  apply codec_readCount; [done|unfold fits; lia| |stuck|].
  - clear. induction (registers_ f) as [|i l IH]; cbn [length fmap list_fmap concat]; [lia|]. rewrite length_app.
    assert (8 <= length (writeRegister i))%nat by (unfold writeRegister, writeRegClass, writeBool; size). lia.
  - rewrite Nat2Z.id. apply codec_readRegisters; [done|by apply addEntries_rebuild].
Qed.
#[export] Hint Resolve codec_readRegisterFile : codec.

(** ** Whole programs *)

(** A program without its decision tree, as it comes off the reader. *)
Definition withoutTree (p : SpecProgram) : SpecProgram :=
  MkSpecProgram (progName p) (progArch p) (progEndian p) (insnWidth p) (pointerBits p) (progRegisters p)
    (regFiles p) (progStrings p) (progCode p) (asmPieces p) (functions p) (instructions p) (patterns p) (MkDecisionTree None 0).

Lemma codec_readProgram p : storable p -> codec readProgram (writeProgram p) (withoutTree p).
Proof.
  intros (Hrf & Hname & Harch & ? & ? & ? & ? & ? & ? & ? & ? & ? & ? & ? & ? & ? & ? & ? & ? & ? & ?).
  unfold readProgram, writeProgram, withoutTree.
  assert (fits 32 (u32 (progArch p))) by by apply fits_mod.
  assert (u8 (u32 (progArch p)) = progArch p) as Ha by (unfold u8, u32; rewrite (u_small 8 _ 32) by (done || lia); by apply mod_small_fits).
  rewrite <- Ha at 2. replace (progEndian p) with (if isBig (progEndian p) then big else little) at 2 by (by destruct (progEndian p)).
  codec_steps.
Qed.

(** Nothing of a program points outside it: every body lies within the code,
    every template within the pieces, every pattern names an instruction. *)
Record inside (p : SpecProgram) : Prop := {
  in_functions : forall fn, fn ∈ functions p -> bodyWithin p (fnBody fn) = true;
  in_semantics : forall rule, rule ∈ instructions p -> bodyWithin p (ruleSemantics rule) = true;
  in_guards : forall rule guard, rule ∈ instructions p -> guard ∈ ruleGuards rule -> bodyWithin p guard = true;
  in_templates : forall rule, rule ∈ instructions p ->
    asmStart (ruleDisassembly rule) + asmLength (ruleDisassembly rule) <= Z.of_nat (length (asmPieces p));
  in_patterns : forall a, a ∈ patterns p -> patInstruction a < Z.of_nat (length (instructions p)) }.

Lemma checkRule_None p rule :
  checkRule p rule = None <->
  bodyWithin p (ruleSemantics rule) = true /\ (forall guard, guard ∈ ruleGuards rule -> bodyWithin p guard = true) /\
  asmStart (ruleDisassembly rule) + asmLength (ruleDisassembly rule) <= Z.of_nat (length (asmPieces p)).
Proof.
  unfold checkRule. rewrite <- forallb_iff. destruct (bodyWithin p (ruleSemantics rule)), (forallb _ _); cbn [negb]; try (by split; [|intros (? & ? & ?)]).
  destruct (Z.ltb_spec (Z.of_nat (length (asmPieces p))) (asmStart (ruleDisassembly rule) + asmLength (ruleDisassembly rule))); split; try done; lia.
Qed.

Lemma checkProgram_None p : checkProgram p = None <-> inside p.
Proof.
  unfold checkProgram. split.
  - destruct (forallb (fun fn => _) (functions p)) eqn:Ef; [|done]. cbn [negb]. rewrite forallb_iff in Ef.
    destruct (list_find _ _) as [[k rule]|] eqn:Er; [apply list_find_Some in Er as (_ & [e He] & _); by rewrite He|].
    apply list_find_None in Er. destruct (forallb _ _) eqn:Ep; [|done]. intros _. rewrite forallb_iff in Ep.
    assert (forall rule, rule ∈ instructions p -> checkRule p rule = None) as Hr.
    { intros rule Hin. rewrite Forall_forall in Er. specialize (Er rule Hin). by destruct (checkRule p rule); [exfalso; eauto|]. }
    split; [done|intros rule Hin; by apply checkRule_None, Hr..| |intros rule Hin; by apply checkRule_None, Hr|intros a Ha; by apply Z.ltb_lt, Ep].
    intros rule guard Hin. by apply checkRule_None, Hr.
  - intros [Hf Hs Hg Ht Hp]. apply forallb_iff in Hf as ->. cbn [negb].
    replace (list_find _ _) with (@None (nat * ProgramInsn)).
    + replace (forallb _ _) with true; [done|]. symmetry. apply forallb_iff. intros a Ha. by apply Z.ltb_lt, Hp.
    + symmetry. apply list_find_None, Forall_forall. intros rule Hin. replace (checkRule p rule) with (@None BlobError); [by intros []|].
      symmetry. apply checkRule_None. split_and!; eauto.
Qed.

(** ** Properties *)

Section Blob.
Context `{Sorter}.

(** C4 A program survives the blob: what [serialize] writes, [deserialize] reads
    back, register file and decision tree included, for every program whose
    values fit the format, whose tree is the one its patterns give, and nothing
    of which points outside it. *)
Theorem serialize_roundtrip p :
  storable p -> inside p -> decoder p = buildDecisionTree (patterns p) (insnWidth p) ->
  deserialize (serialize p) = Some (inr p).
Proof.
  intros Hp Hin Ht. unfold deserialize, serialize. destruct (codec_readProgram p Hp) as [Hr _].
  rewrite (codec_parses _ _ _ (codec_read32_wrap kMagic)). cbn [mbind option_bind].
  rewrite (codec_parses _ _ _ (codec_read32_wrap kVersion)). cbn [mbind option_bind].
  change (u32 kMagic =? kMagic) with true. change (u32 kVersion =? kVersion) with true. cbn [negb].
  rewrite <- (app_nil_r (writeProgram p)), Hr. cbn [mbind option_bind readFailed].
  change (checkProgram (withoutTree p)) with (checkProgram p). apply checkProgram_None in Hin as ->.
  do 2 f_equal. unfold rebuildDecoder. cbn. rewrite <- Ht. by destruct p.
Qed.

(** C8 A truncated blob never loads: on any proper prefix of a blob the reader
    ends in an error or an abort, and no program comes out. *)
Theorem truncated_blob_refused p front back q :
  storable p -> serialize p = front ++ back -> back <> [] -> deserialize front <> Some (inr q).
Proof.
  intros Hp Heq Hb Hq. unfold deserialize in Hq.
  assert (cut (magic ← read32; version ← read32; readProgram) (serialize p)) as Hcut.
  { apply (codec_cut _ _ (withoutTree p)). unfold serialize.
    eapply codec_bind; [apply codec_read32_wrap| |unfold readProgram; stuck].
    eapply codec_bind; [apply codec_read32_wrap|by apply codec_readProgram|unfold readProgram; stuck]. }
  destruct (read32 (MkReader front false)) as [[magic r1]|] eqn:E1; [|done]. cbn [mbind option_bind] in Hq.
  destruct (negb (magic =? kMagic)); [done|].
  destruct (read32 r1) as [[version r2]|] eqn:E2; [|done]. cbn [mbind option_bind] in Hq.
  destruct (negb (version =? kVersion)); [done|].
  destruct (readProgram r2) as [[p' r3]|] eqn:E3; [|done]. cbn [mbind option_bind] in Hq.
  assert (readFailed r3 = true) as Hf.
  { eapply (Hcut front back Heq Hb p'). unfold mbind, R_bind. by rewrite E1, E2. }
  by rewrite Hf in Hq.
Qed.
End Blob.
