(* ===== verification/LoadedSafe.v ===== *)
(** * What loading guarantees

    Whatever the bytes, a program that [deserialize] accepts has values within
    the widths of the format, and the structural checks hold of it; which is
    most of what the engine needs to come back. *)
From S2P Require Import Prelude Bits Types Exprs Registers Func Program Sorting Encoding EncodingProps Engine EngineProps DecodeProps EngineTotal.
From S2P Require Import Serialize SerializeProps.
Local Open Scope Z_scope.

(** ** What a reader gives, whatever it reads *)

Definition gives {A} (m : R A) (P : A -> Prop) : Prop :=
  forall r x r', bytes_ok (remaining r) -> m r = Some (x, r') -> P x /\ bytes_ok (remaining r').

Create HintDb gives.

Lemma gives_ret {A} (P : A -> Prop) x : P x -> gives (mret x) P.
Proof. by intros Hx r y r' Hr [= <- <-]. Qed.
Lemma gives_bind {A B} (m : R A) (k : A -> R B) P Q : gives m P -> (forall x, P x -> gives (k x) Q) -> gives (m ≫= k) Q.
Proof.
  intros Hm Hk r y r' Hr (x & r1 & H1 & H2)%R_bind_Some. destruct (Hm r x r1 Hr H1) as [Hx Hr1]. by eapply Hk.
Qed.
Lemma gives_weaken {A} (m : R A) (P Q : A -> Prop) : gives m P -> (forall x, P x -> Q x) -> gives m Q.
Proof. intros Hm HPQ r x r' Hr H. destruct (Hm r x r' Hr H). auto. Qed.

Lemma gives_any {A} (m : R A) P : gives m P -> gives m (fun _ => True).
Proof. intros Hm. by eapply gives_weaken. Qed.
Lemma gives_inFailed : gives inFailed (fun _ => True).
Proof. by intros r x r' Hr [= <- <-]. Qed.
Lemma gives_bytesLeft : gives bytesLeft (fun _ => True).
Proof. by intros r x r' Hr [= <- <-]. Qed.
Lemma gives_setFailed : gives setFailed (fun _ => True).
Proof. by intros r x r' Hr [= <- <-]. Qed.
Lemma gives_asserted {A} (x : option A) : gives (asserted x) (fun _ => True).
Proof. destruct x; [by intros r y r' Hr [= <- <-]|done]. Qed.

Lemma gives_read8 : gives read8 (fits 8).
Proof.
  intros r x r' Hr H. unfold read8 in H. destruct (remaining r) as [|b bytes] eqn:E; injection H as <- <-; cbn.
  - split; [done|constructor].
  - apply Forall_cons in Hr as []. done.
Qed.

Lemma gives_read16 : gives read16 (fits 16).
Proof. eapply gives_bind; [apply gives_read8|]. intros. eapply gives_bind; [apply gives_read8|]. intros. by apply gives_ret, fits_mod. Qed.
Lemma gives_read32 : gives read32 (fits 32).
Proof.
  eapply gives_bind; [apply gives_read16|]. intros x Hx. eapply gives_bind; [apply gives_read16|]. intros.
  apply gives_ret, fits_lor; [done|by apply (fits_weaken 16)|by apply fits_mod].
Qed.
Lemma gives_read64 : gives read64 (fits 64).
Proof.
  eapply gives_bind; [apply gives_read32|]. intros x Hx. eapply gives_bind; [apply gives_read32|]. intros.
  apply gives_ret, fits_lor; [done|by apply (fits_weaken 32)|apply fits_u64].
Qed.
#[export] Hint Resolve gives_inFailed gives_bytesLeft gives_setFailed gives_asserted gives_read8 gives_read16 gives_read32 gives_read64 : gives.

(** Run through a reader's parts; the last condition is left. *)
Ltac gives_steps :=
  repeat (eapply gives_bind; [solve [eauto with gives]|intros; cbv beta in *]); apply gives_ret; destruct_and?.

Lemma gives_readChars n : gives (readChars n) (fun _ => True).
Proof. induction n; cbn [readChars]; gives_steps; done. Qed.
#[export] Hint Resolve gives_readChars : gives.

Lemma gives_readString : gives readString (fun _ => True).
Proof.
  unfold readString. do 3 (eapply gives_bind; [solve [eauto with gives]|intros]). case_match; [gives_steps; done|auto with gives].
Qed.

Lemma gives_readCount n : gives (readCount n) (fits 32).
Proof.
  unfold readCount. do 3 (eapply gives_bind; [solve [eauto with gives]|intros]). case_match; gives_steps; done.
Qed.

Lemma gives_readTimes {A} n (m : R A) P : gives m P -> gives (readTimes n m) (fun l => Forall P l /\ (length l <= n)%nat).
Proof.
  intros Hm. induction n as [|n IH]; cbn [readTimes]; [by apply gives_ret|]. eapply gives_bind; [apply gives_inFailed|]. intros [] _.
  - apply gives_ret. split; [constructor|cbn; lia].
  - gives_steps. split; [by constructor|cbn; lia].
Qed.

Lemma gives_readList {A} n (m : R A) P : gives m P -> gives (readList n m) (fun l => Forall P l /\ few l).
Proof.
  intros Hm. eapply gives_bind; [apply gives_readCount|]. intros c Hc. eapply gives_weaken; [by apply gives_readTimes|].
  cbn. intros l []. split; [done|]. unfold few, fits in *. lia.
Qed.

Lemma gives_readBody : gives readBody body_ok.
Proof. unfold readBody. gives_steps. done. Qed.
Lemma gives_readBool : gives readBool (fun _ => True).
Proof. unfold readBool. gives_steps. done. Qed.
Lemma gives_readHandle : gives readHandle (fun h => (h < 2 ^ 32)%N).
Proof. unfold readHandle. gives_steps. unfold fits in *. lia. Qed.
Lemma gives_readRegClass : gives readRegClass (fun _ => True).
Proof. unfold readRegClass. gives_steps. done. Qed.
#[export] Hint Resolve gives_readString gives_readCount gives_readList gives_readBody gives_readBool gives_readHandle gives_readRegClass : gives.

Lemma gives_readRegister f : gives (readRegister f) (fun _ => True).
Proof. unfold readRegister. repeat (eapply gives_bind; [solve [eauto with gives]|intros]). auto with gives. Qed.
Lemma gives_readRegisters n f : gives (readRegisters n f) (fun _ => True).
Proof.
  revert f. induction n as [|n IH]; intros f; cbn [readRegisters]; [by apply gives_ret|]. eapply gives_bind; [apply gives_inFailed|].
  intros [] _; [by apply gives_ret|]. eapply gives_bind; [apply gives_readRegister|auto].
Qed.
Lemma gives_readRegisterFile : gives readRegisterFile (fun _ => True).
Proof. eapply gives_bind; [apply gives_readCount|]. intros. apply gives_readRegisters. Qed.
Lemma gives_readView : gives readView (fun _ => True).
Proof. unfold readView. gives_steps. done. Qed.
#[export] Hint Resolve gives_readRegisterFile gives_readView : gives.
Lemma gives_readRegFile : gives readRegFile (fun _ => True).
Proof. unfold readRegFile. gives_steps. done. Qed.
Lemma gives_readInsn : gives readInsn insn_ok.
Proof. unfold readInsn. gives_steps. done. Qed.
Lemma gives_readPiece : gives readPiece piece_ok.
Proof. unfold readPiece. gives_steps. done. Qed.
Lemma gives_readFunction : gives readFunction (fun fn => body_ok (fnBody fn)).
Proof. unfold readFunction. gives_steps. done. Qed.
Lemma gives_readField : gives readField (fun _ => True).
Proof. unfold readField. gives_steps. done. Qed.
#[export] Hint Resolve gives_readRegFile gives_readInsn gives_readPiece gives_readFunction gives_readField : gives.
Lemma gives_readRule : gives readRule (fun rule => Forall body_ok (ruleGuards rule) /\ body_ok (ruleSemantics rule)).
Proof. unfold readRule. gives_steps. done. Qed.
Lemma gives_readPattern : gives readPattern (fun a => fits 32 (patInstruction a) /\ fits 64 (patMask a) /\ fits 64 (patValue a)).
Proof. unfold readPattern. gives_steps. done. Qed.
#[export] Hint Resolve gives_readRule gives_readPattern : gives.

(** What the reader alone ensures. *)
Record values_ok (p : SpecProgram) : Prop := {
  vo_width : fits 32 (insnWidth p);
  vo_code : Forall insn_ok (progCode p) /\ few (progCode p);
  vo_functions : Forall (fun fn => body_ok (fnBody fn)) (functions p);
  vo_rules : Forall (fun rule => Forall body_ok (ruleGuards rule) /\ body_ok (ruleSemantics rule)) (instructions p);
  vo_patterns : Forall (fun a => fits 32 (patInstruction a) /\ fits 64 (patMask a) /\ fits 64 (patValue a)) (patterns p) /\ few (patterns p) }.

Lemma gives_readProgram : gives readProgram values_ok.
Proof. unfold readProgram. gives_steps. by split. Qed.

(** ** Properties *)

Lemma insn_ok_slotsOk i : insn_ok i -> slotsOk i = true.
Proof.
  unfold insn_ok, fits, slotsOk. intros (? & ? & ? & ? & ? & ? & ?). by rewrite !(proj2 (Z.leb_le 0 _)) by lia.
Qed.

(** The bodies the engine runs to decode and lift. *)
Definition engineBodies (p : SpecProgram) : list Body :=
  (fnBody <$> functions p) ++ (ruleSemantics <$> instructions p) ++ List.concat (ruleGuards <$> instructions p).

Lemma bodyOk_loaded p body : body_ok body -> bodyWithin p body = true -> forwardBody p body = true -> bodyOk p body = true.
Proof.
  unfold bodyOk, bodyInRange, bodyWithin, body_ok, fits. intros (? & ? & _) -> ->. rewrite !(proj2 (Z.leb_le 0 _)) by lia. done.
Qed.

Lemma inside_program_ends p :
  inside p -> values_ok p -> Forall (fun body => forwardBody p body = true) (engineBodies p) -> program_ends p.
Proof.
  intros [Hf Hs Hg _ Hpat] [Hwd [Hc Hcl] Hfv Hrv [Hpv _]] Hfw. rewrite Forall_forall in Hc; rewrite Forall_forall in Hfv; rewrite Forall_forall in Hrv; rewrite Forall_forall in Hpv; rewrite Forall_forall in Hfw.
  unfold engineBodies in Hfw. split.
  - unfold fits in Hwd. lia.
  - unfold few in Hcl. lia.
  - intros k i Hi%list_elem_of_lookup_2. apply insn_ok_slotsOk; auto.
  - intros k fn Hi%list_elem_of_lookup_2. apply bodyOk_loaded; [auto..|]. apply Hfw, elem_of_app. left. by apply list_elem_of_fmap_2.
  - intros k rule Hi%list_elem_of_lookup_2. destruct (Hrv _ Hi). apply bodyOk_loaded; [auto..|].
    apply Hfw. rewrite !elem_of_app. right. left. by apply list_elem_of_fmap_2.
  - intros k rule guard Hi%list_elem_of_lookup_2 Hin. destruct (Hrv _ Hi) as [Hgv _]. rewrite Forall_forall in Hgv.
    apply bodyOk_loaded; [auto|by eapply Hg|]. apply Hfw. rewrite !elem_of_app. right. right.
    apply list_elem_of_In, in_concat. exists (ruleGuards rule). split; apply list_elem_of_In; [|done]. by apply list_elem_of_fmap_2.
  - intros k a Hi%list_elem_of_lookup_2. apply lookup_lt_is_Some_2. destruct (Hpv _ Hi) as [? _]. pose proof (Hpat _ Hi).
    unfold fits in *. lia.
Qed.

Lemma trap_free_ok p :
  program_ends p -> Forall (fun i => traps i = false) (progCode p) -> Forall (fun rule => fieldsOk rule = true) (instructions p) ->
  program_ok p.
Proof.
  intros He Ht Hf. rewrite Forall_forall in Ht; rewrite Forall_forall in Hf. split; [done| |].
  - intros k i Hi%list_elem_of_lookup_2. auto.
  - intros k rule Hi%list_elem_of_lookup_2. auto.
Qed.

(** C7 Loading checks what the engine relies on: whatever the bytes, in a program
    that [deserialize] accepts every function body, semantics and guard lies
    within the code, every template within its pieces, every pattern names an
    existing instruction, and the decision tree is the one of its patterns. If
    its words are at most 64 bits wide the decoder is correct for it; and if its
    jumps go forward, no decoding, probe or elaboration with it runs on for ever.
    What is not checked is what can trap: such a program is one on which decoding
    and probing meet nothing undefined if it moreover has no signed division, no
    replication and no field shifted by 64 or more. *)
Theorem loaded_program_safe `{SorterLaws} bytes p :
  bytes_ok bytes -> deserialize bytes = Some (inr p) ->
  inside p /\ decoder p = buildDecisionTree (patterns p) (insnWidth p) /\
  (insnWidth p <= 64 -> decodable p) /\
  (Forall (fun body => forwardBody p body = true) (engineBodies p) ->
     program_ends p /\
     (forall bytes address, decode p bytes address <> OutOfFuel) /\ (forall i, probe p i <> OutOfFuel) /\
     (forall i site f, elaborate p i site f <> OutOfFuel) /\
     (Forall (fun i => traps i = false) (progCode p) -> Forall (fun rule => fieldsOk rule = true) (instructions p) ->
      insnWidth p <= 64 ->
        program_ok p /\
        forall bytes address, bytes_ok bytes -> exists r, decode p bytes address = Done r /\ exists w, probe p r = Done w)).
Proof.
  intros Hb Hp. unfold deserialize in Hp.
  destruct (read32 (MkReader bytes false)) as [[magic r1]|] eqn:E1; [|done]. cbn [mbind option_bind] in Hp. case_match; [done|].
  destruct (read32 r1) as [[version r2]|] eqn:E2; [|done]. cbn [mbind option_bind] in Hp. case_match; [done|].
  destruct (readProgram r2) as [[q r3]|] eqn:E3; [|done]. cbn [mbind option_bind] in Hp. case_match; [done|].
  destruct (checkProgram q) eqn:Ec; [done|]. injection Hp as <-. apply checkProgram_None in Ec.
  apply gives_read32 in E1 as [_ Hr1]; [|done]. apply gives_read32 in E2 as [_ Hr2]; [|done].
  apply gives_readProgram in E3 as [Hq _]; [|done].
  assert (inside (rebuildDecoder q)) as Hin by (destruct Ec; by split).
  assert (values_ok (rebuildDecoder q)) as Hv by (destruct Hq; by split).
  assert (insnWidth q <= 64 -> decodable (rebuildDecoder q)) as Hdec.
  { intros Hw. destruct Hq as [Hw0 _ _ _ [_ Hl]]. unfold few, fits in *. split; cbn in *; [lia..|done]. }
  split_and!; [done|done|exact Hdec|]. intros Hf.
  assert (program_ends (rebuildDecoder q)) as He by by apply inside_program_ends.
  split_and!; [done|intros; by apply decode_not_stuck|intros; by apply probe_not_stuck|intros; by apply elaborate_ends|].
  intros Ht Hfl Hw. assert (program_ok (rebuildDecoder q)) as Hok by by apply trap_free_ok. split; [done|].
  intros input address Hi. destruct (decode_done (rebuildDecoder q) input address Hok (Hdec Hw) Hi) as (r & Hr & Hr').
  exists r. split; [done|by apply probe_done].
Qed.
