(* ===== verification/Lift.v ===== *)
(** * Lifting blocks and functions (spec/lift.h, spec/lift.cpp)

    Block discovery and elaboration: [liftBasicBlock] over one range of bytes, and
    the two-phase machine behind [liftFunction] and [liftBlocksInto]. The scan
    probes instructions to find where blocks begin and end, following direct
    control flow; the second phase creates the blocks and elaborates them. *)
From S2P Require Import Prelude Bits Types Exprs Registers Func Cfg PltStub Program Sorting Encoding Engine.
From stdpp Require Import sorting.
Local Open Scope Z_scope.

(** ** Results *)

(** [Result<T>] of the lifter: what the code reports, or the engine's error. *)
Inductive LiftError : Set :=
  | NotWhole | BadWidth | EntryNotMapped | EngineFailed (e : option EngineError).

(** A function being built, with a failure; [Fault] and [OutOfFuel] as for runs. *)
Definition L (A : Type) : Type := Function -> Run ((LiftError + A) * Function).

#[export] Instance L_ret : MRet L := fun A x f => Done (inr x, f).
#[export] Instance L_bind : MBind L := fun A B k m f =>
  match m f with
  | Done (inr x, f) => k x f
  | Done (inl e, f) => Done (inl e, f)
  | Fault => Fault
  | OutOfFuel => OutOfFuel
  end.

Definition lfail {A} (e : LiftError) : L A := fun f => Done (inl e, f).
(** A builder of the function. *)
Definition lbuild {A} (m : M A) : L A := fun f =>
  match m f with Some (x, f) => Done (inr x, f) | None => Fault end.
(** A builder whose result the code discards. *)
Definition ldiscard {A} (m : M A) : L unit := lbuild m;; mret tt.
(** A question to the engine. *)
Definition lask {A} (r : Run A) : L A := fun f =>
  match r with Done x => Done (inr x, f) | Fault => Fault | OutOfFuel => OutOfFuel end.

(** [function_.block(id).endVa = va], and for a stub also [external = true]. *)
Definition setEndVa (id : N) (va : Z) : M unit := update (fun f =>
  b ← blockAtId f id;
  Some (setBlock f id (MkBlock (blockVa b) va (blockOps b) (successors b) (predecessors b) (external b)))).
Definition makeStub (id : N) (va : Z) : M unit := update (fun f =>
  b ← blockAtId f id;
  Some (setBlock f id (MkBlock (blockVa b) va (blockOps b) (successors b) (predecessors b) true))).

(** [function->setEntryBlock], [setMaturity(Lifted)] (a new function's maturity
    is that already) and [rebuildEdges]. *)
Definition setEntryBlock (id : N) : M unit := update (fun f =>
  Some (MkFunction (registers f) (entryVa f) (functionName f) (maturity f) id (currentPass f) (pool f) (tables f)
          (blocks f) (blocksByAddress f) (strings f))).
Definition rebuild : M unit := update rebuildEdges.

(** [built.ops.empty() || !isTerminator(built.ops.back())]. *)
Definition isOpen (id : N) : M bool := fun f =>
  b ← blockAtId f id; ends ← endsInTerminator (tables f) b; Some (negb ends, f).

(** ** Maps and sets in order *)

(** The keys of a [std::map] or the elements of a [std::set], as a loop over it
    meets them. *)
Definition ascending (s : gset Z) : list Z := merge_sort Z.le (elements s).

(** The entry before [upper_bound(key)]: the one with the greatest key not above. *)
Definition floorEntry (m : gmap Z Z) (key : Z) : option (Z * Z) :=
  map_fold (fun k v best =>
    if k <=? key then
      match best with
      | Some (k', _) => if k' <? k then Some (k, v) else best
      | None => Some (k, v)
      end
    else best) None m.

(** ** Coverage *)

(** [LiftCoverage]; either function may be empty. *)
Record LiftCoverage : Type := MkCoverage {
  covContains : option (Z -> bool); covSuccessors : option (Z -> list Z) }.

(** [coverage != nullptr && coverage->active() ? coverage : nullptr]. *)
Definition activeCoverage (c : option LiftCoverage) : option ((Z -> bool) * (Z -> list Z)) :=
  c ← c; contains ← covContains c; successors ← covSuccessors c; Some (contains, successors).

(** ** The discovery machine *)

Record Discovery : Set := MkDiscovery {
  leaders : gset Z; externals : gset Z; extents : gmap Z Z; blocksAt : gmap Z N; existing : gset Z;
  unresolved : list Z }.

Definition withLeader (d : Discovery) (va : Z) : Discovery :=
  MkDiscovery ({[va]} ∪ leaders d) (externals d) (extents d) (blocksAt d) (existing d) (unresolved d).
Definition withExternal (d : Discovery) (va : Z) : Discovery :=
  MkDiscovery (leaders d) ({[va]} ∪ externals d) (extents d) (blocksAt d) (existing d) (unresolved d).
Definition withExtents (d : Discovery) (m : gmap Z Z) : Discovery :=
  MkDiscovery (leaders d) (externals d) m (blocksAt d) (existing d) (unresolved d).
Definition withUnresolved (d : Discovery) (va : Z) : Discovery :=
  MkDiscovery (leaders d) (externals d) (extents d) (blocksAt d) (existing d) (unresolved d ++ [va]).
Definition withBlockAt (d : Discovery) (va : Z) (id : N) : Discovery :=
  MkDiscovery (leaders d) (externals d) (extents d)
    (match blocksAt d !! va with Some _ => blocksAt d | None => <[va := id]> (blocksAt d) end)
    ({[va]} ∪ existing d) (unresolved d).

(** The constructor's loop body; [emplace] keeps what is there. *)
Definition seedBlock (d : Discovery) (id : N) (b : Block) : Discovery :=
  MkDiscovery ({[blockVa b]} ∪ leaders d) (externals d)
    (if external b then extents d
     else match extents d !! blockVa b with Some _ => extents d | None => <[blockVa b := endVa b]> (extents d) end)
    (match blocksAt d !! blockVa b with Some _ => blocksAt d | None => <[blockVa b := id]> (blocksAt d) end)
    ({[blockVa b]} ∪ existing d) (unresolved d).

Fixpoint seedBlocks (d : Discovery) (index : nat) (bs : list Block) : Discovery :=
  match bs with
  | [] => d
  | b :: bs => seedBlocks (seedBlock d (N.of_nat index) b) (S index) bs
  end.

Definition newDiscovery (f : Function) : Discovery := seedBlocks (MkDiscovery ∅ ∅ ∅ ∅ ∅ []) 0 (blocks f).

(** Why the scan of a block stopped. *)
Inductive Stop : Set := AtLeader | Uncovered | Unreadable | CallNeverReturns | Terminated (flow : InsnFlow).

Section Lifter.
Variables (program : SpecProgram) (reader : ByteReader) (facts : LoaderNames) (coverage : option LiftCoverage).

Definition width : Z := insnWidth program / 8.
Definition validWidth : bool := negb (width =? 0) && (width <=? 16).

Definition readWord (va : Z) : option (list Z) := reader va (Z.to_nat width).
Definition readable (va : Z) : bool := match readWord va with Some _ => true | None => false end.

Definition covered (va : Z) : bool :=
  match activeCoverage coverage with Some (contains, _) => contains va | None => true end.

(** *** Phase one: scanning *)

(** Decode and probe one instruction. *)
Definition flowAt (at_ : Z) (word : list Z) : Run InsnFlow :=
  match decode program word at_ with
  | Done insn => probe program insn
  | Fault => Fault
  | OutOfFuel => OutOfFuel
  end.

Definition endsInNoreturn (flow : InsnFlow) : bool :=
  flowCalls flow && flowCallKnown flow && isNoreturnCallTarget (flowCallTarget flow) reader facts.

(** The inner loop, up to what makes it stop; the address is that just past the
    last instruction looked at. *)
Fixpoint walk (fuel : nat) (leaders : gset Z) (start at_ : Z) : Run (Z * Stop) :=
  match fuel with
  | O => OutOfFuel
  | S fuel =>
      if negb (at_ =? start) && bool_decide (at_ ∈ leaders) then Done (at_, AtLeader)
      else if negb (covered at_) then Done (at_, Uncovered)
      else match readWord at_ with
      | None => Done (at_, Unreadable)
      | Some word =>
          match flowAt at_ word with
          | Done flow =>
              let at_ := add64 at_ width in
              if endsInNoreturn flow then Done (at_, CallNeverReturns)
              else if terminates flow then Done (at_, Terminated flow)
              else walk fuel leaders start at_
          | Fault => Fault
          | OutOfFuel => OutOfFuel
          end
      end
  end.

(** Split the extent the target lands strictly inside of. *)
Definition splitAt (target : Z) (d : Discovery) (work : list Z) : Discovery * list Z :=
  match floorEntry (extents d) target with
  | Some (first, second) =>
      if (first <? target) && (target <? second) && negb (bool_decide (first ∈ existing d))
      then (withExtents d (delete first (extents d)), work ++ [first]) else (d, work)
  | None => (d, work)
  end.

Definition visitTarget (target : Z) (d : Discovery) (work : list Z) : Discovery * list Z :=
  if target =? 0 then (d, work)
  else if negb (readable target) then (withExternal d target, work)
  else if bool_decide (target ∈ leaders d) then splitAt target d work
  else splitAt target (withLeader d target) (work ++ [target]).

Fixpoint visitTargets (targets : list Z) (d : Discovery) (work : list Z) : Discovery * list Z :=
  match targets with
  | [] => (d, work)
  | target :: targets => let '(d, work) := visitTarget target d work in visitTargets targets d work
  end.

(** The arms the encoding names and the trace did not take. *)
Definition boundaryArm (targets : list Z) (d : Discovery) (encoded : Z) : Discovery :=
  if negb (encoded =? 0) && negb (bool_decide (encoded ∈ targets)) then withExternal d encoded else d.

Definition isUnresolved (k : FlowKind) : bool :=
  bool_decide (k = FlowKind.IndirectBranch \/ k = FlowKind.Unknown).

(** After a terminator that ends at [at_]. *)
Definition visitFlow (start at_ : Z) (flow : InsnFlow) (d : Discovery) (work : list Z) : Discovery * list Z :=
  match activeCoverage coverage with
  | Some (_, successors) =>
      let targets := successors (sub64 at_ width) in
      let d := boundaryArm targets (boundaryArm targets d (flowTarget flow)) (flowFallthrough flow) in
      visitTargets targets d work
  | None =>
      let d := if isUnresolved (flowKind flow) then withUnresolved d start else d in
      visitTargets [flowTarget flow; flowFallthrough flow] d work
  end.

Definition recordExtent (start at_ : Z) (d : Discovery) : Discovery :=
  withExtents d (<[start := at_]> (extents d)).

(** What the scan does where the walk from [start] stopped. *)
Definition finishBlock (start at_ : Z) (stop : Stop) (d : Discovery) (work : list Z) : Discovery * list Z :=
  let '(d, work) :=
    match stop with
    | Unreadable => (withUnresolved d start, work)
    | Terminated flow => visitFlow start at_ flow d work
    | _ => (d, work)
    end in
  (recordExtent start at_ d, work).

(** One turn of the worklist loop, on the block at its front. *)
Definition scanBlock (steps : nat) (start : Z) (d : Discovery) (work : list Z) : Run (Discovery * list Z) :=
  if bool_decide (is_Some (extents d !! start)) then Done (d, work)
  else match walk steps (leaders d) start start with
  | Done (at_, stop) => Done (finishBlock start at_ stop d work)
  | Fault => Fault
  | OutOfFuel => OutOfFuel
  end.

Fixpoint scanLoop (steps fuel : nat) (d : Discovery) (work : list Z) : Run Discovery :=
  match work with
  | [] => Done d
  | start :: work =>
      match fuel with
      | O => OutOfFuel
      | S fuel =>
          match scanBlock steps start d work with
          | Done (d, work) => scanLoop steps fuel d work
          | Fault => Fault
          | OutOfFuel => OutOfFuel
          end
      end
  end.

(** The loop over the entries. *)
Fixpoint seedEntries (entries : list Z) (d : Discovery) (work : list Z) : Discovery * list Z :=
  match entries with
  | [] => (d, work)
  | entry :: entries =>
      if negb (bool_decide (is_Some (extents d !! entry))) && readable entry && covered entry
      then seedEntries entries (withLeader d entry) (work ++ [entry])
      else seedEntries entries d work
  end.

Definition scan (steps fuel : nat) (entries : list Z) (d : Discovery) : Run Discovery :=
  let '(d, work) := seedEntries entries d [] in scanLoop steps fuel d work.

(** *** Phase two: elaborating *)

(** Create the blocks of the extents without one, in address order. *)
Fixpoint createBlocks (starts : list Z) (d : Discovery) : L (Discovery * list Z) :=
  match starts with
  | [] => mret (d, [])
  | start :: starts =>
      if bool_decide (start ∈ existing d) then createBlocks starts d
      else
        id ← lbuild (createBlock start);
        '(d, lifted) ← createBlocks starts (withBlockAt d start id);
        mret (d, start :: lifted)
  end.

Definition withStubAt (d : Discovery) (va : Z) (id : N) : Discovery :=
  MkDiscovery (leaders d) (externals d) (extents d)
    (match blocksAt d !! va with Some _ => blocksAt d | None => <[va := id]> (blocksAt d) end)
    (existing d) (unresolved d).

Fixpoint createStubs (stubs : list Z) (d : Discovery) : L Discovery :=
  match stubs with
  | [] => mret d
  | stub :: stubs =>
      if bool_decide (is_Some (blocksAt d !! stub)) then createStubs stubs d
      else
        id ← lbuild (createBlock stub);
        lbuild (makeStub id stub);;
        createStubs stubs (withStubAt d stub id)
  end.

Definition blockAtVa (d : Discovery) (va : Z) : N := default kInvalidIndex (blocksAt d !! va).

(** [XDEC_TRY_VOID(engine_.elaborate(engine_.decode(word, at), site))]. *)
Definition elaborateInsn (site : LiftSite) (insn : DecodedInsn) : L unit := fun f =>
  match elaborate program insn site f with
  | Done (None, f) => Done (inr tt, f)
  | Done (Some e, f) => Done (inl (EngineFailed e), f)
  | Fault => Fault
  | OutOfFuel => OutOfFuel
  end.
Definition elaborateAt (site : LiftSite) (at_ : Z) (word : list Z) : L unit :=
  insn ← lask (decode program word at_); elaborateInsn site insn.

Fixpoint elaborateRange (fuel : nat) (site : LiftSite) (at_ last : Z) : L unit :=
  if negb (at_ <? last) then mret tt
  else match fuel with
  | O => fun _ => OutOfFuel
  | S fuel =>
      match readWord at_ with
      | None => mret tt
      | Some word => elaborateAt site at_ word;; elaborateRange fuel site (add64 at_ width) last
      end
  end.

(** Give a block that trails off its successor, or an end. *)
Definition closeBlock (d : Discovery) (id : N) (last : Z) : L unit :=
  lbuild (setEndVa id last);;
  open ← lbuild (isOpen id);
  if (open : bool) then
    let next := blockAtVa d last in
    let attributedTo := if width <=? last then last - width else last in
    if handleValid next && negb (next =? id)%N then ldiscard (appendBranch id attributedTo next)
    else ldiscard (appendUnreachable id attributedTo)
  else mret tt.

(** [terminator.code = il::OpCode::Branch]. *)
Definition setCode (id : N) (c : OpCode) : M unit := update (fun f =>
  o ← opAt f id;
  Some (withTables f (withOps (tables f) (<[N.to_nat id :=
    MkOp c (opType o) (va o) (origin o) (result o) (payload o) (operandStart o) (opOperandCount o)
      (targetStart o) (targetCount o)]> (ops (tables f)))))).

(** Under coverage, replace the targets of a terminator by those observed. *)
Definition narrowTerminator (d : Discovery) (successors : Z -> list Z) (id : N) : L unit :=
  b ← lbuild (gets (fun f => blockAtId f id));
  match last (blockOps b) with
  | None => mret tt
  | Some opId =>
      o ← lbuild (gets (fun f => opAt f opId));
      if bool_decide (code o ∈ [OpCode.Branch; OpCode.CondBranch; OpCode.IndirectBranch]) then
        let targets := filter (fun t => handleValid t = true) (blockAtVa d <$> successors (va o)) in
        match targets with
        | [_] => lbuild (setCode opId OpCode.Branch);; lbuild (setOperands opId []);; lbuild (setTargets opId targets)
        | _ :: _ => if decide (code o = OpCode.IndirectBranch) then lbuild (setTargets opId targets) else mret tt
        | [] => mret tt
        end
      else mret tt
  end.

Definition siteOf (d : Discovery) (id : N) : LiftSite := MkLiftSite id (Some (blockAtVa d)).

(** One block of [lifted]. *)
Definition liftBlock (d : Discovery) (start : Z) : L unit :=
  match extents d !! start, blocksAt d !! start with
  | Some last, Some id =>
      elaborateRange (Z.to_nat (last - start)) (siteOf d id) start last;;
      closeBlock d id last;;
      match activeCoverage coverage with
      | Some (_, successors) => narrowTerminator d successors id
      | None => mret tt
      end
  | _, _ => fun _ => Fault
  end.

Fixpoint liftAll (d : Discovery) (starts : list Z) : L unit :=
  match starts with [] => mret tt | start :: starts => liftBlock d start;; liftAll d starts end.

Definition elaborateAll (d : Discovery) : L (Discovery * list Z) :=
  '(d, lifted) ← createBlocks (ascending (dom (extents d))) d;
  d ← createStubs (ascending (externals d)) d;
  liftAll d lifted;;
  lbuild rebuild;;
  mret (d, lifted).

(** *** Entry points *)

Record LiftedFunction : Set := MkLifted { liftedEntry : N; liftedUnresolved : list Z; liftedExternal : list Z }.

(** [liftFunction], with the function it makes. *)
Definition liftFunction (steps fuel : nat) (entry : Z) : Run ((LiftError + LiftedFunction) * Function) :=
  let f := newFunction (progRegisters program) entry in
  if negb validWidth then Done (inl BadWidth, f)
  else
    (d ← lask (scan steps fuel [entry] (newDiscovery f));
     '(d, _) ← elaborateAll d;
     let entryBlock := blockAtVa d entry in
     if negb (handleValid entryBlock) then lfail EntryNotMapped
     else lbuild (setEntryBlock entryBlock);; mret (MkLifted entryBlock (unresolved d) (ascending (externals d))) : L LiftedFunction) f.

(** [liftBlocksInto], on the function it extends. *)
Definition liftBlocksInto (steps fuel : nat) (entries : list Z) : L (list Z * list Z) := fun f =>
  if negb validWidth then Done (inl BadWidth, f)
  else
    (d ← lask (scan steps fuel entries (newDiscovery f));
     '(d, lifted) ← elaborateAll d;
     mret (lifted, unresolved d)) f.

(** *** The bytes of one basic block *)

Section Range.
Variables (bytes : list Z) (base : Z).

Definition rangeEnd : Z := add64 base (Z.of_nat (length bytes)).
Definition inRange (va : Z) : bool := (base <=? va) && (va <? rangeEnd).
Definition vaAt (index : nat) : Z := u64 (base + Z.of_nat index * width).
Definition wordAt (index : nat) : list Z := take (Z.to_nat width) (drop (index * Z.to_nat width) bytes).

(** [(inRange(target) ? leaders : external).insert(target)]. *)
Definition placeTarget (target : Z) (sets : gset Z * gset Z) : gset Z * gset Z :=
  let '(leaders, external) := sets in
  if target =? 0 then sets
  else if inRange target then ({[target]} ∪ leaders, external) else (leaders, {[target]} ∪ external).

(** Pass one: where blocks begin. *)
Fixpoint findLeaders (count : nat) (indices : list nat) (sets : gset Z * gset Z) : Run (gset Z * gset Z) :=
  match indices with
  | [] => Done sets
  | index :: indices =>
      match flowAt (vaAt index) (wordAt index) with
      | Done flow =>
          if negb (terminates flow) then findLeaders count indices sets
          else
            let '(leaders, external) := placeTarget (flowFallthrough flow) (placeTarget (flowTarget flow) sets) in
            findLeaders count indices
              (if (S index <? count)%nat then {[vaAt (S index)]} ∪ leaders else leaders, external)
      | Fault => Fault
      | OutOfFuel => OutOfFuel
      end
  end.

Fixpoint createLeaders (starts : list Z) (at_ : gmap Z N) : L (gmap Z N) :=
  match starts with
  | [] => mret at_
  | leader :: starts => id ← lbuild (createBlock leader); createLeaders starts (<[leader := id]> at_)
  end.
Fixpoint createExternals (stubs : list Z) (at_ : gmap Z N) : L (gmap Z N) :=
  match stubs with
  | [] => mret at_
  | stub :: stubs =>
      if bool_decide (is_Some (at_ !! stub)) then createExternals stubs at_
      else
        id ← lbuild (createBlock stub);
        lbuild (makeStub id stub);;
        createExternals stubs (<[stub := id]> at_)
  end.

(** End a block at an address, going on to another block if it is open. *)
Definition endBlock (id : N) (va : Z) (next : N) : L unit :=
  lbuild (setEndVa id va);;
  open ← lbuild (isOpen id);
  if (open : bool) then ldiscard (appendBranch id (sub64 va width) next) else mret tt.

(** Pass two: elaborate, moving to the next block at each leader. *)
Fixpoint elaborateIndices (at_ : gmap Z N) (indices : list nat) (current : Z * N) : L (Z * N) :=
  match indices with
  | [] => mret current
  | index :: indices =>
      let va := vaAt index in
      current ← match at_ !! va with
                | Some id =>
                    if negb (va =? current.1) && inRange va then endBlock current.2 va id;; mret (va, id)
                    else mret current
                | None => mret current
                end;
      elaborateAt (MkLiftSite current.2 (Some (fun t => default kInvalidIndex (at_ !! t)))) va (wordAt index);;
      elaborateIndices at_ indices current
  end.

Definition liftRange (count : nat) : L N :=
  '(leaders, external) ← lask (findLeaders count (seq 0 count) ({[base]}, ∅));
  at_ ← createLeaders (ascending leaders) ∅;
  at_ ← createExternals (ascending ({[rangeEnd]} ∪ external)) at_;
  match at_ !! base, at_ !! rangeEnd with
  | Some entry, Some after =>
      lbuild (setEntryBlock entry);;
      current ← elaborateIndices at_ (seq 0 count) (base, entry);
      endBlock current.2 rangeEnd after;;
      lbuild rebuild;;
      mret entry
  | _, _ => fun _ => Fault
  end.

(** [liftBasicBlock]; the remainder by a width of zero is undefined. *)
Definition liftBasicBlock : Run ((LiftError + N) * Function) :=
  let f := newFunction (progRegisters program) base in
  let size := Z.of_nat (length bytes) in
  if size =? 0 then Done (inl NotWhole, f)
  else if width =? 0 then Fault
  else if negb (size mod width =? 0) then Done (inl NotWhole, f)
  else liftRange (Z.to_nat (size / width)) f.
End Range.
End Lifter.
