(* ===== verification/LiftScan.v ===== *)
(** * The scan of the lifter

    What one turn of the worklist does to the leaders, the extents and the
    worklist; and that the loop comes to an end over a finite readable memory. *)
From S2P Require Import Prelude Bits Types Exprs Registers Func Cfg PltStub Program Sorting Encoding EncodingProps Engine DecodeProps EngineTotal Lift.
From stdpp Require Import sorting.
Local Open Scope Z_scope.

(** ** The greatest key not above *)

Lemma floorEntry_spec m key :
  match floorEntry m key with
  | Some (k, v) => m !! k = Some v /\ k <= key /\ forall k' v', m !! k' = Some v' -> k' <= key -> k' <= k
  | None => forall k v, m !! k = Some v -> key < k
  end.
Proof.
  unfold floorEntry. revert m. refine (map_fold_weak_ind (fun best (m : gmap Z Z) =>
    match best with
    | Some (k, v) => m !! k = Some v /\ k <= key /\ forall k' v', m !! k' = Some v' -> k' <= key -> k' <= k
    | None => forall k v, m !! k = Some v -> key < k
    end) _ _ _ _); [by intros k v ?%lookup_empty_Some|].
  intros k v m best Hm IH. destruct (Z.leb_spec k key); destruct best as [[k' v']|].
  - destruct IH as (Hk' & Hle & Hmax). destruct (Z.ltb_spec k' k); (split_and!; [|lia|]).
    + by rewrite lookup_insert_eq.
    + intros a b [[-> ->]|[_ Ha]]%lookup_insert_Some Hb; [lia|]. specialize (Hmax a b Ha Hb). lia.
    + rewrite lookup_insert_ne; [done|]. intros ->. congruence.
    + intros a b [[-> ->]|[_ Ha]]%lookup_insert_Some Hb; [lia|]. by apply (Hmax a b).
  - split_and!; [by rewrite lookup_insert_eq|lia|].
    intros a b [[-> ->]|[_ Ha]]%lookup_insert_Some Hb; [lia|]. specialize (IH a b Ha). lia.
  - destruct IH as (Hk' & Hle & Hmax). split_and!; [|done|].
    + rewrite lookup_insert_ne; [done|]. intros ->. congruence.
    + intros a b [[-> ->]|[_ Ha]]%lookup_insert_Some Hb; [lia|]. by apply (Hmax a b).
  - intros a b [[-> ->]|[_ Ha]]%lookup_insert_Some; [lia|]. by apply (IH a b).
Qed.

(** ** A lexicographic order on functions, greatest key first *)

Fixpoint lexlt (keys : list Z) (f g : Z -> nat) : Prop :=
  match keys with
  | [] => False
  | k :: keys => (f k < g k)%nat \/ (f k = g k /\ lexlt keys f g)
  end.

Lemma lexlt_wf keys : well_founded (lexlt keys).
Proof.
  induction keys as [|k keys IH]; [intros f; constructor; by intros g []|].
  assert (forall n f, f k = n -> Acc (lexlt (k :: keys)) f) as H; [|intros f; by eapply H].
  intros n. induction (lt_wf n) as [n _ IHn]. intros f. induction (IH f) as [f _ IHf]. intros Hf. constructor.
  intros g [Hlt|[Heq Hg]]; [eapply (IHn (g k)); [lia|done]|apply IHf; [done|congruence]].
Qed.

(** An increase makes no difference where a greater key decreases. *)
Lemma lexlt_intro keys (f g : Z -> nat) :
  StronglySorted (fun a b => b < a) keys ->
  (forall a, a ∈ keys -> (g a < f a)%nat -> exists t, t ∈ keys /\ a < t /\ (f t < g t)%nat) ->
  (exists a, a ∈ keys /\ (f a < g a)%nat) -> lexlt keys f g.
Proof.
  induction 1 as [|k keys Hs IH Hk]; intros Hinc (a & Ha & Hlt); [by apply elem_of_nil in Ha|]. cbn.
  rewrite Forall_forall in Hk. destruct (lt_eq_lt_dec (f k) (g k)) as [[Hlt'|Heq]|Hgt].
  - by left.
  - right. split; [done|]. apply IH.
    + intros b Hb Hbl. destruct (Hinc b) as (t & Ht & Hbt & Htl); [by right|done|]. exists t. split; [|done].
      apply elem_of_cons in Ht as [->|Ht]; [lia|done].
    + apply elem_of_cons in Ha as [->|Ha]; [lia|]. by exists a.
  - destruct (Hinc k) as (t & Ht & Hkt & Htl); [by left|done|]. apply elem_of_cons in Ht as [->|Ht]; [lia|]. specialize (Hk t Ht). cbn in Hk. lia.
Qed.

Lemma lexlt_same keys (f g : Z -> nat) : (forall a, a ∈ keys -> f a = g a) -> forall h, lexlt keys h f -> lexlt keys h g.
Proof.
  induction keys as [|k keys IH]; intros Hfg h H; [done|]. cbn in *. rewrite <- (Hfg k) by by left.
  destruct H as [H|[H1 H2]]; [by left|right]. split; [done|]. apply IH; [|done]. intros a Ha. apply Hfg. by right.
Qed.

Lemma new_element (s1 s2 : gset Z) : ~ s1 ⊆ s2 -> exists a, a ∈ s1 /\ a ∉ s2.
Proof.
  intros H. destruct (set_choose_or_empty (s1 ∖ s2)) as [[a Ha]|He]; [exists a; by apply elem_of_difference in Ha|].
  exfalso. apply H. intros a Ha. destruct (decide (a ∈ s2)); [done|]. set_solver.
Qed.

(** ** Positions in a worklist *)

(** One more than the index of the first occurrence, zero for none. *)
Fixpoint position (a : Z) (l : list Z) : nat :=
  match l with
  | [] => 0
  | b :: l => if a =? b then 1 else match position a l with O => 0 | S n => S (S n) end
  end.

Lemma position_0 a l : position a l = 0%nat <-> a ∉ l.
Proof.
  induction l as [|b l IH]; cbn; [split; [by intros _ ?%elem_of_nil|done]|].
  destruct (Z.eqb_spec a b) as [->|Hne]; [split; [done|]; intros H; exfalso; apply H; by left|].
  rewrite not_elem_of_cons. destruct (position a l); naive_solver.
Qed.

Lemma position_app a l l' : a ∈ l -> position a (l ++ l') = position a l.
Proof.
  induction l as [|b l IH]; intros Ha; [by apply elem_of_nil in Ha|]. cbn. destruct (Z.eqb_spec a b); [done|].
  apply elem_of_cons in Ha as [|Ha]; [done|]. by rewrite IH.
Qed.

Lemma position_tail a b l : a <> b -> a ∈ l -> (position a l < position a (b :: l))%nat.
Proof.
  intros Hne Ha. cbn. destruct (Z.eqb_spec a b); [done|]. destruct (position a l) eqn:E; [by apply position_0 in E|lia].
Qed.

(** ** One target *)

Section Scan.
Variables (program : SpecProgram) (reader : ByteReader) (facts : LoaderNames) (coverage : option LiftCoverage).

Abbreviation w := (width program).
Abbreviation readable := (readable program reader).
Abbreviation readWord := (readWord program reader).
Abbreviation flowAt := (flowAt program).
Abbreviation walk := (walk program reader facts coverage).
Abbreviation visitTarget := (visitTarget program reader).
Abbreviation visitTargets := (visitTargets program reader).
Abbreviation visitFlow := (visitFlow program reader coverage).
Abbreviation finishBlock := (finishBlock program reader coverage).
Abbreviation scanBlock := (scanBlock program reader facts coverage).
Abbreviation scanLoop := (scanLoop program reader facts coverage).

Definition visited (t : Z) : bool := negb (t =? 0) && readable t.

(** What a batch of targets does: the leaders and the worklist grow by the ones
    that are visited, and an extent goes only if some visited target that has no
    extent lies strictly inside of it. *)
Record batch (targets : list Z) (d : Discovery) (work : list Z) (d' : Discovery) (work' : list Z) : Prop := {
  ba_leaders : forall a, a ∈ leaders d' <-> a ∈ leaders d \/ (a ∈ targets /\ visited a = true);
  ba_existing : existing d' = existing d;
  ba_externals : forall a, a ∈ externals d' <-> a ∈ externals d \/ (a ∈ targets /\ a <> 0 /\ readable a = false);
  ba_extents : extents d' ⊆ extents d;
  ba_split : forall k v, extents d !! k = Some v -> extents d' !! k = None ->
    k ∉ existing d /\ k ∈ work' /\ exists t, t ∈ targets /\ visited t = true /\ k < t < v /\ extents d' !! t = None;
  ba_work : exists more, work' = work ++ more /\
    forall a, a ∈ more -> (a ∈ targets /\ visited a = true) \/ (is_Some (extents d !! a) /\ extents d' !! a = None);
  ba_new : forall a, a ∈ leaders d' -> a ∉ leaders d -> a ∈ work';
  ba_kept : forall t k v, t ∈ targets -> visited t = true -> extents d' !! k = Some v -> k < t < v -> k ∉ existing d ->
    exists k', k < k' <= t /\ is_Some (extents d !! k') }.

Lemma batch_nil d work : batch [] d work d work.
Proof.
  split; try done.
  - intros a. split; [by left|]. by intros [|[?%elem_of_nil _]].
  - intros a. split; [by left|]. by intros [|[?%elem_of_nil _]].
  - intros k v -> [=].
  - exists []. split; [by rewrite app_nil_r|]. by intros a ?%elem_of_nil.
  - by intros t k v ?%elem_of_nil.
Qed.

Lemma splitAt_spec t d work d' work' :
  splitAt t d work = (d', work') ->
  leaders d' = leaders d /\ externals d' = externals d /\ existing d' = existing d /\ extents d' ⊆ extents d /\
  (forall k v, extents d !! k = Some v -> extents d' !! k = None -> k ∉ existing d /\ k ∈ work' /\ k < t < v /\ extents d !! t = None) /\
  (exists more, work' = work ++ more /\ forall a, a ∈ more -> is_Some (extents d !! a) /\ extents d' !! a = None) /\
  (forall k v, extents d' !! k = Some v -> k < t < v -> k ∉ existing d -> exists k', k < k' <= t /\ is_Some (extents d !! k')).
Proof.
  unfold splitAt. pose proof (floorEntry_spec (extents d) t) as Hf. intros H.
  assert (exists q, floorEntry (extents d) t = q) as [q Eq] by eauto. rewrite Eq in Hf, H.
  assert (match q with Some (k, v) => (k <? t) && (t <? v) && negb (bool_decide (k ∈ existing d)) | None => false end = false ->
    (d', work') = (d, work)) as Hsame.
  { destruct q as [[k v]|]; [|done]. intros E. by rewrite E in H. }
  destruct (match q with Some (k, v) => _ | None => false end) eqn:E.
  - destruct q as [[k v]|]; [|done]. rewrite E in H. injection H as <- <-. destruct Hf as (Hk & Hle & Hmax).
    apply andb_true_iff in E as [E He]. apply negb_true_iff, bool_decide_eq_false in He. cbn. split_and!; try done; [by apply delete_subseteq| | |].
    + intros a b Ha Hd. assert (a = k) as -> by (destruct (decide (a = k)); [done|by rewrite lookup_delete_ne in Hd by done; congruence]).
      assert (b = v) as -> by congruence. split_and!; [done|apply elem_of_app; right; by left|lia|lia|].
      destruct (extents d !! t) as [x|] eqn:Et; [|done]. specialize (Hmax t x Et ltac:(lia)). lia.
    + exists [k]. split; [done|]. intros a ->%list_elem_of_singleton. split; [by eexists|by rewrite lookup_delete_eq].
    + intros a b [Hne Ha]%lookup_delete_Some Hin _. exists k. pose proof (Hmax a b Ha ltac:(lia)). split; [lia|by exists v].
  - injection (Hsame eq_refl) as -> ->. split_and!; try done; [by intros k v -> [=]| |].
    + exists []. split; [by rewrite app_nil_r|by intros a ?%elem_of_nil].
    + intros a b Ha Hin Hex. destruct q as [[k v]|]; [|specialize (Hf a b Ha); lia]. destruct Hf as (Hk & Hle & Hmax).
      exists k. pose proof (Hmax a b Ha ltac:(lia)). split; [|by exists v].
      destruct (decide (a = k)) as [->|]; [|lia]. assert (b = v) as -> by congruence. rewrite bool_decide_false in E by done. cbn in E. lia.
Qed.

Lemma visitTarget_batch t d work d' work' : visitTarget t d work = (d', work') -> batch [t] d work d' work'.
Proof.
  unfold Lift.visitTarget. intros H.
  assert (visited t = false -> t <> 0 -> readable t = false) as Hun by (unfold visited; destruct (Z.eqb_spec t 0); [done|]; cbn; congruence).
  destruct (Z.eqb_spec t 0) as [->|Hne].
  { injection H as <- <-. destruct (batch_nil d work) as [Hl He Hx Hs Hsp Hw Hn _]. split; try done.
    - intros a. split; [by left|]. intros [|[->%list_elem_of_singleton Hv]]; [done|]. by unfold visited in Hv.
    - intros a. split; [by left|]. by intros [|[->%list_elem_of_singleton [? _]]].
    - intros k v -> [=].
    - exists []. split; [by rewrite app_nil_r|by intros a ?%elem_of_nil].
    - intros t k v ->%list_elem_of_singleton Hv. by unfold visited in Hv. }
  destruct (readable t) eqn:Hr; cbn [negb] in H.
  2: { injection H as <- <-. split; cbn; try done.
    - intros a. split; [by left|]. intros [|[->%list_elem_of_singleton Hv]]; [done|]. unfold visited in Hv. by rewrite Hr, andb_false_r in Hv.
    - intros a. rewrite elem_of_union, elem_of_singleton, list_elem_of_singleton. split; [intros [->|]; [by right|by left]|intros [|[-> _]]; [by right|by left]].
    - intros k v -> [=].
    - exists []. split; [by rewrite app_nil_r|by intros a ?%elem_of_nil].
    - intros t' k v ->%list_elem_of_singleton Hv. unfold visited in Hv. by rewrite Hr, andb_false_r in Hv. }
  assert (visited t = true) as Hv by (unfold visited; rewrite Hr; by destruct (Z.eqb_spec t 0)).
  assert (forall (a : Z), ~ (a ∈ [t] /\ a <> 0 /\ readable a = false)) as Hext.
  { intros a (->%list_elem_of_singleton & _ & ?). congruence. }
  case_bool_decide as Ht; apply splitAt_spec in H as (Hl & He & Hx & Hs & Hsp & (more & -> & Hm) & Hlast); cbn in *.
  - split; [| done | | done | | | |by intros t' k v ->%list_elem_of_singleton _; apply Hlast].
    + intros a. rewrite Hl, list_elem_of_singleton. split; [by left|]. intros [|[-> _]]; done.
    + intros a. rewrite He. split; [by left|]. intros [|Ha]; [done|by apply Hext in Ha].
    + intros k v Hk Hk'. destruct (Hsp k v Hk Hk') as (? & ? & ? & Ht0). split_and!; try done. exists t. split_and!; [by left|done|lia|lia|].
      destruct (extents d' !! t) eqn:Et; [|done]. apply (lookup_weaken _ (extents d)) in Et; [|done]. congruence.
    + exists more. split; [done|]. intros a Ha. right. by apply Hm.
    + intros a Ha Hna. rewrite Hl in Ha. done.
  - split; [| done | | done | | | |by intros t' k v ->%list_elem_of_singleton _; apply Hlast].
    + intros a. rewrite Hl, elem_of_union, elem_of_singleton, list_elem_of_singleton. split; [intros [->|]; [by right|by left]|]. intros [|[-> _]]; [by right|by left].
    + intros a. rewrite He. split; [by left|]. intros [|Ha]; [done|by apply Hext in Ha].
    + intros k v Hk Hk'. destruct (Hsp k v Hk Hk') as (? & ? & ? & Ht0). split_and!; try done. exists t. split_and!; [by left|done|lia|lia|].
      destruct (extents d' !! t) eqn:Et; [|done]. apply (lookup_weaken _ (extents d)) in Et; [|done]. congruence.
    + exists (t :: more). split; [by rewrite <- app_assoc|]. intros a [->|Ha]%elem_of_cons; [left; split; [by left|done]|right; by apply Hm].
    + intros a Ha Hna. rewrite Hl in Ha. apply elem_of_union in Ha as [->%elem_of_singleton|]; [|done].
      apply elem_of_app. left. apply elem_of_app. right. by left.
Qed.

Lemma batch_app ts1 ts2 d w1 d1 work1 d2 work2 :
  batch ts1 d w1 d1 work1 -> batch ts2 d1 work1 d2 work2 -> batch (ts1 ++ ts2) d w1 d2 work2.
Proof.
  intros [L1 E1 X1 S1 P1 (m1 & -> & W1) N1 K1] [L2 E2 X2 S2 P2 (m2 & -> & W2) N2 K2]. split.
  - intros a. rewrite L2, L1, elem_of_app. naive_solver.
  - congruence.
  - intros a. rewrite X2, X1, elem_of_app. naive_solver.
  - by etrans.
  - intros k v Hk Hk2. destruct (extents d1 !! k) as [v1|] eqn:Hk1.
    + pose proof (lookup_weaken _ _ _ _ Hk1 S1). assert (v1 = v) as -> by congruence.
      destruct (P2 k v Hk1 Hk2) as (? & ? & t & ? & ? & ? & ?). split_and!; [congruence|done|]. exists t. rewrite elem_of_app. naive_solver.
    + destruct (P1 k v Hk Hk1) as (? & ? & t & ? & ? & ? & Ht). split_and!; [done|apply elem_of_app; by left|]. exists t. rewrite elem_of_app.
      split_and!; [by left|done|lia|lia|]. destruct (extents d2 !! t) eqn:Et; [|done]. apply (lookup_weaken _ (extents d1)) in Et; [|done]. congruence.
  - exists (m1 ++ m2). split; [by rewrite app_assoc|]. intros a [Ha|Ha]%elem_of_app.
    + destruct (W1 a Ha) as [[? ?]|[? Ha1]]; [left; rewrite elem_of_app; naive_solver|right]. split; [done|].
      destruct (extents d2 !! a) eqn:Ea; [|done]. apply (lookup_weaken _ (extents d1)) in Ea; [|done]. congruence.
    + destruct (W2 a Ha) as [[? ?]|[[x Hx] Ha2]]; [left; rewrite elem_of_app; naive_solver|right]. split; [|done].
      exists x. by eapply lookup_weaken.
  - intros a Ha Hna. destruct (decide (a ∈ leaders d1)) as [Ha1|Ha1]; [|by apply N2].
    apply elem_of_app. left. by apply N1.
  - intros t k v [Ht|Ht]%elem_of_app Hv Hk Hin Hex.
    + eapply K1; try done. by eapply lookup_weaken.
    + destruct (K2 t k v Ht Hv Hk Hin) as (k' & ? & x & Hk'); [congruence|]. exists k'. split; [done|]. exists x. by eapply lookup_weaken.
Qed.

Lemma visitTargets_batch ts d work d' work' : visitTargets ts d work = (d', work') -> batch ts d work d' work'.
Proof.
  revert d work. induction ts as [|t ts IH]; intros d work H; cbn [Lift.visitTargets] in H.
  - injection H as <- <-. apply batch_nil.
  - destruct (visitTarget t d work) as [d1 work1] eqn:E. apply visitTarget_batch in E.
    change (t :: ts) with ([t] ++ ts). eapply batch_app; [exact E|by apply IH].
Qed.

(** ** One block *)

(** The addresses a terminator names or, under coverage, those observed after it. *)
Definition successorsOf (at_ : Z) (flow : InsnFlow) : list Z :=
  match activeCoverage coverage with
  | Some (_, successors) => successors (sub64 at_ w)
  | None => [flowTarget flow; flowFallthrough flow]
  end.
Definition stopTargets (stop : Stop) (at_ : Z) : list Z :=
  match stop with Terminated flow => successorsOf at_ flow | _ => [] end.

(** Only the addresses set aside differ. *)
Definition sameCore (d d0 : Discovery) : Prop :=
  leaders d0 = leaders d /\ extents d0 = extents d /\ existing d0 = existing d /\ externals d ⊆ externals d0.

Lemma finishBlock_spec start at_ stop d work d' work' :
  finishBlock start at_ stop d work = (d', work') ->
  exists d0 d1, sameCore d d0 /\ batch (stopTargets stop at_) d0 work d1 work' /\ d' = recordExtent start at_ d1.
Proof.
  assert (forall t d x, sameCore d (boundaryArm t d x)) as Harm.
  { intros t d0 x. unfold boundaryArm, sameCore. case_match; [|done]. cbn. split_and!; try done. apply union_subseteq_r. }
  unfold Lift.finishBlock. destruct stop as [| | | |flow]; try (intros [= <- <-]; exists d, d; split_and!; try done; apply batch_nil).
  - intros [= <- <-]. exists (withUnresolved d start), (withUnresolved d start). split_and!; try done; apply batch_nil.
  - destruct (visitFlow start at_ flow d work) as [d1 work1] eqn:E. intros [= <- <-]. unfold Lift.visitFlow in E.
    unfold stopTargets, successorsOf. destruct (activeCoverage coverage) as [[contains successors]|].
    + apply visitTargets_batch in E. eexists _, d1. split; [|split; [exact E|done]].
      pose proof (Harm (successors (sub64 at_ w)) d (flowTarget flow)) as (A1 & A2 & A3 & A4).
      pose proof (Harm (successors (sub64 at_ w)) (boundaryArm (successors (sub64 at_ w)) d (flowTarget flow)) (flowFallthrough flow)) as (B1 & B2 & B3 & B4).
      split_and!; [congruence..|by etrans].
    + apply visitTargets_batch in E. eexists _, d1. split; [|split; [exact E|done]]. by case_match.
Qed.

(** *** Invariants of the scan *)

Record scan_ok (d : Discovery) (work : list Z) : Prop := {
  so_work : forall a, a ∈ work -> a ∈ leaders d /\ readable a = true;
  so_extents : forall k, is_Some (extents d !! k) -> k ∈ leaders d /\ (k ∈ existing d \/ readable k = true);
  so_pending : forall a, a ∈ leaders d -> readable a = true -> is_Some (extents d !! a) \/ a ∈ work }.

Lemma visited_readable t : visited t = true -> readable t = true.
Proof. unfold visited. intros H. by apply andb_true_iff in H as []. Qed.

Lemma finishBlock_ok start at_ stop d work d' work' :
  scan_ok d (start :: work) -> extents d !! start = None -> finishBlock start at_ stop d work = (d', work') -> scan_ok d' work'.
Proof.
  intros [Hw Hx Hp] Hs (d0 & d1 & (L0 & X0 & E0 & _) & [L E _ S P (more & -> & M) N _] & ->)%finishBlock_spec.
  destruct (Hw start) as [Hsl Hsr]; [by left|]. rewrite L0, X0, E0 in *.
  assert (forall a, a ∈ leaders d -> a ∈ leaders d1) as Hmono by (intros a Ha; apply L; by left).
  split; cbn.
  - intros a [Ha|Ha]%elem_of_app; [destruct (Hw a); [by right|]; auto|].
    destruct (M a Ha) as [[Ht Hv]|[Hr Hn]]; [split; [apply L; by right|by apply visited_readable]|].
    destruct (Hx a Hr) as [? Hor]. split; [auto|]. destruct Hor as [Hex|]; [|done]. destruct Hr as [v Hv].
    by destruct (P a v Hv Hn) as [? _].
  - intros k [v [[<- <-]|[_ Hk]]%lookup_insert_Some]; [by auto|].
    pose proof (lookup_weaken _ _ _ _ Hk S) as Hkd. destruct (Hx k) as [? Hor]; [by exists v|]. rewrite E. auto.
  - intros a Ha Hr. destruct (decide (a = start)) as [->|Hne]; [left; rewrite lookup_insert_eq; eauto|].
    destruct (decide (a ∈ leaders d)) as [Hal|Hal]; [|right; by apply N].
    destruct (Hp a Hal Hr) as [[v Hv]|[->|Hin]%elem_of_cons]; [|done|right; apply elem_of_app; by left].
    destruct (extents d1 !! a) eqn:Ea; [left; rewrite lookup_insert_ne, Ea by done; eauto|].
    right. by destruct (P a v Hv Ea) as (_ & ? & _).
Qed.

Lemma scanBlock_ok steps start d work d' work' :
  scan_ok d (start :: work) -> scanBlock steps start d work = Done (d', work') -> scan_ok d' work'.
Proof.
  intros Hok H. unfold Lift.scanBlock in H. case_bool_decide as Hs.
  - injection H as <- <-. destruct Hok as [Hw Hx Hp]. split; [intros a Ha; apply Hw; by right|done|].
    intros a Ha Hr. destruct (Hp a Ha Hr) as [|[->|]%elem_of_cons]; auto.
  - destruct (walk steps (leaders d) start start) as [[at_ stop]| |] eqn:Ew; [|done..]. injection H as H. eapply finishBlock_ok; [done| |done].
    destruct (extents d !! start); [by exfalso; apply Hs; eauto|done].
Qed.

(** *** Where the scan begins *)

Lemma seedEntries_spec entries d work d' work' :
  seedEntries program reader coverage entries d work = (d', work') -> scan_ok d work ->
  scan_ok d' work' /\ extents d' = extents d /\ existing d' = existing d /\
  leaders d ⊆ leaders d' /\ (forall a, a ∈ leaders d' -> a ∈ leaders d \/ a ∈ entries) /\
  (forall a, a ∈ entries -> readable a = true -> covered coverage a = true -> a ∈ leaders d' \/ is_Some (extents d !! a)).
Proof.
  revert d work. induction entries as [|x entries IH]; intros d work H Hok; cbn [seedEntries] in H.
  { injection H as <- <-. split_and!; [done..|by intros a; left|by intros a ?%elem_of_nil]. }
  destruct (_ && _) eqn:E in H.
  - apply andb_true_iff in E as [[_ Er]%andb_true_iff Ec]. destruct Hok as [Hw Hx Hp]. apply IH in H as (Hok' & He & Hi & Hm & Hl & Hn).
    + cbn in He, Hi, Hm, Hl, Hn. split_and!; [done..|set_solver| |].
      * intros a Ha. destruct (Hl a Ha) as [[->%elem_of_singleton|]%elem_of_union|]; [right; by left|by left|right; by right].
      * intros a [->|Ha]%elem_of_cons Hr Hc; [|by apply Hn]. left. set_solver.
    + split; cbn.
      * intros a [Ha| ->%list_elem_of_singleton]%elem_of_app; [destruct (Hw a Ha)|]; split; set_solver.
      * intros k Hk. destruct (Hx k Hk). split; [set_solver|done].
      * intros a [->%elem_of_singleton|Ha]%elem_of_union Hr; [right; apply elem_of_app; right; by left|].
        destruct (Hp a Ha Hr); [by left|right; apply elem_of_app; by left].
  - apply IH in H as (Hok' & He & Hi & Hm & Hl & Hn); [|done]. split_and!; [done..| |].
    + intros a Ha. destruct (Hl a Ha); [by left|right; by right].
    + intros a [->|Ha]%elem_of_cons Hr Hc; [|by apply Hn]. right. rewrite Hr, Hc in E. cbn in E. rewrite !andb_true_r in E.
      by apply negb_false_iff, bool_decide_eq_true in E.
Qed.

(** ** The loop ends *)

(** Readable memory is finite and does not reach the end of the address space,
    and the engine answers on all of it. *)
Record memory_ok (mem : gset Z) : Prop := {
  me_finite : forall a, readable a = true -> a ∈ mem;
  me_bounds : forall a, a ∈ mem -> 0 <= a /\ a + w < 2 ^ 64;
  me_width : 0 < w;
  me_flows : forall a word, readWord a = Some word -> exists flow, flowAt a word = Done flow }.

Section Finite.
Context (mem : gset Z) (Hmem : memory_ok mem).

Lemma readWord_readable a word : readWord a = Some word -> readable a = true.
Proof. unfold Lift.readable. by intros ->. Qed.

Lemma readable_next a : readable a = true -> add64 a w = a + w /\ a < a + w.
Proof using Hmem.
  intros Hr. pose proof (me_bounds mem Hmem a (me_finite mem Hmem a Hr)). pose proof (me_width mem Hmem).
  split; [|lia]. unfold add64. apply u64_small. unfold fits. lia.
Qed.

Lemma walk_done n ls start (at_ : Z) :
  (size (filter (fun a => (at_ <= a)%Z) mem) < n)%nat -> exists e stop, walk n ls start at_ = Done (e, stop).
Proof using Hmem.
  revert at_. induction n as [|n IH]; intros at_ Hn; [lia|]. cbn [Lift.walk].
  destruct (negb _ && _); [eauto|]. destruct (negb (covered _ _)); [eauto|].
  destruct (readWord at_) as [word|] eqn:Ew; [|eauto]. destruct (me_flows mem Hmem at_ word Ew) as [flow ->].
  destruct (endsInNoreturn _ _ _); [eauto|]. destruct (terminates flow); [eauto|]. apply IH.
  pose proof (readWord_readable at_ word Ew) as Hr. destruct (readable_next at_ Hr) as [-> Hlt].
  pose proof (me_finite mem Hmem at_ Hr). assert (filter (fun a => at_ + w <= a) mem ⊂ filter (fun a => at_ <= a) mem) as Hss.
  { split; [intros a; rewrite !elem_of_filter; intros [? ?]; split; [lia|done]|].
    intros Hsub. specialize (Hsub at_). rewrite !elem_of_filter in Hsub. destruct Hsub as [? _]; [split; [lia|done]|lia]. }
  apply subset_size in Hss. lia.
Qed.

(** What goes down: leaders still to be found, then the positions of the pending
    blocks from the highest address, then the worklist. *)
Definition keys : list Z := reverse (merge_sort Z.le (elements mem)).
Definition rank (d : Discovery) (work : list Z) (a : Z) : nat :=
  match extents d !! a with Some _ => 0 | None => position a work end.
Definition missing (d : Discovery) : nat := size (mem ∖ leaders d).

Lemma elem_of_keys a : a ∈ keys <-> a ∈ mem.
Proof. unfold keys. by rewrite elem_of_reverse, merge_sort_Permutation, elem_of_elements. Qed.

Lemma sorted_reverse {A} (R : A -> A -> Prop) l : StronglySorted R l -> StronglySorted (fun a b => R b a) (reverse l).
Proof.
  induction 1 as [|x l Hl IH Hx]; [constructor|]. rewrite reverse_cons. apply StronglySorted_app_2; [|done|by repeat constructor].
  intros a b Ha ->%list_elem_of_singleton. rewrite elem_of_reverse in Ha. by eapply Forall_forall in Hx.
Qed.

Lemma keys_sorted : StronglySorted (fun a b => b < a) keys.
Proof.
  unfold keys. apply (sorted_reverse Z.lt). assert (StronglySorted Z.le (merge_sort Z.le (elements mem))) as Hs by apply (StronglySorted_merge_sort _).
  assert (NoDup (merge_sort Z.le (elements mem))) as Hn by (rewrite merge_sort_Permutation; apply NoDup_elements).
  induction Hs as [|x l Hl IH Hx]; [constructor|]. apply NoDup_cons in Hn as [Hxn Hn]. constructor; [auto|].
  rewrite Forall_forall in Hx |- *. intros y Hy. specialize (Hx y Hy). destruct (decide (x = y)) as [->|]; [done|lia].
Qed.

Lemma missing_less d d' a :
  leaders d ⊆ leaders d' -> a ∈ mem -> a ∈ leaders d' -> a ∉ leaders d -> (missing d' < missing d)%nat.
Proof.
  intros Hsub Ha Ha' Hna. unfold missing. apply subset_size. split.
  - intros x. rewrite !elem_of_difference. intros [? Hx]. split; [done|]. intros ?. by apply Hx, Hsub.
  - intros H. specialize (H a). rewrite !elem_of_difference in H. by destruct H.
Qed.

(** Where no leader is new, a block without an extent that is a target lies at
    or below one whose position goes down. *)
Lemma rank_falls d work d0 d1 more start at_ ts t :
  scan_ok d (start :: work) -> sameCore d d0 -> batch ts d0 work d1 (work ++ more) -> leaders d1 ⊆ leaders d ->
  t ∈ ts -> visited t = true -> extents d1 !! t = None ->
  exists t', t' ∈ keys /\ t <= t' /\
    (rank (recordExtent start at_ d1) (work ++ more) t' < rank d (start :: work) t')%nat.
Proof using Hmem.
  intros Hok (L0 & X0 & E0 & _) Hb Hsub Ht Hv Hn.
  remember (Z.to_nat (2 ^ 64 - t)) as n eqn:En. revert t Ht Hv Hn En. induction (lt_wf n) as [n _ IH]. intros t Ht Hv Hn ->.
  pose proof (visited_readable t Hv) as Hr. pose proof (me_finite mem Hmem t Hr) as Htm.
  pose proof (me_bounds mem Hmem t Htm) as [? ?]. pose proof (me_width mem Hmem).
  assert (t ∈ leaders d) as Hl by (apply Hsub, (ba_leaders _ _ _ _ _ Hb); by right).
  destruct (extents d !! t) as [v|] eqn:Et.
  - destruct (ba_split _ _ _ _ _ Hb t v) as (_ & _ & t2 & Ht2 & Hv2 & Hlt & Hn2); [by rewrite X0|done|].
    destruct (IH (Z.to_nat (2 ^ 64 - t2)) ltac:(lia) t2 Ht2 Hv2 Hn2 eq_refl) as (t' & Hk & Hle & Hf).
    exists t'. split_and!; [done|lia|done].
  - exists t. split_and!; [by apply elem_of_keys|lia|]. unfold rank. rewrite Et. cbn.
    destruct (so_pending _ _ Hok t Hl Hr) as [[? ?]|Hin]; [congruence|].
    destruct (decide (t = start)) as [->|Hne]; [rewrite lookup_insert_eq; cbn; rewrite Z.eqb_refl; lia|].
    apply elem_of_cons in Hin as [->|Hin]; [done|]. rewrite lookup_insert_ne, Hn, position_app by done. by apply (position_tail t start work).
Qed.

(** What a turn of the loop brings down. *)
Lemma scan_step steps start d work d' work' :
  scan_ok d (start :: work) -> scanBlock steps start d work = Done (d', work') ->
  (missing d' < missing d)%nat \/
  (missing d' = missing d /\
   (lexlt keys (rank d' work') (rank d (start :: work)) \/
    ((forall a, a ∈ keys -> rank d' work' a = rank d (start :: work) a) /\ work' = work))).
Proof using Hmem.
  intros Hok H. unfold Lift.scanBlock in H. case_bool_decide as Hs.
  - injection H as <- <-. right. split; [done|].
    assert (forall a, (rank d work a <= rank d (start :: work) a)%nat) as Hle.
    { intros a. unfold rank. destruct (extents d !! a) eqn:Ea; [done|]. destruct (decide (a ∈ work)) as [Ha|Ha].
      - apply Nat.lt_le_incl, position_tail; [|done]. intros ->. destruct Hs as [? ?]. congruence.
      - apply position_0 in Ha. lia. }
    destruct (decide (Exists (fun a => (rank d work a < rank d (start :: work) a)%nat) keys)) as [Hex|Hno].
    + left. apply lexlt_intro; [apply keys_sorted|intros a _ Ha; specialize (Hle a); lia|by apply Exists_exists in Hex].
    + right. split; [|done]. intros a Ha. specialize (Hle a). destruct (decide (rank d work a < rank d (start :: work) a)%nat); [|lia].
      exfalso. apply Hno, Exists_exists. by exists a.
  - assert (extents d !! start = None) as Hnone by (destruct (extents d !! start); [by exfalso; apply Hs; eauto|done]).
    destruct (walk steps (leaders d) start start) as [[at_ stop]| |] eqn:Ew; [|done..]. injection H as H.
    apply finishBlock_spec in H as (d0 & d1 & Hcore & Hb & ->). pose proof Hcore as (L0 & X0 & E0 & _).
    destruct (so_work _ _ Hok start) as [Hsl Hsr]; [by left|].
    assert (leaders d ⊆ leaders d1) as Hmono by (intros a Ha; apply (ba_leaders _ _ _ _ _ Hb); left; by rewrite L0).
    destruct (decide (leaders d1 ⊆ leaders d)) as [Hsub|Hnew].
    + right. split; [unfold missing; cbn; f_equal; set_solver|]. left.
      destruct (ba_work _ _ _ _ _ Hb) as (more & -> & Hmore). apply lexlt_intro; [apply keys_sorted| |].
      * intros a Ha Hinc. unfold rank in Hinc at 2. cbn in Hinc.
        assert (a <> start) as Hne by (intros ->; rewrite lookup_insert_eq in Hinc; lia). rewrite lookup_insert_ne in Hinc by done.
        destruct (extents d1 !! a) eqn:Ea1; [lia|]. destruct (extents d !! a) as [v|] eqn:Ea.
        { destruct (ba_split _ _ _ _ _ Hb a v) as (_ & _ & t & Ht & Hv & Hlt & Hn); [by rewrite X0|done|].
          destruct (rank_falls d work d0 d1 more start at_ _ t Hok Hcore Hb Hsub Ht Hv Hn) as (t' & Hk & Hle & Hf). exists t'. split_and!; [done|lia|done]. }
        exfalso. unfold rank in Hinc. rewrite Ea in Hinc. destruct (decide (a ∈ work)) as [Hin|Hin].
        { rewrite position_app in Hinc by done. pose proof (position_tail a start work Hne Hin). lia. }
        assert (a ∈ work ++ more) as Hm by (destruct (decide (a ∈ work ++ more)) as [|Hx%position_0]; [done|lia]).
        apply elem_of_app in Hm as [|Hm]; [done|]. destruct (Hmore a Hm) as [[Ht Hv]|[[? Hx] _]]; [|rewrite X0 in Hx; congruence].
        destruct (so_pending _ _ Hok a) as [[? ?]|[|]%elem_of_cons]; try congruence; [|by apply visited_readable].
        apply Hsub, (ba_leaders _ _ _ _ _ Hb). by right.
      * exists start. split; [apply elem_of_keys, (me_finite mem Hmem); done|]. unfold rank. cbn. rewrite lookup_insert_eq, Hnone. cbn. rewrite Z.eqb_refl. lia.
    + left. destruct (new_element _ _ Hnew) as (a & Ha & Hna).
      apply (missing_less d (recordExtent start at_ d1) a Hmono); [|done..].
      apply (ba_leaders _ _ _ _ _ Hb) in Ha as [Ha|[_ Hv]]; [congruence|]. by apply (me_finite mem Hmem), visited_readable.
Qed.

Lemma scanBlock_done start d work : exists d' work', scanBlock (S (size mem)) start d work = Done (d', work').
Proof using Hmem.
  unfold Lift.scanBlock. case_bool_decide; [eauto|].
  destruct (walk_done (S (size mem)) (leaders d) start start) as (e & stop & ->).
  { apply Nat.lt_succ_r, subseteq_size. intros a. by rewrite elem_of_filter; intros []. }
  destruct (finishBlock start e stop d work) as [d' work']. eauto.
Qed.

Lemma scanLoop_done d work :
  scan_ok d work -> exists fuel d', scanLoop (S (size mem)) fuel d work = Done d' /\ scan_ok d' [].
Proof using Hmem.
  remember (missing d) as m eqn:Em. revert d work Em. induction (lt_wf m) as [m _ IHm]. intros d work Em.
  remember (rank d work) as r eqn:Er. revert d work Em Er. induction (lexlt_wf keys r) as [r _ IHr]. intros d work Em Er.
  assert (forall a, a ∈ keys -> rank d work a = r a) as Hr by by subst. clear Er.
  revert d Em Hr. induction work as [|start work IHw]; intros d Em Hr Hok; [by exists 0%nat, d|].
  destruct (scanBlock_done start d work) as (d1 & work1 & E). pose proof (scanBlock_ok _ _ _ _ _ _ Hok E) as Hok1.
  assert (exists fuel d', scanLoop (S (size mem)) fuel d1 work1 = Done d' /\ scan_ok d' []) as (fuel & d' & Hd' & Hok').
  { destruct (scan_step _ _ _ _ _ _ Hok E) as [Hlt|[Hsame [Hlex|[Heq ->]]]].
    - eapply (IHm (missing d1)); [lia|done|done].
    - eapply (IHr (rank d1 work1)); [|congruence|done|done]. eapply lexlt_same; [exact Hr|done].
    - apply IHw; [congruence|intros a Ha; rewrite <- Hr by done; by apply Heq|done]. }
  exists (S fuel), d'. cbn [Lift.scanLoop]. by rewrite E.
Qed.

Lemma scan_done entries d :
  scan_ok d [] -> exists fuel d', scan program reader facts coverage (S (size mem)) fuel entries d = Done d' /\ scan_ok d' [].
Proof using Hmem.
  intros Hok. unfold scan. destruct (seedEntries _ _ _ entries d []) as [d' work'] eqn:E.
  apply seedEntries_spec in E as (Hok' & _); [|done]. by apply scanLoop_done.
Qed.
End Finite.

(** What the discovery starts with. *)
Lemma seedBlocks_spec bs index d :
  let d' := seedBlocks d index bs in
  (forall a, a ∈ leaders d' <-> a ∈ leaders d \/ exists b, b ∈ bs /\ blockVa b = a) /\
  (forall a, a ∈ existing d' <-> a ∈ existing d \/ exists b, b ∈ bs /\ blockVa b = a) /\
  (forall a, is_Some (extents d' !! a) <-> is_Some (extents d !! a) \/ exists b, b ∈ bs /\ blockVa b = a /\ external b = false).
Proof.
  revert index d. induction bs as [|b bs IH]; intros index d; cbn [seedBlocks].
  { cbn. split_and!; intros a; (split; [by left|]); intros [|(b & ?%elem_of_nil & _)]; done. }
  destruct (IH (S index) (seedBlock d (N.of_nat index) b)) as (Hl & He & Hx). cbn. split_and!; intros a.
  - rewrite Hl. cbn. setoid_rewrite elem_of_cons. set_solver.
  - rewrite He. cbn. setoid_rewrite elem_of_cons. set_solver.
  - rewrite Hx. cbn. setoid_rewrite elem_of_cons. destruct (external b) eqn:Eb.
    + split; [intros [|(b' & ? & ? & ?)]; [by left|right; exists b'; auto]|]. intros [|(b' & [->|] & ? & ?)]; [by left|congruence|right; by exists b'].
    + assert (is_Some (match extents d !! blockVa b with Some _ => extents d | None => <[blockVa b := endVa b]> (extents d) end !! a) <->
        is_Some (extents d !! a) \/ blockVa b = a) as ->.
      { destruct (extents d !! blockVa b) eqn:E.
        - split; [by left|]. intros [|<-]; [done|by eexists].
        - destruct (decide (blockVa b = a)) as [<-|Hne]; [rewrite lookup_insert_eq; split; [by right|by eexists]|].
          rewrite lookup_insert_ne by done. tauto. }
      split; [intros [[|]|(b' & ? & ? & ?)]; [by left|right; exists b; auto|right; exists b'; auto]|].
      intros [|(b' & [->|] & ? & ?)]; [by left; left|by left; right|right; by exists b'].
Qed.

(** A stub is not where instructions can be read. *)
Definition stubs_unreadable (f : Function) : Prop :=
  forall b, b ∈ blocks f -> external b = true -> readable (blockVa b) = false.

Lemma newDiscovery_ok f : stubs_unreadable f -> scan_ok (newDiscovery f) [].
Proof.
  intros Hs. unfold newDiscovery. destruct (seedBlocks_spec (blocks f) 0 (MkDiscovery ∅ ∅ ∅ ∅ ∅ [])) as (Hl & He & Hx).
  cbn [leaders existing extents] in Hl, He, Hx. split.
  - by intros a ?%elem_of_nil.
  - intros k Hk. apply Hx in Hk as [[? Hk]|(b & ? & ? & ?)]; [by rewrite lookup_empty in Hk|]. rewrite Hl, He. split; [right|left; right]; by exists b.
  - intros a Ha Hr. left. apply Hl in Ha as [?%elem_of_empty|(b & Hb & <-)]; [done|]. apply Hx. right. exists b. split_and!; [done..|].
    destruct (external b) eqn:Eb; [|done]. rewrite (Hs b Hb Eb) in Hr. done.
Qed.
End Scan.
