(* ===== verification/LiftProps.v ===== *)
(** * The blocks the scan finds

    What the walk over one block sees, as a relation; and that, once the
    worklist is empty, the extents do not overlap, are those of a walk against
    all the leaders, and are closed under the targets of their terminators. *)
From S2P Require Import Prelude Bits Types Exprs Registers Func Cfg PltStub Program Sorting Encoding EncodingProps Engine DecodeProps EngineTotal Lift LiftScan.
Local Open Scope Z_scope.

Section Blocks.
Variables (program : SpecProgram) (reader : ByteReader) (facts : LoaderNames) (coverage : option LiftCoverage).

Abbreviation w := (width program).
Abbreviation readable := (readable program reader).
Abbreviation readWord := (readWord program reader).
Abbreviation flowAt := (flowAt program).
Abbreviation covered := (covered coverage).
Abbreviation endsInNoreturn := (endsInNoreturn reader facts).
Abbreviation walk := (walk program reader facts coverage).
Abbreviation finishBlock := (finishBlock program reader coverage).
Abbreviation scanBlock := (scanBlock program reader facts coverage).
Abbreviation scanLoop := (scanLoop program reader facts coverage).
Abbreviation visited := (visited program reader).
Abbreviation successorsOf := (successorsOf program coverage).
Abbreviation stopTargets := (stopTargets program coverage).
Abbreviation memory_ok := (memory_ok program reader).
Abbreviation scan_ok := (scan_ok program reader).

(** ** The walk as a relation *)

(** The instruction at [a] has this flow, and is one the block may have. *)
Definition flows (a : Z) (flow : InsnFlow) : Prop :=
  covered a = true /\ exists word, readWord a = Some word /\ flowAt a word = Done flow.

Definition passes (a : Z) : Prop :=
  exists flow, flows a flow /\ endsInNoreturn flow = false /\ terminates flow = false.
Definition terminatesBlock (a : Z) (flow : InsnFlow) : Prop :=
  flows a flow /\ endsInNoreturn flow = false /\ terminates flow = true.

(** From [a], a block that starts at [start] ends at an address for a reason. *)
Inductive path (ls : gset Z) (start : Z) : Z -> Z -> Stop -> Prop :=
  | path_leader a : a <> start -> a ∈ ls -> path ls start a a AtLeader
  | path_uncovered a : (a ∈ ls -> a = start) -> covered a = false -> path ls start a a Uncovered
  | path_unreadable a : (a ∈ ls -> a = start) -> readable a = false -> path ls start a a Unreadable
  | path_call a flow : (a ∈ ls -> a = start) -> flows a flow -> endsInNoreturn flow = true ->
      path ls start a (add64 a w) CallNeverReturns
  | path_end a flow : (a ∈ ls -> a = start) -> terminatesBlock a flow -> path ls start a (add64 a w) (Terminated flow)
  | path_step a e stop : (a ∈ ls -> a = start) -> passes a -> path ls start (add64 a w) e stop -> path ls start a e stop.

Lemma walk_path n ls start a e stop : walk n ls start a = Done (e, stop) -> path ls start a e stop.
Proof.
  revert a. induction n as [|n IH]; intros a H; [done|]. cbn [Lift.walk] in H. destruct (negb (a =? start) && _) eqn:El.
  { injection H as <- <-. apply andb_true_iff in El as [Hne%negb_true_iff%Z.eqb_neq Hin%bool_decide_eq_true]. by constructor. }
  assert (a ∈ ls -> a = start) as Hfree.
  { intros Hin. destruct (Z.eqb_spec a start) as [|]; [done|]. by rewrite bool_decide_true in El. }
  destruct (covered a) eqn:Ec; cbn [negb] in H; [|injection H as <- <-; by constructor].
  destruct (readWord a) as [word|] eqn:Er; [|injection H as <- <-; constructor; [done|unfold Lift.readable; by rewrite Er]].
  destruct (flowAt a word) as [flow| |] eqn:Ef; [|done..]. assert (flows a flow) as Hflow by (split; [done|by exists word]).
  destruct (endsInNoreturn flow) eqn:Hn; [injection H as <- <-; by econstructor|].
  destruct (terminates flow) eqn:Ht; [injection H as <- <-; by constructor|].
  apply path_step; [done|by exists flow|by apply IH].
Qed.

(** The part of a path up to its terminator, leaders aside. *)
Inductive straight : Z -> Z -> InsnFlow -> Prop :=
  | straight_end a flow : terminatesBlock a flow -> straight a (add64 a w) flow
  | straight_step a e flow : passes a -> straight (add64 a w) e flow -> straight a e flow.

Lemma path_straight ls start a e flow : path ls start a e (Terminated flow) -> straight a e flow.
Proof. remember (Terminated flow) as stop. induction 1; simplify_eq; [by constructor|apply straight_step; auto]. Qed.

Lemma flows_readable a flow : flows a flow -> readable a = true.
Proof. intros (_ & word & Hw & _). unfold Lift.readable. by rewrite Hw. Qed.
Lemma flows_unique a flow flow' : flows a flow -> flows a flow' -> flow = flow'.
Proof. intros (_ & word & Hw & Hf) (_ & word' & Hw' & Hf'). congruence. Qed.
Lemma passes_readable a : passes a -> readable a = true.
Proof. intros (flow & H & _). by eapply flows_readable. Qed.

Section Grid.
Context (mem : gset Z) (Hmem : memory_ok mem).

Lemma path_le ls start a e stop : path ls start a e stop -> a <= e /\ (w | e - a).
Proof using Hmem.
  induction 1 as [a|a|a|a flow _ Hf|a flow _ [Hf _]|a e stop _ Hp _ [IH1 IH2]].
  1-3: split; [lia|rewrite Z.sub_diag; apply Z.divide_0_r].
  1-2: destruct (readable_next program reader mem Hmem a (flows_readable _ _ Hf)) as [-> ?]; split; [lia|exists 1; lia].
  destruct (readable_next program reader mem Hmem a (passes_readable _ Hp)) as [E ?]. rewrite E in IH1, IH2. split; [lia|].
  replace (e - a) with ((e - (a + w)) + w) by lia. apply Z.divide_add_r; [done|apply Z.divide_refl].
Qed.

(** Points of the grid: a whole number of instructions apart. *)
Lemma grid_next a l : 0 < w -> (w | l - a) -> a <= l -> l = a \/ (a + w <= l /\ (w | l - (a + w))).
Proof.
  intros Hw [q Hq] Hle. assert (0 <= q) by nia. destruct (decide (q = 0)); [left; lia|right]. split; [nia|exists (q - 1); lia].
Qed.

Lemma grid_same a l : 0 < w -> (w | l - a) -> a <= l < a + w -> l = a.
Proof. intros Hw Hd Hle. destruct (grid_next a l Hw Hd); lia. Qed.

Lemma path_inside ls start a e stop l :
  path ls start a e stop -> a <= l < e -> (w | l - a) -> l ∈ ls -> l = start.
Proof using Hmem.
  pose proof (me_width _ _ _ Hmem) as Hw.
  induction 1 as [a|a|a|a flow Hfree Hf|a flow Hfree [Hf _]|a e stop Hfree Hp Hpath IH]; intros Hle Hd Hin; try lia.
  1-2: destruct (readable_next program reader mem Hmem a (flows_readable _ _ Hf)) as [E ?]; rewrite E in Hle;
    apply (grid_same a l Hw) in Hd as ->; [auto|lia].
  destruct (readable_next program reader mem Hmem a (passes_readable _ Hp)) as [E ?]. rewrite E in IH, Hpath.
  destruct (grid_next a l Hw Hd) as [->|[? ?]]; [lia|auto|]. apply IH; [lia|done..].
Qed.

(** Further leaders that lie elsewhere change nothing but what the last address is called. *)
Lemma path_mono ls ls' start a e stop :
  path ls start a e stop -> ls ⊆ ls' -> (forall l, l ∈ ls' -> a <= l < e -> l = start) ->
  exists stop', path ls' start a e stop' /\ (stop' = stop \/ stop' = AtLeader).
Proof using Hmem.
  induction 1 as [a|a Hfree Hc|a Hfree Hr|a flow Hfree Hf|a flow Hfree [Hf Ht]|a e stop Hfree Hp Hpath IH]; intros Hsub Hno.
  - exists AtLeader. split; [constructor; auto|by left].
  - destruct (decide (a ∈ ls' /\ a <> start)) as [[? ?]|Hn]; [exists AtLeader; split; [by constructor|by right]|].
    exists Uncovered. split; [constructor; [|done]|by left]. intros ?. destruct (decide (a = start)); [done|]. by exfalso; apply Hn.
  - destruct (decide (a ∈ ls' /\ a <> start)) as [[? ?]|Hn]; [exists AtLeader; split; [by constructor|by right]|].
    exists Unreadable. split; [constructor; [|done]|by left]. intros ?. destruct (decide (a = start)); [done|]. by exfalso; apply Hn.
  - destruct (readable_next program reader mem Hmem a (flows_readable _ _ Hf)) as [E ?]. exists CallNeverReturns.
    split; [|by left]. econstructor; [|done..]. intros ?. apply Hno; [done|lia].
  - destruct (readable_next program reader mem Hmem a (flows_readable _ _ Hf)) as [E ?]. exists (Terminated flow).
    split; [|by left]. constructor; [|by split]. intros ?. apply Hno; [done|lia].
  - destruct (readable_next program reader mem Hmem a (passes_readable _ Hp)) as [E ?]. pose proof (path_le _ _ _ _ _ Hpath) as [Hle _].
    destruct IH as (stop' & Hp' & Hor); [done|intros l Hl Hin; apply Hno; [done|lia]|]. exists stop'. split; [|done].
    apply path_step; [|done..]. intros ?. apply Hno; [done|lia].
Qed.

Lemma straight_from a e flow t : straight a e flow -> a <= t < e -> (w | t - a) -> straight t e flow.
Proof using Hmem.
  pose proof (me_width _ _ _ Hmem) as Hw.
  induction 1 as [a flow Ht|a e flow Hp Hs IH]; intros Hle Hd.
  - destruct (readable_next program reader mem Hmem a (flows_readable _ _ (proj1 Ht))) as [E ?].
    rewrite (grid_same a t Hw Hd); [by constructor|lia].
  - destruct (readable_next program reader mem Hmem a (passes_readable _ Hp)) as [E ?]. rewrite E in IH.
    destruct (grid_next a t Hw Hd) as [->|[? ?]]; [lia|by apply straight_step|]. apply IH; [lia|done].
Qed.

Lemma straight_le a e flow : straight a e flow -> a < e.
Proof using Hmem.
  induction 1 as [a flow (Hf & _)|a e flow (flow' & Hf & _) _ IH];
    destruct (readable_next program reader mem Hmem a (flows_readable _ _ Hf)) as [E ?]; lia.
Qed.

(** What a path does where there is an instruction. *)
Lemma path_flow ls start a e stop flow :
  path ls start a e stop -> flows a flow ->
  (a ∈ ls /\ a <> start /\ e = a) \/
  (if endsInNoreturn flow then stop = CallNeverReturns
   else if terminates flow then e = add64 a w /\ stop = Terminated flow
   else path ls start (add64 a w) e stop).
Proof.
  intros H Hf. destruct H as [a Hne Hin|a _ Hc|a _ Hr|a g _ Hg Hn|a g _ (Hg & Hn & Ht)|a e stop _ (g & Hg & Hn & Ht) Hp].
  - left. by split_and!.
  - destruct Hf; congruence.
  - by rewrite (flows_readable _ _ Hf) in Hr.
  - right. rewrite (flows_unique _ _ _ Hf Hg), Hn. done.
  - right. rewrite (flows_unique _ _ _ Hf Hg), Hn, Ht. done.
  - right. rewrite (flows_unique _ _ _ Hf Hg), Hn, Ht. done.
Qed.

(** A walk that starts inside a block comes to the block's terminator, or to a
    leader before it. *)
Lemma path_agrees ls start a e flow e2 stop2 :
  straight a e flow -> path ls start a e2 stop2 ->
  (e2 = e /\ stop2 = Terminated flow) \/ (e2 ∈ ls /\ e2 <> start /\ a <= e2 < e).
Proof using Hmem.
  induction 1 as [a flow (Hf & Hn & Ht)|a e flow (flow' & Hf & Hn & Ht) Hs IH]; intros Hpath;
    destruct (readable_next program reader mem Hmem a (flows_readable _ _ Hf)) as [E ?];
    destruct (path_flow _ _ _ _ _ _ Hpath Hf) as [(? & ? & ->)|H']; [|rewrite Hn, Ht in H'| |rewrite Hn, Ht in H'].
  - right. split_and!; [done|done|lia|lia].
  - by left.
  - right. split_and!; [done|done|lia|]. apply straight_le in Hs. lia.
  - destruct (IH H') as [|(? & ? & ?)]; [by left|right]. split_and!; [done|done|lia|lia].
Qed.

(** ** The blocks found so far *)

(** Instructions are aligned, and so are the targets of an aligned one; and a
    terminator has one target at most that is not beyond it. *)
Record flows_ok : Prop := {
  fl_aligned : forall a flow t, (w | a) -> flows a flow -> t ∈ successorsOf (a + w) flow -> visited t = true -> (w | t);
  fl_backward : forall a flow t1 t2, (w | a) -> flows a flow -> t1 ∈ successorsOf (a + w) flow -> t2 ∈ successorsOf (a + w) flow ->
    visited t1 = true -> visited t2 = true -> t1 <= a -> t2 <= a -> t1 = t2 }.

(** A block found is one that a path finds, all of whose targets are known;
    a leader inside of it is a target of its own that waits to be scanned. *)
Definition part_ok (d : Discovery) (work : list Z) (start e : Z) : Prop :=
  exists ls stop, ls ⊆ leaders d /\ path ls start start e stop /\
    (forall t, t ∈ stopTargets stop e -> t <> 0 -> if readable t then t ∈ leaders d else t ∈ externals d) /\
    forall t, t ∈ leaders d -> start < t < e -> extents d !! t = None /\ t ∈ work /\ t ∈ stopTargets stop e.

Record parts_ok (d : Discovery) (work : list Z) : Prop := {
  pa_aligned : forall l, l ∈ leaders d -> (w | l);
  pa_parts : forall start e, extents d !! start = Some e -> start ∉ existing d -> part_ok d work start e }.

Lemma straight_last a e flow : straight a e flow -> exists b, a <= b /\ e = b + w /\ (w | b - a) /\ flows b flow.
Proof using Hmem.
  induction 1 as [a flow (Hf & _)|a e flow (flow' & Hf & _) _ (b & ? & -> & Hd & Hb)];
    destruct (readable_next program reader mem Hmem a (flows_readable _ _ Hf)) as [E ?]; rewrite E in *.
  - exists a. split_and!; [lia|done|rewrite Z.sub_diag; apply Z.divide_0_r|done].
  - exists b. split_and!; [lia|done| |done]. replace (b - a) with ((b - (a + w)) + w) by lia.
    apply Z.divide_add_r; [done|apply Z.divide_refl].
Qed.

Context (Hflows : flows_ok).

(** The terminator of an aligned block is aligned, and ends at the block's end. *)
Lemma path_terminator ls start e t stop :
  (w | start) -> path ls start start e stop -> t ∈ stopTargets stop e ->
  exists flow b, stop = Terminated flow /\ straight start e flow /\ start <= b /\ e = b + w /\ (w | b) /\ flows b flow /\ t ∈ successorsOf (b + w) flow.
Proof using Hmem.
  intros Ha Hp Ht. destruct stop as [| | | |flow]; try by apply elem_of_nil in Ht.
  apply path_straight in Hp. destruct (straight_last _ _ _ Hp) as (b & ? & -> & Hd & Hf). exists flow, b.
  split_and!; try done. replace b with ((b - start) + start) by lia. by apply Z.divide_add_r.
Qed.

Lemma visited_intro a t : readable a = true -> a < t -> readable t = true -> visited t = true.
Proof using Hmem.
  intros Ha Hlt Ht. pose proof (me_bounds _ _ _ Hmem a (me_finite _ _ _ Hmem a Ha)). unfold LiftScan.visited.
  rewrite Ht. by destruct (Z.eqb_spec t 0); [lia|].
Qed.

(** A block being recorded stops at the leaders that were known; those inside
    are its own new targets. *)
Lemma part_new start e stop d work d0 d1 work' :
  scan_ok d (start :: work) -> parts_ok d (start :: work) -> path (leaders d) start start e stop ->
  sameCore d d0 -> batch program reader (stopTargets stop e) d0 work d1 work' ->
  part_ok (recordExtent start e d1) work' start e.
Proof using Hmem Hflows.
  intros Hok [Hal _] Hp (L0 & X0 & E0 & _) Hb. exists (leaders d), stop. split_and!; [|done| |].
  - intros a Ha. apply (ba_leaders _ _ _ _ _ _ _ Hb). left. by rewrite L0.
  - intros t Ht Hne. cbn. destruct (readable t) eqn:Er.
    + apply (ba_leaders _ _ _ _ _ _ _ Hb). right. split; [done|]. unfold LiftScan.visited. rewrite Er. by destruct (Z.eqb_spec t 0).
    + apply (ba_externals _ _ _ _ _ _ _ Hb). by right.
  - intros t Ht Hlt. cbn in Ht |- *.
    assert (t ∉ leaders d) as Hnew.
    { intros Hin. pose proof (Hal start (proj1 (so_work _ _ _ _ Hok start ltac:(by left)))).
      pose proof (path_inside _ _ _ _ _ t Hp ltac:(lia) (Z.divide_sub_r _ _ _ (Hal t Hin) H) Hin). lia. }
    pose proof (ba_new _ _ _ _ _ _ _ Hb t Ht ltac:(by rewrite L0)) as Hwork. split_and!; [|done|].
    + rewrite lookup_insert_ne by lia. destruct (extents d1 !! t) as [v|] eqn:Ev; [|done]. exfalso. apply Hnew.
      apply (so_extents _ _ _ _ Hok). exists v. rewrite <- X0. by eapply lookup_weaken, (ba_extents _ _ _ _ _ _ _ Hb).
    + apply (ba_leaders _ _ _ _ _ _ _ Hb) in Ht as [Ht|[Ht _]]; [congruence|done].
Qed.

(** A block inside of which no target of the scanned block lies stays as it is. *)
Lemma part_kept start e stop d work d0 d1 work' s v :
  scan_ok d (start :: work) -> parts_ok d (start :: work) -> extents d !! start = None ->
  path (leaders d) start start e stop -> sameCore d d0 -> batch program reader (stopTargets stop e) d0 work d1 work' ->
  s <> start -> extents d1 !! s = Some v -> s ∉ existing d -> part_ok (recordExtent start e d1) work' s v.
Proof using Hmem Hflows.
  intros Hok Hparts Hnone Hp (L0 & X0 & E0 & Hext) Hb Hne Hs Hex.
  assert (extents d !! s = Some v) as Hsd by (rewrite <- X0; by eapply lookup_weaken, (ba_extents _ _ _ _ _ _ _ Hb)).
  destruct (pa_parts _ _ Hparts s v Hsd Hex) as (ls & stop' & Hls & Hps & Hts & Hin).
  destruct (so_extents _ _ _ _ Hok s ltac:(by eexists)) as [Hsl [|Hsr]]; [done|].
  pose proof (pa_aligned _ _ Hparts s Hsl) as Hsa.
  assert (forall t, s < t < v -> t ∈ stopTargets stop e -> visited t = false) as Hno.
  { intros t Hlt Ht. destruct (visited t) eqn:Hv; [|done].
    destruct (ba_kept _ _ _ _ _ _ _ Hb t s v Ht Hv Hs Hlt ltac:(by rewrite E0)) as (k & Hk & u & Hu). rewrite X0 in Hu.
    destruct (Hin k (proj1 (so_extents _ _ _ _ Hok k ltac:(by eexists))) ltac:(lia)). congruence. }
  assert (start ∈ leaders d -> s < start < v -> False) as Hself.
  { intros Hl Hlt. destruct (Hin start Hl Hlt) as (_ & _ & Ht).
    destruct (path_terminator _ _ _ _ _ Hsa Hps Ht) as (flow & b & -> & Hst & ? & -> & Hba & Hf & Ht').
    destruct (so_work _ _ _ _ Hok start ltac:(by left)) as [_ Hr]. pose proof (visited_intro s start Hsr ltac:(lia) Hr) as Hv.
    pose proof (Z.divide_sub_r _ _ _ (pa_aligned _ _ Hparts start Hl) Hsa) as Hg.
    destruct (path_agrees _ _ _ _ _ _ _ (straight_from _ _ _ start Hst ltac:(lia) Hg) Hp) as [[-> ->]|(Hel & Hene & Hlt2)].
    - specialize (Hno start Hlt Ht). congruence.
    - destruct (Hin e Hel ltac:(lia)) as (_ & Hew & Het). destruct (so_work _ _ _ _ Hok e Hew) as [_ Her].
      pose proof (pa_aligned _ _ Hparts e Hel) as Hea. pose proof (pa_aligned _ _ Hparts start Hl) as Hsta. pose proof (me_width _ _ _ Hmem).
      assert (forall x, (w | x) -> x < b + w -> x <= b) as Hle.
      { intros x [q ->] Hx. destruct Hba as [q' ->]. assert (q < q' + 1) by (apply (Z.mul_lt_mono_pos_r w); lia). nia. }
      apply Hene. eapply (fl_backward Hflows b flow); try done; [by apply (visited_intro s e Hsr); [lia|]|apply Hle; [done|lia]..]. }
  exists ls, stop'. split_and!; [intros a Ha; apply (ba_leaders _ _ _ _ _ _ _ Hb); left; rewrite L0; auto|done| |].
  - intros t Ht H0. specialize (Hts t Ht H0). cbn. destruct (readable t).
    + apply (ba_leaders _ _ _ _ _ _ _ Hb). left. by rewrite L0.
    + apply (ba_externals _ _ _ _ _ _ _ Hb). left. by apply Hext.
  - intros t Ht Hlt. cbn in Ht |- *. apply (ba_leaders _ _ _ _ _ _ _ Hb) in Ht as [Ht|[Ht Hv]]; [|specialize (Hno t Hlt Ht); congruence].
    rewrite L0 in Ht. destruct (Hin t Ht Hlt) as (Hn & Hw & Htt). destruct (decide (t = start)) as [->|Hts']; [by exfalso; apply Hself|].
    split_and!; [|destruct (ba_work _ _ _ _ _ _ _ Hb) as (more & -> & _); apply elem_of_app; left; by apply elem_of_cons in Hw as [|]|done].
    rewrite lookup_insert_ne by done. destruct (extents d1 !! t) as [u|] eqn:Eu; [|done].
    apply (lookup_weaken _ (extents d0)) in Eu; [congruence|apply (ba_extents _ _ _ _ _ _ _ Hb)].
Qed.

Lemma scanBlock_parts n start d work d' work' :
  scan_ok d (start :: work) -> parts_ok d (start :: work) -> scanBlock n start d work = Done (d', work') -> parts_ok d' work'.
Proof using Hmem Hflows.
  intros Hok Hparts H. unfold Lift.scanBlock in H. case_bool_decide as Hs.
  - injection H as <- <-. destruct Hparts as [Hal Hpa]. split; [done|]. intros s e Hse Hex.
    destruct (Hpa s e Hse Hex) as (ls & stop & Hls & Hp & Ht & Hin). exists ls, stop. split_and!; [done..|].
    intros t Htl Hlt. destruct (Hin t Htl Hlt) as (Hn & Hw & ?). split_and!; [done| |done].
    apply elem_of_cons in Hw as [->|]; [|done]. rewrite Hn in Hs. by destruct Hs.
  - assert (extents d !! start = None) as Hnone by (destruct (extents d !! start); [by exfalso; apply Hs; eauto|done]).
    destruct (walk n (leaders d) start start) as [[e stop]| |] eqn:Ew; [|done..]. injection H as H. apply walk_path in Ew.
    apply finishBlock_spec in H as (d0 & d1 & Hcore & Hb & ->). pose proof Hcore as (L0 & X0 & E0 & _). split.
    + intros l Hl. cbn in Hl. apply (ba_leaders _ _ _ _ _ _ _ Hb) in Hl as [Hl|[Hl Hv]]; [apply (pa_aligned _ _ Hparts); by rewrite <- L0|].
      pose proof (pa_aligned _ _ Hparts start (proj1 (so_work _ _ _ _ Hok start ltac:(by left)))) as Ha.
      destruct (path_terminator _ _ _ _ _ Ha Ew Hl) as (flow & b & _ & _ & _ & _ & Hba & Hf & Ht). by eapply (fl_aligned Hflows).
    + intros s v Hsv Hex. cbn in Hsv, Hex. rewrite (ba_existing _ _ _ _ _ _ _ Hb), E0 in Hex.
      apply lookup_insert_Some in Hsv as [[-> ->]|[Hne Hsv]]; [by eapply part_new|by eapply part_kept].
Qed.

(** What the scan leaves of what it began with. *)
Definition extends (d d' : Discovery) : Prop :=
  leaders d ⊆ leaders d' /\ existing d' = existing d /\
  forall s v, s ∈ existing d -> extents d !! s = Some v -> extents d' !! s = Some v.

Lemma extends_trans d1 d2 d3 : extends d1 d2 -> extends d2 d3 -> extends d1 d3.
Proof. intros (L1 & E1 & X1) (L2 & E2 & X2). split_and!; [by etrans|congruence|]. intros s v Hs Hv. apply X2; [congruence|auto]. Qed.

Lemma scanBlock_extends n start d work d' work' : scanBlock n start d work = Done (d', work') -> extends d d'.
Proof.
  intros H. unfold Lift.scanBlock in H. case_bool_decide as Hs; [by injection H as <- <-|].
  destruct (walk n (leaders d) start start) as [[e stop]| |] eqn:Ew; [|done..]. injection H as H.
  apply finishBlock_spec in H as (d0 & d1 & (L0 & X0 & E0 & _) & Hb & ->). split_and!; cbn.
  - intros a Ha. apply (ba_leaders _ _ _ _ _ _ _ Hb). left. by rewrite L0.
  - by rewrite (ba_existing _ _ _ _ _ _ _ Hb).
  - intros s v Hs' Hv. rewrite lookup_insert_ne by (intros ->; apply Hs; by eexists).
    destruct (extents d1 !! s) as [u|] eqn:Eu.
    + apply (lookup_weaken _ (extents d0)) in Eu; [congruence|apply (ba_extents _ _ _ _ _ _ _ Hb)].
    + destruct (ba_split _ _ _ _ _ _ _ Hb s v) as (Hn & _); congruence.
Qed.

Lemma scanLoop_parts n fuel d work d' :
  scan_ok d work -> parts_ok d work -> scanLoop n fuel d work = Done d' -> scan_ok d' [] /\ parts_ok d' [] /\ extends d d'.
Proof using Hmem Hflows.
  revert d work. induction fuel as [|fuel IH]; intros d [|start work] Hok Hparts H; cbn [Lift.scanLoop] in H; try done;
    try by injection H as <-.
  destruct (scanBlock n start d work) as [[d1 work1]| |] eqn:E; [|done..].
  destruct (IH d1 work1) as (? & ? & Hx); [by eapply scanBlock_ok|by eapply scanBlock_parts|done|].
  split_and!; [done..|]. eapply extends_trans; [by eapply scanBlock_extends|done].
Qed.

(** With nothing left to scan, a block found is the one a walk against all the
    leaders finds. *)
Lemma parts_final d s e :
  scan_ok d [] -> parts_ok d [] -> extents d !! s = Some e -> s ∉ existing d ->
  exists stop, path (leaders d) s s e stop /\
    (forall t, t ∈ stopTargets stop e -> t <> 0 -> if readable t then is_Some (extents d !! t) else t ∈ externals d) /\
    forall s', is_Some (extents d !! s') -> s < s' -> e <= s'.
Proof using Hmem.
  intros Hok Hparts Hs Hex. destruct (pa_parts _ _ Hparts s e Hs Hex) as (ls & stop & Hls & Hp & Ht & Hin).
  assert (forall l, l ∈ leaders d -> s < l < e -> False) as Hno by (intros l Hl Hlt; destruct (Hin l Hl Hlt) as (_ & []%elem_of_nil & _)).
  destruct (path_mono _ _ _ _ _ _ Hp Hls) as (stop' & Hp' & Hor).
  { intros l Hl Hlt. destruct (decide (l = s)); [done|]. exfalso. apply (Hno l Hl). lia. }
  exists stop'. split_and!; [done| |].
  - intros t Htt Hne. destruct Hor as [->| ->]; [|by apply elem_of_nil in Htt]. specialize (Ht t Htt Hne).
    destruct (readable t) eqn:Er; [|done]. by destruct (so_pending _ _ _ _ Hok t Ht Er) as [|[]%elem_of_nil].
  - intros s' Hs' Hlt. destruct (decide (e <= s')); [done|]. exfalso. apply (Hno s'); [|lia].
    by apply (so_extents _ _ _ _ Hok).
Qed.
End Grid.

(** ** The memory the lifter reads *)

(** Readable memory is finite, does not reach the end of the address space and
    is made of bytes. *)
Record bytes_readable (mem : gset Z) : Prop := {
  br_finite : forall a, readable a = true -> a ∈ mem;
  br_bounds : forall a, a ∈ mem -> 0 <= a /\ a + w < 2 ^ 64;
  br_bytes : forall a word, readWord a = Some word -> bytes_ok word }.

(** Neither decoding nor probing what can be read meets something undefined. *)
Definition flows_defined : Prop := forall a word, readWord a = Some word -> flowAt a word <> Fault.

Lemma flowAt_not_stuck a word : program_ends program -> flowAt a word <> OutOfFuel.
Proof.
  intros Hp. unfold Lift.flowAt. pose proof (decode_not_stuck program word a Hp). destruct (decode program word a); [|done..].
  by apply probe_not_stuck.
Qed.

(** So it is for a program that cannot trap. *)
Lemma trap_free_flows `{SorterLaws} mem : program_ok program -> decodable program -> bytes_readable mem -> flows_defined.
Proof.
  intros Hp Hd Hm a word Hr%(br_bytes _ Hm). destruct (decode_done program word a Hp Hd Hr) as (r & Hr' & Hin).
  unfold Lift.flowAt. rewrite Hr'. by destruct (probe_done program r Hp Hin) as [? ->].
Qed.

Lemma bytes_memory_ok mem :
  program_ends program -> validWidth program = true -> bytes_readable mem -> flows_defined -> memory_ok mem.
Proof.
  intros Hp Hv [Hf Hb Hby] Hd. unfold validWidth in Hv. apply andb_true_iff in Hv as [Hw%negb_true_iff%Z.eqb_neq _]. split; [done..| |].
  - assert (0 <= w); [|lia]. unfold width. apply Z.div_pos; [|lia]. by apply po_width.
  - intros a word Hr. pose proof (flowAt_not_stuck a word Hp). specialize (Hd a word Hr). destruct (flowAt a word); [eauto|done..].
Qed.

(** What the scan comes to, given that it began where [newDiscovery] begins. *)
Lemma scan_parts mem n fuel entries f d :
  memory_ok mem -> flows_ok -> stubs_unreadable program reader f ->
  (forall b, b ∈ blocks f -> (w | blockVa b)) -> (forall entry, entry ∈ entries -> (w | entry)) ->
  scan program reader facts coverage n fuel entries (newDiscovery f) = Done d ->
  scan_ok d [] /\ parts_ok d [] /\ extends (newDiscovery f) d /\
  (forall entry, entry ∈ entries -> readable entry = true -> covered entry = true -> is_Some (extents d !! entry)).
Proof.
  intros Hmem Hflows Hst Hab Hae H. unfold scan in H.
  destruct (seedEntries _ _ _ entries (newDiscovery f) []) as [d0 work0] eqn:E.
  destruct (seedBlocks_spec (blocks f) 0 (MkDiscovery ∅ ∅ ∅ ∅ ∅ [])) as (Hl & He & Hx). fold (newDiscovery f) in Hl, He, Hx.
  cbn [leaders existing extents] in Hl, He, Hx.
  apply seedEntries_spec in E as (Hok & Ex & Ee & Hmono & Hfrom & Hent); [|by apply newDiscovery_ok].
  destruct (scanLoop_parts mem Hmem Hflows n fuel d0 work0 d) as (Hok' & Hparts & Hext); [done| |done|].
  { split.
    - intros l Hl'. destruct (Hfrom l Hl') as [Hl2|]; [|auto]. apply Hl in Hl2 as [[]%elem_of_empty|(b & Hb & <-)]. auto.
    - intros s e Hs Hn. exfalso. apply Hn. rewrite Ee. rewrite Ex in Hs.
      destruct (proj1 (Hx s) ltac:(by eexists)) as [[? ?]|(b & ? & ? & _)]; [done|]. apply He. right. by exists b. }
  destruct Hext as (L & Ee' & X). split_and!; [done|done| |].
  - split_and!; [by etrans|congruence|]. intros s v Hs Hv. apply X; congruence.
  - intros entry Hin Hr Hc. destruct (Hent entry Hin Hr Hc) as [Hd|[v Hv]].
    + by destruct (so_pending _ _ _ _ Hok' entry (L _ Hd) Hr) as [|[]%elem_of_nil].
    + exists v. apply X; [|congruence]. rewrite Ee. destruct (proj1 (Hx entry) ltac:(by eexists)) as [[? ?]|(b & ? & ? & _)]; [done|].
      apply He. right. by exists b.
Qed.

End Blocks.
