(* ===== verification/LiftEnds.v ===== *)
(** * The lifter comes back

    Nothing the lifter does runs on for ever: the scan by [LiftScan], the engine
    by [EngineTotal], and the loops over instructions because readable memory
    does not wrap around. *)
From S2P Require Import Prelude Bits Types Exprs Registers Func Cfg PltStub Program Sorting Encoding EncodingProps Engine DecodeProps EngineTotal Lift LiftScan LiftProps.
Local Open Scope Z_scope.

(** ** Computations that end *)

Definition ends {A} (m : L A) : Prop := forall f, m f <> OutOfFuel.

Lemma ends_ret {A} (x : A) : ends (mret x).
Proof. by intros f. Qed.
Lemma ends_bind {A B} (m : L A) (k : A -> L B) : ends m -> (forall x, ends (k x)) -> ends (m ≫= k).
Proof. intros Hm Hk f. unfold mbind, L_bind. specialize (Hm f). destruct (m f) as [[[e|x] f']| |]; [done|apply Hk|done..]. Qed.
Lemma ends_fail {A} e : ends (lfail e : L A).
Proof. by intros f. Qed.
Lemma ends_build {A} (m : M A) : ends (lbuild m).
Proof. intros f. unfold lbuild. by destruct (m f) as [[]|]. Qed.
Lemma ends_discard {A} (m : M A) : ends (ldiscard m).
Proof. apply ends_bind; [apply ends_build|intros _; apply ends_ret]. Qed.
Lemma ends_ask {A} (r : Run A) : r <> OutOfFuel -> ends (lask r).
Proof. intros Hr f. unfold lask. by destruct r. Qed.
Lemma ends_fault {A} : ends (fun _ => Fault : Run ((LiftError + A) * Function)).
Proof. by intros f. Qed.

Create HintDb ends.
#[export] Hint Resolve ends_ret ends_fail ends_build ends_discard ends_fault : ends.

(** Step through a computation down to the loops in it. *)
Ltac ends_step :=
  repeat match goal with
  | |- forall _, _ => intros
  | |- ends (_ ≫= _) => apply ends_bind
  | |- ends (match ?x with _ => _ end) => destruct x
  | |- ends (let _ := _ in _) => cbv zeta
  end; auto with ends.

Section Ends.
Variables (program : SpecProgram) (reader : ByteReader) (facts : LoaderNames) (coverage : option LiftCoverage).
Context (Hp : program_ends program).

Abbreviation w := (width program).
Abbreviation readWord := (readWord program reader).

Lemma elaborateInsn_ends site insn : ends (elaborateInsn program site insn).
Proof using Hp.
  intros f. unfold elaborateInsn. pose proof (elaborate_ends program insn site f Hp) as He.
  destruct (elaborate program insn site f) as [[[|] ?]| |]; done.
Qed.

Lemma elaborateAt_ends site a word : ends (elaborateAt program site a word).
Proof using Type*.
  apply ends_bind; [|intros; apply elaborateInsn_ends]. by apply ends_ask, decode_not_stuck.
Qed.

Lemma createBlocks_ends starts d : ends (createBlocks starts d).
Proof. revert d. induction starts as [|start starts IH]; intros d; cbn [createBlocks]; ends_step. Qed.

Lemma createStubs_ends stubs d : ends (createStubs stubs d).
Proof. revert d. induction stubs as [|stub stubs IH]; intros d; cbn [createStubs]; ends_step. Qed.

Lemma closeBlock_ends d id last : ends (closeBlock program d id last).
Proof. unfold closeBlock. ends_step. Qed.

Lemma narrowTerminator_ends d successors id : ends (narrowTerminator d successors id).
Proof. unfold narrowTerminator. ends_step. Qed.

Section Memory.
Context (mem : gset Z) (Hw : validWidth program = true) (Hmem : bytes_readable program reader mem) (Hdef : flows_defined program reader).

Lemma elaborateRange_ends fuel site a last : (Z.to_nat (last - a) <= fuel)%nat -> ends (elaborateRange program reader fuel site a last).
Proof using Type*.
  revert a. induction fuel as [|fuel IH]; intros a Hf; cbn [elaborateRange]; destruct (Z.ltb_spec a last); cbn [negb];
    [lia|apply ends_ret| |apply ends_ret].
  destruct (readWord a) as [word|] eqn:Er; [|apply ends_ret].
  apply ends_bind; [apply elaborateAt_ends|intros _].
  destruct (readable_next program reader mem (bytes_memory_ok program reader mem Hp Hw Hmem Hdef) a) as [-> ?]; [by eapply readWord_readable|].
  apply IH. lia.
Qed.

Lemma liftBlock_ends d start : ends (liftBlock program reader coverage d start).
Proof using Type*.
  unfold liftBlock. destruct (extents d !! start) as [last|]; [|apply ends_fault]. destruct (blocksAt d !! start); [|apply ends_fault].
  apply ends_bind; [by apply elaborateRange_ends|intros _]. apply ends_bind; [apply closeBlock_ends|intros _].
  destruct (activeCoverage coverage) as [[]|]; [apply narrowTerminator_ends|apply ends_ret].
Qed.

Lemma elaborateAll_ends d : ends (elaborateAll program reader coverage d).
Proof using Type*.
  unfold elaborateAll. apply ends_bind; [apply createBlocks_ends|intros [d1 lifted]].
  apply ends_bind; [apply createStubs_ends|intros d2]. apply ends_bind; [|intros; ends_step].
  induction lifted as [|start lifted IH]; cbn [liftAll]; [apply ends_ret|]. apply ends_bind; [apply liftBlock_ends|done].
Qed.
End Memory.

(** *** One basic block *)

Section Range.
Context (bytes : list Z) (base : Z).

Lemma findLeaders_ends count indices sets : findLeaders program bytes base count indices sets <> OutOfFuel.
Proof using Type*.
  revert sets. induction indices as [|index indices IH]; intros sets; [done|]. cbn [findLeaders].
  pose proof (flowAt_not_stuck program (vaAt program base index) (wordAt program bytes index) Hp) as Hf.
  destruct (flowAt _ _ _) as [flow| |]; [|done..]. destruct (negb _); [apply IH|]. destruct (placeTarget _ _ _ _). apply IH.
Qed.

Lemma createLeaders_ends starts at_ : ends (createLeaders starts at_).
Proof. revert at_. induction starts as [|start starts IH]; intros at_; cbn [createLeaders]; ends_step. Qed.

Lemma createExternals_ends stubs at_ : ends (createExternals stubs at_).
Proof. revert at_. induction stubs as [|stub stubs IH]; intros at_; cbn [createExternals]; ends_step. Qed.

Lemma endBlock_ends id va next : ends (endBlock program id va next).
Proof. unfold endBlock. ends_step. Qed.

Lemma elaborateIndices_ends at_ indices current : ends (elaborateIndices program bytes base at_ indices current).
Proof using Type*.
  revert current. induction indices as [|index indices IH]; intros current; cbn [elaborateIndices]; [apply ends_ret|].
  apply ends_bind; [|intros c; apply ends_bind; [apply elaborateAt_ends|intros _; apply IH]].
  ends_step. apply endBlock_ends.
Qed.

Lemma liftBasicBlock_ends : liftBasicBlock program bytes base <> OutOfFuel.
Proof using Type*.
  unfold liftBasicBlock. destruct (_ =? 0); [done|]. destruct (_ =? 0); [done|]. destruct (negb _); [done|]. generalize (newFunction (progRegisters program) base).
  change (ends (liftRange program bytes base (Z.to_nat (Z.of_nat (length bytes) / w)))). unfold liftRange.
  apply ends_bind; [apply ends_ask, findLeaders_ends|intros [ls ext]]. apply ends_bind; [apply createLeaders_ends|intros m1].
  apply ends_bind; [apply createExternals_ends|intros m2]. destruct (m2 !! base), (m2 !! rangeEnd bytes base); try apply ends_fault.
  apply ends_bind; [apply ends_build|intros _]. apply ends_bind; [apply elaborateIndices_ends|intros c].
  apply ends_bind; [apply endBlock_ends|intros _; ends_step].
Qed.
End Range.

(** C6 The lifter comes back, for a program whose code is well formed and jumps
    forward ([program_ends]) and with a valid instruction width. Lifting one range of
    bytes never runs on for ever. Where moreover readable memory is finite, made of
    bytes and clear of the end of the address space, and no readable word makes the
    engine meet something undefined ([flows_defined], as for a trap-free program),
    lifting a function from an entry does not either; and discovery from any entries
    into a function whose stubs cannot be read ends with a result, in no more steps in
    a block than there are readable addresses and a bounded number of turns of its
    worklist, although blocks are split and scanned again, and the elaboration that
    follows ends. (It may then meet what C++ leaves undefined, which is [Fault] and
    counts as an end.) *)
Theorem lift_terminates mem :
  validWidth program = true ->
  (forall bytes base, liftBasicBlock program bytes base <> OutOfFuel) /\
  (bytes_readable program reader mem -> flows_defined program reader ->
  (forall entries f, stubs_unreadable program reader f -> exists fuel d,
     scan program reader facts coverage (S (size mem)) fuel entries (newDiscovery f) = Done d /\
     liftBlocksInto program reader facts coverage (S (size mem)) fuel entries f <> OutOfFuel) /\
  (forall entry, exists fuel, liftFunction program reader facts coverage (S (size mem)) fuel entry <> OutOfFuel)).
Proof using Type*.
  intros Hw. split; [intros; by apply liftBasicBlock_ends|]. intros Hmem Hdef.
  pose proof (bytes_memory_ok program reader mem Hp Hw Hmem Hdef) as Hok.
  assert (forall entries f, stubs_unreadable program reader f -> exists fuel d,
    scan program reader facts coverage (S (size mem)) fuel entries (newDiscovery f) = Done d) as Hscan.
  { intros entries f Hf. destruct (scan_done program reader facts coverage mem Hok entries (newDiscovery f)) as (fuel & d & Hd & _); [by apply newDiscovery_ok|by exists fuel, d]. }
  split.
  - intros entries f Hf. destruct (Hscan entries f Hf) as (fuel & d & Hd). exists fuel, d. split; [done|].
    unfold liftBlocksInto. rewrite Hw, Hd. cbn [negb]. clear Hf Hd. revert f. apply ends_bind; [by apply ends_ask|intros d'].
    apply ends_bind; [by eapply elaborateAll_ends|intros []; apply ends_ret].
  - intros entry. destruct (Hscan [entry] (newFunction (progRegisters program) entry)) as (fuel & d & Hd); [by intros b ?%elem_of_nil|].
    exists fuel. unfold liftFunction. rewrite Hw, Hd. cbn [negb]. generalize (newFunction (progRegisters program) entry).
    apply ends_bind; [by apply ends_ask|intros d']. apply ends_bind; [by eapply elaborateAll_ends|intros []]. ends_step.
Qed.
End Ends.
