(* ===== verification/Sample.v ===== *)
(** * A small function for the theorems' witnesses

    One block of AArch64-like code over [Registers.sampleRegisters]: it reads
    [x0] and the flags, and its pool holds arithmetic, comparisons, casts, a
    flag bundle with conditions on it, and constants that fold. *)
From S2P Require Import Prelude Bits U128 Types Exprs Registers Func.
From S2P Require Import Eval VerifyExpr ValueTypes EvalProps Ceval.
From S2P Require Import Rewrite Fold FoldProps FoldSound Cfg Verify VerifyProps EvalErrors.
From S2P Require Import Memory Interp RegisterViews InterpSound FoldRuns.

(** Run a builder and keep the function, or keep the old one if it aborts. *)
Definition after {A} (m : M A) (f : Function) : Function :=
  match m f with Some (_, f') => f' | None => f end.

Definition sampleBuilder : M unit :=
  block ← createBlock 4096;
  x ← appendReadReg block 4096 0;                       (* value 0 : i64 *)
  fl ← appendReadReg block 4100 4;                      (* value 1 : flags *)
  vx ← valueRef x;                                      (* expr 0 *)
  vf ← valueRef fl;                                     (* expr 1 *)
  k3 ← constant (integer 64) 3;                         (* expr 2 *)
  k4 ← constant (integer 64) 4;                         (* expr 3 *)
  k7 ← binary ExprOp.Add k3 k4;                         (* expr 4 *)
  sum ← binary ExprOp.Add vx k7;                        (* expr 5 *)
  flags ← flagDef FlagOp.Sub 64 [vx; k7];               (* expr 6 *)
  hi ← flagCondition flags ConditionCode.UnsignedGreater;  (* expr 7 *)
  ge ← flagCondition vf ConditionCode.SignedGreaterEqual;  (* expr 8 *)
  w ← cast ExprOp.Trunc (integer 32) sum;               (* expr 9 *)
  sx ← cast ExprOp.SExt (integer 64) w;                 (* expr 10 *)
  sel ← select hi sx k7;                                (* expr 11 *)
  appendWriteReg block 4104 0 sel;;
  appendReturn block 4108;;
  mret tt.

Definition sampleFunction : Function := after sampleBuilder (newFunction sampleRegisters 4096).

(** [x0] holds the argument, the flags are N and C. *)
Definition sampleEnv (x0 : Z) : Env :=
  MkEnv (fun id => match id with 0%N => Ok (MkU128 (u64 x0) 0) | 1%N => Ok (MkU128 10 0)
                                | _ => err DiagCode.VerifyFailure end)
        (fun _ => err DiagCode.Internal).

Lemma sample_pool_ok : pool_ok sampleFunction.
Proof. apply pool_ok_check; vm_compute; reflexivity. Qed.

Lemma sample_floats : floats_sized sampleFunction.
Proof. apply floats_sized_check. vm_compute. reflexivity. Qed.

Lemma sample_env_ok x0 : env_ok sampleFunction (sampleEnv x0).
Proof.
  split; [|discriminate]. intros id v i H Hi. assert (fits 64 (u64 x0)) as Hx by apply fits_u64.
  assert (valueType <$> values (tables sampleFunction) = [integer 64; flagsType]) as Ht
    by (vm_compute; reflexivity).
  apply vget_Some in Hi as [Hi _]. apply (f_equal (fmap valueType)) in Hi.
  rewrite <-list_lookup_fmap, Ht in Hi. cbn [fmap option_fmap option_map] in Hi.
  remember (valueType i) as t eqn:Heq. clear Ht Heq i. rename Hi into Ht. destruct id as [|[p|p|]]; [|discriminate H|discriminate H|];
    apply Ok_inj in H as <-; injection Ht as <-.
  - apply val_ok_canon; [reflexivity|]. apply canon_word64; [change (bits (integer 64)) with 64; lia|exact Hx].
  - split; [reflexivity|]. unfold fits. cbn. lia.
Qed.

Example sample_evaluates : eval sampleFunction (sampleEnv 100) 11 = Ok (MkU128 107 0).
Proof. vm_compute. reflexivity. Qed.

Lemma sample_value : Evaluates sampleFunction (sampleEnv 100) 11 (MkU128 107 0).
Proof. apply (evalRec_sound _ _ sample_pool_ok 513 11 0). vm_compute. reflexivity. Qed.

Lemma sample_strict id v :
  Evaluates sampleFunction (sampleEnv 100) id v -> Strict sampleFunction (sampleEnv 100) id v.
Proof. apply Evaluates_Strict. vm_compute. reflexivity. Qed.

(** A computation that succeeds, without its result spelled out. *)
Definition succeeds {A} (x : option A) : bool := match x with Some _ => true | None => false end.

Lemma succeeds_Some {A} (x : option A) : succeeds x = true -> exists a, x = Some a.
Proof. destruct x as [a|]; [by exists a|done]. Qed.

(** ** Witnesses *)

Definition freshExpr : Expr := MkExpr ExprOp.Add (integer 64) [0%N; 3%N] 0.

Lemma intern_fresh : exists r, intern freshExpr sampleFunction = Some r.
Proof. apply succeeds_Some. vm_compute. reflexivity. Qed.

Lemma hash_consing_witness :
  pool_wf (pool sampleFunction) /\
  exists r, intern freshExpr sampleFunction = Some r /\ exprAt r.2 r.1 = Some freshExpr.
Proof.
  split; [exact (pool_ok_wf _ sample_pool_ok)|].
  destruct intern_fresh as [[id f'] H]. exists (id, f'). split; [exact H|].
  exact (proj1 (proj2 (hash_consing _ _ _ _ (pool_ok_wf _ sample_pool_ok) H))).
Defined.

Definition freshUndef : Expr := MkExpr ExprOp.Undef (integer 8) [] 0.

Lemma intern_total_witness :
  exists id f', intern freshUndef sampleFunction = Some (id, f') /\
    pool_ext sampleFunction f' /\ pool_ok f' /\ exprAt f' id = Some freshUndef.
Proof.
  apply (intern_total sampleFunction freshUndef);
    [exact sample_pool_ok| |vm_compute; reflexivity].
  split; [split; apply Nat.leb_le; reflexivity|]. split; [reflexivity|].
  exists []. split; [reflexivity|]. split; reflexivity.
Defined.

Lemma sample_expr : exists e, exprAt sampleFunction 11 = Some e.
Proof. apply succeeds_Some. vm_compute. reflexivity. Qed.

Lemma evaluation_type_soundness_witness :
  exists e, exprAt sampleFunction 11 = Some e /\ val_ok (type e) (MkU128 107 0).
Proof.
  destruct sample_expr as [e H]. exists e. split; [exact H|].
  exact (evaluation_type_soundness sampleFunction (sampleEnv 100) 11 (MkU128 107 0) e
           sample_pool_ok sample_floats (sample_env_ok 100) sample_value H).
Defined.

(** A 16-bit float passes the verifier, and the interpreter computes it in the
    64-bit format: [1] converted to it is the bits of the [double] 1.0, most of
    them above the width. *)
Definition halfFunction : Function :=
  after (one ← constant (integer 64) 1; cast ExprOp.IntToFpU (floating 16) one) (newFunction sampleRegisters 4096).

Theorem half_floats_exceed_width :
  pool_ok halfFunction /\ typeAt halfFunction 1 = Some (floating 16) /\
  (forall env, eval halfFunction env 1 = Ok (MkU128 0x3FF0000000000000 0)) /\
  ~ val_ok (floating 16) (MkU128 0x3FF0000000000000 0).
Proof.
  split_and!; [apply pool_ok_check; vm_compute; reflexivity|vm_compute; reflexivity|intros env; vm_compute; reflexivity|].
  intros [_ [_ Hw]]. revert Hw. vm_compute. discriminate.
Qed.

(** Two expressions the verifier accepts whose evaluation is undefined:
    [INT64_MIN / -1], which negates the dividend, and the saturating conversion
    of 2^64 to a signed 64-bit integer, where [upper - 1] rounds back to [upper]. *)
Definition undefinedFunction : Function :=
  after (least ← constant (integer 64) (2 ^ 63); minusOne ← constant (integer 64) (2 ^ 64 - 1);
         binary ExprOp.DivS least minusOne;;
         large ← cast ExprOp.IntToFpU (floating 64) minusOne; cast ExprOp.FpToIntS (integer 64) large)
    (newFunction sampleRegisters 4096).

Theorem verified_nodes_undefined :
  pool_ok undefinedFunction /\ floats_sized undefinedFunction /\
  (forall env, eval undefinedFunction env 2 = Undefined /\ eval undefinedFunction env 4 = Undefined).
Proof.
  split_and!; [apply pool_ok_check; vm_compute; reflexivity|apply floats_sized_check; vm_compute; reflexivity|].
  intros env. split; vm_compute; reflexivity.
Qed.

Lemma eval_correct_witness :
  pool_ok sampleFunction /\ Evaluates sampleFunction (sampleEnv 100) 11 (MkU128 107 0).
Proof.
  split; [exact sample_pool_ok|].
  apply (proj1 (eval_correct sampleFunction (sampleEnv 100) 11 (MkU128 107 0) sample_pool_ok)).
  vm_compute. reflexivity.
Defined.

(** Expression 4 is [3 + 4]. *)
Lemma ceval_agrees_witness :
  Strict sampleFunction (sampleEnv 100) 4 (MkU128 7 0) /\
  tryEvalConst sampleFunction 4 = Ok (MkU128 7 0) /\ MkU128 7 0 = MkU128 7 0.
Proof.
  assert (Strict sampleFunction (sampleEnv 100) 4 (MkU128 7 0)) as Hs.
  { apply sample_strict, (evalRec_sound _ _ sample_pool_ok 513 4 0). vm_compute. reflexivity. }
  assert (tryEvalConst sampleFunction 4 = Ok (MkU128 7 0)) as Hc by (vm_compute; reflexivity).
  split; [exact Hs|]. split; [exact Hc|].
  exact (ceval_agrees_with_interpreter sampleFunction (sampleEnv 100) 4 _ _ sample_pool_ok
           (sample_env_ok 100) Hs Hc).
Defined.

(** Folding the sample's operands. *)
Lemma sample_operands : operandsExist sampleFunction.
Proof. apply operandsExist_check. vm_compute. reflexivity. Qed.

Lemma sample_foldable : foldableNodes sampleFunction.
Proof. apply foldableNodes_check. vm_compute. reflexivity. Qed.

Lemma sample_flagNodes logical : logical = false \/ logical = true -> flagNodesOk logical sampleFunction.
Proof. intros [-> | ->]; apply flagNodesOk_check; vm_compute; reflexivity. Qed.

(** A fold that changed something, and left a small function. *)
Definition smallAfter (f : Function) : bool := (length (exprs (pool f)) <=? 257)%nat.
Definition foldedSample (r : option (bool * Function)) : bool :=
  match r with
  | Some (b, f) => b && (Z.of_nat (length (operandPool (tables f))) <? 2 ^ 32) && smallAfter f
  | None => false
  end.

Lemma foldedSample_Some r :
  foldedSample r = true -> exists b f, r = Some (b, f) /\ addressable f /\ smallAfter f = true.
Proof.
  destruct r as [[b f]|]; [|discriminate]. cbn. rewrite !andb_true_iff. intros [[_ H] Hs]. exists b, f.
  split; [reflexivity|]. split; [unfold addressable; lia|exact Hs].
Qed.

Lemma sample_foldConstants :
  exists b f', foldConstants sampleFunction = Some (b, f') /\ addressable f' /\ smallAfter f' = true.
Proof. apply foldedSample_Some. vm_compute. reflexivity. Qed.

Lemma sample_foldFlags :
  exists b f', foldFlagConditionsDirect sampleFunction = Some (b, f') /\ addressable f' /\ smallAfter f' = true.
Proof. apply foldedSample_Some. vm_compute. reflexivity. Qed.

Lemma sample_has_11 : hasExpr sampleFunction 11 = true.
Proof. vm_compute. reflexivity. Qed.

Lemma sample_room : (N.of_nat (exprCount sampleFunction + 7 * depthOf 11) <= kInvalidIndex)%N.
Proof. apply N.leb_le. vm_compute. reflexivity. Qed.

(** [tst 1, 1] and the condition "unsigned lower or same" on it. *)
Definition logicalFunction : Function :=
  after (one ← constant (integer 64) 1; tst ← flagDef FlagOp.Logical 64 [one];
         flagCondition tst ConditionCode.UnsignedLessEqual;; mret tt) (newFunction sampleRegisters 4096).

Lemma logical_room : (N.of_nat (exprCount logicalFunction + 7 * depthOf 2) <= kInvalidIndex)%N.
Proof. apply N.leb_le. vm_compute. reflexivity. Qed.

Lemma logical_pool_ok : pool_ok logicalFunction.
Proof. apply pool_ok_check; vm_compute; reflexivity. Qed.

Lemma folds_return_witness :
  (exists r f', foldConstantsExpr 11 sampleFunction = Some (r, f')) /\
  (exists r f', foldFlagConditionsExpr 2 logicalFunction = Some (r, f')).
Proof.
  split.
  - destruct (proj1 (folds_return sampleFunction 11 sample_pool_ok sample_has_11 sample_room) sample_foldable)
      as (r & f' & H & _). exists r, f'. exact H.
  - destruct (folds_return logicalFunction 2 logical_pool_ok) as [_ H]; [vm_compute; reflexivity|exact logical_room|].
    destruct H as (r & f' & H & _); [apply flagsSized_check; vm_compute; reflexivity|]. exists r, f'. exact H.
Defined.

(** ** A function that runs

    Two blocks: the first increments the word [x0] points at, sets [x0] to it
    and branches; the second returns. *)
Definition incrementBuilder : M unit :=
  b0 ← createBlock 4096; b1 ← createBlock 4128;
  x ← appendReadReg b0 4096 0;                          (* value 0 : i64 *)
  vx ← valueRef x;                                      (* expr 0 *)
  w ← appendLoad b0 4100 (integer 64) vx;               (* value 1 : i64 *)
  vw ← valueRef w;                                      (* expr 1 *)
  k1 ← constant (integer 64) 1;
  sum ← binary ExprOp.Add vw k1;
  appendStore b0 4104 (integer 64) vx sum;;
  appendWriteReg b0 4108 0 sum;;
  c ← binary ExprOp.CmpEq sum k1;
  appendCondBranch b0 4112 c b0 b1;;
  appendReturn b1 4128;;
  mret tt.

Definition incrementUnlinked : Function := after incrementBuilder (newFunction sampleRegisters 4096).
Definition incrementFunction : Function := default incrementUnlinked (rebuildEdges incrementUnlinked).

(** [x0] points into the sample memory; the word there is 7 at its third byte. *)
Definition incrementMachine : Machine ExecMemory :=
  MkMachine (MkU128 8190 0 :: repeat zero128 4) [] [] sampleMemory.

Definition noHooks : Hooks unit := MkHooks None None None.

Definition outcomeIs (r : option (ExecOutcome * Machine ExecMemory * unit)) (o : ExecOutcome) (x0 : Z) : bool :=
  match r with
  | Some (o', m, _) => bool_decide (stop o' = stop o) && (outcomeTarget o' =? outcomeTarget o) &&
                       (fallthrough o' =? fallthrough o) && (lo (default zero128 (cells m !! 0%nat)) =? x0)
  | None => false
  end.

Example increment_runs :
  outcomeIs (runBlock incrementFunction noHooks 0 incrementMachine tt)
    (MkOutcome ExecStop.CondBranch 4112 4096 4128 false NoDetail) (7 * 2 ^ 16 + 1) = true.
Proof. vm_compute. reflexivity. Qed.

Lemma increment_pool_ok : pool_ok incrementFunction.
Proof. apply pool_ok_check; vm_compute; reflexivity. Qed.

Lemma increment_floats : floats_sized incrementFunction.
Proof. apply floats_sized_check. vm_compute. reflexivity. Qed.

Lemma increment_defined : definedNodes incrementFunction.
Proof. apply definedNodes_check. vm_compute. reflexivity. Qed.

Lemma increment_registers : registers incrementFunction = sampleRegisters.
Proof. vm_compute. reflexivity. Qed.

Lemma increment_file : file_ok (registers incrementFunction).
Proof. rewrite increment_registers. exact file_ok_sample. Qed.

Lemma values_valid_check f : forallb (fun i => valid (valueType i)) (values (tables f)) = true ->
  forall v i, valueAt f v = Some i -> valid (valueType i) = true.
Proof. intros H v i [Hi _]%vget_Some. exact (forallb_elem _ _ i H (list_elem_of_lookup_2 _ _ _ Hi)). Qed.

Lemma increment_values v i : valueAt incrementFunction v = Some i -> valid (valueType i) = true.
Proof. apply values_valid_check. vm_compute. reflexivity. Qed.

Lemma sample_enterable f : registers f = sampleRegisters -> enterable f incrementMachine.
Proof.
  intros Hr. split; [|reflexivity|exact sampleMemory_ok]. rewrite Hr. split; [vm_compute; reflexivity|].
  intros reg i v Hi Hv. pose proof Hv as Hlt%lookup_lt_Some. cbn in Hlt.
  destruct (N.to_nat reg) as [|[|[|[|[|n]]]]] eqn:Hn; [..|lia];
    apply vget_Some in Hi as [Hi _]; rewrite Hn in Hi; vm_compute in Hi, Hv;
    injection Hi as <-; injection Hv as <-; apply valOk_spec; vm_compute; reflexivity.
Qed.

Lemma increment_block : exists blk, blockAtId incrementFunction 0 = Some blk.
Proof. apply succeeds_Some. vm_compute. reflexivity. Qed.

Lemma verified_block_runs_witness :
  exists r m' st', runBlock incrementFunction noHooks 0 incrementMachine tt = Some (r, m', st') /\
    machine_ok incrementFunction m'.
Proof.
  destruct increment_block as [blk Hblk].
  destruct (verified_block_runs incrementFunction increment_pool_ok increment_floats increment_defined
    increment_file noHooks (fun hook H => match H with eq_refl => I end) increment_values Maturity.Cfg 0 blk
    incrementMachine tt) as (r & m' & st' & H1 & H2 & _);
    [vm_compute; reflexivity|reflexivity|exact Hblk|exact (sample_enterable _ increment_registers)|].
  exists r, m', st'. split; [exact H1|exact H2].
Defined.

(** ** The folds on a run of the sample *)

Lemma noHooks_typed : typed_hooks noHooks.
Proof. intros hook H. discriminate H. Qed.

Lemma noHooks_blind : blind_hooks noHooks.
Proof. intros u u' _. split; intros h H; discriminate H. Qed.

Lemma sample_registers : registers sampleFunction = sampleRegisters.
Proof. vm_compute. reflexivity. Qed.

Lemma sample_executable : executable Maturity.Cfg sampleFunction.
Proof.
  split; [vm_compute; reflexivity|reflexivity|exact sample_pool_ok|vm_compute; reflexivity| | | |exact sample_operands].
  - apply definedNodes_check. vm_compute. reflexivity.
  - rewrite sample_registers. exact file_ok_sample.
  - apply values_valid_check. vm_compute. reflexivity.
Qed.

Definition runsQuietly (r : option (ExecOutcome * Machine ExecMemory * unit)) : bool :=
  match r with Some (o, _, _) => bool_decide (stop o = ExecStop.Return) | None => false end.

Lemma runsQuietly_Some r : runsQuietly r = true ->
  exists o m st, r = Some (o, m, st) /\ stop o <> ExecStop.Error.
Proof.
  destruct r as [[[o m] st]|]; [|discriminate]. intros H%bool_decide_eq_true. exists o, m, st.
  split; [reflexivity|]. intros He. rewrite He in H. discriminate H.
Qed.

Lemma sample_runs : exists o m st, runBlock sampleFunction noHooks 0 incrementMachine tt = Some (o, m, st) /\
  stop o <> ExecStop.Error.
Proof. apply runsQuietly_Some. vm_compute. reflexivity. Qed.

Lemma foldConstants_preserves_runs_witness :
  exists b f' r m' st', foldConstants sampleFunction = Some (b, f') /\
    runBlock sampleFunction noHooks 0 incrementMachine tt = Some (r, m', st') /\
    runBlock f' noHooks 0 incrementMachine tt = Some (r, m', st').
Proof.
  destruct sample_foldConstants as (b & f' & Hfold & Ha & Hs). destruct sample_runs as (r & m' & st' & Hr & Hq).
  exists b, f', r, m', st'. split; [exact Hfold|]. split; [exact Hr|].
  assert (pool_ok f') as Hp by exact (proj1 (foldConstants_refines sampleFunction (sampleEnv 100) b f' sample_pool_ok
    (sample_env_ok 100) sample_operands Hfold Ha)).
  exact (foldConstants_preserves_runs Maturity.Cfg sampleFunction f' noHooks b 0 incrementMachine m' tt st' r
    sample_executable noHooks_typed noHooks_blind (sample_enterable _ sample_registers) Hfold Ha
    (shallow_small f' Hp Hs) Hr Hq).
Defined.

Lemma foldFlagConditions_preserves_runs_witness :
  exists b f' r m' st', foldFlagConditionsDirect sampleFunction = Some (b, f') /\
    runBlock sampleFunction noHooks 0 incrementMachine tt = Some (r, m', st') /\
    runBlock f' noHooks 0 incrementMachine tt = Some (r, m', st').
Proof.
  destruct sample_foldFlags as (b & f' & Hfold & Ha & Hs). destruct sample_runs as (r & m' & st' & Hr & Hq).
  exists b, f', r, m', st'. split; [exact Hfold|]. split; [exact Hr|].
  assert (pool_ok f') as Hp by exact (proj1 (foldFlagConditions_refines true sampleFunction (sampleEnv 100) b f'
    sample_pool_ok (sample_env_ok 100) (sample_flagNodes true (or_intror eq_refl)) sample_operands Hfold Ha)).
  exact (foldFlagConditions_preserves_runs Maturity.Cfg sampleFunction f' noHooks b 0 incrementMachine m' tt st' r true
    sample_executable (sample_flagNodes true (or_intror eq_refl)) noHooks_typed noHooks_blind
    (sample_enterable _ sample_registers) Hfold Ha (shallow_small f' Hp Hs) Hr Hq).
Defined.

(** Expression 11 reads [x0] only. *)
Lemma collectValueUses_exact_witness :
  exists uses, collectValueUses sampleFunction 11 = Some uses /\ 0%N ∈ uses /\ readsValue sampleFunction 11 0.
Proof.
  destruct (collectValueUses_exact sampleFunction 11 sample_pool_ok sample_has_11) as (uses & Hu & Hiff).
  exists uses. split; [exact Hu|].
  assert (match collectValueUses sampleFunction 11 with Some us => bool_decide (0%N ∈ us) | None => false end = true)
    as Hc by (vm_compute; reflexivity).
  rewrite Hu in Hc. apply bool_decide_eq_true in Hc. split; [exact Hc|]. apply Hiff. exact Hc.
Defined.
