(* ===== verification/LocalSample.v ===== *)
(** * The block-local transforms on samples

    A block [dceBlock] cleans as promised, and one where it loses a write; a block
    that reads and writes registers through views, before and after copy
    propagation, and one where a view of a view is misread; and one that loads the same word again and again. *)
From S2P Require Import Prelude Bits U128 Types Exprs Registers Func Cfg Eval VerifyExpr Verify ValueTypes EvalProps.
From S2P Require Import VerifyProps EvalErrors FoldSound Memory Interp RegisterViews InterpSound BlockSim FoldRuns.
From S2P Require Import EvalFrame LocalPasses DceSound Sample SubstSound CopySound CopyRuns LoadSound.

(** ** Dead register accesses *)

(** A read nothing uses, and two writes of [x0]: the first through [w0]. *)
Definition deadBuilder : M unit :=
  block ← createBlock 4096;
  x ← appendReadReg block 4096 0;
  y ← appendReadReg block 4100 1;
  vx ← valueRef x;
  k ← constant (integer 32) 5;
  appendWriteReg block 4104 1 k;;
  k1 ← constant (integer 64) 1;
  sum ← binary ExprOp.Add vx k1;
  appendWriteReg block 4108 0 sum;;
  appendReturn block 4112;;
  mret tt.

Definition deadFunction : Function := after deadBuilder (newFunction sampleRegisters 4096).
Definition deadBlock : Block := default (MkBlock 0 0 [] [] [] false) (blockAtId deadFunction 0).

Lemma sample_flagsRoots : flagsRoots sampleRegisters.
Proof.
  intros reg i [Hi Hv]%vget_Some Hc. destruct (N.to_nat reg) as [|[|[|[|[|n]]]]] eqn:Hn;
    vm_compute in Hi; try discriminate Hi; injection Hi as <-; try discriminate Hc.
  replace reg with 4%N by lia. vm_compute. reflexivity.
Qed.

Lemma dead_cleanable : cleanable Maturity.Cfg deadFunction deadBlock.
Proof.
  assert (pool_ok deadFunction) as Hp by (apply pool_ok_check; vm_compute; reflexivity).
  assert (registers deadFunction = sampleRegisters) as Hr by (vm_compute; reflexivity).
  split; [vm_compute; reflexivity|exact Hp| | |rewrite Hr; exact rf_wf_sample|rewrite Hr; exact sample_flagsRoots| |].
  - apply (shallow_small _ Hp). vm_compute. reflexivity.
  - apply entryFree_check. vm_compute. reflexivity.
  - apply (bool_decide_unpack _). vm_compute. exact I.
  - intros opId o Hin Ho Hc i Hi. rewrite Hr in Hi.
    assert (forallb (fun id => match opAt deadFunction id with
      | Some o => match rfAt sampleRegisters (payload o) with
                  | Some i => negb (isSubRegister i) || zeroExtendsParent i | None => true end
      | None => true end) (blockOps deadBlock) = true) as Hall by (vm_compute; reflexivity).
    apply (forallb_elem _ _ opId) in Hall; [|exact Hin]. cbv beta in Hall. rewrite Ho, Hi in Hall.
    apply orb_true_iff in Hall as [H|H]; [left; by apply negb_true_iff|by right].
Qed.

Lemma noHooks_plain : plainHooks noHooks.
Proof. split; reflexivity. Qed.

Lemma dceBlock_preserves_runs_witness :
  exists changed f' r m1 m1' st1, dceBlock 0 deadFunction = Some (changed, f') /\
    runBlock deadFunction noHooks 0 incrementMachine tt = Some (r, m1, st1) /\
    runBlock f' noHooks 0 incrementMachine tt = Some (r, m1', st1) /\
    memory m1' = memory m1 /\ cells m1' = cells m1.
Proof.
  destruct (dceBlock_preserves_runs (B:=ExecMemory) (X:=unit) Maturity.Cfg deadFunction 0 deadBlock
    (eq_refl _) dead_cleanable) as (changed & f' & Hd & Hruns).
  assert (exists o m st, runBlock deadFunction noHooks 0 incrementMachine tt = Some (o, m, st) /\
    stop o <> ExecStop.Error) as (r & m1 & [] & Hrun & Hq) by (apply runsQuietly_Some; vm_compute; reflexivity).
  destruct (Hruns noHooks incrementMachine m1 tt r tt noHooks_plain Hrun Hq) as (m1' & H1 & H2 & H3).
  exists changed, f', r, m1, m1', tt. split; [exact Hd|]. split; [exact Hrun|]. split; [exact H1|]. split; [exact H2|exact H3].
Defined.

(** Two of its five operations go. *)
Example dead_removed :
  (fun r => (r.1, blockOps <$> blockAtId r.2 0)) <$> dceBlock 0 deadFunction = Some (true, Some [0; 3; 4]%N).
Proof. vm_compute. reflexivity. Qed.

(** A write of [x0], then a write of the sixteen bits [h0] names. *)
Definition partialBuilder : M unit :=
  block ← createBlock 4096;
  k ← constant (integer 64) 5;
  appendWriteReg block 4096 0 k;;
  k7 ← constant (integer 16) 7;
  appendWriteReg block 4100 2 k7;;
  appendReturn block 4104;;
  mret tt.

Definition partialFunction : Function := after partialBuilder (newFunction sampleRegisters 4096).

(** What [x0] holds after the block. *)
Definition finalX0 (f : Function) : option Z :=
  '(_, m, _) ← runBlock f noHooks 0 incrementMachine tt; lo <$> cells m !! 0%nat.

(** [dceBlock] loses bits where a write goes through a view that keeps the
    rest of its register: the full write before it counts as overwritten and is
    removed, so the block leaves another value in [x0]. *)
Theorem dce_loses_partial_write :
  verifyOk Maturity.Cfg partialFunction = true /\ finalX0 partialFunction = Some (7 * 2 ^ 8 + 5) /\
  exists f', dceBlock 0 partialFunction = Some (true, f') /\ verifyOk Maturity.Cfg f' = true /\
    finalX0 f' <> Some (7 * 2 ^ 8 + 5).
Proof.
  split; [vm_compute; reflexivity|]. split; [vm_compute; reflexivity|].
  assert (match dceBlock 0 partialFunction with
    | Some (true, f') => verifyOk Maturity.Cfg f' && negb (bool_decide (finalX0 f' = Some (7 * 2 ^ 8 + 5)))
    | _ => false end = true) as H by (vm_compute; reflexivity).
  destruct (dceBlock 0 partialFunction) as [[[] f']|]; [|discriminate H..]. apply andb_true_iff in H as [Hv Hx].
  exists f'. split; [reflexivity|]. split; [exact Hv|]. by apply negb_true_iff, bool_decide_eq_false in Hx.
Qed.

(** [x0 = x0 + 5; w0 = w0 + xzr; xzr = x0; x0 = x0 + 5], each step through the
    registers. *)
Definition copyBuilder : M unit :=
  block ← createBlock 4096;
  x ← appendReadReg block 4096 0;
  vx ← valueRef x;
  k ← constant (integer 64) 5;
  sum ← binary ExprOp.Add vx k;
  appendWriteReg block 4096 0 sum;;
  w ← appendReadReg block 4100 1;
  vw ← valueRef w;
  z ← appendReadReg block 4100 3;
  vz ← valueRef z;
  low ← cast ExprOp.Trunc (integer 32) vz;
  sum ← binary ExprOp.Add vw low;
  appendWriteReg block 4100 1 sum;;
  y ← appendReadReg block 4104 0;
  vy ← valueRef y;
  appendWriteReg block 4104 3 vy;;
  sum ← binary ExprOp.Add vy k;
  appendWriteReg block 4108 0 sum;;
  appendReturn block 4112;;
  mret tt.

Definition copyFunction : Function := after copyBuilder (newFunction sampleRegisters 4096).
Definition copyBlock : Block := default (MkBlock 0 0 [] [] [] false) (blockAtId copyFunction 0).

Lemma copy_propagable : propagable Maturity.Cfg copyFunction copyBlock.
Proof.
  assert (pool_ok copyFunction) as Hp by (apply pool_ok_check; vm_compute; reflexivity).
  assert (registers copyFunction = sampleRegisters) as Hr by (vm_compute; reflexivity).
  split; [|apply entryFree_check; vm_compute; reflexivity|rewrite Hr; exact sample_flagsRoots
    |apply (bool_decide_unpack _); vm_compute; exact I| |vm_compute; discriminate].
  - split; [vm_compute; reflexivity|reflexivity|exact Hp|vm_compute; reflexivity| | | |apply operandsExist_check; vm_compute; reflexivity].
    + apply definedNodes_check. vm_compute. reflexivity.
    + rewrite Hr. exact file_ok_sample.
    + apply values_valid_check. vm_compute. reflexivity.
  - intros opId o Hin Ho Ht. rewrite Hr. apply straight_check.
    assert (forallb (fun id => match opAt copyFunction id with
      | Some o => negb (touchesRegister (code o)) || straightb sampleRegisters (payload o)
      | None => true end) (blockOps copyBlock) = true) as Hall by (vm_compute; reflexivity).
    apply (forallb_elem _ _ opId) in Hall; [|exact Hin]. cbv beta in Hall. rewrite Ho, Ht in Hall. exact Hall.
Qed.

(** The function after the pass: small, and verified. *)
Definition copied (r : option (bool * Function)) : bool :=
  match r with
  | Some (_, f) => (Z.of_nat (length (operandPool (tables f))) <? 2 ^ 32)%Z && (length (exprs (pool f)) <=? 257)%nat
                     && poolWfb (pool f) && checkExpressions f
  | None => false
  end.

Lemma copied_Some b f : copied (Some (b, f)) = true -> addressable f /\ shallow f.
Proof.
  cbn. rewrite !andb_true_iff. intros [[[Ha Hl] Hw] Hc]. split; [unfold addressable; lia|].
  apply shallow_small; [|exact Hl]. apply pool_ok_check; [|exact Hw|exact Hc].
  apply Nat.leb_le. apply Nat.leb_le in Hl. lia.
Qed.

Lemma copyPropagateBlock_preserves_runs_witness :
  exists changed f' r m' st', copyPropagateBlock 0 copyFunction = Some (changed, f') /\
    runBlock copyFunction noHooks 0 incrementMachine tt = Some (r, m', st') /\
    runBlock f' noHooks 0 incrementMachine tt = Some (r, m', st').
Proof.
  destruct (copyPropagateBlock_preserves_runs (B:=ExecMemory) (X:=unit) Maturity.Cfg copyFunction 0 copyBlock
    (eq_refl _) copy_propagable) as (changed & f' & Hc & Hruns).
  assert (copied (copyPropagateBlock 0 copyFunction) = true) as Hok by (vm_compute; reflexivity).
  rewrite Hc in Hok. destruct (copied_Some changed f' Hok) as [Ha Hs].
  assert (exists o m st, runBlock copyFunction noHooks 0 incrementMachine tt = Some (o, m, st) /\
    stop o <> ExecStop.Error) as (r & m' & st' & Hrun & Hq) by (apply runsQuietly_Some; vm_compute; reflexivity).
  assert (registers copyFunction = sampleRegisters) as Hr by (vm_compute; reflexivity).
  exists changed, f', r, m', st'. split; [exact Hc|]. split; [exact Hrun|].
  exact (Hruns Ha Hs noHooks incrementMachine m' tt r st' noHooks_plain noHooks_typed (sample_enterable _ Hr) Hrun Hq).
Defined.

(** The write of the zero register goes, and the last sum no longer reads
    registers written before it. *)
Example copy_removes :
  (fun r => (r.1, (fun b => length (blockOps b)) <$> blockAtId r.2 0)) <$> copyPropagateBlock 0 copyFunction = Some (true, Some 8%nat).
Proof. vm_compute. reflexivity. Qed.

(** A view at bit 8 of a view at bit 32 of [x0]. *)
Definition nestedRegisters : RegisterFile :=
  let f := emptyRegisterFile in
  let f := addOr f (addRegister f "x0" 64 RegClass.General) in
  let f := addOr f (addSubRegister f "w0" 0 32 32 false) in
  addOr f (addSubRegister f "b0" 1 8 8 false).

(** [x0 = 2^40 + 2^9; x0 = zext b0]. *)
Definition nestedBuilder : M unit :=
  block ← createBlock 4096;
  k ← constant (integer 64) (2 ^ 40 + 2 ^ 9);
  appendWriteReg block 4096 0 k;;
  b ← appendReadReg block 4100 2;
  vb ← valueRef b;
  wide ← cast ExprOp.ZExt (integer 64) vb;
  appendWriteReg block 4100 0 wide;;
  appendReturn block 4104;;
  mret tt.

Definition nestedFunction : Function := after nestedBuilder (newFunction nestedRegisters 4096).

(** Copy propagation reads a view of a view at its offset in the inner view, not
    in the register it looks up: [b0] is 1 before the pass, and 2 after it. *)
Theorem copy_misreads_nested_view :
  verifyOk Maturity.Cfg nestedFunction = true /\ finalX0 nestedFunction = Some 1%Z /\
  exists f', copyPropagateBlock 0 nestedFunction = Some (true, f') /\ verifyOk Maturity.Cfg f' = true /\ finalX0 f' = Some 2%Z.
Proof.
  split; [vm_compute; reflexivity|]. split; [vm_compute; reflexivity|].
  assert (match copyPropagateBlock 0 nestedFunction with
    | Some (true, f') => verifyOk Maturity.Cfg f' && bool_decide (finalX0 f' = Some 2%Z)
    | _ => false end = true) as H by (vm_compute; reflexivity).
  destruct (copyPropagateBlock 0 nestedFunction) as [[[] f']|]; [|discriminate H..]. apply andb_true_iff in H as [Hv Hx].
  exists f'. split; [reflexivity|]. split; [exact Hv|]. by apply bool_decide_eq_true in Hx.
Qed.

(** ** Redundant loads *)

(** [x0] points at a word: [*x0 = *x0 + *x0; x0 = *x0 + *x0], each a load. *)
Definition loadBuilder : M unit :=
  block ← createBlock 4096;
  x ← appendReadReg block 4096 0;
  vx ← valueRef x;
  u ← appendLoad block 4096 (integer 64) vx;
  vu ← valueRef u;
  v ← appendLoad block 4096 (integer 64) vx;
  vv ← valueRef v;
  sum ← binary ExprOp.Add vu vv;
  appendStore block 4096 (integer 64) vx sum;;
  u ← appendLoad block 4100 (integer 64) vx;
  vu ← valueRef u;
  v ← appendLoad block 4100 (integer 64) vx;
  vv ← valueRef v;
  sum ← binary ExprOp.Add vu vv;
  appendWriteReg block 4100 0 sum;;
  appendReturn block 4104;;
  mret tt.

Definition loadFunction : Function := after loadBuilder (newFunction sampleRegisters 4096).
Definition loadBlock : Block := default (MkBlock 0 0 [] [] [] false) (blockAtId loadFunction 0).

Lemma load_forwardable : forwardable Maturity.Cfg loadFunction loadBlock.
Proof.
  assert (pool_ok loadFunction) as Hp by (apply pool_ok_check; vm_compute; reflexivity).
  assert (registers loadFunction = sampleRegisters) as Hr by (vm_compute; reflexivity).
  split; [|apply entryFree_check; vm_compute; reflexivity|rewrite Hr; exact sample_flagsRoots
    |apply (bool_decide_unpack _); vm_compute; exact I|vm_compute; discriminate|vm_compute; discriminate].
  split; [vm_compute; reflexivity|reflexivity|exact Hp|vm_compute; reflexivity| | | |apply operandsExist_check; vm_compute; reflexivity].
  - apply definedNodes_check. vm_compute. reflexivity.
  - rewrite Hr. exact file_ok_sample.
  - apply values_valid_check. vm_compute. reflexivity.
Qed.

Lemma forwardRedundantLoads_preserves_runs_witness :
  exists changed f' r m1 m1' st1, forwardRedundantLoads 0 loadFunction = Some (changed, f') /\
    runBlock loadFunction noHooks 0 incrementMachine tt = Some (r, m1, st1) /\
    runBlock f' noHooks 0 incrementMachine tt = Some (r, m1', st1) /\
    memory m1' = memory m1 /\ cells m1' = cells m1.
Proof.
  destruct (forwardRedundantLoads_preserves_runs (B:=ExecMemory) (X:=unit) Maturity.Cfg loadFunction 0 loadBlock
    (eq_refl _) load_forwardable) as (changed & f' & Hc & Hruns).
  assert (copied (forwardRedundantLoads 0 loadFunction) = true) as Hok by (vm_compute; reflexivity).
  rewrite Hc in Hok. destruct (copied_Some changed f' Hok) as [Ha Hs].
  assert (exists o m st, runBlock loadFunction noHooks 0 incrementMachine tt = Some (o, m, st) /\
    stop o <> ExecStop.Error) as (r & m1 & [] & Hrun & Hq) by (apply runsQuietly_Some; vm_compute; reflexivity).
  assert (registers loadFunction = sampleRegisters) as Hr by (vm_compute; reflexivity).
  destruct (Hruns Ha Hs noHooks incrementMachine m1 tt r tt noHooks_plain noHooks_typed (sample_enterable _ Hr) Hrun Hq)
    as (m1' & H1 & H2 & H3).
  exists changed, f', r, m1, m1', tt. split; [exact Hc|]. split; [exact Hrun|]. split; [exact H1|]. split; [exact H2|exact H3].
Defined.

(** Two of the four loads go: the store is between the first two and the last. *)
Example load_removes :
  (fun r => (r.1, (fun b => length (blockOps b)) <$> blockAtId r.2 0)) <$> forwardRedundantLoads 0 loadFunction = Some (true, Some 6%nat).
Proof. vm_compute. reflexivity. Qed.
