(* ===== verification/GuestSample.v ===== *)
(** * A guest address space, run

    An embedder that ignores the top byte of an address and provides two pages,
    and the theorems on the address space applied to it. *)
From stdpp Require Import relations.
From S2P Require Import Prelude Bits U128 Eval EvalErrors Memory GuestMemory GuestPages GuestAccess GuestProps GuestPatches GuestSafe.
Local Open Scope Z_scope.

Definition stripTag (address : Z) : Z := address mod 2 ^ 56.

(** Two pages at 0x7000, readable and writable; one at 0x9000 that is only readable. *)
Definition samplePages (page : Z) : Res (option PageSeed) :=
  if (page =? 0x7000) || (page =? 0x8000) then Ok (Some (MkSeed (Z.lor Permission.Read Permission.Write) zeroPage))
  else if page =? 0x9000 then Ok (Some (MkSeed Permission.Read zeroPage))
  else Ok None.

Definition sampleEmbedder : Embedder := MkEmbedder (Some stripTag) (Some samplePages) true.

Lemma sampleEmbedder_ok : embedder_ok sampleEmbedder.
Proof.
  split; cbn; unfold fits.
  - intros a Ha. unfold stripTag. pose proof (Z.mod_pos_bound a (2 ^ 56) eq_refl). lia.
  - intros a. unfold stripTag. apply Z.mod_mod. discriminate.
  - intros a Ha. unfold stripTag, pageOffset. change (kPageSize - 1) with (Z.ones 12). rewrite !Z.land_ones by lia.
    change (2 ^ 56) with (2 ^ 12 * 2 ^ 44). rewrite Z.rem_mul_r by lia. rewrite Z.mul_comm, Z_mod_plus_full. by apply Z.mod_mod.
  - intros provide b sd [= <-]. unfold samplePages. destruct (_ || _); [by intros [= <-]; apply zeroPage_ok|].
    destruct (b =? _); [|done]. intros [= <-]. apply zeroPage_ok.
  - intros provide b [= <-]. unfold samplePages. destruct (_ || _); [done|]. by destruct (b =? _).
Qed.

(** A tagged address, four bytes below a page boundary. *)
Definition sampleAddress : Z := 0xAB00000000007FFC.
Definition sampleValue : ConcreteValue := MkU128 0x1122334455667788 0.

Lemma guest_read_after_write_witness : exists s',
  guestWrite sampleEmbedder sampleAddress 8 sampleValue newSpace = (Ok tt, s') /\
  exists s'', guestRead sampleEmbedder sampleAddress 8 s' = (Ok sampleValue, s'').
Proof.
  exists (guestWrite sampleEmbedder sampleAddress 8 sampleValue newSpace).2.
  assert (guestWrite sampleEmbedder sampleAddress 8 sampleValue newSpace =
    (Ok tt, (guestWrite sampleEmbedder sampleAddress 8 sampleValue newSpace).2)) as Hw by (vm_compute; reflexivity).
  split; [exact Hw|].
  destruct (guest_read_after_write sampleEmbedder newSpace _ sampleAddress 8 sampleValue sampleEmbedder_ok newSpace_ok
    ltac:(unfold fits, sampleAddress; lia) ltac:(split; unfold fits; cbn; lia) ltac:(lia) Hw) as (_ & Hr & _).
  apply Hr. split; [unfold inSpace; vm_compute; intuition discriminate|].
  intros b Hb. change (rangePages (canonicalize sampleEmbedder sampleAddress) 8) with [0x7000; 0x8000] in Hb. rewrite !elem_of_cons, elem_of_nil in Hb.
  destruct Hb as [->|[->|[]]]; vm_compute; reflexivity.
Defined.

(** A write that runs into the read-only page fails, and nothing was written. *)
Lemma guest_access_exact_witness : exists d s',
  guestWrite sampleEmbedder 0x8FFC 8 sampleValue newSpace = (Err d, s') /\ sameView sampleEmbedder newSpace s'.
Proof.
  destruct (guest_access_exact sampleEmbedder newSpace 0x8FFC 8 sampleValue sampleEmbedder_ok newSpace_ok
    ltac:(unfold fits; lia) ltac:(lia)) as [_ H].
  destruct (H ltac:(lia)) as (_ & r & s' & Hw & [[Hacc _]|(_ & Hv & d & ->)]); [|by exists d, s'].
  exfalso. destruct Hacc as [_ Hall]. change (rangePages (canonicalize sampleEmbedder 0x8FFC) 8) with [0x8000; 0x9000] in Hall.
  specialize (Hall 0x9000 ltac:(by right; left)).
  assert (accessible sampleEmbedder (table newSpace) Permission.Write 0x9000 = false) as Hf by (vm_compute; reflexivity). congruence.
Defined.

(** The last patch writes to a page the one before has made read-only: the
    mapping and the write before it are not made. *)
Definition samplePatches : list MemoryPatch :=
  [patchMap 0x1000 0x2000 (Z.lor Permission.Read Permission.Write) [1; 2; 3]; patchWrite 0x1FFE [7; 8; 9];
   patchProtect 0x2000 0x1000 Permission.Read; patchWrite 0x2004 [1]].

Lemma apply_all_or_nothing_witness :
  (exists d s', apply sampleEmbedder samplePatches newSpace = (Err d, s') /\ sameView sampleEmbedder newSpace s') /\
  exists s', apply sampleEmbedder (take 3 samplePatches) newSpace = (Ok tt, s') /\
    byteAt (table s') 0x1FFF = Some 8 /\ permAt (table s') 0x2000 = Some Permission.Read.
Proof.
  assert (Forall patch_ok samplePatches) as Hps.
  { unfold samplePatches, patch_ok, fits. repeat constructor; cbn; lia. }
  split.
  - destruct (apply_all_or_nothing sampleEmbedder samplePatches newSpace sampleEmbedder_ok newSpace_ok Hps)
      as [(s1 & s' & Ha & _)|(d & s' & Ha & _ & Hv)]; [|by exists d, s'].
    exfalso. assert (match (apply sampleEmbedder samplePatches newSpace).1 with Err _ => true | _ => false end = true) as He
      by (vm_compute; reflexivity). by rewrite Ha in He.
  - destruct (apply_all_or_nothing sampleEmbedder (take 3 samplePatches) newSpace sampleEmbedder_ok newSpace_ok (Forall_take _ _ _ Hps))
      as [(s1 & s' & Ha & _ & _ & _ & Hp & Hb)|(d & s' & Ha & _)].
    + exists s'. split; [exact Ha|]. rewrite Hb by (unfold fits; lia). rewrite Hp. split; vm_compute; reflexivity.
    + exfalso. assert (match (apply sampleEmbedder (take 3 samplePatches) newSpace).1 with Ok _ => true | _ => false end = true) as He
        by (vm_compute; reflexivity). by rewrite Ha in He.
Defined.

(** After a mapping, a failing one and an unmapping. *)
Lemma guest_always_consistent_witness : exists s,
  rtc guest_step newSpace s /\
  exists r s', perform sampleEmbedder (OpRead 0x1000 4) s = (r, s') /\ r <> Undefined /\ space_ok s'.
Proof.
  set (s1 := (perform sampleEmbedder (OpMap 0x1000 0x2000 Permission.Read) newSpace).2).
  set (s2 := (perform sampleEmbedder (OpMap 0x2000 8 Permission.Read) s1).2).
  set (s3 := (perform sampleEmbedder (OpUnmap 0x1000 8) s2).2). exists s3.
  assert (rtc guest_step newSpace s3) as Hr.
  { assert (forall o s, operation_ok o -> guest_step s (perform sampleEmbedder o s).2) as Hstep.
    { intros o s Ho. apply (guest_call _ _ sampleEmbedder o (perform sampleEmbedder o s).1); [exact sampleEmbedder_ok|done|]. by destruct (perform sampleEmbedder o s). }
    apply (rtc_l _ _ s1); [apply Hstep; cbn; unfold fits; lia|].
    apply (rtc_l _ _ s2); [apply Hstep; cbn; unfold fits; lia|]. apply rtc_once, Hstep. cbn. unfold fits. lia. }
  split; [exact Hr|].
  apply (guest_always_consistent sampleEmbedder s3 (OpRead 0x1000 4) Hr sampleEmbedder_ok). cbn. unfold fits. lia.
Defined.
