(* ===== verification/AlgebraSample.v ===== *)
(** * Witnesses and counterexamples of algebra

    A block of mixed boolean and arithmetic that simplifies to a difference, and
    the two shapes on which a rule changes the value. *)
From S2P Require Import Prelude Bits U128 Types Exprs Registers Func.
From S2P Require Import Eval VerifyExpr ValueTypes EvalProps Rewrite Fold FoldProps FoldSound Cfg Verify VerifyProps EvalErrors.
From S2P Require Import Memory Interp RegisterViews InterpSound FoldRuns Sample AlgebraIdioms Algebra AlgebraRules AlgebraRuns.

Definition mixedBuilder : M unit :=
  block ← createBlock 4096;
  x ← appendReadReg block 4096 0;
  y ← appendReadReg block 4100 0;
  vx ← valueRef x;                                      (* expr 0 *)
  vy ← valueRef y;                                      (* expr 1 *)
  one ← constant (integer 64) 1;                        (* expr 2 *)
  either ← binary ExprOp.Xor vx vy;                     (* expr 3 *)
  both ← binary ExprOp.And vx vy;                       (* expr 4 *)
  twice ← binary ExprOp.Shl both one;                   (* expr 5 *)
  sum ← binary ExprOp.Add either twice;                 (* expr 6: vx + vy *)
  inverse ← unary ExprOp.Not vx;                        (* expr 7 *)
  negative ← binary ExprOp.Add inverse one;             (* expr 8: -vx *)
  less ← binary ExprOp.Add sum negative;                (* expr 9 *)
  k3 ← constant (integer 64) 3;                         (* expr 10 *)
  k4 ← constant (integer 64) 4;                         (* expr 11 *)
  more ← binary ExprOp.Add less k3;                     (* expr 12 *)
  evenMore ← binary ExprOp.Add more k4;                 (* expr 13 *)
  mask ← constant (integer 64) 255;                     (* expr 14 *)
  k56 ← constant (integer 64) 56;                       (* expr 15 *)
  high ← binary ExprOp.ShrU evenMore k56;               (* expr 16 *)
  masked ← binary ExprOp.And high mask;                 (* expr 17: the shift *)
  appendWriteReg block 4104 0 masked;;
  appendReturn block 4108;;
  mret tt.

Definition mixedFunction : Function := after mixedBuilder (newFunction sampleRegisters 4096).

Definition simplified (r : option (bool * Function)) : bool :=
  match r with
  | Some (b, f) => b && (Z.of_nat (length (operandPool (tables f))) <? 2 ^ 32) && smallAfter f && tameCheck f
  | None => false
  end.

Lemma simplified_Some r : simplified r = true -> exists b f, r = Some (b, f) /\ addressable f /\ smallAfter f = true /\ tame f.
Proof.
  destruct r as [[b f]|]; [|discriminate]. cbn. rewrite !andb_true_iff. intros [[[_ H] Hs] Ht]. exists b, f.
  split; [reflexivity|]. split; [unfold addressable; lia|]. split; [exact Hs|by apply tameCheck_sound].
Qed.

Lemma mixed_simplified : exists b f', simplifyAlgebra mixedFunction = Some (b, f') /\ addressable f' /\ smallAfter f' = true /\ tame f'.
Proof. apply simplified_Some. vm_compute. reflexivity. Qed.

Lemma mixed_pool_ok : pool_ok mixedFunction.
Proof. apply pool_ok_check; vm_compute; reflexivity. Qed.

Lemma mixed_operands : operandsExist mixedFunction.
Proof. apply operandsExist_check. vm_compute. reflexivity. Qed.

Lemma mixed_registers : registers mixedFunction = sampleRegisters.
Proof. vm_compute. reflexivity. Qed.

Lemma mixed_executable : executable Maturity.Cfg mixedFunction.
Proof.
  split; [vm_compute; reflexivity|reflexivity|exact mixed_pool_ok|vm_compute; reflexivity| | | |exact mixed_operands].
  - apply definedNodes_check. vm_compute. reflexivity.
  - rewrite mixed_registers. exact file_ok_sample.
  - apply values_valid_check. vm_compute. reflexivity.
Qed.

Lemma mixed_runs : exists o m st, runBlock mixedFunction noHooks 0 incrementMachine tt = Some (o, m, st) /\ stop o <> ExecStop.Error.
Proof. apply runsQuietly_Some. vm_compute. reflexivity. Qed.

Lemma simplifyAlgebra_preserves_runs_witness :
  exists b f' r m' st', simplifyAlgebra mixedFunction = Some (b, f') /\
    runBlock mixedFunction noHooks 0 incrementMachine tt = Some (r, m', st') /\
    runBlock f' noHooks 0 incrementMachine tt = Some (r, m', st').
Proof.
  destruct mixed_simplified as (b & f' & Hs & Ha & Hsmall & Ht). destruct mixed_runs as (r & m' & st' & Hr & Hq).
  exists b, f', r, m', st'. split; [exact Hs|]. split; [exact Hr|].
  assert (pool_ok f') as Hp by exact (proj1 (simplifyAlgebra_refines mixedFunction b f' mixed_pool_ok mixed_operands Hs Ha Ht)).
  exact (simplifyAlgebra_preserves_runs Maturity.Cfg mixedFunction f' noHooks b 0 incrementMachine m' tt st' r
    mixed_executable noHooks_typed noHooks_blind (sample_enterable _ mixed_registers) Hs Ha (shallow_small f' Hp Hsmall) Ht Hr Hq).
Defined.

(** ** Where a rule changes the value *)

(** [a <u a + 5] and [a + 5 != 0]: the comparison looks at the carry from the
    other side, and [matchCarryBound] takes it all the same. *)
Definition carryBuilder : M N :=
  block ← createBlock 4096;
  x ← appendReadReg block 4096 0;
  a ← valueRef x;
  k ← constant (integer 64) 5;
  zero ← constant (integer 64) 0;
  sum ← binary ExprOp.Add a k;
  below ← binary ExprOp.CmpLtU a sum;
  some ← binary ExprOp.CmpNe sum zero;
  binary ExprOp.And below some.

(** [(a + 1) + (2^64 - 1)] on 128 bits: the constants are added as words. *)
Definition wideBuilder : M N :=
  block ← createBlock 4096;
  x ← appendReadReg block 4096 0;
  a ← valueRef x;
  wide ← cast ExprOp.ZExt (integer 128) a;
  one ← constant (integer 128) 1;
  most ← constant (integer 128) (2 ^ 64 - 1);
  inner ← binary ExprOp.Add wide one;
  binary ExprOp.Add inner most.

(** An expression, and its value before and after it is simplified. *)
Definition beforeAndAfter (m : M N) (a : Z) : option (Res ConcreteValue * Res ConcreteValue) :=
  '(id, f) ← m (newFunction sampleRegisters 4096);
  '(r, f') ← simplifyAlgebraExpr id f;
  if forallb (fun '(id, e) => exprVerifies f (N.of_nat id) e) (imap pair (exprs (pool f)))
  then Some (eval f (sampleEnv a) id, eval f' (sampleEnv a) r) else None.

(** Two rules of algebra change what an expression is worth. The carry test
    [a <u a + 5 && a + 5 != 0], written with the sum on the right, holds for 1
    and is rewritten to [-5 <u a], which does not; and at 128 bits
    [(a + 1) + (2^64 - 1)] loses the carry between its constants. *)
Theorem algebra_changes_values :
  beforeAndAfter carryBuilder 1 = Some (Ok (MkU128 1 0), Ok (MkU128 0 0)) /\
  beforeAndAfter wideBuilder 7 = Some (Ok (MkU128 7 1), Ok (MkU128 7 0)).
Proof. split; vm_compute; reflexivity. Qed.
