(* ===== verification/SpecSample.v ===== *)
(** * A small compiled specification for the theorems' witnesses

    Six rules over [Registers.sampleRegisters], enough patterns for the decision
    tree to split: a move, a branch with a guard, a return, a call of a function
    of the specification, a nop and a signed division. *)
From stdpp Require Import relations.
From S2P Require Import Prelude Bits Types Exprs Registers Func Sample.
From S2P Require Import Program Sorting Encoding EncodingProps Engine EngineProps DecodeProps EngineTotal Elaborate.
From S2P Require Import Serialize SerializeProps LoadedSafe.
Local Open Scope Z_scope.

Definition op (o : Opcode) : Z := match list_find (eq o) opcodes with Some (k, _) => Z.of_nat k | None => 0 end.
Definition intOp (o : IntOp) : Z := match list_find (eq o) intOps with Some (k, _) => Z.of_nat k | None => 0 end.

Definition sampleCode : list Insn := [
  (* 0: a function of one argument that adds one *)
  MkInsn (op Opcode.ConstInt) 0 1 0 0 0 1;
  MkInsn (op Opcode.IntBinary) (intOp IntOp.Add) 2 0 1 0 0;
  MkInsn (op Opcode.Return) 0 0 2 0 0 0;
  (* 3: x0 := field *)
  MkInsn (op Opcode.Field) 0 0 0 0 0 0;
  MkInsn (op Opcode.ConstInt) 0 1 0 0 0 64;
  MkInsn (op Opcode.Imm) 0 2 0 1 0 0;
  MkInsn (op Opcode.ConstInt) 0 3 0 0 0 0;
  MkInsn (op Opcode.WriteReg) 0 0 3 2 0 0;
  (* 8: branch to pc + field *)
  MkInsn (op Opcode.InsnPc) 0 0 0 0 0 0;
  MkInsn (op Opcode.Field) 0 1 0 0 0 0;
  MkInsn (op Opcode.IntBinary) (intOp IntOp.Add) 2 0 1 0 0;
  MkInsn (op Opcode.Branch) 0 0 2 0 0 0;
  (* 12: a guard, the field is not zero; 12 and 13 *)
  MkInsn (op Opcode.Field) 0 0 0 0 0 0;
  MkInsn (op Opcode.Return) 0 0 0 0 0 0;
  (* 14: return *)
  MkInsn (op Opcode.Ret) 0 0 0 0 0 0;
  (* 15: x0 := field + 1, through the function, unless the field is zero *)
  MkInsn (op Opcode.Field) 0 0 0 0 0 0;
  MkInsn (op Opcode.JumpIfZero) 0 0 0 0 0 6;
  MkInsn (op Opcode.CallFn) 0 1 0 1 0 0;
  MkInsn (op Opcode.ConstInt) 0 2 0 0 0 64;
  MkInsn (op Opcode.Imm) 0 3 1 2 0 0;
  MkInsn (op Opcode.WriteReg) 0 0 4 3 0 0;
  (* 21: nop *)
  MkInsn (op Opcode.Nop) 0 0 0 0 0 0 ].

Definition rule (nm : string) (guards : list Body) (start length slots : Z) : ProgramInsn :=
  MkProgramInsn nm [MkProgramField "imm" 0 16] guards (MkBody start length slots) (MkProgramAsm 0 1).

Definition pattern (instruction : Z) (nm : string) (opcode : Z) (guards : bool) : EncodingPattern :=
  MkEncodingPattern instruction nm 0xFF000000 (opcode * 0x1000000) 0 guards.

Definition sampleProgram : SpecProgram := rebuildDecoder (
  MkSpecProgram "sample" 1 little 32 64 sampleRegisters
    [MkProgramRegFile "X" 0 1 64 [1%N] [32] RegClass.General] ["nop"]%string sampleCode
    [MkProgramAsmPiece 0 0 0 (MkBody 0 0 0) (MkBody 0 0 0)]
    [MkProgramFn "next" 1 (MkBody 0 3 3)]
    [rule "movz" [] 3 5 4; rule "b" [MkBody 12 2 1] 8 4 3; rule "ret" [] 14 1 0; rule "movn" [] 15 6 5;
     rule "nop" [] 21 1 0; rule "hint" [] 21 1 0]
    [pattern 0 "movz" 1 false; pattern 1 "b" 2 true; pattern 2 "ret" 3 false; pattern 3 "movn" 4 false;
     pattern 4 "nop" 5 false; pattern 5 "hint" 6 false]
    (MkDecisionTree None 0)).

(** [movn #0x1234], [b +8] and [b +0], little endian. *)
Definition movnBytes : list Z := [0x34; 0x12; 0x00; 0x04].
Definition branchBytes : list Z := [0x08; 0x00; 0x00; 0x02].
Definition selfBranchBytes : list Z := [0x00; 0x00; 0x00; 0x02].

Definition decoded (bytes : list Z) : DecodedInsn :=
  match decode sampleProgram bytes 4096 with Done d => d | _ => MkDecodedInsn false 0 0 0 0 [] end.

(** The tree splits, the guard refuses a branch to itself. *)
Example sample_tree : treeDepth (decoder sampleProgram) = 2%nat /\ worstLeaf (decoder sampleProgram) = 3%nat.
Proof. by vm_compute. Qed.
Example sample_decodes : (decInstruction (decoded movnBytes), decValid (decoded movnBytes), decFields (decoded movnBytes),
  decInstruction (decoded branchBytes), decValid (decoded selfBranchBytes)) = (3, true, [0x1234], 1, false).
Proof. by vm_compute. Qed.

(** Two blocks, at the instruction and eight bytes on. *)
Definition twoBlocks : Function :=
  after (createBlock 4096;; createBlock 4104) (newFunction sampleRegisters 4096).
Definition sampleSite : LiftSite :=
  MkLiftSite 0 (Some (fun a => if a =? 4096 then 0%N else if a =? 4104 then 1%N else kInvalidIndex)).

Definition elaborated (bytes : list Z) : Function :=
  match elaborate sampleProgram (decoded bytes) sampleSite twoBlocks with Done (_, f) => f | _ => twoBlocks end.

Example sample_elaborates :
  (code <$> ops (tables (elaborated movnBytes))) = [OpCode.WriteReg] /\
  (code <$> ops (tables (elaborated branchBytes))) = [OpCode.Branch].
Proof. by vm_compute. Qed.

(** ** Witnesses *)

Lemma sample_decodable : decodable sampleProgram.
Proof. split; [by vm_compute|by vm_compute|reflexivity]. Qed.

Lemma sample_program_ok : program_ok sampleProgram.
Proof. apply programOk_sound. by vm_compute. Qed.

Lemma sample_program_ends : program_ends sampleProgram.
Proof. apply programEnds_sound. by vm_compute. Qed.

Lemma sample_bytes_ok bytes : forallb (fun b => (0 <=? b) && (b <? 256)) bytes = true -> bytes_ok bytes.
Proof.
  unfold bytes_ok. rewrite forallb_forall, Forall_forall. intros H b Hb%list_elem_of_In. apply H in Hb.
  unfold fits. apply andb_true_iff in Hb as []. lia.
Qed.

Lemma findOverlaps_exact_witness :
  findOverlaps (pattern 6 "again" 3 false :: patterns sampleProgram) <> [] /\
  forall c, c ∈ findOverlaps (pattern 6 "again" 3 false :: patterns sampleProgram) ->
    exists i j a b, (i < j)%nat /\ (pattern 6 "again" 3 false :: patterns sampleProgram) !! i = Some a /\
      (pattern 6 "again" 3 false :: patterns sampleProgram) !! j = Some b /\ ambiguous a b /\
      conflictFirst c = patInstruction a /\ conflictSecond c = patInstruction b /\ bothMatch a b (conflictWitness c).
Proof.
  split; [by vm_compute|]. refine (proj1 (proj2 (findOverlaps_exact (pattern 6 "again" 3 false :: patterns sampleProgram) _))).
  repeat constructor; try by vm_compute.
Defined.

Lemma decision_tree_bounds_witness :
  treeDepth (decoder sampleProgram) = 2%nat /\
  forall word, (length (treeLookup (buildDecisionTree (patterns sampleProgram) 32) word) <=
                worstLeaf (buildDecisionTree (patterns sampleProgram) 32))%nat.
Proof.
  split; [by vm_compute|]. exact (proj1 (proj2 (proj2 (decision_tree_bounds (patterns sampleProgram) 32)))).
Defined.

Lemma decode_correct_witness :
  decode sampleProgram movnBytes 4096 = Done (decoded movnBytes) /\ decValid (decoded movnBytes) = true /\
  decodeLinear sampleProgram movnBytes 4096 = Done (decoded movnBytes).
Proof.
  split; [by vm_compute|]. split; [by vm_compute|].
  refine (proj1 (proj2 (decode_correct sampleProgram movnBytes 4096 (decoded movnBytes) _ _ _ _)));
    [exact sample_decodable|by apply sample_bytes_ok|by vm_compute|by vm_compute].
Defined.

Lemma engine_total_witness :
  program_ok sampleProgram /\ exists r, decode sampleProgram branchBytes 4096 = Done r /\ exists w, probe sampleProgram r = Done w.
Proof.
  split; [exact sample_program_ok|].
  refine (proj2 (proj2 (proj2 (engine_total sampleProgram _))) _ _ branchBytes 4096 _);
    [exact sample_program_ends|exact sample_program_ok|exact sample_decodable|by apply sample_bytes_ok].
Defined.

Lemma probe_foresees_elaboration_witness : exists w os,
  probe sampleProgram (decoded branchBytes) = Done w /\ flowKind w = FlowKind.Branch /\ flowTarget w = 4104 /\
  appended twoBlocks 0 4096 os (elaborated branchBytes) /\
  exists os' o, os = os' ++ [o] /\ straight os' /\ code o = OpCode.Branch.
Proof.
  assert (exists b0, blockAtId twoBlocks 0 = Some b0) as [b0 Hb0] by (vm_compute; eauto).
  destruct (probe_foresees_elaboration sampleProgram (decoded branchBytes) sampleSite twoBlocks (elaborated branchBytes) b0)
    as (w & os & Hw & Hap & Hend); [by vm_compute|exact Hb0|by vm_compute|by vm_compute|].
  assert (probe sampleProgram (decoded branchBytes) = Done (MkInsnFlow FlowKind.Branch 4104 0 false false 0)) as Hp by by vm_compute.
  rewrite Hp in Hw. injection Hw as <-. exists (MkInsnFlow FlowKind.Branch 4104 0 false false 0), os.
  split; [exact Hp|]. split; [reflexivity|]. split; [reflexivity|]. split; [exact Hap|].
  destruct Hend as (os' & o & -> & Hs & Hc & _). exists os', o. split; [reflexivity|]. by split.
Defined.

(** ** The blob of the sample *)

Lemma sample_storable : storable sampleProgram.
Proof. split; [exact rf_wf_sample|]. apply (bool_decide_unpack _). by vm_compute. Qed.

Lemma sample_inside : inside sampleProgram.
Proof. apply checkProgram_None. by vm_compute. Qed.

Lemma serialize_roundtrip_witness :
  length (serialize sampleProgram) = 1101%nat /\ deserialize (serialize sampleProgram) = Some (inr sampleProgram).
Proof.
  split; [by vm_compute|]. apply serialize_roundtrip; [exact sample_storable|exact sample_inside|reflexivity].
Defined.

Lemma truncated_blob_refused_witness :
  deserialize (take 300 (serialize sampleProgram)) <> Some (inr sampleProgram).
Proof.
  apply (truncated_blob_refused sampleProgram _ (drop 300 (serialize sampleProgram)));
    [exact sample_storable|by rewrite take_drop|by vm_compute].
Defined.

Lemma loaded_program_safe_witness :
  deserialize (serialize sampleProgram) = Some (inr sampleProgram) /\ inside sampleProgram /\ program_ok sampleProgram.
Proof.
  assert (deserialize (serialize sampleProgram) = Some (inr sampleProgram)) as H by by vm_compute.
  destruct (loaded_program_safe (serialize sampleProgram) sampleProgram) as (Hi & _ & _ & Hp);
    [apply sample_bytes_ok; by vm_compute|exact H|].
  split; [exact H|]. split; [exact Hi|].
  destruct Hp as (_ & _ & _ & _ & Hp); [apply (bool_decide_unpack _); by vm_compute|].
  apply Hp; [apply (bool_decide_unpack _); by vm_compute..|by vm_compute].
Defined.

(** ** Errors *)

(** A truncated blob can abort the process: cut inside its register table, the
    sample's blob reaches the register file's assertions with a name it did not
    read, and no error comes back. *)
Theorem truncated_blob_aborts : exists n,
  (n < length (serialize sampleProgram))%nat /\ deserialize (take n (serialize sampleProgram)) = None.
Proof. exists 100%nat. split; [apply Nat.ltb_lt|]; by vm_compute. Qed.

(** One rule, whose semantics are the given code. *)
Definition oneRule (program : list Insn) (slots : Z) : SpecProgram := rebuildDecoder (
  MkSpecProgram "one" 1 little 32 64 sampleRegisters [] [] program [] []
    [MkProgramInsn "one" [] [] (MkBody 0 (Z.of_nat (length program)) slots) (MkProgramAsm 0 0)]
    [MkEncodingPattern 0 "one" 0 0 0 false] (MkDecisionTree None 0)).

Definition oneDecoded : DecodedInsn := MkDecodedInsn true 0 4096 0 4 [].

(** A blob whose field is shifted by 64 is accepted, and makes the decoder shift a
    word by its whole width, which C++ leaves undefined; so do instructions of
    sixteen bytes, and a replication across more than a word. *)
Definition wideField (width shift : Z) : SpecProgram := rebuildDecoder (
  MkSpecProgram "wide" 1 little width 64 sampleRegisters [] [] [MkInsn (op Opcode.Nop) 0 0 0 0 0 0] [] []
    [MkProgramInsn "one" [MkProgramField "f" shift 8] [] (MkBody 0 1 0) (MkProgramAsm 0 0)]
    [MkEncodingPattern 0 "one" 0 0 0 false] (MkDecisionTree None 0)).

Definition replicating (total : Z) : SpecProgram := oneRule
  [MkInsn (op Opcode.ConstInt) 0 0 0 0 0 1; MkInsn (op Opcode.ConstInt) 0 1 0 0 0 32;
   MkInsn (op Opcode.ConstInt) 0 2 0 0 0 total; MkInsn (op Opcode.ReplicateInt) 0 3 0 1 2 0] 4.

Theorem out_of_range_shifts :
  deserialize (serialize (wideField 32 64)) = Some (inr (wideField 32 64)) /\
  decode (wideField 32 64) [1; 2; 3; 4] 4096 = Fault /\ (exists r, decode (wideField 32 63) [1; 2; 3; 4] 4096 = Done r) /\
  deserialize (serialize (wideField 128 0)) = Some (inr (wideField 128 0)) /\
  decode (wideField 128 0) (repeat 1 16) 4096 = Fault /\
  deserialize (serialize (replicating 128)) = Some (inr (replicating 128)) /\
  probe (replicating 128) oneDecoded = Fault /\ exists w, probe (replicating 64) oneDecoded = Done w.
Proof. split_and!; try (by vm_compute); eexists; vm_compute; reflexivity. Qed.

(** An error of the last instruction of a body is dropped: the loop looks for
    one before an instruction, not after it, so semantics that end in a write
    outside their frame elaborate without an error, and the instruction becomes
    nothing. *)
Theorem last_error_dropped :
  let p := oneRule [MkInsn (op Opcode.ConstInt) 0 7 0 0 0 1] 1 in
  (exists r s, run p oneDecoded (Some sampleSite) (MkBody 0 1 1) (newEngine twoBlocks) = Done ((true, r), s) /\
     engineError s = Some EngineError.SlotOutsideFrame) /\
  elaborate p oneDecoded sampleSite twoBlocks = Done (None, twoBlocks) /\
  exists s, run p oneDecoded (Some sampleSite) (MkBody 0 1 1) s = Done ((false, emptySlot), s) /\
    engineError s = Some EngineError.NoSuchFunction.
Proof.
  split_and!.
  - eexists _, _. split; [by vm_compute|done].
  - by vm_compute.
  - exists (withError (newEngine twoBlocks) EngineError.NoSuchFunction). split; [by vm_compute|done].
Qed.

(** Division can trap: the quotient of the least number by minus one overflows
    in a specification's arithmetic, although a zero divisor is taken care of. *)
Theorem signed_division_traps : forall o, o = IntOp.DivS \/ o = IntOp.RemS ->
  applyIntBinary (Some o) (2 ^ 63) (2 ^ 64 - 1) = None /\
  (forall a, applyIntBinary (Some o) a 0 = Some 0) /\
  (let p := oneRule [MkInsn (op Opcode.ConstInt) 0 0 0 0 0 (2 ^ 63); MkInsn (op Opcode.ConstInt) 0 1 0 0 0 (2 ^ 64 - 1);
                     MkInsn (op Opcode.IntBinary) (intOp o) 2 0 1 0 0] 3 in
   probe p oneDecoded = Fault).
Proof. intros o [-> | ->]; (split_and!; [by vm_compute|done|by vm_compute]). Qed.
