(* ===== verification/LiftSample.v ===== *)
(** * A small piece of code for the lifter

    Eight instructions of [SpecSample.sampleProgram] in readable memory, where a
    branch found later splits a block found earlier; and what the lifter makes of
    them. *)
From S2P Require Import Prelude Bits Types Exprs Registers Func Cfg Sample PltStub.
From S2P Require Import Program Sorting Encoding EncodingProps Engine DecodeProps EngineTotal SpecSample.
From S2P Require Import Lift LiftScan LiftProps LiftEnds.
Local Open Scope Z_scope.

(** 4096: [b 4120]; 4100: [ret]; 4104, 4108: [nop]; 4112, 4116, 4120: [nop];
    4124: [ret]. *)
Definition sampleText : list Z :=
  [24; 0; 0; 2] ++ [0; 0; 0; 3] ++ [0; 0; 0; 5] ++ [0; 0; 0; 5] ++
  [0; 0; 0; 5] ++ [0; 0; 0; 5] ++ [0; 0; 0; 5] ++ [0; 0; 0; 3].

Definition sampleReader : ByteReader := fun va count =>
  if (4096 <=? va) && (va + Z.of_nat count <=? 4128) then Some (take count (drop (Z.to_nat (va - 4096)) sampleText))
  else None.

(** The loader fills no slot. *)
Definition noNames : LoaderNames := fun _ => ""%string.

Definition sampleMemory : gset Z := list_to_set (seqZ 4096 32).

Lemma sample_bytes_readable : bytes_readable sampleProgram sampleReader sampleMemory.
Proof.
  assert (width sampleProgram = 4) as Hw by by vm_compute. split; rewrite ?Hw.
  - intros a Ha. unfold sampleMemory. rewrite elem_of_list_to_set, elem_of_seqZ. unfold readable, readWord, sampleReader in Ha.
    rewrite Hw in Ha. destruct (_ && _) eqn:E in Ha; [|done]. apply andb_true_iff in E as [?%Z.leb_le ?%Z.leb_le]. lia.
  - intros a. unfold sampleMemory. rewrite elem_of_list_to_set, elem_of_seqZ. lia.
  - intros a word. unfold readWord, sampleReader. destruct (_ && _); [|done]. intros [= <-].
    apply Forall_take, Forall_drop. by apply sample_bytes_ok.
Qed.

Lemma sample_valid_width : validWidth sampleProgram = true.
Proof. by vm_compute. Qed.

(** A check of [flows_ok] at one address. *)
Definition flowsAt (coverage : option LiftCoverage) (a : Z) : bool :=
  match readWord sampleProgram sampleReader a with
  | Some word =>
      match flowAt sampleProgram a word with
      | Done flow =>
          let targets := filter (fun t => visited sampleProgram sampleReader t = true) (successorsOf sampleProgram coverage (a + 4) flow) in
          forallb (fun t => t mod 4 =? 0) targets &&
          forallb (fun t1 => forallb (fun t2 => negb ((t1 <=? a) && (t2 <=? a)) || (t1 =? t2)) targets) targets
      | _ => true
      end
  | None => true
  end.

Lemma sample_flows_ok coverage :
  forallb (fun a => negb (a mod 4 =? 0) || flowsAt coverage a) (seqZ 4096 32) = true ->
  flows_ok sampleProgram sampleReader coverage.
Proof.
  intros H. rewrite forallb_forall in H. assert (width sampleProgram = 4) as Hw by by vm_compute.
  assert (forall a flow, (4 | a) -> flows sampleProgram sampleReader coverage a flow ->
    let targets := filter (fun t => visited sampleProgram sampleReader t = true) (successorsOf sampleProgram coverage (a + 4) flow) in
    (forall t, t ∈ targets -> (4 | t)) /\ forall t1 t2, t1 ∈ targets -> t2 ∈ targets -> t1 <= a -> t2 <= a -> t1 = t2) as Hat.
  { intros a flow Ha Hf. pose proof (flows_readable _ _ _ _ _ Hf) as Hr.
    pose proof (br_finite _ _ _ sample_bytes_readable a Hr) as Hm. unfold sampleMemory in Hm. rewrite elem_of_list_to_set in Hm.
    specialize (H a (proj1 (list_elem_of_In _ _) Hm)). apply orb_true_iff in H as [H|H].
    { apply negb_true_iff, Z.eqb_neq in H. apply Z.mod_divide in Ha; [congruence|done]. }
    destruct Hf as (_ & word & Hword & Hflow). unfold flowsAt in H. rewrite Hword, Hflow in H. apply andb_true_iff in H as [H1 H2].
    rewrite forallb_forall in H1, H2. split.
    - intros t Ht%list_elem_of_In. apply Z.mod_divide; [done|]. by apply Z.eqb_eq, H1.
    - intros t1 t2 H3%list_elem_of_In H4%list_elem_of_In Hl1 Hl2. specialize (H2 t1 H3). rewrite forallb_forall in H2. specialize (H2 t2 H4).
      apply orb_true_iff in H2 as [H2|H2]; [|by apply Z.eqb_eq]. apply negb_true_iff, andb_false_iff in H2 as [?|?]; lia. }
  split; rewrite Hw.
  - intros a flow t Ha Hf Ht Hv. apply (proj1 (Hat a flow Ha Hf)). by apply list_elem_of_filter.
  - intros a flow t1 t2 Ha Hf H1 H2 Hv1 Hv2. apply (proj2 (Hat a flow Ha Hf)); by apply list_elem_of_filter.
Qed.

(** *** What the scan finds *)

Definition emptyFunction : Function := newFunction sampleRegisters 4096.

Definition scanned (coverage : option LiftCoverage) (entries : list Z) : list (Z * Z) :=
  match scan sampleProgram sampleReader noNames coverage 33 20 entries (newDiscovery emptyFunction) with
  | Done d => map_to_list (extents d)
  | _ => []
  end.

(** The block at 4112 is found first and split at 4120. *)
Example sample_scan : Permutation (scanned None [4112; 4096]) [(4096, 4100); (4112, 4120); (4120, 4128)].
Proof. vm_compute. solve_Permutation. Qed.

(** Traced code with two targets inside of the block that ends in the jump to
    them: the block is not split, and its instructions lie in two blocks. *)
Definition tracedJump : option LiftCoverage :=
  Some (MkCoverage (Some (fun _ => true)) (Some (fun va => if va =? 4124 then [4116; 4120] else []))).

Example observed_targets_overlap :
  Permutation (scanned tracedJump [4112]) [(4112, 4128); (4116, 4120); (4120, 4128)] /\
  forallb (flowsAt tracedJump) [4096; 4100; 4104; 4108; 4112; 4116; 4120] = true /\ flowsAt tracedJump 4124 = false.
Proof. split; [vm_compute; solve_Permutation|by vm_compute]. Qed.

(** *** What the lifter makes of it *)

Definition blockShapes (f : Function) : list (Z * Z * list OpCode * list N * bool) :=
  (fun b => (blockVa b, endVa b, (fun id => from_option code OpCode.Unimplemented (ops (tables f) !! N.to_nat id)) <$> blockOps b,
             successors b, external b)) <$> blocks f.

(** The function at 4096, then the blocks at 4112 spliced into it: the block at
    4120 that is there already is neither scanned again nor split. *)
Example sample_lifts :
  match liftFunction sampleProgram sampleReader noNames None 33 20 4096 with
  | Done (inr lifted, f) => Some (liftedEntry lifted, blockShapes f)
  | _ => None
  end = Some (0%N, [(4096, 4100, [OpCode.Branch], [1%N], false); (4120, 4128, [OpCode.Nop; OpCode.Return], [], false)]).
Proof. vm_compute. reflexivity. Qed.

Definition liftedAt4096 : Function :=
  match liftFunction sampleProgram sampleReader noNames None 33 20 4096 with Done (_, f) => f | _ => emptyFunction end.

Definition splicedInto (f : Function) (coverage : option LiftCoverage) (entries : list Z) : option (list Z * list (Z * Z * list OpCode * list N * bool)) :=
  match liftBlocksInto sampleProgram sampleReader noNames coverage 33 20 entries f with
  | Done (inr (lifted, _), f) => Some (lifted, blockShapes f)
  | _ => None
  end.

Example sample_splices :
  splicedInto liftedAt4096 None [4112] =
  Some ([4112], [(4096, 4100, [OpCode.Branch], [1%N], false); (4120, 4128, [OpCode.Nop; OpCode.Return], [], false);
                 (4112, 4120, [OpCode.Nop; OpCode.Nop; OpCode.Branch], [1%N], false)]).
Proof. vm_compute. reflexivity. Qed.

(** A trace that returns at once from 4096: the arm it does not take is a stub;
    and lifting that arm's code later leaves the stub as it is. *)
Definition tracedReturn : option LiftCoverage :=
  Some (MkCoverage (Some (fun va => va =? 4096)) (Some (fun _ => []))).
Definition tracedAt4096 : Function :=
  match liftFunction sampleProgram sampleReader noNames tracedReturn 33 20 4096 with Done (_, f) => f | _ => emptyFunction end.

Example stub_entry_ignored :
  blockShapes tracedAt4096 = [(4096, 4100, [OpCode.Branch], [1%N], false); (4120, 4120, [], [], true)] /\
  splicedInto tracedAt4096 None [4120] = Some ([], blockShapes tracedAt4096).
Proof. split; vm_compute; reflexivity. Qed.

(** Instructions narrower than a byte: the functions refuse, the range divides by
    the width. *)
Definition narrowProgram : SpecProgram :=
  MkSpecProgram "narrow" 1 little 4 64 sampleRegisters [] [] [] [] [] [] [] (MkDecisionTree None 0).

Example narrow_width_traps :
  liftBasicBlock narrowProgram [0] 4096 = Fault /\
  liftFunction narrowProgram sampleReader noNames None 33 20 4096 = Done (inl BadWidth, newFunction sampleRegisters 4096).
Proof. split; vm_compute; reflexivity. Qed.

(** The whole text as a range: blocks are in order of their addresses, the code
    after a terminator is one, and the stub follows. *)
Example sample_range :
  match liftBasicBlock sampleProgram sampleText 4096 with
  | Done (inr id, f) => Some (id, blockShapes f)
  | _ => None
  end = Some (0%N, [(4096, 4100, [OpCode.Branch], [3%N], false); (4100, 4104, [OpCode.Return], [], false);
                    (4104, 4120, [OpCode.Nop; OpCode.Nop; OpCode.Nop; OpCode.Nop; OpCode.Branch], [3%N], false);
                    (4120, 4128, [OpCode.Nop; OpCode.Return], [], false); (4128, 4128, [], [], true)]).
Proof. vm_compute. reflexivity. Qed.

(** ** Witnesses *)


Lemma lift_terminates_witness :
  bytes_readable sampleProgram sampleReader sampleMemory /\
  exists fuel, liftFunction sampleProgram sampleReader noNames None 33 fuel 4096 <> OutOfFuel.
Proof.
  split; [exact sample_bytes_readable|].
  exact (proj2 (proj2 (lift_terminates sampleProgram sampleReader noNames None sample_program_ends sampleMemory
    sample_valid_width) sample_bytes_readable
      (trap_free_flows _ _ _ sample_program_ok sample_decodable sample_bytes_readable)) 4096).
Defined.

(** [adrp x16, 0x411000; ldr x17, [x16, 0x18]] at 0x400010. *)
Definition stubReader : ByteReader := fun va count =>
  if (va =? 0x400010) && (count =? 8)%nat then Some (wordBytes (encodeAdrp 16 17) ++ wordBytes (encodeLdr 17 16 24)) else None.

Lemma plt_stub_roundtrip_witness :
  stubReader 0x400010 8%nat = Some [0x90; 0; 0; 0xB0; 0x11; 0x0E; 0x40; 0xF9] /\ pltGotSlot stubReader 0x400010 = Some 0x411018.
Proof.
  split; [by vm_compute|].
  exact (plt_stub_roundtrip stubReader 0x400010 0x411018 16 16 17 ltac:(by vm_compute) ltac:(by vm_compute) ltac:(by vm_compute)
    ltac:(by vm_compute) ltac:(by vm_compute) ltac:(by vm_compute) ltac:(by vm_compute) ltac:(by vm_compute)).
Defined.
